(* ===== verification/_CoqProject ===== *)
-Q . S2P
Prelude.v
RustStd.v
CloudCore.v
SteamProtocol.v
SteamProtocolProofs.v
SchemaProofs.v
StatsMerge.v
StatsMergeProofs.v
ProtocolExamples.v
Apps.v
PlaytimeDownlink.v
GameBridge.v
IpcServer.v
BridgeExamples.v
LocalSync.v
LocalSyncProofs.v
LocalSyncExamples.v
Storage.v
JournalRecord.v
SyncJournal.v
JournalProofs.v
JournalStats.v
JournalInvariant.v
JournalExamples.v
FileSystem.v
StoreFiles.v
StoreFilesProofs.v
FolderStore.v
FolderStoreProofs.v
StoreCommit.v
StoreBegin.v
StoreRead.v
StoreSpec.v
StoreTheorems.v
StoreGc.v
StoreGcProofs.v
StoreOpen.v
StoreSessions.v
StoreSessionProofs.v
FolderStoreExamples.v
Syncthing.v
SyncthingProofs.v
GcCoordinator.v
GcCoordinatorProofs.v
GcInspection.v
GcExamples.v
CumulusClient.v
CloudSettings.v
ConflictUi.v
ConflictUiProofs.v
ConflictResolve.v
Transfers.v
TransferProofs.v
CloudMessages.v
LocalRpc.v
LocalRpcProofs.v
LocalRpcInvariant.v
CumulusRpc.v
CumulusRpcProofs.v
RpcProtocol.v
RpcQueue.v
RpcQueueProofs.v
RpcExamples.v
CumulusExamples.v
DeviceStream.v
DeviceStreamProofs.v
DevicePair.v
DevicePairProofs.v
DeviceExamples.v
WorkerContext.v
Backends.v
PlaytimeWorker.v
PlaytimeWorkerProofs.v
PlaytimeDelivery.v
UserStats.v
UserStatsProofs.v
UserStatsPlaytime.v
AchievementWorker.v
AchievementProofs.v
WorkerExamples.v
