(* ===== verification/Prelude.v ===== *)
(** * Vapor Forge: a verification library

    Vapor Forge runs inside the Steam client. It keeps achievements, stats, playtime
    and save files of an account in step between devices, either through a shared folder
    or through a remote service; it decides which apps count as owned; and it receives reports from
    helpers inside game processes. This library models that logic, translated from the
    Rust sources under [src/crates], and proves the properties that make it correct.

    ** The program and how its parts interact

    - The client's stats and playtime observations are queued in the journal
      ([sync-journal]), a database of outgoing records with revisions and retry times.
      A record is handed to a backend together with its revision and is settled or
      deferred by that revision afterwards.
    - A backend implements the interface of [cloud-core]. The folder backend
      ([cloud-local]) writes one record per device and app and converges the records of
      all devices when it is read. The other one ([cloud-cumulus]) is the client of a
      remote service, which also streams the changes of other devices.
    - Worker threads move the observations: [hooks/src/playtime_worker.rs] takes playtime
      from Steam's messages into the journal and from there to the backend;
      [hooks/src/client/user_stats.rs] asks Steam to refresh stats, reads them once that is
      done and samples playtime; [hooks/src/achievement_worker.rs] journals what Steam stores
      and uploads the snapshots and schemas the journal holds.
    - Steam's own cloud requests are intercepted and answered ([cloud-rpc]): a queue between
      the network thread and a worker, an adapter for the folder and one for the service,
      targets for the contents of files, and dialogs for conflicts.
    - Save files go through the file store of the same folder
      ([cloud-local/src/store.rs]): each upload batch publishes a manifest, named by the
      digest of its contents, that refers to the manifests it replaces. Devices that
      publish without having seen each other leave several heads, a conflict the user
      resolves. Old manifests are collected, and a device that launches a game claims
      it. Another tool (Syncthing) copies the folder between devices. Collection runs in
      the background ([cloud-local/src/gc.rs]) and asks Syncthing before and after it
      deletes ([cloud-local/src/syncthing.rs]).
    - What a backend returns goes back to Steam: stats through the answers built by
      [hooks/src/stats_merge.rs] in the wire formats of [steam-protocol], playtime
      through the rewriting of [hooks/src/client/playtime_downlink.rs].
    - Which apps are controlled is decided by [config/src/model.rs] and
      [features/src/apps.rs]; the playtime rewriting and the game bridge use it.
    - Game helpers speak the protocol of [game-bridge] to the server of
      [hooks/src/ipc_server.rs].

    ** Files

    - [Prelude] (this file): results, machine integers at their width, bytes and
      strings, Rust's stable sorts over the class [KeyOrd], trimming, hexadecimal text;
      the tactics [res_inv], [case_goal], [int_lia] and the hint database [vapor].
    - [RustStd]: the parts of Rust's standard library the sources use: decimal numbers,
      [f32::from_str] with correct rounding, UTF-8 validation and lossy decoding, file
      names, [BTreeMap] values, and the theory of loops that fold keyed values.
    - [CloudCore]: [cloud-core]'s records, owner scopes over any
      digest, the device descriptor, stream cancellation as a step relation.
    - [SteamProtocol] with [SteamProtocolProofs] and [SchemaProofs]: packet framing, the
      stats token (canonical bytes, CRC-32C), the binary schema parser, licenses.
    - [StatsMerge], [StatsMergeProofs]: the two stats answers; [ProtocolExamples].
    - [Apps]: the apps section with its cached index, ownership decisions, the list of
      subscribed apps. [PlaytimeDownlink]: the playtime cache and the rewriting of
      Steam's messages.
    - [GameBridge]: messages, codec, readers and writers (classes [Read] and [Write]),
      tokens. [IpcServer]: tokens, permits, one connection, and the server as a state
      machine over the events of its threads. [BridgeExamples]: all of these at work.
    - [LocalSync], [LocalSyncProofs], [LocalSyncExamples]: the folder backend of
      [cloud-local/src/sync.rs]; the folder is a map of directory listings.
    - [Storage]: the classes [Structsy], [StructsyLaws] and [StructsyTotal], the
      contract of the structsy database, with an in-memory instance.
      [JournalRecord]: the persistent records. [SyncJournal]: every operation of
      [sync-journal/src/store.rs] against that contract, with the class [Journaled] for
      the record kinds the generic outbox settles. [JournalProofs], [JournalStats],
      [JournalInvariant]: their theorems; [JournalExamples].
    - [FileSystem]: a tree of files and the calls of [std::fs], in a monad over the
      class [Host], which can fail any call. [StoreFiles], [StoreFilesProofs]: the file
      helpers of [cloud-local/src/store.rs] (atomic publish and replace, bounded reads,
      validation). [FolderStore], [FolderStoreProofs]: the store's data, reading an app,
      save operations, queries. [StoreCommit], [StoreBegin], [StoreRead]: what the
      operations do to the tree. [StoreSpec], [StoreTheorems]: the abstract step of an
      app and the store's main theorems. [StoreGc], [StoreGcProofs]: collection.
      [StoreOpen]: opening a repository and the process-wide registry of its work
      directories. [StoreSessions], [StoreSessionProofs]: session claims.
      [FolderStoreExamples]: a host, codecs and witnesses.
    - [Syncthing], [SyncthingProofs]: the client of Syncthing's HTTP interface.
      [GcCoordinator]: the background collection, its inspections in stages and its
      threads as a state machine; [GcCoordinatorProofs], [GcInspection]: its theorems;
      [GcExamples].
    - [CumulusClient]: the client of the remote service: requests, errors, device binding,
      uploads and pulls. [CloudSettings]: settings, endpoints and transfer targets of
      [cloud-rpc]. [ConflictUi], [ConflictUiProofs], [ConflictResolve]: the coordinator of
      conflict dialogs as a state machine, and what applying a choice does to the store.
      [Transfers], [TransferProofs]: the registry of [cloud-local/src/transfer.rs].
    - [CloudMessages]: the messages of Steam's cloud requests. [LocalRpc], [LocalRpcProofs],
      [LocalRpcInvariant]: the adapter over the folder. [CumulusRpc], [CumulusRpcProofs]:
      the adapter over the service. [RpcProtocol]: which requests are answered, and the
      framing of responses. [RpcQueue], [RpcQueueProofs]: the queue as a state machine.
      [RpcExamples], [CumulusExamples].
    - [DeviceStream], [DeviceStreamProofs]: connecting to, reading and reconnecting one event
      stream of the service. [DevicePair], [DevicePairProofs]: the two streams of an account
      merged behind a baseline, as a state machine of three threads. [DeviceExamples].
    - [WorkerContext]: the interface [CloudBackend] as a record of operations, the configured
      backend, the principals and the identity of the runtime. [Backends]: both backends as
      values of it. [PlaytimeWorker]: the playtime worker in a state monad over a world that
      carries a script of what other threads do. [PlaytimeWorkerProofs],
      [PlaytimeDelivery]: its theorems, the last against the class [PlaytimeSink] of
      backends and its instance for the folder. [UserStats], [UserStatsProofs],
      [UserStatsPlaytime]: the stats worker as a state machine. [AchievementWorker],
      [AchievementProofs]: the uploads of stats and schemas ([hooks/src/achievement_worker.rs])
      in a world of the same shape, proved over the commit protocol of [JournalStats].
      [WorkerExamples].

    Definitions keep the source's names; a method of a type that clashes carries the
    type's name first ([PlaytimeRecord_merge] is [PlaytimeRecord::merge]). A loop is a
    fixpoint of its own next to the operation that contains it. Functions of the
    sources that mutate state return the new state; failures are values of [result] or
    [option]. Strings are the bytes of their UTF-8 form.

    ** What the theorems show

    - Journal: every reachable journal satisfies the identity and revision invariant
      ([journal_invariant]), a failing operation changes nothing ([journal_atomic]) and
      a working database lets every well-formed operation succeed ([journal_progress]);
      the stats records implement an abstract commit protocol, call by call and answer
      by answer ([stats_protocol_refinement]); an update that arrives while its record is being
      uploaded is never lost ([inflight_update_survives], [superseded_snapshot_kept]);
      the functional behaviour of acknowledging, deferring, enqueueing and listing.
    - Folder backend: convergence does not depend on the order devices are read in,
      never loses an unlock and takes the latest stat
      ([reduce_app_state_order_independent], [reduce_keeps_unlocks],
      [reduce_takes_latest], [reduce_playtime_spec]); uploads publish what was observed
      and never lower a playtime ([upload_snapshot_publishes],
      [upload_playtime_monotone]); folding keeps records valid.
    - File store: whatever calls of the host fail, a commit, a write, a deletion or a
      resolution leaves an app as it was or adds the one manifest the abstract step says
      ([commit_refines], [write_refines], [delete_removes], [resolution_collapses]);
      what was written is what is read ([write_then_read]) and only contents with the
      recorded digest are ever returned ([read_integrity]); commits that overlap are
      both kept and seen as a conflict, a commit over an outdated view is refused
      ([overlapping_commits], [stale_commit_refused]). A sweep never removes what is
      retained nor changes the heads, and undoing it restores the app
      ([sweep_spares_retained], [sweep_keeps_heads], [sweep_restores]). A device that
      launches while the claim of another is on disk is told so ([sessions_exclude]),
      sessions never touch saves ([sessions_keep_saves]), and dropping a repository
      spares a work directory in use ([drop_spares_live]).
    - Background collection: in every interleaving of clients, worker and listeners the
      shared state is consistent ([coordinator_invariant]), the newest request of an app
      is not lost ([newest_request_kept]) nor is a wake-up for a deferred one
      ([wake_reaches_deferred]), and a sweep starts only for the newest request, queued
      after the last [invalidate] ([sweep_starts_current]). An inspection spares what has
      to stay ([inspection_spares]) and one that is put off leaves the app as it was
      ([deferral_undone]). The client of Syncthing sends its key only over HTTPS or to
      this machine ([requests_confined]), its walk ends and covers every file
      ([walk_ends], [boundary_covers]), deletions are confirmed ([deletion_confirmed])
      and event cursors advance ([cursor_advances]).
    - Wire formats: the schema parser inverts an encoder and always ends
      ([schema_parse_roundtrip], [schema_parse_total]); the stats token identifies a
      state ([canonical_bytes_name_state], [crc32c_detects_byte_change]) and both
      answers agree on it ([answers_agree]).
    - Apps and playtime: the index equals the list it caches ([app_index_correct]);
      when ownership is injected ([ownership_decisions]); what Steam is told about
      subscriptions ([subscribed_apps_spec]) and playtime ([overlay_serves_backend],
      [cache_keeps_newest]).
    - Game bridge: codec round trip, and that only a client with a registered token can
      delegate an app, and only its own ([connection_delegates_only_its_app],
      [server_invariant], [honest_session], [token_lifecycle]).
    - Cloud requests: an accepted request is answered exactly once, the queue is bounded and
      every request is answered in the end ([answered_once], [queue_bounded],
      [all_answered]). Over the folder, a batch replaces exactly the versions the client
      was shown, a file sent through a batch is in the next manifest, and open batches stay
      consistent ([only_seen_replaced], [batch_upload_published],
      [rpc_batches_invariant], [upload_committed]). Over the service, requests go to the
      configured service, from a device it has bound, the blocks Steam uploads are the whole
      file, and a choice between versions is not lost ([requests_from_bound_device],
      [upload_covers_file], [conflict_choice_survives], [changelist_names_files],
      [credentials_confined]). The conflict dialogs stay consistent, and a launch resumes only
      after its choice was published ([conflict_ui_invariant], [resumed_after_publish],
      [choice_publishes], [ui_work_signalled], [cancelled_choice_silent]).
    - Event streams: an event is delivered however its bytes arrive
      ([stream_delivers_events], [stream_read_whole]); the caller is told a baseline taken
      after both streams were open and then the events of each in order
      ([baseline_barrier]); no thread sleeps while there is work ([no_missed_wakeup]);
      connecting keeps its deadline and reconnecting backs off
      ([connect_keeps_deadline], [reconnects_back_off], [stop_closes_sockets]).
    - Workers: an observed playtime is pending, in the journal or with the backend, whatever
      fails and however the threads interleave ([playtime_never_lost]), and with the folder
      the minutes are in it ([playtime_reaches_folder], which joins the worker, the journal
      and the folder backend); a device the backend refused for good is not asked for again
      in that context ([refused_device_left_alone]). A commit of stats that was journaled is
      held until a newer one of the same app takes its place or the backend has taken or
      refused for good a snapshot that carries it, through refusals, retries and commits that
      arrive during an upload ([stats_commit_never_lost]), and what Steam is told was stored
      is in the journal ([store_commit_persisted]). The queues of the stats worker are
      consistent ([user_stats_invariant]), a read that asked for a refresh happens after a
      refresh issued later succeeded ([read_follows_refresh]; [split_change_reads_early]
      shows why it is about changes of context whose two halves are not separated), and a
      playtime signal is answered ([playtime_signal_answered]).
    - Cloud core: scopes bind their fields ([scope_digest_binds]); a waiting forwarder
      never misses an activity ([no_lost_wakeup]).

    ** Fuel and bounds

    [parser_object] recurses with fuel and [schema_parse_total] shows that one more than
    the bytes left is enough; a varint has at most ten bytes and [dec_text] at most
    twenty digits, which a 64-bit number never exceeds; [message_loop] reports whether
    it has ended, its theorems hold at every fuel, and one more than the bytes or
    messages the peer sends lets it end. [index_tree] walks a directory with fuel, and
    as much as there are directories is enough ([walk_ends]). The counters of the
    coordinator, the epochs of the stats worker and the counters of signals are 64 bits wide
    and wrap, as are the revisions of journal rows; the theorems that need them to grow bound
    the length of the run. [read_loop]
    reads a stream with as much fuel as there are bytes and reads left; [collect_loop] has
    two rounds more than there are events, and every round but the last receives one;
    [upload_loop] runs a number of turns and its theorems hold for every number. The runs of
    the state machines are lists of choices of the scheduler of any length. Integers are [Z] with their range
    stated where it matters and wrap-around, saturation and truncation written out.

    ** Parameters

    Code outside the repository is an argument: SHA-256, serde_json and prost coding,
    SHA-1, the HTTP library and the service behind it, the URI parser, the iteration
    order of hash maps and of directories, the clock, the device of a path, and the structsy database through its class. A host may fail any file-system
    call; files are values, since nothing writes to a file already linked into place,
    the tree has no symbolic links and [Path::exists] is truthful. Calls on one app are
    taken one after the other, as its lock makes them. The
    hypotheses about them state their documented behaviour: a digest is a list of
    bytes, decoding inverts encoding, iteration lists the bindings in some order, a
    transaction is atomic. What other threads do is part of the input: a script or a list of
    actions, one entry for every access to something shared. The functions that put several
    process-wide values together read them at one moment. The example files instantiate each
    of them.

    ** Not modelled

    Native hooks and detours ([hooks/src/client], [hooks/src/netpacket]), injected code,
    memory and PE handling, signature scanning, the loader, Lua and the user interface act
    through raw pointers, foreign calls or generated tables, and their effects are not
    expressible over values the sources define. Of the stats worker, the native session and
    the diagnostic queries of debug builds are outside; its answers are part of an action.
    Socket time-outs, TLS and the HTTP library lie behind the parameters above, and creating
    a thread is modelled only where its failure is handled. Reads of the journal do not fail,
    writes do. Logging and counters for diagnosis are left out. The account
    downlink worker uses the same journal and backends as the other workers and is the
    natural continuation, as are the ticket and package features. *)

From Stdlib Require Import ZArith Lia Bool List String Ascii.
From stdpp Require Export base tactics decidable option list list_numbers gmap strings sorting.

Local Open Scope Z_scope.

(** ** The development's notations, tactics and hint database *)

Declare Scope vapor_scope.
Delimit Scope vapor_scope with vapor.

Create HintDb vapor.

(** ** Results: Rust's [Result<T, E>] *)

Inductive result (E A : Type) : Type :=
| Ok (a : A)
| Err (e : E).
Arguments Ok {E A} a.
Arguments Err {E A} e.

#[export] Instance result_ret E : MRet (result E) := λ A a, Ok a.
#[export] Instance result_bind E : MBind (result E) := λ A B f r,
  match r with Ok a => f a | Err e => Err e end.
#[export] Instance result_fmap E : FMap (result E) := λ A B f r,
  match r with Ok a => Ok (f a) | Err e => Err e end.
#[export] Instance result_eq_dec E A `{EqDecision E, EqDecision A} :
  EqDecision (result E A).
Proof. solve_decision. Defined.

Definition is_ok {E A} (r : result E A) : bool :=
  match r with Ok _ => true | Err _ => false end.

(** [Result::ok] *)
Definition ok {E A} (r : result E A) : option A :=
  match r with Ok a => Some a | Err _ => None end.

(** [Option::ok_or] *)
Definition ok_or {E A} (o : option A) (e : E) : result E A :=
  match o with Some a => Ok a | None => Err e end.

Lemma bind_Ok_inv {E A B} (f : A → result E B) (r : result E A) (b : B) :
  r ≫= f = Ok b → ∃ a, r = Ok a ∧ f a = Ok b.
Proof. destruct r; simpl; [eauto | discriminate]. Qed.

(** Split every [x ← e; k = Ok _] hypothesis into its steps. *)
Ltac res_inv :=
  repeat match goal with
  | H : mbind _ _ = Ok _ |- _ =>
      let x := fresh "x" in let Hx := fresh "Hx" in
      apply bind_Ok_inv in H as (x & Hx & H)
  | H : Ok _ = Ok _ |- _ => injection H as H; subst
  | H : Err _ = Ok _ |- _ => discriminate H
  | H : mret _ = Ok _ |- _ => injection H as H; subst
  end.

(** Case split on the scrutinee of the first [match]/[if] in the goal or in the
    hypotheses, keeping the equation. *)
Ltac case_goal :=
  match goal with |- context [match ?x with _ => _ end] => destruct x eqn:? end.

(** ** Labelled runs

    [trace step es s s']: the events [es], in this order, lead from [s] to [s']. *)
Inductive trace {E S} (step : E → S → S → Prop) : list E → S → S → Prop :=
| trace_nil s : trace step [] s s
| trace_cons e es s1 s2 s3 :
    step e s1 s2 → trace step es s2 s3 → trace step (e :: es) s1 s3.

Lemma trace_snoc {E S} (step : E → S → S → Prop) es e s1 s2 s3 :
  trace step es s1 s2 → step e s2 s3 → trace step (es ++ [e]) s1 s3.
Proof. induction 1; intros Hs; cbn; econstructor; eauto using trace_nil. Qed.

Lemma trace_app_inv {E S} (step : E → S → S → Prop) es es' s1 s3 :
  trace step (es ++ es') s1 s3 → ∃ s2, trace step es s1 s2 ∧ trace step es' s2 s3.
Proof.
  revert s1. induction es as [|e es IH]; cbn; intros s1 Ht; [by exists s1; split; [constructor|]|].
  inversion Ht as [|? ? ? s2 ? He Hr]; subst. destruct (IH _ Hr) as (s4 & ? & ?).
  exists s4. split; [by econstructor|done].
Qed.

(** What holds at the start and is kept by each step, given the events so far, holds. *)
Lemma trace_invariant {E S} (step : E → S → S → Prop) (P : list E → S → Prop) s0 :
  P [] s0 → (∀ es e s s', P es s → step e s s' → P (es ++ [e]) s') →
  ∀ es s, trace step es s0 s → P es s.
Proof.
  intros H0 Hstep es s Ht.
  assert (Hgen : ∀ before, P before s0 → P (before ++ es) s); [|by apply (Hgen [])].
  clear H0. induction Ht as [s|e es s1 s2 s3 He _ IH]; intros before Hb.
  - by rewrite app_nil_r.
  - replace (before ++ e :: es) with ((before ++ [e]) ++ es) by (by rewrite <-app_assoc). eauto.
Qed.

(** ** Machine integers

    A [w]-bit unsigned integer is a [Z] in [0, 2^w); a signed one a [Z] in
    [-2^(w-1), 2^(w-1)). Wrap-around and saturation are written out. *)

Definition u8_max : Z := 255.
Definition u32_max : Z := 4294967295.
Definition u64_max : Z := 18446744073709551615.
Definition i32_min : Z := -2147483648.
Definition i32_max : Z := 2147483647.
Definition i64_min : Z := -9223372036854775808.
Definition i64_max : Z := 9223372036854775807.

Definition in_u8 (z : Z) : Prop := 0 ≤ z ≤ u8_max.
Definition in_u32 (z : Z) : Prop := 0 ≤ z ≤ u32_max.
Definition in_u64 (z : Z) : Prop := 0 ≤ z ≤ u64_max.
Definition in_i32 (z : Z) : Prop := i32_min ≤ z ≤ i32_max.
Definition in_i64 (z : Z) : Prop := i64_min ≤ z ≤ i64_max.

Ltac unfold_ints :=
  unfold in_u8, in_u32, in_u64, in_i32, in_i64,
    u8_max, u32_max, u64_max, i32_min, i32_max, i64_min, i64_max in *.
Ltac int_lia := unfold_ints; lia.

#[export] Instance in_u32_dec z : Decision (in_u32 z).
Proof. unfold in_u32; apply _. Defined.
#[export] Instance in_u64_dec z : Decision (in_u64 z).
Proof. unfold in_u64; apply _. Defined.
#[export] Instance in_i64_dec z : Decision (in_i64 z).
Proof. unfold in_i64; apply _. Defined.

(** [u64::wrapping_add] *)
Definition u64_wrapping_add (a b : Z) : Z := (a + b) mod 2 ^ 64.
(** [u32] truncation: [value as u32] *)
Definition as_u32 (z : Z) : Z := z mod 2 ^ 32.
(** [value as i32] of any integer *)
Definition as_i32 (z : Z) : Z :=
  let u := z mod 2 ^ 32 in if u <? 2 ^ 31 then u else u - 2 ^ 32.
(** [value as i64] of any integer *)
Definition as_i64 (z : Z) : Z :=
  let u := z mod 2 ^ 64 in if u <? 2 ^ 63 then u else u - 2 ^ 64.
(** [i64::saturating_add] *)
Definition i64_saturating_add (a b : Z) : Z := Z.max i64_min (Z.min i64_max (a + b)).

Lemma u64_wrapping_add_range a b : in_u64 (u64_wrapping_add a b).
Proof.
  unfold u64_wrapping_add.
  pose proof (Z.mod_pos_bound (a + b) (2 ^ 64) ltac:(lia)). int_lia.
Qed.

(** Bumping a revision always changes it, also when it wraps. *)
Lemma u64_wrapping_succ_ne a : in_u64 a → u64_wrapping_add a 1 ≠ a.
Proof.
  unfold u64_wrapping_add. intros Ha.
  destruct (decide (a = u64_max)) as [->|Hne]; [by vm_compute|].
  rewrite Z.mod_small; int_lia.
Qed.

Lemma i64_saturating_add_range a b : in_i64 (i64_saturating_add a b).
Proof. unfold i64_saturating_add. int_lia. Qed.

#[export] Hint Resolve u64_wrapping_add_range i64_saturating_add_range : vapor.
#[export] Hint Extern 2 (in_u64 _) => int_lia : vapor.
#[export] Hint Extern 2 (in_i64 _) => int_lia : vapor.
#[export] Hint Extern 2 (in_u32 _) => int_lia : vapor.

(** ** Bytes and strings

    A byte is a [Z] in [0, 256); a byte buffer is a [list Z]. A Rust [String] is
    a [string] of its UTF-8 bytes, so that [str] equality and ordering are those
    of the bytes. *)

Definition str_bytes (s : string) : list Z :=
  (λ a, Z.of_N (N_of_ascii a)) <$> list_ascii_of_string s.

Definition bytes_str (l : list Z) : string :=
  string_of_list_ascii ((λ z, ascii_of_N (Z.to_N z)) <$> l).

Lemma str_bytes_in_u8 s : Forall in_u8 (str_bytes s).
Proof.
  apply Forall_fmap, Forall_true. intros a; simpl.
  pose proof (N_ascii_bounded a). int_lia.
Qed.

Lemma bytes_str_str_bytes s : bytes_str (str_bytes s) = s.
Proof.
  unfold bytes_str, str_bytes.
  induction s as [|a s IH]; [done|].
  csimpl. by rewrite N2Z.id, ascii_N_embedding, IH.
Qed.

Lemma bytes_str_app l1 l2 : bytes_str (l1 ++ l2) = (bytes_str l1 ++ bytes_str l2)%string.
Proof.
  unfold bytes_str. rewrite fmap_app. generalize (((λ z, ascii_of_N (Z.to_N z)) <$> l1)).
  intros l. induction l as [|b l IH]; [done|]. cbn. by rewrite IH.
Qed.

Lemma str_bytes_bytes_str l : Forall in_u8 l → str_bytes (bytes_str l) = l.
Proof.
  intros Hl. unfold bytes_str, str_bytes.
  rewrite list_ascii_of_string_of_list_ascii, <-list_fmap_compose.
  induction Hl as [|z l Hz _ IH]; [done|]. csimpl. f_equal; [|done].
  rewrite N_ascii_embedding; int_lia.
Qed.

#[export] Instance str_bytes_inj : Inj (=) (=) str_bytes.
Proof.
  intros s1 s2 H. by rewrite <-(bytes_str_str_bytes s1), H, bytes_str_str_bytes.
Qed.

(** Little- and big-endian encodings of an unsigned integer on [n] bytes. *)
Fixpoint le_bytes (n : nat) (z : Z) : list Z :=
  match n with
  | O => []
  | S n' => z mod 256 :: le_bytes n' (z / 256)
  end.

Fixpoint le_value (l : list Z) : Z :=
  match l with
  | [] => 0
  | b :: l' => b + 256 * le_value l'
  end.

Definition be_bytes (n : nat) (z : Z) : list Z := reverse (le_bytes n z).
Definition be_value (l : list Z) : Z := le_value (reverse l).

Lemma length_le_bytes n z : length (le_bytes n z) = n.
Proof. revert z; induction n; intros; simpl; auto. Qed.

Lemma le_bytes_in_u8 n z : Forall in_u8 (le_bytes n z).
Proof.
  revert z; induction n as [|n IH]; intros z; constructor; [|apply IH].
  pose proof (Z.mod_pos_bound z 256). int_lia.
Qed.

Lemma le_value_le_bytes n z : le_value (le_bytes n z) = z mod 256 ^ Z.of_nat n.
Proof.
  revert z; induction n as [|n IH]; intros z; simpl le_value; simpl le_bytes.
  { by rewrite Z.mod_1_r. }
  simpl. rewrite IH, Nat2Z.inj_succ, Z.pow_succ_r by lia.
  rewrite (Z.rem_mul_r z 256 (256 ^ Z.of_nat n)); [done|lia|lia].
Qed.

Lemma le_value_bound l :
  Forall in_u8 l → 0 ≤ le_value l < 256 ^ Z.of_nat (length l).
Proof.
  induction 1 as [|b l Hb _ IH]; [done|].
  simpl length. rewrite Nat2Z.inj_succ, Z.pow_succ_r by lia. simpl. int_lia.
Qed.

Lemma le_bytes_le_value l : Forall in_u8 l → le_bytes (length l) (le_value l) = l.
Proof.
  induction 1 as [|b l Hb _ IH]; [done|]. simpl.
  replace ((b + 256 * le_value l) mod 256) with b
    by (rewrite (Z.mul_comm 256), Z_mod_plus_full, Z.mod_small; int_lia).
  replace ((b + 256 * le_value l) / 256) with (le_value l)
    by (rewrite (Z.mul_comm 256), Z.div_add, Z.div_small; int_lia).
  by rewrite IH.
Qed.

Lemma le_bytes_inj n a b :
  0 ≤ a < 256 ^ Z.of_nat n → 0 ≤ b < 256 ^ Z.of_nat n →
  le_bytes n a = le_bytes n b → a = b.
Proof.
  intros Ha Hb H. apply (f_equal le_value) in H.
  rewrite !le_value_le_bytes, !Z.mod_small in H by lia. done.
Qed.

Lemma length_be_bytes n z : length (be_bytes n z) = n.
Proof. unfold be_bytes. by rewrite length_reverse, length_le_bytes. Qed.

Lemma be_bytes_inj n a b :
  0 ≤ a < 256 ^ Z.of_nat n → 0 ≤ b < 256 ^ Z.of_nat n →
  be_bytes n a = be_bytes n b → a = b.
Proof. unfold be_bytes. intros Ha Hb H%(inj reverse). by eapply le_bytes_inj. Qed.

(** Equal-length prefixes of equal concatenations are equal. *)
Lemma app_inj_length {A} (a b c d : list A) :
  length a = length b → a ++ c = b ++ d → a = b ∧ c = d.
Proof. intros Hl H. by apply app_inj_1. Qed.

(** ** Linear orders and Rust's stable sorts

    [KeyOrd] is Rust's [Ord]: a decidable total order, used by [sort_by_key],
    [BTreeMap] and the [min]/[max] adaptors. *)

Class KeyOrd (K : Type) := {
  kle : relation K;
  kle_dec :: RelDecision kle;
  kle_po :: PartialOrder kle;
  kle_total :: Total kle;
}.

#[export] Program Instance Z_key_ord : KeyOrd Z := {| kle := Z.le |}.
#[export] Program Instance string_key_ord : KeyOrd string := {| kle := String.le |}.

(** Tuples compare lexicographically. *)
Section pair_order.
Context {K1 K2} `{EqDecision K1} {O1 : KeyOrd K1} {O2 : KeyOrd K2}.

Definition pair_le (p q : K1 * K2) : Prop :=
  (p.1 ≠ q.1 ∧ kle p.1 q.1) ∨ (p.1 = q.1 ∧ kle p.2 q.2).

#[export] Program Instance pair_key_ord : KeyOrd (K1 * K2) := {| kle := pair_le |}.
Next Obligation. intros p q. unfold pair_le. apply _. Defined.
Next Obligation.
  split; [split|].
  - intros p. by right.
  - intros [a b] [c d] [e f]; unfold pair_le; simpl.
    intros [[H1 H2]|[-> H2]] [[H3 H4]|[-> H4]].
    + left. split; [|by trans c].
      intros ->. apply H1. by apply (anti_symm kle).
    + by left.
    + by left.
    + right. split; [done|]. by trans d.
  - intros [a b] [c d]; unfold pair_le; simpl.
    intros [[H1 H2]|[-> H2]] [[H3 H4]|[H3 H4]]; try congruence.
    + destruct H1. by apply (anti_symm kle).
    + f_equal. by apply (anti_symm kle).
Qed.
Next Obligation.
  intros [a b] [c d]; unfold pair_le; simpl.
  destruct (decide (a = c)) as [->|Hne].
  - destruct (total kle b d); auto.
  - destruct (total kle a c); auto.
Qed.
End pair_order.

Section sort_by_key.
Context {A K : Type} {O : KeyOrd K} (key : A → K).

Fixpoint insert_by_key (x : A) (l : list A) : list A :=
  match l with
  | [] => [x]
  | y :: l' =>
      if decide (kle (key x) (key y)) then x :: l else y :: insert_by_key x l'
  end.

(** [slice::sort_by_key]: equal keys keep their order. *)
Definition sort_by_key (l : list A) : list A := foldr insert_by_key [] l.

Definition key_le (x y : A) : Prop := kle (key x) (key y).

Lemma insert_by_key_perm x l : insert_by_key x l ≡ₚ x :: l.
Proof.
  induction l as [|y l IH]; simpl; [done|].
  case_decide; [done|]. rewrite IH. by constructor.
Qed.

Lemma sort_by_key_perm l : sort_by_key l ≡ₚ l.
Proof.
  induction l as [|x l IH]; simpl; [done|].
  by rewrite insert_by_key_perm, IH.
Qed.

Lemma insert_by_key_sorted x l :
  StronglySorted key_le l → StronglySorted key_le (insert_by_key x l).
Proof.
  induction 1 as [|y l Hl IH Hy]; simpl; [by repeat constructor|].
  case_decide as Hd.
  - constructor; [by constructor|]. constructor; [done|].
    eapply Forall_impl; [exact Hy|]. intros z Hz. unfold key_le in *. by trans (key y).
  - constructor; [done|]. rewrite insert_by_key_perm. constructor; [|done].
    unfold key_le. by destruct (total kle (key x) (key y)).
Qed.

Lemma sort_by_key_sorted l : StronglySorted key_le (sort_by_key l).
Proof. induction l; simpl; [constructor|]. by apply insert_by_key_sorted. Qed.

Lemma length_sort_by_key l : length (sort_by_key l) = length l.
Proof. by rewrite sort_by_key_perm. Qed.

Lemma elem_of_sort_by_key x l : x ∈ sort_by_key l ↔ x ∈ l.
Proof. by rewrite sort_by_key_perm. Qed.

(** Sorting forgets the input order when distinct elements have distinct keys. *)
Lemma sort_by_key_unique l1 l2 :
  (∀ x y, x ∈ l1 → y ∈ l1 → key x = key y → x = y) →
  l1 ≡ₚ l2 → sort_by_key l1 = sort_by_key l2.
Proof.
  intros Hinj Hp.
  apply (StronglySorted_unique_strong key_le);
    [|apply sort_by_key_sorted..|by rewrite !sort_by_key_perm].
  intros x y Hx Hy H1 H2. rewrite elem_of_sort_by_key in Hx, Hy.
  apply Hinj; [done|by rewrite Hp|]. by apply (anti_symm kle).
Qed.

(** The elements of one key keep their relative order. *)
Lemma filter_insert_by_key `{EqDecision K} k x l :
  filter (λ a, key a = k) (insert_by_key x l) =
  (if decide (key x = k) then [x] else []) ++ filter (λ a, key a = k) l.
Proof.
  induction l as [|y l IH]; simpl.
  { rewrite filter_cons. by repeat case_decide. }
  destruct (decide (kle (key x) (key y))) as [Hle|Hle].
  { rewrite (filter_cons _ x). by case_decide. }
  rewrite !filter_cons.
  rewrite IH. repeat case_decide; simplify_eq/=; try done.
  exfalso. apply Hle. by replace (key x) with (key y) by congruence.
Qed.

Lemma sort_by_key_stable `{EqDecision K} k l :
  filter (λ a, key a = k) (sort_by_key l) = filter (λ a, key a = k) l.
Proof.
  induction l as [|x l IH]; simpl; [done|].
  rewrite filter_insert_by_key, IH, filter_cons. by case_decide.
Qed.

(** [Iterator::max_by_key]: the last of the greatest elements. *)
Definition max_by_key (l : list A) : option A :=
  foldl (λ acc x,
    match acc with
    | None => Some x
    | Some y => if decide (kle (key y) (key x)) then Some x else Some y
    end) None l.
End sort_by_key.

(** [Iterator::min] over integers. *)
Definition list_min (l : list Z) : option Z :=
  foldr (λ x acc, match acc with None => Some x | Some y => Some (Z.min x y) end) None l.

Lemma list_min_None l : list_min l = None ↔ l = [].
Proof. destruct l as [|x l]; simpl; [done|]. by destruct (list_min l). Qed.

Lemma list_min_Some l m :
  list_min l = Some m → m ∈ l ∧ Forall (λ x, m ≤ x) l.
Proof.
  revert m; induction l as [|x l IH]; intros m; simpl; [done|].
  destruct (list_min l) as [y|] eqn:E; intros [= <-].
  - destruct (IH y eq_refl) as [Hy Hall]. split.
    + destruct (Z.min_spec x y) as [[_ ->]|[_ ->]]; set_solver.
    + constructor; [lia|]. eapply Forall_impl; [done|]. simpl; lia.
  - apply list_min_None in E as ->. split; [set_solver|]. repeat constructor. lia.
Qed.

Lemma list_min_perm l1 l2 : l1 ≡ₚ l2 → list_min l1 = list_min l2.
Proof.
  induction 1 as [|x l1 l2 _ IH|x y l|l1 l2 l3 _ IH1 _ IH2]; simpl.
  - done.
  - by rewrite IH.
  - destruct (list_min l); f_equal; lia.
  - congruence.
Qed.

(** ** [str::trim] on UTF-8 bytes

    [char::is_whitespace] holds of 25 code points; a valid UTF-8 string starts or
    ends with one exactly when it starts or ends with its encoding. *)

Definition utf8_whitespace : list (list Z) :=
  [[9]; [10]; [11]; [12]; [13]; [32]; [194; 133]; [194; 160]; [225; 154; 128]] ++
  ((λ z, [226; 128; z]) <$> [128; 129; 130; 131; 132; 133; 134; 135; 136; 137; 138;
                             168; 169; 175]) ++
  [[226; 129; 159]; [227; 128; 128]].

Fixpoint strip_prefix (p l : list Z) : option (list Z) :=
  match p, l with
  | [], _ => Some l
  | a :: p', b :: l' => if decide (a = b) then strip_prefix p' l' else None
  | _ :: _, [] => None
  end.

Fixpoint strip_any (ps : list (list Z)) (l : list Z) : option (list Z) :=
  match ps with
  | [] => None
  | p :: ps' => match strip_prefix p l with Some l' => Some l' | None => strip_any ps' l end
  end.

Fixpoint strip_while (ps : list (list Z)) (fuel : nat) (l : list Z) : list Z :=
  match fuel with
  | O => l
  | S n => match strip_any ps l with Some l' => strip_while ps n l' | None => l end
  end.

(** Every stripped encoding shortens the list, so its length is enough fuel. *)
Definition trim_start (l : list Z) : list Z := strip_while utf8_whitespace (length l) l.
Definition trim_end (l : list Z) : list Z :=
  reverse (strip_while (reverse <$> utf8_whitespace) (length l) (reverse l)).
Definition trim (l : list Z) : list Z := trim_end (trim_start l).
(** [trim_end_matches] for a one-byte character *)
Definition trim_end_matches (c : Z) (l : list Z) : list Z :=
  reverse (strip_while [[c]] (length l) (reverse l)).

Lemma strip_prefix_Some p l l' : strip_prefix p l = Some l' ↔ l = p ++ l'.
Proof.
  revert l; induction p as [|a p IH]; intros [|b l]; simpl.
  - naive_solver.
  - naive_solver.
  - naive_solver.
  - case_decide; subst; [rewrite IH|]; naive_solver.
Qed.

Lemma strip_any_Some ps l l' :
  strip_any ps l = Some l' → ∃ p, p ∈ ps ∧ l = p ++ l'.
Proof.
  induction ps as [|p ps IH]; simpl; [done|].
  destruct (strip_prefix p l) as [l''|] eqn:E.
  - intros [= <-]. apply strip_prefix_Some in E. exists p. split; [left|done].
  - intros (q & ? & ?)%IH. exists q. split; [by right|done].
Qed.

Lemma strip_any_None ps l : strip_any ps l = None ↔ ∀ p l', p ∈ ps → l ≠ p ++ l'.
Proof.
  split.
  - induction ps as [|p ps IH]; simpl; [set_solver|].
    destruct (strip_prefix p l) as [l''|] eqn:E; [done|].
    intros Hn q l' [->|Hq]%elem_of_cons; [|by apply IH].
    intros Heq. apply strip_prefix_Some in Heq. congruence.
  - intros H. destruct (strip_any ps l) as [l'|] eqn:E; [|done].
    apply strip_any_Some in E as (p & Hp & ->). by destruct (H p l').
Qed.

Section strip_while.
Context (ps : list (list Z)) (Hps : Forall (λ p, p ≠ []) ps).

Lemma strip_any_shorter l l' : strip_any ps l = Some l' → (length l' < length l)%nat.
Proof.
  intros (p & Hp & ->)%strip_any_Some.
  rewrite Forall_forall in Hps. apply Hps in Hp.
  destruct p; [done|]. rewrite length_app. simpl. lia.
Qed.

(** The fuel never runs out: the result has no strippable prefix. *)
Lemma strip_while_done fuel l :
  (length l ≤ fuel)%nat → strip_any ps (strip_while ps fuel l) = None.
Proof.
  revert l; induction fuel as [|fuel IH]; intros l Hl; simpl.
  - destruct l; simpl in Hl; [|lia].
    destruct (strip_any ps []) as [l'|] eqn:E; [|done].
    apply strip_any_shorter in E. simpl in E. lia.
  - destruct (strip_any ps l) as [l'|] eqn:E; [|done].
    apply IH. apply strip_any_shorter in E. lia.
Qed.

Lemma strip_while_stop fuel l : strip_any ps l = None → strip_while ps fuel l = l.
Proof. intros H. destruct fuel; simpl; [done|]. by rewrite H. Qed.

Lemma strip_while_fuel f1 f2 l :
  (length l ≤ f1)%nat → (length l ≤ f2)%nat → strip_while ps f1 l = strip_while ps f2 l.
Proof.
  revert f2 l; induction f1 as [|f1 IH]; intros f2 l H1 H2.
  - destruct l; simpl in *; [|lia]. symmetry. apply strip_while_stop.
    destruct (strip_any ps []) eqn:E; [|done].
    apply strip_any_shorter in E. simpl in E; lia.
  - destruct f2 as [|f2]; simpl.
    + destruct l; simpl in *; [|lia].
      destruct (strip_any ps []) eqn:E; [|done].
      apply strip_any_shorter in E. simpl in E; lia.
    + destruct (strip_any ps l) eqn:E; [|done].
      apply strip_any_shorter in E. apply IH; lia.
Qed.
End strip_while.

Lemma strip_while_suffix ps fuel l : ∃ p, l = p ++ strip_while ps fuel l.
Proof.
  revert l; induction fuel as [|fuel IH]; intros l; simpl; [by exists []|].
  destruct (strip_any ps l) as [l'|] eqn:E; [|by exists []].
  apply strip_any_Some in E as (p & _ & ->). destruct (IH l') as [q Hq].
  exists (p ++ q). by rewrite <-app_assoc, <-Hq.
Qed.

Lemma trim_end_matches_prefix c l : trim_end_matches c l `prefix_of` l.
Proof.
  destruct (strip_while_suffix [[c]] (length l) (reverse l)) as [q Hq]. exists (reverse q).
  unfold trim_end_matches. by rewrite <-reverse_app, <-Hq, reverse_involutive.
Qed.

Lemma trim_end_matches_idemp c l :
  trim_end_matches c (trim_end_matches c l) = trim_end_matches c l.
Proof.
  unfold trim_end_matches at 1. rewrite strip_while_stop.
  { apply reverse_involutive. }
  unfold trim_end_matches. rewrite reverse_involutive. apply strip_while_done.
  - by repeat constructor.
  - by rewrite length_reverse.
Qed.

Lemma utf8_whitespace_nonempty : Forall (λ p, p ≠ []) utf8_whitespace.
Proof. by repeat constructor. Qed.

(** ** Lower-case hexadecimal: [write!("{byte:02x}")] *)

Definition hex_digit (n : Z) : Z := if n <? 10 then 48 + n else 87 + n.
Definition hex_byte (b : Z) : list Z := [hex_digit (b / 16); hex_digit (b mod 16)].
Definition hex_bytes (l : list Z) : list Z := l ≫= hex_byte.

Lemma length_hex_bytes l : length (hex_bytes l) = (2 * length l)%nat.
Proof. induction l; simpl; [done|]. unfold hex_bytes in *. simpl. lia. Qed.

Lemma hex_digit_inj a b : 0 ≤ a < 16 → 0 ≤ b < 16 → hex_digit a = hex_digit b → a = b.
Proof. unfold hex_digit. do 2 case_goal; lia. Qed.

Lemma hex_byte_inj a b : in_u8 a → in_u8 b → hex_byte a = hex_byte b → a = b.
Proof.
  unfold hex_byte. intros Ha Hb [= H1 H2].
  apply hex_digit_inj in H1; [|split; [apply Z.div_pos|apply Z.div_lt_upper_bound]; int_lia..].
  apply hex_digit_inj in H2; [|apply Z.mod_pos_bound; lia..].
  rewrite (Z.div_mod a 16), (Z.div_mod b 16); lia.
Qed.

Lemma hex_bytes_inj l1 l2 :
  Forall in_u8 l1 → Forall in_u8 l2 → hex_bytes l1 = hex_bytes l2 → l1 = l2.
Proof.
  intros H1; revert l2; induction H1 as [|a l1 Ha _ IH]; intros [|b l2] H2 H; try done.
  apply Forall_cons in H2 as [Hb H2].
  apply (app_inj_length (hex_byte a) (hex_byte b)) in H as [Hab Hl]; [|done].
  apply hex_byte_inj in Hab as ->; [|done..]. f_equal. by apply IH.
Qed.
