(* ===== verification/RustStd.v ===== *)
(** * RustStd: parts of the Rust standard library the sources use

    Decimal printing and parsing at a width, [f32::from_str] with correct rounding,
    UTF-8 validation and lossy decoding, the stem and extension of a file name (all on byte lists), and
    [BTreeMap] as a finite map with its values in key order. One section is the
    shared theory of loops that fold a list of keyed values into a map. *)

From Stdlib Require Import ZArith Lia ZifyBool.
From S2P Require Import Prelude.

Local Open Scope Z_scope.

(** ** Decimal integers *)

Definition is_digit (c : Z) : bool := (48 <=? c) && (c <=? 57).

(** [Display] of an unsigned integer; twenty digits print every [u64]. *)
Fixpoint dec_digits (fuel : nat) (n : Z) : list Z :=
  match fuel with
  | O => []
  | S fuel => if n <? 10 then [48 + n] else dec_digits fuel (n / 10) ++ [48 + n mod 10]
  end.
Definition dec_text (n : Z) : list Z := dec_digits 20 n.

(** The digit loop of [from_str_radix], failing on a non-digit and on overflow. *)
Fixpoint parse_digits (limit acc : Z) (l : list Z) : option Z :=
  match l with
  | [] => Some acc
  | c :: rest =>
      if is_digit c
      then let acc := 10 * acc + (c - 48) in
           if acc <=? limit then parse_digits limit acc rest else None
      else None
  end.

(** [str::parse::<uN>] for the type whose maximum is [limit]. *)
Definition parse_unsigned (limit : Z) (l : list Z) : option Z :=
  match l with
  | [] => None
  | c :: rest =>
      if c =? 43 then match rest with [] => None | _ => parse_digits limit 0 rest end
      else parse_digits limit 0 l
  end.

(** [str::parse::<iN>] for the type with the given bounds. *)
Definition parse_signed (least greatest : Z) (l : list Z) : option Z :=
  match l with
  | [] => None
  | c :: rest =>
      if c =? 45
      then match rest with [] => None | _ => Z.opp <$> parse_digits (- least) 0 rest end
      else if c =? 43 then match rest with [] => None | _ => parse_digits greatest 0 rest end
      else parse_digits greatest 0 l
  end.

Lemma parse_digits_app limit acc l r :
  parse_digits limit acc (l ++ r) = acc' ← parse_digits limit acc l; parse_digits limit acc' r.
Proof. revert acc; induction l as [|c l IH]; intros acc; simpl; [done|]. repeat case_match; [apply IH|done..]. Qed.

Lemma parse_digits_dec fuel limit n :
  0 ≤ n ≤ limit → n < 10 ^ Z.of_nat fuel → parse_digits limit 0 (dec_digits fuel n) = Some n.
Proof.
  revert n; induction fuel as [|fuel IH]; intros n Hn Hf.
  { replace (10 ^ Z.of_nat 0) with 1 in Hf by done. replace n with 0 by lia. done. }
  rewrite Nat2Z.inj_succ, Z.pow_succ_r in Hf by lia. cbn [dec_digits].
  destruct (Z.ltb_spec n 10) as [Hlt|Hge].
  - cbn [parse_digits]. unfold is_digit. rewrite !(proj2 (Z.leb_le _ _)) by lia. cbn.
    rewrite ?(proj2 (Z.leb_le _ _)) by lia. f_equal. lia.
  - pose proof (Z.div_mod n 10 ltac:(lia)) as Hdm.
    pose proof (Z.mod_pos_bound n 10 ltac:(lia)) as Hm.
    rewrite parse_digits_app, IH; [|lia|apply Z.div_lt_upper_bound; lia].
    cbn [mbind option_bind parse_digits]. unfold is_digit.
    rewrite !(proj2 (Z.leb_le _ _)) by lia. cbn. rewrite ?(proj2 (Z.leb_le _ _)) by lia.
    f_equal. lia.
Qed.

Lemma dec_digits_head fuel n :
  0 ≤ n → fuel ≠ O → ∃ c rest, dec_digits fuel n = c :: rest ∧ (0 ≤ n < 10 ^ Z.of_nat fuel → is_digit c = true).
Proof.
  revert n; induction fuel as [|fuel IH]; intros n Hn Hf; [done|]. cbn [dec_digits].
  destruct (Z.ltb_spec n 10) as [Hlt|Hge].
  { eexists _, _. split; [reflexivity|]. intros _. unfold is_digit.
    by rewrite !(proj2 (Z.leb_le _ _)) by lia. }
  destruct fuel as [|fuel].
  { eexists _, _. split; [reflexivity|]. change (10 ^ Z.of_nat 1) with 10. lia. }
  destruct (IH (n / 10)) as (c & rest & Heq & Hc); [apply Z.div_pos; lia|done|].
  rewrite Heq. eexists _, _. split; [reflexivity|]. intros Hlt. apply Hc.
  split; [apply Z.div_pos; lia|]. apply Z.div_lt_upper_bound; [lia|].
  rewrite <-Z.pow_succ_r, <-Nat2Z.inj_succ; lia.
Qed.

(** Printing and parsing an unsigned integer of at most 64 bits. *)
Lemma parse_dec_text limit n :
  0 ≤ n ≤ limit → limit ≤ u64_max → parse_unsigned limit (dec_text n) = Some n.
Proof.
  intros Hn Hl. unfold dec_text, parse_unsigned.
  assert (Hpow : n < 10 ^ Z.of_nat 20) by (unfold u64_max in Hl; change (10 ^ Z.of_nat 20) with 100000000000000000000; lia).
  destruct (dec_digits_head 20 n) as (c & rest & Heq & Hc); [lia|done|].
  specialize (Hc ltac:(lia)). pose proof (parse_digits_dec 20 limit n Hn Hpow) as Hp.
  rewrite Heq in *. destruct (Z.eqb_spec c 43) as [->|Hne]; [by vm_compute in Hc|done].
Qed.

(** [format!("{:x}")] of an unsigned integer; sixteen digits print every [u64]. *)
Fixpoint hex_digits (fuel : nat) (n : Z) : list Z :=
  match fuel with
  | O => []
  | S fuel => if n <? 16 then [hex_digit n] else hex_digits fuel (n / 16) ++ [hex_digit (n mod 16)]
  end.
Definition hex_text (n : Z) : list Z := hex_digits 16 n.

(** ** Strings *)

(** [str::contains('\0')] *)
Definition contains_nul (s : string) : bool := bool_decide (0 ∈ str_bytes s).
(** [str::len] *)
Definition str_len (s : string) : Z := Z.of_nat (length (str_bytes s)).

(** [Read::take]: at most [n] bytes. *)
Fixpoint take_bytes (n : Z) (l : list Z) : list Z :=
  match l with
  | [] => []
  | b :: l => if n <=? 0 then [] else b :: take_bytes (n - 1) l
  end.

Lemma take_bytes_ge n l : Z.of_nat (length l) ≤ n → take_bytes n l = l.
Proof.
  revert n. induction l as [|b l IH]; intros n Hn; cbn [take_bytes length] in *; [done|].
  destruct (Z.leb_spec n 0); [lia|]. f_equal. apply IH. lia.
Qed.

(** [u8::is_ascii_hexdigit] *)
Definition is_hexdigit (c : Z) : bool :=
  is_digit c || ((97 <=? c) && (c <=? 102)) || ((65 <=? c) && (c <=? 70)).

(** ** Characters of a number *)

Definition lower (c : Z) : Z := if (65 <=? c) && (c <=? 90) then c + 32 else c.

(** [str::to_ascii_lowercase] *)
Definition to_ascii_lowercase (s : string) : string := bytes_str (lower <$> str_bytes s).

Definition strip_sign (l : list Z) : list Z :=
  match l with c :: rest => if (c =? 43) || (c =? 45) then rest else l | [] => [] end.

(** ** File names *)

Fixpoint split_at_dot (l : list Z) : option (list Z * list Z) :=
  match l with
  | [] => None
  | c :: rest =>
      if c =? 46 then Some ([], rest)
      else '(a, b) ← split_at_dot rest; Some (c :: a, b)
  end.

(** [Path::file_stem] and [Path::extension] of a directory entry's name: the last
    dot separates them, unless nothing precedes it. *)
Definition stem_and_extension (name : list Z) : list Z * option (list Z) :=
  match split_at_dot (reverse name) with
  | Some (ext, before) =>
      if decide (before = []) then (name, None) else (reverse before, Some (reverse ext))
  | None => (name, None)
  end.

Lemma split_at_dot_app ext before :
  Forall (λ c, c ≠ 46) ext → split_at_dot (ext ++ 46 :: before) = Some (ext, before).
Proof.
  induction 1 as [|c ext Hc _ IH]; [done|]. simpl.
  rewrite (proj2 (Z.eqb_neq _ _)) by done. by rewrite IH.
Qed.

Lemma stem_and_extension_app stem ext :
  stem ≠ [] → Forall (λ c, c ≠ 46) ext →
  stem_and_extension (stem ++ 46 :: ext) = (stem, Some ext).
Proof.
  intros Hs He. unfold stem_and_extension. rewrite reverse_app, reverse_cons, <-app_assoc.
  cbn [app]. rewrite split_at_dot_app by by apply Forall_reverse.
  rewrite decide_False by (intros H; apply Hs; by rewrite <-(reverse_involutive stem), H).
  by rewrite !reverse_involutive.
Qed.

(** ** [BTreeMap::into_values] *)

Definition btree_values {K V} `{Countable K} {O : KeyOrd K} (m : gmap K V) : list V :=
  (sort_by_key fst (map_to_list m)).*2.

Lemma elem_of_btree_values {K V} `{Countable K} {O : KeyOrd K} (m : gmap K V) v :
  v ∈ btree_values m ↔ ∃ k, m !! k = Some v.
Proof.
  unfold btree_values. rewrite list_elem_of_fmap. split.
  - intros ([k v'] & -> & Hin). rewrite elem_of_sort_by_key, elem_of_map_to_list in Hin. eauto.
  - intros [k Hk]. exists (k, v). by rewrite elem_of_sort_by_key, elem_of_map_to_list.
Qed.

Lemma length_btree_values {K V} `{Countable K} {O : KeyOrd K} (m : gmap K V) :
  length (btree_values m) = size m.
Proof. unfold btree_values. by rewrite length_fmap, length_sort_by_key, length_map_to_list. Qed.

(** ** Folding keyed values into a map

    The loops [for x in xs { entry(key(x)).and_modify(join).or_insert(x) }]. *)

Section keyed_fold.
Context {K V : Type} `{Countable K} (join : V → V → V).
Implicit Types (m : gmap K V) (ps : list (K * V)) (vs : list V) (o : option V).

Definition merge_entry m (p : K * V) : gmap K V :=
  <[p.1 := match m !! p.1 with Some c => join c p.2 | None => p.2 end]> m.

(** What a fold does to one key. *)
Definition join_all o vs : option V :=
  foldl (λ o v, Some (match o with Some c => join c v | None => v end)) o vs.

Definition values_of (k : K) ps : list V := (filter (λ p, p.1 = k) ps).*2.

Lemma lookup_merge_entries m ps k :
  foldl merge_entry m ps !! k = join_all (m !! k) (values_of k ps).
Proof.
  revert m; induction ps as [|[k' v] ps IH]; intros m; [done|]. simpl. rewrite IH.
  unfold values_of, merge_entry. rewrite filter_cons. simpl.
  destruct (decide (k' = k)) as [->|Hne]; [by rewrite lookup_insert_eq|].
  by rewrite lookup_insert_ne.
Qed.

Lemma elem_of_values_of k ps v : v ∈ values_of k ps ↔ (k, v) ∈ ps.
Proof.
  unfold values_of. rewrite list_elem_of_fmap. split.
  - intros ([k' v'] & -> & [Hk Hin]%list_elem_of_filter). simpl in *. by subst.
  - intros Hin. exists (k, v). by rewrite list_elem_of_filter.
Qed.

Lemma join_all_cons o v vs :
  join_all o (v :: vs) = join_all (Some (match o with Some c => join c v | None => v end)) vs.
Proof. done. Qed.

Lemma join_all_None o vs : join_all o vs = None ↔ o = None ∧ vs = [].
Proof.
  destruct vs as [|v vs]; [naive_solver|]. split; [|by intros [_ ?]]. intros Hn. exfalso.
  revert o v Hn; induction vs as [|w vs IH]; intros o v Hn; [done|]. eapply IH, Hn.
Qed.

(** A property of the accumulator that every value establishes or joining keeps. *)
Lemma join_all_ind (P : V → Prop) o vs r :
  (∀ c, o = Some c → P c) → (∀ v, v ∈ vs → P v) →
  (∀ c v, P c → v ∈ vs → P (join c v)) →
  join_all o vs = Some r → P r.
Proof.
  revert o; induction vs as [|v vs IH]; intros o Ho Hv Hj Hr; [by apply Ho|].
  eapply IH, Hr.
  - intros c [= <-]. destruct o; [apply Hj; [auto|left]|apply Hv; left].
  - intros w Hw. apply Hv. by right.
  - intros c w Hc Hw. apply Hj; [done|]. by right.
Qed.

(** A value's contribution that joining never loses. *)
Lemma join_all_reaches (R : V → Prop) o vs v r :
  v ∈ vs → R v → (∀ c, R (join c v)) → (∀ c w, R c → R (join c w)) →
  join_all o vs = Some r → R r.
Proof.
  intros Hin Hv Hjv Hkeep. revert o; induction vs as [|w vs IH]; intros o Hr; [set_solver|].
  apply elem_of_cons in Hin as [->|Hin]; [|by eapply IH].
  clear IH. assert (Hacc : R (match o with Some c => join c w | None => w end))
    by (destruct o; auto).
  rewrite join_all_cons in Hr. revert Hacc Hr.
  generalize (match o with Some c => join c w | None => w end).
  induction vs as [|x vs IH]; intros c Hc Hr; [by simplify_eq/=|].
  eapply IH; [|exact Hr]. by apply Hkeep.
Qed.

(** ** Order independence *)
Section permutation.
Context (P : V → Prop)
  (Hclosed : ∀ a b, P a → P b → P (join a b))
  (Hcomm : ∀ a b, P a → P b → join a b = join b a)
  (Hassoc : ∀ a b c, P a → P b → P c → join a (join b c) = join (join a b) c).

Lemma join_all_perm vs vs' o :
  (∀ c, o = Some c → P c) → Forall P vs → vs ≡ₚ vs' → join_all o vs = join_all o vs'.
Proof.
  intros Ho Hvs Hp. revert o Ho.
  induction Hp as [|v vs vs' Hp IH|v w vs|vs1 vs2 vs3 Hp1 IH1 Hp2 IH2]; intros o Ho.
  - done.
  - apply Forall_cons in Hvs as [Hv Hvs]. rewrite !join_all_cons. apply IH; [done|].
    intros c [= <-]. destruct o; auto.
  - apply Forall_cons in Hvs as [Hw [Hv Hvs]%Forall_cons]. rewrite !join_all_cons.
    do 2 f_equal. destruct o as [c|]; [|by apply Hcomm].
    rewrite <-!Hassoc by auto. f_equal. by apply Hcomm.
  - rewrite IH1 by done. apply IH2; [by rewrite <-Hp1|done].
Qed.
End permutation.
End keyed_fold.

Lemma values_of_perm {K V} `{EqDecision K} (k : K) (ps qs : list (K * V)) :
  ps ≡ₚ qs → values_of k ps ≡ₚ values_of k qs.
Proof. intros Hp. unfold values_of. by rewrite Hp. Qed.

Lemma foldl_bind {A B C} (f : A → B → A) (g : C → list B) a l :
  foldl (λ acc c, foldl f acc (g c)) a l = foldl f a (l ≫= g).
Proof. revert a; induction l as [|c l IH]; intros a; simpl; [done|]. by rewrite foldl_app, IH. Qed.

Lemma foldl_fmap {A B C} (f : A → B → A) (g : C → B) a l :
  foldl (λ acc c, f acc (g c)) a l = foldl f a (g <$> l).
Proof. revert a; induction l as [|c l IH]; intros a; simpl; [done|]. by rewrite IH. Qed.

(** The selection [if order > current.order { value } else { current }]. *)
Section latest.
Context {V I : Type} {O : KeyOrd I}.
Implicit Types (a b : V * I).

Definition latest a b : V * I := if bool_decide (kle b.2 a.2) then a else b.

Lemma latest_or a b : latest a b = a ∨ latest a b = b.
Proof. unfold latest. case_bool_decide; auto. Qed.

Lemma latest_l a b : kle b.2 a.2 → latest a b = a.
Proof. intros. unfold latest. by rewrite bool_decide_eq_true_2. Qed.
Lemma latest_r a b : ¬ kle b.2 a.2 → latest a b = b.
Proof. intros. unfold latest. by rewrite bool_decide_eq_false_2. Qed.

Lemma latest_left a b : kle a.2 (latest a b).2.
Proof. unfold latest. case_bool_decide as E; [done|]. by destruct (total kle a.2 b.2). Qed.
Lemma latest_right a b : kle b.2 (latest a b).2.
Proof. unfold latest. by case_bool_decide. Qed.

(** Where distinct values have distinct orders, it is a semilattice. *)
Context (P : V * I → Prop) (Hinj : ∀ a b, P a → P b → a.2 = b.2 → a = b).

Lemma latest_closed a b : P a → P b → P (latest a b).
Proof. destruct (latest_or a b) as [->| ->]; auto. Qed.

Lemma latest_unique a b c : P b → P c → kle b.2 c.2 → kle c.2 b.2 → b = c.
Proof. intros Hb Hc H1 H2. apply Hinj; [done|done|]. by apply (anti_symm kle). Qed.

Lemma latest_comm a b : P a → P b → latest a b = latest b a.
Proof.
  intros Ha Hb. unfold latest. repeat case_bool_decide; try done.
  - by eapply latest_unique.
  - by destruct (total kle a.2 b.2).
Qed.

Lemma latest_assoc a b c :
  P a → P b → P c → latest a (latest b c) = latest (latest a b) c.
Proof.
  intros _ _ _.
  destruct (decide (kle c.2 b.2)) as [Hcb|Hcb], (decide (kle b.2 a.2)) as [Hba|Hba].
  - rewrite (latest_l b c), (latest_l a b) by done. symmetry. apply latest_l. by trans b.2.
  - by rewrite (latest_l b c), (latest_r a b), (latest_l b c).
  - by rewrite (latest_r b c), (latest_l a b).
  - rewrite (latest_r b c), (latest_r a b), (latest_r b c) by done. apply latest_r.
    intros Hca. destruct (total kle b.2 c.2); [|done]. apply Hba. by trans c.2.
Qed.
End latest.

(** Sorting commutes with a map that keeps the keys, and with selecting. *)
Lemma sort_by_key_fmap {A B K} {O : KeyOrd K} (key : A → K) (key' : B → K) (g : A → B) l :
  (∀ x, key' (g x) = key x) → sort_by_key key' (g <$> l) = g <$> sort_by_key key l.
Proof.
  intros Hg. induction l as [|x l IH]; [done|]. csimpl. simpl. rewrite IH. clear IH.
  generalize (sort_by_key key l). intros l'. induction l' as [|y l' IH]; [done|].
  csimpl. simpl. rewrite !Hg. case_decide; [done|]. by rewrite IH.
Qed.

Lemma fmap_btree_values {K V W} `{Countable K} {O : KeyOrd K} (f : V → W) (m : gmap K V) :
  f <$> btree_values m = btree_values (f <$> m).
Proof.
  unfold btree_values. rewrite map_to_list_fmap.
  rewrite (sort_by_key_fmap fst fst (prod_map id f)) by done.
  rewrite <-!list_fmap_compose. done.
Qed.

Section filter_sort.
Context {A K : Type} {O : KeyOrd K} (key : A → K) (P : A → Prop) `{∀ x, Decision (P x)}.

Lemma insert_by_key_least x l :
  Forall (λ y, kle (key x) (key y)) l → insert_by_key key x l = x :: l.
Proof. destruct 1; simpl; [done|]. by rewrite decide_True. Qed.

Lemma filter_insert_sorted x l :
  StronglySorted (key_le key) l →
  filter P (insert_by_key key x l) =
  if decide (P x) then insert_by_key key x (filter P l) else filter P l.
Proof.
  induction 1 as [|y l Hs IHs Hy]; simpl.
  { rewrite filter_cons. by case_decide. }
  destruct (decide (kle (key x) (key y))) as [Hxy|Hxy].
  - rewrite (filter_cons _ x). case_decide; [|done].
    rewrite insert_by_key_least; [done|].
    apply Forall_forall. intros z [_ [->|Hz]%elem_of_cons]%list_elem_of_filter; [done|].
    trans (key y); [done|]. by eapply Forall_forall in Hy.
  - rewrite !filter_cons, IHs. repeat case_decide; simpl; try done.
    by rewrite decide_False.
Qed.

Lemma filter_sort_by_key l : filter P (sort_by_key key l) = sort_by_key key (filter P l).
Proof.
  induction l as [|x l IH]; [done|]. simpl.
  rewrite filter_insert_sorted by apply sort_by_key_sorted.
  rewrite filter_cons, IH. by case_decide.
Qed.
End filter_sort.

(** ** [str::from_utf8] *)

Definition cont_byte (b : Z) : bool := (128 <=? b) && (b <=? 191).
Definition between (lo hi b : Z) : bool := (lo <=? b) && (b <=? hi).

Fixpoint utf8_valid (l : list Z) : bool :=
  match l with
  | [] => true
  | b0 :: r0 =>
      if between 0 127 b0 then utf8_valid r0
      else match r0 with
      | [] => false
      | b1 :: r1 =>
          if between 194 223 b0 then cont_byte b1 && utf8_valid r1
          else match r1 with
          | [] => false
          | b2 :: r2 =>
              if b0 =? 224 then between 160 191 b1 && cont_byte b2 && utf8_valid r2
              else if between 225 236 b0 || between 238 239 b0
              then cont_byte b1 && cont_byte b2 && utf8_valid r2
              else if b0 =? 237 then between 128 159 b1 && cont_byte b2 && utf8_valid r2
              else match r2 with
              | [] => false
              | b3 :: r3 =>
                  if b0 =? 240
                  then between 144 191 b1 && cont_byte b2 && cont_byte b3 && utf8_valid r3
                  else if between 241 243 b0
                  then cont_byte b1 && cont_byte b2 && cont_byte b3 && utf8_valid r3
                  else if b0 =? 244
                  then between 128 143 b1 && cont_byte b2 && cont_byte b3 && utf8_valid r3
                  else false
              end
          end
      end
  end.

(** ** [String::from_utf8_lossy]

    Every maximal prefix of a character that cannot be continued becomes U+FFFD. *)

Definition REPLACEMENT : list Z := [239; 191; 189].

(** The bytes allowed after a leading byte: a continuation byte, further bounded for
    the leading bytes of overlong forms, surrogates and values above U+10FFFF. *)
Definition second_ok (b0 b1 : Z) : bool :=
  cont_byte b1 &&
  (negb (b0 =? 224) || (160 <=? b1)) && (negb (b0 =? 237) || (b1 <=? 159)) &&
  (negb (b0 =? 240) || (144 <=? b1)) && (negb (b0 =? 244) || (b1 <=? 143)).

Fixpoint utf8_lossy (l : list Z) : list Z :=
  match l with
  | [] => []
  | b0 :: r0 =>
      if between 0 127 b0 then b0 :: utf8_lossy r0
      else if negb (between 194 244 b0) then REPLACEMENT ++ utf8_lossy r0
      else match r0 with
      | [] => REPLACEMENT
      | b1 :: r1 =>
          if negb (second_ok b0 b1) then REPLACEMENT ++ utf8_lossy r0
          else if between 194 223 b0 then b0 :: b1 :: utf8_lossy r1
          else match r1 with
          | [] => REPLACEMENT
          | b2 :: r2 =>
              if negb (cont_byte b2) then REPLACEMENT ++ utf8_lossy r1
              else if between 224 239 b0 then b0 :: b1 :: b2 :: utf8_lossy r2
              else match r2 with
              | [] => REPLACEMENT
              | b3 :: r3 =>
                  if negb (cont_byte b3) then REPLACEMENT ++ utf8_lossy r2
                  else b0 :: b1 :: b2 :: b3 :: utf8_lossy r3
              end
          end
      end
  end.

(** *** Characters: what both functions do on one character *)

Definition utf8_char (c : list Z) : bool :=
  match c with
  | [b0] => between 0 127 b0
  | [b0; b1] => between 194 223 b0 && second_ok b0 b1
  | [b0; b1; b2] => between 224 239 b0 && second_ok b0 b1 && cont_byte b2
  | [b0; b1; b2; b3] =>
      between 240 244 b0 && second_ok b0 b1 && cont_byte b2 && cont_byte b3
  | _ => false
  end.

(** Unfold the byte classes and let [lia] decide the boolean conditions. *)
Ltac byte_lia := unfold second_ok, between, cont_byte in *; lia.

(** Split the conditionals of one step, refuting the branches the bytes exclude. *)
Ltac byte_cases :=
  repeat (match goal with
          | H : context [if ?c then _ else _] |- _ => destruct c eqn:?
          | |- context [if ?c then _ else _] => destruct c eqn:?
          end; try discriminate; try (exfalso; byte_lia)).

(** One unfolding of a fixpoint on a cons, with the tail kept opaque. *)
Ltac utf8_step f :=
  match goal with
  | |- context [f (?b :: ?r)] =>
      let t := fresh "t" in let Ht := fresh "Ht" in
      remember r as t eqn:Ht; cbn [f]; subst t; cbn match
  end.

Lemma utf8_char_valid c r : utf8_char c = true → utf8_valid (c ++ r) = utf8_valid r.
Proof.
  intros H. destruct c as [|b0 [|b1 [|b2 [|b3 [|]]]]]; try discriminate H;
    cbn [utf8_char app] in *; utf8_step utf8_valid; byte_cases; try done.
  all: rewrite ?andb_true_iff in *; destruct_and?.
  all: repeat match goal with |- (?c && _) = _ => replace c with true by byte_lia end; done.
Qed.

Lemma utf8_char_lossy c r : utf8_char c = true → utf8_lossy (c ++ r) = c ++ utf8_lossy r.
Proof.
  intros H. destruct c as [|b0 [|b1 [|b2 [|b3 [|]]]]]; try discriminate H;
    cbn [utf8_char app] in *; utf8_step utf8_lossy; by byte_cases.
Qed.

Lemma utf8_valid_inv l :
  utf8_valid l = true → l = [] ∨ ∃ c r, l = c ++ r ∧ utf8_char c = true ∧ utf8_valid r = true.
Proof.
  destruct l as [|b0 r0]; [by left|]. right. revert H. utf8_step utf8_valid.
  destruct (between 0 127 b0) eqn:H0; [by exists [b0], r0|].
  destruct r0 as [|b1 r1]; [done|]; cbn match.
  destruct (between 194 223 b0) eqn:H1.
  { intros [? ?]%andb_true_iff. exists [b0; b1], r1. split_and!; [done| |done].
    cbn [utf8_char]. byte_lia. }
  destruct r1 as [|b2 r2]; [done|]; cbn match.
  destruct (between 224 239 b0) eqn:H2.
  { intros H. exists [b0; b1; b2], r2. cbn [utf8_char]. split; [done|].
    split; [|by byte_cases; rewrite ?andb_true_iff in H; destruct_and?].
    byte_cases; rewrite ?andb_true_iff in H; destruct_and?; byte_lia. }
  destruct r2 as [|b3 r3]; cbn match; [by byte_cases|].
  intros H. exists [b0; b1; b2; b3], r3. cbn [utf8_char]. split; [done|].
  byte_cases; rewrite ?andb_true_iff in H; destruct_and?; split; try done; byte_lia.
Qed.

(** Every step of the lossy decoder emits one character and drops at least one byte. *)
Lemma utf8_lossy_inv l :
  l = [] ∨ ∃ c p r, l = p ++ r ∧ p ≠ [] ∧ utf8_char c = true ∧ utf8_lossy l = c ++ utf8_lossy r.
Proof.
  destruct l as [|b0 r0]; [by left|]. right. utf8_step utf8_lossy.
  destruct (between 0 127 b0) eqn:H0; [by exists [b0], [b0], r0|].
  destruct (between 194 244 b0) eqn:Hb; cbn [negb]; [|by exists REPLACEMENT, [b0], r0].
  destruct r0 as [|b1 r1]; cbn match; [by exists REPLACEMENT, [b0], []|].
  destruct (second_ok b0 b1) eqn:H1; cbn [negb]; [|by exists REPLACEMENT, [b0], (b1 :: r1)].
  destruct (between 194 223 b0) eqn:H2.
  { exists [b0; b1], [b0; b1], r1. cbn [utf8_char]. by rewrite H2, H1. }
  destruct r1 as [|b2 r2]; cbn match; [by exists REPLACEMENT, [b0; b1], []|].
  destruct (cont_byte b2) eqn:H3; cbn [negb]; [|by exists REPLACEMENT, [b0; b1], (b2 :: r2)].
  destruct (between 224 239 b0) eqn:H4.
  { exists [b0; b1; b2], [b0; b1; b2], r2. cbn [utf8_char]. by rewrite H4, H1, H3. }
  destruct r2 as [|b3 r3]; cbn match; [by exists REPLACEMENT, [b0; b1; b2], []|].
  destruct (cont_byte b3) eqn:H5; cbn [negb]; [|by exists REPLACEMENT, [b0; b1; b2], (b3 :: r3)].
  exists [b0; b1; b2; b3], [b0; b1; b2; b3], r3. cbn [utf8_char].
  split_and!; [done|done| |done]. byte_lia.
Qed.

(** Induction on the length of a byte list. *)
Lemma bytes_ind (P : list Z → Prop) :
  (∀ l, (∀ r, (length r < length l)%nat → P r) → P l) → ∀ l, P l.
Proof. intros H l. apply (well_founded_ind (well_founded_ltof _ (@length Z)) P). eauto. Qed.

Lemma utf8_lossy_id l : utf8_valid l = true → utf8_lossy l = l.
Proof.
  induction l as [l IH] using bytes_ind. intros H.
  apply utf8_valid_inv in H as [->|(c & r & -> & Hc & Hr)]; [done|].
  rewrite utf8_char_lossy, IH; [done| |done|done].
  rewrite length_app. by destruct c; [|simpl; lia].
Qed.

Lemma utf8_lossy_valid l : utf8_valid (utf8_lossy l) = true.
Proof.
  induction l as [l IH] using bytes_ind.
  destruct (utf8_lossy_inv l) as [->|(c & p & r & -> & Hp & Hc & ->)]; [done|].
  rewrite utf8_char_valid by done. apply IH. rewrite length_app. by destruct p; [|simpl; lia].
Qed.

Lemma utf8_char_in_u8 c : utf8_char c = true → Forall in_u8 c.
Proof.
  destruct c as [|b0 [|b1 [|b2 [|b3 [|]]]]]; try done; cbn [utf8_char]; intros H;
    rewrite ?andb_true_iff in H; destruct_and?; repeat constructor; unfold u8_max; byte_lia.
Qed.

Lemma utf8_lossy_in_u8 l : Forall in_u8 (utf8_lossy l).
Proof.
  induction l as [l IH] using bytes_ind.
  destruct (utf8_lossy_inv l) as [->|(c & p & r & -> & Hp & Hc & ->)]; [constructor|].
  apply Forall_app. split; [by apply utf8_char_in_u8|]. apply IH.
  rewrite length_app. by destruct p; [|simpl; lia].
Qed.

(** ** [f32::from_str] followed by [to_bits]

    A decimal [m * 10^e] rounds to the nearest binary32, ties to even. Exponents so
    large or small that every significand overflows or underflows are settled
    first, which bounds the powers of ten. *)

Definition F32_INFINITY : Z := 2139095040.
Definition F32_NAN : Z := 2143289344.

(** Nearest integer to [n / d], ties to even. *)
Definition round_half_even (n d : Z) : Z :=
  let q := n / d in
  let r := n mod d in
  if 2 * r <? d then q
  else if d <? 2 * r then q + 1
  else if Z.even q then q else q + 1.

(** [floor (log2 (n / d))] *)
Definition log2_ratio (n d : Z) : Z :=
  let k := Z.log2 n - Z.log2 d in
  if (if 0 <=? k then d * 2 ^ k <=? n else d <=? n * 2 ^ (- k)) then k else k - 1.

(** The bits of the binary32 nearest to the positive rational [n / d]. *)
Definition f32_bits_of_ratio (n d : Z) : Z :=
  let e := Z.max (-149) (log2_ratio n d - 23) in
  let q := if 0 <=? e then round_half_even n (d * 2 ^ e) else round_half_even (n * 2 ^ (- e)) d in
  Z.min F32_INFINITY (q + (e + 149) * 2 ^ 23).

Definition f32_bits_of_decimal (m e : Z) : Z :=
  if m =? 0 then 0
  else if 39 <=? e + Z.log2 m * 3 / 10 then F32_INFINITY
  else if e + (Z.log2 m + 1) / 3 + 1 <=? -46 then 0
  else if 0 <=? e then f32_bits_of_ratio (m * 10 ^ e) 1
  else f32_bits_of_ratio m (10 ^ (- e)).

(** The digits of a run and what follows it. *)
Fixpoint span_digits (l : list Z) : list Z * list Z :=
  match l with
  | c :: rest =>
      if is_digit c then let '(ds, r) := span_digits rest in (c - 48 :: ds, r) else ([], l)
  | [] => ([], [])
  end.

Definition digits_value (ds : list Z) : Z := foldl (λ acc d, 10 * acc + d) 0 ds.

(** The exponent part; [None] when it is malformed. *)
Definition f32_exponent (l : list Z) : option Z :=
  match l with
  | [] => Some 0
  | c :: rest =>
      if lower c =? 101
      then
        let '(ds, r) := span_digits (strip_sign rest) in
        if decide (ds ≠ [] ∧ r = [])
        then Some (if decide (head rest = Some 45) then - digits_value ds else digits_value ds)
        else None
      else None
  end.

Definition f32_number (l : list Z) : option Z :=
  let '(whole, r) := span_digits l in
  let '(fraction, r) := match r with 46 :: r' => span_digits r' | _ => ([], r) end in
  if decide (whole ++ fraction = []) then None
  else
    e ← f32_exponent r;
    Some (f32_bits_of_decimal (digits_value (whole ++ fraction)) (e - Z.of_nat (length fraction))).

Definition parse_f32_bits (l : list Z) : option Z :=
  let body := strip_sign l in
  let sign := if decide (head l = Some 45) then 2 ^ 31 else 0 in
  let word := lower <$> body in
  magnitude ←
    if decide (word = str_bytes "inf" ∨ word = str_bytes "infinity") then Some F32_INFINITY
    else if decide (word = str_bytes "nan") then Some F32_NAN
    else f32_number body;
  Some (sign + magnitude).

(** [parse::<f32>().is_ok()] *)
Definition parse_f32_ok (l : list Z) : bool :=
  match parse_f32_bits l with Some _ => true | None => false end.

Example f32_one : parse_f32_bits (str_bytes "1.0") = Some 1065353216.
Proof. vm_compute. reflexivity. Qed.
Example f32_tenth : parse_f32_bits (str_bytes "-0.1") = Some 3184315597.
Proof. vm_compute. reflexivity. Qed.
Example f32_max : parse_f32_bits (str_bytes "3.4028234663852886e38") = Some 2139095039.
Proof. vm_compute. reflexivity. Qed.
Example f32_tiny : parse_f32_bits (str_bytes "1.4e-45") = Some 1.
Proof. vm_compute. reflexivity. Qed.
Example f32_overflow : parse_f32_bits (str_bytes "1e39") = Some F32_INFINITY.
Proof. vm_compute. reflexivity. Qed.
