(* ===== verification/CloudCore.v ===== *)
(** * CloudCore: the neutral types and identities of [crates/cloud-core]

    The value types every backend and the journal exchange ([sync.rs]), the owner
    scopes that partition journal rows ([lib.rs]), the process-wide device
    descriptor ([device.rs]) and the stream cancellation handle ([backend.rs]).
    SHA-256 comes from the [sha2] crate and is a parameter. *)

From Stdlib Require Import ZArith Lia.
From S2P Require Import Prelude.

Local Open Scope Z_scope.

(** ** [sync.rs] and [device.rs]: values *)

Record DeviceDescriptor := {
  dd_client_id : Z;
  dd_machine_name : string;
  dd_os_type : option Z;
  dd_device_type : option Z;
}.
#[export] Instance DeviceDescriptor_eq_dec : EqDecision DeviceDescriptor.
Proof. solve_decision. Defined.

Record AchievementSchema := {
  as_owner_scope : string;
  as_app_id : Z;
  as_language : string;
  as_schema_version : option string;
  as_content : list Z;
}.

Record UploadIdentity := {
  ui_client_id : Z;
  ui_machine_name : string;
  ui_os_type : option Z;
  ui_device_type : option Z;
  ui_steam_id64 : string;
  ui_persona_name : option string;
}.

Record PlaytimeEntry := {
  pe_owner_scope : string;
  pe_owner_steam_id64 : string;
  pe_app_id : Z;
  pe_playtime_minutes : Z;
  pe_playtime_2weeks_minutes : Z;
  pe_last_played_at : option Z;
  pe_observed_at : Z;
}.
#[export] Instance PlaytimeEntry_eq_dec : EqDecision PlaytimeEntry.
Proof. solve_decision. Defined.

Record StatsCommit := {
  sc_owner_scope : string;
  sc_owner_steam_id64 : string;
  sc_commit_id : string;
  sc_app_id : Z;
  sc_base_crc_stats : option Z;
  sc_dirty_stat_ids : list Z;
  sc_observed_at : Z;
}.

Record OfficialAchievementState := {
  oa_key : string;
  oa_unlocked : bool;
  oa_unlocked_at : option Z;
}.

Record OfficialStatState := {
  os_key : string;
  os_value_type : string;
  os_value : string;
}.

Record SteamAppSnapshot := {
  ss_owner_scope : string;
  ss_owner_steam_id64 : string;
  ss_commit_id : string;
  ss_app_id : Z;
  ss_base_crc_stats : option Z;
  ss_dirty_stat_ids : list Z;
  ss_achievements : list OfficialAchievementState;
  ss_stats : list OfficialStatState;
  ss_observed_at : Z;
}.

Record AchievementSyncState := {
  ach_app_id : Z;
  ach_achievement_key : string;
  ach_unlocked : bool;
  ach_progress_current : option Z;
  ach_progress_max : option Z;
  ach_observed_at : Z;
  ach_unlocked_at : option Z;
}.
#[export] Instance AchievementSyncState_eq_dec : EqDecision AchievementSyncState.
Proof. solve_decision. Defined.

Record StatSyncState := {
  st_app_id : Z;
  st_stat_key : string;
  st_value_type : string;
  st_value : string;
  st_observed_at : Z;
}.
#[export] Instance StatSyncState_eq_dec : EqDecision StatSyncState.
Proof. solve_decision. Defined.

Inductive AppStatsResult :=
| Uninitialized
| SchemaMismatch (schema_version : option string)
| Unchanged (schema_version : string) (crc_stats : Z)
| Modified (schema_version : string) (crc_stats : option Z)
    (achievements : list AchievementSyncState) (stats : list StatSyncState).

Inductive AppStatsUploadStatus := UploadUninitialized | NoChange | Applied | StatsOutOfDate.

Record AppStatsUploadResult := {
  au_app_id : Z;
  au_status : AppStatsUploadStatus;
  au_crc_stats : option Z;
}.

(** [SteamStateUploadResult] *)
Record SteamStateUploadResult := { stats_apps : list AppStatsUploadResult }.

Record AppStatsQuery := {
  aq_app_id : Z;
  aq_client_crc_stats : option Z;
  aq_schema_version : string;
}.

Record AppStatsCrc := { ac_app_id : Z; ac_crc_stats : Z }.

Record AccountSyncState := {
  acc_stats_crcs : list AppStatsCrc;
  acc_playtime_revision : Z;
  acc_achievements : list AchievementSyncState;
  acc_stats : list StatSyncState;
  acc_playtime : list PlaytimeEntry;
}.

(** ** [backend.rs]: errors as delivery scheduling sees them *)

Record BackendError := { be_message : string; be_retryable : bool }.

Definition is_retryable (e : BackendError) : bool := be_retryable e.

(** ** [lib.rs]: owner scopes *)

Section scopes.
(** [Sha256::digest]; feeding a hasher in pieces hashes their concatenation. *)
Context (sha256 : list Z → list Z).

Definition SCOPE_DOMAIN : list Z := str_bytes "vapor-forge/scope/v1".

Definition normalized_server_url (server_url : string) : list Z :=
  trim_end_matches 47 (trim (str_bytes server_url)).

(** [update_field]: a length prefix, then the field. *)
Definition update_field (hasher field : list Z) : list Z :=
  hasher ++ be_bytes 8 (Z.of_nat (length field)) ++ field.

(** The bytes the hasher has seen when [scope_digest] finalizes it. *)
Definition scope_preimage (kind : list Z) (fields : list (list Z)) : list Z :=
  foldl update_field (update_field (update_field [] SCOPE_DOMAIN) kind) fields.

Definition scope_digest (kind : list Z) (fields : list (list Z)) : list Z :=
  hex_bytes (sha256 (scope_preimage kind fields)).

Definition endpoint_scope (server_url : string) : list Z :=
  scope_digest (str_bytes "endpoint") [normalized_server_url server_url].

Definition credential_fingerprint (server_url token : string) : list Z :=
  scope_digest (str_bytes "credential")
    [normalized_server_url server_url; trim (str_bytes token)].

Definition principal_scope (server_url principal_id : string) : list Z :=
  scope_digest (str_bytes "principal")
    [normalized_server_url server_url; trim (str_bytes principal_id)].

Definition stats_commit_id (steam_id64 : string) (app_id : Z) (request : list Z) : list Z :=
  scope_digest (str_bytes "stats-commit")
    [str_bytes steam_id64; be_bytes 4 app_id; sha256 request].
End scopes.

(** ** [device.rs]: the process-wide device descriptor

    The state is the content of the [DEVICE_DESCRIPTOR] mutex. *)

Definition replace_device_descriptor (current : option DeviceDescriptor)
    (descriptor : DeviceDescriptor) : bool * option DeviceDescriptor :=
  if decide (current = Some descriptor) then (false, current) else (true, Some descriptor).

Definition record_device_descriptor (current : option DeviceDescriptor)
    (descriptor : DeviceDescriptor) : bool * option DeviceDescriptor :=
  if decide (dd_client_id descriptor = 0) then (false, current)
  else replace_device_descriptor current descriptor.

Definition restore_device_descriptor (current : option DeviceDescriptor)
    (descriptor : DeviceDescriptor) : option DeviceDescriptor :=
  match current with None => Some descriptor | Some _ => current end.

Definition record_local_client_id (current : option DeviceDescriptor) (client_id : Z)
    : bool * option DeviceDescriptor :=
  record_device_descriptor current
    {| dd_client_id := client_id; dd_machine_name := "";
       dd_os_type := None; dd_device_type := None |}.

(** ** [backend.rs]: stream cancellation

    The state behind the mutex. Each method holds the lock for its whole body, so
    a run is a sequence of these transitions; a waiter is parked while
    [waits] holds and re-tests it on every [notify_all]. *)

Record StreamCancellationState := { cancelled : bool; revision : Z }.

Definition stream_cancellation_new : StreamCancellationState :=
  {| cancelled := false; revision := 0 |}.

Definition cancel (s : StreamCancellationState) : StreamCancellationState :=
  if cancelled s then s
  else {| cancelled := true; revision := u64_wrapping_add (revision s) 1 |}.

Definition signal_activity (s : StreamCancellationState) : StreamCancellationState :=
  {| cancelled := cancelled s; revision := u64_wrapping_add (revision s) 1 |}.

(** The loop condition of [wait_for_activity]. *)
Definition waits (s : StreamCancellationState) (previous : Z) : bool :=
  negb (cancelled s) && bool_decide (revision s = previous).

Inductive stream_step : StreamCancellationState → StreamCancellationState → Prop :=
| step_cancel s : stream_step s (cancel s)
| step_signal s : stream_step s (signal_activity s).

(** * Properties *)

(** ** Scopes *)

Lemma update_field_inj h f g a b :
  Z.of_nat (length f) < 2 ^ 64 → Z.of_nat (length g) < 2 ^ 64 →
  update_field h f ++ a = update_field h g ++ b → f = g ∧ a = b.
Proof.
  unfold update_field. rewrite <-!app_assoc. intros Hf Hg H.
  apply app_inv_head in H.
  apply app_inj_length in H as [Hlen H]; [|by rewrite !length_be_bytes].
  apply be_bytes_inj in Hlen; [|simpl; lia..].
  apply app_inj_length in H; [done|lia].
Qed.

Lemma foldl_update_field_app h fs :
  foldl update_field h fs =
  h ++ (fs ≫= λ f, be_bytes 8 (Z.of_nat (length f)) ++ f).
Proof.
  revert h; induction fs as [|f fs IH]; intros h; simpl; [by rewrite app_nil_r|].
  rewrite IH. unfold update_field. by rewrite <-!app_assoc.
Qed.

Lemma fields_inj fs gs :
  Forall (λ f, Z.of_nat (length f) < 2 ^ 64) fs →
  Forall (λ f, Z.of_nat (length f) < 2 ^ 64) gs →
  (fs ≫= λ f, be_bytes 8 (Z.of_nat (length f)) ++ f) =
  (gs ≫= λ f, be_bytes 8 (Z.of_nat (length f)) ++ f) → fs = gs.
Proof.
  intros Hfs. revert gs; induction Hfs as [|f fs Hf _ IH]; intros [|g gs] Hgs H.
  - done.
  - apply (f_equal length) in H.
    rewrite bind_cons, !length_app, length_be_bytes in H. simpl in H. lia.
  - apply (f_equal length) in H.
    rewrite bind_cons, !length_app, length_be_bytes in H. simpl in H. lia.
  - apply Forall_cons in Hgs as [Hg Hgs].
    apply (update_field_inj [] f g) in H as [-> H]; [|done..].
    f_equal. by apply IH.
Qed.

(** The framing is unambiguous: kind and fields can be read back. *)
Lemma scope_preimage_inj k1 k2 fs gs :
  Forall (λ f, Z.of_nat (length f) < 2 ^ 64) (k1 :: fs) →
  Forall (λ f, Z.of_nat (length f) < 2 ^ 64) (k2 :: gs) →
  scope_preimage k1 fs = scope_preimage k2 gs → k1 = k2 ∧ fs = gs.
Proof.
  unfold scope_preimage. intros H1 H2.
  change (foldl update_field (update_field ?h ?k) ?l)
    with (foldl update_field h (k :: l)).
  rewrite !foldl_update_field_app. intros H%app_inv_head.
  apply fields_inj in H; [|done..]. by simplify_eq.
Qed.

(** [scope_digest_binds]: two equal scopes name the same kind and the same fields,
    unless the two hashed messages are a SHA-256 collision. *)
Theorem scope_digest_binds (sha256 : list Z → list Z)
    (Hsha : ∀ m, Forall in_u8 (sha256 m)) k1 k2 fs gs
    (H1 : Forall (λ f, Z.of_nat (length f) < 2 ^ 64) (k1 :: fs))
    (H2 : Forall (λ f, Z.of_nat (length f) < 2 ^ 64) (k2 :: gs)) :
  scope_digest sha256 k1 fs = scope_digest sha256 k2 gs →
  (k1 = k2 ∧ fs = gs) ∨
  (scope_preimage k1 fs ≠ scope_preimage k2 gs ∧
   sha256 (scope_preimage k1 fs) = sha256 (scope_preimage k2 gs)).
Proof.
  intros H. apply hex_bytes_inj in H; [|apply Hsha..].
  destruct (decide (scope_preimage k1 fs = scope_preimage k2 gs)) as [Heq|Hne].
  - left. by apply scope_preimage_inj.
  - by right.
Qed.

(** *** URL normalization *)

Definition prefix_free (ps : list (list Z)) : bool :=
  forallb (λ p, forallb (λ q,
    bool_decide (p = q) || negb (bool_decide (is_Some (strip_prefix p q)))) ps) ps.

Lemma prefix_free_inj ps p q a b :
  prefix_free ps = true → p ∈ ps → q ∈ ps → p ++ a = q ++ b → p = q ∧ a = b.
Proof.
  unfold prefix_free. rewrite forallb_forall. intros Hpf Hp Hq H.
  assert (Hcase : ∀ p q a b, p ∈ ps → q ∈ ps → (length p ≤ length q)%nat →
    p ++ a = q ++ b → p = q ∧ a = b).
  { clear p q a b Hp Hq H. intros p q a b Hp Hq Hl H.
    rewrite <-(take_drop (length p) q) in H at 1. rewrite <-app_assoc in H.
    apply app_inj_length in H as [Hpq H]; [|rewrite length_take; lia].
    assert (Hq' : q = p ++ drop (length p) q) by (rewrite Hpq at 1; by rewrite take_drop).
    specialize (Hpf p ltac:(by apply list_elem_of_In)).
    rewrite forallb_forall in Hpf. specialize (Hpf q ltac:(by apply list_elem_of_In)).
    apply orb_true_iff in Hpf as [Hpf|Hpf].
    - apply bool_decide_eq_true_1 in Hpf as ->. split; [done|].
      by rewrite drop_ge in H by done.
    - apply negb_true_iff, bool_decide_eq_false_1 in Hpf. destruct Hpf.
      exists (drop (length p) q). by apply strip_prefix_Some. }
  destruct (decide (length p ≤ length q)%nat).
  - by apply Hcase.
  - destruct (Hcase q p b a) as [-> ->]; auto; lia.
Qed.

(** Stripping removes a run of listed encodings and stops at what cannot be
    stripped further. *)
Lemma strip_while_concat ps ws l fuel :
  prefix_free ps = true → Forall (λ p, p ≠ []) ps → Forall (λ p, p ∈ ps) ws →
  strip_any ps l = None → (length (concat ws ++ l) ≤ fuel)%nat →
  strip_while ps fuel (concat ws ++ l) = l.
Proof.
  intros Hpf Hne Hws Hl. revert fuel.
  induction Hws as [|w ws Hw _ IH]; intros fuel Hf; simpl in *.
  - by apply strip_while_stop.
  - rewrite <-app_assoc in *.
    assert (w ≠ []) by (by eapply Forall_forall in Hne).
    destruct fuel as [|fuel].
    { destruct w; simpl in *; [done|lia]. }
    simpl. destruct (strip_any ps (w ++ concat ws ++ l)) as [l'|] eqn:E.
    + apply strip_any_Some in E as (p & Hp & E).
      apply (prefix_free_inj ps) in E as [-> <-]; [|done..].
      apply IH. rewrite length_app in Hf. destruct p; simpl in *; [done|lia].
    + exfalso. rewrite strip_any_None in E. by apply (E w (concat ws ++ l)).
Qed.

Lemma concat_reverse_map {A} (ws : list (list A)) :
  concat (reverse (reverse <$> ws)) = reverse (concat ws).
Proof.
  induction ws as [|w ws IH]; [done|]. csimpl.
  rewrite reverse_cons, concat_app, IH, reverse_app. simpl. by rewrite app_nil_r.
Qed.

Lemma strip_end_concat ps ws l :
  prefix_free (reverse <$> ps) = true → Forall (λ p, p ≠ []) ps →
  Forall (λ p, p ∈ ps) ws → strip_any (reverse <$> ps) (reverse l) = None →
  reverse (strip_while (reverse <$> ps) (length (l ++ concat ws))
             (reverse (l ++ concat ws))) = l.
Proof.
  intros Hpf Hne Hws Hl.
  rewrite reverse_app, <-concat_reverse_map, strip_while_concat.
  - by rewrite reverse_involutive.
  - done.
  - apply Forall_fmap. eapply Forall_impl; [done|]. simpl. intros p Hp Hr.
    apply Hp. by rewrite <-(reverse_involutive p), Hr.
  - apply Forall_reverse, Forall_fmap. eapply Forall_impl; [done|]. simpl.
    intros p Hp. by apply list_elem_of_fmap_2.
  - done.
  - rewrite concat_reverse_map, !length_app, !length_reverse. lia.
Qed.

(** A UTF-8 encoding has continuation bytes after its first byte, and only there,
    so no whitespace encoding straddles the end of a string and a whitespace run. *)
Definition is_cont (b : Z) : bool := (128 <=? b) && (b <? 192).

Lemma whitespace_shape :
  forallb (λ p, match p with
    | [] => false | b :: p' => negb (is_cont b) && forallb is_cont p' end)
    utf8_whitespace = true.
Proof. by vm_compute. Qed.

Lemma whitespace_cons p :
  p ∈ utf8_whitespace → ∃ b p', p = b :: p' ∧ is_cont b = false ∧ Forall (λ c, is_cont c = true) p'.
Proof.
  intros Hp. pose proof whitespace_shape as H. rewrite forallb_forall in H.
  specialize (H p ltac:(by apply list_elem_of_In)). destruct p as [|b p']; [done|].
  apply andb_true_iff in H as [H1 H2]. exists b, p'. split; [done|].
  split; [by apply negb_true_iff|]. apply Forall_forall. intros x Hx.
  rewrite forallb_forall in H2. by apply H2, list_elem_of_In.
Qed.

Lemma strip_any_whitespace_app c ws :
  c ≠ [] → strip_any utf8_whitespace c = None →
  Forall (λ w, w ∈ utf8_whitespace) ws →
  strip_any utf8_whitespace (c ++ concat ws) = None.
Proof.
  intros Hc Hn Hws. rewrite strip_any_None in *. intros p l' Hp Heq.
  destruct (decide (length p ≤ length c)%nat) as [Hl|Hl].
  - apply (Hn p (drop (length p) c) Hp).
    apply (f_equal (take (length p))) in Heq.
    rewrite take_app_le, take_app_length in Heq by done.
    rewrite <-(take_drop (length p) c) at 1. by rewrite Heq.
  - destruct (whitespace_cons p Hp) as (b & p' & -> & _ & Hp').
    destruct c as [|x c]; [done|]. simpl in *. injection Heq as <- Heq.
    destruct ws as [|w ws]; simpl in *.
    { apply (f_equal length) in Heq. rewrite !length_app in Heq. simpl in Heq. lia. }
    apply Forall_cons in Hws as [Hw _].
    destruct (whitespace_cons w Hw) as (d & w' & -> & Hd & _).
    apply (f_equal (.!! length c)) in Heq.
    rewrite lookup_app_r, Nat.sub_diag in Heq by done. simpl in Heq.
    rewrite lookup_app_l in Heq by lia.
    symmetry in Heq. rewrite Forall_lookup in Hp'. specialize (Hp' _ _ Heq). congruence.
Qed.

Lemma strip_slashes u n :
  strip_any [[47]] (reverse u) = None →
  trim_end_matches 47 (u ++ replicate n 47) = u.
Proof.
  intros Hu. unfold trim_end_matches.
  replace (replicate n 47) with (concat (replicate n [47]))
    by (induction n as [|n IH]; simpl; [done|by rewrite IH]).
  apply (strip_end_concat [[47]]); [done|by repeat constructor| |done].
  apply Forall_replicate. set_solver.
Qed.

Lemma whitespace_prefix_free :
  prefix_free utf8_whitespace = true ∧ prefix_free (reverse <$> utf8_whitespace) = true.
Proof. split; by vm_compute. Qed.

Lemma trim_clean pre c post :
  Forall (λ w, w ∈ utf8_whitespace) pre → Forall (λ w, w ∈ utf8_whitespace) post →
  c ≠ [] → strip_any utf8_whitespace c = None →
  strip_any (reverse <$> utf8_whitespace) (reverse c) = None →
  trim (concat pre ++ c ++ concat post) = c.
Proof.
  intros Hpre Hpost Hc H1 H2. unfold trim, trim_start.
  destruct whitespace_prefix_free as [Hp1 Hp2].
  pose proof utf8_whitespace_nonempty as Hne.
  pose proof (strip_any_whitespace_app c post Hc H1 Hpost) as H3.
  rewrite (strip_while_concat _ _ _ _ Hp1 Hne Hpre H3 (le_n _)).
  exact (strip_end_concat utf8_whitespace post c Hp2 Hne Hpost H2).
Qed.

(** [endpoint_scope_normalized]: surrounding Unicode white space and trailing
    slashes never change an endpoint scope. *)
Theorem endpoint_scope_normalized (sha256 : list Z → list Z) pre post u n (s t : string)
    (Hpre : Forall (λ w, w ∈ utf8_whitespace) pre)
    (Hpost : Forall (λ w, w ∈ utf8_whitespace) post)
    (Hu : u ≠ [] ∧ strip_any [[47]] (reverse u) = None)
    (Hl : strip_any utf8_whitespace (u ++ replicate n 47) = None)
    (Hr : strip_any (reverse <$> utf8_whitespace) (reverse (u ++ replicate n 47)) = None)
    (Hs : str_bytes s = concat pre ++ (u ++ replicate n 47) ++ concat post)
    (Ht : str_bytes t = u ++ replicate n 47) :
  normalized_server_url s = u ∧
  endpoint_scope sha256 s = endpoint_scope sha256 t.
Proof.
  destruct Hu as [Hne Hu].
  assert (Hn : u ++ replicate n 47 ≠ []) by (destruct u; done).
  assert (Hns : normalized_server_url s = u).
  { unfold normalized_server_url. by rewrite Hs, trim_clean, strip_slashes. }
  split; [done|]. unfold endpoint_scope. rewrite Hns.
  unfold normalized_server_url. rewrite Ht.
  pose proof (trim_clean [] _ [] (Forall_nil_2 _) (Forall_nil_2 _) Hn Hl Hr) as Htc.
  simpl in Htc. rewrite app_nil_r in Htc. by rewrite Htc, strip_slashes.
Qed.

(** ** Device descriptor *)

(** [record_device_descriptor_spec]: a login is reported as a change exactly when
    the stored descriptor changes, it is then the stored one, the unknown client 0
    is never stored, and a restored descriptor never displaces a recorded one. *)
Theorem record_device_descriptor_spec current d :
  let '(changed, current') := record_device_descriptor current d in
  (changed = true ↔ current' ≠ current) ∧
  (dd_client_id d ≠ 0 → current' = Some d) ∧
  (dd_client_id d = 0 → current' = current) ∧
  ∀ r, dd_client_id d ≠ 0 → restore_device_descriptor current' r = Some d.
Proof.
  unfold record_device_descriptor, replace_device_descriptor.
  repeat case_decide; simplify_eq/=; naive_solver.
Qed.

(** ** Stream cancellation *)

Lemma stream_steps_spec k s s' :
  nsteps stream_step k s s' →
  cancelled s' = true ∨
  (cancelled s = false ∧ revision s' mod 2 ^ 64 = (revision s + Z.of_nat k) mod 2 ^ 64 ∧
   (k ≠ 0%nat → in_u64 (revision s')))%Z.
Proof.
  revert s'. induction k as [|k IH]; intros s' H.
  { inversion H; subst. destruct (cancelled s'); [by left|right].
    split; [done|]. by rewrite Z.add_0_r. }
  apply nsteps_inv_r in H as (t & Ht & Hstep).
  destruct (IH _ Ht) as [Hc|(Hc & Hrev & _)].
  - left. inversion Hstep; subst; unfold cancel; simpl; by rewrite ?Hc.
  - inversion Hstep; subst; unfold cancel.
    + left. by destruct (cancelled t) eqn:?.
    + simpl. destruct (cancelled t) eqn:?; [by left|right].
      split; [done|]. split; [|auto with vapor].
      unfold u64_wrapping_add. rewrite Zmod_mod, <-Zplus_mod_idemp_l, Hrev, Zplus_mod_idemp_l.
      f_equal. lia.
Qed.

(** [no_lost_wakeup]: a forwarder that read the revision and then waits is
    released by any later activity or cancellation, also when those happened before
    it started waiting (fewer than 2^64 of them). *)
Theorem no_lost_wakeup k s s'
    (Hs : in_u64 (revision s))
    (Hk : (0 < Z.of_nat k < 2 ^ 64)%Z)
    (Hrun : nsteps stream_step k s s') :
  waits s' (revision s) = false.
Proof.
  unfold waits. apply stream_steps_spec in Hrun as [->|(_ & Hrev & Hin)]; [done|].
  destruct (decide (revision s' = revision s)) as [He|]; [|by rewrite bool_decide_eq_false_2, andb_false_r].
  exfalso. rewrite He in Hrev. rewrite (Z.mod_small (revision s)) in Hrev by int_lia.
  destruct (decide (revision s + Z.of_nat k < 2 ^ 64)).
  - rewrite Z.mod_small in Hrev by int_lia. lia.
  - replace (revision s + Z.of_nat k) with (revision s + Z.of_nat k - 2 ^ 64 + 1 * 2 ^ 64) in Hrev by lia.
    rewrite Z_mod_plus_full, Z.mod_small in Hrev by int_lia. lia.
Qed.
