(* ===== verification/SteamProtocol.v ===== *)
(** * SteamProtocol: wire formats of [crates/steam-protocol/src/lib.rs]

    Packet framing, the stats token (canonical wire bytes and CRC-32C), the binary
    KeyValues parser of the achievement schema and the mappings read from it, and
    the license list. Protobuf encoding and decoding is prost's and a parameter
    where a definition needs it; the messages are records with prost's fields. *)

From Stdlib Require Import ZArith Lia.
From S2P Require Import Prelude RustStd.

Local Open Scope Z_scope.

(** ** App ids *)

(** The low 24 bits of a [CGameID]. *)
Definition app_id_from_game_id (game_id : Z) : option Z :=
  let app_id := Z.land (as_u32 game_id) 16777215 in
  if app_id =? 0 then None else Some app_id.

(** ** Packet framing *)

Definition MSG_HDR_SIZE : nat := 8.
Definition K_MSG_HDR_PROTO_FLAG : Z := 2147483648.

(** [8usize.checked_add(hdr_len)] succeeds: [hdr_len] is a [u32]. *)
Definition unpack_raw (data : list Z) : option (Z * list Z * list Z) :=
  if (length data <? MSG_HDR_SIZE)%nat then None
  else
    let emsg_raw := le_value (take 4 data) in
    let hdr_len := Z.to_nat (le_value (take 4 (drop 4 data))) in
    let hdr_end := (MSG_HDR_SIZE + hdr_len)%nat in
    if (length data <? hdr_end)%nat then None
    else Some (emsg_raw, take hdr_len (drop MSG_HDR_SIZE data), drop hdr_end data).

Definition assemble_raw (emsg_raw : Z) (header_bytes body_bytes : list Z) : list Z :=
  le_bytes 4 emsg_raw ++ le_bytes 4 (as_u32 (Z.of_nat (length header_bytes)))
  ++ header_bytes ++ body_bytes.

(** ** Stats messages *)

Record PlayerAchievementUnlockTime := {
  ut_achievement_bit : option Z;
  ut_unlock_time : option Z;
}.

Record PlayerStatsEntry := {
  se_stat_id : option Z;
  se_stat_value : option Z;
  se_unlock_times : list PlayerAchievementUnlockTime;
}.

Record PlayerGetUserStatsRequest := {
  sq_steamid : option Z;
  sq_appid : option Z;
  sq_sha_schema : option (list Z);
  sq_crc_stats : option Z;
  sq_crc_schema : option Z;
}.

Record PlayerGetUserStatsResponse := {
  sr_sha_schema : option (list Z);
  sr_crc_stats : option Z;
  sr_schema : option (list Z);
  sr_stats : list PlayerStatsEntry;
  sr_crc_schema : option Z;
}.

Record ClientGetUserStatsRequest := {
  lq_game_id : option Z;
  lq_crc_stats : option Z;
  lq_schema_local_version : option Z;
  lq_steam_id_for_user : option Z;
}.

Record LegacyStatsEntry := {
  le_stat_id : option Z;
  le_stat_value : option Z;
}.

Record AchievementBlock := {
  ab_achievement_id : option Z;
  ab_unlock_time : list Z;
}.

Record ClientGetUserStatsResponse := {
  lr_game_id : option Z;
  lr_eresult : option Z;
  lr_crc_stats : option Z;
  lr_schema : option (list Z);
  lr_stats : list LegacyStatsEntry;
  lr_achievement_blocks : list AchievementBlock;
}.

Definition ACHIEVEMENT_UNLOCK_TIME_UNKNOWN : Z := 1191999600.

(** ** The stats token *)

(** One of the eight shifts per byte. *)
Definition crc_shift (crc : Z) : Z :=
  let mask := as_u32 (- Z.land crc 1) in
  Z.lxor (Z.shiftr crc 1) (Z.land 2197175160 mask).

Definition crc_byte (crc byte : Z) : Z := Nat.iter 8 crc_shift (Z.lxor crc byte).

(** [!x] on [u32] *)
Definition u32_not (x : Z) : Z := u32_max - x.

Definition stats_crc32c (bytes : list Z) : Z := u32_not (foldl crc_byte u32_max bytes).

(** A [u64] has at most ten base-128 digits. *)
Fixpoint encode_stats_varint_loop (fuel : nat) (value : Z) : list Z :=
  match fuel with
  | O => [value]
  | S fuel =>
      if 128 <=? value
      then Z.lor (value mod 256) 128 :: encode_stats_varint_loop fuel (Z.shiftr value 7)
      else [value]
  end.
Definition encode_stats_varint (value : Z) : list Z := encode_stats_varint_loop 10 value.

Definition sort_unlock_times (l : list PlayerAchievementUnlockTime) :=
  sort_by_key (λ t, default u32_max (ut_achievement_bit t)) l.

Definition sorted_player_stats (stats : list PlayerStatsEntry) : list PlayerStatsEntry :=
  (λ e, {| se_stat_id := se_stat_id e; se_stat_value := se_stat_value e;
           se_unlock_times := sort_unlock_times (se_unlock_times e) |}) <$>
  sort_by_key (λ e, default u32_max (se_stat_id e)) stats.

Section token.
(** prost's encoding of one entry *)
Context (encode_to_vec : PlayerStatsEntry → list Z).

Definition canonical_stats_wire_bytes (stats : list PlayerStatsEntry) : list Z :=
  sorted_player_stats stats ≫= λ entry,
    let entry := encode_to_vec entry in
    34 :: encode_stats_varint (Z.of_nat (length entry)) ++ entry.

Definition stats_crc (stats : list PlayerStatsEntry) : Z :=
  stats_crc32c (canonical_stats_wire_bytes stats).
End token.

(** ** The achievement schema: binary KeyValues *)

Inductive AchievementSchemaError :=
| Truncated
| InvalidUtf8
| UnsupportedType (kind : Z)
| LimitExceeded
| MissingRoot.

Definition ACHIEVEMENT_SCHEMA_MAX_DEPTH : nat := 32.
Definition ACHIEVEMENT_SCHEMA_MAX_ENTRIES : Z := 100000.

Inductive AchievementSchemaValue :=
| Object (m : gmap string AchievementSchemaValue)
| StringValue (value : string)
| Int (value : Z)
| Other.

Definition value_object (v : AchievementSchemaValue) : option (gmap string AchievementSchemaValue) :=
  match v with Object m => Some m | _ => None end.
Definition value_string (v : AchievementSchemaValue) : option string :=
  match v with StringValue s => Some s | _ => None end.
Definition value_int (v : AchievementSchemaValue) : option Z :=
  match v with Int i => Some i | _ => None end.

Notation SR := (result AchievementSchemaError).

(** [AchievementSchemaParser]: the bytes from [position] on, and the entry count. *)
Record Parser := { ps_rest : list Z; ps_entries : Z }.

Definition parser_new (bytes : list Z) : Parser := {| ps_rest := bytes; ps_entries := 0 |}.

Definition parser_byte (p : Parser) : SR (Z * Parser) :=
  match ps_rest p with
  | [] => Err Truncated
  | b :: rest => Ok (b, {| ps_rest := rest; ps_entries := ps_entries p |})
  end.

(** [position + length] does not overflow: at most 131,070 bytes are requested. *)
Definition parser_take (n : nat) (p : Parser) : SR (list Z * Parser) :=
  if (length (ps_rest p) <? n)%nat then Err Truncated
  else Ok (take n (ps_rest p), {| ps_rest := drop n (ps_rest p); ps_entries := ps_entries p |}).

(** The bytes before the first NUL, and those after it. *)
Fixpoint split_nul (l : list Z) : option (list Z * list Z) :=
  match l with
  | [] => None
  | b :: rest =>
      if b =? 0 then Some ([], rest)
      else '(s, r) ← split_nul rest; Some (b :: s, r)
  end.

Definition parser_cstring (p : Parser) : SR (string * Parser) :=
  match split_nul (ps_rest p) with
  | None => Err Truncated
  | Some (s, rest) =>
      if utf8_valid s
      then Ok (bytes_str s, {| ps_rest := rest; ps_entries := ps_entries p |})
      else Err InvalidUtf8
  end.

Definition count_entry (p : Parser) : SR Parser :=
  let entries := ps_entries p + 1 in
  if ACHIEVEMENT_SCHEMA_MAX_ENTRIES <? entries then Err LimitExceeded
  else Ok {| ps_rest := ps_rest p; ps_entries := entries |}.

(** A value of a leaf kind. *)
Definition parser_leaf (kind : Z) (p : Parser) : SR (AchievementSchemaValue * Parser) :=
  if kind =? 1 then '(s, p) ← parser_cstring p; Ok (StringValue s, p)
  else if kind =? 2 then '(b, p) ← parser_take 4 p; Ok (Int (as_i32 (le_value b)), p)
  else if (kind =? 3) || (kind =? 4) || (kind =? 6)
  then '(_, p) ← parser_take 4 p; Ok (Other, p)
  else if kind =? 5
  then
    '(b, p) ← parser_take 2 p;
    '(_, p) ← parser_take (Z.to_nat (2 * le_value b)) p;
    Ok (Other, p)
  else if kind =? 7 then '(b, p) ← parser_take 8 p; Ok (Int (as_i64 (le_value b)), p)
  else Err (UnsupportedType kind).

(** [object]: the loop consumes a byte per round, so one more unit of fuel than
    bytes is enough. [result] is the map built so far. *)
Fixpoint parser_object (fuel : nat) (depth : nat) (m : gmap string AchievementSchemaValue)
    (p : Parser) : SR (gmap string AchievementSchemaValue * Parser) :=
  match fuel with
  | O => Err Truncated
  | S fuel =>
      '(kind, p) ← parser_byte p;
      if kind =? 8 then Ok (m, p)
      else
        p ← count_entry p;
        '(key, p) ← parser_cstring p;
        if kind =? 0
        then
          if (ACHIEVEMENT_SCHEMA_MAX_DEPTH <? S depth)%nat then Err LimitExceeded
          else
            '(o, p) ← parser_object fuel (S depth) ∅ p;
            parser_object fuel depth (<[key := Object o]> m) p
        else
          '(v, p) ← parser_leaf kind p;
          parser_object fuel depth (<[key := v]> m) p
  end.

Definition parse_achievement_schema_root (bytes : list Z)
    : SR (gmap string AchievementSchemaValue) :=
  '(kind, p) ← parser_byte (parser_new bytes);
  if kind =? 0
  then
    '(_, p) ← parser_cstring p;
    '(m, _) ← parser_object (S (length (ps_rest p))) 0 ∅ p;
    Ok m
  else Err MissingRoot.

Definition schema_stats (root : gmap string AchievementSchemaValue)
    : SR (gmap string AchievementSchemaValue) :=
  ok_or (root !! "stats" ≫= value_object) MissingRoot.

Record AchievementBitMapping := {
  bm_stat_id : Z;
  bm_achievement_bit : Z;
  bm_key : string;
}.

Record StatMapping := {
  sm_stat_id : Z;
  sm_key : string;
  sm_value_type : option Z;
}.

(** [filter(|key| !key.trim().is_empty())] *)
Definition nonblank (key : string) : option string :=
  if decide (trim (str_bytes key) = []) then None else Some key.

Section mappings.
(** [HashMap] iteration, in an order the standard library leaves open *)
Context (iter : gmap string AchievementSchemaValue → list (string * AchievementSchemaValue)).

Definition bit_mapping (stat_id : Z) (p : string * AchievementSchemaValue)
    : option AchievementBitMapping :=
  achievement_bit ← parse_unsigned u32_max (str_bytes p.1);
  achievement ← value_object p.2;
  name ← achievement !! "name";
  name ← value_string name;
  key ← nonblank name;
  Some {| bm_stat_id := stat_id; bm_achievement_bit := achievement_bit; bm_key := key |}.

Definition stat_bit_mappings (p : string * AchievementSchemaValue)
    : list AchievementBitMapping :=
  match
    stat_id ← parse_unsigned u32_max (str_bytes p.1);
    stat ← value_object p.2;
    bits ← stat !! "bits";
    bits ← value_object bits;
    Some (omap (bit_mapping stat_id) (iter bits))
  with Some l => l | None => [] end.

Definition parse_achievement_bit_mappings (bytes : list Z)
    : SR (list AchievementBitMapping) :=
  root ← parse_achievement_schema_root bytes;
  stats ← schema_stats root;
  Ok (sort_by_key (λ m, (bm_stat_id m, bm_achievement_bit m))
        (iter stats ≫= stat_bit_mappings)).

Definition stat_mapping (p : string * AchievementSchemaValue) : option StatMapping :=
  stat_id ← parse_unsigned u32_max (str_bytes p.1);
  stat ← value_object p.2;
  match stat !! "bits" with
  | Some _ => None
  | None =>
      name ← stat !! "name";
      name ← value_string name;
      key ← nonblank name;
      Some {| sm_stat_id := stat_id; sm_key := key;
              sm_value_type :=
                match stat !! "type" ≫= value_int with
                | Some t => Some t
                | None => stat !! "display" ≫= value_int
                end |}
  end.

Definition parse_stat_mappings (bytes : list Z) : SR (list StatMapping) :=
  root ← parse_achievement_schema_root bytes;
  stats ← schema_stats root;
  Ok (sort_by_key sm_stat_id (omap stat_mapping (iter stats))).
End mappings.

(** ** Licenses *)

Record ClientLicense := {
  li_package_id : option Z;
  li_owner_id : option Z;
  li_access_token : option Z;
}.

Record LicensedPackage := {
  lic_package_id : Z;
  lic_access_token : Z;
  lic_owner_id : Z;
}.

Record ClientLicenseList := { ll_eresult : option Z; ll_licenses : list ClientLicense }.

Definition is_held_by_other_account (p : LicensedPackage) (self_account_id : Z) : bool :=
  negb (lic_owner_id p =? 0) && negb (lic_owner_id p =? self_account_id).

Definition licensed_package (license : ClientLicense) : option LicensedPackage :=
  package_id ← li_package_id license;
  if package_id =? 0 then None
  else Some {| lic_package_id := package_id;
               lic_access_token := default 0 (li_access_token license);
               lic_owner_id := default 0 (li_owner_id license) |}.

Definition licensed_packages (decode : list Z → option ClientLicenseList) (body : list Z)
    : option (list LicensedPackage) :=
  list ← decode body;
  Some (omap licensed_package (ll_licenses list)).
