(* ===== verification/SteamProtocolProofs.v ===== *)
(** * SteamProtocolProofs: wire formats round-trip and the stats token names a state *)

From Stdlib Require Import ZArith Lia.
From S2P Require Import Prelude RustStd SteamProtocol.

Local Open Scope Z_scope.

(** ** Framing *)

Lemma unpack_assemble emsg header body :
  in_u32 emsg → Z.of_nat (length header) ≤ u32_max →
  unpack_raw (assemble_raw emsg header body) = Some (emsg, header, body).
Proof.
  intros He Hh. unfold unpack_raw, assemble_raw, MSG_HDR_SIZE.
  set (n := as_u32 (Z.of_nat (length header))).
  assert (Hn : n = Z.of_nat (length header))
    by (unfold n, as_u32, u32_max in *; apply Z.mod_small; lia).
  clearbody n. subst n. set (n := Z.of_nat (length header)) in *.
  pose proof (length_le_bytes 4 emsg) as L1. pose proof (length_le_bytes 4 n) as L2.
  assert (Hlen : length (le_bytes 4 emsg ++ le_bytes 4 n ++ header ++ body) =
    (8 + length header + length body)%nat) by (rewrite !length_app; lia).
  rewrite Hlen. rewrite (proj2 (Nat.ltb_ge _ _)) by lia.
  rewrite (take_app_length' (le_bytes 4 emsg)), (drop_app_length' (le_bytes 4 emsg)),
    (take_app_length' (le_bytes 4 n)) by (symmetry; done).
  rewrite !le_value_le_bytes. change (256 ^ Z.of_nat 4) with (2 ^ 32).
  rewrite !Z.mod_small by (unfold in_u32, u32_max in *; lia).
  replace (Z.to_nat n) with (length header) by lia.
  rewrite (proj2 (Nat.ltb_ge _ _)) by lia.
  rewrite app_assoc, (drop_app_length' (le_bytes 4 emsg ++ _) _ 8) by (rewrite length_app; lia).
  rewrite take_app_length. do 2 f_equal.
  rewrite (app_assoc _ header), (drop_app_length' _ body); [done|]. rewrite !length_app. lia.
Qed.

(** [framing_roundtrip]: unpacking an assembled packet returns its parts, as long as
    the header length fits its field; and a packet that unpacks is the assembly of
    its parts. *)
Theorem framing_roundtrip emsg header body data
    (He : in_u32 emsg) (Hh : Z.of_nat (length header) ≤ u32_max) (Hd : Forall in_u8 data) :
  unpack_raw (assemble_raw emsg header body) = Some (emsg, header, body) ∧
  (∀ e h b, unpack_raw data = Some (e, h, b) → assemble_raw e h b = data ∧ in_u32 e).
Proof.
  split; [by apply unpack_assemble|]. intros e h b. unfold unpack_raw, MSG_HDR_SIZE.
  destruct (Nat.ltb_spec (length data) 8) as [|Hlen]; [done|].
  destruct (Nat.ltb_spec (length data)
    (8 + Z.to_nat (le_value (take 4 (drop 4 data))))) as [|Hend]; [done|].
  intros [= <- <- <-]. set (n := le_value (take 4 (drop 4 data))) in *.
  assert (H4 : ∀ l, length l = 4%nat → Forall in_u8 l →
    0 ≤ le_value l < 2 ^ 32 ∧ le_bytes 4 (le_value l) = l).
  { intros l Hl Hb. split.
    - change (2 ^ 32) with (256 ^ Z.of_nat 4). rewrite <-Hl. by apply le_value_bound.
    - rewrite <-Hl. by apply le_bytes_le_value. }
  destruct (H4 (take 4 data)) as [Hb1 Hr1]; [rewrite length_take; lia|by apply Forall_take|].
  destruct (H4 (take 4 (drop 4 data))) as [Hb2 Hr2];
    [rewrite length_take, length_drop; lia|by apply Forall_take, Forall_drop|].
  fold n in Hb2, Hr2. split; [|unfold in_u32, u32_max; lia].
  unfold assemble_raw. rewrite length_take, length_drop, Nat.min_l by lia.
  rewrite Z2Nat.id by lia. unfold as_u32. rewrite Z.mod_small by lia. rewrite Hr1, Hr2.
  change (S (S (S (S (S (S (S (S (Z.to_nat n))))))))) with (8 + Z.to_nat n)%nat.
  rewrite <-drop_drop, take_drop. change 8%nat with (4 + 4)%nat.
  by rewrite <-drop_drop, !take_drop.
Qed.

(** [app_id_from_game_id_spec]: the app id is the game id modulo 2^24, absent when that
    is zero. *)
Theorem app_id_from_game_id_spec game_id :
  match app_id_from_game_id game_id with
  | Some app_id => app_id = game_id mod 2 ^ 24 ∧ 0 < app_id < 2 ^ 24
  | None => game_id mod 2 ^ 24 = 0
  end.
Proof.
  unfold app_id_from_game_id, as_u32. change 16777215 with (Z.ones 24).
  rewrite Z.land_ones by lia.
  assert (Hm : (game_id mod 2 ^ 32) mod 2 ^ 24 = game_id mod 2 ^ 24).
  { change (2 ^ 32) with (2 ^ 24 * 2 ^ 8). rewrite Z.rem_mul_r by lia.
    rewrite Z.mul_comm, Z_mod_plus_full. by apply Z.mod_mod. }
  rewrite Hm. pose proof (Z.mod_pos_bound game_id (2 ^ 24) ltac:(lia)).
  destruct (Z.eqb_spec (game_id mod 2 ^ 24) 0); lia.
Qed.

(** ** CRC-32C *)

Lemma land_one x : Z.land x 1 = if Z.testbit x 0 then 1 else 0.
Proof.
  replace (Z.land x 1) with (x mod 2) by (symmetry; apply (Z.land_ones x 1); lia).
  by rewrite Z.bit0_odd, (Zmod_odd x).
Qed.

Lemma crc_shift_eq crc :
  crc_shift crc = Z.lxor (Z.shiftr crc 1) (if Z.testbit crc 0 then 2197175160 else 0).
Proof. unfold crc_shift. rewrite land_one. by destruct (Z.testbit crc 0). Qed.

Lemma in_u32_bits x : in_u32 x ↔ 0 ≤ x ∧ ∀ n, 32 ≤ n → Z.testbit x n = false.
Proof.
  unfold in_u32, u32_max. split.
  - intros Hx. split; [lia|]. intros n Hn. destruct (decide (x = 0)) as [->|]; [apply Z.bits_0|].
    apply Z.bits_above_log2; [lia|]. apply Z.log2_lt_pow2; [lia|].
    apply Z.lt_le_trans with (2 ^ 32); [lia|]. apply Z.pow_le_mono_r; lia.
  - intros [H0 Hx]. split; [done|]. destruct (Z.lt_ge_cases x (2 ^ 32)) as [|Hge]; [lia|].
    exfalso. assert (Hl : 32 ≤ Z.log2 x) by (apply Z.log2_le_pow2; lia).
    pose proof (Hx (Z.log2 x) Hl) as Hb. rewrite Z.bit_log2 in Hb; [done|lia].
Qed.

Lemma lxor_u32 a b : in_u32 a → in_u32 b → in_u32 (Z.lxor a b).
Proof.
  rewrite !in_u32_bits. intros [Ha Hab] [Hb Hbb]. split.
  - by apply Z.lxor_nonneg.
  - intros n Hn. by rewrite Z.lxor_spec, Hab, Hbb.
Qed.

Lemma shiftr_u32 a : in_u32 a → in_u32 (Z.shiftr a 1) ∧ Z.testbit (Z.shiftr a 1) 31 = false.
Proof.
  rewrite !in_u32_bits. intros [Ha Hab]. split; [split|].
  - by apply Z.shiftr_nonneg.
  - intros n Hn. rewrite Z.shiftr_spec by lia. apply Hab. lia.
  - rewrite Z.shiftr_spec by lia. by apply Hab.
Qed.

Lemma crc_shift_u32 crc : in_u32 crc → in_u32 (crc_shift crc).
Proof.
  intros Hc. rewrite crc_shift_eq. apply lxor_u32; [by apply shiftr_u32|].
  case_match; int_lia.
Qed.

(** The polynomial has bit 31 set, so the bit shifted out can be read back. *)
Lemma crc_shift_inj a b : in_u32 a → in_u32 b → crc_shift a = crc_shift b → a = b.
Proof.
  intros Ha Hb. rewrite !crc_shift_eq. intros Heq.
  assert (H0 : Z.testbit a 0 = Z.testbit b 0).
  { apply (f_equal (λ z, Z.testbit z 31)) in Heq. rewrite !Z.lxor_spec in Heq.
    rewrite (proj2 (shiftr_u32 a Ha)), (proj2 (shiftr_u32 b Hb)) in Heq.
    by destruct (Z.testbit a 0), (Z.testbit b 0). }
  rewrite H0 in Heq.
  assert (Hs : Z.shiftr a 1 = Z.shiftr b 1).
  { apply (f_equal (λ z, Z.lxor z (if Z.testbit b 0 then 2197175160 else 0))) in Heq.
    by rewrite !Z.lxor_assoc, !Z.lxor_nilpotent, !Z.lxor_0_r in Heq. }
  apply Z.bits_inj'. intros n Hn. destruct (decide (n = 0)) as [->|Hne]; [done|].
  replace n with (n - 1 + 1) by lia. rewrite <-!Z.shiftr_spec by lia. by rewrite Hs.
Qed.

Lemma crc_iter_u32 n crc : in_u32 crc → in_u32 (Nat.iter n crc_shift crc).
Proof. intros Hc. induction n as [|n IH]; simpl; [done|]. by apply crc_shift_u32. Qed.

Lemma crc_iter_inj n a b :
  in_u32 a → in_u32 b → Nat.iter n crc_shift a = Nat.iter n crc_shift b → a = b.
Proof.
  intros Ha Hb. induction n as [|n IH]; simpl; [done|].
  intros Heq%crc_shift_inj; auto using crc_iter_u32.
Qed.

Lemma lxor_inj_l x y z : Z.lxor x z = Z.lxor y z → x = y.
Proof.
  intros Heq%(f_equal (λ w, Z.lxor w z)).
  by rewrite !Z.lxor_assoc, !Z.lxor_nilpotent, !Z.lxor_0_r in Heq.
Qed.

Lemma crc_byte_u32 crc b : in_u32 crc → in_u8 b → in_u32 (crc_byte crc b).
Proof. intros Hc Hb. apply crc_iter_u32, lxor_u32; [done|int_lia]. Qed.

Lemma crc_byte_lxor c d a b :
  in_u32 c → in_u32 d → in_u8 a → in_u8 b → crc_byte c a = crc_byte d b →
  Z.lxor c a = Z.lxor d b.
Proof.
  intros Hc Hd Ha Hb. apply (crc_iter_inj 8); apply lxor_u32; try done; int_lia.
Qed.

Lemma crc_byte_inj c d a b :
  in_u32 c → in_u32 d → in_u8 a → in_u8 b → crc_byte c a = crc_byte d b →
  (a = b → c = d) ∧ (c = d → a = b).
Proof.
  intros Hc Hd Ha Hb Heq%crc_byte_lxor; [|done..].
  split; intros ->; [by eapply lxor_inj_l|].
  rewrite !(Z.lxor_comm d) in Heq. by eapply lxor_inj_l.
Qed.

Lemma crc_fold_u32 bytes crc :
  in_u32 crc → Forall in_u8 bytes → in_u32 (foldl crc_byte crc bytes).
Proof.
  intros Hc Hb. revert crc Hc; induction Hb as [|b l Hb _ IH]; intros crc Hc; simpl; [done|].
  by apply IH, crc_byte_u32.
Qed.

Lemma crc_fold_inj bytes c d :
  in_u32 c → in_u32 d → Forall in_u8 bytes →
  foldl crc_byte c bytes = foldl crc_byte d bytes → c = d.
Proof.
  intros Hc Hd Hb. revert c d Hc Hd; induction Hb as [|b l Hb _ IH]; intros c d Hc Hd; simpl; [done|].
  intros Heq%IH; [|by apply crc_byte_u32..]. by apply crc_byte_inj in Heq as [H _]; [apply H|..].
Qed.

(** [crc32c_detects_byte_change]: the checksum is a [u32], and two messages that differ
    in exactly one byte never share it. *)
Theorem crc32c_detects_byte_change pre post a b
    (Hpre : Forall in_u8 pre) (Hpost : Forall in_u8 post) (Ha : in_u8 a) (Hb : in_u8 b)
    (Hne : a ≠ b) :
  in_u32 (stats_crc32c (pre ++ a :: post)) ∧
  stats_crc32c (pre ++ a :: post) ≠ stats_crc32c (pre ++ b :: post).
Proof.
  unfold stats_crc32c, u32_not. rewrite !foldl_app. simpl.
  assert (H0 : in_u32 (foldl crc_byte u32_max pre)) by (apply crc_fold_u32; [int_lia|done]).
  split.
  - assert (in_u32 (foldl crc_byte (crc_byte (foldl crc_byte u32_max pre) a) post))
      by (apply crc_fold_u32; [by apply crc_byte_u32|done]). int_lia.
  - intros Heq. apply Hne.
    assert (crc_byte (foldl crc_byte u32_max pre) a = crc_byte (foldl crc_byte u32_max pre) b) as E.
    { apply (crc_fold_inj post); [by apply crc_byte_u32..|done|lia]. }
    by apply crc_byte_inj in E as [_ H]; [apply H|..].
Qed.

(** The check value of the Castagnoli polynomial. *)
Example crc32c_check : stats_crc32c (str_bytes "123456789") = 3808858755.
Proof. vm_compute. reflexivity. Qed.

(** ** Varints *)

(** The reader protobuf prescribes: seven bits per byte, least significant first,
    the top bit set on all but the last. *)
Fixpoint decode_varint (l : list Z) : option (Z * list Z) :=
  match l with
  | [] => None
  | b :: rest =>
      if b <? 128 then Some (b, rest)
      else '(v, r) ← decode_varint rest; Some (Z.land b 127 + 128 * v, r)
  end.

Lemma lor_top_bit w : 0 ≤ w < 256 → Z.lor w 128 = 128 + w mod 128.
Proof.
  assert (Hall : Forall (λ w, Z.lor w 128 = 128 + w mod 128) (seqZ 0 256))
    by (apply (bool_decide_unpack _); by vm_compute).
  intros Hw. eapply Forall_forall in Hall; [exact Hall|]. by apply elem_of_seqZ.
Qed.

Lemma varint_loop_decodes fuel v rest :
  0 ≤ v < 128 ^ Z.of_nat (S fuel) →
  decode_varint (encode_stats_varint_loop fuel v ++ rest) = Some (v, rest).
Proof.
  revert v; induction fuel as [|fuel IH]; intros v Hv.
  { change (128 ^ Z.of_nat 1) with 128 in Hv. simpl. by rewrite (proj2 (Z.ltb_lt _ _)) by lia. }
  rewrite Nat2Z.inj_succ, Z.pow_succ_r in Hv by lia. cbn [encode_stats_varint_loop].
  destruct (Z.leb_spec 128 v) as [Hge|Hlt].
  - assert (Hb : Z.lor (v mod 256) 128 = 128 + v mod 128).
    { rewrite lor_top_bit by (apply Z.mod_pos_bound; lia). f_equal.
      change 256 with (128 * 2). rewrite Z.rem_mul_r by lia.
      by rewrite Z.mul_comm, Z_mod_plus_full, Z.mod_mod by lia. }
    rewrite Hb. simpl. pose proof (Z.mod_pos_bound v 128 ltac:(lia)).
    rewrite (proj2 (Z.ltb_ge _ _)) by lia.
    rewrite Z.shiftr_div_pow2 by lia. change (2 ^ 7) with 128.
    rewrite IH by (split; [apply Z.div_pos; lia|apply Z.div_lt_upper_bound; lia]). simpl.
    do 2 f_equal. change 127 with (Z.ones 7). rewrite Z.land_ones by lia. change (2 ^ 7) with 128.
    assert ((128 + v mod 128) mod 128 = v mod 128) as ->
      by (symmetry; apply (Z.mod_unique_pos _ _ 1); lia).
    pose proof (Z.div_mod v 128). lia.
  - simpl. by rewrite (proj2 (Z.ltb_lt _ _)) by lia.
Qed.

(** [varint_roundtrip]: every [u64] is read back from its varint, whatever follows. *)
Theorem varint_roundtrip v rest (Hv : in_u64 v) :
  decode_varint (encode_stats_varint v ++ rest) = Some (v, rest).
Proof.
  apply varint_loop_decodes. unfold in_u64, u64_max in Hv.
  change (128 ^ Z.of_nat 11) with (2 ^ 77). lia.
Qed.

(** ** Canonical wire bytes *)

(** The framing of the entries: a tag, a length, the bytes. *)
Definition framed (entry : list Z) : list Z :=
  34 :: encode_stats_varint (Z.of_nat (length entry)) ++ entry.

Lemma framed_inj a b r s :
  Z.of_nat (length a) ≤ u64_max → Z.of_nat (length b) ≤ u64_max →
  framed a ++ r = framed b ++ s → a = b ∧ r = s.
Proof.
  intros Ha Hb [= Heq]. rewrite <-!app_assoc in Heq.
  apply (f_equal decode_varint) in Heq.
  unfold encode_stats_varint in Heq. rewrite !varint_loop_decodes in Heq;
    [|unfold u64_max in *; change (128 ^ Z.of_nat 11) with (2 ^ 77); lia..].
  injection Heq as Hlen Heq. apply app_inj_length in Heq; [done|lia].
Qed.

Lemma framed_concat_inj l k :
  Forall (λ e, Z.of_nat (length e) ≤ u64_max) l → Forall (λ e, Z.of_nat (length e) ≤ u64_max) k →
  (l ≫= framed) = (k ≫= framed) → l = k.
Proof.
  intros Hl. revert k; induction Hl as [|a l Ha _ IH]; intros k Hk; destruct Hk as [|b k Hb Hk];
    csimpl; try done.
  intros Heq. apply framed_inj in Heq as [-> Heq]; [|done..]. f_equal. by apply IH.
Qed.

(** [canonical_bytes_name_state]: two states have the same canonical bytes exactly when
    their sorted entries encode alike; with an injective encoding, when they are the
    same up to order. *)
Theorem canonical_bytes_name_state encode stats stats'
    (Hinj : ∀ e f, encode e = encode f → e = f)
    (Hlen : ∀ e, e ∈ sorted_player_stats stats ++ sorted_player_stats stats' →
       Z.of_nat (length (encode e)) ≤ u64_max) :
  canonical_stats_wire_bytes encode stats = canonical_stats_wire_bytes encode stats' ↔
  sorted_player_stats stats = sorted_player_stats stats'.
Proof.
  unfold canonical_stats_wire_bytes. split; [|by intros ->].
  assert (Hb : ∀ l, (l ≫= λ e, 34 :: encode_stats_varint (Z.of_nat (length (encode e))) ++ encode e)
    = ((encode <$> l) ≫= framed)).
  { intros l. induction l as [|e l IH]; [done|]. csimpl. by rewrite IH. }
  rewrite !Hb. intros Heq%framed_concat_inj.
  - revert Heq. generalize (sorted_player_stats stats), (sorted_player_stats stats').
    induction l as [|e l IH]; intros [|f k]; csimpl; try done.
    intros [= He Hk]. f_equal; [by apply Hinj|by apply IH].
  - apply Forall_fmap, Forall_forall. intros e He. apply Hlen, elem_of_app. by left.
  - apply Forall_fmap, Forall_forall. intros e He. apply Hlen, elem_of_app. by right.
Qed.

(** Entries that differ only in the order of their unlock times. *)
Definition same_entry (e f : PlayerStatsEntry) : Prop :=
  se_stat_id e = se_stat_id f ∧ se_stat_value e = se_stat_value f ∧
  se_unlock_times e ≡ₚ se_unlock_times f ∧
  ∀ s t, s ∈ se_unlock_times e → t ∈ se_unlock_times e →
    default u32_max (ut_achievement_bit s) = default u32_max (ut_achievement_bit t) → s = t.

Lemma sorted_same_entries l k :
  Forall2 same_entry l k → sorted_player_stats l = sorted_player_stats k.
Proof.
  intros Hlk.
  assert (Hs : Forall2 same_entry (sort_by_key (λ e, default u32_max (se_stat_id e)) l)
                 (sort_by_key (λ e, default u32_max (se_stat_id e)) k)).
  { induction Hlk as [|e f l k Hef _ IH]; [constructor|].
    simpl. revert IH. generalize (sort_by_key (λ e, default u32_max (se_stat_id e)) l),
      (sort_by_key (λ e, default u32_max (se_stat_id e)) k). clear l k.
    intros l k Hlk. induction Hlk as [|x y l k Hxy Hlk IH]; [by apply Forall2_cons|].
    simpl. pose proof (proj1 Hef) as Hid. pose proof (proj1 Hxy) as Hid'. rewrite <-Hid, <-Hid'.
    case_decide; rewrite !Forall2_cons; done. }
  unfold sorted_player_stats. induction Hs as [|e f l' k' (Hid & Hv & Hp & Hd) _ IH]; [done|].
  csimpl. rewrite IH. f_equal. f_equal; [done|done|]. by apply sort_by_key_unique.
Qed.

(** [stats_token_order_independent]: neither the order of the entries nor that of their
    unlock times changes the token. *)
Theorem stats_token_order_independent encode stats entries stats'
    (Hp : stats ≡ₚ entries) (Hsame : Forall2 same_entry entries stats')
    (Hdistinct : ∀ e f, e ∈ stats → f ∈ stats →
       default u32_max (se_stat_id e) = default u32_max (se_stat_id f) → e = f) :
  stats_crc encode stats = stats_crc encode stats'.
Proof.
  unfold stats_crc, canonical_stats_wire_bytes. do 2 f_equal.
  rewrite <-(sorted_same_entries entries stats' Hsame). unfold sorted_player_stats. f_equal.
  by apply sort_by_key_unique.
Qed.
