(* ===== verification/SchemaProofs.v ===== *)
(** * SchemaProofs: the binary KeyValues parser

    [parser_object] is given more fuel than bytes: the first section shows that this
    is enough (any larger fuel gives the same answer), so the parser is total. The
    second section defines the format the parser reads, and shows that it reads
    every well-formed tree within the limits back. The third shows that the mappings
    do not depend on the order in which a [HashMap] is iterated. *)

From Stdlib Require Import ZArith Lia.
From S2P Require Import Prelude RustStd SteamProtocol.

Local Open Scope Z_scope.

(** ** Termination *)

Abbreviation plen p := (length (ps_rest p)).

(** Split a successful parser step into the calls it made. *)
Ltac parse_inv :=
  repeat (res_inv; match goal with x : _ * _ |- _ => destruct x end);
  res_inv; simplify_eq.

Lemma parser_byte_len p b p' : parser_byte p = Ok (b, p') → (plen p' < plen p)%nat.
Proof. unfold parser_byte. destruct (ps_rest p); [done|]. intros [= _ <-]. simpl. lia. Qed.

Lemma parser_take_len n p l p' : parser_take n p = Ok (l, p') → (plen p' ≤ plen p)%nat.
Proof.
  unfold parser_take. destruct (_ <? _)%nat; [done|]. intros [= _ <-]. simpl.
  rewrite length_drop. lia.
Qed.

Lemma split_nul_Some l s r : split_nul l = Some (s, r) ↔ l = s ++ 0 :: r ∧ 0 ∉ s.
Proof.
  revert s r; induction l as [|b l IH]; intros s r; simpl.
  { split; [done|]. by intros [?%app_cons_not_nil _]. }
  destruct (Z.eqb_spec b 0) as [->|Hb].
  - split; [intros [= <- <-]; split; [done|set_solver]|].
    intros [Heq Hs]. destruct s as [|c s]; simplify_eq/=; [done|]. set_solver.
  - destruct (split_nul l) as [[s' r']|] eqn:E; simpl.
    + split.
      * intros [= <- <-]. destruct (proj1 (IH s' r') eq_refl) as [-> Hs]. split; [done|set_solver].
      * intros [Heq Hs]. destruct s as [|c s]; simplify_eq/=.
        assert (Hsr : Some (s', r') = Some (s, r)) by (apply IH; split; [done|set_solver]).
        by injection Hsr as -> ->.
    + split; [done|]. intros [Heq Hs]. destruct s as [|c s]; simplify_eq/=.
      assert (None = Some (s, r)) by (apply IH; split; [done|set_solver]). done.
Qed.

Lemma parser_cstring_len p s p' : parser_cstring p = Ok (s, p') → (plen p' < plen p)%nat.
Proof.
  unfold parser_cstring. destruct (split_nul (ps_rest p)) as [[b r]|] eqn:E; [|done].
  apply split_nul_Some in E as [E _]. rewrite E. case_match; [|done].
  intros [= _ <-]. simpl. rewrite length_app. simpl. lia.
Qed.

Lemma count_entry_len p p' : count_entry p = Ok p' → plen p' = plen p.
Proof. unfold count_entry. case_match; [done|]. by intros [= <-]. Qed.

Lemma parser_leaf_len kind p v p' : parser_leaf kind p = Ok (v, p') → (plen p' ≤ plen p)%nat.
Proof.
  unfold parser_leaf. intros H.
  repeat match type of H with (if ?b then _ else _) = _ => destruct b end; parse_inv;
    repeat match goal with
    | H : parser_take _ _ = Ok _ |- _ => apply parser_take_len in H
    | H : parser_cstring _ = Ok _ |- _ => apply parser_cstring_len in H
    end; lia.
Qed.

Lemma parser_object_len fuel depth m p m' p' :
  parser_object fuel depth m p = Ok (m', p') → (plen p' < plen p)%nat.
Proof.
  revert depth m p m' p'; induction fuel as [|fuel IH]; intros depth m p m' p' H; [done|].
  cbn [parser_object] in H. res_inv. destruct x as [kind p1]. apply parser_byte_len in Hx.
  destruct (kind =? 8); [by simplify_eq|]. res_inv. rename x into p2. apply count_entry_len in Hx0.
  destruct x0 as [key p3]. apply parser_cstring_len in Hx1. destruct (kind =? 0).
  - destruct (_ <? _)%nat; [done|]. res_inv. destruct x as [o p4]. apply IH in Hx2, H. lia.
  - res_inv. destruct x as [v p4]. apply parser_leaf_len in Hx2. apply IH in H. lia.
Qed.

(** More fuel than bytes is enough. *)
Lemma parser_object_fuel f1 f2 depth m p :
  (plen p < f1)%nat → (plen p < f2)%nat → parser_object f1 depth m p = parser_object f2 depth m p.
Proof.
  revert f2 depth m p; induction f1 as [|f1 IH]; intros [|f2] depth m p H1 H2; try lia.
  cbn [parser_object]. destruct (parser_byte p) as [[kind p1]|] eqn:E1; [|done]. simpl.
  apply parser_byte_len in E1. destruct (kind =? 8); [done|].
  destruct (count_entry p1) as [p2|] eqn:E2; [|done]. simpl. apply count_entry_len in E2.
  destruct (parser_cstring p2) as [[key p3]|] eqn:E3; [|done]. simpl.
  apply parser_cstring_len in E3. destruct (kind =? 0).
  - destruct (_ <? _)%nat; [done|]. rewrite (IH f2) by lia.
    destruct (parser_object f2 (S depth) ∅ p3) as [[o p4]|] eqn:E4; [|done]. simpl.
    apply parser_object_len in E4. apply IH; lia.
  - destruct (parser_leaf kind p3) as [[v p4]|] eqn:E4; [|done]. simpl.
    apply parser_leaf_len in E4. apply IH; lia.
Qed.

(** ** The format *)

(** A KeyValues tree as it is written: pairs in order, an end marker. *)
Inductive KVs :=
| KNil
| KCons (key : string) (v : KV) (rest : KVs)
with KV :=
| KObject (pairs : KVs)
| KString (s : string)
| KInt (z : Z)
| KFourBytes (kind : Z) (bytes : list Z)
| KWide (bytes : list Z)
| KLong (z : Z).

Scheme KVs_mut := Induction for KVs Sort Prop
with KV_mut := Induction for KV Sort Prop.

Definition cstring_bytes (s : string) : list Z := str_bytes s ++ [0].

Definition kv_kind (v : KV) : Z :=
  match v with
  | KObject _ => 0 | KString _ => 1 | KInt _ => 2
  | KFourBytes kind _ => kind | KWide _ => 5 | KLong _ => 7
  end.

Fixpoint kvs_bytes (l : KVs) : list Z :=
  match l with
  | KNil => [8]
  | KCons key v rest => kv_kind v :: cstring_bytes key ++ kv_bytes v ++ kvs_bytes rest
  end
with kv_bytes (v : KV) : list Z :=
  match v with
  | KObject l => kvs_bytes l
  | KString s => cstring_bytes s
  | KInt z => le_bytes 4 (as_u32 z)
  | KFourBytes _ bytes => bytes
  | KWide bytes => le_bytes 2 (Z.of_nat (length bytes) / 2) ++ bytes
  | KLong z => le_bytes 8 z
  end.

(** What the tree means: a later pair replaces an earlier one of the same key. *)
Fixpoint kvs_value (m : gmap string AchievementSchemaValue) (l : KVs)
    : gmap string AchievementSchemaValue :=
  match l with
  | KNil => m
  | KCons key v rest => kvs_value (<[key := kv_value v]> m) rest
  end
with kv_value (v : KV) : AchievementSchemaValue :=
  match v with
  | KObject l => Object (kvs_value ∅ l)
  | KString s => StringValue s
  | KInt z => Int z
  | KLong z => Int (as_i64 z)
  | KFourBytes _ _ | KWide _ => Other
  end.

Fixpoint kvs_count (l : KVs) : Z :=
  match l with KNil => 0 | KCons _ v rest => 1 + kv_count v + kvs_count rest end
with kv_count (v : KV) : Z :=
  match v with KObject l => kvs_count l | _ => 0 end.

Definition text_ok (s : string) : Prop := 0 ∉ str_bytes s ∧ utf8_valid (str_bytes s) = true.

(** Well formed, with objects nested at most [depth] deep below this level. *)
Fixpoint kvs_ok (depth : nat) (l : KVs) : Prop :=
  match l with
  | KNil => True
  | KCons key v rest => text_ok key ∧ kv_ok depth v ∧ kvs_ok depth rest
  end
with kv_ok (depth : nat) (v : KV) : Prop :=
  match v with
  | KObject l => match depth with O => False | S depth => kvs_ok depth l end
  | KString s => text_ok s
  | KInt z => in_i32 z
  | KLong z => in_u64 z
  | KFourBytes kind bytes => (kind = 3 ∨ kind = 4 ∨ kind = 6) ∧ length bytes = 4%nat
  | KWide bytes => ∃ units, length bytes = (2 * units)%nat ∧ Z.of_nat units < 65536
  end.

Lemma cstring_reads s tail n :
  text_ok s →
  parser_cstring {| ps_rest := cstring_bytes s ++ tail; ps_entries := n |} =
  Ok (s, {| ps_rest := tail; ps_entries := n |}).
Proof.
  intros [H0 Hu]. unfold parser_cstring, cstring_bytes. simpl. rewrite <-app_assoc. simpl.
  rewrite (proj2 (split_nul_Some _ (str_bytes s) tail)) by done.
  by rewrite Hu, bytes_str_str_bytes.
Qed.

Lemma take_reads bytes k tail n :
  length bytes = k →
  parser_take k {| ps_rest := bytes ++ tail; ps_entries := n |} =
  Ok (bytes, {| ps_rest := tail; ps_entries := n |}).
Proof.
  intros <-. unfold parser_take. simpl. rewrite length_app.
  rewrite (proj2 (Nat.ltb_ge _ _)) by lia. by rewrite take_app_length, drop_app_length.
Qed.

Lemma as_i32_u32 z : in_i32 z → as_i32 (as_u32 z) = z.
Proof.
  unfold in_i32, i32_min, i32_max, as_i32, as_u32. intros Hz.
  rewrite Z.mod_mod by lia.
  destruct (Z.lt_ge_cases z 0).
  - rewrite <-(Z.mod_unique z (2 ^ 32) (-1) (z + 2 ^ 32)) by lia. case_match; lia.
  - rewrite Z.mod_small by lia. case_match; lia.
Qed.

(** The kinds of leaf, one at a time. *)
Lemma parser_leaf_kinds p :
  parser_leaf 1 p = ('(s, p) ← parser_cstring p; Ok (StringValue s, p)) ∧
  parser_leaf 2 p = ('(b, p) ← parser_take 4 p; Ok (Int (as_i32 (le_value b)), p)) ∧
  (∀ kind, kind = 3 ∨ kind = 4 ∨ kind = 6 →
     parser_leaf kind p = ('(_, p) ← parser_take 4 p; Ok (Other, p))) ∧
  parser_leaf 5 p = ('(b, p) ← parser_take 2 p;
                     '(_, p) ← parser_take (Z.to_nat (2 * le_value b)) p; Ok (Other, p)) ∧
  parser_leaf 7 p = ('(b, p) ← parser_take 8 p; Ok (Int (as_i64 (le_value b)), p)).
Proof. repeat split. by intros kind [->|[->| ->]]. Qed.

Lemma leaf_reads v tail n :
  kv_ok 0 v → kv_kind v ≠ 0 →
  parser_leaf (kv_kind v) {| ps_rest := kv_bytes v ++ tail; ps_entries := n |} =
  Ok (kv_value v, {| ps_rest := tail; ps_entries := n |}).
Proof.
  intros Hok Hk.
  destruct (parser_leaf_kinds {| ps_rest := kv_bytes v ++ tail; ps_entries := n |})
    as (H1 & H2 & H3 & H5 & H7).
  destruct v as [l|s|z|kind bytes|bytes|z]; cbn [kv_kind kv_bytes kv_value kv_ok] in *; [done|..].
  - by rewrite H1, cstring_reads.
  - rewrite H2, take_reads by apply length_le_bytes. cbn [mbind result_bind].
    rewrite le_value_le_bytes. change (256 ^ Z.of_nat 4) with (2 ^ 32).
    change (as_u32 z mod 2 ^ 32) with (as_u32 (as_u32 z)).
    replace (as_u32 (as_u32 z)) with (as_u32 z) by (unfold as_u32; by rewrite Z.mod_mod by lia).
    by rewrite as_i32_u32.
  - destruct Hok as [Hkind Hl]. by rewrite H3, take_reads.
  - destruct Hok as (units & Hl & Hu). rewrite H5, <-app_assoc, take_reads by apply length_le_bytes.
    cbn [mbind result_bind]. rewrite le_value_le_bytes, Hl. change (256 ^ Z.of_nat 2) with 65536.
    assert (Hd : Z.of_nat (2 * units) / 2 = Z.of_nat units).
    { rewrite Nat2Z.inj_mul, Z.mul_comm. by apply Z.div_mul. }
    rewrite Hd, Z.mod_small by lia. by rewrite take_reads by lia.
  - rewrite H7, take_reads by apply length_le_bytes. cbn [mbind result_bind].
    rewrite le_value_le_bytes. change (256 ^ Z.of_nat 8) with (2 ^ 64).
    by rewrite Z.mod_small by int_lia.
Qed.

Lemma kv_ok_leaf depth v : kv_ok depth v → kv_kind v ≠ 0 → kv_ok 0 v.
Proof. by destruct v. Qed.

Lemma kv_kind_not_end depth v : kv_ok depth v → kv_kind v ≠ 8.
Proof. destruct v; simpl; try done. by intros [[->|[->| ->]] _]. Qed.

Lemma kv_kind_object depth v : kv_ok depth v → kv_kind v = 0 → ∃ l, v = KObject l.
Proof. destruct v; simpl; try done; [by eauto|]. by intros [[->|[->| ->]] _]. Qed.

Lemma kvs_count_nonneg l : 0 ≤ kvs_count l.
Proof.
  induction l using KVs_mut with (P0 := λ v, 0 ≤ kv_count v); simpl; lia.
Qed.
Lemma kv_count_nonneg v : 0 ≤ kv_count v.
Proof. destruct v; simpl; try lia. apply kvs_count_nonneg. Qed.

(** Reading a tree back, in any context. *)
Lemma object_reads fuel l depth room m tail n :
  (length (kvs_bytes l ++ tail) < fuel)%nat →
  (depth + room ≤ ACHIEVEMENT_SCHEMA_MAX_DEPTH)%nat → kvs_ok room l →
  0 ≤ n → n + kvs_count l ≤ ACHIEVEMENT_SCHEMA_MAX_ENTRIES →
  parser_object fuel depth m {| ps_rest := kvs_bytes l ++ tail; ps_entries := n |} =
  Ok (kvs_value m l, {| ps_rest := tail; ps_entries := n + kvs_count l |}).
Proof.
  revert l depth room m tail n. induction fuel as [|fuel IH]; intros l depth room m tail n Hf Hd Hok Hn Hc; [lia|].
  destruct l as [|key v rest]; cbn [kvs_bytes kvs_value kvs_count kvs_ok] in *.
  { simpl. by rewrite Z.add_0_r. }
  destruct Hok as (Hkey & Hv & Hrest).
  pose proof (kv_count_nonneg v). pose proof (kvs_count_nonneg rest).
  rewrite <-app_comm_cons, <-!app_assoc in *. cbn [length] in Hf.
  cbn [parser_object parser_byte ps_rest ps_entries mbind result_bind].
  rewrite (proj2 (Z.eqb_neq _ 8)) by by eapply kv_kind_not_end.
  unfold count_entry. cbn [ps_rest ps_entries].
  rewrite (proj2 (Z.ltb_ge _ _)) by lia. cbn [mbind result_bind].
  rewrite cstring_reads by done. cbn [mbind result_bind].
  assert (Hlen : (length (kv_bytes v ++ kvs_bytes rest ++ tail) < fuel)%nat).
  { rewrite !length_app in *. unfold cstring_bytes in Hf. rewrite length_app in Hf. simpl in Hf. lia. }
  destruct (Z.eqb_spec (kv_kind v) 0) as [Hz|Hz].
  - destruct (kv_kind_object room v Hv Hz) as [l ->]. destruct room as [|room]; [done|].
    cbn [kv_bytes kv_count kv_ok kv_value] in *.
    rewrite (proj2 (Nat.ltb_ge _ _)) by lia.
    rewrite (IH l (S depth) room) by (try done; lia). cbn [mbind result_bind].
    rewrite (IH rest depth (S room)); [|rewrite !length_app in *; lia|lia|done|lia|lia].
    do 3 f_equal. lia.
  - rewrite leaf_reads; [|by eapply kv_ok_leaf|done]. cbn [mbind result_bind].
    assert (kv_count v = 0) as Hc0 by (by destruct v).
    rewrite (IH rest depth room); [|rewrite !length_app in *; lia|lia|done|lia|lia].
    do 3 f_equal. lia.
Qed.

Lemma schema_root_reads name l tail :
  text_ok name → kvs_ok ACHIEVEMENT_SCHEMA_MAX_DEPTH l →
  kvs_count l ≤ ACHIEVEMENT_SCHEMA_MAX_ENTRIES →
  parse_achievement_schema_root (0 :: cstring_bytes name ++ kvs_bytes l ++ tail) =
  Ok (kvs_value ∅ l).
Proof.
  intros Hname Hok Hcount. unfold parse_achievement_schema_root, parser_new.
  cbn [parser_byte ps_rest ps_entries mbind result_bind Z.eqb].
  rewrite cstring_reads by done. cbn [mbind result_bind ps_rest].
  by rewrite (object_reads _ l 0 ACHIEVEMENT_SCHEMA_MAX_DEPTH) by (try done; lia).
Qed.

(** C29 [schema_parse_roundtrip]: the parser reads every well-formed schema whose objects
    nest at most 32 deep and whose pairs number at most 100,000, and finds the tree
    that was written, whatever bytes follow. *)
Theorem schema_parse_roundtrip name l tail
    (Hname : text_ok name) (Hok : kvs_ok ACHIEVEMENT_SCHEMA_MAX_DEPTH l)
    (Hcount : kvs_count l ≤ ACHIEVEMENT_SCHEMA_MAX_ENTRIES) :
  parse_achievement_schema_root (0 :: cstring_bytes name ++ kvs_bytes l ++ tail) =
  Ok (kvs_value ∅ l).
Proof. by apply schema_root_reads. Qed.


(** ** Mappings *)

(** An iteration order of a [HashMap]. *)
Definition iterates (iter : gmap string AchievementSchemaValue → list (string * AchievementSchemaValue))
    : Prop := ∀ m, iter m ≡ₚ map_to_list m.

(** No two keys of an object are the same number. *)
Definition distinct_numbers (m : gmap string AchievementSchemaValue) : Prop :=
  ∀ k1 k2 n, is_Some (m !! k1) → is_Some (m !! k2) →
    parse_unsigned u32_max (str_bytes k1) = Some n →
    parse_unsigned u32_max (str_bytes k2) = Some n → k1 = k2.

Definition schema_distinct (bytes : list Z) : Prop :=
  ∀ root stats, parse_achievement_schema_root bytes = Ok root → schema_stats root = Ok stats →
    distinct_numbers stats ∧
    ∀ k stat bits, stats !! k = Some (Object stat) → stat !! "bits" = Some (Object bits) →
      distinct_numbers bits.

Section mappings.
Context (iter iter' : gmap string AchievementSchemaValue → list (string * AchievementSchemaValue))
  (Hi : iterates iter) (Hi' : iterates iter').

Lemma elem_of_iter m k v : (k, v) ∈ iter m ↔ m !! k = Some v.
Proof. by rewrite (Hi m), elem_of_map_to_list. Qed.

Lemma iter_number_inj m p q n :
  distinct_numbers m → p ∈ iter m → q ∈ iter m →
  parse_unsigned u32_max (str_bytes p.1) = Some n →
  parse_unsigned u32_max (str_bytes q.1) = Some n → p = q.
Proof.
  destruct p as [k v], q as [k' v']. rewrite !elem_of_iter. simpl. intros Hd Hp Hq H1 H2.
  assert (k = k') as <- by (eapply Hd; eauto). congruence.
Qed.

Lemma stat_mapping_id p x :
  stat_mapping p = Some x → parse_unsigned u32_max (str_bytes p.1) = Some (sm_stat_id x).
Proof.
  unfold stat_mapping. destruct (parse_unsigned _ _) as [id|]; [|done]. simpl.
  destruct (value_object p.2) as [stat|]; [|done]. simpl.
  destruct (stat !! "bits"); [done|]. destruct (stat !! "name") as [name|]; [|done]. simpl.
  destruct (value_string name) as [s|]; [|done]. simpl.
  destruct (nonblank s); [|done]. simpl. by intros [= <-].
Qed.

Lemma bit_mapping_ids id p x :
  bit_mapping id p = Some x →
  bm_stat_id x = id ∧ parse_unsigned u32_max (str_bytes p.1) = Some (bm_achievement_bit x).
Proof.
  unfold bit_mapping. destruct (parse_unsigned _ _) as [bit|]; [|done]. simpl.
  destruct (value_object p.2) as [a|]; [|done]. simpl.
  destruct (a !! "name") as [name|]; [|done]. simpl.
  destruct (value_string name) as [s|]; [|done]. simpl.
  destruct (nonblank s); [|done]. simpl. by intros [= <-].
Qed.

Lemma elem_of_stat_bits p x :
  x ∈ stat_bit_mappings iter p ↔
  ∃ id stat bits q, parse_unsigned u32_max (str_bytes p.1) = Some id ∧ p.2 = Object stat ∧
    stat !! "bits" = Some (Object bits) ∧ q ∈ iter bits ∧ bit_mapping id q = Some x.
Proof.
  clear Hi Hi' iter'. unfold stat_bit_mappings. split.
  - destruct (parse_unsigned _ _) as [id|]; [|set_solver]. simpl.
    destruct p.2 as [stat|?|?|]; simpl; try set_solver.
    destruct (stat !! "bits") as [[bits|?|?|]|] eqn:E; simpl; try set_solver.
    intros (q & Hq & Hx)%list_elem_of_omap. by exists id, stat, bits, q.
  - intros (id & stat & bits & q & -> & -> & Hb & Hq & Hx). simpl. rewrite Hb. simpl.
    apply list_elem_of_omap. eauto.
Qed.

Lemma stat_bits_perm p : stat_bit_mappings iter p ≡ₚ stat_bit_mappings iter' p.
Proof.
  unfold stat_bit_mappings. destruct (parse_unsigned _ _); [|done]. simpl.
  destruct (value_object p.2) as [stat|]; [|done]. simpl.
  destruct (stat !! "bits") as [b|]; [|done]. simpl.
  destruct (value_object b) as [bits|]; [|done]. simpl. by rewrite (Hi bits), (Hi' bits).
Qed.
End mappings.

(** [schema_mappings_deterministic]: the identifiers read from a schema do not depend on
    the order in which its maps are iterated, as long as no two keys name the same
    number. *)
Theorem schema_mappings_deterministic iter iter' bytes
    (Hi : iterates iter) (Hi' : iterates iter') (Hd : schema_distinct bytes) :
  parse_stat_mappings iter bytes = parse_stat_mappings iter' bytes ∧
  parse_achievement_bit_mappings iter bytes = parse_achievement_bit_mappings iter' bytes.
Proof.
  unfold parse_stat_mappings, parse_achievement_bit_mappings.
  destruct (parse_achievement_schema_root bytes) as [root|] eqn:Er; [|done]. simpl.
  destruct (schema_stats root) as [stats|] eqn:Es; [|done]. simpl.
  destruct (Hd root stats Er Es) as [Hnum Hbits].
  assert (Hkey : ∀ p q n, p ∈ iter stats → q ∈ iter stats →
    parse_unsigned u32_max (str_bytes p.1) = Some n →
    parse_unsigned u32_max (str_bytes q.1) = Some n → p = q).
  { intros p q n. by apply iter_number_inj. }
  split; f_equal; apply sort_by_key_unique.
  - intros x y (p & Hp & Hx)%list_elem_of_omap (q & Hq & Hy)%list_elem_of_omap Heq.
    pose proof (stat_mapping_id _ _ Hx). pose proof (stat_mapping_id _ _ Hy).
    assert (p = q) as -> by (eapply Hkey; eauto; congruence). congruence.
  - by rewrite (Hi stats), (Hi' stats).
  - intros x y (p & Hx & Hp)%list_elem_of_bind (q & Hy & Hq)%list_elem_of_bind [= Hid Hbit].
    apply elem_of_stat_bits in Hx as (i & stat & bits & a & Hpi & Hp2 & Hb & Ha & Hx).
    apply elem_of_stat_bits in Hy as (i' & stat' & bits' & a' & Hqi & Hq2 & Hb' & Ha' & Hy).
    destruct (bit_mapping_ids _ _ _ Hx) as [? Hbx], (bit_mapping_ids _ _ _ Hy) as [? Hby].
    assert (p = q) as -> by (eapply Hkey; eauto; congruence). simplify_eq.
    destruct q as [k v]. simpl in *. subst v. apply elem_of_iter in Hq; [|done].
    injection Hq2 as <-. assert (bits' = bits) as -> by congruence.
    assert (a = a') as -> by (eapply (iter_number_inj iter Hi bits); eauto; congruence).
    congruence.
  - rewrite (Hi stats), (Hi' stats). generalize (map_to_list stats). intros l.
    induction l as [|p l IH]; [done|]. csimpl. by rewrite IH, (stat_bits_perm iter iter').
Qed.
