(* ===== verification/StatsMerge.v ===== *)
(** * StatsMerge: answering a stats request from backend state
      ([crates/hooks/src/stats_merge.rs])

    The client's request, Valve's answer (the donor, which carries the schema) and
    the backend's state become the answer the client sees, in the service form and
    in the legacy form. The definitions follow the source; prost's encoders and
    [HashMap]'s iteration order are parameters. *)

From Stdlib Require Import ZArith Lia.
From S2P Require Import Prelude RustStd CloudCore SteamProtocol.

Local Open Scope Z_scope.

Record AchievementWireId := { wi_stat_id : Z; wi_achievement_bit : Z }.

(** [iter_mut().find(..)] and an update of the element found, or a push. *)
Fixpoint update_first {A} (p : A → bool) (f : A → A) (l : list A) : option (list A) :=
  match l with
  | [] => None
  | x :: rest => if p x then Some (f x :: rest) else cons x <$> update_first p f rest
  end.

Definition upsert {A} (p : A → bool) (f : A → A) (fresh : A) (l : list A) : list A :=
  match update_first p f l with Some l' => l' | None => l ++ [fresh] end.

Definition has_stat_id (stat_id : Z) (e : PlayerStatsEntry) : bool :=
  bool_decide (se_stat_id e = Some stat_id).

Definition set_service_stat (stats : list PlayerStatsEntry) (stat_id value : Z)
    : list PlayerStatsEntry :=
  upsert (has_stat_id stat_id)
    (λ e, {| se_stat_id := se_stat_id e; se_stat_value := Some value;
             se_unlock_times := se_unlock_times e |})
    {| se_stat_id := Some stat_id; se_stat_value := Some value; se_unlock_times := [] |} stats.

Definition has_bit (bit : Z) (t : PlayerAchievementUnlockTime) : bool :=
  bool_decide (ut_achievement_bit t = Some bit).

(** The unlock times of an entry after one achievement. *)
Definition set_unlock_time (times : list PlayerAchievementUnlockTime) (bit : Z)
    (unlocked : bool) (unlock_time : Z) : list PlayerAchievementUnlockTime :=
  if unlocked
  then
    match update_first (has_bit bit)
            (λ t, {| ut_achievement_bit := ut_achievement_bit t;
                     ut_unlock_time := Some unlock_time |}) times with
    | Some times' => times'
    | None => sort_unlock_times (times ++ [{| ut_achievement_bit := Some bit;
                                              ut_unlock_time := Some unlock_time |}])
    end
  else filter (λ t, negb (has_bit bit t)) times.

(** [!bit] on [u32] *)
Definition set_achievement_entry (wire_id : AchievementWireId) (unlocked : bool)
    (unlock_time : Z) (e : PlayerStatsEntry) : PlayerStatsEntry :=
  let bit := Z.shiftl 1 (wi_achievement_bit wire_id) in
  let previous_value := default 0 (se_stat_value e) in
  {| se_stat_id := se_stat_id e;
     se_stat_value := Some (if unlocked then Z.lor previous_value bit
                            else Z.land previous_value (u32_not bit));
     se_unlock_times :=
       set_unlock_time (se_unlock_times e) (wi_achievement_bit wire_id) unlocked unlock_time |}.

Definition set_service_achievement (stats : list PlayerStatsEntry) (wire_id : AchievementWireId)
    (unlocked : bool) (unlock_time : Z) : option (list PlayerStatsEntry) :=
  if 32 <=? wi_achievement_bit wire_id then None
  else
    Some (upsert (has_stat_id (wi_stat_id wire_id))
            (set_achievement_entry wire_id unlocked unlock_time)
            (set_achievement_entry wire_id unlocked unlock_time
               {| se_stat_id := Some (wi_stat_id wire_id); se_stat_value := Some 0;
                  se_unlock_times := [] |})
            stats).

Definition stat_wire_value (stat : StatSyncState) : option Z :=
  if decide (st_value_type stat = "int")
  then as_u32 <$> parse_signed i32_min i32_max (str_bytes (st_value stat))
  else if decide (st_value_type stat = "float" ∨ st_value_type stat = "average_rate")
  then parse_f32_bits (str_bytes (st_value stat))
  else None.

Definition unlock_time (state : AchievementSyncState) : option Z :=
  if negb (ach_unlocked state) then Some 0
  else
    Some (match ach_unlocked_at state with
          | Some value =>
              if (0 <? value) && (value <=? u32_max) then value
              else ACHIEVEMENT_UNLOCK_TIME_UNKNOWN
          | None => ACHIEVEMENT_UNLOCK_TIME_UNKNOWN
          end).

(** *** The legacy blocks *)

(** [Vec::resize(n, 0)] when shorter *)
Definition resize_times (n : nat) (times : list Z) : list Z :=
  times ++ replicate (n - length times) 0.

Definition set_block_time (bit : Z) (value : Z) (b : AchievementBlock) : AchievementBlock :=
  {| ab_achievement_id := ab_achievement_id b;
     ab_unlock_time :=
       <[Z.to_nat bit := value]> (resize_times (S (Z.to_nat bit)) (ab_unlock_time b)) |}.

Definition set_legacy_achievement (blocks : list AchievementBlock) (wire_id : AchievementWireId)
    (unlocked : bool) (unlock_time : Z) : option (list AchievementBlock) :=
  if 32 <=? wi_achievement_bit wire_id then None
  else
    let f := set_block_time (wi_achievement_bit wire_id) (if unlocked then unlock_time else 0) in
    Some (upsert (λ b, bool_decide (ab_achievement_id b = Some (wi_stat_id wire_id))) f
            (f {| ab_achievement_id := Some (wi_stat_id wire_id); ab_unlock_time := [] |})
            blocks).

Section merge.
Context (iter : gmap string AchievementSchemaValue → list (string * AchievementSchemaValue))
  (encode_entry : PlayerStatsEntry → list Z)
  (encode_service : PlayerGetUserStatsResponse → list Z)
  (encode_legacy : ClientGetUserStatsResponse → list Z).

(** [collect::<HashMap<_, _>>]: a later mapping of a key replaces an earlier one *)
Definition achievement_wire_ids (schema : list Z) : option (gmap string AchievementWireId) :=
  mappings ← ok (parse_achievement_bit_mappings iter schema);
  Some (foldl (λ m x, <[bm_key x := {| wi_stat_id := bm_stat_id x;
                                      wi_achievement_bit := bm_achievement_bit x |}]> m)
          ∅ mappings).

Definition stat_wire_ids (schema : list Z) : option (gmap string Z) :=
  mappings ← ok (parse_stat_mappings iter schema);
  Some (foldl (λ m x, <[sm_key x := sm_stat_id x]> m) ∅ mappings).

(** One stat of the loop; an unencodable key is skipped. *)
Definition add_service_stat (stat_ids : gmap string Z) (stats : list PlayerStatsEntry)
    (stat : StatSyncState) : list PlayerStatsEntry :=
  match stat_ids !! st_stat_key stat with
  | None => stats
  | Some stat_id =>
      match stat_wire_value stat with
      | None => stats
      | Some value => set_service_stat stats stat_id value
      end
  end.

Definition add_service_achievement (ids : gmap string AchievementWireId)
    (stats : list PlayerStatsEntry) (a : AchievementSyncState) : list PlayerStatsEntry :=
  match ids !! ach_achievement_key a with
  | None => stats
  | Some wire_id =>
      match unlock_time a with
      | None => stats
      | Some time => default stats (set_service_achievement stats wire_id (ach_unlocked a) time)
      end
  end.

Definition service_stats_entries (app_id : Z) (schema : list Z)
    (achievements : list AchievementSyncState) (states : list StatSyncState)
    : option (list PlayerStatsEntry) :=
  achievement_ids ← achievement_wire_ids schema;
  stat_ids ← stat_wire_ids schema;
  let stats := foldl (add_service_stat stat_ids) []
                 (filter (λ s, st_app_id s = app_id) states) in
  let stats := foldl (add_service_achievement achievement_ids) stats
                 (filter (λ a, ach_app_id a = app_id) achievements) in
  Some (sort_by_key (λ e, default u32_max (se_stat_id e)) stats).

Definition add_legacy_stat (stat_ids : gmap string Z) (stats : list LegacyStatsEntry)
    (stat : StatSyncState) : list LegacyStatsEntry :=
  match stat_ids !! st_stat_key stat with
  | None => stats
  | Some stat_id =>
      match stat_wire_value stat with
      | None => stats
      | Some value => stats ++ [{| le_stat_id := Some stat_id; le_stat_value := Some value |}]
      end
  end.

Definition add_legacy_achievement (ids : gmap string AchievementWireId)
    (blocks : list AchievementBlock) (a : AchievementSyncState) : list AchievementBlock :=
  match ids !! ach_achievement_key a with
  | None => blocks
  | Some wire_id =>
      match unlock_time a with
      | None => blocks
      | Some time => default blocks (set_legacy_achievement blocks wire_id (ach_unlocked a) time)
      end
  end.

Definition legacy_stats_entries (app_id : Z) (schema : list Z)
    (achievements : list AchievementSyncState) (states : list StatSyncState)
    : option (list LegacyStatsEntry * list AchievementBlock) :=
  achievement_ids ← achievement_wire_ids schema;
  stat_ids ← stat_wire_ids schema;
  let stats := foldl (add_legacy_stat stat_ids) []
                 (filter (λ s, st_app_id s = app_id) states) in
  let blocks := foldl (add_legacy_achievement achievement_ids) []
                  (filter (λ a, ach_app_id a = app_id) achievements) in
  Some (sort_by_key (λ e, default u32_max (le_stat_id e)) stats,
        sort_by_key (λ b, default u32_max (ab_achievement_id b)) blocks).

(** What the backend's state puts into a service answer: token and entries. *)
Definition service_payload (app_id : Z) (request_crc : option Z) (full_schema : list Z)
    (backend : option AppStatsResult) : option (option Z * list PlayerStatsEntry) :=
  match backend with
  | Some (Unchanged _ crc_stats) => Some (Some crc_stats, [])
  | Some (Modified _ crc_stats achievements stats) =>
      entries ← service_stats_entries app_id full_schema achievements stats;
      let derived := bool_decide (crc_stats = None) in
      let crc := default (stats_crc encode_entry entries) crc_stats in
      Some (Some crc,
            if derived && bool_decide (request_crc = Some crc) then [] else entries)
  | Some Uninitialized | Some (SchemaMismatch _) | None => Some (None, [])
  end.

Definition merge_service_response (request : PlayerGetUserStatsRequest)
    (donor : PlayerGetUserStatsResponse) (full_schema : list Z)
    (backend : option AppStatsResult) : option PlayerGetUserStatsResponse :=
  app_id ← sq_appid request;
  if app_id =? 0 then None
  else
    '(crc, stats) ← service_payload app_id (sq_crc_stats request) full_schema backend;
    Some {| sr_sha_schema := sr_sha_schema donor; sr_crc_stats := crc;
            sr_schema := if decide (sq_sha_schema request = sr_sha_schema donor) then None
                         else Some full_schema;
            sr_stats := stats; sr_crc_schema := None |}.

Definition merge_service_stats_response request donor full_schema backend
    : option (list Z) :=
  encode_service <$> merge_service_response request donor full_schema backend.

Definition legacy_payload (app_id : Z) (request_crc : option Z) (full_schema : list Z)
    (backend : option AppStatsResult)
    : option (option Z * list LegacyStatsEntry * list AchievementBlock) :=
  match backend with
  | Some (Unchanged _ crc_stats) => Some (Some crc_stats, [], [])
  | Some (Modified _ crc_stats achievements stats) =>
      let derived := bool_decide (crc_stats = None) in
      crc ← match crc_stats with
            | None => stats_crc encode_entry <$>
                      service_stats_entries app_id full_schema achievements stats
            | Some crc => Some crc
            end;
      if derived && bool_decide (request_crc = Some crc) then Some (Some crc, [], [])
      else
        '(stats, blocks) ← legacy_stats_entries app_id full_schema achievements stats;
        Some (Some crc, stats, blocks)
  | Some Uninitialized | Some (SchemaMismatch _) | None => Some (None, [], [])
  end.

Definition merge_legacy_response (request : ClientGetUserStatsRequest)
    (donor : ClientGetUserStatsResponse) (full_schema : list Z)
    (backend : option AppStatsResult) : option ClientGetUserStatsResponse :=
  game_id ← lq_game_id request;
  app_id ← app_id_from_game_id game_id;
  '(crc, stats, blocks) ← legacy_payload app_id (lq_crc_stats request) full_schema backend;
  Some {| lr_game_id := Some game_id; lr_eresult := lr_eresult donor; lr_crc_stats := crc;
          lr_schema := Some full_schema; lr_stats := stats; lr_achievement_blocks := blocks |}.

Definition merge_legacy_stats_response request donor full_schema backend : option (list Z) :=
  encode_legacy <$> merge_legacy_response request donor full_schema backend.
End merge.
