(* ===== verification/StatsMergeProofs.v ===== *)
(** * StatsMergeProofs: what the client is told about its stats *)

From Stdlib Require Import ZArith Lia.
From S2P Require Import Prelude RustStd CloudCore SteamProtocol SteamProtocolProofs StatsMerge.

Local Open Scope Z_scope.

(** ** Updating the first match *)

Section update_first.
Context {A : Type} (p : A → bool) (f : A → A).

Lemma update_first_None l : update_first p f l = None ↔ ∀ x, x ∈ l → p x = false.
Proof.
  induction l as [|y l IH]; simpl; [set_solver|].
  destruct (p y) eqn:Hy; [split; [done|]; intros H; by rewrite H in Hy by left|].
  rewrite fmap_None, IH. split; [intros H x [->|Hx]%elem_of_cons; auto|].
  intros H x Hx. apply H. by right.
Qed.

Lemma update_first_Some l l' :
  update_first p f l = Some l' →
  ∃ l1 x l2, l = l1 ++ x :: l2 ∧ l' = l1 ++ f x :: l2 ∧ p x = true ∧
             ∀ y, y ∈ l1 → p y = false.
Proof.
  revert l'; induction l as [|y l IH]; intros l'; simpl; [done|]. destruct (p y) eqn:Hy.
  - intros [= <-]. exists [], y, l. split; [done|]. split; [done|]. split; [done|]. set_solver.
  - intros (k & (l1 & x & l2 & -> & -> & Hx & Hl1)%IH & ->)%fmap_Some.
    exists (y :: l1), x, l2. split; [done|]. split; [done|]. split; [done|].
    intros z [->|Hz]%elem_of_cons; auto.
Qed.

(** Every element is kept or replaced by its update. *)
Lemma upsert_keeps fresh l x :
  x ∈ l → x ∈ upsert p f fresh l ∨ (p x = true ∧ f x ∈ upsert p f fresh l).
Proof.
  unfold upsert. destruct (update_first p f l) as [l'|] eqn:E; intros Hx; [|set_solver].
  apply update_first_Some in E as (l1 & y & l2 & -> & -> & Hy & _). set_solver.
Qed.

(** The fresh element or an updated match is there. *)
Lemma upsert_has fresh l :
  fresh ∈ upsert p f fresh l ∨ ∃ x, x ∈ l ∧ p x = true ∧ f x ∈ upsert p f fresh l.
Proof.
  unfold upsert. destruct (update_first p f l) as [l'|] eqn:E; [|set_solver].
  apply update_first_Some in E as (l1 & y & l2 & -> & -> & Hy & _). right. exists y. set_solver.
Qed.

Lemma elem_of_upsert fresh l y :
  y ∈ upsert p f fresh l →
  y ∈ l ∨ (∃ x, x ∈ l ∧ p x = true ∧ y = f x) ∨ (y = fresh ∧ ∀ x, x ∈ l → p x = false).
Proof.
  unfold upsert. destruct (update_first p f l) as [l'|] eqn:E.
  - apply update_first_Some in E as (l1 & x & l2 & -> & -> & Hx & _).
    rewrite elem_of_app, elem_of_cons. intros [?|[->|?]]; [set_solver| |set_solver].
    right. left. exists x. set_solver.
  - rewrite update_first_None in E. rewrite elem_of_app, list_elem_of_singleton.
    intros [?| ->]; auto.
Qed.

(** Keys stay unique when the update keeps them and the fresh element has the key
    the predicate tests. *)
Lemma upsert_NoDup {K} (key : A → K) fresh l :
  (∀ x, key (f x) = key x) → (∀ x, p x = true ↔ key x = key fresh) →
  NoDup (key <$> l) → NoDup (key <$> upsert p f fresh l).
Proof.
  intros Hf Hp Hnd. unfold upsert. destruct (update_first p f l) as [l'|] eqn:E.
  - apply update_first_Some in E as (l1 & x & l2 & -> & -> & Hx & _).
    rewrite fmap_app, fmap_cons in *. by rewrite Hf.
  - rewrite update_first_None in E. rewrite fmap_app. apply NoDup_app. split; [done|].
    split; [|csimpl; repeat constructor; set_solver].
    intros k (x & -> & Hx)%list_elem_of_fmap Hk. csimpl in Hk.
    apply list_elem_of_singleton, Hp in Hk. by rewrite (E x Hx) in Hk.
Qed.
End update_first.

(** ** Bits of a stat value *)

Lemma u32_not_bits bit n : 0 ≤ bit < 32 → 0 ≤ n < 32 →
  Z.testbit (u32_not (Z.shiftl 1 bit)) n = negb (n =? bit).
Proof.
  intros Hb Hn.
  assert (Hlt : Z.shiftl 1 bit < 2 ^ 32).
  { rewrite Z.shiftl_1_l. apply Z.pow_lt_mono_r; lia. }
  assert (Hpos : 0 < Z.shiftl 1 bit) by (rewrite Z.shiftl_1_l; apply Z.pow_pos_nonneg; lia).
  assert (Hx : u32_not (Z.shiftl 1 bit) = Z.lxor (Z.ones 32) (Z.shiftl 1 bit)).
  { unfold u32_not, u32_max. change 4294967295 with (Z.ones 32).
    rewrite Z.shiftl_1_l. rewrite Z.sub_nocarry_ldiff.
    - apply Z.bits_inj'. intros k Hk. rewrite Z.ldiff_spec, Z.lxor_spec, Z.pow2_bits_eqb by lia.
      destruct (Z.eqb_spec bit k) as [<-|]; [|by rewrite andb_true_r, xorb_false_r].
      by rewrite Z.ones_spec_low by lia.
    - apply Z.bits_inj'. intros k Hk. rewrite Z.ldiff_spec, Z.bits_0, Z.pow2_bits_eqb by lia.
      destruct (Z.eqb_spec bit k) as [<-|]; [|done]. by rewrite Z.ones_spec_low by lia. }
  rewrite Hx, Z.lxor_spec, Z.ones_spec_low by lia. rewrite Z.shiftl_1_l, Z.pow2_bits_eqb by lia.
  by rewrite xorb_true_l, Z.eqb_sym.
Qed.

Lemma set_bit_spec v bit n unlocked :
  0 ≤ bit < 32 → 0 ≤ n < 32 →
  Z.testbit (if unlocked : bool then Z.lor v (Z.shiftl 1 bit)
             else Z.land v (u32_not (Z.shiftl 1 bit))) n =
  if n =? bit then unlocked else Z.testbit v n.
Proof.
  intros Hb Hn. destruct unlocked.
  - rewrite Z.lor_spec, Z.shiftl_1_l, Z.pow2_bits_eqb by lia. rewrite (Z.eqb_sym bit n).
    destruct (n =? bit); [by rewrite orb_true_r|by rewrite orb_false_r].
  - rewrite Z.land_spec, u32_not_bits by lia.
    destruct (n =? bit); simpl; [by rewrite andb_false_r|by rewrite andb_true_r].
Qed.

(** ** Unlock times *)

Lemma elem_of_set_unlock_time_other times bit unlocked time other :
  other ≠ bit →
  (∃ t, t ∈ set_unlock_time times bit unlocked time ∧ ut_achievement_bit t = Some other) ↔
  (∃ t, t ∈ times ∧ ut_achievement_bit t = Some other).
Proof.
  intros Hne. unfold set_unlock_time. destruct unlocked.
  - destruct (update_first _ _ times) as [times'|] eqn:E.
    + apply update_first_Some in E as (l1 & x & l2 & -> & -> & Hx & _).
      apply bool_decide_eq_true in Hx. setoid_rewrite elem_of_app. setoid_rewrite elem_of_cons.
      split; intros (t & [Ht|[->|Ht]] & Hbit); simpl in *; try (by exists t; auto); congruence.
    + unfold sort_unlock_times. setoid_rewrite elem_of_sort_by_key.
      setoid_rewrite elem_of_app. setoid_rewrite list_elem_of_singleton.
      split; [intros (t & [Ht| ->] & Hbit)|intros (t & Ht & Hbit)]; simpl in *;
        [by exists t|congruence|by exists t; auto].
  - setoid_rewrite list_elem_of_filter. split; [intros (t & [_ Ht] & Hbit); by exists t|].
    intros (t & Ht & Hbit). exists t. split; [|done]. split; [|done].
    unfold has_bit. rewrite Hbit, bool_decide_eq_false_2; [done|congruence].
Qed.

Lemma elem_of_set_unlock_time_same times bit unlocked time :
  (∃ t, t ∈ set_unlock_time times bit unlocked time ∧ ut_achievement_bit t = Some bit) ↔
  unlocked = true.
Proof.
  unfold set_unlock_time. destruct unlocked.
  - split; [done|]. intros _. destruct (update_first _ _ times) as [times'|] eqn:E.
    + apply update_first_Some in E as (l1 & x & l2 & -> & -> & Hx & _).
      apply bool_decide_eq_true in Hx.
      exists {| ut_achievement_bit := ut_achievement_bit x; ut_unlock_time := Some time |}.
      split; [set_solver|done].
    + unfold sort_unlock_times. setoid_rewrite elem_of_sort_by_key.
      exists {| ut_achievement_bit := Some bit; ut_unlock_time := Some time |}.
      split; [set_solver|done].
  - split; [|done]. intros (t & [Hf _]%list_elem_of_filter & Hbit).
    unfold has_bit in Hf. by rewrite bool_decide_eq_true_2 in Hf.
Qed.

(** ** The service entries *)

(** An entry tells the client that a bit is (un)locked: in its value and by its time. *)
Definition reports (w : AchievementWireId) (unlocked : bool) (e : PlayerStatsEntry) : Prop :=
  se_stat_id e = Some (wi_stat_id w) ∧
  (∃ v, se_stat_value e = Some v ∧ Z.testbit v (wi_achievement_bit w) = unlocked) ∧
  ((∃ t, t ∈ se_unlock_times e ∧ ut_achievement_bit t = Some (wi_achievement_bit w)) ↔
   unlocked = true).

Definition wire_ok (w : AchievementWireId) : Prop := 0 ≤ wi_achievement_bit w < 32.

Lemma set_entry_reports w unlocked time e :
  wire_ok w → se_stat_id e = Some (wi_stat_id w) →
  reports w unlocked (set_achievement_entry w unlocked time e).
Proof.
  intros Hw Hid. split; [done|]. split.
  - eexists. split; [reflexivity|]. rewrite set_bit_spec by (unfold wire_ok in Hw; lia).
    by rewrite Z.eqb_refl.
  - apply elem_of_set_unlock_time_same.
Qed.

Lemma set_entry_keeps w w' unlocked unlocked' time e :
  wire_ok w → wire_ok w' → wi_achievement_bit w' ≠ wi_achievement_bit w →
  reports w unlocked e → reports w unlocked (set_achievement_entry w' unlocked' time e).
Proof.
  intros Hw Hw' Hne (Hid & (v & Hv & Hbit) & Htime). split; [done|]. split.
  - eexists. split; [reflexivity|]. rewrite Hv. simpl.
    rewrite set_bit_spec by (unfold wire_ok in *; lia).
    by rewrite (proj2 (Z.eqb_neq _ _)) by done.
  - unfold set_achievement_entry. simpl. by rewrite elem_of_set_unlock_time_other.
Qed.

Section entries.
Context (ids : gmap string AchievementWireId).

Definition told (a : AchievementSyncState) (stats : list PlayerStatsEntry) : Prop :=
  ∀ w, ids !! ach_achievement_key a = Some w → wire_ok w →
    ∃ e, e ∈ stats ∧ reports w (ach_unlocked a) e.

Lemma add_achievement_tells stats a : told a (add_service_achievement ids stats a).
Proof.
  intros w Hw Hok. unfold add_service_achievement. rewrite Hw.
  assert (Htime : ∃ time, unlock_time a = Some time) by (unfold unlock_time; case_match; eauto).
  destruct Htime as [time ->]. unfold set_service_achievement.
  rewrite (proj2 (Z.leb_gt _ _)) by (unfold wire_ok in Hok; lia). simpl.
  match goal with |- ∃ e, e ∈ upsert ?p ?f ?fresh stats ∧ _ =>
    destruct (upsert_has p f fresh stats) as [Hin|(x & _ & Hx & Hin)] end.
  - eexists. split; [exact Hin|]. by apply set_entry_reports.
  - eexists. split; [exact Hin|]. apply set_entry_reports; [done|].
    by apply bool_decide_eq_true in Hx.
Qed.

(** Distinct achievements have distinct bits. *)
Definition distinct_wires (a b : AchievementSyncState) : Prop :=
  ∀ w w', ids !! ach_achievement_key a = Some w → ids !! ach_achievement_key b = Some w' →
    wi_stat_id w = wi_stat_id w' → wi_achievement_bit w ≠ wi_achievement_bit w'.

Lemma add_achievement_keeps stats a b :
  (∀ k w, ids !! k = Some w → 0 ≤ wi_achievement_bit w) →
  distinct_wires a b → told a stats → told a (add_service_achievement ids stats b).
Proof.
  intros Hpos Hd Ha w Hw Hok. destruct (Ha w Hw Hok) as (e & He & Hr).
  unfold add_service_achievement.
  destruct (ids !! ach_achievement_key b) as [w'|] eqn:Hw'; [|by eauto].
  destruct (unlock_time b) as [time|]; [|by eauto]. unfold set_service_achievement.
  destruct (Z.leb_spec 32 (wi_achievement_bit w')); simpl; [by eauto|].
  assert (Hok' : wire_ok w') by (split; [by eapply Hpos|done]).
  match goal with |- ∃ e, e ∈ upsert ?p ?f ?fresh stats ∧ _ =>
    destruct (upsert_keeps p f fresh stats e He) as [Hin|[Hp Hin]] end; [by eauto|].
  eexists. split; [exact Hin|]. apply bool_decide_eq_true in Hp.
  apply set_entry_keeps; try done. intros Heq. destruct Hr as [Hid _].
  eapply Hd; [exact Hw|exact Hw'|congruence|done].
Qed.

Lemma add_achievements_tell l stats a :
  (∀ k w, ids !! k = Some w → 0 ≤ wi_achievement_bit w) →
  (∀ i j x y, l !! i = Some x → l !! j = Some y → i ≠ j → distinct_wires x y) →
  a ∈ l → told a (foldl (add_service_achievement ids) stats l).
Proof.
  intros Hpos. revert stats; induction l as [|b l IH]; intros stats Hd Ha; [set_solver|]. simpl.
  assert (Hd' : ∀ i j x y, l !! i = Some x → l !! j = Some y → i ≠ j → distinct_wires x y).
  { intros i j x y Hi Hj Hij. apply (Hd (S i) (S j)); [done|done|congruence]. }
  apply elem_of_cons in Ha as [->|Ha]; [|by apply IH].
  assert (Hb : ∀ x, x ∈ l → distinct_wires b x).
  { intros x [i Hi]%list_elem_of_lookup. by apply (Hd 0%nat (S i)). }
  pose proof (add_achievement_tells stats b) as Htold. revert Htold.
  generalize (add_service_achievement ids stats b). clear IH Hd Hd'.
  induction l as [|x l IH]; intros st Htold; simpl; [done|].
  apply IH; [intros; apply Hb; by right|]. apply add_achievement_keeps; [done| |done].
  apply Hb. left.
Qed.
End entries.

(** Identifiers parsed from a schema are not negative. *)
Lemma parse_digits_nonneg limit acc l n :
  0 ≤ acc → parse_digits limit acc l = Some n → 0 ≤ n.
Proof.
  revert acc; induction l as [|c l IH]; intros acc Ha; simpl; [by intros [= <-]|].
  destruct (is_digit c) eqn:Ec; [|done]. unfold is_digit in Ec.
  rewrite andb_true_iff, !Z.leb_le in Ec. case_match; [|done]. apply IH. lia.
Qed.

Lemma parse_unsigned_nonneg limit l n : parse_unsigned limit l = Some n → 0 ≤ n.
Proof.
  unfold parse_unsigned. intros H. repeat case_match; try done; by eapply parse_digits_nonneg in H.
Qed.

Lemma bit_mapping_nonneg id p x : bit_mapping id p = Some x → 0 ≤ bm_achievement_bit x.
Proof.
  unfold bit_mapping. destruct (parse_unsigned _ _) as [bit|] eqn:E; [|done]. simpl.
  apply parse_unsigned_nonneg in E.
  destruct (value_object p.2) as [a|]; [|done]. simpl.
  destruct (a !! "name") as [name|]; [|done]. simpl.
  destruct (value_string name) as [s|]; [|done]. simpl.
  destruct (nonblank s); [|done]. simpl. by intros [= <-].
Qed.

Lemma wire_ids_nonneg iter schema ids k w :
  achievement_wire_ids iter schema = Some ids → ids !! k = Some w → 0 ≤ wi_achievement_bit w.
Proof.
  unfold achievement_wire_ids. intros H.
  destruct (parse_achievement_bit_mappings iter schema) as [l|] eqn:E; [|done]. simpl in H.
  injection H as <-.
  assert (Hl : Forall (λ x, 0 ≤ bm_achievement_bit x) l).
  { unfold parse_achievement_bit_mappings in E. res_inv. apply Forall_forall. intros y Hy.
    rewrite elem_of_sort_by_key in Hy. apply list_elem_of_bind in Hy as (p & Hy & _).
    unfold stat_bit_mappings in Hy. case_match eqn:Em; [|set_solver].
    destruct (parse_unsigned _ _) as [id|]; [|done]. simpl in Em.
    destruct (value_object p.2) as [stat|]; [|done]. simpl in Em.
    destruct (stat !! "bits") as [b|]; [|done]. simpl in Em.
    destruct (value_object b) as [bits|]; [|done]. simpl in Em. injection Em as <-.
    apply list_elem_of_omap in Hy as (q & _ & Hq). by apply bit_mapping_nonneg in Hq. }
  assert (Hgen : ∀ m : gmap string AchievementWireId,
    map_Forall (λ _ w, 0 ≤ wi_achievement_bit w) m →
    map_Forall (λ _ w, 0 ≤ wi_achievement_bit w)
      (foldl (λ m x, <[bm_key x := {| wi_stat_id := bm_stat_id x;
         wi_achievement_bit := bm_achievement_bit x |}]> m) m l)).
  { clear E. induction Hl as [|x l Hx _ IH]; intros m Hm; simpl; [done|].
    apply IH. by apply map_Forall_insert_2. }
  intros Hk. by apply (Hgen ∅ (map_Forall_empty _) k w).
Qed.

(** [service_entries_report_achievements]: every achievement the schema knows reaches the
    client: its bit in the stat's value says whether it is unlocked, and it has an
    unlock time exactly when it is. *)
Theorem service_entries_report_achievements iter app schema achievements states ids entries
    (Hids : achievement_wire_ids iter schema = Some ids)
    (H : service_stats_entries iter app schema achievements states = Some entries)
    (Hd : ∀ i j x y, filter (λ a, ach_app_id a = app) achievements !! i = Some x →
       filter (λ a, ach_app_id a = app) achievements !! j = Some y → i ≠ j →
       distinct_wires ids x y) :
  ∀ a w, a ∈ achievements → ach_app_id a = app → ids !! ach_achievement_key a = Some w →
    wi_achievement_bit w < 32 → ∃ e, e ∈ entries ∧ reports w (ach_unlocked a) e.
Proof.
  intros a w Ha Happ Hw Hbit. unfold service_stats_entries in H. rewrite Hids in H. simpl in H.
  destruct (stat_wire_ids iter schema) as [stat_ids|]; [|done]. simpl in H. injection H as <-.
  setoid_rewrite elem_of_sort_by_key.
  assert (Hpos : ∀ k w, ids !! k = Some w → 0 ≤ wi_achievement_bit w)
    by (intros; by eapply wire_ids_nonneg).
  apply (add_achievements_tell ids (filter (λ a, ach_app_id a = app) achievements) _ a);
    [done|done| |done|].
  - by apply list_elem_of_filter.
  - split; [by eapply Hpos|done].
Qed.

Lemma service_stat_ids stats id v :
  NoDup (se_stat_id <$> stats) → NoDup (se_stat_id <$> set_service_stat stats id v).
Proof. apply upsert_NoDup; [done|]. intros x. apply bool_decide_eq_true. Qed.

Lemma service_achievement_ids stats w u t stats' :
  set_service_achievement stats w u t = Some stats' →
  NoDup (se_stat_id <$> stats) → NoDup (se_stat_id <$> stats').
Proof.
  unfold set_service_achievement. case_match; [done|]. intros [= <-].
  apply upsert_NoDup; [done|]. intros x. apply bool_decide_eq_true.
Qed.

(** [service_entries_sorted]: the answer lists each stat once, in ascending order of id. *)
Theorem service_entries_sorted iter app schema achievements states entries
    (H : service_stats_entries iter app schema achievements states = Some entries) :
  NoDup (se_stat_id <$> entries) ∧
  StronglySorted (λ e f, default u32_max (se_stat_id e) ≤ default u32_max (se_stat_id f)) entries.
Proof.
  unfold service_stats_entries in H.
  destruct (achievement_wire_ids iter schema) as [ids|]; [|done]. simpl in H.
  destruct (stat_wire_ids iter schema) as [stat_ids|]; [|done]. simpl in H. injection H as <-.
  split; [|exact (sort_by_key_sorted (λ e, default u32_max (se_stat_id e)) _)].
  rewrite (sort_by_key_perm (λ e, default u32_max (se_stat_id e))).
  assert (Hs : NoDup (se_stat_id <$> foldl (add_service_stat stat_ids) []
    (filter (λ s, st_app_id s = app) states))).
  { generalize (filter (λ s, st_app_id s = app) states). intros l.
    assert (Hg : ∀ st, NoDup (se_stat_id <$> st) →
      NoDup (se_stat_id <$> foldl (add_service_stat stat_ids) st l)).
    { induction l as [|s l IH]; intros st Hst; simpl; [done|]. apply IH.
      unfold add_service_stat. repeat case_match; try done. by apply service_stat_ids. }
    apply Hg. constructor. }
  revert Hs. generalize (foldl (add_service_stat stat_ids) []
    (filter (λ s, st_app_id s = app) states)).
  generalize (filter (λ a, ach_app_id a = app) achievements). intros l.
  induction l as [|a l IH]; intros st Hst; simpl; [done|]. apply IH.
  unfold add_service_achievement. repeat case_match; try done.
  destruct (set_service_achievement _ _ _ _) eqn:E; [|done]. by eapply service_achievement_ids.
Qed.

(** [unknown_keys_not_fatal]: whether an answer can be encoded depends on the schema alone;
    no key or value of the stored state can prevent it, in either form. *)
Theorem unknown_keys_not_fatal iter app schema achievements states :
  (is_Some (service_stats_entries iter app schema achievements states) ↔
   is_ok (parse_achievement_schema_root schema ≫= schema_stats) = true) ∧
  (is_Some (legacy_stats_entries iter app schema achievements states) ↔
   is_ok (parse_achievement_schema_root schema ≫= schema_stats) = true).
Proof.
  unfold service_stats_entries, legacy_stats_entries, achievement_wire_ids, stat_wire_ids,
    parse_achievement_bit_mappings, parse_stat_mappings.
  destruct (parse_achievement_schema_root schema) as [root|]; simpl;
    [|split; split; [by intros [??]|done|by intros [??]|done]].
  destruct (schema_stats root) as [stats|]; simpl;
    [split; split; eauto|split; split; [by intros [??]|done|by intros [??]|done]].
Qed.

Lemma entries_is_Some iter app schema achievements states :
  is_Some (service_stats_entries iter app schema achievements states) ↔
  is_Some (legacy_stats_entries iter app schema achievements states).
Proof.
  unfold service_stats_entries, legacy_stats_entries.
  destruct (achievement_wire_ids iter schema); simpl; [|split; by intros [??]].
  destruct (stat_wire_ids iter schema); simpl; [split; eauto|split; by intros [??]].
Qed.

(** C38 [answers_agree]: for one app and one backend state, both request forms are answered or
    neither is, and they carry the same token. *)
Theorem answers_agree iter encode request legacy donor donor' schema backend app
    (Happ : sq_appid request = Some app) (Hne : app ≠ 0)
    (Hgame : (lq_game_id legacy ≫= app_id_from_game_id) = Some app) :
  match merge_service_response iter encode request donor schema backend,
        merge_legacy_response iter encode legacy donor' schema backend with
  | Some answer, Some answer' => sr_crc_stats answer = lr_crc_stats answer'
  | None, None => True
  | _, _ => False
  end.
Proof.
  unfold merge_service_response, merge_legacy_response. rewrite Happ. simpl.
  rewrite (proj2 (Z.eqb_neq _ _)) by done.
  destruct (lq_game_id legacy) as [game|]; [|done]. simpl in *. rewrite Hgame. simpl.
  destruct backend as [[|sv|sv crc|sv crc achs stats]|]; simpl; try done.
  pose proof (entries_is_Some iter app schema achs stats) as Hsome.
  destruct (service_stats_entries iter app schema achs stats) as [entries|] eqn:Es; simpl.
  - destruct (proj1 Hsome) as [[ls bs] Hl]; [by eauto|].
    destruct crc as [crc|]; simpl; [by rewrite Hl|].
    destruct (bool_decide _); simpl; [done|]. by rewrite Hl.
  - assert (Hl : legacy_stats_entries iter app schema achs stats = None).
    { destruct (legacy_stats_entries iter app schema achs stats); [|done].
      destruct (proj2 Hsome) as [? ?]; [by eauto|done]. }
    destruct crc as [crc|]; simpl; [by rewrite Hl|done].
Qed.

(** [derived_token_answers_condition]: when the backend issues no token, the answer carries
    the token of the state; the entries are left out exactly when the client already
    holds that token. *)
Theorem derived_token_answers_condition iter encode request donor schema version achievements
    stats entries app
    (Happ : sq_appid request = Some app) (Hne : app ≠ 0)
    (He : service_stats_entries iter app schema achievements stats = Some entries) :
  ∃ answer,
    merge_service_response iter encode request donor schema
      (Some (Modified version None achievements stats)) = Some answer ∧
    sr_crc_stats answer = Some (stats_crc encode entries) ∧
    sr_stats answer =
      (if decide (sq_crc_stats request = Some (stats_crc encode entries)) then [] else entries) ∧
    (sr_schema answer = None ↔ sq_sha_schema request = sr_sha_schema donor).
Proof.
  unfold merge_service_response. rewrite Happ. simpl. rewrite (proj2 (Z.eqb_neq _ _)) by done.
  rewrite He. simpl. eexists. split; [done|]. simpl. split; [done|]. split.
  - case_bool_decide; case_decide; done.
  - by case_decide.
Qed.
