(* ===== verification/ProtocolExamples.v ===== *)
(** * ProtocolExamples: owner scopes, wire formats and the stats answer on concrete data *)

From Stdlib Require Import ZArith Lia.
From S2P Require Import Prelude RustStd CloudCore SteamProtocol SteamProtocolProofs.
From S2P Require Import SchemaProofs StatsMerge StatsMergeProofs.

Local Open Scope Z_scope.

(** ** Scopes and streams of [cloud-core] *)

(** A function with the type of a digest, injective on byte strings. *)
Definition toy_digest (m : list Z) : list Z := (λ b, b mod 256) <$> m.

Lemma toy_digest_bytes m : Forall in_u8 (toy_digest m).
Proof.
  unfold toy_digest. apply Forall_fmap, Forall_true. intros b. unfold in_u8, u8_max. simpl.
  pose proof (Z.mod_pos_bound b 256). lia.
Qed.

Lemma scope_digest_binds_witness :
  let k := str_bytes "endpoint" in
  let fs := [str_bytes "http://a"] in
  (k = k ∧ fs = fs) ∨
  (scope_preimage k fs ≠ scope_preimage k fs ∧
   toy_digest (scope_preimage k fs) = toy_digest (scope_preimage k fs)).
Proof.
  apply (scope_digest_binds toy_digest toy_digest_bytes).
  - repeat constructor.
  - repeat constructor.
  - reflexivity.
Defined.

Lemma endpoint_scope_normalized_witness :
  normalized_server_url " http://a// " = str_bytes "http://a" ∧
  endpoint_scope toy_digest " http://a// " = endpoint_scope toy_digest "http://a//".
Proof.
  apply (endpoint_scope_normalized toy_digest [[32]] [[32]] (str_bytes "http://a") 2).
  - repeat constructor.
  - repeat constructor.
  - by split.
  - reflexivity.
  - reflexivity.
  - reflexivity.
  - reflexivity.
Defined.

Lemma no_lost_wakeup_witness :
  waits (cancel (signal_activity stream_cancellation_new)) 0 = false.
Proof.
  apply (no_lost_wakeup 2 stream_cancellation_new).
  - unfold in_u64. simpl. unfold u64_max. lia.
  - lia.
  - eapply nsteps_l; [apply step_signal|]. eapply nsteps_l; [apply step_cancel|]. constructor.
Defined.

(** ** Wire formats *)

Lemma framing_roundtrip_witness :
  unpack_raw (assemble_raw 2147483799 [1; 2] [3; 4; 5]) = Some (2147483799, [1; 2], [3; 4; 5]).
Proof.
  apply (framing_roundtrip 2147483799 [1; 2] [3; 4; 5] []); [int_lia|by vm_compute|constructor].
Defined.

Lemma crc32c_detects_byte_change_witness : stats_crc32c [1; 2; 3] ≠ stats_crc32c [1; 7; 3].
Proof.
  apply (crc32c_detects_byte_change [1] [3] 2 7);
    [constructor; [int_lia|constructor]|constructor; [int_lia|constructor]|int_lia|int_lia|done].
Defined.

Lemma varint_roundtrip_witness :
  decode_varint (encode_stats_varint 300 ++ [9]) = Some (300, [9]).
Proof. apply (varint_roundtrip 300 [9]). int_lia. Defined.

(** An encoder of entries that have no unlock times, injective on all entries. *)
Definition entry_with (id value : Z) : PlayerStatsEntry :=
  {| se_stat_id := Some id; se_stat_value := Some value; se_unlock_times := [] |}.

Definition option_code (o : option Z) : list Z :=
  match o with None => [0] | Some z => [1; z] end.
Definition time_code (t : PlayerAchievementUnlockTime) : list Z :=
  option_code (ut_achievement_bit t) ++ option_code (ut_unlock_time t).
Definition toy_encode (e : PlayerStatsEntry) : list Z :=
  option_code (se_stat_id e) ++ option_code (se_stat_value e) ++ (se_unlock_times e ≫= time_code).

Lemma option_code_inj o o' r r' : option_code o ++ r = option_code o' ++ r' → o = o' ∧ r = r'.
Proof. destruct o, o'; simpl; intros H; simplify_eq; done. Qed.

Lemma time_code_inj l l' : l ≫= time_code = l' ≫= time_code → l = l'.
Proof.
  revert l'; induction l as [|[b t] l IH]; intros [|[b' t'] l']; csimpl; [done|..].
  - unfold time_code. simpl. destruct b'; done.
  - unfold time_code. simpl. destruct b; done.
  - unfold time_code. simpl. rewrite <-!app_assoc. intros [-> H]%option_code_inj.
    apply option_code_inj in H as [-> H]. f_equal. by apply IH.
Qed.

Lemma toy_encode_inj e f : toy_encode e = toy_encode f → e = f.
Proof.
  destruct e, f. unfold toy_encode. simpl. intros [-> H]%option_code_inj.
  apply option_code_inj in H as [-> H]. f_equal. by apply time_code_inj.
Qed.

Lemma stats_token_order_independent_witness :
  stats_crc toy_encode [entry_with 2 5; entry_with 1 7] =
  stats_crc toy_encode [entry_with 1 7; entry_with 2 5].
Proof.
  apply (stats_token_order_independent toy_encode [entry_with 2 5; entry_with 1 7]
    [entry_with 1 7; entry_with 2 5] [entry_with 1 7; entry_with 2 5]).
  - apply Permutation_swap.
  - repeat constructor; simpl; set_solver.
  - intros e f He Hf. repeat (apply elem_of_cons in He as [->|He]);
      repeat (apply elem_of_cons in Hf as [->|Hf]); try set_solver; by intros.
Defined.

(** ** A schema: one plain stat, one achievement stat *)

Definition named (s : string) : KVs := KCons "name" (KString s) KNil.
Definition bit_pairs : KVs :=
  KCons "3" (KObject (named "WIN")) (KCons "4" (KObject (named "LOSE")) KNil).
Definition score_pairs : KVs := KCons "name" (KString "SCORE") (KCons "type" (KInt 1) KNil).
Definition stats_pairs : KVs :=
  KCons "11" (KObject score_pairs)
    (KCons "12" (KObject (KCons "bits" (KObject bit_pairs) KNil)) KNil).
Definition sample_pairs : KVs := KCons "stats" (KObject stats_pairs) KNil.
Definition sample_schema : list Z := 0 :: cstring_bytes "480" ++ kvs_bytes sample_pairs ++ [8].

Lemma text_ok_by s :
  bool_decide (0 ∉ str_bytes s) && utf8_valid (str_bytes s) = true → text_ok s.
Proof. rewrite andb_true_iff, bool_decide_eq_true. done. Qed.

Lemma sample_pairs_ok : kvs_ok ACHIEVEMENT_SCHEMA_MAX_DEPTH sample_pairs.
Proof. simpl. repeat split; try (by apply text_ok_by); int_lia. Qed.

Lemma schema_parse_roundtrip_witness :
  parse_achievement_schema_root sample_schema = Ok (kvs_value ∅ sample_pairs).
Proof.
  apply (schema_parse_roundtrip "480" sample_pairs [8]).
  - by apply text_ok_by.
  - apply sample_pairs_ok.
  - vm_compute. discriminate.
Defined.


Lemma canonical_bytes_name_state_witness :
  canonical_stats_wire_bytes toy_encode [entry_with 1 7] =
    canonical_stats_wire_bytes toy_encode [entry_with 1 8] ↔
  sorted_player_stats [entry_with 1 7] = sorted_player_stats [entry_with 1 8].
Proof.
  apply (canonical_bytes_name_state toy_encode [entry_with 1 7] [entry_with 1 8]).
  - apply toy_encode_inj.
  - intros e He. repeat (apply elem_of_cons in He as [->|He]; [by vm_compute|]). set_solver.
Defined.

Definition iter : gmap string AchievementSchemaValue → list (string * AchievementSchemaValue) :=
  map_to_list.

Lemma sample_schema_distinct : schema_distinct sample_schema.
Proof.
  intros root stats Hr Hs.
  assert (Hroot : root = kvs_value ∅ sample_pairs).
  { unfold sample_schema in Hr. rewrite schema_root_reads in Hr; [by injection Hr as <-|..].
    - by apply text_ok_by.
    - apply sample_pairs_ok.
    - vm_compute. discriminate. }
  subst root.
  change (kvs_value ∅ sample_pairs) with
    (<["stats" := Object (kvs_value ∅ stats_pairs)]> ∅ : gmap string AchievementSchemaValue) in Hs.
  unfold schema_stats in Hs. rewrite lookup_insert_eq in Hs.
  cbn [mbind option_bind value_object ok_or] in Hs. injection Hs as <-.
  assert (Hkeys : ∀ (a b : string) (x y : AchievementSchemaValue) (na nb : Z),
    parse_unsigned u32_max (str_bytes a) = Some na →
    parse_unsigned u32_max (str_bytes b) = Some nb → na ≠ nb →
    distinct_numbers (<[b := y]> (<[a := x]> ∅))).
  { intros a b x y na nb Ha Hb Hne k1 k2 n.
    assert (Hk : ∀ k, is_Some ((<[b := y]> (<[a := x]> ∅) : gmap string AchievementSchemaValue) !! k) →
      k = a ∨ k = b).
    { intros k. rewrite !lookup_insert_is_Some', lookup_empty. intros [->|[->|[??]]]; auto; done. }
    intros [->| ->]%Hk [->| ->]%Hk ??; congruence. }
  split; [by apply (Hkeys "11" "12" _ _ 11 12)|]. intros k stat bits.
  change (kvs_value ∅ stats_pairs) with
    (<["12" := Object (<["bits" := Object (kvs_value ∅ bit_pairs)]> ∅)]>
       (<["11" := Object (kvs_value ∅ score_pairs)]> ∅) : gmap string AchievementSchemaValue).
  intros [[<- [= <-]]|[_ [[<- [= <-]]|[_ Hk]]%lookup_insert_Some]]%lookup_insert_Some Hb.
  - rewrite lookup_insert_eq in Hb. injection Hb as <-. by apply (Hkeys "3" "4" _ _ 3 4).
  - change (kvs_value ∅ score_pairs) with
      (<["type" := Int 1]> (<["name" := StringValue "SCORE"]> ∅) : gmap string AchievementSchemaValue) in Hb.
    by rewrite !lookup_insert_ne, lookup_empty in Hb by done.
  - by rewrite lookup_empty in Hk.
Qed.

Lemma schema_mappings_deterministic_witness :
  parse_stat_mappings iter sample_schema =
  parse_stat_mappings (λ m, rev (map_to_list m)) sample_schema.
Proof.
  apply (schema_mappings_deterministic iter (λ m, rev (map_to_list m)) sample_schema).
  - intros m. done.
  - intros m. symmetry. apply Permutation_rev.
  - apply sample_schema_distinct.
Defined.

(** ** A stats answer *)

Definition won : AchievementSyncState :=
  {| ach_app_id := 480; ach_achievement_key := "WIN"; ach_unlocked := true;
     ach_progress_current := None; ach_progress_max := None; ach_observed_at := 100;
     ach_unlocked_at := None |}.
Definition score : StatSyncState :=
  {| st_app_id := 480; st_stat_key := "SCORE"; st_value_type := "int"; st_value := "-3";
     st_observed_at := 100 |}.
Definition unknown : StatSyncState :=
  {| st_app_id := 480; st_stat_key := "GONE"; st_value_type := "int"; st_value := "1";
     st_observed_at := 100 |}.

Definition sample_entries := service_stats_entries iter 480 sample_schema [won] [score; unknown].

Example sample_entries_value :
  sample_entries =
  Some [entry_with 11 4294967293;
        {| se_stat_id := Some 12; se_stat_value := Some 8;
           se_unlock_times := [{| ut_achievement_bit := Some 3;
                                  ut_unlock_time := Some ACHIEVEMENT_UNLOCK_TIME_UNKNOWN |}] |}].
Proof. vm_compute. reflexivity. Qed.

Lemma service_entries_report_achievements_witness : ∃ ids entries e,
  achievement_wire_ids iter sample_schema = Some ids ∧ sample_entries = Some entries ∧
  e ∈ entries ∧ reports {| wi_stat_id := 12; wi_achievement_bit := 3 |} true e.
Proof.
  destruct (achievement_wire_ids iter sample_schema) as [ids|] eqn:Ei; [|by vm_compute in Ei].
  destruct sample_entries as [entries|] eqn:Ee; [|by vm_compute in Ee].
  destruct (service_entries_report_achievements iter 480 sample_schema [won] [score; unknown]
    ids entries Ei Ee) with (a := won) (w := {| wi_stat_id := 12; wi_achievement_bit := 3 |})
    as (e & ? & ?).
  - intros i j x y Hx Hy Hij. apply lookup_lt_Some in Hx, Hy. simpl in *. lia.
  - left.
  - done.
  - assert (Hw : (achievement_wire_ids iter sample_schema ≫= λ ids, ids !! "WIN") =
      Some {| wi_stat_id := 12; wi_achievement_bit := 3 |}) by by vm_compute.
    rewrite Ei in Hw. exact Hw.
  - simpl. lia.
  - exists ids, entries, e. auto.
Defined.

Lemma service_entries_sorted_witness : ∃ entries,
  sample_entries = Some entries ∧ NoDup (se_stat_id <$> entries).
Proof.
  destruct sample_entries as [entries|] eqn:Ee; [|by vm_compute in Ee].
  exists entries. split; [done|].
  apply (service_entries_sorted iter 480 sample_schema [won] [score; unknown] entries Ee).
Defined.

Definition sample_request : PlayerGetUserStatsRequest :=
  {| sq_steamid := Some 765; sq_appid := Some 480; sq_sha_schema := None; sq_crc_stats := None;
     sq_crc_schema := None |}.
Definition sample_legacy : ClientGetUserStatsRequest :=
  {| lq_game_id := Some 480; lq_crc_stats := None; lq_schema_local_version := None;
     lq_steam_id_for_user := None |}.
Definition sample_donor : PlayerGetUserStatsResponse :=
  {| sr_sha_schema := Some [1]; sr_crc_stats := None; sr_schema := None; sr_stats := [];
     sr_crc_schema := None |}.
Definition sample_legacy_donor : ClientGetUserStatsResponse :=
  {| lr_game_id := None; lr_eresult := Some 1; lr_crc_stats := None; lr_schema := None;
     lr_stats := []; lr_achievement_blocks := [] |}.
Definition sample_backend : option AppStatsResult :=
  Some (Modified "sha" None [won] [score; unknown]).

Lemma answers_agree_witness :
  match merge_service_response iter toy_encode sample_request sample_donor sample_schema
          sample_backend,
        merge_legacy_response iter toy_encode sample_legacy sample_legacy_donor sample_schema
          sample_backend with
  | Some answer, Some answer' => sr_crc_stats answer = lr_crc_stats answer'
  | None, None => True
  | _, _ => False
  end.
Proof.
  apply (answers_agree iter toy_encode sample_request sample_legacy sample_donor
    sample_legacy_donor sample_schema sample_backend 480); [reflexivity|lia|by vm_compute].
Defined.

Lemma derived_token_answers_condition_witness : ∃ entries answer,
  sample_entries = Some entries ∧
  merge_service_response iter toy_encode sample_request sample_donor sample_schema
    sample_backend = Some answer ∧
  sr_crc_stats answer = Some (stats_crc toy_encode entries).
Proof.
  destruct sample_entries as [entries|] eqn:Ee; [|by vm_compute in Ee].
  destruct (derived_token_answers_condition iter toy_encode sample_request sample_donor
    sample_schema "sha" [won] [score; unknown] entries 480) as (answer & ? & ? & _);
    [reflexivity|lia|exact Ee|].
  exists entries, answer. auto.
Defined.
