(* ===== verification/Apps.v ===== *)
(** * Apps: controlled apps and ownership decisions

    The apps section of the configuration with its lazily built index
    ([crates/config/src/model.rs]) and the account state with the decisions made from
    it ([crates/features/src/apps.rs]). The process-wide [ACCOUNT_STATE] and
    [OWNERSHIP_GENERATION] are one explicit state; the index cache of the section is
    part of its state, because additions update it in place. *)

From Stdlib Require Import ZArith Lia.
From S2P Require Import Prelude.

Local Open Scope Z_scope.

(** ** The apps section of the configuration *)

Inductive TicketMode := Forge | Delegate.

Record InjectApp := {
  ia_id : Z;
  ia_dlc : list Z;
  ia_ticket : TicketMode;
  ia_purchase_time : Z;
}.

Inductive AppCategory := Inject | InjectDlc (parent : Z).

#[export] Instance TicketMode_eq_dec : EqDecision TicketMode.
Proof. solve_decision. Defined.
#[export] Instance InjectApp_eq_dec : EqDecision InjectApp.
Proof. solve_decision. Defined.
#[export] Instance AppCategory_eq_dec : EqDecision AppCategory.
Proof. solve_decision. Defined.

Record SharedSection := { sh_enabled : bool; sh_include : list Z; sh_exclude : list Z }.

Definition shared_default : SharedSection :=
  {| sh_enabled := true; sh_include := []; sh_exclude := [] |}.

(** [SharedSection::allows] *)
Definition allows (s : SharedSection) (app_id : Z) : bool :=
  if negb (sh_enabled s) then false
  else if negb (bool_decide (sh_include s = [])) then bool_decide (app_id ∈ sh_include s)
  else if negb (bool_decide (sh_exclude s = [])) then negb (bool_decide (app_id ∈ sh_exclude s))
  else true.

(** [as_index] is the [OnceLock] of the section. *)
Record AppsSection := {
  as_inject : list InjectApp;
  as_shared : SharedSection;
  as_index : option (gmap Z AppCategory);
}.

(** [entry(key).or_insert(value)] *)
Definition or_insert (key : Z) (value : AppCategory) (index : gmap Z AppCategory)
    : gmap Z AppCategory :=
  match index !! key with Some _ => index | None => <[key := value]> index end.

Definition index_app (index : gmap Z AppCategory) (app : InjectApp) : gmap Z AppCategory :=
  foldl (λ index dlc, or_insert dlc (InjectDlc (ia_id app)) index)
    (or_insert (ia_id app) Inject index) (ia_dlc app).

Definition build_index (apps : list InjectApp) : gmap Z AppCategory := foldl index_app ∅ apps.

(** [app_index]: the map, and the section after [get_or_init] has cached it. *)
Definition app_index (s : AppsSection) : gmap Z AppCategory * AppsSection :=
  match as_index s with
  | Some index => (index, s)
  | None =>
      let index := build_index (as_inject s) in
      (index, {| as_inject := as_inject s; as_shared := as_shared s; as_index := Some index |})
  end.

Definition with_inject (apps : list InjectApp) : AppsSection :=
  (app_index {| as_inject := apps; as_shared := shared_default; as_index := None |}).2.

Definition push_inject (s : AppsSection) (app : InjectApp) : AppsSection :=
  {| as_inject := as_inject s ++ [app]; as_shared := as_shared s;
     as_index := (λ index, index_app index app) <$> as_index s |}.

Definition extend_inject (s : AppsSection) (apps : list InjectApp) : AppsSection :=
  if bool_decide (apps = []) then s
  else {| as_inject := as_inject s ++ apps; as_shared := as_shared s;
          as_index := (λ index, foldl index_app index apps) <$> as_index s |}.

Definition app_category (s : AppsSection) (app_id : Z) : option AppCategory * AppsSection :=
  let '(index, s) := app_index s in (index !! app_id, s).

Definition is_controlled_app (s : AppsSection) (app_id : Z) : bool * AppsSection :=
  let '(index, s) := app_index s in (bool_decide (is_Some (index !! app_id)), s).

(** *** Queries on the list itself *)

Definition find_inject (s : AppsSection) (app_id : Z) : option InjectApp :=
  snd <$> list_find (λ a, ia_id a = app_id) (as_inject s).

Definition purchase_time (s : AppsSection) (app_id : Z) : Z :=
  from_option ia_purchase_time 0 (find_inject s app_id).

Definition ticket_mode (s : AppsSection) (app_id : Z) : TicketMode :=
  from_option ia_ticket Forge (find_inject s app_id).

Definition inject_app_ids (s : AppsSection) : gset Z :=
  foldl (λ ids app, {[ia_id app]} ∪ ids ∪ list_to_set (ia_dlc app)) ∅ (as_inject s).

Definition inject_dlc_map (s : AppsSection) : gmap Z (list Z) :=
  foldl (λ m app, <[ia_id app := ia_dlc app]> m) ∅
    (filter (λ app, ia_dlc app ≠ []) (as_inject s)).

(** ** Account state and ownership *)

Record AccountState := {
  ac_actual_ownership : option (gmap Z bool);
  ac_family_shared : option (gset Z);
  ac_license_sync_complete : bool;
  ac_generation : Z;  (** [OWNERSHIP_GENERATION] *)
}.

Definition account_new : AccountState :=
  {| ac_actual_ownership := None; ac_family_shared := None;
     ac_license_sync_complete := false; ac_generation := 0 |}.

Definition mark_license_sync_complete (a : AccountState) : AccountState :=
  {| ac_actual_ownership := ac_actual_ownership a; ac_family_shared := ac_family_shared a;
     ac_license_sync_complete := true; ac_generation := ac_generation a |}.

Definition reset_account_state (a : AccountState) : AccountState :=
  {| ac_actual_ownership := None; ac_family_shared := None; ac_license_sync_complete := false;
     ac_generation := u64_wrapping_add (ac_generation a) 1 |}.

Inductive OwnershipState := Unknown | Unowned | Owned.

Record OwnershipObservation := {
  ob_original_result : bool;
  ob_owns_license : bool;
  ob_family_shared : bool;
}.

Record OwnershipDecision := {
  de_result : bool;
  de_grant_spoofed_ownership : bool;
  de_clear_family_shared : bool;
}.

Inductive AppAuthority :=
| Uncontrolled
| Controlled (category : AppCategory) (ownership : OwnershipState).

Definition requires_injected_ownership (a : AppAuthority) : bool :=
  match a with Controlled _ (Unknown | Unowned) => true | _ => false end.

Definition requires_injected_library_visibility (a : AppAuthority) : bool :=
  match a with Controlled Inject (Unknown | Unowned) => true | _ => false end.

Definition is_confirmed_unowned (a : AppAuthority) : bool :=
  match a with Controlled _ Unowned => true | _ => false end.

Definition is_controlled (a : AppAuthority) : bool :=
  match a with Controlled _ _ => true | Uncontrolled => false end.

Definition actual_ownership (a : AccountState) (app_id : Z) : OwnershipState :=
  match ac_actual_ownership a ≫= (.!! app_id) with
  | Some true => Owned
  | Some false => Unowned
  | None => Unknown
  end.

(** The set after the call, and whether [insert] or [remove] changed it. *)
Definition record_family_shared (a : AccountState) (app_id : Z) (shared : bool)
    : bool * AccountState :=
  let set := default ∅ (ac_family_shared a) in
  let present := bool_decide (app_id ∈ set) in
  let set' := if shared then {[app_id]} ∪ set else set ∖ {[app_id]} in
  (if shared then negb present else present,
   {| ac_actual_ownership := ac_actual_ownership a; ac_family_shared := Some set';
      ac_license_sync_complete := ac_license_sync_complete a;
      ac_generation := ac_generation a |}).

Definition is_family_shared (a : AccountState) (app_id : Z) : bool :=
  match ac_family_shared a with Some set => bool_decide (app_id ∈ set) | None => false end.

Definition record_actual_ownership (a : AccountState) (app_id : Z) (owned : bool) : AccountState :=
  let ownership := default ∅ (ac_actual_ownership a) in
  {| ac_actual_ownership := Some (<[app_id := owned]> ownership);
     ac_family_shared := ac_family_shared a;
     ac_license_sync_complete := ac_license_sync_complete a;
     ac_generation :=
       if bool_decide (ownership !! app_id = Some owned) then ac_generation a
       else u64_wrapping_add (ac_generation a) 1 |}.

Definition original_result_is_genuinely_owned (o : OwnershipObservation) : bool :=
  ob_original_result o && ob_owns_license o.

Definition record_original_observation (a : AccountState) (app_id : Z) (o : OwnershipObservation)
    : AccountState :=
  let genuine := original_result_is_genuinely_owned o in
  (record_family_shared (record_actual_ownership a app_id genuine) app_id
     (genuine && ob_family_shared o)).2.

Definition classify_app_with_ownership (s : AppsSection) (app_id : Z)
    (ownership : Z → OwnershipState) : AppAuthority :=
  match (app_category s app_id).1 with
  | Some category => Controlled category (ownership app_id)
  | None => Uncontrolled
  end.

Definition classify_app (s : AppsSection) (a : AccountState) (app_id : Z) : AppAuthority :=
  classify_app_with_ownership s app_id (actual_ownership a).

Definition decide_check_ownership (s : AppsSection) (a : AccountState) (app_id : Z)
    (o : OwnershipObservation) : OwnershipDecision :=
  if (is_controlled_app s app_id).1 && (negb (ob_original_result o) || negb (ob_owns_license o))
  then
    if negb (ac_license_sync_complete a)
    then {| de_result := ob_original_result o; de_grant_spoofed_ownership := false;
            de_clear_family_shared := false |}
    else {| de_result := true; de_grant_spoofed_ownership := true;
            de_clear_family_shared := false |}
  else
    {| de_result := ob_original_result o; de_grant_spoofed_ownership := false;
       de_clear_family_shared :=
         allows (as_shared s) app_id && ob_original_result o && ob_family_shared o |}.

(** ** The list of subscribed apps *)

(** The loop that appends the controlled apps Steam did not report. *)
Fixpoint append_inject (ids : list Z) (app_list : list Z) (count : nat) : list Z * nat :=
  match ids with
  | [] => (app_list, count)
  | app_id :: ids =>
      if bool_decide (app_id ∈ take count app_list) then append_inject ids app_list count
      else if (count <? length app_list)%nat
      then append_inject ids (<[count := app_id]> app_list) (S count)
      else append_inject ids app_list count
  end.

(** The count returned, the buffer and the account state afterwards. *)
Definition on_get_subscribed_apps (s : AppsSection) (a : AccountState) (app_list : list Z)
    (original_count : Z) : Z * list Z * AccountState :=
  let a := mark_license_sync_complete a in
  let count := Z.to_nat original_count in
  if (length app_list <? count)%nat then (original_count, app_list, a)
  else
    let '(filled, count) := append_inject (ia_id <$> as_inject s) app_list count in
    (as_u32 (Z.of_nat count), take count filled ++ replicate (length filled - count) 0, a).

Definition get_subscribed_count_adjustment (s : AppsSection) (pkg0_injected : bool) : Z :=
  if pkg0_injected then 0 else as_u32 (Z.of_nat (length (as_inject s))).

(** * Properties *)

(** ** The index is the list *)

(** The reference: the first entry of the list that mentions the app decides. *)
Fixpoint category_of (apps : list InjectApp) (app_id : Z) : option AppCategory :=
  match apps with
  | [] => None
  | app :: apps =>
      if decide (app_id = ia_id app) then Some Inject
      else if decide (app_id ∈ ia_dlc app) then Some (InjectDlc (ia_id app))
      else category_of apps app_id
  end.

Lemma lookup_or_insert key value index k :
  or_insert key value index !! k =
  match index !! k with
  | Some c => Some c
  | None => if decide (k = key) then Some value else None
  end.
Proof.
  unfold or_insert. destruct (index !! key) eqn:Hk.
  - destruct (decide (k = key)) as [->|]; [by rewrite Hk|by destruct (index !! k)].
  - destruct (decide (k = key)) as [->|]; [by rewrite lookup_insert_eq, Hk|].
    rewrite lookup_insert_ne by done. by destruct (index !! k).
Qed.

Lemma lookup_index_dlcs dlcs value index k :
  foldl (λ index dlc, or_insert dlc value index) index dlcs !! k =
  match index !! k with
  | Some c => Some c
  | None => if decide (k ∈ dlcs) then Some value else None
  end.
Proof.
  revert index. induction dlcs as [|d dlcs IH]; intros index; simpl.
  { by destruct (index !! k). }
  rewrite IH, lookup_or_insert. destruct (index !! k); [done|].
  destruct (decide (k = d)) as [->|]; [by rewrite decide_True by left|].
  apply decide_ext. rewrite elem_of_cons. naive_solver.
Qed.

Lemma lookup_index_app index app k :
  index_app index app !! k =
  match index !! k with Some c => Some c | None => category_of [app] k end.
Proof.
  unfold index_app. rewrite lookup_index_dlcs, lookup_or_insert. simpl.
  destruct (index !! k); [done|]. by destruct (decide (k = ia_id app)).
Qed.

Lemma category_of_app apps apps' k :
  category_of (apps ++ apps') k =
  match category_of apps k with Some c => Some c | None => category_of apps' k end.
Proof. induction apps as [|app apps IH]; simpl; [done|]. by repeat case_decide. Qed.

Lemma lookup_index_apps index apps k :
  foldl index_app index apps !! k =
  match index !! k with Some c => Some c | None => category_of apps k end.
Proof.
  revert index. induction apps as [|app apps IH]; intros index.
  { simpl. by destruct (index !! k). }
  simpl foldl. rewrite IH, lookup_index_app.
  destruct (index !! k); [done|]. by rewrite <-(category_of_app [app] apps).
Qed.

(** The cached index, when there is one, answers like the list. *)
Definition index_ok (s : AppsSection) : Prop :=
  ∀ index, as_index s = Some index → ∀ k, index !! k = category_of (as_inject s) k.

Lemma app_index_ok s :
  index_ok s →
  index_ok (app_index s).2 ∧ as_inject (app_index s).2 = as_inject s ∧
  ∀ k, (app_index s).1 !! k = category_of (as_inject s) k.
Proof.
  intros Hs. unfold app_index. destruct (as_index s) as [index|] eqn:Hi; simpl; [by auto|].
  assert (Hb : ∀ k, build_index (as_inject s) !! k = category_of (as_inject s) k).
  { intros k. unfold build_index. by rewrite lookup_index_apps, lookup_empty. }
  split_and!; [|done|done]. by intros index [= <-].
Qed.

Lemma push_inject_ok s app : index_ok s → index_ok (push_inject s app).
Proof.
  intros Hs index. simpl. destruct (as_index s) as [i|] eqn:Hi; [|done].
  intros [= <-] k. by rewrite lookup_index_app, category_of_app, (Hs i).
Qed.

Lemma extend_inject_ok s apps : index_ok s → index_ok (extend_inject s apps).
Proof.
  intros Hs index. unfold extend_inject. case_bool_decide; [apply Hs|]. simpl.
  destruct (as_index s) as [i|] eqn:Hi; [|done].
  intros [= <-] k. by rewrite lookup_index_apps, category_of_app, (Hs i).
Qed.

(** The calls that can change a section: queries fill the cache, additions update it. *)
Inductive SectionCall := Query (app_id : Z) | Push (app : InjectApp) | Extend (apps : list InjectApp).

Definition section_call (s : AppsSection) (c : SectionCall) : AppsSection :=
  match c with
  | Query app_id => (app_category s app_id).2
  | Push app => push_inject s app
  | Extend apps => extend_inject s apps
  end.

Lemma app_category_snd s k : (app_category s k).2 = (app_index s).2.
Proof. unfold app_category. by destruct (app_index s). Qed.

Lemma section_calls_ok s calls : index_ok s → index_ok (foldl section_call s calls).
Proof.
  revert s. induction calls as [|c calls IH]; intros s Hs; [done|]. simpl. apply IH.
  destruct c; simpl; [|by apply push_inject_ok|by apply extend_inject_ok].
  rewrite app_category_snd. by apply app_index_ok.
Qed.

Lemma elem_of_inject_app_ids s k :
  k ∈ inject_app_ids s ↔ is_Some (category_of (as_inject s) k).
Proof.
  unfold inject_app_ids.
  assert (Hgen : ∀ apps ids,
    k ∈ foldl (λ ids app, {[ia_id app]} ∪ ids ∪ list_to_set (ia_dlc app)) ids apps ↔
    k ∈ (ids : gset Z) ∨ is_Some (category_of apps k)).
  { induction apps as [|app apps IH]; intros ids; simpl.
    { rewrite is_Some_alt. naive_solver. }
    rewrite IH, !elem_of_union, elem_of_singleton, elem_of_list_to_set.
    repeat case_decide; naive_solver. }
  rewrite Hgen. set_solver.
Qed.

(** [app_index_correct]: however queries and additions are interleaved, with or without
    a cache in between, looking an app up gives what the first entry of the list that
    mentions it says, and an app is controlled exactly when some entry mentions it. *)
Theorem app_index_correct apps shared calls app_id :
  let start := {| as_inject := apps; as_shared := shared; as_index := None |} in
  let s := foldl section_call start calls in
  (app_category s app_id).1 = category_of (as_inject s) app_id ∧
  ((is_controlled_app s app_id).1 = true ↔ app_id ∈ inject_app_ids s).
Proof.
  intros start s. assert (Hs : index_ok s) by (by apply section_calls_ok).
  destruct (app_index_ok s Hs) as (_ & _ & Hk).
  unfold app_category, is_controlled_app. destruct (app_index s) as [index s'] eqn:E. simpl in *.
  split; [done|]. by rewrite bool_decide_eq_true, Hk, elem_of_inject_app_ids.
Qed.

(** ** Ownership decisions over a run of the client *)

Inductive AccountCall :=
| ResetAccount
| SubscribedApps (app_list : list Z) (original_count : Z)
| Observe (app_id : Z) (o : OwnershipObservation).

Definition account_call (s : AppsSection) (a : AccountState) (c : AccountCall) : AccountState :=
  match c with
  | ResetAccount => reset_account_state a
  | SubscribedApps app_list original_count =>
      (on_get_subscribed_apps s a app_list original_count).2
  | Observe app_id o => record_original_observation a app_id o
  end.

Definition account_run (s : AppsSection) (calls : list AccountCall) : AccountState :=
  foldl (account_call s) account_new calls.

Definition resets (c : AccountCall) : Prop := c = ResetAccount.
Definition settles (app_id : Z) (c : AccountCall) : Prop :=
  c = ResetAccount ∨ ∃ o, c = Observe app_id o.

(** Some call that satisfies [P] is followed by none that satisfies [Q]. *)
Definition last_since {A} (P Q : A → Prop) (l : list A) : Prop :=
  ∃ before c after, l = before ++ c :: after ∧ P c ∧ Forall (λ d, ¬ Q d) after.

Lemma last_since_snoc {A} (P Q : A → Prop) l c :
  last_since P Q (l ++ [c]) ↔ P c ∨ (last_since P Q l ∧ ¬ Q c).
Proof.
  split.
  - intros (before & d & after & Heq & HP & HQ).
    destruct after as [|e after] using rev_ind.
    + apply app_inj_tail in Heq as [_ ->]. by left.
    + rewrite app_comm_cons, app_assoc in Heq. apply app_inj_tail in Heq as [-> ->].
      apply Forall_app in HQ as [HQ Hc]. rewrite Forall_singleton in Hc. right. split; [|exact Hc].
      by exists before, d, after.
  - intros [HP|[(before & d & after & -> & HP & HQ) Hc]].
    + by exists l, c, [].
    + exists before, d, (after ++ [c]). rewrite <-app_assoc. split_and!; [done|done|].
      apply Forall_app. by rewrite Forall_singleton.
Qed.

Lemma last_since_nil {A} (P Q : A → Prop) : ¬ last_since P Q [].
Proof. intros (before & c & after & Heq & _). by destruct before. Qed.

Lemma on_get_subscribed_apps_account s a l n :
  (on_get_subscribed_apps s a l n).2 = mark_license_sync_complete a.
Proof.
  unfold on_get_subscribed_apps. destruct (_ <? _)%nat; [done|].
  by destruct (append_inject (ia_id <$> as_inject s) l (Z.to_nat n)).
Qed.

Lemma license_sync_spec s calls :
  ac_license_sync_complete (account_run s calls) = true ↔
  last_since (λ c, ∃ l n, c = SubscribedApps l n) resets calls.
Proof.
  unfold account_run. induction calls as [|c calls IH] using rev_ind.
  { split; [done|]. intros H. by apply last_since_nil in H. }
  rewrite foldl_snoc, last_since_snoc. unfold resets. destruct c as [|l n|app o]; simpl.
  - naive_solver.
  - rewrite on_get_subscribed_apps_account. simpl. naive_solver.
  - rewrite IH. naive_solver.
Qed.

Lemma actual_ownership_record a app owned k :
  actual_ownership (record_actual_ownership a app owned) k =
  if decide (k = app) then (if owned then Owned else Unowned) else actual_ownership a k.
Proof.
  unfold actual_ownership, record_actual_ownership. simpl.
  destruct (decide (k = app)) as [->|]; [by rewrite lookup_insert_eq; destruct owned|].
  rewrite lookup_insert_ne by done. by destruct (ac_actual_ownership a).
Qed.

Lemma ownership_spec s calls app :
  actual_ownership (account_run s calls) app = Owned ↔
  last_since (λ c, ∃ o, c = Observe app o ∧ original_result_is_genuinely_owned o = true)
    (settles app) calls.
Proof.
  unfold account_run. induction calls as [|c calls IH] using rev_ind.
  { split; [done|]. intros H. by apply last_since_nil in H. }
  rewrite foldl_snoc, last_since_snoc. unfold settles. destruct c as [|l n|app' o]; simpl.
  - naive_solver.
  - rewrite on_get_subscribed_apps_account.
    change (actual_ownership (mark_license_sync_complete ?a)) with (actual_ownership a).
    rewrite IH. naive_solver.
  - unfold record_original_observation.
    change (actual_ownership (record_family_shared ?a ?x ?b).2) with (actual_ownership a).
    rewrite actual_ownership_record. destruct (decide (app = app')) as [->|].
    + destruct (original_result_is_genuinely_owned o) eqn:Hg; [split; [|done]; eauto|].
      split; [done|]. intros [(o' & [= <-] & Ho)|[_ Hn]]; [congruence|].
      exfalso. apply Hn. eauto.
    + rewrite IH. naive_solver.
Qed.

Lemma is_controlled_app_spec s app :
  index_ok s → (is_controlled_app s app).1 = true ↔ app ∈ inject_app_ids s.
Proof.
  intros Hs. destruct (app_index_ok s Hs) as (_ & _ & Hk). unfold is_controlled_app.
  destruct (app_index s) as [index s']. simpl in *.
  by rewrite bool_decide_eq_true, Hk, elem_of_inject_app_ids.
Qed.

Lemma decide_check_ownership_spec s a app o :
  let d := decide_check_ownership s a app o in
  de_grant_spoofed_ownership d =
    (is_controlled_app s app).1 && negb (original_result_is_genuinely_owned o) &&
    ac_license_sync_complete a ∧
  de_result d = ob_original_result o || de_grant_spoofed_ownership d ∧
  (de_clear_family_shared d = true →
     ob_original_result o = true ∧ ob_family_shared o = true ∧ allows (as_shared s) app = true).
Proof.
  unfold decide_check_ownership, original_result_is_genuinely_owned.
  destruct (is_controlled_app s app).1, o as [[] [] []], (ac_license_sync_complete a),
    (allows (as_shared s) app); by simpl.
Qed.

Lemma classify_app_spec s a app :
  index_ok s →
  requires_injected_ownership (classify_app s a app) = true ↔
  is_Some (category_of (as_inject s) app) ∧ actual_ownership a app ≠ Owned.
Proof.
  intros Hs. destruct (app_index_ok s Hs) as (_ & _ & Hk).
  unfold classify_app, classify_app_with_ownership, app_category.
  destruct (app_index s) as [index s']. simpl in *. rewrite Hk.
  destruct (category_of (as_inject s) app); simpl.
  - destruct (actual_ownership a app); naive_solver.
  - split; [done|]. by intros [[] _].
Qed.

(** [ownership_decisions]: during a run, ownership is spoofed for an observation exactly
    when the app is controlled, the observation is not a genuine license and Steam has
    reported its subscriptions since the account last changed; a positive answer of
    Steam is never turned into a negative one; and an app needs injected ownership
    exactly when it is controlled and the latest observation of it in this account was
    not genuine. *)
Theorem ownership_decisions s calls app o (Hs : index_ok s) :
  let a := account_run s calls in
  let d := decide_check_ownership s a app o in
  (de_grant_spoofed_ownership d = true ↔
     app ∈ inject_app_ids s ∧ original_result_is_genuinely_owned o = false ∧
     last_since (λ c, ∃ l n, c = SubscribedApps l n) resets calls) ∧
  de_result d = ob_original_result o || de_grant_spoofed_ownership d ∧
  (de_clear_family_shared d = true →
     ob_original_result o = true ∧ ob_family_shared o = true ∧ allows (as_shared s) app = true) ∧
  (requires_injected_ownership (classify_app s a app) = true ↔
     app ∈ inject_app_ids s ∧
     ¬ last_since (λ c, ∃ o, c = Observe app o ∧ original_result_is_genuinely_owned o = true)
         (settles app) calls).
Proof.
  intros a d. rewrite <-(license_sync_spec s), <-(ownership_spec s), <-is_controlled_app_spec by done.
  fold a. destruct (decide_check_ownership_spec s a app o) as (Hg & Hr & Hc). fold d in Hg, Hr, Hc.
  split_and!; [|done|done|].
  - rewrite Hg, !andb_true_iff, negb_true_iff. tauto.
  - rewrite classify_app_spec, is_controlled_app_spec, elem_of_inject_app_ids by done. done.
Qed.

(** ** The list of subscribed apps *)

(** The ids to append after those already listed: first occurrences only. *)
Fixpoint fresh_ids (listed ids : list Z) : list Z :=
  match ids with
  | [] => []
  | app_id :: ids =>
      if decide (app_id ∈ listed) then fresh_ids listed ids
      else app_id :: fresh_ids (listed ++ [app_id]) ids
  end.

Lemma fresh_ids_spec listed ids :
  NoDup (fresh_ids listed ids) ∧ ∀ k, k ∈ fresh_ids listed ids ↔ k ∈ ids ∧ k ∉ listed.
Proof.
  revert listed. induction ids as [|i ids IH]; intros listed; simpl.
  { split; [constructor|]. intros k. rewrite !elem_of_nil. tauto. }
  case_decide as Hi.
  - destruct (IH listed) as [Hn Hk]. split; [done|]. intros k. rewrite Hk, elem_of_cons. naive_solver.
  - destruct (IH (listed ++ [i])) as [Hn Hk]. split.
    + constructor; [|done]. rewrite Hk, elem_of_app, list_elem_of_singleton. tauto.
    + intros k. rewrite !elem_of_cons, Hk, elem_of_app, list_elem_of_singleton.
      destruct (decide (k = i)); naive_solver.
Qed.

(** A full buffer takes nothing more. *)
Lemma append_inject_full ids l count :
  (length l ≤ count)%nat → append_inject ids l count = (l, count).
Proof.
  intros Hc. induction ids as [|i ids IH]; simpl; [done|].
  case_bool_decide; [done|]. rewrite (proj2 (Nat.ltb_ge _ _)) by done. done.
Qed.

Lemma append_inject_spec ids listed rest :
  append_inject ids (listed ++ rest) (length listed) =
  let added := take (length rest) (fresh_ids listed ids) in
  (listed ++ added ++ drop (length added) rest, (length listed + length added)%nat).
Proof.
  revert listed rest. induction ids as [|i ids IH]; intros listed rest; simpl.
  { by rewrite take_nil, Nat.add_0_r. }
  rewrite take_app_length. case_bool_decide as Hi; [by rewrite IH, decide_True|].
  rewrite decide_False by done. destruct rest as [|r rest].
  { rewrite app_nil_r, (proj2 (Nat.ltb_ge _ _)) by lia.
    rewrite append_inject_full by lia. simpl. by rewrite app_nil_r, Nat.add_0_r. }
  rewrite (proj2 (Nat.ltb_lt _ _)) by (rewrite length_app; simpl; lia).
  rewrite <-(Nat.add_0_r (length listed)) at 1.
  rewrite insert_app_r. simpl.
  replace (listed ++ i :: rest) with ((listed ++ [i]) ++ rest) by by rewrite <-app_assoc.
  replace (S (length listed)) with (length (listed ++ [i])) by (rewrite length_app; simpl; lia).
  rewrite IH. simpl. rewrite <-app_assoc, length_app. simpl. f_equal. lia.
Qed.

(** [subscribed_apps_spec]: the buffer handed back starts with the entries Steam
    reported, then holds the controlled apps Steam did not report, each once and as many
    as fit, and zeros after them; the count returned is the number of entries before
    the zeros. When Steam asks for a larger buffer nothing is written. Either way the
    account counts as synchronized. *)
Theorem subscribed_apps_spec s a app_list original_count
    (Hlen : Z.of_nat (length app_list) ≤ u32_max) (Hc : in_u32 original_count) :
  let n := Z.to_nat original_count in
  let '(count, buffer, a') := on_get_subscribed_apps s a app_list original_count in
  ac_license_sync_complete a' = true ∧
  ((length app_list < n)%nat → count = original_count ∧ buffer = app_list) ∧
  ((n ≤ length app_list)%nat →
   ∃ added,
     buffer = take n app_list ++ added ++
       replicate (length app_list - (n + length added)) 0 ∧
     count = Z.of_nat (n + length added) ∧ (n + length added ≤ length app_list)%nat ∧
     NoDup added ∧ (∀ k, k ∈ added → k ∈ ia_id <$> as_inject s ∧ k ∉ take n app_list) ∧
     ((n + length added < length app_list)%nat →
      ∀ k, k ∈ ia_id <$> as_inject s → k ∈ take n app_list ++ added)).
Proof.
  intros n. unfold on_get_subscribed_apps. fold n.
  destruct (Nat.ltb_spec (length app_list) n) as [Hn|Hn].
  { split_and!; [done|done|lia]. }
  set (ids := ia_id <$> as_inject s). set (listed := take n app_list).
  assert (Hl : length listed = n) by (unfold listed; rewrite length_take; lia).
  pose proof (append_inject_spec ids listed (drop n app_list)) as Happ.
  unfold listed in Happ at 1. rewrite take_drop, Hl in Happ. rewrite Happ. clear Happ.
  destruct (fresh_ids_spec listed ids) as [Hnd Helem].
  set (added := take (length (drop n app_list)) (fresh_ids listed ids)).
  assert (Hadd : (n + length added ≤ length app_list)%nat)
    by (unfold added; rewrite length_take, length_drop; lia).
  split_and!; [done|lia|]. intros _. exists added. split_and!.
  - rewrite !length_app, length_drop, length_drop, Hl.
    rewrite app_assoc, take_app_length' by (rewrite length_app; lia).
    rewrite <-app_assoc. do 3 f_equal. lia.
  - unfold as_u32. apply Z.mod_small. unfold u32_max in *. lia.
  - done.
  - rewrite <-(take_drop (length (drop n app_list)) (fresh_ids listed ids)) in Hnd.
    apply NoDup_app in Hnd. apply Hnd.
  - intros k Hk. apply Helem.
    rewrite <-(take_drop (length (drop n app_list)) (fresh_ids listed ids)). apply elem_of_app. by left.
  - intros Hroom k Hk. assert (Hall : added = fresh_ids listed ids).
    { unfold added in *. rewrite length_take in Hroom. rewrite take_ge; [done|].
      rewrite length_drop in *. lia. }
    rewrite Hall, elem_of_app, Helem. destruct (decide (k ∈ listed)); auto.
Qed.
