(* ===== verification/PlaytimeDownlink.v ===== *)
(** * PlaytimeDownlink: backend playtime on its way into Steam

    [crates/hooks/src/client/playtime_downlink.rs]: the cache filled by a backend's
    event stream, what the packet rewriter knows about playtime, and the rewriting of
    Steam's last-played-times messages. The global cache is an explicit state; the
    reads of process-wide state (the current runtime key) are arguments. Protobuf
    encoding and decoding is prost's and a parameter. *)

From Stdlib Require Import ZArith Lia.
From S2P Require Import Prelude RustStd CloudCore SteamProtocol Apps.

Local Open Scope Z_scope.

(** ** Data *)

Record RuntimeKey := {
  rk_credential_fingerprint : string;
  rk_steam_id64 : Z;
  rk_identity_generation : Z;
  rk_client_id : Z;
  rk_runtime_generation : Z;
}.

Record CachedPlaytime := {
  cp_app_id : Z;
  cp_playtime_minutes : Z;
  cp_playtime_2weeks_minutes : Z;
  cp_last_played_at : option Z;
}.

#[export] Instance RuntimeKey_eq_dec : EqDecision RuntimeKey.
Proof. solve_decision. Defined.
#[export] Instance CachedPlaytime_eq_dec : EqDecision CachedPlaytime.
Proof. solve_decision. Defined.

Record PlaytimeCache := {
  pc_key : option RuntimeKey;
  pc_revision : Z;
  pc_games : gmap Z CachedPlaytime;
}.

(** [PlaytimeCache::clear], which is also [reset_account_state] *)
Definition cache_clear : PlaytimeCache :=
  {| pc_key := None; pc_revision := 0; pc_games := ∅ |}.

Record AccountPlaytimeSnapshot := {
  ps_steam_id64 : string;
  ps_playtime_revision : Z;
  ps_origin_client_id : option string;
  ps_playtime : list PlaytimeEntry;
}.

(** The protobuf message of one game. *)
Record PlayerLastPlayedGame := {
  lg_app_id : option Z;
  lg_last_playtime : option Z;
  lg_playtime_2weeks : option Z;
  lg_playtime_forever : option Z;
  lg_first_playtime : option Z;
  lg_playtime_windows_forever : option Z;
  lg_playtime_mac_forever : option Z;
  lg_playtime_linux_forever : option Z;
  lg_first_windows_playtime : option Z;
  lg_first_mac_playtime : option Z;
  lg_first_linux_playtime : option Z;
  lg_last_windows_playtime : option Z;
  lg_last_mac_playtime : option Z;
  lg_last_linux_playtime : option Z;
  lg_playtime_disconnected : option Z;
  lg_playtime_deck_forever : option Z;
  lg_first_deck_playtime : option Z;
  lg_last_deck_playtime : option Z;
}.

(** ** Single entries *)

Definition saturating_i32 (value : Z) : Z := if value <=? i32_max then value else i32_max.

Definition cached_entry (entry : PlaytimeEntry) : option CachedPlaytime :=
  if (pe_app_id entry =? 0) || match pe_last_played_at entry with
                               | Some value => value <? 0
                               | None => false
                               end
  then None
  else Some {| cp_app_id := pe_app_id entry;
               cp_playtime_minutes := pe_playtime_minutes entry;
               cp_playtime_2weeks_minutes := pe_playtime_2weeks_minutes entry;
               cp_last_played_at := pe_last_played_at entry |}.

Definition steam_game (entry : CachedPlaytime) : option PlayerLastPlayedGame :=
  if cp_app_id entry <=? i32_max
  then Some {|
    lg_app_id := Some (cp_app_id entry);
    lg_last_playtime :=
      match cp_last_played_at entry with
      | Some value => if (0 <=? value) && (value <=? u32_max) then Some value else None
      | None => None
      end;
    lg_playtime_2weeks := Some (saturating_i32 (cp_playtime_2weeks_minutes entry));
    lg_playtime_forever := Some (saturating_i32 (cp_playtime_minutes entry));
    lg_first_playtime := None;
    lg_playtime_windows_forever := None;
    lg_playtime_mac_forever := None;
    lg_playtime_linux_forever := None;
    lg_first_windows_playtime := None;
    lg_first_mac_playtime := None;
    lg_first_linux_playtime := None;
    lg_last_windows_playtime := None;
    lg_last_mac_playtime := None;
    lg_last_linux_playtime := None;
    lg_playtime_disconnected := None;
    lg_playtime_deck_forever := None;
    lg_first_deck_playtime := None;
    lg_last_deck_playtime := None |}
  else None.

Definition same_steam_game (left right : PlayerLastPlayedGame) : bool :=
  bool_decide (lg_app_id left = lg_app_id right) &&
  bool_decide (lg_last_playtime left = lg_last_playtime right) &&
  bool_decide (lg_playtime_2weeks left = lg_playtime_2weeks right) &&
  bool_decide (lg_playtime_forever left = lg_playtime_forever right) &&
  bool_decide (lg_first_playtime left = lg_first_playtime right) &&
  bool_decide (lg_playtime_windows_forever left = lg_playtime_windows_forever right) &&
  bool_decide (lg_playtime_mac_forever left = lg_playtime_mac_forever right) &&
  bool_decide (lg_playtime_linux_forever left = lg_playtime_linux_forever right) &&
  bool_decide (lg_first_windows_playtime left = lg_first_windows_playtime right) &&
  bool_decide (lg_first_mac_playtime left = lg_first_mac_playtime right) &&
  bool_decide (lg_first_linux_playtime left = lg_first_linux_playtime right) &&
  bool_decide (lg_last_windows_playtime left = lg_last_windows_playtime right) &&
  bool_decide (lg_last_mac_playtime left = lg_last_mac_playtime right) &&
  bool_decide (lg_last_linux_playtime left = lg_last_linux_playtime right) &&
  bool_decide (lg_playtime_disconnected left = lg_playtime_disconnected right) &&
  bool_decide (lg_playtime_deck_forever left = lg_playtime_deck_forever right) &&
  bool_decide (lg_first_deck_playtime left = lg_first_deck_playtime right) &&
  bool_decide (lg_last_deck_playtime left = lg_last_deck_playtime right).

Definition requires_backend_playtime (s : AppsSection) (a : AccountState) (app_id : Z) : bool :=
  negb (app_id =? 0) && requires_injected_ownership (classify_app s a app_id).

(** ** The cache *)

Definition playtime_games (entries : list PlaytimeEntry) : gmap Z CachedPlaytime :=
  foldl (λ games entry, <[cp_app_id entry := entry]> games) ∅ (omap cached_entry entries).

Section cache.
(** [HashMap::values] in the order the map iterates. *)
Context (hash_values : gmap Z CachedPlaytime → list CachedPlaytime).

Definition store_backend_playtime (cache : PlaytimeCache) (key : RuntimeKey) (revision : Z)
    (entries : list PlaytimeEntry) : option (list CachedPlaytime) * PlaytimeCache :=
  let games := playtime_games entries in
  if bool_decide (pc_key cache = Some key) && negb (revision =? 0) &&
     negb (pc_revision cache =? 0) && (revision <=? pc_revision cache)
  then (None, cache)
  else
    let changed :=
      if bool_decide (pc_key cache = Some key)
      then filter (λ entry, pc_games cache !! cp_app_id entry ≠ Some entry) (hash_values games)
      else hash_values games in
    (Some changed, {| pc_key := Some key; pc_revision := revision; pc_games := games |}).
End cache.

(** ** What is known *)

Inductive PlaytimeView := Cold | Known (games : gmap Z CachedPlaytime).

Definition playtime_view (current_runtime_key : option RuntimeKey) (cache : PlaytimeCache)
    : PlaytimeView :=
  match current_runtime_key with
  | None => Cold
  | Some key => if bool_decide (pc_key cache = Some key) then Known (pc_games cache) else Cold
  end.

(** The folder backend as the rewriter uses it. *)
Record OpenedBackend := {
  ob_credential_fingerprint : string;
  ob_pull_playtime : string → result BackendError (list PlaytimeEntry);
}.

(** [key_before] and [key_after] are the current runtime key at the start and after
    the folder was read, [config_current] whether the configuration is still the
    published one then. *)
Definition response_playtime_view (local_cloud_configured : bool)
    (key_before key_after : option RuntimeKey) (config_current : bool)
    (opened : result BackendError OpenedBackend) (cache : PlaytimeCache) : PlaytimeView :=
  if negb local_cloud_configured then playtime_view key_before cache
  else
    match key_before with
    | None => Cold
    | Some key =>
        match opened with
        | Err _ => Cold
        | Ok backend =>
            if negb (bool_decide (ob_credential_fingerprint backend = rk_credential_fingerprint key))
            then Cold
            else
              match ob_pull_playtime backend (bytes_str (dec_text (rk_steam_id64 key))) with
              | Err _ => Cold
              | Ok entries =>
                  if negb (bool_decide (key_after = Some key)) || negb config_current then Cold
                  else Known (playtime_games entries)
              end
        end
    end.

(** ** Rewriting *)

Definition game_app_id (game : PlayerLastPlayedGame) : option Z :=
  match lg_app_id game with
  | Some value => if 0 <? value then Some value else None
  | None => None
  end.

Section rewrite.
Context (requires : Z → bool).

(** The loop over Steam's entries: the rewritten list, the backend apps seen and
    whether anything changed; [None] when an overlay cannot be encoded. *)
Fixpoint overlay_loop (backend : gmap Z CachedPlaytime) (games rewritten : list PlayerLastPlayedGame)
    (seen : gset Z) (changed : bool)
    : option (list PlayerLastPlayedGame * gset Z * bool) :=
  match games with
  | [] => Some (rewritten, seen, changed)
  | game :: games =>
      match game_app_id game with
      | None => overlay_loop backend games (rewritten ++ [game]) seen changed
      | Some app_id =>
          if negb (requires app_id)
          then overlay_loop backend games (rewritten ++ [game]) seen changed
          else
            match backend !! app_id with
            | Some entry =>
                match steam_game entry with
                | None => None
                | Some overlay =>
                    overlay_loop backend games (rewritten ++ [overlay]) ({[app_id]} ∪ seen)
                      (changed || negb (same_steam_game overlay game))
                end
            | None => overlay_loop backend games rewritten seen true
            end
      end
  end.

Fixpoint append_missing_games (missing : list CachedPlaytime) (rewritten : list PlayerLastPlayedGame)
    (changed : bool) : option (list PlayerLastPlayedGame * bool) :=
  match missing with
  | [] => Some (rewritten, changed)
  | entry :: missing =>
      match steam_game entry with
      | None => None
      | Some game => append_missing_games missing (rewritten ++ [game]) true
      end
  end.

Definition overlay_games (games : list PlayerLastPlayedGame) (view : PlaytimeView)
    (append_missing : bool) : option (list PlayerLastPlayedGame) :=
  match view with
  | Cold => None
  | Known backend =>
      let backend_games := filter (λ kv, requires kv.1) backend in
      '(rewritten, seen, changed) ← overlay_loop backend_games games [] ∅ false;
      '(rewritten, changed) ←
        (if append_missing
         then append_missing_games
                (btree_values (filter (λ kv, kv.1 ∉ seen) backend_games)) rewritten changed
         else Some (rewritten, changed));
      if negb changed then None else Some rewritten
  end.

(** prost's coding of the two messages that carry the games *)
Context (decode : list Z → option (list PlayerLastPlayedGame))
  (encode : list PlayerLastPlayedGame → list Z).

Definition rewrite_response_with (body : list Z) (view : PlaytimeView) : option (list Z) :=
  games ← decode body;
  games ← overlay_games games view true;
  Some (encode games).

Definition rewrite_notification_with (body : list Z) (view : PlaytimeView) : option (list Z) :=
  games ← decode body;
  games ← overlay_games games view false;
  Some (encode games).

(** prost's coding of the packet header, of which two fields are set *)
Context (encode_header : Z → string → list Z)
  (hash_values : gmap Z CachedPlaytime → list CachedPlaytime).

Definition EMSG_SERVICE_METHOD_SEND_TO_CLIENT : Z := 152.
Definition LAST_PLAYED_TIMES_NOTIFICATION_JOB_NAME : string :=
  "PlayerClient.NotifyLastPlayedTimes#1".

Definition build_notification_packet (steam_id64 : Z) (games : list PlayerLastPlayedGame)
    : option (list Z) :=
  if (steam_id64 =? 0) || bool_decide (games = []) then None
  else
    Some (assemble_raw (Z.lor EMSG_SERVICE_METHOD_SEND_TO_CLIENT K_MSG_HDR_PROTO_FLAG)
            (encode_header steam_id64 LAST_PLAYED_TIMES_NOTIFICATION_JOB_NAME)
            (encode games)).

Definition apply_stream_snapshot (cache : PlaytimeCache) (key : RuntimeKey)
    (snapshot : AccountPlaytimeSnapshot) : option (list Z) * PlaytimeCache :=
  match store_backend_playtime hash_values cache key (ps_playtime_revision snapshot)
          (ps_playtime snapshot) with
  | (None, cache) => (None, cache)
  | (Some changed, cache) =>
      let games := omap steam_game (filter (λ entry, requires (cp_app_id entry)) changed) in
      if bool_decide (games = []) then (None, cache)
      else (build_notification_packet (rk_steam_id64 key) games, cache)
  end.
End rewrite.

(** * Properties *)

#[export] Instance PlayerLastPlayedGame_eq_dec : EqDecision PlayerLastPlayedGame.
Proof. solve_decision. Defined.

(** The field-by-field comparison compares every field. *)
Lemma same_steam_game_eq l r : same_steam_game l r = bool_decide (l = r).
Proof.
  unfold same_steam_game. destruct (decide (l = r)) as [->|Hne].
  - rewrite (bool_decide_true (r = r)) by done. by rewrite !bool_decide_true by done.
  - rewrite (bool_decide_false (l = r)) by done. apply not_true_is_false. intros H.
    apply Hne. rewrite !andb_true_iff, !bool_decide_eq_true in H. destruct_and?.
    destruct l, r; simpl in *; subst; reflexivity.
Qed.

Section overlay.
Context (requires : Z → bool) (backend : gmap Z CachedPlaytime).

(** The game is one whose playtime the backend decides. *)
Definition decided (game : PlayerLastPlayedGame) : option Z :=
  app_id ← game_app_id game; if requires app_id then Some app_id else None.

(** What becomes of one entry: [Some None] drops it. *)
Definition overlay_entry (game : PlayerLastPlayedGame) : option (option PlayerLastPlayedGame) :=
  match decided game with
  | None => Some (Some game)
  | Some app_id =>
      match filter (λ kv, requires kv.1) backend !! app_id with
      | None => Some None
      | Some entry => Some <$> steam_game entry
      end
  end.

(** The backend apps among some games. *)
Definition served_by (game : PlayerLastPlayedGame) : gset Z :=
  match decided game with
  | None => ∅
  | Some app_id =>
      match filter (λ kv, requires kv.1) backend !! app_id with
      | None => ∅
      | Some _ => {[app_id]}
      end
  end.

Definition served (games : list PlayerLastPlayedGame) : gset Z := ⋃ (served_by <$> games).

Definition missing (games : list PlayerLastPlayedGame) : list CachedPlaytime :=
  btree_values (filter (λ kv, kv.1 ∉ served games) (filter (λ kv, requires kv.1) backend)).

Definition overlaid (games : list PlayerLastPlayedGame) (append_missing : bool)
    : option (list (option PlayerLastPlayedGame) * list PlayerLastPlayedGame) :=
  outs ← mapM overlay_entry games;
  added ← (if append_missing then mapM steam_game (missing games) else Some []);
  Some (outs, added).

Lemma overlay_loop_cons game games rewritten seen changed :
  overlay_loop requires (filter (λ kv, requires kv.1) backend) (game :: games)
    rewritten seen changed =
  match overlay_entry game with
  | None => None
  | Some None =>
      overlay_loop requires (filter (λ kv, requires kv.1) backend) games rewritten seen true
  | Some (Some g) =>
      overlay_loop requires (filter (λ kv, requires kv.1) backend) games (rewritten ++ [g])
        (served_by game ∪ seen) (changed || bool_decide (g ≠ game))
  end.
Proof.
  unfold overlay_entry, served_by, decided. cbn [overlay_loop].
  assert (Hneg : ∀ g, bool_decide (g ≠ game) = negb (same_steam_game g game)).
  { intros g. by rewrite same_steam_game_eq, bool_decide_not. }
  destruct (game_app_id game) as [app_id|]; cbn [mbind option_bind];
    [destruct (requires app_id) eqn:Hr; cbn [negb]|].
  - destruct (filter _ backend !! app_id) as [entry|]; [|done].
    destruct (steam_game entry); [|done]. cbn [fmap option_fmap option_map]. by rewrite Hneg.
  - by rewrite (left_id_L ∅ (∪)), Hneg, same_steam_game_eq, bool_decide_true, orb_false_r.
  - by rewrite (left_id_L ∅ (∪)), Hneg, same_steam_game_eq, bool_decide_true, orb_false_r.
Qed.

Lemma overlay_entry_dropped game : overlay_entry game = Some None → served_by game = ∅.
Proof.
  unfold overlay_entry, served_by. destruct (decided game) as [app_id|]; [|done].
  destruct (filter _ backend !! app_id) as [e|]; [|done]. by destruct (steam_game e).
Qed.

Lemma overlay_loop_spec games rewritten seen changed :
  overlay_loop requires (filter (λ kv, requires kv.1) backend) games rewritten seen changed =
  outs ← mapM overlay_entry games;
  Some (rewritten ++ omap id outs, served games ∪ seen,
        changed || bool_decide (outs ≠ Some <$> games)).
Proof.
  revert rewritten seen changed.
  induction games as [|game games IH]; intros rewritten seen changed.
  { cbn. rewrite app_nil_r, orb_false_r. by rewrite (left_id_L ∅ (∪)). }
  rewrite overlay_loop_cons. cbn [mapM mbind option_bind].
  change (served (game :: games)) with (served_by game ∪ served games).
  destruct (overlay_entry game) as [[g|]|] eqn:Hg; [| |done]; rewrite IH;
    (destruct (mapM overlay_entry games) as [outs|]; [|done]); cbn [mbind option_bind mret option_ret].
  - rewrite <-app_assoc. f_equal. f_equal; [f_equal; set_solver|].
    rewrite <-orb_assoc. f_equal. rewrite fmap_cons.
    destruct (decide (g = game)) as [->|Hne].
    + rewrite bool_decide_not, bool_decide_true by done. simpl. apply bool_decide_ext. split; congruence.
    + rewrite bool_decide_true by done. simpl. symmetry. apply bool_decide_true. congruence.
  - rewrite (overlay_entry_dropped game), (left_id_L ∅ (∪)) by done.
    rewrite (bool_decide_true (None :: outs ≠ _)) by done. by rewrite orb_true_r.
Qed.

Lemma append_missing_games_spec entries rewritten changed :
  append_missing_games entries rewritten changed =
  added ← mapM steam_game entries;
  Some (rewritten ++ added, changed || bool_decide (added ≠ [])).
Proof.
  revert rewritten changed. induction entries as [|e entries IH]; intros rewritten changed; simpl.
  { by rewrite app_nil_r, orb_false_r. }
  destruct (steam_game e) as [g|]; simpl; [|done]. rewrite IH.
  destruct (mapM steam_game entries) as [added|]; simpl; [|done].
  by rewrite <-app_assoc, orb_true_r.
Qed.

Lemma overlay_games_spec games append_missing :
  overlay_games requires games (Known backend) append_missing =
  '(outs, added) ← overlaid games append_missing;
  if bool_decide (outs = Some <$> games) && bool_decide (added = []) then None
  else Some (omap id outs ++ added).
Proof.
  unfold overlay_games, overlaid. rewrite overlay_loop_spec.
  destruct (mapM overlay_entry games) as [outs|]; simpl; [|done].
  rewrite (right_id_L ∅ (∪)). fold (missing games). destruct append_missing; simpl.
  - rewrite append_missing_games_spec. destruct (mapM steam_game (missing games)) as [added|]; simpl; [|done].
    rewrite !bool_decide_not. by destruct (bool_decide (outs = _)), (bool_decide (added = [])).
  - rewrite bool_decide_not, app_nil_r. by destruct (bool_decide (outs = _)).
Qed.

(** The backend map is keyed by its entries' own ids, and Steam can express them. *)
Context (Hkeys : ∀ app_id e, backend !! app_id = Some e → cp_app_id e = app_id ∧ 0 < app_id ≤ i32_max).

Lemma backend_filter app_id e :
  filter (λ kv, requires kv.1) backend !! app_id = Some e ↔
  backend !! app_id = Some e ∧ requires app_id = true.
Proof. rewrite map_lookup_filter_Some. simpl. by rewrite Is_true_true. Qed.

Lemma backend_game app_id e :
  filter (λ kv, requires kv.1) backend !! app_id = Some e →
  ∃ g, steam_game e = Some g ∧ decided g = Some app_id.
Proof.
  rewrite backend_filter. intros [He Hr]. destruct (Hkeys _ _ He) as [Hid Hpos].
  unfold steam_game. rewrite Hid, (proj2 (Z.leb_le _ _)) by lia. eexists. split; [done|].
  unfold decided, game_app_id. simpl. rewrite (proj2 (Z.ltb_lt _ _)) by lia. simpl. by rewrite Hr.
Qed.

Lemma overlay_entry_total game : is_Some (overlay_entry game).
Proof.
  unfold overlay_entry. destruct (decided game) as [app_id|]; [|eauto].
  destruct (filter _ backend !! app_id) as [e|] eqn:He; [|eauto].
  apply backend_game in He as (g & -> & _). eauto.
Qed.

Lemma overlay_entry_inv game g :
  overlay_entry game = Some (Some g) →
  decided g = decided game ∧
  (decided game = None → g = game) ∧
  (∀ app_id, decided game = Some app_id →
     ∃ e, filter (λ kv, requires kv.1) backend !! app_id = Some e ∧ steam_game e = Some g).
Proof.
  unfold overlay_entry. destruct (decided game) as [app_id|] eqn:Hd; [|naive_solver].
  destruct (filter _ backend !! app_id) as [e|] eqn:He; [|done].
  pose proof (backend_game _ _ He) as (g' & Hg' & Hdec). rewrite Hg'. intros [= <-].
  split; [done|]. split; [done|]. intros app' [= <-]. eauto.
Qed.

Lemma missing_elem games e :
  e ∈ missing games ↔
  ∃ app_id, filter (λ kv, requires kv.1) backend !! app_id = Some e ∧ app_id ∉ served games.
Proof.
  unfold missing. rewrite elem_of_btree_values.
  split; intros [app_id H]; exists app_id; by apply map_lookup_filter_Some in H || by apply map_lookup_filter_Some.
Qed.

Lemma elem_of_served games app_id :
  app_id ∈ served games ↔
  ∃ game, game ∈ games ∧ decided game = Some app_id ∧
    is_Some (filter (λ kv, requires kv.1) backend !! app_id).
Proof.
  unfold served. rewrite elem_of_union_list. split.
  - intros (X & (game & -> & Hg)%list_elem_of_fmap & HX). exists game. split; [done|].
    unfold served_by in HX. destruct (decided game) as [a|]; [|set_solver].
    destruct (filter _ backend !! a) eqn:?; [|set_solver].
    apply elem_of_singleton in HX as ->. eauto.
  - intros (game & Hg & Hd & [e He]). exists (served_by game). split.
    + apply list_elem_of_fmap. eauto.
    + unfold served_by. rewrite Hd, He. by apply elem_of_singleton.
Qed.

Lemma overlaid_total games append_missing : is_Some (overlaid games append_missing).
Proof.
  unfold overlaid.
  destruct (mapM_is_Some_2 overlay_entry games) as [outs ->].
  { apply Forall_forall. intros. apply overlay_entry_total. }
  cbn [mbind option_bind]. destruct append_missing; [|eauto].
  destruct (mapM_is_Some_2 steam_game (missing games)) as [added ->]; [|eauto].
  apply Forall_forall. intros e (app_id & He & _)%missing_elem.
  apply backend_game in He as (g & Hg & _). exists g. exact Hg.
Qed.

(** The outcome of the loop and of the appended games. *)
Lemma overlaid_inv games append_missing outs added :
  overlaid games append_missing = Some (outs, added) →
  Forall2 (λ game out, overlay_entry game = Some out) games outs ∧
  (if append_missing then Forall2 (λ e g, steam_game e = Some g) (missing games) added
   else added = []).
Proof.
  unfold overlaid. intros (outs' & Ho & (added' & Ha & [= <- <-])%bind_Some)%bind_Some.
  apply mapM_Some in Ho. split; [done|]. destruct append_missing; [by apply mapM_Some|congruence].
Qed.

Lemma overlaid_decided games append_missing outs added g app_id :
  overlaid games append_missing = Some (outs, added) →
  g ∈ omap id outs ++ added → decided g = Some app_id →
  ∃ e, filter (λ kv, requires kv.1) backend !! app_id = Some e ∧ steam_game e = Some g.
Proof.
  intros [Hout Hadd]%overlaid_inv Hg Hd. apply elem_of_app in Hg as [Hg|Hg].
  - apply list_elem_of_omap in Hg as (out & Hin & Hid). unfold id in Hid. subst out.
    apply list_elem_of_lookup in Hin as [i Hi].
    destruct (Forall2_lookup_r _ _ _ _ _ Hout Hi) as (game & _ & He).
    apply overlay_entry_inv in He as (Hdec & _ & Hsome). apply Hsome. congruence.
  - destruct append_missing; [|subst added; by apply elem_of_nil in Hg].
    apply list_elem_of_lookup in Hg as [i Hi].
    destruct (Forall2_lookup_r _ _ _ _ _ Hadd Hi) as (e & Hlook & He).
    apply list_elem_of_lookup_2, missing_elem in Hlook as (a & Ha & _).
    pose proof (backend_game _ _ Ha) as (g' & Hg' & Hdec). assert (g' = g) as -> by congruence.
    assert (a = app_id) as -> by congruence. eauto.
Qed.

Lemma overlaid_undecided games append_missing outs added :
  overlaid games append_missing = Some (outs, added) →
  filter (λ g, decided g = None) (omap id outs ++ added) =
  filter (λ g, decided g = None) games.
Proof.
  intros [Hout Hadd]%overlaid_inv. rewrite filter_app.
  assert (Hnil : filter (λ g, decided g = None) added = []).
  { apply elem_of_nil_inv. intros g [Hn Hg]%list_elem_of_filter.
    destruct append_missing; [|subst added; by apply elem_of_nil in Hg].
    apply list_elem_of_lookup in Hg as [i Hi].
    destruct (Forall2_lookup_r _ _ _ _ _ Hadd Hi) as (e & Hlook & He).
    apply list_elem_of_lookup_2, missing_elem in Hlook as (a & Ha & _).
    apply backend_game in Ha as (g' & Hg' & Hd). congruence. }
  rewrite Hnil, app_nil_r. clear Hadd Hnil.
  induction Hout as [|game out games outs Ho _ IH]; [done|].
  rewrite (filter_cons _ game). destruct out as [g|];
    [change (omap id (Some g :: outs)) with (g :: omap id outs)
    |change (omap id (None :: outs)) with (omap id outs)].
  - apply overlay_entry_inv in Ho as (Hdec & Hn & _). rewrite filter_cons, IH.
    rewrite Hdec. destruct (decide (decided game = None)) as [He|]; [|done]. by rewrite Hn.
  - rewrite IH. destruct (decide (decided game = None)) as [He|]; [|done].
    unfold overlay_entry in Ho. by rewrite He in Ho.
Qed.

Lemma omap_id_some (games : list PlayerLastPlayedGame) : omap id (Some <$> games) = games.
Proof. induction games as [|g games IH]; csimpl; [done|]. by rewrite IH. Qed.

Lemma omap_all_some (outs : list (option PlayerLastPlayedGame)) :
  Forall is_Some outs → outs = Some <$> omap id outs.
Proof. induction 1 as [|? outs [g ->] _ IH]; [done|]. csimpl. by rewrite <-IH. Qed.

(** Only an unchanged list is reported as unchanged. *)
Lemma overlaid_same games append_missing outs added :
  overlaid games append_missing = Some (outs, added) →
  omap id outs ++ added = games → outs = Some <$> games ∧ added = [].
Proof.
  intros H Heq. pose proof (overlaid_inv _ _ _ _ H) as [Hout _].
  assert (Hall : Forall is_Some outs).
  { apply Forall_lookup. intros i out Hi.
    destruct (Forall2_lookup_r _ _ _ _ _ Hout Hi) as (game & Hgame & Ho).
    destruct out as [g|]; [eauto|]. exfalso. unfold overlay_entry in Ho.
    destruct (decided game) as [app_id|] eqn:Hd; [|done].
    destruct (overlaid_decided _ _ _ _ game app_id H) as (e & He & _); [|done|].
    - rewrite Heq. by eapply list_elem_of_lookup_2.
    - rewrite He in Ho. by destruct (steam_game e). }
  apply Forall2_length in Hout. pose proof (omap_all_some outs Hall) as Ho.
  pose proof (f_equal length Ho) as Hlen. rewrite length_fmap in Hlen.
  assert (Hadd : added = []).
  { apply (f_equal length) in Heq. rewrite length_app in Heq. apply nil_length_inv. lia. }
  subst added. rewrite app_nil_r in Heq. split; [|done]. by rewrite Ho, Heq.
Qed.

Lemma overlaid_appends games outs added app_id e :
  overlaid games true = Some (outs, added) →
  filter (λ kv, requires kv.1) backend !! app_id = Some e →
  ∃ g, g ∈ omap id outs ++ added ∧ steam_game e = Some g.
Proof.
  intros [Hout Hadd]%overlaid_inv He.
  pose proof (backend_game _ _ He) as (g & Hg & Hd). exists g. split; [|done].
  apply elem_of_app. destruct (decide (app_id ∈ served games)) as [Hs|Hs].
  - left. apply elem_of_served in Hs as (game & Hgame & Hdec & _).
    apply list_elem_of_lookup in Hgame as [i Hi].
    destruct (Forall2_lookup_l _ _ _ _ _ Hout Hi) as (out & Hlook & Ho).
    unfold overlay_entry in Ho. rewrite Hdec, He, Hg in Ho. injection Ho as <-.
    apply list_elem_of_omap. exists (Some g). split; [by eapply list_elem_of_lookup_2|done].
  - right. assert (Hm : e ∈ missing games) by (apply missing_elem; eauto).
    apply list_elem_of_lookup in Hm as [i Hi].
    destruct (Forall2_lookup_l _ _ _ _ _ Hadd Hi) as (g' & Hlook & Hg').
    assert (g' = g) as -> by congruence. by eapply list_elem_of_lookup_2.
Qed.
End overlay.

(** [overlay_serves_backend]: once the backend has spoken, what Steam ends up with, the
    rewritten list or its own when nothing is rewritten, keeps the entries of all other
    apps in order and, for the apps whose playtime the backend decides, holds exactly
    the backend's values; a response also holds one for every such app the backend
    knows. The message is rewritten exactly when that changes it. *)
Theorem overlay_serves_backend requires backend games append_missing
    (Hkeys : ∀ app_id e, backend !! app_id = Some e →
       cp_app_id e = app_id ∧ 0 < app_id ≤ i32_max) :
  let answer := overlay_games requires games (Known backend) append_missing in
  let result := default games answer in
  filter (λ g, decided requires g = None) result =
    filter (λ g, decided requires g = None) games ∧
  (∀ g app_id, g ∈ result → decided requires g = Some app_id →
     ∃ e, backend !! app_id = Some e ∧ steam_game e = Some g) ∧
  (append_missing = true → ∀ app_id e, backend !! app_id = Some e → requires app_id = true →
     ∃ g, g ∈ result ∧ steam_game e = Some g) ∧
  answer ≠ Some games.
Proof.
  intros answer result.
  destruct (overlaid_total requires backend Hkeys games append_missing) as [[outs added] Ho].
  assert (Hanswer : answer = if bool_decide (outs = Some <$> games) && bool_decide (added = [])
                             then None else Some (omap id outs ++ added)).
  { unfold answer. rewrite overlay_games_spec, Ho. done. }
  assert (Hresult : result = omap id outs ++ added).
  { unfold result. rewrite Hanswer.
    destruct (bool_decide_reflect (outs = Some <$> games)) as [->|]; [|done].
    destruct (bool_decide_reflect (added = [])) as [->|]; [|done]. simpl.
    by rewrite app_nil_r, omap_id_some. }
  rewrite Hresult. split_and!.
  - by eapply overlaid_undecided.
  - intros g app_id Hg Hd. destruct (overlaid_decided _ _ Hkeys _ _ _ _ _ _ Ho Hg Hd) as (e & He & Hs).
    apply backend_filter in He as [He _]. eauto.
  - intros -> app_id e He Hr. eapply overlaid_appends; [done|done|]. by apply backend_filter.
  - rewrite Hanswer. intros Heq. case_match eqn:Hc; [done|].
    injection Heq as Heq. apply (overlaid_same _ _ Hkeys _ _ _ _ Ho) in Heq as [-> ->].
    by rewrite !bool_decide_true in Hc.
Qed.

(** ** The cache *)

Definition Snapshot : Type := Z * list PlaytimeEntry.

(** The snapshots of one runtime key, in the order the stream delivers them. *)
Definition deliver (hash_values : gmap Z CachedPlaytime → list CachedPlaytime) (key : RuntimeKey)
    (cache : PlaytimeCache) (snapshots : list Snapshot) : PlaytimeCache :=
  foldl (λ cache s, (store_backend_playtime hash_values cache key s.1 s.2).2) cache snapshots.

(** The cache holds the newest of the snapshots delivered so far. *)
Definition holds_newest (key : RuntimeKey) (cache : PlaytimeCache) (snapshots : list Snapshot) : Prop :=
  pc_key cache = Some key ∧
  (∃ s, s ∈ snapshots ∧ pc_revision cache = s.1 ∧ pc_games cache = playtime_games s.2) ∧
  (∀ s, s ∈ snapshots → s.1 ≤ pc_revision cache).

Lemma store_newest hash_values key cache snapshots s :
  0 < s.1 → Forall (λ s, 0 < s.1) snapshots →
  holds_newest key cache snapshots →
  holds_newest key (store_backend_playtime hash_values cache key s.1 s.2).2 (snapshots ++ [s]).
Proof.
  intros Hs Hpos (Hk & (t & Ht & Hrev & Hgames) & Hmax). rewrite Forall_forall in Hpos.
  pose proof (Hpos t Ht). unfold store_backend_playtime. rewrite bool_decide_true by done.
  destruct (Z.eqb_spec s.1 0); [lia|]. destruct (Z.eqb_spec (pc_revision cache) 0); [lia|]. simpl.
  destruct (Z.leb_spec s.1 (pc_revision cache)) as [Hle|Hgt]; simpl.
  - split; [done|]. split; [exists t; rewrite elem_of_app; auto|].
    intros u [Hu|Hu%list_elem_of_singleton]%elem_of_app; [by apply Hmax|by subst].
  - split; [done|]. split; [exists s; rewrite elem_of_app, list_elem_of_singleton; auto|].
    simpl. intros u [Hu|Hu%list_elem_of_singleton]%elem_of_app; [specialize (Hmax u Hu); lia|subst; lia].
Qed.

Lemma deliver_newest hash_values key snapshots :
  Forall (λ s, 0 < s.1) snapshots → snapshots ≠ [] →
  holds_newest key (deliver hash_values key cache_clear snapshots) snapshots.
Proof.
  induction snapshots as [|s snapshots IH] using rev_ind; [done|]. intros Hpos _.
  apply Forall_app in Hpos as [Hpos Hs]. rewrite Forall_singleton in Hs.
  unfold deliver. rewrite foldl_snoc. fold (deliver hash_values key cache_clear snapshots).
  destruct (decide (snapshots = [])) as [->|Hne].
  - split; [done|]. split; [exists s; split; [by left|done]|].
    simpl. intros u Hu%list_elem_of_singleton. by subst.
  - apply store_newest; auto.
Qed.

(** [cache_keeps_newest]: however the snapshots of an account are reordered or repeated
    on their way, the cache ends up the same: with the newest revision and its games. *)
Theorem cache_keeps_newest hash_values key (l1 l2 : list Snapshot)
    (Hpos : Forall (λ s, 0 < s.1) l1)
    (Hsame : ∀ s t, s ∈ l1 → t ∈ l1 → s.1 = t.1 → s.2 = t.2)
    (Heq : ∀ s, s ∈ l1 ↔ s ∈ l2) :
  deliver hash_values key cache_clear l1 = deliver hash_values key cache_clear l2 ∧
  ∀ s, s ∈ l1 →
    s.1 ≤ pc_revision (deliver hash_values key cache_clear l1) ∧
    (s.1 = pc_revision (deliver hash_values key cache_clear l1) →
     pc_games (deliver hash_values key cache_clear l1) = playtime_games s.2).
Proof.
  destruct (decide (l1 = [])) as [->|Hne].
  { assert (l2 = []) as -> by (apply elem_of_nil_inv; intros s; rewrite <-Heq; apply not_elem_of_nil).
    split; [done|]. intros s Hs. by apply elem_of_nil in Hs. }
  assert (Hpos2 : Forall (λ s, 0 < s.1) l2).
  { rewrite Forall_forall in *. intros s Hs. by apply Hpos, Heq. }
  assert (Hne2 : l2 ≠ []).
  { destruct l1 as [|s l1]; [done|]. intros ->. by eapply elem_of_nil, Heq, elem_of_cons; left. }
  destruct (deliver_newest hash_values key l1 Hpos Hne) as (Hk1 & (s1 & Hs1 & Hr1 & Hg1) & Hm1).
  destruct (deliver_newest hash_values key l2 Hpos2 Hne2) as (Hk2 & (s2 & Hs2 & Hr2 & Hg2) & Hm2).
  rewrite <-Heq in Hs2. split.
  - assert (Hrev : s1.1 = s2.1).
    { pose proof (Hm1 s2 Hs2). pose proof (Hm2 s1 (proj1 (Heq _) Hs1)). lia. }
    destruct (deliver _ _ _ l1) as [k1 r1 g1], (deliver _ _ _ l2) as [k2 r2 g2]. simpl in *. subst.
    by rewrite Hrev, (Hsame s1 s2).
  - intros s Hs. split; [by apply Hm1|]. intros He. rewrite Hg1. f_equal. apply Hsame; congruence.
Qed.

(** A hash map's values in some order. *)
Definition enumerates (hash_values : gmap Z CachedPlaytime → list CachedPlaytime) : Prop :=
  ∀ m, hash_values m ≡ₚ (map_to_list m).*2.

Lemma playtime_games_keys entries app_id e :
  playtime_games entries !! app_id = Some e → cp_app_id e = app_id ∧ app_id ≠ 0.
Proof.
  unfold playtime_games.
  assert (Hgen : ∀ l (m : gmap Z CachedPlaytime),
    Forall (λ e, cp_app_id e ≠ 0) l → map_Forall (λ k e, cp_app_id e = k ∧ k ≠ 0) m →
    map_Forall (λ k e, cp_app_id e = k ∧ k ≠ 0)
      (foldl (λ games entry, <[cp_app_id entry := entry]> games) m l)).
  { induction l as [|x l IH]; intros m Hl Hm; [done|]. apply Forall_cons in Hl as [Hx Hl].
    simpl. apply IH; [done|]. by apply map_Forall_insert_2. }
  apply Hgen; [|apply map_Forall_empty]. apply Forall_forall.
  intros x (y & _ & Hy)%list_elem_of_omap. unfold cached_entry in Hy.
  destruct (Z.eqb_spec (pe_app_id y) 0); [done|]. simpl in Hy.
  destruct (match pe_last_played_at y with Some _ => _ | None => _ end); [done|]. by injection Hy as <-.
Qed.

Lemma elem_of_hash_values hash_values entries e :
  enumerates hash_values →
  e ∈ hash_values (playtime_games entries) ↔ playtime_games entries !! cp_app_id e = Some e.
Proof.
  intros Hv. rewrite (Hv (playtime_games entries)), list_elem_of_fmap. split.
  - intros ([k e'] & -> & Hin%elem_of_map_to_list). simpl.
    by destruct (playtime_games_keys _ _ _ Hin) as [-> _].
  - intros H. exists (cp_app_id e, e). split; [done|]. by apply elem_of_map_to_list.
Qed.

(** [store_reports_changes]: a snapshot is refused exactly when the cache already holds
    one of the same runtime key that is not older; an accepted one replaces the cache
    and reports precisely the apps whose values differ from what was held for the key. *)
Theorem store_reports_changes hash_values cache key revision entries
    (Hv : enumerates hash_values) :
  let '(changed, cache') := store_backend_playtime hash_values cache key revision entries in
  (changed = None ↔
     pc_key cache = Some key ∧ revision ≠ 0 ∧ pc_revision cache ≠ 0 ∧
     revision ≤ pc_revision cache) ∧
  (changed = None → cache' = cache) ∧
  ∀ l, changed = Some l →
    cache' = {| pc_key := Some key; pc_revision := revision; pc_games := playtime_games entries |} ∧
    ∀ e, e ∈ l ↔
      playtime_games entries !! cp_app_id e = Some e ∧
      ¬ (pc_key cache = Some key ∧ pc_games cache !! cp_app_id e = Some e).
Proof.
  unfold store_backend_playtime.
  destruct (bool_decide_reflect (pc_key cache = Some key)) as [Hk|Hk]; simpl.
  - destruct (Z.eqb_spec revision 0), (Z.eqb_spec (pc_revision cache) 0),
      (Z.leb_spec revision (pc_revision cache)); simpl;
      (split_and!; [split; [|intros]; (done || lia || auto)|done|]); try done;
      intros l [= <-]; (split; [done|]); intros x;
      rewrite list_elem_of_filter, (elem_of_hash_values hash_values) by done; tauto.
  - split_and!; [split; [done|tauto]|done|]. intros l [= <-]. split; [done|]. intros e.
    rewrite (elem_of_hash_values hash_values) by done. tauto.
Qed.
