(* ===== verification/GameBridge.v ===== *)
(** * GameBridge: the framed protocol of [crates/game-bridge/src/lib.rs]

    Helpers inside Proton game processes report to the Steam runtime hook with
    messages [[u32 len][u8 type][payload]]. The reader and the writer are the
    interfaces [Read] and [Write]; byte slices and vectors are their instances, and
    so is a socket whose reads can fail in the middle of a message. *)

From Stdlib Require Import ZArith Lia ZifyBool.
From S2P Require Import Prelude RustStd.

Local Open Scope Z_scope.

(** ** Constants and messages *)

Definition TOKEN_LEN : nat := 32.
Definition MAX_MSG_SIZE : Z := 4096.
Definition MAX_NAME_LEN : nat := 260.

Definition MSG_HELLO : Z := 1.
Definition MSG_DENUVO_DETECTED : Z := 2.
Definition MSG_DLL_LOADED : Z := 3.
Definition MSG_DLL_INJECT_RESULT : Z := 4.
Definition MSG_PE_SECTION : Z := 5.
Definition MSG_ACK : Z := 128.

Inductive Message :=
| Hello (token : list Z) (app_id pid : Z)
| DenuvoDetected (app_id : Z)
| DllLoaded (app_id : Z) (name : string)
| DllInjectResult (app_id : Z) (success : bool)
| PeSection (app_id : Z) (section_name : string)
| Ack.

#[export] Instance Message_eq_dec : EqDecision Message.
Proof. solve_decision. Defined.

(** ** Encoding *)

(** The length prefix and the bytes of a name, cut at [MAX_NAME_LEN] bytes. *)
Definition encode_name (name : string) : list Z :=
  let name_bytes := str_bytes name in
  let len := Nat.min (length name_bytes) MAX_NAME_LEN in
  le_bytes 2 (Z.of_nat len) ++ take len name_bytes.

Definition encode_payload (m : Message) : list Z :=
  match m with
  | Hello token app_id pid => MSG_HELLO :: token ++ le_bytes 4 app_id ++ le_bytes 4 pid
  | DenuvoDetected app_id => MSG_DENUVO_DETECTED :: le_bytes 4 app_id
  | DllLoaded app_id name => MSG_DLL_LOADED :: le_bytes 4 app_id ++ encode_name name
  | DllInjectResult app_id success =>
      MSG_DLL_INJECT_RESULT :: le_bytes 4 app_id ++ [if success then 1 else 0]
  | PeSection app_id section_name =>
      MSG_PE_SECTION :: le_bytes 4 app_id ++ encode_name section_name
  | Ack => [MSG_ACK]
  end.

Definition encode (m : Message) : list Z :=
  let payload := encode_payload m in
  le_bytes 4 (as_u32 (Z.of_nat (length payload))) ++ payload.

(** ** Decoding *)

(** The [io::ErrorKind]s the callers tell apart. *)
Inductive ErrorKind := UnexpectedEof | WouldBlock | OtherIo.

Inductive DecodeError :=
| Io (kind : ErrorKind)
| BadLength (len : Z)
| UnknownType (msg_type : Z)
| TooShort.

#[export] Instance ErrorKind_eq_dec : EqDecision ErrorKind.
Proof. solve_decision. Defined.
#[export] Instance DecodeError_eq_dec : EqDecision DecodeError.
Proof. solve_decision. Defined.

Notation DR := (result DecodeError).

Definition le_at (offset count : nat) (data : list Z) : Z :=
  le_value (take count (drop offset data)).

(** The app id and the name of the two messages that carry one. *)
Definition decode_name (data : list Z) : DR (Z * string) :=
  if (length data <? 6)%nat then Err TooShort
  else
    let name_len := Z.to_nat (le_at 4 2 data) in
    if (length data <? 6 + name_len)%nat then Err TooShort
    else Ok (le_at 0 4 data, bytes_str (utf8_lossy (take name_len (drop 6 data)))).

Definition decode_payload (buf : list Z) : DR Message :=
  match buf with
  | [] => Err TooShort
  | msg_type :: data =>
      if msg_type =? MSG_HELLO then
        if (length data <? TOKEN_LEN + 8)%nat then Err TooShort
        else Ok (Hello (take TOKEN_LEN data) (le_at TOKEN_LEN 4 data)
                   (le_at (TOKEN_LEN + 4) 4 data))
      else if msg_type =? MSG_DENUVO_DETECTED then
        if (length data <? 4)%nat then Err TooShort else Ok (DenuvoDetected (le_at 0 4 data))
      else if msg_type =? MSG_DLL_LOADED then
        '(app_id, name) ← decode_name data; Ok (DllLoaded app_id name)
      else if msg_type =? MSG_DLL_INJECT_RESULT then
        if (length data <? 5)%nat then Err TooShort
        else Ok (DllInjectResult (le_at 0 4 data) (negb (le_at 4 1 data =? 0)))
      else if msg_type =? MSG_PE_SECTION then
        '(app_id, section_name) ← decode_name data; Ok (PeSection app_id section_name)
      else if msg_type =? MSG_ACK then Ok Ack
      else Err (UnknownType msg_type)
  end.

Definition decode_message_bytes (bytes : list Z) : DR Message :=
  if (length bytes <? 4)%nat then Err TooShort
  else
    let len := le_at 0 4 bytes in
    if (len =? 0) || (MAX_MSG_SIZE <? len) then Err (BadLength len)
    else
      let payload_len := Z.to_nat len in
      if (length bytes <? 4 + payload_len)%nat then Err TooShort
      else decode_payload (take payload_len (drop 4 bytes)).

(** ** Readers and writers *)

(** [io::Read::read_exact] and [io::Write::write_all] with [flush]; the state after
    a failure is what the failed call left behind. *)
Class Read (R : Type) := read_exact : nat → R → result ErrorKind (list Z) * R.
Class Write (W : Type) := {
  write_all : list Z → W → result ErrorKind () * W;
  flush : W → result ErrorKind () * W;
}.

Definition read_message `{Read R} (reader : R) : DR Message * R :=
  match read_exact 4 reader with
  | (Err e, reader) => (Err (Io e), reader)
  | (Ok len_buf, reader) =>
      let len := le_value len_buf in
      if (len =? 0) || (MAX_MSG_SIZE <? len) then (Err (BadLength len), reader)
      else
        match read_exact (Z.to_nat len) reader with
        | (Err e, reader) => (Err (Io e), reader)
        | (Ok buf, reader) => (decode_payload buf, reader)
        end
  end.

Definition write_message `{Write W} (writer : W) (msg : Message) : result ErrorKind () * W :=
  match write_all (encode msg) writer with
  | (Err e, writer) => (Err e, writer)
  | (Ok _, writer) => flush writer
  end.

(** [impl Read for &[u8]] and [impl Write for Vec<u8>] *)
#[export] Instance slice_read : Read (list Z) := λ n bytes,
  if (length bytes <? n)%nat then (Err UnexpectedEof, []) else (Ok (take n bytes), drop n bytes).
#[export] Instance vec_write : Write (list Z) := {|
  write_all := λ bytes buffer, (Ok (), buffer ++ bytes);
  flush := λ buffer, (Ok (), buffer) |}.

(** ** Tokens as text *)

Definition token_to_hex (token : list Z) : list Z := hex_bytes token.

Definition hex_nibble (b : Z) : option Z :=
  if between 48 57 b then Some (b - 48)
  else if between 97 102 b then Some (b - 97 + 10)
  else if between 65 70 b then Some (b - 65 + 10)
  else None.

Fixpoint token_chunks (hex : list Z) : option (list Z) :=
  match hex with
  | c0 :: c1 :: rest =>
      hi ← hex_nibble c0; lo ← hex_nibble c1;
      token ← token_chunks rest; Some (Z.lor (Z.shiftl hi 4) lo :: token)
  | _ => Some []
  end.

Definition token_from_hex (hex : list Z) : option (list Z) :=
  if negb (length hex =? TOKEN_LEN * 2)%nat then None else token_chunks hex.

(** * Properties *)

(** What the Rust types of a message guarantee. *)
Definition text_ok (s : string) : Prop := utf8_valid (str_bytes s) = true.

Definition message_ok (m : Message) : Prop :=
  match m with
  | Hello token app_id pid =>
      length token = TOKEN_LEN ∧ Forall in_u8 token ∧ in_u32 app_id ∧ in_u32 pid
  | DenuvoDetected app_id => in_u32 app_id
  | DllLoaded app_id name => in_u32 app_id ∧ text_ok name
  | DllInjectResult app_id _ => in_u32 app_id
  | PeSection app_id section_name => in_u32 app_id ∧ text_ok section_name
  | Ack => True
  end.

(** The name that arrives: the first [MAX_NAME_LEN] bytes, a character cut there
    replaced. *)
Definition clip_name (name : string) : string :=
  bytes_str (utf8_lossy (take MAX_NAME_LEN (str_bytes name))).

Definition clipped (m : Message) : Message :=
  match m with
  | DllLoaded app_id name => DllLoaded app_id (clip_name name)
  | PeSection app_id section_name => PeSection app_id (clip_name section_name)
  | _ => m
  end.

Definition short_names (m : Message) : Prop :=
  match m with
  | DllLoaded _ name | PeSection _ name => (length (str_bytes name) ≤ MAX_NAME_LEN)%nat
  | _ => True
  end.

Lemma clip_name_short name :
  text_ok name → (length (str_bytes name) ≤ MAX_NAME_LEN)%nat → clip_name name = name.
Proof.
  intros Ht Hn. unfold clip_name. rewrite take_ge by done.
  rewrite utf8_lossy_id by done. apply bytes_str_str_bytes.
Qed.

Lemma clipped_short m : message_ok m → short_names m → clipped m = m.
Proof. destruct m; simpl; intros H1 H2; destruct_and?; by rewrite ?clip_name_short. Qed.

Lemma text_ok_lossy l : text_ok (bytes_str (utf8_lossy l)).
Proof.
  unfold text_ok. rewrite str_bytes_bytes_str by apply utf8_lossy_in_u8. apply utf8_lossy_valid.
Qed.

(** *** Fixed-width fields *)

Lemma le_at_le_bytes k n z (pre post : list Z) :
  length pre = k → 0 ≤ z < 256 ^ Z.of_nat n → le_at k n (pre ++ le_bytes n z ++ post) = z.
Proof.
  intros <- Hz. unfold le_at.
  rewrite drop_app_length, take_app_length' by (symmetry; apply length_le_bytes).
  rewrite le_value_le_bytes. by apply Z.mod_small.
Qed.

Lemma le_at_head n z post : 0 ≤ z < 256 ^ Z.of_nat n → le_at 0 n (le_bytes n z ++ post) = z.
Proof. exact (le_at_le_bytes 0 n z [] post eq_refl). Qed.

Lemma le_at_bound k n data :
  Forall in_u8 data → 0 ≤ le_at k n data < 256 ^ Z.of_nat n.
Proof.
  intros H. unfold le_at.
  pose proof (le_value_bound _ (Forall_take _ n _ (Forall_drop _ k _ H))) as Hb.
  rewrite length_take in Hb.
  assert (256 ^ Z.of_nat (n `min` length (drop k data)) ≤ 256 ^ Z.of_nat n)
    by (apply Z.pow_le_mono_r; lia). lia.
Qed.

Lemma le_at_u32 k data : Forall in_u8 data → in_u32 (le_at k 4 data).
Proof. intros H. pose proof (le_at_bound k 4 data H). unfold in_u32, u32_max. simpl in *. lia. Qed.

Lemma length_encode_name name : (length (encode_name name) ≤ 2 + MAX_NAME_LEN)%nat.
Proof.
  unfold encode_name. rewrite length_app, length_le_bytes, length_take. unfold MAX_NAME_LEN. lia.
Qed.

Lemma decode_encode_name app_id name :
  in_u32 app_id →
  decode_name (le_bytes 4 app_id ++ encode_name name) = Ok (app_id, clip_name name).
Proof.
  intros Ha. unfold decode_name, encode_name.
  set (len := Nat.min (length (str_bytes name)) MAX_NAME_LEN).
  assert (Hlen : length (take len (str_bytes name)) = len) by (rewrite length_take; lia).
  assert (Hmax : (len ≤ 260)%nat) by (unfold len, MAX_NAME_LEN; lia).
  rewrite !length_app, !length_le_bytes, Hlen.
  rewrite (proj2 (Nat.ltb_ge _ _)) by lia.
  rewrite le_at_le_bytes by (rewrite ?length_le_bytes; simpl; lia).
  rewrite Nat2Z.id, (proj2 (Nat.ltb_ge _ _)) by lia.
  rewrite le_at_head by (simpl; int_lia).
  rewrite app_assoc, drop_app_length' by (by rewrite length_app, !length_le_bytes).
  rewrite take_ge by lia. unfold clip_name.
  destruct (Nat.le_ge_cases (length (str_bytes name)) MAX_NAME_LEN).
  - rewrite !take_ge by (unfold len; lia). done.
  - unfold len. by rewrite Nat.min_r.
Qed.

(** ** Round trips *)

(** Unfold the codec on a message whose constructor is known. *)
Ltac open_message :=
  cbn [message_ok encode_payload clipped decode_payload MSG_HELLO MSG_DENUVO_DETECTED
       MSG_DLL_LOADED MSG_DLL_INJECT_RESULT MSG_PE_SECTION MSG_ACK Z.eqb Pos.eqb] in *;
  destruct_and?.

(** Discharge the length tests of the decoder on encoded fields. *)
Ltac long_enough :=
  rewrite ?length_app, ?length_le_bytes; rewrite (proj2 (Nat.ltb_ge _ _)) by (unfold TOKEN_LEN in *; simpl; lia).

Lemma decode_encode_payload m : message_ok m → decode_payload (encode_payload m) = Ok (clipped m).
Proof.
  destruct m as [token app_id pid|app_id|app_id name|app_id success|app_id name|];
    intros Hok; open_message; try done.
  - long_enough. rewrite take_app_length', le_at_le_bytes by (done || (simpl; int_lia)).
    rewrite app_assoc, <-(app_nil_r (le_bytes 4 pid)).
    by rewrite le_at_le_bytes
      by (rewrite ?length_app, ?length_le_bytes; unfold TOKEN_LEN in *; simpl; int_lia).
  - rewrite <-(app_nil_r (le_bytes 4 app_id)). long_enough.
    by rewrite le_at_head by (simpl; int_lia).
  - by rewrite decode_encode_name.
  - long_enough. rewrite le_at_head by (simpl; int_lia).
    destruct success; unfold le_at; by rewrite drop_app_length' by by rewrite length_le_bytes.
  - by rewrite decode_encode_name.
Qed.

Lemma length_encode_payload m :
  message_ok m → (1 ≤ length (encode_payload m) ≤ 267)%nat.
Proof.
  destruct m as [| |app_id name| |app_id name|]; intros Hok; open_message; cbn [length];
    rewrite ?length_app, ?length_le_bytes; try pose proof (length_encode_name name);
    unfold TOKEN_LEN, MAX_NAME_LEN in *; cbn [length]; lia.
Qed.

(** The frame around a payload: its length fits the limit and is read back. *)
Lemma frame_length m :
  message_ok m →
  let len := as_u32 (Z.of_nat (length (encode_payload m))) in
  len = Z.of_nat (length (encode_payload m)) ∧ 0 < len < 2 ^ 32 ∧
  (len =? 0) || (MAX_MSG_SIZE <? len) = false.
Proof.
  intros Hm. pose proof (length_encode_payload m Hm). unfold as_u32, MAX_MSG_SIZE.
  rewrite Z.mod_small by lia. split; [done|]. split; [lia|].
  apply orb_false_intro; [apply Z.eqb_neq|apply Z.ltb_ge]; lia.
Qed.

Lemma read_exact_app n (a b : list Z) : length a = n → read_exact n (a ++ b) = (Ok a, b).
Proof.
  intros <-. unfold read_exact, slice_read. rewrite length_app.
  rewrite (proj2 (Nat.ltb_ge _ _)) by lia. by rewrite take_app_length, drop_app_length.
Qed.

Lemma read_encode m rest :
  message_ok m → read_message (encode m ++ rest) = (Ok (clipped m), rest).
Proof.
  intros Hm. unfold read_message, encode. destruct (frame_length m Hm) as (-> & Hl & Htest).
  rewrite <-app_assoc, read_exact_app by apply length_le_bytes.
  rewrite le_value_le_bytes, Z.mod_small by (simpl; lia). rewrite Htest, Nat2Z.id.
  by rewrite read_exact_app, decode_encode_payload.
Qed.

(** Sending and receiving several messages in a row. *)
Fixpoint write_messages (buffer : list Z) (ms : list Message) : result ErrorKind () * list Z :=
  match ms with
  | [] => (Ok (), buffer)
  | m :: ms =>
      match write_message buffer m with
      | (Ok _, buffer) => write_messages buffer ms
      | failure => failure
      end
  end.

Fixpoint read_messages (n : nat) (bytes : list Z) : DR (list Message) * list Z :=
  match n with
  | O => (Ok [], bytes)
  | S n =>
      match read_message bytes with
      | (Err e, bytes) => (Err e, bytes)
      | (Ok m, bytes) =>
          let '(ms, bytes) := read_messages n bytes in (cons m <$> ms, bytes)
      end
  end.

Lemma write_messages_concat buffer ms :
  write_messages buffer ms = (Ok (), buffer ++ (ms ≫= encode)).
Proof.
  revert buffer. induction ms as [|m ms IH]; intros buffer; [by rewrite app_nil_r|].
  cbn [write_messages]. unfold write_message. cbn [write_all flush vec_write].
  by rewrite IH, bind_cons, app_assoc.
Qed.

Lemma read_messages_concat ms rest :
  Forall message_ok ms →
  read_messages (length ms) ((ms ≫= encode) ++ rest) = (Ok (clipped <$> ms), rest).
Proof.
  induction 1 as [|m ms Hm _ IH]; [done|].
  cbn [length read_messages]. by rewrite bind_cons, <-app_assoc, read_encode, IH.
Qed.

(** [bridge_stream_roundtrip]: messages written one after another on a connection are
    read back one by one in the same order, nothing of what follows is consumed, and
    they are the messages sent unless a name is longer than 260 bytes, in which case
    the name arrives cut there. *)
Theorem bridge_stream_roundtrip ms rest (Hms : Forall message_ok ms) :
  ∃ wire,
    write_messages [] ms = (Ok (), wire) ∧
    read_messages (length ms) (wire ++ rest) = (Ok (clipped <$> ms), rest) ∧
    (Forall short_names ms → clipped <$> ms = ms).
Proof.
  exists (ms ≫= encode). rewrite write_messages_concat, read_messages_concat by done.
  split_and!; [done|done|]. intros Hs. rewrite <-(list_fmap_id ms) at 2.
  apply list_fmap_ext. intros i m Hi.
  rewrite Forall_lookup in Hms, Hs. apply clipped_short; eauto.
Qed.

(** ** The two decoders *)

Lemma decode_name_no_io data k : decode_name data ≠ Err (Io k).
Proof. unfold decode_name. by repeat case_goal. Qed.

Lemma decode_payload_no_io buf k : decode_payload buf ≠ Err (Io k).
Proof.
  destruct buf as [|ty data]; [done|]. cbn [decode_payload].
  pose proof (decode_name_no_io data k). repeat case_match; simplify_eq/=; try done.
  all: destruct (decode_name data) as [[]|]; simpl; congruence.
Qed.

(** [bridge_decoders_agree]: reading from a byte slice and decoding a buffer give the
    same message and the same refusals; only a missing byte is an end of file for the
    one and a short buffer for the other. *)
Theorem bridge_decoders_agree bytes :
  decode_message_bytes bytes =
  match (read_message bytes).1 with
  | Err (Io _) => Err TooShort
  | answer => answer
  end.
Proof.
  unfold decode_message_bytes, read_message, read_exact, slice_read.
  destruct (length bytes <? 4)%nat eqn:H4; [done|]. cbn [fst].
  change (le_value (take 4 bytes)) with (le_at 0 4 bytes).
  destruct ((le_at 0 4 bytes =? 0) || (MAX_MSG_SIZE <? le_at 0 4 bytes)); [done|].
  rewrite length_drop. apply Nat.ltb_ge in H4.
  destruct (Nat.ltb_spec (length bytes) (4 + Z.to_nat (le_at 0 4 bytes)));
    destruct (Nat.ltb_spec (length bytes - 4) (Z.to_nat (le_at 0 4 bytes))); try lia; [done|].
  cbn [fst]. by destruct (decode_payload _) as [|[]] eqn:E; try done; exfalso;
    eapply decode_payload_no_io.
Qed.

Lemma decode_name_ok data app_id name :
  Forall in_u8 data → decode_name data = Ok (app_id, name) → in_u32 app_id ∧ text_ok name.
Proof.
  intros Hd. unfold decode_name. repeat case_goal; intros [=]; subst.
  split; [by apply le_at_u32|apply text_ok_lossy].
Qed.

Lemma decode_payload_ok buf m :
  Forall in_u8 buf → decode_payload buf = Ok m → message_ok m.
Proof.
  intros Hb. destruct buf as [|ty data]; [done|]. apply Forall_cons in Hb as [_ Hd].
  cbn [decode_payload]. repeat case_goal; intros H; try done; res_inv; try done;
    try destruct x as [app_id name]; res_inv; cbn [message_ok];
    try (eapply decode_name_ok; eassumption); auto using le_at_u32.
  apply Nat.ltb_ge in Heqb0. split_and!; auto using le_at_u32, Forall_take.
  rewrite length_take. lia.
Qed.

(** [bridge_decode_sound]: whatever bytes arrive, a message that is accepted is well
    formed: its numbers fit their width, its token has 32 bytes and its text is valid
    UTF-8. *)
Theorem bridge_decode_sound bytes m
    (Hb : Forall in_u8 bytes) (Hm : decode_message_bytes bytes = Ok m) : message_ok m.
Proof.
  unfold decode_message_bytes in Hm. repeat case_match; try done.
  eapply decode_payload_ok; [|done]. by apply Forall_take, Forall_drop.
Qed.

(** ** Tokens *)

Lemma hex_nibble_digit n : 0 ≤ n < 16 → hex_nibble (hex_digit n) = Some n.
Proof.
  intros H. unfold hex_nibble, hex_digit, between. destruct (n <? 10) eqn:?; repeat case_goal; first [exfalso; lia|f_equal; lia].
Qed.

Lemma hex_nibble_lower c n :
  hex_nibble c = Some n → 0 ≤ n < 16 ∧ hex_digit n = lower c.
Proof.
  unfold hex_nibble, hex_digit, lower, between. repeat case_goal; intros [=]; subst; lia.
Qed.

Lemma join_nibbles hi lo :
  0 ≤ hi < 16 → 0 ≤ lo < 16 → Z.lor (Z.shiftl hi 4) lo = 16 * hi + lo.
Proof.
  intros Hh Hl.
  assert (Hall : forallb (λ h, forallb (λ l, Z.lor (Z.shiftl h 4) l =? 16 * h + l)
                                 (seqZ 0 16)) (seqZ 0 16) = true) by by vm_compute.
  rewrite forallb_forall in Hall. specialize (Hall hi).
  rewrite <-list_elem_of_In, elem_of_seqZ, forallb_forall in Hall.
  specialize (Hall ltac:(lia) lo). rewrite <-list_elem_of_In, elem_of_seqZ in Hall.
  apply Z.eqb_eq, Hall. lia.
Qed.

Lemma token_chunks_hex token : Forall in_u8 token → token_chunks (hex_bytes token) = Some token.
Proof.
  induction 1 as [|b token Hb _ IH]; [done|].
  change (hex_bytes (b :: token)) with (hex_byte b ++ hex_bytes token).
  assert (0 ≤ b / 16 < 16) by (split; [apply Z.div_pos|apply Z.div_lt_upper_bound]; int_lia).
  pose proof (Z.mod_pos_bound b 16). unfold hex_byte. cbn [app token_chunks].
  rewrite !hex_nibble_digit by lia. cbn [mbind option_bind]. rewrite IH. cbn [mbind option_bind].
  rewrite join_nibbles by lia. by rewrite <-Z.div_mod by lia.
Qed.

Lemma hex_nibble_of_lower c : hex_nibble (lower c) = hex_nibble c.
Proof.
  unfold hex_nibble, lower, between. destruct ((65 <=? c) && (c <=? 90)) eqn:?; repeat case_goal;
    first [done|exfalso; lia|f_equal; lia].
Qed.

Lemma token_chunks_lower hex token :
  token_chunks (lower <$> hex) = Some token → token_chunks hex = Some token.
Proof.
  assert (Heq : token_chunks (lower <$> hex) = token_chunks hex); [|by rewrite Heq].
  induction hex as [hex IH] using bytes_ind. destruct hex as [|c0 [|c1 hex]]; [done..|].
  cbn [fmap list_fmap token_chunks]. rewrite !hex_nibble_of_lower.
  rewrite (IH hex); [done|simpl; lia].
Qed.

Lemma token_chunks_inv n hex token :
  length hex = (2 * n)%nat → token_chunks hex = Some token →
  length token = n ∧ Forall in_u8 token ∧ hex_bytes token = lower <$> hex.
Proof.
  revert hex token. induction n as [|n IH]; intros [|c0 [|c1 hex]] token Hlen H; simpl in Hlen; try lia.
  { by injection H as <-. }
  cbn [token_chunks] in H. apply bind_Some in H as (hi & Hhi & H).
  apply bind_Some in H as (lo & Hlo & H). apply bind_Some in H as (t & Ht & [= <-]).
  apply hex_nibble_lower in Hhi as [Hh Hhi]. apply hex_nibble_lower in Hlo as [Hl Hlo].
  destruct (IH hex t) as (Hn & Hbytes & Hhex); [lia|done|].
  rewrite join_nibbles by done. split_and!; [simpl; lia|constructor; [int_lia|done]|].
  change (hex_bytes (?x :: t)) with (hex_byte x ++ hex_bytes t). unfold hex_byte.
  rewrite Hhex. cbn [app fmap list_fmap]. rewrite <-Hhi, <-Hlo.
  replace ((16 * hi + lo) / 16) with hi by (rewrite Z.mul_comm, Z.div_add_l, Z.div_small; lia).
  by replace ((16 * hi + lo) mod 16) with lo
    by (rewrite Z.mul_comm, Z.add_comm, Z_mod_plus_full, Z.mod_small; lia).
Qed.

(** [token_hex_roundtrip]: a launch token survives its trip through the environment
    variable, and every text that is accepted as a token is the hexadecimal form of
    it, in either case. *)
Theorem token_hex_roundtrip token hex
    (Ht : length token = TOKEN_LEN) (Hb : Forall in_u8 token) :
  token_from_hex (token_to_hex token) = Some token ∧
  (token_from_hex hex = Some token ↔
   length hex = (TOKEN_LEN * 2)%nat ∧ lower <$> hex = token_to_hex token).
Proof.
  unfold token_from_hex, token_to_hex. split.
  { rewrite length_hex_bytes, Ht. by rewrite token_chunks_hex. }
  destruct (Nat.eqb_spec (length hex) (TOKEN_LEN * 2)) as [Hl|Hl]; simpl; [|naive_solver].
  split.
  - intros H. apply (token_chunks_inv TOKEN_LEN) in H as (_ & _ & ->); [done|lia].
  - intros [_ H]. apply token_chunks_lower. rewrite H. by apply token_chunks_hex.
Qed.
