(* ===== verification/IpcServer.v ===== *)
(** * IpcServer: the game-bridge server of [crates/hooks/src/ipc_server.rs]

    Launch tokens, connection permits and the connection handler, with the set of
    apps delegated at run time ([crates/features/src/ticket.rs]) the handler adds to.
    One connection is a loop over the [Read] and [Write] interfaces of its stream;
    the server is a state machine over the events of all its threads, each of which
    touches the shared state under a lock or with one atomic operation. Sockets,
    threads and time-outs are the operating system's. *)

From Stdlib Require Import ZArith Lia.
From S2P Require Import Prelude RustStd Apps GameBridge.

Local Open Scope Z_scope.

(** ** Launch tokens *)

(** Instants and durations are nanoseconds. *)
Record TokenEntry := { te_app_id : Z; te_registered_at : Z; te_seen_active : bool }.

Definition TOKEN_STARTUP_GRACE : Z := 5 * 60 * 1000000000.
Definition MAX_SESSION_TOKENS : nat := 1024.
Definition MAX_IPC_CONNECTIONS : Z := 128.

Notation Tokens := (gmap (list Z) TokenEntry).

Definition saturating_duration_since (now earlier : Z) : Z := Z.max 0 (now - earlier).

Definition in_grace (now : Z) (e : TokenEntry) : bool :=
  saturating_duration_since now (te_registered_at e) <? TOKEN_STARTUP_GRACE.

(** [Iterator::min_by_key]: the first of the least elements. *)
Fixpoint min_by_key {A} (key : A → Z) (l : list A) : option A :=
  match l with
  | [] => None
  | x :: l =>
      match min_by_key key l with
      | None => Some x
      | Some y => if key x <=? key y then Some x else Some y
      end
  end.

(** What [retain] makes of one entry when the list of running apps arrives. *)
Definition update_entry (active_app_ids : list Z) (now : Z) (e : TokenEntry)
    : option TokenEntry :=
  if bool_decide (te_app_id e ∈ active_app_ids)
  then Some {| te_app_id := te_app_id e; te_registered_at := te_registered_at e;
               te_seen_active := true |}
  else if te_seen_active e then None
  else if in_grace now e then Some e else None.

Definition update_session_tokens (tokens : Tokens) (active_app_ids : list Z) (now : Z) : Tokens :=
  omap (update_entry active_app_ids now) tokens.

Definition retain_live (now : Z) (tokens : Tokens) : Tokens :=
  filter (λ kv, te_seen_active kv.2 || in_grace now kv.2) tokens.

Section tokens.
(** The iteration order of the token map. *)
Context (iter : Tokens → list (list Z * TokenEntry)).

Definition evict_oldest (tokens : Tokens) : Tokens :=
  if (size tokens =? MAX_SESSION_TOKENS)%nat
  then match min_by_key (λ kv, te_registered_at kv.2) (iter tokens) with
       | Some (oldest, _) => delete oldest tokens
       | None => tokens
       end
  else tokens.

Definition register_token (token : list Z) (app_id now : Z) (tokens : Tokens) : Tokens :=
  <[token := {| te_app_id := app_id; te_registered_at := now; te_seen_active := false |}]>
    (evict_oldest (retain_live now tokens)).
End tokens.

(** ** Connection permits *)

Definition permit_acquire (active : Z) : option Z :=
  if active <? MAX_IPC_CONNECTIONS then Some (active + 1) else None.

(** [fetch_sub] on a [usize] *)
Definition permit_drop (active : Z) : Z := (active - 1) mod 2 ^ 64.

(** ** Apps delegated at run time *)

(** The settings the server reads. *)
Record TicketSettings := { auto_delegate : bool; apps_section : AppsSection }.

Definition add_auto_delegate (app_id : Z) (apps : gset Z) : gset Z := {[app_id]} ∪ apps.
Definition is_auto_delegate (app_id : Z) (apps : gset Z) : bool := bool_decide (app_id ∈ apps).
Definition remove_auto_delegate (app_id : Z) (apps : gset Z) : gset Z := apps ∖ {[app_id]}.

Definition on_denuvo_detected (cfg : TicketSettings) (app_id : Z) (apps : gset Z) : gset Z :=
  if negb (auto_delegate cfg) then apps
  else if bool_decide (ticket_mode (apps_section cfg) app_id = Delegate) then apps
  else add_auto_delegate app_id apps.

(** ** One connection *)

(** The check of the first message: the app it speaks for and its process. *)
Definition authenticate (tokens : Tokens) (hello : Message) : option (Z * Z) :=
  match hello with
  | Hello token app_id pid =>
      match tokens !! token with
      | Some e => if te_app_id e =? app_id then Some (app_id, pid) else None
      | None => None
      end
  | _ => None
  end.

(** A later message; [None] ends the connection. *)
Definition handle_message (cfg : TicketSettings) (app_id : Z) (msg : Message) (apps : gset Z)
    : option (gset Z) :=
  match msg with
  | DenuvoDetected aid =>
      if aid =? app_id then Some (on_denuvo_detected cfg app_id apps) else None
  | DllLoaded aid _ | DllInjectResult aid _ | PeSection aid _ =>
      if aid =? app_id then Some apps else None
  | Hello _ _ _ | Ack => Some apps
  end.

Section connection.
Context {Stream : Type} `{Read Stream, Write Stream} (cfg : TicketSettings).

(** The message loop; the flag tells whether it has ended. A read that timed out
    is retried, so a silent client keeps it running. *)
Fixpoint message_loop (fuel : nat) (app_id : Z) (stream : Stream) (apps : gset Z)
    : bool * Stream * gset Z :=
  match fuel with
  | O => (false, stream, apps)
  | S fuel =>
      match read_message stream with
      | (Err (Io WouldBlock), stream) => message_loop fuel app_id stream apps
      | (Err _, stream) => (true, stream, apps)
      | (Ok msg, stream) =>
          match handle_message cfg app_id msg apps with
          | Some apps => message_loop fuel app_id stream apps
          | None => (true, stream, apps)
          end
      end
  end.

Definition handle_connection (fuel : nat) (tokens : Tokens) (stream : Stream) (apps : gset Z)
    : bool * Stream * gset Z :=
  match read_message stream with
  | (Err _, stream) => (true, stream, apps)
  | (Ok hello, stream) =>
      match authenticate tokens hello with
      | None => (true, stream, apps)
      | Some (app_id, _) =>
          match write_message stream Ack with
          | (Err _, stream) => (true, stream, apps)
          | (Ok _, stream) => message_loop fuel app_id stream apps
          end
      end
  end.
End connection.

(** A stream whose peer has sent [input] and closed; [output] is what was written. *)
Record Duplex := { input : list Z; output : list Z }.

#[export] Instance duplex_read : Read Duplex := λ n s,
  let '(r, rest) := read_exact n (input s) in (r, {| input := rest; output := output s |}).
#[export] Instance duplex_write : Write Duplex := {|
  write_all := λ bytes s, (Ok (), {| input := input s; output := output s ++ bytes |});
  flush := λ s, (Ok (), s) |}.

(** ** The server's shared state *)

(** A connection is waiting for its first message, or speaks for an app. *)
Record Server := {
  sv_tokens : Tokens;
  sv_active : Z;
  sv_connections : gmap nat (option Z);
  sv_apps : gset Z;
}.

Definition server_start : Server :=
  {| sv_tokens := ∅; sv_active := 0; sv_connections := ∅; sv_apps := ∅ |}.

Inductive Event :=
| RegisterToken (token : list Z) (app_id now : Z)
| RevokeStopped (active_app_ids : list Z) (now : Z)
| Accept (id : nat)
| AcceptWithoutThread
| FirstMessage (id : nat) (hello : Message)
| LaterMessage (id : nat) (cfg : TicketSettings) (msg : Message)
| Disconnect (id : nat)
| ForgetApp (app_id : Z).

Section server.
Context (iter : Tokens → list (list Z * TokenEntry)).

(** The handler returns: its connection is gone and the permit is dropped. *)
Definition close (id : nat) (s : Server) : Server :=
  {| sv_tokens := sv_tokens s; sv_active := permit_drop (sv_active s);
     sv_connections := delete id (sv_connections s); sv_apps := sv_apps s |}.

(** An event of a connection that is not in the state it needs changes nothing. *)
Definition server_step (s : Server) (e : Event) : Server :=
  match e with
  | RegisterToken token app_id now =>
      {| sv_tokens := register_token iter token app_id now (sv_tokens s);
         sv_active := sv_active s; sv_connections := sv_connections s; sv_apps := sv_apps s |}
  | RevokeStopped active_app_ids now =>
      {| sv_tokens := update_session_tokens (sv_tokens s) active_app_ids now;
         sv_active := sv_active s; sv_connections := sv_connections s; sv_apps := sv_apps s |}
  | Accept id =>
      match sv_connections s !! id, permit_acquire (sv_active s) with
      | None, Some active =>
          {| sv_tokens := sv_tokens s; sv_active := active;
             sv_connections := <[id := None]> (sv_connections s); sv_apps := sv_apps s |}
      | _, _ => s
      end
  | AcceptWithoutThread =>
      match permit_acquire (sv_active s) with
      | Some active =>
          {| sv_tokens := sv_tokens s; sv_active := permit_drop active;
             sv_connections := sv_connections s; sv_apps := sv_apps s |}
      | None => s
      end
  | FirstMessage id hello =>
      match sv_connections s !! id with
      | Some None =>
          match authenticate (sv_tokens s) hello with
          | Some (app_id, _) =>
              {| sv_tokens := sv_tokens s; sv_active := sv_active s;
                 sv_connections := <[id := Some app_id]> (sv_connections s);
                 sv_apps := sv_apps s |}
          | None => close id s
          end
      | _ => s
      end
  | LaterMessage id cfg msg =>
      match sv_connections s !! id with
      | Some (Some app_id) =>
          match handle_message cfg app_id msg (sv_apps s) with
          | Some apps =>
              {| sv_tokens := sv_tokens s; sv_active := sv_active s;
                 sv_connections := sv_connections s; sv_apps := apps |}
          | None => close id s
          end
      | _ => s
      end
  | Disconnect id => match sv_connections s !! id with Some _ => close id s | None => s end
  | ForgetApp app_id =>
      {| sv_tokens := sv_tokens s; sv_active := sv_active s;
         sv_connections := sv_connections s; sv_apps := remove_auto_delegate app_id (sv_apps s) |}
  end.

Definition serve (events : list Event) : Server := foldl server_step server_start events.
End server.

(** * Properties *)

(** ** Tokens *)

Lemma min_by_key_elem {A} (key : A → Z) l x : min_by_key key l = Some x → x ∈ l.
Proof.
  revert x. induction l as [|y l IH]; intros x; simpl; [done|].
  destruct (min_by_key key l) as [z|]; [case_match|]; intros [= <-]; try left.
  right. by apply IH.
Qed.

Lemma min_by_key_least {A} (key : A → Z) l x :
  min_by_key key l = Some x → ∀ y, y ∈ l → key x ≤ key y.
Proof.
  revert x. induction l as [|y l IH]; intros x; simpl; [done|].
  destruct (min_by_key key l) as [z|] eqn:E.
  - specialize (IH z eq_refl). destruct (Z.leb_spec (key y) (key z)); intros [= <-] w Hw;
      apply elem_of_cons in Hw as [->|Hw]; try lia; specialize (IH w Hw); lia.
  - intros [= <-] w Hw. apply elem_of_cons in Hw as [->|Hw]; [done|].
    destruct l as [|v l]; [by apply elem_of_nil in Hw|]. simpl in E.
    by destruct (min_by_key key l); [case_match|].
Qed.

Lemma min_by_key_some {A} (key : A → Z) l : l ≠ [] → is_Some (min_by_key key l).
Proof.
  destruct l as [|x l]; [done|]. intros _. simpl.
  destruct (min_by_key key l); [case_match|]; eauto.
Qed.

(** A hash map iterates over its bindings in some order. *)
Definition iterates (iter : Tokens → list (list Z * TokenEntry)) : Prop :=
  ∀ m, iter m ≡ₚ map_to_list m.

Section token_lemmas.
Context (iter : Tokens → list (list Z * TokenEntry)) (Hiter : iterates iter).

Lemma iter_elem m k e : (k, e) ∈ iter m ↔ m !! k = Some e.
Proof. by rewrite (Hiter m), elem_of_map_to_list. Qed.

Lemma evict_oldest_subseteq m : evict_oldest iter m ⊆ m.
Proof.
  unfold evict_oldest. case_match; [|done].
  destruct (min_by_key _ _) as [[k e]|]; [|done]. apply delete_subseteq.
Qed.

Lemma evict_oldest_size m :
  (size m ≤ MAX_SESSION_TOKENS)%nat → (size (evict_oldest iter m) < MAX_SESSION_TOKENS)%nat.
Proof.
  intros Hm. unfold evict_oldest. destruct (Nat.eqb_spec (size m) MAX_SESSION_TOKENS) as [He|]; [|lia].
  destruct (min_by_key_some (λ kv, te_registered_at kv.2) (iter m)) as [[k e] Hk].
  { intros Hn. apply (f_equal length) in Hn. rewrite (Hiter m), length_map_to_list, He in Hn. done. }
  rewrite Hk. apply min_by_key_elem, iter_elem in Hk.
  rewrite map_size_delete, Hk. unfold MAX_SESSION_TOKENS in *. lia.
Qed.

Lemma retain_live_subseteq now m : retain_live now m ⊆ m.
Proof. apply map_filter_subseteq. Qed.

Lemma register_token_size token app now m :
  (size m ≤ MAX_SESSION_TOKENS)%nat →
  (size (register_token iter token app now m) ≤ MAX_SESSION_TOKENS)%nat.
Proof.
  intros Hm. unfold register_token.
  pose proof (map_subseteq_size _ _ (retain_live_subseteq now m)).
  pose proof (evict_oldest_size (retain_live now m) ltac:(lia)).
  rewrite map_size_insert. destruct (_ !! token); simpl; lia.
Qed.
End token_lemmas.

Lemma update_entry_spec active now e0 e :
  update_entry active now e0 = Some e ↔
  te_app_id e = te_app_id e0 ∧ te_registered_at e = te_registered_at e0 ∧
  ((te_app_id e0 ∈ active ∧ te_seen_active e = true) ∨
   (te_app_id e0 ∉ active ∧ te_seen_active e0 = false ∧ te_seen_active e = false ∧
    now < te_registered_at e0 + TOKEN_STARTUP_GRACE)).
Proof.
  unfold update_entry, in_grace, saturating_duration_since.
  destruct e0 as [a0 r0 s0], e as [a r s]; simpl.
  case_bool_decide; [split; [intros [= <- <- <-]; auto|]|]; [naive_solver congruence|].
  destruct s0; [naive_solver|].
  destruct (Z.ltb_spec (Z.max 0 (now - r0)) TOKEN_STARTUP_GRACE) as [Hg|Hg];
    unfold TOKEN_STARTUP_GRACE in *.
  - split; [intros [= <- <- <-]|]; [split_and!; [done|done|right; split_and!; try done; lia]|naive_solver].
  - split; [done|]. intros (_ & _ & [[? _]|(_ & _ & _ & ?)]); [done|lia].
Qed.

(** [token_lifecycle]: a registered token is valid at once; it stays valid while its app
    runs; once its app has been seen running it is revoked by the first report without
    it; before that it survives until five minutes after its registration. Registering
    a token never drops a running app's token unless the table is full, and the token
    dropped then is the oldest. *)
Theorem token_lifecycle iter token app now m (Hiter : iterates iter) :
  register_token iter token app now m !! token =
    Some {| te_app_id := app; te_registered_at := now; te_seen_active := false |} ∧
  (∀ active t e,
     update_session_tokens m active now !! t = Some e ↔
     ∃ e0, m !! t = Some e0 ∧ te_app_id e = te_app_id e0 ∧
       te_registered_at e = te_registered_at e0 ∧
       ((te_app_id e0 ∈ active ∧ te_seen_active e = true) ∨
        (te_app_id e0 ∉ active ∧ te_seen_active e0 = false ∧ te_seen_active e = false ∧
         now < te_registered_at e0 + TOKEN_STARTUP_GRACE))) ∧
  (∀ t e, t ≠ token → m !! t = Some e → te_seen_active e = true →
     register_token iter token app now m !! t = Some e ∨
     (size (retain_live now m) = MAX_SESSION_TOKENS ∧
      ∀ t' e', retain_live now m !! t' = Some e' → te_registered_at e ≤ te_registered_at e')).
Proof.
  split; [apply lookup_insert_eq|]. split.
  - intros active t e. unfold update_session_tokens. rewrite lookup_omap.
    destruct (m !! t) as [e0|]; cbn [mbind option_bind]; [|naive_solver].
    rewrite update_entry_spec. naive_solver.
  - intros t e Hne Ht Hs. unfold register_token. rewrite lookup_insert_ne by done.
    assert (Hl : retain_live now m !! t = Some e)
      by (apply map_lookup_filter_Some; simpl; by rewrite Hs).
    unfold evict_oldest. destruct (Nat.eqb_spec (size (retain_live now m)) MAX_SESSION_TOKENS); [|by left].
    destruct (min_by_key _ _) as [[k e1]|] eqn:E; [|by left].
    destruct (decide (k = t)) as [->|]; [|left; by rewrite lookup_delete_ne].
    right. split; [done|]. intros t' e' Ht'.
    pose proof (min_by_key_elem _ _ _ E) as H1. apply iter_elem in H1; [|done].
    rewrite Hl in H1. injection H1 as <-.
    apply (min_by_key_least _ _ _ E (t', e')). by apply iter_elem.
Qed.

(** ** One connection *)

(** What may be added to the delegated apps on behalf of an app. *)
Definition may_delegate (cfg : TicketSettings) (app_id : Z) : bool :=
  auto_delegate cfg && negb (bool_decide (ticket_mode (apps_section cfg) app_id = Delegate)).

Lemma on_denuvo_detected_spec cfg app apps :
  on_denuvo_detected cfg app apps = if may_delegate cfg app then {[app]} ∪ apps else apps.
Proof. unfold on_denuvo_detected, may_delegate. by destruct (auto_delegate cfg), (bool_decide _). Qed.

Lemma handle_message_spec cfg app msg apps apps' :
  handle_message cfg app msg apps = Some apps' →
  apps' = apps ∨ (msg = DenuvoDetected app ∧ may_delegate cfg app = true ∧ apps' = {[app]} ∪ apps).
Proof.
  destruct msg; simpl; try (case_match; intros [= <-]; by left); [by intros [= <-]; left| |by intros [= <-]; left].
  destruct (Z.eqb_spec app_id app) as [->|]; [|done]. intros [= <-].
  rewrite on_denuvo_detected_spec. destruct (may_delegate cfg app); auto.
Qed.

Section connection_safety.
Context {Stream : Type} `{Read Stream, Write Stream} (cfg : TicketSettings).

Lemma message_loop_delegates fuel app stream apps :
  let '(_, _, apps') := message_loop cfg fuel app stream apps in
  apps' = apps ∨ (may_delegate cfg app = true ∧ apps' = {[app]} ∪ apps).
Proof.
  revert stream apps. induction fuel as [|fuel IH]; intros stream apps; simpl; [by left|].
  destruct (read_message stream) as [[msg|[[]| | |]] stream']; try (by left); [|apply IH].
  destruct (handle_message cfg app msg apps) as [apps1|] eqn:Hm; [|by left].
  specialize (IH stream' apps1). destruct (message_loop cfg fuel app stream' apps1) as [[? ?] apps'].
  apply handle_message_spec in Hm as [->|(_ & Hd & ->)]; [done|].
  right. split; [done|]. destruct IH as [->|[_ ->]]; [done|set_solver].
Qed.

(** C39 [connection_delegates_only_its_app]: whatever a client sends and however its
    stream fails, at any point of its connection the delegated apps are unchanged
    or grew by one app; then the client presented a valid token of exactly that app
    first, automatic delegation is on and the app was not delegated by the
    configuration. *)
Theorem connection_delegates_only_its_app fuel tokens stream apps :
  let '(_, _, apps') := handle_connection cfg fuel tokens stream apps in
  apps' = apps ∨
  ∃ token app pid e,
    (read_message stream).1 = Ok (Hello token app pid) ∧
    tokens !! token = Some e ∧ te_app_id e = app ∧
    auto_delegate cfg = true ∧ ticket_mode (apps_section cfg) app = Forge ∧ apps' = {[app]} ∪ apps.
Proof.
  unfold handle_connection. destruct (read_message stream) as [[hello|] s1]; [|by left].
  destruct (authenticate tokens hello) as [[app pid]|] eqn:Ha; [|by left].
  destruct (write_message s1 Ack) as [[[]|] s2]; [|by left].
  pose proof (message_loop_delegates fuel app s2 apps) as Hl.
  destruct (message_loop cfg fuel app s2 apps) as [[? ?] apps'].
  destruct Hl as [->|[Hd ->]]; [by left|right].
  destruct hello as [token aid p| | | | |]; try done. simpl in Ha.
  destruct (tokens !! token) as [e|] eqn:Ht; [|done].
  destruct (Z.eqb_spec (te_app_id e) aid); simplify_eq.
  apply andb_true_iff in Hd as [Hd1 Hd2]. exists token, (te_app_id e), pid, e.
  split_and!; try done. apply negb_true_iff, bool_decide_eq_false in Hd2.
  by destruct (ticket_mode (apps_section cfg) (te_app_id e)).
Qed.
End connection_safety.

(** *** Connections whose peer closes its side *)

Lemma duplex_read_message s :
  read_message s =
  let '(answer, rest) := read_message (input s) in
  (answer, {| input := rest; output := output s |}).
Proof.
  destruct s as [bytes out]. cbv [read_message read_exact duplex_read slice_read input output].
  destruct (length bytes <? 4)%nat; [done|]. case_goal; [done|].
  by destruct (length (drop 4 bytes) <? _)%nat.
Qed.

(** A slice never asks to be read again, and every message read shortens it. *)
Lemma slice_read_message bytes :
  match read_message bytes with
  | (Err (Io k), _) => k = UnexpectedEof
  | (Err _, _) => True
  | (Ok _, rest) => (length rest < length bytes)%nat
  end.
Proof.
  unfold read_message, read_exact, slice_read.
  destruct (Nat.ltb_spec (length bytes) 4); [done|]. destruct (_ || _); [done|].
  destruct (Nat.ltb_spec (length (drop 4 bytes)) (Z.to_nat (le_value (take 4 bytes)))); [done|].
  destruct (decode_payload _) as [m|[k| | |]] eqn:E; try done.
  - rewrite !length_drop. lia.
  - by apply decode_payload_no_io in E.
Qed.

Lemma message_loop_ends cfg fuel app s apps :
  (length (input s) < fuel)%nat → (message_loop cfg fuel app s apps).1.1 = true.
Proof.
  revert s apps. induction fuel as [|fuel IH]; intros s apps Hf; [lia|].
  cbn [message_loop]. rewrite duplex_read_message.
  pose proof (slice_read_message (input s)) as Hr.
  destruct (read_message (input s)) as [[msg|[k| | |]] rest]; try done; [|by subst k].
  destruct (handle_message cfg app msg apps); [|done]. apply IH. simpl. lia.
Qed.

(** [connection_terminates]: a connection whose peer closes its side ends, whatever was
    sent. *)
Theorem connection_terminates cfg fuel tokens s apps
    (Hf : (length (input s) < fuel)%nat) :
  (handle_connection cfg fuel tokens s apps).1.1 = true.
Proof.
  unfold handle_connection. rewrite duplex_read_message.
  pose proof (slice_read_message (input s)) as Hr.
  destruct (read_message (input s)) as [[hello|[k| | |]] rest]; try done.
  destruct (authenticate tokens hello) as [[app pid]|]; [|done].
  unfold write_message, write_all, flush, duplex_write. apply message_loop_ends. simpl. lia.
Qed.

Definition message_app (m : Message) : option Z :=
  match m with
  | DenuvoDetected app | DllLoaded app _ | DllInjectResult app _ | PeSection app _ => Some app
  | Hello _ _ _ | Ack => None
  end.

Lemma handle_message_own cfg app m apps :
  (∀ a, message_app m = Some a → a = app) →
  handle_message cfg app (clipped m) apps =
  Some (if bool_decide (m = DenuvoDetected app) then on_denuvo_detected cfg app apps else apps).
Proof.
  intros Ha. destruct m; simpl in *; try done;
    try specialize (Ha _ eq_refl); subst; rewrite ?Z.eqb_refl; try done.
  by rewrite bool_decide_true.
Qed.

Lemma message_loop_honest cfg fuel app ms out apps :
  (length ms < fuel)%nat →
  Forall (λ m, message_ok m ∧ ∀ a, message_app m = Some a → a = app) ms →
  message_loop cfg fuel app {| input := ms ≫= encode; output := out |} apps =
  (true, {| input := []; output := out |},
   if bool_decide (DenuvoDetected app ∈ ms) && may_delegate cfg app then {[app]} ∪ apps else apps).
Proof.
  revert fuel apps. induction ms as [|m ms IH]; intros [|fuel] apps Hf Hms; simpl in Hf; try lia;
    cbn [message_loop]; rewrite duplex_read_message.
  { rewrite bool_decide_false by apply not_elem_of_nil. done. }
  apply Forall_cons in Hms as [[Hok Happ] Hms].
  cbn [input output]. rewrite bind_cons, read_encode by done.
  rewrite handle_message_own, IH by (done || lia). f_equal.
  rewrite on_denuvo_detected_spec.
  destruct (decide (m = DenuvoDetected app)) as [->|Hne].
  - rewrite !(bool_decide_true (DenuvoDetected app = _)), (bool_decide_true (_ ∈ _ :: _)) by (done || left).
    destruct (may_delegate cfg app); [|by rewrite andb_false_r].
    simpl. destruct (bool_decide _); [set_solver|done].
  - rewrite (bool_decide_false (m = _)) by done.
    rewrite (bool_decide_ext (_ ∈ m :: ms) (DenuvoDetected app ∈ ms)); [done|].
    rewrite elem_of_cons. naive_solver.
Qed.

(** [honest_session]: a helper that presents its launch token and then reports about its
    own app is acknowledged once, its whole input is read, the connection ends when it
    hangs up, and its app is delegated exactly when it reported Denuvo and the settings
    allow it. *)
Theorem honest_session cfg fuel tokens token pid e ms apps
    (Htoken : tokens !! token = Some e)
    (Hhello : message_ok (Hello token (te_app_id e) pid))
    (Hms : Forall (λ m, message_ok m ∧ ∀ a, message_app m = Some a → a = te_app_id e) ms)
    (Hfuel : (length ms < fuel)%nat) :
  handle_connection cfg fuel tokens
    {| input := encode (Hello token (te_app_id e) pid) ++ (ms ≫= encode); output := [] |} apps =
  (true, {| input := []; output := encode Ack |},
   if bool_decide (DenuvoDetected (te_app_id e) ∈ ms) && may_delegate cfg (te_app_id e)
   then {[te_app_id e]} ∪ apps else apps).
Proof.
  unfold handle_connection. rewrite duplex_read_message. cbn [input output].
  rewrite read_encode by done. cbn [clipped authenticate]. rewrite Htoken, Z.eqb_refl.
  unfold write_message, write_all, flush, duplex_write. cbn [input output].
  by rewrite message_loop_honest.
Qed.

(** ** The server under any interleaving *)

Definition registered (events : list Event) (token : list Z) (app_id : Z) : Prop :=
  ∃ now, RegisterToken token app_id now ∈ events.

Record server_inv (events : list Event) (s : Server) : Prop := {
  inv_tokens : (size (sv_tokens s) ≤ MAX_SESSION_TOKENS)%nat;
  inv_active : sv_active s = Z.of_nat (size (sv_connections s));
  inv_limit : sv_active s ≤ MAX_IPC_CONNECTIONS;
  inv_registered :
    ∀ token e, sv_tokens s !! token = Some e → registered events token (te_app_id e);
  inv_speaks :
    ∀ id app, sv_connections s !! id = Some (Some app) → ∃ token, registered events token app;
  inv_apps : ∀ app, app ∈ sv_apps s → ∃ token, registered events token app;
}.

Lemma registered_snoc events e token app :
  registered events token app → registered (events ++ [e]) token app.
Proof. intros [now H]. exists now. apply elem_of_app. by left. Qed.

#[local] Hint Resolve registered_snoc : core.

Lemma server_inv_snoc events e s : server_inv events s → server_inv (events ++ [e]) s.
Proof. intros [? ? ? ? Hs Ha]. split; [done..| | |]; naive_solver eauto. Qed.

Lemma permit_drop_acquired active : 0 < active < 2 ^ 64 → permit_drop active = active - 1.
Proof. intros H. unfold permit_drop. apply Z.mod_small. lia. Qed.

Lemma close_inv events id c s :
  server_inv events s → sv_connections s !! id = Some c → server_inv events (close id s).
Proof.
  intros [Ht Ha Hl Hr Hs Happs] Hid.
  assert (Hsize : size (delete id (sv_connections s)) = pred (size (sv_connections s)))
    by by rewrite map_size_delete, Hid.
  assert (Hpos : size (sv_connections s) ≠ 0%nat).
  { rewrite map_size_ne_0_lookup. eauto. }
  unfold MAX_IPC_CONNECTIONS in *.
  assert (Hdrop : permit_drop (sv_active s) = sv_active s - 1)
    by (apply permit_drop_acquired; lia).
  split; simpl; try done; rewrite ?Hdrop; [lia|unfold MAX_IPC_CONNECTIONS; lia|].
  intros id' app [_ H]%lookup_delete_Some. by eapply Hs.
Qed.

Lemma update_registered (tokens : Tokens) active now token e :
  update_session_tokens tokens active now !! token = Some e →
  ∃ e0, tokens !! token = Some e0 ∧ te_app_id e = te_app_id e0.
Proof.
  unfold update_session_tokens. rewrite lookup_omap. intros (e0 & He0 & H)%bind_Some.
  apply update_entry_spec in H as [? _]. eauto.
Qed.

Section server_steps.
Context (iter : Tokens → list (list Z * TokenEntry)) (Hiter : iterates iter).

Lemma register_inv events token app now s :
  server_inv events s →
  server_inv (events ++ [RegisterToken token app now])
    (server_step iter s (RegisterToken token app now)).
Proof.
  intros Hinv. destruct (server_inv_snoc _ (RegisterToken token app now) _ Hinv) as [Ht Ha Hl Hr Hs Happs].
  split; simpl; try done; [by apply register_token_size|].
  intros t e. unfold register_token. destruct (decide (t = token)) as [->|Hne].
  - rewrite lookup_insert_eq. intros [= <-]. exists now. apply elem_of_app. right. by left.
  - rewrite lookup_insert_ne by done. intros H. apply Hr.
    eapply lookup_weaken; [exact H|].
    etrans; [apply evict_oldest_subseteq|apply retain_live_subseteq].
Qed.

Lemma revoke_inv events active now s :
  server_inv events s → server_inv events (server_step iter s (RevokeStopped active now)).
Proof.
  intros [Ht Ha Hl Hr Hs Happs]. split; simpl; try done.
  - etrans; [|exact Ht]. unfold update_session_tokens. rewrite <-!size_dom.
    apply subseteq_size. apply dom_omap_subseteq.
  - intros t e (e0 & He0 & ->)%update_registered. by apply Hr.
Qed.

Lemma accept_inv events id s :
  server_inv events s → server_inv events (server_step iter s (Accept id)).
Proof.
  intros Hinv. simpl. destruct (sv_connections s !! id) eqn:Hid; [done|].
  unfold permit_acquire. destruct (Z.ltb_spec (sv_active s) MAX_IPC_CONNECTIONS); [|done].
  destruct Hinv as [Ht Ha Hl Hr Hs Happs]. split; simpl; try done.
  - rewrite map_size_insert_None by done. lia.
  - lia.
  - intros id' app. destruct (decide (id' = id)) as [->|]; [by rewrite lookup_insert_eq|].
    rewrite lookup_insert_ne by done. apply Hs.
Qed.

Lemma first_message_inv events id hello s :
  server_inv events s → server_inv events (server_step iter s (FirstMessage id hello)).
Proof.
  intros Hinv. simpl. destruct (sv_connections s !! id) as [[|]|] eqn:Hid; [done| |done].
  destruct (authenticate (sv_tokens s) hello) as [[app pid]|] eqn:Hauth;
    [|by eapply close_inv].
  destruct Hinv as [Ht Ha Hl Hr Hs Happs]. split; simpl; try done.
  - by rewrite map_size_insert_Some by eauto.
  - intros id' app'. destruct (decide (id' = id)) as [->|].
    + rewrite lookup_insert_eq. intros [= <-].
      destruct hello as [token aid p| | | | |]; try done. simpl in Hauth.
      destruct (sv_tokens s !! token) as [e|] eqn:He; [|done].
      destruct (Z.eqb_spec (te_app_id e) aid); simplify_eq. eauto.
    + rewrite lookup_insert_ne by done. apply Hs.
Qed.

Lemma later_message_inv events id cfg msg s :
  server_inv events s → server_inv events (server_step iter s (LaterMessage id cfg msg)).
Proof.
  intros Hinv. simpl. destruct (sv_connections s !! id) as [[app|]|] eqn:Hid; [|done..].
  destruct (handle_message cfg app msg (sv_apps s)) as [apps|] eqn:Hm; [|by eapply close_inv].
  destruct Hinv as [Ht Ha Hl Hr Hs Happs]. split; simpl; try done.
  intros app'. apply handle_message_spec in Hm as [->|(_ & _ & ->)]; [apply Happs|].
  intros [->%elem_of_singleton|H]%elem_of_union; [by eapply Hs|by apply Happs].
Qed.

Lemma server_step_inv events e s :
  server_inv events s → server_inv (events ++ [e]) (server_step iter s e).
Proof.
  intros H. destruct e as [| | |active_app| | |id|app].
  - by apply register_inv.
  - by apply server_inv_snoc, revoke_inv.
  - by apply server_inv_snoc, accept_inv.
  - apply server_inv_snoc. simpl. unfold permit_acquire.
    destruct (Z.ltb_spec (sv_active s) MAX_IPC_CONNECTIONS); [|done].
    destruct H as [Ht Ha Hl Hr Hs Happs].
    rewrite permit_drop_acquired by (unfold MAX_IPC_CONNECTIONS in *; lia).
    split; simpl; try done; lia.
  - by apply server_inv_snoc, first_message_inv.
  - by apply server_inv_snoc, later_message_inv.
  - apply server_inv_snoc. simpl. destruct (sv_connections s !! id) eqn:?; [by eapply close_inv|done].
  - apply server_inv_snoc. destruct H as [Ht Ha Hl Hr Hs Happs]. split; simpl; try done.
    intros app'. unfold remove_auto_delegate. set_solver.
Qed.
End server_steps.

(** C33 [server_invariant]: under any interleaving of launches, reports of running apps,
    connections and their messages, the server holds at most 1024 tokens and 128
    connections, its permit counter is the number of live connections, a token always
    maps to the app it was registered for, and both the apps that connections speak
    for and the apps that are delegated had a token registered for them. *)
Theorem server_invariant iter events (Hiter : iterates iter) :
  server_inv events (serve iter events).
Proof.
  unfold serve. induction events as [|e events IH] using rev_ind.
  - split; simpl; try done. rewrite map_size_empty. apply Nat.le_0_l.
  - rewrite foldl_snoc. by apply server_step_inv.
Qed.
