(* ===== verification/BridgeExamples.v ===== *)
(** * BridgeExamples: controlled apps, backend playtime and the game bridge on concrete data *)

From Stdlib Require Import ZArith Lia.
From S2P Require Import Prelude RustStd CloudCore Apps PlaytimeDownlink GameBridge IpcServer.

Local Open Scope Z_scope.

(** ** Apps and playtime *)

Definition sample_apps : list InjectApp :=
  [{| ia_id := 480; ia_dlc := [481; 482]; ia_ticket := Forge; ia_purchase_time := 0 |};
   {| ia_id := 481; ia_dlc := [480; 500]; ia_ticket := Delegate; ia_purchase_time := 7 |}].

Definition sample_section : AppsSection :=
  {| as_inject := sample_apps; as_shared := shared_default; as_index := None |}.

(** A DLC of an earlier entry stays one although a later entry injects it. *)
Example sample_categories :
  (λ app, (app_category sample_section app).1) <$> [480; 481; 500; 9] =
  [Some Inject; Some (InjectDlc 480); Some (InjectDlc 481); None].
Proof. by vm_compute. Qed.

Definition genuine : OwnershipObservation :=
  {| ob_original_result := true; ob_owns_license := true; ob_family_shared := false |}.
Definition unlicensed : OwnershipObservation :=
  {| ob_original_result := false; ob_owns_license := false; ob_family_shared := false |}.

Definition sample_calls : list AccountCall :=
  [SubscribedApps [] 0; ResetAccount; Observe 481 genuine; SubscribedApps [1; 0; 0] 1].

Lemma sample_section_ok : index_ok sample_section.
Proof. by intros index. Qed.

Lemma ownership_decisions_witness :
  let a := account_run sample_section sample_calls in
  de_grant_spoofed_ownership (decide_check_ownership sample_section a 480 unlicensed) = true ↔
  480 ∈ inject_app_ids sample_section ∧ original_result_is_genuinely_owned unlicensed = false ∧
  last_since (λ c, ∃ l n, c = SubscribedApps l n) resets sample_calls.
Proof. apply (ownership_decisions sample_section sample_calls 480 unlicensed sample_section_ok). Defined.

(** The sample run does grant 480 and does not inject the genuinely owned 481. *)
Example sample_run :
  let a := account_run sample_section sample_calls in
  de_grant_spoofed_ownership (decide_check_ownership sample_section a 480 unlicensed) = true ∧
  requires_injected_ownership (classify_app sample_section a 481) = false.
Proof. by vm_compute. Qed.

Lemma subscribed_apps_spec_witness :
  let '(count, buffer, a') :=
    on_get_subscribed_apps sample_section account_new [481; 77; 77; 77] 1 in
  ac_license_sync_complete a' = true ∧ count = 2 ∧ buffer = [481; 480; 0; 0].
Proof.
  pose proof (subscribed_apps_spec sample_section account_new [481; 77; 77; 77] 1
                ltac:(simpl; unfold u32_max; lia) ltac:(int_lia)) as H.
  split; [apply H|]. by vm_compute.
Defined.

(** ** Playtime *)

Definition sample_cached (app minutes : Z) : CachedPlaytime :=
  {| cp_app_id := app; cp_playtime_minutes := minutes; cp_playtime_2weeks_minutes := 0;
     cp_last_played_at := Some 100 |}.

Definition sample_backend : gmap Z CachedPlaytime :=
  {[480 := sample_cached 480 60; 481 := sample_cached 481 5]}.

Definition sample_games : list PlayerLastPlayedGame :=
  omap steam_game [sample_cached 12 3; sample_cached 480 1; sample_cached 500 9].

Definition sample_requires (app_id : Z) : bool := bool_decide (app_id ∈ [480; 481; 500]).

Lemma sample_backend_keys app_id e :
  sample_backend !! app_id = Some e → cp_app_id e = app_id ∧ 0 < app_id ≤ i32_max.
Proof.
  unfold sample_backend. rewrite lookup_insert_Some, lookup_singleton_Some.
  unfold i32_max. intros [[<- <-]|[_ [<- <-]]]; simpl; lia.
Qed.

Lemma overlay_serves_backend_witness :
  overlay_games sample_requires sample_games (Known sample_backend) true ≠ Some sample_games.
Proof.
  apply (overlay_serves_backend sample_requires sample_backend sample_games true sample_backend_keys).
Defined.

(** Other apps stay, 480 gets the backend's minutes, 500 is dropped, 481 is added. *)
Example sample_overlay :
  overlay_games sample_requires sample_games (Known sample_backend) true =
  Some (omap steam_game [sample_cached 12 3; sample_cached 480 60; sample_cached 481 5]).
Proof. by vm_compute. Qed.

Definition sample_key : RuntimeKey :=
  {| rk_credential_fingerprint := "fp"; rk_steam_id64 := 1; rk_identity_generation := 1;
     rk_client_id := 2; rk_runtime_generation := 1 |}.

Definition sample_snapshot (revision minutes : Z) : Snapshot :=
  (revision,
   [{| pe_owner_scope := "s"; pe_owner_steam_id64 := "1"; pe_app_id := 480;
       pe_playtime_minutes := minutes; pe_playtime_2weeks_minutes := 0;
       pe_last_played_at := None; pe_observed_at := revision |}]).

Definition map_values (m : gmap Z CachedPlaytime) : list CachedPlaytime := (map_to_list m).*2.

Lemma cache_keeps_newest_witness :
  deliver map_values sample_key cache_clear [sample_snapshot 3 9; sample_snapshot 2 5] =
  deliver map_values sample_key cache_clear
    [sample_snapshot 2 5; sample_snapshot 3 9; sample_snapshot 2 5].
Proof.
  apply (cache_keeps_newest map_values sample_key).
  - repeat constructor.
  - intros s t [->|[->|[]%elem_of_nil]%elem_of_cons]%elem_of_cons
      [->|[->|[]%elem_of_nil]%elem_of_cons]%elem_of_cons; simpl; try done; lia.
  - intros s. rewrite !elem_of_cons. tauto.
Defined.

Lemma store_reports_changes_witness :
  let '(changed, cache') :=
    store_backend_playtime map_values cache_clear sample_key 3 (sample_snapshot 3 9).2 in
  changed = None ↔
    pc_key cache_clear = Some sample_key ∧ (3 : Z) ≠ 0 ∧ pc_revision cache_clear ≠ 0 ∧
    3 ≤ pc_revision cache_clear.
Proof.
  exact (proj1 (store_reports_changes map_values cache_clear sample_key 3 (sample_snapshot 3 9).2
                  (λ m, reflexivity _))).
Defined.

(** ** The game bridge *)

Definition sample_token : list Z := replicate 32 7.
Definition sample_hello : Message := Hello sample_token 480 1234.
Definition sample_reports : list Message := [DllLoaded 480 "denuvo64.dll"; DenuvoDetected 480].

Lemma sample_token_ok : length sample_token = TOKEN_LEN ∧ Forall in_u8 sample_token.
Proof. split; [done|]. apply Forall_replicate. int_lia. Qed.

Lemma sample_hello_ok : message_ok sample_hello.
Proof. destruct sample_token_ok. cbn [message_ok sample_hello]. split_and!; auto; int_lia. Qed.

Lemma sample_reports_ok :
  Forall (λ m, message_ok m ∧ ∀ a, message_app m = Some a → a = 480) sample_reports.
Proof.
  repeat constructor; cbn [message_app]; try int_lia; try (by intros a [= <-]); by vm_compute.
Qed.

Lemma bridge_stream_roundtrip_witness :
  ∃ wire,
    write_messages [] (sample_hello :: sample_reports) = (Ok (), wire) ∧
    read_messages 3 (wire ++ [1; 2]) = (Ok (clipped <$> sample_hello :: sample_reports), [1; 2]) ∧
    (Forall short_names (sample_hello :: sample_reports) →
     clipped <$> sample_hello :: sample_reports = sample_hello :: sample_reports).
Proof.
  apply (bridge_stream_roundtrip (sample_hello :: sample_reports) [1; 2]).
  constructor; [exact sample_hello_ok|].
  eapply Forall_impl; [exact sample_reports_ok|]. by intros m [? _].
Defined.

Lemma bridge_decode_sound_witness : message_ok (DenuvoDetected 480).
Proof.
  apply (bridge_decode_sound [5; 0; 0; 0; 2; 224; 1; 0; 0]).
  - repeat (apply Forall_cons_2; [int_lia|]). constructor.
  - by vm_compute.
Defined.

Lemma token_hex_roundtrip_witness :
  token_from_hex (token_to_hex sample_token) = Some sample_token ∧
  (token_from_hex (str_bytes "ab") = Some sample_token ↔
   length (str_bytes "ab") = (TOKEN_LEN * 2)%nat ∧
   lower <$> str_bytes "ab" = token_to_hex sample_token).
Proof. apply (token_hex_roundtrip sample_token (str_bytes "ab")); apply sample_token_ok. Defined.

(** ** The server *)

Definition map_order : Tokens → list (list Z * TokenEntry) := map_to_list.

Lemma map_order_iterates : iterates map_order.
Proof. by intros m. Qed.

Lemma token_lifecycle_witness :
  register_token map_order sample_token 480 5 ∅ !! sample_token =
  Some {| te_app_id := 480; te_registered_at := 5; te_seen_active := false |}.
Proof. apply (token_lifecycle map_order sample_token 480 5 ∅ map_order_iterates). Defined.

Definition sample_settings : TicketSettings := {| auto_delegate := true; apps_section := with_inject [] |}.
Definition sample_entry : TokenEntry :=
  {| te_app_id := 480; te_registered_at := 0; te_seen_active := false |}.
Definition sample_tokens : Tokens := {[sample_token := sample_entry]}.
Definition sample_input : list Z := encode sample_hello ++ (sample_reports ≫= encode).

Lemma honest_session_witness :
  handle_connection sample_settings 3 sample_tokens {| input := sample_input; output := [] |} ∅ =
  (true, {| input := []; output := encode Ack |},
   if bool_decide (DenuvoDetected 480 ∈ sample_reports) && may_delegate sample_settings 480
   then {[480]} ∪ ∅ else ∅).
Proof.
  apply (honest_session sample_settings 3 sample_tokens sample_token 1234 sample_entry).
  - apply lookup_singleton_eq.
  - exact sample_hello_ok.
  - exact sample_reports_ok.
  - simpl. lia.
Defined.

Lemma connection_terminates_witness :
  (handle_connection sample_settings 20 ∅ {| input := [1; 2; 3]; output := [] |} ∅).1.1 = true.
Proof. apply (connection_terminates sample_settings 20 ∅). simpl. lia. Defined.

Definition sample_events : list Event :=
  [RegisterToken sample_token 480 0; Accept 1; FirstMessage 1 sample_hello;
   LaterMessage 1 sample_settings (DenuvoDetected 480); Disconnect 1].

Lemma server_invariant_witness : server_inv sample_events (serve map_order sample_events).
Proof. apply (server_invariant map_order sample_events map_order_iterates). Defined.

(** The events of the sample do delegate the app. *)
Example sample_events_delegate :
  is_auto_delegate 480 (sv_apps (serve map_order sample_events)) = true.
Proof. by vm_compute. Qed.

(** ** A pause inside a message

    [read_exact] consumes what it has read before it reports a time-out, and the
    message loop starts over at the next byte: a client that pauses inside a message
    is disconnected as if it had sent garbage. *)

Inductive Arrival := Bytes (l : list Z) | Pause.

Fixpoint socket_read (n : nat) (got : list Z) (s : list Arrival)
    : result ErrorKind (list Z) * list Arrival :=
  match s with
  | [] => if (n <=? length got)%nat then (Ok got, []) else (Err UnexpectedEof, [])
  | Pause :: s => if (n <=? length got)%nat then (Ok got, Pause :: s) else (Err WouldBlock, s)
  | Bytes l :: s =>
      let missing := (n - length got)%nat in
      if (missing <=? length l)%nat
      then (Ok (got ++ take missing l), Bytes (drop missing l) :: s)
      else socket_read n (got ++ l) s
  end.

#[export] Instance socket : Read (list Arrival) := λ n s, socket_read n [] s.
#[export] Instance socket_write : Write (list Arrival) :=
  {| write_all := λ _ s, (Ok (), s); flush := λ s, (Ok (), s) |}.

Example pause_inside_a_message :
  let wire := encode (DenuvoDetected 480) in
  is_auto_delegate 480
    (message_loop sample_settings 9 480 [Bytes wire] ∅).2 = true ∧
  is_auto_delegate 480
    (message_loop sample_settings 9 480 [Bytes (take 2 wire); Pause; Bytes (drop 2 wire)] ∅).2 = false.
Proof. split; by vm_compute. Qed.
