(* ===== verification/LocalSync.v ===== *)
(** * LocalSync: the folder backend of [crates/cloud-local/src/sync.rs]

    A shared folder holds, per account and app, one JSON record per device for
    playtime and one for achievements and stats. Devices write their own record and
    read everyone's: [reduce_app_state] and [reduce_playtime] converge them,
    [fold_device_records] and [fold_playtime_records] fold a new observation into
    the device's own record.

    A [Folder] is the directory tree as the file system lists it. Serialization
    (serde) and the digest (sha2) are parameters; a fault of a file write is an
    argument of the operation that writes. *)

From Stdlib Require Import ZArith Lia.
From S2P Require Import Prelude RustStd CloudCore.

Local Open Scope Z_scope.

Definition STATS_DIR : string := "stats".
Definition PLAYTIME_DIR : string := "playtime".
Definition MAX_STATS_RECORD_BYTES : Z := 16 * 1024 * 1024.
Definition MAX_STATS_ENTRIES : Z := 100000.
Definition MAX_PLAYTIME_RECORD_BYTES : Z := 64 * 1024.
Definition MAX_DEVICE_RECORDS : nat := 4096.
Definition MAX_ACCOUNT_APPS : Z := 100000.

(** ** Records *)

Record PlaytimeRecord := {
  lp_steam_id64 : string;
  lp_client_id : Z;
  lp_entry : PlaytimeEntry;
}.

Record StoredAchievementState := {
  sa_key : string;
  sa_unlocked : bool;
  sa_unlocked_at : option Z;
}.

Record StoredStatState := {
  sv_key : string;
  sv_value_type : string;
  sv_value : string;
}.

Record SteamAppStateRecord := {
  sp_steam_id64 : string;
  sp_client_id : Z;
  sp_app_id : Z;
  sp_commit_id : string;
  sp_observed_at : Z;
  sp_achievements : list StoredAchievementState;
  sp_stats : list StoredStatState;
}.

#[export] Instance PlaytimeRecord_eq_dec : EqDecision PlaytimeRecord.
Proof. solve_decision. Defined.
#[export] Instance StoredAchievementState_eq_dec : EqDecision StoredAchievementState.
Proof. solve_decision. Defined.
#[export] Instance StoredStatState_eq_dec : EqDecision StoredStatState.
Proof. solve_decision. Defined.
#[export] Instance SteamAppStateRecord_eq_dec : EqDecision SteamAppStateRecord.
Proof. solve_decision. Defined.

(** ** Errors *)

Definition permanent (message : string) : BackendError :=
  {| be_message := message; be_retryable := false |}.
Definition io_error (error : string) : BackendError :=
  {| be_message := "local account sync I/O failed: " ++ error; be_retryable := true |}.
Definition json_error (error : string) : BackendError :=
  {| be_message := "local account sync metadata failed: " ++ error; be_retryable := false |}.

Notation BR := (result BackendError).

Definition json {A} (r : result string A) : BR A :=
  match r with Ok a => Ok a | Err e => Err (json_error e) end.

(** ** Names *)

Definition validate_steam_id (value : string) : BR unit :=
  match parse_unsigned u64_max (str_bytes value) with
  | Some n => if n =? 0 then Err (permanent "invalid Steam account ID") else Ok tt
  | None => Err (permanent "invalid Steam account ID")
  end.

(** [record_client_id]: the device a record file belongs to, from its name. *)
Definition record_client_id (name : string) : BR Z :=
  match parse_unsigned u64_max (stem_and_extension (str_bytes name)).1 with
  | Some n => if n =? 0 then Err (permanent "invalid local ClientID record name") else Ok n
  | None => Err (permanent "invalid local ClientID record name")
  end.

Definition is_json (name : string) : bool :=
  bool_decide ((stem_and_extension (str_bytes name)).2 = Some (str_bytes "json")).

(** [format!("{client_id}.json")] *)
Definition record_name (client_id : Z) : string :=
  bytes_str (dec_text client_id ++ str_bytes ".json").

(** ** Validation *)

Definition validate_playtime_record (record : PlaytimeRecord) (steam_id64 : string)
    (app_id : Z) (path : option string) : BR unit :=
  let e := lp_entry record in
  if negb (bool_decide (lp_steam_id64 record = steam_id64))
     || (lp_client_id record =? 0)
     || negb (pe_app_id e =? app_id)
     || (pe_observed_at e <=? 0)
     || match pe_last_played_at e with Some value => value <? 0 | None => false end
     || (negb (bool_decide (pe_owner_steam_id64 e = ""))
         && negb (bool_decide (pe_owner_steam_id64 e = steam_id64)))
     || match path with
        | Some path => negb (bool_decide (ok (record_client_id path) = Some (lp_client_id record)))
        | None => false
        end
  then Err (permanent "invalid local playtime observation") else Ok tt.

(** The loops over keys carry the set of keys seen so far. *)
Fixpoint validate_achievements (seen : gset string) (l : list StoredAchievementState)
    : BR unit :=
  match l with
  | [] => Ok tt
  | a :: rest =>
      let key := trim (str_bytes (sa_key a)) in
      if bool_decide (key = [])
         || (255 <? Z.of_nat (length key))
         || bool_decide (0 ∈ key)
         || bool_decide (sa_key a ∈ seen)
         || match sa_unlocked_at a with
            | Some value => (value <=? 0) || (u32_max <? value) || negb (sa_unlocked a)
            | None => false
            end
      then Err (permanent "invalid local Steam achievement state")
      else validate_achievements ({[sa_key a]} ∪ seen) rest
  end.

Definition valid_stat_value (s : StoredStatState) : bool :=
  if decide (sv_value_type s = "int")
  then match parse_signed i32_min i32_max (str_bytes (sv_value s)) with Some _ => true | None => false end
  else if decide (sv_value_type s = "float" ∨ sv_value_type s = "average_rate")
  then parse_f32_ok (str_bytes (sv_value s))
  else false.

Fixpoint validate_stats (seen : gset string) (l : list StoredStatState) : BR unit :=
  match l with
  | [] => Ok tt
  | s :: rest =>
      let key := trim (str_bytes (sv_key s)) in
      if bool_decide (key = [])
         || (255 <? Z.of_nat (length key))
         || bool_decide (0 ∈ key)
         || bool_decide (sv_key s ∈ seen)
         || (255 <? str_len (sv_value s))
         || contains_nul (sv_value s)
         || negb (valid_stat_value s)
      then Err (permanent "invalid local Steam stat state")
      else validate_stats ({[sv_key s]} ∪ seen) rest
  end.

(** [achievements.len().checked_add(stats.len())] cannot overflow: two lists in
    memory have fewer than 2^64 elements together. *)
Definition validate_stats_record (record : SteamAppStateRecord) (steam_id64 : string)
    (app_id : Z) (path : option string) : BR unit :=
  if negb (bool_decide (sp_steam_id64 record = steam_id64))
     || (sp_client_id record =? 0)
     || negb (sp_app_id record =? app_id)
     || bool_decide (sp_commit_id record = "")
     || (255 <? str_len (sp_commit_id record))
     || contains_nul (sp_commit_id record)
     || (sp_observed_at record <=? 0)
     || (MAX_STATS_ENTRIES <?
           Z.of_nat (length (sp_achievements record) + length (sp_stats record)))
     || match path with
        | Some path => negb (bool_decide (ok (record_client_id path) = Some (sp_client_id record)))
        | None => false
        end
  then Err (permanent "invalid local Steam app state record")
  else
    _ ← validate_achievements ∅ (sp_achievements record);
    validate_stats ∅ (sp_stats record).

(** ** Convergence *)

Definition max_option (a b : option Z) : option Z :=
  match a, b with
  | Some a, Some b => Some (Z.max a b)
  | some, None => some
  | None, some => some
  end.

(** The earliest known time of the two [match]es on [unlocked_at]. *)
Definition min_option (a b : option Z) : option Z :=
  match a, b with
  | Some a, Some b => Some (Z.min a b)
  | some, None => some
  | None, some => some
  end.

(** The occupied branch of [merge_achievement]. *)
Definition join_achievement (current incoming : AchievementSyncState) : AchievementSyncState :=
  let unlocked := ach_unlocked current || ach_unlocked incoming in
  {| ach_app_id := ach_app_id current; ach_achievement_key := ach_achievement_key current;
     ach_unlocked := unlocked;
     ach_progress_current := ach_progress_current current;
     ach_progress_max := ach_progress_max current;
     ach_observed_at := Z.max (ach_observed_at current) (ach_observed_at incoming);
     ach_unlocked_at :=
       if unlocked then min_option (ach_unlocked_at current) (ach_unlocked_at incoming)
       else None |}.

Definition merge_achievement (states : gmap (Z * string) AchievementSyncState)
    (key : Z * string) (incoming : AchievementSyncState)
    : gmap (Z * string) AchievementSyncState :=
  match states !! key with
  | Some current => <[key := join_achievement current incoming]> states
  | None => <[key := incoming]> states
  end.

Definition MergeOrder : Type := Z * (Z * string).

(** [a > b] of a derived [Ord]. *)
Definition later {K} {O : KeyOrd K} (a b : K) : bool := negb (bool_decide (kle a b)).

Definition insert_latest {K V} `{Countable K} {I} {O : KeyOrd I} (states : gmap K (V * I))
    (key : K) (state : V) (order : I) : gmap K (V * I) :=
  if match states !! key with None => true | Some current => later order current.2 end
  then <[key := (state, order)]> states else states.

Definition merge_order (record : SteamAppStateRecord) : MergeOrder :=
  (sp_observed_at record, (sp_client_id record, sp_commit_id record)).

Definition achievement_state (record : SteamAppStateRecord) (a : StoredAchievementState)
    : AchievementSyncState :=
  {| ach_app_id := sp_app_id record; ach_achievement_key := sa_key a;
     ach_unlocked := sa_unlocked a; ach_progress_current := None; ach_progress_max := None;
     ach_observed_at := sp_observed_at record; ach_unlocked_at := sa_unlocked_at a |}.

Definition stat_state (record : SteamAppStateRecord) (s : StoredStatState) : StatSyncState :=
  {| st_app_id := sp_app_id record; st_stat_key := sv_key s;
     st_value_type := sv_value_type s; st_value := sv_value s;
     st_observed_at := sp_observed_at record |}.

(** One iteration of [reduce_app_state]'s loop. *)
Definition reduce_record
    (acc : gmap (Z * string) AchievementSyncState * gmap (Z * string) (StatSyncState * MergeOrder))
    (record : SteamAppStateRecord) :=
  (foldl (λ m a, merge_achievement m (sp_app_id record, sa_key a) (achievement_state record a))
     acc.1 (sp_achievements record),
   foldl (λ m s, insert_latest m (sp_app_id record, sv_key s) (stat_state record s)
                   (merge_order record))
     acc.2 (sp_stats record)).

Definition wanted (only_app_id : option Z) (record : SteamAppStateRecord) : bool :=
  match only_app_id with Some app_id => app_id =? sp_app_id record | None => true end.

Definition reduce_maps (records : list SteamAppStateRecord) (only_app_id : option Z) :=
  foldl (λ acc record, if wanted only_app_id record then reduce_record acc record else acc)
    (∅, ∅) records.

Definition reduce_app_state (records : list SteamAppStateRecord) (only_app_id : option Z)
    : BR (list AchievementSyncState * list StatSyncState) :=
  let '(achievements, stats) := reduce_maps records only_app_id in
  Ok (btree_values achievements, (btree_values stats).*1).

(** ** Folding into a device's own record *)

(** One achievement of [fold_device_records]' inner loop. *)
Definition fold_achievement (m : gmap string StoredAchievementState)
    (a : StoredAchievementState) : gmap string StoredAchievementState :=
  match m !! sa_key a with
  | Some current =>
      let unlocked := sa_unlocked current || sa_unlocked a in
      <[sa_key a := {| sa_key := sa_key current; sa_unlocked := unlocked;
          sa_unlocked_at :=
            if unlocked then min_option (sa_unlocked_at current) (sa_unlocked_at a)
            else None |}]> m
  | None => <[sa_key a := a]> m
  end.

Definition DeviceOrder : Type := Z * string.

Definition device_order (record : SteamAppStateRecord) : DeviceOrder :=
  (sp_observed_at record, sp_commit_id record).

Definition fold_stats (m : gmap string (StoredStatState * DeviceOrder))
    (record : SteamAppStateRecord) : gmap string (StoredStatState * DeviceOrder) :=
  foldl (λ m s, insert_latest m (sv_key s) s (device_order record)) m (sp_stats record).

Definition fold_device_records (existing incoming : SteamAppStateRecord)
    : SteamAppStateRecord :=
  let achievements :=
    foldl (λ m record, foldl fold_achievement m (sp_achievements record)) ∅
      [existing; incoming] in
  let stats := foldl fold_stats ∅ [existing; incoming] in
  let latest :=
    if decide (kle (device_order existing) (device_order incoming))
    then incoming else existing in
  {| sp_steam_id64 := sp_steam_id64 incoming; sp_client_id := sp_client_id incoming;
     sp_app_id := sp_app_id incoming; sp_commit_id := sp_commit_id latest;
     sp_observed_at := sp_observed_at latest;
     sp_achievements := btree_values achievements;
     sp_stats := (btree_values stats).*1 |}.

(** The record with the two cumulative fields replaced. *)
Definition with_totals (record : PlaytimeRecord) (minutes : Z) (last_played : option Z)
    : PlaytimeRecord :=
  let e := lp_entry record in
  {| lp_steam_id64 := lp_steam_id64 record; lp_client_id := lp_client_id record;
     lp_entry := {|
       pe_owner_scope := pe_owner_scope e; pe_owner_steam_id64 := pe_owner_steam_id64 e;
       pe_app_id := pe_app_id e; pe_playtime_minutes := minutes;
       pe_playtime_2weeks_minutes := pe_playtime_2weeks_minutes e;
       pe_last_played_at := last_played; pe_observed_at := pe_observed_at e |} |}.

(** ** The folder *)

Inductive FileEntry :=
| File (bytes : list Z)
| NotFile.

(** A listing, in the order [read_dir] yields it. *)
Notation Listing := (list (string * FileEntry)).

(** An app's directory; [None] where a subdirectory does not exist. *)
Record AppDirectory := { ad_stats : option Listing; ad_playtime : option Listing }.

(** An account's directory; [None] marks an entry that is not a directory. *)
Notation AccountDirectory := (list (string * option AppDirectory)).
Notation Folder := (gmap string AccountDirectory).

Fixpoint account_apps (entries : AccountDirectory) (apps : list (Z * AppDirectory))
    : BR (list (Z * AppDirectory)) :=
  match entries with
  | [] => Ok apps
  | (name, entry) :: rest =>
      match entry with
      | None => account_apps rest apps
      | Some dir =>
          match parse_unsigned u32_max (str_bytes name) with
          | Some app_id =>
              if app_id =? 0 then account_apps rest apps
              else if MAX_ACCOUNT_APPS <=? Z.of_nat (length apps)
              then Err (permanent "too many local account App directories")
              else account_apps rest (apps ++ [(app_id, dir)])
          | None => account_apps rest apps
          end
      end
  end.

Definition account_app_roots (folder : Folder) (steam_id64 : string)
    : BR (list (Z * AppDirectory)) :=
  _ ← validate_steam_id steam_id64;
  match folder !! steam_id64 with
  | None => Ok []
  | Some entries => apps ← account_apps entries []; Ok (sort_by_key fst apps)
  end.

(** The entry of a listing. *)
Definition find_entry {A} (name : string) (l : list (string * A)) : option A :=
  (λ p, p.2.2) <$> list_find (λ p, p.1 = name) l.

(** The directory [root/steam_id64/app_id]. *)
Definition app_directory (folder : Folder) (steam_id64 : string) (app_id : Z)
    : option AppDirectory :=
  entries ← folder !! steam_id64;
  mjoin (find_entry (bytes_str (dec_text app_id)) entries).

Definition app_root (folder : Folder) (steam_id64 : string) (app_id : Z)
    : BR (option AppDirectory) :=
  if app_id =? 0 then Err (permanent "invalid local AppID")
  else _ ← validate_steam_id steam_id64; Ok (app_directory folder steam_id64 app_id).

Definition read_bounded_json_file (entry : FileEntry) (maximum : Z) (label : string)
    : BR (list Z) :=
  match entry with
  | File bytes =>
      if maximum <? Z.of_nat (length bytes)
      then Err (permanent ("invalid local " ++ label ++ " file")) else Ok bytes
  | NotFile => Err (permanent ("invalid local " ++ label ++ " file"))
  end.

(** A listing after a file or directory was created or replaced. *)
Fixpoint put_entry {A} (name : string) (value : A) (l : list (string * A))
    : list (string * A) :=
  match l with
  | [] => [(name, value)]
  | p :: rest => if decide (p.1 = name) then (name, value) :: rest
                 else p :: put_entry name value rest
  end.

(** The two subdirectories of an app. *)
Inductive RecordKind := StatsRecords | PlaytimeRecords.
#[export] Instance RecordKind_eq_dec : EqDecision RecordKind.
Proof. solve_decision. Defined.

Definition kind_listing (kind : RecordKind) (dir : AppDirectory) : option Listing :=
  match kind with StatsRecords => ad_stats dir | PlaytimeRecords => ad_playtime dir end.
Definition set_kind_listing (kind : RecordKind) (dir : AppDirectory) (l : Listing)
    : AppDirectory :=
  match kind with
  | StatsRecords => {| ad_stats := Some l; ad_playtime := ad_playtime dir |}
  | PlaytimeRecords => {| ad_stats := ad_stats dir; ad_playtime := Some l |}
  end.

(** The record file of a device, if it exists. *)
Definition record_file (kind : RecordKind) (root : option AppDirectory) (client_id : Z)
    : option FileEntry :=
  dir ← root; entries ← kind_listing kind dir; find_entry (record_name client_id) entries.

(** [atomic_replace]: create the parent directories and rename the new bytes into
    place, or fail and leave the folder as it was. *)
Definition atomic_replace (fault : option string) (folder : Folder) (steam_id64 : string)
    (app_id : Z) (kind : RecordKind) (client_id : Z) (bytes : list Z) : BR Folder :=
  match fault with
  | Some error => Err (io_error error)
  | None =>
      let app_name := bytes_str (dec_text app_id) in
      let entries := default [] (folder !! steam_id64) in
      match find_entry app_name entries with
      | Some None => Err (io_error "not a directory")
      | existing =>
          let dir := default {| ad_stats := None; ad_playtime := None |} (mjoin existing) in
          let listing := put_entry (record_name client_id) (File bytes)
                           (default [] (kind_listing kind dir)) in
          Ok (<[steam_id64 :=
                 put_entry app_name (Some (set_kind_listing kind dir listing)) entries]> folder)
      end
  end.

Section backend.
(** serde_json on the two record types, and [Sha256]'s hexadecimal digest *)
Context (playtime_to_vec : PlaytimeRecord → result string (list Z))
  (playtime_from_slice : list Z → result string PlaytimeRecord)
  (stats_to_vec : SteamAppStateRecord → result string (list Z))
  (stats_from_slice : list Z → result string SteamAppStateRecord)
  (digest : list Z → string)
  (scope : string).

Definition fold_playtime_records (existing incoming : PlaytimeRecord) : BR PlaytimeRecord :=
  existing_tie ← json (playtime_to_vec existing);
  incoming_tie ← json (playtime_to_vec incoming);
  let incoming_is_newer := bool_decide (kle
    (pe_observed_at (lp_entry existing), digest existing_tie)
    (pe_observed_at (lp_entry incoming), digest incoming_tie)) in
  let record := if incoming_is_newer then incoming else existing in
  Ok (with_totals record
        (Z.max (pe_playtime_minutes (lp_entry existing))
               (pe_playtime_minutes (lp_entry incoming)))
        (max_option (pe_last_played_at (lp_entry existing))
                    (pe_last_played_at (lp_entry incoming)))).

Fixpoint read_playtime_records (entries : Listing) (records : list (string * PlaytimeRecord))
    : BR (list (string * PlaytimeRecord)) :=
  match entries with
  | [] => Ok records
  | (name, entry) :: rest =>
      if negb (is_json name) then read_playtime_records rest records
      else match entry with
      | NotFile => Err (permanent "invalid local playtime state file")
      | File _ =>
          if (MAX_DEVICE_RECORDS <=? length records)%nat
          then Err (permanent "too many local playtime state files")
          else
            bytes ← read_bounded_json_file entry MAX_PLAYTIME_RECORD_BYTES "playtime state";
            value ← json (playtime_from_slice bytes);
            read_playtime_records rest (records ++ [(name, value)])
      end
  end.

Definition read_playtime_records_with_paths (directory : option Listing)
    : BR (list (string * PlaytimeRecord)) :=
  match directory with None => Ok [] | Some entries => read_playtime_records entries [] end.

Fixpoint read_stats_directory (steam_id64 : string) (app_id : Z) (entries : Listing)
    (app_records : list SteamAppStateRecord) : BR (list SteamAppStateRecord) :=
  match entries with
  | [] => Ok app_records
  | (name, entry) :: rest =>
      match entry with
      | NotFile => read_stats_directory steam_id64 app_id rest app_records
      | File _ =>
          if negb (is_json name) then read_stats_directory steam_id64 app_id rest app_records
          else if (MAX_DEVICE_RECORDS <=? length app_records)%nat
          then Err (permanent "too many local Steam app state files")
          else
            bytes ← read_bounded_json_file entry MAX_STATS_RECORD_BYTES "Steam app state";
            record ← json (stats_from_slice bytes);
            _ ← validate_stats_record record steam_id64 app_id (Some name);
            read_stats_directory steam_id64 app_id rest (app_records ++ [record])
      end
  end.

Fixpoint read_app_roots (steam_id64 : string) (roots : list (Z * option AppDirectory))
    (all_records : list SteamAppStateRecord) : BR (list SteamAppStateRecord) :=
  match roots with
  | [] => Ok all_records
  | (app_id, root) :: rest =>
      match root ≫= ad_stats with
      | None => read_app_roots steam_id64 rest all_records
      | Some entries =>
          records ← read_stats_directory steam_id64 app_id entries [];
          read_app_roots steam_id64 rest (all_records ++ records)
      end
  end.

Definition requested_roots (folder : Folder) (steam_id64 : string) (only_app_id : option Z)
    : BR (list (Z * option AppDirectory)) :=
  match only_app_id with
  | Some app_id => root ← app_root folder steam_id64 app_id; Ok [(app_id, root)]
  | None =>
      roots ← account_app_roots folder steam_id64;
      Ok (map (λ p, (p.1, Some p.2)) roots)
  end.

Definition read_app_records (folder : Folder) (steam_id64 : string) (only_app_id : option Z)
    : BR (list SteamAppStateRecord) :=
  roots ← requested_roots folder steam_id64 only_app_id;
  read_app_roots steam_id64 roots [].

(** *** Playtime convergence *)

Definition PlaytimeOrder : Type := Z * (Z * string).

Fixpoint observe_records (steam_id64 : string) (app_id : Z)
    (records : list (string * PlaytimeRecord)) : BR (list (PlaytimeOrder * PlaytimeEntry)) :=
  match records with
  | [] => Ok []
  | (path, record) :: rest =>
      _ ← validate_playtime_record record steam_id64 app_id (Some path);
      tie ← json (playtime_to_vec record);
      observations ← observe_records steam_id64 app_id rest;
      Ok (((pe_observed_at (lp_entry record), (lp_client_id record, digest tie)),
           lp_entry record) :: observations)
  end.

Fixpoint observe_apps (steam_id64 : string) (apps : list (Z * AppDirectory))
    : BR (list (PlaytimeOrder * PlaytimeEntry)) :=
  match apps with
  | [] => Ok []
  | (app_id, root) :: rest =>
      records ← read_playtime_records_with_paths (ad_playtime root);
      observations ← observe_records steam_id64 app_id records;
      others ← observe_apps steam_id64 rest;
      Ok (observations ++ others)
  end.

(** The entry as one of this backend's. *)
Definition attributed (steam_id64 : string) (e : PlaytimeEntry) : PlaytimeEntry :=
  {| pe_owner_scope := scope; pe_owner_steam_id64 := steam_id64; pe_app_id := pe_app_id e;
     pe_playtime_minutes := pe_playtime_minutes e;
     pe_playtime_2weeks_minutes := pe_playtime_2weeks_minutes e;
     pe_last_played_at := pe_last_played_at e; pe_observed_at := pe_observed_at e |}.

Definition combine_playtime (current incoming : PlaytimeEntry) : PlaytimeEntry :=
  {| pe_owner_scope := pe_owner_scope current;
     pe_owner_steam_id64 := pe_owner_steam_id64 current; pe_app_id := pe_app_id current;
     pe_playtime_minutes := Z.max (pe_playtime_minutes current) (pe_playtime_minutes incoming);
     pe_playtime_2weeks_minutes := pe_playtime_2weeks_minutes incoming;
     pe_last_played_at := max_option (pe_last_played_at current) (pe_last_played_at incoming);
     pe_observed_at := pe_observed_at incoming |}.

Definition reduce_observation (steam_id64 : string) (states : gmap Z PlaytimeEntry)
    (o : PlaytimeOrder * PlaytimeEntry) : gmap Z PlaytimeEntry :=
  let incoming := attributed steam_id64 o.2 in
  match states !! pe_app_id incoming with
  | Some current => <[pe_app_id incoming := combine_playtime current incoming]> states
  | None => <[pe_app_id incoming := incoming]> states
  end.

Definition reduce_observations (steam_id64 : string)
    (observations : list (PlaytimeOrder * PlaytimeEntry)) : gmap Z PlaytimeEntry :=
  foldl (reduce_observation steam_id64) ∅ (sort_by_key fst observations).

Definition reduce_playtime (folder : Folder) (steam_id64 : string) : BR (list PlaytimeEntry) :=
  apps ← account_app_roots folder steam_id64;
  observations ← observe_apps steam_id64 apps;
  Ok (btree_values (reduce_observations steam_id64 observations)).

Definition pull_playtime := reduce_playtime.

(** *** [impl CloudBackend for LocalBackend] *)

Definition ensure_device_bound (descriptor : DeviceDescriptor) : BR unit :=
  if dd_client_id descriptor =? 0
  then Err (permanent "local cloud device ID is unavailable") else Ok tt.

Definition invalid_observation (steam_id64 : string) (entry : PlaytimeEntry) : bool :=
  (pe_app_id entry =? 0) || (pe_observed_at entry <=? 0)
  || match pe_last_played_at entry with Some value => value <? 0 | None => false end
  || (negb (bool_decide (pe_owner_steam_id64 entry = ""))
      && negb (bool_decide (pe_owner_steam_id64 entry = steam_id64))).

(** The record to publish for one entry, from what the device published before. *)
Definition next_playtime_record (folder : Folder) (client_id : Z) (steam_id64 : string)
    (entry : PlaytimeEntry) : BR PlaytimeRecord :=
  let incoming :=
    {| lp_steam_id64 := steam_id64; lp_client_id := client_id; lp_entry := entry |} in
  root ← app_root folder steam_id64 (pe_app_id entry);
  match record_file PlaytimeRecords root client_id with
  | Some file =>
      bytes ← read_bounded_json_file file MAX_PLAYTIME_RECORD_BYTES "playtime state";
      existing ← json (playtime_from_slice bytes);
      _ ← validate_playtime_record existing steam_id64 (pe_app_id entry)
            (Some (record_name client_id));
      fold_playtime_records existing incoming
  | None => Ok incoming
  end.

Definition publish_playtime (fault : option string) (folder : Folder) (client_id : Z)
    (steam_id64 : string) (entry : PlaytimeEntry) : BR Folder :=
  record ← next_playtime_record folder client_id steam_id64 entry;
  bytes ← json (playtime_to_vec record);
  if MAX_PLAYTIME_RECORD_BYTES <? Z.of_nat (length bytes)
  then Err (permanent "local playtime state file is too large")
  else atomic_replace fault folder steam_id64 (pe_app_id entry) PlaytimeRecords client_id bytes.

(** The second loop: an error keeps what was published before it. *)
Fixpoint publish_entries (faults : list (option string)) (folder : Folder) (client_id : Z)
    (steam_id64 : string) (entries : list PlaytimeEntry) : BR unit * Folder :=
  match entries with
  | [] => (Ok tt, folder)
  | entry :: rest =>
      match publish_playtime (mjoin (head faults)) folder client_id steam_id64 entry with
      | Err e => (Err e, folder)
      | Ok folder' => publish_entries (tail faults) folder' client_id steam_id64 rest
      end
  end.

Definition upload_playtime (faults : list (option string)) (folder : Folder) (client_id : Z)
    (steam_id64 : string) (entries : list PlaytimeEntry) : BR unit * Folder :=
  match entries with
  | [] => (Ok tt, folder)
  | _ =>
      if client_id =? 0
      then (Err (permanent "local playtime ClientID is unavailable"), folder)
      else if existsb (invalid_observation steam_id64) entries
      then (Err (permanent "invalid local playtime observation"), folder)
      else publish_entries faults folder client_id steam_id64 entries
  end.

Definition snapshot_record (identity : UploadIdentity) (snapshot : SteamAppSnapshot)
    : SteamAppStateRecord :=
  {| sp_steam_id64 := ui_steam_id64 identity; sp_client_id := ui_client_id identity;
     sp_app_id := ss_app_id snapshot; sp_commit_id := ss_commit_id snapshot;
     sp_observed_at := ss_observed_at snapshot;
     sp_achievements :=
       (λ a, {| sa_key := oa_key a; sa_unlocked := oa_unlocked a;
                sa_unlocked_at := oa_unlocked_at a |}) <$> ss_achievements snapshot;
     sp_stats :=
       (λ s, {| sv_key := os_key s; sv_value_type := os_value_type s;
                sv_value := os_value s |}) <$> ss_stats snapshot |}.

(** The record to publish for a snapshot. *)
Definition next_stats_record (folder : Folder) (identity : UploadIdentity)
    (snapshot : SteamAppSnapshot) : BR SteamAppStateRecord :=
  let path := record_name (ui_client_id identity) in
  root ← app_root folder (ui_steam_id64 identity) (ss_app_id snapshot);
  let incoming := snapshot_record identity snapshot in
  _ ← validate_stats_record incoming (ui_steam_id64 identity) (ss_app_id snapshot) (Some path);
  match record_file StatsRecords root (ui_client_id identity) with
  | Some file =>
      bytes ← read_bounded_json_file file MAX_STATS_RECORD_BYTES "Steam app state";
      existing ← json (stats_from_slice bytes);
      _ ← validate_stats_record existing (ui_steam_id64 identity) (ss_app_id snapshot)
            (Some path);
      Ok (fold_device_records existing incoming)
  | None => Ok incoming
  end.

Definition upload_steam_app_snapshot (fault : option string) (folder : Folder)
    (identity : UploadIdentity) (snapshot : SteamAppSnapshot)
    : BR (SteamStateUploadResult * Folder) :=
  if bool_decide (ss_commit_id snapshot = "") || (ss_app_id snapshot =? 0)
     || (ui_client_id identity =? 0)
     || negb (bool_decide (ss_owner_steam_id64 snapshot = ui_steam_id64 identity))
  then Err (permanent "invalid local Steam app snapshot")
  else
    record ← next_stats_record folder identity snapshot;
    bytes ← json (stats_to_vec record);
    if MAX_STATS_RECORD_BYTES <? Z.of_nat (length bytes)
    then Err (permanent "local Steam app state file is too large")
    else
      folder' ← atomic_replace fault folder (ui_steam_id64 identity) (ss_app_id snapshot)
                  StatsRecords (ui_client_id identity) bytes;
      Ok ({| stats_apps := [{| au_app_id := ss_app_id snapshot; au_status := Applied;
                               au_crc_stats := None |}] |}, folder').

Definition pull_account_state (folder : Folder) (steam_id64 : string) : BR AccountSyncState :=
  records ← read_app_records folder steam_id64 None;
  '(achievements, stats) ← reduce_app_state records None;
  playtime ← reduce_playtime folder steam_id64;
  Ok {| acc_stats_crcs := []; acc_playtime_revision := 0; acc_achievements := achievements;
        acc_stats := stats; acc_playtime := playtime |}.

Definition pull_app_stats (folder : Folder) (steam_id64 : string) (query : AppStatsQuery)
    : BR AppStatsResult :=
  records ← read_app_records folder steam_id64 (Some (aq_app_id query));
  match records with
  | [] => Ok Uninitialized
  | _ =>
      '(achievements, stats) ← reduce_app_state records (Some (aq_app_id query));
      Ok (Modified (aq_schema_version query) None
            (sort_by_key ach_achievement_key achievements) (sort_by_key st_stat_key stats))
  end.
End backend.
