(* ===== verification/LocalSyncProofs.v ===== *)
(** * LocalSyncProofs: convergence of the folder backend

    A folder has no arbiter: what a reader computes must not depend on the order in
    which the file system lists the records, an unlock one device reported must
    survive every other device's report, and folding a record twice must change
    nothing. *)

From Stdlib Require Import ZArith Lia.
From S2P Require Import Prelude RustStd CloudCore LocalSync.

Local Open Scope Z_scope.

(** ** What validation establishes *)

Definition achievement_ok (a : StoredAchievementState) : Prop :=
  let key := trim (str_bytes (sa_key a)) in
  key ≠ [] ∧ (length key ≤ 255)%nat ∧ 0 ∉ key ∧
  ∀ t, sa_unlocked_at a = Some t → 0 < t ≤ u32_max ∧ sa_unlocked a = true.

Definition stat_ok (s : StoredStatState) : Prop :=
  let key := trim (str_bytes (sv_key s)) in
  key ≠ [] ∧ (length key ≤ 255)%nat ∧ 0 ∉ key ∧
  str_len (sv_value s) ≤ 255 ∧ contains_nul (sv_value s) = false ∧ valid_stat_value s = true.

Lemma validate_achievements_spec seen l :
  validate_achievements seen l = Ok tt ↔
  Forall achievement_ok l ∧ NoDup (sa_key <$> l) ∧ ∀ a, a ∈ l → sa_key a ∉ seen.
Proof.
  revert seen; induction l as [|a l IH]; intros seen; cbn [validate_achievements].
  { split; [|done]. intros _. split; [done|]. split; [constructor|set_solver]. }
  set (key := trim (str_bytes (sa_key a))).
  destruct (_ || _ || _ || _ || _) eqn:E.
  - split; [done|]. intros ([(H1 & H2 & H3 & H4) _]%Forall_cons & _ & Hs). exfalso.
    fold key in H1, H2, H3. rewrite !orb_true_iff, !bool_decide_eq_true, Z.ltb_lt in E.
    destruct E as [[[[E|E]|E]|E]|E]; [done|lia|done|by apply (Hs a); [left|]|].
    destruct (sa_unlocked_at a) as [t|]; [|done]. destruct (H4 t eq_refl) as [? Hu].
    rewrite Hu in E. simpl in E. rewrite orb_false_r, orb_true_iff, Z.leb_le, Z.ltb_lt in E. lia.
  - rewrite IH. rewrite !orb_false_iff, !bool_decide_eq_false, Z.ltb_ge in E.
    destruct E as [[[[E1 E2] E3] E4] E5]. rewrite Forall_cons, fmap_cons, NoDup_cons.
    assert (Ha : achievement_ok a).
    { split; [done|]. split; [fold key; lia|]. split; [done|]. intros t Ht. rewrite Ht in E5.
      rewrite !orb_false_iff, negb_false_iff, Z.leb_gt, Z.ltb_ge in E5. naive_solver lia. }
    split.
    + intros (Hl & Hnd & Hs). split; [done|]. split; [split; [|done]|].
      * intros (b & Hb & Hin)%list_elem_of_fmap. apply (Hs b Hin). set_solver.
      * intros b [->|Hb]%elem_of_cons; [done|]. specialize (Hs b Hb). set_solver.
    + intros ([_ Hl] & [Hni Hnd] & Hs). split; [done|]. split; [done|].
      intros b Hb [Heq%elem_of_singleton|Hin]%elem_of_union.
      * apply Hni, list_elem_of_fmap. eauto.
      * apply (Hs b); [by right|done].
Qed.

Lemma validate_stats_spec seen l :
  validate_stats seen l = Ok tt ↔
  Forall stat_ok l ∧ NoDup (sv_key <$> l) ∧ ∀ s, s ∈ l → sv_key s ∉ seen.
Proof.
  revert seen; induction l as [|s l IH]; intros seen; cbn [validate_stats].
  { split; [|done]. intros _. split; [done|]. split; [constructor|set_solver]. }
  set (key := trim (str_bytes (sv_key s))).
  destruct (_ || _ || _ || _ || _) eqn:E.
  - split; [done|]. intros ([(H1 & H2 & H3 & H4 & H5 & H6) _]%Forall_cons & _ & Hs). exfalso.
    fold key in H1, H2, H3. rewrite H5, H6 in E.
    rewrite !orb_true_iff, !bool_decide_eq_true, !Z.ltb_lt in E.
    destruct E as [[[[[[E|E]|E]|E]|E]|E]|E]; [done|lia|done|by apply (Hs s); [left|]|lia|done|done].
  - rewrite IH. rewrite !orb_false_iff, !bool_decide_eq_false, !Z.ltb_ge, negb_false_iff in E.
    destruct E as [[[[[[E1 E2] E3] E4] E5] E6] E7]. rewrite Forall_cons, fmap_cons, NoDup_cons.
    assert (Ha : stat_ok s) by (unfold stat_ok; fold key; naive_solver lia).
    split.
    + intros (Hl & Hnd & Hs). split; [done|]. split; [split; [|done]|].
      * intros (b & Hb & Hin)%list_elem_of_fmap. apply (Hs b Hin). set_solver.
      * intros b [->|Hb]%elem_of_cons; [done|]. specialize (Hs b Hb). set_solver.
    + intros ([_ Hl] & [Hni Hnd] & Hs). split; [done|]. split; [done|].
      intros b Hb [Heq%elem_of_singleton|Hin]%elem_of_union.
      * apply Hni, list_elem_of_fmap. eauto.
      * apply (Hs b); [by right|done].
Qed.

(** A record's contents as validation leaves them. *)
Record stats_record_ok (r : SteamAppStateRecord) (steam : string) (app : Z)
    (path : option string) : Prop := {
  ok_steam : sp_steam_id64 r = steam;
  ok_client : sp_client_id r ≠ 0;
  ok_app : sp_app_id r = app;
  ok_commit : sp_commit_id r ≠ "" ∧ str_len (sp_commit_id r) ≤ 255 ∧
              contains_nul (sp_commit_id r) = false;
  ok_observed : 0 < sp_observed_at r;
  ok_count : Z.of_nat (length (sp_achievements r) + length (sp_stats r)) ≤ MAX_STATS_ENTRIES;
  ok_path : ∀ name, path = Some name → ok (record_client_id name) = Some (sp_client_id r);
  ok_achievements : Forall achievement_ok (sp_achievements r);
  ok_achievement_keys : NoDup (sa_key <$> sp_achievements r);
  ok_stats : Forall stat_ok (sp_stats r);
  ok_stat_keys : NoDup (sv_key <$> sp_stats r);
}.

Lemma validate_stats_record_spec r steam app path :
  validate_stats_record r steam app path = Ok tt ↔ stats_record_ok r steam app path.
Proof.
  unfold validate_stats_record. split.
  - destruct (_ || _) eqn:E; [done|]. intros H. res_inv. destruct x.
    rewrite !orb_false_iff, !bool_decide_eq_false, !negb_false_iff, !bool_decide_eq_true,
      !Z.ltb_ge, Z.leb_gt, Z.eqb_eq, Z.eqb_neq in E.
    destruct E as [[[[[[[[E1 E2] E3] E4] E5] E6] E7] E8] E9].
    apply validate_achievements_spec in Hx as (? & ? & _).
    apply validate_stats_spec in H as (? & ? & _). split; try done.
    intros name ->. by rewrite negb_false_iff, bool_decide_eq_true in E9.
  - intros []. destruct ok_commit0 as (Hc1 & Hc2 & Hc3).
    rewrite (proj2 (validate_achievements_spec _ _)) by set_solver. simpl.
    rewrite (proj2 (validate_stats_spec _ _)) by set_solver.
    destruct (_ || _) eqn:E; [exfalso|done].
    rewrite !orb_true_iff, !bool_decide_eq_true, !negb_true_iff, !bool_decide_eq_false,
      !Z.ltb_lt, Z.leb_le, Z.eqb_eq, Z.eqb_neq in E.
    destruct E as [[[[[[[[E|E]|E]|E]|E]|E]|E]|E]|E]; try done; try lia; try congruence.
    destruct path as [name|]; [|done].
    by rewrite negb_true_iff, bool_decide_eq_false, (ok_path0 name) in E.
Qed.

(** ** The achievement lattice *)

Lemma min_option_comm a b : min_option a b = min_option b a.
Proof. destruct a, b; simpl; f_equal; lia. Qed.
Lemma min_option_assoc a b c : min_option a (min_option b c) = min_option (min_option a b) c.
Proof. destruct a, b, c; simpl; f_equal; lia. Qed.
Lemma min_option_idemp a : min_option a a = a.
Proof. destruct a; simpl; f_equal; lia. Qed.

(** States of one app and key, dated only when unlocked. *)
Definition achievement_state_ok (app : Z) (key : string) (a : AchievementSyncState) : Prop :=
  ach_app_id a = app ∧ ach_achievement_key a = key ∧ ach_progress_current a = None ∧
  ach_progress_max a = None ∧ (ach_unlocked a = false → ach_unlocked_at a = None).

Section achievement_lattice.
Context (app : Z) (key : string).
Implicit Types (a b c : AchievementSyncState).

Lemma join_achievement_ok a b :
  achievement_state_ok app key a → achievement_state_ok app key b →
  achievement_state_ok app key (join_achievement a b).
Proof.
  intros (? & ? & ? & ? & Ha) (? & ? & ? & ? & Hb). unfold join_achievement.
  repeat split; simpl; try done. by intros ->.
Qed.

Lemma join_achievement_comm a b :
  achievement_state_ok app key a → achievement_state_ok app key b →
  join_achievement a b = join_achievement b a.
Proof.
  intros (H1 & H2 & H3 & H4 & Ha) (H5 & H6 & H7 & H8 & Hb). unfold join_achievement.
  rewrite H1, H2, H3, H4, H5, H6, H7, H8, orb_comm, Z.max_comm.
  by rewrite (min_option_comm (ach_unlocked_at a)).
Qed.

Lemma join_achievement_assoc a b c :
  achievement_state_ok app key a → achievement_state_ok app key b →
  achievement_state_ok app key c →
  join_achievement a (join_achievement b c) = join_achievement (join_achievement a b) c.
Proof.
  intros (_ & _ & _ & _ & Ha) (_ & _ & _ & _ & Hb) (_ & _ & _ & _ & Hc).
  unfold join_achievement; simpl. f_equal; [by rewrite orb_assoc|lia|].
  destruct (ach_unlocked a), (ach_unlocked b), (ach_unlocked c); simpl;
    rewrite ?Ha, ?Hb, ?Hc by done; try done; [by rewrite min_option_assoc|..];
    destruct (ach_unlocked_at a), (ach_unlocked_at b), (ach_unlocked_at c); done.
Qed.
End achievement_lattice.

(** ** [reduce_app_state] as two keyed folds *)

Definition achievement_pairs (only : option Z) (r : SteamAppStateRecord)
    : list ((Z * string) * AchievementSyncState) :=
  if wanted only r
  then (λ a, ((sp_app_id r, sa_key a), achievement_state r a)) <$> sp_achievements r else [].

Definition stat_pairs (only : option Z) (r : SteamAppStateRecord)
    : list ((Z * string) * (StatSyncState * MergeOrder)) :=
  if wanted only r
  then (λ s, ((sp_app_id r, sv_key s), (stat_state r s, merge_order r))) <$> sp_stats r else [].

Lemma merge_achievement_entry m k a :
  merge_achievement m k a = merge_entry join_achievement m (k, a).
Proof. unfold merge_achievement, merge_entry. simpl. by destruct (m !! k). Qed.

Lemma insert_latest_entry {K V I} `{Countable K} {O : KeyOrd I} (m : gmap K (V * I)) k v o :
  insert_latest m k v o = merge_entry latest m (k, (v, o)).
Proof.
  unfold insert_latest, merge_entry, latest, later. simpl.
  destruct (m !! k) as [c|] eqn:E; [|done]. simpl.
  case_bool_decide; simpl; [|done]. by rewrite insert_id.
Qed.

Lemma reduce_record_folds only acc r :
  (if wanted only r then reduce_record acc r else acc) =
  (foldl (merge_entry join_achievement) acc.1 (achievement_pairs only r),
   foldl (merge_entry latest) acc.2 (stat_pairs only r)).
Proof.
  unfold achievement_pairs, stat_pairs.
  destruct (wanted only r); [|by destruct acc]. unfold reduce_record.
  rewrite <-!foldl_fmap. f_equal.
  - generalize acc.1. induction (sp_achievements r) as [|a l IHl]; intros m; csimpl; [done|].
    by rewrite merge_achievement_entry, IHl.
  - generalize acc.2. induction (sp_stats r) as [|s l IHl]; intros m; csimpl; [done|].
    by rewrite insert_latest_entry, IHl.
Qed.

Lemma reduce_maps_folds records only :
  reduce_maps records only =
  (foldl (merge_entry join_achievement) ∅ (records ≫= achievement_pairs only),
   foldl (merge_entry latest) ∅ (records ≫= stat_pairs only)).
Proof.
  unfold reduce_maps.
  generalize (∅ : gmap (Z * string) AchievementSyncState).
  generalize (∅ : gmap (Z * string) (StatSyncState * MergeOrder)).
  induction records as [|r records IH]; intros ms ma; csimpl; [done|].
  by rewrite !foldl_app, reduce_record_folds, IH.
Qed.

Lemma elem_of_achievement_pairs records only k a :
  (k, a) ∈ (records ≫= achievement_pairs only) ↔
  ∃ r x, r ∈ records ∧ wanted only r = true ∧ x ∈ sp_achievements r ∧
    k = (sp_app_id r, sa_key x) ∧ a = achievement_state r x.
Proof.
  rewrite list_elem_of_bind. unfold achievement_pairs. split.
  - intros (r & Hin & Hr). destruct (wanted only r) eqn:Hw; [|set_solver].
    apply list_elem_of_fmap in Hin as (x & [= -> ->] & Hx). eauto 10.
  - intros (r & x & Hr & Hw & Hx & -> & ->). exists r. split; [|done].
    rewrite Hw. apply list_elem_of_fmap. eauto.
Qed.

Lemma elem_of_stat_pairs records only k s :
  (k, s) ∈ (records ≫= stat_pairs only) ↔
  ∃ r x, r ∈ records ∧ wanted only r = true ∧ x ∈ sp_stats r ∧
    k = (sp_app_id r, sv_key x) ∧ s = (stat_state r x, merge_order r).
Proof.
  rewrite list_elem_of_bind. unfold stat_pairs. split.
  - intros (r & Hin & Hr). destruct (wanted only r) eqn:Hw; [|set_solver].
    apply list_elem_of_fmap in Hin as (x & [= -> ->] & Hx). eauto 10.
  - intros (r & x & Hr & Hw & Hx & -> & ->). exists r. split; [|done].
    rewrite Hw. apply list_elem_of_fmap. eauto.
Qed.

(** Records as [read_app_records] returns them: validated, one per device and app. *)
Definition device_records_ok (records : list SteamAppStateRecord) : Prop :=
  (∀ r, r ∈ records → ∃ steam path, stats_record_ok r steam (sp_app_id r) path) ∧
  (∀ r s, r ∈ records → s ∈ records → sp_app_id r = sp_app_id s →
     sp_client_id r = sp_client_id s → r = s).

Lemma achievement_pair_ok records only k a :
  device_records_ok records → (k, a) ∈ (records ≫= achievement_pairs only) →
  achievement_state_ok k.1 k.2 a.
Proof.
  intros [Hok _] (r & x & Hr & _ & Hx & -> & ->)%elem_of_achievement_pairs.
  destruct (Hok r Hr) as (steam & path & Hv).
  pose proof (proj1 (Forall_forall _ _) (ok_achievements _ _ _ _ Hv) x Hx) as (_ & _ & _ & Ht).
  repeat split; simpl; try done. intros Hu.
  destruct (sa_unlocked_at x) as [t|]; [|done]. by destruct (Ht t eq_refl); congruence.
Qed.

(** Two candidate values of one stat with the same order are the same value. *)
Lemma stat_pair_inj records only k s t :
  device_records_ok records →
  (k, s) ∈ (records ≫= stat_pairs only) → (k, t) ∈ (records ≫= stat_pairs only) →
  s.2 = t.2 → s = t.
Proof.
  intros [Hok Hdev] (r & x & Hr & _ & Hx & -> & ->)%elem_of_stat_pairs
    (r' & x' & Hr' & _ & Hx' & [= Happ Hkey] & ->)%elem_of_stat_pairs [= _ Hcl _].
  assert (r' = r) as -> by (symmetry; by apply Hdev).
  destruct (Hok r Hr) as (steam & path & Hv).
  enough (x = x') as -> by done.
  apply list_elem_of_lookup in Hx as [i Hi], Hx' as [i' Hi'].
  pose proof (ok_stat_keys _ _ _ _ Hv) as Hnd.
  assert (i = i') as ->; [|congruence]. eapply (NoDup_lookup _ i i' (sv_key x) Hnd).
  - by rewrite list_lookup_fmap, Hi.
  - rewrite list_lookup_fmap, Hi'. simpl. congruence.
Qed.

Lemma reduce_achievements_perm records records' only k :
  device_records_ok records → records ≡ₚ records' →
  join_all join_achievement None (values_of k (records ≫= achievement_pairs only)) =
  join_all join_achievement None (values_of k (records' ≫= achievement_pairs only)).
Proof.
  intros Hok Hp. apply (join_all_perm join_achievement (achievement_state_ok k.1 k.2)).
  - apply join_achievement_ok.
  - apply join_achievement_comm.
  - apply join_achievement_assoc.
  - done.
  - apply Forall_forall. intros a Ha%elem_of_values_of. by eapply achievement_pair_ok.
  - apply values_of_perm. by rewrite Hp.
Qed.

Lemma reduce_stats_perm records records' only k :
  device_records_ok records → records ≡ₚ records' →
  join_all latest None (values_of k (records ≫= stat_pairs only)) =
  join_all latest None (values_of k (records' ≫= stat_pairs only)).
Proof.
  intros Hok Hp.
  set (P := λ s, (k, s) ∈ (records ≫= stat_pairs only)).
  assert (Hinj : ∀ s t, P s → P t → s.2 = t.2 → s = t) by (intros s t; by apply stat_pair_inj).
  apply (join_all_perm latest P).
  - by apply latest_closed.
  - by apply latest_comm.
  - by apply latest_assoc.
  - done.
  - apply Forall_forall. intros s Hs%elem_of_values_of. done.
  - apply values_of_perm. by rewrite Hp.
Qed.

(** C19 [reduce_app_state_order_independent]: the converged state is a function of the set
    of device records, not of the order in which the folder lists them. *)
Theorem reduce_app_state_order_independent records records' only
    (Hok : device_records_ok records) (Hp : records ≡ₚ records') :
  reduce_app_state records only = reduce_app_state records' only.
Proof.
  unfold reduce_app_state. rewrite !reduce_maps_folds.
  f_equal. f_equal; [f_equal|do 2 f_equal]; apply map_eq; intros k;
    rewrite !lookup_merge_entries, lookup_empty.
  - by apply reduce_achievements_perm.
  - by apply reduce_stats_perm.
Qed.

(** The converged states, by key. *)
Lemma elem_of_reduced_achievements records only achs stats a :
  reduce_app_state records only = Ok (achs, stats) →
  a ∈ achs ↔ ∃ k, join_all join_achievement None
                    (values_of k (records ≫= achievement_pairs only)) = Some a.
Proof.
  unfold reduce_app_state. rewrite reduce_maps_folds. intros [= <- _].
  rewrite elem_of_btree_values. f_equiv. intros k.
  by rewrite lookup_merge_entries, lookup_empty.
Qed.

Lemma elem_of_reduced_stats records only achs stats s :
  reduce_app_state records only = Ok (achs, stats) →
  s ∈ stats ↔ ∃ k o, join_all latest None
                       (values_of k (records ≫= stat_pairs only)) = Some (s, o).
Proof.
  unfold reduce_app_state. rewrite reduce_maps_folds. intros [= _ <-].
  rewrite list_elem_of_fmap. setoid_rewrite elem_of_btree_values. split.
  - intros ([s' o] & -> & k & Hk). rewrite lookup_merge_entries, lookup_empty in Hk. eauto.
  - intros (k & o & Hk). exists (s, o). split; [done|]. exists k.
    by rewrite lookup_merge_entries, lookup_empty.
Qed.

Lemma join_all_is_Some {V} (join : V → V → V) vs v :
  v ∈ vs → ∃ r, join_all join None vs = Some r.
Proof.
  intros Hv. destruct (join_all join None vs) eqn:E; [by eauto|].
  apply join_all_None in E as [_ ->]. set_solver.
Qed.

(** A converged achievement has the key it is stored under, and an unlock comes from a
    report of that key. *)
Lemma reduced_achievement_source records only k a :
  device_records_ok records →
  join_all join_achievement None (values_of k (records ≫= achievement_pairs only)) = Some a →
  achievement_state_ok k.1 k.2 a ∧
  (ach_unlocked a = true → ∃ r x, r ∈ records ∧ wanted only r = true ∧ x ∈ sp_achievements r ∧
     sa_unlocked x = true ∧ k = (sp_app_id r, sa_key x)).
Proof.
  intros Hok. apply (join_all_ind join_achievement (λ a, achievement_state_ok k.1 k.2 a ∧
    (ach_unlocked a = true → ∃ r x, r ∈ records ∧ wanted only r = true ∧
       x ∈ sp_achievements r ∧ sa_unlocked x = true ∧ k = (sp_app_id r, sa_key x)))); [done| |].
  - intros v Hv%elem_of_values_of. split; [by eapply achievement_pair_ok|].
    apply elem_of_achievement_pairs in Hv as (r & x & ? & ? & ? & ? & ->).
    intros Hu. exists r, x. auto.
  - intros c v [Hc1 Hc2] Hv%elem_of_values_of. split.
    + apply join_achievement_ok; [done|]. by eapply achievement_pair_ok.
    + simpl. rewrite orb_true_iff. intros [Hu|Hu]; [by auto|].
      apply elem_of_achievement_pairs in Hv as (r & x & ? & ? & ? & ? & ->).
      exists r, x. auto.
Qed.

(** [reduce_keeps_unlocks]: an unlock any device reported is in the converged state, and
    nothing is unlocked that no device reported; the state is at least as fresh as
    every report of it. *)
Theorem reduce_keeps_unlocks records only achs stats
    (Hok : device_records_ok records)
    (H : reduce_app_state records only = Ok (achs, stats)) :
  (∀ r x, r ∈ records → wanted only r = true → x ∈ sp_achievements r →
     ∃ a, a ∈ achs ∧ ach_app_id a = sp_app_id r ∧ ach_achievement_key a = sa_key x ∧
       sp_observed_at r ≤ ach_observed_at a ∧
       (sa_unlocked x = true → ach_unlocked a = true)) ∧
  (∀ a, a ∈ achs → ach_unlocked a = true →
     ∃ r x, r ∈ records ∧ wanted only r = true ∧ x ∈ sp_achievements r ∧
       sa_unlocked x = true ∧ ach_app_id a = sp_app_id r ∧ ach_achievement_key a = sa_key x).
Proof.
  split.
  - intros r x Hr Hw Hx. set (k := (sp_app_id r, sa_key x)).
    assert (Hin : achievement_state r x ∈ values_of k (records ≫= achievement_pairs only)).
    { apply elem_of_values_of, elem_of_achievement_pairs. eauto 10. }
    destruct (join_all_is_Some join_achievement _ _ Hin) as [a Ha]. exists a.
    destruct (reduced_achievement_source _ _ _ _ Hok Ha) as [Hwf _].
    destruct Hwf as (Happ & Hkey & _). split; [|split; [done|split; [done|split]]].
    + rewrite elem_of_reduced_achievements by done. eauto.
    + revert Ha. apply (join_all_reaches _ (λ a, sp_observed_at r ≤ ach_observed_at a)
        _ _ (achievement_state r x)); simpl; try done; intros; lia.
    + intros Hu. revert Ha. apply (join_all_reaches _ (λ a, ach_unlocked a = true)
        _ _ (achievement_state r x)); simpl; try done.
      * intros c. by rewrite Hu, orb_true_r.
      * by intros c w ->.
  - intros a [k Ha]%(elem_of_reduced_achievements _ _ _ _ _ H) Hu.
    destruct (reduced_achievement_source _ _ _ _ Hok Ha) as [(Happ & Hkey & _) Hsrc].
    destruct (Hsrc Hu) as (r & x & ? & ? & ? & ? & ->). by exists r, x.
Qed.

(** [reduce_takes_latest]: the value of a stat is the one its most recent reporter
    stored, newest observation first, then the higher device and commit. *)
Theorem reduce_takes_latest records only achs stats
    (H : reduce_app_state records only = Ok (achs, stats)) :
  (∀ r x, r ∈ records → wanted only r = true → x ∈ sp_stats r →
     ∃ r' x', r' ∈ records ∧ wanted only r' = true ∧ x' ∈ sp_stats r' ∧
       stat_state r' x' ∈ stats ∧ sp_app_id r' = sp_app_id r ∧ sv_key x' = sv_key x ∧
       kle (merge_order r) (merge_order r')) ∧
  (∀ s, s ∈ stats → ∃ r x, r ∈ records ∧ wanted only r = true ∧ x ∈ sp_stats r ∧
     s = stat_state r x).
Proof.
  assert (Hsrc : ∀ k s, join_all latest None (values_of k (records ≫= stat_pairs only)) = Some s →
    (k, s) ∈ (records ≫= stat_pairs only)).
  { intros k s. apply (join_all_ind latest (λ s, (k, s) ∈ (records ≫= stat_pairs only))); [done| |].
    - intros v Hv. by apply elem_of_values_of.
    - intros c v Hc Hv. destruct (latest_or c v) as [->| ->]; [done|]. by apply elem_of_values_of. }
  split.
  - intros r x Hr Hw Hx. set (k := (sp_app_id r, sv_key x)).
    assert (Hin : (stat_state r x, merge_order r) ∈ values_of k (records ≫= stat_pairs only)).
    { apply elem_of_values_of, elem_of_stat_pairs. eauto 10. }
    destruct (join_all_is_Some latest _ _ Hin) as [[s o] Hs].
    pose proof (Hsrc k _ Hs) as (r' & x' & Hr' & Hw' & Hx' & [= Happ Hkey] & [= -> ->])%elem_of_stat_pairs.
    exists r', x'. repeat split; try done.
    + apply (elem_of_reduced_stats _ _ _ _ _ H). eauto.
    + change (kle (merge_order r) (stat_state r' x', merge_order r').2). revert Hs.
      apply (join_all_reaches latest (λ p, kle (merge_order r) p.2) _ _ _ _ Hin).
      * done.
      * intros c. apply (latest_right c (stat_state r x, merge_order r)).
      * intros c w Hc. etrans; [exact Hc|]. apply latest_left.
  - intros s (k & o & Hs)%(elem_of_reduced_stats _ _ _ _ _ H).
    apply Hsrc, elem_of_stat_pairs in Hs as (r & x & ? & ? & ? & _ & [= -> _]).
    by exists r, x.
Qed.

(** ** A device's own record *)

Definition join_stored (current a : StoredAchievementState) : StoredAchievementState :=
  let unlocked := sa_unlocked current || sa_unlocked a in
  {| sa_key := sa_key current; sa_unlocked := unlocked;
     sa_unlocked_at :=
       if unlocked then min_option (sa_unlocked_at current) (sa_unlocked_at a) else None |}.

Definition stored_pairs (r : SteamAppStateRecord) : list (string * StoredAchievementState) :=
  (λ a, (sa_key a, a)) <$> sp_achievements r.
Definition stored_stat_pairs (r : SteamAppStateRecord)
    : list (string * (StoredStatState * DeviceOrder)) :=
  (λ s, (sv_key s, (s, device_order r))) <$> sp_stats r.

Definition folded_achievements (existing incoming : SteamAppStateRecord) :=
  foldl (merge_entry join_stored) ∅ (stored_pairs existing ++ stored_pairs incoming).
Definition folded_stats (existing incoming : SteamAppStateRecord) :=
  foldl (merge_entry latest) ∅ (stored_stat_pairs existing ++ stored_stat_pairs incoming).

Lemma fold_achievements_entries m l :
  foldl fold_achievement m l = foldl (merge_entry join_stored) m ((λ a, (sa_key a, a)) <$> l).
Proof.
  rewrite <-foldl_fmap. revert m; induction l as [|a l IH]; intros m; csimpl; [done|].
  rewrite IH. f_equal. unfold fold_achievement, merge_entry. simpl. by destruct (m !! sa_key a).
Qed.

Lemma fold_stats_entries m r :
  fold_stats m r = foldl (merge_entry latest) m (stored_stat_pairs r).
Proof.
  unfold fold_stats, stored_stat_pairs. rewrite <-foldl_fmap. revert m.
  induction (sp_stats r) as [|s l IH]; intros m; csimpl; [done|].
  by rewrite IH, insert_latest_entry.
Qed.

Lemma fold_device_records_lists existing incoming :
  sp_achievements (fold_device_records existing incoming) =
    btree_values (folded_achievements existing incoming) ∧
  sp_stats (fold_device_records existing incoming) =
    (btree_values (folded_stats existing incoming)).*1.
Proof.
  unfold fold_device_records, folded_achievements, folded_stats. simpl.
  rewrite !fold_achievements_entries, !fold_stats_entries, !foldl_app. done.
Qed.

(** The values under one key: at most one from each record, when keys are unique. *)
Lemma values_of_keyed {A B} (key : A → string) (f : A → B) k l :
  NoDup (key <$> l) →
  values_of k ((λ a, (key a, f a)) <$> l) = f <$> filter (λ a, key a = k) l ∧
  (length (filter (λ a, key a = k) l) ≤ 1)%nat.
Proof.
  induction l as [|a l IH]; csimpl; intros Hnd; [split; [done|simpl; lia]|].
  apply NoDup_cons in Hnd as [Hni Hnd]. destruct (IH Hnd) as [IH1 IH2].
  unfold values_of in *. rewrite !filter_cons. simpl. case_decide as Hk; [|done].
  csimpl. rewrite IH1. split; [done|]. subst.
  enough (filter (λ b, key b = key a) l = []) as -> by (simpl; lia).
  apply elem_of_nil_inv. intros b [Hb Hin]%list_elem_of_filter. apply Hni.
  rewrite <-Hb. by apply list_elem_of_fmap_2.
Qed.

(** The values of a map whose keys are fields of its values. *)
Section keyed_map.
Context {V : Type} (key : V → string) (m : gmap string V)
  (Hkey : ∀ k v, m !! k = Some v → key v = k).

Lemma btree_values_keys : NoDup (key <$> btree_values m).
Proof.
  unfold btree_values. rewrite <-list_fmap_compose.
  assert (Heq : ∀ l, (∀ p, p ∈ l → key p.2 = p.1) → (key ∘ snd) <$> l = (l : list (string * V)).*1).
  { induction l as [|p l IH]; csimpl; intros Hl; [done|].
    rewrite IH by set_solver. f_equal. apply Hl. left. }
  rewrite Heq.
  - rewrite (sort_by_key_perm fst). apply NoDup_fst_map_to_list.
  - intros [k v] Hp. rewrite elem_of_sort_by_key, elem_of_map_to_list in Hp. by apply Hkey.
Qed.

Lemma values_of_btree {W} (f : V → W) k :
  values_of k ((λ v, (key v, f v)) <$> btree_values m) = option_list (f <$> m !! k).
Proof.
  destruct (values_of_keyed key f k (btree_values m) btree_values_keys) as [-> Hlen].
  assert (Hin : ∀ v, v ∈ filter (λ v, key v = k) (btree_values m) ↔ m !! k = Some v).
  { intros v. rewrite list_elem_of_filter, elem_of_btree_values. split.
    - intros [<- [k' Hk']]. by rewrite <-(Hkey _ _ Hk') in Hk'.
    - intros Hv. split; [by apply Hkey|by eauto]. }
  destruct (filter (λ v, key v = k) (btree_values m)) as [|v [|w l]] eqn:E; simpl in Hlen; [| |lia].
  - destruct (m !! k) as [v|]; [|done]. specialize (Hin v). set_solver.
  - rewrite (proj1 (Hin v)) by left. done.
Qed.
End keyed_map.

Lemma join_stored_ok a b :
  achievement_ok a → achievement_ok b → sa_key b = sa_key a → achievement_ok (join_stored a b).
Proof.
  intros (H1 & H2 & H3 & H4) (_ & _ & _ & H5) Hk. split; [done|]. split; [done|]. split; [done|].
  unfold join_stored. simpl. intros t.
  destruct (sa_unlocked a || sa_unlocked b); [|done]. intros Ht. split; [|done].
  destruct (sa_unlocked_at a) as [ta|], (sa_unlocked_at b) as [tb|]; simplify_eq/=.
  - destruct (H4 ta eq_refl), (H5 tb eq_refl). lia.
  - by destruct (H4 _ eq_refl).
  - by destruct (H5 _ eq_refl).
Qed.

Lemma join_stored_idemp a b :
  achievement_ok a → achievement_ok b → sa_key b = sa_key a →
  join_stored (join_stored a b) b = join_stored a b ∧ join_stored b b = b.
Proof.
  intros (_ & _ & _ & Ha) (_ & _ & _ & Hb) Hk. unfold join_stored. simpl.
  destruct a as [ka [] ta], b as [kb [] tb]; simpl in *; simplify_eq;
    try (destruct ta as [ta|]; [by destruct (Ha ta)|]);
    try (destruct tb as [tb|]; [by destruct (Hb tb)|]);
    try destruct ta; try destruct tb; simpl; split; try done; do 2 f_equal; lia.
Qed.

(** The one element of a keyed list with a key. *)
Lemma keyed_option {A B} (key : A → string) (f : A → B) k l :
  NoDup (key <$> l) →
  ∃ o, values_of k ((λ a, (key a, f a)) <$> l) = option_list (f <$> o) ∧
       ∀ a, o = Some a → a ∈ l ∧ key a = k.
Proof.
  intros [-> Hlen]%(values_of_keyed key f k). exists (head (filter (λ a, key a = k) l)). split.
  - by destruct (filter (λ a, key a = k) l) as [|? []]; simpl in *; [| |lia].
  - intros a Ha%head_Some_elem_of. apply list_elem_of_filter in Ha. naive_solver.
Qed.

Lemma values_of_app {K V} `{EqDecision K} (k : K) (ps qs : list (K * V)) :
  values_of k (ps ++ qs) = values_of k ps ++ values_of k qs.
Proof. unfold values_of. by rewrite filter_app, fmap_app. Qed.

Section fold_device.
Context (e i : SteamAppStateRecord) (steam : string) (app : Z) (path : option string)
  (He : stats_record_ok e steam app path) (Hi : stats_record_ok i steam app path).

(** The folded achievement of a key, from at most one report of each side. *)
Lemma folded_achievement_cases k :
  ∃ oe oi,
    values_of k (stored_pairs i) = option_list oi ∧
    folded_achievements e i !! k =
      match oe, oi with
      | Some a, Some b => Some (join_stored a b)
      | Some a, None => Some a
      | None, o => o
      end ∧
    (∀ a, oe = Some a → a ∈ sp_achievements e ∧ achievement_ok a ∧ sa_key a = k) ∧
    (∀ b, oi = Some b → b ∈ sp_achievements i ∧ achievement_ok b ∧ sa_key b = k).
Proof.
  destruct (keyed_option sa_key id k _ (ok_achievement_keys _ _ _ _ He)) as (oe & He1 & He2).
  destruct (keyed_option sa_key id k _ (ok_achievement_keys _ _ _ _ Hi)) as (oi & Hi1 & Hi2).
  rewrite option_fmap_id in He1, Hi1.
  change (values_of k (stored_pairs e) = option_list oe) in He1.
  change (values_of k (stored_pairs i) = option_list oi) in Hi1.
  exists oe, oi. split; [done|]. split.
  - unfold folded_achievements. rewrite lookup_merge_entries, lookup_empty, values_of_app.
    rewrite He1, Hi1. by destruct oe, oi.
  - split; intros a Ha.
    + destruct (He2 a Ha). split; [done|]. split; [|done].
      by eapply (proj1 (Forall_forall _ _) (ok_achievements _ _ _ _ He)).
    + destruct (Hi2 a Ha). split; [done|]. split; [|done].
      by eapply (proj1 (Forall_forall _ _) (ok_achievements _ _ _ _ Hi)).
Qed.

Lemma folded_stat_cases k :
  ∃ oe oi,
    values_of k (stored_stat_pairs i) = option_list ((λ s, (s, device_order i)) <$> oi) ∧
    folded_stats e i !! k =
      match oe, oi with
      | Some a, Some b =>
          Some (if bool_decide (kle (device_order i) (device_order e))
                then (a, device_order e) else (b, device_order i))
      | Some a, None => Some (a, device_order e)
      | None, Some b => Some (b, device_order i)
      | None, None => None
      end ∧
    (∀ a, oe = Some a → a ∈ sp_stats e ∧ stat_ok a ∧ sv_key a = k) ∧
    (∀ b, oi = Some b → b ∈ sp_stats i ∧ stat_ok b ∧ sv_key b = k).
Proof.
  destruct (keyed_option sv_key (λ s, (s, device_order e)) k _ (ok_stat_keys _ _ _ _ He))
    as (oe & He1 & He2).
  destruct (keyed_option sv_key (λ s, (s, device_order i)) k _ (ok_stat_keys _ _ _ _ Hi))
    as (oi & Hi1 & Hi2).
  exists oe, oi. split; [done|]. split.
  - unfold folded_stats. rewrite lookup_merge_entries, lookup_empty, values_of_app.
    unfold stored_stat_pairs. rewrite He1, Hi1. by destruct oe, oi.
  - split; intros a Ha.
    + destruct (He2 a Ha). split; [done|]. split; [|done].
      by eapply (proj1 (Forall_forall _ _) (ok_stats _ _ _ _ He)).
    + destruct (Hi2 a Ha). split; [done|]. split; [|done].
      by eapply (proj1 (Forall_forall _ _) (ok_stats _ _ _ _ Hi)).
Qed.

Lemma folded_achievements_keyed k a :
  folded_achievements e i !! k = Some a → sa_key a = k ∧ achievement_ok a.
Proof.
  destruct (folded_achievement_cases k) as (oe & oi & _ & -> & Hoe & Hoi).
  destruct oe as [x|], oi as [y|]; intros [= <-].
  - destruct (Hoe x) as (_ & ? & ?), (Hoi y) as (_ & ? & ?); [done..|].
    split; [done|]. apply join_stored_ok; [done|done|congruence].
  - by destruct (Hoe x) as (_ & ? & ?).
  - by destruct (Hoi y) as (_ & ? & ?).
Qed.

Lemma folded_stats_keyed k s :
  folded_stats e i !! k = Some s → sv_key s.1 = k ∧ stat_ok s.1.
Proof.
  destruct (folded_stat_cases k) as (oe & oi & _ & -> & Hoe & Hoi).
  destruct oe as [x|], oi as [y|]; intros [= <-]; [case_bool_decide|..]; simpl;
    first [by destruct (Hoe x) as (_ & ? & ?)|by destruct (Hoi y) as (_ & ? & ?)].
Qed.
End fold_device.

Lemma record_ext (r s : SteamAppStateRecord) :
  sp_steam_id64 r = sp_steam_id64 s → sp_client_id r = sp_client_id s →
  sp_app_id r = sp_app_id s → sp_commit_id r = sp_commit_id s →
  sp_observed_at r = sp_observed_at s → sp_achievements r = sp_achievements s →
  sp_stats r = sp_stats s → r = s.
Proof. destruct r, s. simpl. by intros -> -> -> -> -> -> ->. Qed.

Section fold_device_theorems.
Context (e i : SteamAppStateRecord) (steam : string) (app : Z) (path : option string)
  (He : stats_record_ok e steam app path) (Hi : stats_record_ok i steam app path).

Lemma device_order_fold :
  device_order (fold_device_records e i) =
  if decide (kle (device_order e) (device_order i)) then device_order i else device_order e.
Proof. unfold fold_device_records, device_order. simpl. by case_decide. Qed.

Lemma fold_entries :
  (length (sp_achievements (fold_device_records e i)) +
   length (sp_stats (fold_device_records e i)))%nat =
  (size (folded_achievements e i) + size (folded_stats e i))%nat.
Proof.
  destruct (fold_device_records_lists e i) as [-> ->].
  by rewrite length_fmap, !length_btree_values.
Qed.

Lemma fold_stats_values :
  sp_stats (fold_device_records e i) = btree_values (fst <$> folded_stats e i).
Proof.
  destruct (fold_device_records_lists e i) as [_ ->].
  apply (fmap_btree_values fst).
Qed.

Lemma fold_record_ok :
  Z.of_nat (size (folded_achievements e i) + size (folded_stats e i)) ≤ MAX_STATS_ENTRIES →
  stats_record_ok (fold_device_records e i) steam app path.
Proof.
  intros Hcount. destruct (fold_device_records_lists e i) as [Ha _].
  pose proof fold_stats_values as Hs.
  pose proof (folded_achievements_keyed e i steam app path He Hi) as Hka.
  pose proof (folded_stats_keyed e i steam app path He Hi) as Hks.
  assert (Hks' : ∀ k v, (fst <$> folded_stats e i) !! k = Some v → sv_key v = k).
  { intros k v. rewrite lookup_fmap. intros (s & Hk & ->)%fmap_Some. by apply Hks. }
  split; try apply Hi.
  - unfold fold_device_records. simpl. case_decide; [apply Hi|apply He].
  - unfold fold_device_records. simpl. case_decide; [apply Hi|apply He].
  - by rewrite fold_entries.
  - rewrite Ha. apply Forall_forall. intros a [k Hk]%elem_of_btree_values. by eapply Hka.
  - rewrite Ha. apply btree_values_keys. intros k v Hk. by apply Hka.
  - rewrite Hs. apply Forall_forall. intros s [k Hk]%elem_of_btree_values.
    rewrite lookup_fmap in Hk. apply fmap_Some in Hk as (p & Hk & ->). by eapply Hks.
  - rewrite Hs. by apply btree_values_keys.
Qed.
Lemma device_order_le_fold : kle (device_order i) (device_order (fold_device_records e i)).
Proof.
  rewrite device_order_fold. case_decide; [done|].
  by destruct (total kle (device_order e) (device_order i)).
Qed.

Lemma folded_achievements_again :
  folded_achievements (fold_device_records e i) i = folded_achievements e i.
Proof.
  apply map_eq. intros k.
  destruct (folded_achievement_cases e i steam app path He Hi k) as (oe & oi & Hvi & Hk & Hoe & Hoi).
  unfold folded_achievements at 1. rewrite lookup_merge_entries, lookup_empty, values_of_app.
  rewrite Hvi. unfold stored_pairs. destruct (fold_device_records_lists e i) as [-> _].
  rewrite (values_of_btree sa_key _) with (f := id) by
    (intros; by apply (folded_achievements_keyed e i steam app path He Hi)).
  rewrite option_fmap_id, Hk. destruct oe as [a|], oi as [b|]; simpl; try done.
  - destruct (Hoe a) as (_ & ? & ?), (Hoi b) as (_ & ? & ?); [done..|].
    f_equal. apply join_stored_idemp; [done|done|congruence].
  - destruct (Hoi b) as (_ & ? & ?); [done|]. f_equal. by apply (join_stored_idemp b).
Qed.

Lemma folded_stats_again :
  fst <$> folded_stats (fold_device_records e i) i = fst <$> folded_stats e i.
Proof.
  pose proof device_order_le_fold as Hle. set (f := fold_device_records e i) in *.
  apply map_eq. intros k. rewrite !lookup_fmap.
  destruct (folded_stat_cases e i steam app path He Hi k) as (oe & oi & Hvi & Hk & _ & _).
  unfold folded_stats at 1. rewrite lookup_merge_entries, lookup_empty, values_of_app, Hvi.
  unfold stored_stat_pairs. replace (sp_stats f) with (btree_values (fst <$> folded_stats e i))
    by (symmetry; apply fold_stats_values).
  rewrite (values_of_btree sv_key _) with (f := λ s, (s, device_order f)).
  2: { intros k' v. rewrite lookup_fmap. intros (s & Hk' & ->)%fmap_Some.
       by apply (folded_stats_keyed e i steam app path He Hi). }
  rewrite lookup_fmap, Hk. destruct oe as [a|], oi as [b|]; simpl; try done;
    unfold latest; simpl; rewrite bool_decide_eq_true_2 by done; done.
Qed.
End fold_device_theorems.

(** Every report of either side is still there. *)
Lemma fold_reports e i steam app path x :
  stats_record_ok e steam app path → stats_record_ok i steam app path →
  x ∈ sp_achievements e ++ sp_achievements i →
  ∃ y, y ∈ sp_achievements (fold_device_records e i) ∧ sa_key y = sa_key x ∧
       (sa_unlocked x = true → sa_unlocked y = true).
Proof.
  intros He Hi Hx. set (k := sa_key x). destruct (fold_device_records_lists e i) as [-> _].
  assert (Hv : x ∈ values_of k (stored_pairs e ++ stored_pairs i)).
  { apply elem_of_values_of. unfold stored_pairs. rewrite <-fmap_app.
    apply list_elem_of_fmap. by exists x. }
  destruct (join_all_is_Some join_stored _ _ Hv) as [y Hy]. exists y.
  assert (Hl : folded_achievements e i !! k = Some y)
    by (unfold folded_achievements; by rewrite lookup_merge_entries, lookup_empty).
  split; [apply elem_of_btree_values; by eauto|].
  split; [by apply (folded_achievements_keyed e i steam app path He Hi)|].
  intros Hu. revert Hy. apply (join_all_reaches _ (λ a, sa_unlocked a = true) _ _ x y Hv Hu).
  - intros c. unfold join_stored. simpl. by rewrite Hu, orb_true_r.
  - intros c w Hc. unfold join_stored. simpl. by rewrite Hc.
Qed.

(** [fold_device_records_valid]: folding two valid records of a device yields a valid
    record, except that the union of their keys must still fit the entry limit. *)
Theorem fold_device_records_valid e i steam app path
    (He : validate_stats_record e steam app path = Ok tt)
    (Hi : validate_stats_record i steam app path = Ok tt) :
  validate_stats_record (fold_device_records e i) steam app path = Ok tt ↔
  Z.of_nat (size (folded_achievements e i) + size (folded_stats e i)) ≤ MAX_STATS_ENTRIES.
Proof.
  rewrite validate_stats_record_spec in *. split.
  - intros Hf. rewrite <-fold_entries. apply Hf.
  - by apply fold_record_ok.
Qed.

(** [fold_keeps_unlocks]: a fold loses no achievement of either record, keeps every
    unlock and invents none. *)
Theorem fold_keeps_unlocks e i steam app path
    (He : validate_stats_record e steam app path = Ok tt)
    (Hi : validate_stats_record i steam app path = Ok tt) :
  let f := fold_device_records e i in
  (∀ x, x ∈ sp_achievements e ++ sp_achievements i → ∃ y, y ∈ sp_achievements f ∧
     sa_key y = sa_key x ∧ (sa_unlocked x = true → sa_unlocked y = true)) ∧
  (∀ y, y ∈ sp_achievements f → ∃ x, x ∈ sp_achievements e ++ sp_achievements i ∧
     sa_key x = sa_key y ∧ (sa_unlocked y = true → sa_unlocked x = true)).
Proof.
  rewrite validate_stats_record_spec in *. intros f. subst f.
  split; [intros x; by apply (fold_reports e i steam app path)|].
  destruct (fold_device_records_lists e i) as [-> _].
  intros y [k Hk]%elem_of_btree_values. setoid_rewrite elem_of_app.
  destruct (folded_achievement_cases e i steam app path He Hi k)
    as (oe & oi & _ & Heq & Hoe & Hoi). rewrite Heq in Hk.
  destruct oe as [a|], oi as [b|]; simplify_eq/=; [|by naive_solver..].
  destruct (Hoe a) as (? & _ & ?), (Hoi b) as (? & _ & ?); [done..|].
  destruct (sa_unlocked a) eqn:Hu; [exists a|exists b]; naive_solver congruence.
Qed.

(** [fold_device_idempotent]: publishing the same observation again changes nothing. *)
Theorem fold_device_idempotent e i steam app path
    (He : validate_stats_record e steam app path = Ok tt)
    (Hi : validate_stats_record i steam app path = Ok tt) :
  fold_device_records (fold_device_records e i) i = fold_device_records e i.
Proof.
  rewrite validate_stats_record_spec in *. apply record_ext; try done.
  - unfold fold_device_records at 1. simpl. pose proof (device_order_fold e i) as Ho.
    repeat case_decide; try done; unfold device_order in *; congruence.
  - unfold fold_device_records at 1. simpl. pose proof (device_order_fold e i) as Ho.
    repeat case_decide; try done; unfold device_order in *; congruence.
  - destruct (fold_device_records_lists (fold_device_records e i) i) as [-> _].
    rewrite (folded_achievements_again e i steam app path) by done.
    symmetry. apply fold_device_records_lists.
  - rewrite !fold_stats_values. by rewrite (folded_stats_again e i steam app path).
Qed.

(** ** Playtime convergence *)

Section playtime.
Context (scope steam : string).
Implicit Types (o : PlaytimeOrder * PlaytimeEntry).

Definition observation_app o : Z := pe_app_id o.2.

Lemma reduce_observation_entry m o :
  reduce_observation scope steam m o =
  merge_entry combine_playtime m (observation_app o, attributed scope steam o.2).
Proof.
  unfold reduce_observation, merge_entry, observation_app. simpl. by destruct (m !! _).
Qed.

(** The observations of one app, oldest first. *)
Definition history (app : Z) (l : list (PlaytimeOrder * PlaytimeEntry)) :=
  sort_by_key fst (filter (λ o, observation_app o = app) l).

Lemma lookup_reduce_observations l app :
  reduce_observations scope steam l !! app =
  join_all combine_playtime None (attributed scope steam ∘ snd <$> history app l).
Proof.
  unfold reduce_observations, history. rewrite <-filter_sort_by_key.
  generalize (sort_by_key fst l). clear l. intros l.
  transitivity (foldl (merge_entry combine_playtime) ∅
    ((λ o, (observation_app o, attributed scope steam o.2)) <$> l) !! app).
  { rewrite <-foldl_fmap. f_equal. generalize (∅ : gmap Z PlaytimeEntry).
    induction l as [|o l IH]; intros m; [done|]. simpl. by rewrite reduce_observation_entry, IH. }
  rewrite lookup_merge_entries, lookup_empty. f_equal. unfold values_of.
  induction l as [|o l IH]; [done|]. csimpl. rewrite !filter_cons. simpl.
  case_decide; csimpl; by rewrite IH.
Qed.

(** A folded history: maximal totals, and the newest observation's window. *)
Lemma join_all_combine c l :
  ∃ r, join_all combine_playtime (Some c) l = Some r ∧
    pe_app_id r = pe_app_id c ∧ pe_owner_scope r = pe_owner_scope c ∧
    pe_owner_steam_id64 r = pe_owner_steam_id64 c ∧
    pe_playtime_minutes r = foldr Z.max (pe_playtime_minutes c) (pe_playtime_minutes <$> l) ∧
    pe_playtime_2weeks_minutes r = pe_playtime_2weeks_minutes (default c (last l)) ∧
    pe_observed_at r = pe_observed_at (default c (last l)).
Proof.
  revert c; induction l as [|e l IH]; intros c; [by exists c|].
  destruct (IH (combine_playtime c e)) as (r & Hr & H1 & H2 & H3 & H4 & H5 & H6).
  exists r. split; [exact Hr|]. split; [done|]. split; [done|]. split; [done|].
  rewrite H4, H5, H6, last_cons. split.
  - csimpl. generalize (pe_playtime_minutes c). clear. intros m.
    simpl. induction l as [|f l IH]; csimpl; [lia|]. rewrite IH. lia.
  - by destruct (last l).
Qed.
End playtime.

(** [reduce_playtime_order_independent]: the converged playtime does not depend on the
    order in which the observations are read. *)
Theorem reduce_playtime_order_independent scope steam l l'
    (Hdistinct : ∀ o p, o ∈ l → p ∈ l → observation_app o = observation_app p →
       o.1 = p.1 → o = p)
    (Hp : l ≡ₚ l') :
  reduce_observations scope steam l = reduce_observations scope steam l'.
Proof.
  apply map_eq. intros app. rewrite !lookup_reduce_observations. do 2 f_equal.
  apply sort_by_key_unique; [|by rewrite Hp].
  intros o p [Ho1 Ho2]%list_elem_of_filter [Hp1 Hp2]%list_elem_of_filter.
  apply Hdistinct; [done|done|congruence].
Qed.

Lemma foldr_max_ge (m : Z) l : m ≤ foldr Z.max m l ∧ (∀ x, x ∈ l → x ≤ foldr Z.max m l) ∧
  (foldr Z.max m l = m ∨ foldr Z.max m l ∈ l).
Proof.
  induction l as [|y l (IH1 & IH2 & IH3)]; simpl; [split; [lia|]; split; [set_solver|by left]|].
  split; [lia|]. split; [intros x [->|Hx]%elem_of_cons; [lia|specialize (IH2 x Hx); lia]|].
  destruct (Z.max_spec y (foldr Z.max m l)) as [[? ->]|[? ->]]; set_solver.
Qed.

(** The last element of a sorted list is its greatest. *)
Lemma last_greatest {A K} {O : KeyOrd K} (key : A → K) h t o :
  StronglySorted (key_le key) (h :: t) → o ∈ h :: t → kle (key o) (key (default h (last t))).
Proof.
  intros [Hs Hh]%StronglySorted_inv Ho. destruct (last t) as [x|] eqn:El; simpl.
  - apply elem_of_cons in Ho as [->|Ho].
    + rewrite Forall_forall in Hh. by apply Hh, last_Some_elem_of.
    + apply last_Some in El as [t' ->]. apply elem_of_app in Ho as [Ho|Ho%list_elem_of_singleton].
      * by apply (StronglySorted_app_1_elem_of _ _ _ o x Hs); [|left].
      * by subst.
  - apply last_None in El as ->. by apply list_elem_of_singleton in Ho as ->.
Qed.

(** [reduce_playtime_spec]: every observed app has one converged entry, attributed to
    the backend's scope and the account; its total is the greatest total observed,
    and its two-week window is that of the newest observation. *)
Theorem reduce_playtime_spec scope steam l o (Ho : o ∈ l) :
  ∃ r newest, reduce_observations scope steam l !! observation_app o = Some r ∧
    pe_app_id r = observation_app o ∧ pe_owner_scope r = scope ∧ pe_owner_steam_id64 r = steam ∧
    pe_playtime_minutes o.2 ≤ pe_playtime_minutes r ∧
    (∃ p, p ∈ l ∧ observation_app p = observation_app o ∧
          pe_playtime_minutes r = pe_playtime_minutes p.2) ∧
    newest ∈ l ∧ observation_app newest = observation_app o ∧ kle o.1 newest.1 ∧
    pe_playtime_2weeks_minutes r = pe_playtime_2weeks_minutes newest.2 ∧
    pe_observed_at r = pe_observed_at newest.2.
Proof.
  rewrite lookup_reduce_observations.
  pose proof (sort_by_key_sorted fst (filter (λ p, observation_app p = observation_app o) l)) as Hs.
  assert (Hin : ∀ p, p ∈ history (observation_app o) l ↔ observation_app p = observation_app o ∧ p ∈ l).
  { intros p. unfold history. by rewrite elem_of_sort_by_key, list_elem_of_filter. }
  change (StronglySorted (key_le fst) (history (observation_app o) l)) in Hs.
  assert (Ho' : o ∈ history (observation_app o) l) by by apply Hin.
  destruct (history (observation_app o) l) as [|h t]; [set_solver|]. csimpl.
  edestruct (join_all_combine (attributed scope steam h.2) (attributed scope steam ∘ snd <$> t))
    as (r & -> & Happ & Hsc & Hst & Hm & H2 & Hobs).
  destruct (Hin h) as [[Hh1 Hh2] _]; [left|].
  set (newest := default h (last t)).
  assert (Hnew : newest ∈ h :: t ∧ default (attributed scope steam h.2)
    (last (attributed scope steam ∘ snd <$> t)) = attributed scope steam newest.2).
  { unfold newest. rewrite fmap_last. destruct (last t) as [x|] eqn:El; simpl; [|split; [left|done]].
    split; [|done]. right. by apply last_Some_elem_of. }
  destruct Hnew as [Hnew Heq]. rewrite Heq in H2, Hobs. simpl in H2, Hobs.
  destruct (proj1 (Hin newest) Hnew) as [Hna Hnl].
  destruct (foldr_max_ge (pe_playtime_minutes (attributed scope steam h.2))
    (pe_playtime_minutes <$> (attributed scope steam ∘ snd <$> t))) as (Hg1 & Hg2 & Hg3).
  rewrite <-Hm in Hg1, Hg2, Hg3. rewrite <-list_fmap_compose in Hg2, Hg3. simpl in Hg1.
  exists r, newest. split; [done|]. split; [by rewrite Happ|]. split; [done|]. split; [done|].
  split; [|split; [|split; [done|split; [done|split; [|done]]]]].
  - apply elem_of_cons in Ho' as [->|Ho']; [done|]. apply Hg2.
    apply list_elem_of_fmap. by exists o.
  - destruct Hg3 as [Hg3|(p & Hp1 & Hp2)%list_elem_of_fmap]; [by exists h|].
    destruct (proj1 (Hin p)) as [??]; [by right|]. by exists p.
  - exact (last_greatest fst h t o Hs Ho').
Qed.

(** ** Publishing into the folder *)

Lemma find_put_entry {A} name name' (v : A) l :
  find_entry name' (put_entry name v l) =
  if decide (name' = name) then Some v else find_entry name' l.
Proof.
  unfold find_entry. induction l as [|[n w] l IH]; simpl.
  { case_decide as E; simpl; repeat case_decide; simplify_eq/=; done. }
  destruct (decide (n = name)) as [->|Hn]; simpl.
  - repeat case_decide; simplify_eq/=; try done.
  - destruct (decide (n = name')) as [->|Hn'].
    + rewrite decide_False by done. done.
    + destruct (list_find _ (put_entry name v l)) as [[? [??]]|] eqn:E1;
        destruct (list_find _ l) as [[? [??]]|] eqn:E2; simpl in *; done.
Qed.

Lemma dec_text_inj a b : in_u64 a → in_u64 b → dec_text a = dec_text b → a = b.
Proof.
  intros Ha Hb Heq.
  pose proof (parse_dec_text u64_max a Ha ltac:(done)) as H1.
  pose proof (parse_dec_text u64_max b Hb ltac:(done)) as H2. rewrite Heq in H1. congruence.
Qed.

Lemma dec_digits_in_u8 fuel n : 0 ≤ n → Forall (λ c, 48 ≤ c) (dec_digits fuel n).
Proof.
  revert n; induction fuel as [|fuel IH]; intros n Hn; simpl; [constructor|].
  destruct (Z.ltb_spec n 10); [constructor; [lia|constructor]|].
  apply Forall_app. split; [apply IH, Z.div_pos; lia|].
  constructor; [|constructor]. pose proof (Z.mod_pos_bound n 10). lia.
Qed.

Lemma dec_text_in_u8 n : in_u64 n → Forall in_u8 (dec_text n).
Proof.
  intros Hn. unfold dec_text.
  assert (Hf : ∀ fuel m, 0 ≤ m < 10 ^ Z.of_nat fuel → Forall in_u8 (dec_digits fuel m)).
  { induction fuel as [|fuel IH]; intros m Hm; cbn [dec_digits]; [constructor|].
    rewrite Nat2Z.inj_succ, Z.pow_succ_r in Hm by lia.
    destruct (Z.ltb_spec m 10); [constructor; [int_lia|constructor]|].
    apply Forall_app. split.
    - apply IH. split; [apply Z.div_pos; lia|apply Z.div_lt_upper_bound; lia].
    - constructor; [|constructor]. pose proof (Z.mod_pos_bound m 10). int_lia. }
  apply Hf. unfold in_u64, u64_max in Hn. change (10 ^ Z.of_nat 20) with 100000000000000000000. lia.
Qed.

Lemma app_name_inj a b :
  in_u64 a → in_u64 b → bytes_str (dec_text a) = bytes_str (dec_text b) → a = b.
Proof.
  intros Ha Hb Heq. apply dec_text_inj; [done|done|].
  rewrite <-(str_bytes_bytes_str (dec_text a)), Heq, str_bytes_bytes_str;
    auto using dec_text_in_u8.
Qed.

Lemma record_name_bytes c : in_u64 c → str_bytes (record_name c) = dec_text c ++ str_bytes ".json".
Proof.
  intros Hc. unfold record_name. apply str_bytes_bytes_str, Forall_app.
  split; [by apply dec_text_in_u8|apply str_bytes_in_u8].
Qed.

Lemma record_name_inj a b : in_u64 a → in_u64 b → record_name a = record_name b → a = b.
Proof.
  intros Ha Hb Heq. apply dec_text_inj; [done|done|].
  apply (f_equal str_bytes) in Heq. rewrite !record_name_bytes in Heq by done.
  by apply app_inv_tail in Heq.
Qed.

Lemma record_name_parts c :
  in_u64 c → stem_and_extension (str_bytes (record_name c)) = (dec_text c, Some (str_bytes "json")).
Proof.
  intros Hc. rewrite record_name_bytes by done. change (str_bytes ".json") with (46 :: str_bytes "json").
  apply stem_and_extension_app.
  - destruct (dec_digits_head 20 c) as (d & rest & Heq & _); [apply Hc|done|].
    unfold dec_text. by rewrite Heq.
  - by repeat constructor.
Qed.

(** A device finds its own record again under the name it wrote it to. *)
Lemma record_client_id_name c : in_u64 c → c ≠ 0 → record_client_id (record_name c) = Ok c.
Proof.
  intros Hc Hne. unfold record_client_id. rewrite record_name_parts by done. simpl.
  rewrite (parse_dec_text u64_max c Hc) by done. by rewrite (proj2 (Z.eqb_neq _ _)).
Qed.

(** The record file a device has for an account and app. *)
Definition file_of (folder : Folder) (steam : string) (app : Z) (kind : RecordKind) (client : Z)
    : option FileEntry :=
  record_file kind (app_directory folder steam app) client.

Lemma atomic_replace_Ok folder steam app kind client bytes folder' :
  in_u64 app → in_u64 client →
  atomic_replace None folder steam app kind client bytes = Ok folder' →
  ∀ steam' app' kind' client', in_u64 app' → in_u64 client' →
    file_of folder' steam' app' kind' client' =
    if decide (steam' = steam ∧ app' = app ∧ kind' = kind ∧ client' = client)
    then Some (File bytes) else file_of folder steam' app' kind' client'.
Proof.
  intros Happ Hcl Hr steam' app' kind' client' Happ' Hcl'. unfold atomic_replace in Hr.
  set (entries := default [] (folder !! steam)) in *.
  set (app_name := bytes_str (dec_text app)) in *.
  set (dir := default {| ad_stats := None; ad_playtime := None |}
                (mjoin (find_entry app_name entries))).
  set (listing := put_entry (record_name client) (File bytes) (default [] (kind_listing kind dir))).
  assert (Hf : folder' = <[steam := put_entry app_name
    (Some (set_kind_listing kind dir listing)) entries]> folder).
  { subst dir listing. destruct (find_entry app_name entries) as [[d|]|]; congruence. }
  clear Hr. subst folder'. unfold file_of at 1, app_directory.
  destruct (decide (steam' = steam)) as [->|Hs].
  2: { rewrite lookup_insert_ne by done. rewrite decide_False by naive_solver. done. }
  rewrite lookup_insert_eq. cbn [mbind option_bind]. rewrite find_put_entry. fold app_name.
  destruct (decide (app' = app)) as [->|Ha].
  2: { rewrite decide_False by (intros E; by apply app_name_inj in E).
       rewrite decide_False by naive_solver. unfold file_of, app_directory. subst entries.
       by destruct (folder !! steam). }
  rewrite decide_True by done. cbn [mjoin option_join].
  assert (Hold : file_of folder steam app kind' client' = kind_listing kind' dir ≫= find_entry (record_name client')).
  { subst dir entries. unfold file_of, app_directory, record_file. fold app_name. destruct (folder !! steam) as [l|]; simpl; [|by destruct kind'].
    destruct (find_entry app_name l) as [[d|]|]; simpl; [done|by destruct kind'..]. }
  rewrite Hold. clear Hold. unfold record_file. cbn [mbind option_bind].
  destruct (decide (kind' = kind)) as [->|Hk].
  - replace (kind_listing kind (set_kind_listing kind dir listing)) with (Some listing)
      by by destruct kind.
    cbn [mbind option_bind]. subst listing. rewrite find_put_entry.
    destruct (decide (client' = client)) as [->|Hc].
    + by rewrite !decide_True.
    + rewrite decide_False by (intros E; by apply record_name_inj in E).
      rewrite decide_False by naive_solver. by destruct (kind_listing kind dir).
  - rewrite decide_False by naive_solver.
    by destruct kind, kind'.
Qed.

(** The documented behaviour of serde the backend relies on: what it wrote, it reads
    back. *)
Definition serde_roundtrip {A} (to_vec : A → result string (list Z))
    (from_slice : list Z → result string A) : Prop :=
  ∀ a bytes, to_vec a = Ok bytes → from_slice bytes = Ok a.

(** The record a file holds. *)
Definition record_in {A} (from_slice : list Z → result string A) (entry : option FileEntry)
    : option A :=
  match entry with Some (File bytes) => ok (from_slice bytes) | _ => None end.

Lemma json_Ok {A} (r : result string A) a : json r = Ok a → r = Ok a.
Proof. destruct r; simpl; naive_solver. Qed.

Lemma read_bounded_Ok entry maximum label bytes :
  read_bounded_json_file entry maximum label = Ok bytes → entry = File bytes.
Proof. destruct entry; simpl; [|done]. case_match; naive_solver. Qed.

Lemma app_root_Ok folder steam app root :
  app_root folder steam app = Ok root → root = app_directory folder steam app.
Proof. unfold app_root. case_match; [done|]. intros H'. by res_inv. Qed.

(** Every state a snapshot reports is in the record its upload publishes, with its
    unlock. *)
Definition covers (record : SteamAppStateRecord) (a : StoredAchievementState) : Prop :=
  ∃ y, y ∈ sp_achievements record ∧ sa_key y = sa_key a ∧
       (sa_unlocked a = true → sa_unlocked y = true).

Lemma next_stats_record_Ok from_slice folder identity snapshot record :
  next_stats_record from_slice folder identity snapshot = Ok record →
  let client := ui_client_id identity in
  (∀ a, a ∈ sp_achievements (snapshot_record identity snapshot) → covers record a) ∧
  (∀ old a, record_in from_slice
     (file_of folder (ui_steam_id64 identity) (ss_app_id snapshot) StatsRecords client) = Some old →
     a ∈ sp_achievements old → covers record a).
Proof.
  intros H. unfold next_stats_record in H. cbn zeta in H. res_inv.
  apply app_root_Ok in Hx as ->. destruct x0.
  apply validate_stats_record_spec in Hx0. unfold file_of.
  destruct (record_file StatsRecords _ _) as [file|] eqn:Ef; res_inv.
  - apply read_bounded_Ok in Hx as ->. apply json_Ok in Hx1.
    destruct x1. apply validate_stats_record_spec in Hx2. simpl. rewrite Hx1. simpl.
    split; [|intros old a [= <-]]; intros; eapply fold_reports; eauto; apply elem_of_app; auto.
  - simpl. split; [|done]. intros a Ha. by exists a.
Qed.


(** *** Playtime uploads *)

Section upload_playtime.
Context (to_vec : PlaytimeRecord → result string (list Z))
  (from_slice : list Z → result string PlaytimeRecord) (digest : list Z → string)
  (Hserde : serde_roundtrip to_vec from_slice).

(** The total a device has published for an account and app. *)
Definition published_total (folder : Folder) (steam : string) (app client : Z) : option Z :=
  (λ r, pe_playtime_minutes (lp_entry r)) <$>
  record_in from_slice (file_of folder steam app PlaytimeRecords client).

(** No device's total shrinks. *)
Definition totals_le (folder folder' : Folder) : Prop :=
  ∀ steam app client m, in_u64 app → in_u64 client →
    published_total folder steam app client = Some m →
    ∃ m', published_total folder' steam app client = Some m' ∧ m ≤ m'.

#[global] Instance totals_le_preorder : PreOrder totals_le.
Proof.
  split.
  - intros folder steam app client m _ _ Hm. exists m. split; [done|lia].
  - intros f g h Hfg Hgh steam app client m Ha Hc Hm.
    destruct (Hfg _ _ _ _ Ha Hc Hm) as (m1 & Hm1 & ?).
    destruct (Hgh _ _ _ _ Ha Hc Hm1) as (m2 & ? & ?). exists m2. split; [done|lia].
Qed.

Lemma fold_playtime_total existing incoming record :
  fold_playtime_records to_vec digest existing incoming = Ok record →
  pe_playtime_minutes (lp_entry record) =
    Z.max (pe_playtime_minutes (lp_entry existing)) (pe_playtime_minutes (lp_entry incoming)).
Proof. unfold fold_playtime_records. intros H. by res_inv. Qed.

Lemma next_playtime_total folder client steam entry record :
  next_playtime_record to_vec from_slice digest folder client steam entry = Ok record →
  pe_playtime_minutes entry ≤ pe_playtime_minutes (lp_entry record) ∧
  ∀ m, published_total folder steam (pe_app_id entry) client = Some m →
       m ≤ pe_playtime_minutes (lp_entry record).
Proof.
  unfold next_playtime_record, published_total, file_of. intros H. cbn zeta in H. res_inv.
  apply app_root_Ok in Hx as ->.
  destruct (record_file PlaytimeRecords _ _) as [file|]; res_inv; [|by split].
  apply read_bounded_Ok in Hx as ->. apply json_Ok in Hx0.
  apply fold_playtime_total in H. simpl in H. simpl. rewrite Hx0, H. simpl.
  split; [lia|]. intros m [= <-]. lia.
Qed.

Lemma publish_playtime_Ok fault folder client steam entry folder' :
  in_u64 (pe_app_id entry) → in_u64 client →
  publish_playtime to_vec from_slice digest fault folder client steam entry = Ok folder' →
  (∃ m, published_total folder' steam (pe_app_id entry) client = Some m ∧
        pe_playtime_minutes entry ≤ m) ∧
  totals_le folder folder'.
Proof.
  intros Happ Hcl H. unfold publish_playtime in H. res_inv. rename x into record, x0 into bytes.
  destruct (_ <? _); [done|]. apply json_Ok in Hx0.
  destruct fault; [done|]. apply next_playtime_total in Hx as [Hm Hold].
  pose proof (atomic_replace_Ok _ _ _ _ _ _ _ Happ Hcl H) as Hfile.
  assert (Hnew : published_total folder' steam (pe_app_id entry) client =
    Some (pe_playtime_minutes (lp_entry record))).
  { unfold published_total. rewrite Hfile by done. rewrite decide_True by done. simpl.
    by rewrite (Hserde _ _ Hx0). }
  split; [by eauto|]. intros steam' app' client' m Ha Hc Hp.
  destruct (decide (steam' = steam ∧ app' = pe_app_id entry ∧ client' = client))
    as [(-> & -> & ->)|Hne]; [by eauto|].
  exists m. split; [|done]. unfold published_total. rewrite Hfile by done.
  rewrite decide_False by naive_solver. done.
Qed.

Lemma publish_entries_monotone faults entries folder client steam res folder' :
  Forall (λ e, in_u64 (pe_app_id e)) entries → in_u64 client →
  publish_entries to_vec from_slice digest faults folder client steam entries = (res, folder') →
  totals_le folder folder' ∧
  (res = Ok tt → ∀ e, e ∈ entries →
     ∃ m, published_total folder' steam (pe_app_id e) client = Some m ∧
          pe_playtime_minutes e ≤ m).
Proof.
  intros Happs Hcl. revert faults folder.
  induction Happs as [|e entries He _ IH]; intros faults folder H; simpl in H.
  { injection H as <- <-. split; [done|]. intros _ e He. set_solver. }
  destruct (publish_playtime _ _ _ _ _ _ _ _) as [folder1|err] eqn:Ep.
  2: { injection H as <- <-. by split. }
  apply publish_playtime_Ok in Ep as [(m1 & Hm1 & Hle1) Hmono1]; [|done..].
  destruct (IH _ _ H) as [Hmono IHe]. split.
  - by trans folder1.
  - intros Hres f [->|Hf]%elem_of_cons; [|by apply IHe].
    destruct (Hmono steam (pe_app_id e) client m1 He Hcl Hm1) as (m' & ? & ?).
    exists m'. split; [done|lia].
Qed.
End upload_playtime.

(** [upload_playtime_monotone]: an upload, even one that fails half-way, never lowers a
    total any device has published; a successful one covers every entry it was given. *)
Theorem upload_playtime_monotone to_vec from_slice digest faults folder client steam entries
    res folder'
    (Hserde : serde_roundtrip to_vec from_slice)
    (Happs : Forall (λ e, in_u32 (pe_app_id e)) entries) (Hcl : in_u64 client)
    (H : upload_playtime to_vec from_slice digest faults folder client steam entries =
         (res, folder')) :
  totals_le from_slice folder folder' ∧
  (res = Ok tt → ∀ e, e ∈ entries →
     ∃ m, published_total from_slice folder' steam (pe_app_id e) client = Some m ∧
          pe_playtime_minutes e ≤ m).
Proof.
  assert (Happs64 : Forall (λ e, in_u64 (pe_app_id e)) entries)
    by (eapply Forall_impl; [done|]; intros e; simpl; int_lia).
  unfold upload_playtime in H. destruct entries as [|e entries].
  { injection H as <- <-. split; [done|]. intros _ e He. set_solver. }
  destruct (client =? 0); [by injection H as <- <-|].
  destruct (existsb _ _); [by injection H as <- <-|].
  by eapply publish_entries_monotone.
Qed.
