(* ===== verification/LocalSyncExamples.v ===== *)
(** * LocalSyncExamples: the folder backend on concrete records *)

From Stdlib Require Import ZArith Lia.
From S2P Require Import Prelude RustStd CloudCore LocalSync LocalSyncProofs.

Local Open Scope Z_scope.

Definition stored (key : string) (unlocked : bool) (at_ : option Z) : StoredAchievementState :=
  {| sa_key := key; sa_unlocked := unlocked; sa_unlocked_at := at_ |}.
Definition stored_int (key value : string) : StoredStatState :=
  {| sv_key := key; sv_value_type := "int"; sv_value := value |}.

Definition device_record (client observed : Z) (commit : string)
    (achievements : list StoredAchievementState) (stats : list StoredStatState)
    : SteamAppStateRecord :=
  {| sp_steam_id64 := "765"; sp_client_id := client; sp_app_id := 10; sp_commit_id := commit;
     sp_observed_at := observed; sp_achievements := achievements; sp_stats := stats |}.

(** Two devices: the newer report has not seen the older one's unlock. *)
Definition device_a := device_record 7 100 "c1" [stored "win" true (Some 50)] [stored_int "kills" "3"].
Definition device_b := device_record 8 200 "c2" [stored "win" false None] [stored_int "kills" "5"].

Lemma devices_ok : device_records_ok [device_a; device_b].
Proof.
  split.
  - intros r Hr. exists "765", None. apply validate_stats_record_spec.
    repeat (apply elem_of_cons in Hr as [->|Hr]; [by vm_compute|]). set_solver.
  - intros r s Hr Hs _. repeat (apply elem_of_cons in Hr as [->|Hr]);
      repeat (apply elem_of_cons in Hs as [->|Hs]); try set_solver; by intros.
Qed.

Lemma reduce_app_state_order_independent_witness :
  reduce_app_state [device_a; device_b] None = reduce_app_state [device_b; device_a] None.
Proof.
  apply (reduce_app_state_order_independent [device_a; device_b] [device_b; device_a] None).
  - apply devices_ok.
  - apply Permutation_swap.
Defined.

Definition reduced := reduce_app_state [device_a; device_b] None.

Lemma reduce_keeps_unlocks_witness : ∃ achs stats a,
  reduced = Ok (achs, stats) ∧ a ∈ achs ∧ ach_achievement_key a = "win" ∧ ach_unlocked a = true.
Proof.
  destruct reduced as [[achs stats]|] eqn:E; [|by vm_compute in E].
  destruct (reduce_keeps_unlocks [device_a; device_b] None achs stats devices_ok E) as [Hr _].
  destruct (Hr device_a (stored "win" true (Some 50))) as (a & ? & _ & ? & _ & Hu);
    [left|done|left|].
  exists achs, stats, a. repeat split; auto.
Defined.

Lemma reduce_takes_latest_witness : ∃ achs stats,
  reduced = Ok (achs, stats) ∧ ∀ s, s ∈ stats → ∃ r x, r ∈ [device_a; device_b] ∧
    x ∈ sp_stats r ∧ s = stat_state r x.
Proof.
  destruct reduced as [[achs stats]|] eqn:E; [|by vm_compute in E].
  exists achs, stats. split; [done|]. intros s Hs.
  destruct (reduce_takes_latest [device_a; device_b] None achs stats E) as [_ Hl].
  destruct (Hl s Hs) as (r & x & ? & _ & ? & ?). exists r, x. auto.
Defined.

(** Two observations of one device. *)
Definition earlier := device_record 7 100 "c1" [stored "win" true (Some 50)] [stored_int "kills" "3"].
Definition later_one := device_record 7 200 "c2" [stored "lose" false None] [stored_int "kills" "5"].

Lemma fold_device_records_valid_witness :
  validate_stats_record (fold_device_records earlier later_one) "765" 10 None = Ok tt.
Proof.
  apply (fold_device_records_valid earlier later_one "765" 10 None);
    vm_compute; [reflexivity|reflexivity|discriminate].
Defined.

Lemma fold_keeps_unlocks_witness :
  ∃ y, y ∈ sp_achievements (fold_device_records earlier later_one) ∧ sa_key y = "win" ∧
       sa_unlocked y = true.
Proof.
  destruct (fold_keeps_unlocks earlier later_one "765" 10 None) as [Hr _];
    [by vm_compute|by vm_compute|].
  destruct (Hr (stored "win" true (Some 50))) as (y & ? & ? & Hu); [left|].
  exists y. auto.
Defined.

Lemma fold_device_idempotent_witness :
  fold_device_records (fold_device_records earlier later_one) later_one =
  fold_device_records earlier later_one.
Proof. apply (fold_device_idempotent earlier later_one "765" 10 None); by vm_compute. Defined.

(** Playtime observations. *)
Definition entry (app minutes two_weeks observed : Z) : PlaytimeEntry :=
  {| pe_owner_scope := ""; pe_owner_steam_id64 := "765"; pe_app_id := app;
     pe_playtime_minutes := minutes; pe_playtime_2weeks_minutes := two_weeks;
     pe_last_played_at := None; pe_observed_at := observed |}.
Definition seen (client : Z) (e : PlaytimeEntry) : PlaytimeOrder * PlaytimeEntry :=
  ((pe_observed_at e, (client, "digest")), e).
Definition observed := [seen 7 (entry 10 90 5 100); seen 8 (entry 10 60 9 200)].

Lemma reduce_playtime_order_independent_witness :
  reduce_observations "local" "765" observed = reduce_observations "local" "765" (rev observed).
Proof.
  apply (reduce_playtime_order_independent "local" "765" observed (rev observed)).
  - intros o p Ho Hp _. unfold observed in *.
    repeat (apply elem_of_cons in Ho as [->|Ho]); repeat (apply elem_of_cons in Hp as [->|Hp]);
      try set_solver; by intros.
  - apply Permutation_rev.
Defined.

Lemma reduce_playtime_spec_witness :
  ∃ r newest, reduce_observations "local" "765" observed !! 10 = Some r ∧
    90 ≤ pe_playtime_minutes r ∧ newest ∈ observed ∧
    pe_playtime_2weeks_minutes r = pe_playtime_2weeks_minutes newest.2.
Proof.
  destruct (reduce_playtime_spec "local" "765" observed (seen 7 (entry 10 90 5 100)))
    as (r & newest & Hr & _ & _ & _ & ? & _ & ? & _ & _ & ? & _); [left|].
  exists r, newest. auto.
Defined.

(** Uploads, with a codec that knows one record. *)
Definition sample_identity : UploadIdentity :=
  {| ui_client_id := 7; ui_machine_name := "deck"; ui_os_type := None; ui_device_type := None;
     ui_steam_id64 := "765"; ui_persona_name := None |}.
Definition sample_snapshot : SteamAppSnapshot :=
  {| ss_owner_scope := "local"; ss_owner_steam_id64 := "765"; ss_commit_id := "c1";
     ss_app_id := 10; ss_base_crc_stats := None; ss_dirty_stat_ids := [];
     ss_achievements := [{| oa_key := "win"; oa_unlocked := true; oa_unlocked_at := Some 50 |}];
     ss_stats := []; ss_observed_at := 100 |}.
Definition sample_record := snapshot_record sample_identity sample_snapshot.
Definition one_to_vec {A} `{EqDecision A} (known a : A) : result string (list Z) :=
  if decide (a = known) then Ok [123] else Err "unknown".
Definition one_from_slice {A} (known : A) (bytes : list Z) : result string A := Ok known.

Lemma one_roundtrip {A} `{EqDecision A} (known : A) :
  serde_roundtrip (one_to_vec known) (one_from_slice known).
Proof. intros a bytes. unfold one_to_vec. case_decide; [|done]. by subst. Qed.


Definition sample_playtime : LocalSync.PlaytimeRecord :=
  {| lp_steam_id64 := "765"; lp_client_id := 7; lp_entry := entry 10 90 5 100 |}.

Lemma upload_playtime_monotone_witness : ∃ folder' m,
  upload_playtime (one_to_vec sample_playtime) (one_from_slice sample_playtime) (λ _, "") [] ∅ 7
    "765" [entry 10 90 5 100] = (Ok tt, folder') ∧
  published_total (one_from_slice sample_playtime) folder' "765" 10 7 = Some m ∧ 90 ≤ m.
Proof.
  destruct (upload_playtime (one_to_vec sample_playtime) (one_from_slice sample_playtime) (λ _, "")
    [] ∅ 7 "765" [entry 10 90 5 100]) as [res folder'] eqn:E.
  assert (res = Ok tt) as -> by (apply (f_equal fst) in E; vm_compute in E; congruence).
  destruct (upload_playtime_monotone (one_to_vec sample_playtime) (one_from_slice sample_playtime)
    (λ _, "") [] ∅ 7 "765" [entry 10 90 5 100] (Ok tt) folder') as [_ Hm];
    [apply one_roundtrip|constructor; [simpl; int_lia|constructor]|int_lia|exact E|].
  destruct (Hm eq_refl (entry 10 90 5 100)) as (m & ? & ?); [left|].
  exists folder', m. auto.
Defined.
