(* ===== verification/Storage.v ===== *)
(** * Storage: what the sync journal relies on from its embedded database

    [crates/sync-journal] keeps its records in structsy, a crate outside the
    repository. [Structsy] is the part of its API the journal calls, as
    operations on one table per record type; [StructsyLaws] states the documented
    behaviour the journal relies on: a fetched row is a stored row, an insert
    mints an unused reference, an update or a delete touches one row, a commit
    publishes the transaction's view. Every operation may fail, with the message
    the journal wraps into [SyncJournalError::Storage].

    [contents] is the abstract state of a table. The lemmas below turn the laws
    into rewriting facts about it; [MemStructsy] is a concrete instance, a finite
    map with fresh string references, on which the journal's operations run. *)

From stdpp Require Import stringmap.
From S2P Require Import Prelude.

Class Structsy := {
  (** [structsy::Ref<T>], with its textual form *)
  Ref : Type;
  Ref_eq_dec :: EqDecision Ref;
  Ref_countable :: Countable Ref;
  ref_to_string : Ref → string;
  ref_parse : string → option Ref;
  (** the rows of one [define::<T>()]d type *)
  table : Type → Type;
  (** rows in iteration order, which no law fixes *)
  scan : ∀ {R}, table R → list (Ref * R);
  db_scan : ∀ {R}, table R → result string (list (Ref * R));
  tx_read : ∀ {R}, table R → Ref → result string (option R);
  tx_insert : ∀ {R}, table R → R → result string (Ref * table R);
  tx_update : ∀ {R}, table R → Ref → R → result string (table R);
  tx_delete : ∀ {R}, table R → Ref → result string (table R);
  (** transactions over the whole database *)
  db_begin : ∀ {D : Type}, D → result string D;
  tx_commit : ∀ {D : Type}, D → result string D;
}.

(** The rows of a table as a finite map. *)
Definition contents `{S : Structsy} {R} (t : table R) : gmap Ref R :=
  list_to_map (scan t).

Class StructsyLaws (S : Structsy) : Prop := {
  parse_to_string : ∀ id, ref_parse (ref_to_string id) = Some id;
  scan_NoDup : ∀ R (t : table R), NoDup (scan t).*1;
  db_scan_Ok : ∀ R (t : table R) l, db_scan t = Ok l → l = scan t;
  tx_read_Ok : ∀ R (t : table R) id o, tx_read t id = Ok o → o = contents t !! id;
  tx_insert_Ok : ∀ R (t t' : table R) r id,
    tx_insert t r = Ok (id, t') →
    contents t !! id = None ∧ contents t' = <[id := r]> (contents t);
  tx_update_Ok : ∀ R (t t' : table R) r id,
    is_Some (contents t !! id) →
    tx_update t id r = Ok t' → contents t' = <[id := r]> (contents t);
  tx_delete_Ok : ∀ R (t t' : table R) id,
    is_Some (contents t !! id) →
    tx_delete t id = Ok t' → contents t' = delete id (contents t);
  db_begin_Ok : ∀ (D : Type) (d d' : D), db_begin d = Ok d' → d' = d;
  tx_commit_Ok : ∀ (D : Type) (d d' : D), tx_commit d = Ok d' → d' = d;
}.

(** A storage that never fails on rows that exist: the premise of the theorems
    that promise a result. *)
Class StructsyTotal (S : Structsy) : Prop := {
  db_scan_total : ∀ R (t : table R), is_ok (db_scan t) = true;
  tx_read_total : ∀ R (t : table R) id, is_ok (tx_read t id) = true;
  tx_insert_total : ∀ R (t : table R) r, is_ok (tx_insert t r) = true;
  tx_update_total : ∀ R (t : table R) id r,
    is_Some (contents t !! id) → is_ok (tx_update t id r) = true;
  tx_delete_total : ∀ R (t : table R) id,
    is_Some (contents t !! id) → is_ok (tx_delete t id) = true;
  db_begin_total : ∀ (D : Type) (d : D), is_ok (db_begin d) = true;
  tx_commit_total : ∀ (D : Type) (d : D), is_ok (tx_commit d) = true;
}.

(** ** Queries

    A [#[queries]] method keeps the rows whose named fields equal its arguments;
    [ready(..=now)] keeps those with [next_attempt_at <= now]. A query is the
    conjunction, a boolean function on rows. *)

Section queries.
Context `{S : Structsy}.

Definition fetch {R} (q : R → bool) (t : table R) : list (Ref * R) :=
  filter (λ p, q p.2) (scan t).

Definition fetch_next {R} (q : R → bool) (t : table R) : option (Ref * R) :=
  head (fetch q t).

Context `{L : !StructsyLaws S}.

Lemma elem_of_scan {R} (t : table R) id r :
  (id, r) ∈ scan t ↔ contents t !! id = Some r.
Proof. unfold contents. apply elem_of_list_to_map, scan_NoDup. Qed.

Lemma elem_of_fetch {R} (q : R → bool) (t : table R) id r :
  (id, r) ∈ fetch q t ↔ contents t !! id = Some r ∧ q r = true.
Proof.
  unfold fetch. rewrite list_elem_of_filter, elem_of_scan; simpl.
  rewrite Is_true_true. naive_solver.
Qed.

Lemma fetch_NoDup {R} (q : R → bool) (t : table R) : NoDup (fetch q t).*1.
Proof.
  eapply sublist_NoDup; [apply (scan_NoDup R t)|].
  apply fmap_sublist, sublist_filter.
Qed.

Lemma fetch_next_Some {R} (q : R → bool) (t : table R) id r :
  fetch_next q t = Some (id, r) → contents t !! id = Some r ∧ q r = true.
Proof.
  intros H. apply elem_of_fetch. unfold fetch_next in H.
  destruct (fetch q t) as [|p l]; simplify_eq/=. by left.
Qed.

Lemma fetch_next_None {R} (q : R → bool) (t : table R) id r :
  fetch_next q t = None → contents t !! id = Some r → q r = false.
Proof.
  unfold fetch_next. intros H Hr. destruct (q r) eqn:Hq; [|done].
  assert (Hin : (id, r) ∈ fetch q t) by by apply elem_of_fetch.
  destruct (fetch q t); [set_solver|done].
Qed.
End queries.

(** ** Rows with an identity

    [unique_by key m]: no two rows of [m] share a key. The journal keeps this
    with a check-and-insert under its writer lock; the lemmas are shared by all
    record kinds. *)

Definition unique_by {I R K} `{Countable I} (key : R → K) (m : gmap I R) : Prop :=
  ∀ i j r s, m !! i = Some r → m !! j = Some s → key r = key s → i = j.

Section unique_by.
Context {I R K : Type} `{Countable I} (key : R → K).
Implicit Types (m : gmap I R).

Lemma unique_by_empty : unique_by key (∅ : gmap I R).
Proof. intros i j r s H1; set_solver. Qed.

(** Replacing a row by one with the same key. *)
Lemma unique_by_update m i r r' :
  m !! i = Some r → key r' = key r →
  unique_by key m → unique_by key (<[i := r']> m).
Proof.
  intros Hi Hk Hu a b s t. rewrite !lookup_insert.
  repeat case_decide; intros; simplify_eq; try done;
    eapply (Hu a b); eauto; congruence.
Qed.

(** Adding a row whose key is unused. *)
Lemma unique_by_insert m i r :
  (∀ j s, m !! j = Some s → j ≠ i → key s ≠ key r) →
  unique_by key m → unique_by key (<[i := r]> m).
Proof.
  intros Hf Hu a b s t. rewrite !lookup_insert.
  repeat case_decide; intros; simplify_eq; eauto; exfalso; naive_solver.
Qed.

Lemma unique_by_subseteq m m' : m' ⊆ m → unique_by key m → unique_by key m'.
Proof.
  intros Hs Hu a b r s Ha Hb. apply (Hu a b r s); eapply lookup_weaken; eauto.
Qed.

Lemma unique_by_delete m i : unique_by key m → unique_by key (delete i m).
Proof. apply unique_by_subseteq, delete_subseteq. Qed.

Lemma unique_by_alter m i f :
  (∀ r, key (f r) = key r) → unique_by key m → unique_by key (alter f i m).
Proof.
  intros Hf Hu a b r s. rewrite !lookup_alter.
  repeat case_decide; subst; intros Ha Hb Hk.
  - done.
  - apply fmap_Some in Ha as (r0 & Ha & ->). rewrite Hf in Hk. eauto.
  - apply fmap_Some in Hb as (s0 & Hb & ->). rewrite Hf in Hk. eauto.
  - eauto.
Qed.
End unique_by.

#[export] Hint Resolve unique_by_empty unique_by_delete : vapor.

(** ** An in-memory storage *)

#[export, refine] Instance MemStructsy : Structsy := {|
  Ref := string;
  ref_to_string := id;
  ref_parse := Some;
  table := gmap string;
  scan := λ R t, map_to_list t;
  db_scan := λ R t, Ok (map_to_list t);
  tx_read := λ R t i, Ok (t !! i);
  tx_insert := λ R t r, let i := fresh_string "r" t in Ok (i, <[i := r]> t);
  tx_update := λ R t i r, Ok (<[i := r]> t);
  tx_delete := λ R t i, Ok (delete i t);
  db_begin := λ D d, Ok d;
  tx_commit := λ D d, Ok d;
|}.
Proof. Defined.

Lemma mem_contents {R} (t : @table MemStructsy R) : contents t = t.
Proof. apply list_to_map_to_list. Qed.

#[export] Instance MemStructsy_laws : StructsyLaws MemStructsy.
Proof.
  split; try done.
  - intros R t. apply NoDup_fst_map_to_list.
  - intros R t l [= <-]. done.
  - intros R t i o [= <-]. by rewrite mem_contents.
  - intros R t t' r i [= <- <-]. rewrite !mem_contents. split; [|done].
    apply fresh_string_fresh.
  - intros R t t' r i _ [= <-]. by rewrite !mem_contents.
  - intros R t t' i _ [= <-]. by rewrite !mem_contents.
  - by intros D d d' [= <-].
  - by intros D d d' [= <-].
Qed.

#[export] Instance MemStructsy_total : StructsyTotal MemStructsy.
Proof. by split. Qed.
