(* ===== verification/JournalRecord.v ===== *)
(** * JournalRecord: the persistent records of [crates/sync-journal]

    [record.rs], [retry.rs] and the event type of [model.rs]: one record type per
    journal table, the conversions to and from the public values, and the state
    changes a record goes through between its insertion and its removal. *)

From Stdlib Require Import ZArith Lia.
From S2P Require Import Prelude CloudCore.

Local Open Scope Z_scope.

(** ** [model.rs] *)

Record ConflictResolutionEvent := {
  ce_owner_scope : string;
  ce_event_id : string;
  ce_app_id : Z;
  ce_base_change_number : Z;
  ce_remote_change_number : Z;
  ce_resolution : string;
  ce_machine_name : option string;
}.

Inductive SyncJournalError :=
| Io (message : string)
| StorageError (message : string).

(** [uuid_from_digest]: the first sixteen digest bytes with version and variant
    stamped in, printed as 8-4-4-4-12. *)
Definition uuid_bytes (digest : list Z) (version : Z) : list Z :=
  let bytes := take 16 digest in
  let bytes := alter (λ b, Z.lor (Z.land b 15) (Z.shiftl version 4)) 6%nat bytes in
  alter (λ b, Z.lor (Z.land b 63) 128) 8%nat bytes.

Fixpoint uuid_text (index : nat) (bytes : list Z) : list Z :=
  match bytes with
  | [] => []
  | b :: rest =>
      (if bool_decide (index = 4 ∨ index = 6 ∨ index = 8 ∨ index = 10)%nat
       then [45] else []) ++ hex_byte b ++ uuid_text (S index) rest
  end.

Definition uuid_from_digest (digest : list Z) (version : Z) : list Z :=
  uuid_text 0 (uuid_bytes digest version).

(** ** [retry.rs] *)

Definition retry_delay (attempts : Z) : Z := Z.shiftl 1 (Z.max 0 (Z.min 8 attempts)).

(** ** [record.rs] *)

Definition KEPT_CLOUD : string := "kept_cloud".

Record PlaytimeRecord := {
  pr_owner_scope : string;
  pr_owner_steam_id64 : string;
  pr_app_id : Z;
  pr_playtime_minutes : Z;
  pr_playtime_2weeks_minutes : Z;
  pr_last_played_at : option Z;
  pr_observed_at : Z;
  pr_revision : Z;
  pr_attempts : Z;
  pr_next_attempt_at : Z;
  pr_created_at : Z;
}.

Record SchemaRecord := {
  sr_owner_scope : string;
  sr_app_id : Z;
  sr_language : string;
  sr_schema_version : option string;
  sr_content : list Z;
  sr_revision : Z;
  sr_attempts : Z;
  sr_next_attempt_at : Z;
  sr_created_at : Z;
}.

Record AchievementStateRecord := {
  ar_key : string;
  ar_unlocked : bool;
  ar_unlocked_at : option Z;
}.

Record StatStateRecord := {
  sx_key : string;
  sx_value_type : string;
  sx_value : string;
}.

Record StatsRecord := {
  tr_owner_scope : string;
  tr_owner_steam_id64 : string;
  tr_app_id : Z;
  tr_commit_id : string;
  tr_base_crc_stats : option Z;
  tr_dirty_stat_ids : list Z;
  tr_observed_at : Z;
  tr_snapshot_observed_at : option Z;
  tr_snapshot_achievements : list AchievementStateRecord;
  tr_snapshot_stats : list StatStateRecord;
  tr_revision : Z;
  tr_attempts : Z;
  tr_next_attempt_at : Z;
  tr_created_at : Z;
}.

Record ConflictRecord := {
  cr_owner_scope : string;
  cr_event_id : string;
  cr_app_id : Z;
  cr_base_change_number : Z;
  cr_remote_change_number : Z;
  cr_resolution : string;
  cr_machine_name : option string;
  cr_revision : Z;
  cr_attempts : Z;
  cr_next_attempt_at : Z;
  cr_created_at : Z;
}.

Record DeviceRecord := {
  dr_client_id : Z;
  dr_machine_name : string;
  dr_os_type : option Z;
  dr_device_type : option Z;
  dr_observed_at : Z;
}.

Record BackendPrincipalRecord := {
  br_credential_fingerprint : string;
  br_principal_scope : string;
  br_observed_at : Z;
}.

Definition max_option (left right : option Z) : option Z :=
  match left, right with
  | Some l, Some r => Some (Z.max l r)
  | Some v, None | None, Some v => Some v
  | None, None => None
  end.

(** *** [impl PlaytimeRecord] *)

Definition PlaytimeRecord_new (entry : PlaytimeEntry) : PlaytimeRecord := {|
  pr_owner_scope := pe_owner_scope entry;
  pr_owner_steam_id64 := pe_owner_steam_id64 entry;
  pr_app_id := pe_app_id entry;
  pr_playtime_minutes := pe_playtime_minutes entry;
  pr_playtime_2weeks_minutes := pe_playtime_2weeks_minutes entry;
  pr_last_played_at := pe_last_played_at entry;
  pr_observed_at := pe_observed_at entry;
  pr_revision := 0;
  pr_attempts := 0;
  pr_next_attempt_at := 0;
  pr_created_at := pe_observed_at entry;
|}.

Definition PlaytimeRecord_value (r : PlaytimeRecord) : PlaytimeEntry := {|
  pe_owner_scope := pr_owner_scope r;
  pe_owner_steam_id64 := pr_owner_steam_id64 r;
  pe_app_id := pr_app_id r;
  pe_playtime_minutes := pr_playtime_minutes r;
  pe_playtime_2weeks_minutes := pr_playtime_2weeks_minutes r;
  pe_last_played_at := pr_last_played_at r;
  pe_observed_at := pr_observed_at r;
|}.

Definition PlaytimeRecord_merge (r : PlaytimeRecord) (incoming : PlaytimeEntry)
    : bool * PlaytimeRecord :=
  let playtime_minutes := Z.max (pr_playtime_minutes r) (pe_playtime_minutes incoming) in
  let last_played_at := max_option (pr_last_played_at r) (pe_last_played_at incoming) in
  let playtime_2weeks_minutes :=
    if pr_observed_at r <=? pe_observed_at incoming
    then pe_playtime_2weeks_minutes incoming
    else pr_playtime_2weeks_minutes r in
  if bool_decide (playtime_minutes = pr_playtime_minutes r)
     && bool_decide (last_played_at = pr_last_played_at r)
     && bool_decide (playtime_2weeks_minutes = pr_playtime_2weeks_minutes r)
  then (false, r)
  else (true, {|
    pr_owner_scope := pr_owner_scope r;
    pr_owner_steam_id64 := pr_owner_steam_id64 r;
    pr_app_id := pr_app_id r;
    pr_playtime_minutes := playtime_minutes;
    pr_playtime_2weeks_minutes := playtime_2weeks_minutes;
    pr_last_played_at := last_played_at;
    pr_observed_at := Z.max (pr_observed_at r) (pe_observed_at incoming);
    pr_revision := u64_wrapping_add (pr_revision r) 1;
    pr_attempts := 0;
    pr_next_attempt_at := 0;
    pr_created_at := pr_created_at r;
  |}).

(** *** [impl SchemaRecord] *)

Definition SchemaRecord_new (schema : AchievementSchema) (now : Z) : SchemaRecord := {|
  sr_owner_scope := as_owner_scope schema;
  sr_app_id := as_app_id schema;
  sr_language := as_language schema;
  sr_schema_version := as_schema_version schema;
  sr_content := as_content schema;
  sr_revision := 0;
  sr_attempts := 0;
  sr_next_attempt_at := 0;
  sr_created_at := now;
|}.

Definition SchemaRecord_value (r : SchemaRecord) : AchievementSchema := {|
  as_owner_scope := sr_owner_scope r;
  as_app_id := sr_app_id r;
  as_language := sr_language r;
  as_schema_version := sr_schema_version r;
  as_content := sr_content r;
|}.

(** *** [impl StatsRecord] *)

Definition StatsRecord_new (commit : StatsCommit) : StatsRecord := {|
  tr_owner_scope := sc_owner_scope commit;
  tr_owner_steam_id64 := sc_owner_steam_id64 commit;
  tr_app_id := sc_app_id commit;
  tr_commit_id := sc_commit_id commit;
  tr_base_crc_stats := sc_base_crc_stats commit;
  tr_dirty_stat_ids := sc_dirty_stat_ids commit;
  tr_observed_at := sc_observed_at commit;
  tr_snapshot_observed_at := None;
  tr_snapshot_achievements := [];
  tr_snapshot_stats := [];
  tr_revision := 0;
  tr_attempts := 0;
  tr_next_attempt_at := 0;
  tr_created_at := sc_observed_at commit;
|}.

Definition StatsRecord_commit (r : StatsRecord) : StatsCommit := {|
  sc_owner_scope := tr_owner_scope r;
  sc_owner_steam_id64 := tr_owner_steam_id64 r;
  sc_commit_id := tr_commit_id r;
  sc_app_id := tr_app_id r;
  sc_base_crc_stats := tr_base_crc_stats r;
  sc_dirty_stat_ids := tr_dirty_stat_ids r;
  sc_observed_at := tr_observed_at r;
|}.

Definition has_snapshot (r : StatsRecord) : bool :=
  match tr_snapshot_observed_at r with Some _ => true | None => false end.

Definition StatsRecord_complete (r : StatsRecord) (snapshot : SteamAppSnapshot)
    : StatsRecord := {|
  tr_owner_scope := tr_owner_scope r;
  tr_owner_steam_id64 := tr_owner_steam_id64 r;
  tr_app_id := tr_app_id r;
  tr_commit_id := tr_commit_id r;
  tr_base_crc_stats := tr_base_crc_stats r;
  tr_dirty_stat_ids := tr_dirty_stat_ids r;
  tr_observed_at := tr_observed_at r;
  tr_snapshot_observed_at := Some (ss_observed_at snapshot);
  tr_snapshot_achievements :=
    (λ a, {| ar_key := oa_key a; ar_unlocked := oa_unlocked a;
             ar_unlocked_at := oa_unlocked_at a |}) <$> ss_achievements snapshot;
  tr_snapshot_stats :=
    (λ s, {| sx_key := os_key s; sx_value_type := os_value_type s;
             sx_value := os_value s |}) <$> ss_stats snapshot;
  tr_revision := u64_wrapping_add (tr_revision r) 1;
  tr_attempts := 0;
  tr_next_attempt_at := 0;
  tr_created_at := tr_created_at r;
|}.

Definition StatsRecord_reopen (r : StatsRecord) (base_crc_stats : option Z) (now : Z)
    : StatsRecord := {|
  tr_owner_scope := tr_owner_scope r;
  tr_owner_steam_id64 := tr_owner_steam_id64 r;
  tr_app_id := tr_app_id r;
  tr_commit_id := tr_commit_id r;
  tr_base_crc_stats := base_crc_stats;
  tr_dirty_stat_ids := tr_dirty_stat_ids r;
  tr_observed_at := now;
  tr_snapshot_observed_at := None;
  tr_snapshot_achievements := [];
  tr_snapshot_stats := [];
  tr_revision := u64_wrapping_add (tr_revision r) 1;
  tr_attempts := 0;
  tr_next_attempt_at := 0;
  tr_created_at := tr_created_at r;
|}.

Definition StatsRecord_snapshot (r : StatsRecord) : option SteamAppSnapshot :=
  match tr_snapshot_observed_at r with
  | None => None
  | Some observed_at => Some {|
      ss_owner_scope := tr_owner_scope r;
      ss_owner_steam_id64 := tr_owner_steam_id64 r;
      ss_commit_id := tr_commit_id r;
      ss_app_id := tr_app_id r;
      ss_base_crc_stats := tr_base_crc_stats r;
      ss_dirty_stat_ids := tr_dirty_stat_ids r;
      ss_achievements :=
        (λ a, {| oa_key := ar_key a; oa_unlocked := ar_unlocked a;
                 oa_unlocked_at := ar_unlocked_at a |}) <$> tr_snapshot_achievements r;
      ss_stats :=
        (λ s, {| os_key := sx_key s; os_value_type := sx_value_type s;
                 os_value := sx_value s |}) <$> tr_snapshot_stats r;
      ss_observed_at := observed_at;
    |}
  end.

(** *** [impl ConflictRecord], [impl DeviceRecord] *)

Definition ConflictRecord_new (resolution : ConflictResolutionEvent) (now : Z)
    : ConflictRecord := {|
  cr_owner_scope := ce_owner_scope resolution;
  cr_event_id := ce_event_id resolution;
  cr_app_id := ce_app_id resolution;
  cr_base_change_number := ce_base_change_number resolution;
  cr_remote_change_number := ce_remote_change_number resolution;
  cr_resolution := ce_resolution resolution;
  cr_machine_name := ce_machine_name resolution;
  cr_revision := 0;
  cr_attempts := 0;
  cr_next_attempt_at := 0;
  cr_created_at := now;
|}.

Definition ConflictRecord_value (r : ConflictRecord) : ConflictResolutionEvent := {|
  ce_owner_scope := cr_owner_scope r;
  ce_event_id := cr_event_id r;
  ce_app_id := cr_app_id r;
  ce_base_change_number := cr_base_change_number r;
  ce_remote_change_number := cr_remote_change_number r;
  ce_resolution := cr_resolution r;
  ce_machine_name := cr_machine_name r;
|}.

Definition kept_cloud (r : ConflictRecord) : bool :=
  bool_decide (cr_resolution r = KEPT_CLOUD).

Definition DeviceRecord_value (r : DeviceRecord) : DeviceDescriptor := {|
  dd_client_id := dr_client_id r;
  dd_machine_name := dr_machine_name r;
  dd_os_type := dr_os_type r;
  dd_device_type := dr_device_type r;
|}.
