(* ===== verification/SyncJournal.v ===== *)
(** * SyncJournal: the durable outbox of [crates/sync-journal/src/store.rs]

    The journal keeps one table per record kind and runs every mutation in one
    transaction under a writer lock. [Database] is its state, [write] the
    transaction wrapper (an error anywhere leaves the state as it was), and there
    is one definition per method of [SyncJournal]. The definitions are written
    against the [Structsy] interface; iteration order and failures are the
    interface's. *)

From Stdlib Require Import ZArith Lia.
From S2P Require Import Prelude CloudCore Storage JournalRecord.

Local Open Scope Z_scope.

Definition PLAYTIME_BATCH_LIMIT : nat := 500.
Definition SCHEMA_BATCH_LIMIT : nat := 10.
Definition STATS_BATCH_LIMIT : nat := 100.
Definition CONFLICT_BATCH_LIMIT : nat := 100.

(** ** The [#[queries]] traits *)

Definition playtime_scoped (owner_scope : string) (r : PlaytimeRecord) : bool :=
  bool_decide (pr_owner_scope r = owner_scope).
Definition playtime_owned_by (owner_scope owner_steam_id64 : string) (r : PlaytimeRecord)
    : bool :=
  bool_decide (pr_owner_scope r = owner_scope)
  && bool_decide (pr_owner_steam_id64 r = owner_steam_id64).
Definition playtime_for_app (app_id : Z) (r : PlaytimeRecord) : bool :=
  bool_decide (pr_app_id r = app_id).
Definition playtime_ready (now : Z) (r : PlaytimeRecord) : bool :=
  pr_next_attempt_at r <=? now.

Definition schema_scoped (owner_scope : string) (r : SchemaRecord) : bool :=
  bool_decide (sr_owner_scope r = owner_scope).
Definition schema_identified (owner_scope : string) (app_id : Z) (language : string)
    (r : SchemaRecord) : bool :=
  bool_decide (sr_owner_scope r = owner_scope)
  && bool_decide (sr_app_id r = app_id) && bool_decide (sr_language r = language).
Definition schema_ready (now : Z) (r : SchemaRecord) : bool := sr_next_attempt_at r <=? now.

Definition stats_owned_by (owner_scope owner_steam_id64 : string) (r : StatsRecord) : bool :=
  bool_decide (tr_owner_scope r = owner_scope)
  && bool_decide (tr_owner_steam_id64 r = owner_steam_id64).
Definition stats_identified (owner_scope owner_steam_id64 : string) (app_id : Z)
    (r : StatsRecord) : bool :=
  bool_decide (tr_owner_scope r = owner_scope)
  && bool_decide (tr_owner_steam_id64 r = owner_steam_id64)
  && bool_decide (tr_app_id r = app_id).
Definition stats_ready (now : Z) (r : StatsRecord) : bool := tr_next_attempt_at r <=? now.

Definition conflict_scoped (owner_scope : string) (r : ConflictRecord) : bool :=
  bool_decide (cr_owner_scope r = owner_scope).
Definition conflict_identified (owner_scope event_id : string) (r : ConflictRecord) : bool :=
  bool_decide (cr_owner_scope r = owner_scope) && bool_decide (cr_event_id r = event_id).
Definition conflict_for_app (owner_scope : string) (app_id : Z) (r : ConflictRecord) : bool :=
  bool_decide (cr_owner_scope r = owner_scope) && bool_decide (cr_app_id r = app_id).
Definition conflict_ready (now : Z) (r : ConflictRecord) : bool := cr_next_attempt_at r <=? now.

Definition principal_identified (credential_fingerprint : string)
    (r : BackendPrincipalRecord) : bool :=
  bool_decide (br_credential_fingerprint r = credential_fingerprint).

(** ** State, transactions, queued items *)

(** [Queued<T>]: a value handed out for upload with what settles it. *)
Record Queued (T : Type) := {
  q_value : T;
  q_id : string;
  q_revision : Z;
}.
Arguments q_value {T} _.
Arguments q_id {T} _.
Arguments q_revision {T} _.

Notation JR := (result SyncJournalError).

(** [impl From<StructsyError> for SyncJournalError] *)
Definition storage {A} (r : result string A) : JR A :=
  match r with Ok a => Ok a | Err message => Err (StorageError message) end.

(** [values]: the batch handed to a backend. *)
Definition values {T} (items : list (Queued T)) : list T := q_value <$> items.

Section journal.
Context `{St : Structsy}.

Record Database := {
  db_playtime : table PlaytimeRecord;
  db_schema : table SchemaRecord;
  db_stats : table StatsRecord;
  db_conflict : table ConflictRecord;
  db_device : table DeviceRecord;
  db_principal : table BackendPrincipalRecord;
}.

Definition set_playtime (j : Database) t : Database :=
  {| db_playtime := t; db_schema := db_schema j; db_stats := db_stats j;
     db_conflict := db_conflict j; db_device := db_device j; db_principal := db_principal j |}.
Definition set_schema (j : Database) t : Database :=
  {| db_playtime := db_playtime j; db_schema := t; db_stats := db_stats j;
     db_conflict := db_conflict j; db_device := db_device j; db_principal := db_principal j |}.
Definition set_stats (j : Database) t : Database :=
  {| db_playtime := db_playtime j; db_schema := db_schema j; db_stats := t;
     db_conflict := db_conflict j; db_device := db_device j; db_principal := db_principal j |}.
Definition set_conflict (j : Database) t : Database :=
  {| db_playtime := db_playtime j; db_schema := db_schema j; db_stats := db_stats j;
     db_conflict := t; db_device := db_device j; db_principal := db_principal j |}.
Definition set_device (j : Database) t : Database :=
  {| db_playtime := db_playtime j; db_schema := db_schema j; db_stats := db_stats j;
     db_conflict := db_conflict j; db_device := t; db_principal := db_principal j |}.
Definition set_principal (j : Database) t : Database :=
  {| db_playtime := db_playtime j; db_schema := db_schema j; db_stats := db_stats j;
     db_conflict := db_conflict j; db_device := db_device j; db_principal := t |}.

(** [SyncJournal::write]: run [action] in one transaction; an error drops the
    transaction, so the committed state is the old one. *)
Definition write {T} (action : Database → JR (T * Database)) (j : Database)
    : JR T * Database :=
  match storage (db_begin j) with
  | Err e => (Err e, j)
  | Ok transaction =>
      match action transaction with
      | Err e => (Err e, j)
      | Ok (output, transaction') =>
          match storage (tx_commit transaction') with
          | Err e => (Err e, j)
          | Ok j' => (Ok output, j')
          end
      end
  end.

(** [Queued::new] *)
Definition Queued_new {T} (id : Ref) (revision : Z) (value : T) : Queued T :=
  {| q_value := value; q_id := ref_to_string id; q_revision := revision |}.

(** [Queued::reference] *)
Definition reference {T} (item : Queued T) : JR Ref :=
  ok_or (ref_parse (q_id item)) (StorageError ("unusable record id: " ++ q_id item)).

(** *** The [journaled!] macro

    [Journaled V R]: the public value [V] is stored in records [R]. *)
Class Journaled (V R : Type) := {
  jr_table : Database → table R;
  jr_set_table : Database → table R → Database;
  jr_revision : R → Z;
  jr_attempts : R → Z;
  jr_next_attempt_at : R → Z;
  (** the record with [next_attempt_at] and [attempts] replaced *)
  jr_schedule : R → Z → Z → R;
}.

Fixpoint settle_items {V R} (items : list (Queued V)) (revision_of : R → Z) (t : table R)
    : JR (table R) :=
  match items with
  | [] => Ok t
  | item :: rest =>
      id ← reference item;
      stored ← storage (tx_read t id);
      match stored with
      | None => settle_items rest revision_of t
      | Some stored =>
          if decide (revision_of stored = q_revision item)
          then t' ← storage (tx_delete t id); settle_items rest revision_of t'
          else settle_items rest revision_of t
      end
  end.

Definition settle {V R} `{Journaled V R} (items : list (Queued V)) (j : Database)
    : JR unit * Database :=
  write (λ tx, t ← settle_items items jr_revision (jr_table tx);
               Ok (tt, jr_set_table tx t)) j.

Fixpoint postpone_items {V R} `{Journaled V R} (items : list (Queued V)) (now : Z)
    (t : table R) : JR (table R) :=
  match items with
  | [] => Ok t
  | item :: rest =>
      id ← reference item;
      stored ← storage (tx_read t id);
      match stored with
      | None => postpone_items rest now t
      | Some stored =>
          if decide (jr_revision stored = q_revision item)
          then
            let next_attempt_at :=
              i64_saturating_add now (retry_delay (jr_attempts stored)) in
            let attempts := i64_saturating_add (jr_attempts stored) 1 in
            t' ← storage (tx_update t id (jr_schedule stored next_attempt_at attempts));
            postpone_items rest now t'
          else postpone_items rest now t
      end
  end.

Definition postpone {V R} `{Journaled V R} (items : list (Queued V)) (now : Z)
    (j : Database) : JR unit * Database :=
  write (λ tx, t ← postpone_items items now (jr_table tx);
               Ok (tt, jr_set_table tx t)) j.

Definition acknowledge {V R} `{Journaled V R} (item : Queued V) := settle [item].
Definition acknowledge_all {V R} `{Journaled V R} (items : list (Queued V)) := settle items.
Definition defer {V R} `{Journaled V R} (item : Queued V) (now : Z) := postpone [item] now.
Definition defer_all {V R} `{Journaled V R} (items : list (Queued V)) (now : Z) :=
  postpone items now.

(** [journaled!(PlaytimeEntry, PlaytimeRecord)] and its three siblings *)
#[export] Instance journaled_playtime : Journaled PlaytimeEntry PlaytimeRecord := {|
  jr_table := db_playtime; jr_set_table := set_playtime;
  jr_revision := pr_revision; jr_attempts := pr_attempts;
  jr_next_attempt_at := pr_next_attempt_at;
  jr_schedule := λ r next attempts, {|
    pr_owner_scope := pr_owner_scope r; pr_owner_steam_id64 := pr_owner_steam_id64 r;
    pr_app_id := pr_app_id r; pr_playtime_minutes := pr_playtime_minutes r;
    pr_playtime_2weeks_minutes := pr_playtime_2weeks_minutes r;
    pr_last_played_at := pr_last_played_at r; pr_observed_at := pr_observed_at r;
    pr_revision := pr_revision r; pr_attempts := attempts;
    pr_next_attempt_at := next; pr_created_at := pr_created_at r |};
|}.

#[export] Instance journaled_schema : Journaled AchievementSchema SchemaRecord := {|
  jr_table := db_schema; jr_set_table := set_schema;
  jr_revision := sr_revision; jr_attempts := sr_attempts;
  jr_next_attempt_at := sr_next_attempt_at;
  jr_schedule := λ r next attempts, {|
    sr_owner_scope := sr_owner_scope r; sr_app_id := sr_app_id r;
    sr_language := sr_language r; sr_schema_version := sr_schema_version r;
    sr_content := sr_content r; sr_revision := sr_revision r;
    sr_attempts := attempts; sr_next_attempt_at := next;
    sr_created_at := sr_created_at r |};
|}.

#[export] Instance journaled_stats : Journaled SteamAppSnapshot StatsRecord := {|
  jr_table := db_stats; jr_set_table := set_stats;
  jr_revision := tr_revision; jr_attempts := tr_attempts;
  jr_next_attempt_at := tr_next_attempt_at;
  jr_schedule := λ r next attempts, {|
    tr_owner_scope := tr_owner_scope r; tr_owner_steam_id64 := tr_owner_steam_id64 r;
    tr_app_id := tr_app_id r; tr_commit_id := tr_commit_id r;
    tr_base_crc_stats := tr_base_crc_stats r; tr_dirty_stat_ids := tr_dirty_stat_ids r;
    tr_observed_at := tr_observed_at r;
    tr_snapshot_observed_at := tr_snapshot_observed_at r;
    tr_snapshot_achievements := tr_snapshot_achievements r;
    tr_snapshot_stats := tr_snapshot_stats r; tr_revision := tr_revision r;
    tr_attempts := attempts; tr_next_attempt_at := next;
    tr_created_at := tr_created_at r |};
|}.

#[export] Instance journaled_conflict : Journaled ConflictResolutionEvent ConflictRecord := {|
  jr_table := db_conflict; jr_set_table := set_conflict;
  jr_revision := cr_revision; jr_attempts := cr_attempts;
  jr_next_attempt_at := cr_next_attempt_at;
  jr_schedule := λ r next attempts, {|
    cr_owner_scope := cr_owner_scope r; cr_event_id := cr_event_id r;
    cr_app_id := cr_app_id r; cr_base_change_number := cr_base_change_number r;
    cr_remote_change_number := cr_remote_change_number r;
    cr_resolution := cr_resolution r; cr_machine_name := cr_machine_name r;
    cr_revision := cr_revision r; cr_attempts := attempts;
    cr_next_attempt_at := next; cr_created_at := cr_created_at r |};
|}.

(** *** Playtime totals *)

Fixpoint enqueue_playtime_entries (entries : list PlaytimeEntry) (t : table PlaytimeRecord)
    : JR (table PlaytimeRecord) :=
  match entries with
  | [] => Ok t
  | incoming :: rest =>
      let existing := fetch_next (λ r,
        playtime_owned_by (pe_owner_scope incoming) (pe_owner_steam_id64 incoming) r
        && playtime_for_app (pe_app_id incoming) r) t in
      match existing with
      | Some (id, stored) =>
          let '(moved, stored') := PlaytimeRecord_merge stored incoming in
          if moved
          then t' ← storage (tx_update t id stored'); enqueue_playtime_entries rest t'
          else enqueue_playtime_entries rest t
      | None =>
          '(_, t') ← storage (tx_insert t (PlaytimeRecord_new incoming));
          enqueue_playtime_entries rest t'
      end
  end.

Definition enqueue_playtime (entries : list PlaytimeEntry) : Database → JR nat * Database :=
  write (λ tx, t ← enqueue_playtime_entries entries (db_playtime tx);
               Ok (length entries, set_playtime tx t)).

Definition ready_playtime_accounts (owner_scope : string) (now : Z) (j : Database)
    : list string :=
  sort_by_key id (remove_dups
    ((λ p, pr_owner_steam_id64 p.2) <$>
     fetch (λ r, playtime_scoped owner_scope r && playtime_ready now r) (db_playtime j))).

Definition next_playtime_attempt_at (owner_scope : string) (j : Database) : option Z :=
  list_min ((λ p, pr_next_attempt_at p.2) <$>
            fetch (playtime_scoped owner_scope) (db_playtime j)).

Definition pending_playtime (owner_scope owner_steam_id64 : string) (now : Z) (j : Database)
    : list (Queued PlaytimeEntry) :=
  let pending :=
    (λ p, (pr_app_id p.2, Queued_new p.1 (pr_revision p.2) (PlaytimeRecord_value p.2))) <$>
    fetch (λ r, playtime_owned_by owner_scope owner_steam_id64 r && playtime_ready now r)
      (db_playtime j) in
  (take PLAYTIME_BATCH_LIMIT (sort_by_key fst pending)).*2.

Definition playtime_len (j : Database) : JR nat :=
  l ← storage (db_scan (db_playtime j)); Ok (length l).

Definition playtime_empty (j : Database) : JR bool :=
  len ← playtime_len j; Ok (bool_decide (len = 0%nat)).

(** *** Achievement schemas *)

Definition schema_with_history (record stored : SchemaRecord) : SchemaRecord := {|
  sr_owner_scope := sr_owner_scope record; sr_app_id := sr_app_id record;
  sr_language := sr_language record; sr_schema_version := sr_schema_version record;
  sr_content := sr_content record;
  sr_revision := u64_wrapping_add (sr_revision stored) 1;
  sr_attempts := sr_attempts record; sr_next_attempt_at := sr_next_attempt_at record;
  sr_created_at := sr_created_at stored |}.

Definition enqueue_schema (schema : AchievementSchema) (now : Z)
    : Database → JR unit * Database :=
  write (λ tx,
    let record := SchemaRecord_new schema now in
    match fetch_next (schema_identified (as_owner_scope schema) (as_app_id schema)
            (as_language schema)) (db_schema tx) with
    | Some (id, stored) =>
        t ← storage (tx_update (db_schema tx) id (schema_with_history record stored));
        Ok (tt, set_schema tx t)
    | None =>
        '(_, t) ← storage (tx_insert (db_schema tx) record);
        Ok (tt, set_schema tx t)
    end).

Definition schema_attributed (owner_scope : string) (r : SchemaRecord) : SchemaRecord := {|
  sr_owner_scope := owner_scope; sr_app_id := sr_app_id r;
  sr_language := sr_language r; sr_schema_version := sr_schema_version r;
  sr_content := sr_content r; sr_revision := u64_wrapping_add (sr_revision r) 1;
  sr_attempts := sr_attempts r; sr_next_attempt_at := sr_next_attempt_at r;
  sr_created_at := sr_created_at r |}.

Fixpoint update_rows {R} (rows : list (Ref * R)) (f : R → R) (t : table R) : JR (table R) :=
  match rows with
  | [] => Ok t
  | (id, record) :: rest =>
      t' ← storage (tx_update t id (f record)); update_rows rest f t'
  end.

Definition attribute_pending_schemas (owner_scope : string) (j : Database)
    : JR unit * Database :=
  if decide (owner_scope = "") then (Ok tt, j)
  else write (λ tx,
    let orphans := fetch (schema_scoped "") (db_schema tx) in
    t ← update_rows orphans (schema_attributed owner_scope) (db_schema tx);
    Ok (tt, set_schema tx t)) j.

Definition pending_schemas (now : Z) (owner_scope : string) (j : Database)
    : list (Queued AchievementSchema) :=
  let pending :=
    (λ p, ((sr_created_at p.2, sr_app_id p.2),
           Queued_new p.1 (sr_revision p.2) (SchemaRecord_value p.2))) <$>
    fetch (λ r, schema_scoped owner_scope r && schema_ready now r) (db_schema j) in
  (take SCHEMA_BATCH_LIMIT (sort_by_key fst pending)).*2.

Definition next_schema_attempt_at (owner_scope : string) (j : Database) : option Z :=
  list_min ((λ p, sr_next_attempt_at p.2) <$> fetch (schema_scoped owner_scope) (db_schema j)).

(** *** Stats commits and the snapshots that complete them *)

Definition stats_for (t : table StatsRecord) (owner_scope owner_steam_id64 : string)
    (app_id : Z) : option (Ref * StatsRecord) :=
  fetch_next (stats_identified owner_scope owner_steam_id64 app_id) t.

Definition stats_with_revision (record : StatsRecord) (revision : Z) : StatsRecord := {|
  tr_owner_scope := tr_owner_scope record;
  tr_owner_steam_id64 := tr_owner_steam_id64 record; tr_app_id := tr_app_id record;
  tr_commit_id := tr_commit_id record; tr_base_crc_stats := tr_base_crc_stats record;
  tr_dirty_stat_ids := tr_dirty_stat_ids record; tr_observed_at := tr_observed_at record;
  tr_snapshot_observed_at := tr_snapshot_observed_at record;
  tr_snapshot_achievements := tr_snapshot_achievements record;
  tr_snapshot_stats := tr_snapshot_stats record; tr_revision := revision;
  tr_attempts := tr_attempts record; tr_next_attempt_at := tr_next_attempt_at record;
  tr_created_at := tr_created_at record |}.

Definition enqueue_stats_commit (commit : StatsCommit) : Database → JR unit * Database :=
  write (λ tx,
    let record := StatsRecord_new commit in
    match stats_for (db_stats tx) (sc_owner_scope commit) (sc_owner_steam_id64 commit)
            (sc_app_id commit) with
    | Some (id, stored) =>
        let record := stats_with_revision record (u64_wrapping_add (tr_revision stored) 1) in
        t ← storage (tx_update (db_stats tx) id record);
        Ok (tt, set_stats tx t)
    | None =>
        '(_, t) ← storage (tx_insert (db_stats tx) record);
        Ok (tt, set_stats tx t)
    end).

Definition pending_stats_commit (owner_scope owner_steam_id64 : string) (app_id : Z)
    (j : Database) : option StatsCommit :=
  match stats_for (db_stats j) owner_scope owner_steam_id64 app_id with
  | Some (_, record) => if has_snapshot record then None else Some (StatsRecord_commit record)
  | None => None
  end.

Definition stats_sync_pending (owner_scope owner_steam_id64 : string) (app_id : Z)
    (j : Database) : bool :=
  match stats_for (db_stats j) owner_scope owner_steam_id64 app_id with
  | Some _ => true | None => false
  end.

Definition complete_stats_snapshot (snapshot : SteamAppSnapshot)
    : Database → JR bool * Database :=
  write (λ tx,
    match stats_for (db_stats tx) (ss_owner_scope snapshot) (ss_owner_steam_id64 snapshot)
            (ss_app_id snapshot) with
    | None => Ok (false, tx)
    | Some (id, record) =>
        if has_snapshot record || negb (bool_decide (tr_commit_id record = ss_commit_id snapshot))
        then Ok (false, tx)
        else
          t ← storage (tx_update (db_stats tx) id (StatsRecord_complete record snapshot));
          Ok (true, set_stats tx t)
    end).

Definition pending_stats_snapshots (owner_scope owner_steam_id64 : string) (now : Z)
    (j : Database) : list (Queued SteamAppSnapshot) :=
  let pending :=
    omap (λ p, snapshot ← StatsRecord_snapshot p.2;
               Some ((tr_created_at p.2, tr_app_id p.2),
                     Queued_new p.1 (tr_revision p.2) snapshot))
      (fetch (λ r, stats_owned_by owner_scope owner_steam_id64 r && stats_ready now r)
         (db_stats j)) in
  (take STATS_BATCH_LIMIT (sort_by_key fst pending)).*2.

Definition next_stats_snapshot_attempt_at (owner_scope owner_steam_id64 : string)
    (j : Database) : option Z :=
  list_min ((λ p, tr_next_attempt_at p.2) <$>
    filter (λ p, has_snapshot p.2)
      (fetch (stats_owned_by owner_scope owner_steam_id64) (db_stats j))).

Definition stats_awaiting_snapshot (owner_scope owner_steam_id64 : string) (j : Database)
    : list Z :=
  (λ p, tr_app_id p.2) <$>
    filter (λ p, negb (has_snapshot p.2))
      (fetch (stats_owned_by owner_scope owner_steam_id64) (db_stats j)).

Definition reopen_stats_commit (item : Queued SteamAppSnapshot) (base_crc_stats : option Z)
    (now : Z) : Database → JR bool * Database :=
  write (λ tx,
    id ← reference item;
    stored ← storage (tx_read (db_stats tx) id);
    match stored with
    | None => Ok (false, tx)
    | Some stored =>
        if decide (tr_revision stored = q_revision item)
        then
          t ← storage (tx_update (db_stats tx) id (StatsRecord_reopen stored base_crc_stats now));
          Ok (true, set_stats tx t)
        else Ok (false, tx)
    end).

Definition stats_len (j : Database) : JR nat :=
  l ← storage (db_scan (db_stats j)); Ok (length l).

(** *** Cloud conflict resolutions *)

Fixpoint delete_rows {R} (ids : list Ref) (t : table R) : JR (table R) :=
  match ids with
  | [] => Ok t
  | id :: rest => t' ← storage (tx_delete t id); delete_rows rest t'
  end.

Definition conflict_with_history (record stored : ConflictRecord) : ConflictRecord := {|
  cr_owner_scope := cr_owner_scope record; cr_event_id := cr_event_id record;
  cr_app_id := cr_app_id record; cr_base_change_number := cr_base_change_number record;
  cr_remote_change_number := cr_remote_change_number record;
  cr_resolution := cr_resolution record; cr_machine_name := cr_machine_name record;
  cr_revision := u64_wrapping_add (cr_revision stored) 1;
  cr_attempts := cr_attempts record; cr_next_attempt_at := cr_next_attempt_at record;
  cr_created_at := cr_created_at stored |}.

Definition enqueue_conflict (resolution : ConflictResolutionEvent) (now : Z)
    : Database → JR unit * Database :=
  write (λ tx,
    let superseded := (filter (λ p, cr_event_id p.2 ≠ ce_event_id resolution)
      (fetch (conflict_for_app (ce_owner_scope resolution) (ce_app_id resolution))
         (db_conflict tx))).*1 in
    t ← delete_rows superseded (db_conflict tx);
    let record := ConflictRecord_new resolution now in
    match fetch_next (conflict_identified (ce_owner_scope resolution)
            (ce_event_id resolution)) t with
    | Some (id, stored) =>
        t' ← storage (tx_update t id (conflict_with_history record stored));
        Ok (tt, set_conflict tx t')
    | None =>
        '(_, t') ← storage (tx_insert t record);
        Ok (tt, set_conflict tx t')
    end).

Definition conflict_attributed (principal_scope : string) (r : ConflictRecord)
    : ConflictRecord := {|
  cr_owner_scope := principal_scope; cr_event_id := cr_event_id r;
  cr_app_id := cr_app_id r; cr_base_change_number := cr_base_change_number r;
  cr_remote_change_number := cr_remote_change_number r;
  cr_resolution := cr_resolution r; cr_machine_name := cr_machine_name r;
  cr_revision := u64_wrapping_add (cr_revision r) 1;
  cr_attempts := cr_attempts r; cr_next_attempt_at := cr_next_attempt_at r;
  cr_created_at := cr_created_at r |}.

Fixpoint attribute_conflict_rows (principal_scope : string)
    (staged : list (Ref * ConflictRecord)) (t : table ConflictRecord)
    : JR (table ConflictRecord) :=
  match staged with
  | [] => Ok t
  | (id, record) :: rest =>
      let superseded := (fetch (conflict_for_app principal_scope (cr_app_id record)) t).*1 in
      t' ← delete_rows superseded t;
      t'' ← storage (tx_update t' id (conflict_attributed principal_scope record));
      attribute_conflict_rows principal_scope rest t''
  end.

Definition attribute_pending_conflicts (credential_scope principal_scope : string)
    (j : Database) : JR unit * Database :=
  if bool_decide (credential_scope = "") || bool_decide (principal_scope = "")
     || bool_decide (credential_scope = principal_scope)
  then (Ok tt, j)
  else write (λ tx,
    let staged := fetch (conflict_scoped credential_scope) (db_conflict tx) in
    t ← attribute_conflict_rows principal_scope staged (db_conflict tx);
    Ok (tt, set_conflict tx t)) j.

Definition pending_cloud_conflicts (now : Z) (owner_scope : string) (j : Database)
    : list (Queued ConflictResolutionEvent) :=
  let pending :=
    (λ p, ((cr_created_at p.2, cr_event_id p.2),
           Queued_new p.1 (cr_revision p.2) (ConflictRecord_value p.2))) <$>
    filter (λ p, kept_cloud p.2)
      (fetch (λ r, conflict_scoped owner_scope r && conflict_ready now r) (db_conflict j)) in
  (take CONFLICT_BATCH_LIMIT (sort_by_key fst pending)).*2.

Definition pending_local_conflict (owner_scope : string) (app_id remote_change_number : Z)
    (j : Database) : option (Queued ConflictResolutionEvent) :=
  (λ p, Queued_new p.1 (cr_revision p.2) (ConflictRecord_value p.2)) <$>
  max_by_key (λ p, cr_created_at p.2)
    (filter (λ p, bool_decide (cr_remote_change_number p.2 = remote_change_number)
                  && negb (kept_cloud p.2))
       (fetch (conflict_for_app owner_scope app_id) (db_conflict j))).

Definition conflict_len (j : Database) : JR nat :=
  l ← storage (db_scan (db_conflict j)); Ok (length l).

(** *** Device identity and backend principal *)

Definition load_device_descriptor (j : Database) : JR (option DeviceDescriptor) :=
  l ← storage (db_scan (db_device j));
  Ok ((λ p, DeviceRecord_value p.2) <$> head l).

Definition store_device_descriptor (descriptor : DeviceDescriptor) (now : Z) (j : Database)
    : JR bool * Database :=
  match storage (db_scan (db_device j)) with
  | Err e => (Err e, j)
  | Ok rows =>
      let existing := head rows in
      if bool_decide (((λ p, DeviceRecord_value p.2) <$> existing) = Some descriptor)
      then (Ok false, j)
      else
        let record := {| dr_client_id := dd_client_id descriptor;
                         dr_machine_name := dd_machine_name descriptor;
                         dr_os_type := dd_os_type descriptor;
                         dr_device_type := dd_device_type descriptor;
                         dr_observed_at := now |} in
        write (λ tx,
          match existing with
          | Some (id, _) =>
              t ← storage (tx_update (db_device tx) id record); Ok (true, set_device tx t)
          | None =>
              '(_, t) ← storage (tx_insert (db_device tx) record); Ok (true, set_device tx t)
          end) j
  end.

Definition load_backend_principal_scope (credential_fingerprint : string) (j : Database)
    : option string :=
  if decide (credential_fingerprint = "") then None
  else (λ p, br_principal_scope p.2) <$>
       fetch_next (principal_identified credential_fingerprint) (db_principal j).

Definition store_backend_principal_scope (credential_fingerprint principal_scope : string)
    (now : Z) (j : Database) : JR unit * Database :=
  if bool_decide (credential_fingerprint = "") || bool_decide (principal_scope = "")
  then (Ok tt, j)
  else write (λ tx,
    let record := {| br_credential_fingerprint := credential_fingerprint;
                     br_principal_scope := principal_scope; br_observed_at := now |} in
    match fetch_next (principal_identified credential_fingerprint) (db_principal tx) with
    | Some (id, _) =>
        t ← storage (tx_update (db_principal tx) id record); Ok (tt, set_principal tx t)
    | None =>
        '(_, t) ← storage (tx_insert (db_principal tx) record); Ok (tt, set_principal tx t)
    end) j.
End journal.
