(* ===== verification/JournalProofs.v ===== *)
(** * JournalProofs: correctness of the sync journal

    Theorems about the records ([JournalRecord]) and the outbox ([SyncJournal]),
    proved against the [Structsy] interface and its laws. *)

From Stdlib Require Import ZArith Lia.
From S2P Require Import Prelude CloudCore Storage JournalRecord SyncJournal.

Local Open Scope Z_scope.

(** ** Records *)

Lemma retry_delay_pow attempts :
  retry_delay attempts = 2 ^ Z.max 0 (Z.min 8 attempts).
Proof. unfold retry_delay. rewrite Z.shiftl_mul_pow2; lia. Qed.

Lemma retry_delay_bounds attempts : 1 ≤ retry_delay attempts ≤ 256.
Proof.
  rewrite retry_delay_pow. split.
  - change 1 with (2 ^ 0). apply Z.pow_le_mono_r; lia.
  - change 256 with (2 ^ 8). apply Z.pow_le_mono_r; lia.
Qed.

(** [retry_delay_spec]: the back-off doubles with every attempt up to 256 seconds,
    and is defined (no shift overflow) for every stored attempt counter. *)
Theorem retry_delay_spec attempts :
  1 ≤ retry_delay attempts ≤ 256 ∧
  (0 ≤ attempts < 8 → retry_delay (attempts + 1) = 2 * retry_delay attempts) ∧
  (8 ≤ attempts → retry_delay attempts = 256) ∧
  (∀ more, attempts ≤ more → retry_delay attempts ≤ retry_delay more).
Proof.
  split; [apply retry_delay_bounds|]. rewrite !retry_delay_pow. split; [|split].
  - intros Ha. rewrite <-Z.pow_succ_r by lia. f_equal. lia.
  - intros Ha. by replace (Z.max 0 (Z.min 8 attempts)) with 8 by lia.
  - intros more Hm. rewrite retry_delay_pow. apply Z.pow_le_mono_r; lia.
Qed.

Lemma max_option_comm a b : max_option a b = max_option b a.
Proof. destruct a, b; simpl; f_equal; lia. Qed.
Lemma max_option_assoc a b c :
  max_option a (max_option b c) = max_option (max_option a b) c.
Proof. destruct a, b, c; simpl; f_equal; lia. Qed.

(** The fields of a record after [merge], whatever the outcome. *)
Lemma merge_fields r e :
  let r' := (PlaytimeRecord_merge r e).2 in
  pr_owner_scope r' = pr_owner_scope r ∧
  pr_owner_steam_id64 r' = pr_owner_steam_id64 r ∧
  pr_app_id r' = pr_app_id r ∧
  pr_created_at r' = pr_created_at r ∧
  pr_playtime_minutes r' = Z.max (pr_playtime_minutes r) (pe_playtime_minutes e) ∧
  pr_last_played_at r' = max_option (pr_last_played_at r) (pe_last_played_at e) ∧
  pr_observed_at r ≤ pr_observed_at r'.
Proof.
  unfold PlaytimeRecord_merge. simpl.
  destruct (_ && _ && _) eqn:E; simpl; [|repeat split; lia].
  rewrite !andb_true_iff, !bool_decide_eq_true in E. destruct E as [[E1 E2] E3].
  repeat split; [done|done|lia].
Qed.

Lemma merge_outcome r e moved r' :
  PlaytimeRecord_merge r e = (moved, r') →
  if moved
  then pr_revision r' = u64_wrapping_add (pr_revision r) 1 ∧
       pr_attempts r' = 0 ∧ pr_next_attempt_at r' = 0
  else r' = r.
Proof.
  unfold PlaytimeRecord_merge. destruct (_ && _ && _); intros [= <- <-]; done.
Qed.

(** [merge_all]: the fold [enqueue_playtime] performs on one record. *)
Definition merge_all (r : PlaytimeRecord) (es : list PlaytimeEntry) : PlaytimeRecord :=
  foldl (λ r e, (PlaytimeRecord_merge r e).2) r es.

Lemma merge_all_totals r es :
  pr_playtime_minutes (merge_all r es) =
    foldr Z.max (pr_playtime_minutes r) (pe_playtime_minutes <$> es) ∧
  pr_last_played_at (merge_all r es) =
    foldr max_option (pr_last_played_at r) (pe_last_played_at <$> es).
Proof.
  revert r; induction es as [|e es IH]; intros r; [done|].
  change (merge_all r (e :: es)) with (merge_all (PlaytimeRecord_merge r e).2 es).
  destruct (IH (PlaytimeRecord_merge r e).2) as [-> ->].
  destruct (merge_fields r e) as (_ & _ & _ & _ & -> & -> & _). csimpl.
  generalize (pr_playtime_minutes r) (pr_last_played_at r).
  clear. intros m p. split.
  - induction es as [|f es IH]; csimpl; [lia|]. rewrite IH. lia.
  - induction es as [|f es IH]; csimpl; [apply max_option_comm|].
    rewrite IH, !max_option_assoc. f_equal. apply max_option_comm.
Qed.

(** [playtime_merge_order_independent]: the cumulative counters of a record do not
    depend on the order in which observations reach it. *)
Theorem playtime_merge_order_independent r es fs (Hperm : es ≡ₚ fs) :
  pr_playtime_minutes (merge_all r es) = pr_playtime_minutes (merge_all r fs) ∧
  pr_last_played_at (merge_all r es) = pr_last_played_at (merge_all r fs).
Proof.
  destruct (merge_all_totals r es) as [-> ->], (merge_all_totals r fs) as [-> ->].
  split.
  - apply (foldr_permutation_proper _ Z.max); [solve_proper|lia|by rewrite Hperm].
  - apply (foldr_permutation_proper _ max_option); [solve_proper| |by rewrite Hperm].
    intros a b c. rewrite !max_option_assoc. f_equal. apply max_option_comm.
Qed.

(** *** Event identifiers *)

Definition is_ascii_hexdigit (c : Z) : bool :=
  ((48 <=? c) && (c <=? 57)) || ((97 <=? c) && (c <=? 102)) || ((65 <=? c) && (c <=? 70)).

(** The shape the unit test of [model.rs] checks. *)
Definition looks_like_uuid (value : list Z) : bool :=
  bool_decide (length value = 36%nat) &&
  forallb id (imap (λ i c,
    if bool_decide (i = 8 ∨ i = 13 ∨ i = 18 ∨ i = 23)%nat then c =? 45
    else is_ascii_hexdigit c) value).

Lemma hex_digit_is_hex n : 0 ≤ n < 16 → is_ascii_hexdigit (hex_digit n) = true.
Proof. unfold is_ascii_hexdigit, hex_digit. intros. case_goal; lia. Qed.

Lemma hex_nibbles b :
  in_u8 b → is_ascii_hexdigit (hex_digit (b / 16)) = true ∧
            is_ascii_hexdigit (hex_digit (b mod 16)) = true.
Proof.
  intros Hb. split; apply hex_digit_is_hex.
  - split; [apply Z.div_pos|apply Z.div_lt_upper_bound]; int_lia.
  - apply Z.mod_pos_bound. lia.
Qed.

Lemma uuid_text_shape l :
  length l = 16%nat → Forall in_u8 l → looks_like_uuid (uuid_text 0 l) = true.
Proof.
  intros Hl Hb.
  do 16 (destruct l as [|?b l]; [discriminate Hl|]).
  destruct l; [|discriminate Hl]. clear Hl.
  repeat match goal with H : Forall in_u8 (_ :: _) |- _ =>
    let Hx := fresh in let H' := fresh in
    apply Forall_cons in H as [Hx H']; apply hex_nibbles in Hx as [? ?] end.
  unfold looks_like_uuid. simpl. by repeat match goal with H : _ = true |- _ => rewrite H; clear H end.
Qed.

Lemma land_lor_u8 b m v :
  in_u8 b → 0 ≤ m ≤ 255 → 0 ≤ v ≤ 255 → in_u8 (Z.lor (Z.land b m) v).
Proof.
  intros Hb Hm Hv. unfold in_u8, u8_max in *. split.
  - apply Z.lor_nonneg. split; [apply Z.land_nonneg|]; lia.
  - enough (Z.lor (Z.land b m) v < 256) by lia.
    assert (Hz : ∀ z, 0 ≤ z → z < 256 ↔ Z.shiftr z 8 = 0).
    { intros z Hz. rewrite Z.shiftr_div_pow2 by lia. change (2 ^ 8) with 256.
      split; [intros; by apply Z.div_small|].
      intros H. destruct (Z.lt_ge_cases z 256); [done|].
      assert (1 ≤ z / 256) by (apply Z.div_le_lower_bound; lia). lia. }
    apply Hz; [apply Z.lor_nonneg; split; [apply Z.land_nonneg|]; lia|].
    rewrite Z.shiftr_lor, Z.shiftr_land.
    rewrite (proj1 (Hz b ltac:(lia))), (proj1 (Hz v ltac:(lia))) by lia.
    by rewrite Z.land_0_l.
Qed.

(** [uuid_from_digest_spec]: every generated event id is a well-formed UUID whose
    version nibble is the requested one and whose variant is RFC 4122's. *)
Theorem uuid_from_digest_spec digest version
    (Hlen : (16 ≤ length digest)%nat) (Hb : Forall in_u8 digest) (Hv : 0 ≤ version < 16) :
  looks_like_uuid (uuid_from_digest digest version) = true ∧
  uuid_from_digest digest version !! 14%nat = Some (hex_digit version) ∧
  ∃ variant, uuid_from_digest digest version !! 19%nat = Some (hex_digit variant) ∧
             8 ≤ variant ≤ 11.
Proof.
  assert (Hs : 0 ≤ Z.shiftl version 4 ≤ 255 ∧ Z.shiftl version 4 = version * 16)
    by (rewrite Z.shiftl_mul_pow2; lia).
  assert (Hu : Forall in_u8 (uuid_bytes digest version)).
  { unfold uuid_bytes. apply Forall_alter; [apply Forall_alter|].
    - by apply Forall_take.
    - intros b ? Hb'. apply land_lor_u8; [done|lia|lia].
    - intros b ? Hb'. apply land_lor_u8; [done|lia|lia]. }
  assert (Hl : length (uuid_bytes digest version) = 16%nat).
  { unfold uuid_bytes. rewrite !length_alter, length_take. lia. }
  split; [by apply uuid_text_shape|].
  unfold uuid_from_digest.
  do 16 (destruct digest as [|?b digest]; [simpl in Hlen; lia|]).
  repeat match goal with H : Forall in_u8 (_ :: _) |- _ =>
    apply Forall_cons in H as [? H] end.
  unfold uuid_bytes. simpl. split.
  - do 2 f_equal. rewrite <-Z.shiftr_div_pow2 with (n := 4) by lia.
    rewrite Z.shiftr_lor, Z.shiftr_land, Z.shiftr_shiftl_l by lia.
    change (Z.shiftr 15 4) with 0. rewrite Z.land_0_r. by rewrite Z.lor_0_l, Z.shiftl_0_r.
  - eexists. split; [reflexivity|].
    rewrite <-Z.shiftr_div_pow2 with (n := 4) by lia.
    rewrite Z.shiftr_lor, Z.shiftr_land. change (Z.shiftr 63 4) with (Z.ones 2).
    change (Z.shiftr 128 4) with 8. rewrite Z.land_ones by lia.
    match goal with |- _ ≤ Z.lor (?x mod _) _ ≤ _ =>
      pose proof (Z.mod_pos_bound x (2 ^ 2) ltac:(lia)) as Hm;
      generalize dependent (x mod 2 ^ 2) end.
    intros z Hz. change (2 ^ 2) with 4 in Hz.
    assert (z = 0 ∨ z = 1 ∨ z = 2 ∨ z = 3) as [->|[->|[->| ->]]] by lia; by vm_compute.
Qed.

(** *** Snapshots *)

Lemma snapshot_new c : StatsRecord_snapshot (StatsRecord_new c) = None.
Proof. done. Qed.

(** What a completed record hands to the backend: Steam's snapshot under the
    baseline and dirty set of the commit it completes. *)
Definition completed_snapshot (r : StatsRecord) (s : SteamAppSnapshot) : SteamAppSnapshot := {|
  ss_owner_scope := tr_owner_scope r; ss_owner_steam_id64 := tr_owner_steam_id64 r;
  ss_commit_id := tr_commit_id r; ss_app_id := tr_app_id r;
  ss_base_crc_stats := tr_base_crc_stats r; ss_dirty_stat_ids := tr_dirty_stat_ids r;
  ss_achievements := ss_achievements s; ss_stats := ss_stats s;
  ss_observed_at := ss_observed_at s |}.

Lemma snapshot_complete r s :
  StatsRecord_snapshot (StatsRecord_complete r s) = Some (completed_snapshot r s).
Proof.
  unfold StatsRecord_snapshot, completed_snapshot. simpl. do 2 f_equal.
  - rewrite <-list_fmap_compose. induction (ss_achievements s) as [|[] l IH]; [done|].
    csimpl. by rewrite IH.
  - rewrite <-list_fmap_compose. induction (ss_stats s) as [|[] l IH]; [done|].
    csimpl. by rewrite IH.
Qed.

Lemma snapshot_reopen r c now : StatsRecord_snapshot (StatsRecord_reopen r c now) = None.
Proof. done. Qed.

Lemma has_snapshot_spec r : has_snapshot r = bool_decide (is_Some (StatsRecord_snapshot r)).
Proof.
  unfold has_snapshot, StatsRecord_snapshot.
  destruct (tr_snapshot_observed_at r); [by rewrite bool_decide_eq_true_2 by eauto|].
  symmetry. apply bool_decide_eq_false_2. by intros [??].
Qed.

(** ** Transactions *)

Section transactions.
Context {St : Structsy} {L : StructsyLaws St}.
Implicit Types (j : @Database St).

Lemma storage_Ok {A} (r : result string A) a : storage r = Ok a → r = Ok a.
Proof. destruct r; simpl; naive_solver. Qed.

(** A committed write is its action, run on the current state. *)
Lemma write_Ok {T} (action : Database → JR (T * Database)) j out j' :
  write action j = (Ok out, j') → action j = Ok (out, j').
Proof.
  unfold write. destruct (storage (db_begin j)) as [tx|] eqn:Hb; [|done].
  apply storage_Ok, db_begin_Ok in Hb as ->.
  destruct (action j) as [[o tx']|]; [|done].
  destruct (storage (tx_commit tx')) as [j1|] eqn:Hc; [|done].
  apply storage_Ok, tx_commit_Ok in Hc as ->. by intros [= -> ->].
Qed.

Lemma write_Err {T} (action : Database → JR (T * Database)) j e j' :
  write action j = (Err e, j') → j' = j.
Proof.
  unfold write. destruct (storage (db_begin j)) as [tx|]; [|by intros [= _ ->]].
  destruct (action tx) as [[o tx']|]; [|by intros [= _ ->]].
  destruct (storage (tx_commit tx')); by intros [= _ ->].
Qed.

Lemma write_total `{!StructsyTotal St} {T} (action : Database → JR (T * Database)) j out j' :
  action j = Ok (out, j') → write action j = (Ok out, j').
Proof.
  intros Ha. unfold write.
  pose proof (db_begin_total _ j) as Hb. destruct (db_begin j) as [tx|] eqn:Eb; [|done].
  apply db_begin_Ok in Eb as ->. simpl. rewrite Ha.
  pose proof (tx_commit_total _ j') as Hc. destruct (tx_commit j') as [j1|] eqn:Ec; [|done].
  by apply tx_commit_Ok in Ec as ->.
Qed.

Lemma reference_new {V} id rev (v : V) : reference (Queued_new id rev v) = Ok id.
Proof. unfold reference, Queued_new. simpl. by rewrite parse_to_string. Qed.
End transactions.

(** Turn a successful step into the storage facts it stands for. *)
Ltac store_inv :=
  res_inv;
  repeat match goal with
  | H : storage _ = Ok _ |- _ => apply storage_Ok in H
  end.

(** ** Settling and postponing, for every record kind

    [JournaledLaws] is what the [journaled!] macro establishes for a record type:
    its table can be read back, rescheduling keeps the revision. *)

Class JournaledLaws `{St : Structsy} (V R : Type) `{J : !Journaled V R} : Prop := {
  jr_get_set : ∀ j t, jr_table (jr_set_table j t) = t;
  jr_set_get : ∀ j, jr_set_table j (jr_table j) = j;
  jr_schedule_revision : ∀ r n a, jr_revision (jr_schedule r n a) = jr_revision r;
  jr_schedule_next : ∀ r n a, jr_next_attempt_at (jr_schedule r n a) = n;
  jr_schedule_attempts : ∀ r n a, jr_attempts (jr_schedule r n a) = a;
}.

#[export] Instance journaled_playtime_laws `{Structsy} :
  JournaledLaws PlaytimeEntry PlaytimeRecord.
Proof. split; try done. by intros []. Qed.
#[export] Instance journaled_schema_laws `{Structsy} :
  JournaledLaws AchievementSchema SchemaRecord.
Proof. split; try done. by intros []. Qed.
#[export] Instance journaled_stats_laws `{Structsy} :
  JournaledLaws SteamAppSnapshot StatsRecord.
Proof. split; try done. by intros []. Qed.
#[export] Instance journaled_conflict_laws `{Structsy} :
  JournaledLaws ConflictResolutionEvent ConflictRecord.
Proof. split; try done. by intros []. Qed.

Section outbox.
Context {St : Structsy} {L : StructsyLaws St} {V R : Type} {J : Journaled V R}
  {JL : JournaledLaws V R}.
Implicit Types (j : @Database St) (item : Queued V).

(** The row an item names, if it still holds what was handed out. *)
Definition settles (m : gmap Ref R) item (id : Ref) : bool :=
  match m !! id with
  | Some stored => bool_decide (jr_revision stored = q_revision item)
  | None => false
  end.

(** [settle] on the abstract table: drop every row still at its item's revision. *)
Definition settle_spec (m : gmap Ref R) (items : list (Ref * Queued V)) : gmap Ref R :=
  foldl (λ m p, if settles m p.2 p.1 then delete p.1 m else m) m items.

Lemma settle_items_Ok (items : list (Queued V)) (t t' : table R) :
  settle_items items jr_revision t = Ok t' →
  ∃ ids, Forall2 (λ item id, reference item = Ok id) items ids ∧
         contents t' = settle_spec (contents t) (zip ids items).
Proof.
  revert t; induction items as [|item items IH]; intros t H; simpl in H.
  { simplify_eq. exists []. split; [constructor|done]. }
  store_inv. rename x into id, x0 into o.
  apply tx_read_Ok in Hx0. unfold settle_spec, settles.
  destruct o as [stored|]; [case_decide as Hrev|]; store_inv.
  - apply IH in H as (ids & Hids & ->). apply tx_delete_Ok in Hx1; [|by eauto].
    exists (id :: ids). split; [by constructor|]. simpl.
    rewrite <-Hx0, bool_decide_eq_true_2 by done. by rewrite Hx1.
  - apply IH in H as (ids & Hids & ->). exists (id :: ids).
    split; [by constructor|]. simpl. by rewrite <-Hx0, bool_decide_eq_false_2.
  - apply IH in H as (ids & Hids & ->). exists (id :: ids).
    split; [by constructor|]. simpl. by rewrite <-Hx0.
Qed.

Lemma settle_Ok items j j' :
  settle items j = (Ok tt, j') →
  ∃ ids t', Forall2 (λ item id, reference item = Ok id) items ids ∧
    j' = jr_set_table j t' ∧
    contents t' = settle_spec (contents (jr_table j)) (zip ids items).
Proof.
  intros H%write_Ok. store_inv. apply settle_items_Ok in Hx as (ids & ? & ?). eauto 10.
Qed.

(** The schedule [postpone] writes into a row. *)
Definition postponed (now : Z) (r : R) : R :=
  jr_schedule r (i64_saturating_add now (retry_delay (jr_attempts r)))
    (i64_saturating_add (jr_attempts r) 1).

Definition postpone_spec (now : Z) (m : gmap Ref R) (items : list (Ref * Queued V))
    : gmap Ref R :=
  foldl (λ m p, if settles m p.2 p.1 then alter (postponed now) p.1 m else m) m items.

Lemma postpone_items_Ok now (items : list (Queued V)) (t t' : table R) :
  postpone_items items now t = Ok t' →
  ∃ ids, Forall2 (λ item id, reference item = Ok id) items ids ∧
         contents t' = postpone_spec now (contents t) (zip ids items).
Proof.
  revert t; induction items as [|item items IH]; intros t H; simpl in H.
  { simplify_eq. exists []. split; [constructor|done]. }
  store_inv. rename x into id, x0 into o.
  apply tx_read_Ok in Hx0. unfold postpone_spec, settles.
  destruct o as [stored|]; [case_decide as Hrev|]; store_inv.
  - apply IH in H as (ids & Hids & ->). apply tx_update_Ok in Hx1; [|by eauto].
    exists (id :: ids). split; [by constructor|]. simpl.
    rewrite <-Hx0, bool_decide_eq_true_2 by done. rewrite Hx1.
    unfold postpone_spec, settles. f_equal. apply map_eq. intros k.
    rewrite lookup_insert, lookup_alter. case_decide; subst; [by rewrite <-Hx0|done].
  - apply IH in H as (ids & Hids & ->). exists (id :: ids).
    split; [by constructor|]. simpl. by rewrite <-Hx0, bool_decide_eq_false_2.
  - apply IH in H as (ids & Hids & ->). exists (id :: ids).
    split; [by constructor|]. simpl. by rewrite <-Hx0.
Qed.

Lemma postpone_Ok items now j j' :
  postpone items now j = (Ok tt, j') →
  ∃ ids t', Forall2 (λ item id, reference item = Ok id) items ids ∧
    j' = jr_set_table j t' ∧
    contents t' = postpone_spec now (contents (jr_table j)) (zip ids items).
Proof.
  intros H%write_Ok. store_inv. apply postpone_items_Ok in Hx as (ids & ? & ?). eauto 10.
Qed.

Lemma settle_spec_subseteq m items : settle_spec m items ⊆ m.
Proof.
  revert m; induction items as [|[id item] items IH]; intros m; simpl; [done|].
  unfold settle_spec in *. simpl. etrans; [apply IH|].
  case_match; [apply delete_subseteq|done].
Qed.

Lemma unique_by_settle {K} (key : R → K) m items :
  unique_by key m → unique_by key (settle_spec m items).
Proof. apply unique_by_subseteq, settle_spec_subseteq. Qed.

Lemma unique_by_postpone {K} (key : R → K) now m items :
  (∀ r n a, key (jr_schedule r n a) = key r) →
  unique_by key m → unique_by key (postpone_spec now m items).
Proof.
  intros Hk. revert m; induction items as [|[id item] items IH]; intros m Hm; [done|].
  unfold postpone_spec in *. simpl. apply IH.
  case_match; [|done]. apply unique_by_alter; [|done]. intros r. apply Hk.
Qed.
End outbox.

(** [acknowledge_exact]: acknowledging an item removes its row when the row still
    has the revision that was handed out, and otherwise changes nothing; no other
    table is touched. *)
Theorem acknowledge_exact {St : Structsy} {L : StructsyLaws St} {V R : Type}
    {J : Journaled V R} {JL : JournaledLaws V R} (item : Queued V) j j'
    (H : acknowledge item j = (Ok tt, j')) :
  ∃ id t', reference item = Ok id ∧ j' = jr_set_table j t' ∧
    contents t' =
      if settles (contents (jr_table j)) item id
      then delete id (contents (jr_table j)) else contents (jr_table j).
Proof.
  apply settle_Ok in H as (ids & t' & Hids & -> & Ht').
  inversion Hids as [|? id ? ids' Hid Hrest]; subst. inversion Hrest; subst.
  exists id, t'. auto.
Qed.

(** [defer_schedules]: deferring an unchanged item moves its next attempt one
    back-off delay into the future and counts the attempt; a row updated in the
    meantime keeps its schedule, and no row is lost. *)
Theorem defer_schedules {St : Structsy} {L : StructsyLaws St} {V R : Type}
    {J : Journaled V R} {JL : JournaledLaws V R} (item : Queued V) now j j'
    (Hnow : i64_min ≤ now ≤ i64_max - 256)
    (H : defer item now j = (Ok tt, j')) :
  ∃ id t', reference item = Ok id ∧ j' = jr_set_table j t' ∧
    dom (contents t') = dom (contents (jr_table j)) ∧
    (∀ k, k ≠ id → contents t' !! k = contents (jr_table j) !! k) ∧
    match contents (jr_table j) !! id with
    | Some r =>
        if decide (jr_revision r = q_revision item)
        then ∃ r', contents t' !! id = Some r' ∧
               jr_next_attempt_at r' = now + retry_delay (jr_attempts r) ∧
               now < jr_next_attempt_at r' ≤ now + 256 ∧
               jr_attempts r' = Z.min i64_max (jr_attempts r + 1) `max` i64_min ∧
               jr_revision r' = jr_revision r
        else contents t' !! id = Some r
    | None => contents t' !! id = None
    end.
Proof.
  apply postpone_Ok in H as (ids & t' & Hids & -> & Ht').
  inversion Hids as [|? id ? ids' Hid Hrest]; subst. inversion Hrest; subst.
  exists id, t'. split; [done|]. split; [done|].
  unfold postpone_spec, settles in Ht'. simpl in Ht'.
  destruct (contents (jr_table j) !! id) as [r|] eqn:Hr.
  2: { rewrite Ht'. auto. }
  destruct (decide (jr_revision r = q_revision item)) as [Hrev|Hrev].
  - rewrite bool_decide_eq_true_2 in Ht' by done. rewrite Ht'.
    split; [apply dom_alter_L|]. split; [intros k Hk; by rewrite lookup_alter_ne|].
    rewrite lookup_alter_eq, Hr. eexists. split; [reflexivity|].
    unfold postponed. rewrite jr_schedule_next, jr_schedule_attempts, jr_schedule_revision.
    pose proof (retry_delay_bounds (jr_attempts r)) as Hd.
    unfold i64_saturating_add in *. int_lia.
  - rewrite bool_decide_eq_false_2 in Ht' by done. rewrite Ht'. auto.
Qed.

(** ** Playtime *)

Definition playtime_key (r : PlaytimeRecord) : string * string * Z :=
  (pr_owner_scope r, pr_owner_steam_id64 r, pr_app_id r).
Definition entry_key (e : PlaytimeEntry) : string * string * Z :=
  (pe_owner_scope e, pe_owner_steam_id64 e, pe_app_id e).

Lemma merge_key r e : playtime_key (PlaytimeRecord_merge r e).2 = playtime_key r.
Proof.
  unfold playtime_key. by destruct (merge_fields r e) as (-> & -> & -> & _).
Qed.

Lemma merge_all_key r es : playtime_key (merge_all r es) = playtime_key r.
Proof.
  revert r; induction es as [|e es IH]; intros r; [done|].
  change (merge_all r (e :: es)) with (merge_all (PlaytimeRecord_merge r e).2 es).
  by rewrite IH, merge_key.
Qed.

Lemma merge_all_revision r es :
  in_u64 (pr_revision r) →
  ∃ k, (k ≤ length es)%nat ∧ in_u64 (pr_revision (merge_all r es)) ∧
    pr_revision (merge_all r es) = (pr_revision r + Z.of_nat k) mod 2 ^ 64 ∧
    (k = 0%nat → merge_all r es = r).
Proof.
  revert r; induction es as [|e es IH]; intros r Hr.
  { exists 0%nat. rewrite Z.add_0_r, Z.mod_small by int_lia. auto. }
  change (merge_all r (e :: es)) with (merge_all (PlaytimeRecord_merge r e).2 es).
  destruct (PlaytimeRecord_merge r e) as [moved r'] eqn:E. simpl.
  apply merge_outcome in E. destruct moved; [|subst].
  - destruct E as [E _].
    destruct (IH r') as (k & Hk & Hin & Hrev & H0); [rewrite E; auto with vapor|].
    exists (S k). split; [simpl; lia|]. split; [done|]. split; [|done].
    rewrite Hrev, E. unfold u64_wrapping_add. rewrite Zplus_mod_idemp_l. f_equal. lia.
  - destruct (IH r Hr) as (k & Hk & ?). exists k. split; [simpl; lia|done].
Qed.

(** Fewer than 2^64 observations either leave a record alone or change its
    revision. *)
Lemma merge_all_detectable r es :
  in_u64 (pr_revision r) → Z.of_nat (length es) < 2 ^ 64 →
  merge_all r es = r ∨ pr_revision (merge_all r es) ≠ pr_revision r.
Proof.
  intros Hr Hl. destruct (merge_all_revision r es Hr) as (k & Hk & _ & Hrev & H0).
  destruct (decide (k = 0%nat)) as [->|Hne]; [left; auto|right].
  rewrite Hrev. intros Heq.
  destruct (decide (pr_revision r + Z.of_nat k < 2 ^ 64)).
  - rewrite Z.mod_small in Heq by int_lia. lia.
  - replace (pr_revision r + Z.of_nat k)
      with (pr_revision r + Z.of_nat k - 2 ^ 64 + 1 * 2 ^ 64) in Heq by lia.
    rewrite Z_mod_plus_full, Z.mod_small in Heq by int_lia. lia.
Qed.

Section playtime.
Context {St : Structsy} {L : StructsyLaws St}.
Implicit Types (j : @Database St) (m : gmap Ref PlaytimeRecord).

Definition playtime_rows j : gmap Ref PlaytimeRecord := contents (db_playtime j).

(** One observation against the table. *)
Inductive enqueue_one (e : PlaytimeEntry) m : gmap Ref PlaytimeRecord → Prop :=
| enqueue_merge id r :
    m !! id = Some r → playtime_key r = entry_key e →
    enqueue_one e m (<[id := (PlaytimeRecord_merge r e).2]> m)
| enqueue_insert id :
    (∀ k r, m !! k = Some r → playtime_key r ≠ entry_key e) → m !! id = None →
    enqueue_one e m (<[id := PlaytimeRecord_new e]> m).

Inductive enqueue_run : list PlaytimeEntry → gmap Ref PlaytimeRecord →
    gmap Ref PlaytimeRecord → Prop :=
| enqueue_run_nil m : enqueue_run [] m m
| enqueue_run_cons e es m m1 m2 :
    enqueue_one e m m1 → enqueue_run es m1 m2 → enqueue_run (e :: es) m m2.

Lemma enqueue_query e r :
  playtime_owned_by (pe_owner_scope e) (pe_owner_steam_id64 e) r
  && playtime_for_app (pe_app_id e) r = bool_decide (playtime_key r = entry_key e).
Proof.
  unfold playtime_owned_by, playtime_for_app, playtime_key, entry_key.
  apply eq_true_iff_eq. rewrite !andb_true_iff, !bool_decide_eq_true.
  split; [by intros [[-> ->] ->]|by intros [= -> -> ->]].
Qed.

Lemma enqueue_entries_Ok es (t t' : table PlaytimeRecord) :
  enqueue_playtime_entries es t = Ok t' → enqueue_run es (contents t) (contents t').
Proof.
  revert t; induction es as [|e es IH]; intros t H; simpl in H.
  { simplify_eq. constructor. }
  destruct (fetch_next _ t) as [[id r]|] eqn:Hf.
  - apply fetch_next_Some in Hf as [Hr Hk].
    rewrite enqueue_query, bool_decide_eq_true in Hk.
    destruct (PlaytimeRecord_merge r e) as [moved r'] eqn:Hm.
    assert (Hr' : r' = (PlaytimeRecord_merge r e).2) by by rewrite Hm.
    apply merge_outcome in Hm. destruct moved; store_inv.
    + apply tx_update_Ok in Hx; [|by eauto]. apply IH in H. rewrite Hx in H.
      econstructor; [by eapply enqueue_merge|]. by rewrite <-Hr'.
    + apply IH in H. econstructor; [by eapply enqueue_merge|].
      rewrite <-Hr', insert_id; [done|]. congruence.
  - store_inv. destruct x as [id t1]. apply tx_insert_Ok in Hx as [Hid Ht1].
    apply IH in H. rewrite Ht1 in H. econstructor; [|done].
    apply enqueue_insert; [|done]. intros k r Hr Hkey.
    pose proof (fetch_next_None _ _ _ _ Hf Hr) as Hq. simpl in Hq.
    rewrite enqueue_query in Hq. by apply bool_decide_eq_false_1 in Hq.
Qed.

Lemma enqueue_playtime_Ok es j n j' :
  enqueue_playtime es j = (Ok n, j') →
  n = length es ∧ (∃ t, j' = set_playtime j t) ∧
  enqueue_run es (playtime_rows j) (playtime_rows j').
Proof.
  intros H%write_Ok. store_inv. split; [done|]. split; [by eexists|].
  by apply enqueue_entries_Ok in Hx.
Qed.

Lemma enqueue_one_unique e m m' :
  enqueue_one e m m' → unique_by playtime_key m → unique_by playtime_key m'.
Proof.
  intros [id r Hr Hk|id Hf Hid] Hu.
  - eapply unique_by_update; [done|apply merge_key|done].
  - apply unique_by_insert; [|done]. intros k s Hs _.
    by apply (Hf k s Hs).
Qed.

Lemma enqueue_run_unique es m m' :
  enqueue_run es m m' → unique_by playtime_key m → unique_by playtime_key m'.
Proof. induction 1; eauto using enqueue_one_unique. Qed.

(** A stored row absorbs exactly the observations of its key. *)
Lemma enqueue_run_row es m m' id r :
  enqueue_run es m m' → unique_by playtime_key m → m !! id = Some r →
  m' !! id = Some (merge_all r (filter (λ e, entry_key e = playtime_key r) es)).
Proof.
  intros Hrun. revert id r. induction Hrun as [|e es m m1 m2 Hone _ IH]; intros id r Hu Hr; [done|].
  pose proof (enqueue_one_unique _ _ _ Hone Hu) as Hu1.
  rewrite filter_cons. inversion Hone as [id0 r0 Hr0 Hk0|id0 Hf Hid0]; subst.
  - destruct (decide (id0 = id)) as [->|Hne].
    + simplify_eq. rewrite decide_True by done.
      rewrite (IH id (PlaytimeRecord_merge r e).2 Hu1) by by rewrite lookup_insert_eq.
      by rewrite merge_key.
    + rewrite decide_False; [|intros Hk; apply Hne; eapply Hu; eauto; congruence].
      apply IH; [done|]. by rewrite lookup_insert_ne.
  - rewrite decide_False by (intros Hk; by eapply Hf).
    apply IH; [done|]. rewrite lookup_insert_ne by congruence. done.
Qed.

Lemma enqueue_run_new es m m' id r' :
  enqueue_run es m m' → m' !! id = Some r' →
  (∃ r, m !! id = Some r) ∨ ∃ e, e ∈ es ∧ playtime_key r' = entry_key e.
Proof.
  intros Hrun Hr'.
  enough ((∃ r, m !! id = Some r ∧ playtime_key r' = playtime_key r) ∨
          ∃ e, e ∈ es ∧ playtime_key r' = entry_key e) as [(r & ? & _)|?] by eauto.
  induction Hrun as [|e es m m1 m2 Hone _ IH]; [by eauto|].
  destruct (IH Hr') as [(r1 & Hr1 & Hk1)|(f & Hf & Hk)]; [|right; set_solver].
  inversion Hone as [id0 r0 Hr0 Hk0|id0 Hf Hid0]; subst;
    rewrite lookup_insert in Hr1; case_decide; subst; eauto; injection Hr1 as <-.
  - left. exists r0. by rewrite Hk1, merge_key.
  - right. exists e. split; [left|done].
Qed.

(** Every observation has a row of its key that covers it. *)
Lemma enqueue_run_covers es m m' e :
  enqueue_run es m m' → unique_by playtime_key m → e ∈ es →
  ∃ id r, m' !! id = Some r ∧ playtime_key r = entry_key e ∧
    pe_playtime_minutes e ≤ pr_playtime_minutes r ∧
    max_option (pe_last_played_at e) (pr_last_played_at r) = pr_last_played_at r.
Proof.
  induction 1 as [|f es m m1 m2 Hone Hrun IH]; intros Hu; [set_solver|].
  pose proof (enqueue_one_unique _ _ _ Hone Hu) as Hu1.
  intros [->|He]%elem_of_cons; [clear IH|by eauto].
  assert (∃ id r, m1 !! id = Some r ∧ playtime_key r = entry_key f ∧
    pe_playtime_minutes f ≤ pr_playtime_minutes r ∧
    max_option (pe_last_played_at f) (pr_last_played_at r) = pr_last_played_at r)
    as (id & r & Hr & Hk & Hmin & Hlast).
  { inversion Hone as [id0 r0 Hr0 Hk0|id0 Hf Hid0]; subst.
    - exists id0, (PlaytimeRecord_merge r0 f).2.
      rewrite lookup_insert_eq, merge_key.
      destruct (merge_fields r0 f) as (_ & _ & _ & _ & -> & -> & _).
      repeat split; [done|lia|].
      destruct (pe_last_played_at f), (pr_last_played_at r0); simpl; f_equal; lia.
    - exists id0, (PlaytimeRecord_new f). rewrite lookup_insert_eq. simpl.
      repeat split; [lia|]. destruct (pe_last_played_at f); simpl; f_equal; lia. }
  eexists id, _. split; [by eapply enqueue_run_row|].
  rewrite merge_all_key. split; [done|].
  destruct (merge_all_totals r (filter (λ e, entry_key e = playtime_key r) es)) as [-> ->].
  generalize (filter (λ e, entry_key e = playtime_key r) es). intros fs.
  induction fs as [|g fs [IHm IHl]]; csimpl; [done|]. split; [lia|].
  rewrite max_option_assoc, (max_option_comm (pe_last_played_at f)),
    <-max_option_assoc, IHl. done.
Qed.
End playtime.

(** [enqueue_playtime_spec]: a committed batch keeps one row per owner and app;
    each stored row is folded with exactly the observations of its identity, in
    order; no observation is lost (its row covers its minutes and last-played
    time) and no other row appears. *)
Theorem enqueue_playtime_spec {St : Structsy} {L : StructsyLaws St} es j n j'
    (Hu : unique_by playtime_key (playtime_rows j))
    (H : enqueue_playtime es j = (Ok n, j')) :
  n = length es ∧ unique_by playtime_key (playtime_rows j') ∧
  (∀ id r, playtime_rows j !! id = Some r →
     playtime_rows j' !! id =
       Some (merge_all r (filter (λ e, entry_key e = playtime_key r) es))) ∧
  (∀ e, e ∈ es → ∃ id r, playtime_rows j' !! id = Some r ∧
     playtime_key r = entry_key e ∧
     pe_playtime_minutes e ≤ pr_playtime_minutes r ∧
     max_option (pe_last_played_at e) (pr_last_played_at r) = pr_last_played_at r) ∧
  (∀ id r', playtime_rows j' !! id = Some r' → playtime_rows j !! id = None →
     ∃ e, e ∈ es ∧ playtime_key r' = entry_key e).
Proof.
  apply enqueue_playtime_Ok in H as (-> & _ & Hrun).
  repeat split.
  - by eapply enqueue_run_unique.
  - intros id r Hr. by eapply enqueue_run_row.
  - intros e He. by eapply enqueue_run_covers.
  - intros id r' Hr' Hn.
    destruct (enqueue_run_new _ _ _ _ _ Hrun Hr') as [[r Hr]|?]; [congruence|done].
Qed.

(** *** Batches *)

Section batch.
Context {K V : Type} {O : KeyOrd K}.
Implicit Types (pending : list (K * V)).

Lemma batch_lengths limit pending :
  length (take limit (sort_by_key fst pending)) = Nat.min limit (length pending).
Proof. by rewrite length_take, length_sort_by_key. Qed.

Lemma batch_subset limit pending p :
  p ∈ take limit (sort_by_key fst pending) → p ∈ pending.
Proof.
  intros Hp. rewrite <-(elem_of_sort_by_key fst), <-(take_drop limit (sort_by_key fst pending)).
  apply elem_of_app. by left.
Qed.

(** What does not make it into a batch waits behind a full batch of smaller or
    equal keys. *)
Lemma batch_complete limit pending p :
  p ∈ pending →
  p ∈ take limit (sort_by_key fst pending) ∨
  (length (take limit (sort_by_key fst pending)) = limit ∧
   ∀ q, q ∈ take limit (sort_by_key fst pending) → kle q.1 p.1).
Proof.
  intros Hp. rewrite <-(elem_of_sort_by_key fst) in Hp.
  pose proof (sort_by_key_sorted fst pending) as Hs.
  rewrite <-(take_drop limit (sort_by_key fst pending)) in Hp, Hs.
  apply elem_of_app in Hp as [Hp|Hp]; [by left|right]. split.
  - rewrite length_take. apply Nat.min_l.
    destruct (decide (limit ≤ length (sort_by_key fst pending))%nat); [done|].
    rewrite drop_ge in Hp by lia. set_solver.
  - intros q Hq. by eapply (StronglySorted_app_1_elem_of _ _ _ q p) in Hs.
Qed.

Lemma batch_sorted limit pending :
  StronglySorted (key_le fst) (take limit (sort_by_key fst pending)).
Proof.
  pose proof (sort_by_key_sorted fst pending) as Hs.
  rewrite <-(take_drop limit (sort_by_key fst pending)) in Hs.
  by eapply StronglySorted_app_1_l.
Qed.
End batch.

Lemma elem_of_take_fst {A B} n (l : list (A * B)) b :
  b ∈ (take n l).*2 ↔ ∃ a, (a, b) ∈ take n l.
Proof.
  rewrite list_elem_of_fmap. split.
  - intros ([a b'] & -> & ?). by exists a.
  - intros [a ?]. by exists (a, b).
Qed.

Section pending_playtime.
Context {St : Structsy} {L : StructsyLaws St}.
Implicit Types (j : @Database St).

Definition queue_row (id : Ref) (r : PlaytimeRecord) : Queued PlaytimeEntry :=
  Queued_new id (pr_revision r) (PlaytimeRecord_value r).

Definition due (owner_scope owner_steam_id64 : string) (now : Z) (r : PlaytimeRecord) : Prop :=
  pr_owner_scope r = owner_scope ∧ pr_owner_steam_id64 r = owner_steam_id64 ∧
  pr_next_attempt_at r ≤ now.

Lemma due_query scope sid now r :
  playtime_owned_by scope sid r && playtime_ready now r = true ↔ due scope sid now r.
Proof.
  unfold playtime_owned_by, playtime_ready, due.
  rewrite !andb_true_iff, !bool_decide_eq_true, Z.leb_le. naive_solver.
Qed.

Lemma elem_of_pending_rows scope sid now j p :
  p ∈ ((λ p, (pr_app_id p.2, queue_row p.1 p.2)) <$>
       fetch (λ r, playtime_owned_by scope sid r && playtime_ready now r) (db_playtime j)) ↔
  ∃ id r, p = (pr_app_id r, queue_row id r) ∧
          playtime_rows j !! id = Some r ∧ due scope sid now r.
Proof.
  rewrite list_elem_of_fmap. split.
  - intros ([id r] & -> & Hin). apply elem_of_fetch in Hin as [Hr Hq].
    exists id, r. by rewrite <-due_query.
  - intros (id & r & -> & Hr & Hd). exists (id, r). split; [done|].
    apply elem_of_fetch. by rewrite due_query.
Qed.

Lemma elem_of_pending_playtime scope sid now j item :
  item ∈ pending_playtime scope sid now j →
  ∃ id r, item = queue_row id r ∧ playtime_rows j !! id = Some r ∧ due scope sid now r.
Proof.
  intros [a Ha]%elem_of_take_fst. apply batch_subset in Ha.
  apply elem_of_pending_rows in Ha as (id & r & [= -> ->] & ? & ?). by exists id, r.
Qed.
End pending_playtime.

(** [pending_playtime_spec]: a batch holds only rows of the asked owner that are due,
    each with the identity and revision that settle it; it is ordered by app, has
    at most 500 items, and a due row is left out only when the batch is full of
    rows of smaller or equal app id. *)
Theorem pending_playtime_spec {St : Structsy} {L : StructsyLaws St} scope sid now j :
  let batch := pending_playtime scope sid now j in
  (length batch ≤ 500)%nat ∧
  StronglySorted (λ a b, pe_app_id (q_value a) ≤ pe_app_id (q_value b)) batch ∧
  (∀ item, item ∈ batch → ∃ id r, item = queue_row id r ∧ reference item = Ok id ∧
     playtime_rows j !! id = Some r ∧ due scope sid now r) ∧
  (∀ id r, playtime_rows j !! id = Some r → due scope sid now r →
     queue_row id r ∈ batch ∨
     (length batch = 500%nat ∧
      ∀ item, item ∈ batch → pe_app_id (q_value item) ≤ pr_app_id r)).
Proof.
  intros batch. subst batch. unfold pending_playtime.
  set (rows := (λ p, _) <$> fetch _ _).
  change PLAYTIME_BATCH_LIMIT with 500%nat.
  set (taken := take 500 (sort_by_key fst rows)).
  assert (Htaken : ∀ a q, (a, q) ∈ taken → ∃ id r, a = pr_app_id r ∧ q = queue_row id r ∧
    playtime_rows j !! id = Some r ∧ due scope sid now r).
  { intros a q Hin. apply batch_subset in Hin.
    apply elem_of_pending_rows in Hin as (id & r & [= -> ->] & ? & ?). by exists id, r. }
  rewrite length_fmap. split; [unfold taken; rewrite batch_lengths; lia|].
  split; [|split].
  - assert (Hs : StronglySorted (key_le fst) taken) by apply batch_sorted.
    assert (Hall : Forall (λ p, p.1 = pe_app_id (q_value p.2)) taken).
    { apply Forall_forall. intros [a q] Hin. by destruct (Htaken a q Hin) as (? & ? & -> & -> & _). }
    clear - Hs Hall. induction Hs as [|p l Hs IH Hp]; [constructor|].
    apply Forall_cons in Hall as [Ha Hall]. csimpl. constructor; [by apply IH|].
    apply Forall_fmap. apply Forall_forall. intros q Hq. simpl.
    rewrite Forall_forall in Hp, Hall. rewrite <-Ha, <-(Hall q Hq). apply (Hp q Hq).
  - intros item [a Ha]%elem_of_take_fst.
    destruct (Htaken a item Ha) as (id & r & -> & -> & ? & ?).
    exists id, r. split; [done|]. split; [apply reference_new|done].
  - intros id r Hr Hd.
    destruct (batch_complete 500 rows (pr_app_id r, queue_row id r)) as [Hin|[Hlen Hle]].
    { apply elem_of_pending_rows. by exists id, r. }
    + left. apply elem_of_take_fst. by eexists.
    + right. split; [done|]. intros item [a Ha]%elem_of_take_fst.
      pose proof (Hle _ Ha) as Hk. destruct (Htaken a item Ha) as (id' & r' & -> & -> & _ & _).
      apply Hk.
Qed.

(** [inflight_update_survives]: an item is handed out, new observations are
    committed while its upload is in flight, and the item is then acknowledged. If
    the observations moved the row, the row survives with all of them; if they did
    not, the row is removed. *)
Theorem inflight_update_survives {St : Structsy} {L : StructsyLaws St}
    scope sid now es n item j j1 j2
    (Hu : unique_by playtime_key (playtime_rows j))
    (Hrev : ∀ id r, playtime_rows j !! id = Some r → in_u64 (pr_revision r))
    (Hlen : Z.of_nat (length es) < 2 ^ 64)
    (Hitem : item ∈ pending_playtime scope sid now j)
    (Henq : enqueue_playtime es j = (Ok n, j1))
    (Hack : acknowledge item j1 = (Ok tt, j2)) :
  ∃ id r r1, reference item = Ok id ∧ q_value item = PlaytimeRecord_value r ∧
    playtime_rows j !! id = Some r ∧ playtime_rows j1 !! id = Some r1 ∧
    r1 = merge_all r (filter (λ e, entry_key e = playtime_key r) es) ∧
    (r1 = r → playtime_rows j2 = delete id (playtime_rows j1)) ∧
    (r1 ≠ r → playtime_rows j2 = playtime_rows j1).
Proof.
  apply elem_of_pending_playtime in Hitem as (id & r & -> & Hr & _).
  apply enqueue_playtime_Ok in Henq as (_ & _ & Hrun).
  pose proof (enqueue_run_row _ _ _ _ _ Hrun Hu Hr) as Hr1.
  apply settle_Ok in Hack as (ids & t' & Hids & -> & Ht').
  inversion Hids as [|? id' ? ids' Hid Hrest]; subst. inversion Hrest; subst.
  unfold queue_row in Hid. rewrite reference_new in Hid. injection Hid as <-.
  exists id, r, (merge_all r (filter (λ e, entry_key e = playtime_key r) es)).
  split; [apply reference_new|]. split; [done|]. split; [done|]. split; [done|]. split; [done|].
  unfold settle_spec, settles in Ht'. simpl in Ht'.
  change (contents (db_playtime j1)) with (playtime_rows j1) in Ht'. rewrite Hr1 in Ht'.
  split; intros Hcase; change (playtime_rows (set_playtime j1 t')) with (contents t').
  - rewrite Hcase, bool_decide_eq_true_2 in Ht' by done. done.
  - rewrite bool_decide_eq_false_2 in Ht'; [done|].
    edestruct (merge_all_detectable r) as [Heq|Hne]; [by eapply Hrev| |by destruct Hcase; apply Heq|exact Hne].
    eapply Z.le_lt_trans; [|exact Hlen]. apply Nat2Z.inj_le, length_filter.
Qed.
