(* ===== verification/JournalStats.v ===== *)
(** * JournalStats: the stats commit protocol of the journal

    A stats commit is announced ([enqueue_stats_commit]), completed by the snapshot
    Steam produces for it ([complete_stats_snapshot]), uploaded, and then either
    acknowledged, retried or reopened against a newer baseline
    ([reopen_stats_commit]). [StatsPhase] is the protocol state of one owner and
    app, [stats_spec] the abstract protocol; the refinement theorem shows that every
    committed operation of the journal is one of its transitions. *)

From Stdlib Require Import ZArith Lia.
From S2P Require Import Prelude CloudCore Storage JournalRecord SyncJournal JournalProofs.

Local Open Scope Z_scope.

Abbreviation StatsKey := (string * string * Z)%type.

Definition stats_key (r : StatsRecord) : StatsKey :=
  (tr_owner_scope r, tr_owner_steam_id64 r, tr_app_id r).
Definition commit_key (c : StatsCommit) : StatsKey :=
  (sc_owner_scope c, sc_owner_steam_id64 c, sc_app_id c).
Definition snap_key (s : SteamAppSnapshot) : StatsKey :=
  (ss_owner_scope s, ss_owner_steam_id64 s, ss_app_id s).

(** ** The abstract protocol *)

Inductive StatsPhase :=
| Awaiting (c : StatsCommit)
| Completed (s : SteamAppSnapshot).

(** Steam's snapshot under the baseline and dirty set of the commit. *)
Definition complete_with (c : StatsCommit) (s : SteamAppSnapshot) : SteamAppSnapshot := {|
  ss_owner_scope := sc_owner_scope c; ss_owner_steam_id64 := sc_owner_steam_id64 c;
  ss_commit_id := sc_commit_id c; ss_app_id := sc_app_id c;
  ss_base_crc_stats := sc_base_crc_stats c; ss_dirty_stat_ids := sc_dirty_stat_ids c;
  ss_achievements := ss_achievements s; ss_stats := ss_stats s;
  ss_observed_at := ss_observed_at s |}.

(** The commit owed again after a refusal, under the backend's baseline. *)
Definition reopened (p : StatsPhase) (base : option Z) (now : Z) : StatsCommit :=
  match p with
  | Awaiting c => {|
      sc_owner_scope := sc_owner_scope c; sc_owner_steam_id64 := sc_owner_steam_id64 c;
      sc_commit_id := sc_commit_id c; sc_app_id := sc_app_id c; sc_base_crc_stats := base;
      sc_dirty_stat_ids := sc_dirty_stat_ids c; sc_observed_at := now |}
  | Completed s => {|
      sc_owner_scope := ss_owner_scope s; sc_owner_steam_id64 := ss_owner_steam_id64 s;
      sc_commit_id := ss_commit_id s; sc_app_id := ss_app_id s; sc_base_crc_stats := base;
      sc_dirty_stat_ids := ss_dirty_stat_ids s; sc_observed_at := now |}
  end.

(** A call with what it answered. *)
Inductive StatsEvent :=
| EvCommit (c : StatsCommit)
| EvComplete (s : SteamAppSnapshot) (accepted : bool)
| EvReopen (item : Queued SteamAppSnapshot) (base : option Z) (now : Z) (accepted : bool)
| EvAck (item : Queued SteamAppSnapshot)
| EvDefer (item : Queued SteamAppSnapshot) (now : Z).

Section protocol.
Context {St : Structsy}.

(** What is owed for one owner and app: where, at which revision, in which phase. *)
Record Slot := { sl_ref : Ref; sl_revision : Z; sl_phase : StatsPhase }.

Abbreviation Slots := (StatsKey → option Slot).
Implicit Types (σ : Slots).

Definition advance (sl : Slot) (p : StatsPhase) : Slot :=
  {| sl_ref := sl_ref sl; sl_revision := u64_wrapping_add (sl_revision sl) 1; sl_phase := p |}.

(** The item was handed out for exactly this state of the slot. *)
Definition names (item : Queued SteamAppSnapshot) (sl : Slot) : Prop :=
  reference item = Ok (sl_ref sl) ∧ sl_revision sl = q_revision item.

Definition awaits σ (s : SteamAppSnapshot) (sl : Slot) (c : StatsCommit) : Prop :=
  σ (snap_key s) = Some sl ∧ sl_phase sl = Awaiting c ∧ sc_commit_id c = ss_commit_id s.

Definition updates σ σ' (k : StatsKey) (sl : option Slot) : Prop :=
  ∀ k', σ' k' = if decide (k' = k) then sl else σ k'.

Inductive stats_spec : StatsEvent → Slots → Slots → Prop :=
| spec_commit_new σ σ' c id :
    σ (commit_key c) = None →
    (∀ k sl, σ k = Some sl → sl_ref sl ≠ id) →
    updates σ σ' (commit_key c)
      (Some {| sl_ref := id; sl_revision := 0; sl_phase := Awaiting c |}) →
    stats_spec (EvCommit c) σ σ'
| spec_commit_over σ σ' c sl :
    σ (commit_key c) = Some sl →
    updates σ σ' (commit_key c) (Some (advance sl (Awaiting c))) →
    stats_spec (EvCommit c) σ σ'
| spec_complete σ σ' s sl c :
    awaits σ s sl c →
    updates σ σ' (snap_key s) (Some (advance sl (Completed (complete_with c s)))) →
    stats_spec (EvComplete s true) σ σ'
| spec_reject σ σ' s :
    (∀ sl c, ¬ awaits σ s sl c) → (∀ k, σ' k = σ k) →
    stats_spec (EvComplete s false) σ σ'
| spec_reopen σ σ' item base now k sl :
    σ k = Some sl → names item sl →
    updates σ σ' k (Some (advance sl (Awaiting (reopened (sl_phase sl) base now)))) →
    stats_spec (EvReopen item base now true) σ σ'
| spec_reopen_stale σ σ' item base now :
    (∀ k sl, σ k = Some sl → ¬ names item sl) → (∀ k, σ' k = σ k) →
    stats_spec (EvReopen item base now false) σ σ'
| spec_settle σ σ' item k sl :
    σ k = Some sl → names item sl → updates σ σ' k None →
    stats_spec (EvAck item) σ σ'
| spec_settle_stale σ σ' item :
    (∀ k sl, σ k = Some sl → ¬ names item sl) → (∀ k, σ' k = σ k) →
    stats_spec (EvAck item) σ σ'
| spec_defer σ σ' item now : (∀ k, σ' k = σ k) → stats_spec (EvDefer item now) σ σ'.
End protocol.
Abbreviation Slots := (StatsKey → option Slot).

(** ** The slots of a journal *)

Definition phase_of_record (r : StatsRecord) : StatsPhase :=
  match StatsRecord_snapshot r with
  | Some s => Completed s
  | None => Awaiting (StatsRecord_commit r)
  end.

Section slots.
Context {St : Structsy} {L : StructsyLaws St}.
Implicit Types (j : @Database St).

Definition stats_rows j : gmap Ref StatsRecord := contents (db_stats j).

Definition slot_of (id : Ref) (r : StatsRecord) : Slot :=
  {| sl_ref := id; sl_revision := tr_revision r; sl_phase := phase_of_record r |}.

Definition slots j : Slots := λ '(scope, sid, app),
  match stats_for (db_stats j) scope sid app with
  | Some (id, r) => Some (slot_of id r)
  | None => None
  end.

Definition phase j (k : StatsKey) : option StatsPhase := sl_phase <$> slots j k.

Lemma stats_query k r :
  stats_identified k.1.1 k.1.2 k.2 r = bool_decide (stats_key r = k).
Proof.
  destruct k as [[scope sid] app]. unfold stats_identified, stats_key. simpl.
  apply eq_true_iff_eq. rewrite !andb_true_iff, !bool_decide_eq_true.
  split; [by intros [[-> ->] ->]|by intros [= -> -> ->]].
Qed.

Lemma stats_for_Some (t : table StatsRecord) k id r :
  stats_for t k.1.1 k.1.2 k.2 = Some (id, r) → contents t !! id = Some r ∧ stats_key r = k.
Proof.
  intros [Hr Hq]%fetch_next_Some. by rewrite stats_query, bool_decide_eq_true in Hq.
Qed.

Lemma stats_for_None (t : table StatsRecord) k :
  stats_for t k.1.1 k.1.2 k.2 = None → ∀ id r, contents t !! id = Some r → stats_key r ≠ k.
Proof.
  intros Hn id r Hr. pose proof (fetch_next_None _ _ _ _ Hn Hr) as Hq.
  rewrite stats_query in Hq. by apply bool_decide_eq_false_1 in Hq.
Qed.

Lemma slots_row j id r :
  unique_by stats_key (stats_rows j) → stats_rows j !! id = Some r →
  slots j (stats_key r) = Some (slot_of id r).
Proof.
  intros Hu Hr. unfold slots, stats_key.
  destruct (stats_for _ _ _ _) as [[id' r']|] eqn:E.
  - apply (stats_for_Some _ (stats_key r)) in E as [Hr' Hk].
    assert (id' = id) as -> by (eapply Hu; eauto). unfold stats_rows in Hr. congruence.
  - by destruct (stats_for_None _ (stats_key r) E id r Hr).
Qed.

Lemma slots_Some j k sl :
  slots j k = Some sl →
  ∃ id r, stats_rows j !! id = Some r ∧ stats_key r = k ∧ sl = slot_of id r.
Proof.
  destruct k as [[scope sid] app]. unfold slots.
  destruct (stats_for _ _ _ _) as [[id r]|] eqn:E; [|done].
  apply (stats_for_Some _ (scope, sid, app)) in E as [??]. intros [= <-]. eauto.
Qed.

Lemma slots_None j k : slots j k = None → ∀ id r, stats_rows j !! id = Some r → stats_key r ≠ k.
Proof.
  destruct k as [[scope sid] app]. unfold slots.
  destruct (stats_for _ _ _ _) as [[id r]|] eqn:E; [done|].
  intros _. apply (stats_for_None _ (scope, sid, app) E).
Qed.

Lemma slots_absent j k :
  (∀ id r, stats_rows j !! id = Some r → stats_key r ≠ k) → slots j k = None.
Proof.
  intros Hn. destruct (slots j k) as [sl|] eqn:E; [|done].
  apply slots_Some in E as (id & r & Hr & Hk & _). by destruct (Hn _ _ Hr).
Qed.

(** Two journals with the same rows under a key have the same slot there. *)
Lemma slots_local j j' k :
  unique_by stats_key (stats_rows j) → unique_by stats_key (stats_rows j') →
  (∀ id r, stats_key r = k → stats_rows j' !! id = Some r ↔ stats_rows j !! id = Some r) →
  slots j' k = slots j k.
Proof.
  intros Hu Hu' Hrows. destruct (slots j k) as [sl|] eqn:E.
  - apply slots_Some in E as (id & r & Hr & Hk & ->). rewrite <-Hk.
    apply slots_row; [done|]. by apply Hrows.
  - apply slots_absent. intros id r Hr Hk. apply (slots_None _ _ E id r); [|done]. by apply Hrows.
Qed.

(** Writing a row moves the slot of its key only. *)
Lemma slots_insert j j' id r' :
  unique_by stats_key (stats_rows j) →
  (∀ k s, stats_rows j !! k = Some s → k ≠ id → stats_key s ≠ stats_key r') →
  (∀ s, stats_rows j !! id = Some s → stats_key s = stats_key r') →
  stats_rows j' = <[id := r']> (stats_rows j) →
  unique_by stats_key (stats_rows j') ∧
  updates (slots j) (slots j') (stats_key r') (Some (slot_of id r')).
Proof.
  intros Hu Hfresh Hsame Hj'.
  assert (Hu' : unique_by stats_key (stats_rows j'))
    by (rewrite Hj'; by apply unique_by_insert).
  split; [done|]. intros k. case_decide as Hk.
  - subst k. apply slots_row; [done|]. by rewrite Hj', lookup_insert_eq.
  - apply slots_local; [done..|]. intros i s Hs. rewrite Hj', lookup_insert.
    case_decide as Hi; [|done]. subst i. split; [congruence|].
    intros Hr. destruct Hk. rewrite <-Hs. by apply Hsame.
Qed.

(** An update in place, of a row that keeps its key. *)
Lemma slots_update j j' id r r' :
  unique_by stats_key (stats_rows j) → stats_rows j !! id = Some r →
  stats_key r' = stats_key r → stats_rows j' = <[id := r']> (stats_rows j) →
  unique_by stats_key (stats_rows j') ∧
  updates (slots j) (slots j') (stats_key r) (Some (slot_of id r')).
Proof.
  intros Hu Hr Hk Hj'. rewrite <-Hk. apply slots_insert; [done| | |done].
  - intros k s Hs Hne Hks. apply Hne. eapply Hu; eauto. congruence.
  - intros s Hs. congruence.
Qed.

Lemma slots_delete j j' id r :
  unique_by stats_key (stats_rows j) → stats_rows j !! id = Some r →
  stats_rows j' = delete id (stats_rows j) →
  unique_by stats_key (stats_rows j') ∧ updates (slots j) (slots j') (stats_key r) None.
Proof.
  intros Hu Hr Hj'.
  assert (Hu' : unique_by stats_key (stats_rows j')) by (rewrite Hj'; by apply unique_by_delete).
  split; [done|]. intros k. case_decide as Hk.
  - apply slots_absent. rewrite Hj'. intros i s [Hne Hs]%lookup_delete_Some Hks.
    apply Hne. eapply Hu; eauto. congruence.
  - apply slots_local; [done..|]. intros i s Hs. rewrite Hj', lookup_delete.
    case_decide as Hi; [|done]. subst i. split; [done|congruence].
Qed.

Lemma slots_same j j' :
  unique_by stats_key (stats_rows j) → stats_rows j' = stats_rows j →
  unique_by stats_key (stats_rows j') ∧ ∀ k, slots j' k = slots j k.
Proof.
  intros Hu Hj'. assert (unique_by stats_key (stats_rows j')) by by rewrite Hj'.
  split; [done|]. intros k. apply slots_local; [done..|]. by rewrite Hj'.
Qed.

(** No slot is named by an item whose row is gone or has moved on. *)
Lemma stale_names j (item : Queued SteamAppSnapshot) id :
  reference item = Ok id →
  (∀ r, stats_rows j !! id = Some r → tr_revision r ≠ q_revision item) →
  ∀ k sl, slots j k = Some sl → ¬ names item sl.
Proof.
  intros Hid Hr k sl (id' & r & Hrow & _ & ->)%slots_Some [Hid' Hrev]. simpl in *.
  rewrite Hid in Hid'. injection Hid' as <-. by apply (Hr r).
Qed.
End slots.

(** ** The journal's operations on the slots *)

Section operations.
Context {St : Structsy} {L : StructsyLaws St}.
Implicit Types (j : @Database St).

Lemma stats_rows_set j t : stats_rows (set_stats j t) = contents t.
Proof. done. Qed.

Lemma enqueue_stats_commit_Ok c j j' :
  unique_by stats_key (stats_rows j) → enqueue_stats_commit c j = (Ok tt, j') →
  unique_by stats_key (stats_rows j') ∧ stats_spec (EvCommit c) (slots j) (slots j').
Proof.
  intros Hu H%write_Ok. cbn beta zeta in H.
  assert (Hphase : ∀ rev, phase_of_record (stats_with_revision (StatsRecord_new c) rev) = Awaiting c)
    by by destruct c.
  destruct (stats_for (db_stats j) _ _ _) as [[id r]|] eqn:E; store_inv.
  - apply (stats_for_Some _ (commit_key c)) in E as [Hr Hk].
    apply tx_update_Ok in Hx; [|by eauto].
    destruct (slots_update j (set_stats j x) id r (stats_with_revision (StatsRecord_new c)
      (u64_wrapping_add (tr_revision r) 1))) as [Hu' Hup]; [done..|].
    split; [done|]. unfold slot_of in Hup. rewrite Hphase, Hk in Hup.
    eapply spec_commit_over; [rewrite <-Hk; by apply (slots_row j id r)|exact Hup].
  - destruct x as [id t]. apply tx_insert_Ok in Hx as [Hid Ht].
    pose proof (stats_for_None _ (commit_key c) E) as Hn. simplify_eq/=.
    destruct (slots_insert j (set_stats j t) id (StatsRecord_new c)) as [Hu' Hup];
      [done| | |done|].
    { intros k s Hs _. by eapply Hn. }
    { unfold stats_rows. intros s Hs. congruence. }
    split; [done|]. apply spec_commit_new with id.
    + by apply slots_absent.
    + intros k sl (id' & r & Hr & _ & ->)%slots_Some Hi. simpl in Hi. unfold stats_rows in Hr. congruence.
    + by destruct c.
Qed.

Lemma complete_stats_snapshot_Ok s b j j' :
  unique_by stats_key (stats_rows j) → complete_stats_snapshot s j = (Ok b, j') →
  unique_by stats_key (stats_rows j') ∧ stats_spec (EvComplete s b) (slots j) (slots j').
Proof.
  intros Hu H%write_Ok. cbn beta zeta in H.
  destruct (stats_for (db_stats j) _ _ _) as [[id r]|] eqn:E.
  2: { simplify_eq. split; [done|]. apply spec_reject; [|done]. intros sl c [Hsl _].
       unfold slots, snap_key in Hsl. by rewrite E in Hsl. }
  apply (stats_for_Some _ (snap_key s)) in E as [Hr Hk].
  assert (Hp : slots j (snap_key s) = Some (slot_of id r)) by (rewrite <-Hk; by apply slots_row).
  rewrite has_snapshot_spec in H.
  destruct (StatsRecord_snapshot r) as [s0|] eqn:Hs0.
  { rewrite bool_decide_eq_true_2 in H by eauto. simpl in H. simplify_eq.
    split; [done|]. apply spec_reject; [|done]. intros sl c (Hsl & Hc & _).
    rewrite Hp in Hsl. injection Hsl as <-. unfold slot_of, phase_of_record in Hc.
    by rewrite Hs0 in Hc. }
  rewrite bool_decide_eq_false_2 in H by (by intros [??]). simpl in H.
  assert (Ha : phase_of_record r = Awaiting (StatsRecord_commit r))
    by (unfold phase_of_record; by rewrite Hs0).
  case_bool_decide as Hid; simpl in H.
  2: { simplify_eq. split; [done|]. apply spec_reject; [|done]. intros sl c (Hsl & Hc & Hcid).
       rewrite Hp in Hsl. injection Hsl as <-. simpl in Hc. rewrite Ha in Hc.
       injection Hc as <-. by destruct Hid. }
  store_inv. apply tx_update_Ok in Hx; [|by eauto].
  destruct (slots_update j (set_stats j x) id r (StatsRecord_complete r s)) as [Hu' Hup];
    [done..|].
  split; [done|]. apply spec_complete with (slot_of id r) (StatsRecord_commit r); [done|].
  unfold slot_of, phase_of_record in Hup. rewrite snapshot_complete in Hup. by rewrite Hk in Hup.
Qed.

Lemma reopen_stats_commit_Ok item base now b j j' :
  unique_by stats_key (stats_rows j) → reopen_stats_commit item base now j = (Ok b, j') →
  unique_by stats_key (stats_rows j') ∧
  stats_spec (EvReopen item base now b) (slots j) (slots j').
Proof.
  intros Hu H%write_Ok. store_inv. apply tx_read_Ok in Hx0. symmetry in Hx0.
  destruct x0 as [r|].
  2: { simplify_eq. split; [done|]. apply spec_reopen_stale; [|done].
       apply (stale_names j' item x); [done|]. unfold stats_rows. congruence. }
  case_decide as Hrev.
  2: { simplify_eq. split; [done|]. apply spec_reopen_stale; [|done].
       apply (stale_names j' item x); [done|]. unfold stats_rows. congruence. }
  store_inv. apply tx_update_Ok in Hx1; [|by eauto].
  destruct (slots_update j (set_stats j x0) x r (StatsRecord_reopen r base now)) as [Hu' Hup];
    [done..|].
  split; [done|]. apply spec_reopen with (stats_key r) (slot_of x r).
  - by apply slots_row.
  - done.
  - replace (Awaiting (reopened (sl_phase (slot_of x r)) base now))
      with (phase_of_record (StatsRecord_reopen r base now)); [exact Hup|].
    simpl. unfold phase_of_record, reopened, StatsRecord_snapshot.
    by destruct (tr_snapshot_observed_at r).
Qed.

Lemma acknowledge_stats_Ok (item : Queued SteamAppSnapshot) j j' :
  unique_by stats_key (stats_rows j) → acknowledge item j = (Ok tt, j') →
  unique_by stats_key (stats_rows j') ∧ stats_spec (EvAck item) (slots j) (slots j').
Proof.
  intros Hu H. apply settle_Ok in H as (ids & t' & Hids & -> & Ht').
  inversion Hids as [|? id ? ids' Hid Hrest]; subst. inversion Hrest; subst.
  unfold settle_spec, settles in Ht'. simpl in Ht'.
  change (contents (db_stats j)) with (stats_rows j) in Ht'.
  destruct (stats_rows j !! id) as [r|] eqn:Hr; [case_bool_decide as Hrev|].
  - destruct (slots_delete j (set_stats j t') id r) as [Hu' Hup]; [done..|].
    split; [done|]. apply spec_settle with (stats_key r) (slot_of id r); [|done..].
    by apply slots_row.
  - destruct (slots_same j (set_stats j t')) as [Hu' ?]; [done..|]. split; [done|].
    apply spec_settle_stale; [|done]. apply (stale_names j item id); [done|]. congruence.
  - destruct (slots_same j (set_stats j t')) as [Hu' ?]; [done..|]. split; [done|].
    apply spec_settle_stale; [|done]. apply (stale_names j item id); [done|]. congruence.
Qed.

Lemma slot_of_schedule id r n a :
  slot_of id (jr_schedule (V := SteamAppSnapshot) r n a) = slot_of id r.
Proof. done. Qed.

Lemma defer_stats_Ok (item : Queued SteamAppSnapshot) now j j' :
  unique_by stats_key (stats_rows j) → defer item now j = (Ok tt, j') →
  unique_by stats_key (stats_rows j') ∧ stats_spec (EvDefer item now) (slots j) (slots j').
Proof.
  intros Hu H. apply postpone_Ok in H as (ids & t' & Hids & -> & Ht').
  inversion Hids as [|? id ? ids' Hid Hrest]; subst. inversion Hrest; subst.
  unfold postpone_spec, settles in Ht'. simpl in Ht'.
  change (contents (db_stats j)) with (stats_rows j) in Ht'.
  destruct (stats_rows j !! id) as [r|] eqn:Hr; [case_bool_decide as Hrev|].
  2,3: destruct (slots_same j (set_stats j t')) as [Hu' ?]; [done..|];
       split; [done|by apply spec_defer].
  destruct (slots_update j (set_stats j t') id r (postponed now r)) as [Hu' Hup]; [done..| |].
  { rewrite stats_rows_set, Ht'. apply map_eq. intros k.
    rewrite lookup_insert, lookup_alter. case_decide; subst; [by rewrite Hr|done]. }
  split; [done|]. apply spec_defer. intros k. etrans; [apply (Hup k)|]. case_decide as Hk; [|done]. subst k.
  unfold postponed. rewrite slot_of_schedule. symmetry. by apply slots_row.
Qed.

(** One committed stats operation, with what it answered. *)
Inductive stats_op : StatsEvent → @Database St → @Database St → Prop :=
| op_commit c j j' : enqueue_stats_commit c j = (Ok tt, j') → stats_op (EvCommit c) j j'
| op_complete s b j j' :
    complete_stats_snapshot s j = (Ok b, j') → stats_op (EvComplete s b) j j'
| op_reopen item base now b j j' :
    reopen_stats_commit item base now j = (Ok b, j') → stats_op (EvReopen item base now b) j j'
| op_ack item j j' : acknowledge item j = (Ok tt, j') → stats_op (EvAck item) j j'
| op_defer item now j j' : defer item now j = (Ok tt, j') → stats_op (EvDefer item now) j j'.

Lemma stats_op_refines e j j' :
  unique_by stats_key (stats_rows j) → stats_op e j j' →
  unique_by stats_key (stats_rows j') ∧ stats_spec e (slots j) (slots j').
Proof.
  intros Hu H.
  inversion H; subst; eauto using enqueue_stats_commit_Ok, complete_stats_snapshot_Ok,
    reopen_stats_commit_Ok, acknowledge_stats_Ok, defer_stats_Ok.
Qed.
End operations.

(** C12 [stats_protocol_refinement]: along every sequence of committed stats operations
    the journal keeps one row per owner and app, and the same sequence of calls and
    answers is a run of the abstract protocol: a snapshot is accepted exactly when its
    commit is awaited, and acknowledging or reopening acts exactly when the item still
    names the current revision of its row. *)
Theorem stats_protocol_refinement {St : Structsy} {L : StructsyLaws St} es j j'
    (Hu : unique_by stats_key (stats_rows j)) (Hrun : trace stats_op es j j') :
  unique_by stats_key (stats_rows j') ∧ trace stats_spec es (slots j) (slots j').
Proof.
  induction Hrun as [j|e es j j1 j2 Hop _ IH]; [by split; [|constructor]|].
  apply stats_op_refines in Hop as [Hu1 Hspec]; [|done].
  destruct (IH Hu1) as [? ?]. split; [done|]. by econstructor.
Qed.

(** [complete_stats_snapshot_spec]: a snapshot is accepted exactly when its owner and
    app await the commit it names; then the app is ready for upload under that
    commit's baseline, and a snapshot of a superseded commit changes no slot. *)
Theorem complete_stats_snapshot_spec {St : Structsy} {L : StructsyLaws St} s b j j'
    (Hu : unique_by stats_key (stats_rows j))
    (H : complete_stats_snapshot s j = (Ok b, j')) :
  (b = true ↔ ∃ c, phase j (snap_key s) = Some (Awaiting c) ∧ sc_commit_id c = ss_commit_id s) ∧
  (∀ c, b = true → phase j (snap_key s) = Some (Awaiting c) →
     phase j' (snap_key s) = Some (Completed (complete_with c s))) ∧
  (∀ k, b = false ∨ k ≠ snap_key s → slots j' k = slots j k).
Proof.
  apply complete_stats_snapshot_Ok in H as [_ H]; [|done]. unfold phase.
  inversion H as [| |? ? ? sl c (Hsl & Hc & Hid) Hup|? ? ? Hn Hsame| | | | |]; subst.
  - split; [|split].
    + split; [intros _|done]. exists c. rewrite Hsl. simpl. by rewrite Hc.
    + intros c' _ Hc'. rewrite Hsl in Hc'. simpl in Hc'. rewrite Hc in Hc'.
      rewrite (Hup (snap_key s)), decide_True by done. injection Hc' as <-. done.
    + intros k [?|?]; [done|]. by rewrite (Hup k), decide_False.
  - split; [|split; [done|by intros]]. split; [done|]. intros (c & Hc & Hid).
    destruct (slots j (snap_key s)) as [sl|] eqn:Hsl; [|done]. injection Hc as Hc.
    by destruct (Hn sl c).
Qed.

(** [superseded_snapshot_kept]: a snapshot is handed out for upload, a newer commit
    for some app is journaled while the upload is in flight, and the snapshot is
    then acknowledged: the newer commit still awaits its own snapshot. *)
Theorem superseded_snapshot_kept {St : Structsy} {L : StructsyLaws St}
    scope sid now item c j j1 j2
    (Hu : unique_by stats_key (stats_rows j))
    (Hrev : ∀ id r, stats_rows j !! id = Some r → in_u64 (tr_revision r))
    (Hitem : item ∈ pending_stats_snapshots scope sid now j)
    (Hc : enqueue_stats_commit c j = (Ok tt, j1))
    (Hack : acknowledge item j1 = (Ok tt, j2)) :
  phase j2 (commit_key c) = Some (Awaiting c).
Proof.
  apply elem_of_take_fst in Hitem as [a Ha]. apply batch_subset in Ha.
  apply list_elem_of_omap in Ha as ([id r] & Hin & Hsnap).
  apply elem_of_fetch in Hin as [Hr _]. simpl in Hsnap.
  destruct (StatsRecord_snapshot r) as [s|]; [|done]. cbn in Hsnap. injection Hsnap as <- <-.
  apply enqueue_stats_commit_Ok in Hc as [Hu1 Hc]; [|done].
  pose proof (slots_row j id r Hu Hr) as Hslot. specialize (Hrev id r Hr).
  assert (∃ sl, slots j1 (commit_key c) = Some sl ∧ sl_phase sl = Awaiting c ∧
            ¬ (sl_ref sl = id ∧ sl_revision sl = tr_revision r)) as (sl & Hsl & Hp & Hne).
  { inversion Hc as [? ? ? i Hn Hfresh Hup|? ? ? sl Hold Hup| | | | | | |]; subst;
      (eexists; split; [rewrite (Hup (commit_key c)), decide_True by done; done|]);
      (split; [done|]); simpl; intros [Hid Hr'].
    - by apply (Hfresh _ _ Hslot).
    - apply slots_Some in Hold as (id0 & r0 & Hr0 & _ & ->). simpl in Hid, Hr'. subst id0. assert (r0 = r) as -> by (unfold stats_rows in *; congruence).
      by apply (u64_wrapping_succ_ne (tr_revision r)). }
  unfold phase. apply acknowledge_stats_Ok in Hack as [_ Hack]; [|done].
  inversion Hack as [| | | | | |? ? ? k sl' Hk [Hid Hrev'] Hup|? ? ? _ Hsame|]; subst.
  - rewrite (Hup (commit_key c)). case_decide as Hck; [exfalso|by rewrite Hsl; simpl; rewrite Hp].
    rewrite Hck in Hsl. assert (sl' = sl) as -> by congruence.
    rewrite reference_new in Hid. injection Hid as Hid. by apply Hne.
  - rewrite Hsame, Hsl. simpl. by rewrite Hp.
Qed.
