(* ===== verification/JournalInvariant.v ===== *)
(** * JournalInvariant: identities in the journal stay unique

    Cloud conflict resolutions and credential bookkeeping, and the invariant of
    the whole journal: one row per logical identity in every table that is keyed by
    one, preserved by every operation whether it commits or fails. *)

From Stdlib Require Import ZArith Lia.
From S2P Require Import Prelude CloudCore Storage JournalRecord SyncJournal JournalProofs.
From S2P Require Import JournalStats.

Local Open Scope Z_scope.

Definition conflict_app_key (r : ConflictRecord) : string * Z :=
  (cr_owner_scope r, cr_app_id r).

Section conflicts.
Context {St : Structsy} {L : StructsyLaws St}.
Implicit Types (j : @Database St) (m : gmap Ref ConflictRecord).

Definition conflict_rows j : gmap Ref ConflictRecord := contents (db_conflict j).

Definition conflict_unique m : Prop :=
  unique_by conflict_app_key m ∧ unique_by cr_event_id m.

Lemma delete_rows_Ok {R} ids (t t' : table R) :
  NoDup ids → (∀ id, id ∈ ids → is_Some (contents t !! id)) →
  delete_rows ids t = Ok t' →
  ∀ k, contents t' !! k = if decide (k ∈ ids) then None else contents t !! k.
Proof.
  intros Hnd. revert t; induction Hnd as [|id ids Hni Hnd IH]; intros t Hin H k; simpl in H.
  { simplify_eq. rewrite decide_False by set_solver. done. }
  store_inv. apply tx_delete_Ok in Hx; [|apply Hin; set_solver].
  rewrite (IH x); [|intros i Hi; rewrite Hx, lookup_delete_ne by set_solver;
                    apply Hin; set_solver|done].
  rewrite Hx, lookup_delete. repeat case_decide; subst; set_solver.
Qed.

Lemma conflict_for_app_spec scope app r :
  conflict_for_app scope app r = true ↔ conflict_app_key r = (scope, app).
Proof.
  unfold conflict_for_app, conflict_app_key.
  rewrite andb_true_iff, !bool_decide_eq_true. naive_solver.
Qed.

Lemma conflict_identified_spec scope event r :
  conflict_identified scope event r = true ↔
  cr_owner_scope r = scope ∧ cr_event_id r = event.
Proof. unfold conflict_identified. by rewrite andb_true_iff, !bool_decide_eq_true. Qed.

Lemma conflict_unique_subseteq m m' : m' ⊆ m → conflict_unique m → conflict_unique m'.
Proof. intros Hs [H1 H2]. split; by eapply unique_by_subseteq. Qed.

Lemma filter_True {A} (l : list A) : filter (λ _, True) l = l.
Proof. induction l as [|a l IH]; [done|]. rewrite filter_cons_True, IH; done. Qed.

(** Deleting the rows a query selected. *)
Lemma delete_fetched_Ok {R} (P : Ref * R → Prop) `{∀ p, Decision (P p)} q (t t' : table R) :
  delete_rows (filter P (fetch q t)).*1 t = Ok t' →
  contents t' ⊆ contents t ∧
  ∀ k r, contents t !! k = Some r →
    contents t' !! k = if bool_decide (q r = true ∧ P (k, r)) then None else Some r.
Proof.
  intros Hd.
  assert (Hin : ∀ k, k ∈ (filter P (fetch q t)).*1 ↔
    ∃ r, contents t !! k = Some r ∧ q r = true ∧ P (k, r)).
  { intros k. rewrite list_elem_of_fmap. split.
    - intros ([k' r] & -> & [HP Hf]%list_elem_of_filter).
      apply elem_of_fetch in Hf as [??]. eauto.
    - intros (r & Hr & Hq & HP). exists (k, r). split; [done|].
      apply list_elem_of_filter. split; [done|]. by apply elem_of_fetch. }
  assert (Hl : ∀ k, contents t' !! k =
    if decide (k ∈ (filter P (fetch q t)).*1) then None else contents t !! k).
  { apply delete_rows_Ok; [|by intros id (r & Hr & _)%Hin; eauto|done].
    eapply sublist_NoDup; [apply (fetch_NoDup q t)|].
    apply fmap_sublist, sublist_filter. }
  split.
  - apply map_subseteq_spec. intros k r. rewrite Hl. by case_decide.
  - intros k r Hr. rewrite Hl, Hr. case_decide as Hk; case_bool_decide as Hb; try done.
    + destruct Hb. apply Hin in Hk as (r' & Hr' & ?). by simplify_eq.
    + destruct Hk. apply Hin. eauto.
Qed.

Lemma enqueue_conflict_Ok res now j j' :
  conflict_unique (conflict_rows j) →
  (∀ id r, conflict_rows j !! id = Some r → cr_event_id r = ce_event_id res →
     cr_owner_scope r = ce_owner_scope res) →
  enqueue_conflict res now j = (Ok tt, j') →
  (∃ t, j' = set_conflict j t) ∧ conflict_unique (conflict_rows j') ∧
  (∃ id r, conflict_rows j' !! id = Some r ∧ ConflictRecord_value r = res ∧
     ∀ k s, conflict_rows j' !! k = Some s →
       conflict_app_key s = (ce_owner_scope res, ce_app_id res) → k = id) ∧
  (∀ k s, conflict_rows j !! k = Some s →
     conflict_app_key s ≠ (ce_owner_scope res, ce_app_id res) →
     cr_event_id s ≠ ce_event_id res → conflict_rows j' !! k = Some s).
Proof.
  intros [Hua Hue] Hfresh H%write_Ok. cbn beta zeta in H. store_inv. rename x into t1.
  apply delete_fetched_Ok in Hx as [Hsub Hdel].
  assert (Hu1 : conflict_unique (contents t1)) by (by eapply conflict_unique_subseteq).
  destruct Hu1 as [Hua1 Hue1].
  (** after the deletions, a row of the app carries the event's id *)
  assert (Happ : ∀ k s, contents t1 !! k = Some s →
    conflict_app_key s = (ce_owner_scope res, ce_app_id res) → cr_event_id s = ce_event_id res).
  { intros k s Hs Hk. pose proof (lookup_weaken _ _ _ _ Hs Hsub) as Hs0.
    specialize (Hdel k s Hs0). rewrite Hs in Hdel. case_bool_decide as Hb; [done|].
    destruct (decide (cr_event_id s = ce_event_id res)); [done|].
    destruct Hb. split; [by apply conflict_for_app_spec|done]. }
  assert (Hkeep : ∀ k s, contents (db_conflict j) !! k = Some s →
    conflict_app_key s ≠ (ce_owner_scope res, ce_app_id res) → contents t1 !! k = Some s).
  { intros k s Hs Hk. rewrite (Hdel k s Hs), bool_decide_eq_false_2; [done|].
    by intros [?%conflict_for_app_spec _]. }
  destruct (fetch_next _ t1) as [[id r]|] eqn:E; store_inv.
  - apply fetch_next_Some in E as [Hr [Hrs Hre]%conflict_identified_spec].
    apply tx_update_Ok in Hx; [|by eauto].
    set (rec := conflict_with_history (ConflictRecord_new res now) r) in *.
    assert (Hother : ∀ k s, contents t1 !! k = Some s → k ≠ id →
      conflict_app_key s ≠ conflict_app_key rec).
    { intros k s Hs Hne Hks. apply Hne. eapply Hue1; eauto. rewrite Hre. by eapply Happ. }
    split; [by eexists|].
    change (conflict_rows (set_conflict j x)) with (contents x). rewrite Hx. split; [|split].
    + split; [by apply unique_by_insert|]. eapply unique_by_update; eauto.
    + exists id, rec. rewrite lookup_insert_eq. split; [done|]. split; [by destruct res|].
      intros k s. rewrite lookup_insert. case_decide; [done|]. intros Hs Hks.
      by destruct (Hother k s Hs).
    + intros k s Hs Hks Hev. rewrite lookup_insert_ne; [by apply Hkeep|].
      intros ->. pose proof (Hkeep _ _ Hs Hks). congruence.
  - destruct x as [id t2]. apply tx_insert_Ok in Hx as [Hid Ht2]. simplify_eq/=.
    set (rec := ConflictRecord_new res now) in *.
    assert (Hnoev : ∀ k s, contents t1 !! k = Some s → cr_event_id s ≠ ce_event_id res).
    { intros k s Hs Hev. pose proof (fetch_next_None _ _ _ _ E Hs) as Hq.
      apply not_true_iff_false in Hq. apply Hq, conflict_identified_spec. split; [|done].
      eapply Hfresh; [|done]. by eapply lookup_weaken. }
    split; [by eexists|].
    change (conflict_rows (set_conflict j t2)) with (contents t2). rewrite Ht2. split; [|split].
    + split; apply unique_by_insert; try done; intros k s Hs _.
      * intros Hks. by eapply Hnoev, Happ.
      * by apply (Hnoev k s).
    + exists id, rec. rewrite lookup_insert_eq. split; [done|]. split; [by destruct res|].
      intros k s. rewrite lookup_insert. case_decide; [done|]. intros Hs Hks.
      by destruct (Hnoev k s Hs); eapply Happ.
    + intros k s Hs Hks Hev. rewrite lookup_insert_ne; [by apply Hkeep|].
      intros ->. pose proof (Hkeep _ _ Hs Hks). congruence.
Qed.

(** One staged row moved to the principal, whatever that principal had for the
    app. *)
Lemma attribute_row_Ok principal id record (t t1 t2 : table ConflictRecord) :
  conflict_unique (contents t) → contents t !! id = Some record →
  cr_owner_scope record ≠ principal →
  delete_rows (fetch (conflict_for_app principal (cr_app_id record)) t).*1 t = Ok t1 →
  tx_update t1 id (conflict_attributed principal record) = Ok t2 →
  conflict_unique (contents t2) ∧
  contents t2 !! id = Some (conflict_attributed principal record) ∧
  (∀ k s, contents t !! k = Some s → k ≠ id →
     conflict_app_key s ≠ (principal, cr_app_id record) → contents t2 !! k = Some s) ∧
  (∀ k s, contents t2 !! k = Some s → k ≠ id → contents t !! k = Some s).
Proof.
  intros Hu Hid Hne Hd Hup.
  rewrite <-(filter_True (fetch _ t)) in Hd.
  apply delete_fetched_Ok in Hd as [Hsub Hdel].
  assert (Hu1 : conflict_unique (contents t1)) by (by eapply conflict_unique_subseteq).
  assert (Hkeep : ∀ k s, contents t !! k = Some s →
    conflict_app_key s ≠ (principal, cr_app_id record) → contents t1 !! k = Some s).
  { intros k s Hs Hk. rewrite (Hdel k s Hs), bool_decide_eq_false_2; [done|].
    by intros [?%conflict_for_app_spec _]. }
  assert (Hid1 : contents t1 !! id = Some record).
  { apply Hkeep; [done|]. unfold conflict_app_key. congruence. }
  apply tx_update_Ok in Hup; [|by eauto]. rewrite Hup. destruct Hu1 as [Ha1 He1].
  split; [split|split; [by rewrite lookup_insert_eq|split]].
  - apply unique_by_insert; [|done]. intros k s Hs Hk Hks.
    pose proof (lookup_weaken _ _ _ _ Hs Hsub) as Hs0.
    specialize (Hdel k s Hs0). rewrite Hs in Hdel. case_bool_decide as Hb; [done|].
    destruct Hb. split; [by apply conflict_for_app_spec|done].
  - by eapply unique_by_update.
  - intros k s Hs Hk Hks. rewrite lookup_insert_ne by done. by apply Hkeep.
  - intros k s. rewrite lookup_insert. case_decide; [congruence|]. intros Hs _.
    by eapply lookup_weaken.
Qed.

(** The staged rows all move, one per app; a row the principal already had for one
    of these apps is superseded, every other row stays. *)
Lemma attribute_rows_Ok credential principal staged (t t' : table ConflictRecord) :
  credential ≠ principal → NoDup staged.*1 →
  (∀ id r, (id, r) ∈ staged → contents t !! id = Some r ∧ cr_owner_scope r = credential) →
  conflict_unique (contents t) →
  attribute_conflict_rows principal staged t = Ok t' →
  conflict_unique (contents t') ∧
  (∀ id r, (id, r) ∈ staged → contents t' !! id = Some (conflict_attributed principal r)) ∧
  (∀ k s, contents t !! k = Some s → k ∉ staged.*1 →
     (∀ id r, (id, r) ∈ staged → conflict_app_key s ≠ (principal, cr_app_id r)) →
     contents t' !! k = Some s) ∧
  (∀ k s, contents t' !! k = Some s → k ∉ staged.*1 → contents t !! k = Some s).
Proof.
  intros Hcp. revert t. induction staged as [|[id r] staged IH]; intros t Hnd Hst Hu H; simpl in H.
  { simplify_eq. split; [done|]. split; [set_solver|]. auto. }
  apply NoDup_cons in Hnd as [Hni Hnd]. store_inv. rename x into t1, x0 into t2.
  destruct (Hst id r) as [Hr Hscope]; [left|].
  destruct (attribute_row_Ok principal id r t t1 t2) as (Hu2 & Hid2 & Hk2 & Hb2);
    [done|done|congruence|done|done|].
  assert (Hne : ∀ k s, (k, s) ∈ staged → k ≠ id).
  { intros k s Hin ->. apply Hni, list_elem_of_fmap. by exists (id, s). }
  assert (Hst2 : ∀ k s, (k, s) ∈ staged → contents t2 !! k = Some s ∧ cr_owner_scope s = credential).
  { intros k s Hin. destruct (Hst k s) as [Hs Hsc]; [by right|]. split; [|done].
    apply Hk2; [done|by eapply Hne|unfold conflict_app_key; congruence]. }
  destruct (IH t2 Hnd Hst2 Hu2 H) as (Hu' & Hmoved & Hkeep & Hback).
  split; [done|]. split; [|split].
  - intros k s [[= -> ->]|Hin]%elem_of_cons; [|by apply Hmoved].
    apply Hkeep; [done|done|]. intros k s' Hin [= Happ].
    destruct (Hst k s') as [Hs' Hsc']; [by right|].
    apply (Hne k s' Hin). eapply (proj1 Hu); eauto.
    unfold conflict_app_key. by rewrite Hsc', Hscope, Happ.
  - intros k s Hs Hk Hsc. rewrite fmap_cons, not_elem_of_cons in Hk. destruct Hk as [Hk1 Hk2'].
    apply Hkeep; [|done|intros; apply Hsc with id0; by right].
    apply Hk2; [done|done|]. apply Hsc with id. left.
  - intros k s Hs Hk. rewrite fmap_cons, not_elem_of_cons in Hk. destruct Hk as [Hk1 Hk2'].
    apply Hb2; [|done]. by apply Hback.
Qed.

Lemma attribute_pending_conflicts_Ok credential principal j j' :
  conflict_unique (conflict_rows j) →
  attribute_pending_conflicts credential principal j = (Ok tt, j') →
  (∃ t, j' = set_conflict j t) ∧ conflict_unique (conflict_rows j') ∧
  (credential = "" ∨ principal = "" ∨ credential = principal → j' = j) ∧
  (credential ≠ "" → principal ≠ "" → credential ≠ principal → ∀ id,
     match conflict_rows j !! id with
     | Some r =>
         if decide (cr_owner_scope r = credential)
         then conflict_rows j' !! id = Some (conflict_attributed principal r)
         else
           conflict_rows j' !! id = Some r ∨
           (conflict_rows j' !! id = None ∧ cr_owner_scope r = principal ∧
            ∃ k s, conflict_rows j !! k = Some s ∧
                   conflict_app_key s = (credential, cr_app_id r))
     | None => conflict_rows j' !! id = None
     end).
Proof.
  intros Hu. unfold attribute_pending_conflicts.
  assert (Hj : j = set_conflict j (db_conflict j)) by by destruct j.
  repeat case_bool_decide; simpl; try (intros [= <-]; split; [by eexists|];
    split; [done|]; split; [done|]; by intros).
  intros H'%write_Ok. store_inv. split; [by eexists|].
  assert (Hst : ∀ id r, (id, r) ∈ fetch (conflict_scoped credential) (db_conflict j) ↔
    conflict_rows j !! id = Some r ∧ cr_owner_scope r = credential).
  { intros id r. rewrite elem_of_fetch. unfold conflict_scoped.
    by rewrite bool_decide_eq_true. }
  apply (attribute_rows_Ok credential) in Hx as (Hu' & Hmoved & Hkeep & Hback);
    [|done|apply fetch_NoDup|intros ??; apply Hst|done].
  change (conflict_rows (set_conflict j x)) with (contents x).
  change (contents (db_conflict j)) with (conflict_rows j) in *.
  split; [done|]. split; [naive_solver|]. intros _ _ _ id.
  assert (Hin : ∀ r, conflict_rows j !! id = Some r → cr_owner_scope r ≠ credential →
    id ∉ (fetch (conflict_scoped credential) (db_conflict j)).*1).
  { intros r Hr Hs ([i r'] & -> & [??]%Hst)%list_elem_of_fmap. simpl in *. congruence. }
  destruct (conflict_rows j !! id) as [r|] eqn:Hr.
  - case_decide as Hsc; [by apply Hmoved, Hst|].
    destruct (contents x !! id) as [r'|] eqn:Hr'.
    { left. apply Hback in Hr'; [|by eapply Hin]. congruence. }
    destruct (decide (Exists (λ p, conflict_app_key r = (principal, cr_app_id p.2))
      (fetch (conflict_scoped credential) (db_conflict j)))) as [He|He].
    + right. apply Exists_exists in He as ([k s] & [Hs Hks]%Hst & [= Hp Ha]). simpl in Ha.
      split; [done|]. split; [done|]. exists k, s. split; [done|].
      unfold conflict_app_key. congruence.
    + exfalso. rewrite (Hkeep id r) in Hr'; [done|done|by eapply Hin|].
      intros k s Hks Heq. apply He, Exists_exists. by exists (k, s).
  - destruct (contents x !! id) as [r'|] eqn:Hr'; [|done].
    rewrite <-Hr. symmetry. rewrite Hr. symmetry. exfalso.
    rewrite (Hback id r') in Hr; [done|done|].
    intros ([i r''] & -> & [??]%Hst)%list_elem_of_fmap. simpl in *. congruence.
Qed.
End conflicts.

(** ** Every mutation of the journal *)

Section operations.
Context {St : Structsy}.
Implicit Types (j : @Database St).

(** The mutating methods of [SyncJournal], with their arguments. *)
Inductive Operation :=
| EnqueuePlaytime (entries : list PlaytimeEntry)
| EnqueueSchema (schema : AchievementSchema) (now : Z)
| AttributePendingSchemas (owner_scope : string)
| EnqueueStatsCommit (commit : StatsCommit)
| CompleteStatsSnapshot (snapshot : SteamAppSnapshot)
| ReopenStatsCommit (item : Queued SteamAppSnapshot) (base : option Z) (now : Z)
| EnqueueConflict (resolution : ConflictResolutionEvent) (now : Z)
| AttributePendingConflicts (credential_scope principal_scope : string)
| StoreDeviceDescriptor (descriptor : DeviceDescriptor) (now : Z)
| StoreBackendPrincipalScope (fingerprint principal_scope : string) (now : Z)
| SettlePlaytime (items : list (Queued PlaytimeEntry))
| SettleSchemas (items : list (Queued AchievementSchema))
| SettleStats (items : list (Queued SteamAppSnapshot))
| SettleConflicts (items : list (Queued ConflictResolutionEvent))
| PostponePlaytime (items : list (Queued PlaytimeEntry)) (now : Z)
| PostponeSchemas (items : list (Queued AchievementSchema)) (now : Z)
| PostponeStats (items : list (Queued SteamAppSnapshot)) (now : Z)
| PostponeConflicts (items : list (Queued ConflictResolutionEvent)) (now : Z).

(** A call whose output is not looked at. *)
Definition discard {A} (p : JR A * @Database St) : JR unit * @Database St :=
  ((λ _, tt) <$> p.1, p.2).

Definition exec (op : Operation) j : JR unit * @Database St :=
  match op with
  | EnqueuePlaytime es => discard (enqueue_playtime es j)
  | EnqueueSchema s now => enqueue_schema s now j
  | AttributePendingSchemas scope => attribute_pending_schemas scope j
  | EnqueueStatsCommit c => enqueue_stats_commit c j
  | CompleteStatsSnapshot s => discard (complete_stats_snapshot s j)
  | ReopenStatsCommit item base now => discard (reopen_stats_commit item base now j)
  | EnqueueConflict res now => enqueue_conflict res now j
  | AttributePendingConflicts c p => attribute_pending_conflicts c p j
  | StoreDeviceDescriptor d now => discard (store_device_descriptor d now j)
  | StoreBackendPrincipalScope f p now => store_backend_principal_scope f p now j
  | SettlePlaytime items => settle items j
  | SettleSchemas items => settle items j
  | SettleStats items => settle items j
  | SettleConflicts items => settle items j
  | PostponePlaytime items now => postpone items now j
  | PostponeSchemas items now => postpone items now j
  | PostponeStats items now => postpone items now j
  | PostponeConflicts items now => postpone items now j
  end.

Lemma discard_inv {A} (p : JR A * @Database St) res j' :
  discard p = (res, j') → ∃ r, p = (r, j') ∧ res = (λ _, tt) <$> r.
Proof. destruct p as [r jp]. unfold discard. simpl. intros [= <- <-]. eauto. Qed.

Lemma exec_Err op j e j' : exec op j = (Err e, j') → j' = j.
Proof.
  destruct op; simpl; intros H;
    try (apply discard_inv in H as ([?|?] & H & Hr); [done|]);
    try (by eapply write_Err in H).
  - unfold attribute_pending_schemas in H. case_decide; [by simplify_eq|by eapply write_Err].
  - unfold attribute_pending_conflicts in H. destruct (_ || _ || _); [by simplify_eq|by eapply write_Err].
  - unfold store_device_descriptor in H. destruct (storage _); [|by simplify_eq].
    destruct (bool_decide _); [by simplify_eq|by eapply write_Err].
  - unfold store_backend_principal_scope in H. destruct (_ || _); [by simplify_eq|by eapply write_Err].
Qed.
End operations.

(** ** The invariant *)

Section invariant.
Context {St : Structsy} {L : StructsyLaws St}.
Implicit Types (j : @Database St).

Definition revisions {R} (rev : R → Z) (t : table R) : Prop :=
  map_Forall (λ _ r, in_u64 (rev r)) (contents t).

Definition playtime_ok (t : table PlaytimeRecord) : Prop :=
  unique_by playtime_key (contents t) ∧ revisions pr_revision t.
Definition stats_ok (t : table StatsRecord) : Prop :=
  unique_by stats_key (contents t) ∧ revisions tr_revision t.
Definition conflict_ok (t : table ConflictRecord) : Prop :=
  conflict_unique (contents t) ∧ revisions cr_revision t.
Definition device_ok (t : table DeviceRecord) : Prop :=
  unique_by (λ _, tt) (contents t).
Definition principal_ok (t : table BackendPrincipalRecord) : Prop :=
  unique_by br_credential_fingerprint (contents t).

(** One playtime row and one stats row per owner and app, one conflict row per
    scope and app and per event, one device, one scope per credential; every
    revision a [u64]. *)
Record journal_inv j : Prop := {
  inv_playtime : playtime_ok (db_playtime j);
  inv_schema : revisions sr_revision (db_schema j);
  inv_stats : stats_ok (db_stats j);
  inv_conflict : conflict_ok (db_conflict j);
  inv_device : device_ok (db_device j);
  inv_principal : principal_ok (db_principal j);
}.

(** An operation writes one table. *)
Lemma inv_set_playtime j t : journal_inv j → playtime_ok t → journal_inv (set_playtime j t).
Proof. intros []. by split. Qed.
Lemma inv_set_schema j t :
  journal_inv j → revisions sr_revision t → journal_inv (set_schema j t).
Proof. intros []. by split. Qed.
Lemma inv_set_stats j t : journal_inv j → stats_ok t → journal_inv (set_stats j t).
Proof. intros []. by split. Qed.
Lemma inv_set_conflict j t : journal_inv j → conflict_ok t → journal_inv (set_conflict j t).
Proof. intros []. by split. Qed.
Lemma inv_set_device j t : journal_inv j → device_ok t → journal_inv (set_device j t).
Proof. intros []. by split. Qed.
Lemma inv_set_principal j t : journal_inv j → principal_ok t → journal_inv (set_principal j t).
Proof. intros []. by split. Qed.

Lemma revisions_insert {R} (rev : R → Z) (t t' : table R) id r :
  contents t' = <[id := r]> (contents t) → in_u64 (rev r) →
  revisions rev t → revisions rev t'.
Proof. unfold revisions. intros -> Hr Ht. by apply map_Forall_insert_2. Qed.

Lemma revisions_subseteq {R} (rev : R → Z) (t t' : table R) :
  contents t' ⊆ contents t → revisions rev t → revisions rev t'.
Proof. intros Hs Ht id r Hr. eapply Ht, lookup_weaken; eauto. Qed.

Lemma revisions_settle {V R} {J : Journaled V R} (t t' : table R) items :
  contents t' = settle_spec (V := V) (contents t) items →
  revisions jr_revision t → revisions jr_revision t'.
Proof. intros Ht'. apply revisions_subseteq. rewrite Ht'. apply settle_spec_subseteq. Qed.

Lemma revisions_postpone {V R} {J : Journaled V R} {JL : JournaledLaws V R} (t t' : table R) now items :
  contents t' = postpone_spec (V := V) now (contents t) items →
  revisions jr_revision t → revisions jr_revision t'.
Proof.
  unfold revisions, postpone_spec. intros ->. generalize (contents t). clear t t'.
  induction items as [|[id item] items IH]; intros m Hm; [done|]. simpl. apply IH.
  case_match; [|done]. intros k r. rewrite lookup_alter. case_decide; [|by apply Hm].
  intros (r0 & Hr0 & ->)%fmap_Some. unfold postponed. rewrite jr_schedule_revision.
  by eapply Hm.
Qed.

Lemma enqueue_run_revisions es m m' :
  enqueue_run es m m' → map_Forall (λ _ r, in_u64 (pr_revision r)) m →
  map_Forall (λ _ r, in_u64 (pr_revision r)) m'.
Proof.
  induction 1 as [|e es m m1 m2 Hone _ IH]; [done|]. intros Hm. apply IH.
  inversion Hone as [id r Hr Hk|id Hf Hid]; subst; apply map_Forall_insert_2; try done.
  destruct (PlaytimeRecord_merge r e) as [moved r'] eqn:E. apply merge_outcome in E.
  destruct moved; simpl; [destruct E as [-> _]; auto with vapor|].
  subst. by eapply Hm.
Qed.

Lemma update_rows_revisions {R} (rev : R → Z) f rows (t t' : table R) :
  (∀ r, in_u64 (rev (f r))) → (∀ id r, (id, r) ∈ rows → is_Some (contents t !! id)) →
  update_rows rows f t = Ok t' → revisions rev t → revisions rev t'.
Proof.
  intros Hf. revert t. induction rows as [|[id r] rows IH]; intros t Hin H Ht; simpl in H.
  { by simplify_eq. }
  store_inv. apply tx_update_Ok in Hx; [|by eapply Hin; left].
  eapply IH; [|done|by eapply revisions_insert]. intros id' r' Hr'. rewrite Hx.
  apply lookup_insert_is_Some'. right. eapply Hin. by right.
Qed.

(** *** Operations that commit *)

(** A resolution is identified by its event: the same event is never reported
    under two scopes. *)
Definition admissible (op : Operation) j : Prop :=
  match op with
  | EnqueueConflict res _ => ∀ id r, conflict_rows j !! id = Some r →
      cr_event_id r = ce_event_id res → cr_owner_scope r = ce_owner_scope res
  | _ => True
  end.

Lemma enqueue_playtime_inv es n j j' :
  journal_inv j → enqueue_playtime es j = (Ok n, j') → journal_inv j'.
Proof.
  intros Hj (_ & [t ->] & Hrun)%enqueue_playtime_Ok. apply inv_set_playtime; [done|].
  destruct (inv_playtime j Hj) as [Hu Hr].
  split; [by eapply enqueue_run_unique|by eapply enqueue_run_revisions].
Qed.

Lemma enqueue_schema_inv s now j j' :
  journal_inv j → enqueue_schema s now j = (Ok tt, j') → journal_inv j'.
Proof.
  intros Hj H%write_Ok. cbn beta zeta in H. pose proof (inv_schema j Hj) as Hr.
  destruct (fetch_next _ _) as [[id r]|] eqn:E; store_inv.
  - apply fetch_next_Some in E as [E _]. apply tx_update_Ok in Hx; [|by eauto].
    apply inv_set_schema; [done|]. eapply revisions_insert; [done|simpl; auto with vapor|done].
  - destruct x as [id t]. apply tx_insert_Ok in Hx as [_ Ht]. simplify_eq/=.
    apply inv_set_schema; [done|]. eapply revisions_insert; [done|simpl; int_lia|done].
Qed.

Lemma attribute_schemas_inv scope j j' :
  journal_inv j → attribute_pending_schemas scope j = (Ok tt, j') → journal_inv j'.
Proof.
  intros Hj. unfold attribute_pending_schemas. case_decide; [by intros [= <-]|].
  intros H'%write_Ok. store_inv. apply inv_set_schema; [done|].
  eapply update_rows_revisions; [| |done|apply Hj].
  - intros r. simpl. auto with vapor.
  - intros id r [Hr _]%elem_of_fetch. eauto.
Qed.

(** The stats operations: identities by the protocol lemmas, revisions here. *)
Lemma enqueue_stats_inv c j j' :
  journal_inv j → enqueue_stats_commit c j = (Ok tt, j') → journal_inv j'.
Proof.
  intros Hj H. destruct (inv_stats j Hj) as [Hu Hr].
  pose proof (enqueue_stats_commit_Ok c j j' Hu H) as (Hu' & _).
  apply write_Ok in H. cbn beta zeta in H.
  destruct (stats_for _ _ _ _) as [[id r]|] eqn:E; store_inv.
  - apply fetch_next_Some in E as [E _]. apply tx_update_Ok in Hx; [|by eauto].
    apply inv_set_stats; [done|]. split; [done|].
    eapply revisions_insert; [done|simpl; auto with vapor|done].
  - destruct x as [id t]. apply tx_insert_Ok in Hx as [_ Ht]. simplify_eq/=.
    apply inv_set_stats; [done|]. split; [done|].
    eapply revisions_insert; [done|simpl; int_lia|done].
Qed.

Lemma complete_stats_inv s b j j' :
  journal_inv j → complete_stats_snapshot s j = (Ok b, j') → journal_inv j'.
Proof.
  intros Hj H. destruct (inv_stats j Hj) as [Hu Hr].
  pose proof (complete_stats_snapshot_Ok s b j j' Hu H) as (Hu' & _).
  apply write_Ok in H. cbn beta zeta in H.
  destruct (stats_for _ _ _ _) as [[id r]|] eqn:E; [|by simplify_eq].
  case_match; [by simplify_eq|]. store_inv.
  apply fetch_next_Some in E as [E _]. apply tx_update_Ok in Hx; [|by eauto].
  apply inv_set_stats; [done|]. split; [done|].
  eapply revisions_insert; [done|simpl; auto with vapor|done].
Qed.

Lemma reopen_stats_inv item base now b j j' :
  journal_inv j → reopen_stats_commit item base now j = (Ok b, j') → journal_inv j'.
Proof.
  intros Hj H. destruct (inv_stats j Hj) as [Hu Hr].
  pose proof (reopen_stats_commit_Ok item base now b j j' Hu H) as (Hu' & _).
  apply write_Ok in H. store_inv. apply tx_read_Ok in Hx0. symmetry in Hx0.
  destruct x0 as [r|]; [|by simplify_eq]. case_decide; [|by simplify_eq].
  store_inv. apply tx_update_Ok in Hx1; [|by eauto].
  apply inv_set_stats; [done|]. split; [done|].
  eapply revisions_insert; [done|simpl; auto with vapor|done].
Qed.

Lemma delete_rows_revisions {R} (rev : R → Z) (P : Ref * R → Prop) `{∀ p, Decision (P p)} q
    (t t' : table R) :
  delete_rows (filter P (fetch q t)).*1 t = Ok t' → revisions rev t → revisions rev t'.
Proof. intros [Hs _]%delete_fetched_Ok. by apply revisions_subseteq. Qed.

Lemma enqueue_conflict_inv res now j j' :
  journal_inv j → admissible (EnqueueConflict res now) j →
  enqueue_conflict res now j = (Ok tt, j') → journal_inv j'.
Proof.
  intros Hj Ha H. destruct (inv_conflict j Hj) as [Hu Hr].
  pose proof (enqueue_conflict_Ok res now j j' Hu Ha H) as (_ & Hu' & _).
  apply write_Ok in H. cbn beta zeta in H. store_inv.
  apply (delete_rows_revisions cr_revision) in Hx; [|done].
  destruct (fetch_next _ _) as [[id r]|] eqn:E; store_inv.
  - apply fetch_next_Some in E as [E _]. apply tx_update_Ok in Hx0; [|by eauto].
    apply inv_set_conflict; [done|]. split; [done|].
    eapply revisions_insert; [done|simpl; auto with vapor|done].
  - destruct x0 as [id t]. apply tx_insert_Ok in Hx0 as [_ Ht]. simplify_eq/=.
    apply inv_set_conflict; [done|]. split; [done|].
    eapply revisions_insert; [done|simpl; int_lia|done].
Qed.

Lemma attribute_conflicts_inv credential principal j j' :
  journal_inv j → attribute_pending_conflicts credential principal j = (Ok tt, j') →
  journal_inv j'.
Proof.
  intros Hj H. destruct (inv_conflict j Hj) as [Hu Hr].
  destruct (attribute_pending_conflicts_Ok _ _ _ _ Hu H) as ([t ->] & Hu' & Hsame & Hrows).
  destruct (decide (credential = "")) as [?|H1]; [by rewrite Hsame by auto|].
  destruct (decide (principal = "")) as [?|H2]; [by rewrite Hsame by auto|].
  destruct (decide (credential = principal)) as [?|H3]; [by rewrite Hsame by auto|].
  apply inv_set_conflict; [done|]. split; [done|]. intros id s Hs.
  specialize (Hrows H1 H2 H3 id).
  change (conflict_rows (set_conflict j t)) with (contents t) in Hrows. rewrite Hs in Hrows.
  destruct (conflict_rows j !! id) as [r|] eqn:Er; [|done].
  case_decide; [injection Hrows as ->; simpl; auto with vapor|].
  destruct Hrows as [[= ->]|[? _]]; [by eapply Hr|done].
Qed.

Lemma store_device_inv d now b j j' :
  journal_inv j → store_device_descriptor d now j = (Ok b, j') → journal_inv j'.
Proof.
  intros Hj. pose proof (inv_device j Hj) as Hd. unfold store_device_descriptor.
  destruct (storage _) as [rows|] eqn:Er; [|done]. store_inv. apply db_scan_Ok in Er as ->.
  case_match; [by intros [= _ <-]|]. intros H'%write_Ok.
  destruct (scan (db_device j)) as [|[id r] rest] eqn:Es; simpl in H'; store_inv.
  - destruct x as [id t]. apply tx_insert_Ok in Hx as [_ Ht]. simplify_eq/=.
    apply inv_set_device; [done|]. unfold device_ok. rewrite Ht.
    apply unique_by_insert; [|done]. intros k s Hs. apply elem_of_scan in Hs.
    rewrite Es in Hs. set_solver.
  - assert (Hr : contents (db_device j) !! id = Some r)
      by (apply elem_of_scan; rewrite Es; left).
    apply tx_update_Ok in Hx; [|by eauto]. apply inv_set_device; [done|].
    unfold device_ok. rewrite Hx. by eapply unique_by_update.
Qed.

Lemma store_principal_inv f p now j j' :
  journal_inv j → store_backend_principal_scope f p now j = (Ok tt, j') → journal_inv j'.
Proof.
  intros Hj. pose proof (inv_principal j Hj) as Hp. unfold store_backend_principal_scope.
  case_match; [by intros [= <-]|]. intros H'%write_Ok. cbn beta zeta in H'.
  destruct (fetch_next _ _) as [[id r]|] eqn:E; store_inv.
  - apply fetch_next_Some in E as [E Hq]. apply bool_decide_eq_true in Hq.
    apply tx_update_Ok in Hx; [|by eauto]. apply inv_set_principal; [done|].
    unfold principal_ok. rewrite Hx. by eapply unique_by_update.
  - destruct x as [id t]. apply tx_insert_Ok in Hx as [_ Ht]. simplify_eq/=.
    apply inv_set_principal; [done|]. unfold principal_ok. rewrite Ht.
    apply unique_by_insert; [|done]. intros k s Hs _.
    pose proof (fetch_next_None _ _ _ _ E Hs) as Hq. by apply bool_decide_eq_false in Hq.
Qed.

Lemma settle_inv op j j' :
  match op with
  | SettlePlaytime _ | SettleSchemas _ | SettleStats _ | SettleConflicts _ => True
  | _ => False
  end →
  journal_inv j → exec op j = (Ok tt, j') → journal_inv j'.
Proof.
  destruct op; try done; intros _ Hj (ids & t & _ & -> & Ht)%settle_Ok; simpl in *.
  - apply inv_set_playtime; [done|]. destruct (inv_playtime j Hj).
    split; [rewrite Ht; by apply unique_by_settle|by apply (revisions_settle _ _ _ Ht)].
  - apply inv_set_schema; [done|]. apply (revisions_settle _ _ _ Ht), Hj.
  - apply inv_set_stats; [done|]. destruct (inv_stats j Hj).
    split; [rewrite Ht; by apply unique_by_settle|by apply (revisions_settle _ _ _ Ht)].
  - apply inv_set_conflict; [done|]. destruct (inv_conflict j Hj) as [[??] ?].
    split; [split; rewrite Ht; by apply unique_by_settle|by apply (revisions_settle _ _ _ Ht)].
Qed.

Lemma postpone_inv op j j' :
  match op with
  | PostponePlaytime _ _ | PostponeSchemas _ _ | PostponeStats _ _
  | PostponeConflicts _ _ => True
  | _ => False
  end →
  journal_inv j → exec op j = (Ok tt, j') → journal_inv j'.
Proof.
  destruct op; try done; intros _ Hj (ids & t & _ & -> & Ht)%postpone_Ok; simpl in *.
  - apply inv_set_playtime; [done|]. destruct (inv_playtime j Hj).
    split; [rewrite Ht; by apply unique_by_postpone|by apply (revisions_postpone _ _ _ _ Ht)].
  - apply inv_set_schema; [done|]. apply (revisions_postpone _ _ _ _ Ht), Hj.
  - apply inv_set_stats; [done|]. destruct (inv_stats j Hj).
    split; [rewrite Ht; by apply unique_by_postpone|by apply (revisions_postpone _ _ _ _ Ht)].
  - apply inv_set_conflict; [done|]. destruct (inv_conflict j Hj) as [[??] ?].
    split; [split; rewrite Ht; by apply unique_by_postpone|by apply (revisions_postpone _ _ _ _ Ht)].
Qed.

Lemma exec_inv op res j j' :
  journal_inv j → admissible op j → exec op j = (res, j') → journal_inv j'.
Proof.
  intros Hj Ha H. destruct res as [[]|e]; [|by apply exec_Err in H as ->].
  destruct op; try (apply discard_inv in H as ([r|?] & H & Hr); [|discriminate Hr]).
  - by eapply enqueue_playtime_inv.
  - by eapply enqueue_schema_inv.
  - by eapply attribute_schemas_inv.
  - by eapply enqueue_stats_inv.
  - by eapply complete_stats_inv.
  - by eapply reopen_stats_inv.
  - by eapply enqueue_conflict_inv.
  - by eapply attribute_conflicts_inv.
  - by eapply store_device_inv.
  - by eapply store_principal_inv.
  - by eapply (settle_inv (SettlePlaytime _)).
  - by eapply (settle_inv (SettleSchemas _)).
  - by eapply (settle_inv (SettleStats _)).
  - by eapply (settle_inv (SettleConflicts _)).
  - by eapply (postpone_inv (PostponePlaytime _ _)).
  - by eapply (postpone_inv (PostponeSchemas _ _)).
  - by eapply (postpone_inv (PostponeStats _ _)).
  - by eapply (postpone_inv (PostponeConflicts _ _)).
Qed.

(** A call of the journal, whatever it returns. *)
Inductive journal_step j j' : Prop :=
| step_exec op res : admissible op j → exec op j = (res, j') → journal_step j j'.
End invariant.

(** ** Progress: on a storage that does not fail, every operation commits *)

Section progress.
Context {St : Structsy} {L : StructsyLaws St} {T : StructsyTotal St}.
Implicit Types (j : @Database St).

Lemma is_ok_inv {A} (r : result string A) : is_ok r = true → ∃ a, r = Ok a.
Proof. destruct r; [eauto|done]. Qed.

Lemma read_total {R} (t : table R) id : tx_read t id = Ok (contents t !! id).
Proof.
  destruct (is_ok_inv _ (tx_read_total R t id)) as [o Ho].
  by rewrite Ho, (tx_read_Ok _ _ _ _ Ho).
Qed.

Lemma update_total {R} (t : table R) id r :
  is_Some (contents t !! id) → ∃ t', tx_update t id r = Ok t'.
Proof. intros H. apply is_ok_inv. by apply tx_update_total. Qed.

Lemma delete_total {R} (t : table R) id :
  is_Some (contents t !! id) → ∃ t', tx_delete t id = Ok t'.
Proof. intros H. apply is_ok_inv. by apply tx_delete_total. Qed.

Lemma insert_total {R} (t : table R) r : ∃ id t', tx_insert t r = Ok (id, t').
Proof. destruct (is_ok_inv _ (tx_insert_total R t r)) as [[id t'] H]. eauto. Qed.

Lemma write_progress {A} (action : Database → JR (A * Database)) j :
  (∃ p, action j = Ok p) → ∃ out j', write action j = (Ok out, j').
Proof. intros [[out j'] H]. eauto using write_total. Qed.

(** Items whose reference text is one the storage printed. *)
Definition parsable {V} (items : list (Queued V)) : Prop :=
  Forall (λ item, ∃ id, reference item = Ok id) items.

Lemma settle_items_total {V R} (items : list (Queued V)) (rev : R → Z) t :
  parsable items → ∃ t', settle_items items rev t = Ok t'.
Proof.
  intros Hp. revert t. induction Hp as [|item items [id Hid] _ IH]; intros t; simpl; [by eauto|].
  rewrite Hid. simpl. rewrite read_total. simpl.
  destruct (contents t !! id) as [r|] eqn:Hr; [case_decide|]; [|by apply IH..].
  destruct (delete_total t id) as [t1 Ht1]; [by eauto|]. rewrite Ht1. simpl. apply IH.
Qed.

Lemma postpone_items_total {V R} {J : Journaled V R} (items : list (Queued V)) now t :
  parsable items → ∃ t', postpone_items items now t = Ok t'.
Proof.
  intros Hp. revert t. induction Hp as [|item items [id Hid] _ IH]; intros t; simpl; [by eauto|].
  rewrite Hid. simpl. rewrite read_total. simpl.
  destruct (contents t !! id) as [r|] eqn:Hr; [case_decide|]; [|by apply IH..].
  edestruct (update_total t id) as [t1 Ht1]; [by eauto|]. rewrite Ht1. simpl. apply IH.
Qed.

Lemma settle_total {V R} {J : Journaled V R} (items : list (Queued V)) j :
  parsable items → ∃ j', settle items j = (Ok tt, j').
Proof.
  intros Hp. destruct (settle_items_total items jr_revision (jr_table j) Hp) as [t Ht].
  eexists. apply write_total. by rewrite Ht.
Qed.

Lemma postpone_total {V R} {J : Journaled V R} (items : list (Queued V)) now j :
  parsable items → ∃ j', postpone items now j = (Ok tt, j').
Proof.
  intros Hp. destruct (postpone_items_total items now (jr_table j) Hp) as [t Ht].
  eexists. apply write_total. by rewrite Ht.
Qed.

Lemma enqueue_entries_total es t : ∃ t', enqueue_playtime_entries es t = Ok t'.
Proof.
  revert t; induction es as [|e es IH]; intros t; simpl; [by eauto|].
  destruct (fetch_next _ t) as [[id r]|] eqn:E.
  - apply fetch_next_Some in E as [Hr _].
    destruct (PlaytimeRecord_merge r e) as [[] r']; [|apply IH].
    edestruct (update_total t id) as [t1 ->]; [by eauto|]. apply IH.
  - destruct (insert_total t (PlaytimeRecord_new e)) as (id & t1 & ->). apply IH.
Qed.

Lemma update_rows_total {R} rows (f : R → R) t :
  (∀ id r, (id, r) ∈ rows → is_Some (contents t !! id)) → ∃ t', update_rows rows f t = Ok t'.
Proof.
  revert t; induction rows as [|[id r] rows IH]; intros t Hin; simpl; [by eauto|].
  destruct (update_total t id (f r)) as [t1 Ht1]; [by eapply Hin; left|]. rewrite Ht1. simpl.
  apply IH. intros id' r' Hr'. rewrite (tx_update_Ok _ _ _ _ _ (Hin id r ltac:(left)) Ht1).
  apply lookup_insert_is_Some'. right. eapply Hin. by right.
Qed.

Lemma delete_rows_total {R} ids (t : table R) :
  NoDup ids → (∀ id, id ∈ ids → is_Some (contents t !! id)) → ∃ t', delete_rows ids t = Ok t'.
Proof.
  intros Hnd. revert t; induction Hnd as [|id ids Hni _ IH]; intros t Hin; simpl; [by eauto|].
  destruct (delete_total t id) as [t1 Ht1]; [apply Hin; left|]. rewrite Ht1. simpl.
  apply IH. intros id' Hid'. rewrite (tx_delete_Ok _ _ _ _ (Hin id ltac:(left)) Ht1).
  rewrite lookup_delete_ne by set_solver. apply Hin. by right.
Qed.

Lemma delete_fetched_total {R} (P : Ref * R → Prop) `{∀ p, Decision (P p)} q (t : table R) :
  ∃ t', delete_rows (filter P (fetch q t)).*1 t = Ok t'.
Proof.
  apply delete_rows_total.
  - eapply sublist_NoDup; [apply (fetch_NoDup q t)|]. apply fmap_sublist, sublist_filter.
  - intros id ([k r] & -> & [_ [Hr _]%elem_of_fetch]%list_elem_of_filter)%list_elem_of_fmap.
    simpl. eauto.
Qed.

Lemma attribute_rows_total credential principal staged (t : table ConflictRecord) :
  credential ≠ principal → NoDup staged.*1 →
  (∀ id r, (id, r) ∈ staged → contents t !! id = Some r ∧ cr_owner_scope r = credential) →
  conflict_unique (contents t) →
  ∃ t', attribute_conflict_rows principal staged t = Ok t'.
Proof.
  intros Hcp. revert t; induction staged as [|[id r] staged IH]; intros t Hnd Hst Hu; simpl.
  { by eauto. }
  apply NoDup_cons in Hnd as [Hni Hnd]. destruct (Hst id r) as [Hr Hscope]; [left|].
  destruct (delete_fetched_total (λ _, True) (conflict_for_app principal (cr_app_id r)) t)
    as [t1 Ht1]. rewrite filter_True in Ht1. rewrite Ht1. simpl.
  assert (Hid1 : is_Some (contents t1 !! id)).
  { pose proof Ht1 as Hd. rewrite <-(filter_True (fetch _ t)) in Hd.
    apply delete_fetched_Ok in Hd as [_ Hdel]. rewrite (Hdel id r Hr).
    rewrite bool_decide_eq_false_2; [by eauto|]. intros [Hq%conflict_for_app_spec _].
    unfold conflict_app_key in Hq. congruence. }
  destruct (update_total t1 id (conflict_attributed principal r) Hid1) as [t2 Ht2].
  rewrite Ht2. simpl.
  destruct (attribute_row_Ok principal id r t t1 t2) as (Hu2 & _ & Hk2 & _);
    [done|done|congruence|done|done|].
  apply IH; [done| |done]. intros k s Hin. destruct (Hst k s) as [Hs Hsc]; [by right|].
  split; [|done]. apply Hk2; [done| |unfold conflict_app_key; congruence].
  intros ->. apply Hni, list_elem_of_fmap. by exists (id, s).
Qed.

(** The arguments an operation needs to find its rows. *)
Definition well_referenced (op : Operation) : Prop :=
  match op with
  | ReopenStatsCommit item _ _ => parsable [item]
  | SettlePlaytime items | PostponePlaytime items _ => parsable items
  | SettleSchemas items | PostponeSchemas items _ => parsable items
  | SettleStats items | PostponeStats items _ => parsable items
  | SettleConflicts items | PostponeConflicts items _ => parsable items
  | _ => True
  end.

(** Add a row, or rewrite the row a query found. *)
Lemma upsert_total {R A} (q : R → bool) (t : table R) (f : R → R) (r : R) (k : table R → A) :
  ∃ a, match fetch_next q t with
       | Some (id, stored) => t' ← storage (tx_update t id (f stored)); Ok (k t')
       | None => '(_, t') ← storage (tx_insert t r); Ok (k t')
       end = Ok a.
Proof.
  destruct (fetch_next q t) as [[id s]|] eqn:E.
  - apply fetch_next_Some in E as [Hs _].
    edestruct (update_total t id (f s)) as [t1 ->]; [by eauto|]. simpl. eauto.
  - destruct (insert_total t r) as (id & t1 & ->). simpl. eauto.
Qed.

Lemma write_unit_total (action : Database → JR (unit * Database)) j :
  (∃ p, action j = Ok p) → ∃ j', write action j = (Ok tt, j').
Proof. intros ([] & j' & H)%write_progress. eauto. Qed.

Lemma discard_total {A} (p : JR A * @Database St) :
  (∃ out j', p = (Ok out, j')) → ∃ j', discard p = (Ok tt, j').
Proof. intros (out & j' & ->). unfold discard. simpl. eauto. Qed.

Lemma stats_ops_total op j :
  match op with
  | CompleteStatsSnapshot _ | ReopenStatsCommit _ _ _ => True | _ => False
  end →
  well_referenced op → ∃ j', exec op j = (Ok tt, j').
Proof.
  destruct op as [| | | |snap|item base now| | | | | | | | | | | |]; try done;
    intros _ Hw; simpl; apply discard_total, write_progress.
  - destruct (stats_for _ _ _ _) as [[id r]|] eqn:E; [|by eauto].
    apply fetch_next_Some in E as [Hr _]. case_match; [by eauto|].
    edestruct (update_total (db_stats j) id) as [t ->]; [by eauto|]. simpl. eauto.
  - inversion Hw as [|? ? [id Hid] _]; subst. rewrite Hid. simpl. rewrite read_total. simpl.
    destruct (contents (db_stats j) !! id) as [r|] eqn:Hr; [case_decide|]; [|by eauto..].
    edestruct (update_total (db_stats j) id) as [t ->]; [by eauto|]. simpl. eauto.
Qed.

Lemma conflict_ops_total op j :
  match op with
  | EnqueueConflict _ _ | AttributePendingConflicts _ _ => True | _ => False
  end →
  journal_inv j → ∃ j', exec op j = (Ok tt, j').
Proof.
  destruct op as [| | | | | |res now|credential principal| | | | | | | | | |]; try done;
    intros _ Hj; simpl.
  - apply write_unit_total. cbn beta zeta.
    destruct (delete_fetched_total (λ p, cr_event_id p.2 ≠ ce_event_id res)
      (conflict_for_app (ce_owner_scope res) (ce_app_id res)) (db_conflict j)) as [t Ht].
    rewrite Ht. apply upsert_total.
  - unfold attribute_pending_conflicts. repeat case_bool_decide; simpl; try by eauto.
    apply write_unit_total.
    destruct (attribute_rows_total credential principal
      (fetch (conflict_scoped credential) (db_conflict j)) (db_conflict j)) as [t ->];
      [done|apply fetch_NoDup| |apply Hj|by eauto].
    intros id r. rewrite elem_of_fetch. unfold conflict_scoped.
    by rewrite bool_decide_eq_true.
Qed.

Lemma device_total d now j : ∃ j', exec (StoreDeviceDescriptor d now) j = (Ok tt, j').
Proof.
  simpl. apply discard_total. unfold store_device_descriptor.
  destruct (is_ok_inv _ (db_scan_total _ (db_device j))) as [l Hl].
  rewrite Hl. simpl. apply db_scan_Ok in Hl as ->. case_match; [by eauto|].
  apply write_progress. destruct (scan (db_device j)) as [|[id r] l] eqn:E; simpl.
  - edestruct (insert_total (db_device j)) as (id & t & ->). simpl. eauto.
  - edestruct (update_total (db_device j) id) as [t ->]; [|by simpl; eauto].
    exists r. apply elem_of_scan. rewrite E. left.
Qed.

Lemma exec_total op j :
  journal_inv j → well_referenced op → ∃ j', exec op j = (Ok tt, j').
Proof.
  intros Hj Hw. destruct op; try (by apply stats_ops_total); try (by apply conflict_ops_total);
    try (by apply settle_total); try (by apply postpone_total); simpl.
  - apply discard_total, write_progress.
    destruct (enqueue_entries_total entries (db_playtime j)) as [t ->]. simpl. eauto.
  - apply write_unit_total, upsert_total.
  - unfold attribute_pending_schemas. case_decide; [by eauto|]. apply write_unit_total.
    edestruct (update_rows_total (fetch (schema_scoped "") (db_schema j))) as [t Ht];
      [|by rewrite Ht; simpl; eauto].
    intros id r [Hr _]%elem_of_fetch. eauto.
  - apply write_unit_total. cbn beta zeta.
    apply (upsert_total _ (db_stats j) (λ stored, stats_with_revision (StatsRecord_new commit)
      (u64_wrapping_add (tr_revision stored) 1))).
  - apply device_total.
  - unfold store_backend_principal_scope. case_match; [by eauto|].
    apply write_unit_total. cbn beta zeta. apply (upsert_total _ (db_principal j) (λ _, _)).
Qed.
End progress.

(** ** Theorems *)

(** [enqueue_conflict_supersedes]: a committed resolution is the only one of its scope
    and app, whatever earlier events the app had; resolutions of other apps and
    events are untouched. *)
Theorem enqueue_conflict_supersedes {St : Structsy} {L : StructsyLaws St} res now j j'
    (Hu : conflict_unique (conflict_rows j))
    (Hfresh : admissible (EnqueueConflict res now) j)
    (H : enqueue_conflict res now j = (Ok tt, j')) :
  conflict_unique (conflict_rows j') ∧
  (∃ id r, conflict_rows j' !! id = Some r ∧ ConflictRecord_value r = res ∧
     ∀ k s, conflict_rows j' !! k = Some s →
       conflict_app_key s = (ce_owner_scope res, ce_app_id res) → k = id) ∧
  (∀ k s, conflict_rows j !! k = Some s →
     conflict_app_key s ≠ (ce_owner_scope res, ce_app_id res) →
     cr_event_id s ≠ ce_event_id res → conflict_rows j' !! k = Some s).
Proof. by apply enqueue_conflict_Ok in H as (_ & ? & ? & ?). Qed.

(** [attribute_conflicts_spec]: once a credential's principal is known, every
    resolution staged under the credential moves to the principal, in place and at
    a new revision, superseding what the principal had for the same app; nothing
    stays under the credential and no other row changes. *)
Theorem attribute_conflicts_spec {St : Structsy} {L : StructsyLaws St}
    credential principal j j'
    (Hu : conflict_unique (conflict_rows j))
    (Hc : credential ≠ "") (Hp : principal ≠ "") (Hne : credential ≠ principal)
    (H : attribute_pending_conflicts credential principal j = (Ok tt, j')) :
  conflict_unique (conflict_rows j') ∧
  (∀ id r, conflict_rows j' !! id = Some r → cr_owner_scope r ≠ credential) ∧
  (∀ id, match conflict_rows j !! id with
   | Some r =>
       if decide (cr_owner_scope r = credential)
       then conflict_rows j' !! id = Some (conflict_attributed principal r)
       else
         conflict_rows j' !! id = Some r ∨
         (conflict_rows j' !! id = None ∧ cr_owner_scope r = principal ∧
          ∃ k s, conflict_rows j !! k = Some s ∧
                 conflict_app_key s = (credential, cr_app_id r))
   | None => conflict_rows j' !! id = None
   end).
Proof.
  apply attribute_pending_conflicts_Ok in H as (_ & Hu' & _ & Hrows); [|done].
  specialize (Hrows Hc Hp Hne). split; [done|]. split; [|done].
  intros id s Hs. specialize (Hrows id). rewrite Hs in Hrows.
  destruct (conflict_rows j !! id) as [r|]; [|done].
  case_decide; [injection Hrows as ->; simpl; congruence|].
  destruct Hrows as [[= ->]|[? _]]; done.
Qed.

(** [journal_atomic]: an operation that reports an error has not changed the
    journal. *)
Theorem journal_atomic {St : Structsy} op e j j'
    (H : exec op j = (Err e, j')) : j' = j.
Proof. by apply exec_Err in H. Qed.


(** [journal_progress]: when the storage does not fail, every operation on a journal
    that satisfies the invariant commits. *)
Theorem journal_progress {St : Structsy} {L : StructsyLaws St} {T : StructsyTotal St} op j
    (Hj : journal_inv j) (Hw : well_referenced op) :
  ∃ j', exec op j = (Ok tt, j').
Proof. by apply exec_total. Qed.
