(* ===== verification/JournalExamples.v ===== *)
(** * JournalExamples: the journal's theorems on concrete databases

    A small in-memory journal on which every theorem about the outbox applies, and a
    concrete run that shows what [attribute_pending_schemas] does to schemas staged
    before the backend's scope was known. *)

From Stdlib Require Import ZArith Lia.
From S2P Require Import Prelude CloudCore Storage JournalRecord SyncJournal JournalProofs.
From S2P Require Import JournalStats JournalInvariant.

Local Open Scope Z_scope.

(** ** Sample data *)

Definition empty_journal : @Database MemStructsy :=
  {| db_playtime := (∅ : gmap string _); db_schema := (∅ : gmap string _);
     db_stats := (∅ : gmap string _); db_conflict := (∅ : gmap string _);
     db_device := (∅ : gmap string _); db_principal := (∅ : gmap string _) |}.

Lemma empty_journal_inv : journal_inv empty_journal.
Proof.
  assert (Hu : ∀ R K (key : R → K), unique_by key (contents (S := MemStructsy) (∅ : gmap string R)))
    by (intros; rewrite mem_contents; apply unique_by_empty).
  assert (Hr : ∀ R (rev : R → Z), revisions (St := MemStructsy) rev (∅ : gmap string R))
    by (intros; unfold revisions; rewrite mem_contents; apply map_Forall_empty).
  split; simpl; [by split|done|by split|by split; [split|]|apply Hu..].
Qed.

Definition sample_entry (minutes observed : Z) : PlaytimeEntry :=
  {| pe_owner_scope := "scope"; pe_owner_steam_id64 := "765"; pe_app_id := 10;
     pe_playtime_minutes := minutes; pe_playtime_2weeks_minutes := 3;
     pe_last_played_at := Some observed; pe_observed_at := observed |}.

Definition sample_commit (id : string) : StatsCommit :=
  {| sc_owner_scope := "scope"; sc_owner_steam_id64 := "765"; sc_commit_id := id;
     sc_app_id := 10; sc_base_crc_stats := Some 7; sc_dirty_stat_ids := [1];
     sc_observed_at := 100 |}.

Definition sample_snapshot (id : string) : SteamAppSnapshot :=
  {| ss_owner_scope := "scope"; ss_owner_steam_id64 := "765"; ss_commit_id := id;
     ss_app_id := 10; ss_base_crc_stats := None; ss_dirty_stat_ids := [];
     ss_achievements := []; ss_stats := []; ss_observed_at := 120 |}.

Definition sample_conflict (scope event : string) (app : Z) : ConflictResolutionEvent :=
  {| ce_owner_scope := scope; ce_event_id := event; ce_app_id := app;
     ce_base_change_number := 1; ce_remote_change_number := 2;
     ce_resolution := "kept_cloud"; ce_machine_name := None |}.

Definition run (ops : list Operation) (j : @Database MemStructsy) : @Database MemStructsy :=
  foldl (λ j op, (exec op j).2) j ops.

Definition playtime_journal := run [EnqueuePlaytime [sample_entry 5 100]] empty_journal.
Definition stats_journal := run [EnqueueStatsCommit (sample_commit "c1")] empty_journal.
Definition ready_journal := run [CompleteStatsSnapshot (sample_snapshot "c1")] stats_journal.
Definition conflict_journal :=
  run [EnqueueConflict (sample_conflict "credential" "e1" 10) 50] empty_journal.

(** The state a call leaves behind, given what it returned. *)
Lemma call_pair {A D} (p : A * D) (a : A) : p.1 = a → p = (a, p.2).
Proof. by destruct p as [a' d]; simpl; intros ->. Qed.

Lemma run_inv op j : journal_inv j → admissible op j → journal_inv (run [op] j).
Proof.
  intros Hj Ha. unfold run. simpl.
  destruct (exec op j) as [res j'] eqn:E. by eapply exec_inv.
Qed.

Lemma playtime_journal_inv : journal_inv playtime_journal.
Proof. by apply run_inv; [apply empty_journal_inv|]. Qed.
Lemma stats_journal_inv : journal_inv stats_journal.
Proof. by apply run_inv; [apply empty_journal_inv|]. Qed.
Lemma ready_journal_inv : journal_inv ready_journal.
Proof. by apply run_inv; [apply stats_journal_inv|]. Qed.
Lemma conflict_journal_inv : journal_inv conflict_journal.
Proof. by apply run_inv; [apply empty_journal_inv|]. Qed.

Definition playtime_item : Queued PlaytimeEntry :=
  {| q_value := sample_entry 5 100; q_id := "r"; q_revision := 0 |}.
Definition stats_item : Queued SteamAppSnapshot :=
  {| q_value := complete_with (sample_commit "c1") (sample_snapshot "c1");
     q_id := "r"; q_revision := 1 |}.

Definition rejecting_journal :=
  (complete_stats_snapshot (sample_snapshot "c0") stats_journal).2.
Definition completed_journal :=
  (complete_stats_snapshot (sample_snapshot "c1") rejecting_journal).2.
Definition reopened_journal :=
  (reopen_stats_commit stats_item (Some 9) 130 completed_journal).2.

(** ** Witnesses *)

Lemma retry_delay_spec_witness : retry_delay 3 = 8 ∧ retry_delay (3 + 1) = 2 * retry_delay 3.
Proof. split; [reflexivity|]. apply (retry_delay_spec 3). lia. Defined.

Definition sample_record : PlaytimeRecord := PlaytimeRecord_new (sample_entry 5 100).

Lemma playtime_merge_order_independent_witness :
  pr_playtime_minutes (merge_all sample_record [sample_entry 9 110; sample_entry 7 120]) =
  pr_playtime_minutes (merge_all sample_record [sample_entry 7 120; sample_entry 9 110]).
Proof.
  apply (playtime_merge_order_independent sample_record
    [sample_entry 9 110; sample_entry 7 120] [sample_entry 7 120; sample_entry 9 110]).
  apply Permutation_swap.
Defined.

Lemma uuid_from_digest_spec_witness :
  looks_like_uuid (uuid_from_digest (replicate 32 200) 4) = true.
Proof.
  apply (uuid_from_digest_spec (replicate 32 200) 4); [simpl; lia| |lia].
  apply Forall_replicate. int_lia.
Defined.

Lemma acknowledge_exact_witness :
  ∃ id t', reference playtime_item = Ok id ∧
    (acknowledge playtime_item playtime_journal).2 = set_playtime playtime_journal t' ∧
    contents t' =
      if settles (contents (db_playtime playtime_journal)) playtime_item id
      then delete id (contents (db_playtime playtime_journal))
      else contents (db_playtime playtime_journal).
Proof.
  apply (acknowledge_exact (J := journaled_playtime) playtime_item playtime_journal).
  apply call_pair. vm_compute. reflexivity.
Defined.

Lemma defer_schedules_witness :
  ∃ id t', reference playtime_item = Ok id ∧
    (defer playtime_item 1000 playtime_journal).2 = set_playtime playtime_journal t' ∧
    dom (contents t') = dom (contents (db_playtime playtime_journal)).
Proof.
  destruct (defer_schedules (J := journaled_playtime) playtime_item 1000 playtime_journal
    (defer playtime_item 1000 playtime_journal).2) as (id & t' & ? & ? & ? & _).
  - int_lia.
  - apply call_pair. vm_compute. reflexivity.
  - exists id, t'. auto.
Defined.

Lemma enqueue_playtime_spec_witness :
  unique_by playtime_key
    (playtime_rows (enqueue_playtime [sample_entry 9 110] playtime_journal).2).
Proof.
  apply (enqueue_playtime_spec [sample_entry 9 110] playtime_journal 1).
  - apply playtime_journal_inv.
  - apply call_pair. vm_compute. reflexivity.
Defined.

Lemma pending_playtime_spec_witness :
  (length (pending_playtime "scope" "765" 500 playtime_journal) ≤ 500)%nat.
Proof. apply (pending_playtime_spec "scope" "765" 500 playtime_journal). Defined.

Lemma inflight_update_survives_witness :
  ∃ id r r1, reference playtime_item = Ok id ∧
    playtime_rows playtime_journal !! id = Some r ∧
    r1 = merge_all r (filter (λ e, entry_key e = playtime_key r) [sample_entry 9 110]).
Proof.
  destruct (inflight_update_survives "scope" "765" 500 [sample_entry 9 110] 1 playtime_item
    playtime_journal (enqueue_playtime [sample_entry 9 110] playtime_journal).2
    (acknowledge playtime_item (enqueue_playtime [sample_entry 9 110] playtime_journal).2).2)
    as (id & r & r1 & ? & _ & ? & _ & ? & _).
  - apply playtime_journal_inv.
  - intros id r Hr. by apply playtime_journal_inv in Hr.
  - simpl. lia.
  - vm_compute. left.
  - apply call_pair. vm_compute. reflexivity.
  - apply call_pair. vm_compute. reflexivity.
  - exists id, r, r1. auto.
Defined.

Lemma stats_protocol_refinement_witness :
  trace stats_spec
    [EvCommit (sample_commit "c1"); EvComplete (sample_snapshot "c0") false;
     EvComplete (sample_snapshot "c1") true; EvReopen stats_item (Some 9) 130 true;
     EvAck stats_item]
    (slots empty_journal) (slots (acknowledge stats_item reopened_journal).2).
Proof.
  apply stats_protocol_refinement; [apply empty_journal_inv|].
  apply trace_cons with stats_journal; [constructor; apply call_pair; vm_compute; reflexivity|].
  apply trace_cons with rejecting_journal;
    [constructor; apply call_pair; vm_compute; reflexivity|].
  apply trace_cons with completed_journal;
    [constructor; apply call_pair; vm_compute; reflexivity|].
  apply trace_cons with reopened_journal;
    [constructor; apply call_pair; vm_compute; reflexivity|].
  eapply trace_cons; [constructor; apply call_pair; vm_compute; reflexivity|constructor].
Defined.

Lemma complete_stats_snapshot_spec_witness :
  phase ready_journal (snap_key (sample_snapshot "c1")) =
    Some (Completed (complete_with (sample_commit "c1") (sample_snapshot "c1"))).
Proof.
  apply (complete_stats_snapshot_spec (sample_snapshot "c1") true stats_journal ready_journal).
  - apply stats_journal_inv.
  - apply call_pair. vm_compute. reflexivity.
  - reflexivity.
  - vm_compute. reflexivity.
Defined.

Lemma superseded_snapshot_kept_witness :
  phase (acknowledge stats_item (enqueue_stats_commit (sample_commit "c2") ready_journal).2).2
    (commit_key (sample_commit "c2")) = Some (Awaiting (sample_commit "c2")).
Proof.
  apply (superseded_snapshot_kept "scope" "765" 500 stats_item (sample_commit "c2")
    ready_journal (enqueue_stats_commit (sample_commit "c2") ready_journal).2).
  - apply ready_journal_inv.
  - intros id r Hr. by apply ready_journal_inv in Hr.
  - vm_compute. left.
  - apply call_pair. vm_compute. reflexivity.
  - apply call_pair. vm_compute. reflexivity.
Defined.

Lemma enqueue_conflict_supersedes_witness :
  conflict_unique (conflict_rows
    (enqueue_conflict (sample_conflict "credential" "e2" 10) 60 conflict_journal).2).
Proof.
  apply (enqueue_conflict_supersedes (sample_conflict "credential" "e2" 10) 60
    conflict_journal).
  - apply conflict_journal_inv.
  - intros id r Hr Hev. unfold conflict_rows in Hr. rewrite mem_contents in Hr.
    apply elem_of_map_to_list in Hr. vm_compute in Hr.
    apply list_elem_of_singleton in Hr. simplify_eq/=.
  - apply call_pair. vm_compute. reflexivity.
Defined.

Lemma attribute_conflicts_spec_witness :
  conflict_unique (conflict_rows
    (attribute_pending_conflicts "credential" "principal" conflict_journal).2).
Proof.
  apply (attribute_conflicts_spec "credential" "principal" conflict_journal); try discriminate.
  - apply conflict_journal_inv.
  - apply call_pair. vm_compute. reflexivity.
Defined.

(** An item whose reference text the storage cannot parse fails the whole call: a
    storage that knows no references. *)
#[refine] Instance DeadStructsy : Structsy := {|
  Ref := string; ref_to_string := id; ref_parse := λ _, None; table := gmap string;
  scan := λ R t, map_to_list t; db_scan := λ R t, Err "closed";
  tx_read := λ R t i, Err "closed"; tx_insert := λ R t r, Err "closed";
  tx_update := λ R t i r, Err "closed"; tx_delete := λ R t i, Err "closed";
  db_begin := λ D d, Ok d; tx_commit := λ D d, Ok d;
|}.
Proof. Defined.

Definition dead_journal : @Database DeadStructsy :=
  {| db_playtime := (∅ : gmap string _); db_schema := (∅ : gmap string _);
     db_stats := (∅ : gmap string _); db_conflict := (∅ : gmap string _);
     db_device := (∅ : gmap string _); db_principal := (∅ : gmap string _) |}.

Lemma journal_atomic_witness :
  (exec (EnqueuePlaytime [sample_entry 5 100]) dead_journal).2 = dead_journal.
Proof.
  apply (journal_atomic (EnqueuePlaytime [sample_entry 5 100]) (StorageError "closed")).
  apply call_pair. vm_compute. reflexivity.
Defined.


Lemma journal_progress_witness :
  ∃ j', exec (SettlePlaytime [playtime_item]) playtime_journal = (Ok tt, j').
Proof.
  apply (journal_progress (SettlePlaytime [playtime_item]) playtime_journal).
  - apply playtime_journal_inv.
  - constructor; [by exists "r"|constructor].
Defined.

(** ** Two behaviours the code's own comments do not describe *)

Definition sample_schema (scope : string) : AchievementSchema :=
  {| as_owner_scope := scope; as_app_id := 10; as_language := "english";
     as_schema_version := None; as_content := [1] |}.

(** A schema staged before the backend's scope was known, then the same schema again
    under the scope, then the attribution. *)
Definition schema_journal :=
  run [EnqueueSchema (sample_schema "") 10; EnqueueSchema (sample_schema "scope") 20;
       AttributePendingSchemas "scope"] empty_journal.

(** Attribution does not look for a row of the target scope: the journal then holds
    two schemas of the same scope, app and language, and uploads both. *)
Theorem attribute_schemas_duplicates :
  ¬ unique_by (λ r, (sr_owner_scope r, sr_app_id r, sr_language r))
      (contents (db_schema schema_journal)) ∧
  length (pending_schemas 100 "scope" schema_journal) = 2%nat.
Proof.
  split; [|by vm_compute]. intros Hu.
  assert (Hl : ∀ k, contents (db_schema schema_journal) !! k = (db_schema schema_journal : gmap string _) !! k)
    by (intros k; by rewrite mem_contents).
  destruct ((db_schema schema_journal : gmap string _) !! "r") as [r|] eqn:E1;
    [|by vm_compute in E1].
  destruct ((db_schema schema_journal : gmap string _) !! "r0") as [s|] eqn:E2;
    [|by vm_compute in E2].
  enough ("r" = "r0") by done. eapply (Hu "r" "r0" r s); [by rewrite Hl|by rewrite Hl|].
  vm_compute in E1, E2. by simplify_eq.
Qed.

Definition observation (two_weeks observed : Z) : PlaytimeEntry :=
  {| pe_owner_scope := "scope"; pe_owner_steam_id64 := "765"; pe_app_id := 10;
     pe_playtime_minutes := 5; pe_playtime_2weeks_minutes := two_weeks;
     pe_last_played_at := None; pe_observed_at := observed |}.

(** A re-observation of identical values leaves [observed_at] behind, so a counter
    read before it and delivered after it replaces the newer one. *)
Theorem stale_two_weeks_wins :
  let stored := PlaytimeRecord_new (observation 60 100) in
  pr_playtime_2weeks_minutes (merge_all stored [observation 60 300; observation 0 200]) = 0 ∧
  pr_playtime_2weeks_minutes (merge_all stored [observation 0 200; observation 60 300]) = 60.
Proof. by vm_compute. Qed.
