(* ===== verification/FileSystem.v ===== *)
(** * FileSystem: the file system under the folder backend

    The file system is a tree of nodes; a call of [std::fs] is a function on the tree
    that may be refused, run in a state and error monad whose host can also fail any
    call for reasons of its own ([fault]).

    Files are values: the sources never write to a file that has been linked into
    place, so a hard link and a copy are the same. The tree has no symbolic links, and
    [Path::exists] answers truthfully. *)

From Stdlib Require Import ZArith Lia.
From S2P Require Import Prelude RustStd CloudCore.

Local Open Scope Z_scope.

(** ** The tree *)

(** [Special]: a socket, a pipe or a device. *)
Inductive Node :=
| File (contents : list Z)
| Dir (entries : gmap string Node)
| Special.

Lemma Dir_inj es es' : Dir es = Dir es' → es = es'.
Proof. by intros [= ->]. Qed.

(** A path from the root of the tree, by its components. *)
Notation Path := (list string).

Fixpoint get (p : Path) (n : Node) : option Node :=
  match p with
  | [] => Some n
  | c :: p =>
      match n with
      | Dir es => match es !! c with Some n' => get p n' | None => None end
      | _ => None
      end
  end.

(** The tree with the node at [p] replaced or removed; only entries of existing
    directories can be. *)
Fixpoint put (p : Path) (v : option Node) (n : Node) : Node :=
  match p, n with
  | [c], Dir es => Dir (partial_alter (λ _, v) c es)
  | c :: p, Dir es =>
      match es !! c with Some n' => Dir (<[c := put p v n']> es) | None => n end
  | _, _ => n
  end.

Definition parent (p : Path) : Path := removelast p.

Definition is_dir (n : option Node) : bool :=
  match n with Some (Dir _) => true | _ => false end.
Definition is_file (n : option Node) : bool :=
  match n with Some (File _) => true | _ => false end.

(** Neither path leads to the other. *)
Definition apart (p q : Path) : Prop := ¬ p `prefix_of` q ∧ ¬ q `prefix_of` p.

Lemma get_app p q n : get (p ++ q) n = get p n ≫= get q.
Proof.
  revert n. induction p as [|c p IH]; intros n; [done|]. destruct n as [b|es|]; simpl; [done| |done].
  destruct (es !! c); [apply IH|done].
Qed.

Lemma get_snoc p c n :
  get (p ++ [c]) n = match get p n with Some (Dir es) => es !! c | _ => None end.
Proof.
  rewrite get_app. destruct (get p n) as [[b|es|]|]; simpl; [done| |done..]. by destruct (es !! c).
Qed.

Lemma put_cons c d p v es :
  put (c :: d :: p) v (Dir es) =
    match es !! c with Some n' => Dir (<[c := put (d :: p) v n']> es) | None => Dir es end.
Proof. done. Qed.

Lemma get_put_snoc p c es v n :
  get p n = Some (Dir es) →
  get p (put (p ++ [c]) v n) = Some (Dir (partial_alter (λ _, v) c es)).
Proof.
  revert n. induction p as [|d p IH]; intros n Hp.
  - simpl in *. by injection Hp as ->.
  - destruct n as [b|es'|]; simpl in Hp; [done| |done].
    destruct (es' !! d) as [n'|] eqn:Hd; [|done].
    destruct (p ++ [c]) as [|x q] eqn:Hq; [by destruct p|].
    change ((d :: p) ++ [c]) with (d :: (p ++ [c])). rewrite Hq, put_cons, Hd. simpl.
    rewrite lookup_insert_eq. by apply IH.
Qed.

(** Reading at or below the node that was put in place. *)
Lemma get_put_below p c q es v n :
  get p n = Some (Dir es) →
  get (p ++ c :: q) (put (p ++ [c]) v n) = v ≫= get q.
Proof.
  intros Hp. rewrite get_app, (get_put_snoc _ _ _ _ _ Hp). simpl.
  rewrite lookup_partial_alter_eq. by destruct v.
Qed.

Lemma get_put_eq p c es v n :
  get p n = Some (Dir es) → get (p ++ [c]) (put (p ++ [c]) v n) = v.
Proof. intros Hp. rewrite (get_put_below p c [] es v n Hp). by destruct v. Qed.

(** Reading elsewhere. *)
Lemma get_put_apart p q v n : apart p q → get q (put p v n) = get q n.
Proof.
  revert q n. induction p as [|c p IH]; intros q n [H1 H2].
  { destruct H1. by exists q. }
  destruct n as [b|es|]; [by destruct p..| |by destruct p].
  destruct q as [|d q].
  { destruct H2. by exists (c :: p). }
  destruct (decide (c = d)) as [->|Hne].
  - assert (Ha : apart p q).
    { split; intros [k ->]; [apply H1|apply H2]; by exists k. }
    destruct p as [|e p].
    { destruct Ha as [Ha _]. destruct Ha. by exists q. }
    rewrite put_cons. destruct (es !! d) as [n'|] eqn:Hd; simpl; rewrite ?Hd; [|done].
    rewrite lookup_insert_eq. by apply IH.
  - destruct p as [|e p].
    + simpl. by rewrite lookup_partial_alter_ne.
    + rewrite put_cons. destruct (es !! c); simpl; [|done]. by rewrite lookup_insert_ne.
Qed.

(** Reading a directory above the node that was put in place. *)
Lemma get_put_above p c r v n :
  get p (put (p ++ c :: r) v n) = put (c :: r) v <$> get p n.
Proof.
  revert n. induction p as [|d p IH]; intros n; [done|].
  destruct n as [b|es|]; [by simpl; destruct (p ++ c :: r)| |by simpl; destruct (p ++ c :: r)].
  change ((d :: p) ++ c :: r) with (d :: (p ++ c :: r)).
  destruct (p ++ c :: r) as [|x q] eqn:Hq; [by destruct p|]. rewrite put_cons.
  destruct (es !! d) as [n'|] eqn:Hd; simpl; rewrite ?Hd, ?lookup_insert_eq; [|done].
  apply IH.
Qed.

Lemma put_parent_absent p c v n :
  (∀ es, get p n ≠ Some (Dir es)) → put (p ++ [c]) v n = n.
Proof.
  revert n. induction p as [|d p IH]; intros n Hp.
  - destruct n; [done| |done]. by destruct (Hp entries).
  - destruct n as [b|es|]; [by simpl; destruct (p ++ [c])| |by simpl; destruct (p ++ [c])].
    change ((d :: p) ++ [c]) with (d :: (p ++ [c])).
    destruct (p ++ [c]) as [|x q] eqn:Hq; [by destruct p|]. rewrite put_cons.
    destruct (es !! d) as [n'|] eqn:Hd; [|done]. rewrite IH, insert_id; [done..|].
    intros es'. specialize (Hp es'). simpl in Hp. by rewrite Hd in Hp.
Qed.

Lemma apart_sym p q : apart p q → apart q p.
Proof. unfold apart. tauto. Qed.

Lemma apart_app p q a b : apart p q → apart (p ++ a) (q ++ b).
Proof.
  intros [H1 H2]. split.
  - intros H. destruct (prefix_weak_total p q (q ++ b)) as [?|?]; [|by apply prefix_app_r| |]; try done.
    trans (p ++ a); [by apply prefix_app_r|done].
  - intros H. destruct (prefix_weak_total p q (p ++ a)) as [?|?]; [by apply prefix_app_r| |done..].
    trans (q ++ b); [by apply prefix_app_r|done].
Qed.

Lemma apart_app_r p q b : apart p q → apart p (q ++ b).
Proof. intros H. rewrite <-(app_nil_r p). by apply apart_app. Qed.

Lemma apart_app_l p q a : apart p q → apart (p ++ a) q.
Proof. intros H. rewrite <-(app_nil_r q). by apply apart_app. Qed.

Lemma parent_snoc p c : parent (p ++ [c]) = p.
Proof. apply removelast_last. Qed.

(** Two entries of one directory. *)
Lemma apart_siblings p c d a b : c ≠ d → apart (p ++ c :: a) (p ++ d :: b).
Proof.
  intros Hne. split; intros H; apply prefix_app_inv in H; apply prefix_cons_inv_1 in H; congruence.
Qed.

(** ** The host *)

(** [std::io::Error] by the kinds the sources look at. *)
Inductive IoErr := NotFound | AlreadyExists | OtherIo (message : string).

Definition io_text (e : IoErr) : string :=
  match e with
  | NotFound => "No such file or directory (os error 2)"
  | AlreadyExists => "File exists (os error 17)"
  | OtherIo message => message
  end.

(** A call that fails for reasons outside the tree. An interrupted write leaves some
    of its bytes, an interrupted removal some of the directory. *)
Record Fault := {
  f_message : string;
  f_written : nat;
  f_left : gmap string Node → option Node;
}.

(** The host decides which calls fail, tells the time in milliseconds and lists
    directories in an order of its own. *)
Class Host := {
  fault : nat → option Fault;
  clock_ms : nat → Z;
  process_id : Z;
  dir_order : gset string → list string;
  dir_order_perm : ∀ s, dir_order s ≡ₚ elements s;
}.

(** The tree, the calls made so far, the counter of [next_nonce] and the operations
    whose [closed] flag is set, by their directory. *)
Record World := {
  w_root : Node;
  w_calls : nat;
  w_nonce : Z;
  w_closed : gset Path;
}.

Definition at_path (p : Path) (w : World) : option Node := get p (w_root w).

Definition after_call (n : Node) (w : World) : World :=
  {| w_root := n; w_calls := S (w_calls w); w_nonce := w_nonce w; w_closed := w_closed w |}.

(** ** The monad *)

Definition ST (E A : Type) : Type := World → result E A * World.

#[export] Instance ST_ret E : MRet (ST E) := λ A a w, (Ok a, w).
#[export] Instance ST_bind E : MBind (ST E) := λ A B k m w,
  match m w with (Ok a, w') => k a w' | (Err e, w') => (Err e, w') end.

Definition throw {E A} (e : E) : ST E A := λ w, (Err e, w).
Definition lift {E A} (r : result E A) : ST E A := λ w, (r, w).
Definition map_err {E F A} (f : E → F) (m : ST E A) : ST F A := λ w,
  match m w with (Ok a, w') => (Ok a, w') | (Err e, w') => (Err (f e), w') end.
(** The result of a call as a value, for [match call() { Ok(..) .. Err(..) .. }]. *)
Definition attempt {E F A} (m : ST E A) : ST F (result E A) := λ w,
  let '(r, w') := m w in (Ok r, w').
(** [let _ = call();] *)
Definition ignore {E F A} (m : ST E A) : ST F unit := λ w, (Ok tt, (m w).2).
Definition gets {E A} (f : World → A) : ST E A := λ w, (Ok (f w), w).

(** [for x in xs { body(x)?; }] *)
Fixpoint for_each {E A} (body : A → ST E unit) (l : list A) : ST E unit :=
  match l with
  | [] => mret tt
  | x :: l => _ ← body x; for_each body l
  end.

Section host.
Context {H : Host}.

(** ** The calls of [std::fs] *)

Definition syscall {A} (f : Node → result IoErr (A * Node)) : ST IoErr A := λ w,
  match fault (w_calls w) with
  | Some x => (Err (OtherIo (f_message x)), after_call (w_root w) w)
  | None =>
      match f (w_root w) with
      | Ok (a, n) => (Ok a, after_call n w)
      | Err e => (Err e, after_call (w_root w) w)
      end
  end.

Definition path_exists {E} (p : Path) : ST E bool :=
  gets (λ w, bool_decide (is_Some (at_path p w))).
Definition path_is_dir {E} (p : Path) : ST E bool := gets (λ w, is_dir (at_path p w)).

(** [symlink_metadata], and opening for reading: the handle is what is there. *)
Definition fs_metadata (p : Path) : ST IoErr Node :=
  syscall (λ n, match get p n with Some x => Ok (x, n) | None => Err NotFound end).
Definition fs_open (p : Path) : ST IoErr Node := fs_metadata p.
Definition fs_read (handle : Node) : ST IoErr (list Z) :=
  syscall (λ n, match handle with
                | File b => Ok (b, n)
                | _ => Err (OtherIo "Is a directory (os error 21)")
                end).
(** A call on an open handle or directory entry that changes nothing. *)
Definition fs_touch : ST IoErr unit := syscall (λ n, Ok (tt, n)).

(** The entries in the host's order, with what they are. *)
Definition entries_in_order (es : gmap string Node) : list (string * Node) :=
  omap (λ c, x ← es !! c; Some (c, x)) (dir_order (dom es)).

Definition fs_read_dir (p : Path) : ST IoErr (list (string * Node)) :=
  syscall (λ n, match get p n with
                | Some (Dir es) => Ok (entries_in_order es, n)
                | Some _ => Err (OtherIo "Not a directory (os error 20)")
                | None => Err NotFound
                end).

(** Creating an entry: its directory must exist and have no such entry. *)
Definition create_entry (p : Path) (v : Node) (n : Node) : result IoErr (unit * Node) :=
  if bool_decide (is_Some (get p n)) then Err AlreadyExists
  else if is_dir (get (parent p) n) then Ok (tt, put p (Some v) n)
  else Err NotFound.

Definition fs_create_dir (p : Path) : ST IoErr unit := syscall (create_entry p (Dir ∅)).
(** [OpenOptions::create_new(true).write(true)] *)
Definition fs_create_new (p : Path) : ST IoErr unit := syscall (create_entry p (File [])).

(** [write_all] to a file just created; a failure leaves a part of the bytes. *)
Definition fs_write_all (p : Path) (bytes : list Z) : ST IoErr unit := λ w,
  match fault (w_calls w) with
  | Some x => (Err (OtherIo (f_message x)),
               after_call (put p (Some (File (take (f_written x) bytes))) (w_root w)) w)
  | None => (Ok tt, after_call (put p (Some (File bytes)) (w_root w)) w)
  end.

Definition fs_hard_link (source target : Path) : ST IoErr unit :=
  syscall (λ n, match get source n with
                | Some (Dir _) => Err (OtherIo "Operation not permitted (os error 1)")
                | Some v => create_entry target v n
                | None => Err NotFound
                end).

(** [std::fs::copy] *)
Definition fs_copy (source target : Path) : ST IoErr unit :=
  syscall (λ n, match get source n with
                | Some (File b) =>
                    if is_dir (get target n) || negb (is_dir (get (parent target) n))
                    then Err (OtherIo "cannot copy here") else Ok (tt, put target (Some (File b)) n)
                | Some _ => Err (OtherIo "the source path is not a regular file")
                | None => Err NotFound
                end).

(** [rename(2)]: an existing target is replaced when it is a file, for a file, or an
    empty directory, for a directory. *)
Definition may_replace (v : Node) (target : option Node) : bool :=
  match v, target with
  | _, None => true
  | Dir _, Some (Dir es) => bool_decide (es = ∅)
  | Dir _, Some _ | _, Some (Dir _) => false
  | _, Some _ => true
  end.

Definition fs_rename (source target : Path) : ST IoErr unit :=
  syscall (λ n, match get source n with
                | None => Err NotFound
                | Some v =>
                    if bool_decide (source = target) then Ok (tt, n)
                    else if bool_decide (source `prefix_of` target)
                            || bool_decide (target `prefix_of` source)
                    then Err (OtherIo "Invalid argument (os error 22)")
                    else if negb (is_dir (get (parent target) n)) then Err NotFound
                    else if negb (may_replace v (get target n))
                    then Err (OtherIo "Directory not empty (os error 39)")
                    else Ok (tt, put target (Some v) (put source None n))
                end).

Definition fs_remove_file (p : Path) : ST IoErr unit :=
  syscall (λ n, match get p n with
                | None => Err NotFound
                | Some (Dir _) => Err (OtherIo "Is a directory (os error 21)")
                | Some _ => Ok (tt, put p None n)
                end).

Definition fs_remove_dir_all (p : Path) : ST IoErr unit := λ w,
  match at_path p w with
  | None => (Err NotFound, after_call (w_root w) w)
  | Some (Dir es) =>
      match fault (w_calls w) with
      | Some x => (Err (OtherIo (f_message x)), after_call (put p (f_left x es) (w_root w)) w)
      | None => (Ok tt, after_call (put p None (w_root w)) w)
      end
  | Some _ => (Err (OtherIo "Not a directory (os error 20)"), after_call (w_root w) w)
  end.

(** ** Time and fresh names *)

(** The milliseconds since 1970; a clock set before then counts as none. *)
Definition millis (w : World) : Z := Z.max 0 (clock_ms (w_calls w)).

Definition unix_millis {E} : ST E Z := gets (λ w, Z.min (millis w) u64_max).
Definition unix_seconds {E} : ST E Z := gets (λ w, Z.min (millis w / 1000) u32_max).

(** The process, the time and a counter tell names apart. *)
Definition nonce_text (time count : Z) : string :=
  bytes_str (hex_text process_id ++ [45] ++ hex_text time ++ [45] ++ hex_text count).

Definition next_nonce {E} : ST E string := λ w,
  (Ok (nonce_text (Z.min (millis w) u64_max) (w_nonce w)),
   {| w_root := w_root w; w_calls := w_calls w; w_nonce := u64_wrapping_add (w_nonce w) 1;
      w_closed := w_closed w |}).
End host.

(** ** What a computation leaves alone

    [keeps R m]: whatever [m] answers, the worlds before and after it are related. *)

Definition keeps {E A} (R : relation World) (m : ST E A) : Prop :=
  ∀ w r w', m w = (r, w') → R w w'.

Section keeps.
Context {H : Host} (R : relation World) `{!PreOrder R}.

Lemma keeps_ret {E A} (a : A) : keeps R (mret a : ST E A).
Proof. intros w r w' [= <- <-]. done. Qed.
Lemma keeps_throw {E A} (e : E) : keeps R (throw e : ST E A).
Proof. intros w r w' [= <- <-]. done. Qed.
Lemma keeps_lift {E A} (x : result E A) : keeps R (lift x).
Proof. intros w r w' [= <- <-]. done. Qed.
Lemma keeps_gets {E A} (f : World → A) : keeps R (gets f : ST E A).
Proof. intros w r w' [= <- <-]. done. Qed.

Lemma keeps_bind {E A B} (m : ST E A) (k : A → ST E B) :
  keeps R m → (∀ a, keeps R (k a)) → keeps R (m ≫= k).
Proof.
  intros Hm Hk w r w'. unfold mbind, ST_bind.
  destruct (m w) as [[a|e] w1] eqn:E1; intros E2.
  - trans w1; [by eapply Hm|by eapply Hk].
  - injection E2 as <- <-. by eapply Hm.
Qed.

(** A computed value is known to the rest. *)
Lemma keeps_lift_bind {E A B} (x : result E A) (k : A → ST E B) :
  (∀ a, x = Ok a → keeps R (k a)) → keeps R (lift x ≫= k).
Proof.
  intros Hk w r w'. unfold mbind, ST_bind, lift. destruct x as [a|e].
  - by apply Hk.
  - intros [= <- <-]. done.
Qed.

Lemma keeps_map_err {E F A} (f : E → F) (m : ST E A) : keeps R m → keeps R (map_err f m).
Proof.
  intros Hm w r w'. unfold map_err. destruct (m w) as [[a|e] w1] eqn:E1;
    intros [= <- <-]; by eapply Hm.
Qed.
Lemma keeps_attempt {E F A} (m : ST E A) : keeps R m → keeps R (attempt (F := F) m).
Proof.
  intros Hm w r w'. unfold attempt. destruct (m w) as [x w1] eqn:E1.
  intros [= <- <-]. by eapply Hm.
Qed.
Lemma keeps_ignore {E F A} (m : ST E A) : keeps R m → keeps R (ignore (F := F) m).
Proof.
  intros Hm w r w'. unfold ignore. intros [= <- <-]. destruct (m w) as [x w1] eqn:E1.
  by eapply Hm.
Qed.
Lemma keeps_for_each {E A} (body : A → ST E unit) l :
  (∀ x, x ∈ l → keeps R (body x)) → keeps R (for_each body l).
Proof.
  induction l as [|x l IH]; intros Hl; simpl; [apply keeps_ret|].
  apply keeps_bind; [apply Hl; by left|]. intros _. apply IH. intros y Hy. apply Hl. by right.
Qed.
End keeps.

Create HintDb keeps.
#[export] Hint Resolve keeps_ret keeps_throw keeps_lift keeps_gets keeps_bind keeps_map_err
  keeps_attempt keeps_ignore : keeps.
#[export] Hint Extern 0 (PreOrder _) => apply _ : keeps.

(** Walk through a computation: binds, matches, and the registered facts. *)
Ltac keeps_tac :=
  repeat first
    [ progress intros
    | simple apply keeps_bind; [apply _| |]
    | match goal with |- keeps _ (match ?x with _ => _ end) => destruct x end
    | match goal with |- keeps _ (let '(_, _) := ?x in _) => destruct x end
    | simple apply keeps_for_each; [apply _|]
    | solve [eauto 6 with keeps] ].

(** The node at [q] is the same. *)
Definition same_at (q : Path) : relation World := λ w w', at_path q w' = at_path q w.
(** The tree and the operations are the same: all a reader leaves behind. *)
Definition same_world : relation World := λ w w',
  w_root w' = w_root w ∧ w_closed w' = w_closed w.
Definition same_closed : relation World := λ w w', w_closed w' = w_closed w.
Definition same_nonce : relation World := λ w w', w_nonce w' = w_nonce w.

#[export] Instance same_at_preorder q : PreOrder (same_at q).
Proof. unfold same_at. split; [done|]. intros ????. congruence. Qed.
#[export] Instance same_world_preorder : PreOrder same_world.
Proof. unfold same_world. split; [done|]. intros ??? [??] [??]. split; congruence. Qed.
#[export] Instance same_closed_preorder : PreOrder same_closed.
Proof. unfold same_closed. split; [done|]. intros ????. congruence. Qed.
#[export] Instance same_nonce_preorder : PreOrder same_nonce.
Proof. unfold same_nonce. split; [done|]. intros ????. congruence. Qed.

Lemma keeps_weaken {E A} (R S : relation World) (m : ST E A) :
  (∀ w w', R w w' → S w w') → keeps R m → keeps S m.
Proof. intros HRS Hm w r w' Hw. by eapply HRS, Hm. Qed.

Lemma same_world_at q w w' : same_world w w' → same_at q w w'.
Proof. intros [Hr _]. unfold same_at, at_path. by rewrite Hr. Qed.

Lemma same_at_below p q w w' : same_at p w w' → same_at (p ++ q) w w'.
Proof. unfold same_at, at_path. intros Hs. by rewrite !get_app, Hs. Qed.

Lemma keeps_world_at {E A} q (m : ST E A) : keeps same_world m → keeps (same_at q) m.
Proof. apply keeps_weaken, same_world_at. Qed.
Lemma keeps_world_closed {E A} (m : ST E A) : keeps same_world m → keeps same_closed m.
Proof. apply keeps_weaken. by intros w w' [_ ?]. Qed.
#[export] Hint Resolve keeps_world_at keeps_world_closed : keeps.

Section frames.
Context {H : Host}.

Lemma keeps_syscall {A} (R : relation World) (f : Node → result IoErr (A * Node)) :
  (∀ w, R w (after_call (w_root w) w)) →
  (∀ w a n, f (w_root w) = Ok (a, n) → R w (after_call n w)) →
  keeps R (syscall f).
Proof.
  intros Hid Hf w r w'. unfold syscall. destruct (fault _); [by intros [= <- <-]|].
  destruct (f (w_root w)) as [[a n]|e] eqn:E; intros [= <- <-]; eauto.
Qed.

Lemma keeps_syscall_read {A} (f : Node → result IoErr (A * Node)) :
  (∀ n a n', f n = Ok (a, n') → n' = n) → keeps same_world (syscall f).
Proof. intros Hf. apply keeps_syscall; [done|]. intros w a n ->%Hf. done. Qed.

Lemma keeps_syscall_closed {A} (f : Node → result IoErr (A * Node)) :
  keeps same_closed (syscall f).
Proof. by apply keeps_syscall. Qed.
Lemma keeps_syscall_nonce {A} (f : Node → result IoErr (A * Node)) :
  keeps same_nonce (syscall f).
Proof. by apply keeps_syscall. Qed.

Lemma keeps_metadata p : keeps same_world (fs_metadata p).
Proof. apply keeps_syscall_read. intros n a n'. case_match; [by intros [= _ <-]|done]. Qed.
Lemma keeps_read h : keeps same_world (fs_read h).
Proof. apply keeps_syscall_read. intros n a n'. case_match; try done. by intros [= _ <-]. Qed.
Lemma keeps_touch : keeps same_world fs_touch.
Proof. apply keeps_syscall_read. by intros n a n' [= _ <-]. Qed.
Lemma keeps_read_dir p : keeps same_world (fs_read_dir p).
Proof. apply keeps_syscall_read. intros n a n'. repeat case_match; try done. by intros [= _ <-]. Qed.
Lemma keeps_nonce {E} : keeps same_world (next_nonce (E := E)).
Proof. by intros w r w' [= <- <-]. Qed.

Lemma get_put_new p q v n :
  get p n = None → ¬ q `prefix_of` p → (∀ c r, get (c :: r) v = None) →
  get q (put p (Some v) n) = get q n.
Proof.
  intros Hp Hq Hv. destruct (decide (p `prefix_of` q)) as [[r ->]|Hpq].
  2: { by apply get_put_apart. }
  destruct r as [|c r]; [destruct Hq; by rewrite app_nil_r|].
  destruct (exists_last (l := p)) as (d & x & ->).
  { by intros ->. }
  transitivity (None : option Node); [|by rewrite get_app, Hp].
  destruct (get d n) as [[b|es|]|] eqn:Hd.
  2: { rewrite <-app_assoc. simpl. rewrite (get_put_below _ _ _ _ _ _ Hd). apply Hv. }
  all: rewrite put_parent_absent by (by rewrite Hd); by rewrite get_app, Hp.
Qed.

Lemma keeps_create_entry p q v :
  ¬ q `prefix_of` p → (∀ c r, get (c :: r) v = None) →
  keeps (same_at q) (syscall (create_entry p v)).
Proof.
  intros Hq Hv. apply keeps_syscall; [done|]. intros w a n. unfold create_entry.
  case_bool_decide as Hp; [done|]. case_match; [|done]. intros [= _ <-].
  apply get_put_new; [by apply eq_None_not_Some|done..].
Qed.

Lemma keeps_create_dir p q : ¬ q `prefix_of` p → keeps (same_at q) (fs_create_dir p).
Proof. intros Hq. apply keeps_create_entry; [done|]. intros. simpl. by rewrite lookup_empty. Qed.
Lemma keeps_create_new p q : apart p q → keeps (same_at q) (fs_create_new p).
Proof. intros [_ Hq]. by apply keeps_create_entry. Qed.

(** The calls that write put nodes at the paths they name. *)
Lemma keeps_write_all p b q : apart p q → keeps (same_at q) (fs_write_all p b).
Proof.
  intros Hq w r w'. unfold fs_write_all. case_match; intros [= <- <-]; by apply get_put_apart.
Qed.
Lemma keeps_remove_file p q : apart p q → keeps (same_at q) (fs_remove_file p).
Proof.
  intros Hq. apply keeps_syscall; [done|]. intros w a n. repeat case_match; try done;
    intros [= _ <-]; by apply get_put_apart.
Qed.
Lemma keeps_remove_dir_all p q : apart p q → keeps (same_at q) (fs_remove_dir_all p).
Proof.
  intros Hq w r w'. unfold fs_remove_dir_all.
  repeat case_match; intros [= <- <-]; try done; by apply get_put_apart.
Qed.
Lemma keeps_hard_link s t q : apart t q → keeps (same_at q) (fs_hard_link s t).
Proof.
  intros Hq. apply keeps_syscall; [done|]. intros w a n. unfold create_entry.
  repeat case_match; try done; intros [= _ <-]; by apply get_put_apart.
Qed.
Lemma keeps_copy s t q : apart t q → keeps (same_at q) (fs_copy s t).
Proof.
  intros Hq. apply keeps_syscall; [done|]. intros w a n. repeat case_match; try done.
  intros [= _ <-]. by apply get_put_apart.
Qed.
Lemma keeps_rename s t q : apart s q → apart t q → keeps (same_at q) (fs_rename s t).
Proof.
  intros Hs Ht. apply keeps_syscall; [done|]. intros w a n. repeat case_match; try done;
    intros [= _ <-]; [done|]. unfold same_at, at_path. simpl. by rewrite !get_put_apart.
Qed.

(** None of the calls touches the [closed] flags. *)
Lemma keeps_write_all_closed p b : keeps same_closed (fs_write_all p b).
Proof. intros w r w'. unfold fs_write_all. case_match; by intros [= <- <-]. Qed.
Lemma keeps_remove_dir_all_closed p : keeps same_closed (fs_remove_dir_all p).
Proof. intros w r w'. unfold fs_remove_dir_all. repeat case_match; by intros [= <- <-]. Qed.
End frames.

Lemma keeps_exists {E} p : keeps same_world (path_exists (E := E) p).
Proof. apply keeps_gets, _. Qed.
Lemma keeps_is_dir {E} p : keeps same_world (path_is_dir (E := E) p).
Proof. apply keeps_gets, _. Qed.
Lemma keeps_millis {H : Host} {E} : keeps same_world (unix_millis (E := E)).
Proof. apply keeps_gets, _. Qed.
Lemma keeps_seconds {H : Host} {E} : keeps same_world (unix_seconds (E := E)).
Proof. apply keeps_gets, _. Qed.
Lemma keeps_open {H : Host} p : keeps same_world (fs_open p).
Proof. apply keeps_metadata. Qed.

#[export] Hint Resolve keeps_exists keeps_is_dir keeps_millis keeps_seconds
  keeps_metadata keeps_open keeps_read keeps_touch keeps_read_dir keeps_nonce
  keeps_create_new keeps_write_all keeps_remove_file keeps_remove_dir_all keeps_hard_link
  keeps_copy keeps_rename keeps_write_all_closed keeps_remove_dir_all_closed : keeps.
#[export] Hint Resolve apart_app_l apart_app_r : keeps.
#[export] Hint Extern 1 (keeps same_closed _) => apply keeps_syscall_closed : keeps.
#[export] Hint Extern 1 (keeps same_nonce _) => apply keeps_syscall_nonce : keeps.
