(* ===== verification/StoreFiles.v ===== *)
(** * StoreFiles: the file helpers of [cloud-local/src/store.rs]

    Publishing a file atomically, replacing one, comparing, bounded reading, removing,
    and the checks of hashes, names and blobs the file store is built from. *)

From Stdlib Require Import ZArith Lia.
From S2P Require Import Prelude RustStd CloudCore FileSystem.

Local Open Scope Z_scope.

Definition MAX_SAVE_FILE_BYTES : Z := 256 * 1024 * 1024.
Definition MAX_CLOUD_PATH_BYTES : Z := 4096.

(** ** Errors *)

Definition io_error (error : IoErr) : BackendError :=
  {| be_message := "local cloud I/O failed: " ++ io_text error; be_retryable := true |}.
Definition json_error (error : string) : BackendError :=
  {| be_message := "local cloud metadata failed: " ++ error; be_retryable := false |}.
Definition permanent (message : string) : BackendError :=
  {| be_message := message; be_retryable := false |}.
Definition incomplete (message : string) : BackendError :=
  {| be_message := message; be_retryable := true |}.
Definition conflict (message : string) : BackendError :=
  {| be_message := message; be_retryable := true |}.

Notation BR := (result BackendError).
(** A fallible operation of the store. *)
Notation Op := (ST BackendError).

Definition io {A} (m : ST IoErr A) : Op A := map_err io_error m.
Definition json {A} (r : result string A) : Op A :=
  lift (match r with Ok a => Ok a | Err e => Err (json_error e) end).

(** [if condition { return Err(error); }] *)
Definition reject_if (b : bool) (e : BackendError) : BR unit := if b then Err e else Ok tt.

(** ** Names and hashes *)

Definition all_hexdigits (s : string) : bool := forallb is_hexdigit (str_bytes s).

(** A lower-case hexadecimal name of [n] characters. *)
Definition is_lower_hex (n : Z) (s : string) : bool :=
  (str_len s =? n) && bool_decide (s = to_ascii_lowercase s) && all_hexdigits s.

Definition validate_manifest_id (id : string) : BR unit :=
  if is_lower_hex 64 id then Ok tt else Err (permanent "invalid local cloud manifest id").
Definition validate_blob_hash (hash : string) : BR unit :=
  if is_lower_hex 40 hash then Ok tt else Err (permanent "invalid local cloud blob hash").

(** [str::split('/')] *)
Fixpoint split_slash (l : list Z) : list (list Z) :=
  match l with
  | [] => [[]]
  | c :: l =>
      if c =? 47 then [] :: split_slash l
      else match split_slash l with
           | part :: parts => (c :: part) :: parts
           | [] => [[c]]
           end
  end.

Definition bad_component (part : list Z) : bool :=
  bool_decide (part = []) || bool_decide (part = str_bytes ".") ||
  bool_decide (part = str_bytes "..").

Definition validate_cloud_path (path : string) : BR unit :=
  let bytes := str_bytes path in
  if bool_decide (path = "") || (MAX_CLOUD_PATH_BYTES <? str_len path)
     || bool_decide (head bytes = Some 47) || contains_nul path || bool_decide (92 ∈ bytes)
  then Err (permanent "invalid local cloud path")
  else if existsb bad_component (split_slash bytes)
  then Err (permanent "invalid local cloud path component")
  else Ok tt.

Section files.
Context {H : Host}.

(** ** Directories *)

Definition sync_directory (p : Path) : Op unit :=
  io (_ ← fs_open p; fs_touch).
Definition set_private_directory_mode (p : Path) : Op unit :=
  io (_ ← fs_metadata p; fs_touch).

(** The directories missing above and at a path, given in reverse; deepest first, and
    the lowest one that exists. *)
Fixpoint missing_dirs (rp : Path) (w : World) : list Path * Path :=
  match rp with
  | [] => ([], [])
  | _ :: above =>
      if bool_decide (is_Some (at_path (reverse rp) w)) then ([], reverse rp)
      else let '(missing, current) := missing_dirs above w in (reverse rp :: missing, current)
  end.

Definition create_durable_dir (directory : Path) : Op unit :=
  r ← attempt (fs_create_dir directory);
  _ ← match r with
      | Ok _ => mret tt
      | Err AlreadyExists =>
          d ← path_is_dir directory;
          if d : bool then mret tt else throw (io_error AlreadyExists)
      | Err e => throw (io_error e)
      end;
  _ ← set_private_directory_mode directory;
  sync_directory (parent directory).

Definition create_durable_dir_all (p : Path) : Op unit :=
  '(missing, current) ← gets (missing_dirs (reverse p));
  d ← path_is_dir current;
  if negb d then throw (permanent "local cloud path parent is not a directory")
  else for_each create_durable_dir (reverse missing).

(** ** Files *)

(** Reads the file to its end and compares it with [expected]. *)
Definition file_matches_bytes (p : Path) (expected : list Z) : ST IoErr bool :=
  metadata ← fs_metadata p;
  match metadata with
  | File b =>
      if negb (length b =? length expected)%nat then mret false
      else
        handle ← fs_open p;
        bytes ← fs_read handle;
        mret (bool_decide (bytes = expected))
  | _ => mret false
  end.

Definition temporary_name (nonce : string) : string := ".syncthing." ++ nonce ++ ".tmp".

Definition write_temporary (temporary : Path) (bytes : list Z) : ST IoErr unit :=
  _ ← fs_write_all temporary bytes; fs_touch.

Definition atomic_publish (path : Path) (bytes : list Z) : Op unit :=
  exists_already ← path_exists path;
  if exists_already : bool then
    same ← io (file_matches_bytes path bytes);
    if same : bool then mret tt
    else throw (permanent "immutable local cloud object already has different bytes")
  else
    _ ← create_durable_dir_all (parent path);
    nonce ← next_nonce;
    let temporary := parent path ++ [temporary_name nonce] in
    _ ← io (fs_create_new temporary);
    written ← attempt (write_temporary temporary bytes);
    match written with
    | Err error => _ ← ignore (fs_remove_file temporary); throw (io_error error)
    | Ok _ =>
        linked ← attempt (fs_hard_link temporary path);
        match linked with
        | Ok _ => _ ← io (fs_remove_file temporary); sync_directory (parent path)
        | Err AlreadyExists =>
            _ ← ignore (fs_remove_file temporary);
            same ← io (file_matches_bytes path bytes);
            if same : bool then sync_directory (parent path)
            else throw (permanent "immutable local cloud object collision")
        | Err error => _ ← ignore (fs_remove_file temporary); throw (io_error error)
        end
    end.

(** The part of [atomic_replace] after its early returns. *)
Definition replace_file (path : Path) (bytes : list Z) : Op unit :=
  _ ← create_durable_dir_all (parent path);
  nonce ← next_nonce;
  let temporary := parent path ++ [temporary_name nonce] in
  _ ← io (fs_create_new temporary);
  written ← attempt (write_temporary temporary bytes);
  match written with
  | Err error => _ ← ignore (fs_remove_file temporary); throw (io_error error)
  | Ok _ =>
      renamed ← attempt (fs_rename temporary path);
      match renamed with
      | Err error => _ ← ignore (fs_remove_file temporary); throw (io_error error)
      | Ok _ => sync_directory (parent path)
      end
  end.

Definition atomic_replace (path : Path) (bytes : list Z) : Op unit :=
  matching ← attempt (file_matches_bytes path bytes);
  match matching with
  | Ok true => mret tt
  | Ok false | Err NotFound => replace_file path bytes
  | Err error => throw (io_error error)
  end.

Definition read_bounded_file (p : Path) (maximum : Z) (label : string) : Op (list Z) :=
  let invalid := permanent ("invalid local cloud " ++ label ++ " file") in
  metadata ← io (fs_metadata p);
  match metadata with
  | File b =>
      if maximum <? Z.of_nat (length b) then throw invalid
      else
        handle ← io (fs_open p);
        bytes ← io (fs_read handle);
        let bytes := take_bytes (maximum + 1) bytes in
        if maximum <? Z.of_nat (length bytes) then throw invalid else mret bytes
  | _ => throw invalid
  end.

Definition remove_if_exists (p : Path) : Op unit :=
  r ← attempt (fs_remove_file p);
  match r with
  | Ok _ => sync_directory (parent p)
  | Err NotFound => mret tt
  | Err error => throw (io_error error)
  end.

Definition remove_dir_all_if_exists (p : Path) : Op unit :=
  r ← attempt (fs_remove_dir_all p);
  match r with
  | Ok _ | Err NotFound => mret tt
  | Err error => throw (io_error error)
  end.

Definition clear_work_root (p : Path) : Op unit :=
  entries ← io (fs_read_dir p);
  _ ← for_each (λ '(name, node),
        _ ← io fs_touch;
        _ ← io fs_touch;
        if is_dir (Some node) then remove_dir_all_if_exists (p ++ [name])
        else remove_if_exists (p ++ [name])) entries;
  sync_directory p.

Definition link_or_copy (source target : Path) : Op unit :=
  exists_already ← path_exists target;
  if exists_already : bool then mret tt
  else
    linked ← attempt (fs_hard_link source target);
    match linked with
    | Ok _ => mret tt
    | Err _ =>
        _ ← io (fs_copy source target);
        io (_ ← fs_open target; fs_touch)
    end.
End files.
