(* ===== verification/StoreFilesProofs.v ===== *)
(** * StoreFilesProofs: what the file helpers do

    Frames (what a helper leaves alone, whatever fails) and effects (what holds after
    it succeeded). *)

From Stdlib Require Import ZArith Lia.
From S2P Require Import Prelude RustStd CloudCore FileSystem StoreFiles.

Local Open Scope Z_scope.

(** ** Taking a successful computation apart *)

Section inversion.
Context {H : Host}.

Lemma ST_bind_inv {E A B} (m : ST E A) (k : A → ST E B) w r w' :
  (m ≫= k) w = (r, w') →
  (∃ a w1, m w = (Ok a, w1) ∧ k a w1 = (r, w')) ∨ (∃ e, m w = (Err e, w') ∧ r = Err e).
Proof.
  unfold mbind, ST_bind. destruct (m w) as [[a|e] w1]; [eauto|]. intros [= <- <-]. eauto.
Qed.

Lemma ST_bind_Ok {E A B} (m : ST E A) (k : A → ST E B) w b w' :
  (m ≫= k) w = (Ok b, w') → ∃ a w1, m w = (Ok a, w1) ∧ k a w1 = (Ok b, w').
Proof. intros [?|(e & _ & ?)]%ST_bind_inv; [done|discriminate]. Qed.

Lemma map_err_Ok {E F A} (f : E → F) (m : ST E A) w a w' :
  map_err f m w = (Ok a, w') → m w = (Ok a, w').
Proof. unfold map_err. destruct (m w) as [[]]; intros [= <- <-]; done. Qed.

Lemma attempt_inv {E F A} (m : ST E A) w r w' :
  attempt (F := F) m w = (r, w') → ∃ x, r = Ok x ∧ m w = (x, w').
Proof. unfold attempt. destruct (m w). intros [= <- <-]. eauto. Qed.

Lemma syscall_Ok {A} (f : Node → result IoErr (A * Node)) w a w' :
  syscall f w = (Ok a, w') → ∃ n, f (w_root w) = Ok (a, n) ∧ w' = after_call n w.
Proof.
  unfold syscall. destruct (fault _); [discriminate|].
  destruct (f (w_root w)) as [[a' n]|]; [|discriminate]. intros [= <- <-]. eauto.
Qed.

Lemma for_each_Ok {E A} (body : A → ST E unit) l w w' :
  for_each body l w = (Ok tt, w') →
  match l with
  | [] => w' = w
  | x :: l => ∃ w1, body x w = (Ok tt, w1) ∧ for_each body l w1 = (Ok tt, w')
  end.
Proof.
  destruct l as [|x l]; simpl; [by intros [= ->]|].
  intros ([] & w1 & H1 & H2)%ST_bind_Ok. eauto.
Qed.
End inversion.

(** Splits [m w = (Ok _, w')] into the steps of [m]. *)
Ltac st_inv :=
  repeat match goal with
  | H : mbind _ _ _ = (Ok _, _) |- _ =>
      let x := fresh "x" in let wi := fresh "w" in let Hx := fresh "Hx" in
      apply ST_bind_Ok in H as (x & wi & Hx & H)
  | H : io _ _ = (Ok _, _) |- _ => unfold io in H
  | H : path_exists _ _ = (Ok _, _) |- _ => unfold path_exists in H
  | H : path_is_dir _ _ = (Ok _, _) |- _ => unfold path_is_dir in H
  | H : map_err _ _ _ = (Ok _, _) |- _ => apply map_err_Ok in H
  | H : attempt _ _ = (Ok _, _) |- _ =>
      let x := fresh "x" in let Hx := fresh "Hx" in
      apply attempt_inv in H as (x & Hx & H); injection Hx as <-
  | H : throw _ _ = (Ok _, _) |- _ => discriminate H
  | H : mret _ _ = (Ok _, _) |- _ => injection H as H; subst
  | H : gets _ _ = (Ok _, _) |- _ => injection H as H; subst
  | H : ignore _ _ = (Ok _, _) |- _ => unfold ignore in H; injection H as H; subst
  | H : lift ?r _ = (Ok _, _) |- _ =>
      let Hr := fresh "Hr" in
      assert (Hr := f_equal fst H); assert (H' := f_equal snd H); simpl in Hr, H'; clear H; subst
  | H : _ * _ |- _ => destruct H
  | H : unit |- _ => destruct H
  end.

Section frames.
Context {H : Host}.

Lemma keeps_sync p : keeps same_world (sync_directory p).
Proof. unfold sync_directory, io. keeps_tac. Qed.
Lemma keeps_mode p : keeps same_world (set_private_directory_mode p).
Proof. unfold set_private_directory_mode, io. keeps_tac. Qed.
#[local] Hint Resolve keeps_sync keeps_mode : keeps.

Lemma keeps_matches p b : keeps same_world (file_matches_bytes p b).
Proof. unfold file_matches_bytes. keeps_tac. Qed.
Lemma keeps_bounded p m l : keeps same_world (read_bounded_file p m l).
Proof. unfold read_bounded_file, io. keeps_tac. Qed.
#[local] Hint Resolve keeps_matches keeps_bounded : keeps.

Lemma missing_prefix p w x : x ∈ (missing_dirs (reverse p) w).1 → x `prefix_of` p.
Proof.
  remember (reverse p) as rp eqn:Hp. apply (f_equal reverse) in Hp.
  rewrite reverse_involutive in Hp. rewrite <-Hp. clear p Hp.
  induction rp as [|c rp IH]; [set_solver|]. simpl.
  case_bool_decide; [set_solver|]. destruct (missing_dirs rp w) as [ms cur]. simpl in *.
  intros [->|Hx]%elem_of_cons; [done|]. etrans; [by apply IH|].
  rewrite reverse_cons. by apply prefix_app_r.
Qed.

Lemma prefix_apart p q x : x `prefix_of` p → apart p q → ¬ q `prefix_of` x.
Proof. intros Hx [_ Hq] Hqx. apply Hq. by trans x. Qed.

Lemma keeps_durable_dir p q : ¬ q `prefix_of` p → keeps (same_at q) (create_durable_dir p).
Proof. intros Hq. unfold create_durable_dir. keeps_tac. all: eauto using keeps_create_dir with keeps. Qed.

Lemma keeps_durable_dir_all_closed p : keeps same_closed (create_durable_dir_all p).
Proof.
  unfold create_durable_dir_all, create_durable_dir, io. keeps_tac.
Qed.

Lemma keeps_durable_dir_all p q : apart p q → keeps (same_at q) (create_durable_dir_all p).
Proof.
  intros Hq w r w'. unfold create_durable_dir_all.
  intros [([missing cur] & w1 & Hg & Hk)|(e & Hg & _)]%ST_bind_inv; [|discriminate].
  unfold gets in Hg. injection Hg as Hm <-.
  revert Hk. apply (keeps_bind (same_at q)); [by eauto with keeps|]. intros d.
  destruct (negb d); [by eauto with keeps|]. apply keeps_for_each; [apply _|].
  intros x Hx. apply keeps_durable_dir. eapply prefix_apart; [|done].
  apply (missing_prefix p w). rewrite Hm. by apply elem_of_reverse.
Qed.
End frames.

#[export] Hint Resolve keeps_sync keeps_mode keeps_matches keeps_bounded
  keeps_durable_dir_all : keeps.

Section helpers.
Context {H : Host}.
#[local] Hint Resolve keeps_durable_dir_all_closed : keeps.

Lemma keeps_write_temporary p b q : apart p q → keeps (same_at q) (write_temporary p b).
Proof. intros Hq. unfold write_temporary. keeps_tac. Qed.
Lemma keeps_write_temporary_closed p b : keeps same_closed (write_temporary p b).
Proof. unfold write_temporary. keeps_tac. Qed.
#[local] Hint Resolve keeps_write_temporary keeps_write_temporary_closed : keeps.

(** Publishing and replacing change nothing outside the directory of the file. *)
Lemma keeps_publish d c b q : apart d q → keeps (same_at q) (atomic_publish (d ++ [c]) b).
Proof. intros Hq. unfold atomic_publish, io. rewrite parent_snoc. keeps_tac. Qed.
Lemma keeps_publish_closed p b : keeps same_closed (atomic_publish p b).
Proof. unfold atomic_publish, io. keeps_tac. Qed.
Lemma keeps_replace d c b q : apart d q → keeps (same_at q) (atomic_replace (d ++ [c]) b).
Proof. intros Hq. unfold atomic_replace, replace_file, io. rewrite parent_snoc. keeps_tac. Qed.
Lemma keeps_replace_closed p b : keeps same_closed (atomic_replace p b).
Proof. unfold atomic_replace, replace_file, io. keeps_tac. Qed.

Lemma keeps_remove_if_exists p q : apart p q → keeps (same_at q) (remove_if_exists p).
Proof. intros Hq. unfold remove_if_exists. keeps_tac. Qed.
Lemma keeps_remove_if_exists_closed p : keeps same_closed (remove_if_exists p).
Proof. unfold remove_if_exists. keeps_tac. Qed.
Lemma keeps_remove_tree p q : apart p q → keeps (same_at q) (remove_dir_all_if_exists p).
Proof. intros Hq. unfold remove_dir_all_if_exists. keeps_tac. Qed.
Lemma keeps_remove_tree_closed p : keeps same_closed (remove_dir_all_if_exists p).
Proof. unfold remove_dir_all_if_exists. keeps_tac. Qed.
Lemma keeps_link_or_copy s t q : apart t q → keeps (same_at q) (link_or_copy s t).
Proof. intros Hq. unfold link_or_copy, io. keeps_tac. Qed.
Lemma keeps_link_or_copy_closed s t : keeps same_closed (link_or_copy s t).
Proof. unfold link_or_copy, io. keeps_tac. Qed.
End helpers.

#[export] Hint Resolve keeps_durable_dir_all_closed keeps_publish keeps_publish_closed
  keeps_replace keeps_replace_closed keeps_remove_if_exists keeps_remove_if_exists_closed
  keeps_remove_tree keeps_remove_tree_closed keeps_link_or_copy keeps_link_or_copy_closed
  : keeps.

(** ** Effects *)

(** The entries of a directory, none when it does not exist. *)
Definition dir_entries (n : option Node) (es : gmap string Node) : Prop :=
  n = Some (Dir es) ∨ (n = None ∧ es = ∅).

Section effects.
Context {H : Host}.

Lemma metadata_Ok p w n w' :
  fs_metadata p w = (Ok n, w') → at_path p w = Some n ∧ same_world w w'.
Proof.
  intros Hm. split; [|by eapply keeps_metadata]. apply syscall_Ok in Hm as (n' & Hm & _).
  unfold at_path. destruct (get p (w_root w)); [|done]. congruence.
Qed.

Lemma read_Ok h w b w' : fs_read h w = (Ok b, w') → h = File b ∧ same_world w w'.
Proof.
  intros Hm. split; [|by eapply keeps_read]. apply syscall_Ok in Hm as (n' & Hm & _).
  destruct h; [|done..]. congruence.
Qed.

Lemma read_dir_Ok p w l w' :
  fs_read_dir p w = (Ok l, w') →
  ∃ es, at_path p w = Some (Dir es) ∧ l = entries_in_order es ∧ same_world w w'.
Proof.
  intros Hm. pose proof (keeps_read_dir p _ _ _ Hm) as Hs.
  apply syscall_Ok in Hm as (n' & Hm & _). unfold at_path.
  destruct (get p (w_root w)) as [[b|es|]|]; [done| |done..]. injection Hm as <- _. eauto.
Qed.

Lemma matches_Ok p b w w' :
  file_matches_bytes p b w = (Ok true, w') → at_path p w = Some (File b) ∧ same_world w w'.
Proof.
  intros Hm. split; [|by eapply keeps_matches]. unfold file_matches_bytes in Hm. st_inv.
  apply metadata_Ok in Hx as [Hp Hs]. destruct x as [b'|es|]; st_inv; [|done..].
  case_match; st_inv; [done|]. unfold fs_open in *.
  apply metadata_Ok in Hx as [Hp' Hs']. apply read_Ok in Hx0 as [-> _].
  rewrite (same_world_at p _ _ Hs) in Hp'.
  apply bool_decide_eq_true in Hm as ->. congruence.
Qed.

Lemma bounded_Ok p m l w b w' :
  read_bounded_file p m l w = (Ok b, w') →
  at_path p w = Some (File b) ∧ Z.of_nat (length b) ≤ m ∧ same_world w w'.
Proof.
  intros Hm. pose proof (keeps_bounded _ _ _ _ _ _ Hm) as Hs. unfold read_bounded_file in Hm.
  st_inv. apply metadata_Ok in Hx as [Hp Hs0]. destruct x as [b'|es|]; st_inv; [|done..].
  destruct (Z.ltb_spec m (Z.of_nat (length b'))); st_inv.
  apply metadata_Ok in Hx as [Hp' Hs']. apply read_Ok in Hx0 as [-> _].
  rewrite (same_world_at p _ _ Hs0), Hp in Hp'. injection Hp' as ->.
  rewrite take_bytes_ge in Hm by lia. case_match; st_inv. done.
Qed.

Lemma create_entry_Ok p v n a n' :
  create_entry p v n = Ok (a, n') →
  get p n = None ∧ (∃ es, get (parent p) n = Some (Dir es)) ∧ n' = put p (Some v) n.
Proof.
  unfold create_entry. case_bool_decide as Hp; [done|].
  destruct (get (parent p) n) as [[b|es|]|] eqn:E; simpl; [done| |done..]. intros [= _ <-].
  split; [by apply eq_None_not_Some|]. eauto.
Qed.

Lemma for_each_app_Ok {E A} (body : A → ST E unit) l1 l2 w w' :
  for_each body (l1 ++ l2) w = (Ok tt, w') →
  ∃ w1, for_each body l1 w = (Ok tt, w1) ∧ for_each body l2 w1 = (Ok tt, w').
Proof.
  revert w. induction l1 as [|x l1 IH]; intros w; simpl; [by eauto|].
  intros ([] & w1 & H1 & H2)%ST_bind_Ok. apply IH in H2 as (w2 & H2 & H3).
  exists w2. split; [|done]. unfold mbind, ST_bind. by rewrite H1.
Qed.

Lemma durable_dir_Ok p w w' :
  create_durable_dir p w = (Ok tt, w') → at_path p w = None → at_path p w' = Some (Dir ∅).
Proof.
  intros Hm Hp. unfold create_durable_dir in Hm. st_inv.
  apply keeps_mode in Hx1. apply keeps_sync in Hm.
  rewrite (same_world_at p _ _ Hm), (same_world_at p _ _ Hx1). destruct x as [[]|[]]; st_inv.
  - apply syscall_Ok in Hx as (n & Hc & ->). apply create_entry_Ok in Hc as (_ & [es He] & ->).
    destruct (exists_last (l := p)) as (d & c & ->).
    { intros ->. done. }
    rewrite parent_snoc in He. by eapply get_put_eq.
  - exfalso. unfold fs_create_dir, syscall in Hx. destruct (fault _); [done|].
    unfold create_entry in Hx. unfold at_path in Hp. rewrite Hp in Hx.
    case_bool_decide as Hb; [by destruct Hb|]. by destruct (is_dir _).
Qed.

Lemma missing_dirs_at d w :
  at_path d w = None → d ≠ [] →
  ∃ ms cur, missing_dirs (reverse d) w = (d :: ms, cur) ∧
            ∀ x, x ∈ ms → ¬ d `prefix_of` x.
Proof.
  intros Hd Hne. destruct (exists_last Hne) as (e & c & ->). rewrite reverse_snoc. simpl.
  rewrite reverse_cons, reverse_involutive.
  rewrite bool_decide_eq_false_2 by (by rewrite Hd; intros [? [=]]).
  destruct (missing_dirs (reverse e) w) as [ms cur] eqn:E. exists ms, cur. split; [done|].
  intros x Hx. assert (x `prefix_of` e) as Hp by (apply (missing_prefix e w); by rewrite E).
  intros Hq. assert (Hl : e ++ [c] `prefix_of` e) by (by trans x).
  apply prefix_length in Hl. rewrite length_app in Hl. simpl in Hl. lia.
Qed.

Lemma missing_dirs_here d w :
  is_Some (at_path d w) → missing_dirs (reverse d) w = ([], d).
Proof.
  intros Hd. destruct (reverse d) as [|c rp] eqn:E.
  { apply (f_equal reverse) in E. rewrite reverse_involutive in E. by rewrite E. }
  simpl. rewrite <-E, reverse_involutive. by rewrite bool_decide_eq_true_2.
Qed.

(** After creating a directory it is there, with the entries it had. *)
Lemma durable_dir_all_Ok d w w' :
  create_durable_dir_all d w = (Ok tt, w') →
  ∃ es, dir_entries (at_path d w) es ∧ at_path d w' = Some (Dir es).
Proof.
  unfold create_durable_dir_all. intros Hm. st_inv.
  destruct (at_path d w0) as [n|] eqn:Hd.
  - rewrite missing_dirs_here in Hm by (by rewrite Hd; eauto). st_inv.
    rewrite Hd in Hm. destruct n as [b|es|]; simpl in Hm; st_inv.
    exists es. split; [by left|done].
  - destruct (missing_dirs_at d w0 Hd) as (ms & cur & Hmd & Hms).
    { intros ->. done. }
    rewrite Hmd in Hm. st_inv. destruct (negb _); st_inv.
    rewrite reverse_cons in Hm. apply for_each_app_Ok in Hm as (w2 & H1 & H2).
    apply for_each_Ok in H2 as (w3 & H2 & H3). apply for_each_Ok in H3 as <-.
    exists ∅. split; [by right|]. eapply durable_dir_Ok; [done|]. rewrite <-Hd.
    revert H1. apply (keeps_for_each (same_at d)). intros x Hx. rewrite elem_of_reverse in Hx.
    by apply keeps_durable_dir, Hms.
Qed.

Lemma write_temporary_Ok p b w w' :
  write_temporary p b w = (Ok tt, w') → w_root w' = put p (Some (File b)) (w_root w).
Proof.
  unfold write_temporary. intros Hm. st_inv. apply keeps_touch in Hm as [-> _].
  unfold fs_write_all in Hx. by destruct (fault _); simplify_eq.
Qed.

Lemma remove_file_Ok p w w' :
  fs_remove_file p w = (Ok tt, w') → w_root w' = put p None (w_root w).
Proof.
  intros Hm. apply syscall_Ok in Hm as (n & Hm & ->). by repeat case_match; simplify_eq.
Qed.
End effects.

Section publishing.
Context {H : Host}.

(** A temporary file written next to its target. *)
Lemma temporary_Ok d t b es w w1 w2 :
  at_path d w = Some (Dir es) → fs_create_new (d ++ [t]) w = (Ok tt, w1) →
  write_temporary (d ++ [t]) b w1 = (Ok tt, w2) →
  es !! t = None ∧ at_path d w2 = Some (Dir (<[t := File b]> es)).
Proof.
  intros Hd H1 H2. apply syscall_Ok in H1 as (n & H1 & ->).
  apply create_entry_Ok in H1 as (Hn & _ & ->). unfold at_path in *. rewrite get_snoc, Hd in Hn.
  split; [done|]. apply write_temporary_Ok in H2. rewrite H2. simpl.
  pose proof (get_put_snoc d t es (Some (File [])) _ Hd) as Hd'.
  rewrite (get_put_snoc _ _ _ _ _ Hd'). f_equal. f_equal.
  apply map_eq. intros c. destruct (decide (c = t)) as [->|Hne].
  - by rewrite lookup_partial_alter_eq, lookup_insert_eq.
  - by rewrite !lookup_partial_alter_ne, lookup_insert_ne.
Qed.

Lemma remove_entry_Ok d t es w w' :
  at_path d w = Some (Dir es) → fs_remove_file (d ++ [t]) w = (Ok tt, w') →
  at_path d w' = Some (Dir (delete t es)).
Proof.
  intros Hd Hr%remove_file_Ok. unfold at_path in *. rewrite Hr. by apply get_put_snoc.
Qed.

Lemma hard_link_Ok source d c es w w' :
  at_path d w = Some (Dir es) → fs_hard_link source (d ++ [c]) w = (Ok tt, w') →
  ∃ v, at_path source w = Some v ∧ es !! c = None ∧
       at_path d w' = Some (Dir (<[c := v]> es)).
Proof.
  intros Hd Hl. apply syscall_Ok in Hl as (n & Hl & ->). unfold at_path in *.
  destruct (get source (w_root w)) as [v|] eqn:Hs; [|done].
  assert (Hc : create_entry (d ++ [c]) v (w_root w) = Ok (tt, n)) by (destruct v; done).
  apply create_entry_Ok in Hc as (Hn & _ & ->). rewrite get_snoc, Hd in Hn.
  exists v. split; [done|]. split; [done|]. by apply get_put_snoc.
Qed.

Lemma hard_link_AlreadyExists source target w w' :
  fs_hard_link source target w = (Err AlreadyExists, w') →
  is_Some (at_path target w) ∧ same_world w w'.
Proof.
  unfold fs_hard_link, syscall. destruct (fault _); [done|]. unfold at_path, create_entry.
  destruct (get source _) as [[]|]; [|done| |done]; (case_bool_decide; [|by destruct (is_dir _)]);
    intros [= <-]; done.
Qed.

Lemma remove_file_Err p w e w' : fs_remove_file p w = (Err e, w') → same_world w w'.
Proof.
  unfold fs_remove_file, syscall. destruct (fault _); [by intros [= _ <-]|].
  destruct (get p _) as [[]|]; by intros [= _ <-].
Qed.

(** A published file is there, next to what was there before; a file that was there
    already had the same bytes. *)
Lemma publish_Ok d c b w w' :
  atomic_publish (d ++ [c]) b w = (Ok tt, w') →
  ∃ es, dir_entries (at_path d w) es ∧ (∀ n, es !! c = Some n → n = File b) ∧
        at_path d w' = Some (Dir (<[c := File b]> es)).
Proof.
  unfold atomic_publish. rewrite parent_snoc. intros Hm. st_inv.
  case_bool_decide as Hp; st_inv.
  - destruct x; st_inv. apply matches_Ok in Hx as [Hf Hs]. unfold at_path in Hf.
    rewrite get_snoc in Hf. destruct (get d (w_root w0)) as [[b'|es|]|] eqn:Hd; try done.
    exists es. split; [left; exact Hd|]. split; [congruence|].
    rewrite (same_world_at d _ _ Hs). unfold at_path. rewrite Hd. by rewrite insert_id.
  - apply durable_dir_all_Ok in Hx as (es & Hes & Hd). exists es. split; [done|].
    assert (Hc : es !! c = None).
    { apply eq_None_not_Some. intros [n Hn]. apply Hp. destruct Hes as [Hes|[_ ->]]; [|done].
      unfold at_path in *. rewrite get_snoc, Hes. eauto. }
    split; [congruence|].
    apply keeps_nonce in Hx0. rewrite <-(same_world_at d _ _ Hx0) in Hd.
    set (t := temporary_name x0) in *. destruct x2 as [[]|e]; st_inv.
    destruct (temporary_Ok _ _ _ _ _ _ _ Hd Hx1 Hx2) as [Ht Hd2].
    destruct x as [[]|[]]; st_inv.
    + apply keeps_sync in Hm. rewrite (same_world_at d _ _ Hm).
      destruct (hard_link_Ok _ _ _ _ _ _ Hd2 Hx) as (v & Hv & Hct & Hd3).
      rewrite (remove_entry_Ok _ _ _ _ _ Hd3 Hx3). do 2 f_equal.
      unfold at_path in Hv. rewrite get_snoc in Hv. unfold at_path in Hd2. rewrite Hd2, lookup_insert_eq in Hv.
      injection Hv as <-. assert (c ≠ t) by (intros ->; by rewrite lookup_insert_eq in Hct).
      rewrite delete_insert_ne, delete_insert_id by done. done.
    + apply hard_link_AlreadyExists in Hx as [Hex Hs3]. unfold at_path in Hex.
      rewrite get_snoc in Hex. pose proof Hd2 as Hd2'. unfold at_path in Hd2'. rewrite Hd2' in Hex.
      assert (t = c) as Htc.
      { destruct (decide (t = c)); [done|]. rewrite lookup_insert_ne, Hc in Hex by done.
        by destruct Hex. }
      rewrite Htc in *. destruct x1; st_inv.
      destruct (fs_remove_file (d ++ [c]) w4) as [[[]|e] w5] eqn:Hr; simpl in *.
      all: apply matches_Ok in Hx4 as [Hf Hs5]; apply keeps_sync in Hm;
        rewrite (same_world_at d _ _ Hm), (same_world_at d _ _ Hs5);
        rewrite <-(same_world_at d _ _ Hs3) in Hd2.
      * exfalso. pose proof (remove_entry_Ok _ _ _ _ _ Hd2 Hr) as Hd5. unfold at_path in *.
        rewrite get_snoc, Hd5, lookup_delete_eq in Hf. done.
      * apply remove_file_Err in Hr. by rewrite (same_world_at d _ _ Hr).
Qed.
End publishing.

(** ** A directory as its entries

    Creating a missing directory changes the tree but not what a reader of the
    directory finds. *)

Definition same_entries (q : Path) : relation World := λ w w',
  ∀ es, dir_entries (at_path q w) es → dir_entries (at_path q w') es.

#[export] Instance same_entries_preorder q : PreOrder (same_entries q).
Proof. unfold same_entries. split; [by intros w es|]. intros w1 w2 w3 H1 H2 es He. auto. Qed.

Lemma same_at_entries q w w' : same_at q w w' → same_entries q w w'.
Proof. unfold same_at. intros Hs es. by rewrite Hs. Qed.

Lemma keeps_at_entries {E A} q (m : ST E A) : keeps (same_at q) m → keeps (same_entries q) m.
Proof. apply keeps_weaken, same_at_entries. Qed.
#[export] Hint Resolve keeps_at_entries : keeps.

Lemma dir_entries_unique n es es' : dir_entries n es → dir_entries n es' → es = es'.
Proof. intros [->|[-> ->]] [?|[? ->]]; congruence. Qed.

Section entries.
Context {H : Host}.

Lemma keeps_durable_dir_self p : keeps (same_entries p) (create_durable_dir p).
Proof.
  unfold create_durable_dir. keeps_tac.
  apply keeps_attempt; intros w r w' Hm es He. unfold fs_create_dir, syscall in Hm.
  destruct (fault _); [by simplify_eq|].
  destruct (create_entry _ _ _) as [[a n]|] eqn:E; simplify_eq; [|done].
  apply create_entry_Ok in E as (Hn & [es' Hp] & ->). unfold at_path in *. rewrite Hn in He.
  destruct He as [?|[_ ->]]; [done|]. left. simpl.
  destruct (exists_last (l := p)) as (d & c & ->).
  { by intros ->. }
  rewrite parent_snoc in Hp. by eapply get_put_eq.
Qed.

Lemma keeps_durable_dir_all_self p : keeps (same_entries p) (create_durable_dir_all p).
Proof.
  intros w r w'. unfold create_durable_dir_all.
  intros [([missing cur] & w1 & Hg & Hk)|(e & Hg & _)]%ST_bind_inv; [|discriminate].
  unfold gets in Hg. injection Hg as Hm <-.
  revert Hk. apply (keeps_bind (same_entries p)); [by eauto with keeps|]. intros d.
  destruct (negb d); [by eauto with keeps|]. apply keeps_for_each; [apply _|].
  intros x Hx. rewrite elem_of_reverse in Hx. destruct (decide (x = p)) as [->|Hne].
  { apply keeps_durable_dir_self. }
  apply keeps_at_entries, keeps_durable_dir. intros Hp. apply Hne.
  assert (Hx' : x `prefix_of` p) by (apply (missing_prefix p w); by rewrite Hm).
  by apply (anti_symm prefix).
Qed.
End entries.
