(* ===== verification/FolderStore.v ===== *)
(** * FolderStore: the content-addressed file store of [cloud-local/src/store.rs]

    A repository holds, per account and app, a set of save manifests. A manifest is a
    directory named by the SHA-256 of its [manifest.json]; next to it stand the blobs
    of its files, named by their SHA-1. Manifests name their parents, so that devices
    which publish concurrently leave several heads behind. This file models the data,
    validation, reading a repository, save operations and the queries; [StoreGc] and
    [StoreSessions] model collection and session claims. *)

From Stdlib Require Import ZArith Lia.
From S2P Require Import Prelude RustStd CloudCore FileSystem StoreFiles.

Local Open Scope Z_scope.

Definition FORMAT_VERSION : Z := 1.
Definition FORMAT_FILE : string := "format.json".
Definition MAX_FORMAT_BYTES : Z := 64 * 1024.
Definition MAX_MANIFEST_BYTES : Z := 16 * 1024 * 1024.
Definition MAX_MANIFEST_FILES : Z := 100_000.
Definition MAX_MANIFEST_PARENTS : Z := 4096.
Definition MAX_MANIFEST_OBJECTS : Z := 4096.

(** ** Data of [cloud-core/src/files.rs] *)

Record FileMetadata := {
  fm_sha1 : string; fm_raw_size : Z; fm_mtime : Z; fm_platforms_to_sync : Z;
}.

Record FileEntry := { fe_path : string; fe_metadata : FileMetadata; fe_change_number : Z }.

Record ChangeList := {
  cl_current_change_number : Z;
  cl_files : list FileEntry;
  cl_deleted_paths : list string;
  cl_is_delta : bool;
}.

Record Quota := {
  qt_used_bytes : Z; qt_total_bytes : Z; qt_used_files : Z; qt_total_files : Z;
}.

(** ** Data of the store *)

Record StoredFile := {
  sf_sha1 : string; sf_raw_size : Z; sf_mtime : Z; sf_platforms_to_sync : Z;
}.
#[export] Instance StoredFile_eq_dec : EqDecision StoredFile.
Proof. solve_decision. Defined.

Record SaveManifest := {
  sm_steam_id64 : string;
  sm_app_id : Z;
  sm_revision : Z;
  sm_parents : list string;
  sm_client_id : Z;
  sm_machine_name : string;
  sm_created_at_ms : Z;
  sm_files : gmap string StoredFile;
}.

(** The files of a manifest in the order of [BTreeMap]. *)
Definition files_in_order (files : gmap string StoredFile) : list (string * StoredFile) :=
  sort_by_key fst (map_to_list files).

Record CommitIdentity := { ci_client_id : Z; ci_machine_name : string }.

Record StagedFile := { sg_path : string; sg_blob_sha1 : string; sg_metadata : FileMetadata }.

(** A store: the repository, the account and the coordination it shares with the other
    stores of the repository. *)
Record FolderStore := {
  st_root : Path; st_account : option string; st_coordination : Z; st_work_root : Path;
}.

Record SaveOperation := {
  op_coordination : Z;
  op_repository : Path;
  op_manifest_scope : string;
  op_app_id : Z;
  op_path : Path;
  op_expected_heads : list string;
  op_parents : list string;
  op_original_files : gmap string StoredFile;
  op_force_publish : bool;
  op_minimum_revision : Z;
}.

Record ManifestCandidate := {
  mc_id : string; mc_revision : Z; mc_client_id : Z; mc_machine_name : string;
  mc_created_at_ms : Z; mc_file_count : nat; mc_total_bytes : Z; mc_file_names : list string;
}.

Record StoreView := {
  sv_current_change_number : option Z; sv_max_revision : Z; sv_heads : list ManifestCandidate;
}.
Definition head_ids (v : StoreView) : list string := mc_id <$> sv_heads v.
Definition is_conflicted (v : StoreView) : bool :=
  match sv_current_change_number v with None => true | Some _ => false end.

Record ResolvedApp := {
  ra_manifests : gmap string SaveManifest; ra_heads : list string; ra_max_revision : Z;
}.

(** An open blob and what it must contain. *)
Record BoundDownload := { bd_file : Node; bd_metadata : FileMetadata }.

(** ** Parameters: SHA-1, SHA-256 and the JSON of a manifest *)

Class StoreCodec := {
  sha1 : list Z → list Z;
  sha256 : list Z → list Z;
  manifest_to_vec : SaveManifest → result string (list Z);
  manifest_from_slice : list Z → result string SaveManifest;
}.

Class StoreCodecLaws (C : StoreCodec) := {
  sha1_digest : ∀ b, length (sha1 b) = 20%nat ∧ Forall in_u8 (sha1 b);
  sha256_digest : ∀ b, length (sha256 b) = 32%nat ∧ Forall in_u8 (sha256 b);
  manifest_json : ∀ m b, manifest_to_vec m = Ok b → manifest_from_slice b = Ok m;
}.

Definition hex_digest (digest : list Z → list Z) (bytes : list Z) : string :=
  bytes_str (hex_bytes (digest bytes)).

(** ** Validation *)

Definition validate_app_id (app_id : Z) : BR unit :=
  reject_if (app_id =? 0) (permanent "local cloud does not support account-scope AppID 0").

Definition validate_identity (identity : CommitIdentity) : BR unit :=
  if ci_client_id identity =? 0
  then Err (permanent "local cloud Steam ClientID is unavailable")
  else
    let machine_name := trim (str_bytes (ci_machine_name identity)) in
    reject_if (bool_decide (machine_name = []) || (255 <? Z.of_nat (length machine_name))
               || bool_decide (0 ∈ machine_name))
      (permanent "invalid local cloud machine name").

(** [Vec::dedup] *)
Fixpoint dedup (l : list string) : list string :=
  match l with
  | x :: (y :: _) as rest => if bool_decide (x = y) then dedup rest else x :: dedup rest
  | _ => l
  end.

Definition normalized_head_ids (ids : list string) : BR (list string) :=
  if existsb (λ id, negb ((str_len id =? 64) && all_hexdigits id)) ids
  then Err (permanent "invalid local cloud manifest id")
  else
    let normalized := dedup (sort_by_key id ids) in
    if negb (length normalized =? length ids)%nat
    then Err (permanent "duplicate local cloud manifest id")
    else Ok normalized.

(** The loop over the files of a manifest; [sizes] maps a hash to its size. *)
Fixpoint validate_manifest_files (l : list (string * StoredFile)) (sizes : gmap string Z)
    : BR unit :=
  match l with
  | [] => Ok tt
  | (path, file) :: l =>
      _ ← validate_cloud_path path;
      if negb (is_lower_hex 40 (sf_sha1 file)) || (MAX_SAVE_FILE_BYTES <? sf_raw_size file)
         || (sf_mtime file <? 0)
      then Err (permanent "invalid local cloud manifest file")
      else if match sizes !! sf_sha1 file with
              | Some size => negb (size =? sf_raw_size file)
              | None => false
              end
      then Err (permanent "inconsistent local cloud blob metadata")
      else validate_manifest_files l (<[sf_sha1 file := sf_raw_size file]> sizes)
  end.

Definition validate_manifest (id steam_id64 : string) (app_id : Z) (manifest : SaveManifest)
    : BR unit :=
  if negb (bool_decide (sm_steam_id64 manifest = steam_id64))
     || negb (sm_app_id manifest =? app_id) || (sm_revision manifest =? 0)
     || (MAX_MANIFEST_FILES <? Z.of_nat (size (sm_files manifest)))
     || (MAX_MANIFEST_PARENTS <? Z.of_nat (length (sm_parents manifest)))
  then Err (permanent "invalid local cloud manifest")
  else
    _ ← validate_identity {| ci_client_id := sm_client_id manifest;
                             ci_machine_name := sm_machine_name manifest |};
    parents ← normalized_head_ids (sm_parents manifest);
    if negb (bool_decide (parents = sm_parents manifest)) || bool_decide (id ∈ parents)
    then Err (permanent "invalid local cloud manifest parents")
    else validate_manifest_files (files_in_order (sm_files manifest)) ∅.

Definition stored_file_from_metadata (m : FileMetadata) : StoredFile :=
  {| sf_sha1 := fm_sha1 m; sf_raw_size := fm_raw_size m; sf_mtime := fm_mtime m;
     sf_platforms_to_sync := fm_platforms_to_sync m |}.
Definition metadata_of (file : StoredFile) : FileMetadata :=
  {| fm_sha1 := sf_sha1 file; fm_raw_size := sf_raw_size file; fm_mtime := sf_mtime file;
     fm_platforms_to_sync := sf_platforms_to_sync file |}.

(** ** Heads *)

Definition referenced (manifests : gmap string SaveManifest) : gset string :=
  list_to_set ((map_to_list manifests).*2 ≫= sm_parents).

Definition heads_of (manifests : gmap string SaveManifest) : list string :=
  sort_by_key id (filter (λ id, id ∉ referenced manifests) (map_to_list manifests).*1).

Definition max_revision_of (manifests : gmap string SaveManifest) : Z :=
  foldr Z.max 0 (sm_revision <$> (map_to_list manifests).*2).

Definition resolved (manifests : gmap string SaveManifest) : ResolvedApp :=
  {| ra_manifests := manifests; ra_heads := heads_of manifests;
     ra_max_revision := max_revision_of manifests |}.

(** Indexing a map panics on a key it does not have; heads always are keys. *)
Definition manifest_at (manifests : gmap string SaveManifest) (id : string)
    : BR SaveManifest :=
  ok_or (manifests !! id) (permanent "no such manifest").

Definition current (r : ResolvedApp) : BR (option (string * SaveManifest)) :=
  match ra_heads r with
  | [] => Ok None
  | [id] => manifest ← manifest_at (ra_manifests r) id; Ok (Some (id, manifest))
  | _ => Err (conflict "local cloud has unresolved manifest heads")
  end.

Definition change_list_from_manifest (manifest : option SaveManifest) (since : Z)
    (force_full : bool) : BR ChangeList :=
  let current_revision := from_option sm_revision 0 manifest in
  if current_revision <? since
  then Err (conflict "Steam change number is newer than the local manifest view")
  else if (since =? current_revision) && negb force_full
  then Ok {| cl_current_change_number := current_revision; cl_files := [];
             cl_deleted_paths := []; cl_is_delta := true |}
  else Ok {| cl_current_change_number := current_revision;
             cl_files :=
               (λ '(path, file), {| fe_path := path; fe_metadata := metadata_of file;
                                    fe_change_number := current_revision |}) <$>
               from_option (λ m, files_in_order (sm_files m)) [] manifest;
             cl_deleted_paths := []; cl_is_delta := false |}.

(** ** Where things are *)

Definition app_name (app_id : Z) : string := bytes_str (dec_text app_id).

Definition account_dir (s : FolderStore) : Path :=
  st_root s ++ match st_account s with Some account => [account] | None => [] end.
Definition app_dir (s : FolderStore) (app_id : Z) : Path := account_dir s ++ [app_name app_id].

Definition manifest_scope (s : FolderStore) (app_id : Z) : string :=
  match st_account s with
  | Some account => account ++ "/" ++ app_name app_id
  | None => app_name app_id
  end.

Definition manifest_account (s : FolderStore) : BR string :=
  ok_or (st_account s) (permanent "local cloud save store requires an account").

Definition manifest_dir (s : FolderStore) (app_id : Z) (id : string) : BR Path :=
  _ ← validate_app_id app_id;
  _ ← validate_manifest_id id;
  Ok (app_dir s app_id ++ [id]).

Definition manifest_blob_path (s : FolderStore) (app_id : Z) (manifest_id hash : string)
    : BR Path :=
  _ ← validate_blob_hash hash;
  dir ← manifest_dir s app_id manifest_id;
  Ok (dir ++ ["blobs"; hash]).

Definition operation_blob_path (operation : Path) (hash : string) : BR Path :=
  _ ← validate_blob_hash hash;
  Ok (operation ++ ["blobs"; hash]).

(** The app's lock serializes the calls of this process; a call checks the app first. *)
Definition lock_app (app_id : Z) : BR unit := validate_app_id app_id.

Definition is_non_manifest_app_entry (name : string) : bool :=
  bool_decide (name = "sessions") || bool_decide (name = "stats") || bool_decide (name = "playtime").

Definition is_utf8 (name : string) : bool := utf8_valid (str_bytes name).

Section store.
Context {H : Host} {C : StoreCodec}.

(** ** Blobs *)

Definition verify_blob_bytes (file : StoredFile) (bytes : list Z) : BR unit :=
  reject_if (negb (Z.of_nat (length bytes) =? sf_raw_size file)
             || negb (bool_decide (hex_digest sha1 bytes = sf_sha1 file)))
    (permanent "local cloud blob failed integrity verification").

Definition validate_metadata (contents : list Z) (metadata : FileMetadata) : BR unit :=
  if MAX_SAVE_FILE_BYTES <? fm_raw_size metadata
  then Err (permanent "local cloud file exceeds the supported size")
  else if negb (Z.of_nat (length contents) =? fm_raw_size metadata)
  then Err (permanent "local cloud raw size does not match contents")
  else if negb (str_len (fm_sha1 metadata) =? 40) || negb (all_hexdigits (fm_sha1 metadata))
  then Err (permanent "local cloud SHA-1 is invalid")
  else if negb (bool_decide (hex_digest sha1 contents = to_ascii_lowercase (fm_sha1 metadata)))
  then Err (permanent "local cloud SHA-1 does not match contents")
  else Ok tt.

Definition open_blob_file (p : Path) (expected : StoredFile) : Op Node :=
  if MAX_SAVE_FILE_BYTES <? sf_raw_size expected
  then throw (permanent "local cloud file exceeds the supported size")
  else
    metadata ← io (fs_metadata p);
    match metadata with
    | File b =>
        if negb (Z.of_nat (length b) =? sf_raw_size expected)
        then throw (permanent "local cloud blob failed integrity verification")
        else io (fs_open p)
    | _ => throw (permanent "local cloud blob failed integrity verification")
    end.

(** Reads the blob in pieces into the hasher, which hashes their concatenation. *)
Definition verify_blob_file (p : Path) (expected : StoredFile) : Op unit :=
  file ← open_blob_file p expected;
  bytes ← io (fs_read file);
  if negb (bool_decide (hex_digest sha1 bytes = sf_sha1 expected))
  then throw (permanent "local cloud blob failed integrity verification")
  else mret tt.

Definition download_read (d : BoundDownload) : Op (list Z) :=
  bytes ← io (fs_read (bd_file d));
  let bytes := take_bytes (fm_raw_size (bd_metadata d) + 1) bytes in
  _ ← lift (verify_blob_bytes (stored_file_from_metadata (bd_metadata d)) bytes);
  mret bytes.

(** ** Reading a repository *)

(** The loop over the entries of a manifest directory: how many, and whether the two
    that belong there were seen. *)
Fixpoint manifest_directory_entries (l : list (string * Node)) (count : nat)
    (has_manifest has_blobs : bool) : Op (nat * bool * bool) :=
  match l with
  | [] => mret (count, has_manifest, has_blobs)
  | (name, node) :: l =>
      _ ← io fs_touch;
      if negb (is_utf8 name) then throw (incomplete "local cloud manifest entry is not UTF-8")
      else
        _ ← io fs_touch;
        if (2 <? S count)%nat
        then throw (incomplete "local cloud manifest directory is incomplete")
        else manifest_directory_entries l (S count)
               (has_manifest || (bool_decide (name = "manifest.json") && is_file (Some node)))
               (has_blobs || (bool_decide (name = "blobs") && is_dir (Some node)))
  end.

Definition validate_manifest_directory (p : Path) : Op unit :=
  entries ← io (fs_read_dir p);
  '(count, has_manifest, has_blobs) ← manifest_directory_entries entries 0 false false;
  if negb (count =? 2)%nat || negb has_manifest || negb has_blobs
  then throw (incomplete "local cloud manifest directory is incomplete")
  else mret tt.

(** The sizes a manifest expects of its blobs; a later file overrides an earlier. *)
Definition expected_blobs (files : gmap string StoredFile) : gmap string Z :=
  foldl (λ m p, <[sf_sha1 p.2 := sf_raw_size p.2]> m) ∅ (files_in_order files).

Fixpoint manifest_blob_entries (l : list (string * Node)) (expected : gmap string Z)
    (actual : gset string) : Op (gset string) :=
  match l with
  | [] => mret actual
  | (name, node) :: l =>
      _ ← io fs_touch;
      _ ← io fs_touch;
      match node with
      | File b =>
          if negb (is_utf8 name) then throw (incomplete "local cloud blob name is not UTF-8")
          else if negb (is_lower_hex 40 name) then throw (incomplete "invalid local cloud blob name")
          else
            match expected !! name with
            | None => throw (incomplete "local cloud manifest blob set is incomplete")
            | Some expected_size =>
                _ ← io fs_touch;
                if negb (Z.of_nat (length b) =? expected_size)
                then throw (incomplete "local cloud manifest blob set is incomplete")
                else manifest_blob_entries l expected ({[name]} ∪ actual)
            end
      | _ => throw (incomplete "local cloud manifest blob set is incomplete")
      end
  end.

Definition validate_manifest_blobs (directory : Path) (files : gmap string StoredFile)
    : Op unit :=
  let expected := expected_blobs files in
  entries ← io (fs_read_dir directory);
  actual ← manifest_blob_entries entries expected ∅;
  if negb (bool_decide (actual = dom expected))
  then throw (incomplete "local cloud manifest blob set is incomplete")
  else mret tt.

(** One manifest directory. *)
Definition read_manifest (app_directory : Path) (steam_id64 : string) (app_id : Z)
    (name : string) : Op SaveManifest :=
  let path := app_directory ++ [name] in
  _ ← validate_manifest_directory path;
  bytes ← read_bounded_file (path ++ ["manifest.json"]) MAX_MANIFEST_BYTES "manifest";
  if negb (bool_decide (hex_digest sha256 bytes = name))
  then throw (incomplete "local cloud manifest identity is invalid")
  else
    match manifest_from_slice bytes with
    | Err _ => throw (incomplete "local cloud manifest is incomplete")
    | Ok manifest =>
        _ ← lift (validate_manifest name steam_id64 app_id manifest);
        _ ← validate_manifest_blobs (path ++ ["blobs"]) (sm_files manifest);
        mret manifest
    end.

(** The checks of one entry of an app directory, up to the manifest itself: whether it
    is one. *)
Definition manifest_entry (name : string) (node : Node) (seen : nat) : Op bool :=
  _ ← io fs_touch;
  _ ← io fs_touch;
  if negb (is_utf8 name) then throw (incomplete "local cloud manifest name is not UTF-8")
  else if is_non_manifest_app_entry name then mret false
  else if MAX_MANIFEST_OBJECTS <=? Z.of_nat seen
  then throw (permanent "too many local cloud manifests")
  else if negb (is_dir (Some node)) || negb (is_ok (validate_manifest_id name))
  then throw (incomplete "local cloud manifest namespace is incomplete")
  else mret true.

Fixpoint manifest_entries (app_directory : Path) (steam_id64 : string) (app_id : Z)
    (l : list (string * Node)) (manifests : gmap string SaveManifest)
    : Op (gmap string SaveManifest) :=
  match l with
  | [] => mret manifests
  | (name, node) :: l =>
      is_manifest ← manifest_entry name node (size manifests);
      if negb is_manifest then manifest_entries app_directory steam_id64 app_id l manifests
      else
        manifest ← read_manifest app_directory steam_id64 app_id name;
        if bool_decide (is_Some (manifests !! name))
        then throw (permanent "duplicate local cloud manifest identity")
        else manifest_entries app_directory steam_id64 app_id l (<[name := manifest]> manifests)
  end.

Definition collect_manifest_objects (s : FolderStore) (app_id : Z)
    : Op (gmap string SaveManifest) :=
  account ← lift (manifest_account s);
  present ← path_exists (app_dir s app_id);
  if negb present then mret ∅
  else
    entries ← io (fs_read_dir (app_dir s app_id));
    manifest_entries (app_dir s app_id) account app_id entries ∅.

Definition resolve_app (s : FolderStore) (app_id : Z) : Op ResolvedApp :=
  _ ← lift (validate_app_id app_id);
  manifests ← collect_manifest_objects s app_id;
  mret (resolved manifests).

(** ** Queries *)

Definition saturating_total (files : gmap string StoredFile) : Z :=
  foldl (λ total p, Z.min u64_max (total + sf_raw_size p.2)) 0 (files_in_order files).

Definition candidate (manifests : gmap string SaveManifest) (id : string)
    : BR ManifestCandidate :=
  manifest ← manifest_at manifests id;
  Ok {| mc_id := id; mc_revision := sm_revision manifest;
        mc_client_id := sm_client_id manifest; mc_machine_name := sm_machine_name manifest;
        mc_created_at_ms := sm_created_at_ms manifest;
        mc_file_count := size (sm_files manifest);
        mc_total_bytes := saturating_total (sm_files manifest);
        mc_file_names := take 8 (files_in_order (sm_files manifest)).*1 |}.

Fixpoint candidates (manifests : gmap string SaveManifest) (ids : list string)
    : BR (list ManifestCandidate) :=
  match ids with
  | [] => Ok []
  | id :: ids =>
      c ← candidate manifests id;
      cs ← candidates manifests ids;
      Ok (c :: cs)
  end.

Definition view_unlocked (s : FolderStore) (app_id : Z) : Op StoreView :=
  r ← resolve_app s app_id;
  change_number ← lift (match ra_heads r with
                        | [] => Ok (Some 0)
                        | [id] => m ← manifest_at (ra_manifests r) id; Ok (Some (sm_revision m))
                        | _ => Ok None
                        end);
  heads ← lift (candidates (ra_manifests r) (ra_heads r));
  mret {| sv_current_change_number := change_number;
          sv_max_revision := ra_max_revision r; sv_heads := heads |}.

Definition view (s : FolderStore) (app_id : Z) : Op StoreView :=
  _ ← lift (validate_app_id app_id);
  _ ← lift (lock_app app_id);
  view_unlocked s app_id.

Definition changes_from_head (s : FolderStore) (app_id : Z) (head : string) (since : Z)
    : Op ChangeList :=
  _ ← lift (validate_app_id app_id);
  _ ← lift (lock_app app_id);
  r ← resolve_app s app_id;
  if negb (bool_decide (head ∈ ra_heads r))
  then throw (conflict "selected local cloud manifest is not an active head")
  else
    match ra_manifests r !! head with
    | None => throw (incomplete "selected local cloud manifest is unavailable")
    | Some manifest => lift (change_list_from_manifest (Some manifest) since true)
    end.

Definition changes_since (s : FolderStore) (app_id since : Z) : Op ChangeList :=
  _ ← lift (lock_app app_id);
  r ← resolve_app s app_id;
  c ← lift (current r);
  lift (change_list_from_manifest (snd <$> c) since false).

(** [try_fold] with [checked_add] *)
Definition checked_total (files : list StoredFile) : option Z :=
  foldl (λ total file, t ← total; if t + sf_raw_size file <=? u64_max
                                  then Some (t + sf_raw_size file) else None) (Some 0) files.

Definition quota (s : FolderStore) (app_id : Z) : Op Quota :=
  _ ← lift (lock_app app_id);
  r ← resolve_app s app_id;
  c ← lift (current r);
  let files := from_option (λ p, (files_in_order (sm_files p.2)).*2) [] c in
  used_bytes ← lift (ok_or (checked_total files) (permanent "local cloud quota overflow"));
  let used_files := Z.of_nat (length files) in
  if u32_max <? used_files then throw (permanent "local cloud file count overflow")
  else mret {| qt_used_bytes := used_bytes; qt_total_bytes := i64_max;
               qt_used_files := used_files; qt_total_files := u32_max |}.

(** ** Downloads *)

Definition current_manifest (s : FolderStore) (app_id : Z) : Op (option (string * SaveManifest)) :=
  r ← resolve_app s app_id;
  lift (current r).

Definition bind_download (s : FolderStore) (app_id : Z) (path : string)
    : Op (FileEntry * BoundDownload) :=
  _ ← lift (validate_cloud_path path);
  _ ← lift (lock_app app_id);
  c ← current_manifest s app_id;
  match c with
  | None => throw (permanent "local cloud file not found")
  | Some (id, manifest) =>
      match sm_files manifest !! path with
      | None => throw (permanent ("local cloud file not found: " ++ path))
      | Some file =>
          blob_path ← lift (manifest_blob_path s app_id id (sf_sha1 file));
          handle ← open_blob_file blob_path file;
          mret ({| fe_path := path; fe_metadata := metadata_of file;
                   fe_change_number := sm_revision manifest |},
                {| bd_file := handle; bd_metadata := metadata_of file |})
      end
  end.

(** [ByteStore::read] *)
Definition store_read (s : FolderStore) (app_id : Z) (path : string) : Op (list Z) :=
  d ← bind_download s app_id path;
  download_read d.2.

(** ** Save operations *)

Definition validate_operation (s : FolderStore) (op : SaveOperation) : BR unit :=
  reject_if (negb (bool_decide (op_repository op = st_root s))
             || negb (bool_decide (op_manifest_scope op = manifest_scope s (op_app_id op)))
             || negb (op_coordination op =? st_coordination s))
    (permanent "local cloud operation belongs to another store").

Definition is_closed (op : SaveOperation) : Op bool := gets (λ w, bool_decide (op_path op ∈ w_closed w)).
Definition set_closed {E} (op : SaveOperation) : ST E unit := λ w,
  (Ok tt, {| w_root := w_root w; w_calls := w_calls w; w_nonce := w_nonce w;
             w_closed := {[op_path op]} ∪ w_closed w |}).

(** [SaveOperation::abort] *)
Definition abort (op : SaveOperation) : Op unit :=
  closed ← is_closed op;
  _ ← set_closed op;
  if closed : bool then mret tt
  else
    _ ← remove_dir_all_if_exists (op_path op);
    sync_directory (parent (op_path op)).

(** [Drop for SaveOperationInner]: what happens when the last handle goes away. *)
Definition drop_operation {E} (op : SaveOperation) : ST E unit :=
  closed ← gets (λ w, bool_decide (op_path op ∈ w_closed w));
  if closed : bool then mret tt
  else
    _ ← ignore (fs_remove_dir_all (op_path op));
    ignore (sync_directory (parent (op_path op))).

(** A scope that owns the operation. *)
Definition with_operation {A} (op : SaveOperation) (body : Op A) : Op A :=
  r ← attempt body;
  _ ← drop_operation op;
  lift r.

(** What an operation starts from: its parents, the manifest whose files it takes over,
    those files, and whether it publishes even without a change. *)
Definition operation_base (r : ResolvedApp) (base_heads : list string)
    (resolution_heads : option (list string))
    : BR (list string * option string * gmap string StoredFile * bool) :=
  match resolution_heads with
  | Some expected =>
      if (length expected <? 2)%nat || negb (bool_decide (ra_heads r = expected))
      then Err (conflict "local cloud conflict heads changed before resolution")
      else
        match base_heads with
        | [selected] =>
            m ← ok_or (ra_manifests r !! selected)
                  (permanent "selected local conflict manifest is not an active head");
            Ok (expected, Some selected, sm_files m, true)
        | _ => Err (permanent "local conflict resolution requires one selected base")
        end
  | None =>
      if negb (bool_decide (ra_heads r = base_heads))
      then Err (conflict "local cloud changed after the upload batch began")
      else if (1 <? length (ra_heads r))%nat
      then Err (conflict "ordinary upload cannot cover unresolved manifest heads")
      else
        c ← current r;
        Ok (base_heads, head base_heads, from_option (λ p, sm_files p.2) ∅ c, false)
  end.

(** The loop that links the blobs of the base manifest into the operation. *)
Fixpoint link_blobs (s : FolderStore) (app_id : Z) (selected_id : string) (operation : Path)
    (files : list StoredFile) (copied : gset string) : Op unit :=
  match files with
  | [] => mret tt
  | file :: files =>
      if bool_decide (sf_sha1 file ∈ copied)
      then link_blobs s app_id selected_id operation files copied
      else
        source ← lift (manifest_blob_path s app_id selected_id (sf_sha1 file));
        target ← lift (operation_blob_path operation (sf_sha1 file));
        _ ← link_or_copy source target;
        link_blobs s app_id selected_id operation files ({[sf_sha1 file]} ∪ copied)
  end.

Definition begin_operation_with_revision (s : FolderStore) (app_id : Z)
    (base_heads : list string) (resolution_heads : option (list string))
    (minimum_revision : Z) : Op SaveOperation :=
  _ ← lift (validate_app_id app_id);
  _ ← lift (lock_app app_id);
  r ← resolve_app s app_id;
  base_heads ← lift (normalized_head_ids base_heads);
  resolution_heads ← lift (match resolution_heads with
                           | Some ids => Some <$> normalized_head_ids ids
                           | None => Ok None
                           end);
  '(parents, selected_id, original_files, force_publish) ←
    lift (operation_base r base_heads resolution_heads);
  nonce ← next_nonce;
  let operation_path := st_work_root s ++ [("operation-" ++ nonce)%string] in
  let operation_blobs := operation_path ++ ["blobs"] in
  _ ← create_durable_dir_all operation_blobs;
  _ ← match selected_id with
      | Some selected_id =>
          _ ← link_blobs s app_id selected_id operation_path (files_in_order original_files).*2 ∅;
          sync_directory operation_blobs
      | None => mret tt
      end;
  mret {| op_coordination := st_coordination s; op_repository := st_root s;
          op_manifest_scope := manifest_scope s app_id; op_app_id := app_id;
          op_path := operation_path;
          op_expected_heads := default base_heads resolution_heads;
          op_parents := parents; op_original_files := original_files;
          op_force_publish := force_publish; op_minimum_revision := minimum_revision |}.

Definition begin_operation (s : FolderStore) (app_id : Z) (base_heads : list string)
    (resolution_heads : option (list string)) : Op SaveOperation :=
  begin_operation_with_revision s app_id base_heads resolution_heads 0.

Definition stage_file (s : FolderStore) (op : SaveOperation) (path : string)
    (contents : list Z) (metadata : FileMetadata) : Op StagedFile :=
  _ ← lift (validate_operation s op);
  closed ← is_closed op;
  if closed : bool then throw (permanent "local cloud operation is closed")
  else
    _ ← lift (validate_cloud_path path);
    _ ← lift (validate_metadata contents metadata);
    let blob_sha1 := to_ascii_lowercase (fm_sha1 metadata) in
    blob ← lift (operation_blob_path (op_path op) blob_sha1);
    _ ← atomic_publish blob contents;
    mret {| sg_path := path; sg_blob_sha1 := blob_sha1; sg_metadata := metadata |}.

Definition staged_stored (file : StagedFile) : StoredFile :=
  {| sf_sha1 := sg_blob_sha1 file; sf_raw_size := fm_raw_size (sg_metadata file);
     sf_mtime := fm_mtime (sg_metadata file);
     sf_platforms_to_sync := fm_platforms_to_sync (sg_metadata file) |}.

Fixpoint remove_deleted (files : gmap string StoredFile) (deleted : list string)
    : BR (gmap string StoredFile) :=
  match deleted with
  | [] => Ok files
  | path :: deleted =>
      _ ← validate_cloud_path path;
      remove_deleted (delete path files) deleted
  end.

Fixpoint insert_staged (files : gmap string StoredFile) (staged : list StagedFile)
    : BR (gmap string StoredFile) :=
  match staged with
  | [] => Ok files
  | file :: staged =>
      _ ← validate_cloud_path (sg_path file);
      insert_staged (<[sg_path file := staged_stored file]> files) staged
  end.

(** The loop that removes the blobs no file needs any more. *)
Definition prune_operation_blobs (op : SaveOperation) (files : gmap string StoredFile)
    : Op unit :=
  let retained : gset string := list_to_set ((λ p, sf_sha1 p.2) <$> files_in_order files) in
  let directory := op_path op ++ ["blobs"] in
  entries ← io (fs_read_dir directory);
  for_each (λ '(name, node),
    _ ← io fs_touch;
    if negb (is_utf8 name) then throw (permanent "local cloud blob name is not UTF-8")
    else
      _ ← io fs_touch;
      if negb (is_file (Some node)) || negb (is_ok (validate_blob_hash name))
      then throw (permanent "invalid local cloud operation blob")
      else if negb (bool_decide (name ∈ retained)) then remove_if_exists (directory ++ [name])
      else mret tt) entries.

Definition verify_operation_files (op : SaveOperation) (files : gmap string StoredFile)
    : Op unit :=
  for_each (λ '(path, file),
    _ ← lift (validate_cloud_path path);
    blob ← lift (operation_blob_path (op_path op) (sf_sha1 file));
    verify_blob_file blob file) (files_in_order files).

Definition publish_operation (s : FolderStore) (op : SaveOperation)
    (files : gmap string StoredFile) (identity : CommitIdentity) (max_revision : Z) : Op Z :=
  if u64_max <? max_revision + 1 then throw (permanent "local cloud revision overflow")
  else
    let revision := max_revision + 1 in
    account ← lift (manifest_account s);
    created_at_ms ← unix_millis;
    let manifest := {|
      sm_steam_id64 := account; sm_app_id := op_app_id op; sm_revision := revision;
      sm_parents := op_parents op; sm_client_id := ci_client_id identity;
      sm_machine_name := ci_machine_name identity; sm_created_at_ms := created_at_ms;
      sm_files := files |} in
    bytes ← json (manifest_to_vec manifest);
    if MAX_MANIFEST_BYTES <? Z.of_nat (length bytes)
    then throw (permanent "local cloud manifest is too large")
    else
      let id := hex_digest sha256 bytes in
      _ ← lift (validate_manifest id account (op_app_id op) manifest);
      _ ← atomic_publish (op_path op ++ ["manifest.json"]) bytes;
      _ ← sync_directory (op_path op ++ ["blobs"]);
      _ ← sync_directory (op_path op);
      _ ← create_durable_dir_all (app_dir s (op_app_id op));
      destination ← lift (manifest_dir s (op_app_id op) id);
      _ ← io (fs_rename (op_path op) destination);
      _ ← set_closed op;
      _ ← sync_directory (st_work_root s);
      _ ← sync_directory (app_dir s (op_app_id op));
      mret revision.

Definition commit_operation (s : FolderStore) (op : SaveOperation) (staged : list StagedFile)
    (deleted : gset string) (identity : CommitIdentity) : Op Z :=
  _ ← lift (validate_operation s op);
  _ ← lift (validate_identity identity);
  closed ← is_closed op;
  if closed : bool then throw (permanent "local cloud operation is closed")
  else
    _ ← lift (lock_app (op_app_id op));
    r ← resolve_app s (op_app_id op);
    if negb (bool_decide (ra_heads r = op_expected_heads op))
    then throw (conflict "local cloud changed after the upload batch began")
    else
      files ← lift (remove_deleted (op_original_files op) (sort_by_key id (elements deleted)));
      files ← lift (insert_staged files staged);
      _ ← prune_operation_blobs op files;
      _ ← verify_operation_files op files;
      if bool_decide (files = op_original_files op) && negb (op_force_publish op)
      then
        c ← lift (current r);
        _ ← set_closed op;
        _ ← remove_dir_all_if_exists (op_path op);
        _ ← sync_directory (st_work_root s);
        mret (from_option (λ p, sm_revision p.2) 0 c)
      else
        publish_operation s op files identity (Z.max (ra_max_revision r) (op_minimum_revision op)).

Definition abort_operation (s : FolderStore) (op : SaveOperation) : Op unit :=
  _ ← lift (validate_operation s op);
  abort op.

(** ** Resolving conflicts *)

Definition resolve_to_manifest (s : FolderStore) (app_id : Z) (expected_heads : list string)
    (selected_head : string) (identity : CommitIdentity) (minimum_revision : Z) : Op Z :=
  _ ← lift (validate_app_id app_id);
  _ ← lift (validate_identity identity);
  expected_heads ← lift (normalized_head_ids expected_heads);
  op ← begin_operation_with_revision s app_id [selected_head] (Some expected_heads)
         minimum_revision;
  with_operation op (commit_operation s op [] ∅ identity).

(** The heads to merge when all of them have the same files. *)
Definition identical_heads (r : ResolvedApp) : BR (option (list string * string)) :=
  match ra_heads r with
  | selected :: _ :: _ =>
      m ← manifest_at (ra_manifests r) selected;
      if forallb (λ head, bool_decide
                            (sm_files <$> ra_manifests r !! head = Some (sm_files m)))
           (ra_heads r)
      then Ok (Some (ra_heads r, selected)) else Ok None
  | _ => Ok None
  end.

Definition resolve_identical_heads (s : FolderStore) (app_id : Z) (identity : CommitIdentity)
    : Op (option Z) :=
  _ ← lift (validate_app_id app_id);
  _ ← lift (validate_identity identity);
  _ ← lift (lock_app app_id);
  r ← resolve_app s app_id;
  choice ← lift (identical_heads r);
  match choice with
  | None => mret None
  | Some (heads, selected) =>
      op ← begin_operation s app_id [selected] (Some heads);
      revision ← with_operation op (commit_operation s op [] ∅ identity);
      mret (Some revision)
  end.

(** ** [ByteStore::write] and [CloudFileStore::delete] *)

Definition current_identity (descriptor : option DeviceDescriptor) : BR CommitIdentity :=
  d ← ok_or descriptor (permanent "local cloud device identity is unavailable");
  let identity := {| ci_client_id := dd_client_id d; ci_machine_name := dd_machine_name d |} in
  _ ← validate_identity identity;
  Ok identity.

Definition store_write (s : FolderStore) (descriptor : option DeviceDescriptor) (app_id : Z)
    (path : string) (contents : list Z) (metadata : FileMetadata) : Op Z :=
  v ← view s app_id;
  identity ← lift (current_identity descriptor);
  op ← begin_operation s app_id (head_ids v) None;
  with_operation op (
    staged ← stage_file s op path contents metadata;
    commit_operation s op [staged] ∅ identity).

Definition store_delete (s : FolderStore) (descriptor : option DeviceDescriptor) (app_id : Z)
    (path : string) : Op Z :=
  _ ← lift (validate_cloud_path path);
  v ← view s app_id;
  identity ← lift (current_identity descriptor);
  op ← begin_operation s app_id (head_ids v) None;
  with_operation op (commit_operation s op [] {[path]} identity).
End store.
