(* ===== verification/FolderStoreProofs.v ===== *)
(** * FolderStoreProofs: reading a repository

    [repository] says what a readable app directory holds. Whatever the host does, the
    manifests a call collects are the ones the directory holds; and a host that does
    not fail collects them all. *)

From Stdlib Require Import ZArith Lia.
From S2P Require Import Prelude RustStd CloudCore FileSystem StoreFiles StoreFilesProofs.
From S2P Require Import FolderStore.

Local Open Scope Z_scope.

(** ** What a readable repository is *)

Section repository.
Context {C : StoreCodec}.

(** The blobs are the expected ones, of the expected sizes. *)
Definition blobs_match (blobs : gmap string Node) (files : gmap string StoredFile) : Prop :=
  dom blobs = dom (expected_blobs files) ∧
  ∀ name n, blobs !! name = Some n →
    is_utf8 name = true ∧ is_lower_hex 40 name = true ∧
    ∃ b, n = File b ∧ expected_blobs files !! name = Some (Z.of_nat (length b)).

Definition manifest_node (bytes : list Z) (blobs : gmap string Node) : Node :=
  Dir (<["manifest.json" := File bytes]> {["blobs" := Dir blobs]}).

Lemma get_manifest_json b bl : get ["manifest.json"] (manifest_node b bl) = Some (File b).
Proof. unfold manifest_node, get. by rewrite lookup_insert_eq. Qed.
Lemma get_blobs b bl q : get ("blobs" :: q) (manifest_node b bl) = get q (Dir bl).
Proof.
  unfold manifest_node. cbn [get]. by rewrite lookup_insert_ne, lookup_singleton_eq.
Qed.

(** A directory that is the manifest [id] of the account and app. *)
Definition complete_manifest (account : string) (app_id : Z) (id : string) (n : Node)
    (m : SaveManifest) : Prop :=
  ∃ bytes blobs, n = manifest_node bytes blobs ∧
    Z.of_nat (length bytes) ≤ MAX_MANIFEST_BYTES ∧ hex_digest sha256 bytes = id ∧
    manifest_from_slice bytes = Ok m ∧ validate_manifest id account app_id m = Ok tt ∧
    blobs_match blobs (sm_files m).

(** An entry of an app directory: one of the other components', or a manifest. *)
Definition app_entry (account : string) (app_id : Z) (manifests : gmap string SaveManifest)
    (name : string) (n : Node) : Prop :=
  is_utf8 name = true ∧
  (is_non_manifest_app_entry name = true ∧ manifests !! name = None ∨
   is_non_manifest_app_entry name = false ∧ validate_manifest_id name = Ok tt ∧
   ∃ m, manifests !! name = Some m ∧ complete_manifest account app_id name n m).

Definition repository (account : string) (app_id : Z) (n : option Node)
    (manifests : gmap string SaveManifest) : Prop :=
  ∃ es, dir_entries n es ∧ Z.of_nat (size manifests) ≤ MAX_MANIFEST_OBJECTS ∧
    map_Forall (app_entry account app_id manifests) es ∧ dom manifests ⊆ dom es.

Lemma repository_lookup account app_id es manifests name m :
  repository account app_id (Some (Dir es)) manifests → manifests !! name = Some m →
  ∃ n, es !! name = Some n ∧ validate_manifest_id name = Ok tt ∧
       complete_manifest account app_id name n m.
Proof.
  intros (es' & [[= <-]|[? _]] & _ & Hes & Hdom) Hm; [|done].
  apply elem_of_dom_2 in Hm as Hd. apply Hdom, elem_of_dom in Hd as [n Hn].
  pose proof (Hes _ _ Hn) as [_ [[_ ?]|(_ & Hid & m' & Hm' & Hc)]]; [congruence|].
  rewrite Hm in Hm'. injection Hm' as <-. eauto.
Qed.

Lemma complete_manifest_dir account app_id id n m :
  complete_manifest account app_id id n m → is_dir (Some n) = true.
Proof. by intros (bytes & blobs & -> & _). Qed.

(** A directory holds one set of manifests only. *)
Lemma complete_manifest_unique account app_id id n m m' :
  complete_manifest account app_id id n m → complete_manifest account app_id id n m' → m = m'.
Proof.
  intros (b & bl & -> & _ & _ & Hm & _) (b' & bl' & Hn & _ & _ & Hm' & _).
  apply Dir_inj, (f_equal (lookup "manifest.json")) in Hn. rewrite !lookup_insert_eq in Hn.
  congruence.
Qed.

Lemma repository_unique account app_id n ms ms' :
  repository account app_id n ms → repository account app_id n ms' → ms = ms'.
Proof.
  assert (Hgo : ∀ ms ms' name m, repository account app_id n ms →
    repository account app_id n ms' → ms !! name = Some m → ms' !! name = Some m).
  { intros xs ys name m Hxs Hys Hm. pose proof Hxs as (es & [->|[-> ->]] & _ & _ & Hdom).
    - destruct (repository_lookup _ _ _ _ _ _ Hxs Hm) as (n' & Hn & _ & Hc).
      destruct Hys as (es' & [[= <-]|[? _]] & _ & Hes & _); [|done].
      pose proof (Hxs) as (es' & [[= <-]|[? _]] & _ & Hes' & _); [|done].
      pose proof (Hes _ _ Hn) as [_ [[Hno _]|(_ & _ & m' & Hm' & Hc')]].
      + pose proof (Hes' _ _ Hn) as [_ [[_ ?]|(Hyes & _)]]; congruence.
      + by rewrite (complete_manifest_unique _ _ _ _ _ _ Hc Hc').
    - apply elem_of_dom_2 in Hm. set_solver. }
  intros H1 H2. apply map_eq. intros name.
  destruct (ms !! name) as [m|] eqn:E; [exact (eq_sym (Hgo _ _ _ _ H1 H2 E))|].
  destruct (ms' !! name) as [m|] eqn:E'; [|done]. by rewrite (Hgo _ _ _ _ H2 H1 E') in E.
Qed.
End repository.

(** ** Directory listings *)

Section listings.
Context {H : Host}.

Lemma elem_of_entries es c x : (c, x) ∈ entries_in_order es ↔ es !! c = Some x.
Proof.
  unfold entries_in_order. rewrite list_elem_of_omap. split.
  - intros (c' & _ & Hc). destruct (es !! c') eqn:E; [|done]. by injection Hc as -> ->.
  - intros Hc. exists c. rewrite dir_order_perm, elem_of_elements, Hc.
    split; [by eapply elem_of_dom_2|done].
Qed.

Lemma omap_entries_fst (es : gmap string Node) l :
  (∀ c, c ∈ l → is_Some (es !! c)) →
  (omap (λ c, x ← es !! c; Some (c, x)) l).*1 = l.
Proof.
  induction l as [|c l IH]; intros Hl; [done|]. simpl.
  destruct (Hl c) as [x Hx]; [by left|]. rewrite Hx. simpl. f_equal. apply IH.
  intros d Hd. apply Hl. by right.
Qed.

Lemma entries_fst es : (entries_in_order es).*1 = dir_order (dom es).
Proof.
  apply omap_entries_fst. intros c. rewrite dir_order_perm, elem_of_elements. by apply elem_of_dom.
Qed.

Lemma NoDup_entries es : NoDup (entries_in_order es).*1.
Proof. rewrite entries_fst, dir_order_perm. apply NoDup_elements. Qed.

Lemma length_entries es : length (entries_in_order es) = size es.
Proof.
  rewrite <-(length_fmap fst), entries_fst, dir_order_perm.
  change (length (elements (dom es))) with (size (dom es)). apply size_dom.
Qed.

Lemma entries_set es : list_to_set (entries_in_order es).*1 = dom es.
Proof. rewrite entries_fst, dir_order_perm. apply list_to_set_elements_L. Qed.
End listings.

(** ** What a successful read says *)

Section reading.
Context {H : Host} {C : StoreCodec}.

Lemma keeps_directory_entries l n m b :
  keeps same_world (manifest_directory_entries l n m b).
Proof. revert n m b. induction l as [|[]]; intros; simpl; unfold io; keeps_tac. Qed.

Lemma directory_entries_Ok l n m b w n' m' b' w' :
  manifest_directory_entries l n m b w = (Ok (n', m', b'), w') →
  n' = (n + length l)%nat ∧
  (m' = true → m = true ∨ ∃ bytes, ("manifest.json", File bytes) ∈ l) ∧
  (b' = true → b = true ∨ ∃ blobs, ("blobs", Dir blobs) ∈ l).
Proof.
  revert n m b w. induction l as [|[name node] l IH]; intros n m b w Hm; simpl in Hm; st_inv.
  { split; [simpl; lia|]. auto. }
  case_match; st_inv. case_match; st_inv. apply IH in Hm as (-> & Hm' & Hb').
  split; [clear; simpl; lia|]. split.
  - intros [Hm|[bytes ?]]%Hm'; [|right; eexists; by right].
    apply orb_true_iff in Hm as [?|[Hn Hf]%andb_true_iff]; [by left|right].
    apply bool_decide_eq_true in Hn as ->. destruct node; [|done..]. eexists. by left.
  - intros [Hm|[bytes ?]]%Hb'; [|right; eexists; by right].
    apply orb_true_iff in Hm as [?|[Hn Hf]%andb_true_iff]; [by left|right].
    apply bool_decide_eq_true in Hn as ->. destruct node; [done| |done]. eexists. by left.
Qed.

(** A map of two bindings that are known is known. *)
Lemma size_two_map (es : gmap string Node) a b x y :
  a ≠ b → es !! a = Some x → es !! b = Some y → size es = 2%nat → es = <[a := x]> {[b := y]}.
Proof.
  intros Hab Ha Hb Hs. rewrite <-(insert_delete_id es a x) by done. f_equal.
  assert (Hb' : delete a es !! b = Some y) by (by rewrite lookup_delete_ne).
  rewrite <-(insert_delete_id _ _ _ Hb').
  assert (delete b (delete a es) = ∅) as ->.
  { apply map_size_empty_inv. rewrite map_size_delete, Hb', map_size_delete, Ha, Hs. done. }
  done.
Qed.

Lemma validate_directory_Ok p w w' :
  validate_manifest_directory p w = (Ok tt, w') →
  ∃ bytes blobs, at_path p w = Some (manifest_node bytes blobs).
Proof.
  unfold validate_manifest_directory. intros Hm. st_inv.
  apply read_dir_Ok in Hx as (es & Hp & -> & _).
  apply directory_entries_Ok in Hx0 as (-> & Hb & Hbl).
  case_match eqn:E; st_inv. apply orb_false_iff in E as [[Hn Hm1]%orb_false_iff Hm2].
  apply negb_false_iff in Hn, Hm1, Hm2. apply Nat.eqb_eq in Hn.
  destruct (Hb Hm1) as [?|[bytes Hbytes]]; [done|]. destruct (Hbl Hm2) as [?|[blobs Hblobs]]; [done|].
  exists bytes, blobs. rewrite Hp. unfold manifest_node. do 2 f_equal.
  apply elem_of_entries in Hbytes, Hblobs. rewrite length_entries in Hn.
  by apply size_two_map.
Qed.

Lemma keeps_blob_entries l e a : keeps same_world (manifest_blob_entries l e a).
Proof. revert a. induction l as [|[]]; intros; simpl; unfold io; keeps_tac. Qed.

Lemma blob_entries_Ok l e a w a' w' :
  manifest_blob_entries l e a w = (Ok a', w') →
  a' = list_to_set l.*1 ∪ a ∧
  ∀ name n, (name, n) ∈ l → is_utf8 name = true ∧ is_lower_hex 40 name = true ∧
    ∃ b, n = File b ∧ e !! name = Some (Z.of_nat (length b)).
Proof.
  revert a w. induction l as [|[name node] l IH]; intros a w Hm; simpl in Hm; st_inv.
  { split; [set_solver|]. intros ??. by rewrite elem_of_nil. }
  destruct node as [b|es|]; st_inv.
  destruct (is_utf8 name) eqn:Hu; simpl in Hm; st_inv.
  destruct (is_lower_hex 40 name) eqn:Hl; simpl in Hm; st_inv.
  destruct (e !! name) as [sz|] eqn:He; st_inv. case_match eqn:Hz; st_inv.
  apply IH in Hm as [-> Hin]. split; [simpl; set_solver|].
  intros name' n [[= -> ->]|Hin']%elem_of_cons; [|by apply Hin].
  split; [done|]. split; [done|]. exists b. split; [done|].
  apply negb_false_iff, Z.eqb_eq in Hz. by rewrite Hz.
Qed.

Lemma validate_blobs_Ok p files w w' :
  validate_manifest_blobs p files w = (Ok tt, w') →
  ∃ blobs, at_path p w = Some (Dir blobs) ∧ blobs_match blobs files.
Proof.
  unfold validate_manifest_blobs. intros Hm. st_inv.
  apply read_dir_Ok in Hx as (es & Hp & -> & _). apply blob_entries_Ok in Hx0 as [-> Hin].
  case_bool_decide as Hd; simpl in Hm; st_inv. exists es. split; [done|]. split.
  - by rewrite <-Hd, entries_set, union_empty_r_L.
  - intros name n Hn. by apply Hin, elem_of_entries.
Qed.

Lemma keeps_validate_directory p : keeps same_world (validate_manifest_directory p).
Proof.
  unfold validate_manifest_directory, io. keeps_tac; eauto using keeps_directory_entries with keeps.
Qed.
Lemma keeps_validate_blobs p files : keeps same_world (validate_manifest_blobs p files).
Proof.
  unfold validate_manifest_blobs, io. keeps_tac; eauto using keeps_blob_entries with keeps.
Qed.
#[local] Hint Resolve keeps_validate_directory keeps_validate_blobs : keeps.

Lemma keeps_read_manifest d acc app name : keeps same_world (read_manifest d acc app name).
Proof. unfold read_manifest. keeps_tac. Qed.

Lemma read_manifest_Ok d acc app name w m w' :
  read_manifest d acc app name w = (Ok m, w') →
  ∃ n, at_path (d ++ [name]) w = Some n ∧ complete_manifest acc app name n m.
Proof.
  unfold read_manifest. intros Hm. st_inv. apply keeps_validate_directory in Hx as Hs.
  apply validate_directory_Ok in Hx as (bytes & blobs & Hp).
  apply bounded_Ok in Hx0 as (Hb & Hlen & Hs1).
  assert (Hp1 : ∀ c q, at_path ((d ++ [name]) ++ c :: q) w =
            get (c :: q) (manifest_node bytes blobs)).
  { intros c q. unfold at_path in *. by rewrite get_app, Hp. }
  rewrite (same_world_at _ _ _ Hs), Hp1, get_manifest_json in Hb. injection Hb as <-.
  case_bool_decide as Hid; simpl in Hm; st_inv.
  destruct (manifest_from_slice bytes) as [m'|] eqn:Hj; st_inv.
  apply validate_blobs_Ok in Hx0 as (bl & Hbl & Hmatch).
  rewrite (same_world_at _ _ _ Hs1), (same_world_at _ _ _ Hs), Hp1, get_blobs in Hbl.
  cbn [get] in Hbl. injection Hbl as <-.
  exists (manifest_node bytes blobs). split; [done|]. exists bytes, blobs. auto 10.
Qed.

Lemma keeps_manifest_entry name n k : keeps same_world (manifest_entry name n k).
Proof. unfold manifest_entry, io. keeps_tac. Qed.

Lemma manifest_entry_Ok name n k w b w' :
  manifest_entry name n k w = (Ok b, w') →
  is_utf8 name = true ∧ is_non_manifest_app_entry name = negb b ∧
  (b = true → validate_manifest_id name = Ok tt ∧ Z.of_nat k < MAX_MANIFEST_OBJECTS).
Proof.
  unfold manifest_entry. intros Hm. st_inv. destruct (is_utf8 name); simpl in Hm; st_inv.
  split; [done|]. destruct (is_non_manifest_app_entry name); st_inv; [split; [done|discriminate]|].
  destruct (Z.leb_spec MAX_MANIFEST_OBJECTS (Z.of_nat k)); st_inv.
  destruct (negb _ || negb _) eqn:E; st_inv. split; [done|]. intros _. split; [|done].
  apply orb_false_iff in E as [_ E]. apply negb_false_iff in E.
  by destruct (validate_manifest_id name) as [[]|].
Qed.

Lemma keeps_manifest_entries d acc app l ms :
  keeps same_world (manifest_entries d acc app l ms).
Proof.
  revert ms. induction l as [|[]]; intros; simpl; keeps_tac;
    eauto using keeps_manifest_entry, keeps_read_manifest with keeps.
Qed.

(** What reading an entry of an app directory established. *)
Definition entry_read (d : Path) (acc : string) (app : Z) (ms : gmap string SaveManifest)
    (w : World) (name : string) : Prop :=
  is_utf8 name = true ∧
  (is_non_manifest_app_entry name = true ∨
   is_non_manifest_app_entry name = false ∧ validate_manifest_id name = Ok tt ∧
   ∃ n m, ms !! name = Some m ∧ at_path (d ++ [name]) w = Some n ∧
          complete_manifest acc app name n m).

Lemma entry_read_world d acc app ms w w' name :
  same_world w w' → entry_read d acc app ms w' name → entry_read d acc app ms w name.
Proof.
  intros Hs [Hu He]. split; [done|]. destruct He as [?|(? & ? & n & m & ? & Hp & ?)]; [by left|].
  right. rewrite (same_world_at _ _ _ Hs) in Hp. eauto 10.
Qed.

Lemma manifest_entries_Ok d acc app l ms w ms' w' :
  Z.of_nat (size ms) ≤ MAX_MANIFEST_OBJECTS →
  manifest_entries d acc app l ms w = (Ok ms', w') →
  Z.of_nat (size ms') ≤ MAX_MANIFEST_OBJECTS ∧ ms ⊆ ms' ∧
  dom ms' ⊆ dom ms ∪ list_to_set l.*1 ∧
  (∀ name, is_non_manifest_app_entry name = true → ms !! name = None → ms' !! name = None) ∧
  ∀ name, name ∈ l.*1 → entry_read d acc app ms' w name.
Proof.
  revert ms w. induction l as [|[name node] l IH]; intros ms w Hsz Hm; simpl in Hm; st_inv.
  { do 3 (split; [set_solver|]). split; [done|]. intros ?. by rewrite elem_of_nil. }
  apply keeps_manifest_entry in Hx as Hs0.
  apply manifest_entry_Ok in Hx as (Hu & Hnon & Hyes). destruct x; simpl in Hm; st_inv.
  - destruct (Hyes eq_refl) as [Hid Hk]. apply keeps_read_manifest in Hx as Hs1.
    apply read_manifest_Ok in Hx as (n & Hn & Hc).
    case_bool_decide as Hno; st_inv. apply eq_None_not_Some in Hno.
    apply IH in Hm as (Hsz' & Hsub & Hdom & Hnone & Hin).
    2: { rewrite map_size_insert_None by done. lia. }
    assert (Hms : ms' !! name = Some x)
      by (eapply lookup_weaken; [|done]; by rewrite lookup_insert_eq).
    split; [done|]. split; [etrans; [by apply insert_subseteq|done]|].
    split; [rewrite dom_insert_L in Hdom; clear -Hdom; csimpl; set_solver|]. split.
    { intros a Ha Hb. apply Hnone; [done|]. rewrite lookup_insert_ne; [done|]. intros ->. simpl in Hnon. congruence. }
    intros a [->|Ha]%elem_of_cons.
    + split; [done|]. right. rewrite (same_world_at _ _ _ Hs0) in Hn. eauto 10.
    + eapply entry_read_world; [by trans w0|]. by apply Hin.
  - apply IH in Hm as (Hsz' & Hsub & Hdom & Hnone & Hin); [|done].
    do 2 (split; [done|]). split; [clear -Hdom; csimpl; set_solver|]. split; [done|].
    intros a [->|Ha]%elem_of_cons; [split; [done|by left]|].
    eapply entry_read_world; [done|]. by apply Hin.
Qed.

Lemma keeps_collect s app : keeps same_world (collect_manifest_objects s app).
Proof.
  unfold collect_manifest_objects, io. keeps_tac; eauto using keeps_manifest_entries with keeps.
Qed.

(** What was collected is what the directory holds. *)
Lemma collect_Ok s app w ms w' :
  collect_manifest_objects s app w = (Ok ms, w') →
  ∃ account, st_account s = Some account ∧ repository account app (at_path (app_dir s app) w) ms.
Proof.
  unfold collect_manifest_objects. intros Hm. st_inv. unfold manifest_account in *.
  destruct (st_account s) as [account|]; [|done]. simpl in *. simplify_eq. exists x.
  split; [done|]. case_bool_decide as Hp; simpl in Hm; st_inv.
  2: { exists ∅. split; [right; split; [by apply eq_None_not_Some|done]|].
       rewrite map_size_empty. split; [done|]. split; [apply map_Forall_empty|set_solver]. }
  apply read_dir_Ok in Hx as (es & Hes & -> & Hs).
  apply manifest_entries_Ok in Hm as (Hsz & _ & Hdom & Hnone & Hin); [|by rewrite map_size_empty].
  exists es. split; [by left|]. split; [done|]. split.
  - intros name n Hn. destruct (Hin name) as [Hu He].
    { apply (elem_of_list_to_set (C := gset string)). rewrite entries_set.
      by eapply elem_of_dom_2. }
    split; [done|]. destruct He as [?|(? & ? & n' & m & Hm & Hp' & Hc)].
    + left. split; [done|]. apply Hnone; [done|]. apply lookup_empty.
    + right. rewrite (same_world_at _ _ _ Hs) in Hp'. unfold at_path in *.
      rewrite get_snoc, Hes, Hn in Hp'. injection Hp' as ->. eauto 10.
  - rewrite entries_set, dom_empty_L, union_empty_l_L in Hdom. done.
Qed.

Lemma keeps_resolve s app : keeps same_world (resolve_app s app).
Proof. unfold resolve_app. keeps_tac; eauto using keeps_collect with keeps. Qed.

Lemma resolve_Ok s app w r w' :
  resolve_app s app w = (Ok r, w') →
  ∃ account ms, st_account s = Some account ∧ app ≠ 0 ∧ r = resolved ms ∧
    repository account app (at_path (app_dir s app) w) ms.
Proof.
  unfold resolve_app. intros Hm. st_inv.
  match goal with Hc : collect_manifest_objects _ _ _ = (Ok ?ms, _) |- _ =>
    apply collect_Ok in Hc as (account & Ha & Hrep); exists account, ms end. unfold validate_app_id, reject_if in *.
  destruct (Z.eqb_spec app 0); [done|]. auto.
Qed.
End reading.
#[export] Hint Resolve keeps_resolve keeps_collect : keeps.
