(* ===== verification/StoreCommit.v ===== *)
(** * StoreCommit: save operations

    What beginning, staging and committing do to a repository, whatever calls fail. A
    commit leaves the app directory alone or adds one complete manifest to it. *)

From Stdlib Require Import ZArith Lia.
From S2P Require Import Prelude RustStd CloudCore FileSystem StoreFiles StoreFilesProofs.
From S2P Require Import FolderStore FolderStoreProofs.

Local Open Scope Z_scope.

(** ** Heads *)

Section heads.
Implicit Types ms : gmap string SaveManifest.

Lemma elem_of_referenced ms id :
  id ∈ referenced ms ↔ ∃ k m, ms !! k = Some m ∧ id ∈ sm_parents m.
Proof.
  unfold referenced. rewrite elem_of_list_to_set, list_elem_of_bind. split.
  - intros (m & Hid & Hm). apply list_elem_of_fmap in Hm as ([k m'] & -> & Hin).
    apply elem_of_map_to_list in Hin. eauto.
  - intros (k & m & Hm & Hid). exists m. split; [done|]. apply list_elem_of_fmap.
    exists (k, m). split; [done|]. by apply elem_of_map_to_list.
Qed.

Lemma elem_of_heads ms id : id ∈ heads_of ms ↔ is_Some (ms !! id) ∧ id ∉ referenced ms.
Proof.
  unfold heads_of. rewrite elem_of_sort_by_key, list_elem_of_filter, list_elem_of_fmap. split.
  - intros [Hr ([k m] & -> & Hin)]. apply elem_of_map_to_list in Hin. eauto.
  - intros [[m Hm] Hr]. split; [done|]. exists (id, m). split; [done|].
    by apply elem_of_map_to_list.
Qed.

Lemma NoDup_heads ms : NoDup (heads_of ms).
Proof.
  unfold heads_of. rewrite sort_by_key_perm. apply NoDup_filter, NoDup_fst_map_to_list.
Qed.

Lemma heads_singleton ms id : (∀ x, x ∈ heads_of ms ↔ x = id) → heads_of ms = [id].
Proof.
  intros Hh. apply Permutation_length_1_inv. apply NoDup_Permutation; [|apply NoDup_heads|].
  - apply NoDup_singleton.
  - intros x. rewrite Hh. set_solver.
Qed.

Lemma heads_nil ms : heads_of ms = [] ↔ ∀ x, x ∉ heads_of ms.
Proof. split; [intros ->; apply not_elem_of_nil|apply elem_of_nil_inv]. Qed.

(** A manifest over all heads becomes the only one. *)
Lemma heads_insert ms id m :
  ms !! id = None → id ∉ referenced ms → id ∉ sm_parents m → sm_parents m = heads_of ms →
  heads_of (<[id := m]> ms) = [id].
Proof.
  intros Hnew Href Hself Hp. apply heads_singleton. intros x.
  rewrite elem_of_heads, elem_of_referenced. destruct (decide (x = id)) as [->|Hne].
  - rewrite lookup_insert_eq. split; [done|]. intros _. split; [by eauto|].
    intros (k & m' & Hk & Hin). apply lookup_insert_Some in Hk as [[_ <-]|[_ Hk]]; [done|].
    apply Href, elem_of_referenced. eauto.
  - rewrite lookup_insert_ne by done. split; [|done]. intros [Hx Hnr]. exfalso. apply Hnr.
    destruct (decide (x ∈ referenced ms)) as [(k & m' & Hk & Hin)%elem_of_referenced|Hno].
    + exists k, m'. rewrite lookup_insert_ne; [done|]. congruence.
    + exists id, m. rewrite lookup_insert_eq. split; [done|]. rewrite Hp. by apply elem_of_heads.
Qed.

Lemma max_revision_ge ms k m : ms !! k = Some m → sm_revision m ≤ max_revision_of ms.
Proof.
  intros Hm. unfold max_revision_of.
  assert (Hin : m ∈ (map_to_list ms).*2).
  { apply list_elem_of_fmap. exists (k, m). split; [done|]. by apply elem_of_map_to_list. }
  revert Hin. generalize (map_to_list ms).*2. intros l Hin.
  induction l as [|y l IH]; [by apply not_elem_of_nil in Hin|].
  apply elem_of_cons in Hin as [->|Hin]; csimpl; [lia|]. specialize (IH Hin). lia.
Qed.

Lemma max_revision_nonneg ms : 0 ≤ max_revision_of ms.
Proof. unfold max_revision_of. induction (sm_revision <$> _); simpl; lia. Qed.
End heads.

(** ** Blobs of an operation *)

(** Every file has its blob, with the bytes its hash and size say. *)
Definition blobs_hold {C : StoreCodec} (blobs : gmap string Node)
    (files : gmap string StoredFile) : Prop :=
  ∀ path file, files !! path = Some file →
    ∃ b, blobs !! sf_sha1 file = Some (File b) ∧ hex_digest sha1 b = sf_sha1 file ∧
         Z.of_nat (length b) = sf_raw_size file.

Lemma elem_of_files_in_order files path file :
  (path, file) ∈ files_in_order files ↔ files !! path = Some file.
Proof. unfold files_in_order. by rewrite elem_of_sort_by_key, elem_of_map_to_list. Qed.

Lemma expected_blobs_fold (l : list (string * StoredFile)) (m : gmap string Z) h sz :
  foldl (λ m p, <[sf_sha1 p.2 := sf_raw_size p.2]> m) m l !! h = Some sz →
  m !! h = Some sz ∨ ∃ p, p ∈ l ∧ sf_sha1 p.2 = h ∧ sf_raw_size p.2 = sz.
Proof.
  revert m. induction l as [|p l IH]; intros m; simpl; [by left|].
  intros [Hm|(q & Hq & ? & ?)]%IH.
  - destruct (decide (sf_sha1 p.2 = h)) as [<-|Hne].
    + rewrite lookup_insert_eq in Hm. right. exists p. split; [by left|]. by simplify_eq.
    + rewrite lookup_insert_ne in Hm by done. by left.
  - right. exists q. split; [by right|done].
Qed.

Lemma expected_blobs_Some files h sz :
  expected_blobs files !! h = Some sz →
  ∃ path file, files !! path = Some file ∧ sf_sha1 file = h ∧ sf_raw_size file = sz.
Proof.
  intros [?|([path file] & Hin & ? & ?)]%expected_blobs_fold; [by rewrite lookup_empty in *|].
  exists path, file. by rewrite <-elem_of_files_in_order.
Qed.

Lemma dom_expected_fold (l : list (string * StoredFile)) (m : gmap string Z) :
  dom (foldl (λ m p, <[sf_sha1 p.2 := sf_raw_size p.2]> m) m l) =
  list_to_set ((λ p, sf_sha1 p.2) <$> l) ∪ dom m.
Proof.
  revert m. induction l as [|p l IH]; intros m; simpl; [set_solver|].
  rewrite IH, dom_insert_L. set_solver.
Qed.

Lemma dom_expected files :
  dom (expected_blobs files) = list_to_set ((λ p, sf_sha1 p.2) <$> files_in_order files).
Proof. unfold expected_blobs. rewrite dom_expected_fold, dom_empty_L. set_solver. Qed.

(** Blobs that hold the files, and no others, are the ones a reader expects. *)
Lemma blobs_hold_match {C : StoreCodec} blobs files :
  blobs_hold blobs files → dom blobs ⊆ dom (expected_blobs files) →
  (∀ name n, blobs !! name = Some n → is_utf8 name = true ∧ is_lower_hex 40 name = true) →
  blobs_match blobs files.
Proof.
  intros Hh Hd Hn. split.
  - apply set_eq. intros h. split; [apply Hd|]. rewrite !elem_of_dom.
    intros [sz (path & file & Hf & <- & _)%expected_blobs_Some].
    destruct (Hh _ _ Hf) as (b & Hb & _). eauto.
  - intros name n Hname. destruct (Hn _ _ Hname) as [Hu Hl]. split; [done|]. split; [done|].
    apply elem_of_dom_2 in Hname as Hdom. apply Hd, elem_of_dom in Hdom as [sz Hsz].
    pose proof Hsz as (path & file & Hf & Hs & Hr)%expected_blobs_Some.
    destruct (Hh _ _ Hf) as (b & Hb & _ & Hlen). exists b. rewrite Hs in Hb.
    split; congruence.
Qed.

Section blobs.
Context {H : Host} {C : StoreCodec}.

Lemma blob_hash_Ok hash u : validate_blob_hash hash = Ok u → is_lower_hex 40 hash = true.
Proof. unfold validate_blob_hash. by destruct (is_lower_hex 40 hash). Qed.
Lemma manifest_id_Ok id u : validate_manifest_id id = Ok u → is_lower_hex 64 id = true.
Proof. unfold validate_manifest_id. by destruct (is_lower_hex 64 id). Qed.

Lemma remove_if_exists_Ok d c es w w' :
  at_path d w = Some (Dir es) → remove_if_exists (d ++ [c]) w = (Ok tt, w') →
  at_path d w' = Some (Dir (delete c es)).
Proof.
  intros Hd Hm. unfold remove_if_exists in Hm. st_inv. destruct x as [[]|[]]; st_inv.
  - apply keeps_sync in Hm. rewrite (same_world_at _ _ _ Hm). by eapply remove_entry_Ok.
  - apply remove_file_Err in Hx as Hs. rewrite (same_world_at _ _ _ Hs), Hd. do 2 f_equal.
    symmetry. apply delete_id. unfold fs_remove_file, syscall in Hx. destruct (fault _); [done|].
    unfold at_path in Hd. rewrite get_snoc, Hd in Hx. by destruct (es !! c) as [[]|].
Qed.

(** The loop of [prune_operation_blobs] leaves only blobs some file needs. *)
Lemma prune_loop_Ok (retained : gset string) d l es w w' :
  at_path d w = Some (Dir es) →
  for_each (λ '(name, node),
    _ ← io fs_touch;
    if negb (is_utf8 name) then throw (permanent "local cloud blob name is not UTF-8")
    else
      _ ← io fs_touch;
      if negb (is_file (Some node)) || negb (is_ok (validate_blob_hash name))
      then throw (permanent "invalid local cloud operation blob")
      else if negb (bool_decide (name ∈ retained)) then remove_if_exists (d ++ [name])
      else mret tt) l w = (Ok tt, w') →
  ∃ es', at_path d w' = Some (Dir es') ∧ es' ⊆ es ∧
    ∀ name n, (name, n) ∈ l → is_utf8 name = true ∧ is_lower_hex 40 name = true ∧
      (name ∈ retained ∨ es' !! name = None).
Proof.
  revert w es. induction l as [|[name node] l IH]; intros w es Hd Hm; apply for_each_Ok in Hm.
  { subst. exists es. split; [done|]. split; [done|]. intros ??. by rewrite elem_of_nil. }
  destruct Hm as (w1 & Hb & Hl). st_inv. apply keeps_touch in Hx as Hs.
  destruct (is_utf8 name) eqn:Hu; simpl in Hb; st_inv. apply keeps_touch in Hx0 as Hs0.
  destruct (negb _ || negb _) eqn:E in Hb; st_inv. apply orb_false_iff in E as [_ E].
  apply negb_false_iff in E. destruct (validate_blob_hash name) as [u|] eqn:Hv; [|done].
  apply blob_hash_Ok in Hv.
  assert (Hd2 : at_path d w2 = Some (Dir es))
    by (rewrite (same_world_at _ _ _ Hs0), (same_world_at _ _ _ Hs); done).
  case_bool_decide as Hr; simpl in Hb; st_inv.
  - destruct (IH _ _ Hd2 Hl) as (es' & Hd' & Hsub & Hin). exists es'. do 2 (split; [done|]).
    intros name' n [[= -> ->]|Hin']%elem_of_cons; [auto|by eapply Hin].
  - pose proof (remove_if_exists_Ok _ _ _ _ _ Hd2 Hb) as Hd1.
    destruct (IH _ _ Hd1 Hl) as (es' & Hd' & Hsub & Hin). exists es'. split; [done|].
    split; [etrans; [done|apply delete_subseteq]|].
    intros name' n [[= -> ->]|Hin']%elem_of_cons; [|by eapply Hin].
    do 2 (split; [done|]). right. eapply lookup_weaken_None; [|done]. apply lookup_delete_eq.
Qed.

Lemma prune_Ok op files w w' :
  prune_operation_blobs op files w = (Ok tt, w') →
  ∃ es blobs, at_path (op_path op ++ ["blobs"]) w = Some (Dir es) ∧
    at_path (op_path op ++ ["blobs"]) w' = Some (Dir blobs) ∧ blobs ⊆ es ∧
    dom blobs ⊆ dom (expected_blobs files) ∧
    ∀ name n, blobs !! name = Some n → is_utf8 name = true ∧ is_lower_hex 40 name = true.
Proof.
  unfold prune_operation_blobs. intros Hm. st_inv. apply read_dir_Ok in Hx as (es & Hd & -> & Hs).
  exists es. pose proof Hd as Hd0. rewrite <-(same_world_at _ _ _ Hs) in Hd.
  apply (prune_loop_Ok _ _ _ es) in Hm as (es' & Hd' & Hsub & Hin); [|done].
  exists es'. do 3 (split; [done|]).
  assert (Hes : ∀ name n, es' !! name = Some n → (name, n) ∈ entries_in_order es).
  { intros name n Hn. apply elem_of_entries. by eapply lookup_weaken. }
  split.
  - intros name [n Hn]%elem_of_dom. destruct (Hin name n) as (_ & _ & Hr); [by apply Hes|].
    rewrite dom_expected. destruct Hr as [Hr|?]; [done|congruence].
  - intros name n Hn. destruct (Hin name n) as (? & ? & _); [by apply Hes|done].
Qed.

Lemma keeps_open_blob p f : keeps same_world (open_blob_file p f).
Proof. unfold open_blob_file, io. keeps_tac. Qed.
Lemma open_blob_Ok p f w n w' :
  open_blob_file p f w = (Ok n, w') →
  ∃ b, n = File b ∧ at_path p w = Some (File b) ∧ Z.of_nat (length b) = sf_raw_size f.
Proof.
  unfold open_blob_file. intros Hm. case_match; st_inv. apply metadata_Ok in Hx as [Hp Hs].
  destruct x as [b|es|]; st_inv. case_match eqn:E; st_inv.
  apply negb_false_iff, Z.eqb_eq in E. apply metadata_Ok in Hm as [Hp' _].
  rewrite (same_world_at _ _ _ Hs), Hp in Hp'. injection Hp' as <-. eauto.
Qed.

Lemma keeps_verify_blob p f : keeps same_world (verify_blob_file p f).
Proof. unfold verify_blob_file, io. keeps_tac; eauto using keeps_open_blob with keeps. Qed.
Lemma verify_blob_Ok p f w w' :
  verify_blob_file p f w = (Ok tt, w') →
  ∃ b, at_path p w = Some (File b) ∧ hex_digest sha1 b = sf_sha1 f ∧
       Z.of_nat (length b) = sf_raw_size f.
Proof.
  unfold verify_blob_file. intros Hm. st_inv. apply open_blob_Ok in Hx as (b & -> & Hp & Hl).
  apply read_Ok in Hx0 as [[= <-] _]. case_bool_decide; simpl in Hm; st_inv. eauto.
Qed.

Lemma keeps_verify_files op files : keeps same_world (verify_operation_files op files).
Proof.
  unfold verify_operation_files. apply keeps_for_each; [apply _|]. intros [path file] _.
  keeps_tac; eauto using keeps_verify_blob with keeps.
Qed.

Lemma verify_loop_Ok (op : SaveOperation) l w w' :
  for_each (λ '(path, file),
    _ ← lift (validate_cloud_path path);
    blob ← lift (operation_blob_path (op_path op) (sf_sha1 file));
    verify_blob_file blob file) l w = (Ok tt, w') →
  ∀ path file, (path, file) ∈ l →
    ∃ b, at_path (op_path op ++ ["blobs"; sf_sha1 file]) w = Some (File b) ∧
         hex_digest sha1 b = sf_sha1 file ∧ Z.of_nat (length b) = sf_raw_size file.
Proof.
  revert w. induction l as [|[path file] l IH]; intros w Hm path' file' Hin.
  { by apply not_elem_of_nil in Hin. }
  apply for_each_Ok in Hm as (w1 & Hb & Hl). st_inv.
  unfold operation_blob_path in *. res_inv.
  apply keeps_verify_blob in Hb as Hs. apply verify_blob_Ok in Hb.
  apply elem_of_cons in Hin as [[= -> ->]|Hin]; [done|].
  destruct (IH _ Hl _ _ Hin) as (b & Hp & ?). rewrite (same_world_at _ _ _ Hs) in Hp. eauto.
Qed.

Lemma verify_files_Ok op files blobs w w' :
  verify_operation_files op files w = (Ok tt, w') →
  at_path (op_path op ++ ["blobs"]) w = Some (Dir blobs) → blobs_hold blobs files.
Proof.
  intros Hm Hb path file Hf%elem_of_files_in_order.
  destruct (verify_loop_Ok _ _ _ _ Hm _ _ Hf) as (b & Hp & ?). exists b. split; [|done].
  change ["blobs"; sf_sha1 file] with (["blobs"] ++ [sf_sha1 file]) in Hp.
  unfold at_path in *. by rewrite app_assoc, get_snoc, Hb in Hp.
Qed.
End blobs.

(** ** Publishing *)

(** The directory gains one entry, a complete manifest. *)
Definition adds_manifest {C : StoreCodec} (account : string) (app_id : Z) (dir : Path)
    (w w' : World) (id : string) (n : Node) (m : SaveManifest) : Prop :=
  ∃ es, dir_entries (at_path dir w) es ∧ es !! id = None ∧
    at_path dir w' = Some (Dir (<[id := n]> es)) ∧
    validate_manifest_id id = Ok tt ∧ complete_manifest account app_id id n m.

(** The stored blobs of a manifest directory, some of the given ones, hold its files. *)
Definition holds_files {C : StoreCodec} (from : gmap string Node) (n : Node)
    (files : gmap string StoredFile) : Prop :=
  ∃ bytes blobs, n = manifest_node bytes blobs ∧ blobs ⊆ from ∧ blobs_hold blobs files.

(** A store whose work directory is outside the repository, and an operation in it. *)
Definition separate (s : FolderStore) : Prop := apart (st_root s) (st_work_root s).
Definition working (s : FolderStore) (op : SaveOperation) : Prop :=
  ∃ c, op_path op = st_work_root s ++ [c].

(** An operation's directory holds its blobs and nothing else. *)
Definition ready (op : SaveOperation) (blobs : gmap string Node) (w : World) : Prop :=
  at_path (op_path op) w = Some (Dir {["blobs" := Dir blobs]}).

Lemma app_dir_apart s app : separate s → apart (st_work_root s) (app_dir s app).
Proof.
  intros Hs. unfold app_dir, account_dir. rewrite <-app_assoc.
  by apply apart_app_r, apart_sym.
Qed.

Lemma op_app_apart s op app : separate s → working s op → apart (op_path op) (app_dir s app).
Proof. intros Hs [c ->]. by apply apart_app_l, app_dir_apart. Qed.

Lemma lower_hex_manifest name :
  is_lower_hex 64 name = true → is_non_manifest_app_entry name = false.
Proof.
  intros Hl. unfold is_non_manifest_app_entry.
  destruct (decide (name = "sessions")) as [->|]; [by vm_compute in Hl|].
  destruct (decide (name = "stats")) as [->|]; [by vm_compute in Hl|].
  destruct (decide (name = "playtime")) as [->|]; [by vm_compute in Hl|].
  by rewrite !bool_decide_eq_false_2.
Qed.

Section publishing.
Context {H : Host} {C : StoreCodec} {L : StoreCodecLaws C}.

(** One step of a computation whose steps keep [R]: it stops here, or goes on. *)
Lemma ST_bind_keeps {E A B} (R : relation World) `{!PreOrder R} (m : ST E A) (k : A → ST E B)
    w0 w r w' :
  keeps R m → R w0 w → (m ≫= k) w = (r, w') →
  (R w0 w' ∧ ∃ e, r = Err e) ∨ (∃ a w1, m w = (Ok a, w1) ∧ R w0 w1 ∧ k a w1 = (r, w')).
Proof.
  intros Hm HR [(a & w1 & H1 & H2)|(e & H1 & ->)]%ST_bind_inv.
  - right. exists a, w1. split; [done|]. split; [|done]. trans w; [done|]. by eapply Hm.
  - left. split; [|by eauto]. trans w; [done|]. by eapply Hm.
Qed.

Lemma ST_bind_until {E A B} (R : relation World) `{!PreOrder R}
    (P : result E B → World → Prop) (m : ST E A) (k : A → ST E B) w0 w r w' :
  (∀ e w1, R w0 w1 → P (Err e) w1) → R w0 w → keeps R m → (m ≫= k) w = (r, w') →
  (∀ a w1, m w = (Ok a, w1) → R w0 w1 → k a w1 = (r, w') → P r w') → P r w'.
Proof.
  intros HP HR Hm Hk Hgo. apply (ST_bind_keeps R _ _ w0) in Hk as [[? [e ->]]|(?&?&?&?&?)]; eauto.
Qed.

Lemma rename_Ok source d c v es w w' :
  apart source d → at_path source w = Some v → at_path d w = Some (Dir es) →
  fs_rename source (d ++ [c]) w = (Ok tt, w') →
  may_replace v (es !! c) = true ∧ at_path d w' = Some (Dir (<[c := v]> es)) ∧
  at_path source w' = None.
Proof.
  intros Ha Hs Hd Hm. apply syscall_Ok in Hm as (n & Hm & ->). unfold at_path in *.
  rewrite Hs in Hm. destruct (apart_app_r _ _ [c] Ha) as [Ha1 Ha2].
  rewrite (bool_decide_eq_false_2 (source = d ++ [c])) in Hm
    by (intros ->; by apply Ha1).
  rewrite !bool_decide_eq_false_2 in Hm by done. cbn [orb] in Hm.
  rewrite parent_snoc, Hd, get_snoc, Hd in Hm. cbn [is_dir negb] in Hm.
  destruct (may_replace v (es !! c)) eqn:Hr; [|done]. injection Hm as <-.
  split; [done|]. split; simpl.
  - rewrite (get_put_snoc d c es); [done|]. by rewrite get_put_apart.
  - rewrite get_put_apart by (apply apart_sym; by apply apart_app_r).
    destruct (exists_last (l := source)) as (p & x & ->).
    { intros ->. destruct Ha as [Ha _]. destruct Ha. apply prefix_nil. }
    rewrite get_snoc in Hs. destruct (get p (w_root w)) as [[b|es'|]|] eqn:Hp; try done.
    by eapply get_put_eq.
Qed.

(** The only child of a directory. *)
Lemma only_child p c n w :
  at_path (p ++ [c]) w = Some n → (∀ d, d ≠ c → at_path (p ++ [d]) w = None) →
  at_path p w = Some (Dir {[c := n]}).
Proof.
  unfold at_path. intros Hc Hd. rewrite get_snoc in Hc.
  destruct (get p (w_root w)) as [[b|es|]|] eqn:Hp; try done. do 2 f_equal.
  apply map_eq. intros d. destruct (decide (d = c)) as [->|Hne].
  - by rewrite lookup_singleton_eq.
  - rewrite lookup_singleton_ne by done. specialize (Hd d Hne). by rewrite get_snoc, Hp in Hd.
Qed.

Lemma ready_blobs op blobs w :
  ready op blobs w ↔ at_path (op_path op ++ ["blobs"]) w = Some (Dir blobs) ∧
                     ∀ d, d ≠ "blobs" → at_path (op_path op ++ [d]) w = None.
Proof.
  split.
  - unfold ready, at_path. intros Hr. split; [|intros d Hd]; rewrite get_snoc, Hr.
    + by rewrite lookup_singleton_eq.
    + by rewrite lookup_singleton_ne.
  - intros [Hb Hd]. by apply only_child.
Qed.

(** What happens below [blobs] keeps an operation's directory otherwise empty. *)
Lemma ready_keeps op blobs blobs' w w' :
  ready op blobs w → (∀ d, d ≠ "blobs" → same_at (op_path op ++ [d]) w w') →
  at_path (op_path op ++ ["blobs"]) w' = Some (Dir blobs') → ready op blobs' w'.
Proof.
  rewrite !ready_blobs. intros [_ Hd] Hs Hb. split; [done|]. intros d Hne.
  rewrite (Hs d Hne). by apply Hd.
Qed.

Lemma publish_ready_Ok op blobs b w w' :
  ready op blobs w → atomic_publish (op_path op ++ ["manifest.json"]) b w = (Ok tt, w') →
  at_path (op_path op) w' = Some (manifest_node b blobs).
Proof.
  intros Hr Hp. apply publish_Ok in Hp as (es & Hes & _ & ->). unfold ready in Hr. rewrite Hr in Hes.
  destruct Hes as [Hes|[? _]]; [|done]. assert (Dir es = Dir {["blobs" := Dir blobs]}) as ->%Dir_inj
    by congruence. done.
Qed.
End publishing.

(** Step through [m ≫= k] keeping [R]; closes the case where it stops. *)
Ltac keep_step Hm HR :=
  let Hs := fresh "Hs" in
  match type of HR with ?R ?w0 _ =>
    apply (ST_bind_keeps R _ _ w0) in Hm as [Hs|(? & ? & ? & Hs & Hm)];
    [left; exact Hs|clear HR; rename Hs into HR| |exact HR] end.

(** The same towards a goal about the result, that [Hfail] proves of a failure. *)
Ltac until_step Hfail HR Hm :=
  let a := fresh "a" in let w1 := fresh "w" in let Hx := fresh "Hx" in
  let HR' := fresh "HR" in let Hm' := fresh "Hm" in
  match type of HR with ?R _ _ =>
  match goal with |- ?P ?r ?w' =>
    refine (ST_bind_until R P _ _ _ _ _ _ Hfail HR _ Hm _);
    [|intros a w1 Hx HR' Hm'; clear HR Hm; rename HR' into HR; rename Hm' into Hm] end end.

Section outcome.
Context {H : Host} {C : StoreCodec} {L : StoreCodecLaws C}.

(** After the rename only directories are synchronized and the flag is set. *)
Lemma keeps_set_closed op q : keeps (same_at q) (set_closed (E := BackendError) op).
Proof. by intros w r w' [= <- <-]. Qed.

(** A published directory enters a free name of the app directory. *)
Lemma destination_free account app es ms id bytes blobs w s :
  repository account app (at_path (app_dir s app) w) ms →
  dir_entries (at_path (app_dir s app) w) es → is_lower_hex 64 id = true →
  may_replace (manifest_node bytes blobs) (es !! id) = true → es !! id = None.
Proof.
  intros (es' & Hes' & _ & Hent & _) Hes Hid Hr. destruct (es !! id) as [n|] eqn:Hn; [|done].
  assert (es' = es) as ->.
  { destruct Hes as [Hes|[Hes ->]], Hes' as [Hes'|[Hes' ->]]; congruence. }
  destruct (Hent _ _ Hn) as [_ [[Hno _]|(_ & _ & m & _ & b & bl & -> & _)]].
  - by rewrite lower_hex_manifest in Hno.
  - simpl in Hr. case_bool_decide as He; [|done].
    apply (f_equal (lookup "manifest.json")) in He. by rewrite lookup_insert_eq, lookup_empty in He.
Qed.

Definition publishes (s : FolderStore) (op : SaveOperation) (blobs : gmap string Node)
    (account : string) (files : gmap string StoredFile) (revision : Z) (w w' : World) (id : string) (n : Node)
    (m : SaveManifest) : Prop :=
  adds_manifest account (op_app_id op) (app_dir s (op_app_id op)) w w' id n m ∧
  holds_files blobs n files ∧
  sm_parents m = op_parents op ∧ sm_revision m = revision ∧ sm_files m = files.

Lemma repository_entries account app q w w' ms :
  same_entries q w w' → repository account app (at_path q w) ms →
  repository account app (at_path q w') ms.
Proof. intros Hs (es & He & ?). exists es. split; [by apply Hs|done]. Qed.

Lemma syscall_Err {A} (f : Node → result IoErr (A * Node)) w e w' :
  syscall f w = (Err e, w') → same_world w w'.
Proof.
  unfold syscall. destruct (fault _); [by intros [= _ <-]|].
  destruct (f (w_root w)) as [[]|]; by intros [= _ <-].
Qed.

(** The rename decides: before it nothing is visible, after it everything is. *)
Lemma publish_rename s op app node es id (revision : Z) w r w' :
  apart (op_path op) (app_dir s app) → at_path (op_path op) w = Some node →
  at_path (app_dir s app) w = Some (Dir es) →
  ((_ ← io (fs_rename (op_path op) (app_dir s app ++ [id]));
    _ ← set_closed op;
    _ ← sync_directory (st_work_root s);
    _ ← sync_directory (app_dir s app);
    mret revision) : Op Z) w = (r, w') →
  (same_world w w' ∧ ∃ e, r = Err e) ∨
  (may_replace node (es !! id) = true ∧
   at_path (app_dir s app) w' = Some (Dir (<[id := node]> es)) ∧
   ∀ x, r = Ok x → x = revision).
Proof.
  intros Hap Hop Hd [([] & w1 & H1 & Hm)|(e & H1 & ->)]%ST_bind_inv.
  2: { left. split; [|eauto]. unfold io, map_err in H1.
       destruct (fs_rename _ _ _) as [[]] eqn:E; simplify_eq. by eapply syscall_Err. }
  apply map_err_Ok, (rename_Ok _ _ _ _ _ _ _ Hap Hop Hd) in H1 as (Hr & Hd' & _).
  right. split; [done|]. rewrite <-Hd'. split.
  - revert Hm. apply (keeps_bind (same_at (app_dir s app))); [apply keeps_set_closed|].
    intros _. keeps_tac.
  - intros x ->. st_inv. done.
Qed.

Lemma publish_outcome s op account ms blobs files identity maxr w r w' :
  separate s → working s op → st_account s = Some account →
  repository account (op_app_id op) (at_path (app_dir s (op_app_id op)) w) ms →
  ready op blobs w → blobs_hold blobs files → blobs_match blobs files →
  publish_operation s op files identity maxr w = (r, w') →
  (same_entries (app_dir s (op_app_id op)) w w' ∧ ∃ e, r = Err e) ∨
  (∃ id n m, publishes s op blobs account files (maxr + 1) w w' id n m ∧
             (∀ rev, r = Ok rev → rev = maxr + 1)).
Proof.
  intros Hsep Hwork Hacc Hrep Hready Hhold Hmatch Hm. set (app := op_app_id op) in *.
  pose proof (op_app_apart s op app Hsep Hwork) as Hap.
  assert (HR : same_entries (app_dir s app) w w) by done.
  unfold publish_operation in Hm.
  destruct (Z.ltb_spec u64_max (maxr + 1)); [injection Hm as <- <-; left; eauto|].
  unfold manifest_account in Hm. rewrite Hacc in Hm. cbn [ok_or] in Hm.
  keep_step Hm HR; [|by eauto with keeps]. keep_step Hm HR; [|by eauto with keeps].
  keep_step Hm HR; [|unfold json; by eauto with keeps]. rename x3 into bytes.
  destruct (Z.ltb_spec MAX_MANIFEST_BYTES (Z.of_nat (length bytes)));
    [injection Hm as <- <-; left; eauto|].
  keep_step Hm HR; [|by eauto with keeps]. keep_step Hm HR; [|by eauto with keeps].
  keep_step Hm HR; [|by eauto with keeps]. keep_step Hm HR; [|by eauto with keeps].
  keep_step Hm HR; [|by apply keeps_durable_dir_all_self]. keep_step Hm HR; [|by eauto with keeps].
  subst app. unfold json in *. st_inv. injection Hr2 as <-. set (m := Build_SaveManifest _ _ _ _ _ _ _ _) in *.
  destruct (manifest_to_vec m) as [?|] eqn:Hjson; [|done]. injection Hr1 as ->.
  unfold manifest_dir in Hr. res_inv. rename Hx0 into Hid. destruct x2.
  assert (Hnode : at_path (op_path op) x15 = Some (manifest_node bytes blobs)).
  { apply (keeps_durable_dir_all _ (op_path op)) in H9; [|by apply apart_sym].
    rewrite H9, (same_world_at _ _ _ (keeps_sync _ _ _ _ H8)).
    rewrite (same_world_at _ _ _ (keeps_sync _ _ _ _ H7)).
    apply (publish_ready_Ok op blobs bytes) in H6; [done|].
    unfold ready. by rewrite (same_world_at _ _ _ (keeps_millis _ _ _ H2)). }
  pose proof Hrep as (es & Hes & _). apply durable_dir_all_Ok in H9 as (es' & _ & Hd).
  pose proof (HR _ Hes) as Hes'. rewrite Hd in Hes'.
  destruct Hes' as [<-%(inj Some)%Dir_inj|[? _]]; [|done].
  apply (publish_rename _ _ _ _ _ _ _ _ _ _ Hap Hnode Hd) in Hm as [[Hs He]|(Hrepl & Hd' & Hrev)].
  { left. split; [|done]. trans x15; [done|]. by apply same_at_entries, same_world_at. }
  right. exists (hex_digest sha256 bytes), (manifest_node bytes blobs), m. split; [|done].
  split; [|split; [by exists bytes, blobs|done]].
  exists es'. split; [done|]. split.
  { eapply destination_free; [exact Hrep|exact Hes|by eapply manifest_id_Ok|exact Hrepl]. }
  split; [done|]. split; [done|].
  exists bytes, blobs. do 3 (split; [done|]). split; [by apply manifest_json|done].
Qed.
End outcome.

(** ** Committing *)

(** The files after an operation. *)
Definition new_files (op : SaveOperation) (staged : list StagedFile) (deleted : gset string)
    : BR (gmap string StoredFile) :=
  files ← remove_deleted (op_original_files op) (sort_by_key id (elements deleted));
  insert_staged files staged.

Section commit.
Context {H : Host} {C : StoreCodec} {L : StoreCodecLaws C}.

Lemma keeps_prune op files q :
  apart (op_path op ++ ["blobs"]) q → keeps (same_at q) (prune_operation_blobs op files).
Proof.
  intros Hq. unfold prune_operation_blobs, io. keeps_tac.
Qed.

Lemma prune_ready op files blobs w w' :
  ready op blobs w → prune_operation_blobs op files w = (Ok tt, w') →
  ∃ blobs', ready op blobs' w' ∧ blobs' ⊆ blobs ∧ dom blobs' ⊆ dom (expected_blobs files) ∧
    ∀ name n, blobs' !! name = Some n → is_utf8 name = true ∧ is_lower_hex 40 name = true.
Proof.
  intros Hr Hp. destruct (prune_Ok _ _ _ _ Hp) as (es & blobs' & Hes & Hb & Hsub & Hdom & Hn).
  pose proof Hr as [Hes' _]%ready_blobs. assert (es = blobs) as -> by (apply Dir_inj; congruence).
  exists blobs'. split; [|done]. eapply ready_keeps; [exact Hr| |done].
  intros d Hd. eapply keeps_prune; [|exact Hp]. by apply (apart_siblings _ _ _ [] []).
Qed.

(** What a commit can do to a repository it could read. *)
Inductive commit_result (s : FolderStore) (op : SaveOperation) (blobs : gmap string Node)
    (staged : list StagedFile) (deleted : gset string) (w : World) : BR Z → World → Prop :=
| commit_fails e w' :
    same_entries (app_dir s (op_app_id op)) w w' →
    commit_result s op blobs staged deleted w (Err e) w'
| commit_unchanged account ms c w' :
    st_account s = Some account →
    repository account (op_app_id op) (at_path (app_dir s (op_app_id op)) w) ms →
    heads_of ms = op_expected_heads op →
    new_files op staged deleted = Ok (op_original_files op) →
    op_force_publish op = false → current (resolved ms) = Ok c →
    same_at (app_dir s (op_app_id op)) w w' →
    commit_result s op blobs staged deleted w (Ok (from_option (λ p, sm_revision p.2) 0 c)) w'
| commit_publishes account ms files id n m r w' :
    st_account s = Some account →
    repository account (op_app_id op) (at_path (app_dir s (op_app_id op)) w) ms →
    heads_of ms = op_expected_heads op → new_files op staged deleted = Ok files →
    publishes s op blobs account files
      (Z.max (max_revision_of ms) (op_minimum_revision op) + 1) w w' id n m →
    (∀ rev, r = Ok rev → rev = sm_revision m) →
    commit_result s op blobs staged deleted w r w'.

Lemma publishes_world s op blobs blobs' account files rev w0 w w' id n m :
  same_at (app_dir s (op_app_id op)) w0 w → blobs' ⊆ blobs →
  publishes s op blobs' account files rev w w' id n m →
  publishes s op blobs account files rev w0 w' id n m.
Proof.
  intros Hs Hsub ((es & He & ?) & (b & bl & ? & ? & ?) & ?). split; [|split; [|done]].
  - exists es. by rewrite Hs in He.
  - exists b, bl. split; [done|]. split; [by trans blobs'|done].
Qed.

Lemma commit_outcome s op staged deleted identity blobs w r w' :
  separate s → working s op → ready op blobs w →
  commit_operation s op staged deleted identity w = (r, w') →
  commit_result s op blobs staged deleted w r w'.
Proof.
  intros Hsep Hwork Hready Hm. pose proof (op_app_apart s op (op_app_id op) Hsep Hwork) as Hap.
  set (dir := app_dir s (op_app_id op)) in *.
  assert (HR : same_at dir w w) by done.
  assert (Hfail : ∀ e w1, same_at dir w w1 → commit_result s op blobs staged deleted w (Err e) w1).
  { intros e w1 Hs. by apply commit_fails, same_at_entries. }
  unfold commit_operation in Hm.
  do 2 (until_step Hfail HR Hm; [by eauto with keeps|]).
  until_step Hfail HR Hm; [by apply keeps_gets, _|].
  destruct a1; [injection Hm as <- <-; by apply Hfail|].
  until_step Hfail HR Hm; [by eauto with keeps|]. until_step Hfail HR Hm; [by eauto with keeps|].
  apply resolve_Ok in Hx3 as Hres. destruct Hres as (account & ms & Hacc & _ & -> & Hrep).
  case_bool_decide as Hheads; cbn [negb] in Hm; [|injection Hm as <- <-; by apply Hfail].
  until_step Hfail HR Hm; [by eauto with keeps|]. until_step Hfail HR Hm; [by eauto with keeps|].
  until_step Hfail HR Hm; [by apply keeps_prune, apart_app_l|].
  until_step Hfail HR Hm; [by apply keeps_world_at, keeps_verify_files|].
  unfold is_closed, lift, gets in Hx, Hx0, Hx1, Hx2, Hx4, Hx5. simplify_eq. destruct a4, a5.
  assert (Hnew : new_files op staged deleted = Ok a3)
    by (unfold new_files; match goal with Hd : remove_deleted _ _ = Ok _ |- _ => by rewrite Hd end).
  destruct (bool_decide _ && _) eqn:Hnoop.
  - apply andb_true_iff in Hnoop as [->%bool_decide_eq_true Hforce%negb_true_iff].
    until_step Hfail HR Hm; [by eauto with keeps|]. unfold lift in Hx. simplify_eq.
    until_step Hfail HR Hm; [apply keeps_set_closed|]. until_step Hfail HR Hm; [by eauto with keeps|].
    until_step Hfail HR Hm; [by eauto with keeps|]. injection Hm as <- <-.
    by eapply commit_unchanged.
  - assert (Hr6 : ready op blobs w6).
    { unfold ready. by rewrite (same_world_at _ _ _ (keeps_resolve _ _ _ _ _ Hx3)). }
    destruct (prune_ready _ _ _ _ _ Hr6 Hx6) as (blobs' & Hr7 & Hsub & Hdom & Hnames).
    assert (Hhold : blobs_hold blobs' a3)
      by (eapply verify_files_Ok; [exact Hx7|]; by apply ready_blobs in Hr7 as [? _]).
    apply (publish_outcome s op account ms blobs') in Hm as [[Hs [e ->]]|(id & n & m & Hp & Hrev)];
      try done.
    + apply commit_fails. etrans; [by apply same_at_entries|done].
    + eapply commit_publishes; [done..|eapply publishes_world; [exact HR|exact Hsub|exact Hp]|].
      destruct Hp as (_ & _ & _ & -> & _). done.
    + change (repository account (op_app_id op) (at_path dir w8) ms). by rewrite HR.
    + unfold ready. by rewrite (same_world_at _ _ _ (keeps_verify_files _ _ _ _ _ Hx7)).
    + by apply blobs_hold_match.
Qed.
End commit.
