(* ===== verification/StoreBegin.v ===== *)
(** * StoreBegin: beginning an operation and staging files

    An operation starts from a directory of its own that holds the blobs of the
    manifest it builds on; staging adds verified blobs to it. Neither touches the app
    directory. *)

From Stdlib Require Import ZArith Lia.
From S2P Require Import Prelude RustStd CloudCore FileSystem StoreFiles StoreFilesProofs.
From S2P Require Import FolderStore FolderStoreProofs StoreCommit.

Local Open Scope Z_scope.

(** ** Normalized ids *)

Lemma dedup_cons x y l :
  dedup (x :: y :: l) =
    if bool_decide (x = y) then dedup (y :: l) else x :: dedup (y :: l).
Proof. done. Qed.

Lemma length_dedup l : (length (dedup l) ≤ length l)%nat.
Proof.
  induction l as [|y [|z l] IH]; [done..|]. rewrite dedup_cons.
  case_bool_decide; cbn [length] in *; lia.
Qed.

Lemma dedup_full l : length (dedup l) = length l → dedup l = l.
Proof.
  induction l as [|y [|z l] IH]; [done..|]. rewrite dedup_cons. case_bool_decide.
  - pose proof (length_dedup (z :: l)). cbn [length] in *. lia.
  - cbn [length]. intros Hl. f_equal. apply IH. cbn [length]. lia.
Qed.

(** Normalizing sorts distinct ids and rejects repeated ones. *)
Lemma normalized_Ok ids l :
  normalized_head_ids ids = Ok l → l = sort_by_key id ids ∧ NoDup ids.
Proof.
  unfold normalized_head_ids. destruct (existsb _ _); [done|].
  destruct (negb _) eqn:E; [done|]. intros [= <-].
  apply negb_false_iff, Nat.eqb_eq in E.
  assert (Hd : dedup (sort_by_key id ids) = sort_by_key id ids)
    by (apply dedup_full; by rewrite length_sort_by_key).
  split; [done|]. rewrite <-(sort_by_key_perm id ids), <-Hd.
  clear E. pose proof (sort_by_key_sorted id ids) as Hs. rewrite <-Hd in Hs.
  revert Hd Hs. generalize (sort_by_key id ids). intros l Hl Hs.
  rewrite Hl in Hs |- *. clear ids.
  induction l as [|x [|y l] IH]; [constructor|apply NoDup_singleton|].
  rewrite dedup_cons in Hl. case_bool_decide as Hxy.
  { exfalso. pose proof (length_dedup (y :: l)) as Hlen. rewrite Hl in Hlen. simpl in Hlen. lia. }
  injection Hl as Hl. apply StronglySorted_inv in Hs as [Hs Hx]. constructor; [|by apply IH].
  intros [->|Hin]%elem_of_cons; [done|].
  apply Hxy, (anti_symm kle).
  - by apply Forall_cons in Hx as [Hx _].
  - apply StronglySorted_inv in Hs as [_ Hs]. rewrite Forall_forall in Hs. by apply Hs.
Qed.

(** ** Linking blobs *)

Section linking.
Context {H : Host} {C : StoreCodec}.

Lemma copy_Ok source d c es w w' :
  at_path d w = Some (Dir es) → fs_copy source (d ++ [c]) w = (Ok tt, w') →
  ∃ v, at_path source w = Some v ∧ at_path d w' = Some (Dir (<[c := v]> es)).
Proof.
  intros Hd Hm. apply syscall_Ok in Hm as (n & Hm & ->). unfold at_path in *.
  destruct (get source (w_root w)) as [[b|es'|]|]; [|done..]. case_match; [done|].
  injection Hm as <-. exists (File b). split; [done|]. by apply get_put_snoc.
Qed.

Lemma link_or_copy_Ok source d c es w w' :
  at_path d w = Some (Dir es) → link_or_copy source (d ++ [c]) w = (Ok tt, w') →
  (is_Some (es !! c) ∧ at_path d w' = Some (Dir es)) ∨
  (∃ v, at_path source w = Some v ∧ at_path d w' = Some (Dir (<[c := v]> es))).
Proof.
  intros Hd Hm. unfold link_or_copy in Hm. st_inv. case_bool_decide as Hc; st_inv.
  { left. unfold at_path in *. rewrite get_snoc, Hd in Hc. done. }
  right. destruct x as [[]|e]; st_inv.
  - destruct (hard_link_Ok _ _ _ _ _ _ Hd Hx) as (v & Hv & _ & Hd'). eauto.
  - apply syscall_Err in Hx. rewrite <-(same_world_at _ _ _ Hx) in Hd.
    destruct (copy_Ok _ _ _ _ _ _ Hd Hx0) as (v & Hv & Hd').
    rewrite (same_world_at _ _ _ Hx) in Hv. exists v. split; [done|].
    apply keeps_touch in Hm. apply keeps_open in Hx1.
    by rewrite (same_world_at _ _ _ Hm), (same_world_at _ _ _ Hx1).
Qed.

Lemma blob_target op c : op ++ ["blobs"; c] = (op ++ ["blobs"]) ++ [c].
Proof. by rewrite <-app_assoc. Qed.

Lemma keeps_link_blobs s app sel op files copied q :
  apart (op ++ ["blobs"]) q → keeps (same_at q) (link_blobs s app sel op files copied).
Proof.
  intros Hq. revert copied. induction files as [|f files IH]; intros copied; simpl.
  { apply keeps_ret, _. }
  case_match; [apply IH|]. apply keeps_lift_bind; [apply _|]. intros source _.
  apply keeps_lift_bind; [apply _|]. intros target Ht. unfold operation_blob_path in Ht. res_inv.
  rewrite blob_target. apply keeps_bind; [apply _|by eauto with keeps|]. intros _. apply IH.
Qed.

Lemma linked_cons f files (copied : gset string) (bl : gmap string Node) :
  is_Some (bl !! sf_sha1 f) →
  (∀ g, g ∈ files → sf_sha1 g ∈ {[sf_sha1 f]} ∪ copied ∨ is_Some (bl !! sf_sha1 g)) →
  ∀ g, g ∈ f :: files → sf_sha1 g ∈ copied ∨ is_Some (bl !! sf_sha1 g).
Proof.
  intros Hf Hin g [->|Hg]%elem_of_cons; [by right|]. destruct (Hin g Hg) as [Hg'|?]; [|by right].
  apply elem_of_union in Hg' as [->%elem_of_singleton|?]; [by right|by left].
Qed.

(** After linking, an operation holds the blobs it needs, with the bytes they have in
    the manifest. *)
Lemma link_blobs_Ok s app sel op files copied blobs w w' :
  apart (op_path op) (app_dir s app) → ready op blobs w →
  link_blobs s app sel (op_path op) files copied w = (Ok tt, w') →
  ∃ blobs', ready op blobs' w' ∧
    (∀ h n, blobs' !! h = Some n →
       blobs !! h = Some n ∨ at_path (app_dir s app ++ [sel; "blobs"; h]) w = Some n) ∧
    (∀ h, is_Some (blobs !! h) → is_Some (blobs' !! h)) ∧
    (∀ f, f ∈ files → sf_sha1 f ∈ copied ∨ is_Some (blobs' !! sf_sha1 f)).
Proof.
  intros Hap. revert copied blobs w.
  induction files as [|f files IH]; intros copied blobs w Hr Hm; simpl in Hm.
  { st_inv. exists blobs. split; [done|]. split; [by left|]. split; [done|]. set_solver. }
  case_bool_decide as Hc.
  { destruct (IH _ _ _ Hr Hm) as (bl & ? & ? & ? & Hf). exists bl. do 3 (split; [done|]).
    intros g [->|Hg]%elem_of_cons; [by left|by apply Hf]. }
  st_inv. unfold manifest_blob_path, manifest_dir, operation_blob_path in *. res_inv.
  rewrite <-app_assoc, (blob_target (op_path op)) in Hx1. cbn in Hx1.
  apply ready_blobs in Hr as Hb. destruct Hb as [Hb _].
  assert (Hs : same_at (app_dir s app) w1 w2)
    by (eapply keeps_link_or_copy; [|exact Hx1]; by apply apart_app_l, apart_app_l).
  assert (Hsib : ∀ d, d ≠ "blobs" → same_at (op_path op ++ [d]) w1 w2).
  { intros d Hd. eapply keeps_link_or_copy; [|exact Hx1].
    by apply apart_app_l, (apart_siblings _ _ _ [] []). }
  destruct (link_or_copy_Ok _ _ _ _ _ _ Hb Hx1) as [[He Hb2]|(v & Hv & Hb2)];
    (edestruct (IH _ _ _ (ready_keeps _ _ _ _ _ Hr Hsib Hb2) Hm) as (bl & Hr' & Hfrom & Hkeep & Hin));
    exists bl; (split; [done|]); (split; [|split]).
  - intros h n Hh%Hfrom. by rewrite (same_at_below _ _ _ _ Hs) in Hh.
  - done.
  - apply linked_cons; auto.
  - intros h n Hh%Hfrom. rewrite (same_at_below _ _ _ _ Hs) in Hh. destruct Hh as [Hh|?]; [|by right].
    apply lookup_insert_Some in Hh as [[<- <-]|[_ Hh]]; [by right|by left].
  - intros h Hh. apply Hkeep. destruct (decide (h = sf_sha1 f)) as [->|?].
    + rewrite lookup_insert_eq. eauto.
    + by rewrite lookup_insert_ne.
  - apply linked_cons; [|done]. apply Hkeep. rewrite lookup_insert_eq. eauto.
Qed.
End linking.

(** ** Beginning *)

(** The manifest an operation builds on, and its files. *)
Inductive builds_on (ms : gmap string SaveManifest) : option string → gmap string StoredFile → Prop :=
| builds_on_none : heads_of ms = [] → builds_on ms None ∅
| builds_on_some id m : ms !! id = Some m → builds_on ms (Some id) (sm_files m).

Lemma operation_base_Ok ms bh rh parents sel files force :
  operation_base (resolved ms) bh rh = Ok (parents, sel, files, force) →
  parents = default bh rh ∧ heads_of ms = parents ∧ builds_on ms sel files ∧
  match rh with
  | Some _ => force = true ∧ option_Forall2 eq (head bh) sel
  | None => force = false ∧ ∃ c, current (resolved ms) = Ok c ∧ sel = fst <$> c ∧
              files = from_option (λ p, sm_files p.2) ∅ c
  end.
Proof.
  unfold operation_base. cbn [ra_heads ra_manifests resolved]. destruct rh as [expected|].
  - destruct (_ || _) eqn:E; [done|]. apply orb_false_iff in E as [_ E].
    apply negb_false_iff, bool_decide_eq_true in E.
    destruct bh as [|selected [|]]; [done| |done]. unfold ok_or.
    destruct (ms !! selected) as [m|] eqn:Hm; [|done]. intros [= <- <- <- <-].
    split; [done|]. split; [done|]. split; [by constructor|]. split; [done|]. by constructor.
  - case_bool_decide as E; cbn [negb]; [|done]. destruct (_ <? _)%nat eqn:Hl; [done|].
    intros (c & Hc & Hres)%bind_Ok_inv. injection Hres as <- <- <- <-.
    split; [done|]. split; [done|]. apply Nat.ltb_ge in Hl. unfold current in Hc.
    cbn [ra_heads ra_manifests resolved] in Hc. rewrite E in Hc, Hl.
    destruct bh as [|id [|]]; cbn in Hl; [| |lia].
    + injection Hc as <-. split; [by constructor|]. split; [done|]. exists None.
      split; [|done]. unfold current. cbn. by rewrite E.
    + unfold manifest_at, ok_or in Hc. destruct (ms !! id) as [m|] eqn:Hm; [|done].
      injection Hc as <-. split; [by apply builds_on_some|]. split; [done|]. exists (Some (id, m)).
      split; [|done]. unfold current. cbn [ra_heads ra_manifests resolved]. rewrite E. unfold manifest_at. by rewrite Hm.
Qed.

(** What a begun operation is. *)
Record begun (s : FolderStore) (app : Z) (ms : gmap string SaveManifest) (sel : option string)
    (op : SaveOperation) : Prop := {
  bg_working : working s op;
  bg_valid : validate_operation s op = Ok tt;
  bg_app : op_app_id op = app;
  bg_expected : op_expected_heads op = heads_of ms;
  bg_parents : op_parents op = heads_of ms;
  bg_files : builds_on ms sel (op_original_files op);
}.

(** The blobs an operation starts with are those of the manifest it builds on. *)
Definition starts_with (s : FolderStore) (app : Z) (sel : option string)
    (files : gmap string StoredFile) (blobs : gmap string Node) (w : World) : Prop :=
  ∀ path file, files !! path = Some file →
    ∃ id n, sel = Some id ∧ blobs !! sf_sha1 file = Some n ∧
            at_path (app_dir s app ++ [id; "blobs"; sf_sha1 file]) w = Some n.

Section begin.
Context {H : Host} {C : StoreCodec}.

Lemma durable_ready op w w' :
  at_path (op_path op) w = None →
  create_durable_dir_all (op_path op ++ ["blobs"]) w = (Ok tt, w') → ready op ∅ w'.
Proof.
  intros Hn Hm. assert (Hb : ∀ d, at_path (op_path op ++ [d]) w = None).
  { intros d. unfold at_path in *. by rewrite get_snoc, Hn. }
  apply ready_blobs. split.
  - destruct (durable_dir_all_Ok _ _ _ Hm) as (es & He & Hd). rewrite (Hb "blobs") in He.
    destruct He as [?|[_ ->]]; [done|exact Hd].
  - intros d Hd. rewrite <-(Hb d). eapply keeps_durable_dir_all; [|exact Hm].
    by apply (apart_siblings _ _ _ [] []).
Qed.

Lemma begin_blobs_Ok s app ms sel files op w w1 w2 :
  separate s → working s op → builds_on ms sel files →
  create_durable_dir_all (op_path op ++ ["blobs"]) w = (Ok tt, w1) →
  match sel with
  | Some id =>
      _ ← link_blobs s app id (op_path op) (files_in_order files).*2 ∅;
      sync_directory (op_path op ++ ["blobs"])
  | None => mret tt
  end w1 = (Ok tt, w2) →
  same_at (app_dir s app) w w2 ∧
  (at_path (op_path op) w = None →
   ∃ blobs, ready op blobs w2 ∧ starts_with s app sel files blobs w).
Proof.
  intros Hsep Hwork Hb Hc Hl. pose proof (op_app_apart s op app Hsep Hwork) as Hap.
  assert (Hs1 : same_at (app_dir s app) w w1)
    by (eapply keeps_durable_dir_all; [|exact Hc]; by apply apart_app_l).
  destruct Hb as [_|id m _]; st_inv.
  { split; [done|]. intros Hn. exists ∅. split; [by eapply durable_ready|].
    intros path file. by rewrite lookup_empty. }
  assert (Hs2 : same_at (app_dir s app) w1 w0)
    by (eapply keeps_link_blobs; [|exact Hx]; by apply apart_app_l).
  apply keeps_sync in Hl as Hs3. split.
  { trans w1; [done|]. trans w0; [done|]. by apply same_world_at. }
  intros Hn. pose proof (durable_ready _ _ _ Hn Hc) as Hr.
  destruct (link_blobs_Ok _ _ _ _ _ _ _ _ _ Hap Hr Hx) as (bl & Hr' & Hfrom & _ & Hin).
  exists bl. split; [unfold ready; by rewrite (same_world_at _ _ _ Hs3)|].
  intros path file Hf%elem_of_files_in_order. destruct (Hin file) as [?|[n Hbl]].
  { apply list_elem_of_fmap. by exists (path, file). }
  { set_solver. }
  exists id, n. split; [done|]. split; [done|].
  destruct (Hfrom _ _ Hbl) as [Hno|Hat]; [by rewrite lookup_empty in Hno|].
  by rewrite (same_at_below _ _ _ _ Hs1) in Hat.
Qed.

Lemma begin_Ok s app bh rh minr w op w' :
  separate s → begin_operation_with_revision s app bh rh minr w = (Ok op, w') →
  ∃ account ms sel, st_account s = Some account ∧
    repository account app (at_path (app_dir s app) w) ms ∧ begun s app ms sel op ∧
    op_minimum_revision op = minr ∧ same_at (app_dir s app) w w' ∧
    (at_path (op_path op) w = None →
     ∃ blobs, ready op blobs w' ∧ starts_with s app sel (op_original_files op) blobs w) ∧
    match rh with
    | Some _ => op_force_publish op = true ∧ ∀ x, bh = [x] → sel = Some x
    | None => op_force_publish op = false ∧
        ∃ c, current (resolved ms) = Ok c ∧ sel = fst <$> c ∧
             op_original_files op = from_option (λ p, sm_files p.2) ∅ c
    end.
Proof.
  intros Hsep Hm. unfold begin_operation_with_revision in Hm. st_inv.
  set (op := Build_SaveOperation _ _ _ _ _ _ _ _ _ _).
  apply keeps_resolve in Hx1 as Hs1. apply resolve_Ok in Hx1 as (account & ms & Hacc & _ & -> & Hrep).
  apply operation_base_Ok in Hr as (Hpar & Hheads & Hbuilds & Hforce).
  exists account, ms, o. split; [done|]. split; [done|].
  assert (Hwork : working s op) by by eexists.
  destruct (begin_blobs_Ok s app ms o g op w w0 w' Hsep Hwork Hbuilds Hx0 Hx2) as [Hs2 Hready].
  apply keeps_nonce in Hx. assert (Hs : same_world w1 w) by (by trans w5).
  split.
  { split; [done| |done|simpl; congruence|simpl; congruence|done].
    unfold validate_operation, reject_if. simpl. rewrite !bool_decide_eq_true_2, Z.eqb_refl; done. }
  split; [done|]. split; [trans w; [by apply same_world_at|done]|]. split.
  { intros Hn. rewrite <-(same_world_at _ _ _ Hs) in Hn. destruct (Hready Hn) as (bl & Hr & Hst).
    exists bl. split; [done|]. intros path file Hf. destruct (Hst _ _ Hf) as (id & n & ? & ? & Hat).
    rewrite (same_world_at _ _ _ Hs) in Hat. eauto. }
  destruct rh as [ids|]; cbn in Hr0; [|by injection Hr0 as <-].
  destruct (normalized_head_ids ids) as [l'|]; [|done]. injection Hr0 as <-.
  destruct Hforce as [-> Hsel]. split; [done|]. intros x ->.
  apply normalized_Ok in Hr1 as [-> _]. by inversion Hsel; subst.
Qed.
End begin.

(** ** Staging *)

Section stage.
Context {H : Host} {C : StoreCodec}.

Lemma keeps_stage s op path contents md :
  separate s → working s op → ∀ app, keeps (same_at (app_dir s app)) (stage_file s op path contents md).
Proof.
  intros Hsep Hwork app. unfold stage_file, is_closed.
  apply keeps_bind; [apply _|by eauto with keeps|intros _].
  apply keeps_bind; [apply _|by eauto with keeps|intros closed].
  destruct closed; [by eauto with keeps|].
  do 2 (apply keeps_bind; [apply _|by eauto with keeps|intros _]).
  apply keeps_lift_bind; [apply _|]. intros blob Hb. unfold operation_blob_path in Hb. res_inv.
  rewrite blob_target. apply keeps_bind; [apply _| |intros; by eauto with keeps].
  by apply keeps_publish, apart_app_l, op_app_apart.
Qed.

Lemma stage_Ok s op path contents md blobs w sg w' :
  separate s → working s op → ready op blobs w →
  stage_file s op path contents md w = (Ok sg, w') →
  sg = {| sg_path := path; sg_blob_sha1 := to_ascii_lowercase (fm_sha1 md); sg_metadata := md |} ∧
  validate_cloud_path path = Ok tt ∧ validate_metadata contents md = Ok tt ∧
  (∀ n, blobs !! to_ascii_lowercase (fm_sha1 md) = Some n → n = File contents) ∧
  ready op (<[to_ascii_lowercase (fm_sha1 md) := File contents]> blobs) w' ∧
  ∀ app, same_at (app_dir s app) w w'.
Proof.
  intros Hsep Hwork Hr Hm. unfold stage_file, is_closed in Hm. st_inv. case_bool_decide; st_inv.
  unfold operation_blob_path in *. res_inv. rename Hx2 into Hp. rewrite blob_target in Hp.
  set (h := to_ascii_lowercase (fm_sha1 md)) in *.
  pose proof Hr as [Hb _]%ready_blobs.
  pose proof (publish_Ok _ _ _ _ _ Hp) as (es & [He|[He _]] & Hsame & Hd); [|congruence].
  assert (es = blobs) as -> by (apply Dir_inj; congruence).
  do 4 (split; [done|]). split.
  - eapply ready_keeps; [exact Hr| |exact Hd]. intros d Hne.
    eapply keeps_publish; [|exact Hp]. by apply (apart_siblings _ _ _ [] []).
  - intros app. eapply keeps_publish; [|exact Hp]. by apply apart_app_l, op_app_apart.
Qed.
End stage.
