(* ===== verification/StoreRead.v ===== *)
(** * StoreRead: reading succeeds

    On a host that does not fail from some point on, reading a repository answers with
    what it holds. *)

From Stdlib Require Import ZArith Lia.
From S2P Require Import Prelude RustStd CloudCore FileSystem StoreFiles StoreFilesProofs.
From S2P Require Import FolderStore FolderStoreProofs StoreCommit.

Local Open Scope Z_scope.

Section reads.
Context {H : Host}.

(** No call fails from here on. *)
Definition quiet (w : World) : Prop := ∀ k, (w_calls w ≤ k)%nat → fault k = None.

(** The world after some successful reading. *)
Definition onward (w w' : World) : Prop := same_world w w' ∧ (w_calls w ≤ w_calls w')%nat.

(** The computation succeeds with [a] and changes nothing, from here and later on. *)
Definition reads {E A} (m : ST E A) (w : World) (a : A) : Prop :=
  ∀ w1, onward w w1 → ∃ w2, m w1 = (Ok a, w2) ∧ onward w1 w2.

#[export] Instance onward_preorder : PreOrder onward.
Proof.
  split; [by split|]. intros w1 w2 w3 [H1 H2] [H3 H4]. split; [by trans w2|lia].
Qed.

Lemma onward_at p w w' : onward w w' → at_path p w' = at_path p w.
Proof. intros [Hs _]. by apply same_world_at. Qed.
Lemma quiet_onward w w' : quiet w → onward w w' → quiet w'.
Proof. intros Hq [_ Hle] k Hk. apply Hq. lia. Qed.

Lemma reads_ret {E A} (a : A) w : reads (mret a : ST E A) w a.
Proof. intros w1 _. exists w1. by split. Qed.
Lemma reads_lift {E A} (x : result E A) a w : x = Ok a → reads (lift x) w a.
Proof. intros -> w1 _. exists w1. by split. Qed.
Lemma reads_bind {E A B} (m : ST E A) (k : A → ST E B) w a b :
  reads m w a → reads (k a) w b → reads (m ≫= k) w b.
Proof.
  intros Hm Hk w1 Hw. destruct (Hm w1 Hw) as (w2 & H2 & Hw2).
  destruct (Hk w2) as (w3 & H3 & Hw3); [by trans w1|].
  exists w3. split; [|by trans w2]. unfold mbind, ST_bind. by rewrite H2.
Qed.
Lemma reads_map_err {E F A} (f : E → F) (m : ST E A) w a : reads m w a → reads (map_err f m) w a.
Proof.
  intros Hm w1 Hw. destruct (Hm w1 Hw) as (w2 & H2 & Hw2). exists w2. split; [|done].
  unfold map_err. by rewrite H2.
Qed.
Lemma reads_io {A} (m : ST IoErr A) w a : reads m w a → reads (io m) w a.
Proof. apply reads_map_err. Qed.

Lemma reads_exists {E} p w :
  reads (path_exists (E := E) p) w (bool_decide (is_Some (at_path p w))).
Proof. intros w1 Hw. exists w1. split; [|done]. unfold path_exists, gets. by rewrite (onward_at _ _ _ Hw). Qed.

Section quiet.
Context (w : World) (Hq : quiet w).

Lemma reads_syscall {A} (f : Node → result IoErr (A * Node)) a :
  f (w_root w) = Ok (a, w_root w) → reads (syscall f) w a.
Proof.
  intros Hf w1 [[Hr Hc] Hle]. exists (after_call (w_root w1) w1). split.
  - unfold syscall. rewrite Hq by lia. by rewrite Hr, Hf.
  - split; [done|simpl; lia].
Qed.
Lemma reads_touch : reads fs_touch w tt.
Proof. by apply reads_syscall. Qed.
Lemma reads_metadata p n : at_path p w = Some n → reads (fs_metadata p) w n.
Proof. unfold at_path. intros Hp. apply reads_syscall. by rewrite Hp. Qed.
Lemma reads_open p n : at_path p w = Some n → reads (fs_open p) w n.
Proof. apply reads_metadata. Qed.
Lemma reads_read b : reads (fs_read (File b)) w b.
Proof. by apply reads_syscall. Qed.
Lemma reads_read_dir p es :
  at_path p w = Some (Dir es) → reads (fs_read_dir p) w (entries_in_order es).
Proof. unfold at_path. intros Hp. apply reads_syscall. by rewrite Hp. Qed.

Lemma reads_bounded p m l b :
  at_path p w = Some (File b) → Z.of_nat (length b) ≤ m → reads (read_bounded_file p m l) w b.
Proof.
  intros Hp Hl. unfold read_bounded_file.
  eapply reads_bind; [by apply reads_io, reads_metadata|]. simpl.
  destruct (Z.ltb_spec m (Z.of_nat (length b))); [lia|].
  eapply reads_bind; [by apply reads_io, reads_open|].
  eapply reads_bind; [apply reads_io, reads_read|].
  rewrite take_bytes_ge by lia. destruct (Z.ltb_spec m (Z.of_nat (length b))); [lia|]. apply reads_ret.
Qed.
End quiet.
End reads.

#[export] Hint Resolve reads_ret reads_io reads_touch reads_open reads_metadata reads_read
  reads_read_dir : keeps.

(** ** Reading a repository *)

Lemma existsb_elem {A} (f : A → bool) l x : x ∈ l → f x = true → existsb f l = true.
Proof. intros Hin Hf. apply existsb_exists. exists x. by rewrite <-list_elem_of_In. Qed.

Section repository.
Context {H : Host} {C : StoreCodec} (w : World) (Hq : quiet w).

Lemma reads_touches {A} (k : Op A) a : reads k w a → reads (_ ← io fs_touch; k) w a.
Proof. intros Hk. eapply reads_bind; [by apply reads_io, reads_touch|done]. Qed.

Lemma reads_directory_entries l n m b :
  (n + length l ≤ 2)%nat → Forall (λ e, is_utf8 e.1 = true) l →
  reads (manifest_directory_entries l n m b) w
    ((n + length l)%nat,
     m || existsb (λ e, bool_decide (e.1 = "manifest.json") && is_file (Some e.2)) l,
     b || existsb (λ e, bool_decide (e.1 = "blobs") && is_dir (Some e.2)) l).
Proof.
  revert n m b. induction l as [|[name node] l IH]; intros n m b Hl Hu; cbn [length] in Hl.
  { simpl. rewrite Nat.add_0_r, !orb_false_r. apply reads_ret. }
  apply Forall_cons in Hu as [Hname Hu]. simpl in Hname. cbn [manifest_directory_entries].
  apply reads_touches. rewrite Hname. cbn [negb]. apply reads_touches.
  destruct (Nat.ltb_spec 2 (S n)); [lia|]. cbn [existsb length fst snd].
  rewrite !orb_assoc, Nat.add_succ_r. apply (IH (S n)); [lia|done].
Qed.

Lemma entries_two bytes blobs :
  entries_in_order (<["manifest.json" := File bytes]> {["blobs" := Dir blobs]})
    ≡ₚ [("manifest.json", File bytes); ("blobs", Dir blobs)].
Proof.
  apply NoDup_Permutation.
  - eapply NoDup_fmap_1, NoDup_entries.
  - apply NoDup_cons. split; [set_solver|apply NoDup_singleton].
  - intros [c x]. rewrite elem_of_entries, lookup_insert_Some, lookup_singleton_Some. set_solver.
Qed.

Lemma reads_directory bytes blobs p :
  at_path p w = Some (manifest_node bytes blobs) → reads (validate_manifest_directory p) w tt.
Proof.
  intros Hp. unfold validate_manifest_directory.
  eapply reads_bind; [by eapply reads_io, reads_read_dir|].
  pose proof (entries_two bytes blobs) as Hperm. apply Permutation_length in Hperm as Hlen.
  eapply reads_bind.
  - apply reads_directory_entries; [by rewrite Hlen|]. rewrite Hperm. repeat constructor.
  - rewrite Hlen. cbn [length Nat.add Nat.eqb negb orb].
    rewrite (existsb_elem _ _ ("manifest.json", File bytes)), (existsb_elem _ _ ("blobs", Dir blobs));
      [apply reads_ret|..]; try done; rewrite Hperm; set_solver.
Qed.

Lemma reads_blob_entries l expected actual :
  (∀ name n, (name, n) ∈ l → is_utf8 name = true ∧ is_lower_hex 40 name = true ∧
     ∃ b, n = File b ∧ expected !! name = Some (Z.of_nat (length b))) →
  reads (manifest_blob_entries l expected actual) w (list_to_set l.*1 ∪ actual).
Proof.
  revert actual. induction l as [|[name node] l IH]; intros actual Hl; cbn [manifest_blob_entries].
  { simpl. rewrite union_empty_l_L. apply reads_ret. }
  destruct (Hl name node) as (Hu & Hx & b & -> & He); [by left|].
  do 2 apply reads_touches. rewrite Hu, Hx, He. cbn [negb]. apply reads_touches.
  rewrite Z.eqb_refl. cbn [negb].
  replace (list_to_set ((name, File b) :: l).*1 ∪ actual)
    with (list_to_set l.*1 ∪ ({[name]} ∪ actual)) by (clear; csimpl; set_solver).
  apply IH. intros name' n Hin. apply Hl. by right.
Qed.

Lemma reads_blobs p blobs files :
  at_path p w = Some (Dir blobs) → blobs_match blobs files →
  reads (validate_manifest_blobs p files) w tt.
Proof.
  intros Hp [Hd Hb]. unfold validate_manifest_blobs.
  eapply reads_bind; [by eapply reads_io, reads_read_dir|]. eapply reads_bind.
  - apply reads_blob_entries. intros name n Hin%elem_of_entries. by apply Hb.
  - rewrite entries_set, union_empty_r_L, Hd, bool_decide_eq_true_2 by done. apply reads_ret.
Qed.

Lemma reads_manifest d account app name n m :
  at_path (d ++ [name]) w = Some n → complete_manifest account app name n m →
  reads (read_manifest d account app name) w m.
Proof.
  intros Hp (bytes & blobs & -> & Hlen & Hid & Hj & Hv & Hb). unfold read_manifest.
  eapply reads_bind; [by eapply reads_directory|]. eapply reads_bind.
  { apply reads_bounded; [done| |done]. unfold at_path in *. by rewrite get_app, Hp. }
  rewrite bool_decide_eq_true_2 by done. cbn [negb]. rewrite Hj.
  eapply reads_bind; [by apply reads_lift|]. eapply reads_bind; [|apply reads_ret].
  eapply reads_blobs; [|done]. unfold at_path in *. rewrite get_app, Hp. cbn [mbind option_bind].
  by rewrite get_blobs.
Qed.

Lemma reads_manifest_entry name n seen :
  is_utf8 name = true →
  (is_non_manifest_app_entry name = false → Z.of_nat seen < MAX_MANIFEST_OBJECTS ∧
     is_dir (Some n) = true ∧ validate_manifest_id name = Ok tt) →
  reads (manifest_entry name n seen) w (negb (is_non_manifest_app_entry name)).
Proof.
  intros Hu Hm. unfold manifest_entry. do 2 apply reads_touches. rewrite Hu. cbn [negb].
  destruct (is_non_manifest_app_entry name); [apply reads_ret|].
  destruct Hm as (Hs & -> & ->); [done|]. destruct (Z.leb_spec MAX_MANIFEST_OBJECTS (Z.of_nat seen)); [lia|].
  apply reads_ret.
Qed.

Lemma reads_manifest_entries d account app es ms l seen :
  at_path d w = Some (Dir es) → repository account app (Some (Dir es)) ms →
  (∀ name n, (name, n) ∈ l → es !! name = Some n) → NoDup l.*1 →
  (∀ name, name ∈ l.*1 → seen !! name = None) → seen ⊆ ms →
  (∀ name, is_Some (ms !! name) → is_Some (seen !! name) ∨ name ∈ l.*1) →
  reads (manifest_entries d account app l seen) w ms.
Proof.
  intros Hd Hrep. revert seen.
  induction l as [|[name n] l IH]; intros seen Hl Hnd Hnew Hsub Hall; simpl.
  { replace ms with seen; [apply reads_ret|]. apply map_eq. intros name.
    destruct (ms !! name) as [m|] eqn:Hm.
    - destruct (Hall name) as [[m' Hs]|?%elem_of_nil]; [by eauto| |done].
      pose proof (lookup_weaken _ _ _ _ Hs Hsub). congruence.
    - by eapply lookup_weaken_None. }
  pose proof Hrep as (es' & [He|[? _]] & Hsz & Hes & _); [|done].
  injection He as <-. apply NoDup_cons in Hnd as [Hni Hnd].
  assert (Hn : es !! name = Some n) by (apply Hl; by left).
  assert (Hseen : seen !! name = None) by (apply Hnew; by left).
  destruct (Hes _ _ Hn) as (Hu & [[Hnon Hno]|(Hnon & Hid & m & Hm & Hc)]).
  - eapply reads_bind; [by apply reads_manifest_entry; [|rewrite Hnon]|]. rewrite Hnon. cbn [negb].
    apply IH; try done.
    + intros a x Hin. apply Hl. by right.
    + intros a Ha. apply Hnew. by right.
    + intros a Ha. destruct (Hall a Ha) as [?|[->|?]%elem_of_cons]; [by left| |by right].
      simpl in Ha. rewrite Hno in Ha. by destruct Ha.
  - assert (Hlt : (size seen < size ms)%nat).
    { assert (size (<[name := m]> seen) ≤ size ms)%nat
        by (apply map_subseteq_size, insert_subseteq_l; done).
      rewrite map_size_insert_None in * by done. lia. }
    eapply reads_bind.
    { apply reads_manifest_entry; [done|]. intros _. split; [lia|].
      split; [by eapply complete_manifest_dir|done]. }
    rewrite Hnon. cbn [negb]. eapply reads_bind.
    { eapply reads_manifest; [|done]. unfold at_path in *. by rewrite get_snoc, Hd. }
    rewrite bool_decide_eq_false_2 by (rewrite Hseen; by intros []). apply IH; try done.
    + intros a x Hin. apply Hl. by right.
    + intros a Ha. rewrite lookup_insert_ne; [apply Hnew; by right|]. by intros ->.
    + by apply insert_subseteq_l.
    + intros a Ha. destruct (decide (a = name)) as [->|Hne]; [left; rewrite lookup_insert_eq; eauto|].
      rewrite lookup_insert_ne by done. destruct (Hall a Ha) as [?|[?|?]%elem_of_cons]; auto; done.
Qed.

(** A readable repository is read. *)
Lemma reads_collect s app account ms :
  st_account s = Some account → repository account app (at_path (app_dir s app) w) ms →
  reads (collect_manifest_objects s app) w ms.
Proof.
  intros Ha Hrep. unfold collect_manifest_objects, manifest_account. rewrite Ha.
  eapply reads_bind; [by apply reads_lift|]. eapply reads_bind; [apply reads_exists|].
  pose proof Hrep as (es & [Hd|[Hn ->]] & _ & _ & Hdom).
  - rewrite bool_decide_eq_true_2 by (rewrite Hd; eauto). cbn [negb].
    eapply reads_bind; [by eapply reads_io, reads_read_dir|]. rewrite Hd in Hrep.
    apply (reads_manifest_entries _ _ _ es); try done.
    + intros name n. by rewrite elem_of_entries.
    + apply NoDup_entries.
    + apply map_empty_subseteq.
    + intros name Hname%elem_of_dom. right. apply (elem_of_list_to_set (C := gset string)).
      rewrite entries_set. by apply Hdom.
  - rewrite bool_decide_eq_false_2 by (rewrite Hn; by intros []). cbn [negb].
    replace ms with (∅ : gmap string SaveManifest); [apply reads_ret|].
    symmetry. apply dom_empty_inv_L. set_solver.
Qed.

Lemma reads_resolve s app account ms :
  st_account s = Some account → app ≠ 0 → repository account app (at_path (app_dir s app) w) ms →
  reads (resolve_app s app) w (resolved ms).
Proof.
  intros Ha Happ Hrep. unfold resolve_app, validate_app_id, reject_if.
  destruct (Z.eqb_spec app 0); [done|]. eapply reads_bind; [by apply reads_lift|].
  eapply reads_bind; [by eapply reads_collect|apply reads_ret].
Qed.

(** ** Reading a file *)

Lemma reads_open_blob p f b :
  at_path p w = Some (File b) → Z.of_nat (length b) = sf_raw_size f →
  sf_raw_size f ≤ MAX_SAVE_FILE_BYTES → reads (open_blob_file p f) w (File b).
Proof.
  intros Hp Hl Hm. unfold open_blob_file.
  destruct (Z.ltb_spec MAX_SAVE_FILE_BYTES (sf_raw_size f)); [lia|].
  eapply reads_bind; [by apply reads_io, reads_metadata|]. cbn.
  rewrite Hl, Z.eqb_refl. by apply reads_io, reads_open.
Qed.

Lemma reads_download b file :
  hex_digest sha1 b = sf_sha1 file → Z.of_nat (length b) = sf_raw_size file →
  reads (download_read {| bd_file := File b; bd_metadata := metadata_of file |}) w b.
Proof.
  intros Hh Hl. unfold download_read. eapply reads_bind; [by apply reads_io, reads_read|].
  cbn [fm_raw_size bd_metadata metadata_of]. rewrite take_bytes_ge by lia.
  eapply reads_bind; [|apply reads_ret]. apply reads_lift. unfold verify_blob_bytes, reject_if.
  cbn. by rewrite Hl, Z.eqb_refl, bool_decide_eq_true_2.
Qed.
End repository.

(** What a valid manifest says of its files. *)
Lemma validate_files_Ok l sizes path file :
  validate_manifest_files l sizes = Ok tt → (path, file) ∈ l →
  validate_cloud_path path = Ok tt ∧ validate_blob_hash (sf_sha1 file) = Ok tt ∧
  sf_raw_size file ≤ MAX_SAVE_FILE_BYTES.
Proof.
  revert sizes. induction l as [|[p f] l IH]; intros sizes; [by rewrite elem_of_nil|].
  cbn [validate_manifest_files]. intros ([] & Hp & Hv)%bind_Ok_inv Hin.
  destruct (is_lower_hex 40 (sf_sha1 f)) eqn:Hx; [|done]. cbn [negb orb] in Hv.
  destruct (Z.ltb_spec MAX_SAVE_FILE_BYTES (sf_raw_size f)); [done|]. cbn [orb] in Hv.
  destruct (sf_mtime f <? 0); [done|]. case_match; [done|].
  apply elem_of_cons in Hin as [[= -> ->]|Hin]; [|by eapply IH].
  unfold validate_blob_hash. by rewrite Hx.
Qed.

Lemma validate_manifest_Ok name account app m path file :
  validate_manifest name account app m = Ok tt → sm_files m !! path = Some file →
  validate_cloud_path path = Ok tt ∧ validate_blob_hash (sf_sha1 file) = Ok tt ∧
  sf_raw_size file ≤ MAX_SAVE_FILE_BYTES.
Proof.
  unfold validate_manifest. case_match; [done|]. intros (u & _ & Hv)%bind_Ok_inv Hf.
  apply bind_Ok_inv in Hv as (parents & _ & Hv). case_match; [done|].
  eapply validate_files_Ok; [done|]. by apply elem_of_files_in_order.
Qed.

Section file.
Context {H : Host} {C : StoreCodec} (w : World) (Hq : quiet w).

(** The blob a file of the only head has. *)
Lemma reads_file s app account ms id m path file b :
  st_account s = Some account → app ≠ 0 → repository account app (at_path (app_dir s app) w) ms →
  heads_of ms = [id] → ms !! id = Some m → sm_files m !! path = Some file →
  at_path (app_dir s app ++ [id; "blobs"; sf_sha1 file]) w = Some (File b) →
  hex_digest sha1 b = sf_sha1 file → Z.of_nat (length b) = sf_raw_size file →
  reads (store_read s app path) w b.
Proof.
  intros Ha Happ Hrep Hh Hm Hf Hb Hsha Hlen. unfold store_read.
  pose proof Hrep as (es & [Hd|[Hn ->]] & _ & _ & Hdom).
  2: { apply elem_of_dom_2, Hdom in Hm. by rewrite dom_empty_L, elem_of_empty in Hm. }
  rewrite Hd in Hrep. destruct (repository_lookup _ _ _ _ _ _ Hrep Hm) as (n & _ & Hid & Hc).
  destruct Hc as (bytes & blobs & _ & _ & _ & _ & Hv & _).
  destruct (validate_manifest_Ok _ _ _ _ _ _ Hv Hf) as (Hpath & Hhash & Hmax).
  assert (Happ' : validate_app_id app = Ok tt).
  { unfold validate_app_id, reject_if. by destruct (Z.eqb_spec app 0). }
  assert (Hblob : manifest_blob_path s app id (sf_sha1 file) =
                  Ok (app_dir s app ++ [id; "blobs"; sf_sha1 file])).
  { unfold manifest_blob_path, manifest_dir. rewrite Hhash. cbn. rewrite Happ'. cbn. rewrite Hid.
    cbn. by rewrite <-app_assoc. }
  eapply (reads_bind _ _ _ ({| fe_path := path; fe_metadata := metadata_of file;
    fe_change_number := sm_revision m |}, {| bd_file := File b; bd_metadata := metadata_of file |}));
    [|by apply reads_download]. unfold bind_download.
  eapply reads_bind; [by apply reads_lift|]. eapply reads_bind; [by apply reads_lift|].
  eapply reads_bind.
  { unfold current_manifest. eapply reads_bind; [eapply reads_resolve; try done; by rewrite Hd|].
    apply reads_lift. unfold current. cbn. rewrite Hh. unfold manifest_at. by rewrite Hm. }
  cbn. rewrite Hf. eapply reads_bind; [by apply reads_lift|].
  eapply reads_bind; [by apply reads_open_blob|]. apply reads_ret.
Qed.
End file.

(** ** Readers leave the counter of [next_nonce] alone *)

Section counter.
Context {H : Host} {C : StoreCodec}.

Lemma nonce_directory_entries l n m b : keeps same_nonce (manifest_directory_entries l n m b).
Proof. revert n m b. induction l as [|[]]; intros; simpl; unfold io; keeps_tac. Qed.
Lemma nonce_blob_entries l e a : keeps same_nonce (manifest_blob_entries l e a).
Proof. revert a. induction l as [|[]]; intros; simpl; unfold io; keeps_tac. Qed.
#[local] Hint Resolve nonce_directory_entries nonce_blob_entries : keeps.
Lemma nonce_read_manifest d account app name : keeps same_nonce (read_manifest d account app name).
Proof.
  unfold read_manifest, validate_manifest_directory, read_bounded_file, validate_manifest_blobs, io.
  keeps_tac.
Qed.
#[local] Hint Resolve nonce_read_manifest : keeps.
Lemma nonce_manifest_entries d account app l ms :
  keeps same_nonce (manifest_entries d account app l ms).
Proof.
  revert ms. induction l as [|[]]; intros; simpl; unfold manifest_entry, io; keeps_tac.
Qed.
#[local] Hint Resolve nonce_manifest_entries : keeps.
Lemma nonce_resolve s app : keeps same_nonce (resolve_app s app).
Proof. unfold resolve_app, collect_manifest_objects, path_exists, io. keeps_tac. Qed.
#[local] Hint Resolve nonce_resolve : keeps.
Lemma nonce_view s app : keeps same_nonce (view s app).
Proof. unfold view, view_unlocked. keeps_tac. Qed.
Lemma keeps_view s app : keeps same_world (view s app).
Proof. unfold view, view_unlocked. keeps_tac. Qed.
End counter.
#[export] Hint Resolve nonce_resolve nonce_view keeps_view : keeps.
