(* ===== verification/StoreSpec.v ===== *)
(** * StoreSpec: what the file store promises

    Seen from outside, an app is its set of manifests. A commit, a write, a deletion or
    a resolution moves it as [commit_spec] says, whatever calls of the host fail and
    wherever; and on a host that works again, what was written is what is read. *)

From Stdlib Require Import ZArith Lia.
From S2P Require Import Prelude RustStd CloudCore FileSystem StoreFiles StoreFilesProofs.
From S2P Require Import FolderStore FolderStoreProofs StoreCommit StoreBegin StoreRead.

Local Open Scope Z_scope.

(** ** The abstract step *)

(** An app with manifests [ms] may answer [r] and become the given one, when an operation
    over [base] that must publish if [force] computes [files]. *)
Inductive commit_spec (ms : gmap string SaveManifest) (base : gmap string StoredFile)
    (files : BR (gmap string StoredFile)) (force : bool) (minimum : Z)
    : BR Z → gmap string SaveManifest → Prop :=
| spec_refused e : commit_spec ms base files force minimum (Err e) ms
| spec_unchanged c :
    files = Ok base → force = false → current (resolved ms) = Ok c →
    commit_spec ms base files force minimum (Ok (from_option (λ p, sm_revision p.2) 0 c)) ms
| spec_published id m r :
    ms !! id = None → files = Ok (sm_files m) → sm_parents m = heads_of ms →
    id ∉ sm_parents m → sm_revision m = Z.max (max_revision_of ms) minimum + 1 →
    (∀ revision, r = Ok revision → revision = sm_revision m) →
    commit_spec ms base files force minimum r (<[id := m]> ms).

(** The blobs of a manifest hold what its files say. *)
Definition verified {C : StoreCodec} (s : FolderStore) (app : Z) (w : World) (id : string)
    (files : gmap string StoredFile) : Prop :=
  ∀ path file, files !! path = Some file →
    ∃ b, at_path (app_dir s app ++ [id; "blobs"; sf_sha1 file]) w = Some (File b) ∧
         hex_digest sha1 b = sf_sha1 file ∧ Z.of_nat (length b) = sf_raw_size file.

Lemma get_cons c p es : get (c :: p) (Dir es) = es !! c ≫= get p.
Proof. simpl. by destruct (es !! c). Qed.

Lemma lower_hex_utf8 n name : is_lower_hex n name = true → is_utf8 name = true.
Proof.
  unfold is_lower_hex, all_hexdigits, is_utf8. intros [_ Hh]%andb_true_iff.
  induction (str_bytes name) as [|c l IH]; [done|]. cbn [forallb] in Hh.
  apply andb_true_iff in Hh as [Hc Hh]. cbn [utf8_valid].
  replace (between 0 127 c) with true; [by apply IH|].
  unfold is_hexdigit, is_digit, between in *. lia.
Qed.

(** The blobs of its files come from the given ones. *)
Definition carries (s : FolderStore) (app : Z) (w : World) (id : string)
    (files : gmap string StoredFile) (blobs : gmap string Node) : Prop :=
  ∀ path file, files !! path = Some file →
    at_path (app_dir s app ++ [id; "blobs"; sf_sha1 file]) w = blobs !! sf_sha1 file.

Section spec.
Context {H : Host} {C : StoreCodec} {L : StoreCodecLaws C}.

Lemma validate_manifest_parents name account app m :
  validate_manifest name account app m = Ok tt → name ∉ sm_parents m.
Proof.
  unfold validate_manifest. case_match; [done|]. intros (u & _ & Hv)%bind_Ok_inv.
  apply bind_Ok_inv in Hv as (parents & _ & Hv). case_match eqn:E; [done|].
  apply orb_false_iff in E as [E1 E2]. apply negb_false_iff, bool_decide_eq_true in E1 as <-.
  by apply bool_decide_eq_false in E2.
Qed.

(** The repository after a manifest was added. *)
Lemma repository_adds account app dir w w' id n m ms :
  repository account app (at_path dir w) ms → Z.of_nat (size ms) < MAX_MANIFEST_OBJECTS →
  adds_manifest account app dir w w' id n m →
  ms !! id = None ∧ id ∉ sm_parents m ∧ repository account app (at_path dir w') (<[id := m]> ms).
Proof.
  intros (es & He & _ & Hes & Hdom) Hsz (es' & He' & Hnew & Hd & Hid & Hc).
  assert (es' = es) as -> by (by eapply dir_entries_unique).
  assert (Hno : ms !! id = None).
  { apply not_elem_of_dom. intros Hin%Hdom. by apply not_elem_of_dom in Hnew. }
  split; [done|]. split.
  { destruct Hc as (? & ? & ? & ? & ? & ? & Hv & ?). by eapply validate_manifest_parents. }
  exists (<[id := n]> es). split; [rewrite Hd; by left|].
  split; [rewrite map_size_insert_None by done; lia|].
  pose proof (manifest_id_Ok _ _ Hid) as Hx. pose proof (lower_hex_manifest _ Hx) as Hnon. split.
  - apply map_Forall_insert_2.
    + split; [by eapply lower_hex_utf8|]. right. split; [done|]. split; [done|]. exists m.
      by rewrite lookup_insert_eq.
    + intros name n' Hn. destruct (Hes _ _ Hn) as [Hu Hcase]. split; [done|].
      assert (name ≠ id) by congruence. by rewrite lookup_insert_ne.
  - rewrite !dom_insert_L. set_solver.
Qed.

Lemma adds_verified account app s w w' id n m blobs files :
  adds_manifest account app (app_dir s app) w w' id n m → holds_files blobs n files →
  verified s app w' id files ∧ carries s app w' id files blobs.
Proof.
  intros (es & _ & _ & Hd & _) (bytes & bl & -> & Hsub & Hh).
  assert (Hat : ∀ h, at_path (app_dir s app ++ [id; "blobs"; h]) w' = bl !! h).
  { intros h. unfold at_path in *. rewrite get_app, Hd. cbn [mbind option_bind].
    rewrite get_cons, lookup_insert_eq. cbn [mbind option_bind]. rewrite get_blobs, get_cons.
    by destruct (bl !! h). }
  split; intros path file Hf; destruct (Hh _ _ Hf) as (b & Hb & ?).
  - exists b. by rewrite Hat.
  - rewrite Hat, Hb. symmetry. by eapply lookup_weaken.
Qed.

Lemma dir_entries_lookup q w es c :
  dir_entries (at_path q w) es → at_path (q ++ [c]) w = es !! c.
Proof.
  unfold at_path. rewrite get_snoc. intros [->|[-> ->]]; [done|]. by rewrite lookup_empty.
Qed.

Lemma same_at_blob d id h w w' : same_at (d ++ [id]) w w' → same_at (d ++ [id; "blobs"; h]) w w'.
Proof. intros Hs%(same_at_below _ ["blobs"; h]). by rewrite <-app_assoc in Hs. Qed.

(** Committing moves the app as the specification says. *)
Lemma commit_step s op staged deleted identity account ms blobs w r w' :
  separate s → working s op → ready op blobs w → op_parents op = op_expected_heads op →
  st_account s = Some account →
  repository account (op_app_id op) (at_path (app_dir s (op_app_id op)) w) ms →
  Z.of_nat (size ms) < MAX_MANIFEST_OBJECTS →
  commit_operation s op staged deleted identity w = (r, w') →
  ∃ ms', repository account (op_app_id op) (at_path (app_dir s (op_app_id op)) w') ms' ∧
    commit_spec ms (op_original_files op) (new_files op staged deleted) (op_force_publish op)
      (op_minimum_revision op) r ms' ∧
    (∀ id, is_Some (ms !! id) → same_at (app_dir s (op_app_id op) ++ [id]) w w') ∧
    ∀ id m, ms !! id = None → ms' !! id = Some m →
      verified s (op_app_id op) w' id (sm_files m) ∧
      carries s (op_app_id op) w' id (sm_files m) blobs.
Proof.
  intros Hsep Hwork Hready Hpar Hacc Hrep Hsz Hm.
  apply (commit_outcome _ _ _ _ _ blobs) in Hm; try done.
  destruct Hm as [e w' Hs|account' ms1 c w' Ha Hrep1 Hh Hf Hforce Hc Hs
    |account' ms1 files id n m r w' Ha Hrep1 Hh Hf Hp Hrev].
  - exists ms. split; [by eapply repository_entries|]. split; [constructor|].
    split; [|congruence]. intros id _. destruct Hrep as (es & He & _). unfold same_at.
    by rewrite (dir_entries_lookup _ _ es), (dir_entries_lookup _ _ es) by auto.
  - rewrite Hacc in Ha. injection Ha as <-. rewrite <-(repository_unique _ _ _ _ _ Hrep Hrep1) in *.
    exists ms. rewrite Hs. split; [done|]. split; [by constructor|].
    split; [|congruence]. intros id _. by apply same_at_below.
  - rewrite Hacc in Ha. injection Ha as <-. rewrite <-(repository_unique _ _ _ _ _ Hrep Hrep1) in *.
    destruct Hp as (Hadd & Hhold & Hparents & Hrevision & Hfiles).
    destruct (repository_adds _ _ _ _ _ _ _ _ _ Hrep Hsz Hadd) as (Hno & Hself & Hrep').
    exists (<[id := m]> ms). split; [done|]. split; [|split].
    + apply spec_published; try done; congruence.
    + intros id' [m' Hm']. destruct Hadd as (es & He & _ & Hd & _). unfold same_at.
      rewrite (dir_entries_lookup _ _ es id' He), (dir_entries_lookup _ w' (<[id := n]> es))
        by (by left). rewrite lookup_insert_ne; [done|]. congruence.
    + intros id' m' Hn Hi. apply lookup_insert_Some in Hi as [[<- <-]|[_ ?]]; [|congruence].
      eapply adds_verified; [exact Hadd|congruence].
Qed.
End spec.

(** ** Whole calls *)

(** The name the next operation's directory gets is not taken. *)
Definition fresh {H : Host} (s : FolderStore) (w : World) : Prop :=
  ∀ time, at_path (st_work_root s ++ [("operation-" ++ nonce_text time (w_nonce w))%string]) w = None.

(** The files of the only head, if there is one. *)
Definition current_files (ms : gmap string SaveManifest) : gmap string StoredFile :=
  match current (resolved ms) with
  | Ok c => from_option (λ p, sm_files p.2) ∅ c
  | Err _ => ∅
  end.

(** No manifest over the heads hashes to an id some manifest already names as a parent:
    the references of hashes are acyclic. *)
Definition acyclic {C : StoreCodec} (ms : gmap string SaveManifest) : Prop :=
  ∀ m bytes, manifest_from_slice bytes = Ok m → sm_parents m = heads_of ms →
    hex_digest sha256 bytes ∉ referenced ms.

Section calls.
Context {H : Host} {C : StoreCodec} {L : StoreCodecLaws C}.

Lemma begin_fresh s app bh rh minr w op w' :
  begin_operation_with_revision s app bh rh minr w = (Ok op, w') → fresh s w →
  at_path (op_path op) w = None.
Proof.
  unfold begin_operation_with_revision. intros Hm Hf. st_inv.
  match goal with Hr : resolve_app _ _ _ = _, Hn : next_nonce _ = _ |- _ =>
    apply nonce_resolve in Hr; injection Hn as <- _; rewrite Hr; apply Hf end.
Qed.

Lemma keeps_begin s app bh rh minr :
  separate s → keeps (same_at (app_dir s app)) (begin_operation_with_revision s app bh rh minr).
Proof.
  intros Hsep. pose proof (app_dir_apart s app Hsep) as Hap.
  unfold begin_operation_with_revision.
  do 6 (apply keeps_bind; [apply _|by eauto with keeps|intros]).
  destruct a4 as [[[parents sel] files] force].
  apply keeps_bind; [apply _|by eauto with keeps|intros nonce].
  apply keeps_bind; [apply _|by eauto with keeps|intros _].
  apply keeps_bind; [apply _| |intros; apply keeps_ret, _].
  destruct sel as [id|]; [|apply keeps_ret, _].
  apply keeps_bind; [apply _| |intros; by eauto with keeps].
  apply keeps_link_blobs. by apply apart_app_l, apart_app_l.
Qed.

Lemma with_operation_inv {A} op (body : Op A) w r w' :
  with_operation op body w = (r, w') →
  ∃ w1, body w = (r, w1) ∧ ∀ q, apart (op_path op) q → same_at q w1 w'.
Proof.
  unfold with_operation. intros [(x & w1 & Hb & Hm)|(e & Hb & _)]%ST_bind_inv.
  2: { unfold attempt in Hb. by destruct (body w). }
  apply attempt_inv in Hb as (y & [= <-] & Hb). exists w1.
  apply ST_bind_inv in Hm as [([] & w3 & Hd & Hm)|(e & Hd & _)].
  - injection Hm as <- <-. split; [done|]. intros q Hq.
    revert Hd. unfold drop_operation. apply (keeps_bind (same_at q)); [apply keeps_gets, _|].
    intros c. keeps_tac.
  - exfalso. unfold drop_operation, ignore, gets in Hd. unfold mbind, ST_bind in Hd.
    by case_bool_decide.
Qed.
End calls.

Section writing.
Context {H : Host} {C : StoreCodec} {L : StoreCodecLaws C}.

Lemma repository_complete account app n ms id m :
  repository account app n ms → ms !! id = Some m →
  ∃ n', complete_manifest account app id n' m.
Proof.
  intros Hrep Hm. pose proof Hrep as (es & [->|[_ ->]] & _ & _ & Hdom).
  - destruct (repository_lookup _ _ _ _ _ _ Hrep Hm) as (n' & _ & _ & Hc). eauto.
  - apply elem_of_dom_2, Hdom in Hm. by rewrite dom_empty_L, elem_of_empty in Hm.
Qed.

(** A published manifest is the only head. *)
Lemma published_head account app n ms id m :
  repository account app n (<[id := m]> ms) → ms !! id = None → sm_parents m = heads_of ms →
  id ∉ sm_parents m → acyclic ms → heads_of (<[id := m]> ms) = [id].
Proof.
  intros Hrep Hno Hp Hself Hac.
  destruct (repository_complete _ _ _ _ id m Hrep) as (n' & bytes & _ & _ & _ & <- & Hj & _);
    [by rewrite lookup_insert_eq|].
  apply heads_insert; try done. by eapply Hac.
Qed.

Lemma current_Ok ms c :
  current (resolved ms) = Ok c →
  match c with
  | Some (id, m) => heads_of ms = [id] ∧ ms !! id = Some m
  | None => heads_of ms = []
  end.
Proof.
  unfold current. cbn. destruct (heads_of ms) as [|id [|]]; [by intros [= <-]| |done].
  unfold manifest_at. destruct (ms !! id) as [m|] eqn:Hm; [|done]. by intros [= <-].
Qed.

Lemma new_files_stage op sg :
  validate_cloud_path (sg_path sg) = Ok tt →
  new_files op [sg] ∅ = Ok (<[sg_path sg := staged_stored sg]> (op_original_files op)).
Proof. intros Hp. unfold new_files. rewrite elements_empty. cbn. by rewrite Hp. Qed.

Lemma new_files_delete op path :
  validate_cloud_path path = Ok tt →
  new_files op [] {[path]} = Ok (delete path (op_original_files op)).
Proof. intros Hp. unfold new_files. rewrite elements_singleton. cbn. by rewrite Hp. Qed.

(** What staging [contents] stores for a file. *)
Definition written_file (md : FileMetadata) : StoredFile :=
  {| sf_sha1 := to_ascii_lowercase (fm_sha1 md); sf_raw_size := fm_raw_size md;
     sf_mtime := fm_mtime md; sf_platforms_to_sync := fm_platforms_to_sync md |}.

Lemma begin_ordinary s app bh account ms w op w' :
  separate s → fresh s w → st_account s = Some account →
  repository account app (at_path (app_dir s app) w) ms →
  begin_operation s app bh None w = (Ok op, w') →
  ∃ c blobs, begun s app ms (fst <$> c) op ∧ current (resolved ms) = Ok c ∧ ready op blobs w' ∧
    starts_with s app (fst <$> c) (op_original_files op) blobs w ∧
    op_original_files op = current_files ms ∧ op_force_publish op = false ∧
    op_minimum_revision op = 0 ∧ same_at (app_dir s app) w w'.
Proof.
  intros Hsep Hf Ha Hrep Hm. unfold begin_operation in Hm. pose proof (begin_fresh _ _ _ _ _ _ _ _ Hm Hf) as Hno.
  apply begin_Ok in Hm as (account' & ms' & sel & Ha' & Hrep' & Hb & Hmin & Hs & Hr & Hforce & c & Hc & -> & Hfiles);
    [|done]. rewrite Ha in Ha'. injection Ha' as <-.
  rewrite <-(repository_unique _ _ _ _ _ Hrep Hrep') in *.
  destruct (Hr Hno) as (blobs & Hready & Hst). exists c, blobs.
  assert (op_original_files op = current_files ms) by (unfold current_files; by rewrite Hc). auto 10.
Qed.

(** The manifest a successful call leaves on top holds the file's contents. *)
Definition holds_file (app_directory : option Node) (ms ms' : gmap string SaveManifest)
    (path : string) (file : StoredFile) (contents : list Z) : Prop :=
  ∃ id m, ms' !! id = Some m ∧ sm_files m !! path = Some file ∧
    app_directory ≫= get [id; "blobs"; sf_sha1 file] = Some (File contents) ∧
    (acyclic ms → heads_of ms' = [id]).

Lemma write_operation s app op c path contents md identity account ms blobs w0 w r w' :
  separate s → begun s app ms (fst <$> c) op → current (resolved ms) = Ok c → ready op blobs w →
  starts_with s app (fst <$> c) (op_original_files op) blobs w0 → same_at (app_dir s app) w0 w →
  op_original_files op = current_files ms →
  op_force_publish op = false → op_minimum_revision op = 0 → st_account s = Some account →
  repository account app (at_path (app_dir s app) w) ms →
  Z.of_nat (size ms) < MAX_MANIFEST_OBJECTS →
  (staged ← stage_file s op path contents md; commit_operation s op [staged] ∅ identity) w = (r, w') →
  ∃ ms', repository account app (at_path (app_dir s app) w') ms' ∧
    commit_spec ms (current_files ms) (Ok (<[path := written_file md]> (current_files ms)))
      false 0 r ms' ∧
    (∀ revision, r = Ok revision →
       validate_metadata contents md = Ok tt ∧
       holds_file (at_path (app_dir s app) w') ms ms' path (written_file md) contents).
Proof.
  intros Hsep Hb Hc Hr Hst Hw0 Hfiles Hforce Hmin Ha Hrep Hsz.
  destruct Hb as [Hwork Hvalid Happ Hexp Hpar Hbuilds].
  intros [(sg & w1 & Hstage & Hm)|(e & Hstage & ->)]%ST_bind_inv.
  2: { exists ms. rewrite (keeps_stage _ _ _ _ _ Hsep Hwork app _ _ _ Hstage). split; [done|].
       split; [constructor|done]. }
  apply (stage_Ok _ _ _ _ _ blobs) in Hstage as (-> & Hpath & Hmd & Hsame & Hr1 & Hs1); try done.
  rewrite <-(Hs1 app) in Hrep.
  assert (Hpe : op_parents op = op_expected_heads op) by congruence. subst app.
  destruct (commit_step _ _ _ _ _ _ _ _ _ _ _ Hsep Hwork Hr1 Hpe Ha Hrep Hsz Hm)
    as (ms' & Hrep' & Hspec & Hold & Hnew).
  rewrite new_files_stage, Hfiles, Hforce, Hmin in Hspec by done.
  exists ms'. split; [done|]. split; [exact Hspec|]. intros revision ->. split; [done|].
  unfold holds_file, at_path. setoid_rewrite <-get_app.
  inversion Hspec as [|c' Heq _ Hc'|id m ? Hno Heq Hp Hself _ _]; subst.
  - injection Heq as Heq. rewrite Hc in Hc'. injection Hc' as <-.
    assert (Hin : current_files ms' !! path = Some (written_file md))
      by (rewrite <-Heq; by rewrite lookup_insert_eq).
    rewrite <-Hfiles in Hin. destruct (Hst _ _ Hin) as (id & n & Hsel & Hbl & Hat).
    rewrite Hfiles in Hin. unfold current_files in Hin. rewrite Hc in Hin.
    destruct c as [[id' m]|]; [|done]. cbn in Hin, Hsel.
    injection Hsel as ->. destruct (current_Ok _ _ Hc) as [Hh Hm'].
    exists id, m. split; [done|]. split; [done|]. split; [|done].
    rewrite <-(Hsame _ Hbl), <-Hat. etrans; [apply same_at_blob, Hold; by eauto|].
    etrans; [apply same_at_below, Hs1|]. by apply same_at_below.
  - injection Heq as Heq. exists id, m. rewrite lookup_insert_eq. split; [done|].
    assert (Hin : sm_files m !! path = Some (written_file md))
      by (rewrite <-Heq; by rewrite lookup_insert_eq).
    split; [done|]. destruct (Hnew id m Hno) as [_ Hcar]; [by rewrite lookup_insert_eq|].
    split; [etrans; [apply (Hcar _ _ Hin)|]; by rewrite lookup_insert_eq|].
    intros Hac. by eapply published_head.
Qed.
End writing.
