(* ===== verification/StoreTheorems.v ===== *)
(** * StoreTheorems: the guarantees of the file store

    Atomicity and refinement of commits, writes, deletions and resolutions on a host
    that may fail at any call; that concurrent operations do not overwrite each other;
    integrity of what is read; and that what was written is read back. *)

From Stdlib Require Import ZArith Lia.
From S2P Require Import Prelude RustStd CloudCore FileSystem StoreFiles StoreFilesProofs.
From S2P Require Import FolderStore FolderStoreProofs StoreCommit StoreBegin StoreRead StoreSpec.

Local Open Scope Z_scope.

(** The outcome of a call over an app with manifests [ms]: the specification's, and
    [extra] when it succeeded. *)
Definition call_outcome {C : StoreCodec} (s : FolderStore) (account : string) (app : Z)
    (ms : gmap string SaveManifest) (base files : gmap string StoredFile) (force : bool)
    (minimum : Z) (extra : gmap string SaveManifest → option Node → Prop) (r : BR Z) (w' : World)
    : Prop :=
  ∃ ms', repository account app (at_path (app_dir s app) w') ms' ∧
    commit_spec ms base (Ok files) force minimum r ms' ∧
    (∀ revision, r = Ok revision → extra ms' (at_path (app_dir s app) w')).

Section steps.
Context {H : Host} {C : StoreCodec} {L : StoreCodecLaws C}.
Context (s : FolderStore) (account : string) (Hsep : separate s).
Context (Haccount : st_account s = Some account) (app : Z) (ms : gmap string SaveManifest).

Lemma outcome_fails base files force minimum extra e w w' :
  repository account app (at_path (app_dir s app) w) ms → same_at (app_dir s app) w w' →
  call_outcome s account app ms base files force minimum extra (Err e) w'.
Proof. intros Hrep Hs. exists ms. rewrite Hs. split; [done|]. split; [constructor|done]. Qed.

Lemma outcome_keeps base files force minimum extra r w w' :
  same_at (app_dir s app) w w' →
  call_outcome s account app ms base files force minimum extra r w →
  call_outcome s account app ms base files force minimum extra r w'.
Proof. intros Hs. unfold call_outcome. by rewrite Hs. Qed.

(** Everything a call that edits the current files does around its operation. *)
Lemma ordinary_step (body : SaveOperation → CommitIdentity → Op Z) d files extra w r w' :
  fresh s w → repository account app (at_path (app_dir s app) w) ms →
  (∀ identity op c blobs w1 w3 r w4,
     app ≠ 0 → same_at (app_dir s app) w w1 → begun s app ms (fst <$> c) op →
     current (resolved ms) = Ok c → ready op blobs w3 →
     starts_with s app (fst <$> c) (op_original_files op) blobs w1 →
     op_original_files op = current_files ms → op_force_publish op = false →
     op_minimum_revision op = 0 → same_at (app_dir s app) w1 w3 →
     body op identity w3 = (r, w4) →
     call_outcome s account app ms (current_files ms) files false 0 extra r w4) →
  (v ← view s app; identity ← lift (current_identity d);
   op ← begin_operation s app (head_ids v) None; with_operation op (body op identity)) w
    = (r, w') →
  call_outcome s account app ms (current_files ms) files false 0 extra r w'.
Proof.
  intros Hf Hrep Hbody Hm. set (dir := app_dir s app) in *.
  set (P := call_outcome s account app ms (current_files ms) files false 0 extra) in *.
  assert (Hfail : ∀ e w1, same_at dir w w1 → P (Err e) w1).
  { intros e w1 Hs. by eapply outcome_fails. }
  assert (HR : same_at dir w w) by done.
  until_step Hfail HR Hm; [by eauto with keeps|].
  pose proof (keeps_view _ _ _ _ _ Hx) as Hs1. pose proof (nonce_view _ _ _ _ _ Hx) as Hn1.
  until_step Hfail HR Hm; [by eauto with keeps|]. injection Hx0 as Hident <-.
  until_step Hfail HR Hm; [by apply keeps_begin|].
  assert (Hf1 : fresh s w0).
  { intros t. rewrite (same_world_at _ _ _ Hs1), Hn1. apply Hf. }
  assert (Happ : app ≠ 0).
  { unfold view, validate_app_id, reject_if in Hx. st_inv. by destruct (Z.eqb_spec app 0). }
  assert (Hrep1 : repository account app (at_path dir w0) ms) by (by rewrite (same_world_at _ _ _ Hs1)).
  destruct (begin_ordinary _ _ _ _ _ _ _ _ Hsep Hf1 Haccount Hrep1 Hx0)
    as (c & blobs & Hbegun & Hc & Hr & Hst & Hfiles & Hforce & Hmin & Hs3).
  apply with_operation_inv in Hm as (w4 & Hm & Hs4).
  eapply outcome_keeps; [apply Hs4, op_app_apart; [done|apply Hbegun]|].
  eapply (Hbody a0 a1 c blobs w0); try done. by apply same_world_at.
Qed.

Lemma write_step d path contents md w r w' :
  fresh s w → repository account app (at_path (app_dir s app) w) ms →
  Z.of_nat (size ms) < MAX_MANIFEST_OBJECTS →
  store_write s d app path contents md w = (r, w') →
  call_outcome s account app ms (current_files ms)
    (<[path := written_file md]> (current_files ms)) false 0
    (λ ms' n, app ≠ 0 ∧ validate_metadata contents md = Ok tt ∧
              holds_file n ms ms' path (written_file md) contents) r w'.
Proof.
  intros Hf Hrep Hsz. unfold store_write.
  apply (ordinary_step (λ op identity, staged ← stage_file s op path contents md;
                                       commit_operation s op [staged] ∅ identity)); try done.
  intros identity op c blobs w1 w3 r1 w4 Happ Hs1 Hb Hc Hr Hst Hfiles Hforce Hmin Hs3 Hm.
  assert (Hrep3 : repository account app (at_path (app_dir s app) w3) ms) by (by rewrite Hs3, Hs1).
  destruct (write_operation _ _ _ _ _ _ _ _ _ _ _ _ _ _ _ Hsep Hb Hc Hr Hst Hs3 Hfiles Hforce
    Hmin Haccount Hrep3 Hsz Hm) as (ms' & Hrep' & Hspec & Hok).
  exists ms'. split; [done|]. split; [done|]. intros revision Hrev. split; [done|]. by eapply Hok.
Qed.

(** What an operation that stages nothing does. *)
Lemma unstaged_step op sel deleted files identity blobs (extra : _ → _ → Prop) w r w' :
  begun s app ms sel op → ready op blobs w → app ≠ 0 →
  repository account app (at_path (app_dir s app) w) ms →
  Z.of_nat (size ms) < MAX_MANIFEST_OBJECTS → new_files op [] deleted = Ok files →
  (∀ ms' n r, repository account app n ms' →
     commit_spec ms (op_original_files op) (Ok files) (op_force_publish op)
       (op_minimum_revision op) (Ok r) ms' → extra ms' n) →
  commit_operation s op [] deleted identity w = (r, w') →
  call_outcome s account app ms (op_original_files op) files (op_force_publish op)
    (op_minimum_revision op) extra r w'.
Proof.
  intros [Hwork Hvalid Happ Hexp Hpar Hbuilds] Hr Hne Hrep Hsz Hfiles Hextra Hm.
  assert (Hpe : op_parents op = op_expected_heads op) by congruence. rewrite <-Happ in *.
  destruct (commit_step _ _ _ _ _ _ _ _ _ _ _ Hsep Hwork Hr Hpe Haccount Hrep Hsz Hm)
    as (ms' & Hrep' & Hspec & _ & _).
  rewrite Hfiles in Hspec. exists ms'. split; [done|]. split; [done|]. intros revision ->. eauto.
Qed.

(** The manifest on top after a successful step. *)
Lemma spec_current base files minimum force n revision ms' :
  repository account app n ms' → acyclic ms → base = current_files ms →
  commit_spec ms base (Ok files) force minimum (Ok revision) ms' →
  current_files ms' = files.
Proof.
  intros Hrep Hac -> Hspec. inversion Hspec as [|c Heq _ Hc|id m ? Hno Heq Hp Hself _ _]; subst.
  - congruence.
  - injection Heq as ->. unfold current_files, current. cbn.
    rewrite (published_head _ _ _ _ _ _ Hrep Hno Hp Hself Hac).
    unfold manifest_at. by rewrite lookup_insert_eq.
Qed.

Lemma delete_step d path w r w' :
  fresh s w → repository account app (at_path (app_dir s app) w) ms →
  Z.of_nat (size ms) < MAX_MANIFEST_OBJECTS →
  store_delete s d app path w = (r, w') →
  call_outcome s account app ms (current_files ms) (delete path (current_files ms)) false 0
    (λ ms' n, app ≠ 0 ∧ (acyclic ms → current_files ms' = delete path (current_files ms))) r w'.
Proof.
  intros Hf Hrep Hsz Hm. unfold store_delete in Hm.
  apply ST_bind_inv in Hm as [([] & w0 & [= Hpath <-] & Hm)|(e & [= _ <-] & ->)];
    [|by eapply outcome_fails].
  revert Hm. apply (ordinary_step (λ op identity, commit_operation s op [] {[path]} identity)); try done.
  intros identity op c blobs w1 w3 r1 w4 Happ Hs1 Hb Hc Hr Hst Hfiles Hforce Hmin Hs3 Hm.
  rewrite <-Hfiles at 1. rewrite <-Hforce. rewrite <-Hmin at 1.
  apply (unstaged_step op (fst <$> c) {[path]} _ identity blobs _ w3); try done.
  - by rewrite Hs3, Hs1.
  - by rewrite new_files_delete, Hfiles by done.
  - intros ms' n rev Hrep' Hspec. split; [done|]. intros Hac. by eapply spec_current.
Qed.

Lemma resolution_step expected selected identity minimum w r w' :
  fresh s w → repository account app (at_path (app_dir s app) w) ms →
  Z.of_nat (size ms) < MAX_MANIFEST_OBJECTS →
  resolve_to_manifest s app expected selected identity minimum w = (r, w') →
  (same_at (app_dir s app) w w' ∧ ∃ e, r = Err e) ∨
  ∃ m, ms !! selected = Some m ∧
    call_outcome s account app ms (sm_files m) (sm_files m) true minimum
      (λ ms' n, app ≠ 0 ∧ (acyclic ms → current_files ms' = sm_files m)) r w'.
Proof.
  intros Hf Hrep Hsz Hm. unfold resolve_to_manifest in Hm. set (dir := app_dir s app) in *.
  assert (HR : same_at dir w w) by done.
  keep_step Hm HR; [|by eauto with keeps]. keep_step Hm HR; [|by eauto with keeps].
  keep_step Hm HR; [|by eauto with keeps]. keep_step Hm HR; [|by apply keeps_begin].
  unfold lift in *. simplify_eq.
  match goal with Hb : begin_operation_with_revision _ _ _ _ _ ?w1 = _ |- _ =>
    pose proof (begin_fresh _ _ _ _ _ _ _ _ Hb Hf) as Hno; rename Hb into Hbegin end.
  assert (Happ : app ≠ 0).
  { unfold validate_app_id, reject_if in *. by destruct (Z.eqb_spec app 0). }
  apply begin_Ok in Hbegin as (account' & ms' & sel & Ha' & Hrep' & Hb & Hmin & Hs & Hr & Hforce & Hsel);
    [|done]. rewrite Haccount in Ha'. injection Ha' as <-.
  rewrite <-(repository_unique _ _ _ _ _ Hrep Hrep') in *. rewrite (Hsel selected) in * by done.
  destruct (Hr Hno) as (blobs & Hready & _). right.
  pose proof (bg_files _ _ _ _ _ Hb) as Hbuilds. inversion Hbuilds as [|id m Hm' Hid Hfiles]; subst id.
  exists m. split; [done|]. apply with_operation_inv in Hm as (w4 & Hm & Hs4).
  eapply outcome_keeps; [apply Hs4, op_app_apart; [done|apply Hb]|].
  rewrite <-Hforce, <-Hmin, Hfiles. eapply unstaged_step; try done.
  - by rewrite Hs.
  - unfold new_files. by rewrite elements_empty.
  - intros ms1 n rev Hrep1 Hspec. split; [done|]. intros Hac.
    rewrite Hforce in Hspec.
    inversion Hspec as [|c _ Hno' _|id m1 ? Hnew Heq Hp Hself _ _]; subst; [done|].
    injection Heq as Heq. unfold current_files, current. cbn.
    rewrite (published_head _ _ _ _ _ _ Hrep1 Hnew Hp Hself Hac).
    unfold manifest_at. rewrite lookup_insert_eq. cbn. congruence.
Qed.
End steps.

(** ** The operations a call closes *)

Definition closes (p : Path) : relation World := λ w w', w_closed w' ⊆ {[p]} ∪ w_closed w.

#[export] Instance closes_preorder p : PreOrder (closes p).
Proof. unfold closes. split; [intros w; set_solver|intros w1 w2 w3; set_solver]. Qed.

Section closing.
Context {H : Host} {C : StoreCodec} (p : Path).

Lemma keeps_closed_closes {E A} (m : ST E A) : keeps same_closed m → keeps (closes p) m.
Proof. apply keeps_weaken. unfold same_closed, closes. intros w w' ->. set_solver. Qed.
#[local] Hint Resolve keeps_closed_closes : keeps.

Lemma keeps_set_closed_closes {E} op : op_path op = p → keeps (closes p) (set_closed (E := E) op).
Proof. intros <- w r w' [= <- <-]. unfold closes. set_solver. Qed.

Lemma prune_closed op files : keeps same_closed (prune_operation_blobs op files).
Proof. unfold prune_operation_blobs, io. keeps_tac. Qed.
#[local] Hint Resolve prune_closed keeps_verify_files : keeps.

Lemma commit_closes s op staged deleted identity :
  op_path op = p → keeps (closes p) (commit_operation s op staged deleted identity).
Proof.
  intros Hp. unfold commit_operation, publish_operation, is_closed, json, io. keeps_tac;
    eauto using keeps_set_closed_closes with keeps.
Qed.
End closing.

(** ** Guarantees *)

Section guarantees.
Context {H : Host} {C : StoreCodec} {L : StoreCodecLaws C}.
Context (s : FolderStore) (account : string) (Hsep : separate s).
Context (Haccount : st_account s = Some account).


(** [write_refines]: whatever calls of the host fail, [write] leaves the app's manifests
    as they were or adds one that differs from the current files in the written path
    only. *)
Theorem write_refines d app path contents md ms w r w' :
  fresh s w → repository account app (at_path (app_dir s app) w) ms →
  Z.of_nat (size ms) < MAX_MANIFEST_OBJECTS →
  store_write s d app path contents md w = (r, w') →
  ∃ ms', repository account app (at_path (app_dir s app) w') ms' ∧
    commit_spec ms (current_files ms) (Ok (<[path := written_file md]> (current_files ms)))
      false 0 r ms'.
Proof.
  intros Hf Hrep Hsz Hm.
  destruct (write_step s account Hsep Haccount app ms d path contents md w r w')
    as (ms' & ? & ? & _); eauto.
Qed.

Lemma metadata_written contents md :
  validate_metadata contents md = Ok tt →
  hex_digest sha1 contents = sf_sha1 (written_file md) ∧
  Z.of_nat (length contents) = sf_raw_size (written_file md).
Proof.
  unfold validate_metadata. repeat case_match; try done. intros _.
  repeat match goal with E : negb _ = false |- _ => apply negb_false_iff in E end.
  split; [by apply (bool_decide_eq_true_1 _)|by apply Z.eqb_eq].
Qed.


Lemma reads_current app ms c w :
  quiet w → app ≠ 0 → repository account app (at_path (app_dir s app) w) ms →
  current (resolved ms) = Ok c → reads (current_manifest s app) w c.
Proof.
  intros Hq Happ Hrep Hc. unfold current_manifest.
  eapply reads_bind; [by eapply reads_resolve|]. by apply reads_lift.
Qed.

Lemma lock_app_Ok app : app ≠ 0 → lock_app app = Ok tt.
Proof. unfold lock_app, validate_app_id, reject_if. by destruct (Z.eqb_spec app 0). Qed.

(** A file the current manifest does not have is not read. *)
Lemma read_missing app path ms c w :
  quiet w → app ≠ 0 → validate_cloud_path path = Ok tt →
  repository account app (at_path (app_dir s app) w) ms →
  current (resolved ms) = Ok c → current_files ms !! path = None →
  ∃ message w', store_read s app path w = (Err (permanent message), w') ∧ same_world w w'.
Proof.
  intros Hq Happ Hpath Hrep Hc Hno.
  destruct (reads_current app ms c w Hq Happ Hrep Hc w) as (w' & Hr & [Hs _]); [done|].
  unfold current_files in Hno. rewrite Hc in Hno.
  unfold store_read, bind_download, mbind, ST_bind, lift. rewrite Hpath, (lock_app_Ok _ Happ), Hr.
  destruct c as [[id m]|]; cbn in *; [rewrite Hno|]; by do 2 eexists.
Qed.

(** [delete_removes]: whatever calls fail, a deletion leaves a readable app whose current
    files are as before or lack the path; after a successful one, a host that no longer
    fails refuses to read the path, for good. *)
Theorem delete_removes d app path ms r w w' :
  fresh s w → repository account app (at_path (app_dir s app) w) ms →
  Z.of_nat (size ms) < MAX_MANIFEST_OBJECTS → acyclic ms →
  store_delete s d app path w = (r, w') →
  ∃ ms', repository account app (at_path (app_dir s app) w') ms' ∧
    commit_spec ms (current_files ms) (Ok (delete path (current_files ms))) false 0 r ms' ∧
    ∀ revision, r = Ok revision →
      current_files ms' = delete path (current_files ms) ∧
      (quiet w' → ∃ message w'', store_read s app path w' = (Err (permanent message), w'')).
Proof.
  intros Hf Hrep Hsz Hac Hm.
  destruct (delete_step s account Hsep Haccount app ms d path w r w') as (ms' & Hrep' & Hspec & Hok);
    try done.
  exists ms'. split; [done|]. split; [done|]. intros revision ->.
  destruct (Hok _ eq_refl) as [Happ Hfiles]. specialize (Hfiles Hac). split; [done|]. intros Hq.
  assert (Hpath : validate_cloud_path path = Ok tt).
  { unfold store_delete in Hm. apply ST_bind_inv in Hm as [([] & ? & [= Hp _] & _)|(e & _ & ?)]; done. }
  assert (∃ c, current (resolved ms') = Ok c) as [c Hc].
  { inversion Hspec as [|c _ _ Hc|id m ? Hno _ Hp Hself _ _]; subst; [eauto|].
    unfold current. cbn. rewrite (published_head _ _ _ _ _ _ Hrep' Hno Hp Hself Hac).
    unfold manifest_at. rewrite lookup_insert_eq. cbn. eauto. }
  destruct (read_missing app path ms' c w' Hq Happ Hpath Hrep' Hc) as (message & w2 & Hr & _);
    [by rewrite Hfiles, lookup_delete_eq|eauto].
Qed.

(** What a resolution does to the app. *)
Lemma resolve_outcome app expected selected identity minimum ms r w w' :
  fresh s w → repository account app (at_path (app_dir s app) w) ms →
  Z.of_nat (size ms) < MAX_MANIFEST_OBJECTS → acyclic ms →
  resolve_to_manifest s app expected selected identity minimum w = (r, w') →
  (repository account app (at_path (app_dir s app) w') ms ∧ ∃ e, r = Err e) ∨
  ∃ id m m', ms !! selected = Some m ∧ sm_files m' = sm_files m ∧
    minimum < sm_revision m' ∧ max_revision_of ms < sm_revision m' ∧
    (∀ revision, r = Ok revision → revision = sm_revision m') ∧
    repository account app (at_path (app_dir s app) w') (<[id := m']> ms) ∧
    heads_of (<[id := m']> ms) = [id].
Proof.
  intros Hf Hrep Hsz Hac Hm.
  apply (resolution_step s account Hsep Haccount app ms) in Hm as [[Hs ?]|(m & Hm & ms' & Hrep' & Hspec & _)];
    try done; [left; by rewrite Hs|].
  inversion Hspec as [|c _ ? _|id m1 ? Hno Heq Hp Hself Hrev Hok]; subst; [|done|].
  - left. eauto.
  - right. exists id, m, m1. injection Heq as Heq. split; [done|]. split; [done|].
    split; [lia|]. split; [lia|]. split; [done|]. split; [done|]. by eapply published_head.
Qed.

(** [resolution_collapses]: resolving a conflict in favour of a manifest leaves the app
    alone or puts one manifest with that one's files on top of all heads. *)
Theorem resolution_collapses app expected selected identity minimum ms r w w' :
  fresh s w → repository account app (at_path (app_dir s app) w) ms →
  Z.of_nat (size ms) < MAX_MANIFEST_OBJECTS → acyclic ms →
  resolve_to_manifest s app expected selected identity minimum w = (r, w') →
  (repository account app (at_path (app_dir s app) w') ms ∧ ∃ e, r = Err e) ∨
  ∃ id m m', ms !! selected = Some m ∧ sm_files m' = sm_files m ∧
    minimum < sm_revision m' ∧ max_revision_of ms < sm_revision m' ∧
    (∀ revision, r = Ok revision → revision = sm_revision m') ∧
    repository account app (at_path (app_dir s app) w') (<[id := m']> ms) ∧
    heads_of (<[id := m']> ms) = [id].
Proof. apply resolve_outcome. Qed.

(** ** Operations that overlap *)

Lemma stale_commit op staged deleted identity ms w :
  validate_operation s op = Ok tt → validate_identity identity = Ok tt →
  op_path op ∉ w_closed w → quiet w → op_app_id op ≠ 0 →
  repository account (op_app_id op) (at_path (app_dir s (op_app_id op)) w) ms →
  heads_of ms ≠ op_expected_heads op →
  ∃ w', commit_operation s op staged deleted identity w =
          (Err (conflict "local cloud changed after the upload batch began"), w') ∧
        same_world w w'.
Proof.
  intros Hv Hi Hc Hq Happ Hrep Hh.
  destruct (reads_resolve w Hq s (op_app_id op) account ms Haccount Happ Hrep w) as (w' & Hr & [Hs _]);
    [done|].
  exists w'. split; [|done].
  unfold commit_operation, is_closed, gets, lift, mbind, ST_bind.
  rewrite Hv, Hi, bool_decide_eq_false_2, (lock_app_Ok _ Happ), Hr by done. cbn [ra_heads resolved].
  by rewrite bool_decide_eq_false_2.
Qed.

(** [stale_commit_refused]: an operation begun before the heads changed is refused with a
    retryable conflict, and nothing is touched. *)
Theorem stale_commit_refused op staged deleted identity ms w :
  validate_operation s op = Ok tt → validate_identity identity = Ok tt →
  op_path op ∉ w_closed w → quiet w → op_app_id op ≠ 0 →
  repository account (op_app_id op) (at_path (app_dir s (op_app_id op)) w) ms →
  heads_of ms ≠ op_expected_heads op →
  ∃ w', commit_operation s op staged deleted identity w =
          (Err (conflict "local cloud changed after the upload batch began"), w') ∧
        same_world w w'.
Proof. apply stale_commit. Qed.


(** ** Integrity *)

Lemma keeps_store_read (st : FolderStore) app path : keeps same_world (store_read st app path).
Proof.
  unfold store_read, bind_download, current_manifest, download_read, io.
  keeps_tac; eauto using keeps_open_blob with keeps.
Qed.

(** [read_integrity]: whatever the host does, [read] changes nothing and returns only
    bytes whose length and SHA-1 are those the one current manifest records for the
    path. *)
Theorem read_integrity app path bytes w w' :
  store_read s app path w = (Ok bytes, w') →
  same_world w w' ∧
  ∃ ms id m file, repository account app (at_path (app_dir s app) w) ms ∧ heads_of ms = [id] ∧
    ms !! id = Some m ∧ sm_files m !! path = Some file ∧
    hex_digest sha1 bytes = sf_sha1 file ∧ Z.of_nat (length bytes) = sf_raw_size file.
Proof.
  intros Hm. split.
  { by apply (keeps_store_read s app path _ _ _ Hm). }
  unfold store_read, bind_download, current_manifest in Hm. st_inv.
  match goal with Hr : resolve_app _ _ _ = _ |- _ =>
    apply resolve_Ok in Hr as (account' & ms & Ha & _ & -> & Hrep) end.
  rewrite Haccount in Ha. injection Ha as <-.
  match goal with Hc : current (resolved ms) = Ok ?c |- _ =>
    pose proof (current_Ok _ _ Hc) as Hcur; destruct c as [[id m]|]; st_inv end.
  destruct Hcur as [Hh Hm']. destruct (sm_files m !! path) as [file|] eqn:Hf; st_inv.
  exists ms, id, m, file. do 4 (split; [done|]).
  unfold download_read in Hm. st_inv. unfold verify_blob_bytes, reject_if in *.
  case_match eqn:E; [done|]. apply orb_false_iff in E as [E1 E2].
  apply negb_false_iff, Z.eqb_eq in E1. apply negb_false_iff, bool_decide_eq_true in E2. done.
Qed.
End guarantees.
