(* ===== verification/StoreGc.v ===== *)
(** * StoreGc: collection of old manifests in the file store

    [inspect_gc] decides which manifests stay: the heads and their direct parents. A
    sweep checks that the repository still holds exactly what was inspected, moves the
    others out of the way one by one, and can be undone until it is finalized. *)

From Stdlib Require Import ZArith Lia.
From S2P Require Import Prelude RustStd CloudCore FileSystem StoreFiles FolderStore.

Local Open Scope Z_scope.

Record GcReport := {
  gr_app_id : Z;
  gr_manifest_scope : string;
  gr_retained_manifests : list string;
  gr_candidate_manifests : list string;
}.

(** The manifests moved to the work directory, with where they are. *)
Record GcSweep := { gs_deleted_manifests : nat; gs_moved_manifests : list (string * Path) }.

Record GcSweepPlan := {
  gp_root : Path;
  gp_app_id : Z;
  gp_expected_manifests : gset string;
  gp_candidate_manifests : gset string;
}.

(** [BTreeSet] in its order. *)
Definition set_in_order (s : gset string) : list string := sort_by_key id (elements s).

Definition unique_items (items : list string) : BR (gset string) :=
  let unique : gset string := list_to_set items in
  if negb (size unique =? length items)%nat
  then Err (permanent "invalid local cloud GC report") else Ok unique.

Definition head_set (manifests : gmap string SaveManifest) : gset string :=
  dom manifests ∖ referenced manifests.

(** The heads and those of their parents that are present. *)
Definition retained_set (manifests : gmap string SaveManifest) : gset string :=
  head_set manifests ∪
  filter (λ id, is_Some (manifests !! id))
    (list_to_set (set_in_order (head_set manifests) ≫=
                  λ head, from_option sm_parents [] (manifests !! head))).

Section gc.
Context {H : Host} {C : StoreCodec}.

Definition verify_files (s : FolderStore) (app_id : Z) (manifest_id : string)
    (files : gmap string StoredFile) : Op unit :=
  for_each (λ '(path, file),
    _ ← lift (validate_cloud_path path);
    blob ← lift (manifest_blob_path s app_id manifest_id (sf_sha1 file));
    verify_blob_file blob file) (files_in_order files).

Definition inspect_gc (s : FolderStore) (app_id : Z) : Op GcReport :=
  _ ← lift (validate_app_id app_id);
  manifests ← collect_manifest_objects s app_id;
  let retained := retained_set manifests in
  _ ← for_each (λ id,
        match manifests !! id with
        | None => throw (incomplete "local cloud GC retained manifest is unavailable")
        | Some manifest => verify_files s app_id id (sm_files manifest)
        end) (set_in_order retained);
  mret {| gr_app_id := app_id; gr_manifest_scope := manifest_scope s app_id;
          gr_retained_manifests := set_in_order retained;
          gr_candidate_manifests := set_in_order (dom manifests ∖ retained) |}.

(** The names of the manifests present, without reading them. *)
Fixpoint manifest_path_entries (l : list (string * Node)) (paths : gset string)
    : Op (gset string) :=
  match l with
  | [] => mret paths
  | (name, node) :: l =>
      is_manifest ← manifest_entry name node (size paths);
      if negb is_manifest then manifest_path_entries l paths
      else if bool_decide (name ∈ paths)
      then throw (permanent "duplicate local cloud manifest identity")
      else manifest_path_entries l ({[name]} ∪ paths)
  end.

Definition collect_manifest_paths (app_directory : Path) : Op (gset string) :=
  present ← path_exists app_directory;
  if negb present then mret ∅
  else
    entries ← io (fs_read_dir app_directory);
    manifest_path_entries entries ∅.

Definition prepare_gc_sweep (s : FolderStore) (report : GcReport) : Op (option GcSweepPlan) :=
  let app_id := gr_app_id report in
  if negb (bool_decide (gr_manifest_scope report = manifest_scope s app_id))
  then throw (permanent "invalid local cloud GC scope")
  else
    retained ← lift (unique_items (gr_retained_manifests report));
    candidates ← lift (unique_items (gr_candidate_manifests report));
    if negb (bool_decide (retained ## candidates))
    then throw (permanent "invalid local cloud GC report")
    else
      _ ← lift (lock_app app_id);
      present ← collect_manifest_paths (app_dir s app_id);
      if negb (bool_decide (present = retained ∪ candidates)) then mret None
      else mret (Some {| gp_root := app_dir s app_id; gp_app_id := app_id;
                         gp_expected_manifests := retained ∪ candidates;
                         gp_candidate_manifests := candidates |}).

Definition move_manifest_to_trash (s : FolderStore) (app_id : Z) (id : string)
    : Op (option Path) :=
  source ← lift (manifest_dir s app_id id);
  present ← path_exists source;
  if negb present then mret None
  else
    nonce ← next_nonce;
    let trash := st_work_root s ++ [("gc-" ++ nonce)%string] in
    _ ← io (fs_rename source trash);
    _ ← sync_directory (app_dir s app_id);
    _ ← sync_directory (st_work_root s);
    mret (Some trash).

(** Undoing, last move first. *)
Definition restore_gc_sweep_locked (s : FolderStore) (app_id : Z)
    (moved : list (string * Path)) : Op unit :=
  _ ← for_each (λ '(id, trash),
        destination ← lift (manifest_dir s app_id id);
        present ← path_exists destination;
        if present : bool then remove_dir_all_if_exists trash
        else io (fs_rename trash destination)) (reverse moved);
  _ ← sync_directory (app_dir s app_id);
  sync_directory (st_work_root s).

Definition restore_gc_sweep (s : FolderStore) (app_id : Z) (sweep : GcSweep) : Op unit :=
  _ ← lift (lock_app app_id);
  restore_gc_sweep_locked s app_id (gs_moved_manifests sweep).

Fixpoint sweep_candidates (s : FolderStore) (app_id : Z) (ids : list string)
    (moved : list (string * Path)) : Op (list (string * Path)) :=
  match ids with
  | [] => mret moved
  | id :: ids =>
      r ← attempt (move_manifest_to_trash s app_id id);
      match r with
      | Ok (Some trash) => sweep_candidates s app_id ids (moved ++ [(id, trash)])
      | Ok None => sweep_candidates s app_id ids moved
      | Err error =>
          _ ← ignore (restore_gc_sweep_locked s app_id moved);
          throw error
      end
  end.

Definition apply_gc_sweep (s : FolderStore) (plan : GcSweepPlan) : Op (option GcSweep) :=
  if negb (bool_decide (gp_root plan = app_dir s (gp_app_id plan))) then mret None
  else
    present ← collect_manifest_paths (app_dir s (gp_app_id plan));
    if negb (bool_decide (present = gp_expected_manifests plan)) then mret None
    else
      moved ← sweep_candidates s (gp_app_id plan)
                (set_in_order (gp_candidate_manifests plan)) [];
      mret (Some {| gs_deleted_manifests := length moved; gs_moved_manifests := moved |}).

Definition finalize_gc_sweep (s : FolderStore) (sweep : GcSweep) : Op unit :=
  _ ← for_each (λ '(_, trash), remove_dir_all_if_exists trash) (gs_moved_manifests sweep);
  sync_directory (st_work_root s).
End gc.
