(* ===== verification/StoreGcProofs.v ===== *)
(** * StoreGcProofs: collection is safe

    Which manifests collection keeps, that a sweep touches no other entry whatever calls
    fail, that a completed sweep leaves the same heads, and that a sweep can be undone. *)

From Stdlib Require Import ZArith Lia.
From S2P Require Import Prelude RustStd CloudCore FileSystem StoreFiles StoreFilesProofs.
From S2P Require Import FolderStore FolderStoreProofs StoreCommit StoreBegin StoreRead StoreSpec.
From S2P Require Import StoreGc.

Local Open Scope Z_scope.

(** ** What is retained *)

Section retained.
Implicit Types ms : gmap string SaveManifest.

Lemma elem_of_set_in_order (x : string) s : x ∈ set_in_order s ↔ x ∈ s.
Proof. unfold set_in_order. by rewrite elem_of_sort_by_key, elem_of_elements. Qed.

Lemma NoDup_set_in_order s : NoDup (set_in_order s).
Proof. unfold set_in_order. rewrite sort_by_key_perm. apply NoDup_elements. Qed.

Lemma elem_of_head_set ms id : id ∈ head_set ms ↔ id ∈ heads_of ms.
Proof. unfold head_set. rewrite elem_of_difference, elem_of_dom, elem_of_heads. done. Qed.

Lemma elem_of_retained ms id :
  id ∈ retained_set ms ↔
    is_Some (ms !! id) ∧
    (id ∈ heads_of ms ∨ ∃ h m, h ∈ heads_of ms ∧ ms !! h = Some m ∧ id ∈ sm_parents m).
Proof.
  unfold retained_set. rewrite elem_of_union, elem_of_head_set, elem_of_filter, elem_of_list_to_set,
    list_elem_of_bind. split.
  - intros [Hh|[Hs (h & Hp & Hh)]].
    + split; [by apply elem_of_heads in Hh as [? _]|by left].
    + split; [done|]. right. rewrite elem_of_set_in_order, elem_of_head_set in Hh.
      destruct (ms !! h) as [m|] eqn:Hm; cbn in Hp; [eauto|by apply not_elem_of_nil in Hp].
  - intros [Hs [Hh|(h & m & Hh & Hm & Hp)]]; [by left|]. right. split; [done|].
    exists h. by rewrite elem_of_set_in_order, elem_of_head_set, Hm.
Qed.

(** The manifests that stay. *)
Definition kept ms : gmap string SaveManifest := filter (λ p, p.1 ∈ retained_set ms) ms.

Lemma kept_lookup ms id m : kept ms !! id = Some m ↔ ms !! id = Some m ∧ id ∈ retained_set ms.
Proof. unfold kept. apply map_lookup_filter_Some. Qed.

Lemma elem_of_kept_heads ms id : id ∈ heads_of (kept ms) ↔ id ∈ heads_of ms.
Proof.
  rewrite !elem_of_heads. split.
  - intros [[m Hm] Hr]. apply kept_lookup in Hm as [Hm Hk]. split; [eauto|].
    apply elem_of_retained in Hk as [_ [[_ ?]%elem_of_heads|(h & mh & Hh & Hmh & Hp)]]; [done|].
    destruct Hr. apply elem_of_referenced. exists h, mh. split; [|done].
    apply kept_lookup. split; [done|]. apply elem_of_retained. eauto.
  - intros [[m Hm] Hr]. split.
    + exists m. apply kept_lookup. split; [done|]. apply elem_of_retained.
      split; [eauto|]. left. apply elem_of_heads. eauto.
    + intros (k & mk & Hk & Hp)%elem_of_referenced. apply Hr, elem_of_referenced.
      apply kept_lookup in Hk as [Hk _]. eauto.
Qed.

Lemma heads_ext ms1 ms2 : (∀ id, id ∈ heads_of ms1 ↔ id ∈ heads_of ms2) → heads_of ms1 = heads_of ms2.
Proof.
  intros Hh. unfold heads_of. apply sort_by_key_unique; [by intros ????|].
  apply NoDup_Permutation; try apply NoDup_filter, NoDup_fst_map_to_list.
  intros id. specialize (Hh id). unfold heads_of in Hh. by rewrite !elem_of_sort_by_key in Hh.
Qed.

Lemma kept_heads ms : heads_of (kept ms) = heads_of ms.
Proof. apply heads_ext, elem_of_kept_heads. Qed.

Lemma kept_current ms : current (resolved (kept ms)) = current (resolved ms).
Proof.
  unfold current. cbn. rewrite kept_heads. destruct (heads_of ms) as [|id [|]] eqn:Hh; [done| |done].
  assert (Hin : id ∈ heads_of ms) by (rewrite Hh; by left).
  pose proof Hin as [[m Hm] _]%elem_of_heads. unfold manifest_at. rewrite Hm.
  assert (kept ms !! id = Some m) as ->; [|done].
  apply kept_lookup. split; [done|]. apply elem_of_retained. eauto.
Qed.
End retained.

(** ** Renames between two directories *)

Section renames.
Context {H : Host}.

Definition renamed (p : Path) (c : string) (d : Path) (e : string) (v : Node) (w : World) : World :=
  after_call (put (d ++ [e]) (Some v) (put (p ++ [c]) None (w_root w))) w.

Lemma renamed_at p c d e v es1 es2 w :
  apart p d → at_path p w = Some (Dir es1) → at_path d w = Some (Dir es2) →
  at_path p (renamed p c d e v w) = Some (Dir (delete c es1)) ∧
  at_path d (renamed p c d e v w) = Some (Dir (<[e := v]> es2)).
Proof.
  intros Ha Hp Hd. unfold at_path, renamed in *. cbn [w_root after_call]. split.
  - rewrite get_put_apart by (by apply apart_app_l, apart_sym). by apply get_put_snoc.
  - apply get_put_snoc. rewrite get_put_apart by (by apply apart_app_l). done.
Qed.

(** What a rename that is not refused does. *)
Lemma rename_eval p c d e v es1 es2 w :
  apart p d → at_path p w = Some (Dir es1) → at_path d w = Some (Dir es2) →
  es1 !! c = Some v → fault (w_calls w) = None → may_replace v (es2 !! e) = true →
  fs_rename (p ++ [c]) (d ++ [e]) w = (Ok tt, renamed p c d e v w).
Proof.
  intros Ha Hp Hd Hc Hf Hr. unfold fs_rename, syscall. rewrite Hf. unfold at_path in *.
  rewrite !get_snoc, parent_snoc, Hp, Hd, Hc.
  destruct (apart_app _ _ [c] [e] Ha) as [Ha1 Ha2].
  rewrite (bool_decide_eq_false_2 (_ = _)) by (intros Heq; by rewrite Heq in Ha1).
  rewrite !bool_decide_eq_false_2 by done. cbn. by rewrite Hr.
Qed.

Lemma rename_inv p c d e es1 w w' :
  apart p d → at_path p w = Some (Dir es1) → fs_rename (p ++ [c]) (d ++ [e]) w = (Ok tt, w') →
  ∃ v es2, es1 !! c = Some v ∧ at_path d w = Some (Dir es2) ∧ may_replace v (es2 !! e) = true ∧
    w' = renamed p c d e v w.
Proof.
  intros Ha Hp Hm. pose proof Hm as (n & Hm' & ->)%syscall_Ok. unfold at_path in *.
  rewrite !get_snoc, parent_snoc, Hp in Hm'. destruct (es1 !! c) as [v|] eqn:Hc; [|done].
  destruct (apart_app _ _ [c] [e] Ha) as [Ha1 Ha2].
  rewrite (bool_decide_eq_false_2 (_ = _)) in Hm' by (intros Heq; by rewrite Heq in Ha1).
  rewrite !bool_decide_eq_false_2 in Hm' by done. cbn [orb] in Hm'.
  destruct (get d (w_root w)) as [[b|es2|]|] eqn:Hd; try done. cbn [is_dir negb] in Hm'.
  destruct (may_replace v (es2 !! e)) eqn:Hr; [|done]. injection Hm' as <-. eauto 10.
Qed.
End renames.

(** ** Sweeping *)

Section sweep.
Context {H : Host} {C : StoreCodec} (s : FolderStore) (app : Z) (Hsep : separate s).

Lemma work_app_apart : apart (app_dir s app) (st_work_root s).
Proof. by apply apart_sym, app_dir_apart. Qed.

Lemma manifest_dir_Ok id p : manifest_dir s app id = Ok p → p = app_dir s app ++ [id].
Proof. unfold manifest_dir. intros. by res_inv. Qed.

Lemma manifest_dir_valid id p : manifest_dir s app id = Ok p → validate_manifest_id id = Ok tt.
Proof.
  unfold manifest_dir. intros (u & _ & Hv)%bind_Ok_inv. apply bind_Ok_inv in Hv as ([] & Hv & _). done.
Qed.

(** *** What it leaves alone *)

Lemma keeps_move id c :
  c ≠ id → keeps (same_at (app_dir s app ++ [c])) (move_manifest_to_trash s app id).
Proof.
  intros Hne. unfold move_manifest_to_trash, io.
  apply keeps_lift_bind; [apply _|]. intros source ->%manifest_dir_Ok.
  apply keeps_bind; [apply _|by eauto with keeps|]. intros present.
  destruct present; cbn [negb]; [|by eauto with keeps].
  apply keeps_bind; [apply _|by eauto with keeps|]. intros nonce.
  apply keeps_bind; [apply _| |intros; keeps_tac].
  apply keeps_map_err, keeps_rename.
  - apply (apart_siblings _ _ _ [] []). congruence.
  - apply apart_app, app_dir_apart, Hsep.
Qed.

Definition in_trash (moved : list (string * Path)) : Prop :=
  ∀ id trash, (id, trash) ∈ moved → ∃ c, trash = st_work_root s ++ [c].

Lemma keeps_restore moved c :
  in_trash moved → c ∉ moved.*1 →
  keeps (same_at (app_dir s app ++ [c])) (restore_gc_sweep_locked s app moved).
Proof.
  intros Ht Hc. unfold restore_gc_sweep_locked, io.
  apply keeps_bind; [apply _| |intros; keeps_tac].
  apply keeps_for_each; [apply _|]. intros [id trash] Hin. rewrite elem_of_reverse in Hin.
  destruct (Ht _ _ Hin) as [x ->].
  assert (Hw : apart (st_work_root s ++ [x]) (app_dir s app ++ [c])) by (by apply apart_app, app_dir_apart).
  assert (c ≠ id) by (intros ->; apply Hc, list_elem_of_fmap; by eexists (_, _)).
  apply keeps_lift_bind; [apply _|]. intros destination ->%manifest_dir_Ok.
  apply keeps_bind; [apply _|by eauto with keeps|]. intros [|].
  - by apply keeps_remove_tree.
  - apply keeps_map_err, keeps_rename; [done|]. apply (apart_siblings _ _ _ [] []). congruence.
Qed.

Lemma move_trash id w trash w' :
  move_manifest_to_trash s app id w = (Ok (Some trash), w') → ∃ c, trash = st_work_root s ++ [c].
Proof.
  unfold move_manifest_to_trash. intros Hm. st_inv. case_bool_decide; cbn [negb] in Hm;
    [st_inv; by eexists|by injection Hm].
Qed.

Lemma keeps_sweep ids moved c w r w' :
  in_trash moved → c ∉ moved.*1 → c ∉ ids → sweep_candidates s app ids moved w = (r, w') →
  same_at (app_dir s app ++ [c]) w w'.
Proof.
  revert moved w. induction ids as [|id ids IH]; intros moved w Ht Hc Hi Hm; cbn in Hm.
  { by injection Hm as _ <-. }
  apply not_elem_of_cons in Hi as [Hne Hi].
  apply ST_bind_inv in Hm as [(x & w1 & (y & [= ->] & Hx)%attempt_inv & Hm)|(e & Hx & _)].
  2: { unfold attempt in Hx. by destruct (move_manifest_to_trash _ _ _ _). }
  trans w1; [by eapply (keeps_move id)|]. destruct y as [[trash|]|e].
  - eapply (IH (moved ++ [(id, trash)])); try done.
    + intros id' trash' [Hin|[= -> ->]%list_elem_of_singleton]%elem_of_app; [by eapply Ht|].
      by eapply move_trash.
    + rewrite fmap_app, elem_of_app. intros [?|Hin]; [done|]. by apply list_elem_of_singleton in Hin.
  - by eapply IH.
  - revert Hm. apply (keeps_bind (same_at _)).
    + apply keeps_ignore, keeps_restore; done.
    + intros. apply keeps_throw, _.
Qed.

(** *** What it does *)

(** Of the entries [es] of the app directory, those in [moved] are in the work
    directory. *)
Definition swept (es : gmap string Node) (moved : list (string * Path)) (w : World) : Prop :=
  at_path (app_dir s app) w = Some (Dir (filter (λ p, p.1 ∉ moved.*1) es)) ∧
  NoDup moved.*1 ∧ NoDup moved.*2 ∧
  ∀ id trash, (id, trash) ∈ moved →
    ∃ c n, trash = st_work_root s ++ [c] ∧ validate_manifest_id id = Ok tt ∧ es !! id = Some n ∧
           at_path trash w = Some n.

Definition manifests_only (es : gmap string Node) : Prop :=
  ∀ id n, es !! id = Some n → validate_manifest_id id = Ok tt → ∃ b bl, n = manifest_node b bl.

Lemma may_replace_manifest b bl x :
  may_replace (manifest_node b bl) x = true → ∀ b' bl', x ≠ Some (manifest_node b' bl').
Proof.
  intros Hr b' bl' ->. simpl in Hr. apply bool_decide_eq_true in Hr.
  apply (f_equal (lookup "manifest.json")) in Hr. by rewrite lookup_insert_eq, lookup_empty in Hr.
Qed.

Lemma swept_world es moved w w' : same_world w w' → swept es moved w → swept es moved w'.
Proof.
  intros Hs (Hd & H1 & H2 & Ht). split; [by rewrite (same_world_at _ _ _ Hs)|]. do 2 (split; [done|]).
  intros id trash Hin. destruct (Ht _ _ Hin) as (c & n & ? & ? & ? & Hat). exists c, n.
  by rewrite (same_world_at _ _ _ Hs).
Qed.

Lemma filter_moved (es : gmap string Node) l id :
  filter (λ p, p.1 ∉ l ++ [id]) es = delete id (filter (λ p, p.1 ∉ l) es).
Proof.
  apply map_eq. intros k. apply option_eq. intros n.
  rewrite lookup_delete_Some, !map_lookup_filter_Some. cbn. set_solver.
Qed.

Lemma work_lookup c w es : at_path (st_work_root s) w = Some (Dir es) →
  at_path (st_work_root s ++ [c]) w = es !! c.
Proof. intros Hw. apply dir_entries_lookup. by left. Qed.

Lemma move_swept es moved id w trash w' :
  manifests_only es → swept es moved w → id ∉ moved.*1 →
  move_manifest_to_trash s app id w = (Ok (Some trash), w') →
  swept es (moved ++ [(id, trash)]) w'.
Proof.
  intros Hman Hsw Hid Hm. unfold move_manifest_to_trash in Hm. st_inv.
  case_bool_decide; cbn [negb] in Hm; [|by injection Hm]. st_inv.
  pose proof (manifest_dir_valid _ _ Hr) as Hv.
  apply manifest_dir_Ok in Hr as ->. apply keeps_nonce in Hx. apply (swept_world _ _ _ _ Hx) in Hsw.
  apply (swept_world _ _ w0); [trans w2; by eapply keeps_sync|]. clear Hx1 Hx2 Hx.
  destruct Hsw as (Hd & Hn1 & Hn2 & Ht).
  apply (rename_inv _ _ _ _ _ _ _ work_app_apart Hd) in Hx0 as (v & es2 & Hes & Hw & Hrep & ->).
  apply map_lookup_filter_Some in Hes as [Hes _].
  destruct (Hman _ _ Hes Hv) as (b & bl & ->).
  set (c := ("gc-" +:+ x0)) in *.
  destruct (renamed_at (app_dir s app) id (st_work_root s) c (manifest_node b bl) _ _ w work_app_apart
    Hd Hw) as [Hd' Hw'].
  assert (Hfree : ∀ id' c', (id', st_work_root s ++ [c']) ∈ moved → c' ≠ c).
  { intros id' c' Hin ->. destruct (Ht _ _ Hin) as (c' & n & Heq & Hv' & Hn & Hat).
    rewrite (work_lookup _ _ _ Hw) in Hat.
    destruct (Hman _ _ Hn Hv') as (b' & bl' & ->). by eapply may_replace_manifest. }
  split; [|split; [|split]].
  - rewrite Hd', fmap_app. do 2 f_equal. symmetry. apply filter_moved.
  - rewrite fmap_app. apply NoDup_app. split; [done|]. split; [set_solver|apply NoDup_singleton].
  - rewrite fmap_app. apply NoDup_app. split; [done|]. split; [|apply NoDup_singleton].
    intros t Ht' ->%list_elem_of_singleton. apply list_elem_of_fmap in Ht' as ([id' t] & Heq & Hin).
    cbn in Heq. subst t. by eapply Hfree.
  - intros id' trash [Hin|[= -> ->]%list_elem_of_singleton]%elem_of_app.
    + destruct (Ht _ _ Hin) as (c' & n & -> & ? & Hn & Hat). exists c', n. do 3 (split; [done|]).
      rewrite (work_lookup _ _ _ Hw) in Hat. rewrite (work_lookup _ _ _ Hw'), <-Hat.
      apply lookup_insert_ne. intros <-. by eapply Hfree.
    + exists c, (manifest_node b bl). rewrite (work_lookup _ _ _ Hw'), lookup_insert_eq. done.
Qed.

Lemma swept_present es moved id n w :
  swept es moved w → es !! id = Some n → id ∉ moved.*1 → at_path (app_dir s app ++ [id]) w = Some n.
Proof.
  intros (Hd & _) Hn Hid. erewrite dir_entries_lookup by (by left; apply Hd).
  by apply map_lookup_filter_Some.
Qed.

Lemma move_None id w w' :
  move_manifest_to_trash s app id w = (Ok None, w') → at_path (app_dir s app ++ [id]) w = None.
Proof.
  unfold move_manifest_to_trash. intros Hm. st_inv. apply manifest_dir_Ok in Hr as ->.
  case_bool_decide as Hp; cbn [negb] in Hm; [by st_inv|]. by apply eq_None_not_Some.
Qed.

Lemma sweep_swept es ids moved w moved' w' :
  manifests_only es → swept es moved w → NoDup ids →
  (∀ id, id ∈ ids → is_Some (es !! id) ∧ id ∉ moved.*1) →
  sweep_candidates s app ids moved w = (Ok moved', w') →
  swept es moved' w' ∧ moved'.*1 = moved.*1 ++ ids.
Proof.
  intros Hman. revert moved w. induction ids as [|id ids IH]; intros moved w Hsw Hnd Hin Hm; cbn in Hm.
  { injection Hm as <- <-. by rewrite app_nil_r. }
  apply NoDup_cons in Hnd as [Hni Hnd]. destruct (Hin id) as [[n Hn] Hid]; [by left|].
  apply ST_bind_inv in Hm as [(x & w1 & (y & [= ->] & Hx)%attempt_inv & Hm)|(e & _ & ?)]; [|done].
  destruct y as [[trash|]|e].
  - destruct (IH (moved ++ [(id, trash)]) w1) as [Hs Hl]; try done.
    + by eapply move_swept.
    + intros k Hk. destruct (Hin k) as [? Hk']; [by right|]. split; [done|].
      rewrite fmap_app, elem_of_app. intros [?| ->%list_elem_of_singleton]; done.
    + split; [done|]. by rewrite Hl, fmap_app, <-app_assoc.
  - apply move_None in Hx. by rewrite (swept_present _ _ _ _ _ Hsw Hn Hid) in Hx.
  - apply ST_bind_inv in Hm as [(? & ? & _ & ?)|(? & _ & ?)]; done.
Qed.

(** *** Undoing it *)

Lemma quiet_sync p n w : quiet w → at_path p w = Some n →
  ∃ w', sync_directory p w = (Ok tt, w') ∧ onward w w'.
Proof.
  intros Hq Hp. assert (Hr : reads (sync_directory p) w tt); [|by apply Hr].
  unfold sync_directory. apply reads_io. eapply reads_bind; [by apply reads_open|by apply reads_touch].
Qed.

(** Entries one by one, last first. *)
Definition restore_entry (id : string) (trash : Path) : Op unit :=
  destination ← lift (manifest_dir s app id);
  present ← path_exists destination;
  if present : bool then remove_dir_all_if_exists trash else io (fs_rename trash destination).

Lemma restore_one es moved id trash w :
  manifests_only es → swept es (moved ++ [(id, trash)]) w → app ≠ 0 →
  match fault (w_calls w) with
  | Some _ => ∃ e w', restore_entry id trash w = (Err e, w')
  | None => ∃ w', restore_entry id trash w = (Ok tt, w') ∧ swept es moved w' ∧
              w_calls w' = S (w_calls w) ∧ is_dir (at_path (st_work_root s) w') = true
  end.
Proof.
  intros Hman (Hd & Hn1 & Hn2 & Ht) Happ.
  destruct (Ht id trash) as (c & n & -> & Hv & Hn & Hat); [set_solver|].
  assert (Hdir : manifest_dir s app id = Ok (app_dir s app ++ [id])).
  { unfold manifest_dir, validate_app_id, reject_if. destruct (Z.eqb_spec app 0); [done|]. cbn.
    by rewrite Hv. }
  rewrite fmap_app in Hd, Hn1. rewrite fmap_app in Hn2. cbn in Hd, Hn1, Hn2.
  rewrite filter_moved in Hd.
  apply NoDup_app in Hn1 as (Hn1 & Hni & _), Hn2 as (Hn2 & Hnt & _).
  destruct (at_path (st_work_root s) w) as [[b|es2|]|] eqn:Hw; unfold at_path in Hw, Hat;
    rewrite get_snoc, Hw in Hat; try done.
  pose proof (apart_sym _ _ work_app_apart) as Ha.
  assert (Heval : restore_entry id (st_work_root s ++ [c]) w =
    io (fs_rename (st_work_root s ++ [c]) (app_dir s app ++ [id])) w).
  { unfold restore_entry, path_exists, gets, io, map_err, lift, mbind, ST_bind. rewrite Hdir.
    erewrite dir_entries_lookup by (by left; apply Hd). rewrite lookup_delete_eq. done. }
  rewrite Heval. destruct (fault (w_calls w)) eqn:Hf.
  { unfold io, map_err, fs_rename, syscall. rewrite Hf. eauto. }
  exists (renamed (st_work_root s) c (app_dir s app) id n w). split.
  { unfold io, map_err. erewrite rename_eval; try done. rewrite lookup_delete_eq. by destruct n. }
  destruct (renamed_at (st_work_root s) c (app_dir s app) id n es2 _ w Ha Hw Hd) as [Hw' Hd'].
  split; [|split; [done|by rewrite Hw']].
  split; [|split; [done|split; [done|]]].
  - rewrite Hd', insert_delete_eq, insert_id; [done|]. apply map_lookup_filter_Some. split; [done|].
    intros Hin. by apply (Hni id Hin), list_elem_of_singleton.
  - intros id' t Hin. destruct (Ht id' t) as (c' & n' & -> & ? & ? & Hat'); [set_solver|].
    exists c', n'. do 3 (split; [done|]). rewrite (work_lookup _ _ _ Hw) in Hat'.
    rewrite (work_lookup _ _ _ Hw'), lookup_delete_ne; [done|]. intros ->.
    eapply (Hnt (st_work_root s ++ [c'])); [|by apply list_elem_of_singleton].
    apply list_elem_of_fmap. by eexists (_, _).
Qed.

Lemma ST_bind_run {E A B} (m : ST E A) (k : A → ST E B) w a w1 :
  m w = (Ok a, w1) → (m ≫= k) w = k a w1.
Proof. intros Hm. unfold mbind, ST_bind. by rewrite Hm. Qed.

Lemma for_each_cons_Ok {A} (body : A → Op unit) x l w w1 w' :
  body x w = (Ok tt, w1) → for_each body l w1 = (Ok tt, w') → for_each body (x :: l) w = (Ok tt, w').
Proof. intros Hx Hl. cbn. unfold mbind, ST_bind. by rewrite Hx. Qed.

Lemma restore_loop es moved w :
  quiet w → manifests_only es → swept es moved w → app ≠ 0 → is_dir (at_path (st_work_root s) w) = true →
  ∃ w', for_each (λ '(id, trash), restore_entry id trash) (reverse moved) w = (Ok tt, w') ∧
    swept es [] w' ∧ quiet w' ∧ is_dir (at_path (st_work_root s) w') = true.
Proof.
  revert w. induction moved as [|[id trash] moved IH] using rev_ind; intros w Hq Hman Hsw Happ Hwd.
  { by exists w. }
  pose proof (restore_one es moved id trash w Hman Hsw Happ) as Hone. rewrite (Hq (w_calls w)) in Hone by lia.
  destruct Hone as (w1 & Hone & Hsw1 & Hc1 & Hwd1).
  destruct (IH w1) as (w2 & Hloop & Hrest); try done. { intros k Hk. apply Hq. lia. }
  exists w2. split; [|done]. rewrite reverse_snoc. by eapply for_each_cons_Ok.
Qed.

(** An undoing that reports success has put everything back. *)
Lemma restore_Ok es moved w w' :
  manifests_only es → swept es moved w → app ≠ 0 →
  restore_gc_sweep_locked s app moved w = (Ok tt, w') → at_path (app_dir s app) w' = Some (Dir es).
Proof.
  intros Hman Hsw Happ Hm. unfold restore_gc_sweep_locked in Hm. st_inv.
  rewrite (same_world_at _ w0 w'); [|trans w1; by eapply keeps_sync].
  clear Hx0 Hm. revert w Hsw Hx. induction moved as [|[id trash] moved IH] using rev_ind; intros w Hsw Hx.
  - cbn in Hx. injection Hx as ->. destruct Hsw as [-> _]. do 2 f_equal.
    apply map_filter_id. intros. apply not_elem_of_nil.
  - rewrite reverse_snoc in Hx. cbn [for_each] in Hx. apply ST_bind_Ok in Hx as ([] & w2 & H1 & H2).
    pose proof (restore_one es moved id trash w Hman Hsw Happ) as Hone.
    change (restore_entry id trash w = (Ok tt, w2)) in H1.
    destruct (fault (w_calls w)); [destruct Hone as (e & w3 & Hone); congruence|].
    destruct Hone as (w3 & Hone & Hsw3 & _). assert (w3 = w2) as -> by congruence. by eapply IH.
Qed.

Lemma restore_swept es moved w :
  quiet w → manifests_only es → swept es moved w → app ≠ 0 → is_dir (at_path (st_work_root s) w) = true →
  ∃ w', restore_gc_sweep_locked s app moved w = (Ok tt, w') ∧
        at_path (app_dir s app) w' = Some (Dir es).
Proof.
  intros Hq Hman Hsw Happ Hwd.
  destruct (restore_loop es moved w) as (w1 & Hloop & (Hd & _) & Hq1 & Hwd1); try done.
  destruct (quiet_sync _ _ _ Hq1 Hd) as (w2 & H2 & Ho2).
  destruct (at_path (st_work_root s) w1) as [n|] eqn:Hw; [|done].
  rewrite <-(onward_at _ _ _ Ho2) in Hw.
  destruct (quiet_sync _ _ _ (quiet_onward _ _ Hq1 Ho2) Hw) as (w3 & H3 & Ho3).
  exists w3. split.
  - unfold restore_gc_sweep_locked. by rewrite (ST_bind_run _ _ _ _ _ Hloop), (ST_bind_run _ _ _ _ _ H2).
  - rewrite (onward_at _ _ _ Ho3), (onward_at _ _ _ Ho2), Hd. do 2 f_equal.
    apply map_filter_id. intros. apply not_elem_of_nil.
Qed.
End sweep.

(** ** Names *)

Section names.
Context {H : Host} {C : StoreCodec}.

Lemma keeps_path_entries l ps : keeps same_world (manifest_path_entries l ps).
Proof.
  revert ps. induction l as [|[]]; intros; simpl; keeps_tac;
    eauto using keeps_manifest_entry with keeps.
Qed.

Lemma path_entries_Ok l ps w ps' w' :
  manifest_path_entries l ps w = (Ok ps', w') →
  ∀ name, name ∈ ps' ↔ name ∈ ps ∨ name ∈ l.*1 ∧ is_non_manifest_app_entry name = false.
Proof.
  revert ps w. induction l as [|[name node] l IH]; intros ps w Hm; simpl in Hm; st_inv.
  { set_solver. }
  apply manifest_entry_Ok in Hx as (_ & Hnon & _). destruct x; cbn in Hm, Hnon.
  - case_bool_decide; st_inv. intros k. rewrite (IH _ _ Hm). csimpl. rewrite elem_of_cons.
    destruct (decide (k = name)) as [->|]; set_solver.
  - intros k. rewrite (IH _ _ Hm). csimpl. rewrite elem_of_cons.
    destruct (decide (k = name)) as [->|]; [|naive_solver]. rewrite Hnon. naive_solver.
Qed.

(** The names found are the manifests'. *)
Lemma paths_Ok account app dir ms w present w' :
  repository account app (at_path dir w) ms →
  collect_manifest_paths dir w = (Ok present, w') → present = dom ms ∧ same_world w w'.
Proof.
  intros (es & He & _ & Hes & Hdom) Hm. unfold collect_manifest_paths in Hm. st_inv.
  case_bool_decide as Hp; cbn in Hm; st_inv.
  2: { split; [|done]. destruct He as [He|[_ ->]]; [rewrite He in Hp; destruct Hp; eauto|].
       apply set_eq. set_solver. }
  apply read_dir_Ok in Hx as (es' & Hd & -> & Hs). apply keeps_path_entries in Hm as Hs'.
  split; [|by trans w]. assert (es' = es) as -> by (eapply dir_entries_unique; [left; exact Hd|exact He]).
  apply set_eq. intros name. rewrite (path_entries_Ok _ _ _ _ _ Hm), <-(elem_of_list_to_set (C := gset string)),
    entries_set. split.
  - intros [?|[[n Hn]%elem_of_dom Hnon]]; [set_solver|].
    destruct (Hes _ _ Hn) as [_ [[? _]|(_ & _ & m & Hm' & _)]]; [congruence|].
    by eapply elem_of_dom_2.
  - intros Hin. right. split; [by apply Hdom|]. pose proof (Hdom _ Hin) as [n Hn]%elem_of_dom.
    destruct (Hes _ _ Hn) as [_ [[_ Hno]|(? & _)]]; [|done]. by apply not_elem_of_dom in Hno.
Qed.
End names.

(** ** The whole collection *)

Lemma unique_items_set (s : gset string) : unique_items (set_in_order s) = Ok s.
Proof.
  unfold unique_items.
  assert (list_to_set (set_in_order s) = s) as ->
    by (apply set_eq; intros x; by rewrite elem_of_list_to_set, elem_of_set_in_order).
  assert (length (set_in_order s) = size s) as ->
    by (unfold set_in_order; by rewrite length_sort_by_key).
  by rewrite Nat.eqb_refl.
Qed.

(** The report of an inspection that found [ms]. *)
Definition report_of (s : FolderStore) (app : Z) (ms : gmap string SaveManifest) : GcReport := {|
  gr_app_id := app; gr_manifest_scope := manifest_scope s app;
  gr_retained_manifests := set_in_order (retained_set ms);
  gr_candidate_manifests := set_in_order (dom ms ∖ retained_set ms) |}.

Definition plan_of (s : FolderStore) (app : Z) (ms : gmap string SaveManifest) : GcSweepPlan := {|
  gp_root := app_dir s app; gp_app_id := app; gp_expected_manifests := dom ms;
  gp_candidate_manifests := dom ms ∖ retained_set ms |}.

Lemma retained_subset ms : retained_set ms ⊆ dom ms.
Proof. intros id [? _]%elem_of_retained. by apply elem_of_dom. Qed.

Lemma retained_partition ms : retained_set ms ∪ dom ms ∖ retained_set ms = dom ms.
Proof. rewrite <-union_difference_L; [done|apply retained_subset]. Qed.

Section collection.
Context {H : Host} {C : StoreCodec}.

Lemma inspect_Ok s app w report w' :
  inspect_gc s app w = (Ok report, w') →
  ∃ account ms, st_account s = Some account ∧ app ≠ 0 ∧ report = report_of s app ms ∧
    repository account app (at_path (app_dir s app) w) ms.
Proof.
  unfold inspect_gc. intros Hm. st_inv.
  match goal with Hc : collect_manifest_objects _ _ _ = (Ok ?ms, _) |- _ =>
    apply collect_Ok in Hc as (account & Ha & Hrep); exists account, ms end.
  unfold validate_app_id, reject_if in *. destruct (Z.eqb_spec app 0); [done|]. auto.
Qed.

Lemma prepare_Ok s app ms w plan w' :
  prepare_gc_sweep s (report_of s app ms) w = (Ok (Some plan), w') → plan = plan_of s app ms.
Proof.
  unfold prepare_gc_sweep. cbn [gr_app_id gr_manifest_scope gr_retained_manifests
    gr_candidate_manifests report_of].
  rewrite bool_decide_eq_true_2, !unique_items_set by done. cbn [negb]. intros Hm. st_inv.
  case_bool_decide; cbn [negb] in Hm; [|done]. st_inv. injection Hr as <-. injection Hr0 as <-.
  case_bool_decide; cbn [negb] in Hm; [|by injection Hm]. injection Hm as <- _.
  unfold plan_of. by rewrite retained_partition.
Qed.

(** Nothing but the candidates is touched. *)
Lemma apply_keeps s plan name w r w' :
  separate s → name ∉ gp_candidate_manifests plan → apply_gc_sweep s plan w = (r, w') →
  same_at (app_dir s (gp_app_id plan) ++ [name]) w w'.
Proof.
  intros Hsep Hn. unfold apply_gc_sweep. case_bool_decide; cbn [negb]; [|by intros [= _ <-]].
  apply (keeps_bind (same_at _)).
  { apply keeps_world_at. unfold collect_manifest_paths, io. keeps_tac.
    eauto using keeps_path_entries with keeps. }
  intros present. case_bool_decide; cbn [negb]; [|by apply keeps_ret, _].
  apply keeps_bind; [apply _| |intros; apply keeps_ret, _].
  intros w0 r0 w1. apply keeps_sweep; [done|by intros ?? ?%elem_of_nil|by apply not_elem_of_nil|].
  by rewrite elem_of_set_in_order.
Qed.

Lemma repository_manifests_only account app es ms :
  repository account app (Some (Dir es)) ms → manifests_only es.
Proof.
  intros (es' & [[= <-]|[? _]] & _ & Hes & _) id n Hn Hv; [|done].
  destruct (Hes _ _ Hn) as [_ [[Hno _]|(_ & _ & m & _ & b & bl & -> & _)]]; [|eauto].
  by rewrite lower_hex_manifest in Hno by (by eapply manifest_id_Ok).
Qed.

Lemma kept_subseteq ms : kept ms ⊆ ms.
Proof. apply map_filter_subseteq. Qed.

(** Without its candidates, a repository holds what is kept. *)
Lemma repository_kept account app es ms (l : list string) :
  repository account app (Some (Dir es)) ms →
  (∀ id, id ∈ l ↔ id ∈ dom ms ∖ retained_set ms) →
  repository account app (Some (Dir (filter (λ p, p.1 ∉ l) es))) (kept ms).
Proof.
  intros (es' & [[= <-]|[? _]] & Hsz & Hes & Hdom) Hl; [|done].
  exists (filter (λ p, p.1 ∉ l) es). split; [by left|]. split; [|split].
  - pose proof (map_subseteq_size _ _ (kept_subseteq ms)). lia.
  - intros name n [Hn Hni]%map_lookup_filter_Some. cbn in Hni.
    destruct (Hes _ _ Hn) as [Hu [[Hno Hms]|(Hyes & Hid & m & Hm & Hc)]]; split; try done.
    + left. split; [done|]. eapply lookup_weaken_None; [done|apply kept_subseteq].
    + right. split; [done|]. split; [done|]. exists m. split; [|done]. apply kept_lookup.
      split; [done|]. apply elem_of_dom_2 in Hm. rewrite Hl in Hni.
      destruct (decide (name ∈ retained_set ms)); [done|]. destruct Hni. set_solver.
  - intros name [m Hm]%elem_of_dom. apply kept_lookup in Hm as [Hm Hk].
    apply elem_of_dom_2, Hdom, elem_of_dom in Hm as [n Hn]. apply elem_of_dom. exists n.
    apply map_lookup_filter_Some. split; [done|]. cbn. rewrite Hl. set_solver.
Qed.

(** A sweep that completes, over the manifests it was planned for. *)
Lemma apply_Ok s account app es ms ms' w sweep w' :
  separate s → at_path (app_dir s app) w = Some (Dir es) →
  repository account app (Some (Dir es)) ms →
  apply_gc_sweep s (plan_of s app ms') w = (Ok (Some sweep), w') →
  dom ms = dom ms' ∧ swept s app es (gs_moved_manifests sweep) w' ∧
  (gs_moved_manifests sweep).*1 = set_in_order (dom ms' ∖ retained_set ms').
Proof.
  intros Hsep Hd Hrep Hm. unfold apply_gc_sweep in Hm.
  cbn [gp_root gp_app_id plan_of gp_expected_manifests gp_candidate_manifests] in Hm.
  rewrite bool_decide_eq_true_2 in Hm by done. cbn [negb] in Hm. st_inv.
  rewrite <-Hd in Hrep. apply (paths_Ok _ _ _ _ _ _ _ Hrep) in Hx as [-> Hs].
  case_bool_decide as Hdom; cbn [negb] in Hm; [|by injection Hm]. st_inv. split; [done|].
  rewrite Hd in Hrep. rename x into moved. cbn [gs_moved_manifests].
  assert (Hsw : swept s app es [] w0).
  { split; [rewrite (same_world_at _ _ _ Hs), Hd; do 2 f_equal; symmetry|].
    - apply map_filter_id. intros. apply not_elem_of_nil.
    - split; [constructor|]. split; [constructor|]. by intros ?? ?%elem_of_nil. }
  eapply (sweep_swept s app Hsep es) in Hx; eauto using repository_manifests_only, NoDup_set_in_order.
  intros id. rewrite elem_of_set_in_order. intros [Hin _]%elem_of_difference.
  split; [|apply not_elem_of_nil]. destruct Hrep as (es' & [[= <-]|[? _]] & _ & _ & Hsub); [|done].
  rewrite <-Hdom in Hin. by apply Hsub, elem_of_dom in Hin.
Qed.

End collection.

(** The collection of one app: an inspection that read [ms0], then, later, a sweep
    prepared from its report. Manifests are named by their contents, so one that is
    present both times is the same. *)
Section guarantees.
Context {H : Host} {C : StoreCodec} (s : FolderStore) (account : string) (app : Z).
Context (Hsep : separate s) (Haccount : st_account s = Some account).
Context (ms0 : gmap string SaveManifest) (report : GcReport) (plan : GcSweepPlan).
Context (w0 w1 w2 w3 : World).
Context (Hread : repository account app (at_path (app_dir s app) w0) ms0).
Context (Hinspect : inspect_gc s app w0 = (Ok report, w1)).
Context (Hprepare : prepare_gc_sweep s report w2 = (Ok (Some plan), w3)).

Lemma planned : plan = plan_of s app ms0 ∧ app ≠ 0.
Proof.
  apply inspect_Ok in Hinspect as (account' & ms & Ha & Happ & -> & Hrep). split; [|done].
  rewrite Haccount in Ha. injection Ha as <-.
  rewrite (repository_unique _ _ _ _ _ Hread Hrep). by eapply prepare_Ok.
Qed.

(** [sweep_spares_retained]: whatever calls fail during a sweep, and however it ends, the
    manifests the inspection retained, and every entry of the app directory that was no
    manifest then, are left as they are. *)
Theorem sweep_spares_retained name r w4 w5 :
  apply_gc_sweep s plan w4 = (r, w5) → name ∈ retained_set ms0 ∨ ms0 !! name = None →
  same_at (app_dir s app ++ [name]) w4 w5.
Proof.
  destruct planned as [-> _]. intros Ha Hn. apply apply_keeps with (name := name) in Ha; [done..|].
  cbn. intros [Hin Hno]%elem_of_difference. destruct Hn as [?|Hn]; [done|].
  by apply not_elem_of_dom in Hn.
Qed.

Section now.
Context (w4 w5 : World) (es : gmap string Node) (ms : gmap string SaveManifest) (sweep : GcSweep).
Context (Hdir : at_path (app_dir s app) w4 = Some (Dir es)).
Context (Hnow : repository account app (Some (Dir es)) ms).
Context (Hsame : ∀ id m m0, ms !! id = Some m → ms0 !! id = Some m0 → m = m0).
Context (Happly : apply_gc_sweep s plan w4 = (Ok (Some sweep), w5)).

Lemma swept_now :
  ms = ms0 ∧ swept s app es (gs_moved_manifests sweep) w5 ∧
  (gs_moved_manifests sweep).*1 = set_in_order (dom ms ∖ retained_set ms).
Proof.
  destruct planned as [Hp _]. rewrite Hp in Happly.
  destruct (apply_Ok _ _ _ _ _ _ _ _ _ Hsep Hdir Hnow Happly) as (Hdom & Hsw & Hl).
  assert (ms = ms0) as Heq; [|by rewrite Heq].
  apply map_eq. intros id. destruct (ms !! id) as [m|] eqn:Hm.
  - apply elem_of_dom_2 in Hm as Hin. rewrite Hdom in Hin. apply elem_of_dom in Hin as [m0 Hm0].
    rewrite Hm0. f_equal. eauto.
  - apply not_elem_of_dom in Hm. rewrite Hdom in Hm. symmetry. by apply not_elem_of_dom.
Qed.

(** C20 [sweep_keeps_heads]: a sweep that completes leaves a readable app whose manifests are
    the heads and their parents; the heads, and so the current files or the conflict,
    are the same as before. *)
Theorem sweep_keeps_heads :
  repository account app (at_path (app_dir s app) w5) (kept ms) ∧
  heads_of (kept ms) = heads_of ms ∧ current (resolved (kept ms)) = current (resolved ms).
Proof.
  destruct swept_now as (Heq & Hsw & Hl). split; [|split; [apply kept_heads|apply kept_current]].
  destruct Hsw as [Hd _]. rewrite Hd. apply repository_kept; [done|].
  intros id. by rewrite Hl, elem_of_set_in_order.
Qed.

(** [sweep_restores]: undoing a completed sweep, on a host that does not fail, succeeds
    and puts the app directory back exactly as it was. *)
Theorem sweep_restores :
  quiet w5 → is_dir (at_path (st_work_root s) w5) = true →
  ∃ w6, restore_gc_sweep s app sweep w5 = (Ok tt, w6) ∧
        at_path (app_dir s app) w6 = at_path (app_dir s app) w4.
Proof.
  intros Hq Hw. destruct swept_now as (_ & Hsw & _). destruct planned as [_ Happ].
  destruct (restore_swept s app Hsep es _ w5 Hq (repository_manifests_only _ _ _ _ Hnow) Hsw Happ Hw)
    as (w6 & Hr & Hd).
  exists w6. rewrite Hd, Hdir. split; [|done]. unfold restore_gc_sweep.
  rewrite (ST_bind_run _ _ _ tt w5); [done|]. unfold lift, lock_app, validate_app_id, reject_if.
  by destruct (Z.eqb_spec app 0).
Qed.
End now.
End guarantees.
