(* ===== verification/StoreOpen.v ===== *)
(** * StoreOpen: opening a repository and sharing its work directory

    All stores of one repository in a process share a coordination, which owns the
    work directory: it clears it when created and removes it when the last store goes
    away. The process-wide registry holds weak pointers; a coordination whose last
    strong reference is gone still runs its destructor, at which time another one may
    already own the same directory. *)

From Stdlib Require Import ZArith Lia.
From S2P Require Import Prelude RustStd CloudCore FileSystem StoreFiles StoreFilesProofs.
From S2P Require Import FolderStore StoreCommit.

Local Open Scope Z_scope.

(** ** Opening *)

(** The JSON of the format file. *)
Class FormatCodec := {
  format_to_vec : Z → result string (list Z);
  format_from_slice : list Z → result string Z;
}.

Section opening.
Context {H : Host} {C : StoreCodec} {FC : FormatCodec}.
(** The device of a path, as [MetadataExt::dev] tells it. *)
Context (device : Path → Z).

Definition initialize (root : Path) : Op unit :=
  let format_path := root ++ [FORMAT_FILE] in
  present ← path_exists format_path;
  if present : bool then
    bytes ← read_bounded_file format_path MAX_FORMAT_BYTES "repository format";
    version ← json (format_from_slice bytes);
    if negb (version =? FORMAT_VERSION)
    then throw (permanent "unsupported local cloud repository format") else mret tt
  else
    bytes ← json (format_to_vec FORMAT_VERSION);
    atomic_publish format_path bytes.

Definition ensure_same_filesystem (left right : Path) : Op unit :=
  _ ← io (fs_metadata left);
  _ ← io (fs_metadata right);
  if negb (device left =? device right)
  then throw (permanent "local cloud private work directory must share the repository filesystem")
  else mret tt.

(** The text of an absolute path. *)
Definition path_text (p : Path) : list Z :=
  match p with [] => [47] | _ => p ≫= λ c, 47 :: str_bytes c end.

Definition work_name (root : Path) : string :=
  bytes_str (str_bytes ".vapor-local-" ++
             take 16 (str_bytes (hex_digest sha256 (utf8_lossy (path_text root)))) ++
             str_bytes ".work").
Definition work_root_of (root : Path) : Path := parent root ++ [work_name root].

(** [Path::canonicalize] of an absolute path in a tree without links. *)
Definition canonicalize (p : Path) : Op Path := _ ← io (fs_metadata p); mret p.

(** The part of [repository_coordination] that claims the work directory. *)
Definition claim_work_root (root : Path) : Op Path :=
  if bool_decide (root = []) then throw (permanent "local cloud repository has no parent directory")
  else
    let work_root := work_root_of root in
    _ ← create_durable_dir_all work_root;
    _ ← ensure_same_filesystem root work_root;
    _ ← clear_work_root work_root;
    mret work_root.
End opening.

(** ** The registry *)

(** [REPOSITORY_COORDINATORS] and the coordinations themselves: [rg_entries] holds the
    weak pointers, [rg_strong] the strong counts, [rg_root] the root of each; those in
    [rg_dropping] have no strong reference left and their destructor is still to run. *)
Record Registry := {
  rg_entries : gmap Path nat;
  rg_strong : gmap nat nat;
  rg_root : gmap nat Path;
  rg_dropping : gset nat;
  rg_next : nat;
}.

Definition empty_registry : Registry :=
  {| rg_entries := ∅; rg_strong := ∅; rg_root := ∅; rg_dropping := ∅; rg_next := 0 |}.

Definition strong_count (r : Registry) (id : nat) : nat := default 0%nat (rg_strong r !! id).

(** [Weak::upgrade] *)
Definition upgrade (r : Registry) (id : nat) : option Registry :=
  if decide (strong_count r id = 0%nat) then None
  else Some {| rg_entries := rg_entries r;
               rg_strong := <[id := S (strong_count r id)]> (rg_strong r);
               rg_root := rg_root r; rg_dropping := rg_dropping r; rg_next := rg_next r |}.

(** [coordinators.retain(..)] *)
Definition retain_live (r : Registry) : Registry :=
  {| rg_entries := filter (λ p, strong_count r p.2 ≠ 0%nat) (rg_entries r);
     rg_strong := rg_strong r; rg_root := rg_root r; rg_dropping := rg_dropping r;
     rg_next := rg_next r |}.

Definition insert_coordination (r : Registry) (root : Path) : Registry :=
  {| rg_entries := <[root := rg_next r]> (rg_entries r);
     rg_strong := <[rg_next r := 1%nat]> (rg_strong r);
     rg_root := <[rg_next r := root]> (rg_root r);
     rg_dropping := rg_dropping r; rg_next := S (rg_next r) |}.

Definition remove_entry (r : Registry) (root : Path) : Registry :=
  {| rg_entries := delete root (rg_entries r); rg_strong := rg_strong r; rg_root := rg_root r;
     rg_dropping := rg_dropping r; rg_next := rg_next r |}.

Section registry.
Context {H : Host} {C : StoreCodec} {FC : FormatCodec} (device : Path → Z).

Definition repository_coordination (root : Path) (r : Registry)
    : World → BR nat * Registry * World := λ w,
  match (id ← rg_entries r !! root; r' ← upgrade r id; Some (id, r')) with
  | Some (id, r') => (Ok id, r', w)
  | None =>
      let r := retain_live r in
      match claim_work_root device root w with
      | (Err e, w') => (Err e, r, w')
      | (Ok _, w') => (Ok (rg_next r), insert_coordination r root, w')
      end
  end.

(** [Clone] and the release of a strong reference. *)
Definition clone_coordination (id : nat) (r : Registry) : Registry :=
  {| rg_entries := rg_entries r; rg_strong := <[id := S (strong_count r id)]> (rg_strong r);
     rg_root := rg_root r; rg_dropping := rg_dropping r; rg_next := rg_next r |}.
Definition release_coordination (id : nat) (r : Registry) : Registry :=
  {| rg_entries := rg_entries r; rg_strong := <[id := pred (strong_count r id)]> (rg_strong r);
     rg_root := rg_root r;
     rg_dropping := if decide (strong_count r id = 1%nat) then {[id]} ∪ rg_dropping r
                    else rg_dropping r;
     rg_next := rg_next r |}.

(** [Drop for RepositoryCoordination] *)
Definition drop_coordination (id : nat) (root : Path) (r : Registry) : World → Registry * World := λ w,
  let r := {| rg_entries := rg_entries r; rg_strong := rg_strong r; rg_root := rg_root r;
              rg_dropping := rg_dropping r ∖ {[id]}; rg_next := rg_next r |} in
  let superseded := match rg_entries r !! root with
                    | Some other => negb (other =? id)%nat
                    | None => false
                    end in
  if superseded then (r, w)
  else
    let r := remove_entry r root in
    let '(_, w) := ignore (E := IoErr) (F := BackendError) (fs_remove_dir_all (work_root_of root)) w in
    let '(_, w) := ignore (F := BackendError) (sync_directory (parent (work_root_of root))) w in
    (r, w).

(** [root] is the absolute path the caller's path denotes. *)
Definition open_inner (root : Path) (account : option string) (r : Registry)
    : World → BR FolderStore * Registry * World := λ w,
  match (_ ← create_durable_dir_all root; canonicalize root) w with
  | (Err e, w) => (Err e, r, w)
  | (Ok root, w) =>
      match repository_coordination root r w with
      | (Err e, r, w) => (Err e, r, w)
      | (Ok id, r, w) =>
          match initialize root w with
          | (Err e, w) => (Err e, release_coordination id r, w)
          | (Ok _, w) =>
              (Ok {| st_root := root; st_account := account; st_coordination := Z.of_nat id;
                     st_work_root := work_root_of root |}, r, w)
          end
      end
  end.

Definition open_account (root : Path) (steam_id64 : Z) (r : Registry)
    : World → BR FolderStore * Registry * World := λ w,
  if steam_id64 =? 0 then (Err (permanent "local cloud account is unavailable"), r, w)
  else open_inner root (Some (bytes_str (dec_text steam_id64))) r w.
End registry.

(** An opened store keeps its work outside the repository. *)
Lemma work_root_apart {C : StoreCodec} root :
  root ≠ [] → last root ≠ Some (work_name root) → apart root (work_root_of root).
Proof.
  intros Hne Hl. unfold work_root_of. generalize dependent (work_name root). intros name Hl.
  destruct (exists_last Hne) as (p & c & ->). rewrite parent_snoc, last_snoc in *.
  apply (apart_siblings _ _ _ [] []). congruence.
Qed.

Lemma open_separate {H : Host} {C : StoreCodec} {FC : FormatCodec} device root account r w s r' w' :
  root ≠ [] → last root ≠ Some (work_name root) → open_inner device root account r w = (Ok s, r', w') →
  separate s ∧ st_account s = account.
Proof.
  intros Hne Hl Hm. unfold open_inner in Hm.
  destruct ((_ ← create_durable_dir_all root; canonicalize root) w) as [[root'|] w1] eqn:Hc; [|done].
  assert (root' = root) as -> by (unfold canonicalize in Hc; by st_inv).
  destruct (repository_coordination _ _ _ _) as [[[id|] r1] w2] eqn:Hr; [|done].
  destruct (initialize root w2) as [[]]; [|done]. injection Hm as <- _ _. split; [|done].
  by apply work_root_apart.
Qed.

(** ** The life of coordinations *)

Section life.
Context {H : Host} {C : StoreCodec} (device : Path → Z).

Inductive registry_step : Registry * World → Registry * World → Prop :=
| step_open root r w x r' w' :
    repository_coordination device root r w = (x, r', w') → registry_step (r, w) (r', w')
| step_clone id r w :
    strong_count r id ≠ 0%nat → registry_step (r, w) (clone_coordination id r, w)
| step_release id r w :
    strong_count r id ≠ 0%nat → registry_step (r, w) (release_coordination id r, w)
| step_drop id root r w r' w' :
    id ∈ rg_dropping r → rg_root r !! id = Some root →
    drop_coordination id root r w = (r', w') → registry_step (r, w) (r', w')
| step_other r w w' : registry_step (r, w) (r, w').

Definition reachable (s : Registry * World) : Prop :=
  ∃ w, rtc registry_step (empty_registry, w) s.

(** A live coordination owns the entry of its root; one whose destructor is pending is
    not live; an entry's is one or the other; numbers are given out once. *)
Record registry_inv (r : Registry) : Prop := {
  ri_owner : ∀ id, strong_count r id ≠ 0%nat →
    ∃ root, rg_root r !! id = Some root ∧ rg_entries r !! root = Some id;
  ri_entry : ∀ root id, rg_entries r !! root = Some id → rg_root r !! id = Some root;
  ri_pending : ∀ root id, rg_entries r !! root = Some id →
    strong_count r id ≠ 0%nat ∨ id ∈ rg_dropping r;
  ri_dropping : ∀ id, id ∈ rg_dropping r → strong_count r id = 0%nat;
  ri_next : ∀ id, (is_Some (rg_root r !! id) ∨ strong_count r id ≠ 0%nat ∨ id ∈ rg_dropping r) →
    (id < rg_next r)%nat;
}.

Lemma strong_insert r id n id' es root dr nx :
  strong_count {| rg_entries := es; rg_strong := <[id := n]> (rg_strong r); rg_root := root;
                  rg_dropping := dr; rg_next := nx |} id' =
  if decide (id' = id) then n else strong_count r id'.
Proof.
  unfold strong_count. cbn. destruct (decide (id' = id)) as [->|].
  - by rewrite lookup_insert_eq.
  - by rewrite lookup_insert_ne.
Qed.

Lemma inv_clone id r :
  registry_inv r → strong_count r id ≠ 0%nat → registry_inv (clone_coordination id r).
Proof.
  intros [Ho He Hp Hd Hn] Hs. unfold clone_coordination. split; cbn.
  - intros id'. rewrite strong_insert. case_decide; subst; auto.
  - done.
  - intros root id' Hent. rewrite strong_insert. case_decide; [by left|eauto].
  - intros id' Hid'. rewrite strong_insert. case_decide; subst; [by rewrite Hd in Hs|auto].
  - intros id'. rewrite strong_insert. case_decide; subst; [intros _; apply Hn; auto|apply Hn].
Qed.

Lemma inv_release id r :
  registry_inv r → strong_count r id ≠ 0%nat → registry_inv (release_coordination id r).
Proof.
  intros [Ho He Hp Hd Hn] Hs. unfold release_coordination. split; cbn.
  - intros id'. rewrite strong_insert. case_decide; subst; auto.
  - done.
  - intros root id' Hent. rewrite strong_insert. destruct (decide (id' = id)) as [->|Hne].
    + destruct (decide (strong_count r id = 1%nat)); [right; set_solver|left; lia].
    + destruct (Hp _ _ Hent); [by left|right]. case_decide; set_solver.
  - intros id'. rewrite strong_insert. destruct (decide (id' = id)) as [->|Hne].
    + case_decide as H1; [by rewrite H1|]. intros Hin. by rewrite Hd in Hs.
    + case_decide; [rewrite elem_of_union, elem_of_singleton; intros [?|?]; [done|auto]|auto].
  - intros id'. rewrite strong_insert. destruct (decide (id' = id)) as [->|Hne]; [intros _; apply Hn; auto|].
    intros Hcase. apply Hn. destruct Hcase as [?|[?|Hin]]; auto. right. right.
    case_decide; [|done]. apply elem_of_union in Hin as [?%elem_of_singleton|?]; done.
Qed.

Lemma inv_retain r : registry_inv r → registry_inv (retain_live r).
Proof.
  intros [Ho He Hp Hd Hn].
  split; [|intros root id [? _]%map_lookup_filter_Some; auto| |done|done].
  2: { intros root id [Hent _]%map_lookup_filter_Some. by eapply Hp. }
  intros id Hs. destruct (Ho id Hs) as (root & Hr & Hent). exists root. split; [done|].
  apply map_lookup_filter_Some. auto.
Qed.

Lemma inv_insert r root :
  registry_inv r → (∀ id, rg_entries r !! root = Some id → strong_count r id = 0%nat) →
  registry_inv (insert_coordination r root).
Proof.
  intros [Ho He Hp Hd Hn] Hfree. unfold insert_coordination.
  assert (Hnext : ∀ id, (is_Some (rg_root r !! id) ∨ strong_count r id ≠ 0%nat ∨ id ∈ rg_dropping r) →
    id ≠ rg_next r) by (intros id Hc%Hn; lia).
  split; cbn.
  - intros id. rewrite strong_insert. case_decide as Hid.
    + intros _. subst. exists root. by rewrite !lookup_insert_eq.
    + intros Hs. destruct (Ho id Hs) as (root' & Hr & Hent). exists root'.
      rewrite !lookup_insert_ne; [done| |congruence]. intros <-. by rewrite (Hfree _ Hent) in Hs.
  - intros root' id [[<- <-]|[Hne Hent]]%lookup_insert_Some; [by rewrite lookup_insert_eq|].
    rewrite lookup_insert_ne; [by apply He|]. apply not_eq_sym, Hnext. left. rewrite (He _ _ Hent). eauto.
  - intros root' id Hent. rewrite strong_insert. case_decide; [by left|].
    apply lookup_insert_Some in Hent as [[_ ?]|[_ Hent]]; [congruence|]. by eapply Hp.
  - intros id Hin. rewrite strong_insert. rewrite decide_False by (by apply Hnext; auto). auto.
  - intros id. rewrite strong_insert. case_decide as Hid; [lia|].
    rewrite lookup_insert_ne by done. intros Hc%Hn. lia.
Qed.

Lemma inv_open root r w x r' w' :
  registry_inv r → repository_coordination device root r w = (x, r', w') → registry_inv r'.
Proof.
  intros Hi. unfold repository_coordination.
  destruct (rg_entries r !! root) as [id|] eqn:Hent; cbn.
  - unfold upgrade. case_decide as Hs; cbn.
    + destruct (claim_work_root _ _ _) as [[]]; intros [= _ <- _]; [|by apply inv_retain].
      apply inv_insert; [by apply inv_retain|]. intros id' [Hid' _]%map_lookup_filter_Some. cbn in *.
      by simplify_eq.
    + intros [= _ <- _]. by apply inv_clone.
  - destruct (claim_work_root _ _ _) as [[]]; intros [= _ <- _]; [|by apply inv_retain].
    apply inv_insert; [by apply inv_retain|]. intros id' [Hid' _]%map_lookup_filter_Some. congruence.
Qed.

(** What the destructor does to the registry. *)
Lemma drop_registry id root r w r' w' :
  drop_coordination id root r w = (r', w') →
  (∃ other, rg_entries r !! root = Some other ∧ other ≠ id ∧ w' = w ∧
            rg_entries r' = rg_entries r) ∨
  ((∀ other, rg_entries r !! root = Some other → other = id) ∧
   rg_entries r' = delete root (rg_entries r)).
Proof.
  unfold drop_coordination. cbn. destruct (rg_entries r !! root) as [other|].
  - destruct (Nat.eqb_spec other id) as [->|Hne]; cbn; intros [= <- <-].
    + right. split; [congruence|done].
    + left. eauto.
  - intros [= <- <-]. by right.
Qed.

Lemma drop_rest id root r w r' w' :
  drop_coordination id root r w = (r', w') →
  rg_strong r' = rg_strong r ∧ rg_root r' = rg_root r ∧ rg_next r' = rg_next r ∧
  rg_dropping r' = rg_dropping r ∖ {[id]}.
Proof. unfold drop_coordination. cbn. case_match; by intros [= <- <-]. Qed.

Lemma inv_drop id root r w r' w' :
  registry_inv r → id ∈ rg_dropping r → rg_root r !! id = Some root →
  drop_coordination id root r w = (r', w') → registry_inv r'.
Proof.
  intros [Ho He Hp Hd Hn] Hin Hroot Hm. destruct (drop_rest _ _ _ _ _ _ Hm) as (E1 & E2 & E3 & E4).
  assert (Hs : ∀ i, strong_count r' i = strong_count r i) by (intros i; unfold strong_count; by rewrite E1).
  split.
  - intros i. rewrite Hs, E2. intros Hi. destruct (Ho i Hi) as (root' & Hr & Hent). exists root'.
    split; [done|]. destruct (drop_registry _ _ _ _ _ _ Hm) as [(o & _ & _ & _ & ->)|[Hsame ->]]; [done|].
    rewrite lookup_delete_ne; [done|]. intros <-. rewrite (Hsame _ Hent), Hd in Hi by done. done.
  - intros root' i. rewrite E2.
    destruct (drop_registry _ _ _ _ _ _ Hm) as [(o & _ & _ & _ & ->)|[_ ->]]; [apply He|].
    intros [_ ?]%lookup_delete_Some. by apply He.
  - intros root' i Hent. rewrite Hs, E4.
    assert (rg_entries r !! root' = Some i ∧ i ≠ id) as [Hold Hne].
    { destruct (drop_registry _ _ _ _ _ _ Hm) as [(o & Ho' & Hoi & _ & Heq)|[_ Heq]];
        rewrite Heq in Hent.
      - split; [done|]. intros ->. pose proof (He _ _ Hent). congruence.
      - apply lookup_delete_Some in Hent as [Hne Hent]. split; [done|]. intros ->.
        pose proof (He _ _ Hent). congruence. }
    destruct (Hp _ _ Hold); [by left|right]. set_solver.
  - intros i. rewrite E4, Hs. intros [? _]%elem_of_difference. auto.
  - intros i. rewrite E2, Hs, E3, E4. intros Hc. apply Hn. set_solver.
Qed.

Lemma reachable_inv s : reachable s → registry_inv s.1.
Proof.
  intros [w Hr]. assert (H0 : registry_inv (empty_registry, w).1).
  { split; cbn; [|done|done|set_solver|].
    - intros id. unfold strong_count. cbn. by rewrite lookup_empty.
    - intros id [[? ?]|[Hs|?]]; [done| |set_solver]. unfold strong_count in Hs. cbn in Hs.
      by rewrite lookup_empty in Hs. }
  induction Hr as [|s1 s2 s3 Hstep _ IH]; [done|]. apply IH.
  destruct Hstep; cbn in *; eauto using inv_open, inv_clone, inv_release, inv_drop.
Qed.

(** [drop_spares_live]: whatever opens, clones and releases went before, and although the
    destructor runs after the last release, the destructor of a coordination leaves the
    work directory alone when a live one shares it; and when none does and no other
    destructor for it is pending, it removes the directory, even if the registry has
    already forgotten the coordination. *)
Theorem drop_spares_live id root r w r' w' :
  reachable (r, w) → id ∈ rg_dropping r → rg_root r !! id = Some root →
  drop_coordination id root r w = (r', w') →
  ((∃ id', strong_count r id' ≠ 0%nat ∧ rg_root r !! id' = Some root) → w' = w) ∧
  ((∀ id', rg_root r !! id' = Some root →
      strong_count r id' = 0%nat ∧ (id' ∈ rg_dropping r → id' = id)) →
   fault (w_calls w) = None → is_dir (at_path (work_root_of root) w) = true →
   at_path (work_root_of root) w' = None).
Proof.
  intros Hreach Hin Hroot Hm. apply reachable_inv in Hreach as [Ho He Hp Hd Hn]. cbn in *. split.
  - intros (id' & Hs & Hr'). destruct (Ho id' Hs) as (root' & Hroot' & Hent).
    rewrite Hr' in Hroot'. injection Hroot' as <-.
    destruct (drop_registry _ _ _ _ _ _ Hm) as [(o & _ & _ & ? & _)|[Hsame _]]; [done|].
    rewrite (Hsame _ Hent), Hd in Hs by done. done.
  - intros Hnone Hf Hdir. unfold drop_coordination in Hm. cbn in Hm.
    assert (Hsame : match rg_entries r !! root with Some o => negb (o =? id)%nat | None => false end = false).
    { destruct (rg_entries r !! root) as [o|] eqn:Hent; [|done].
      destruct (Hnone o (He _ _ Hent)) as [Hs Ho']. destruct (Hp _ _ Hent) as [?|Hin']; [done|].
      by rewrite (Ho' Hin'), Nat.eqb_refl. }
    rewrite Hsame in Hm. injection Hm as _ <-.
    unfold fs_remove_dir_all. destruct (at_path (work_root_of root) w) as [[b|es|]|] eqn:Hw; try done.
    rewrite Hf. cbn [snd].
    assert (Hs : ∀ w0, same_world w0 (sync_directory (parent (work_root_of root)) w0).2).
    { intros w0. destruct (sync_directory _ w0) as [x w1] eqn:E. by eapply keeps_sync. }
    rewrite (same_world_at _ _ _ (Hs _)). unfold at_path, work_root_of in *. cbn.
    rewrite get_snoc in Hw. destruct (get (parent root) (w_root w)) as [[b|es'|]|] eqn:Hpar; try done.
    by eapply get_put_eq.
Qed.
End life.
