(* ===== verification/StoreSessions.v ===== *)
(** * StoreSessions: which device plays an app

    A device claims an app by a record under [sessions/claims] and releases it on
    exit. A device that launches while another one holds a claim is told so; when the
    user insists, an override record names the claims it supersedes. *)

From Stdlib Require Import ZArith Lia.
From S2P Require Import Prelude RustStd CloudCore FileSystem StoreFiles FolderStore.

Local Open Scope Z_scope.

Definition MAX_SESSION_RECORD_BYTES : Z := 1024 * 1024.
Definition MAX_SESSION_RECORDS : Z := 4096.

Inductive SessionStatus := Active | Suspended.
#[export] Instance SessionStatus_eq_dec : EqDecision SessionStatus.
Proof. solve_decision. Defined.

Record SessionClaim := {
  sn_app_id : Z;
  sn_client_id : Z;
  sn_machine_name : string;
  sn_os_type : option Z;
  sn_device_type : option Z;
  sn_status : SessionStatus;
  sn_observed_heads : list string;
  sn_updated_at : Z;
  sn_nonce : string;
}.

Record SessionOverride := {
  so_app_id : Z; so_client_id : Z; so_superseded_claims : list string;
}.

Record SessionPeer := {
  sx_client_id : Z; sx_machine_name : string; sx_time_last_updated : Z;
  sx_os_type : option Z; sx_device_type : option Z;
}.

(** The JSON of the two records. *)
Class SessionCodec := {
  claim_to_vec : SessionClaim → result string (list Z);
  claim_from_slice : list Z → result string SessionClaim;
  override_to_vec : SessionOverride → result string (list Z);
  override_from_slice : list Z → result string SessionOverride;
}.

Class SessionCodecLaws (S : SessionCodec) := {
  claim_json : ∀ c b, claim_to_vec c = Ok b → claim_from_slice b = Ok c;
  override_json : ∀ c b, override_to_vec c = Ok b → override_from_slice b = Ok c;
}.

(** ** Records and names *)

Definition validate_session_claim (app_id : Z) (claim : SessionClaim) : BR unit :=
  if negb (sn_app_id claim =? app_id) || bool_decide (sn_nonce claim = "")
     || (sn_updated_at claim =? 0)
  then Err (permanent "invalid local cloud session claim")
  else
    _ ← validate_identity {| ci_client_id := sn_client_id claim;
                             ci_machine_name := sn_machine_name claim |};
    heads ← normalized_head_ids (sn_observed_heads claim);
    reject_if (negb (bool_decide (heads = sn_observed_heads claim)))
      (permanent "invalid local cloud session heads").

Definition validate_session_override (app_id : Z) (record : SessionOverride) : BR unit :=
  if negb (so_app_id record =? app_id) || (so_client_id record =? 0)
  then Err (permanent "invalid local cloud session override")
  else
    ids ← normalized_head_ids (so_superseded_claims record);
    reject_if (negb (bool_decide (ids = so_superseded_claims record)))
      (permanent "invalid local cloud session override").

(** The device a record belongs to, from its file name. *)
Definition session_record_client_id (name : string) : BR Z :=
  match parse_unsigned u64_max (stem_and_extension (str_bytes name)).1 with
  | Some n => if n =? 0 then Err (permanent "invalid local cloud session record name") else Ok n
  | None => Err (permanent "invalid local cloud session record name")
  end.

Definition is_json (name : string) : bool :=
  bool_decide ((stem_and_extension (str_bytes name)).2 = Some (str_bytes "json")).

Definition record_file_name (client_id : Z) : string :=
  bytes_str (dec_text client_id ++ str_bytes ".json").

Definition session_dir (s : FolderStore) (app_id : Z) : BR Path :=
  match st_account s with
  | None => Err (permanent "local cloud session requires an account")
  | Some _ => Ok (app_dir s app_id ++ ["sessions"])
  end.

Definition session_path (kind : string) (s : FolderStore) (app_id client_id : Z) : BR Path :=
  if client_id =? 0 then Err (permanent "local cloud session ClientID is unavailable")
  else dir ← session_dir s app_id; Ok (dir ++ [kind; record_file_name client_id]).
Definition session_claim_path := session_path "claims".
Definition session_override_path := session_path "overrides".

Definition live_claim_ids (claims : list (string * SessionClaim)) : gset string :=
  list_to_set claims.*1.

Definition superseded_live_claims (overrides : list (Path * SessionOverride))
    (live_claims : gset string) : gset string :=
  filter (λ id, id ∈ live_claims)
    (list_to_set (overrides ≫= λ p, so_superseded_claims p.2)).

Definition peer_of (claim : SessionClaim) : SessionPeer :=
  {| sx_client_id := sn_client_id claim; sx_machine_name := sn_machine_name claim;
     sx_time_last_updated := sn_updated_at claim; sx_os_type := sn_os_type claim;
     sx_device_type := sn_device_type claim |}.

(** The claims of the other devices that no override supersedes. *)
Definition pending_peers (claims : list (string * SessionClaim)) (client_id : Z)
    (superseded : gset string) : list SessionPeer :=
  (λ p, peer_of p.2) <$>
  filter (λ p, sn_client_id p.2 ≠ client_id ∧ p.1 ∉ superseded) claims.

Definition other_claims (claims : list (string * SessionClaim)) (client_id : Z) : gset string :=
  list_to_set (filter (λ p, sn_client_id p.2 ≠ client_id) claims).*1.

Section sessions.
Context {H : Host} {C : StoreCodec} {SC : SessionCodec}.

(** ** Reading the records *)

(** The loop both directories are read with: [parse] turns the bytes of a record into
    it, [owner] tells whose it is. *)
Fixpoint session_entries {A} (directory : Path) (label too_many wrong_client : string)
    (parse : list Z → BR A) (owner : A → Z) (l : list (string * Node)) (entries : nat)
    (acc : list (string * list Z * A)) : Op (list (string * list Z * A)) :=
  match l with
  | [] => mret acc
  | (name, _) :: l =>
      if MAX_SESSION_RECORDS <? Z.of_nat (S entries) then throw (permanent too_many)
      else
        _ ← io fs_touch;
        if negb (is_json name)
        then session_entries directory label too_many wrong_client parse owner l (S entries) acc
        else
          bytes ← read_bounded_file (directory ++ [name]) MAX_SESSION_RECORD_BYTES label;
          record ← lift (parse bytes);
          client_id ← lift (session_record_client_id name);
          if negb (client_id =? owner record) then throw (permanent wrong_client)
          else session_entries directory label too_many wrong_client parse owner l (S entries)
                 (acc ++ [(name, bytes, record)])
  end.

Definition parse_claim (app_id : Z) (bytes : list Z) : BR SessionClaim :=
  match claim_from_slice bytes with
  | Err _ => Err (incomplete "local cloud session claim is incomplete")
  | Ok claim => _ ← validate_session_claim app_id claim; Ok claim
  end.
Definition parse_override (app_id : Z) (bytes : list Z) : BR SessionOverride :=
  match override_from_slice bytes with
  | Err _ => Err (incomplete "local cloud session override is incomplete")
  | Ok record => _ ← validate_session_override app_id record; Ok record
  end.

Definition read_session_claims (s : FolderStore) (app_id : Z)
    : Op (list (string * SessionClaim)) :=
  dir ← lift (session_dir s app_id);
  let directory := dir ++ ["claims"] in
  present ← path_exists directory;
  if negb present then mret []
  else
    entries ← io (fs_read_dir directory);
    records ← session_entries directory "session claim" "too many local cloud session claims"
      "local cloud session claim ClientID is invalid" (parse_claim app_id) sn_client_id
      entries 0 [];
    mret ((λ '(_, bytes, claim), (hex_digest sha256 bytes, claim)) <$> records).

Definition read_session_claim (s : FolderStore) (app_id client_id : Z)
    : Op (option SessionClaim) :=
  path ← lift (session_claim_path s app_id client_id);
  present ← path_exists path;
  if negb present then mret None
  else
    bytes ← read_bounded_file path MAX_SESSION_RECORD_BYTES "session claim";
    claim ← lift (parse_claim app_id bytes);
    if negb (sn_client_id claim =? client_id)
    then throw (permanent "local cloud session claim ClientID is invalid")
    else mret (Some claim).

Definition read_session_overrides (s : FolderStore) (app_id : Z)
    : Op (list (Path * SessionOverride)) :=
  dir ← lift (session_dir s app_id);
  let directory := dir ++ ["overrides"] in
  present ← path_exists directory;
  if negb present then mret []
  else
    entries ← io (fs_read_dir directory);
    records ← session_entries directory "session override"
      "too many local cloud session overrides"
      "local cloud session override ClientID is invalid" (parse_override app_id) so_client_id
      entries 0 [];
    mret ((λ '(name, _, record), (directory ++ [name], record)) <$> records).

(** ** Writing the records *)

Definition write_session_claim (s : FolderStore) (claim : SessionClaim) : Op string :=
  path ← lift (session_claim_path s (sn_app_id claim) (sn_client_id claim));
  bytes ← json (claim_to_vec claim);
  if MAX_SESSION_RECORD_BYTES <? Z.of_nat (length bytes)
  then throw (permanent "local cloud session claim is too large")
  else
    _ ← atomic_replace path bytes;
    mret (hex_digest sha256 bytes).

Definition write_session_override (s : FolderStore) (record : SessionOverride) : Op unit :=
  path ← lift (session_override_path s (so_app_id record) (so_client_id record));
  bytes ← json (override_to_vec record);
  if MAX_SESSION_RECORD_BYTES <? Z.of_nat (length bytes)
  then throw (permanent "local cloud session override is too large")
  else atomic_replace path bytes.

Definition with_superseded (record : SessionOverride) (ids : list string) : SessionOverride :=
  {| so_app_id := so_app_id record; so_client_id := so_client_id record;
     so_superseded_claims := ids |}.

(** Drops what no live claim needs any more; an override left empty is removed. *)
Fixpoint reconcile_loaded_session_overrides (s : FolderStore)
    (overrides : list (Path * SessionOverride)) (live_claims : gset string)
    (superseded : gset string) : Op (gset string) :=
  match overrides with
  | [] => mret superseded
  | (path, record) :: overrides =>
      let retained := filter (λ id, id ∈ live_claims) (so_superseded_claims record) in
      match retained with
      | [] =>
          _ ← remove_if_exists path;
          reconcile_loaded_session_overrides s overrides live_claims superseded
      | _ =>
          _ ← (if bool_decide (retained = so_superseded_claims record) then mret tt
               else write_session_override s (with_superseded record retained));
          reconcile_loaded_session_overrides s overrides live_claims
            (list_to_set retained ∪ superseded)
      end
  end.

Definition reconcile_session_overrides (s : FolderStore) (app_id : Z)
    (live_claims : gset string) : Op (gset string) :=
  overrides ← read_session_overrides s app_id;
  reconcile_loaded_session_overrides s overrides live_claims ∅.

(** ** The operations *)

(** The override that lets the session start over the claims of the others, and the
    overrides as they are after it is written. *)
Definition supersede_others (s : FolderStore) (app_id client_id : Z)
    (claims : list (string * SessionClaim)) (overrides : list (Path * SessionOverride))
    (superseded : gset string) : Op (list (Path * SessionOverride)) :=
  let record := {| so_app_id := app_id; so_client_id := client_id;
                   so_superseded_claims :=
                     sort_by_key id (elements (superseded ∪ other_claims claims client_id)) |} in
  path ← lift (session_override_path s app_id client_id);
  _ ← write_session_override s record;
  mret (filter (λ p, p.1 ≠ path) overrides ++ [(path, record)]).

Definition launch_session (s : FolderStore) (app_id : Z) (identity : CommitIdentity)
    (os_type device_type : option Z) (ignore_pending : bool) : Op (list SessionPeer) :=
  _ ← lift (validate_app_id app_id);
  _ ← lift (validate_identity identity);
  _ ← lift (lock_app app_id);
  let client_id := ci_client_id identity in
  claims ← read_session_claims s app_id;
  overrides ← read_session_overrides s app_id;
  let initial_live_claims := live_claim_ids claims in
  let superseded := superseded_live_claims overrides initial_live_claims in
  let pending := pending_peers claims client_id superseded in
  if negb (bool_decide (pending = [])) && negb ignore_pending
  then
    _ ← reconcile_loaded_session_overrides s overrides initial_live_claims ∅;
    mret pending
  else
    overrides ← (if bool_decide (pending = []) then mret overrides
                 else supersede_others s app_id client_id claims overrides superseded);
    v ← view_unlocked s app_id;
    now ← unix_seconds;
    nonce ← next_nonce;
    claim_id ← write_session_claim s {|
      sn_app_id := app_id; sn_client_id := client_id;
      sn_machine_name := ci_machine_name identity; sn_os_type := os_type;
      sn_device_type := device_type; sn_status := Active; sn_observed_heads := head_ids v;
      sn_updated_at := now; sn_nonce := nonce |};
    _ ← reconcile_loaded_session_overrides s overrides
          ({[claim_id]} ∪ other_claims claims client_id) ∅;
    mret [].

Definition update_session (s : FolderStore) (app_id : Z) (identity : CommitIdentity)
    (status : SessionStatus) : Op unit :=
  _ ← lift (validate_app_id app_id);
  _ ← lift (validate_identity identity);
  _ ← lift (lock_app app_id);
  found ← read_session_claim s app_id (ci_client_id identity);
  claim ← lift (ok_or found (conflict "local cloud session does not belong to this client"));
  v ← view_unlocked s app_id;
  _ ← (if negb (bool_decide (sn_machine_name claim = ci_machine_name identity))
          || negb (bool_decide (sn_status claim = status))
          || negb (bool_decide (sn_observed_heads claim = head_ids v))
       then
         now ← unix_seconds;
         nonce ← next_nonce;
         _ ← write_session_claim s {|
           sn_app_id := sn_app_id claim; sn_client_id := sn_client_id claim;
           sn_machine_name := ci_machine_name identity; sn_os_type := sn_os_type claim;
           sn_device_type := sn_device_type claim; sn_status := status;
           sn_observed_heads := head_ids v; sn_updated_at := now; sn_nonce := nonce |};
         mret tt
       else mret tt);
  claims ← read_session_claims s app_id;
  _ ← reconcile_session_overrides s app_id (live_claim_ids claims);
  mret tt.

Definition suspend_session (s : FolderStore) (app_id : Z) (identity : CommitIdentity) : Op unit :=
  update_session s app_id identity Suspended.
Definition resume_session (s : FolderStore) (app_id : Z) (identity : CommitIdentity) : Op unit :=
  update_session s app_id identity Active.

Definition exit_session (s : FolderStore) (app_id : Z) (identity : CommitIdentity) : Op unit :=
  _ ← lift (validate_app_id app_id);
  _ ← lift (validate_identity identity);
  _ ← lift (lock_app app_id);
  found ← read_session_claim s app_id (ci_client_id identity);
  match found with
  | None => mret tt
  | Some _ =>
      path ← lift (session_claim_path s app_id (ci_client_id identity));
      _ ← remove_if_exists path;
      claims ← read_session_claims s app_id;
      _ ← reconcile_session_overrides s app_id (live_claim_ids claims);
      mret tt
  end.
End sessions.
