(* ===== verification/StoreSessionProofs.v ===== *)
(** * StoreSessionProofs: sessions exclude each other

    A session call touches nothing but the [sessions] entry of the app directory. Once a
    device has launched, its claim is on disk and any other device that launches without
    insisting is told about it; once it has exited, the claim is gone. *)

From Stdlib Require Import ZArith Lia.
From S2P Require Import Prelude RustStd CloudCore LocalSync LocalSyncProofs.
From S2P Require Import FileSystem StoreFiles StoreFilesProofs FolderStore FolderStoreProofs.
From S2P Require Import StoreCommit StoreBegin StoreRead StoreSpec StoreSessions.

Local Open Scope Z_scope.

Lemma record_file_json c : in_u64 c → StoreSessions.is_json (record_file_name c) = true.
Proof.
  intros Hc. unfold StoreSessions.is_json.
  change (record_file_name c) with (record_name c). rewrite record_name_parts by done.
  by apply bool_decide_eq_true_2.
Qed.

Lemma record_file_inj a b : in_u64 a → in_u64 b → record_file_name a = record_file_name b → a = b.
Proof. apply record_name_inj. Qed.

Section replace.
Context {H : Host}.

(** A replaced file has the new bytes. *)
Lemma rename_sibling d t c v es w w' :
  at_path d w = Some (Dir es) → es !! t = Some v → fs_rename (d ++ [t]) (d ++ [c]) w = (Ok tt, w') →
  at_path (d ++ [c]) w' = Some v.
Proof.
  intros Hd Ht Hm. apply syscall_Ok in Hm as (n & Hm & ->). unfold at_path in *.
  rewrite !get_snoc, parent_snoc, Hd, Ht in Hm.
  case_bool_decide as Heq.
  { injection Hm as <-. rewrite <-Heq. simpl. by rewrite get_snoc, Hd. }
  destruct (_ || _); [done|]. cbn [is_dir negb] in Hm. destruct (may_replace _ _); [|done].
  injection Hm as <-. simpl. eapply get_put_eq. by apply get_put_snoc.
Qed.

Lemma replace_file_Ok d c b w w' :
  replace_file (d ++ [c]) b w = (Ok tt, w') → at_path (d ++ [c]) w' = Some (File b).
Proof.
  unfold replace_file. rewrite parent_snoc. intros Hm. st_inv.
  apply durable_dir_all_Ok in Hx as (es & _ & Hd).
  apply keeps_nonce in Hx0. rewrite <-(same_world_at d _ _ Hx0) in Hd.
  destruct x2 as [[]|e]; st_inv. destruct x as [[]|e]; st_inv.
  destruct (temporary_Ok _ _ _ _ _ _ _ Hd Hx1 Hx2) as [_ Hd2].
  apply keeps_sync in Hm. rewrite (same_world_at _ _ _ Hm).
  eapply rename_sibling; [exact Hd2| |eassumption]. by rewrite lookup_insert_eq.
Qed.

Lemma replace_Ok d c b w w' :
  atomic_replace (d ++ [c]) b w = (Ok tt, w') → at_path (d ++ [c]) w' = Some (File b).
Proof.
  unfold atomic_replace. intros Hm. st_inv.
  destruct x as [[|]|[| |]]; st_inv; try (by eapply replace_file_Ok).
  apply matches_Ok in Hx as [Hf Hs]. by rewrite (same_world_at _ _ _ Hs).
Qed.
End replace.

(** ** Reading the records *)

Section records.
Context {H : Host} {C : StoreCodec} {SC : SessionCodec}.

Section entries.
Context {A : Type} (directory : Path) (label too_many wrong : string).
Context (parse : list Z → BR A) (owner : A → Z).

Lemma keeps_session_entries l n acc :
  keeps same_world (session_entries directory label too_many wrong parse owner l n acc).
Proof. revert n acc. induction l as [|[]]; intros; simpl; unfold io; keeps_tac. Qed.

(** A record as it was found on disk. *)
Definition record_at (w : World) (r : string * list Z * A) : Prop :=
  let '(name, bytes, record) := r in
  StoreSessions.is_json name = true ∧ at_path (directory ++ [name]) w = Some (File bytes) ∧ parse bytes = Ok record ∧
  session_record_client_id name = Ok (owner record).

Lemma record_at_world w w' r : same_world w w' → record_at w' r → record_at w r.
Proof.
  destruct r as [[name bytes] record]. intros Hs (? & Hp & ?). split; [done|].
  by rewrite (same_world_at _ _ _ Hs) in Hp.
Qed.

Lemma session_entries_Ok l n acc w rs w' :
  session_entries directory label too_many wrong parse owner l n acc w = (Ok rs, w') →
  ∃ new, rs = acc ++ new ∧ Forall (record_at w) new ∧
    ∀ name, name ∈ l.*1 → StoreSessions.is_json name = true → name ∈ (λ r, r.1.1) <$> new.
Proof.
  revert n acc w. induction l as [|[name node] l IH]; intros n acc w Hm; simpl in Hm; st_inv.
  { exists []. rewrite app_nil_r. split; [done|]. split; [constructor|]. intros ?. by rewrite elem_of_nil. }
  case_match; st_inv. apply keeps_touch in Hx as Hs.
  destruct (StoreSessions.is_json name) eqn:Hj; cbn [negb] in Hm; st_inv.
  - apply bounded_Ok in Hx0 as (Hp & _ & Hs1). case_match eqn:Ho; [done|].
    apply negb_false_iff, Z.eqb_eq in Ho. apply IH in Hm as (new & -> & Hnew & Hin).
    eexists (_ :: new). rewrite <-app_assoc. split; [done|]. split.
    + constructor.
      * cbn. rewrite (same_world_at _ _ _ Hs) in Hp. by rewrite <-Ho.
      * eapply Forall_impl; [done|]. intros r. apply record_at_world. by trans w0.
    + csimpl. intros k Hk Hj'. rewrite elem_of_cons in Hk |- *. destruct Hk; [by left|right; auto].
  - apply IH in Hm as (new & -> & Hnew & Hin). exists new. split; [done|]. split.
    + eapply Forall_impl; [done|]. intros r. by apply record_at_world.
    + csimpl. intros k [->|Hk]%elem_of_cons Hj'; [congruence|]. by apply Hin.
Qed.
End entries.

Definition claims_dir (s : FolderStore) (app : Z) : Path := app_dir s app ++ ["sessions"; "claims"].
Definition overrides_dir (s : FolderStore) (app : Z) : Path := app_dir s app ++ ["sessions"; "overrides"].

Lemma session_dir_Ok s app p : session_dir s app = Ok p → p = app_dir s app ++ ["sessions"].
Proof. unfold session_dir. case_match; [by intros [= <-]|done]. Qed.

Lemma session_path_Ok kind s app client p :
  session_path kind s app client = Ok p →
  p = (app_dir s app ++ ["sessions"; kind]) ++ [record_file_name client].
Proof.
  unfold session_path. case_match; [done|]. intros (dir & ->%session_dir_Ok & [= <-])%bind_Ok_inv.
  by rewrite <-!app_assoc.
Qed.

Lemma keeps_read_claims s app : keeps same_world (read_session_claims s app).
Proof. unfold read_session_claims, io. keeps_tac; eauto using keeps_session_entries with keeps. Qed.
Lemma keeps_read_overrides s app : keeps same_world (read_session_overrides s app).
Proof. unfold read_session_overrides, io. keeps_tac; eauto using keeps_session_entries with keeps. Qed.
Lemma keeps_read_claim s app client : keeps same_world (read_session_claim s app client).
Proof. unfold read_session_claim. keeps_tac. Qed.

(** A claim on disk is among those read, under the digest of its bytes. *)
Lemma read_claims_complete s app client bytes claim w cs w' :
  in_u64 client → at_path (claims_dir s app ++ [record_file_name client]) w = Some (File bytes) →
  parse_claim app bytes = Ok claim → read_session_claims s app w = (Ok cs, w') →
  (hex_digest sha256 bytes, claim) ∈ cs.
Proof.
  intros Hc Hp Hparse Hm. unfold read_session_claims in Hm. st_inv.
  match goal with Hd : session_dir _ _ = Ok _ |- _ => apply session_dir_Ok in Hd as -> end.
  assert (Hdir : (app_dir s app ++ ["sessions"]) ++ ["claims"] = claims_dir s app)
    by (unfold claims_dir; by rewrite <-app_assoc).
  rewrite Hdir in *. pose proof Hp as Hp'. unfold at_path in Hp'. rewrite get_snoc in Hp'.
  destruct (get (claims_dir s app) _) as [[b|es|]|] eqn:Hd; try done.
  rewrite bool_decide_eq_true_2 in Hm by (unfold at_path; rewrite Hd; eauto). cbn [negb] in Hm. st_inv.
  apply read_dir_Ok in Hx as (es' & Hes & -> & Hs). unfold at_path in Hes. rewrite Hd in Hes.
  apply (inj Some), Dir_inj in Hes as <-.
  apply session_entries_Ok in Hx0 as (new & -> & Hnew & Hin).
  assert (Hmem : record_file_name client ∈ (λ r, r.1.1) <$> new).
  { apply Hin; [|by apply record_file_json]. apply list_elem_of_fmap. exists (record_file_name client, File bytes).
    split; [done|]. by apply elem_of_entries. }
  apply list_elem_of_fmap in Hmem as ([[name bytes'] claim'] & Heq & Hmem). cbn [fst] in Heq. subst name.
  rewrite Forall_forall in Hnew. destruct (Hnew _ Hmem) as (_ & Hat & Hpar & _).
  rewrite (same_world_at _ _ _ Hs), Hp in Hat. injection Hat as <-. rewrite Hparse in Hpar.
  injection Hpar as <-. apply list_elem_of_fmap. by eexists (_, _, _).
Qed.
End records.

(** ** What a session call leaves alone *)

Section frames.
Context {H : Host} {C : StoreCodec} {SC : SessionCodec} (s : FolderStore) (app : Z).

(** Overrides of this app. *)
Definition own_overrides (os : list (Path * SessionOverride)) : Prop :=
  ∀ p record, (p, record) ∈ os → (∃ c, p = overrides_dir s app ++ [c]) ∧ so_app_id record = app.

Lemma parse_override_app bytes record : parse_override app bytes = Ok record → so_app_id record = app.
Proof.
  unfold parse_override. case_match; [|done].
  intros (u & Hv & [= <-])%bind_Ok_inv. unfold validate_session_override in Hv.
  destruct (Z.eqb_spec (so_app_id a) app); [done|by cbn in Hv].
Qed.

Lemma read_overrides_Ok w os w' :
  read_session_overrides s app w = (Ok os, w') →
  own_overrides os ∧
  ∀ p record, (p, record) ∈ os →
    ∃ bytes, at_path p w = Some (File bytes) ∧ parse_override app bytes = Ok record.
Proof.
  unfold read_session_overrides. intros Hm. st_inv.
  match goal with Hd : session_dir _ _ = Ok _ |- _ => apply session_dir_Ok in Hd as -> end.
  rewrite <-app_assoc in Hm. cbn [List.app] in Hm. fold (overrides_dir s app) in Hm.
  case_bool_decide; cbn [negb] in Hm; [|st_inv; split; by intros ?? ?%elem_of_nil].
  st_inv. apply keeps_read_dir in Hx as Hs. apply session_entries_Ok in Hx0 as (new & -> & Hnew & _).
  rewrite Forall_forall in Hnew.
  assert (Hin : ∀ p record, (p, record) ∈ (λ '(name, _, record), (overrides_dir s app ++ [name], record)) <$> [] ++ new →
    ∃ c bytes, p = overrides_dir s app ++ [c] ∧ at_path p w = Some (File bytes) ∧
      parse_override app bytes = Ok record).
  { intros p record ([[name bytes] record'] & [= -> ->] & Hin)%list_elem_of_fmap.
    destruct (Hnew _ Hin) as (_ & Hat & Hp & _). eauto. }
  split; intros p record Hpr; destruct (Hin _ _ Hpr) as (c & bytes & -> & Hat & Hp).
  - split; [by eexists|]. by eapply parse_override_app.
  - rewrite (same_world_at _ _ _ Hs) in Hat. eauto.
Qed.

Context (q : Path).

Lemma keeps_write_override record :
  apart (overrides_dir s app) q → so_app_id record = app →
  keeps (same_at q) (write_session_override s record).
Proof.
  intros Hq Ha. unfold write_session_override, json. rewrite Ha.
  apply keeps_lift_bind; [apply _|]. intros p ->%session_path_Ok. fold (overrides_dir s app). keeps_tac.
Qed.

Lemma keeps_reconcile os live acc :
  apart (overrides_dir s app) q → own_overrides os →
  keeps (same_at q) (reconcile_loaded_session_overrides s os live acc).
Proof.
  intros Hq. revert acc. induction os as [|[p record] os IH]; intros acc Hos; cbn; [apply keeps_ret, _|].
  destruct (Hos p record) as [[c ->] Happ]; [by left|].
  assert (own_overrides os) by (intros ???; apply Hos; by right).
  case_match.
  - apply keeps_bind; [apply _| |intros; by apply IH]. apply keeps_remove_if_exists. by apply apart_app_l.
  - apply keeps_bind; [apply _| |intros; by apply IH]. case_match; [apply keeps_ret, _|].
    by apply keeps_write_override.
Qed.

Lemma keeps_write_claim claim :
  apart (claims_dir s app) q → sn_app_id claim = app → keeps (same_at q) (write_session_claim s claim).
Proof.
  intros Hq Ha. unfold write_session_claim, json. rewrite Ha.
  apply keeps_lift_bind; [apply _|]. intros p ->%session_path_Ok. fold (claims_dir s app). keeps_tac.
Qed.

(** The overrides after superseding the claims of others. *)
Lemma supersede_own client cs os sup w os' w' :
  own_overrides os → supersede_others s app client cs os sup w = (Ok os', w') → own_overrides os'.
Proof.
  intros Hos Hm. unfold supersede_others in Hm. st_inv.
  match goal with Hp : session_override_path _ _ _ = Ok _ |- _ => apply session_path_Ok in Hp as -> end.
  intros p record [Hin|[= -> ->]%list_elem_of_singleton]%elem_of_app.
  - apply list_elem_of_filter in Hin as [_ Hin]. by apply Hos.
  - split; [by eexists|done].
Qed.

Lemma keeps_supersede client cs os sup :
  apart (overrides_dir s app) q → keeps (same_at q) (supersede_others s app client cs os sup).
Proof.
  intros Hq. unfold supersede_others. apply keeps_bind; [apply _|by eauto with keeps|]. intros p.
  apply keeps_bind; [apply _|by apply keeps_write_override|]. intros. apply keeps_ret, _.
Qed.

(** A result some of which is known. *)
Lemma keeps_bind_known {E A B} (R : relation World) `{!PreOrder R} (P : A → Prop) (m : ST E A)
    (k : A → ST E B) :
  keeps R m → (∀ w a w', m w = (Ok a, w') → P a) → (∀ a, P a → keeps R (k a)) → keeps R (m ≫= k).
Proof.
  intros Hm HP Hk w r w'. unfold mbind, ST_bind. destruct (m w) as [[a|e] w1] eqn:E1; intros E2.
  - trans w1; [by eapply Hm|]. by eapply Hk; [eapply HP|].
  - injection E2 as <- <-. by eapply Hm.
Qed.

Hypothesis Hq : apart (claims_dir s app) q.
Hypothesis Hq' : apart (overrides_dir s app) q.

#[local] Hint Resolve keeps_read_claims keeps_read_overrides keeps_read_claim : keeps.

Lemma keeps_view_unlocked : keeps same_world (view_unlocked s app).
Proof. unfold view_unlocked. keeps_tac. Qed.
#[local] Hint Resolve keeps_view_unlocked : keeps.

Lemma keeps_launch identity os_type device_type ignore :
  keeps (same_at q) (launch_session s app identity os_type device_type ignore).
Proof.
  unfold launch_session. do 4 (apply keeps_bind; [apply _|by eauto with keeps|intros]).
  apply (keeps_bind_known _ own_overrides); [by eauto with keeps|..].
  { intros w os w'. by intros [? _]%read_overrides_Ok. }
  intros os Hos. case_match.
  { apply keeps_bind; [apply _|by apply keeps_reconcile|]. intros. apply keeps_ret, _. }
  apply (keeps_bind_known _ own_overrides).
  { case_match; [by apply keeps_ret, _|by apply keeps_supersede]. }
  { intros w os' w'. case_match; [by intros [= <- _]|by apply supersede_own]. }
  intros os' Hos'. do 3 (apply keeps_bind; [apply _|by eauto with keeps|intros]).
  apply keeps_bind; [apply _|by apply keeps_write_claim|intros id].
  apply keeps_bind; [apply _|by apply keeps_reconcile|]. intros. apply keeps_ret, _.
Qed.

Lemma keeps_reconcile_all live : keeps (same_at q) (reconcile_session_overrides s app live).
Proof.
  unfold reconcile_session_overrides.
  apply (keeps_bind_known _ own_overrides); [by eauto with keeps|..].
  { intros w os w'. by intros [? _]%read_overrides_Ok. }
  intros os Hos. by apply keeps_reconcile.
Qed.
#[local] Hint Resolve keeps_reconcile_all : keeps.

Lemma parse_claim_Ok bytes claim :
  parse_claim app bytes = Ok claim →
  claim_from_slice bytes = Ok claim ∧ validate_session_claim app claim = Ok tt ∧ sn_app_id claim = app.
Proof.
  unfold parse_claim. case_match; [|done]. intros ([] & Hv & [= <-])%bind_Ok_inv.
  split; [done|]. split; [done|]. unfold validate_session_claim in Hv.
  destruct (Z.eqb_spec (sn_app_id a) app); [done|by cbn in Hv].
Qed.

Lemma read_claim_Ok client w found w' :
  read_session_claim s app client w = (Ok found, w') →
  match found with
  | None => at_path (claims_dir s app ++ [record_file_name client]) w = None
  | Some claim => sn_app_id claim = app ∧ sn_client_id claim = client
  end.
Proof.
  unfold read_session_claim. intros Hm. st_inv.
  match goal with Hp : session_claim_path _ _ _ = Ok _ |- _ => apply session_path_Ok in Hp as -> end.
  fold (claims_dir s app) in *. case_bool_decide as Hp; cbn [negb] in Hm; st_inv.
  2: { by apply eq_None_not_Some. }
  case_match eqn:Ho; st_inv. apply negb_false_iff, Z.eqb_eq in Ho. split; [|done].
  by eapply parse_claim_Ok.
Qed.

Lemma keeps_update identity status : keeps (same_at q) (update_session s app identity status).
Proof.
  unfold update_session. do 3 (apply keeps_bind; [apply _|by eauto with keeps|intros]).
  apply (keeps_bind_known _ (λ found, ∀ claim, found = Some claim → sn_app_id claim = app));
    [by eauto with keeps|..].
  { intros w found w' Hr claim ->. by apply read_claim_Ok in Hr as [? _]. }
  intros found Hf. apply keeps_lift_bind; [apply _|]. intros claim Hc.
  unfold ok_or in Hc. destruct found as [c|]; [|done]. injection Hc as ->. specialize (Hf _ eq_refl).
  apply keeps_bind; [apply _|by eauto with keeps|intros v].
  apply keeps_bind; [apply _| |intros; by keeps_tac]. case_match; [|apply keeps_ret, _].
  do 2 (apply keeps_bind; [apply _|by eauto with keeps|intros]).
  apply keeps_bind; [apply _|by apply keeps_write_claim|intros; apply keeps_ret, _].
Qed.

Lemma keeps_exit identity : keeps (same_at q) (exit_session s app identity).
Proof.
  unfold exit_session. do 4 (apply keeps_bind; [apply _|by eauto with keeps|intros]).
  case_match; [|apply keeps_ret, _].
  apply keeps_lift_bind; [apply _|]. intros p ->%session_path_Ok. fold (claims_dir s app).
  apply keeps_bind; [apply _|by eauto with keeps|intros; by keeps_tac].
Qed.
End frames.

Lemma remove_gone {H : Host} d c w w' :
  remove_if_exists (d ++ [c]) w = (Ok tt, w') → at_path (d ++ [c]) w' = None.
Proof.
  intros Hm. destruct (at_path d w) as [[b|es|]|] eqn:Hd.
  2: { pose proof (remove_if_exists_Ok _ _ _ _ _ Hd Hm) as Hd'.
       erewrite dir_entries_lookup by (by left; apply Hd'). apply lookup_delete_eq. }
  all: assert (Hno : get (d ++ [c]) (w_root w) = None)
    by (unfold at_path in Hd; by rewrite get_snoc, Hd).
  all: unfold remove_if_exists in Hm; st_inv; unfold fs_remove_file, syscall in *.
  all: destruct (fault _); [by destruct x; simplify_eq|rewrite Hno in *; simplify_eq; cbn in Hm].
  all: by injection Hm as <-.
Qed.

(** ** The heads a claim records *)

Lemma candidates_ids ms ids cs : candidates ms ids = Ok cs → mc_id <$> cs = ids.
Proof.
  revert cs. induction ids as [|id ids IH]; intros cs; cbn; [by intros [= <-]|].
  intros (c & Hc & Hcs)%bind_Ok_inv. apply bind_Ok_inv in Hcs as (cs' & Hcs' & [= <-]).
  unfold candidate in Hc. apply bind_Ok_inv in Hc as (m & _ & [= <-]). cbn. f_equal. by apply IH.
Qed.

Lemma dedup_NoDup l : NoDup l → dedup l = l.
Proof.
  induction l as [|x [|y l] IH]; [done..|]. intros [Hx Hl]%NoDup_cons. rewrite dedup_cons.
  rewrite bool_decide_eq_false_2 by (intros ->; apply Hx; by left). f_equal. by apply IH.
Qed.

Lemma normalized_sorted l :
  NoDup l → (∀ id, id ∈ l → is_lower_hex 64 id = true) →
  normalized_head_ids (sort_by_key id l) = Ok (sort_by_key id l).
Proof.
  intros Hnd Hids. unfold normalized_head_ids.
  replace (existsb _ _) with false.
  2: { symmetry. apply not_true_iff_false. intros (id & Hin & Hbad)%existsb_exists.
       apply list_elem_of_In in Hin. rewrite elem_of_sort_by_key in Hin. specialize (Hids id Hin).
       unfold is_lower_hex in Hids. apply andb_true_iff in Hids as [[H1 _]%andb_true_iff H2].
       by rewrite H1, H2 in Hbad. }
  assert (sort_by_key id (sort_by_key id l) = sort_by_key id l) as ->.
  { apply sort_by_key_unique; [by intros ????|apply sort_by_key_perm]. }
  rewrite dedup_NoDup by (by rewrite sort_by_key_perm). by rewrite Nat.eqb_refl.
Qed.

Section heads.
Context {H : Host} {C : StoreCodec}.

Lemma repository_ids account app n ms id m :
  repository account app n ms → ms !! id = Some m → is_lower_hex 64 id = true.
Proof.
  intros Hrep Hm. pose proof Hrep as (es & [->|[_ ->]] & _ & _ & Hdom).
  - destruct (repository_lookup _ _ _ _ _ _ Hrep Hm) as (n' & _ & Hid & _). by eapply manifest_id_Ok.
  - apply elem_of_dom_2, Hdom in Hm. by rewrite dom_empty_L, elem_of_empty in Hm.
Qed.

Lemma view_heads s app w v w' :
  view_unlocked s app w = (Ok v, w') → normalized_head_ids (head_ids v) = Ok (head_ids v).
Proof.
  unfold view_unlocked. intros Hm. st_inv.
  match goal with Hr : resolve_app _ _ _ = _ |- _ =>
    apply resolve_Ok in Hr as (account & ms & _ & _ & -> & Hrep) end.
  match goal with Hc : candidates _ _ = Ok _ |- _ => apply candidates_ids in Hc as Hids end.
  unfold head_ids. cbn [sv_heads]. rewrite Hids. cbn [ra_heads resolved]. unfold heads_of.
  apply normalized_sorted; [apply NoDup_filter, NoDup_fst_map_to_list|].
  intros id [_ ([k m] & -> & Hin)%list_elem_of_fmap]%list_elem_of_filter.
  apply elem_of_map_to_list in Hin. by eapply repository_ids.
Qed.
End heads.

(** ** Guarantees *)

(** The calls of a device about its session. *)
Inductive session_call {H : Host} {C : StoreCodec} {SC : SessionCodec} (s : FolderStore) (app : Z)
    : (World → World → Prop) → Prop :=
| call_launch identity os_type device_type ignore :
    session_call s app (λ w w', ∃ r, launch_session s app identity os_type device_type ignore w = (r, w'))
| call_suspend identity : session_call s app (λ w w', ∃ r, suspend_session s app identity w = (r, w'))
| call_resume identity : session_call s app (λ w w', ∃ r, resume_session s app identity w = (r, w'))
| call_exit identity : session_call s app (λ w w', ∃ r, exit_session s app identity w = (r, w')).

Section guarantees.
Context {H : Host} {C : StoreCodec} {SC : SessionCodec} {L : SessionCodecLaws SC}.
Context (s : FolderStore) (app : Z).

Lemma sessions_apart kind name : name ≠ "sessions" → apart (app_dir s app ++ ["sessions"; kind]) (app_dir s app ++ [name]).
Proof. intros Hn. apply (apart_siblings _ _ _ [kind] []). congruence. Qed.

(** [sessions_keep_saves]: whatever calls fail, no session call touches an entry of the
    app directory other than [sessions]: manifests, stats and playtime stay. *)
Theorem sessions_keep_saves call name w w' :
  session_call s app call → name ≠ "sessions" → call w w' → same_at (app_dir s app ++ [name]) w w'.
Proof.
  intros Hc Hn. pose proof (sessions_apart "claims" name Hn). pose proof (sessions_apart "overrides" name Hn).
  destruct Hc; intros [r Hr].
  - by eapply keeps_launch.
  - by eapply keeps_update.
  - by eapply keeps_update.
  - by eapply keeps_exit.
Qed.

Lemma claims_overrides_apart : apart (overrides_dir s app) (claims_dir s app).
Proof.
  unfold overrides_dir, claims_dir. change ["sessions"; "overrides"] with (["sessions"] ++ ["overrides"]).
  change ["sessions"; "claims"] with (["sessions"] ++ ["claims"]). rewrite !app_assoc.
  by apply (apart_siblings _ _ _ [] []).
Qed.

(** [exit_releases]: after a session exited, its claim is gone. *)
Theorem exit_releases identity w w' :
  exit_session s app identity w = (Ok tt, w') →
  at_path (claims_dir s app ++ [record_file_name (ci_client_id identity)]) w' = None.
Proof.
  unfold exit_session. intros Hm. st_inv.
  match goal with Hr : read_session_claim _ _ _ _ = _ |- _ =>
    pose proof (keeps_read_claim _ _ _ _ _ _ Hr) as Hs; apply read_claim_Ok in Hr end.
  destruct x2 as [claim|]; st_inv; [|by rewrite (same_world_at _ _ _ Hs)].
  match goal with Hp : session_claim_path _ _ _ = Ok _ |- _ => apply session_path_Ok in Hp as -> end.
  fold (claims_dir s app) in *.
  match goal with Hr : remove_if_exists _ _ = _ |- _ => apply remove_gone in Hr as Hgone end.
  match goal with Hc : read_session_claims _ _ _ = _, Hr : reconcile_session_overrides _ _ _ _ = _ |- _ =>
    apply keeps_read_claims in Hc; apply keeps_reconcile_all with (q := claims_dir s app ++ [record_file_name (ci_client_id identity)]) in Hr;
    [|by apply apart_app_r, claims_overrides_apart] end.
  by rewrite Hx3, (same_world_at _ _ _ Hx1).
Qed.

(** ** Launching *)

(** An override on disk names the claim. *)
Definition overridden (w : World) (id : string) : Prop :=
  ∃ p bytes record, at_path p w = Some (File bytes) ∧ parse_override app bytes = Ok record ∧
    id ∈ so_superseded_claims record.

(** A device that launches without insisting is told of every claim of another device
    that no override names. *)
Lemma launch_told identity os_type device_type bytes claim peers w w' :
  in_u64 (sn_client_id claim) → sn_client_id claim ≠ ci_client_id identity →
  at_path (claims_dir s app ++ [record_file_name (sn_client_id claim)]) w = Some (File bytes) →
  parse_claim app bytes = Ok claim → ¬ overridden w (hex_digest sha256 bytes) →
  launch_session s app identity os_type device_type false w = (Ok peers, w') →
  peer_of claim ∈ peers ∧ same_at (claims_dir s app) w w'.
Proof.
  intros Hc Hne Hat Hparse Hover Hm. unfold launch_session in Hm. st_inv.
  rename x2 into claims, x3 into os.
  pose proof (keeps_read_claims _ _ _ _ _ Hx2) as Hs.
  pose proof (keeps_read_overrides _ _ _ _ _ Hx3) as Hs'.
  pose proof (read_claims_complete _ _ _ _ _ _ _ _ Hc Hat Hparse Hx2) as Hin.
  apply read_overrides_Ok in Hx3 as [Hown Hos].
  set (superseded := superseded_live_claims _ _) in *.
  assert (Hpeer : peer_of claim ∈ pending_peers claims (ci_client_id identity) superseded).
  { apply list_elem_of_fmap. exists (hex_digest sha256 bytes, claim). split; [done|].
    apply list_elem_of_filter. split; [|done]. cbn. split; [congruence|].
    unfold superseded, superseded_live_claims. rewrite elem_of_filter, elem_of_list_to_set.
    intros [_ ([p record] & Hid & Hp)%list_elem_of_bind]. destruct (Hos _ _ Hp) as (b & Hb & Hpb).
    apply Hover. exists p, b, record. by rewrite (same_world_at _ _ _ Hs) in Hb. }
  rewrite bool_decide_eq_false_2 in Hm by (intros Hnil; rewrite Hnil in Hpeer; by apply elem_of_nil in Hpeer).
  cbn [negb andb] in Hm. st_inv. split; [done|].
  match goal with Hr : reconcile_loaded_session_overrides _ _ _ _ _ = _ |- _ =>
    apply keeps_reconcile with (app := app) (q := claims_dir s app) in Hr;
      [|apply claims_overrides_apart|done] end.
  trans w4; [apply same_world_at; by trans w3|done].
Qed.

Lemma nonce_nonempty time count : nonce_text time count ≠ "".
Proof.
  intros Hn. apply (f_equal str_bytes) in Hn. unfold nonce_text, bytes_str, str_bytes in Hn.
  rewrite String.list_ascii_of_string_of_list_ascii in Hn.
  apply (f_equal length) in Hn. rewrite !length_fmap, !length_app in Hn. cbn in Hn. lia.
Qed.

Lemma write_claim_Ok claim id w w' :
  write_session_claim s claim w = (Ok id, w') →
  ∃ bytes, claim_to_vec claim = Ok bytes ∧
    at_path (claims_dir s (sn_app_id claim) ++ [record_file_name (sn_client_id claim)]) w' =
      Some (File bytes).
Proof.
  unfold write_session_claim, json. intros Hm. st_inv.
  match goal with Hp : session_claim_path _ _ _ = Ok _ |- _ => apply session_path_Ok in Hp as -> end.
  fold (claims_dir s (sn_app_id claim)) in *.
  destruct (claim_to_vec claim) as [b|] eqn:Hv; [|done]. case_match; st_inv.
  exists b. split; [done|]. simplify_eq. by eapply replace_Ok.
Qed.

(** A device that may play has a valid claim on disk. *)
Lemma launch_claims identity os_type device_type ignore w w' :
  (∀ k, 1000 ≤ clock_ms k) →
  launch_session s app identity os_type device_type ignore w = (Ok [], w') →
  ∃ claim bytes, sn_client_id claim = ci_client_id identity ∧ sn_status claim = Active ∧
    at_path (claims_dir s app ++ [record_file_name (ci_client_id identity)]) w' = Some (File bytes) ∧
    parse_claim app bytes = Ok claim.
Proof.
  intros Hclock Hm. unfold launch_session in Hm. st_inv.
  case_match eqn:Hp; st_inv.
  { apply andb_true_iff in Hp as [Hp _]. by apply negb_true_iff, bool_decide_eq_false in Hp. }
  apply read_overrides_Ok in Hx3 as [Hown _].
  assert (Hown' : own_overrides s app x) by (case_match; [by injection Hx as <-|by eapply supersede_own]).
  apply view_heads in Hx0 as Hheads. apply write_claim_Ok in Hx5 as (bytes & Hbytes & Hat).
  cbn [sn_app_id sn_client_id] in Hat.
  set (claim := Build_SessionClaim _ _ _ _ _ _ _ _ _) in *. exists claim, bytes.
  do 2 (split; [done|]). split.
  - rewrite <-Hat. eapply keeps_reconcile; [|done|exact Hx6]. by apply apart_app_r, claims_overrides_apart.
  - unfold parse_claim. rewrite (claim_json _ _ Hbytes).
    assert (validate_session_claim app claim = Ok tt) as ->; [|done].
    unfold validate_session_claim. cbn [sn_app_id sn_nonce sn_updated_at claim].
    injection Hx1 as <- <-. injection Hx4 as <- _.
    rewrite Z.eqb_refl, bool_decide_eq_false_2 by apply nonce_nonempty. cbn [negb orb].
    destruct (Z.eqb_spec (Z.min (millis w0 / 1000) u32_max) 0) as [Hz|_].
    { pose proof (Hclock (w_calls w0)). unfold millis, u32_max in Hz.
      assert (1 ≤ Z.max 0 (clock_ms (w_calls w0)) / 1000) by (apply Z.div_le_lower_bound; lia). lia. }
    replace (Build_CommitIdentity _ _) with identity by (by destruct identity).
    rewrite Hr0. change (sn_observed_heads claim) with (head_ids x0). cbn [mbind result_bind].
    rewrite Hheads. cbn. by rewrite bool_decide_eq_true_2.
Qed.

(** C27 [sessions_exclude]: while the claim of a device that launched is on disk and no
    override names it, another device that launches without insisting is told about it
    and writes no claim. The clock is past its first second. *)
Theorem sessions_exclude one other os_type device_type os_type' device_type' ignore peers w w1 w2 w3 :
  (∀ k, 1000 ≤ clock_ms k) → in_u64 (ci_client_id one) → ci_client_id one ≠ ci_client_id other →
  launch_session s app one os_type device_type ignore w = (Ok [], w1) →
  same_at (claims_dir s app ++ [record_file_name (ci_client_id one)]) w1 w2 →
  (∀ bytes, at_path (claims_dir s app ++ [record_file_name (ci_client_id one)]) w2 = Some (File bytes) →
     ¬ overridden w2 (hex_digest sha256 bytes)) →
  launch_session s app other os_type' device_type' false w2 = (Ok peers, w3) →
  (∃ peer, peer ∈ peers ∧ sx_client_id peer = ci_client_id one) ∧ same_at (claims_dir s app) w2 w3.
Proof.
  intros Hclock Hone Hne Hl Hs Hover Hm.
  destruct (launch_claims _ _ _ _ _ _ Hclock Hl) as (claim & bytes & Hid & _ & Hat & Hparse).
  rewrite <-Hs in Hat. pose proof (Hover _ Hat) as Ho. rewrite <-Hid in Hat, Hne, Hone.
  destruct (launch_told _ _ _ _ _ _ _ _ Hone Hne Hat Hparse Ho Hm) as [Hp Hc].
  split; [|done]. by exists (peer_of claim).
Qed.
End guarantees.
