(* ===== verification/FolderStoreExamples.v ===== *)
(** * FolderStoreExamples: the file store at concrete inputs

    A host that does not fail, toy digests and JSON given by tables, a device that
    writes, overwrites, deletes, resolves a conflict, collects and plays; and the
    theorems of the file store at these inputs. *)

From Stdlib Require Import ZArith Lia.
From S2P Require Import Prelude RustStd CloudCore FileSystem StoreFiles StoreFilesProofs.
From S2P Require Import FolderStore FolderStoreProofs StoreCommit StoreBegin StoreRead StoreSpec.
From S2P Require Import StoreTheorems StoreOpen StoreGc StoreGcProofs StoreSessions.
From S2P Require Import StoreSessionProofs.

Local Open Scope Z_scope.

(** ** A host and codecs *)

#[local] Instance plain_host : Host.
Proof.
  refine {| fault := λ _, None; clock_ms := λ _, 1_000_000; process_id := 7;
            dir_order := elements; dir_order_perm := λ _, reflexivity _ |}.
Defined.

Definition toy_digest (n : nat) (b : list Z) : list Z :=
  take n (((λ z, z mod 256) <$> b) ++ replicate n 0).

Lemma toy_digest_ok n b : length (toy_digest n b) = n ∧ Forall in_u8 (toy_digest n b).
Proof.
  unfold toy_digest. split; [rewrite length_take, length_app, length_replicate; lia|].
  apply Forall_take, Forall_app. split.
  - apply Forall_forall. intros x (z & -> & _)%list_elem_of_fmap.
    pose proof (Z.mod_pos_bound z 256). unfold in_u8, u8_max. lia.
  - apply Forall_replicate. by unfold in_u8, u8_max.
Qed.

(** Documents by their place in a table. *)
Section table.
Context {A : Type} `{EqDecision A} (table : list A).

Definition table_to_vec (x : A) : result string (list Z) :=
  match list_find (x =.) table with Some (i, _) => Ok [Z.of_nat i] | None => Err "unknown" end.
Definition table_from_slice (b : list Z) : result string A :=
  match b with
  | [i] => ok_or (table !! Z.to_nat i) "unknown"
  | _ => Err "unknown"
  end.

Lemma table_json x b : table_to_vec x = Ok b → table_from_slice b = Ok x.
Proof.
  unfold table_to_vec. destruct (list_find _ _) as [[i y]|] eqn:Hf; [|done]. intros [= <-].
  apply list_find_Some in Hf as (Hi & <- & _). unfold table_from_slice. by rewrite Nat2Z.id, Hi.
Qed.
End table.

#[local] Instance SaveManifest_eq_dec : EqDecision SaveManifest.
Proof. solve_decision. Defined.
#[local] Instance SessionClaim_eq_dec : EqDecision SessionClaim.
Proof. solve_decision. Defined.
#[local] Instance SessionOverride_eq_dec : EqDecision SessionOverride.
Proof. solve_decision. Defined.

Definition digest1 (b : list Z) : list Z := toy_digest 20 (Z.of_nat (length b) :: b).
Definition digest256 (b : list Z) : list Z := toy_digest 32 b.

Definition account : string := "76561198000000001".
Definition game : Z := 480.

Definition stored (b : list Z) : StoredFile :=
  {| sf_sha1 := bytes_str (hex_bytes (digest1 b)); sf_raw_size := Z.of_nat (length b);
     sf_mtime := 5; sf_platforms_to_sync := 1 |}.
Definition described (b : list Z) : FileMetadata := metadata_of (stored b).
Definition manifest_name (i : Z) : string := bytes_str (hex_bytes (digest256 [i])).

Definition made (revision : Z) (parents : list string) (client : Z) (machine : string)
    (files : gmap string StoredFile) : SaveManifest :=
  {| sm_steam_id64 := account; sm_app_id := game; sm_revision := revision; sm_parents := parents;
     sm_client_id := client; sm_machine_name := machine; sm_created_at_ms := 1_000_000;
     sm_files := files |}.

Definition manifest_table : list SaveManifest := [
  made 1 [] 11 "desk" {["save.dat" := stored [1; 2; 3]]};
  made 1 [] 22 "deck" {["save.dat" := stored [4; 5]]};
  made 2 [manifest_name 0; manifest_name 1] 11 "desk" {["save.dat" := stored [1; 2; 3]]};
  made 2 [manifest_name 0] 11 "desk" ∅;
  made 2 [manifest_name 0] 11 "desk" {["save.dat" := stored [4; 5]]};
  made 3 [manifest_name 4] 11 "desk" {["save.dat" := stored [6]]};
  made 2 [manifest_name 9] 11 "desk" {["save.dat" := stored [2]]};
  made 3 [manifest_name 6] 11 "desk" {["save.dat" := stored [3]]};
  made 4 [manifest_name 7] 11 "desk" {["save.dat" := stored [4]]};
  made 1 [] 11 "desk" {["save.dat" := stored [1]]} ].

#[local] Instance toy_codec : StoreCodec := {|
  sha1 := digest1; sha256 := digest256;
  manifest_to_vec := table_to_vec manifest_table;
  manifest_from_slice := table_from_slice manifest_table |}.

#[local] Instance toy_codec_laws : StoreCodecLaws toy_codec.
Proof.
  split.
  - intros b. apply toy_digest_ok.
  - intros b. apply toy_digest_ok.
  - apply table_json.
Qed.

(** ** Worlds *)

Definition shop : FolderStore :=
  {| st_root := ["repo"]; st_account := Some account; st_coordination := 1; st_work_root := ["work"] |}.
Definition desk : option DeviceDescriptor :=
  Some {| dd_client_id := 11; dd_machine_name := "desk"; dd_os_type := None; dd_device_type := None |}.
Definition desk_identity : CommitIdentity := {| ci_client_id := 11; ci_machine_name := "desk" |}.
Definition deck_identity : CommitIdentity := {| ci_client_id := 22; ci_machine_name := "deck" |}.

Definition world (repo : gmap string Node) : World := {|
  w_root := Dir (<["repo" := Dir repo]> {["work" := Dir ∅]});
  w_calls := 0; w_nonce := 0; w_closed := ∅ |}.

Definition empty_world : World := world ∅.

Definition put_by (i : Z) (b : list Z) : Node :=
  manifest_node [i] {[bytes_str (hex_bytes (digest1 b)) := File b]}.

(** Two devices published at the same time. *)
Definition torn_world : World :=
  world {[account := Dir {["480" := Dir (<[manifest_name 0 := put_by 0 [1; 2; 3]]>
                                        {[manifest_name 1 := put_by 1 [4; 5]]})]}]}.

(** Both sides evaluate to the same. *)
Ltac by_vm := match goal with |- _ = ?y => vm_cast_no_check (eq_refl y) end.

Lemma run_Ok {E A} (m : ST E A) w a : (m w).1 = Ok a → m w = (Ok a, (m w).2).
Proof. intros Hm. destruct (m w) as [r w']. simpl in *. by subst. Qed.

Lemma plain_quiet w : quiet w.
Proof. done. Qed.

Lemma shop_separate : separate shop.
Proof. split; intros [k Hk]; discriminate. Qed.

Lemma repository_run w ms :
  (collect_manifest_objects shop game w).1 = Ok ms →
  repository account game (at_path (app_dir shop game) w) ms.
Proof.
  intros Hc%run_Ok. apply collect_Ok in Hc as (acc & [= <-] & Hrep). done.
Qed.

Example first_write : (store_write shop desk game "save.dat" [1; 2; 3] (described [1; 2; 3]) empty_world).1 = Ok 1.
Proof. by_vm. Qed.
Example torn_reads : (collect_manifest_objects shop game torn_world).1 =
  Ok (<[manifest_name 0 := made 1 [] 11 "desk" {["save.dat" := stored [1; 2; 3]]}]>
      {[manifest_name 1 := made 1 [] 22 "deck" {["save.dat" := stored [4; 5]]}]}).
Proof. by_vm. Qed.

(** ** Operations *)

Definition op_at (n : Z) : SaveOperation := {|
  op_coordination := 1; op_repository := ["repo"]; op_manifest_scope := account ++ "/480";
  op_app_id := game; op_path := ["work"; ("operation-" ++ nonce_text 1_000_000 n)%string];
  op_expected_heads := []; op_parents := []; op_original_files := ∅;
  op_force_publish := false; op_minimum_revision := 0 |}.

Definition begun_world : World := (begin_operation shop game [] None empty_world).2.
Definition both_begun : World := (begin_operation shop game [] None begun_world).2.
Definition staged_world : World :=
  (stage_file shop (op_at 0) "save.dat" [1; 2; 3] (described [1; 2; 3]) both_begun).2.
Definition staged_save : StagedFile :=
  {| sg_path := "save.dat"; sg_blob_sha1 := sf_sha1 (stored [1; 2; 3]);
     sg_metadata := described [1; 2; 3] |}.
Definition committed_world : World :=
  (commit_operation shop (op_at 0) [staged_save] ∅ desk_identity staged_world).2.

Example both_begin :
  (begin_operation shop game [] None empty_world).1 = Ok (op_at 0) ∧
  (begin_operation shop game [] None begun_world).1 = Ok (op_at 1).
Proof. split; by_vm. Qed.

Lemma op_begun n : begun shop game ∅ None (op_at n).
Proof.
  split; [by eexists|done|done|by_vm..|]. constructor. by_vm.
Qed.

Definition staged_blobs : gmap string Node := {[sf_sha1 (stored [1; 2; 3]) := File [1; 2; 3]]}.

Lemma staged_ready : ready (op_at 0) staged_blobs staged_world.
Proof. unfold ready. by_vm. Qed.

Lemma commit_runs :
  commit_operation shop (op_at 0) [staged_save] ∅ desk_identity staged_world = (Ok 1, committed_world).
Proof. unfold committed_world. refine (run_Ok _ _ _ _). by_vm. Qed.

Lemma acyclic_root ms : referenced ms = ∅ → acyclic ms.
Proof. intros Hr m bytes _ _. by rewrite Hr. Qed.

Lemma staged_empty : repository account game (at_path (app_dir shop game) staged_world) ∅.
Proof. apply repository_run. by_vm. Qed.



Lemma stale_commit_refused_witness :
  ∃ w', commit_operation shop (op_at 1) [staged_save] ∅ deck_identity torn_world =
          (Err (conflict "local cloud changed after the upload batch began"), w') ∧
        same_world torn_world w'.
Proof.
  apply (stale_commit_refused shop account eq_refl (op_at 1) [staged_save] ∅ deck_identity
    (<[manifest_name 0 := made 1 [] 11 "desk" {["save.dat" := stored [1; 2; 3]]}]>
      {[manifest_name 1 := made 1 [] 22 "deck" {["save.dat" := stored [4; 5]]}]}) torn_world).
  - reflexivity.
  - reflexivity.
  - apply not_elem_of_empty.
  - apply plain_quiet.
  - discriminate.
  - apply repository_run. apply torn_reads.
  - by vm_compute.
Defined.

(** ** Writing, reading, deleting *)

Lemma world_fresh repo : fresh shop (world repo).
Proof.
  intros time. rewrite (dir_entries_lookup _ _ ∅); [apply lookup_empty|]. by left.
Qed.
Lemma empty_fresh : fresh shop empty_world.
Proof. apply world_fresh. Qed.

Lemma empty_repository : repository account game (at_path (app_dir shop game) empty_world) ∅.
Proof. apply repository_run. by_vm. Qed.

Definition wrote : World :=
  (store_write shop desk game "save.dat" [1; 2; 3] (described [1; 2; 3]) empty_world).2.

Lemma write_runs :
  store_write shop desk game "save.dat" [1; 2; 3] (described [1; 2; 3]) empty_world = (Ok 1, wrote).
Proof. unfold wrote. refine (run_Ok _ _ _ _). by_vm. Qed.

Lemma write_refines_witness :
  ∃ ms', repository account game (at_path (app_dir shop game) wrote) ms' ∧
    commit_spec ∅ (current_files ∅)
      (Ok (<["save.dat" := written_file (described [1; 2; 3])]> (current_files ∅))) false 0 (Ok 1) ms'.
Proof.
  apply (write_refines shop account shop_separate eq_refl desk game "save.dat" [1; 2; 3]
    (described [1; 2; 3]) ∅ empty_world (Ok 1) wrote).
  - apply empty_fresh.
  - apply empty_repository.
  - reflexivity.
  - apply write_runs.
Defined.


(** One published manifest. *)
Definition one_world : World :=
  world {[account := Dir {["480" := Dir {[manifest_name 0 := put_by 0 [1; 2; 3]]}]}]}.
Definition one_manifest : gmap string SaveManifest :=
  {[manifest_name 0 := made 1 [] 11 "desk" {["save.dat" := stored [1; 2; 3]]}]}.

Lemma one_repository : repository account game (at_path (app_dir shop game) one_world) one_manifest.
Proof. apply repository_run. by_vm. Qed.

Definition read_one : World := (store_read shop game "save.dat" one_world).2.

Lemma read_integrity_witness :
  same_world one_world read_one ∧
  ∃ ms id m file, repository account game (at_path (app_dir shop game) one_world) ms ∧
    heads_of ms = [id] ∧ ms !! id = Some m ∧ sm_files m !! "save.dat" = Some file ∧
    hex_digest sha1 [1; 2; 3] = sf_sha1 file ∧ Z.of_nat (length [1; 2; 3]) = sf_raw_size file.
Proof.
  apply (read_integrity shop account eq_refl game "save.dat" [1; 2; 3] one_world read_one).
  unfold read_one. refine (run_Ok _ _ _ _). by_vm.
Defined.

Definition deleted_world : World := (store_delete shop desk game "save.dat" one_world).2.

Lemma one_acyclic : acyclic one_manifest.
Proof. apply acyclic_root. by_vm. Qed.

Lemma delete_removes_witness :
  ∃ ms', repository account game (at_path (app_dir shop game) deleted_world) ms' ∧
    commit_spec one_manifest (current_files one_manifest)
      (Ok (delete "save.dat" (current_files one_manifest))) false 0 (Ok 2) ms' ∧
    ∀ revision, Ok 2 = Ok (E := BackendError) revision →
      current_files ms' = delete "save.dat" (current_files one_manifest) ∧
      (quiet deleted_world → ∃ message w'',
         store_read shop game "save.dat" deleted_world = (Err (permanent message), w'')).
Proof.
  apply (delete_removes shop account shop_separate eq_refl desk game "save.dat" one_manifest (Ok 2)
    one_world deleted_world).
  - apply world_fresh.
  - apply one_repository.
  - reflexivity.
  - apply one_acyclic.
  - unfold deleted_world. refine (run_Ok _ _ _ _). by_vm.
Defined.

(** ** Resolving a conflict *)

Definition torn_manifests : gmap string SaveManifest :=
  <[manifest_name 0 := made 1 [] 11 "desk" {["save.dat" := stored [1; 2; 3]]}]>
  {[manifest_name 1 := made 1 [] 22 "deck" {["save.dat" := stored [4; 5]]}]}.
Definition torn_heads : list string := [manifest_name 0; manifest_name 1].
Definition resolved_world : World :=
  (resolve_to_manifest shop game torn_heads (manifest_name 0) desk_identity 0 torn_world).2.

Lemma torn_acyclic : acyclic torn_manifests.
Proof. apply acyclic_root. by_vm. Qed.

Lemma resolution_collapses_witness :
  (repository account game (at_path (app_dir shop game) resolved_world) torn_manifests ∧
   ∃ e, Ok 2 = Err (A := Z) (E := BackendError) e) ∨
  ∃ id m m', torn_manifests !! manifest_name 0 = Some m ∧ sm_files m' = sm_files m ∧
    0 < sm_revision m' ∧ max_revision_of torn_manifests < sm_revision m' ∧
    (∀ revision, Ok (E := BackendError) 2 = Ok revision → revision = sm_revision m') ∧
    repository account game (at_path (app_dir shop game) resolved_world)
      (<[id := m']> torn_manifests) ∧
    heads_of (<[id := m']> torn_manifests) = [id].
Proof.
  apply (resolution_collapses shop account shop_separate eq_refl game torn_heads (manifest_name 0)
    desk_identity 0 torn_manifests (Ok 2) torn_world resolved_world).
  - apply world_fresh.
  - apply repository_run. apply torn_reads.
  - reflexivity.
  - apply torn_acyclic.
  - unfold resolved_world. refine (run_Ok _ _ _ _). by_vm.
Defined.

(** ** Collecting *)

Definition chain_world : World :=
  (store_write shop desk game "save.dat" [6] (described [6])
    (store_write shop desk game "save.dat" [4; 5] (described [4; 5]) one_world).2).2.

Definition chain : gmap string SaveManifest :=
  <[manifest_name 0 := made 1 [] 11 "desk" {["save.dat" := stored [1; 2; 3]]}]>
  (<[manifest_name 4 := made 2 [manifest_name 0] 11 "desk" {["save.dat" := stored [4; 5]]}]>
   {[manifest_name 5 := made 3 [manifest_name 4] 11 "desk" {["save.dat" := stored [6]]}]}).

Definition chain_report : GcReport := report_of shop game chain.
Definition chain_plan : GcSweepPlan := plan_of shop game chain.
Definition inspected : World := (inspect_gc shop game chain_world).2.
Definition prepared : World := (prepare_gc_sweep shop chain_report inspected).2.
Definition chain_swept : World := (apply_gc_sweep shop chain_plan prepared).2.
Definition chain_sweep : GcSweep := {|
  gs_deleted_manifests := 1;
  gs_moved_manifests := [(manifest_name 0, ["work"; ("gc-" ++ nonce_text 1_000_000 6)%string])] |}.
Definition entries_of (n : option Node) : gmap string Node :=
  match n with Some (Dir es) => es | _ => ∅ end.
Definition chain_entries : gmap string Node := entries_of (at_path (app_dir shop game) prepared).

Lemma chain_repository : repository account game (at_path (app_dir shop game) chain_world) chain.
Proof. apply repository_run. by_vm. Qed.
Lemma inspect_runs : inspect_gc shop game chain_world = (Ok chain_report, inspected).
Proof. unfold inspected. refine (run_Ok _ _ _ _). by_vm. Qed.
Lemma prepare_runs : prepare_gc_sweep shop chain_report inspected = (Ok (Some chain_plan), prepared).
Proof. unfold prepared. refine (run_Ok _ _ _ _). by_vm. Qed.
Lemma apply_runs : apply_gc_sweep shop chain_plan prepared = (Ok (Some chain_sweep), chain_swept).
Proof. unfold chain_swept. refine (run_Ok _ _ _ _). by_vm. Qed.
Lemma prepared_dir : at_path (app_dir shop game) prepared = Some (Dir chain_entries).
Proof. by_vm. Qed.
Lemma prepared_repository : repository account game (Some (Dir chain_entries)) chain.
Proof. rewrite <-prepared_dir. apply repository_run. by_vm. Qed.

Lemma sweep_spares_retained_witness :
  same_at (app_dir shop game ++ [manifest_name 5]) prepared chain_swept.
Proof.
  apply (sweep_spares_retained shop account game shop_separate eq_refl chain chain_report chain_plan
    chain_world inspected inspected prepared chain_repository inspect_runs prepare_runs
    (manifest_name 5) (Ok (Some chain_sweep)) prepared chain_swept apply_runs).
  left. apply (bool_decide_eq_true_1 _). by_vm.
Defined.

Lemma sweep_keeps_heads_witness :
  repository account game (at_path (app_dir shop game) chain_swept) (kept chain) ∧
  heads_of (kept chain) = heads_of chain ∧ current (resolved (kept chain)) = current (resolved chain).
Proof.
  apply (sweep_keeps_heads shop account game shop_separate eq_refl chain chain_report chain_plan
    chain_world inspected inspected prepared chain_repository inspect_runs prepare_runs
    prepared chain_swept chain_entries chain chain_sweep prepared_dir prepared_repository).
  - intros id m m0 H1 H2. congruence.
  - apply apply_runs.
Defined.

Lemma sweep_restores_witness :
  ∃ w6, restore_gc_sweep shop game chain_sweep chain_swept = (Ok tt, w6) ∧
        at_path (app_dir shop game) w6 = at_path (app_dir shop game) prepared.
Proof.
  apply (sweep_restores shop account game shop_separate eq_refl chain chain_report chain_plan
    chain_world inspected inspected prepared chain_repository inspect_runs prepare_runs
    prepared chain_swept chain_entries chain chain_sweep prepared_dir prepared_repository).
  - intros id m m0 H1 H2. congruence.
  - apply apply_runs.
  - apply plain_quiet.
  - by_vm.
Defined.

Example one_is_kept : size (kept chain) = 2%nat.
Proof. by_vm. Qed.

(** ** Playing *)

Definition claim_of (client : Z) (machine : string) (n : Z) : SessionClaim := {|
  sn_app_id := game; sn_client_id := client; sn_machine_name := machine; sn_os_type := None;
  sn_device_type := None; sn_status := Active; sn_observed_heads := []; sn_updated_at := 1000;
  sn_nonce := nonce_text 1_000_000 n |}.

#[local] Instance toy_sessions : SessionCodec := {|
  claim_to_vec := table_to_vec [claim_of 11 "desk" 0];
  claim_from_slice := table_from_slice [claim_of 11 "desk" 0];
  override_to_vec := table_to_vec [];
  override_from_slice := table_from_slice [] |}.

#[local] Instance toy_sessions_laws : SessionCodecLaws toy_sessions.
Proof. split; apply table_json. Qed.

Definition launched : World := (launch_session shop game desk_identity None None false empty_world).2.
Definition exited : World := (exit_session shop game desk_identity launched).2.
Definition refused : World := (launch_session shop game deck_identity None None false launched).2.

Lemma launch_runs : launch_session shop game desk_identity None None false empty_world = (Ok [], launched).
Proof. unfold launched. refine (run_Ok _ _ _ _). by_vm. Qed.

Lemma sessions_exclude_witness :
  (∃ peer, peer ∈ [peer_of (claim_of 11 "desk" 0)] ∧ sx_client_id peer = ci_client_id desk_identity) ∧
  same_at (claims_dir shop game) launched refused.
Proof.
  apply (sessions_exclude shop game desk_identity deck_identity None None None None false
    [peer_of (claim_of 11 "desk" 0)] empty_world launched launched refused).
  - intros k. simpl. lia.
  - by vm_compute.
  - discriminate.
  - apply launch_runs.
  - reflexivity.
  - intros bytes _ (p & b & record & _ & Hp & _). unfold parse_override in Hp. simpl in Hp.
    by destruct b as [|? [|]].
  - unfold refused. refine (run_Ok _ _ _ _). by_vm.
Defined.

Lemma exit_releases_witness :
  at_path (claims_dir shop game ++ [record_file_name (ci_client_id desk_identity)]) exited = None.
Proof.
  apply (exit_releases shop game desk_identity launched exited).
  unfold exited. refine (run_Ok _ _ _ _). by_vm.
Defined.

Lemma sessions_keep_saves_witness :
  same_at (app_dir shop game ++ [manifest_name 0]) one_world
    (exit_session shop game desk_identity one_world).2.
Proof.
  apply (sessions_keep_saves shop game
    (λ w w', ∃ r, exit_session shop game desk_identity w = (r, w')) (manifest_name 0)).
  - apply call_exit.
  - by vm_compute.
  - exists (exit_session shop game desk_identity one_world).1.
    by destruct (exit_session shop game desk_identity one_world).
Defined.

(** ** A sweep that is interrupted

    The host fails to open the app directory after the first manifest was moved. That
    manifest is in the work directory but not yet recorded as moved, so it is not put
    back; its own parent, still there, is now a head: a conflict nobody caused. *)

Definition failing (k : nat) : Host.
Proof.
  refine {| fault := λ n, if (n =? k)%nat
              then Some {| f_message := "Input/output error (os error 5)"; f_written := 0;
                           f_left := λ es, Some (Dir es) |} else None;
            clock_ms := λ _, 1_000_000; process_id := 7;
            dir_order := elements; dir_order_perm := λ _, reflexivity _ |}.
Defined.

Definition history : gmap string SaveManifest :=
  <[manifest_name 9 := made 1 [] 11 "desk" {["save.dat" := stored [1]]}]>
  (<[manifest_name 6 := made 2 [manifest_name 9] 11 "desk" {["save.dat" := stored [2]]}]>
   (<[manifest_name 7 := made 3 [manifest_name 6] 11 "desk" {["save.dat" := stored [3]]}]>
    {[manifest_name 8 := made 4 [manifest_name 7] 11 "desk" {["save.dat" := stored [4]]}]})).

Definition history_world : World :=
  world {[account := Dir {["480" := Dir (
    <[manifest_name 9 := put_by 9 [1]]> (<[manifest_name 6 := put_by 6 [2]]>
    (<[manifest_name 7 := put_by 7 [3]]> {[manifest_name 8 := put_by 8 [4]]})))]}]}.

Example interrupted_sweep :
  let w := (apply_gc_sweep (H := failing 10) shop (plan_of shop game history) history_world).2 in
  (collect_manifest_objects shop game history_world).1 = Ok history ∧
  heads_of history = [manifest_name 8] ∧
  (heads_of <$> (collect_manifest_objects shop game w).1) = Ok [manifest_name 8; manifest_name 9].
Proof. split; [by_vm|]. split; by_vm. Qed.

(** ** Opening and closing *)

Definition open_device : Path → Z := λ _, 1.
Definition opened : BR nat * Registry * World :=
  repository_coordination open_device ["repo"] empty_registry empty_world.
Definition released : Registry := release_coordination 0 opened.1.2.
Definition dropped : Registry * World := drop_coordination 0 ["repo"] released opened.2.

Lemma drop_spares_live_witness :
  ((∃ id', strong_count released id' ≠ 0%nat ∧ rg_root released !! id' = Some ["repo"]) →
   dropped.2 = opened.2) ∧
  ((∀ id', rg_root released !! id' = Some ["repo"] →
      strong_count released id' = 0%nat ∧ (id' ∈ rg_dropping released → id' = 0%nat)) →
   fault (w_calls opened.2) = None → is_dir (at_path (work_root_of ["repo"]) opened.2) = true →
   at_path (work_root_of ["repo"]) dropped.2 = None).
Proof.
  apply (drop_spares_live open_device 0 ["repo"] released opened.2 dropped.1 dropped.2).
  - exists empty_world. eapply rtc_l; [|eapply rtc_l; [|apply rtc_refl]].
    + eapply (step_open open_device ["repo"] empty_registry empty_world opened.1.1 opened.1.2 opened.2).
      unfold opened. by destruct (repository_coordination _ _ _ _) as [[]].
    + unfold released. apply step_release. by vm_compute.
  - apply (bool_decide_eq_true_1 _). by_vm.
  - by_vm.
  - unfold dropped. by destruct (drop_coordination _ _ _ _).
Defined.
