(* ===== verification/Syncthing.v ===== *)
(** * Syncthing: the client of [cloud-local/src/syncthing.rs]

    Before a sweep the coordinator asks Syncthing, which copies the folder between
    devices, whether it has indexed what will be deleted, and afterwards whether it has
    seen the deletion. The HTTP library, the URI parser and the JSON decoders are
    parameters; the service may answer anything, and may change the folder while it
    answers. *)

From Stdlib Require Import ZArith Lia.
From S2P Require Import Prelude RustStd CloudCore FileSystem StoreFiles FolderStore StoreGc.

Local Open Scope Z_scope.

Definition MAX_SYNCTHING_RESPONSE_BYTES : Z := 4 * 1024 * 1024.
Definition EVENT_LONG_POLL_SECONDS : Z := 60.
(** [Duration::from_secs(5)], in milliseconds *)
Definition EVENT_TRANSPORT_MARGIN : Z := 5 * 1000.
Definition GC_EVENT_TYPES : string := "StateChanged,LocalIndexUpdated,ConfigSaved".

Record SyncthingGcConfig := {
  sy_url : string; sy_api_key : string; sy_folder_id : string; sy_timeout_ms : Z;
}.
#[export] Instance SyncthingGcConfig_eq_dec : EqDecision SyncthingGcConfig.
Proof. solve_decision. Defined.
#[export] Program Instance SyncthingGcConfig_countable : Countable SyncthingGcConfig :=
  inj_countable' (λ c, (sy_url c, sy_api_key c, sy_folder_id c, sy_timeout_ms c))
    (λ '(u, k, f, t), Build_SyncthingGcConfig u k f t) _.
Next Obligation. by intros []. Qed.

Record SyncthingBoundary := {
  sb_sequence : Z; sb_relative_app : string; sb_deleted_files : list string;
}.

Record SyncthingEventBatch := { ev_last_id : option Z; ev_wakes_gc : bool }.

Definition retryable (message : string) : BackendError :=
  {| be_message := message; be_retryable := true |}.

(** [str::trim] *)
Definition trimmed (s : string) : string := bytes_str (trim (str_bytes s)).

(** ** What the service answers *)

Record FolderStatus := {
  fs_need_bytes : Z; fs_need_deletes : Z; fs_need_directories : Z; fs_need_files : Z;
  fs_need_symlinks : Z; fs_need_total_items : Z; fs_pull_errors : Z; fs_sequence : Z;
  fs_state : string;
}.

Definition ready (s : FolderStatus) : bool :=
  bool_decide (fs_state s = "idle")
  && (fs_need_bytes s =? 0) && (fs_need_deletes s =? 0) && (fs_need_directories s =? 0)
  && (fs_need_files s =? 0) && (fs_need_symlinks s =? 0) && (fs_need_total_items s =? 0)
  && (fs_pull_errors s =? 0).

Record VersioningConfig := { vc_kind : string }.

Record FolderConfig := {
  fc_id : string; fc_path : string; fc_paused : bool; fc_folder_type : string;
  fc_ignore_delete : bool; fc_versioning : VersioningConfig;
}.

Record IgnorePatterns := { ig_ignore : list string; ig_expanded : list string }.

Definition is_rule (rule : string) : bool :=
  let rule := trim (str_bytes rule) in
  negb (bool_decide (rule = [])) && negb (bool_decide (str_bytes "//" `prefix_of` rule)).

Definition has_effective_rules (patterns : IgnorePatterns) : bool :=
  existsb is_rule (ig_ignore patterns ++ ig_expanded patterns).

Record ConfigSync := { cs_config_in_sync : bool }.

Record LocalFileRecord := {
  lf_deleted : bool; lf_invalid : bool; lf_ignored : bool; lf_size : Z;
}.
Record FileRecord := { fr_local : option LocalFileRecord }.

Record SyncthingEventData := { sd_folder : option string; sd_to : option string }.
Record SyncthingEvent := { se_id : Z; se_kind : string; se_data : SyncthingEventData }.

Definition wakes_gc (folder_id : string) (event : SyncthingEvent) : bool :=
  if bool_decide (se_kind event = "ConfigSaved") then true
  else if bool_decide (se_kind event = "LocalIndexUpdated")
  then bool_decide (sd_folder (se_data event) = Some folder_id)
  else if bool_decide (se_kind event = "StateChanged")
  then bool_decide (sd_folder (se_data event) = Some folder_id)
       && bool_decide (sd_to (se_data event) = Some "idle")
  else false.

(** ** Internet addresses: [IpAddr::from_str] and [is_loopback] *)

Definition to_digit (radix b : Z) : option Z :=
  let d := if (48 <=? b) && (b <=? 57) then b - 48
           else if (97 <=? b) && (b <=? 122) then b - 87
           else if (65 <=? b) && (b <=? 90) then b - 55 else radix in
  if d <? radix then Some d else None.

(** The digits at the front with their number; more than [max] are refused. *)
Fixpoint read_digits (radix : Z) (max : nat) (acc : Z) (count : nat) (l : list Z)
    : option (Z * nat * list Z) :=
  match l with
  | [] => Some (acc, count, [])
  | b :: rest =>
      match to_digit radix b with
      | None => Some (acc, count, l)
      | Some d => if (max <=? count)%nat then None
                  else read_digits radix max (acc * radix + d) (S count) rest
      end
  end.

Definition read_number (radix : Z) (max : nat) (allow_zero_prefix : bool) (limit : Z)
    (l : list Z) : option (Z * list Z) :=
  '(v, count, rest) ← read_digits radix max 0 0 l;
  if (count =? 0)%nat then None
  else if negb allow_zero_prefix && bool_decide (head l = Some 48) && (1 <? count)%nat then None
  else if limit <? v then None else Some (v, rest).

Definition read_given_char (c : Z) (l : list Z) : option (list Z) :=
  match l with b :: l => if b =? c then Some l else None | [] => None end.

Definition read_separator {A} (sep : Z) (index : nat) (inner : list Z → option (A * list Z))
    (l : list Z) : option (A * list Z) :=
  match index with O => inner l | S _ => l ← read_given_char sep l; inner l end.

Definition octet (l : list Z) : option (Z * list Z) := read_number 10 3 false 255 l.

Definition read_ipv4 (l : list Z) : option ((Z * Z * Z * Z) * list Z) :=
  '(a, l) ← read_separator 46 0 octet l;
  '(b, l) ← read_separator 46 1 octet l;
  '(c, l) ← read_separator 46 2 octet l;
  '(d, l) ← read_separator 46 3 octet l;
  Some ((a, b, c, d), l).

(** [n] groups are left; an address in dotted form may take the place of two. *)
Fixpoint read_groups (n index : nat) (l : list Z) : list Z * bool * list Z :=
  match n with
  | O => ([], false, l)
  | S n' =>
      match (if (1 <=? n')%nat then read_separator 58 index read_ipv4 l else None) with
      | Some ((a, b, c, d), rest) => ([a * 256 + b; c * 256 + d], true, rest)
      | None =>
          match read_separator 58 index (read_number 16 4 true 65535) l with
          | None => ([], false, l)
          | Some (g, rest) =>
              let '(gs, dotted, rest) := read_groups n' (S index) rest in (g :: gs, dotted, rest)
          end
      end
  end.

Definition read_ipv6 (l : list Z) : option (list Z * list Z) :=
  let '(front, dotted, l) := read_groups 8 0 l in
  if (length front =? 8)%nat then Some (front, l)
  else if dotted : bool then None
  else
    l ← read_given_char 58 l;
    l ← read_given_char 58 l;
    let '(back, _, l) := read_groups (8 - S (length front)) 0 l in
    Some (front ++ replicate (8 - length front - length back) 0 ++ back, l).

Inductive IpAddr := V4 (a b c d : Z) | V6 (groups : list Z).

Definition parse_ip (s : string) : option IpAddr :=
  let whole {A} (r : option (A * list Z)) :=
    match r with Some (a, []) => Some a | _ => None end in
  match read_ipv4 (str_bytes s) with
  | Some ((a, b, c, d), rest) => match rest with [] => Some (V4 a b c d) | _ => None end
  | None => V6 <$> whole (read_ipv6 (str_bytes s))
  end.

Definition is_loopback (a : IpAddr) : bool :=
  match a with
  | V4 a _ _ _ => a =? 127
  | V6 groups => bool_decide (groups = [0; 0; 0; 0; 0; 0; 0; 1])
  end.

Definition is_loopback_host (host : string) : bool :=
  if bool_decide (to_ascii_lowercase host = "localhost") then true
  else match parse_ip host with Some a => is_loopback a | None => false end.

(** ** Paths *)

(** The components of a path in text form. *)
Definition path_components (s : string) : Path :=
  bytes_str <$> filter (λ c, c ≠ [] ∧ c ≠ str_bytes ".") (split_slash (str_bytes s)).

(** [Path::join] *)
Definition join_text (p : Path) (s : string) : Path :=
  if bool_decide (head (str_bytes s) = Some 47) then path_components s
  else p ++ path_components s.

(** [Path::strip_prefix] *)
Fixpoint strip_path (base p : Path) : option Path :=
  match base, p with
  | [], _ => Some p
  | b :: base, c :: p => if bool_decide (b = c) then strip_path base p else None
  | _ :: _, [] => None
  end.

(** The walk of [canonicalize], in a tree without links. *)
Fixpoint walk (n : Node) (here : Path) (components : list (list Z)) : option Path :=
  match components with
  | [] => Some here
  | c :: components =>
      if negb (is_dir (get here n)) then None
      else if bool_decide (c = []) || bool_decide (c = str_bytes ".") then walk n here components
      else if bool_decide (c = str_bytes "..") then walk n (parent here) components
      else
        let there := here ++ [bytes_str c] in
        if bool_decide (is_Some (get there n)) then walk n there components else None
  end.

Definition join_slash (text part : string) : string :=
  if bool_decide (text = "") then part else (text ++ "/" ++ part)%string.

Definition path_to_syncthing (p : Path) : BR string :=
  if existsb (λ c, negb (is_utf8 c)) p then Err (permanent "local cloud path is not UTF-8")
  else Ok (foldl join_slash "" p).

(** ** The HTTP library, the URI parser and serde_json *)

Record HttpRequest := {
  rq_post : bool; rq_url : string; rq_api_key : string; rq_query : list (string * string);
  rq_timeout_ms : Z;
}.

(** [hp_body limit]: the body read as text, up to [limit] bytes. *)
Record HttpResponse := { hp_status : Z; hp_body : Z → result string string }.

Notation HttpAnswer := (result string HttpResponse).

Record Uri := {
  ur_scheme : option string; ur_authority : option string; ur_host : option string;
  ur_query : option string;
}.

Class SyncthingCodec := {
  parse_uri : string → option Uri;
  config_sync_from_str : string → result string ConfigSync;
  folders_from_str : string → result string (list FolderConfig);
  ignores_from_str : string → result string IgnorePatterns;
  status_from_str : string → result string FolderStatus;
  file_from_str : string → result string FileRecord;
  events_from_str : string → result string (list SyncthingEvent);
}.

Definition is_success (status : Z) : bool := (200 <=? status) && (status <=? 299).

Definition status_text (status : Z) : string :=
  ("Syncthing request returned HTTP " ++ bytes_str (dec_text status))%string.

Definition read_json_response {T} (decode : string → result string T) (response : HttpAnswer)
    (client_errors_retryable : bool) : BR T :=
  match response with
  | Err error => Err (retryable ("Syncthing request failed: " ++ error))
  | Ok response =>
      let status := hp_status response in
      if negb (is_success status) then
        Err {| be_message := status_text status;
               be_retryable := client_errors_retryable || (status =? 408) || (status =? 429)
                               || (500 <=? status) |}
      else
        match hp_body response MAX_SYNCTHING_RESPONSE_BYTES with
        | Err error => Err (retryable ("invalid Syncthing response: " ++ error))
        | Ok body =>
            match decode body with
            | Err error => Err (retryable ("invalid Syncthing response: " ++ error))
            | Ok value => Ok value
            end
        end
  end.

Section client.
Context {H : Host} {SC : SyncthingCodec}.
(** The answer to the [k]-th call, and the tree it leaves. *)
Context (http : nat → HttpRequest → Node → HttpAnswer * Node).
(** The working directory, and what the file system says the length of a directory is. *)
Context (cwd : Path) (dir_len : gmap string Node → Z).
Context (c : SyncthingGcConfig).

Definition http_call {E} (r : HttpRequest) : ST E HttpAnswer := λ w,
  let '(answer, n) := http (w_calls w) r (w_root w) in (Ok answer, after_call n w).

Definition endpoint : BR string :=
  let endpoint := bytes_str (trim_end_matches 47 (trim (str_bytes (sy_url c)))) in
  if bool_decide (endpoint = "") || bool_decide (trimmed (sy_api_key c) = "")
     || bool_decide (trimmed (sy_folder_id c) = "")
  then Err (permanent "incomplete Syncthing configuration")
  else
    match parse_uri endpoint with
    | None => Err (permanent "invalid Syncthing URL")
    | Some uri =>
        if negb (bool_decide (ur_scheme uri = Some "http")
                 || bool_decide (ur_scheme uri = Some "https"))
           || bool_decide (ur_authority uri = None) || negb (bool_decide (ur_query uri = None))
        then Err (permanent "invalid Syncthing URL")
        else
          match ur_host uri with
          | None => Err (permanent "invalid Syncthing URL")
          | Some host =>
              if bool_decide (ur_scheme uri = Some "http") && negb (is_loopback_host host)
              then Err (permanent "remote Syncthing URL must use HTTPS")
              else Ok endpoint
          end
    end.

Definition validate_for_gc : BR unit :=
  match endpoint with Ok _ => Ok tt | Err e => Err e end.

(** The time limits of [agent] and [event_agent]. *)
Definition agent_timeout : Z := Z.max (sy_timeout_ms c) 1.
Definition event_agent_timeout : Z :=
  Z.max (Z.max (sy_timeout_ms c) 1) (EVENT_LONG_POLL_SECONDS * 1000 + EVENT_TRANSPORT_MARGIN).

Definition folder_query : string * string := ("folder", trimmed (sy_folder_id c)).

Definition get_json {T} (decode : string → result string T) (url : string)
    (query : list (string * string)) : Op T :=
  response ← http_call {| rq_post := false; rq_url := url; rq_api_key := trimmed (sy_api_key c);
                          rq_query := query; rq_timeout_ms := agent_timeout |};
  lift (read_json_response decode response true).

Definition scan (endpoint : string) (relative : option string) : Op unit :=
  response ← http_call {| rq_post := true; rq_url := endpoint ++ "/rest/db/scan";
                          rq_api_key := trimmed (sy_api_key c);
                          rq_query := folder_query :: match relative with
                                                      | Some relative => [("sub", relative)]
                                                      | None => []
                                                      end;
                          rq_timeout_ms := agent_timeout |};
  match response with
  | Err error => throw (retryable ("Syncthing request failed: " ++ error))
  | Ok response =>
      if is_success (hp_status response) then mret tt
      else throw (retryable (status_text (hp_status response)))
  end.

Definition folder_status (endpoint : string) : Op FolderStatus :=
  get_json status_from_str (endpoint ++ "/rest/db/status") [folder_query].

Definition indexed_file (endpoint relative : string) : Op FileRecord :=
  get_json file_from_str (endpoint ++ "/rest/db/file") [folder_query; ("file", relative)].

(** [Path::new(text).canonicalize()] *)
Definition canonicalize_text (text : string) : ST IoErr Path :=
  syscall (λ n,
    let start := if bool_decide (head (str_bytes text) = Some 47) then [] else cwd in
    match (if bool_decide (text = "") then None
           else walk n start (split_slash (str_bytes text))) with
    | Some p => Ok (p, n)
    | None => Err NotFound
    end).

Definition check_folder (folder : FolderConfig) : BR unit :=
  if fc_paused folder then Err (retryable "Syncthing folder is paused")
  else if negb (bool_decide (fc_folder_type folder = "sendreceive"))
  then Err (permanent "Syncthing folder must use send-receive mode")
  else if fc_ignore_delete folder then Err (permanent "Syncthing folder must propagate deletions")
  else if negb (bool_decide (trimmed (vc_kind (fc_versioning folder)) = ""))
  then Err (permanent "Syncthing file versioning must be disabled for local cloud")
  else Ok tt.

Definition validate_folder (endpoint : string) (repository : Path) : Op unit :=
  sync ← get_json config_sync_from_str (endpoint ++ "/rest/system/config/insync") [];
  if negb (cs_config_in_sync sync) then throw (retryable "Syncthing configuration is not active")
  else
    folders ← get_json folders_from_str (endpoint ++ "/rest/config/folders") [];
    match find (λ folder, bool_decide (fc_id folder = trimmed (sy_folder_id c))) folders with
    | None => throw (permanent "Syncthing folder is not configured")
    | Some folder =>
        _ ← lift (check_folder folder);
        folder_root ← map_err (λ _, permanent "Syncthing folder path is unavailable")
                        (canonicalize_text (fc_path folder));
        _ ← map_err (λ _, permanent "local cloud path is unavailable") (fs_metadata repository);
        if negb (bool_decide (folder_root = repository))
        then throw (permanent "Syncthing folder path must equal the local cloud repository")
        else
          ignores ← get_json ignores_from_str (endpoint ++ "/rest/db/ignores") [folder_query];
          if has_effective_rules ignores
          then throw (permanent "Syncthing folder must not ignore local cloud paths")
          else mret tt
    end.

(** [entry.metadata().len()] *)
Definition node_len (n : Node) : Z :=
  match n with
  | File bytes => Z.of_nat (length bytes)
  | Dir es => dir_len es
  | Special => 0
  end.

(** The text form of a path below the repository. *)
Definition relative_text (repository path : Path) : BR string :=
  match strip_path repository path with
  | None => Err (permanent "local cloud manifest escaped the repository")
  | Some relative => path_to_syncthing relative
  end.

Definition index_incomplete : BackendError := retryable "Syncthing local index is incomplete".

(** One file of the tree: its text form, once the service knows it with its length. *)
Definition verify_file (endpoint : string) (repository path : Path) : Op string :=
  relative ← lift (relative_text repository path);
  indexed ← indexed_file endpoint relative;
  local ← lift (ok_or (fr_local indexed) index_incomplete);
  metadata ← io (fs_metadata path);
  if lf_deleted local || lf_invalid local || lf_ignored local
     || negb (lf_size local =? node_len metadata)
  then throw index_incomplete else mret relative.

(** One directory: the directories below go on top of the pending ones. *)
Fixpoint index_entries (endpoint : string) (repository current : Path)
    (l : list (string * Node)) (pending : list Path) (indexed_files : list string)
    : Op (list Path * list string) :=
  match l with
  | [] => mret (pending, indexed_files)
  | (name, node) :: l =>
      let path := current ++ [name] in
      _ ← io fs_touch;
      _ ← io fs_touch;
      match node with
      | Dir _ => index_entries endpoint repository current l (path :: pending) indexed_files
      | Special => throw (permanent "local cloud manifest contains an unsupported entry")
      | File _ =>
          relative ← verify_file endpoint repository path;
          index_entries endpoint repository current l pending (indexed_files ++ [relative])
      end
  end.

Definition out_of_fuel : BackendError := permanent "the walk of the tree did not end".

Fixpoint index_tree (fuel : nat) (endpoint : string) (repository : Path) (pending : list Path)
    (indexed_files : list string) : Op (list string) :=
  match pending with
  | [] => mret indexed_files
  | current :: pending =>
      match fuel with
      | O => throw out_of_fuel
      | S fuel =>
          entries ← io (fs_read_dir current);
          '(pending, indexed_files) ←
            index_entries endpoint repository current entries pending indexed_files;
          index_tree fuel endpoint repository pending indexed_files
      end
  end.

Definition verify_indexed_tree (fuel : nat) (endpoint : string) (repository directory : Path)
    : Op (list string) :=
  present ← path_is_dir directory;
  if negb present then throw (retryable "local cloud manifest is unavailable")
  else
    relative_directory ← lift (relative_text repository directory);
    indexed ← indexed_file endpoint relative_directory;
    local ← lift (ok_or (fr_local indexed) index_incomplete);
    if lf_deleted local || lf_invalid local || lf_ignored local then throw index_incomplete
    else index_tree fuel endpoint repository [directory] [relative_directory].

Definition ensure_ready_for_app (repository : Path) (relative_app : string) : Op unit :=
  endpoint ← lift endpoint;
  _ ← validate_folder endpoint repository;
  present ← path_exists (join_text repository relative_app);
  _ ← scan endpoint (if present : bool then Some relative_app else None);
  before ← folder_status endpoint;
  if negb (ready before) then throw (retryable "Syncthing folder is not locally settled")
  else
    after ← folder_status endpoint;
    if negb (ready after) || negb (fs_sequence after =? fs_sequence before)
    then throw (retryable "Syncthing folder changed during readiness check")
    else mret tt.

(** The trees of some manifests, one after the other. *)
Fixpoint verify_manifests (fuel : nat) (endpoint : string) (repository : Path) (scope : string)
    (ids : list string) : Op (list string) :=
  match ids with
  | [] => mret []
  | id :: ids =>
      files ← verify_indexed_tree fuel endpoint repository
                (join_text (join_text repository scope) id);
      rest ← verify_manifests fuel endpoint repository scope ids;
      mret (files ++ rest)
  end.

Definition prepare_for_gc (fuel : nat) (repository : Path) (report : GcReport)
    : Op SyncthingBoundary :=
  endpoint ← lift endpoint;
  _ ← validate_folder endpoint repository;
  _ ← scan endpoint (Some (gr_manifest_scope report));
  status ← folder_status endpoint;
  if negb (ready status) then throw (retryable "Syncthing folder is not locally settled")
  else
    _ ← verify_manifests fuel endpoint repository (gr_manifest_scope report)
          (gr_retained_manifests report);
    deleted_files ← verify_manifests fuel endpoint repository (gr_manifest_scope report)
                      (gr_candidate_manifests report);
    mret {| sb_sequence := fs_sequence status; sb_relative_app := gr_manifest_scope report;
            sb_deleted_files := dedup (sort_by_key id deleted_files) |}.

Definition not_indexed : BackendError := retryable "Syncthing did not index the local cloud deletion".

Definition publish_gc (boundary : SyncthingBoundary) : Op unit :=
  endpoint ← lift endpoint;
  _ ← scan endpoint (Some (sb_relative_app boundary));
  status ← folder_status endpoint;
  if negb (ready status) || (fs_sequence status <=? sb_sequence boundary) then throw not_indexed
  else
    for_each (λ relative,
      indexed ← indexed_file endpoint relative;
      if from_option lf_deleted false (fr_local indexed) then mret tt else throw not_indexed)
      (sb_deleted_files boundary).

Definition event_query (since : option Z) : list (string * string) :=
  [("events", GC_EVENT_TYPES); ("since", bytes_str (dec_text (default 0 since)));
   ("timeout", bytes_str (dec_text EVENT_LONG_POLL_SECONDS))]
  ++ match since with None => [("limit", "1")] | Some _ => [] end.

(** [Iterator::max] *)
Definition max_id (ids : list Z) : option Z :=
  foldl (λ best id, Some (match best with Some b => Z.max b id | None => id end)) None ids.

Definition wait_for_gc_events (since : option Z) : Op SyncthingEventBatch :=
  endpoint ← lift endpoint;
  response ← http_call {| rq_post := false; rq_url := endpoint ++ "/rest/events";
                          rq_api_key := trimmed (sy_api_key c); rq_query := event_query since;
                          rq_timeout_ms := event_agent_timeout |};
  events ← lift (read_json_response events_from_str response false);
  let last_id := match max_id (se_id <$> events) with Some id => Some id | None => since end in
  if match since with
     | Some since => existsb (λ event, se_id event <=? since) events
     | None => false
     end
  then throw (retryable "Syncthing event cursor did not advance")
  else mret {| ev_last_id := last_id;
               ev_wakes_gc := existsb (wakes_gc (trimmed (sy_folder_id c))) events |}.
End client.
