(* ===== verification/SyncthingProofs.v ===== *)
(** * SyncthingProofs: what the Syncthing client guarantees

    Requests go only to a service on this machine or over HTTPS; the walk over a
    manifest ends and covers every file; what is deleted was indexed before and is
    confirmed afterwards. *)

From Stdlib Require Import ZArith Lia.
From S2P Require Import Prelude RustStd CloudCore FileSystem StoreFiles StoreFilesProofs.
From S2P Require Import FolderStore FolderStoreProofs StoreGc Syncthing.

Local Open Scope Z_scope.

(** ** Frames *)

Section frames.
Context {H : Host} {SC : SyncthingCodec}.
Context (http : nat → HttpRequest → Node → HttpAnswer * Node).
Context (cwd : Path) (dir_len : gmap string Node → Z) (c : SyncthingGcConfig).
(** A relation that reading keeps, and that the service keeps while it answers. *)
Context (R : relation World) `{!PreOrder R}.
Context (Hsame : ∀ w w', same_world w w' → R w w').
Context (Hhttp : ∀ k r w, R w (after_call (http k r (w_root w)).2 w)).

Lemma keeps_http_call {E} r : keeps R (http_call http r : ST E _).
Proof.
  intros w x w'. unfold http_call. pose proof (Hhttp (w_calls w) r w) as Hr.
  destruct (http _ _ _) as [a n]. intros [= <- <-]. done.
Qed.

Lemma keeps_reading {E A} (m : ST E A) : keeps same_world m → keeps R m.
Proof. intros Hm w r w' Hw. by eapply Hsame, Hm. Qed.

Local Hint Resolve keeps_http_call : keeps.
Local Hint Extern 2 (keeps R _) => apply keeps_reading; eauto 6 with keeps : keeps.

Lemma keeps_get_json {T} (decode : string → result string T) url query :
  keeps R (get_json http c decode url query).
Proof. unfold get_json. keeps_tac. Qed.
Local Hint Resolve keeps_get_json : keeps.

Lemma keeps_scan endpoint relative : keeps R (scan http c endpoint relative).
Proof. unfold scan. keeps_tac. Qed.
Local Hint Resolve keeps_scan : keeps.

Lemma keeps_status endpoint : keeps R (folder_status http c endpoint).
Proof. unfold folder_status. keeps_tac. Qed.
Local Hint Resolve keeps_status : keeps.

Lemma keeps_canonicalize_text text : keeps R (canonicalize_text cwd text).
Proof.
  apply keeps_reading, keeps_syscall_read. intros n a n'. cbv zeta.
  destruct (if bool_decide (text = "") then _ else _); [|done]. by intros [= <- <-].
Qed.
Local Hint Resolve keeps_canonicalize_text : keeps.

Lemma keeps_validate_folder endpoint repository :
  keeps R (validate_folder http cwd c endpoint repository).
Proof. unfold validate_folder. keeps_tac. Qed.
Local Hint Resolve keeps_validate_folder : keeps.

Lemma keeps_verify_file endpoint repository path :
  keeps R (verify_file http dir_len c endpoint repository path).
Proof. unfold verify_file, indexed_file. keeps_tac. Qed.
Local Hint Resolve keeps_verify_file : keeps.

Lemma keeps_index_entries endpoint repository current l pending files :
  keeps R (index_entries http dir_len c endpoint repository current l pending files).
Proof.
  revert pending files. induction l as [|[name node] l IH]; intros; simpl; keeps_tac.
Qed.
Local Hint Resolve keeps_index_entries : keeps.

Lemma keeps_index_tree fuel endpoint repository pending files :
  keeps R (index_tree http dir_len c fuel endpoint repository pending files).
Proof.
  revert pending files. induction fuel as [|fuel IH]; intros [|current pending] files; simpl; keeps_tac.
Qed.
Local Hint Resolve keeps_index_tree : keeps.

Lemma keeps_verify_tree fuel endpoint repository directory :
  keeps R (verify_indexed_tree http dir_len c fuel endpoint repository directory).
Proof. unfold verify_indexed_tree, indexed_file. keeps_tac. Qed.
Local Hint Resolve keeps_verify_tree : keeps.

Lemma keeps_verify_manifests fuel endpoint repository scope ids :
  keeps R (verify_manifests http dir_len c fuel endpoint repository scope ids).
Proof. induction ids as [|id ids IH]; simpl; keeps_tac. Qed.
Local Hint Resolve keeps_verify_manifests : keeps.

Lemma keeps_prepare_for_gc fuel repository report :
  keeps R (prepare_for_gc http cwd dir_len c fuel repository report).
Proof. unfold prepare_for_gc. keeps_tac. Qed.

Lemma keeps_publish_gc boundary : keeps R (publish_gc http c boundary).
Proof. unfold publish_gc, indexed_file. keeps_tac. Qed.
End frames.

(** ** Where requests go *)

Section confined.
Context {H : Host} {SC : SyncthingCodec}.

(** A request with the configured key, below an endpoint that is reached over HTTPS or is
    this machine. *)
Definition confined (c : SyncthingGcConfig) (r : HttpRequest) : Prop :=
  ∃ e path uri host,
    endpoint c = Ok e ∧ rq_url r = (e ++ "/rest/" ++ path)%string ∧
    rq_api_key r = trimmed (sy_api_key c) ∧ parse_uri e = Some uri ∧ ur_host uri = Some host ∧
    (ur_scheme uri = Some "https" ∨ ur_scheme uri = Some "http" ∧ is_loopback_host host = true).

Lemma endpoint_confined c e path r :
  endpoint c = Ok e → rq_url r = (e ++ "/rest/" ++ path)%string →
  rq_api_key r = trimmed (sy_api_key c) → confined c r.
Proof.
  intros He Hurl Hkey. pose proof He as He'. unfold endpoint in He'.
  destruct (_ || _ || _); [done|]. destruct (parse_uri _) as [uri|] eqn:Hu; [|done].
  destruct (negb _ || _ || _) eqn:Hs; [done|]. destruct (ur_host uri) as [host|] eqn:Hh; [|done].
  destruct (_ && _) eqn:Hl; [done|]. injection He' as Heq. rewrite Heq in Hu.
  exists e, path, uri, host. split_and!; try done.
  apply orb_false_iff in Hs as [[Hs _]%orb_false_iff _].
  apply negb_false_iff, orb_true_iff in Hs as [Hs|Hs]; [|left; by apply bool_decide_eq_true in Hs].
  rewrite Hs in Hl. right. apply bool_decide_eq_true in Hs. split; [done|].
  by destruct (is_loopback_host host).
Qed.

(** Two runs that cannot be told apart. *)
Definition same_run {E A} : relation (ST E A) := pointwise_relation _ (=).

Lemma same_run_refl {E A} (m : ST E A) : same_run m m.
Proof. by intros w. Qed.
Lemma same_run_bind {E A B} (m1 m2 : ST E A) (k1 k2 : A → ST E B) :
  same_run m1 m2 → (∀ a, same_run (k1 a) (k2 a)) → same_run (m1 ≫= k1) (m2 ≫= k2).
Proof.
  intros Hm Hk w. unfold mbind, ST_bind. rewrite (Hm w). destruct (m2 w) as [[]]; [apply Hk|done].
Qed.
Lemma same_run_lift_bind {E A B} (x : result E A) (k1 k2 : A → ST E B) :
  (∀ a, x = Ok a → same_run (k1 a) (k2 a)) → same_run (lift x ≫= k1) (lift x ≫= k2).
Proof. intros Hk w. unfold mbind, ST_bind, lift. destruct x; [by apply Hk|done]. Qed.
Lemma same_run_for_each {E A} (b1 b2 : A → ST E unit) l :
  (∀ x, same_run (b1 x) (b2 x)) → same_run (for_each b1 l) (for_each b2 l).
Proof. intros Hb. induction l as [|x l IH]; simpl; [apply same_run_refl|by apply same_run_bind]. Qed.

Context (c : SyncthingGcConfig) (cwd : Path) (dir_len : gmap string Node → Z).
Context (http1 http2 : nat → HttpRequest → Node → HttpAnswer * Node).
Context (Hagree : ∀ k r n, confined c r → http1 k r n = http2 k r n).

Ltac run_tac := repeat first
  [ progress intros
  | simple apply same_run_lift_bind; intros
  | simple apply same_run_for_each
  | simple apply same_run_bind
  | match goal with |- same_run (match ?x with _ => _ end) (match ?x with _ => _ end) => destruct x end
  | match goal with |- same_run (let '(_, _) := ?x in _) _ => destruct x end
  | solve [apply same_run_refl | eauto] ].

Section at_endpoint.
Context (e : string) (He : endpoint c = Ok e).

Lemma same_http_call {E} r path :
  rq_url r = (e ++ "/rest/" ++ path)%string → rq_api_key r = trimmed (sy_api_key c) →
  same_run (http_call http1 r : ST E _) (http_call http2 r).
Proof. intros Hu Hk w. unfold http_call. by rewrite Hagree by eauto using endpoint_confined. Qed.

Lemma same_get_json {T} (decode : string → result string T) path query :
  same_run (get_json http1 c decode (e ++ "/rest/" ++ path) query)
           (get_json http2 c decode (e ++ "/rest/" ++ path) query).
Proof.
  unfold get_json. apply same_run_bind; [by eapply same_http_call|]. intros. apply same_run_refl.
Qed.

Lemma same_scan relative : same_run (scan http1 c e relative) (scan http2 c e relative).
Proof.
  unfold scan. apply same_run_bind; [by apply (same_http_call _ "db/scan")|]. run_tac.
Qed.
Lemma same_status : same_run (folder_status http1 c e) (folder_status http2 c e).
Proof. apply (same_get_json status_from_str "db/status"). Qed.
Lemma same_indexed relative : same_run (indexed_file http1 c e relative) (indexed_file http2 c e relative).
Proof. apply (same_get_json file_from_str "db/file"). Qed.

Lemma same_validate_folder repository :
  same_run (validate_folder http1 cwd c e repository) (validate_folder http2 cwd c e repository).
Proof.
  unfold validate_folder.
  apply same_run_bind; [apply (same_get_json config_sync_from_str "system/config/insync")|]. intros sync.
  destruct (negb _); [apply same_run_refl|].
  apply same_run_bind; [apply (same_get_json folders_from_str "config/folders")|]. intros folders.
  destruct (find _ _); [|apply same_run_refl]. apply same_run_bind; [apply same_run_refl|intros _].
  apply same_run_bind; [apply same_run_refl|intros root]. apply same_run_bind; [apply same_run_refl|intros _].
  destruct (negb _); [apply same_run_refl|].
  apply same_run_bind; [apply (same_get_json ignores_from_str "db/ignores")|]. intros; apply same_run_refl.
Qed.

Lemma same_index_entries repository current l pending files :
  same_run (index_entries http1 dir_len c e repository current l pending files)
           (index_entries http2 dir_len c e repository current l pending files).
Proof.
  revert pending files. induction l as [|[name node] l IH]; intros; simpl; [apply same_run_refl|].
  pose proof same_indexed. unfold verify_file. run_tac.
Qed.

Lemma same_index_tree fuel repository pending files :
  same_run (index_tree http1 dir_len c fuel e repository pending files)
           (index_tree http2 dir_len c fuel e repository pending files).
Proof.
  pose proof same_index_entries. revert pending files.
  induction fuel as [|fuel IH]; intros [|current pending] files; simpl; run_tac.
Qed.

Lemma same_verify_manifests fuel repository scope ids :
  same_run (verify_manifests http1 dir_len c fuel e repository scope ids)
           (verify_manifests http2 dir_len c fuel e repository scope ids).
Proof.
  pose proof same_index_tree. pose proof same_indexed.
  induction ids as [|id ids IH]; simpl; [apply same_run_refl|]. unfold verify_indexed_tree. run_tac.
Qed.
End at_endpoint.

(** C37 [requests_confined]: every request of the client carries the configured key to an
    endpoint over HTTPS or on this machine: two services that answer those requests alike
    cannot be told apart, whatever they would answer to others. *)
Theorem requests_confined fuel repository report relative boundary since :
  same_run (prepare_for_gc http1 cwd dir_len c fuel repository report)
           (prepare_for_gc http2 cwd dir_len c fuel repository report) ∧
  same_run (publish_gc http1 c boundary) (publish_gc http2 c boundary) ∧
  same_run (wait_for_gc_events http1 c since) (wait_for_gc_events http2 c since) ∧
  same_run (ensure_ready_for_app http1 cwd c repository relative)
           (ensure_ready_for_app http2 cwd c repository relative).
Proof.
  pose proof same_validate_folder. pose proof same_scan. pose proof same_status.
  pose proof same_verify_manifests. pose proof same_indexed.
  split_and!; [unfold prepare_for_gc|unfold publish_gc|unfold wait_for_gc_events|
               unfold ensure_ready_for_app]; run_tac.
  eapply (same_http_call _ ltac:(eassumption) _ "events"); done.
Qed.
End confined.

(** ** The walk over a manifest *)

(** The directories of a tree. *)
Fixpoint dirs (n : Node) : nat :=
  match n with
  | Dir es => S (map_fold (λ _ x acc, dirs x + acc)%nat 0%nat es)
  | _ => 0%nat
  end.

(** A regular file at or below [p]. *)
Definition file_below (p q : Path) (bytes : list Z) (w : World) : Prop :=
  p `prefix_of` q ∧ at_path q w = Some (File bytes).

Lemma at_snoc p name es w :
  at_path p w = Some (Dir es) → at_path (p ++ [name]) w = es !! name.
Proof. intros Hp. unfold at_path in *. rewrite get_snoc, Hp. done. Qed.

Lemma at_below p name q es w :
  at_path p w = Some (Dir es) → at_path (p ++ name :: q) w = es !! name ≫= get q.
Proof.
  intros Hp. unfold at_path in *. rewrite get_app, Hp. simpl. by destruct (es !! name).
Qed.

Lemma file_below_dir p q bytes es w :
  at_path p w = Some (Dir es) →
  file_below p q bytes w ↔
  ∃ name node, es !! name = Some node ∧ file_below (p ++ [name]) q bytes w.
Proof.
  intros Hp. split.
  - intros [[r ->] Hf]. destruct r as [|name r]; [rewrite app_nil_r, Hp in Hf; done|].
    pose proof Hf as Hf'. rewrite (at_below _ _ _ _ _ Hp) in Hf'.
    destruct (es !! name) as [node|] eqn:Hn; [|done]. exists name, node. split; [done|].
    split; [|done]. exists r. by rewrite <-app_assoc.
  - intros (name & node & Hn & [[r ->] Hf]). split; [|done]. exists (name :: r). by rewrite <-app_assoc.
Qed.

Lemma file_below_file p q b bytes w :
  at_path p w = Some (File b) → file_below p q bytes w ↔ q = p ∧ bytes = b.
Proof.
  intros Hp. split; [|intros [-> ->]; by split].
  intros [[r ->] Hf]. unfold at_path in *. rewrite get_app, Hp in Hf.
  destruct r; simpl in Hf; [|done]. injection Hf as ->. by rewrite app_nil_r.
Qed.

Lemma file_below_special p q bytes w : at_path p w = Some Special → ¬ file_below p q bytes w.
Proof.
  intros Hp [[r ->] Hf]. unfold at_path in *. rewrite get_app, Hp in Hf. by destruct r.
Qed.

Lemma get_json_Ok {SC : SyncthingCodec} {T} http c (decode : string → result string T) url query w v w' :
  get_json http c decode url query w = (Ok v, w') →
  read_json_response decode
    (http (w_calls w) {| rq_post := false; rq_url := url; rq_api_key := trimmed (sy_api_key c);
                         rq_query := query; rq_timeout_ms := agent_timeout c |} (w_root w)).1 true = Ok v.
Proof.
  intros Hm. unfold get_json in Hm. st_inv. unfold http_call in Hx.
  destruct (http _ _ _) as [a n]. by injection Hx as <- _.
Qed.

Section walk.
Context {H : Host} {SC : SyncthingCodec}.
Context (http : nat → HttpRequest → Node → HttpAnswer * Node).
Context (cwd : Path) (dir_len : gmap string Node → Z) (c : SyncthingGcConfig).
(** The service answers without changing the folder. *)
Context (Hsilent : ∀ k r n, (http k r n).2 = n).
Context (e : string) (repository : Path).

Lemma silent_world k r w : same_world w (after_call (http k r (w_root w)).2 w).
Proof. by rewrite Hsilent. Qed.
Local Hint Resolve silent_world : core.

Definition file_request (relative : string) : HttpRequest := {|
  rq_post := false; rq_url := e ++ "/rest/db/file"; rq_api_key := trimmed (sy_api_key c);
  rq_query := [folder_query c; ("file", relative)]; rq_timeout_ms := agent_timeout c |}.

(** The service has said that it knows the file, with this length. *)
Definition known (relative : string) (size : option Z) : Prop :=
  ∃ k n indexed local,
    read_json_response file_from_str (http k (file_request relative) n).1 true = Ok indexed ∧
    fr_local indexed = Some local ∧ lf_deleted local = false ∧ lf_invalid local = false ∧
    lf_ignored local = false ∧ (∀ s, size = Some s → lf_size local = s).

Lemma indexed_file_Ok relative w indexed w' :
  indexed_file http c e relative w = (Ok indexed, w') →
  read_json_response file_from_str (http (w_calls w) (file_request relative) (w_root w)).1 true
    = Ok indexed ∧ same_world w w'.
Proof.
  intros Hm. split; [by apply get_json_Ok in Hm|by eapply (keeps_get_json http c same_world) in Hm].
Qed.

Lemma verify_file_Ok path w relative w' bytes :
  at_path path w = Some (File bytes) →
  verify_file http dir_len c e repository path w = (Ok relative, w') →
  relative_text repository path = Ok relative ∧ known relative (Some (Z.of_nat (length bytes))) ∧
  same_world w w'.
Proof.
  intros Hp Hm. pose proof Hm as Hw.
  apply (keeps_verify_file http dir_len c same_world) in Hw; [|done..].
  unfold verify_file in Hm. st_inv. apply indexed_file_Ok in Hx0 as [Hi Hs].
  apply metadata_Ok in Hx2 as [Hn _].
  destruct (_ || _ || _ || _) eqn:Hb; st_inv. split; [by simplify_eq/=|]. split; [|done].
  rewrite (same_world_at _ _ _ Hs), Hp in Hn. injection Hn as <-.
  apply orb_false_iff in Hb as [[[Hb1 Hb2]%orb_false_iff Hb3]%orb_false_iff Hb4].
  apply negb_false_iff, Z.eqb_eq in Hb4.
  destruct (fr_local x0) as [local|] eqn:Hl; [|done]. injection Hr as ->.
  exists (w_calls w0), (w_root w0), x0, x1. split_and!; try done. intros s [= <-]. done.
Qed.

(** The directories below some paths. *)
Definition load (w : World) (ps : list Path) : nat :=
  sum_list_with (λ p, from_option dirs 0%nat (at_path p w)) ps.

Lemma load_world w w' ps : same_world w w' → load w' ps = load w ps.
Proof.
  intros Hs. unfold load. induction ps as [|p ps IH]; simpl; [done|].
  by rewrite (same_world_at p _ _ Hs), IH.
Qed.

Lemma index_entries_Ok current l pending files w pending' files' w' :
  (∀ name node, (name, node) ∈ l → at_path (current ++ [name]) w = Some node) →
  index_entries http dir_len c e repository current l pending files w = (Ok (pending', files'), w') →
  same_world w w' ∧
  (∀ p, p ∈ pending' ↔ p ∈ pending ∨ ∃ name es, (name, Dir es) ∈ l ∧ p = current ++ [name]) ∧
  (∀ x, x ∈ files' ↔ x ∈ files ∨
     ∃ name b, (name, File b) ∈ l ∧ relative_text repository (current ++ [name]) = Ok x) ∧
  (∀ name b, (name, File b) ∈ l →
     ∃ x, relative_text repository (current ++ [name]) = Ok x ∧
          known x (Some (Z.of_nat (length b)))) ∧
  load w pending' = (load w pending + sum_list_with (λ x, dirs x.2) l)%nat.
Proof.
  revert pending files w. induction l as [|[name node] l IH]; intros pending files w Hl Hm.
  - simpl in Hm. injection Hm as <- <- <-. split; [done|].
    setoid_rewrite elem_of_nil. split_and!; [naive_solver..|done|simpl; lia].
  - simpl in Hm. st_inv.
    assert (Hs0 : same_world w w1).
    { trans w0; [by eapply keeps_touch in Hx|by eapply keeps_touch in Hx0]. }
    assert (Hn : at_path (current ++ [name]) w1 = Some node).
    { rewrite (same_world_at _ _ _ Hs0). apply Hl. by left. }
    assert (Hl' : ∀ wn, same_world w1 wn → ∀ name node, (name, node) ∈ l →
                  at_path (current ++ [name]) wn = Some node).
    { intros wn Hwn n' m' Hin. rewrite (same_world_at _ _ _ Hwn), (same_world_at _ _ _ Hs0).
      apply Hl. by right. }
    setoid_rewrite elem_of_cons. destruct node as [b|es|]; [| |done].
    + st_inv. apply (verify_file_Ok _ _ _ _ _ Hn) in Hx1 as (Hr & Hk & Hs1).
      apply IH in Hm as (Hs2 & Hp & Hf & Hk' & Hload); [|by apply Hl'].
      assert (Hsw : same_world w w2) by by trans w1.
      split; [by trans w2|]. rewrite <-!(load_world _ _ _ Hsw), Hload. split_and!.
      * intros p. rewrite Hp. split.
        -- intros [?|(n' & es' & ? & ?)]; eauto 8.
        -- intros [?|(n' & es' & [[=]|?] & ?)]; eauto 8.
      * intros x'. rewrite Hf, elem_of_app, list_elem_of_singleton. split.
        -- intros [[?| ->]|(n' & b' & ? & ?)]; eauto 8.
        -- intros [?|(n' & b' & [[= -> ->]|?] & ?)]; [eauto 8| |eauto 8].
           left; right. congruence.
      * intros n' b' [[= -> ->]|Hin]; [by eexists|by apply Hk'].
      * simpl. lia.
    + apply IH in Hm as (Hs2 & Hp & Hf & Hk' & Hload); [|by apply Hl'].
      split; [by trans w1|]. rewrite <-!(load_world _ _ _ Hs0), Hload. split_and!.
      * intros p. rewrite Hp, elem_of_cons. split.
        -- intros [[->|?]|(n' & es' & ? & ?)]; eauto 8.
        -- intros [?|(n' & es' & [[= -> ->]|?] & ?)]; eauto 8.
      * intros x'. rewrite Hf. split.
        -- intros [?|(n' & b' & ? & ?)]; eauto 8.
        -- intros [?|(n' & b' & [[=]|?] & ?)]; eauto 8.
      * intros n' b' [[=]|Hin]; by apply Hk'.
      * unfold load. cbn [sum_list_with]. rewrite Hn. cbn. lia.
Qed.

(** The directories of a listing are those below the directory. *)
Lemma dirs_entries es :
  dirs (Dir es) = S (sum_list_with (λ x, dirs x.2) (entries_in_order es)).
Proof.
  cbn [dirs]. f_equal. rewrite map_fold_foldr.
  assert (Hp : map_to_list es ≡ₚ entries_in_order es).
  { apply NoDup_Permutation; [apply NoDup_map_to_list|apply (NoDup_fmap_1 fst), NoDup_entries|].
    intros [name x]. by rewrite elem_of_map_to_list, elem_of_entries. }
  transitivity (sum_list_with (λ x, dirs x.2) (map_to_list es)).
  - clear Hp. induction (map_to_list es) as [|[name x] l IH]; simpl; [done|]. by rewrite IH.
  - by rewrite Hp.
Qed.

Lemma file_below_world p q b w w' : same_world w w' → file_below p q b w' ↔ file_below p q b w.
Proof. intros Hs. unfold file_below. by rewrite (same_world_at _ _ _ Hs). Qed.

(** What a walk with nothing left to do has listed. *)
Lemma walk_done (files files' : list string) (w w' : World)
    (P K : Path → Path → list Z → Prop) (Q : Path → string → Prop) :
  (Ok files, w) = (Ok files' : BR _, w') →
  (∀ x, x ∈ files' ↔ x ∈ files ∨ ∃ p q b, p ∈ @nil Path ∧ P p q b ∧ Q q x) ∧
  (∀ p q b, p ∈ @nil Path → P p q b → K p q b).
Proof.
  intros [= <- <-]. split; [|by intros p q b ?%elem_of_nil].
  intros x. split; [by left|]. by intros [?|(p & q & b & ?%elem_of_nil & _)].
Qed.

(** The walk over some directories: it lists the files below them, each of which the
    service knows with its length. *)
Lemma index_tree_Ok fuel pending files w files' w' :
  (∀ p, p ∈ pending → is_dir (at_path p w) = true) →
  index_tree http dir_len c fuel e repository pending files w = (Ok files', w') →
  (∀ x, x ∈ files' ↔ x ∈ files ∨
     ∃ p q b, p ∈ pending ∧ file_below p q b w ∧ relative_text repository q = Ok x) ∧
  (∀ p q b, p ∈ pending → file_below p q b w →
     ∃ x, relative_text repository q = Ok x ∧ known x (Some (Z.of_nat (length b)))).
Proof.
  revert pending files w. induction fuel as [|fuel IH]; intros [|current pending] files w Hd Hm;
    simpl in Hm; [by eapply walk_done|done|by eapply walk_done|].
  st_inv. apply read_dir_Ok in Hx as (es & Hes & -> & Hs).
  apply index_entries_Ok in Hx0 as (Hs1 & Hp & Hf & Hk & _).
  2: { intros name node Hin%elem_of_entries. by rewrite (same_world_at _ _ _ Hs), (at_snoc _ _ _ _ Hes). }
  assert (Hs2 : same_world w w1) by by trans w0.
  pose proof (λ name, at_snoc current name es w Hes) as Hat. setoid_rewrite elem_of_entries in Hp.
  setoid_rewrite elem_of_entries in Hf. setoid_rewrite elem_of_entries in Hk.
  apply IH in Hm as [Hall Hknown].
  2: { intros p [Hin|(name & es' & Hin & ->)]%Hp; rewrite (same_world_at _ _ _ Hs2).
       - apply Hd. by right.
       - by rewrite Hat, Hin. }
  setoid_rewrite (file_below_world _ _ _ _ _ Hs2) in Hall.
  setoid_rewrite (file_below_world _ _ _ _ _ Hs2) in Hknown.
  split.
  - intros x. rewrite Hall, Hf. setoid_rewrite elem_of_cons. split.
    + intros [[?|(name & b & Hn & Hr)]|(p & q & b & Hin & Hb & Hr)]; [by left|right..].
      * exists current, (current ++ [name]), b. split_and!; [by left| |done].
        apply (file_below_dir _ _ _ _ _ Hes). exists name, (File b). split; [done|].
        split; [done|by rewrite Hat].
      * apply Hp in Hin as [Hin|(name & es' & Hn & ->)]; [by exists p, q, b; auto|].
        exists current, q, b. split_and!; [by left| |done]. apply (file_below_dir _ _ _ _ _ Hes). eauto.
    + intros [?|(p & q & b & [->|Hin] & Hb & Hr)]; [by auto| |].
      * apply (file_below_dir _ _ _ _ _ Hes) in Hb as (name & [b'|es'|] & Hn & Hb).
        -- apply (file_below_file _ _ b') in Hb as [-> ->]; [|by rewrite Hat]. eauto 6.
        -- right. exists (current ++ [name]), q, b. rewrite Hp. eauto 8.
        -- by apply file_below_special in Hb; [|rewrite Hat].
      * right. exists p, q, b. rewrite Hp. auto.
  - intros p q b [->|Hin]%elem_of_cons Hb.
    + apply (file_below_dir _ _ _ _ _ Hes) in Hb as (name & [b'|es'|] & Hn & Hb).
      * apply (file_below_file _ _ b') in Hb as [-> ->]; [|by rewrite Hat]. by apply Hk.
      * eapply Hknown; [rewrite Hp; by eauto 6|done].
      * by apply file_below_special in Hb; [|rewrite Hat].
    + eapply Hknown; [rewrite Hp; by left|done].
Qed.
(** A computation that never stops for want of fuel. *)
Definition no_fuel_needed {A} (m : Op A) : Prop := ∀ w w', m w ≠ (Err out_of_fuel, w').

Lemma no_fuel_bind {A B} (m : Op A) (k : A → Op B) :
  no_fuel_needed m → (∀ a, no_fuel_needed (k a)) → no_fuel_needed (m ≫= k).
Proof.
  intros Hm Hk w w'. unfold mbind, ST_bind. destruct (m w) as [[a|x] w1] eqn:E1; [apply Hk|].
  intros [= -> ->]. by eapply Hm.
Qed.
Lemma no_fuel_lift {A} (r : BR A) : r ≠ Err out_of_fuel → no_fuel_needed (lift r).
Proof. intros Hr w w' [= ??]. done. Qed.
Lemma no_fuel_io {A} (m : ST IoErr A) : no_fuel_needed (io m).
Proof. intros w w'. unfold io, map_err. by destruct (m w) as [[]]. Qed.
Lemma no_fuel_ret {A} (a : A) : no_fuel_needed (mret a).
Proof. by intros w w'. Qed.
Lemma no_fuel_throw {A} x : x ≠ out_of_fuel → no_fuel_needed (throw x : Op A).
Proof. intros Hx w w' [= ??]. done. Qed.

Lemma no_fuel_get_json {T} (decode : string → result string T) url query :
  no_fuel_needed (get_json http c decode url query).
Proof.
  apply no_fuel_bind; [intros w w'; unfold http_call; by destruct (http _ _ _)|].
  intros a. apply no_fuel_lift. unfold read_json_response. by repeat case_match.
Qed.

Lemma no_fuel_verify_file path : no_fuel_needed (verify_file http dir_len c e repository path).
Proof.
  apply no_fuel_bind; [apply no_fuel_lift|intros relative].
  { unfold relative_text, path_to_syncthing. by repeat case_match. }
  apply no_fuel_bind; [apply no_fuel_get_json|intros indexed].
  apply no_fuel_bind; [apply no_fuel_lift; by destruct (fr_local indexed)|intros local].
  apply no_fuel_bind; [apply no_fuel_io|intros node].
  destruct (_ || _ || _ || _); [by apply no_fuel_throw|apply no_fuel_ret].
Qed.

Lemma no_fuel_index_entries current l pending files :
  no_fuel_needed (index_entries http dir_len c e repository current l pending files).
Proof.
  revert pending files. induction l as [|[name node] l IH]; intros; simpl; [apply no_fuel_ret|].
  apply no_fuel_bind; [apply no_fuel_io|intros _]. apply no_fuel_bind; [apply no_fuel_io|intros _].
  destruct node; [|by apply IH|by apply no_fuel_throw].
  apply no_fuel_bind; [apply no_fuel_verify_file|intros]. by apply IH.
Qed.

Lemma index_tree_ends fuel pending files w w' :
  (∀ p, p ∈ pending → is_dir (at_path p w) = true) → (load w pending ≤ fuel)%nat →
  index_tree http dir_len c fuel e repository pending files w ≠ (Err out_of_fuel, w').
Proof.
  revert pending files w. induction fuel as [|fuel IH]; intros [|current pending] files w Hd Hload;
    simpl; [done| |done|].
  - intros _. specialize (Hd current ltac:(by left)). unfold load in Hload. cbn [sum_list_with] in Hload.
    destruct (at_path current w) as [[|es|]|]; try done. simpl in Hload. lia.
  - intros [(l & w1 & H1 & Hm)|(x & H1 & Hx)]%ST_bind_inv; [|by injection Hx as <-; eapply no_fuel_io].
    apply map_err_Ok, read_dir_Ok in H1 as (es & Hes & -> & Hs).
    apply ST_bind_inv in Hm as [([pending' files'] & w2 & H2 & Hm)|(x & H2 & Hx)];
      [|by injection Hx as <-; eapply no_fuel_index_entries].
    apply index_entries_Ok in H2 as (Hs1 & Hp & _ & _ & Hl).
    2: { intros name node Hin%elem_of_entries. by rewrite (same_world_at _ _ _ Hs), (at_snoc _ _ _ _ Hes). }
    assert (Hs2 : same_world w w2) by by trans w1. revert Hm. apply IH.
    + intros p [Hin|(name & es' & Hin & ->)]%Hp; rewrite (same_world_at _ _ _ Hs2).
      * apply Hd. by right.
      * apply elem_of_entries in Hin. by rewrite (at_snoc _ _ _ _ Hes), Hin.
    + rewrite (load_world _ _ _ Hs1), Hl, (load_world _ _ _ Hs). revert Hload.
      unfold load at 1. cbn [sum_list_with]. rewrite Hes. cbn [from_option].
      rewrite dirs_entries. fold (load w pending). lia.
Qed.

(** [walk_ends]: while the folder is left alone, checking a manifest against the index
    ends: as much fuel as the manifest has directories is enough. *)
Theorem walk_ends fuel directory n w w' :
  at_path directory w = Some n → (dirs n ≤ fuel)%nat →
  verify_indexed_tree http dir_len c fuel e repository directory w ≠ (Err out_of_fuel, w').
Proof.
  intros Hn Hf Hm. unfold verify_indexed_tree in Hm.
  apply ST_bind_inv in Hm as [(present & w1 & H1 & Hm)|(x & H1 & _)]; [|done].
  injection H1 as <- <-. rewrite Hn in Hm. destruct n as [|es|]; cbn [is_dir negb] in Hm; [done| |done].
  apply ST_bind_inv in Hm as [(relative & w1 & H1 & Hm)|(x & H1 & Hx)].
  2: { injection Hx as <-. injection H1 as H1 _. unfold relative_text, path_to_syncthing in H1.
       by repeat case_match. }
  injection H1 as _ <-.
  apply ST_bind_inv in Hm as [(indexed & w1 & H1 & Hm)|(x & H1 & Hx)];
    [|by injection Hx as <-; eapply no_fuel_get_json].
  apply indexed_file_Ok in H1 as [_ Hs].
  apply ST_bind_inv in Hm as [(local & w2 & H1 & Hm)|(x & H1 & Hx)];
    [|injection Hx as <-; by destruct (fr_local indexed)].
  injection H1 as _ <-. destruct (_ || _ || _); [done|]. revert Hm. apply index_tree_ends.
  - intros p ->%list_elem_of_singleton. by rewrite (same_world_at _ _ _ Hs), Hn.
  - rewrite (load_world _ _ _ Hs). unfold load. cbn [sum_list_with]. rewrite Hn. cbn [from_option]. lia.
Qed.

(** The texts of a directory and of the files below it. *)
Definition listed (directory : Path) (w : World) (x : string) : Prop :=
  relative_text repository directory = Ok x ∨
  ∃ q b, file_below directory q b w ∧ relative_text repository q = Ok x.

(** The service knows the directory and, with their lengths, all files below it. *)
Definition covered (directory : Path) (w : World) : Prop :=
  (∃ x, relative_text repository directory = Ok x ∧ known x None) ∧
  ∀ q b, file_below directory q b w →
    ∃ x, relative_text repository q = Ok x ∧ known x (Some (Z.of_nat (length b))).

Lemma listed_world directory w w' x : same_world w w' → listed directory w' x ↔ listed directory w x.
Proof. intros Hs. unfold listed. by setoid_rewrite (file_below_world _ _ _ _ _ Hs). Qed.
Lemma covered_world directory w w' : same_world w w' → covered directory w' ↔ covered directory w.
Proof. intros Hs. unfold covered. by setoid_rewrite (file_below_world _ _ _ _ _ Hs). Qed.

Lemma verify_tree_Ok fuel directory w files w' :
  verify_indexed_tree http dir_len c fuel e repository directory w = (Ok files, w') →
  (∀ x, x ∈ files ↔ listed directory w x) ∧ covered directory w.
Proof.
  intros Hm. unfold verify_indexed_tree in Hm. st_inv.
  destruct (is_dir (at_path directory w0)) eqn:Hdir; cbn [negb] in Hm; [|done]. st_inv.
  apply indexed_file_Ok in Hx0 as [Hi Hs]. destruct (_ || _ || _) eqn:Hb; [done|].
  apply orb_false_iff in Hb as [[Hb1 Hb2]%orb_false_iff Hb3].
  destruct (fr_local x0) as [local|] eqn:Hl; [|done]. injection Hr as ->.
  apply index_tree_Ok in Hm as [Hall Hknown].
  2: { intros p ->%list_elem_of_singleton. by rewrite (same_world_at _ _ _ Hs). }
  setoid_rewrite (file_below_world _ _ _ _ _ Hs) in Hall.
  setoid_rewrite (file_below_world _ _ _ _ _ Hs) in Hknown.
  setoid_rewrite list_elem_of_singleton in Hall. setoid_rewrite list_elem_of_singleton in Hknown.
  split; [|split; [|by intros q b; apply Hknown]].
  - intros y. rewrite Hall. split.
    + intros [->|(p & q & b & -> & Hb & Hq)]; [by left|right; eauto].
    + intros [Hq|(q & b & Hb & Hq)]; [left; congruence|right; eauto 6].
  - exists x. split; [done|]. exists (w_calls w), (w_root w), x0, x1. by split_and!.
Qed.

(** The directory of a manifest, as the client spells it. *)
Notation manifest_dir_at scope id := (join_text (join_text repository scope) id).

Lemma verify_manifests_Ok fuel scope ids w files w' :
  verify_manifests http dir_len c fuel e repository scope ids w = (Ok files, w') →
  (∀ x, x ∈ files ↔ ∃ id, id ∈ ids ∧ listed (manifest_dir_at scope id) w x) ∧
  (∀ id, id ∈ ids → covered (manifest_dir_at scope id) w).
Proof.
  revert w files. induction ids as [|id ids IH]; intros w files Hm; simpl in Hm.
  - injection Hm as <- <-. split; [|by intros id ?%elem_of_nil].
    intros x. split; [by intros ?%elem_of_nil|by intros (id & ?%elem_of_nil & _)].
  - st_inv. pose proof Hx as Hs. apply (keeps_verify_tree http dir_len c same_world) in Hs; [|done..].
    apply verify_tree_Ok in Hx as [Hin Hc]. apply IH in Hx0 as [Hin' Hc'].
    setoid_rewrite (listed_world _ _ _ _ Hs) in Hin'. setoid_rewrite (covered_world _ _ _ Hs) in Hc'.
    setoid_rewrite elem_of_cons. split.
    + intros y. rewrite elem_of_app, Hin, Hin'. naive_solver.
    + intros y [->|Hy]; [done|by apply Hc'].
Qed.
End walk.

Lemma elem_of_dedup x l : x ∈ dedup l ↔ x ∈ l.
Proof.
  induction l as [|y [|z l] IH]; [done..|]. simpl in *. case_bool_decide as Heq.
  - rewrite IH, Heq, !elem_of_cons. naive_solver.
  - by rewrite elem_of_cons, IH, !elem_of_cons.
Qed.

(** ** The boundary and the deletion *)

Section boundary.
Context {H : Host} {SC : SyncthingCodec}.
Context (http : nat → HttpRequest → Node → HttpAnswer * Node).
Context (cwd : Path) (dir_len : gmap string Node → Z) (c : SyncthingGcConfig).

(** [boundary_covers]: a boundary is only given out when the service knows, each with its
    length, all files of the manifests that stay and of those that go; it lists exactly
    the directories and files of the manifests that go. *)
Theorem boundary_covers fuel repository report w b w' :
  (∀ k r n, (http k r n).2 = n) →
  prepare_for_gc http cwd dir_len c fuel repository report w = (Ok b, w') →
  ∃ e, endpoint c = Ok e ∧
  let at_id id := join_text (join_text repository (gr_manifest_scope report)) id in
  (∀ x, x ∈ sb_deleted_files b ↔
     ∃ id, id ∈ gr_candidate_manifests report ∧ listed repository (at_id id) w x) ∧
  ∀ id, id ∈ gr_retained_manifests report ∨ id ∈ gr_candidate_manifests report →
    covered http c e repository (at_id id) w.
Proof.
  intros Hsilent Hm. unfold prepare_for_gc in Hm. st_inv. rename x into e.
  assert (Hhttp : ∀ k r w, same_world w (after_call (http k r (w_root w)).2 w))
    by (intros; by rewrite Hsilent).
  destruct (ready _); cbn [negb] in Hm; [|done]. st_inv.
  assert (Hs3 : same_world w0 w3).
  { trans w1; [by eapply (keeps_validate_folder http cwd c same_world)|].
    trans w2; [by eapply (keeps_scan http c same_world)|by eapply (keeps_status http c same_world)]. }
  assert (Hs4 : same_world w0 w).
  { trans w3; [done|]. by eapply (keeps_verify_manifests http dir_len c same_world). }
  apply (verify_manifests_Ok http dir_len c Hsilent) in Hx as [_ Hc].
  apply (verify_manifests_Ok http dir_len c Hsilent) in Hx3 as [Hin Hc'].
  setoid_rewrite (covered_world _ _ _ _ _ _ _ Hs3) in Hc.
  setoid_rewrite (covered_world _ _ _ _ _ _ _ Hs4) in Hc'.
  setoid_rewrite (listed_world _ _ _ _ _ Hs4) in Hin.
  exists e. split; [done|]. cbn. split; [|by intros id [?|?]; [apply Hc|apply Hc']].
  intros y. by rewrite elem_of_dedup, elem_of_sort_by_key.
Qed.

(** [deletion_confirmed]: publishing succeeds only when the index of the service has moved
    past the boundary and it has reported every file of the boundary as deleted. *)
Theorem deletion_confirmed b w w' :
  publish_gc http c b w = (Ok tt, w') →
  ∃ e, endpoint c = Ok e ∧
  (∃ k r n status, read_json_response status_from_str (http k r n).1 true = Ok status ∧
     ready status = true ∧ sb_sequence b < fs_sequence status) ∧
  ∀ x, x ∈ sb_deleted_files b →
    ∃ k n indexed local,
      read_json_response file_from_str (http k (file_request c e x) n).1 true = Ok indexed ∧
      fr_local indexed = Some local ∧ lf_deleted local = true.
Proof.
  intros Hm. unfold publish_gc in Hm. st_inv. rename x into e. exists e. split; [done|].
  destruct (ready _) eqn:Hready; cbn [negb orb] in Hm; [|done].
  destruct (Z.leb_spec (fs_sequence x1) (sb_sequence b)) as [|Hlt]; [done|]. split.
  - apply get_json_Ok in Hx1. eauto 8.
  - revert Hm. generalize w2. induction (sb_deleted_files b) as [|y l IH]; intros w3 Hm z.
    { by intros ?%elem_of_nil. }
    cbn [for_each] in Hm. st_inv. intros [->|Hz]%elem_of_cons; [|by eapply IH].
    match goal with Hi : indexed_file _ _ _ _ _ = _ |- _ => apply get_json_Ok in Hi end.
    destruct (fr_local _) as [local|] eqn:Hl; [|done]. cbn [from_option] in *.
    destruct (lf_deleted local) eqn:Hd; [|done]. eauto 8.
Qed.

Lemma max_id_Some l m : max_id l = Some m → m ∈ l ∧ ∀ x, x ∈ l → x ≤ m.
Proof.
  unfold max_id. enough (Hg : ∀ best, foldl (λ best id, Some (match best with Some b => Z.max b id | None => id end)) best l = Some m →
    (best = Some m ∨ m ∈ l) ∧ (∀ b, best = Some b → b ≤ m) ∧ ∀ x, x ∈ l → x ≤ m).
  { intros Hm. destruct (Hg None Hm) as ([?|?] & _ & ?); [done|]. done. }
  induction l as [|y l IH]; intros best Hm; simpl in Hm.
  - subst. split_and!; [by left|by intros ? [= ->]|by intros ? ?%elem_of_nil].
  - apply IH in Hm as (Hin & Hb & Hx). specialize (Hb _ eq_refl). split_and!.
    + rewrite elem_of_cons. destruct Hin as [[= <-]|?]; [|by auto]. destruct best as [b|]; [|by auto].
      destruct (Z.max_spec b y) as [[_ ->]|[_ ->]]; auto.
    + intros b ->. lia.
    + intros x [->|?]%elem_of_cons; [|by auto]. destruct best; lia.
Qed.

Lemma max_id_cons x l : is_Some (max_id (x :: l)).
Proof. unfold max_id. simpl. revert x. induction l as [|y l IH]; intros x; simpl; eauto. Qed.

(** [cursor_advances]: a batch of events moves the cursor forward, past every event in it,
    or leaves it; an event at or before the cursor is an error that can be retried. *)
Theorem cursor_advances since w batch w' :
  wait_for_gc_events http c (Some since) w = (Ok batch, w') →
  ∃ last, ev_last_id batch = Some last ∧ since ≤ last ∧
  (ev_wakes_gc batch = true → since < last).
Proof.
  intros Hm. unfold wait_for_gc_events in Hm. st_inv. rename x1 into events.
  destruct (existsb _ events) eqn:Hold in Hm; [done|]. st_inv. cbn.
  assert (Hnew : ∀ ev, ev ∈ events → since < se_id ev).
  { intros ev Hin. rewrite <-not_true_iff_false in Hold. destruct (Z.leb_spec (se_id ev) since); [|lia].
    destruct Hold. apply existsb_exists. exists ev. rewrite <-list_elem_of_In. split; [done|].
    by apply Z.leb_le. }
  destruct (max_id (se_id <$> events)) as [m|] eqn:Hmax.
  - apply max_id_Some in Hmax as [Hin Hle]. apply list_elem_of_fmap in Hin as (ev & -> & Hev).
    apply Hnew in Hev. exists (se_id ev). split_and!; [done|lia|by intros _].
  - exists since. split_and!; [done|lia|]. destruct events as [|ev events]; [done|].
    destruct (max_id_cons (se_id ev) (se_id <$> events)) as [m Hm]. rewrite fmap_cons in Hmax. congruence.
Qed.
End boundary.
