(* ===== verification/GcCoordinator.v ===== *)
(** * GcCoordinator: the background collection of [cloud-local/src/gc.rs]

    Clients queue inspections of apps; one worker thread merges and runs them. An
    inspection that has to wait for Syncthing is deferred, and a listener thread per
    folder wakes the worker when Syncthing reports a change. The coordinator is a state
    machine over the steps of these threads: each step is one critical section, one
    load, one message or one stage of an inspection, so that clients, worker and
    listeners interleave in every possible way. *)

From Stdlib Require Import ZArith Lia.
From S2P Require Import Prelude RustStd CloudCore FileSystem StoreFiles FolderStore StoreGc.
From S2P Require Import Syncthing.

Local Open Scope Z_scope.

(** Milliseconds. *)
Definition INITIAL_RECONNECT_DELAY : Z := 250.
Definition MAX_RECONNECT_DELAY : Z := 5 * 1000.

(** ** Keys *)

(** The order of paths: component by component. *)
Fixpoint path_le (p q : Path) : Prop :=
  match p, q with
  | [], _ => True
  | _ :: _, [] => False
  | a :: p, b :: q => (a ≠ b ∧ kle a b) ∨ (a = b ∧ path_le p q)
  end.

#[export] Instance path_le_dec : RelDecision path_le.
Proof.
  intros p. induction p as [|a p IH]; intros [|b q].
  1-2: by left.
  - right. by intros [].
  - destruct (IH q).
    + refine (cast_if (decide ((a ≠ b ∧ kle a b) ∨ a = b))); simpl; naive_solver.
    + refine (cast_if (decide (a ≠ b ∧ kle a b))); simpl; naive_solver.
Defined.

#[export] Program Instance path_key_ord : KeyOrd Path := {| kle := path_le |}.
Next Obligation.
  split; [split|].
  - intros p. induction p; simpl; auto.
  - intros p. induction p as [|a p IH]; intros [|b q] [|d r]; simpl; try done.
    intros [[H1 H2]|[-> H2]] [[H3 H4]|[-> H4]].
    + left. split; [|by trans b]. intros ->. apply H1. by apply (anti_symm kle).
    + by left.
    + by left.
    + right. eauto.
  - intros p. induction p as [|a p IH]; intros [|b q]; simpl; try done.
    intros [[H1 H2]|[H1 H2]] [[H3 H4]|[H3 H4]]; subst; try done.
    + destruct H1. by apply (anti_symm kle).
    + f_equal. auto.
Qed.
Next Obligation.
  intros p. induction p as [|a p IH]; intros [|b q]; simpl; [by left..|by right|].
  destruct (decide (a = b)) as [->|Hne].
  - destruct (IH q); [left|right]; by right.
  - destruct (total kle a b); [left|right]; left; auto.
Qed.

(** The repository and the scope of the app within it. *)
Notation InspectionKey := (list string * string)%type.
(** The repository and the settings. *)
Notation SyncthingListenerKey := (list string * SyncthingGcConfig)%type.

Record InspectionRequest := {
  ir_store : FolderStore;
  ir_app_id : Z;
  ir_syncthing : option SyncthingGcConfig;
  ir_epoch : Z;
  ir_revision : Z;
}.

Definition key (r : InspectionRequest) : InspectionKey :=
  (st_root (ir_store r), manifest_scope (ir_store r) (ir_app_id r)).

Definition listener_key (r : InspectionRequest) : option SyncthingListenerKey :=
  settings ← ir_syncthing r; Some (st_root (ir_store r), settings).

Record ListenerRegistration := { lr_id : Z; lr_wake_queued : bool }.

Record CoordinatorState := {
  cs_revisions : gmap InspectionKey Z;
  cs_deferred : gmap InspectionKey InspectionRequest;
  cs_listeners : gmap SyncthingListenerKey ListenerRegistration;
  cs_next_listener_id : Z;
}.

Definition default_state : CoordinatorState := {|
  cs_revisions := ∅; cs_deferred := ∅; cs_listeners := ∅; cs_next_listener_id := 0 |}.

Inductive WorkerMessage :=
| MsgInspect (request : InspectionRequest)
| MsgSyncthingEvent (key : SyncthingListenerKey) (listener_id : Z)
| MsgListenerStopped (key : SyncthingListenerKey) (listener_id : Z) (error : BackendError).

(** ** Critical sections *)

(** [wrapping_add(1).max(1)] on [u64] *)
Definition next_counter (n : Z) : Z := Z.max ((n + 1) mod (u64_max + 1)) 1.

Definition set_deferred (m : gmap InspectionKey InspectionRequest) (s : CoordinatorState) := {|
  cs_revisions := cs_revisions s; cs_deferred := m; cs_listeners := cs_listeners s;
  cs_next_listener_id := cs_next_listener_id s |}.
Definition set_listeners (m : gmap SyncthingListenerKey ListenerRegistration)
    (s : CoordinatorState) := {|
  cs_revisions := cs_revisions s; cs_deferred := cs_deferred s; cs_listeners := m;
  cs_next_listener_id := cs_next_listener_id s |}.

Definition advance_revision (revisions : gmap InspectionKey Z) (k : InspectionKey)
    : Z * gmap InspectionKey Z :=
  let revision := next_counter (default 0 (revisions !! k)) in
  (revision, <[k := revision]> revisions).

Definition request_is_current_locked (s : CoordinatorState) (epoch : Z) (r : InspectionRequest)
    : bool :=
  (ir_epoch r =? epoch) && bool_decide (cs_revisions s !! key r = Some (ir_revision r)).

(** With the epoch as it was before the lock was taken, and under the lock. *)
Definition request_is_current (epoch_before : Z) (s : CoordinatorState) (epoch : Z)
    (r : InspectionRequest) : bool :=
  if negb (ir_epoch r =? epoch_before) then false else request_is_current_locked s epoch r.

(** The part of [queue_inspection] under the lock. *)
Definition register_inspection (store : FolderStore) (app_id : Z)
    (syncthing : option SyncthingGcConfig) (epoch : Z) (s : CoordinatorState)
    : InspectionRequest * CoordinatorState :=
  let k := (st_root store, manifest_scope store app_id) in
  let '(revision, revisions) := advance_revision (cs_revisions s) k in
  ({| ir_store := store; ir_app_id := app_id; ir_syncthing := syncthing; ir_epoch := epoch;
      ir_revision := revision |},
   {| cs_revisions := revisions; cs_deferred := delete k (cs_deferred s);
      cs_listeners := cs_listeners s; cs_next_listener_id := cs_next_listener_id s |}).

(** [invalidate]: the state and the epoch. *)
Definition invalidate (s : CoordinatorState) (epoch : Z) : CoordinatorState * Z :=
  ({| cs_revisions := ∅; cs_deferred := ∅; cs_listeners := ∅;
      cs_next_listener_id := cs_next_listener_id s |}, (epoch + 1) mod (u64_max + 1)).

(** The listener [id] is the registered one. *)
Definition listener_is_current (s : CoordinatorState) (k : SyncthingListenerKey) (id : Z) : bool :=
  bool_decide (lr_id <$> cs_listeners s !! k = Some id).

(** [state.listeners.remove(&key)] when it is still this registration *)
Definition remove_listener (s : CoordinatorState) (k : SyncthingListenerKey) (id : Z)
    : CoordinatorState :=
  if listener_is_current s k id then set_listeners (delete k (cs_listeners s)) s else s.

Definition mark_listener_wake_queued (s : CoordinatorState) (k : SyncthingListenerKey) (id : Z)
    : bool * CoordinatorState :=
  match cs_listeners s !! k with
  | None => (false, s)
  | Some l =>
      if negb (lr_id l =? id) || lr_wake_queued l then (false, s)
      else (true, set_listeners (<[k := {| lr_id := id; lr_wake_queued := true |}]>
                                   (cs_listeners s)) s)
  end.

Definition waits_for (k : SyncthingListenerKey) (r : InspectionRequest) : bool :=
  bool_decide (listener_key r = Some k).

Definition finish_request (s : CoordinatorState) (r : InspectionRequest) : CoordinatorState :=
  match listener_key r with
  | None => s
  | Some k =>
      let s := set_deferred (delete (key r) (cs_deferred s)) s in
      if existsb (waits_for k) (btree_values (cs_deferred s)) then s
      else set_listeners (delete k (cs_listeners s)) s
  end.

(** [(epoch, revision)] of one request is greater than that of the other. *)
Definition newer (r q : InspectionRequest) : bool :=
  (ir_epoch q <? ir_epoch r) || ((ir_epoch q =? ir_epoch r) && (ir_revision q <? ir_revision r)).

Definition merge_pending_request (pending : gmap InspectionKey InspectionRequest)
    (r : InspectionRequest) : gmap InspectionKey InspectionRequest :=
  match pending !! key r with
  | None => <[key r := r]> pending
  | Some q => if newer r q then <[key r := r]> pending else pending
  end.

Definition take_deferred_requests (s : CoordinatorState) (epoch : Z) (k : SyncthingListenerKey)
    (id : Z) : list InspectionRequest * CoordinatorState :=
  match cs_listeners s !! k with
  | None => ([], s)
  | Some l =>
      if negb (lr_id l =? id) then ([], s)
      else
        let s := set_listeners (<[k := {| lr_id := lr_id l; lr_wake_queued := false |}]>
                                  (cs_listeners s)) s in
        let taken := filter (λ p, waits_for k p.2 = true) (cs_deferred s) in
        let s := set_deferred (cs_deferred s ∖ taken) s in
        (filter (λ r, request_is_current_locked s epoch r = true) (btree_values taken), s)
  end.

Definition merge_worker_message (pending : gmap InspectionKey InspectionRequest)
    (s : CoordinatorState) (epoch : Z) (m : WorkerMessage)
    : gmap InspectionKey InspectionRequest * CoordinatorState :=
  match m with
  | MsgInspect r => (merge_pending_request pending r, s)
  | MsgSyncthingEvent k id =>
      let '(deferred, s) := take_deferred_requests s epoch k id in
      (foldl merge_pending_request pending deferred, s)
  | MsgListenerStopped k id _ => (pending, remove_listener s k id)
  end.

(** The critical section of [defer_request]: the new listener to start, if any. *)
Definition register_deferral (s : CoordinatorState) (epoch : Z) (k : SyncthingListenerKey)
    (r : InspectionRequest) : option Z * CoordinatorState :=
  if negb (request_is_current_locked s epoch r) then (None, s)
  else
    let s := set_deferred (<[key r := r]> (cs_deferred s)) s in
    match cs_listeners s !! k with
    | Some _ => (None, s)
    | None =>
        let id := next_counter (cs_next_listener_id s) in
        (Some id, {| cs_revisions := cs_revisions s; cs_deferred := cs_deferred s;
                     cs_listeners := <[k := {| lr_id := id; lr_wake_queued := false |}]>
                                       (cs_listeners s);
                     cs_next_listener_id := id |})
    end.

(** ** One inspection *)

Inductive InspectionOutcome := Finished | DeferForSyncthing.
#[export] Instance InspectionOutcome_eq_dec : EqDecision InspectionOutcome.
Proof. solve_decision. Defined.

(** The stages of [inspect_once], cut where it looks at the shared state; a stage ends
    the inspection or goes on. *)
Notation Stage A := (ST InspectionOutcome A).

Section inspection.
Context {H : Host} {C : StoreCodec} {SC : SyncthingCodec}.
Context (http : nat → HttpRequest → Node → HttpAnswer * Node).
Context (cwd : Path) (dir_len : gmap string Node → Z) (fuel : nat).

(** A failure ends the inspection; whether it is tried again depends on the error. *)
Definition or_finish {A} (m : Op A) : Stage A := map_err (λ _, Finished) m.
Definition or_defer {A} (m : Op A) : Stage A :=
  map_err (λ error, if is_retryable error then DeferForSyncthing else Finished) m.

(** Up to the first load of the epoch. *)
Definition stage_inspect (r : InspectionRequest) : Stage (GcReport * option SyncthingBoundary) :=
  report ← or_finish (inspect_gc (ir_store r) (ir_app_id r));
  if bool_decide (gr_candidate_manifests report = []) then mret (report, None)
  else
    match ir_syncthing r with
    | Some syncthing =>
        boundary ← or_defer (prepare_for_gc http cwd dir_len syncthing fuel
                               (st_root (ir_store r)) report);
        mret (report, Some boundary)
    | None => mret (report, None)
    end.

Definition stage_prepare (r : InspectionRequest) (report : GcReport) : Stage GcSweepPlan :=
  plan ← or_finish (prepare_gc_sweep (ir_store r) report);
  match plan with Some plan => mret plan | None => throw Finished end.

(** After a sweep: telling Syncthing, undoing the sweep when that fails. *)
Definition stage_publish (r : InspectionRequest) (boundary : option SyncthingBoundary)
    (sweep : GcSweep) : Stage unit :=
  match ir_syncthing r, boundary with
  | Some syncthing, Some boundary =>
      published ← attempt (publish_gc http syncthing boundary);
      match published with
      | Ok _ => mret tt
      | Err error =>
          restored ← attempt (restore_gc_sweep (ir_store r) (ir_app_id r) sweep);
          throw (if is_ok restored && is_retryable error then DeferForSyncthing else Finished)
      end
  | _, _ => mret tt
  end.

Definition stage_sweep (r : InspectionRequest) (boundary : option SyncthingBoundary)
    (plan : GcSweepPlan) : Stage unit :=
  swept ← or_finish (apply_gc_sweep (ir_store r) plan);
  match swept with
  | Some sweep =>
      _ ← stage_publish r boundary sweep;
      ignore (finalize_gc_sweep (ir_store r) sweep)
  | None => mret tt
  end.

(** What a stage that ends the inspection answers. *)
Definition outcome {A} (r : result InspectionOutcome A) : InspectionOutcome :=
  match r with Ok _ => Finished | Err o => o end.

(** The stages with what they see of the shared state: the epoch after the inspection,
    and the epoch, the state and the epoch again when the plan is ready. *)
Definition stages (epoch1 epoch2 : Z) (state3 : CoordinatorState) (epoch3 : Z)
    (r : InspectionRequest) : Stage unit :=
  '(report, boundary) ← stage_inspect r;
  if negb (ir_epoch r =? epoch1) then throw Finished
  else
    plan ← stage_prepare r report;
    if negb (request_is_current epoch2 state3 epoch3 r) then throw Finished
    else stage_sweep r boundary plan.

Definition inspect_once (epoch1 epoch2 : Z) (state3 : CoordinatorState) (epoch3 : Z)
    (r : InspectionRequest) : World → InspectionOutcome * World := λ w,
  let '(x, w) := stages epoch1 epoch2 state3 epoch3 r w in (outcome x, w).
End inspection.

(** ** The threads *)

Inductive Worker :=
| Waiting                                         (* in [recv] *)
| Draining (pending : gmap InspectionKey InspectionRequest)
| Working (todo : list InspectionRequest)
| Locking (r : InspectionRequest) (todo : list InspectionRequest)
| Inspecting (r : InspectionRequest) (todo : list InspectionRequest)
| Inspected (r : InspectionRequest) (report : GcReport) (boundary : option SyncthingBoundary)
    (todo : list InspectionRequest)
| Preparing (r : InspectionRequest) (report : GcReport) (boundary : option SyncthingBoundary)
    (todo : list InspectionRequest)
| Prepared (r : InspectionRequest) (boundary : option SyncthingBoundary) (plan : GcSweepPlan)
    (todo : list InspectionRequest)
| Relocking (r : InspectionRequest) (boundary : option SyncthingBoundary) (plan : GcSweepPlan)
    (todo : list InspectionRequest)
| Sweeping (r : InspectionRequest) (boundary : option SyncthingBoundary) (plan : GcSweepPlan)
    (todo : list InspectionRequest)
| Decided (r : InspectionRequest) (o : InspectionOutcome) (todo : list InspectionRequest)
| Spawning (k : SyncthingListenerKey) (id : Z) (todo : list InspectionRequest)
| Stopped.

(** Where a listener thread stands: at the top of its loop, in [wait_for_gc_events],
    about to mark, to send, asleep, about to report its end, ended. *)
Inductive ListenerPc :=
| Looping | Polling | Marking | Sending | Sleeping | Ending (error : BackendError) | Ended.

Record Listener := {
  li_key : SyncthingListenerKey;
  li_id : Z;
  li_cursor : option Z;
  li_connected : bool;
  li_reconnect_delay : Z;
  li_pc : ListenerPc;
}.

Definition new_listener (k : SyncthingListenerKey) (id : Z) : Listener := {|
  li_key := k; li_id := id; li_cursor := None; li_connected := false;
  li_reconnect_delay := INITIAL_RECONNECT_DELAY; li_pc := Looping |}.

Definition goto (pc : ListenerPc) (t : Listener) : Listener := {|
  li_key := li_key t; li_id := li_id t; li_cursor := li_cursor t; li_connected := li_connected t;
  li_reconnect_delay := li_reconnect_delay t; li_pc := pc |}.

(** What a listener does with the answer it waited for. *)
Definition after_poll (answer : BR SyncthingEventBatch) (t : Listener) : Listener :=
  match answer with
  | Ok batch =>
      {| li_key := li_key t; li_id := li_id t; li_cursor := ev_last_id batch; li_connected := true;
         li_reconnect_delay := INITIAL_RECONNECT_DELAY;
         li_pc := if negb (li_connected t) || ev_wakes_gc batch then Marking else Looping |}
  | Err error =>
      if is_retryable error
      then {| li_key := li_key t; li_id := li_id t; li_cursor := None; li_connected := false;
              li_reconnect_delay := li_reconnect_delay t; li_pc := Sleeping |}
      else goto (Ending error) t
  end.

Definition after_sleep (t : Listener) : Listener := {|
  li_key := li_key t; li_id := li_id t; li_cursor := li_cursor t; li_connected := li_connected t;
  li_reconnect_delay := Z.min (li_reconnect_delay t * 2) MAX_RECONNECT_DELAY; li_pc := Looping |}.

(** The coordinator with its threads: the shared state, the epoch, whether the owner
    still holds it, the requests registered but not yet sent, the channel, the worker,
    the listeners, and the world the inspections act on. *)
Record Coordinator := {
  co_state : CoordinatorState;
  co_epoch : Z;
  co_alive : bool;
  co_sending : list InspectionRequest;
  co_channel : list WorkerMessage;
  co_worker : Worker;
  co_listeners : list Listener;
  co_world : World;
}.

(** [try_new] *)
Definition try_new (w : World) : Coordinator := {|
  co_state := default_state; co_epoch := 1; co_alive := true; co_sending := []; co_channel := [];
  co_worker := Waiting; co_listeners := []; co_world := w |}.

Definition with_state (s : CoordinatorState) (c : Coordinator) : Coordinator := {|
  co_state := s; co_epoch := co_epoch c; co_alive := co_alive c; co_sending := co_sending c;
  co_channel := co_channel c; co_worker := co_worker c; co_listeners := co_listeners c;
  co_world := co_world c |}.
Definition with_channel (l : list WorkerMessage) (c : Coordinator) : Coordinator := {|
  co_state := co_state c; co_epoch := co_epoch c; co_alive := co_alive c;
  co_sending := co_sending c; co_channel := l; co_worker := co_worker c;
  co_listeners := co_listeners c; co_world := co_world c |}.
Definition with_worker (x : Worker) (c : Coordinator) : Coordinator := {|
  co_state := co_state c; co_epoch := co_epoch c; co_alive := co_alive c;
  co_sending := co_sending c; co_channel := co_channel c; co_worker := x;
  co_listeners := co_listeners c; co_world := co_world c |}.
Definition with_listeners (l : list Listener) (c : Coordinator) : Coordinator := {|
  co_state := co_state c; co_epoch := co_epoch c; co_alive := co_alive c;
  co_sending := co_sending c; co_channel := co_channel c; co_worker := co_worker c;
  co_listeners := l; co_world := co_world c |}.
Definition with_world (w : World) (c : Coordinator) : Coordinator := {|
  co_state := co_state c; co_epoch := co_epoch c; co_alive := co_alive c;
  co_sending := co_sending c; co_channel := co_channel c; co_worker := co_worker c;
  co_listeners := co_listeners c; co_world := w |}.
Definition with_sending (l : list InspectionRequest) (c : Coordinator) : Coordinator := {|
  co_state := co_state c; co_epoch := co_epoch c; co_alive := co_alive c; co_sending := l;
  co_channel := co_channel c; co_worker := co_worker c; co_listeners := co_listeners c;
  co_world := co_world c |}.
Definition with_epoch (z : Z) (c : Coordinator) : Coordinator := {|
  co_state := co_state c; co_epoch := z; co_alive := co_alive c; co_sending := co_sending c;
  co_channel := co_channel c; co_worker := co_worker c; co_listeners := co_listeners c;
  co_world := co_world c |}.
Definition drop_owner (c : Coordinator) : Coordinator := {|
  co_state := co_state c; co_epoch := co_epoch c; co_alive := false; co_sending := co_sending c;
  co_channel := co_channel c; co_worker := co_worker c; co_listeners := co_listeners c;
  co_world := co_world c |}.

(** A send succeeds as long as the worker has not ended. *)
Definition send (m : WorkerMessage) (c : Coordinator) : Coordinator :=
  match co_worker c with Stopped => c | _ => with_channel (co_channel c ++ [m]) c end.

Inductive Event :=
| Queued (r : InspectionRequest)       (* a client has registered an inspection *)
| Invalidated                          (* a client has called [invalidate] *)
| SweepStarted (r : InspectionRequest) (* the worker goes on to sweep *)
| Completed (r : InspectionRequest)    (* an inspection has come to its end *)
| Internal.

Section steps.
Context {H : Host} {C : StoreCodec} {SC : SyncthingCodec}.
Context (http : nat → HttpRequest → Node → HttpAnswer * Node).
Context (cwd : Path) (dir_len : gmap string Node → Z) (fuel : nat).

(** The settings of a request that may be queued. *)
Definition acceptable (syncthing : option SyncthingGcConfig) : bool :=
  match syncthing with Some settings => is_ok (validate_for_gc settings) | None => true end.

Inductive client_step : Event → Coordinator → Coordinator → Prop :=
| step_queue store app_id syncthing r s c :
    co_alive c = true → acceptable syncthing = true →
    register_inspection store app_id syncthing (co_epoch c) (co_state c) = (r, s) →
    client_step (Queued r) c (with_sending (r :: co_sending c) (with_state s c))
| step_send r l1 l2 c :
    co_sending c = l1 ++ r :: l2 →
    client_step Internal c (send (MsgInspect r) (with_sending (l1 ++ l2) c))
| step_invalidate s epoch c :
    co_alive c = true → invalidate (co_state c) (co_epoch c) = (s, epoch) →
    client_step Invalidated c (with_epoch epoch (with_state s c))
| step_drop c :
    co_alive c = true → co_sending c = [] → client_step Internal c (drop_owner c)
| step_environment n c :
    client_step Internal c (with_world (after_call n (co_world c)) c).

(** Where the worker goes after a stage. *)
Definition decide_with {A} (r : InspectionRequest) (todo : list InspectionRequest)
    (x : result InspectionOutcome A) (next : A → Worker) : Worker :=
  match x with Ok a => next a | Err o => Decided r o todo end.

Inductive worker_step : Event → Coordinator → Coordinator → Prop :=
| step_recv m ms pending s c :
    co_worker c = Waiting → co_channel c = m :: ms →
    merge_worker_message ∅ (co_state c) (co_epoch c) m = (pending, s) →
    worker_step Internal c (with_worker (Draining pending) (with_channel ms (with_state s c)))
| step_disconnected c :
    co_worker c = Waiting → co_channel c = [] → co_alive c = false →
    Forall (λ t, li_pc t = Ended) (co_listeners c) →
    worker_step Internal c (with_worker Stopped c)
| step_try_recv m ms pending pending' s c :
    co_worker c = Draining pending → co_channel c = m :: ms →
    merge_worker_message pending (co_state c) (co_epoch c) m = (pending', s) →
    worker_step Internal c (with_worker (Draining pending') (with_channel ms (with_state s c)))
| step_drained pending c :
    co_worker c = Draining pending → co_channel c = [] →
    worker_step Internal c (with_worker (Working (btree_values pending)) c)
| step_batch_done c :
    co_worker c = Working [] → worker_step Internal c (with_worker Waiting c)
| step_load r todo c :
    co_worker c = Working (r :: todo) →
    worker_step Internal c
      (with_worker (if ir_epoch r =? co_epoch c then Locking r todo else Working todo) c)
| step_lock r todo c :
    co_worker c = Locking r todo →
    worker_step Internal c
      (with_worker (if request_is_current_locked (co_state c) (co_epoch c) r
                    then Inspecting r todo else Working todo) c)
| step_inspect r todo x w c :
    co_worker c = Inspecting r todo →
    stage_inspect http cwd dir_len fuel r (co_world c) = (x, w) →
    worker_step Internal c
      (with_worker (decide_with r todo x (λ p, Inspected r p.1 p.2 todo)) (with_world w c))
| step_load_epoch r report boundary todo c :
    co_worker c = Inspected r report boundary todo →
    worker_step Internal c
      (with_worker (if ir_epoch r =? co_epoch c then Preparing r report boundary todo
                    else Decided r Finished todo) c)
| step_prepare r report boundary todo x w c :
    co_worker c = Preparing r report boundary todo →
    stage_prepare r report (co_world c) = (x, w) →
    worker_step Internal c
      (with_worker (decide_with r todo x (λ plan, Prepared r boundary plan todo)) (with_world w c))
| step_reload r boundary plan todo c :
    co_worker c = Prepared r boundary plan todo →
    worker_step Internal c
      (with_worker (if ir_epoch r =? co_epoch c then Relocking r boundary plan todo
                    else Decided r Finished todo) c)
| step_relock r boundary plan todo c :
    co_worker c = Relocking r boundary plan todo →
    request_is_current_locked (co_state c) (co_epoch c) r = true →
    worker_step (SweepStarted r) c (with_worker (Sweeping r boundary plan todo) c)
| step_outdated r boundary plan todo c :
    co_worker c = Relocking r boundary plan todo →
    request_is_current_locked (co_state c) (co_epoch c) r = false →
    worker_step Internal c (with_worker (Decided r Finished todo) c)
| step_sweep r boundary plan todo x w c :
    co_worker c = Sweeping r boundary plan todo →
    stage_sweep http r boundary plan (co_world c) = (x, w) →
    worker_step Internal c (with_worker (Decided r (outcome x) todo) (with_world w c))
| step_finish r todo c :
    co_worker c = Decided r Finished todo →
    worker_step (Completed r) c
      (with_worker (Working todo) (with_state (finish_request (co_state c) r) c))
| step_cannot_defer r todo c :
    co_worker c = Decided r DeferForSyncthing todo → listener_key r = None →
    worker_step Internal c (with_worker (Working todo) c)
| step_defer r k o s todo c :
    co_worker c = Decided r DeferForSyncthing todo → listener_key r = Some k →
    register_deferral (co_state c) (co_epoch c) k r = (o, s) →
    worker_step Internal c
      (with_worker (match o with Some id => Spawning k id todo | None => Working todo end)
         (with_state s c))
| step_no_sender k id todo c :
    co_worker c = Spawning k id todo → co_alive c = false →
    worker_step Internal c (with_worker (Working todo) c)
| step_spawn k id todo c :
    co_worker c = Spawning k id todo → co_alive c = true →
    worker_step Internal c
      (with_worker (Working todo) (with_listeners (new_listener k id :: co_listeners c) c))
| step_spawn_fails k id todo c :
    co_worker c = Spawning k id todo → co_alive c = true →
    worker_step Internal c
      (with_worker (Working todo) (with_state (remove_listener (co_state c) k id) c)).

(** A step of one listener thread, and what it does to the rest. *)
Inductive listener_step (t : Listener) : Coordinator → Listener → Coordinator → Prop :=
| step_top c :
    li_pc t = Looping →
    listener_step t c
      (goto (if co_alive c && listener_is_current (co_state c) (li_key t) (li_id t)
             then Polling else Ended) t) c
| step_poll answer w c :
    li_pc t = Polling →
    wait_for_gc_events http (li_key t).2 (li_cursor t) (co_world c) = (answer, w) →
    listener_step t c (after_poll answer t) (with_world w c)
| step_mark marked s c :
    li_pc t = Marking →
    mark_listener_wake_queued (co_state c) (li_key t) (li_id t) = (marked, s) →
    listener_step t c (goto (if marked : bool then Sending else Looping) t) (with_state s c)
| step_wake c :
    li_pc t = Sending →
    listener_step t c
      (goto (match co_worker c with Stopped => Ended | _ => Looping end) t)
      (send (MsgSyncthingEvent (li_key t) (li_id t)) c)
| step_sleep c : li_pc t = Sleeping → listener_step t c (after_sleep t) c
| step_end error c :
    li_pc t = Ending error →
    listener_step t c (goto Ended t) (send (MsgListenerStopped (li_key t) (li_id t) error) c).

Inductive step : Event → Coordinator → Coordinator → Prop :=
| client e c c' : client_step e c c' → step e c c'
| worker e c c' : worker_step e c c' → step e c c'
| listener t t' l1 l2 c c' :
    co_listeners c = l1 ++ t :: l2 → listener_step t c t' c' →
    step Internal c (with_listeners (l1 ++ t' :: l2) c').

(** The events of a run from the start, the latest first. *)
Inductive run (w : World) : list Event → Coordinator → Prop :=
| run_start : run w [] (try_new w)
| run_step e es c c' : run w es c → step e c c' → run w (e :: es) c'.
End steps.
