(* ===== verification/GcCoordinatorProofs.v ===== *)
(** * GcCoordinatorProofs: invariants of the background collection

    In every interleaving of clients, worker and listeners: deferred requests are current
    and their listeners alive, a wake-up is never lost, the newest request of an app is
    never dropped, and after [invalidate] no sweep of an older request starts. *)

From Stdlib Require Import ZArith Lia.
From S2P Require Import Prelude RustStd CloudCore FileSystem StoreFiles StoreFilesProofs.
From S2P Require Import FolderStore StoreGc Syncthing SyncthingProofs GcCoordinator.

Local Open Scope Z_scope.

(** ** Requests on their way *)

Definition worker_requests (x : Worker) : list InspectionRequest :=
  match x with
  | Draining pending => btree_values pending
  | Working todo | Spawning _ _ todo => todo
  | Locking r todo | Inspecting r todo | Inspected r _ _ todo | Preparing r _ _ todo
  | Prepared r _ _ todo | Relocking r _ _ todo | Sweeping r _ _ todo | Decided r _ todo => r :: todo
  | Waiting | Stopped => []
  end.

(** Registered and not yet at its end. *)
Definition in_flight (c : Coordinator) (r : InspectionRequest) : Prop :=
  r ∈ co_sending c ∨ MsgInspect r ∈ co_channel c ∨ r ∈ worker_requests (co_worker c) ∨
  ∃ k, cs_deferred (co_state c) !! k = Some r.

(** The request is the latest of its key. *)
Notation latest c r := (request_is_current_locked (co_state c) (co_epoch c) r = true).

Lemma is_current_true s epoch r :
  request_is_current_locked s epoch r = true ↔
  ir_epoch r = epoch ∧ cs_revisions s !! key r = Some (ir_revision r).
Proof.
  unfold request_is_current_locked. by rewrite andb_true_iff, Z.eqb_eq, bool_decide_eq_true.
Qed.

(** *** Sending *)

Lemma send_state m c : co_state (send m c) = co_state c.
Proof. unfold send. by destruct (co_worker c). Qed.
Lemma send_epoch m c : co_epoch (send m c) = co_epoch c.
Proof. unfold send. by destruct (co_worker c). Qed.
Lemma send_alive m c : co_alive (send m c) = co_alive c.
Proof. unfold send. by destruct (co_worker c). Qed.
Lemma send_sending m c : co_sending (send m c) = co_sending c.
Proof. unfold send. by destruct (co_worker c). Qed.
Lemma send_worker m c : co_worker (send m c) = co_worker c.
Proof. unfold send. by destruct (co_worker c) eqn:E. Qed.
Lemma send_listeners m c : co_listeners (send m c) = co_listeners c.
Proof. unfold send. by destruct (co_worker c). Qed.
Lemma send_channel m m' c :
  m' ∈ co_channel (send m c) ↔ m' ∈ co_channel c ∨ (m' = m ∧ co_worker c ≠ Stopped).
Proof.
  unfold send. destruct (co_worker c) eqn:E; simpl;
    rewrite ?elem_of_app, ?list_elem_of_singleton; naive_solver.
Qed.
Create HintDb coord.
#[export] Hint Rewrite send_state send_epoch send_alive send_sending send_worker send_listeners : coord.
Ltac coord_fields :=
  cbn [with_state with_channel with_worker with_listeners with_world with_sending with_epoch
       drop_owner co_state co_epoch co_alive co_sending co_channel co_worker co_listeners co_world
       goto after_sleep new_listener li_key li_id li_pc] in *.
Ltac coord := coord_fields; autorewrite with coord in *; coord_fields.

(** *** Merging *)

(** A map of requests by their keys. *)
Definition keyed (m : gmap InspectionKey InspectionRequest) : Prop :=
  ∀ k r, m !! k = Some r → key r = k.

(** At least as new. *)
Definition supersedes (q r : InspectionRequest) : Prop := key q = key r ∧ newer r q = false.

Lemma supersedes_refl r : supersedes r r.
Proof.
  split; [done|]. unfold newer. rewrite Z.eqb_refl, !Z.ltb_irrefl. done.
Qed.

Lemma newer_trans r q p : newer r q = false → newer q p = false → newer r p = false.
Proof.
  unfold newer. rewrite !orb_false_iff, !andb_false_iff, !Z.ltb_ge, !Z.eqb_neq. lia.
Qed.
Lemma newer_asym r q : newer r q = true → newer q r = false.
Proof.
  unfold newer. rewrite orb_true_iff, orb_false_iff, andb_true_iff, andb_false_iff.
  rewrite !Z.ltb_lt, !Z.ltb_ge, !Z.eqb_neq, Z.eqb_eq. lia.
Qed.
Lemma supersedes_trans p q r : supersedes p q → supersedes q r → supersedes p r.
Proof. intros [H1 H2] [H3 H4]. split; [congruence|by eapply newer_trans]. Qed.

Lemma merge_keyed pending r : keyed pending → keyed (merge_pending_request pending r).
Proof.
  intros Hk k q. unfold merge_pending_request. destruct (pending !! key r) as [p|] eqn:E.
  - destruct (newer r p); [|apply Hk]. intros [[<- ->]|[_ ?]]%lookup_insert_Some; [done|by apply Hk].
  - intros [[<- ->]|[_ ?]]%lookup_insert_Some; [done|by apply Hk].
Qed.

Lemma merge_from pending r k q :
  merge_pending_request pending r !! k = Some q → q = r ∨ pending !! k = Some q.
Proof.
  unfold merge_pending_request. destruct (pending !! key r); [destruct (newer r _)|];
    [intros [[<- ->]|[_ ?]]%lookup_insert_Some; auto|auto|intros [[<- ->]|[_ ?]]%lookup_insert_Some; auto].
Qed.

(** The merged request and those pending are there, or something at least as new is. *)
Lemma merge_covers pending r q :
  keyed pending → q = r ∨ (∃ k, pending !! k = Some q) →
  ∃ p, merge_pending_request pending r !! key p = Some p ∧ supersedes p q.
Proof.
  intros Hk Hq. unfold merge_pending_request. destruct (pending !! key r) as [o|] eqn:E.
  - pose proof (Hk _ _ E) as Ho. destruct (newer r o) eqn:Hn.
    + destruct Hq as [->|[k Hq]].
      * exists r. rewrite lookup_insert_eq. split; [done|apply supersedes_refl].
      * pose proof (Hk _ _ Hq) as <-. destruct (decide (key q = key r)) as [Heq|Hne].
        -- rewrite Heq, E in Hq. injection Hq as ->. exists r. rewrite lookup_insert_eq.
           split; [done|]. split; [done|by apply newer_asym].
        -- exists q. rewrite lookup_insert_ne by done. split; [done|apply supersedes_refl].
    + destruct Hq as [->|[k Hq]].
      * exists o. rewrite Ho. split; [done|by split].
      * exists q. pose proof (Hk _ _ Hq) as <-. split; [done|apply supersedes_refl].
  - destruct Hq as [->|[k Hq]].
    + exists r. rewrite lookup_insert_eq. split; [done|apply supersedes_refl].
    + pose proof (Hk _ _ Hq) as <-. exists q. rewrite lookup_insert_ne by congruence.
      split; [done|apply supersedes_refl].
Qed.

Lemma merge_all_keyed l pending : keyed pending → keyed (foldl merge_pending_request pending l).
Proof. revert pending. induction l; intros; simpl; auto using merge_keyed. Qed.

Lemma merge_all_from l pending k q :
  foldl merge_pending_request pending l !! k = Some q → q ∈ l ∨ pending !! k = Some q.
Proof.
  revert pending. induction l as [|r l IH]; intros pending; simpl; [auto|].
  intros [?|[->|?]%merge_from]%IH; rewrite elem_of_cons; auto.
Qed.

Lemma merge_all_covers l pending q :
  keyed pending → q ∈ l ∨ (∃ k, pending !! k = Some q) →
  ∃ p, foldl merge_pending_request pending l !! key p = Some p ∧ supersedes p q.
Proof.
  revert pending q. induction l as [|r l IH]; intros pending q Hk Hq; simpl.
  - destruct Hq as [?%elem_of_nil|[k Hq]]; [done|]. exists q. rewrite (Hk _ _ Hq).
    split; [done|apply supersedes_refl].
  - rewrite elem_of_cons in Hq.
    assert (Hq' : q ∈ l ∨ ∃ p, merge_pending_request pending r !! key p = Some p ∧ supersedes p q).
    { destruct Hq as [[->|?]|Hq]; [right|by left|right]; apply merge_covers; auto. }
    destruct Hq' as [?|(p & Hp & Hs)]; [by apply IH; auto using merge_keyed|].
    destruct (IH (merge_pending_request pending r) p) as (p' & Hp' & Hs');
      [by apply merge_keyed|by eauto|]. exists p'. split; [done|by eapply supersedes_trans].
Qed.

(** ** What the critical sections do *)

(** Every registration comes from an earlier one, and with a wake-up queued only if that
    one had. *)
Definition fewer_listeners (s s' : CoordinatorState) : Prop :=
  ∀ k l, cs_listeners s' !! k = Some l →
    ∃ l0, cs_listeners s !! k = Some l0 ∧ lr_id l0 = lr_id l ∧
          (lr_wake_queued l = true → lr_wake_queued l0 = true).

(** Every deferred request was deferred before, and current ones are still. *)
Definition fewer_deferred (s s' : CoordinatorState) : Prop :=
  ∀ k r, cs_deferred s' !! k = Some r →
    cs_deferred s !! k = Some r ∧ cs_revisions s' !! key r = cs_revisions s !! key r.

Lemma fewer_listeners_refl s : fewer_listeners s s.
Proof. intros k l Hl. eauto. Qed.
Lemma fewer_deferred_refl s : fewer_deferred s s.
Proof. by intros k r Hr. Qed.

Lemma register_listeners store app sy epoch s r s' :
  register_inspection store app sy epoch s = (r, s') → fewer_listeners s s'.
Proof. intros [= _ <-]. intros k l Hl. eauto. Qed.

Lemma finish_listeners s r : fewer_listeners s (finish_request s r).
Proof.
  intros k l. unfold finish_request. destruct (listener_key r) as [k'|]; [|eauto].
  destruct (existsb _ _); cbn; [eauto|]. intros [_ Hl]%lookup_delete_Some. eauto.
Qed.

Lemma remove_listeners s k id : fewer_listeners s (remove_listener s k id).
Proof.
  intros k' l. unfold remove_listener. destruct (listener_is_current s k id); cbn; [|eauto].
  intros [_ Hl]%lookup_delete_Some. eauto.
Qed.

Lemma runtime_remove_gone s k id : lr_id <$> cs_listeners (remove_listener s k id) !! k ≠ Some id.
Proof.
  unfold remove_listener, listener_is_current. case_bool_decide; cbn; [|done].
  by rewrite lookup_delete_eq.
Qed.

Lemma take_listeners s epoch k id l s' :
  take_deferred_requests s epoch k id = (l, s') → fewer_listeners s s'.
Proof.
  unfold take_deferred_requests. destruct (cs_listeners s !! k) as [o|] eqn:E;
    [|intros [= _ <-]; apply fewer_listeners_refl].
  destruct (negb _); [intros [= _ <-]; apply fewer_listeners_refl|]. intros [= _ <-] k' l'. cbn.
  intros [[<- <-]|[_ Hl]]%lookup_insert_Some; [by exists o|eauto].
Qed.

Lemma take_quiet s epoch k id l s' r :
  take_deferred_requests s epoch k id = (l, s') → cs_listeners s' !! k = Some r → lr_id r = id →
  lr_wake_queued r = false.
Proof.
  unfold take_deferred_requests. destruct (cs_listeners s !! k) as [o|] eqn:E; [|intros [= _ <-]; congruence].
  destruct (Z.eqb_spec (lr_id o) id); cbn [negb]; intros [= _ <-]; cbn.
  - rewrite lookup_insert_eq. by intros [= <-].
  - rewrite E. by intros [= ->].
Qed.

(** What is taken, and what stays. *)
Lemma take_spec s epoch k id l s' :
  take_deferred_requests s epoch k id = (l, s') →
  cs_revisions s' = cs_revisions s ∧
  (∀ r, r ∈ l → ∃ k', cs_deferred s !! k' = Some r) ∧
  (∀ k' r, cs_deferred s' !! k' = Some r → cs_deferred s !! k' = Some r) ∧
  (∀ k' r, cs_deferred s !! k' = Some r → request_is_current_locked s epoch r = true →
     r ∈ l ∨ cs_deferred s' !! k' = Some r).
Proof.
  unfold take_deferred_requests. destruct (cs_listeners s !! k) as [o|] eqn:E;
    [|intros [= <- <-]; split_and!; [done|by intros r ?%elem_of_nil|done|by auto]].
  destruct (negb _); [intros [= <- <-]; split_and!; [done|by intros r ?%elem_of_nil|done|by auto]|].
  intros [= <- <-]. cbn. split_and!; [done|..].
  - intros r [_ Hr]%list_elem_of_filter. apply elem_of_btree_values in Hr as (k' & Hr).
    apply map_lookup_filter_Some in Hr as [? _]. eauto.
  - by intros k' r [? _]%lookup_difference_Some.
  - intros k' r Hr Hc. destruct (waits_for k r) eqn:Hw.
    + left. apply list_elem_of_filter. split; [done|]. apply elem_of_btree_values. exists k'.
      by apply map_lookup_filter_Some.
    + right. apply lookup_difference_Some. split; [done|]. apply map_lookup_filter_None. right.
      intros r' Hr'. rewrite Hr in Hr'. injection Hr' as <-. cbn. by rewrite Hw.
Qed.

(** A listener that is woken takes everything that waits for it. *)
Lemma take_all s epoch k id l s' o :
  take_deferred_requests s epoch k id = (l, s') → cs_listeners s !! k = Some o → lr_id o = id →
  ∀ k' r, cs_deferred s' !! k' = Some r → listener_key r ≠ Some k.
Proof.
  unfold take_deferred_requests. intros Ht Ho Hid. rewrite Ho, Hid, Z.eqb_refl in Ht. cbn in Ht.
  injection Ht as _ <-. cbn. intros k' r [Hr Hf]%lookup_difference_Some Heq.
  apply map_lookup_filter_None in Hf as [Hf|Hf]; [congruence|]. apply (Hf r Hr). cbn.
  by apply bool_decide_eq_true.
Qed.

(** *** The stages *)

Section stages.
Context {H : Host} {C : StoreCodec} {SC : SyncthingCodec}.
Context (http : nat → HttpRequest → Node → HttpAnswer * Node).
Context (cwd : Path) (dir_len : gmap string Node → Z) (fuel : nat).

Lemma or_finish_Err {A} (m : Op A) w o w' : or_finish m w = (Err o, w') → o = Finished.
Proof. unfold or_finish, map_err. destruct (m w) as [[]]; congruence. Qed.

Lemma stage_inspect_defer r w w' :
  stage_inspect http cwd dir_len fuel r w = (Err DeferForSyncthing, w') → is_Some (ir_syncthing r).
Proof.
  unfold stage_inspect. intros [(report & w1 & _ & Hm)|(o & Hm & [= <-])]%ST_bind_inv;
    [|by apply or_finish_Err in Hm].
  case_bool_decide; [done|]. by destruct (ir_syncthing r).
Qed.

Lemma stage_prepare_defer r report w w' :
  stage_prepare r report w ≠ (Err DeferForSyncthing, w').
Proof.
  unfold stage_prepare. intros [(plan & w1 & _ & Hm)|(o & Hm & [= <-])]%ST_bind_inv;
    [by destruct plan|by apply or_finish_Err in Hm].
Qed.

Lemma stage_sweep_defer r boundary plan x w w' :
  stage_sweep http r boundary plan w = (x, w') → outcome x = DeferForSyncthing → is_Some (ir_syncthing r).
Proof.
  unfold stage_sweep. intros [(swept & w1 & _ & Hm)|(o & Hm & ->)]%ST_bind_inv;
    [|apply or_finish_Err in Hm; by rewrite Hm].
  destruct swept as [sweep|]; [|by injection Hm as <- _].
  apply ST_bind_inv in Hm as [([] & w2 & _ & Hm)|(o & Hm & ->)]; [by injection Hm as <- _|].
  intros _. unfold stage_publish in Hm. by destruct (ir_syncthing r).
Qed.
End stages.

(** ** The invariant *)

(** Some thread runs for the registration, or is about to. *)
Definition served (c : Coordinator) (k : SyncthingListenerKey) (id : Z) : Prop :=
  (∃ todo, co_worker c = Spawning k id todo) ∨
  (∃ t, t ∈ co_listeners c ∧ li_key t = k ∧ li_id t = id ∧ li_pc t ≠ Ended) ∨
  (∃ error, MsgListenerStopped k id error ∈ co_channel c) ∨ co_alive c = false.

(** The worker will see the wake-up. *)
Definition wake_coming (c : Coordinator) (k : SyncthingListenerKey) (id : Z) : Prop :=
  MsgSyncthingEvent k id ∈ co_channel c ∨
  ∃ t, t ∈ co_listeners c ∧ li_key t = k ∧ li_id t = id ∧ li_pc t = Sending.

Record coordinator_wf (c : Coordinator) : Prop := {
  wf_alive : co_alive c = false → co_sending c = [];
  wf_stopped : co_worker c = Stopped →
    co_alive c = false ∧ ∀ t, t ∈ co_listeners c → li_pc t = Ended;
  wf_pending pending : co_worker c = Draining pending → keyed pending;
  wf_decided r todo : co_worker c = Decided r DeferForSyncthing todo → is_Some (ir_syncthing r);
  wf_deferred k r : cs_deferred (co_state c) !! k = Some r →
    key r = k ∧ is_Some (ir_syncthing r) ∧ latest c r;
  wf_wake k l : cs_listeners (co_state c) !! k = Some l → lr_wake_queued l = true →
    wake_coming c k (lr_id l);
  wf_served k l : cs_listeners (co_state c) !! k = Some l → served c k (lr_id l);
}.

Lemma wf_start w : coordinator_wf (try_new w).
Proof. split; cbn; try done. Qed.

(** The clauses about deferred requests after a critical section that only removes some. *)
Definition deferred_wf (s : CoordinatorState) (epoch : Z) : Prop :=
  ∀ k r, cs_deferred s !! k = Some r →
    key r = k ∧ is_Some (ir_syncthing r) ∧ request_is_current_locked s epoch r = true.

Lemma deferred_fewer s s' epoch : fewer_deferred s s' → deferred_wf s epoch → deferred_wf s' epoch.
Proof.
  intros Hf Hs k r Hr. apply Hf in Hr as [Hr Hrev]. apply Hs in Hr as (Hk & Hy & Hc).
  split_and!; [done..|]. apply is_current_true. apply is_current_true in Hc as [He Hc].
  by rewrite Hrev.
Qed.

Lemma register_deferred store app sy epoch s r s' :
  register_inspection store app sy epoch s = (r, s') → deferred_wf s epoch → deferred_wf s' epoch.
Proof.
  intros [= _ <-] Hs k' r'. cbn. intros [Hne Hr]%lookup_delete_Some.
  apply Hs in Hr as (<- & Hy & Hc). split_and!; [done..|]. apply is_current_true.
  apply is_current_true in Hc as [He Hc]. cbn. by rewrite lookup_insert_ne.
Qed.

Lemma finish_deferred s r : fewer_deferred s (finish_request s r).
Proof.
  intros k q. unfold finish_request. destruct (listener_key r) as [k'|]; [|done].
  destruct (existsb _ _); cbn; by intros [_ ?]%lookup_delete_Some.
Qed.

Lemma remove_deferred s k id : fewer_deferred s (remove_listener s k id).
Proof. unfold remove_listener. by destruct (listener_is_current s k id). Qed.

Lemma take_deferred s epoch k id l s' :
  take_deferred_requests s epoch k id = (l, s') → fewer_deferred s s'.
Proof. intros (Hrev & _ & Hd & _)%take_spec k' r Hr. rewrite Hrev. eauto. Qed.

Lemma defer_deferred s epoch k r o s' :
  is_Some (ir_syncthing r) → register_deferral s epoch k r = (o, s') → deferred_wf s epoch →
  deferred_wf s' epoch.
Proof.
  intros Hy. unfold register_deferral.
  destruct (request_is_current_locked s epoch r) eqn:Hc; cbn [negb]; [|by intros [= _ <-]].
  intros Hr Hs.
  assert (Hi : deferred_wf (set_deferred (<[key r := r]> (cs_deferred s)) s) epoch).
  { intros k' r'. cbn. intros [[<- <-]|[_ ?]]%lookup_insert_Some; [done|by apply Hs]. }
  cbn in Hr. destruct (cs_listeners s !! k); injection Hr as _ <-; [done|].
  intros k' r' Hr'. apply Hi in Hr'. done.
Qed.

Lemma merge_message_state pending s epoch m pending' s' :
  merge_worker_message pending s epoch m = (pending', s') →
  fewer_deferred s s' ∧ fewer_listeners s s' ∧ (keyed pending → keyed pending').
Proof.
  destruct m as [r|k id|k id error]; simpl.
  - intros [= <- <-]. split_and!; eauto using fewer_deferred_refl, fewer_listeners_refl, merge_keyed.
  - destruct (take_deferred_requests s epoch k id) as [l s1] eqn:E. intros [= <- <-].
    split_and!; eauto using take_deferred, take_listeners, merge_all_keyed.
  - intros [= <- <-]. split_and!; eauto using remove_deferred, remove_listeners.
Qed.

Section invariant.
Context {H : Host} {C : StoreCodec} {SC : SyncthingCodec}.
Context (http : nat → HttpRequest → Node → HttpAnswer * Node).
Context (cwd : Path) (dir_len : gmap string Node → Z) (fuel : nat).
Notation step := (step http cwd dir_len fuel).
Notation run := (run http cwd dir_len fuel).

(** The critical section of a listener that marks its wake-up. *)
Lemma mark_spec s k id marked s' :
  mark_listener_wake_queued s k id = (marked, s') →
  cs_deferred s' = cs_deferred s ∧ cs_revisions s' = cs_revisions s ∧
  ∀ k' l, cs_listeners s' !! k' = Some l →
    ∃ l0, cs_listeners s !! k' = Some l0 ∧ lr_id l0 = lr_id l ∧
      (lr_wake_queued l = true → lr_wake_queued l0 = true ∨ (k' = k ∧ lr_id l = id ∧ marked = true)).
Proof.
  unfold mark_listener_wake_queued. destruct (cs_listeners s !! k) as [o|] eqn:E.
  2: { intros [= <- <-]. split_and!; [done..|]. intros k' l Hl. exists l. auto. }
  destruct (negb (lr_id o =? id) || lr_wake_queued o) eqn:Hb; intros [= <- <-]; split_and!; try done.
  - intros k' l Hl. exists l. auto.
  - cbn. intros k' l [[<- <-]|[_ Hl]]%lookup_insert_Some; [|exists l; auto].
    apply orb_false_iff in Hb as [Hb _]. apply negb_false_iff, Z.eqb_eq in Hb. exists o. cbn.
    split_and!; [done..|]. intros _. by right.
Qed.

(** *** Deferred requests *)

Lemma deferred_step e c c' :
  step e c c' → (∀ r todo, co_worker c = Decided r DeferForSyncthing todo → is_Some (ir_syncthing r)) →
  deferred_wf (co_state c) (co_epoch c) → deferred_wf (co_state c') (co_epoch c').
Proof.
  intros Hstep Hdec Hd.
  destruct Hstep as [e c c' Hs|e c c' Hs|t t' l1 l2 c c' _ Hs]; destruct Hs; coord; try done.
  all: try solve [eapply deferred_fewer, Hd; eauto using finish_deferred, remove_deferred].
  all: try match goal with Hi : merge_worker_message _ _ _ _ = _ |- _ =>
         apply merge_message_state in Hi as (? & _ & _); by eapply deferred_fewer end.
  - by eapply register_deferred.
  - match goal with Hi : invalidate _ _ = _ |- _ => injection Hi as <- _ end. by intros k r Hr.
  - by eapply defer_deferred; [eapply Hdec|..].
  - match goal with Hi : mark_listener_wake_queued _ _ _ = _ |- _ =>
      apply mark_spec in Hi as (Hdef & Hrev & _) end.
    eapply deferred_fewer, Hd. intros k r Hr. by rewrite Hrev, <-Hdef.
Qed.

(** *** Control *)

Definition control_wf (c : Coordinator) : Prop :=
  (co_alive c = false → co_sending c = []) ∧
  (co_worker c = Stopped → co_alive c = false ∧ ∀ t, t ∈ co_listeners c → li_pc t = Ended) ∧
  (∀ pending, co_worker c = Draining pending → keyed pending) ∧
  (∀ r todo, co_worker c = Decided r DeferForSyncthing todo → is_Some (ir_syncthing r)).

Lemma control_client e c c' : client_step e c c' → control_wf c → control_wf c'.
Proof.
  intros Hs (Ha & Hst & Hp & Hdec). destruct Hs; unfold control_wf; coord; split_and!; auto.
  - congruence.
  - intros Hd%Ha. rewrite Hd in H0. by destruct l1.
  - intros Hw. by destruct (Hst Hw).
Qed.

Lemma decide_with_cases {A} (P : Worker → Prop) r todo (x : result InspectionOutcome A) next :
  (∀ a, x = Ok a → P (next a)) → (∀ o, x = Err o → P (Decided r o todo)) → P (decide_with r todo x next).
Proof. intros H1 H2. destruct x; cbn; auto. Qed.

Lemma control_worker e c c' :
  worker_step http cwd dir_len fuel e c c' → control_wf c → control_wf c'.
Proof.
  intros Hs (Ha & Hst & Hp & Hdec). destruct Hs; unfold control_wf; coord.
  all: try (split_and!; [done|congruence..]).
  all: try (split_and!; [done|repeat case_match; congruence..]).
  - match goal with Hm : merge_worker_message _ _ _ _ = _ |- _ =>
      apply merge_message_state in Hm as (_ & _ & Hk) end.
    split_and!; [done|done| |done]. intros p [= <-]. apply Hk. by intros k r ?%lookup_empty_Some.
  - split_and!; [done| |done|done]. intros _. split; [done|]. by apply Forall_forall.
  - match goal with Hm : merge_worker_message _ _ _ _ = _ |- _ =>
      apply merge_message_state in Hm as (_ & _ & Hk) end.
    split_and!; [done|done| |done]. intros p [= <-]. eauto.
  - apply decide_with_cases; [intros a _|intros o ->]; split_and!; try done.
    intros q l [= <- -> _]. by eapply stage_inspect_defer.
  - apply decide_with_cases; [intros a _|intros o ->]; split_and!; try done.
    intros q l [= <- -> _]. by eapply stage_prepare_defer in H1.
  - split_and!; try done. intros q l [= <- Ho _]. by eapply stage_sweep_defer.
Qed.

Lemma control_step e c c' : step e c c' → control_wf c → control_wf c'.
Proof.
  intros [? ? ? Hs|? ? ? Hs|t t' l1 l2 c0 c1 Hl Hs]; [by eapply control_client|by eapply control_worker|].
  intros (Ha & Hst & Hp & Hdec).
  assert (Hns : co_worker c0 = Stopped → li_pc t = Ended).
  { intros [_ He]%Hst. apply He. rewrite Hl. apply elem_of_app. right. by left. }
  destruct Hs; unfold control_wf; coord; split_and!; try done;
    intros Hw%Hns; congruence.
Qed.
(** *** Listeners *)

Definition listeners_wf (c : Coordinator) : Prop :=
  ∀ k l, cs_listeners (co_state c) !! k = Some l →
    (lr_wake_queued l = true → wake_coming c k (lr_id l)) ∧ served c k (lr_id l).

Lemma listeners_fewer c c' :
  fewer_listeners (co_state c) (co_state c') →
  (∀ k l, cs_listeners (co_state c') !! k = Some l → lr_wake_queued l = true →
     wake_coming c k (lr_id l) → wake_coming c' k (lr_id l)) →
  (∀ k l, cs_listeners (co_state c') !! k = Some l → served c k (lr_id l) → served c' k (lr_id l)) →
  listeners_wf c → listeners_wf c'.
Proof.
  intros Hf Hw Hs Hc k l Hl. pose proof Hl as (l0 & Hl0 & Hid & Hq)%Hf.
  apply Hc in Hl0 as [Hw0 Hs0]. rewrite Hid in *. split; [|by eapply Hs].
  intros Ht. eapply Hw; eauto.
Qed.

Lemma wake_grows c c' k id :
  (∀ m, m ∈ co_channel c → m ∈ co_channel c') → co_listeners c' = co_listeners c →
  wake_coming c k id → wake_coming c' k id.
Proof. intros Hm Hl [?|?]; [left; auto|right]. by rewrite Hl. Qed.

Lemma served_grows c c' k id :
  (∀ m, m ∈ co_channel c → m ∈ co_channel c') → co_listeners c' = co_listeners c →
  (co_alive c = false → co_alive c' = false) →
  (∀ todo, co_worker c = Spawning k id todo → co_worker c' = co_worker c) →
  served c k id → served c' k id.
Proof.
  intros Hm Hl Ha Hw [[todo Ht]|[Ht|[[error He]|Hd]]].
  - left. exists todo. by rewrite (Hw _ Ht).
  - right; left. by rewrite Hl.
  - right; right; left. eauto.
  - right; right; right. auto.
Qed.

Lemma listeners_client e c c' : client_step e c c' → listeners_wf c → listeners_wf c'.
Proof.
  intros Hs. destruct Hs.
  - apply listeners_fewer; [by eapply register_listeners|by intros..].
  - apply listeners_fewer; coord; [apply fewer_listeners_refl|intros k l _ _|intros k l _].
    + apply wake_grows; coord; [|done]. intros m Hm. apply send_channel. by left.
    + apply served_grows; coord; try done. intros m Hm. apply send_channel. by left.
  - intros _. match goal with Hi : invalidate _ _ = _ |- _ => injection Hi as <- _ end. by intros k l Hl.
  - intros Hc k l Hl. apply Hc in Hl as [Hw _]. split; [done|]. by right; right; right.
  - done.
Qed.

(** A message the worker takes: the wake-up it may have been, and the end. *)
Lemma listeners_message pending c m ms pending' s x :
  co_channel c = m :: ms → (∀ k id todo, co_worker c ≠ Spawning k id todo) →
  merge_worker_message pending (co_state c) (co_epoch c) m = (pending', s) →
  listeners_wf c → listeners_wf (with_worker x (with_channel ms (with_state s c))).
Proof.
  intros Hm Hns Hmerge. pose proof Hmerge as (_ & Hf & _)%merge_message_state.
  apply listeners_fewer; coord; [done|intros k l Hl Hq|intros k l Hl].
  - intros [Hin|Ht]; [|by right]. rewrite Hm in Hin. apply elem_of_cons in Hin as [<-|Hin]; [|by left].
    simpl in Hmerge. destruct (take_deferred_requests _ _ _ _) as [d s'] eqn:Et.
    injection Hmerge as _ ->. by rewrite (take_quiet _ _ _ _ _ _ _ Et Hl) in Hq.
  - intros [[todo Hw]|[Ht|[[error Hin]|Hd]]]; [by apply Hns in Hw|by right; left| |by right; right; right].
    rewrite Hm in Hin. apply elem_of_cons in Hin as [<-|Hin]; [|by right; right; left; eauto].
    simpl in Hmerge. injection Hmerge as _ <-.
    destruct (runtime_remove_gone (co_state c) k (lr_id l)). by rewrite Hl.
Qed.

Lemma listeners_worker e c c' :
  worker_step http cwd dir_len fuel e c c' → listeners_wf c → listeners_wf c'.
Proof.
  intros Hs. destruct Hs.
  all: try (eapply listeners_message; eauto; congruence).
  all: try (apply listeners_fewer; coord;
    [apply fewer_listeners_refl || apply finish_listeners|by intros|
     intros k0 l0 _; apply served_grows; coord; try done; congruence]).
  - intros Hc k' l Hl. unfold register_deferral in *. coord.
    assert (Hold : cs_listeners (co_state c) !! k' = Some l →
      (lr_wake_queued l = true → wake_coming c k' (lr_id l)) ∧
      ((∃ t, t ∈ co_listeners c ∧ li_key t = k' ∧ li_id t = lr_id l ∧ li_pc t ≠ Ended) ∨
       (∃ error, MsgListenerStopped k' (lr_id l) error ∈ co_channel c) ∨ co_alive c = false)).
    { intros Hl'. apply Hc in Hl' as [Hw [[todo' Ht]|Ht]]; [congruence|by split]. }
    destruct (negb _); [|cbn in *; destruct (cs_listeners (co_state c) !! k)];
      match goal with Hr : _ = (o, s) |- _ => injection Hr as <- <- end; cbn in Hl.
    1-2: by apply Hold in Hl as [Hw Ht]; split; [|right].
    apply lookup_insert_Some in Hl as [[<- <-]|[_ Hl]]; [|by apply Hold in Hl as [Hw Ht]; split; [|right]].
    split; [done|]. left. by exists todo.
  - intros Hc k' l Hl. apply Hc in Hl as [Hw _]. split; [done|]. by right; right; right.
  - intros Hc k' l Hl. apply Hc in Hl as [Hw Hs]. split.
    + intros [?|(t & Ht & ?)]%Hw; [by left|right]. exists t. split; [by right|done].
    + destruct Hs as [[todo' Ht]|[(t & Ht & ?)|[Hs|Hs]]]; right; [left..|right; by left|by right; right].
      * exists (new_listener k id). split; [by left|].
        assert (Spawning k id todo = Spawning k' (lr_id l) todo') by congruence. by simplify_eq/=.
      * exists t. split; [by right|done].
  - apply listeners_fewer; coord; [apply remove_listeners|by intros|]. intros k' l Hl.
    intros [[todo' Ht]|Hs]; [|by right].
    assert (Spawning k id todo = Spawning k' (lr_id l) todo') by congruence. simplify_eq.
    destruct (runtime_remove_gone (co_state c) k' (lr_id l)). by rewrite Hl.
Qed.

(** A listener thread that moves: the others stay as they are, so only what the thread
    itself stood for has to be shown again. *)
Section moves.
Context (c c' : Coordinator) (l1 l2 : list Listener) (t t' : Listener).
Context (Hl : co_listeners c = l1 ++ t :: l2).
Context (Hchannel : ∀ m, m ∈ co_channel c → m ∈ co_channel c').
Context (Hworker : co_worker c' = co_worker c) (Halive : co_alive c' = co_alive c).
Notation c1 := (with_listeners (l1 ++ t' :: l2) c').

Lemma wake_moves k id :
  (li_key t = k → li_id t = id → li_pc t = Sending → wake_coming c1 k id) →
  wake_coming c k id → wake_coming c1 k id.
Proof.
  intros Ht [Hm|(x & Hx & Hk & Hid & Hp)]; [by left; apply Hchannel|].
  rewrite Hl, elem_of_app, elem_of_cons in Hx. destruct Hx as [Hx|[->|Hx]]; [|by apply Ht|]; right;
    exists x; (split; [|done]); coord; rewrite elem_of_app, elem_of_cons; auto.
Qed.

Lemma served_moves k id :
  (li_key t = k → li_id t = id → li_pc t ≠ Ended → served c1 k id) →
  served c k id → served c1 k id.
Proof.
  intros Ht [[todo Hw]|[(x & Hx & Hk & Hid & Hp)|[[error He]|Hd]]].
  - left. exists todo. coord. by rewrite Hworker.
  - rewrite Hl, elem_of_app, elem_of_cons in Hx. destruct Hx as [Hx|[->|Hx]]; [|by apply Ht|]; right; left;
      exists x; (split; [|done]); coord; rewrite elem_of_app, elem_of_cons; auto.
  - right; right; left. coord. eauto.
  - right; right; right. coord. by rewrite Halive.
Qed.
End moves.

Lemma listener_identity t c t' c' :
  listener_step http t c t' c' → li_key t' = li_key t ∧ li_id t' = li_id t.
Proof. intros []; [done| |done..]. unfold after_poll. destruct answer; [done|]. by destruct (is_retryable _). Qed.

Lemma listeners_listener t t' l1 l2 c c' :
  control_wf c → co_listeners c = l1 ++ t :: l2 → listener_step http t c t' c' →
  listeners_wf c → listeners_wf (with_listeners (l1 ++ t' :: l2) c').
Proof.
  intros (_ & Hst & _) Hl Hs Hc. pose proof (listener_identity _ _ _ _ Hs) as [Hk Hid].
  assert (Hns : co_worker c = Stopped → li_pc t = Ended).
  { intros [_ He]%Hst. apply He. rewrite Hl. apply elem_of_app. right. by left. }
  assert (Hin : ∀ x, x ∈ l1 ++ x :: l2) by (intros x; apply elem_of_app; right; by left).
  destruct Hs.
  - apply (listeners_fewer c); [apply fewer_listeners_refl|intros k l Hkl _|intros k l Hkl|done].
    + apply (wake_moves c c _ _ t); [done..|congruence].
    + apply (served_moves c c _ _ t); [done..|]. intros <- Hi _.
      destruct (co_alive c) eqn:Hal; [|by right; right; right]. right; left.
      eexists. split; [apply Hin|]. split; [done|]. split; [done|].
      unfold listener_is_current. rewrite bool_decide_eq_true_2; [done|].
      coord. rewrite Hkl. simpl. congruence.
  - apply (listeners_fewer c); [apply fewer_listeners_refl|intros k l Hkl _|intros k l Hkl|done].
    + apply (wake_moves c (with_world w c) _ _ t); [done..|congruence].
    + apply (served_moves c (with_world w c) _ _ t); [done..|]. intros <- Hi _. right; left.
      eexists. split; [apply Hin|]. rewrite Hk, Hid. split; [done|]. split; [done|].
      unfold after_poll. destruct answer; [by destruct (_ || _)|by destruct (is_retryable _)].
  - match goal with Hi : mark_listener_wake_queued _ _ _ = _ |- _ =>
      pose proof Hi as (_ & _ & Hm)%mark_spec end.
    intros k l Hkl. coord. apply Hm in Hkl as (l0 & Hl0 & Hid0 & Hq). apply Hc in Hl0 as [Hw Hs].
    rewrite Hid0 in *. split.
    + intros [Hq'|(-> & -> & ->)]%Hq.
      * eapply (wake_moves c (with_state s c) _ _ t), Hw, Hq'; [done..|congruence].
      * right. eexists. split; [apply Hin|done].
    + eapply (served_moves c (with_state s c) _ _ t), Hs; [done..|]. intros <- Hi _. right; left.
      eexists. split; [apply Hin|]. split; [done|]. split; [done|]. by destruct marked.
  - assert (Hw : co_worker c ≠ Stopped) by (intros ?%Hns; congruence).
    apply (listeners_fewer c); coord; [apply fewer_listeners_refl|intros k l Hkl _|intros k l Hkl|done].
    + apply (wake_moves c _ _ _ t); coord; try done; [intros m ?; apply send_channel; by left|].
      intros <- <- _. left. coord. apply send_channel. by right.
    + apply (served_moves c _ _ _ t); coord; try done; [intros m ?; apply send_channel; by left|].
      intros <- <- _. right; left. eexists. split; [apply Hin|]. split; [done|]. split; [done|].
      by destruct (co_worker c).
  - apply (listeners_fewer c); [apply fewer_listeners_refl|intros k l Hkl _|intros k l Hkl|done].
    + apply (wake_moves c c _ _ t); [done..|congruence].
    + apply (served_moves c c _ _ t); [done..|]. intros <- Hi _. right; left.
      eexists. split; [apply Hin|done].
  - assert (Hw : co_worker c ≠ Stopped) by (intros ?%Hns; congruence).
    apply (listeners_fewer c); coord; [apply fewer_listeners_refl|intros k l Hkl _|intros k l Hkl|done].
    + apply (wake_moves c _ _ _ t); coord; try done; [intros m ?; apply send_channel; by left|congruence].
    + apply (served_moves c _ _ _ t); coord; try done; [intros m ?; apply send_channel; by left|].
      intros <- <- _. right; right; left. exists error. coord. apply send_channel. by right.
Qed.
(** *** Requests *)

(** The request the worker is busy with, once it was found current. *)
Definition active (x : Worker) : option InspectionRequest :=
  match x with
  | Inspecting r _ | Inspected r _ _ _ | Preparing r _ _ _ | Prepared r _ _ _
  | Relocking r _ _ _ | Sweeping r _ _ _ | Decided r _ _ => Some r
  | _ => None
  end.

(** A request deferred under the key of the active one is no newer. *)
Definition active_wf (c : Coordinator) : Prop :=
  ∀ r k q, active (co_worker c) = Some r → cs_deferred (co_state c) !! k = Some q → key q = key r →
    supersedes r q.

Lemma current_supersedes s epoch r q :
  request_is_current_locked s epoch r = true → request_is_current_locked s epoch q = true →
  key q = key r → supersedes r q.
Proof.
  intros [He Hr]%is_current_true [Hf Hq]%is_current_true Hk. split; [done|].
  rewrite Hk, Hr in Hq. injection Hq as Hq. unfold newer. rewrite He, Hf, Hq, Z.ltb_irrefl, Z.eqb_refl.
  by rewrite Z.ltb_irrefl.
Qed.

Lemma active_decide {A} r todo (x : result InspectionOutcome A) next :
  (∀ a, active (next a) = Some r) → active (decide_with r todo x next) = Some r.
Proof. intros Hn. by destruct x; cbn. Qed.

Lemma requests_decide {A} r todo (x : result InspectionOutcome A) next :
  (∀ a, worker_requests (next a) = r :: todo) →
  worker_requests (decide_with r todo x next) = r :: todo.
Proof. intros Hn. by destruct x; cbn. Qed.

(** What a step does to the deferred requests. *)
Lemma deferred_from e c c' k q :
  step e c c' → cs_deferred (co_state c') !! k = Some q →
  cs_deferred (co_state c) !! k = Some q ∨ active (co_worker c) = Some q ∧ active (co_worker c') = None.
Proof.
  intros Hstep.
  destruct Hstep as [e c c' Hs|e c c' Hs|t t' l1 l2 c c' _ Hs]; destruct Hs; coord; auto.
  - match goal with Hi : register_inspection _ _ _ _ _ = _ |- _ => injection Hi as _ <- end.
    cbn. intros [_ ?]%lookup_delete_Some. auto.
  - match goal with Hi : invalidate _ _ = _ |- _ => injection Hi as <- _ end. cbn. by intros ?%lookup_empty_Some.
  - match goal with Hi : merge_worker_message _ _ _ _ = _ |- _ =>
      apply merge_message_state in Hi as (Hf & _) end. intros [? _]%Hf. auto.
  - match goal with Hi : merge_worker_message _ _ _ _ = _ |- _ =>
      apply merge_message_state in Hi as (Hf & _) end. intros [? _]%Hf. auto.
  - intros [? _]%finish_deferred. auto.
  - unfold register_deferral in *. destruct (negb _); [simplify_eq; auto|].
    cbn in *. destruct (cs_listeners (co_state c) !! k0); simplify_eq; cbn;
      intros [[<- <-]|[_ ?]]%lookup_insert_Some; auto; right;
      match goal with Hw : co_worker c = _ |- _ => by rewrite Hw end.
  - intros [? _]%remove_deferred. auto.
  - match goal with Hi : mark_listener_wake_queued _ _ _ = _ |- _ =>
      apply mark_spec in Hi as (-> & _) end. auto.
Qed.

Lemma active_from e c c' r :
  step e c c' → active (co_worker c') = Some r →
  active (co_worker c) = Some r ∨
  co_state c' = co_state c ∧ co_epoch c' = co_epoch c ∧ latest c r.
Proof.
  intros Hstep.
  destruct Hstep as [e c c' Hs|e c c' Hs|t t' l1 l2 c c' _ Hs]; destruct Hs; coord; auto; try done.
  all: match goal with Hw : co_worker _ = _ |- _ => rewrite Hw end; unfold decide_with;
    repeat case_match; cbn; intros [= <-]; auto.
Qed.

Lemma active_step e c c' :
  step e c c' → deferred_wf (co_state c) (co_epoch c) → active_wf c → active_wf c'.
Proof.
  intros Hs Hd Ha r k q Hr Hq Hk. destruct (deferred_from _ _ _ _ _ Hs Hq) as [Hq'|[_ Hn]]; [|congruence].
  destruct (active_from _ _ _ _ Hs Hr) as [Hr'|(Hst & He & Hc)]; [by eapply Ha|].
  apply Hd in Hq' as (_ & _ & Hcq). by eapply current_supersedes.
Qed.

Lemma merge_message_from pending s epoch m pending' s' r :
  merge_worker_message pending s epoch m = (pending', s') → r ∈ btree_values pending' →
  r ∈ btree_values pending ∨ m = MsgInspect r ∨ ∃ k, cs_deferred s !! k = Some r.
Proof.
  rewrite !elem_of_btree_values. destruct m as [q|k id|k id error]; simpl.
  - intros [= <- <-] (k & [->|?]%merge_from); eauto.
  - destruct (take_deferred_requests s epoch k id) as [l s1] eqn:E. intros [= <- <-] (k' & Hr).
    apply merge_all_from in Hr as [Hr|?]; [|eauto]. apply take_spec in E as (_ & Hl & _). eauto.
  - intros [= <- <-] ?. auto.
Qed.

(** A worker step: where the requests it works on come from. *)
Lemma requests_from e c c' r :
  worker_step http cwd dir_len fuel e c c' → r ∈ worker_requests (co_worker c') → in_flight c r.
Proof.
  intros Hs. unfold in_flight. destruct Hs; coord;
    try match goal with Hm : merge_worker_message _ _ _ _ = _ |- _ =>
      intros Hr; apply (merge_message_from _ _ _ _ _ _ _ Hm) in Hr; revert Hr end;
    match goal with Hw : co_worker _ = _ |- _ => rewrite ?Hw end; unfold decide_with;
    repeat case_match; cbn; rewrite ?elem_of_cons; auto.
  - intros [Hr|[->|?]]; [by apply elem_of_btree_values in Hr as (k & ?%lookup_empty_Some)| |by auto].
    right; left. match goal with Hc : co_channel c = _ |- _ => rewrite Hc end. by left.
  - intros [Hr|[->|?]]; [by auto| |by auto].
    right; left. match goal with Hc : co_channel c = _ |- _ => rewrite Hc end. by left.
Qed.

(** Where the messages in the channel come from. *)
Lemma channel_from e c c' r :
  step e c c' → MsgInspect r ∈ co_channel c' → MsgInspect r ∈ co_channel c ∨ r ∈ co_sending c.
Proof.
  intros Hs. destruct Hs as [e c c' Hs|e c c' Hs|t t' l1 l2 c c' _ Hs]; destruct Hs; coord; auto;
    try (intros [?|[[=] _]]%send_channel; by auto).
  - intros [?|[[= <-] _]]%send_channel; [by auto|right].
    match goal with Hc : co_sending c = _ |- _ => rewrite Hc end. apply elem_of_app. right. by left.
  - intros Hm. left. match goal with Hc : co_channel c = _ |- _ => rewrite Hc end. by right.
  - intros Hm. left. match goal with Hc : co_channel c = _ |- _ => rewrite Hc end. by right.
Qed.

(** A step brings in no request that was not queued. *)
Lemma flight_from e c c' r : step e c c' → in_flight c' r → in_flight c r ∨ e = Queued r.
Proof.
  intros Hs [Hin|[Hin|[Hin|[k Hin]]]].
  - destruct Hs as [e c c' Hs|e c c' Hs|t t' l1 l2 c c' _ Hs]; destruct Hs; coord;
      try (left; by left).
    + apply elem_of_cons in Hin as [->|?]; [by right|by left; left].
    + left; left. match goal with Hc : co_sending c = _ |- _ => rewrite Hc end.
      apply elem_of_app in Hin as [?|?]; apply elem_of_app; [by left|by right; right].
  - left. destruct (channel_from _ _ _ _ Hs Hin); [right; by left|by left].
  - left. destruct Hs as [e c c' Hs|e c c' Hs|t t' l1 l2 c c' _ Hs]; [|by eapply requests_from|];
      destruct Hs; coord; right; right; by left.
  - left. destruct (deferred_from _ _ _ _ _ Hs Hin) as [?|[Ha _]]; [by right; right; right; eauto|].
    right; right; left. destruct (co_worker c); try done; injection Ha as ->; by left.
Qed.
(** The request, or one at least as new, is still on its way or has come to its end. *)
Definition kept (e : Event) (c' : Coordinator) (r : InspectionRequest) : Prop :=
  ∃ q, supersedes q r ∧ (in_flight c' q ∨ e = Completed q).

Lemma kept_self e c' r : in_flight c' r → kept e c' r.
Proof. intros Hr. exists r. split; [apply supersedes_refl|by left]. Qed.

Lemma kept_sending e c c' r : step e c c' → control_wf c → r ∈ co_sending c → kept e c' r.
Proof.
  intros Hs (Ha & Hst & _) Hr. apply kept_self.
  destruct Hs as [e c c' Hs|e c c' Hs|t t' l1 l2 c c' _ Hs]; destruct Hs; unfold in_flight; coord;
    try (by left).
  - left. by right.
  - match goal with Hc : co_sending c = _ |- _ => rename Hc into Hl end. rewrite Hl in Hr.
    apply elem_of_app in Hr as [?|[->|?]%elem_of_cons]; [left; apply elem_of_app; auto|
      |left; apply elem_of_app; auto].
    right; left. apply send_channel. right. split; [done|]. coord. intros [Hd _]%Hst.
    apply Ha in Hd. rewrite Hl in Hd. by destruct l1.
Qed.

(** A message the worker merges. *)
Lemma kept_merge e pending m ms pending' s c r :
  keyed pending → deferred_wf (co_state c) (co_epoch c) →
  merge_worker_message pending (co_state c) (co_epoch c) m = (pending', s) →
  r ∈ btree_values pending ∨ m = MsgInspect r ∨ (∃ k, cs_deferred (co_state c) !! k = Some r) →
  kept e (with_worker (Draining pending') (with_channel ms (with_state s c))) r.
Proof.
  intros Hk Hd Hm Hr. rewrite elem_of_btree_values in Hr.
  assert (Hp : ∀ q, pending' !! key q = Some q → supersedes q r →
    kept e (with_worker (Draining pending') (with_channel ms (with_state s c))) r).
  { intros q Hq Hs. exists q. split; [done|left]. right; right; left. apply elem_of_btree_values. eauto. }
  assert (Hself : ∀ k, cs_deferred s !! k = Some r →
    kept e (with_worker (Draining pending') (with_channel ms (with_state s c))) r).
  { intros k Hk'. apply kept_self. right; right; right. by exists k. }
  destruct m as [q|k id|k id error]; simpl in Hm.
  - injection Hm as <- <-. destruct Hr as [Hr|[[= ->]|[k Hr]]]; [| |by eapply Hself].
    + edestruct (merge_covers pending q r) as (p & ? & ?); [done|by right|]. eauto.
    + edestruct (merge_covers pending r r) as (p & ? & ?); [done|by left|]. eauto.
  - destruct (take_deferred_requests _ _ _ _) as [l s1] eqn:Et. injection Hm as <- <-.
    apply take_spec in Et as (_ & _ & _ & Ht). destruct Hr as [Hr|[[=]|[k' Hr]]].
    + edestruct (merge_all_covers l pending r) as (p & ? & ?); [done|by right|]. eauto.
    + apply Hd in Hr as Hr'. destruct Hr' as (_ & _ & Hc).
      destruct (Ht _ _ Hr Hc) as [Hl|Hs]; [|by eapply Hself].
      edestruct (merge_all_covers l pending r) as (p & ? & ?); [done|by left|]. eauto.
  - injection Hm as <- <-. destruct Hr as [[k' Hr]|[[=]|[k' Hr]]].
    + apply (Hp r); [|apply supersedes_refl]. by rewrite (Hk _ _ Hr).
    + apply (Hself k'). unfold remove_listener. by destruct (listener_is_current _ _ _).
Qed.

Lemma kept_channel e c c' r :
  step e c c' → control_wf c → deferred_wf (co_state c) (co_epoch c) →
  MsgInspect r ∈ co_channel c → kept e c' r.
Proof.
  intros Hs (_ & _ & Hp & _) Hd Hr.
  destruct Hs as [e c c' Hs|e c c' Hs|t t' l1 l2 c c' _ Hs]; destruct Hs;
    try (apply kept_self; unfold in_flight; coord; by auto).
  all: try (apply kept_self; right; left; coord; apply send_channel; by left).
  all: match goal with Hc : co_channel _ = _ |- _ => rewrite Hc in Hr end;
    try (by apply elem_of_nil in Hr); apply elem_of_cons in Hr as [<-|Hr];
    try (apply kept_self; right; left; coord; done).
  - eapply kept_merge; eauto. by intros k q ?%lookup_empty_Some.
  - eapply kept_merge; eauto.
Qed.
(** A deferral refuses an outdated request and keeps a current one. *)
Lemma deferral_cases s epoch k r o s' :
  register_deferral s epoch k r = (o, s') →
  request_is_current_locked s epoch r = false ∧ s' = s ∨
  request_is_current_locked s' epoch r = true ∧ cs_deferred s' = <[key r := r]> (cs_deferred s).
Proof.
  unfold register_deferral. destruct (request_is_current_locked s epoch r) eqn:Hc; cbn [negb].
  - intros Hr. right. cbn in Hr. by destruct (cs_listeners s !! k); injection Hr as _ <-.
  - intros [= _ <-]. auto.
Qed.

Lemma listener_key_Some r : is_Some (ir_syncthing r) → listener_key r ≠ None.
Proof. unfold listener_key. by intros [settings ->]. Qed.

Lemma kept_worker e c c' r :
  step e c c' → control_wf c → deferred_wf (co_state c) (co_epoch c) →
  r ∈ worker_requests (co_worker c) → latest c' r → kept e c' r.
Proof.
  intros Hs (_ & _ & Hp & Hdec) Hd Hr Hc.
  destruct Hs as [e c c' Hs|e c c' Hs|t t' l1 l2 c c' _ Hs]; destruct Hs;
    try (apply kept_self; unfold in_flight; coord; by auto).
  all: match goal with Hw : co_worker _ = _ |- _ => rename Hw into Hworker; rewrite Hworker in Hr end;
    cbn [worker_requests] in Hr; try (by apply elem_of_nil in Hr).
  all: try (apply kept_self; unfold in_flight; coord; cbn [worker_requests]; by auto).
  all: try (apply kept_self; right; right; left; coord; unfold decide_with; repeat case_match; done).
  - eapply kept_merge; eauto.
  - apply is_current_true in Hc as [He _]. coord. apply kept_self. right; right; left. coord.
    apply elem_of_cons in Hr as [->|?]; case_match; cbn; [by left|lia|by right|done].
  - coord. apply kept_self. right; right; left. coord.
    apply elem_of_cons in Hr as [->|?]; case_match; cbn; [by left|congruence|by right|done].
  - apply elem_of_cons in Hr as [->|?]; [|by apply kept_self; right; right; left].
    exists r0. split; [apply supersedes_refl|by right].
  - apply elem_of_cons in Hr as [->|?]; [|by apply kept_self; right; right; left].
    by destruct (listener_key_Some r0); [eapply Hdec|].
  - apply kept_self. apply elem_of_cons in Hr as [->|?].
    + right; right; right. coord. exists (key r0).
      match goal with Hi : register_deferral _ _ _ _ = _ |- _ =>
        apply deferral_cases in Hi as [(? & ->)|(_ & ->)] end; [congruence|apply lookup_insert_eq].
    + right; right; left. coord. by destruct o.
Qed.

Lemma kept_deferred e c c' k r :
  step e c c' → control_wf c → deferred_wf (co_state c) (co_epoch c) → active_wf c →
  cs_deferred (co_state c) !! k = Some r → latest c' r → kept e c' r.
Proof.
  intros Hs (_ & _ & Hp & Hdec) Hd Ha Hr Hc. pose proof (Hd _ _ Hr) as (Hk & _ & Hcur).
  assert (Hself : cs_deferred (co_state c') !! k = Some r → kept e c' r).
  { intros Hr'. apply kept_self. right; right; right. by exists k. }
  destruct Hs as [e c c' Hs|e c c' Hs|t t' l1 l2 c c' _ Hs]; destruct Hs; coord; auto.
  - match goal with Hi : register_inspection _ _ _ _ _ = _ |- _ => injection Hi as <- <- end. cbn in *.
    destruct (decide (k = (st_root store, manifest_scope store app_id))) as [->|Hne];
      [|by apply Hself; rewrite lookup_delete_ne].
    eexists. split; [|left; left; by left]. apply is_current_true in Hc as [He Hc]. cbn in He, Hc.
    rewrite Hk, lookup_insert_eq in Hc. injection Hc as Hc. split; [done|].
    unfold newer. cbn. rewrite He, Hc, Z.eqb_refl, !Z.ltb_irrefl. done.
  - match goal with Hi : invalidate _ _ = _ |- _ => injection Hi as <- <- end.
    by apply is_current_true in Hc as [_ Hc].
  - eapply kept_merge; eauto. by intros k' q ?%lookup_empty_Some.
  - eapply kept_merge; eauto.
  - unfold finish_request in Hself |- *. destruct (listener_key r0) as [lk|] eqn:El; [|auto].
    destruct (decide (k = key r0)) as [->|Hne].
    + exists r0. split; [|by right]. eapply Ha; [by rewrite H0|done|done].
    + apply Hself. destruct (existsb _ _); cbn; by rewrite lookup_delete_ne.
  - match goal with Hi : register_deferral _ _ _ _ = _ |- _ => rename Hi into Hreg end.
    pose proof (deferral_cases _ _ _ _ _ _ Hreg) as [(_ & ->)|(_ & Hins)]; [auto|].
    destruct (decide (k = key r0)) as [->|Hne]; [|by apply Hself; rewrite Hins, lookup_insert_ne].
    exists r0. split; [eapply Ha; [by rewrite H0|done|done]|left]. right; right; right. coord.
    exists (key r0). rewrite Hins. apply lookup_insert_eq.
  - apply Hself. unfold remove_listener. by destruct (listener_is_current _ _ _).
  - match goal with Hi : mark_listener_wake_queued _ _ _ = _ |- _ =>
      apply mark_spec in Hi as (Hdef & _) end. apply Hself. by rewrite Hdef.
Qed.

Lemma flight_kept e c c' r :
  step e c c' → control_wf c → deferred_wf (co_state c) (co_epoch c) → active_wf c →
  in_flight c r → latest c' r → kept e c' r.
Proof.
  intros Hs Hc Hd Ha [Hr|[Hr|[Hr|[k Hr]]]] Hcur;
    [by eapply kept_sending|by eapply kept_channel|by eapply kept_worker|by eapply kept_deferred].
Qed.
(** ** Runs *)

Lemma finish_revisions s r : cs_revisions (finish_request s r) = cs_revisions s.
Proof. unfold finish_request. destruct (listener_key r); [|done]. by destruct (existsb _ _). Qed.
Lemma remove_revisions s k id : cs_revisions (remove_listener s k id) = cs_revisions s.
Proof. unfold remove_listener. by destruct (listener_is_current s k id). Qed.
Lemma merge_revisions pending s epoch m pending' s' :
  merge_worker_message pending s epoch m = (pending', s') → cs_revisions s' = cs_revisions s.
Proof.
  destruct m as [r|k id|k id error]; simpl; [by intros [= _ <-]| |].
  - destruct (take_deferred_requests s epoch k id) as [l s1] eqn:E. intros [= _ <-].
    by apply take_spec in E as (? & _).
  - intros [= _ <-]. apply remove_revisions.
Qed.
Lemma deferral_revisions s epoch k r o s' :
  register_deferral s epoch k r = (o, s') → cs_revisions s' = cs_revisions s.
Proof.
  unfold register_deferral. destruct (negb _); [by intros [= _ <-]|]. cbn.
  by destruct (cs_listeners s !! k); intros [= _ <-].
Qed.

(** What a step does to the epoch and the revisions. *)
Lemma counters_step e c c' :
  step e c c' →
  (∃ r, e = Queued r ∧ in_flight c' r ∧ ir_epoch r = co_epoch c ∧ co_epoch c' = co_epoch c ∧
     ir_revision r = next_counter (default 0 (cs_revisions (co_state c) !! key r)) ∧
     cs_revisions (co_state c') = <[key r := ir_revision r]> (cs_revisions (co_state c))) ∨
  (e = Invalidated ∧ co_epoch c' = (co_epoch c + 1) mod (u64_max + 1) ∧
     cs_revisions (co_state c') = ∅) ∨
  ((∀ r, e ≠ Queued r) ∧ e ≠ Invalidated ∧ co_epoch c' = co_epoch c ∧
     cs_revisions (co_state c') = cs_revisions (co_state c)).
Proof.
  intros Hs. destruct Hs as [e c c' Hs|e c c' Hs|t t' l1 l2 c c' _ Hs]; destruct Hs; coord;
    rewrite ?finish_revisions, ?remove_revisions; try (by right; right).
  - left. match goal with Hi : register_inspection _ _ _ _ _ = _ |- _ => injection Hi as <- <- end.
    eexists. split; [done|]. split; [left; by left|done].
  - right; left. match goal with Hi : invalidate _ _ = _ |- _ => injection Hi as <- <- end. done.
  - right; right. by erewrite merge_revisions by eauto.
  - right; right. by erewrite merge_revisions by eauto.
  - right; right. by erewrite deferral_revisions by eauto.
  - right; right. match goal with Hi : mark_listener_wake_queued _ _ _ = _ |- _ =>
      apply mark_spec in Hi as (_ & Hrev & _) end. done.
Qed.

(** No newer than the latest of its key. *)
Definition older (c : Coordinator) (q : InspectionRequest) : Prop :=
  ir_epoch q < co_epoch c ∨
  ir_epoch q = co_epoch c ∧ ∃ v, cs_revisions (co_state c) !! key q = Some v ∧ ir_revision q ≤ v.

Lemma run_wf w es c : run w es c →
  control_wf c ∧ deferred_wf (co_state c) (co_epoch c) ∧ listeners_wf c ∧ active_wf c.
Proof.
  induction 1 as [|e es c c' Hrun (Hc & Hd & Hl & Ha) Hs].
  - unfold control_wf, deferred_wf, listeners_wf, active_wf. by split_and!.
  - split_and!; [by eapply control_step| |  |by eapply active_step].
    + eapply deferred_step; eauto. apply Hc.
    + destruct Hs; [by eapply listeners_client|by eapply listeners_worker|by eapply listeners_listener].
Qed.

Lemma run_queued w es c : run w es c →
  (∀ q, in_flight c q → Queued q ∈ es) ∧ (∀ q, Completed q ∈ es → Queued q ∈ es).
Proof.
  induction 1 as [|e es c c' Hrun [IH1 IH2] Hs].
  - split; [|by intros q ?%elem_of_nil]. intros q [?|[?|[?|[k ?]]]]; cbn in *; set_solver.
  - assert (Hf : ∀ q, in_flight c' q → Queued q ∈ e :: es).
    { intros q Hq. apply elem_of_cons. destruct (flight_from _ _ _ _ Hs Hq) as [?| ->]; auto. }
    split; [done|]. intros q [<-|Hq]%elem_of_cons; apply elem_of_cons; right; [|auto].
    apply IH1. inversion Hs as [? ? ? Hc|? ? ? Hw|]; [by inversion Hc|]. inversion Hw. subst.
    right; right; left. match goal with Hd : co_worker _ = Decided _ _ _ |- _ => rewrite Hd end. by left.
Qed.

Lemma next_counter_bounds v n : 0 ≤ v ≤ n → n < u64_max → next_counter v = v + 1.
Proof. intros Hv Hn. unfold next_counter. rewrite Z.mod_small; lia. Qed.

(** Without wrap-around, the counters grow. *)
Lemma run_older w es c : run w es c → Z.of_nat (length es) < u64_max →
  1 ≤ co_epoch c ≤ Z.of_nat (length es) + 1 ∧
  (∀ k v, cs_revisions (co_state c) !! k = Some v → 1 ≤ v ≤ Z.of_nat (length es)) ∧
  (∀ q, Queued q ∈ es → older c q).
Proof.
  induction 1 as [|e es c c' Hrun IH Hs]; cbn [length]; intros Hn.
  { split_and!; [done..|by intros q ?%elem_of_nil]. }
  destruct IH as (He & Hv & Hq); [lia|].
  destruct (counters_step _ _ _ Hs) as [(r & -> & _ & Her & He' & Hr & Hrev)|
    [(-> & He' & Hrev)|(Hne & _ & He' & Hrev)]].
  - assert (Hrv : 0 ≤ default 0 (cs_revisions (co_state c) !! key r) ≤ Z.of_nat (length es)).
    { destruct (cs_revisions (co_state c) !! key r) eqn:E; cbn; [apply Hv in E|]; lia. }
    rewrite (next_counter_bounds _ (Z.of_nat (length es))) in Hr by lia.
    split_and!; [lia..| |].
    + intros k v. rewrite Hrev. intros [[<- <-]|[_ Hk]]%lookup_insert_Some; [|apply Hv in Hk]; lia.
    + intros q [[= ->]|Hin]%elem_of_cons; unfold older; rewrite He', Hrev.
      * right. split; [done|]. exists (ir_revision r). rewrite lookup_insert_eq. split; [done|lia].
      * apply Hq in Hin as [?|(Heq & v & Hk & Hle)]; [by left|right]. split; [done|].
        destruct (decide (key q = key r)) as [Hkr|?]; [|exists v; by rewrite lookup_insert_ne].
        exists (ir_revision r). rewrite Hkr, lookup_insert_eq. split; [done|].
        rewrite Hkr in Hk. rewrite Hk in Hr. cbn in Hr. lia.
  - rewrite Z.mod_small in He' by lia. split_and!; [lia..| |].
    + intros k v. rewrite Hrev. by intros ?%lookup_empty_Some.
    + intros q [[=]|Hin]%elem_of_cons. left. apply Hq in Hin as [?|(? & _)]; lia.
  - split_and!; [lia..| |].
    + intros k v. rewrite Hrev. intros Hk%Hv. lia.
    + intros q [<-|Hin]%elem_of_cons; [by destruct (Hne q)|]. unfold older. rewrite He', Hrev.
      by apply Hq.
Qed.
(** C23 [coordinator_invariant]: in every interleaving, the deferred requests are current
    and wait for Syncthing; every registered listener has a thread, or one is about to
    start, or its end has been reported; a queued wake-up is on its way to the worker. *)
Theorem coordinator_invariant w es c : run w es c → coordinator_wf c.
Proof.
  intros ((H1 & H2 & H3 & H4) & Hd & Hl & _)%run_wf. split; try done.
  - intros k l [Hw _]%Hl. done.
  - intros k l [_ Hs]%Hl. done.
Qed.

(** C24 [newest_request_kept]: the newest inspection queued for an app is never lost: until
    [invalidate] is called or a newer one is queued, it is on its way, deferred or being
    worked on, or it has come to its end. *)
Theorem newest_request_kept w es c k v :
  run w es c → Z.of_nat (length es) < u64_max → cs_revisions (co_state c) !! k = Some v →
  ∃ r, key r = k ∧ ir_epoch r = co_epoch c ∧ ir_revision r = v ∧
       (in_flight c r ∨ Completed r ∈ es).
Proof.
  intros Hrun. revert k v. induction Hrun as [|e es c c' Hrun IH Hs]; cbn [length]; intros k v Hn Hv.
  { cbn [try_new co_state default_state cs_revisions] in Hv. by apply lookup_empty_Some in Hv. }
  pose proof (run_wf _ _ _ Hrun) as (Hc & Hd & _ & Ha).
  pose proof (run_step _ _ _ _ _ _ _ _ _ Hrun Hs) as Hrun'.
  destruct (run_older _ _ _ Hrun') as (_ & _ & Hold); [cbn [length]; lia|].
  destruct (run_queued _ _ _ Hrun') as [Hfl Hcq].
  assert (Hkeep : ∀ q, in_flight c q → key q = k → ir_epoch q = co_epoch c' → ir_revision q = v →
    ∃ r, key r = k ∧ ir_epoch r = co_epoch c' ∧ ir_revision r = v ∧
         (in_flight c' r ∨ Completed r ∈ e :: es)).
  { intros q Hq Hk He Hr.
    assert (Hcur : latest c' q) by (apply is_current_true; by rewrite Hk, Hr).
    destruct (flight_kept _ _ _ _ Hs Hc Hd Ha Hq Hcur) as (p & [Hkp Hnew] & Hp).
    assert (Hp' : in_flight c' p ∨ Completed p ∈ e :: es) by (destruct Hp as [?| ->]; [auto|right; by left]).
    assert (Holder : older c' p) by (apply Hold; destruct Hp'; auto).
    exists p. unfold newer in Hnew. unfold older in Holder. rewrite Hkp, Hk, Hv in Holder.
    apply orb_false_iff in Hnew as [Hn1 Hn2]. apply Z.ltb_ge in Hn1.
    destruct Holder as [?|(Hep & v' & [= <-] & Hle)]; [lia|].
    rewrite Hep, He, Z.eqb_refl in Hn2. cbn in Hn2. apply Z.ltb_ge in Hn2.
    split_and!; [congruence|done|lia|done]. }
  destruct (counters_step _ _ _ Hs) as [(r & -> & Hin & Her & He' & Hr & Hrev)|
    [(-> & He' & Hrev)|(Hne & _ & He' & Hrev)]]; rewrite Hrev in Hv.
  - apply lookup_insert_Some in Hv as [[<- <-]|[_ Hv]].
    + exists r. rewrite He'. auto.
    + destruct (IH k v) as (q & Hk & Heq & Hrq & [Hq|Hq]); [lia|done| |].
      * apply (Hkeep q); congruence.
      * exists q. rewrite He'. split_and!; [done..|]. right. by right.
  - by apply lookup_empty_Some in Hv.
  - destruct (IH k v) as (q & Hk & Heq & Hrq & [Hq|Hq]); [lia|done| |].
    * apply (Hkeep q); congruence.
    * exists q. rewrite He'. split_and!; [done..|]. right. by right.
Qed.

Lemma run_app w es1 es2 c :
  run w (es2 ++ es1) c → Z.of_nat (length (es2 ++ es1)) < u64_max →
  ∃ c1, run w es1 c1 ∧ co_epoch c1 ≤ co_epoch c.
Proof.
  revert c. induction es2 as [|e es2 IH]; intros c Hrun Hn; [by exists c|].
  inversion Hrun as [|? ? c0 ? Hrun0 Hs]; subst. cbn [length app] in Hn.
  destruct (IH c0) as (c1 & H1 & Hle); [done|lia|]. exists c1. split; [done|].
  destruct (run_older _ _ _ Hrun0) as (He & _); [lia|].
  destruct (counters_step _ _ _ Hs) as [(r & _ & _ & _ & -> & _)|[(_ & -> & _)|(_ & _ & -> & _)]]; [lia| |lia].
  rewrite Z.mod_small; lia.
Qed.

(** [sweep_starts_current]: when a sweep starts, its request is the newest queued for its
    app, and it was queued after the last call of [invalidate]. *)
Theorem sweep_starts_current w es c c' r :
  run w es c → Z.of_nat (length es) < u64_max → step (SweepStarted r) c c' →
  Queued r ∈ es ∧ (∀ q, Queued q ∈ es → key q = key r → newer q r = false) ∧
  ∀ es1 es2, es = es2 ++ Invalidated :: es1 → ¬ Queued r ∈ es1.
Proof.
  intros Hrun Hn Hs.
  assert (Hr : in_flight c r ∧ latest c r).
  { inversion Hs as [? ? ? Hc|? ? ? Hw|]; [by inversion Hc|]. inversion Hw. subst. split; [|done].
    right; right; left. match goal with Hd : co_worker _ = Relocking _ _ _ _ |- _ => rewrite Hd end.
    by left. }
  destruct Hr as [Hr [He Hv]%is_current_true].
  destruct (run_older _ _ _ Hrun Hn) as (_ & _ & Hold). destruct (run_queued _ _ _ Hrun) as [Hq _].
  split; [auto|]. split.
  - intros q Hin Hk. apply Hold in Hin as [Hlt|(Heq & v & Hkv & Hle)]; unfold newer.
    + apply orb_false_iff. split; [by apply Z.ltb_ge; lia|]. apply andb_false_iff. left. by apply Z.eqb_neq; lia.
    + rewrite Hk, Hv in Hkv. injection Hkv as <-. rewrite Heq, He, Z.ltb_irrefl. cbn.
      apply andb_false_iff. right. by apply Z.ltb_ge.
  - intros es1 es2 -> Hin. rewrite length_app in Hn. cbn [length] in Hn.
    destruct (run_app _ _ _ _ Hrun) as (c1 & H1 & Hle); [rewrite length_app; cbn [length]; lia|].
    inversion H1 as [|? ? c0 ? Hrun0 Hs0]; subst.
    destruct (run_older _ _ _ Hrun0) as (He0 & _ & Hold0); [lia|].
    destruct (counters_step _ _ _ Hs0) as [(? & [=] & _)|[(_ & He1 & _)|(_ & ? & _)]]; [|done].
    rewrite Z.mod_small in He1 by lia. apply Hold0 in Hin as [?|(? & _)]; lia.
Qed.

(** [wake_reaches_deferred]: a deferred request whose listener is registered is not
    forgotten. Its listener has a thread; when that thread sees something that wakes, the
    worker gets a message; and when the worker takes the message, it takes the request,
    or one at least as new, up again. *)
Theorem wake_reaches_deferred w es c kr r k l :
  run w es c → cs_deferred (co_state c) !! kr = Some r → listener_key r = Some k →
  cs_listeners (co_state c) !! k = Some l →
  served c k (lr_id l) ∧
  (∀ t t' l1 l2 c', co_listeners c = l1 ++ t :: l2 → li_key t = k → li_id t = lr_id l →
     li_pc t = Marking → listener_step http t c t' c' →
     wake_coming (with_listeners (l1 ++ t' :: l2) c') k (lr_id l)) ∧
  (∀ pending pending' s, keyed pending →
     merge_worker_message pending (co_state c) (co_epoch c) (MsgSyncthingEvent k (lr_id l))
       = (pending', s) →
     cs_deferred s !! kr = None ∧ ∃ q, pending' !! kr = Some q ∧ supersedes q r).
Proof.
  intros (Hc & Hd & Hl & _)%run_wf Hr Hk Hreg. pose proof (Hl _ _ Hreg) as [Hw Hs].
  pose proof (Hd _ _ Hr) as (Hkr & _ & Hcur). split; [done|]. split.
  - intros t t' l1 l2 c' Hts Htk Htid Hpc Hstep. destruct Hstep; try congruence.
    match goal with Hi : mark_listener_wake_queued _ _ _ = _ |- _ => rename Hi into Hm end.
    unfold mark_listener_wake_queued in Hm. rewrite Htk, Htid, Hreg, Z.eqb_refl in Hm. cbn in Hm.
    destruct (lr_wake_queued l) eqn:Hq; injection Hm as <- <-.
    + eapply (wake_moves c (with_state (co_state c) c) _ _ t), Hw; [done..|congruence|done].
    + right. eexists. split; [apply elem_of_app; right; by left|]. coord. done.
  - intros pending pending' s Hkp Hm. simpl in Hm.
    destruct (take_deferred_requests _ _ _ _) as [d s'] eqn:Et. injection Hm as <- <-.
    pose proof (take_spec _ _ _ _ _ _ Et) as (_ & _ & Hsub & Hor).
    pose proof (take_all _ _ _ _ _ _ _ Et Hreg eq_refl) as Hnone.
    assert (Hgone : cs_deferred s' !! kr ≠ Some r) by (intros Hr'; by eapply Hnone).
    split.
    + destruct (cs_deferred s' !! kr) as [q|] eqn:Hq; [|done]. apply Hsub in Hq as Hq'. congruence.
    + destruct (Hor _ _ Hr Hcur) as [Hin|?]; [|done].
      destruct (merge_all_covers d pending r) as (q & Hq & Hsq); [done|by left|].
      exists q. split; [|done]. destruct Hsq as [Hkq _]. by rewrite <-Hkr, <-Hkq.
Qed.
End invariant.
