(* ===== verification/GcInspection.v ===== *)
(** * GcInspection: one inspection, from the report to the end

    Whatever calls fail, whatever Syncthing answers and whenever the inspection is
    stopped, what has to stay stays; and an inspection that is put off until Syncthing
    is ready leaves the app as it found it. *)

From Stdlib Require Import ZArith Lia.
From S2P Require Import Prelude RustStd CloudCore FileSystem StoreFiles StoreFilesProofs.
From S2P Require Import FolderStore FolderStoreProofs StoreCommit StoreRead StoreGc StoreGcProofs.
From S2P Require Import Syncthing SyncthingProofs GcCoordinator GcCoordinatorProofs.

Local Open Scope Z_scope.

Section reading.
Context {H : Host} {C : StoreCodec}.

Lemma keeps_inspect s app : keeps same_world (inspect_gc s app).
Proof.
  unfold inspect_gc, verify_files. keeps_tac; eauto using keeps_collect, keeps_verify_blob with keeps.
Qed.

Lemma keeps_collect_paths p : keeps same_world (collect_manifest_paths p).
Proof. unfold collect_manifest_paths, io. keeps_tac; eauto using keeps_path_entries with keeps. Qed.

Lemma keeps_prepare s report : keeps same_world (prepare_gc_sweep s report).
Proof. unfold prepare_gc_sweep. keeps_tac; eauto using keeps_collect_paths with keeps. Qed.

(** What a sweep that completes has moved. *)
Lemma sweep_moved s app ids moved w moved' w' :
  in_trash s moved → sweep_candidates s app ids moved w = (Ok moved', w') →
  in_trash s moved' ∧ ∀ id, id ∈ moved'.*1 → id ∈ moved.*1 ∨ id ∈ ids.
Proof.
  revert moved w. induction ids as [|id ids IH]; intros moved w Ht Hm; cbn in Hm.
  { injection Hm as <- _. auto. }
  apply ST_bind_inv in Hm as [(x & w1 & (y & [= ->] & Hx)%attempt_inv & Hm)|(e & _ & ?)]; [|done].
  destruct y as [[trash|]|e].
  - apply IH in Hm as [Ht' Hin].
    + split; [done|]. intros i [Hi|Hi]%Hin; rewrite elem_of_cons; [|by auto].
      rewrite fmap_app, elem_of_app in Hi. destruct Hi as [?|Hi]; [by auto|].
      apply list_elem_of_singleton in Hi. auto.
    + intros id' trash' [?|[= -> ->]%list_elem_of_singleton]%elem_of_app; [by eapply Ht|].
      by eapply move_trash.
  - apply IH in Hm as [Ht' Hin]; [|done]. split; [done|].
    intros i [Hi|Hi]%Hin; rewrite elem_of_cons; auto.
  - apply ST_bind_inv in Hm as [(? & ? & _ & ?)|(? & _ & ?)]; done.
Qed.

Lemma apply_moved s plan w sweep w' :
  apply_gc_sweep s plan w = (Ok (Some sweep), w') →
  in_trash s (gs_moved_manifests sweep) ∧
  ∀ id, id ∈ (gs_moved_manifests sweep).*1 → id ∈ gp_candidate_manifests plan.
Proof.
  unfold apply_gc_sweep. case_bool_decide; cbn [negb]; [|by intros [=]].
  intros Hm. st_inv. case_bool_decide; cbn [negb] in Hm; [|by injection Hm]. st_inv.
  apply sweep_moved in Hx0 as [Ht Hin]; [|by intros ?? ?%elem_of_nil]. split; [done|].
  intros id [?%elem_of_nil|Hi]%Hin; [done|]. by apply elem_of_set_in_order in Hi.
Qed.

Lemma keeps_finalize s sweep q :
  in_trash s (gs_moved_manifests sweep) → apart (st_work_root s) q →
  keeps (same_at q) (finalize_gc_sweep s sweep).
Proof.
  intros Ht Ha. unfold finalize_gc_sweep. apply keeps_bind; [apply _| |intros; by keeps_tac].
  apply keeps_for_each; [apply _|]. intros [id trash] Hin. destruct (Ht _ _ Hin) as [c ->].
  apply keeps_remove_tree. by apply apart_app_l.
Qed.
End reading.

(** An app with manifests has a directory. *)
Lemma repository_dir {C : StoreCodec} account app d ms :
  repository account app d ms → ms ≠ ∅ → ∃ es, d = Some (Dir es).
Proof.
  intros (es & [->|[-> ->]] & _ & _ & Hsub) Hne; [by exists es|]. destruct Hne.
  apply map_eq. intros id. rewrite lookup_empty. apply not_elem_of_dom. intros Hin.
  apply Hsub in Hin. by rewrite dom_empty_L in Hin.
Qed.

(** A sweep made is unchanged where the app and the work directory are. *)
Lemma swept_same s app es moved w w' :
  same_at (app_dir s app) w w' → same_at (st_work_root s) w w' →
  swept s app es moved w → swept s app es moved w'.
Proof.
  intros Ha Hw (Hd & Hn1 & Hn2 & Ht). split; [by rewrite Ha|]. split_and!; [done..|].
  intros id trash Hin. destruct (Ht _ _ Hin) as (c & n & -> & Hv & Hes & Hat). exists c, n.
  split_and!; [done..|]. unfold same_at, at_path in *. rewrite get_snoc in *. by rewrite Hw.
Qed.

Section inspection.
Context {H : Host} {C : StoreCodec} {SC : SyncthingCodec}.
Context (http : nat → HttpRequest → Node → HttpAnswer * Node).
Context (cwd : Path) (dir_len : gmap string Node → Z) (fuel : nat).
Context (r : InspectionRequest).
Notation s := (ir_store r).
Notation app := (ir_app_id r).
Context (Hsep : separate s).

Section frame.
Context (q : Path).
(** Syncthing leaves this place alone while it answers. *)
Context (Hhttp : ∀ k r n, get q (http k r n).2 = get q n).

Lemma http_same k r0 w : same_at q w (after_call (http k r0 (w_root w)).2 w).
Proof. apply Hhttp. Qed.

Lemma world_same w w' : same_world w w' → same_at q w w'.
Proof. intros Hs. by apply same_world_at. Qed.

Lemma keeps_stage_inspect : keeps (same_at q) (stage_inspect http cwd dir_len fuel r).
Proof.
  unfold stage_inspect, or_finish, or_defer.
  apply keeps_bind; [apply _|apply keeps_map_err, keeps_world_at, keeps_inspect|intros report].
  case_bool_decide; [apply keeps_ret, _|]. destruct (ir_syncthing r); [|apply keeps_ret, _].
  apply keeps_bind; [apply _| |intros; apply keeps_ret, _].
  apply keeps_map_err, keeps_prepare_for_gc; [apply _|apply world_same|apply http_same].
Qed.

Lemma keeps_stage_prepare report : keeps (same_at q) (stage_prepare r report).
Proof.
  unfold stage_prepare, or_finish.
  apply keeps_bind; [apply _|apply keeps_map_err, keeps_world_at, keeps_prepare|].
  intros [plan|]; [apply keeps_ret, _|apply keeps_throw, _].
Qed.

Lemma keeps_published syncthing boundary : keeps (same_at q) (publish_gc http syncthing boundary).
Proof. apply keeps_publish_gc; [apply _|apply http_same]. Qed.
End frame.

(** The two stages before the sweep, as the worker runs them. *)
Lemma inspect_stage_Ok w report boundary w' :
  stage_inspect http cwd dir_len fuel r w = (Ok (report, boundary), w') →
  ∃ account ms, st_account s = Some account ∧ app ≠ 0 ∧ report = report_of s app ms ∧
    repository account app (at_path (app_dir s app) w) ms ∧
    (is_Some boundary → dom ms ∖ retained_set ms ≠ ∅).
Proof.
  unfold stage_inspect, or_finish. intros Hm. st_inv. apply inspect_Ok in Hx as Hi.
  destruct Hi as (account & ms & Ha & Happ & -> & Hrep). exists account, ms.
  assert (Hb : (report, boundary) = (report_of s app ms, boundary) ∧
               (is_Some boundary → dom ms ∖ retained_set ms ≠ ∅)).
  { case_bool_decide as Hc; [injection Hm as <- <- _; split; [done|by intros []]|].
    assert (dom ms ∖ retained_set ms ≠ ∅).
    { intros He. apply Hc. cbn [gr_candidate_manifests report_of]. by rewrite He. }
    destruct (ir_syncthing r); [st_inv|injection Hm as <- <- _]; auto. }
  destruct Hb as [[= ->] Hb]. auto.
Qed.

Lemma prepare_stage_Ok w ms plan w' :
  stage_prepare r (report_of s app ms) w = (Ok plan, w') → plan = plan_of s app ms.
Proof.
  unfold stage_prepare, or_finish. intros Hm. st_inv.
  match goal with x : option GcSweepPlan |- _ => destruct x as [plan'|]; [|done] end.
  injection Hm as -> _. by eapply prepare_Ok.
Qed.
Lemma or_finish_run {A} (m : Op A) w x w' :
  or_finish m w = (x, w') → ∃ y, m w = (y, w') ∧ ∀ a, x = Ok a → y = Ok a.
Proof.
  unfold or_finish, map_err. destruct (m w) as [[a|e] w1]; intros [= <- <-]; eexists; (split; [done|]);
    by intros ? [= ->].
Qed.

Lemma keeps_stage_sweep name boundary plan :
  gp_app_id plan = app → name ∉ gp_candidate_manifests plan →
  (∀ k r n, get (app_dir s app ++ [name]) (http k r n).2 = get (app_dir s app ++ [name]) n) →
  keeps (same_at (app_dir s app ++ [name])) (stage_sweep http r boundary plan).
Proof.
  intros Hid Hn Hhttp w x w' Hm. unfold stage_sweep in Hm.
  assert (Happly : ∀ y w1, or_finish (apply_gc_sweep s plan) w = (y, w1) →
    same_at (app_dir s app ++ [name]) w w1).
  { intros y w1 (y' & Hy & _)%or_finish_run. rewrite <-Hid. by eapply apply_keeps. }
  apply ST_bind_inv in Hm as [(swept & w1 & H1 & Hm)|(o & H1 & _)]; [|by eapply Happly].
  trans w1; [by eapply Happly|]. apply or_finish_run in H1 as (y & H1 & Hy). rewrite (Hy _ eq_refl) in H1.
  destruct swept as [sweep|]; [|by injection Hm as _ <-]. apply apply_moved in H1 as [Ht Hin].
  assert (Hni : name ∉ (gs_moved_manifests sweep).*1) by (intros ?%Hin; done).
  revert Hm. apply (keeps_bind (same_at _)); [|intros _; apply keeps_ignore, keeps_finalize].
  2: done. 2: apply apart_app_r, apart_sym, work_app_apart, Hsep.
  unfold stage_publish. destruct (ir_syncthing r); [|apply keeps_ret, _].
  destruct boundary; [|apply keeps_ret, _].
  apply keeps_bind; [apply _|by apply keeps_attempt, keeps_published|]. intros [[]|e]; [apply keeps_ret, _|].
  apply keeps_bind; [apply _| |intros; apply keeps_throw, _].
  apply keeps_attempt. unfold restore_gc_sweep. apply keeps_lift_bind; [apply _|]. intros [] _.
  by apply keeps_restore.
Qed.

(** C26 [inspection_spares]: whatever fails, whatever Syncthing answers and whenever it is
    stopped, an inspection leaves alone the manifests that have to stay, and every entry
    of the app directory that is no manifest; as long as Syncthing itself does. *)
Theorem inspection_spares account ms name epoch1 epoch2 state3 epoch3 o w w' :
  st_account s = Some account → repository account app (at_path (app_dir s app) w) ms →
  name ∈ retained_set ms ∨ ms !! name = None →
  (∀ k r n, get (app_dir s app ++ [name]) (http k r n).2 = get (app_dir s app ++ [name]) n) →
  inspect_once http cwd dir_len fuel epoch1 epoch2 state3 epoch3 r w = (o, w') →
  same_at (app_dir s app ++ [name]) w w'.
Proof.
  intros Hacc Hrep Hname Hhttp Hm. unfold inspect_once in Hm.
  destruct (stages _ _ _ _ _ _ _ _ _ w) as [x w1] eqn:Hrun. injection Hm as _ <-. unfold stages in Hrun.
  apply ST_bind_inv in Hrun as [([report boundary] & w2 & H1 & Hrun)|(e & H1 & _)];
    [|by eapply keeps_stage_inspect in H1].
  trans w2; [by eapply keeps_stage_inspect in H1|].
  apply inspect_stage_Ok in H1 as (account' & ms' & Ha & Happ & -> & Hrep' & _).
  rewrite Hacc in Ha. injection Ha as <-. rewrite (repository_unique _ _ _ _ _ Hrep Hrep') in Hname.
  destruct (negb _); [by injection Hrun as _ <-|].
  apply ST_bind_inv in Hrun as [(plan & w3 & H1 & Hrun)|(e & H1 & _)];
    [|by eapply keeps_stage_prepare in H1].
  trans w3; [by eapply keeps_stage_prepare in H1|]. apply prepare_stage_Ok in H1 as ->.
  destruct (negb _); [by injection Hrun as _ <-|].
  eapply keeps_stage_sweep in Hrun; [done..| |done]. cbn.
  intros [Hin Hno]%elem_of_difference. destruct Hname as [?|Hn]; [done|].
  by apply not_elem_of_dom in Hn.
Qed.

(** C36 [deferral_undone]: an inspection that is put off until Syncthing is ready leaves the
    app directory exactly as it found it, also when a sweep had been made and Syncthing
    did not take it. *)
Theorem deferral_undone epoch1 epoch2 state3 epoch3 w w' :
  (∀ k r n, get (app_dir s app) (http k r n).2 = get (app_dir s app) n) →
  (∀ k r n, get (st_work_root s) (http k r n).2 = get (st_work_root s) n) →
  inspect_once http cwd dir_len fuel epoch1 epoch2 state3 epoch3 r w = (DeferForSyncthing, w') →
  same_at (app_dir s app) w w'.
Proof.
  intros Happ Hwork Hm. unfold inspect_once in Hm.
  destruct (stages _ _ _ _ _ _ _ _ _ w) as [x w1] eqn:Hrun. injection Hm as Hx <-. unfold stages in Hrun.
  apply ST_bind_inv in Hrun as [([report boundary] & w2 & H1 & Hrun)|(e & H1 & _)];
    [|by eapply keeps_stage_inspect in H1].
  assert (Hs1 : same_at (app_dir s app) w w2) by by eapply keeps_stage_inspect in H1.
  trans w2; [done|]. apply inspect_stage_Ok in H1 as (account & ms & Ha & Hne & -> & Hrep & Hcand).
  destruct (negb _); [by injection Hrun as <- _|].
  apply ST_bind_inv in Hrun as [(plan & w3 & H1 & Hrun)|(e & H1 & _)];
    [|by eapply keeps_stage_prepare in H1].
  assert (Hs2 : same_at (app_dir s app) w2 w3) by by eapply keeps_stage_prepare in H1.
  trans w3; [done|]. apply prepare_stage_Ok in H1 as ->.
  destruct (negb _); [by injection Hrun as <- _|].
  assert (Hrep3 : repository account app (at_path (app_dir s app) w3) ms) by by rewrite Hs2, Hs1.
  unfold stage_sweep in Hrun.
  apply ST_bind_inv in Hrun as [(swept & w4 & H1 & Hrun)|(e & H1 & ->)].
  2: { apply or_finish_Err in H1 as ->. done. }
  apply map_err_Ok in H1. destruct swept as [sweep|]; [|by injection Hrun as <- _].
  apply ST_bind_inv in Hrun as [([] & w5 & _ & Hrun)|(e & Hrun & ->)]; [by injection Hrun as <- _|].
  cbn in Hx. subst e. unfold stage_publish in Hrun.
  destruct (ir_syncthing r) as [syncthing|]; [|done]. destruct boundary as [b|]; [|done].
  apply ST_bind_inv in Hrun as [(published & w5 & (y & [= ->] & Hpub)%attempt_inv & Hrun)|(? & Hb & _)];
    [|by apply attempt_inv in Hb as (? & ? & _)].
  destruct y as [[]|error]; [done|].
  apply ST_bind_inv in Hrun as [(restored & w6 & (y & [= ->] & Hres)%attempt_inv & Hrun)|(? & Hb & _)];
    [|by apply attempt_inv in Hb as (? & ? & _)].
  destruct y as [[]|]; [|done]. injection Hrun as _ <-.
  destruct (repository_dir _ _ _ _ Hrep3) as [es Hes].
  { intros ->. apply (Hcand ltac:(done)). set_solver. }
  pose proof Hrep3 as Hrep4. rewrite Hes in Hrep4.
  destruct (apply_Ok _ _ _ _ _ _ _ _ _ Hsep Hes Hrep4 H1) as (_ & Hsw & _).
  unfold same_at. rewrite Hes. unfold restore_gc_sweep in Hres. st_inv.
  eapply restore_Ok; [done| | |done|done]; [by eapply repository_manifests_only|].
  eapply swept_same, Hsw; [by eapply keeps_published in Hpub|by eapply (keeps_published (st_work_root s)) in Hpub].
Qed.
End inspection.
