(* ===== verification/GcExamples.v ===== *)
(** * GcExamples: background collection at concrete inputs

    A Syncthing that answers from the folder, settled or busy; an inspection that sweeps,
    one that is put off, and runs of the coordinator; with the theorems of the client, of
    inspections and of the coordinator at these inputs. *)

From Stdlib Require Import ZArith Lia.
From S2P Require Import Prelude RustStd CloudCore FileSystem StoreFiles StoreFilesProofs.
From S2P Require Import FolderStore FolderStoreProofs StoreCommit StoreRead StoreGc StoreGcProofs.
From S2P Require Import FolderStoreExamples Syncthing SyncthingProofs.
From S2P Require Import GcCoordinator GcCoordinatorProofs GcInspection.

Local Open Scope Z_scope.

#[local] Existing Instance plain_host.
#[local] Existing Instance toy_codec.

(** ** A service *)

Definition answer_file (body : string) : FileRecord :=
  {| fr_local := Some {| lf_deleted := bool_decide (body = "deleted"); lf_invalid := false;
                         lf_ignored := false;
                         lf_size := default 0 (parse_unsigned u64_max (str_bytes body)) |} |}.
Definition answer_status (body : string) : FolderStatus := {|
  fs_need_bytes := 0; fs_need_deletes := 0; fs_need_directories := 0; fs_need_files := 0;
  fs_need_symlinks := 0; fs_need_total_items := 0; fs_pull_errors := 0;
  fs_sequence := default 0 (parse_unsigned u64_max (str_bytes body));
  fs_state := if bool_decide (body = "busy") then "syncing" else "idle" |}.

#[local] Instance toy_syncthing : SyncthingCodec := {|
  parse_uri _ := Some {| ur_scheme := Some "http"; ur_authority := Some "127.0.0.1:8384";
                         ur_host := Some "127.0.0.1"; ur_query := None |};
  config_sync_from_str _ := Ok {| cs_config_in_sync := true |};
  folders_from_str _ := Ok [{| fc_id := "cloud"; fc_path := "/repo"; fc_paused := false;
                               fc_folder_type := "sendreceive"; fc_ignore_delete := false;
                               fc_versioning := {| vc_kind := "" |} |}];
  ignores_from_str _ := Ok {| ig_ignore := ["// nothing"]; ig_expanded := [] |};
  status_from_str body := Ok (answer_status body);
  file_from_str body := Ok (answer_file body);
  events_from_str body :=
    Ok [{| se_id := 7; se_kind := "StateChanged";
           se_data := {| sd_folder := Some "cloud"; sd_to := Some "idle" |} |}] |}.

Definition local_syncthing : SyncthingGcConfig := {|
  sy_url := " http://127.0.0.1:8384/"; sy_api_key := "secret"; sy_folder_id := "cloud";
  sy_timeout_ms := 1000 |}.

Definition base : string := "http://127.0.0.1:8384".

Definition reply (body : string) : HttpAnswer := Ok {| hp_status := 200; hp_body := λ _, Ok body |}.

(** What the folder holds under a name. *)
Definition file_body (query : list (string * string)) (n : Node) : string :=
  match list_find (λ p, p.1 = "file") query with
  | Some (_, (_, file)) =>
      match get ("repo" :: path_components file) n with
      | Some (File b) => bytes_str (dec_text (Z.of_nat (length b)))
      | Some _ => "0"
      | None => "deleted"
      end
  | None => ""
  end.

(** [status k]: the answer to a question for the status at the [k]-th call. *)
Definition service (status : nat → string) (k : nat) (r : HttpRequest) (n : Node)
    : HttpAnswer * Node :=
  (reply (if bool_decide (rq_url r = base ++ "/rest/db/file")%string then file_body (rq_query r) n
          else if bool_decide (rq_url r = base ++ "/rest/db/status")%string then status k
          else ""), n).

(** Settled, with an index that moves; settled, with an index that does not; busy. *)
Definition moving (k : nat) : string := bytes_str (dec_text (Z.of_nat k)).
Definition settled := service moving.
Definition stuck := service (λ _, "5").
Definition busy := service (λ _, "busy").

Lemma service_silent status k r n : (service status k r n).2 = n.
Proof. done. Qed.

Definition no_len (es : gmap string Node) : Z := 4096.

Example loopback_names :
  (is_loopback_host "LocalHost", is_loopback_host "127.0.0.1", is_loopback_host "127.0.0.01",
   is_loopback_host "::1", is_loopback_host "0:0::0:1", is_loopback_host "::ffff:127.0.0.1",
   is_loopback_host "10.0.0.1") = (true, true, false, true, true, false, false).
Proof. vm_compute. reflexivity. Qed.

Example endpoint_trimmed : endpoint local_syncthing = Ok base.
Proof. vm_compute. reflexivity. Qed.

Example plain_http_refused :
  let far : SyncthingCodec := {|
    parse_uri _ := Some {| ur_scheme := Some "http"; ur_authority := Some "example.org";
                           ur_host := Some "example.org"; ur_query := None |};
    config_sync_from_str := config_sync_from_str; folders_from_str := folders_from_str;
    ignores_from_str := ignores_from_str; status_from_str := status_from_str;
    file_from_str := file_from_str; events_from_str := events_from_str |} in
  endpoint (SC := far) local_syncthing = Err (permanent "remote Syncthing URL must use HTTPS").
Proof. vm_compute. reflexivity. Qed.

(** ** The client *)

(** A service that would answer anything else differently. *)
Definition elsewhere (k : nat) (r : HttpRequest) (n : Node) : HttpAnswer * Node :=
  if bool_decide (str_bytes base `prefix_of` str_bytes (rq_url r)) then settled k r n
  else (Err "stolen", Special).

Lemma str_bytes_prefix (e rest : string) : str_bytes e `prefix_of` str_bytes (e ++ rest).
Proof.
  exists (str_bytes rest). unfold str_bytes. rewrite <-fmap_app. f_equal.
  induction e as [|a e IH]; [done|]. change (String a e ++ rest)%string with (String a (e ++ rest)).
  cbn. by rewrite IH.
Qed.

Lemma requests_confined_witness :
  same_run (prepare_for_gc settled [] no_len local_syncthing 9 ["repo"] chain_report)
           (prepare_for_gc elsewhere [] no_len local_syncthing 9 ["repo"] chain_report).
Proof.
  refine (proj1 (requests_confined local_syncthing [] no_len settled elsewhere _ 9 ["repo"] chain_report
    "" {| sb_sequence := 0; sb_relative_app := ""; sb_deleted_files := [] |} None)).
  intros k r n (e & path & uri & host & He & Hurl & _).
  assert (e = base) as -> by (rewrite endpoint_trimmed in He; congruence).
  unfold elsewhere. rewrite Hurl, bool_decide_eq_true_2; [done|apply str_bytes_prefix].
Defined.

Definition prepared_boundary : SyncthingBoundary :=
  match (prepare_for_gc settled [] no_len local_syncthing 9 ["repo"] chain_report inspected).1 with
  | Ok b => b
  | Err _ => {| sb_sequence := 0; sb_relative_app := ""; sb_deleted_files := [] |}
  end.
Definition after_boundary : World :=
  (prepare_for_gc settled [] no_len local_syncthing 9 ["repo"] chain_report inspected).2.

Lemma boundary_runs :
  prepare_for_gc settled [] no_len local_syncthing 9 ["repo"] chain_report inspected
    = (Ok prepared_boundary, after_boundary).
Proof. unfold after_boundary. refine (run_Ok _ _ _ _). by_vm. Qed.

Example boundary_size : length (sb_deleted_files prepared_boundary) = 3%nat.
Proof. by_vm. Qed.

Lemma boundary_covers_witness :
  ∃ e, endpoint local_syncthing = Ok e ∧
  let at_id id := join_text (join_text ["repo"] (gr_manifest_scope chain_report)) id in
  (∀ x, x ∈ sb_deleted_files prepared_boundary ↔
     ∃ id, id ∈ gr_candidate_manifests chain_report ∧ listed ["repo"] (at_id id) inspected x) ∧
  ∀ id, id ∈ gr_retained_manifests chain_report ∨ id ∈ gr_candidate_manifests chain_report →
    covered settled local_syncthing e ["repo"] (at_id id) inspected.
Proof.
  refine (boundary_covers settled [] no_len local_syncthing 9 ["repo"] chain_report inspected
    prepared_boundary after_boundary _ boundary_runs).
  apply service_silent.
Defined.

Definition manifest_tree : Node := default Special (at_path (app_dir shop game ++ [manifest_name 5]) inspected).

Lemma walk_ends_witness :
  dirs manifest_tree = 2%nat ∧
  ∀ w', verify_indexed_tree settled no_len local_syncthing 2 base ["repo"]
          (app_dir shop game ++ [manifest_name 5]) inspected ≠ (Err out_of_fuel, w').
Proof.
  split; [by_vm|]. intros w'.
  refine (walk_ends settled no_len local_syncthing _ base ["repo"] 2
    (app_dir shop game ++ [manifest_name 5]) manifest_tree inspected w' _ _).
  - apply service_silent.
  - by_vm.
  - apply Nat.leb_le. by_vm.
Defined.

(** The world after the sweep, and what publishing it answers. *)
Definition published : World := (publish_gc settled local_syncthing prepared_boundary chain_swept).2.

Lemma deletion_confirmed_witness :
  ∃ e, endpoint local_syncthing = Ok e ∧
  (∃ k r n status, read_json_response status_from_str (settled k r n).1 true = Ok status ∧
     ready status = true ∧ sb_sequence prepared_boundary < fs_sequence status) ∧
  ∀ x, x ∈ sb_deleted_files prepared_boundary →
    ∃ k n indexed local,
      read_json_response file_from_str (settled k (file_request local_syncthing e x) n).1 true
        = Ok indexed ∧ fr_local indexed = Some local ∧ lf_deleted local = true.
Proof.
  refine (deletion_confirmed settled local_syncthing prepared_boundary chain_swept published _).
  unfold published. refine (run_Ok _ _ _ _). by_vm.
Defined.

Definition one_batch : SyncthingEventBatch := {| ev_last_id := Some 7; ev_wakes_gc := true |}.

Lemma cursor_advances_witness :
  ∃ last, ev_last_id one_batch = Some last ∧ 3 ≤ last ∧ (ev_wakes_gc one_batch = true → 3 < last).
Proof.
  refine (cursor_advances settled local_syncthing 3 chain_world one_batch
    (wait_for_gc_events settled local_syncthing (Some 3) chain_world).2 _).
  refine (run_Ok _ _ _ _). by_vm.
Defined.

(** ** Inspections *)

Definition asked : InspectionRequest := {|
  ir_store := shop; ir_app_id := game; ir_syncthing := Some local_syncthing; ir_epoch := 1;
  ir_revision := 1 |}.

Definition state_asked : CoordinatorState :=
  (register_inspection shop game (Some local_syncthing) 1 default_state).2.

Definition inspection (http : nat → HttpRequest → Node → HttpAnswer * Node) (w : World)
    : InspectionOutcome * World :=
  inspect_once http [] no_len 9 1 1 state_asked 1 asked w.

(** With a settled service the oldest manifest goes; with one that does not index the
    deletion it is put back; with a busy one nothing happens. *)
Example inspection_sweeps :
  (inspection settled chain_world).1 = Finished ∧
  at_path (app_dir shop game ++ [manifest_name 0]) (inspection settled chain_world).2 = None.
Proof. split; by_vm. Qed.

Example inspection_put_off :
  (inspection stuck chain_world).1 = DeferForSyncthing ∧
  (inspection busy chain_world).1 = DeferForSyncthing.
Proof. split; by_vm. Qed.

Lemma inspection_spares_witness :
  same_at (app_dir shop game ++ [manifest_name 5]) chain_world (inspection settled chain_world).2.
Proof.
  refine (inspection_spares settled [] no_len 9 asked shop_separate account chain (manifest_name 5)
    1 1 state_asked 1 (inspection settled chain_world).1 chain_world _ eq_refl chain_repository _ _ _).
  - left. apply (bool_decide_eq_true_1 _). by_vm.
  - done.
  - exact (surjective_pairing (inspection settled chain_world)).
Defined.

Lemma deferral_undone_witness :
  same_at (app_dir shop game) chain_world (inspection stuck chain_world).2.
Proof.
  refine (deferral_undone stuck [] no_len 9 asked shop_separate 1 1 state_asked 1 chain_world
    (inspection stuck chain_world).2 _ _ _); [done..|].
  etransitivity; [exact (surjective_pairing (inspection stuck chain_world))|].
  refine (f_equal (λ o, (o, (inspection stuck chain_world).2)) _). by_vm.
Defined.

(** ** Runs of the coordinator *)

Section runs.
Context (http : nat → HttpRequest → Node → HttpAnswer * Node).
Notation stepping := (step http [] no_len 9).
Notation running := (run http [] no_len 9 chain_world).

Definition merged : gmap InspectionKey InspectionRequest := merge_pending_request ∅ asked.

(** An inspection is queued, sent, taken and found current. *)
Definition g0 : Coordinator := try_new chain_world.
Definition g1 : Coordinator := with_sending [asked] (with_state state_asked g0).
Definition g2 : Coordinator := send (MsgInspect asked) (with_sending [] g1).
Definition g3 : Coordinator := with_worker (Draining merged) (with_channel [] (with_state state_asked g2)).
Definition g4 : Coordinator := with_worker (Working (btree_values merged)) g3.
Definition g5 : Coordinator := with_worker (Locking asked []) g4.
Definition g6 : Coordinator := with_worker (Inspecting asked []) g5.

Definition taken : list Event := [Internal; Internal; Internal; Internal; Internal; Queued asked].

Lemma g4_worker : co_worker g4 = Working [asked].
Proof. by_vm. Qed.

Lemma g6_runs : running taken g6.
Proof.
  assert (H1 : running [Queued asked] g1).
  { eapply run_step; [apply run_start|]. apply client. apply (step_queue shop game (Some local_syncthing));
      [done|by_vm|done]. }
  assert (H2 : running [Internal; Queued asked] g2).
  { eapply run_step; [exact H1|]. apply client. by apply (step_send asked [] []). }
  assert (H3 : running [Internal; Internal; Queued asked] g3).
  { eapply run_step; [exact H2|]. apply worker. by eapply step_recv. }
  assert (H4 : running [Internal; Internal; Internal; Queued asked] g4).
  { eapply run_step; [exact H3|]. apply worker. by apply step_drained. }
  assert (H5 : running [Internal; Internal; Internal; Internal; Queued asked] g5).
  { eapply run_step; [exact H4|]. apply worker.
    exact (step_load http [] no_len 9 asked [] g4 g4_worker). }
  eapply run_step; [exact H5|]. apply worker.
  pose proof (step_lock http [] no_len 9 asked [] g5 eq_refl) as Hs.
  replace (request_is_current_locked (co_state g5) (co_epoch g5) asked) with true in Hs by by_vm.
  exact Hs.
Qed.
End runs.

(** With a busy service the inspection is deferred and a listener started. *)
Definition listened : SyncthingListenerKey := (["repo"], local_syncthing).
Definition waiting_world : World := (stage_inspect busy [] no_len 9 asked chain_world).2.
Definition b7 : Coordinator :=
  with_worker (Decided asked DeferForSyncthing []) (with_world waiting_world g6).
Definition state_deferred : CoordinatorState := (register_deferral state_asked 1 listened asked).2.
Definition b8 : Coordinator := with_worker (Spawning listened 1 []) (with_state state_deferred b7).
Definition b9 : Coordinator :=
  with_worker (Working []) (with_listeners [new_listener listened 1] b8).

Lemma b9_runs :
  run busy [] no_len 9 chain_world (Internal :: Internal :: Internal :: taken) b9.
Proof.
  assert (H7 : run busy [] no_len 9 chain_world (Internal :: taken) b7).
  { eapply run_step; [apply g6_runs|]. apply worker.
    apply (step_inspect busy [] no_len 9 asked [] (Err DeferForSyncthing) waiting_world g6 eq_refl).
    unfold waiting_world. change (co_world g6) with chain_world.
    etransitivity; [exact (surjective_pairing (stage_inspect busy [] no_len 9 asked chain_world))|].
    refine (f_equal (λ x, (x, (stage_inspect busy [] no_len 9 asked chain_world).2)) _). by_vm. }
  assert (H8 : run busy [] no_len 9 chain_world (Internal :: Internal :: taken) b8).
  { eapply run_step; [exact H7|]. apply worker.
    apply (step_defer busy [] no_len 9 asked listened (Some 1) state_deferred [] b7 eq_refl eq_refl).
    etransitivity; [exact (surjective_pairing (register_deferral state_asked 1 listened asked))|].
    refine (f_equal (λ x, (x, state_deferred)) _). by_vm. }
  eapply run_step; [exact H8|]. apply worker.
  exact (step_spawn busy [] no_len 9 listened 1 [] b8 eq_refl eq_refl).
Qed.

Lemma coordinator_invariant_witness : coordinator_wf b9.
Proof. exact (coordinator_invariant busy [] no_len 9 chain_world _ b9 b9_runs). Defined.

Lemma newest_request_kept_witness :
  ∃ r, key r = key asked ∧ ir_epoch r = co_epoch b9 ∧ ir_revision r = 1 ∧
       (in_flight b9 r ∨ Completed r ∈ (Internal :: Internal :: Internal :: taken)).
Proof.
  refine (newest_request_kept busy [] no_len 9 chain_world _ b9 (key asked) 1 b9_runs _ _).
  - cbn. unfold u64_max. lia.
  - by_vm.
Defined.

Definition registered : ListenerRegistration := {| lr_id := 1; lr_wake_queued := false |}.

Lemma wake_reaches_deferred_witness :
  served b9 listened 1 ∧
  (∀ pending pending' s, keyed pending →
     merge_worker_message pending (co_state b9) (co_epoch b9) (MsgSyncthingEvent listened 1)
       = (pending', s) →
     cs_deferred s !! key asked = None ∧ ∃ q, pending' !! key asked = Some q ∧ supersedes q asked).
Proof.
  destruct (wake_reaches_deferred busy [] no_len 9 chain_world _ b9 (key asked) asked listened registered
    b9_runs) as (H1 & _ & H2); [by_vm|done|by_vm|]. by split.
Defined.

(** With a settled one it goes on to the sweep. *)
Definition ready_world : World := (stage_inspect settled [] no_len 9 asked chain_world).2.
Definition planned_world : World := (stage_prepare asked chain_report ready_world).2.
Definition s7 : Coordinator :=
  with_worker (Inspected asked chain_report (Some prepared_boundary) []) (with_world ready_world g6).
Definition s8 : Coordinator := with_worker (Preparing asked chain_report (Some prepared_boundary) []) s7.
Definition s9 : Coordinator :=
  with_worker (Prepared asked (Some prepared_boundary) chain_plan []) (with_world planned_world s8).
Definition s10 : Coordinator := with_worker (Relocking asked (Some prepared_boundary) chain_plan []) s9.
Definition s11 : Coordinator := with_worker (Sweeping asked (Some prepared_boundary) chain_plan []) s10.
Definition planned_events : list Event := Internal :: Internal :: Internal :: Internal :: taken.

Lemma s10_runs : run settled [] no_len 9 chain_world planned_events s10.
Proof.
  assert (H7 : run settled [] no_len 9 chain_world (Internal :: taken) s7).
  { eapply run_step; [apply g6_runs|]. apply worker.
    apply (step_inspect settled [] no_len 9 asked [] (Ok (chain_report, Some prepared_boundary))
      ready_world g6 eq_refl).
    unfold ready_world. change (co_world g6) with chain_world.
    etransitivity; [exact (surjective_pairing (stage_inspect settled [] no_len 9 asked chain_world))|].
    refine (f_equal (λ x, (x, (stage_inspect settled [] no_len 9 asked chain_world).2)) _). by_vm. }
  assert (H8 : run settled [] no_len 9 chain_world (Internal :: Internal :: taken) s8).
  { eapply run_step; [exact H7|]. apply worker.
    exact (step_load_epoch settled [] no_len 9 asked chain_report _ [] s7 eq_refl). }
  assert (H9 : run settled [] no_len 9 chain_world (Internal :: Internal :: Internal :: taken) s9).
  { eapply run_step; [exact H8|]. apply worker.
    apply (step_prepare settled [] no_len 9 asked chain_report _ [] (Ok chain_plan) planned_world s8 eq_refl).
    unfold planned_world. change (co_world s8) with ready_world.
    etransitivity; [exact (surjective_pairing (stage_prepare asked chain_report ready_world))|].
    refine (f_equal (λ x, (x, (stage_prepare asked chain_report ready_world).2)) _). by_vm. }
  eapply run_step; [exact H9|]. apply worker.
  exact (step_reload settled [] no_len 9 asked _ chain_plan [] s9 eq_refl).
Qed.

Lemma sweep_starts_current_witness :
  Queued asked ∈ planned_events ∧
  (∀ q, Queued q ∈ planned_events → key q = key asked → newer q asked = false) ∧
  ∀ es1 es2, planned_events = es2 ++ Invalidated :: es1 → ¬ Queued asked ∈ es1.
Proof.
  refine (sweep_starts_current settled [] no_len 9 chain_world planned_events s10 s11 asked s10_runs _ _).
  - cbn. unfold u64_max. lia.
  - apply worker. apply step_relock; [done|by_vm].
Defined.
