(* ===== verification/CumulusClient.v ===== *)
(** * CumulusClient: the client of the remote service ([crates/cloud-cumulus])

    [lib.rs]: requests with the device's credentials, errors and their retry class, device
    binding and the principal behind a token; [playtime.rs], [achievement.rs]: uploads and
    pulls; [port.rs]: the backend interface. The HTTP library and the service behind it are
    one parameter: what is answered may depend on everything asked before. A request's body
    is the [serde_json] value that is encoded for it. *)

From Stdlib Require Import ZArith Lia.
From S2P Require Import Prelude RustStd CloudCore.

Local Open Scope Z_scope.

(** ** JSON values ([serde_json::Value]) *)

Inductive Value :=
| VNull
| VBool (b : bool)
| VNumber (n : Z)
| VString (s : string)
| VArray (l : list Value)
| VObject (fields : list (string * Value)).

Definition v_option {A} (f : A → Value) (o : option A) : Value :=
  match o with Some a => f a | None => VNull end.
Definition v_list {A} (f : A → Value) (l : list A) : Value := VArray (f <$> l).

(** ** Settings, requests and answers *)

Record CumulusSettings := {
  cus_server_url : string; cus_token : string;
  cus_timeout_connect_ms : Z; cus_timeout_ms : Z;
}.

(** [cloud_cumulus::CumulusClient]; its agent is given by the time-outs of the settings. *)
Record SharedCumulusClient := {
  sh_settings : CumulusSettings; sh_steam_client_id : option string;
}.

Inductive HttpMethod := GET | POST | DELETE.
#[export] Instance HttpMethod_eq_dec : EqDecision HttpMethod.
Proof. solve_decision. Defined.

Record ServiceRequest := {
  sv_method : HttpMethod; sv_url : string; sv_headers : list (string * string);
  sv_body : option Value; sv_timeout_connect_ms : Z; sv_timeout_ms : Z;
}.
(** The status, and the body read as text. *)
Record ServiceResponse := { so_status : Z; so_body : result string string }.
Notation ServiceAnswer := (result string ServiceResponse).

(** What was asked and answered, in this order. *)
Notation ServiceLog := (list (ServiceRequest * ServiceAnswer)).

(** ** Errors *)

Inductive CumulusError :=
| HttpStatus (status : Z)
| Transport (message : string)
| JsonError (message : string).

Definition CumulusError_is_retryable (e : CumulusError) : bool :=
  match e with
  | HttpStatus status => bool_decide (status ∈ [401; 403; 408; 409; 429]) || (500 <=? status)
  | Transport _ => true
  | JsonError _ => false
  end.

Definition CumulusError_text (e : CumulusError) : string :=
  match e with
  | HttpStatus status => "Cumulus returned HTTP " ++ bytes_str (dec_text status)
  | Transport message => "Cumulus transport failed: " ++ message
  | JsonError message => "invalid Cumulus JSON: " ++ message
  end.

(** [impl From<CumulusError> for BackendError] *)
Definition backend_error (e : CumulusError) : BackendError :=
  {| be_message := CumulusError_text e; be_retryable := CumulusError_is_retryable e |}.

Definition ensure_success (status : Z) : result CumulusError unit :=
  if (200 <=? status) && (status <? 300) then Ok tt else Err (HttpStatus status).

(** ** The client *)

Definition STEAM_CLIENT_ID_HEADER : string := "x-cumulus-steam-client-id".

Definition SharedCumulusClient_new (settings : CumulusSettings) (steam_client_id : option Z)
    : SharedCumulusClient :=
  {| sh_settings := settings;
     sh_steam_client_id := (λ id, bytes_str (dec_text id)) <$> steam_client_id |}.

Definition client_url (c : SharedCumulusClient) (path : string) : string :=
  bytes_str (trim_end_matches 47 (str_bytes (cus_server_url (sh_settings c)))) ++ path.

Definition authorization_header (c : SharedCumulusClient) : string :=
  "Bearer " ++ cus_token (sh_settings c).

Definition steam_client_id_header (c : SharedCumulusClient) : option string :=
  sh_steam_client_id c.

Definition with_client_id (c : SharedCumulusClient) : list (string * string) :=
  match sh_steam_client_id c with
  | Some client_id => [(STEAM_CLIENT_ID_HEADER, client_id)]
  | None => []
  end.

Definition request (c : SharedCumulusClient) (method : HttpMethod) (path : string)
    (content : list (string * string)) (body : option Value) : ServiceRequest :=
  {| sv_method := method; sv_url := client_url c path;
     sv_headers := ("Authorization", authorization_header c) :: content ++ with_client_id c;
     sv_body := body;
     sv_timeout_connect_ms := cus_timeout_connect_ms (sh_settings c);
     sv_timeout_ms := cus_timeout_ms (sh_settings c) |}.

(** [achievement::SchemaUploadOutcome], and the backend interface's *)
Inductive SchemaUploadOutcome := SchemaUploaded | SchemaDisabled.
Inductive BackendSchemaOutcome := SchemaAccepted | SchemaDeclined.

(** A computation that talks to the service. *)
Definition Net (A : Type) : Type := ServiceLog → result CumulusError A * ServiceLog.
#[export] Instance Net_ret : MRet Net := λ A a l, (Ok a, l).
#[export] Instance Net_bind : MBind Net := λ A B k m l,
  match m l with (Ok a, l) => k a l | (Err e, l) => (Err e, l) end.
Definition net {A} (r : result CumulusError A) : Net A := λ l, (r, l).

(** The libraries' decoders, each with its error, and base64. *)
Class CumulusCodec := {
  decode_principal : string → result string string;
  decode_schema_accepted : string → result string bool;
  decode_upload_result : string → result string SteamStateUploadResult;
  decode_app_stats : string → result string AppStatsResult;
  decode_account_state : string → result string AccountSyncState;
  base64_standard : list Z → string;
}.

Section client.
Context (service : ServiceLog → ServiceRequest → ServiceAnswer).

(** The agent: a transport error, or an answer whatever its status. *)
Definition send_request (r : ServiceRequest) : Net ServiceResponse := λ l,
  let answer := service l r in
  (match answer with Ok response => Ok response | Err e => Err (Transport e) end,
   l ++ [(r, answer)]).

(** [read_to_string()?], then [serde_json::from_str(..)?] *)
Definition from_json {T} (decode : string → result string T) (response : ServiceResponse)
    : result CumulusError T :=
  match so_body response with
  | Err e => Err (Transport e)
  | Ok body => match decode body with Ok t => Ok t | Err e => Err (JsonError e) end
  end.

Definition post_json (c : SharedCumulusClient) (path : string) (body : Value)
    : Net ServiceResponse :=
  response ← send_request
    (request c POST path [("Content-Type", "application/json")] (Some body));
  _ ← net (ensure_success (so_status response));
  mret response.

Definition get_json {T} (decode : string → result string T) (c : SharedCumulusClient)
    (path : string) : Net T :=
  response ← send_request (request c GET path [] None);
  _ ← net (ensure_success (so_status response));
  net (from_json decode response).

Definition post_json_unit (c : SharedCumulusClient) (path : string) (body : Value) : Net unit :=
  _ ← post_json c path body; mret tt.

Definition post_json_response {T} (decode : string → result string T) (c : SharedCumulusClient)
    (path : string) (body : Value) : Net T :=
  response ← post_json c path body; net (from_json decode response).

Definition post_unit (c : SharedCumulusClient) (path : string) : Net unit :=
  response ← send_request (request c POST path [] None);
  net (ensure_success (so_status response)).

Definition delete_path (c : SharedCumulusClient) (path : string) : Net unit :=
  response ← send_request (request c DELETE path [] None);
  net (ensure_success (so_status response)).

Definition delete_allow_not_found (c : SharedCumulusClient) (path : string) : Net unit :=
  response ← send_request (request c DELETE path [] None);
  if so_status response =? 404 then mret tt else net (ensure_success (so_status response)).

(** ** The device and its principal *)

Context {CC : CumulusCodec} (sha256 : list Z → list Z).

Definition device_principal_scope (settings : CumulusSettings) : Net (list Z) :=
  principal ← get_json decode_principal (SharedCumulusClient_new settings None)
                "/api/v1/device/principal";
  mret (principal_scope sha256 (cus_server_url settings) principal).

(** The keys of [BOUND_DEVICES]: a credential and a device. *)
Notation BoundDevices := (list (list Z * DeviceDescriptor)).

Definition binding_body (d : DeviceDescriptor) : Value := VObject [
  ("client_id", VString (bytes_str (dec_text (dd_client_id d))));
  ("machine_name", VString (dd_machine_name d));
  ("os_type", v_option VNumber (dd_os_type d));
  ("device_type", v_option VNumber (dd_device_type d))].

Definition ensure_device_bound (settings : CumulusSettings) (d : DeviceDescriptor)
    (bound : BoundDevices) : ServiceLog → result CumulusError unit * BoundDevices * ServiceLog := λ l,
  let cache_key := (credential_fingerprint sha256 (cus_server_url settings) (cus_token settings), d) in
  if bool_decide (cache_key ∈ bound) then (Ok tt, bound, l)
  else
    match post_json_unit (SharedCumulusClient_new settings (Some (dd_client_id d)))
            "/api/v1/device/bind" (binding_body d) l with
    | (Err e, l) => (Err e, bound, l)
    | (Ok _, l) => (Ok tt, cache_key :: bound, l)
    end.

(** ** Uploads and pulls ([playtime.rs], [achievement.rs]) *)

Definition playtime_value (e : PlaytimeEntry) : Value := VObject [
  ("app_id", VNumber (pe_app_id e)); ("playtime_minutes", VNumber (pe_playtime_minutes e));
  ("playtime_2weeks_minutes", VNumber (pe_playtime_2weeks_minutes e));
  ("last_played_at", v_option VNumber (pe_last_played_at e));
  ("observed_at", VNumber (pe_observed_at e))].

Definition upload_playtime (settings : CumulusSettings) (client_id : Z) (steam_id64 : string)
    (entries : list PlaytimeEntry) : Net unit :=
  match entries with
  | [] => mret tt
  | _ =>
      post_json_unit (SharedCumulusClient_new settings (Some client_id)) "/api/v1/device/playtime"
        (VObject [("steam_id64", VString steam_id64); ("apps", v_list playtime_value entries)])
  end.

Definition upload_schema (settings : CumulusSettings) (schema : AchievementSchema)
    : Net SchemaUploadOutcome :=
  accepted ← post_json_response decode_schema_accepted (SharedCumulusClient_new settings None)
    "/api/v1/device/achievement-schema"
    (VObject [("app_id", VNumber (as_app_id schema)); ("language", VString (as_language schema));
              ("schema_version", v_option VString (as_schema_version schema));
              ("content_base64", VString (base64_standard (as_content schema)))]);
  mret (if accepted : bool then SchemaUploaded else SchemaDisabled).

(** [AchievementUpload] with its name left out, and [OfficialStatState] *)
Definition achievement_value (a : OfficialAchievementState) : Value := VObject [
  ("key", VString (oa_key a)); ("unlocked", VBool (oa_unlocked a));
  ("unlocked_at", v_option VNumber (oa_unlocked_at a))].
Definition stat_value (s : OfficialStatState) : Value := VObject [
  ("key", VString (os_key s)); ("value_type", VString (os_value_type s));
  ("value", VString (os_value s))].

(** [SteamAppUpload] with the playtime fields left out *)
Definition app_upload_value (s : SteamAppSnapshot) : Value := VObject [
  ("app_id", VNumber (ss_app_id s)); ("commit_id", VString (ss_commit_id s));
  ("base_crc_stats", v_option VNumber (ss_base_crc_stats s));
  ("dirty_stat_ids", v_list VNumber (ss_dirty_stat_ids s));
  ("observed_at", VNumber (ss_observed_at s));
  ("achievements", v_list achievement_value (ss_achievements s));
  ("stats", v_list stat_value (ss_stats s))].

Definition upload_snapshot (settings : CumulusSettings) (identity : UploadIdentity)
    (snapshot : SteamAppSnapshot) : Net SteamStateUploadResult :=
  post_json_response decode_upload_result
    (SharedCumulusClient_new settings (Some (ui_client_id identity))) "/api/v1/device/steam-state"
    (VObject [("client_id", VString (bytes_str (dec_text (ui_client_id identity))));
              ("machine_name", VString (ui_machine_name identity));
              ("os_type", v_option VNumber (ui_os_type identity));
              ("device_type", v_option VNumber (ui_device_type identity));
              ("steam_id64", VString (ui_steam_id64 identity));
              ("persona_name", v_option VString (ui_persona_name identity));
              ("apps", v_list app_upload_value [snapshot])]).

Definition pull_app_stats (settings : CumulusSettings) (client_id : Z) (steam_id64 : string)
    (query : AppStatsQuery) : Net AppStatsResult :=
  post_json_response decode_app_stats (SharedCumulusClient_new settings (Some client_id))
    "/api/v1/device/user-stats"
    (VObject [("steam_id64", VString steam_id64); ("app_id", VNumber (aq_app_id query));
              ("client_crc_stats", v_option VNumber (aq_client_crc_stats query));
              ("schema_version", VString (aq_schema_version query))]).

(** [CumulusBackend::pull_account_state]; the account is a number that is not 0. *)
Definition pull_account_state (settings : CumulusSettings) (client_id : Z) (steam_id64 : string)
    : ServiceLog → result BackendError AccountSyncState * ServiceLog := λ l,
  match parse_unsigned u64_max (str_bytes steam_id64) with
  | Some id =>
      if id =? 0 then
        (Err {| be_message := "invalid Steam account ID"; be_retryable := false |}, l)
      else
        let '(r, l) :=
          get_json decode_account_state (SharedCumulusClient_new settings (Some client_id))
            ("/api/v1/device/sync-state?steam_id64=" ++ steam_id64) l in
        (match r with Ok state => Ok state | Err e => Err (backend_error e) end, l)
  | None => (Err {| be_message := "invalid Steam account ID"; be_retryable := false |}, l)
  end.

(** [impl CloudBackend for CumulusBackend]: an operation with its error mapped. *)
Definition on_backend {A} (m : Net A) : ServiceLog → result BackendError A * ServiceLog := λ l,
  let '(r, l) := m l in (match r with Ok a => Ok a | Err e => Err (backend_error e) end, l).

Definition upload_achievement_schema (settings : CumulusSettings) (schema : AchievementSchema)
    : ServiceLog → result BackendError BackendSchemaOutcome * ServiceLog :=
  on_backend (outcome ← upload_schema settings schema;
              mret match outcome with
                   | SchemaUploaded => SchemaAccepted
                   | SchemaDisabled => SchemaDeclined
                   end).
End client.

(** ** One call, one request *)

Definition accepted (a : ServiceAnswer) : Prop :=
  ∃ response, a = Ok response ∧ 200 ≤ so_status response < 300.

(** The computation makes exactly this request; it succeeds only if the service accepted it. *)
Definition asks {A} (service : ServiceLog → ServiceRequest → ServiceAnswer) (rq : ServiceRequest)
    (m : Net A) : Prop :=
  ∀ l r l', m l = (r, l') →
    l' = l ++ [(rq, service l rq)] ∧ (is_ok r = true → accepted (service l rq)).

Lemma ensure_success_Ok status u : ensure_success status = Ok u → 200 ≤ status < 300.
Proof.
  unfold ensure_success. case_match eqn:E; [|done]. intros _.
  apply andb_true_iff in E as [?%Z.leb_le ?%Z.ltb_lt]. lia.
Qed.

Section asking.
Context (service : ServiceLog → ServiceRequest → ServiceAnswer).

(** A request whose answer is checked first and then used without another request. *)
Lemma asks_checked {A} rq (k : ServiceResponse → result CumulusError A) :
  asks service rq (response ← send_request service rq;
                   _ ← net (ensure_success (so_status response)); net (k response)).
Proof.
  intros l r l'. unfold mbind, Net_bind, send_request, net.
  destruct (service l rq) as [response|e] eqn:E; [|by intros [= <- <-]].
  destruct (ensure_success (so_status response)) as [[]|e] eqn:Es; [|by intros [= <- <-]].
  intros [= <- <-]. split; [done|]. intros _. exists response. split; [done|].
  by eapply ensure_success_Ok.
Qed.

Lemma asks_last rq :
  asks service rq (response ← send_request service rq; net (ensure_success (so_status response))).
Proof.
  intros l r l'. unfold mbind, Net_bind, send_request, net.
  destruct (service l rq) as [response|e] eqn:E; [|by intros [= <- <-]].
  destruct (ensure_success (so_status response)) as [[]|e] eqn:Es; intros [= <- <-]; [|done].
  split; [done|]. intros _. exists response. split; [done|]. by eapply ensure_success_Ok.
Qed.

Lemma asks_map {A B} rq (m : Net A) (f : A → result CumulusError B) :
  asks service rq m → asks service rq (a ← m; net (f a)).
Proof.
  intros Hm l r l'. unfold mbind, Net_bind, net. destruct (m l) as [[a|e] l1] eqn:E.
  - intros [= <- <-]. destruct (Hm _ _ _ E) as [-> H]. split; [done|]. intros _. by apply H.
  - intros [= <- <-]. by apply (Hm _ _ _ E).
Qed.

Lemma get_json_asks {T} (decode : string → result string T) c path :
  asks service (request c GET path [] None) (get_json service decode c path).
Proof. apply asks_checked. Qed.

Lemma post_json_asks c path body :
  asks service (request c POST path [("Content-Type", "application/json")] (Some body))
    (post_json service c path body).
Proof. apply (asks_checked _ (λ response, Ok response)). Qed.

Lemma post_json_unit_asks c path body :
  asks service (request c POST path [("Content-Type", "application/json")] (Some body))
    (post_json_unit service c path body).
Proof. apply (asks_map _ _ (λ _, Ok tt)), post_json_asks. Qed.

Lemma post_json_response_asks {T} (decode : string → result string T) c path body :
  asks service (request c POST path [("Content-Type", "application/json")] (Some body))
    (post_json_response service decode c path body).
Proof. apply asks_map, post_json_asks. Qed.

Lemma post_unit_asks c path :
  asks service (request c POST path [] None) (post_unit service c path).
Proof. apply asks_last. Qed.

Lemma delete_path_asks c path :
  asks service (request c DELETE path [] None) (delete_path service c path).
Proof. apply asks_last. Qed.

(** Here "not found" is a success as well. *)
Lemma delete_allow_not_found_log c path l r l' :
  delete_allow_not_found service c path l = (r, l') →
  l' = l ++ [(request c DELETE path [] None, service l (request c DELETE path [] None))].
Proof.
  unfold delete_allow_not_found, mbind, Net_bind, send_request, net.
  destruct (service l _) as [response|e]; [|by intros [= <- <-]].
  case_match; by intros [= <- <-].
Qed.
End asking.

Lemma from_json_Ok {T} (decode : string → result string T) response t :
  from_json decode response = Ok t → ∃ s, so_body response = Ok s ∧ decode s = Ok t.
Proof.
  unfold from_json. destruct (so_body response) as [s|]; [|done].
  destruct (decode s) eqn:E; [|done]. intros [= <-]. eauto.
Qed.

Lemma post_json_response_Ok {T} service (decode : string → result string T) c path body l t l' :
  post_json_response service decode c path body l = (Ok t, l') → ∃ s, decode s = Ok t.
Proof.
  unfold post_json_response, mbind at 1, Net_bind, net.
  destruct (post_json _ _ _ _ _) as [[response|] l1]; [|done]. intros [= Hf _].
  apply from_json_Ok in Hf as (s & _ & Hd). eauto.
Qed.
