(* ===== verification/CloudSettings.v ===== *)
(** * CloudSettings: settings, endpoints and transfer targets of [cloud-rpc]

    [http.rs]: the settings of a request, the endpoint of the remote service, targets the
    service issues for transfers and the small conversions around them;
    [transfer_targets.rs]: the registry of issued targets. *)

From Stdlib Require Import ZArith Lia.
From S2P Require Import Prelude RustStd CloudCore FileSystem StoreFiles FolderStore Syncthing.
From S2P Require Import CumulusClient.
From S2P Require JournalRecord.

Local Open Scope Z_scope.

(** ** Configuration ([config/src/model.rs]) *)

Inductive CloudBackendMode := Disabled | LocalBackend | Cumulus.
#[export] Instance CloudBackendMode_eq_dec : EqDecision CloudBackendMode.
Proof. solve_decision. Defined.

Record SyncthingSection := {
  ss_enabled : bool; ss_url : string; ss_api_key : string; ss_folder_id : string;
  ss_timeout_ms : Z;
}.
Record LocalCloudSection := { lc_path : string; lc_syncthing : SyncthingSection }.
Record CumulusCloudSection := {
  cc_server_url : string; cc_token : string; cc_timeout_connect_ms : Z; cc_timeout_ms : Z;
}.
Record CloudSection := {
  cl_backend : CloudBackendMode; cl_local : LocalCloudSection; cl_cumulus : CumulusCloudSection;
}.

Definition local_cloud_configured (c : CloudSection) : bool :=
  bool_decide (cl_backend c = LocalBackend).
Definition cumulus_configured (c : CloudSection) : bool :=
  bool_decide (cl_backend c = Cumulus).

(** ** Settings *)

Record CloudSettings := {
  cs_backend : CloudBackendMode; cs_local_path : string;
  cs_syncthing : option SyncthingGcConfig; cs_server_url : string; cs_token : string;
  cs_steam_client_id : option Z; cs_steam_machine_name : option string;
  cs_steam_id64 : option Z; cs_bind_device : bool; cs_timeout_connect_ms : Z; cs_timeout_ms : Z;
}.
#[export] Instance CloudSettings_eq_dec : EqDecision CloudSettings.
Proof. solve_decision. Defined.

(** [descriptor] is the device descriptor of the process and [steam_id] the account it has
    seen, 0 before a login. *)
Definition from_config (c : CloudSection) (descriptor : option DeviceDescriptor) (steam_id : Z)
    : CloudSettings := {|
  cs_backend := cl_backend c;
  cs_local_path := trimmed (lc_path (cl_local c));
  cs_syncthing :=
    let s := lc_syncthing (cl_local c) in
    if local_cloud_configured c && ss_enabled s then
      Some {| sy_url := trimmed (ss_url s); sy_api_key := trimmed (ss_api_key s);
              sy_folder_id := trimmed (ss_folder_id s); sy_timeout_ms := ss_timeout_ms s |}
    else None;
  cs_server_url := trimmed (cc_server_url (cl_cumulus c));
  cs_token := trimmed (cc_token (cl_cumulus c));
  cs_steam_client_id := dd_client_id <$> descriptor;
  cs_steam_machine_name :=
    name ← dd_machine_name <$> descriptor;
    if bool_decide (trimmed name = "") then None else Some name;
  cs_steam_id64 := if steam_id =? 0 then None else Some steam_id;
  cs_bind_device := true;
  cs_timeout_connect_ms := cc_timeout_connect_ms (cl_cumulus c);
  cs_timeout_ms := cc_timeout_ms (cl_cumulus c);
|}.

(** [Option::filter(|id| *id != 0)] *)
Definition nonzero (o : option Z) : option Z :=
  match o with Some 0 | None => None | Some id => Some id end.

Section scopes.
Context (sha256 : list Z → list Z).

Definition syncthing_fingerprint (s : CloudSettings) : option (list Z) :=
  (λ c, credential_fingerprint sha256
          (bytes_str (trim_end_matches 47 (str_bytes (sy_url c)) ++ [47]
                      ++ str_bytes (sy_folder_id c)))
          (sy_api_key c)) <$> cs_syncthing s.

(** What [conflict_scope] hashes. *)
Definition conflict_preimage (s : CloudSettings) : list Z :=
  str_bytes "vapor-local-cloud-conflict" ++ [0] ++ trim (str_bytes (cs_local_path s)) ++ [0]
  ++ le_bytes 8 (default 0 (cs_steam_id64 s)) ++ le_bytes 8 (default 0 (cs_steam_client_id s))
  ++ default [] (syncthing_fingerprint s).

Definition conflict_scope (s : CloudSettings) : list Z := sha256 (conflict_preimage s).

(** ** The scope of an adapter's state *)

Record CloudStateScope := { sc_fingerprint : list Z; sc_steam_id64 : option Z }.

Definition local_scope_url (path : string) (steam_id64 : option Z) (syncthing : option (list Z))
    : string :=
  bytes_str (str_bytes "file://" ++ trim (str_bytes path) ++ str_bytes "/accounts/"
             ++ dec_text (default 0 steam_id64) ++ str_bytes "?syncthing="
             ++ default (str_bytes "disabled") syncthing).

Definition scope_local (path : string) (steam_id64 : option Z) (syncthing : option (list Z))
    : CloudStateScope :=
  {| sc_fingerprint := endpoint_scope sha256 (local_scope_url path steam_id64 syncthing);
     sc_steam_id64 := steam_id64 |}.

Definition from_settings (s : CloudSettings) : CloudStateScope :=
  if bool_decide (cs_backend s = LocalBackend) then
    scope_local (cs_local_path s) (cs_steam_id64 s) (syncthing_fingerprint s)
  else {| sc_fingerprint := credential_fingerprint sha256 (cs_server_url s) (cs_token s);
          sc_steam_id64 := cs_steam_id64 s |}.
End scopes.

#[export] Instance CloudStateScope_eq_dec : EqDecision CloudStateScope.
Proof. solve_decision. Defined.

(** ** Errors *)

Inductive AdapterError :=
| Protocol (message : string)
| Http (message : string)
| Json (message : string)
| Protobuf (message : string)
| Store (error : JournalRecord.SyncJournalError)
| Client (error : CumulusError)
| Backend (error : BackendError).

Notation AR := (result AdapterError).

Definition required {A} (value : option A) (field : string) : AR A :=
  match value with Some v => Ok v | None => Err (Protocol ("missing " ++ field)) end.

(** ** Conversions *)

Definition parse_batch_id (value : string) : AR Z :=
  match parse_unsigned u64_max (str_bytes value) with
  | None => Err (Protocol "Cumulus returned a non-numeric batch id")
  | Some id =>
      if (id =? 0) || (i64_max <? id)
      then Err (Protocol "Cumulus batch id is outside the positive 63-bit range")
      else Ok id
  end.

Definition signed_bits (value : Z) : Z := as_i64 value.
Definition nonnegative_u64 (value : Z) (field : string) : AR Z :=
  if value <? 0 then Err (Protocol ("negative Cumulus " ++ field)) else Ok value.
Definition clamp_u32 (value : Z) : Z := Z.max 0 (Z.min u32_max value).

Definition bytes_to_hex (bytes : list Z) : string := bytes_str (hex_bytes bytes).

Definition hex_nibble (b : Z) : AR Z :=
  if (48 <=? b) && (b <=? 57) then Ok (b - 48)
  else if (97 <=? b) && (b <=? 102) then Ok (b - 97 + 10)
  else if (65 <=? b) && (b <=? 70) then Ok (b - 65 + 10)
  else Err (Protocol "invalid hex value").

Fixpoint hex_pairs (l : list Z) : AR (list Z) :=
  match l with
  | h :: l' :: rest =>
      high ← hex_nibble h; low ← hex_nibble l';
      rest ← hex_pairs rest; Ok (Z.lor (Z.shiftl high 4) low :: rest)
  | _ => Ok []
  end.

Definition hex_to_bytes (hex : string) : AR (list Z) :=
  if Z.odd (str_len hex) then Err (Protocol "odd-length hex value")
  else hex_pairs (str_bytes hex).

(** ** The endpoint of the remote service *)

Record Endpoint := { en_origin : string; en_authority : string; en_base_path : string; en_https : bool }.

(** [str::split_once(c)] on bytes: before and after the first [c] *)
Fixpoint split_once (c : Z) (l : list Z) : option (list Z * list Z) :=
  match l with
  | [] => None
  | b :: l => if b =? c then Some ([], l)
              else match split_once c l with Some (x, y) => Some (b :: x, y) | None => None end
  end.

Definition scheme_and_rest (raw : list Z) : AR (bool * list Z) :=
  match strip_prefix (str_bytes "https://") raw with
  | Some rest => Ok (true, rest)
  | None =>
      match strip_prefix (str_bytes "http://") raw with
      | Some rest => Ok (false, rest)
      | None => Err (Protocol "cloud.cumulus.server_url must use http:// or https://")
      end
  end.

Definition endpoint_parse (raw : string) : AR Endpoint :=
  let raw := trim_end_matches 47 (trim (str_bytes raw)) in
  '(https, rest) ← scheme_and_rest raw;
  if bool_decide (rest = []) || bool_decide (64 ∈ rest) || bool_decide (63 ∈ rest)
     || bool_decide (35 ∈ rest)
  then Err (Protocol "invalid cloud.cumulus.server_url")
  else
    let '(authority, base_path) :=
      match split_once 47 rest with
      | Some (authority, path) => (authority, 47 :: trim_end_matches 47 path)
      | None => (rest, [])
      end in
    if bool_decide (authority = []) then Err (Protocol "invalid cloud.cumulus.server_url")
    else Ok {| en_origin := bytes_str raw; en_authority := bytes_str authority;
               en_base_path := bytes_str base_path; en_https := https |}.

Definition resolve_path (e : Endpoint) (suffix : string) : string := en_base_path e ++ suffix.

Definition eq_ignore_ascii_case (a b : string) : bool :=
  bool_decide (to_ascii_lowercase a = to_ascii_lowercase b).

(** The part before the first [?]. *)
Definition before_query (path : list Z) : list Z :=
  match split_once 63 path with Some (p, _) => p | None => path end.

(** [["files", _, "content"] | ["upload-batches", _, "files", _, "blocks", _]] *)
Definition transfer_segments (segments : list (list Z)) : bool :=
  match segments with
  | [a; _; c] => bool_decide (a = str_bytes "files") && bool_decide (c = str_bytes "content")
  | [a; _; c; _; e; _] =>
      bool_decide (a = str_bytes "upload-batches") && bool_decide (c = str_bytes "files")
      && bool_decide (e = str_bytes "blocks")
  | _ => false
  end.

Definition matches_transfer_location (e : Endpoint) (authority path : string) : bool :=
  if negb (eq_ignore_ascii_case authority (en_authority e)) then false
  else
    match strip_prefix (str_bytes (resolve_path e "/api/v1/")) (str_bytes path) with
    | None => false
    | Some path => transfer_segments (split_slash (before_query path))
    end.

(** ** Transfer targets *)

(** What [http::Uri] finds in a text. *)
Record UriParts := {
  up_scheme : option string; up_authority : option string; up_path_and_query : option string;
}.
Class UriParser := { uri_parse : string → option UriParts }.

Record CloudHttpHeader := { hh_name : option string; hh_value : option string }.
Record CumulusTransferHeader := { th_name : string; th_value : string }.
Record CumulusTransferTarget := {
  tt_url_host : option string; tt_url_path : string; tt_use_https : option bool;
  tt_request_headers : list CumulusTransferHeader;
}.
Record ResolvedTransferTarget := {
  rt_authority : string; rt_path : string; rt_https : bool; rt_headers : list CloudHttpHeader;
}.

(** The client of the remote service and its endpoint. *)
Record CumulusClient := { cu_inner : SharedCumulusClient; cu_endpoint : Endpoint }.

Definition CumulusClient_new (s : CloudSettings) : AR CumulusClient :=
  endpoint ← endpoint_parse (cs_server_url s);
  Ok {| cu_inner := SharedCumulusClient_new
          {| cus_server_url := en_origin endpoint; cus_token := cs_token s;
             cus_timeout_connect_ms := cs_timeout_connect_ms s;
             cus_timeout_ms := cs_timeout_ms s |} (cs_steam_client_id s);
        cu_endpoint := endpoint |}.

Definition header (name value : string) : CloudHttpHeader :=
  {| hh_name := Some name; hh_value := Some value |}.

Definition auth_headers (c : CumulusClient) : list CloudHttpHeader :=
  header "Authorization" (authorization_header (cu_inner c))
  :: match steam_client_id_header (cu_inner c) with
     | Some id => [header STEAM_CLIENT_ID_HEADER id]
     | None => []
     end.

(** [str::contains([..])] *)
Definition contains_any (cs : list Z) (s : string) : bool :=
  existsb (λ b, bool_decide (b ∈ cs)) (str_bytes s).

Fixpoint transfer_headers (l : list CumulusTransferHeader) : AR (list CloudHttpHeader) :=
  match l with
  | [] => Ok []
  | h :: l =>
      if bool_decide (th_name h = "") || contains_any [13; 10] (th_name h)
         || contains_any [13; 10] (th_value h)
      then Err (Protocol "Cumulus returned an invalid transfer header")
      else rest ← transfer_headers l; Ok (header (th_name h) (th_value h) :: rest)
  end.

Section targets.
Context {UP : UriParser}.

Definition parse_absolute_target (url : string) : option (bool * string * string) :=
  uri ← uri_parse url;
  scheme ← up_scheme uri;
  https ← if bool_decide (scheme = "https") then Some true
          else if bool_decide (scheme = "http") then Some false else None;
  authority ← up_authority uri;
  path ← up_path_and_query uri;
  Some (https, authority, path).

(** The parser finds the host, and nothing else, as the authority. *)
Definition is_authority (authority : string) : bool :=
  match uri_parse ("https://" ++ authority ++ "/") with
  | Some uri => bool_decide (up_authority uri = Some authority)
  | None => false
  end.

Definition resolve_transfer_target (c : CumulusClient) (t : CumulusTransferTarget)
    : AR ResolvedTransferTarget :=
  let path := str_bytes (tt_url_path t) in
  if negb (bool_decide (head path = Some 47)) || bool_decide ([47; 47] `prefix_of` path)
  then Err (Protocol "Cumulus returned an invalid transfer path")
  else
    headers ← transfer_headers (tt_request_headers t);
    match tt_url_host t with
    | Some authority =>
        if bool_decide (authority = "") || contains_any [47; 64; 63; 35; 13; 10] authority
           || negb (is_authority authority)
        then Err (Protocol "Cumulus returned an invalid transfer host")
        else
          match tt_use_https t with
          | None => Err (Protocol "external transfer target omitted use_https")
          | Some https =>
              Ok {| rt_authority := authority; rt_path := tt_url_path t; rt_https := https;
                    rt_headers := headers |}
          end
    | None =>
        match tt_use_https t with
        | Some _ => Err (Protocol "relative transfer target supplied use_https")
        | None =>
            Ok {| rt_authority := en_authority (cu_endpoint c);
                  rt_path := resolve_path (cu_endpoint c) (tt_url_path t);
                  rt_https := en_https (cu_endpoint c);
                  rt_headers := headers ++ auth_headers c |}
        end
    end.
End targets.

(** ** Issued targets ([transfer_targets.rs]); times are nanoseconds of the clock *)

Module TransferTargets.

Definition CAPACITY : nat := 4096.
Definition TTL : Z := 15 * 60 * 1000000000.

Record IssuedTransferTarget := {
  it_scope : CloudStateScope; it_authority : string; it_path : string; it_expires_at : Z;
}.

(** The targets in the order they were issued. *)
Notation TransferTargetRegistry := (list IssuedTransferTarget).

Fixpoint remove_expired (targets : TransferTargetRegistry) (now : Z) : TransferTargetRegistry :=
  match targets with
  | t :: rest => if it_expires_at t <=? now then remove_expired rest now else targets
  | [] => []
  end.

Definition issued (scope : CloudStateScope) (authority path : string) (now : Z)
    : IssuedTransferTarget :=
  {| it_scope := scope; it_authority := to_ascii_lowercase authority; it_path := path;
     it_expires_at := now + TTL |}.

Definition register (targets : TransferTargetRegistry) (scope : CloudStateScope)
    (authority path : string) (now : Z) : TransferTargetRegistry :=
  let targets := remove_expired targets now in
  let targets := if (length targets =? CAPACITY)%nat then tail targets else targets in
  targets ++ [issued scope authority path now].

Definition is_target (scope : CloudStateScope) (authority path : string)
    (t : IssuedTransferTarget) : bool :=
  bool_decide (it_scope t = scope) && eq_ignore_ascii_case (it_authority t) authority
  && bool_decide (it_path t = path).

Definition contains (targets : TransferTargetRegistry) (scope : CloudStateScope)
    (authority path : string) (now : Z) : bool * TransferTargetRegistry :=
  let targets := remove_expired targets now in
  (existsb (is_target scope authority path) targets, targets).
End TransferTargets.

(** ** Facts *)

Lemma nibble_of_digit n : 0 ≤ n < 16 → hex_nibble (hex_digit n) = Ok n.
Proof.
  intros Hn. unfold hex_digit, hex_nibble. destruct (Z.ltb_spec n 10).
  - rewrite (proj2 (Z.leb_le 48 _)), (proj2 (Z.leb_le _ 57)) by lia. cbn. f_equal; lia.
  - rewrite (proj2 (Z.leb_gt (87 + n) 57)), andb_false_r by lia.
    rewrite (proj2 (Z.leb_le 97 _)), (proj2 (Z.leb_le _ 102)) by lia. cbn. f_equal; lia.
Qed.

Lemma nibbles_byte b : in_u8 b → Z.lor (Z.shiftl (b / 16) 4) (b mod 16) = b.
Proof.
  intros Hb. rewrite <-Z.lor_comm.
  replace (b mod 16) with (Z.land b (Z.ones 4)) by (by rewrite Z.land_ones).
  change (b / 16) with (b / 2 ^ 4). rewrite <-Z.shiftr_div_pow2 by lia.
  apply Z.bits_inj'. intros n Hn. rewrite Z.lor_spec, Z.land_spec, Z.testbit_ones_nonneg by lia.
  rewrite Z.shiftl_spec by lia. destruct (Z.ltb_spec n 4).
  - rewrite (Z.testbit_neg_r _ (n - 4)), orb_false_r, andb_true_r by lia. done.
  - rewrite Z.shiftr_spec, andb_false_r, orb_false_l by lia. f_equal; lia.
Qed.

Lemma hex_pairs_bytes l : Forall in_u8 l → hex_pairs (hex_bytes l) = Ok l.
Proof.
  induction 1 as [|b l Hb _ IH]; [done|].
  change (hex_bytes (b :: l)) with (hex_digit (b / 16) :: hex_digit (b mod 16) :: hex_bytes l).
  cbn [hex_pairs]. unfold in_u8, u8_max in Hb.
  rewrite !nibble_of_digit by (first [apply Z.mod_pos_bound; lia | split; [apply Z.div_pos|apply Z.div_lt_upper_bound]; lia]).
  cbn [mbind result_bind]. rewrite IH. cbn. by rewrite nibbles_byte.
Qed.

Lemma hex_bytes_in_u8 l : Forall in_u8 l → Forall in_u8 (hex_bytes l).
Proof.
  induction 1 as [|b l Hb _ IH]; [done|].
  change (hex_bytes (b :: l)) with (hex_digit (b / 16) :: hex_digit (b mod 16) :: hex_bytes l).
  unfold in_u8, u8_max in Hb.
  pose proof (Z.mod_pos_bound b 16). assert (0 ≤ b / 16 < 16)
    by (split; [apply Z.div_pos|apply Z.div_lt_upper_bound]; lia).
  repeat constructor; [..|done]; unfold hex_digit; case_match; int_lia.
Qed.

(** [hex_roundtrip]: what [bytes_to_hex] writes, [hex_to_bytes] reads back. *)
Lemma hex_roundtrip l : Forall in_u8 l → hex_to_bytes (bytes_to_hex l) = Ok l.
Proof.
  intros Hl. unfold hex_to_bytes, bytes_to_hex, str_len.
  rewrite str_bytes_bytes_str by by apply hex_bytes_in_u8.
  rewrite hex_pairs_bytes by done. rewrite length_hex_bytes, Nat2Z.inj_mul, Z.odd_mul. done.
Qed.

(** ** Where credentials go *)

Definition clean_header (h : CloudHttpHeader) : Prop :=
  ∃ name value, h = header name value ∧ name ≠ "" ∧
    contains_any [13; 10] name = false ∧ contains_any [13; 10] value = false.

Lemma transfer_headers_clean l hs :
  transfer_headers l = Ok hs →
  hs = (λ h, header (th_name h) (th_value h)) <$> l ∧ Forall clean_header hs.
Proof.
  revert hs. induction l as [|h l IH]; intros hs; [by intros [= <-]|]. cbn [transfer_headers].
  case_match eqn:E; [done|]. intros Hm. res_inv. destruct (IH _ Hx) as [-> Hc].
  apply orb_false_iff in E as [[En E1]%orb_false_iff E2].
  apply bool_decide_eq_false in En. split; [done|]. constructor; [|done].
  by exists (th_name h), (th_value h).
Qed.


(** ** What the registry of issued targets answers *)

Module TransferTargetsSpec.
Import TransferTargets.

(** A call and the time it is made at. *)
Inductive Call :=
| Register (scope : CloudStateScope) (authority path : string) (now : Z)
| Contains (scope : CloudStateScope) (authority path : string) (now : Z).

Definition time_of (c : Call) : Z :=
  match c with Register _ _ _ now | Contains _ _ _ now => now end.

Definition call (targets : list IssuedTransferTarget) (c : Call) : list IssuedTransferTarget :=
  match c with
  | Register scope authority path now => register targets scope authority path now
  | Contains scope authority path now => (contains targets scope authority path now).2
  end.

(** The targets issued in a history, oldest first, and the newest [n] of a list. *)
Definition issues (calls : list Call) : list IssuedTransferTarget :=
  omap (λ c, match c with
             | Register scope authority path now => Some (issued scope authority path now)
             | Contains _ _ _ _ => None
             end) calls.
Definition newest {A} (n : nat) (l : list A) : list A := drop (length l - n) l.

Definition live (now : Z) (t : IssuedTransferTarget) : Prop := now < it_expires_at t.
#[global] Instance live_dec now t : Decision (live now t).
Proof. unfold live. apply _. Defined.

Definition earlier (a b : IssuedTransferTarget) : Prop := it_expires_at a ≤ it_expires_at b.
Definition ordered (l : list IssuedTransferTarget) : Prop := StronglySorted earlier l.

Lemma filter_all {A} (P : A → Prop) `{∀ x, Decision (P x)} l : Forall P l → filter P l = l.
Proof. induction 1 as [|x l Hx _ IH]; [done|]. by rewrite filter_cons_True, IH. Qed.

Lemma Forall_filter_of {A} (P Q : A → Prop) `{∀ x, Decision (P x)} l :
  Forall Q l → Forall Q (filter P l).
Proof.
  intros Hl. apply Forall_forall. intros x [_ Hx]%list_elem_of_filter.
  by eapply Forall_forall in Hl.
Qed.

Lemma live_suffix l now : ordered l → remove_expired l now = filter (live now) l.
Proof.
  induction 1 as [|t l Hl IH Hall]; [done|]. cbn [remove_expired].
  destruct (Z.leb_spec (it_expires_at t) now).
  - rewrite filter_cons_False, IH by (unfold live; lia). done.
  - rewrite filter_cons_True by (unfold live; lia). f_equal. symmetry.
    apply filter_all. eapply Forall_impl; [exact Hall|]. unfold earlier, live. intros; lia.
Qed.

Lemma ordered_drop n l : ordered l → ordered (drop n l).
Proof.
  intros Hl. revert n. induction Hl as [|t l Hl IH Hall]; intros [|n]; cbn; [constructor|constructor|by constructor|apply IH].
Qed.

Lemma newest_snoc {A} n (l : list A) x : newest (S n) (l ++ [x]) = newest n l ++ [x].
Proof.
  unfold newest. rewrite length_app. cbn [length].
  replace (length l + 1 - S n)%nat with (length l - n)%nat by lia. rewrite drop_app_le by lia. done.
Qed.

Lemma newest_all {A} n (l : list A) : (length l ≤ n)%nat → newest n l = l.
Proof. intros Hl. unfold newest. by replace (length l - n)%nat with 0%nat by lia. Qed.

Lemma newest_S {A} n (l : list A) :
  newest (S n) l = newest n l ∨
  ∃ h, newest (S n) l = h :: newest n l ∧ length (newest (S n) l) = S n.
Proof.
  unfold newest. destruct (decide (length l ≤ n)%nat).
  - left. f_equal. lia.
  - right. destruct (lookup_lt_is_Some_2 l (length l - S n)) as [h Hh]; [lia|].
    exists h. rewrite (drop_S _ _ _ Hh), <-(drop_S _ _ _ Hh), length_drop.
    replace (length l - n)%nat with (S (length l - S n)) by lia.
    rewrite (drop_S _ _ _ Hh). split; [done|lia].
Qed.

(** A full list of live targets loses its oldest, any other only expired ones. *)
Lemma room now n l :
  ordered (newest (S n) l) →
  (let r := filter (live now) (newest (S n) l) in if (length r =? S n)%nat then tail r else r)
  = filter (live now) (newest n l).
Proof.
  intros Ho. cbn zeta. destruct (newest_S n l) as [Heq|(h & Heq & Hlen)].
  - rewrite Heq. destruct (Nat.eqb_spec (length (filter (live now) (newest n l))) (S n)) as [E|]; [|done].
    exfalso. pose proof (length_filter (live now) (newest n l)) as Hf. revert E Hf.
    unfold newest. rewrite length_drop. lia.
  - rewrite Heq in *. inversion Ho as [|? ? _ Hall]; subst. cbn [length] in Hlen.
    destruct (decide (live now h)) as [Hl|Hl].
    + rewrite filter_cons_True, (filter_all _ (newest n l)) by
        (first [done | eapply Forall_impl; [exact Hall|]; unfold earlier, live in *; intros; lia]).
      cbn [length tail]. by rewrite (proj2 (Nat.eqb_eq _ _)) by lia.
    + rewrite filter_cons_False by done.
      destruct (Nat.eqb_spec (length (filter (live now) (newest n l))) (S n)) as [E|]; [|done].
      pose proof (length_filter (live now) (newest n l)). lia.
Qed.

(** Calls are made in the order of time. *)
Definition in_time (calls : list Call) : Prop := StronglySorted Z.le (time_of <$> calls).

Lemma in_time_snoc calls c :
  in_time (calls ++ [c]) → in_time calls ∧ Forall (λ d, time_of d ≤ time_of c) calls.
Proof.
  unfold in_time. rewrite fmap_app. induction calls as [|d calls IH]; [by split; constructor|].
  cbn. inversion 1 as [|? ? Hs Hall]; subst. destruct (IH Hs) as [H1 H2].
  apply Forall_app in Hall as [Ha Hb]. inversion Hb; subst. split; by constructor.
Qed.

Lemma issues_snoc calls c : issues (calls ++ [c]) = issues calls ++ issues [c].
Proof. apply omap_app. Qed.

Lemma issues_bound calls t :
  Forall (λ d, time_of d ≤ t) calls → Forall (λ x, it_expires_at x ≤ t + TTL) (issues calls).
Proof.
  induction 1 as [|c calls Hc _ IH]; [constructor|]. destruct c; cbn in *; [|done].
  constructor; [cbn; lia|done].
Qed.

Lemma ordered_snoc l x : ordered l → Forall (λ y, earlier y x) l → ordered (l ++ [x]).
Proof.
  intros Ho. induction Ho as [|t l Ho IH Hall]; cbn; [repeat constructor|].
  inversion 1; subst. constructor; [by apply IH|]. apply Forall_app. split; [done|by constructor].
Qed.

Lemma issues_ordered calls : in_time calls → ordered (issues calls).
Proof.
  induction calls as [|c calls IH] using rev_ind; [constructor|]. intros [Ht Hb]%in_time_snoc.
  rewrite issues_snoc. destruct c; cbn; [|rewrite app_nil_r; auto].
  apply ordered_snoc; [auto|]. apply issues_bound in Hb.
  eapply Forall_impl; [exact Hb|]. done.
Qed.

(** The registry holds the live ones among the newest [CAPACITY] targets. *)
Lemma registry_is calls c :
  in_time (calls ++ [c]) →
  foldl call [] (calls ++ [c]) = filter (live (time_of c)) (newest CAPACITY (issues (calls ++ [c]))).
Proof.
  revert c. induction calls as [|d calls IH] using rev_ind; intros c Ht.
  - destruct c as [scope authority path now|]; [|done].
    change ([] ++ [?x]) with [x]. cbn [foldl call issues omap list_omap time_of].
    rewrite newest_all by (cbn [length]; unfold CAPACITY; lia).
    rewrite filter_cons_True; [done|]. unfold live, issued, TTL. cbn. lia.
  - pose proof Ht as [Hd Hb]%in_time_snoc. rewrite foldl_app, (IH _ Hd), (issues_snoc (calls ++ [d])). cbn [foldl].
    set (N := newest CAPACITY (issues (calls ++ [d]))).
    assert (Ho : ordered N) by (by apply ordered_drop, issues_ordered).
    assert (Hle : time_of d ≤ time_of c).
    { by apply Forall_app in Hb as [_ Hb]; inversion Hb. }
    assert (Hr : ∀ now, time_of d ≤ now →
              remove_expired (filter (live (time_of d)) N) now = filter (live now) N).
    { intros now Hn. rewrite live_suffix.
      - apply list_filter_filter_l. unfold live. intros; lia.
      - clear -Ho. induction Ho as [|t l Ho IH Hall]; [constructor|]. rewrite filter_cons.
        case_decide; [|done]. constructor; [done|]. by apply Forall_filter_of. }
    destruct c as [scope authority path now|scope authority path now]; cbn [call time_of issues omap list_omap].
    + unfold register. rewrite Hr by done. unfold N in *. clear N.
      rewrite (newest_snoc 4095), filter_app, <-(room now 4095) by done.
      f_equal. rewrite filter_cons_True; [done|]. unfold live, issued, TTL. cbn. lia.
    + cbn. rewrite app_nil_r. by apply Hr.
Qed.
End TransferTargetsSpec.

(** [registry_answers]: whatever calls were made before, and however many were dropped,
    the registry says that a transfer is one it issued exactly when one of the newest
    4096 registrations for that scope, host (whatever its case) and path has not
    expired. *)
Theorem registry_answers calls scope authority path now :
  TransferTargetsSpec.in_time (calls ++ [TransferTargetsSpec.Contains scope authority path now]) →
  (TransferTargets.contains (foldl TransferTargetsSpec.call [] calls) scope authority path now).1 =
  existsb (TransferTargets.is_target scope authority path)
    (filter (TransferTargetsSpec.live now)
       (TransferTargetsSpec.newest TransferTargets.CAPACITY (TransferTargetsSpec.issues calls))).
Proof.
  intros Ht. pose proof (TransferTargetsSpec.registry_is _ _ Ht) as Hr.
  rewrite foldl_app, TransferTargetsSpec.issues_snoc in Hr. cbn in Hr.
  rewrite app_nil_r in Hr. unfold TransferTargets.contains. cbn. by rewrite Hr.
Qed.
