(* ===== verification/ConflictUi.v ===== *)
(** * ConflictUi: conflicts the user settles ([cloud-rpc/src/conflict_ui.rs])

    When an app has several heads that Steam's own dialog cannot offer, the coordinator
    shows a dialog of its own in each client window. Every choice in a dialog carries a
    token; the token a window sends back is looked up, the choice is queued for a worker
    that publishes the chosen version, and an acknowledgement goes back to the window.

    The state behind the coordinator's lock is [State]; each operation is the part of it
    that runs under the lock, with the flag that tells whether it asked for a pass of the
    user interface ([signal_change]). *)

From Stdlib Require Import ZArith Lia.
From S2P Require Import Prelude RustStd CloudCore FileSystem StoreFiles FolderStore StoreOpen.
From S2P Require Import Syncthing CloudSettings.

Local Open Scope Z_scope.

(** ** Data *)

Record ConflictUiContext := {
  cx_steam_id64 : Z; cx_identity_generation : Z; cx_connection_generation : Z;
  cx_window_generation : Z; cx_cloud_scope : list Z;
}.
#[export] Instance ConflictUiContext_eq_dec : EqDecision ConflictUiContext.
Proof. solve_decision. Defined.
#[export] Program Instance ConflictUiContext_countable : Countable ConflictUiContext :=
  inj_countable' (λ c, (cx_steam_id64 c, cx_identity_generation c, cx_connection_generation c,
                        cx_window_generation c, cx_cloud_scope c))
    (λ '(a, b, c, d, e), Build_ConflictUiContext a b c d e) _.
Next Obligation. by intros []. Qed.

(** The account and the app. *)
Notation ConflictKey := (Z * Z)%type.

Record ConflictDialogCandidate := {
  dc_token : string; dc_revision : Z; dc_machine_name : string; dc_created_at_ms : Z;
  dc_file_count : nat; dc_total_bytes : Z; dc_file_names : list string; dc_is_local : bool;
}.
Record ConflictDialog := {
  cd_app_id : Z; cd_cancel_token : string; cd_candidates : list ConflictDialogCandidate;
}.
Record ConflictUiAck := {
  ua_token : string; ua_app_id : Z; ua_accepted : bool; ua_error : string;
  ua_resume_launch : bool; ua_cancel_launch : bool;
}.
Inductive ConflictSubmitResult := Accepted | UnknownToken | Stale.

Record PendingConflict := {
  pc_settings : CloudSettings; pc_identity : CommitIdentity; pc_heads : list string;
  pc_candidates : list ManifestCandidate; pc_resolving : bool; pc_armed : bool;
  pc_minimum_revision : Z; pc_cloud_scope : list Z;
}.
Record Binding := { bi_key : ConflictKey; bi_head : string; bi_context : ConflictUiContext }.
Record Choice := {
  ch_key : ConflictKey; ch_head : string; ch_token : string; ch_context : ConflictUiContext;
  ch_epoch : Z; ch_pending : PendingConflict;
}.
Record PendingAck := { pa_context : ConflictUiContext; pa_ack : ConflictUiAck; pa_sent : bool }.

Record State := {
  st_epoch : Z;
  st_pending : gmap ConflictKey PendingConflict;
  st_presented : gset (ConflictKey * ConflictUiContext);
  st_bindings : gmap string Binding;
  st_acks : list PendingAck;
}.

Definition default_conflicts : State :=
  {| st_epoch := 0; st_pending := ∅; st_presented := ∅; st_bindings := ∅; st_acks := [] |}.

#[export] Instance CommitIdentity_eq_dec : EqDecision CommitIdentity.
Proof. solve_decision. Defined.

Definition with_pending m (s : State) : State :=
  {| st_epoch := st_epoch s; st_pending := m; st_presented := st_presented s;
     st_bindings := st_bindings s; st_acks := st_acks s |}.
Definition with_windows presented bindings (s : State) : State :=
  {| st_epoch := st_epoch s; st_pending := st_pending s; st_presented := presented;
     st_bindings := bindings; st_acks := st_acks s |}.
Definition with_acks acks (s : State) : State :=
  {| st_epoch := st_epoch s; st_pending := st_pending s; st_presented := st_presented s;
     st_bindings := st_bindings s; st_acks := acks |}.

Definition set_resolving (b : bool) (p : PendingConflict) : PendingConflict :=
  {| pc_settings := pc_settings p; pc_identity := pc_identity p; pc_heads := pc_heads p;
     pc_candidates := pc_candidates p; pc_resolving := b; pc_armed := pc_armed p;
     pc_minimum_revision := pc_minimum_revision p; pc_cloud_scope := pc_cloud_scope p |}.
Definition set_armed (p : PendingConflict) : PendingConflict :=
  {| pc_settings := pc_settings p; pc_identity := pc_identity p; pc_heads := pc_heads p;
     pc_candidates := pc_candidates p; pc_resolving := pc_resolving p; pc_armed := true;
     pc_minimum_revision := pc_minimum_revision p; pc_cloud_scope := pc_cloud_scope p |}.
Definition raise_minimum (revision : Z) (p : PendingConflict) : PendingConflict :=
  {| pc_settings := pc_settings p; pc_identity := pc_identity p; pc_heads := pc_heads p;
     pc_candidates := pc_candidates p; pc_resolving := pc_resolving p; pc_armed := pc_armed p;
     pc_minimum_revision := Z.max (pc_minimum_revision p) revision;
     pc_cloud_scope := pc_cloud_scope p |}.

Definition discard_key_bindings (k : ConflictKey) (s : State) : State :=
  with_windows (filter (λ x, x.1 ≠ k) (st_presented s))
    (filter (λ x, bi_key x.2 ≠ k) (st_bindings s)) s.

Definition same_runtime_context (l r : ConflictUiContext) : bool :=
  (cx_steam_id64 l =? cx_steam_id64 r)
  && (cx_identity_generation l =? cx_identity_generation r)
  && (cx_connection_generation l =? cx_connection_generation r)
  && bool_decide (cx_cloud_scope l = cx_cloud_scope r).

Definition new_ack (context : ConflictUiContext) (token : string) (app_id : Z) (accepted : bool)
    (error : string) (resume_launch cancel_launch : bool) : PendingAck :=
  {| pa_context := context;
     pa_ack := {| ua_token := token; ua_app_id := app_id; ua_accepted := accepted;
                  ua_error := error; ua_resume_launch := resume_launch;
                  ua_cancel_launch := cancel_launch |};
     pa_sent := false |}.

Section conflicts.
Context {C : StoreCodec}.
(** The clock at the [n]-th token, in nanoseconds, and the order of a hash map. *)
Context (nanos : Z → Z) (pending_order : gmap ConflictKey PendingConflict → list ConflictKey).

(** ** Tokens: [n] tokens were made before; the counter starts at 1 *)

Definition token_preimage (n : Z) (k : ConflictKey) (head : string) (context : ConflictUiContext)
    : list Z :=
  le_bytes 8 k.1 ++ le_bytes 4 k.2 ++ str_bytes head
  ++ le_bytes 8 (cx_identity_generation context) ++ le_bytes 8 (cx_connection_generation context)
  ++ le_bytes 8 (cx_window_generation context) ++ cx_cloud_scope context
  ++ le_bytes 8 (u64_wrapping_add 1 n) ++ le_bytes 16 (nanos n).

Definition next_token (n : Z) (k : ConflictKey) (head : string) (context : ConflictUiContext)
    : string := hex_digest sha256 (token_preimage n k head context).

(** ** Registering a conflict *)

Definition conflict_of (settings : CloudSettings) (identity : CommitIdentity) (view : StoreView)
    (armed : bool) (minimum_revision : Z) : PendingConflict :=
  {| pc_settings := settings; pc_identity := identity; pc_heads := head_ids view;
     pc_candidates := sv_heads view; pc_resolving := false; pc_armed := armed;
     pc_minimum_revision := minimum_revision;
     pc_cloud_scope := conflict_scope sha256 settings |}.

(** The same versions seen by the same device through the same settings. *)
Definition same_conflict (p : PendingConflict) (heads : list string) (identity : CommitIdentity)
    (scope : list Z) : bool :=
  bool_decide (pc_heads p = heads) && bool_decide (pc_identity p = identity)
  && bool_decide (pc_cloud_scope p = scope).

Definition register (settings : CloudSettings) (app_id : Z) (identity : CommitIdentity)
    (view : StoreView) (required : bool) (minimum_revision : Z) (s : State) : State * bool :=
  match nonzero (cs_steam_id64 settings) with
  | None => (s, false)
  | Some steam_id64 =>
      let k := (steam_id64, app_id) in
      if negb required then
        let removed := bool_decide (is_Some (st_pending s !! k)) in
        (discard_key_bindings k (with_pending (delete k (st_pending s)) s), removed)
      else
        let armed := match st_pending s !! k with Some p => pc_armed p | None => false end in
        let pending := conflict_of settings identity view armed minimum_revision in
        let unchanged :=
          match st_pending s !! k with
          | Some current =>
              same_conflict current (pc_heads pending) (pc_identity pending)
                (pc_cloud_scope pending)
          | None => false
          end in
        let s := with_pending (alter (raise_minimum minimum_revision) k (st_pending s)) s in
        if unchanged then (s, false)
        else (discard_key_bindings k (with_pending (<[k := pending]> (st_pending s)) s), true)
  end.

(** [arm] takes the lock twice, once before and once after [register]; [None] means that the
    second part is needed. *)
Definition arm_present (settings : CloudSettings) (app_id : Z) (identity : CommitIdentity)
    (view : StoreView) (minimum_revision : Z) (s : State) : option (State * bool) :=
  steam_id64 ← nonzero (cs_steam_id64 settings);
  let k := (steam_id64, app_id) in
  p ← st_pending s !! k;
  if same_conflict p (head_ids view) identity (conflict_scope sha256 settings) then
    Some (with_pending (<[k := set_armed (raise_minimum minimum_revision p)]> (st_pending s)) s,
          negb (pc_armed p))
  else None.

Definition arm_registered (k : ConflictKey) (s : State) : bool * State * bool :=
  match st_pending s !! k with
  | None => (false, s, false)
  | Some p => (true, with_pending (<[k := set_armed p]> (st_pending s)) s, true)
  end.

(** The whole call, when nothing else takes the lock in between. *)
Definition arm (settings : CloudSettings) (app_id : Z) (identity : CommitIdentity)
    (view : StoreView) (required : bool) (minimum_revision : Z) (s : State) : bool * State * bool :=
  match nonzero (cs_steam_id64 settings) with
  | None => (false, s, false)
  | Some steam_id64 =>
      match arm_present settings app_id identity view minimum_revision s with
      | Some (s, signal) => (true, s, signal)
      | None =>
          if negb required then (false, s, false)
          else
            let '(s, signal) := register settings app_id identity view true minimum_revision s in
            let '(armed, s, signal') := arm_registered (steam_id64, app_id) s in
            (armed, s, signal || signal')
      end
  end.

(** ** Dialogs *)

Definition offered (context : ConflictUiContext) (x : ConflictKey * PendingConflict) : Prop :=
  x.1.1 = cx_steam_id64 context ∧ pc_cloud_scope x.2 = cx_cloud_scope context ∧
  pc_armed x.2 = true ∧ pc_resolving x.2 = false.
#[export] Instance offered_dec context x : Decision (offered context x).
Proof. unfold offered. apply _. Defined.

Definition bind (token : string) (k : ConflictKey) (head : string) (context : ConflictUiContext)
    (s : State) : State :=
  with_windows (st_presented s)
    (<[token := {| bi_key := k; bi_head := head; bi_context := context |}]> (st_bindings s)) s.

(** The candidates of one dialog, each with a token of its own. *)
Fixpoint bind_candidates (k : ConflictKey) (context : ConflictUiContext) (local : Z)
    (l : list ManifestCandidate) (n : Z) (s : State) : list ConflictDialogCandidate * Z * State :=
  match l with
  | [] => ([], n, s)
  | c :: l =>
      let token := next_token n k (mc_id c) context in
      let '(rest, n, s) :=
        bind_candidates k context local l (n + 1) (bind token k (mc_id c) context s) in
      ({| dc_token := token; dc_revision := mc_revision c; dc_machine_name := mc_machine_name c;
          dc_created_at_ms := mc_created_at_ms c; dc_file_count := mc_file_count c;
          dc_total_bytes := mc_total_bytes c; dc_file_names := mc_file_names c;
          dc_is_local := mc_client_id c =? local |} :: rest, n, s)
  end.

Fixpoint present (context : ConflictUiContext) (keys : list ConflictKey) (n : Z) (s : State)
    : list ConflictDialog * Z * State :=
  match keys with
  | [] => ([], n, s)
  | k :: keys =>
      if bool_decide ((k, context) ∈ st_presented s) then present context keys n s
      else
        match st_pending s !! k with
        | None => present context keys n s
        | Some p =>
            let '(candidates, n, s) :=
              bind_candidates k context (ci_client_id (pc_identity p)) (pc_candidates p) n s in
            let cancel := next_token n k "cancel" context in
            let s := bind cancel k "" context s in
            let s := with_windows ({[(k, context)]} ∪ st_presented s) (st_bindings s) s in
            let '(rest, n, s) := present context keys (n + 1) s in
            ({| cd_app_id := k.2; cd_cancel_token := cancel; cd_candidates := candidates |} :: rest,
             n, s)
        end
  end.

Definition offered_keys (context : ConflictUiContext) (s : State) : list ConflictKey :=
  let offers := filter (offered context) (st_pending s) in
  filter (λ k, is_Some (offers !! k)) (pending_order (st_pending s)).

Definition dialogs (context : ConflictUiContext) (n : Z) (s : State)
    : list ConflictDialog * Z * State :=
  if (cx_steam_id64 context =? 0) || (cx_window_generation context =? 0) then ([], n, s)
  else present context (offered_keys context s) n s.
End conflicts.

(** ** Submitting a choice *)

(** The answer, the choice to queue, the state and whether a pass was asked for. *)
Definition submit (token : string) (context : ConflictUiContext) (s : State)
    : ConflictSubmitResult * option Choice * State * bool :=
  match st_bindings s !! token with
  | None => (UnknownToken, None, s, false)
  | Some b =>
      let k := bi_key b in
      if negb (bool_decide (bi_context b = context)) || negb (k.1 =? cx_steam_id64 context) then
        if (cx_steam_id64 (bi_context b) =? cx_steam_id64 context)
           && negb (bool_decide (cx_cloud_scope (bi_context b) = cx_cloud_scope context))
        then (Stale, None,
              discard_key_bindings k (with_pending (delete k (st_pending s)) s), true)
        else (Stale, None, s, false)
      else if bool_decide (bi_head b = "") then
        let s := discard_key_bindings k (with_pending (delete k (st_pending s)) s) in
        (Accepted, None,
         with_acks (st_acks s ++ [new_ack context token k.2 true "" false true]) s, true)
      else
        match st_pending s !! k with
        | None => (Stale, None, s, false)
        | Some p =>
            if pc_resolving p || bool_decide (pc_heads p = []) then (Stale, None, s, false)
            else
              let p := set_resolving true p in
              let choice := {| ch_key := k; ch_head := bi_head b; ch_token := token;
                               ch_context := context; ch_epoch := st_epoch s; ch_pending := p |} in
              (Accepted, Some choice,
               discard_key_bindings k (with_pending (<[k := p]> (st_pending s)) s), false)
        end
  end.

(** ** Acknowledgements *)

Fixpoint deliver (context : ConflictUiContext) (acks : list PendingAck)
    : list ConflictUiAck * list PendingAck :=
  match acks with
  | [] => ([], [])
  | a :: acks =>
      let owner :=
        if (cx_window_generation (pa_context a) =? 0) && same_runtime_context (pa_context a) context
        then context else pa_context a in
      let now := bool_decide (owner = context) && negb (pa_sent a) in
      let '(out, acks) := deliver context acks in
      ((if now then [pa_ack a] else []) ++ out,
       {| pa_context := owner; pa_ack := pa_ack a; pa_sent := pa_sent a || now |} :: acks)
  end.

Definition ack_deliveries (context : ConflictUiContext) (s : State) : list ConflictUiAck * State :=
  let '(out, acks) := deliver context (st_acks s) in (out, with_acks acks s).

Definition queue_ack (context : ConflictUiContext) (ack : ConflictUiAck) (s : State) : State * bool :=
  if existsb (λ a, same_runtime_context (pa_context a) context
                   && bool_decide (ua_token (pa_ack a) = ua_token ack)) (st_acks s)
  then (s, false)
  else (with_acks (st_acks s ++ [{| pa_context := context; pa_ack := ack; pa_sent := false |}]) s, true).

Definition acknowledge_ack (context : ConflictUiContext) (token : string) (s : State) : bool * State :=
  let acks := filter (λ a, pa_context a ≠ context ∨ ua_token (pa_ack a) ≠ token) (st_acks s) in
  (negb (length acks =? length (st_acks s))%nat, with_acks acks s).

(** The first of them is to be sent again. *)
Fixpoint unsend (context : ConflictUiContext) (token : string) (acks : list PendingAck)
    : bool * list PendingAck :=
  match acks with
  | [] => (false, [])
  | a :: acks =>
      if bool_decide (pa_context a = context) && bool_decide (ua_token (pa_ack a) = token)
      then (true, {| pa_context := pa_context a; pa_ack := pa_ack a; pa_sent := false |} :: acks)
      else let '(found, acks) := unsend context token acks in (found, a :: acks)
  end.

Definition defer_ack (context : ConflictUiContext) (token : string) (s : State) : bool * State :=
  let '(found, acks) := unsend context token (st_acks s) in (found, with_acks acks s).

Definition retry_ack (context : ConflictUiContext) (token : string) (s : State)
    : bool * State * bool :=
  let '(retry, s) := defer_ack context token s in (retry, s, retry).

(** ** Windows *)

Definition retry_dialog (context : ConflictUiContext) (token : string) (s : State)
    : bool * State * bool :=
  match st_bindings s !! token with
  | Some b =>
      if bool_decide (bi_context b = context) && bool_decide (bi_head b = "") then
        let k := bi_key b in
        let removed := bool_decide ((k, context) ∈ st_presented s) in
        (removed,
         with_windows (st_presented s ∖ {[(k, context)]})
           (filter (λ x, bi_key x.2 ≠ k ∨ bi_context x.2 ≠ context) (st_bindings s)) s,
         removed)
      else (false, s, false)
  | None => (false, s, false)
  end.

Definition retry_context (context : ConflictUiContext) (s : State) : State :=
  with_windows (filter (λ x, x.2 ≠ context) (st_presented s))
    (filter (λ x, bi_context x.2 ≠ context) (st_bindings s)) s.

Definition close_window (a : PendingAck) : PendingAck :=
  let c := pa_context a in
  {| pa_context := {| cx_steam_id64 := cx_steam_id64 c;
                      cx_identity_generation := cx_identity_generation c;
                      cx_connection_generation := cx_connection_generation c;
                      cx_window_generation := 0; cx_cloud_scope := cx_cloud_scope c |};
     pa_ack := pa_ack a; pa_sent := false |}.

Definition retain_ui_windows (generations : list Z) (s : State) : State :=
  with_acks ((λ a, if bool_decide (cx_window_generation (pa_context a) ∈ generations) then a
                   else close_window a) <$> st_acks s)
    (with_windows (filter (λ x, cx_window_generation x.2 ∈ generations) (st_presented s))
       (filter (λ x, cx_window_generation (bi_context x.2) ∈ generations) (st_bindings s)) s).

Definition cancel_pending (s : State) : bool * State * bool :=
  let canceled := negb (bool_decide (st_pending s = ∅)) in
  (canceled,
   {| st_epoch := u64_wrapping_add (st_epoch s) 1; st_pending := ∅; st_presented := ∅;
      st_bindings := ∅; st_acks := [] |}, canceled).

(** ** The worker *)

(** The state still has the conflict the choice was made in. *)
Definition is_current (c : Choice) (s : State) : bool :=
  (st_epoch s =? ch_epoch c)
  && match st_pending s !! ch_key c with
     | Some p => bool_decide (pc_heads p = pc_heads (ch_pending c))
                 && bool_decide (pc_identity p = pc_identity (ch_pending c))
     | None => false
     end.

Definition finish_choice (c : Choice) (r : result string unit) (s : State) : State * bool :=
  let k := ch_key c in
  if negb (is_current c s) then (s, false)
  else
    match r with
    | Ok _ =>
        let s := discard_key_bindings k (with_pending (delete k (st_pending s)) s) in
        (with_acks (st_acks s ++ [new_ack (ch_context c) (ch_token c) k.2 true "" true false]) s, true)
    | Err _ =>
        let s := with_pending (alter (set_resolving false) k (st_pending s)) s in
        let s := with_windows (filter (λ x, x.1 ≠ k) (st_presented s)) (st_bindings s) s in
        (with_acks (st_acks s
           ++ [new_ack (ch_context c) (ch_token c) k.2 false "save_failed" false false]) s, true)
    end.

Section worker.
Context {H : Host} {C : StoreCodec} {FC : FormatCodec} (device : Path → Z) (cwd : Path).

(** [FolderStore::open_account] from the text of a path. *)
Definition open_account_text (text : string) (steam_id64 : Z) (r : Registry)
    : World → BR FolderStore * Registry * World := λ w,
  if steam_id64 =? 0 then (Err (permanent "local cloud account is unavailable"), r, w)
  else if bool_decide (text = "") then (Err (permanent "local cloud path is empty"), r, w)
  else open_account device (join_text cwd text) steam_id64 r w.

(** Releasing a store; the last one runs the destructor. *)
Definition drop_store (s : FolderStore) (r : Registry) : World → Registry * World := λ w,
  let id := Z.to_nat (st_coordination s) in
  let r := release_coordination id r in
  if bool_decide (id ∈ rg_dropping r) then drop_coordination id (st_root s) r w else (r, w).

(** Under an open store, the part of [apply_choice] that may fail. *)
Definition apply_with (choice : Choice) (store : FolderStore) : ST string unit :=
  let p := ch_pending choice in
  let app := (ch_key choice).2 in
  v ← map_err be_message (view store app);
  if negb (bool_decide (head_ids v = pc_heads p))
  then throw "Local cloud versions changed before the choice completed"
  else
    match list_find (λ c, mc_id c = ch_head choice) (pc_candidates p) with
    | None => throw "Selected local cloud version is no longer available"
    | Some (_, c) =>
        _ ← map_err be_message
              (resolve_to_manifest store app (pc_heads p) (mc_id c) (pc_identity p)
                 (pc_minimum_revision p));
        mret tt
    end.

(** The result and the call of [queue_inspection] it makes, which takes the store over. *)
Definition apply_choice (choice : Choice) (r : Registry)
    : World → result string unit * option (FolderStore * Z * option SyncthingGcConfig)
              * Registry * World := λ w,
  let p := ch_pending choice in
  match open_account_text (cs_local_path (pc_settings p)) (ch_key choice).1 r w with
  | (Err e, r, w) => (Err (be_message e), None, r, w)
  | (Ok store, r, w) =>
      match apply_with choice store w with
      | (Err e, w) => let '(r, w) := drop_store store r w in (Err e, None, r, w)
      | (Ok _, w) =>
          (Ok tt, Some (store, (ch_key choice).2, cs_syncthing (pc_settings p)), r, w)
      end
  end.
End worker.

(** ** The coordinator and its threads

    Callers run one operation under the lock at a time; a submitted choice is sent to the
    worker after the lock is released; the worker applies the choices one by one, without
    the lock, and reports each under it. *)

Inductive ResolverWorker :=
| Waiting
| Applying (choice : Choice)
| Reporting (choice : Choice) (r : result string unit).

Record LocalConflictCoordinator := {
  lo_state : State;
  lo_ui_ready : bool;
  lo_tokens : Z;
  lo_sending : list Choice;
  lo_choices : list Choice;
  lo_worker : ResolverWorker;
  lo_work : nat;
}.

Definition try_new : LocalConflictCoordinator :=
  {| lo_state := default_conflicts; lo_ui_ready := false; lo_tokens := 0; lo_sending := [];
     lo_choices := []; lo_worker := Waiting; lo_work := 0 |}.

(** [signal_change] *)
Definition signal_change (b : bool) (n : nat) : nat := if b then S n else n.

Definition under_lock (s : State) (signal : bool) (c : LocalConflictCoordinator)
    : LocalConflictCoordinator :=
  {| lo_state := s; lo_ui_ready := lo_ui_ready c; lo_tokens := lo_tokens c;
     lo_sending := lo_sending c; lo_choices := lo_choices c; lo_worker := lo_worker c;
     lo_work := signal_change signal (lo_work c) |}.

Definition set_ui_ready (ready : bool) (c : LocalConflictCoordinator) : LocalConflictCoordinator :=
  {| lo_state := lo_state c; lo_ui_ready := ready; lo_tokens := lo_tokens c;
     lo_sending := lo_sending c; lo_choices := lo_choices c; lo_worker := lo_worker c;
     lo_work := lo_work c |}.

Definition with_tokens (n : Z) (c : LocalConflictCoordinator) : LocalConflictCoordinator :=
  {| lo_state := lo_state c; lo_ui_ready := lo_ui_ready c; lo_tokens := n;
     lo_sending := lo_sending c; lo_choices := lo_choices c; lo_worker := lo_worker c;
     lo_work := lo_work c |}.

Definition with_flight (sending choices : list Choice) (worker : ResolverWorker)
    (c : LocalConflictCoordinator) : LocalConflictCoordinator :=
  {| lo_state := lo_state c; lo_ui_ready := lo_ui_ready c; lo_tokens := lo_tokens c;
     lo_sending := sending; lo_choices := choices; lo_worker := worker; lo_work := lo_work c |}.

(** What a step shows. *)
Inductive Event :=
| Presented (context : ConflictUiContext) (shown : list ConflictDialog)
| Submitted (token : string) (context : ConflictUiContext) (answer : ConflictSubmitResult)
    (choice : option Choice)
| Applied (choice : Choice) (r : result string unit)
| Finished (choice : Choice) (r : result string unit)
| QueuedAck (context : ConflictUiContext) (ack : ConflictUiAck)
| Delivered (context : ConflictUiContext) (acks : list ConflictUiAck)
| Cancelled
(** The user interface puts something back for its own next pass. *)
| PutBack
| Other.

Section machine.
Context {C : StoreCodec}.
Context (nanos : Z → Z) (pending_order : gmap ConflictKey PendingConflict → list ConflictKey).

Inductive client_step : Event → LocalConflictCoordinator → LocalConflictCoordinator → Prop :=
| step_ready b c : client_step Other c (set_ui_ready b c)
| step_register settings app identity v required minimum s b c :
    register settings app identity v required minimum (lo_state c) = (s, b) →
    client_step Other c (under_lock s b c)
| step_arm_present settings app identity v minimum s b c :
    arm_present settings app identity v minimum (lo_state c) = Some (s, b) →
    client_step Other c (under_lock s b c)
| step_arm_registered k armed s b c :
    arm_registered k (lo_state c) = (armed, s, b) → client_step Other c (under_lock s b c)
| step_dialogs context shown n s c :
    dialogs nanos pending_order context (lo_tokens c) (lo_state c) = (shown, n, s) →
    client_step (Presented context shown) c (with_tokens n (under_lock s false c))
| step_submit token context answer choice s b c :
    submit token context (lo_state c) = (answer, choice, s, b) →
    client_step (Submitted token context answer choice) c
      (with_flight (lo_sending c ++ option_list choice) (lo_choices c) (lo_worker c)
         (under_lock s b c))
| step_send l1 choice l2 c :
    lo_sending c = l1 ++ choice :: l2 →
    client_step Other c (with_flight (l1 ++ l2) (lo_choices c ++ [choice]) (lo_worker c) c)
| step_deliver context out s c :
    ack_deliveries context (lo_state c) = (out, s) →
    client_step (Delivered context out) c (under_lock s false c)
| step_queue_ack context ack s b c :
    queue_ack context ack (lo_state c) = (s, b) →
    client_step (QueuedAck context ack) c (under_lock s b c)
| step_acknowledge context token r s c :
    acknowledge_ack context token (lo_state c) = (r, s) →
    client_step Other c (under_lock s false c)
| step_retry_ack context token r s b c :
    retry_ack context token (lo_state c) = (r, s, b) → client_step Other c (under_lock s b c)
| step_defer_ack context token r s c :
    defer_ack context token (lo_state c) = (r, s) → client_step PutBack c (under_lock s false c)
| step_retry_dialog context token r s b c :
    retry_dialog context token (lo_state c) = (r, s, b) → client_step Other c (under_lock s b c)
| step_retry_context context c :
    client_step PutBack c (under_lock (retry_context context (lo_state c)) false c)
| step_retain generations c :
    client_step PutBack c (under_lock (retain_ui_windows generations (lo_state c)) false c)
| step_cancel r s b c :
    cancel_pending (lo_state c) = (r, s, b) → client_step Cancelled c (under_lock s b c).

(** What applying a choice answers is up to the store ([apply_choice]). *)
Inductive worker_step : Event → LocalConflictCoordinator → LocalConflictCoordinator → Prop :=
| step_receive choice rest c :
    lo_worker c = Waiting → lo_choices c = choice :: rest →
    worker_step Other c (with_flight (lo_sending c) rest (Applying choice) c)
| step_apply choice r c :
    lo_worker c = Applying choice →
    worker_step (Applied choice r) c
      (with_flight (lo_sending c) (lo_choices c) (Reporting choice r) c)
| step_finish choice r s b c :
    lo_worker c = Reporting choice r → finish_choice choice r (lo_state c) = (s, b) →
    worker_step (Finished choice r) c
      (with_flight (lo_sending c) (lo_choices c) Waiting (under_lock s b c)).

Definition step (e : Event) (c c' : LocalConflictCoordinator) : Prop :=
  client_step e c c' ∨ worker_step e c c'.

(** The events so far, in their order. *)
Definition run (es : list Event) (c : LocalConflictCoordinator) : Prop := trace step es try_new c.
End machine.
