(* ===== verification/ConflictUiProofs.v ===== *)
(** * ConflictUiProofs: the conflict coordinator stays consistent

    In every interleaving of windows, callers and the worker: a token stands for a version
    of a conflict that is still open; a conflict being resolved has its choice under way;
    a window is told to resume a launch only after its choice was published; nothing is
    reported about a conflict that was cancelled. *)

From Stdlib Require Import ZArith Lia.
From S2P Require Import Prelude RustStd CloudCore FileSystem StoreFiles FolderStore StoreOpen.
From S2P Require Import Syncthing CloudSettings ConflictUi.

Local Open Scope Z_scope.

Create HintDb conflicts.

(** ** The invariant *)

(** A choice under way names a version of the conflict it was made in, and was made in a
    window of the conflict's account and settings. *)
Definition well_made (c : Choice) : Prop :=
  ch_head c ≠ "" ∧ ch_head c ∈ mc_id <$> pc_candidates (ch_pending c) ∧
  pc_heads (ch_pending c) = mc_id <$> pc_candidates (ch_pending c) ∧
  (ch_key c).1 = cx_steam_id64 (ch_context c) ∧
  pc_cloud_scope (ch_pending c) = cx_cloud_scope (ch_context c).

(** What a conflict on file was registered with. *)
Definition well_registered {C : StoreCodec} (k : ConflictKey) (p : PendingConflict) : Prop :=
  k.1 ≠ 0 ∧ cs_steam_id64 (pc_settings p) = Some k.1 ∧
  pc_heads p = mc_id <$> pc_candidates p ∧
  pc_cloud_scope p = conflict_scope sha256 (pc_settings p).

Record conflicts_inv {C : StoreCodec} (s : State) (flight : list Choice) : Prop := {
  ci_pending k p : st_pending s !! k = Some p → well_registered k p;
  ci_binding t b : st_bindings s !! t = Some b →
    ∃ p, st_pending s !! bi_key b = Some p ∧ offered (bi_context b) (bi_key b, p) ∧
         (bi_head b = "" ∨ bi_head b ∈ mc_id <$> pc_candidates p);
  ci_presented k c : (k, c) ∈ st_presented s →
    ∃ p, st_pending s !! k = Some p ∧ offered c (k, p);
  ci_resolving k p : st_pending s !! k = Some p → pc_resolving p = true →
    ∃ c, c ∈ flight ∧ ch_key c = k ∧ is_current c s = true;
  ci_flight : Forall well_made flight;
}.

Section inv.
Context {C : StoreCodec}.
Context (nanos : Z → Z) (pending_order : gmap ConflictKey PendingConflict → list ConflictKey).

Lemma inv_default : conflicts_inv default_conflicts [].
Proof.
  split; cbn; [by intros k p; rewrite lookup_empty|by intros t b; rewrite lookup_empty|set_solver
    |by intros k p; rewrite lookup_empty|constructor].
Qed.

(** Forgetting windows and tokens. *)
Lemma inv_windows s flight presented bindings :
  conflicts_inv s flight → presented ⊆ st_presented s → bindings ⊆ st_bindings s →
  conflicts_inv (with_windows presented bindings s) flight.
Proof.
  intros [Hp Hb Hpr Hr Hf] Hsub1 Hsub2. split; cbn; try done.
  - intros t b Ht. by eapply Hb, lookup_weaken.
  - intros k c Hin. apply Hpr. set_solver.
Qed.

Lemma inv_acks s flight acks : conflicts_inv s flight → conflicts_inv (with_acks acks s) flight.
Proof. by intros []; split. Qed.

(** A conflict is taken off the file with its windows. *)
Lemma inv_delete s flight k :
  conflicts_inv s flight →
  conflicts_inv (discard_key_bindings k (with_pending (delete k (st_pending s)) s)) flight.
Proof.
  intros [Hp Hb Hpr Hr Hf]. split; cbn; try done.
  - intros k' p [_ ?]%lookup_delete_Some. auto.
  - intros t b [Ht Hne]%map_lookup_filter_Some. cbn in Hne. rewrite lookup_delete_ne by done. eauto.
  - intros k' c. rewrite elem_of_filter. cbn. intros [Hne Hin]. rewrite lookup_delete_ne by done. eauto.
  - intros k' p [Hne Hk]%lookup_delete_Some Hres. destruct (Hr _ _ Hk Hres) as (c & Hin & <- & Hc).
    exists c. split; [done|]. split; [done|]. unfold is_current in *. cbn.
    by rewrite lookup_delete_ne by done.
Qed.

(** A conflict is put on file anew. *)
Lemma inv_insert_new s flight k p :
  conflicts_inv s flight → well_registered k p → pc_resolving p = false →
  conflicts_inv (discard_key_bindings k (with_pending (<[k := p]> (st_pending s)) s)) flight.
Proof.
  intros [Hp Hb Hpr Hr Hf] Hwell Hres. split; cbn; try done.
  - intros k' p' [[<- <-]|[_ ?]]%lookup_insert_Some; auto.
  - intros t b [Ht Hne]%map_lookup_filter_Some. cbn in Hne. rewrite lookup_insert_ne by done. eauto.
  - intros k' c. rewrite elem_of_filter. cbn. intros [Hne Hin]. rewrite lookup_insert_ne by done. eauto.
  - intros k' p' [[<- <-]|[Hne Hk]]%lookup_insert_Some Hr'; [congruence|].
    destruct (Hr _ _ Hk Hr') as (c & Hin & <- & Hc).
    exists c. split; [done|]. split; [done|]. unfold is_current in *. cbn.
    by rewrite lookup_insert_ne by done.
Qed.

(** The same conflict, armed or with another minimal revision. *)
Definition similar (p p' : PendingConflict) : Prop :=
  pc_settings p' = pc_settings p ∧ pc_identity p' = pc_identity p ∧ pc_heads p' = pc_heads p ∧
  pc_candidates p' = pc_candidates p ∧ pc_resolving p' = pc_resolving p ∧
  (pc_armed p = true → pc_armed p' = true) ∧ pc_cloud_scope p' = pc_cloud_scope p.

Lemma similar_armed p : similar p (set_armed p). Proof. by repeat split. Qed.
Lemma similar_minimum n p : similar p (raise_minimum n p). Proof. by repeat split. Qed.

Lemma inv_similar s flight k p p' :
  conflicts_inv s flight → st_pending s !! k = Some p → similar p p' →
  conflicts_inv (with_pending (<[k := p']> (st_pending s)) s) flight.
Proof.
  intros [Hp Hb Hpr Hr Hf] Hk (E1 & E2 & E3 & E4 & E5 & E6 & E7).
  assert (Hof : ∀ c k', offered c (k', p) → offered c (k', p')).
  { unfold offered. cbn. rewrite E5, E7. naive_solver. }
  split; cbn; try done.
  - intros k' q [[<- <-]|[_ ?]]%lookup_insert_Some; [|auto].
    destruct (Hp _ _ Hk) as (? & ? & ? & ?). unfold well_registered. by rewrite E1, E3, E4, E7.
  - intros t b Ht. destruct (Hb _ _ Ht) as (q & Hq & Ho & Hh).
    destruct (decide (bi_key b = k)) as [<-|Hne].
    + rewrite Hk in Hq. injection Hq as <-. exists p'. rewrite lookup_insert_eq, E4. auto.
    + exists q. by rewrite lookup_insert_ne by done.
  - intros k' c Hin. destruct (Hpr _ _ Hin) as (q & Hq & Ho).
    destruct (decide (k' = k)) as [->|Hne].
    + rewrite Hk in Hq. injection Hq as <-. exists p'. rewrite lookup_insert_eq. auto.
    + exists q. by rewrite lookup_insert_ne by done.
  - intros k' q Hq Hres.
    assert (∃ q0, st_pending s !! k' = Some q0 ∧ pc_resolving q0 = true) as (q0 & Hq0 & Hr0).
    { apply lookup_insert_Some in Hq as [[<- <-]|[_ ?]]; [|eauto]. exists p. by rewrite <-E5. }
    destruct (Hr _ _ Hq0 Hr0) as (c & Hin & <- & Hc). exists c. split; [done|]. split; [done|].
    unfold is_current in *. cbn. destruct (decide (k = ch_key c)) as [->|Hne].
    + rewrite lookup_insert_eq. rewrite Hk in Hc. by rewrite E2, E3.
    + by rewrite lookup_insert_ne by done.
Qed.

Lemma inv_minimum s flight k n :
  conflicts_inv s flight → conflicts_inv (with_pending (alter (raise_minimum n) k (st_pending s)) s) flight.
Proof.
  intros Hi. rewrite alter_alt. destruct (st_pending s !! k) as [p|] eqn:Hk; [|by destruct s].
  by eapply inv_similar, similar_minimum.
Qed.

Lemma nonzero_Some o id : nonzero o = Some id → o = Some id ∧ id ≠ 0.
Proof. destruct o as [[|z|z]|]; cbn; [done|by intros [= <-]..|done]. Qed.

Lemma inv_register settings app identity v required minimum s b s' flight :
  conflicts_inv s flight → register settings app identity v required minimum s = (s', b) →
  conflicts_inv s' flight.
Proof.
  intros Hi. unfold register. destruct (nonzero _) as [id|] eqn:Hid; [|by intros [= <- _]].
  apply nonzero_Some in Hid as [Hid Hnz].
  destruct required; cbn [negb]; [|intros [= <- _]; by apply inv_delete].
  destruct (match st_pending s !! (id, app) with
            | Some current => same_conflict _ _ _ _ | None => false end);
    intros [= <- _]; [by apply inv_minimum|].
  pose proof (inv_insert_new _ flight (id, app)
    (conflict_of settings identity v
       (match st_pending s !! (id, app) with Some p => pc_armed p | None => false end) minimum)
    (inv_minimum s flight (id, app) minimum Hi)) as Hn. cbn in Hn. rewrite insert_alter_eq in *.
  by apply Hn.
Qed.

Lemma inv_arm_present settings app identity v minimum s b s' flight :
  conflicts_inv s flight → arm_present settings app identity v minimum s = Some (s', b) →
  conflicts_inv s' flight.
Proof.
  intros Hi. unfold arm_present. intros Hm. simplify_option_eq.
  case_match; [|done]. injection Hm as <- _. eapply inv_similar; [done|eassumption|]. by repeat split.
Qed.

Lemma inv_arm_registered k armed s b s' flight :
  conflicts_inv s flight → arm_registered k s = (armed, s', b) → conflicts_inv s' flight.
Proof.
  intros Hi. unfold arm_registered. destruct (st_pending s !! k) as [p|] eqn:Hk; intros [= _ <- _];
    [|done]. by eapply inv_similar, similar_armed.
Qed.

Lemma inv_bind s flight token k p head context :
  conflicts_inv s flight → st_pending s !! k = Some p → offered context (k, p) →
  (head = "" ∨ head ∈ mc_id <$> pc_candidates p) →
  conflicts_inv (bind token k head context s) flight.
Proof.
  intros [Hp Hb Hpr Hr Hf] Hk Ho Hh. split; cbn; try done.
  intros t b [[<- <-]|[_ Ht]]%lookup_insert_Some; [|eauto]. cbn. eauto.
Qed.

Lemma bind_candidates_pending k context local l n s :
  st_pending (bind_candidates nanos k context local l n s).2 = st_pending s.
Proof.
  revert n s. induction l as [|c l IH]; intros n s; [done|]. cbn [bind_candidates].
  specialize (IH (n + 1) (bind (next_token nanos n k (mc_id c) context) k (mc_id c) context s)).
  by destruct (bind_candidates _ _ _ _ _ _ _) as [[? ?] ?].
Qed.

Lemma inv_bind_candidates k p context local l n s flight :
  conflicts_inv s flight → st_pending s !! k = Some p → offered context (k, p) →
  l ⊆ pc_candidates p → conflicts_inv (bind_candidates nanos k context local l n s).2 flight.
Proof.
  intros Hi Hk Ho. revert n s Hi Hk. induction l as [|c l IH]; intros n s Hi Hk Hl; [done|].
  cbn [bind_candidates].
  specialize (IH (n + 1) (bind (next_token nanos n k (mc_id c) context) k (mc_id c) context s)).
  destruct (bind_candidates _ _ _ _ _ _ _) as [[? ?] ?]. cbn in *. apply IH; [|done|set_solver].
  eapply inv_bind; try done. right. apply list_elem_of_fmap. exists c. set_solver.
Qed.

Lemma inv_present context keys n s flight :
  conflicts_inv s flight →
  Forall (λ k, ∀ p, st_pending s !! k = Some p → offered context (k, p)) keys →
  conflicts_inv (present nanos context keys n s).2 flight.
Proof.
  intros Hi Hkeys. revert n s Hi Hkeys. induction keys as [|k keys IH]; intros n s Hi Hkeys; [done|].
  inversion Hkeys as [|? ? Hk Hrest]; subst. cbn [present].
  case_bool_decide; [by apply IH|]. destruct (st_pending s !! k) as [p|] eqn:Hp; [|by apply IH].
  pose proof (inv_bind_candidates k p context (ci_client_id (pc_identity p)) (pc_candidates p) n s
    flight Hi Hp (Hk _ eq_refl)) as Hi1.
  pose proof (bind_candidates_pending k context (ci_client_id (pc_identity p)) (pc_candidates p) n s)
    as Hpend.
  destruct (bind_candidates _ _ _ _ _ _ _) as [[cands n1] s1]. cbn [snd] in *.
  set (s2 := with_windows _ _ _).
  assert (conflicts_inv s2 flight) as Hi2.
  { assert (Hi' : conflicts_inv (bind (next_token nanos n1 k "cancel" context) k "" context s1) flight).
    { eapply inv_bind; [by apply Hi1|by rewrite Hpend| |by left]. by apply Hk. }
    destruct Hi' as [Hp' Hb' Hpr' Hr' Hf']. split; cbn; try done.
    intros k' c [[= -> ->]%elem_of_singleton|Hin]%elem_of_union; [|by apply Hpr'].
    exists p. rewrite Hpend. auto. }
  specialize (IH (n1 + 1) s2 Hi2). destruct (present _ _ _ _ _) as [[ds n2] s3]. cbn in *.
  apply IH. by rewrite Hpend.
Qed.

Lemma inv_dialogs context n s out n' s' flight :
  conflicts_inv s flight → dialogs nanos pending_order context n s = (out, n', s') →
  conflicts_inv s' flight.
Proof.
  intros Hi. unfold dialogs. case_match; [by intros [= _ _ <-]|]. intros Hm.
  pose proof (inv_present context (offered_keys pending_order context s) n s flight Hi) as Hp.
  rewrite Hm in Hp. apply Hp. apply Forall_forall. intros k Hk p Hkp.
  apply list_elem_of_filter in Hk as [[q [Hq Ho]%map_lookup_filter_Some] _].
  rewrite Hkp in Hq. by injection Hq as <-.
Qed.

Lemma inv_submit token context answer choice s b s' flight :
  conflicts_inv s flight → submit token context s = (answer, choice, s', b) →
  conflicts_inv s' (flight ++ option_list choice).
Proof.
  intros Hi. unfold submit.
  destruct (st_bindings s !! token) as [bd|] eqn:Hb; [|intros [= _ <- <- _]; by rewrite app_nil_r].
  case_match eqn:E1.
  { case_match; intros [= _ <- <- _]; rewrite app_nil_r; [by apply inv_delete|done]. }
  apply orb_false_iff in E1 as [E1 E2]. apply negb_false_iff, bool_decide_eq_true in E1.
  case_bool_decide as Eh.
  { intros [= _ <- <- _]. rewrite app_nil_r. by apply inv_acks, inv_delete. }
  destruct (st_pending s !! bi_key bd) as [p|] eqn:Hp; [|intros [= _ <- <- _]; by rewrite app_nil_r].
  case_match eqn:E3; [intros [= _ <- <- _]; by rewrite app_nil_r|]. apply orb_false_iff in E3 as [Er _].
  intros [= _ <- <- _]. destruct Hi as [Hpe Hbi Hpr Hr Hf]. cbn.
  destruct (Hbi _ _ Hb) as (q & Hq & (Ho1 & Ho2 & _) & Hh). rewrite Hp in Hq. injection Hq as <-.
  destruct Hh as [?|Hh]; [done|]. destruct (Hpe _ _ Hp) as (Hw1 & Hw2 & Hw3 & Hw4). split; cbn.
  - intros k' q [[<- <-]|[_ ?]]%lookup_insert_Some; [by repeat split|auto].
  - intros t b0 [Ht Hne]%map_lookup_filter_Some. cbn in Hne. rewrite lookup_insert_ne by done. eauto.
  - intros k' c. rewrite elem_of_filter. cbn. intros [Hne Hin]. rewrite lookup_insert_ne by done. eauto.
  - intros k' q Hq Hres. destruct (decide (k' = bi_key bd)) as [->|Hne].
    + eexists. split; [apply elem_of_app; right; by left|]. split; [done|]. unfold is_current. cbn.
      rewrite lookup_insert_eq, Z.eqb_refl. cbn. by rewrite !bool_decide_eq_true_2.
    + rewrite lookup_insert_ne in Hq by done. destruct (Hr _ _ Hq Hres) as (c & Hin & <- & Hc).
      exists c. split; [apply elem_of_app; by left|]. split; [done|]. unfold is_current in *. cbn.
      by rewrite lookup_insert_ne by done.
  - apply Forall_app. split; [done|].
    cbn in Ho1, Ho2. apply Forall_singleton. unfold well_made. cbn. subst context. auto.
Qed.

Lemma inv_finish c r s b s' flight :
  conflicts_inv s (c :: flight) → finish_choice c r s = (s', b) → conflicts_inv s' flight.
Proof.
  intros Hi. assert (Hflight : ∀ s0, conflicts_inv s0 (c :: flight) →
    (∀ p, st_pending s0 !! ch_key c = Some p → is_current c s0 = true → pc_resolving p = false) →
    conflicts_inv s0 flight).
  { intros s0 [Hp Hb Hpr Hr Hf] Hno. split; try done.
    - intros k p Hk Hres. destruct (Hr _ _ Hk Hres) as (c' & [->|Hin]%elem_of_cons & Hk' & Hc); [|eauto].
      subst k. by rewrite (Hno p) in Hres.
    - by inversion Hf. }
  unfold finish_choice. destruct (is_current c s) eqn:Hc; cbn [negb].
  2: { intros [= <- _]. apply Hflight; [done|]. congruence. }
  destruct r as [[]|e]; intros [= <- _]; apply inv_acks.
  - apply Hflight; [by apply inv_delete|]. cbn. intros p. by rewrite lookup_delete_eq.
  - apply Hflight; [|cbn; intros p; rewrite lookup_alter_eq; intros (q & _ & ->)%fmap_Some; done].
    destruct Hi as [Hp Hb Hpr Hr Hf].
    assert (Hkeep : ∀ k q, alter (set_resolving false) (ch_key c) (st_pending s) !! k = Some q →
      ∃ q0, st_pending s !! k = Some q0 ∧ (pc_resolving q = true → q = q0 ∧ k ≠ ch_key c) ∧
        (q = q0 ∨ q = set_resolving false q0)).
    { intros k q [(-> & q0 & Hq0 & ->)|[Hne Hq]]%lookup_alter_Some; [exists q0; cbn; naive_solver|].
      exists q. naive_solver. }
    assert (Hfwd : ∀ k q0, st_pending s !! k = Some q0 →
      ∃ q, alter (set_resolving false) (ch_key c) (st_pending s) !! k = Some q ∧
        (q = q0 ∨ q = set_resolving false q0)).
    { intros k q0 Hq0. destruct (decide (k = ch_key c)) as [->|Hne].
      - rewrite lookup_alter_eq, Hq0. cbn. eauto.
      - rewrite lookup_alter_ne by done. eauto. }
    split; cbn; try done.
    + intros k q (q0 & Hq0 & _ & [->| ->])%Hkeep; [auto|]. by apply Hp in Hq0.
    + intros t b0 Ht. destruct (Hb _ _ Ht) as (q0 & Hq0 & Ho & Hh).
      destruct (Hfwd _ _ Hq0) as (q & Hq & Heq). exists q. split; [done|].
      destruct Heq as [->| ->]; [done|]. split; [|done]. destruct Ho as (? & ? & ? & ?). by repeat split.
    + intros k x. rewrite elem_of_filter. cbn. intros [Hne Hin].
      rewrite lookup_alter_ne by done. eauto.
    + intros k q (q0 & Hq0 & Hres & _)%Hkeep Hr'. destruct (Hres Hr') as [-> Hne].
      destruct (Hr _ _ Hq0 Hr') as (c' & Hin & <- & Hc'). exists c'. split; [done|]. split; [done|].
      unfold is_current in *. cbn. by rewrite lookup_alter_ne by done.
Qed.
End inv.

(** ** Runs *)

Definition worker_choices (w : ResolverWorker) : list Choice :=
  match w with Waiting => [] | Applying c | Reporting c _ => [c] end.

(** The choices under way. *)
Definition flight (c : LocalConflictCoordinator) : list Choice :=
  worker_choices (lo_worker c) ++ lo_sending c ++ lo_choices c.

Lemma inv_flight_perm {C : StoreCodec} s l l' : conflicts_inv s l → l ≡ₚ l' → conflicts_inv s l'.
Proof.
  intros [Hp Hb Hpr Hr Hf] Hl. split; try done.
  - intros k p Hk Hres. destruct (Hr _ _ Hk Hres) as (c & Hc & ?). exists c. by rewrite <-Hl.
  - by rewrite <-Hl.
Qed.

(** ** Where acknowledgements come from *)

Lemma same_runtime_context_true l r :
  same_runtime_context l r = true ↔
  cx_steam_id64 l = cx_steam_id64 r ∧ cx_identity_generation l = cx_identity_generation r ∧
  cx_connection_generation l = cx_connection_generation r ∧ cx_cloud_scope l = cx_cloud_scope r.
Proof. unfold same_runtime_context. rewrite !andb_true_iff, !Z.eqb_eq, bool_decide_eq_true. tauto. Qed.

Lemma same_runtime_refl x : same_runtime_context x x = true.
Proof. by rewrite same_runtime_context_true. Qed.
Lemma same_runtime_sym x y : same_runtime_context x y = true → same_runtime_context y x = true.
Proof. rewrite !same_runtime_context_true. intuition congruence. Qed.
Lemma same_runtime_trans x y z :
  same_runtime_context x y = true → same_runtime_context y z = true →
  same_runtime_context x z = true.
Proof. rewrite !same_runtime_context_true. intuition congruence. Qed.

(** [a] went on as [a'], perhaps to another window of the same session. *)
Definition carried (a a' : PendingAck) : Prop :=
  pa_ack a' = pa_ack a ∧ same_runtime_context (pa_context a') (pa_context a) = true.

Lemma carried_refl a : carried a a. Proof. split; [done|]. apply same_runtime_refl. Qed.

Definition acks_from (l l' : list PendingAck) : Prop := ∀ a', a' ∈ l' → ∃ a, a ∈ l ∧ carried a a'.

Lemma acks_from_sub l l' : l' ⊆ l → acks_from l l'.
Proof. intros Hsub a Ha. exists a. split; [by apply Hsub|apply carried_refl]. Qed.

Lemma acks_from_deliver context l : acks_from l (deliver context l).2.
Proof.
  induction l as [|a l IH]; [by apply acks_from_sub|]. cbn [deliver].
  destruct (deliver context l) as [out l'] eqn:E. cbn. intros a' [->|Hin]%elem_of_cons.
  - exists a. split; [by left|]. split; [done|]. cbn. case_match eqn:Eo; [|apply same_runtime_refl].
    apply andb_true_iff in Eo as [_ Eo]. by apply same_runtime_sym.
  - destruct (IH a' Hin) as (a0 & ? & ?). exists a0. split; [by right|done].
Qed.

Lemma acks_from_unsend context token l : acks_from l (unsend context token l).2.
Proof.
  induction l as [|a l IH]; [by apply acks_from_sub|]. cbn [unsend].
  destruct (unsend context token l) as [f l'] eqn:E. case_match; cbn.
  - intros a' [->|Hin]%elem_of_cons; [exists a|exists a'; split; [by right|apply carried_refl]].
    split; [by left|]. split; [done|]. apply same_runtime_refl.
  - intros a' [->|Hin]%elem_of_cons; [exists a; split; [by left|apply carried_refl]|].
    destruct (IH a' Hin) as (a0 & ? & ?). exists a0. split; [by right|done].
Qed.

(** What is delivered is on file, for this session. *)
Lemma delivered_from context l ack :
  ack ∈ (deliver context l).1 →
  ∃ a, a ∈ l ∧ pa_ack a = ack ∧ same_runtime_context (pa_context a) context = true.
Proof.
  induction l as [|a l IH]; [set_solver|]. cbn [deliver].
  destruct (deliver context l) as [out l'] eqn:E. cbn in *. rewrite elem_of_app. intros [Hin|Hin].
  - case_match eqn:En; [|set_solver]. apply list_elem_of_singleton in Hin as ->.
    exists a. split; [by left|]. split; [done|]. apply andb_true_iff in En as [En _].
    apply bool_decide_eq_true in En. case_match eqn:Eo; [by apply andb_true_iff in Eo as [_ Eo]|].
    rewrite En. apply same_runtime_refl.
  - destruct (IH Hin) as (a0 & ? & ?). exists a0. split; [by right|done].
Qed.

Lemma bind_candidates_acks {C : StoreCodec} nanos k context local l n s :
  st_acks (bind_candidates nanos k context local l n s).2 = st_acks s.
Proof.
  revert n s. induction l as [|c l IH]; intros n s; [done|]. cbn [bind_candidates].
  specialize (IH (n + 1) (bind (next_token nanos n k (mc_id c) context) k (mc_id c) context s)).
  by destruct (bind_candidates _ _ _ _ _ _ _) as [[? ?] ?].
Qed.

Lemma present_keeps {C : StoreCodec} nanos context keys n s :
  st_acks (present nanos context keys n s).2 = st_acks s ∧
  st_pending (present nanos context keys n s).2 = st_pending s ∧
  st_epoch (present nanos context keys n s).2 = st_epoch s ∧
  st_presented s ⊆ st_presented (present nanos context keys n s).2.
Proof.
  revert n s. induction keys as [|k keys IH]; intros n s; [done|]. cbn [present].
  case_bool_decide; [apply IH|]. destruct (st_pending s !! k) as [p|]; [|apply IH].
  pose proof (bind_candidates_acks nanos k context (ci_client_id (pc_identity p)) (pc_candidates p) n s) as Ha.
  pose proof (bind_candidates_pending nanos k context (ci_client_id (pc_identity p)) (pc_candidates p) n s) as Hp.
  assert (He : ∀ l n s, st_epoch (bind_candidates nanos k context (ci_client_id (pc_identity p)) l n s).2 = st_epoch s
    ∧ st_presented (bind_candidates nanos k context (ci_client_id (pc_identity p)) l n s).2 = st_presented s).
  { clear. induction l as [|c l IHl]; intros n s; [done|]. cbn [bind_candidates].
    specialize (IHl (n + 1) (bind (next_token nanos n k (mc_id c) context) k (mc_id c) context s)).
    by destruct (bind_candidates _ _ _ _ _ _ _) as [[? ?] ?]. }
  specialize (He (pc_candidates p) n s).
  destruct (bind_candidates _ _ _ _ _ _ _) as [[? n1] s1]. cbn [snd] in *.
  match goal with |- context [present nanos context keys ?n ?s] => specialize (IH n s) end.
  destruct (present _ _ _ _ _) as [[? ?] ?]. cbn in *. destruct He, IH as (? & ? & ? & ?).
  repeat split; [congruence..|set_solver].
Qed.

Lemma dialogs_keeps {C : StoreCodec} nanos order context n s out n' s' :
  dialogs nanos order context n s = (out, n', s') →
  st_acks s' = st_acks s ∧ st_pending s' = st_pending s ∧ st_epoch s' = st_epoch s ∧
  st_presented s ⊆ st_presented s'.
Proof.
  unfold dialogs. case_match; [by intros [= _ _ <-]|]. intros Hm.
  pose proof (present_keeps nanos context (offered_keys order context s) n s) as Hp.
  by rewrite Hm in Hp.
Qed.

(** What an operation may add to the acknowledgements. *)
Inductive ack_origin (e : Event) (worker : ResolverWorker) (a : PendingAck) : Prop :=
| origin_cancelled token context choice :
    e = Submitted token context Accepted choice → ua_resume_launch (pa_ack a) = false →
    ack_origin e worker a
| origin_queued context : e = QueuedAck context (pa_ack a) → ack_origin e worker a
| origin_failed choice r :
    e = Finished choice r → ua_resume_launch (pa_ack a) = false → ack_origin e worker a
| origin_published choice :
    worker = Reporting choice (Ok tt) → ua_token (pa_ack a) = ch_token choice →
    pa_context a = ch_context choice → ack_origin e worker a.

Section runs.
Context {C : StoreCodec}.
Context (nanos : Z → Z) (pending_order : gmap ConflictKey PendingConflict → list ConflictKey).
Notation step := (step nanos pending_order).
Notation run := (run nanos pending_order).

Lemma inv_step e c c' :
  conflicts_inv (lo_state c) (flight c) → step e c c' → conflicts_inv (lo_state c') (flight c').
Proof.
  intros Hi [Hs|Hs]; destruct Hs; cbn; unfold flight in *; cbn; try done.
  - by eapply inv_register.
  - by eapply inv_arm_present.
  - by eapply inv_arm_registered.
  - by eapply inv_dialogs.
  - eapply inv_flight_perm; [by eapply inv_submit|]. solve_Permutation.
  - eapply inv_flight_perm; [done|]. rewrite H. solve_Permutation.
  - unfold ack_deliveries in H. destruct (deliver _ _). injection H as _ <-. by apply inv_acks.
  - unfold queue_ack in H. case_match; injection H as <- _; [done|by apply inv_acks].
  - injection H as _ <-. by apply inv_acks.
  - unfold retry_ack, defer_ack in H. destruct (unsend _ _ _). injection H as _ <- _. by apply inv_acks.
  - unfold defer_ack in H. destruct (unsend _ _ _). injection H as _ <-. by apply inv_acks.
  - unfold retry_dialog in H. repeat case_match; injection H as _ <- _; try done.
    apply inv_windows; [done|set_solver|apply map_filter_subseteq].
  - apply inv_windows; [done|set_solver|apply map_filter_subseteq].
  - apply inv_acks, inv_windows; [done|set_solver|apply map_filter_subseteq].
  - injection H as _ <- _. destruct Hi as [_ _ _ _ Hf].
    split; cbn; try done; intros *; rewrite ?lookup_empty; set_solver.
  - rewrite H, H0 in Hi. cbn in Hi. eapply inv_flight_perm; [done|]. solve_Permutation.
  - by rewrite H in Hi.
  - rewrite H in Hi. cbn in Hi. by eapply inv_finish.
Qed.

(** C18 [conflict_ui_invariant]: in every run, each conflict on file was registered for a
    signed-in account with the versions it offers and the scope of its settings; a token
    that is accepted belongs to such a conflict, armed and not being resolved, in a window
    of the same account and scope, and names one of its versions (or the cancel button); a
    conflict that is being resolved has its choice under way, so it cannot stay blocked;
    every choice under way names a version of the conflict it was made in. *)
Theorem conflict_ui_invariant es c : run es c → conflicts_inv (lo_state c) (flight c).
Proof.
  apply (trace_invariant step (λ _ c, conflicts_inv (lo_state c) (flight c)));
    [apply inv_default|eauto using inv_step].
Qed.

Lemma step_acks e c c' a' :
  step e c c' → a' ∈ st_acks (lo_state c') →
  (∃ a, a ∈ st_acks (lo_state c) ∧ carried a a') ∨ ack_origin e (lo_worker c) a'.
Proof.
  assert (Hsub : ∀ l l' : list PendingAck, l' ⊆ l → a' ∈ l' → (∃ a, a ∈ l ∧ carried a a') ∨ ack_origin e (lo_worker c) a').
  { intros l l' Hsub Hin. left. by apply (acks_from_sub l l'). }
  intros [Hs|Hs]; destruct Hs; cbn; try (by apply Hsub).
  - apply Hsub. unfold register in H. repeat case_match; injection H as <- _; done.
  - apply Hsub. unfold arm_present in H. simplify_option_eq. case_match; [|done]. by injection H as <- _.
  - apply Hsub. unfold arm_registered in H. repeat case_match; injection H as _ <- _; done.
  - apply Hsub. by apply dialogs_keeps in H as [-> _].
  - unfold submit in H. repeat case_match; injection H as <- _ <- _; cbn; try (by apply Hsub).
    rewrite elem_of_app, list_elem_of_singleton. intros [?| ->]; [by eapply (Hsub (st_acks (lo_state c)))|].
    right. by eapply origin_cancelled.
  - intros Hin. left. pose proof (acks_from_deliver context (st_acks (lo_state c))) as Hf.
    unfold ack_deliveries in H. destruct (deliver _ _). injection H as _ <-. by apply Hf.
  - unfold queue_ack in H. case_match; injection H as <- _; cbn; [by apply Hsub|].
    rewrite elem_of_app, list_elem_of_singleton. intros [?| ->]; [by eapply (Hsub (st_acks (lo_state c)))|].
    right. by eapply origin_queued.
  - injection H as _ <-. cbn. intros Hin. left. apply list_elem_of_filter in Hin as [_ Hin].
    exists a'. split; [done|apply carried_refl].
  - intros Hin. left. pose proof (acks_from_unsend context token (st_acks (lo_state c))) as Hf.
    unfold retry_ack, defer_ack in H. destruct (unsend _ _ _). injection H as _ <- _. by apply Hf.
  - intros Hin. left. pose proof (acks_from_unsend context token (st_acks (lo_state c))) as Hf.
    unfold defer_ack in H. destruct (unsend _ _ _). injection H as _ <-. by apply Hf.
  - apply Hsub. unfold retry_dialog in H. repeat case_match; injection H as _ <- _; done.
  - intros (a & -> & Hin)%list_elem_of_fmap. left. exists a. split; [done|].
    case_bool_decide; [apply carried_refl|]. split; [done|]. by apply same_runtime_context_true.
  - injection H as _ <- _. cbn. set_solver.
  - unfold finish_choice in H0. case_match; [injection H0 as <- _; by apply Hsub|].
    destruct r as [[]|]; injection H0 as <- _; cbn; rewrite elem_of_app, list_elem_of_singleton;
      (intros [?| ->]; [by eapply (Hsub (st_acks (lo_state c)))|right]).
    + by eapply origin_published.
    + by eapply origin_failed.
Qed.

(** What must have happened before an acknowledgement that resumes a launch. *)
Definition justified (es : list Event) (context : ConflictUiContext) (ack : ConflictUiAck) : Prop :=
  (∃ choice, ua_token ack = ch_token choice ∧
     same_runtime_context context (ch_context choice) = true ∧
     Submitted (ch_token choice) (ch_context choice) Accepted (Some choice) ∈ es ∧
     Applied choice (Ok tt) ∈ es) ∨
  ∃ other, QueuedAck other ack ∈ es.

Record history_inv (es : list Event) (c : LocalConflictCoordinator) : Prop := {
  hi_acks a : a ∈ st_acks (lo_state c) → ua_resume_launch (pa_ack a) = true →
    justified es (pa_context a) (pa_ack a);
  hi_flight choice : choice ∈ flight c →
    Submitted (ch_token choice) (ch_context choice) Accepted (Some choice) ∈ es;
  hi_applied choice r : lo_worker c = Reporting choice r → Applied choice r ∈ es;
}.

Lemma justified_snoc es e context ack : justified es context ack → justified (es ++ [e]) context ack.
Proof.
  intros [(choice & ? & ? & ? & ?)|(other & ?)]; [left; exists choice|right; exists other]; set_solver.
Qed.

Lemma submit_choice token context answer choice s s' b :
  submit token context s = (answer, Some choice, s', b) →
  answer = Accepted ∧ ch_token choice = token ∧ ch_context choice = context ∧
  ch_epoch choice = st_epoch s.
Proof. unfold submit. repeat case_match; intros [= <- <- _ _]; done. Qed.

Lemma flight_step e c c' choice :
  step e c c' → choice ∈ flight c' → choice ∈ flight c ∨
  e = Submitted (ch_token choice) (ch_context choice) Accepted (Some choice) ∧
  ch_epoch choice = st_epoch (lo_state c).
Proof.
  unfold flight. intros [Hs|Hs]; destruct Hs; cbn; auto; rewrite ?H, ?H0; cbn; try (set_solver).
  destruct choice0 as [ch|]; cbn; [|rewrite app_nil_r; auto].
  destruct (submit_choice _ _ _ _ _ _ _ H) as (-> & <- & <- & ?). rewrite !elem_of_app.
  intros [?|[[?| ->%list_elem_of_singleton]|?]]; auto.
Qed.

Lemma history_step es e c c' : history_inv es c → step e c c' → history_inv (es ++ [e]) c'.
Proof.
  intros [Ha Hf Hw] Hs. split.
  - intros a' Hin Hres. destruct (step_acks _ _ _ _ Hs Hin) as [(a & Ha0 & Hack & Hrun)|Ho].
    + rewrite Hack in Hres |- *. apply justified_snoc.
      destruct (Ha _ Ha0 Hres) as [(ch & ? & Hc & ? & ?)|?]; [left|by right].
      exists ch. split; [done|]. split; [|done]. by eapply same_runtime_trans.
    + destruct Ho as [? ? ? ? ?|other ->|? ? ? ?|ch Hrep Htok Hctx]; [congruence| |congruence|].
      * right. exists other. set_solver.
      * apply justified_snoc. left. exists ch. split; [done|].
        split; [rewrite Hctx; apply same_runtime_refl|].
        split; [apply Hf; unfold flight; rewrite Hrep; by left|by apply Hw].
  - intros ch Hin. destruct (flight_step _ _ _ _ Hs Hin) as [?|[-> _]]; set_solver.
  - intros ch r Hr. assert (lo_worker c = Reporting ch r ∨ e = Applied ch r) as [Hc| ->]; [|set_solver..].
    destruct Hs as [Hs|Hs]; destruct Hs; cbn in Hr; auto; [done|by injection Hr as <- <-; auto|done].
Qed.

Lemma run_history es c : run es c → history_inv es c.
Proof.
  apply (trace_invariant step history_inv); [|intros; by eapply history_step].
  split; cbn; [set_solver|unfold flight; cbn; set_solver|done].
Qed.


(** ** Cancelled conflicts *)

Definition is_cancel (e : Event) : bool := match e with Cancelled => true | _ => false end.
Definition cancels (es : list Event) : Z :=
  Z.of_nat (length (filter (λ e, is_cancel e = true) es)).

Lemma cancels_app es es' : cancels (es ++ es') = cancels es + cancels es'.
Proof. unfold cancels. rewrite filter_app, length_app. lia. Qed.

Lemma step_epoch e c c' :
  step e c c' →
  st_epoch (lo_state c') =
    if is_cancel e then u64_wrapping_add (st_epoch (lo_state c)) 1 else st_epoch (lo_state c).
Proof.
  intros [Hs|Hs]; destruct Hs; cbn; try done.
  - unfold register in H. repeat case_match; injection H as <- _; done.
  - unfold arm_present in H. simplify_option_eq. case_match; [|done]. by injection H as <- _.
  - unfold arm_registered in H. repeat case_match; injection H as _ <- _; done.
  - by apply dialogs_keeps in H as (_ & _ & -> & _).
  - unfold submit in H. repeat case_match; injection H as <- _ <- _; done.
  - unfold ack_deliveries in H. destruct (deliver _ _). by injection H as _ <-.
  - unfold queue_ack in H. case_match; by injection H as <- _.
  - by injection H as _ <-.
  - unfold retry_ack, defer_ack in H. destruct (unsend _ _ _). by injection H as _ <- _.
  - unfold defer_ack in H. destruct (unsend _ _ _). by injection H as _ <-.
  - unfold retry_dialog in H. repeat case_match; injection H as _ <- _; done.
  - by injection H as _ <- _.
  - unfold finish_choice in H0. repeat case_match; injection H0 as <- _; done.
Qed.

(** The epoch counts cancellations, and a choice remembers the count it was made at. *)
Definition epoch_inv (es : list Event) (c : LocalConflictCoordinator) : Prop :=
  st_epoch (lo_state c) = cancels es mod 2 ^ 64 ∧
  ∀ token context answer choice, Submitted token context answer (Some choice) ∈ es →
    ∃ n, 0 ≤ n ≤ cancels es ∧ ch_epoch choice = n mod 2 ^ 64.

Lemma run_epoch es c : run es c → epoch_inv es c.
Proof.
  apply (trace_invariant step epoch_inv); [split; [done|set_solver]|].
  clear es c. intros es e c c' [He Hc] Hs.
  assert (Hcount : cancels (es ++ [e]) = cancels es + if is_cancel e then 1 else 0).
  { rewrite cancels_app. f_equal. by destruct e. }
  split.
  - rewrite (step_epoch _ _ _ Hs), Hcount, He. destruct (is_cancel e).
    + unfold u64_wrapping_add. by rewrite Zplus_mod_idemp_l.
    + by rewrite Z.add_0_r.
  - intros token context answer choice [Hin|Hin]%elem_of_app.
    + destruct (Hc _ _ _ _ Hin) as (n & Hn & ?). exists n. split; [|done].
      rewrite Hcount. destruct (is_cancel e); lia.
    + apply list_elem_of_singleton in Hin as <-. exists (cancels es).
      split; [rewrite Hcount; unfold cancels; destruct (is_cancel _); lia|].
      assert (ch_epoch choice = st_epoch (lo_state c)) as ->; [|done].
      destruct Hs as [Hs|Hs]; inversion Hs; subst.
      by eapply submit_choice.
Qed.

(** [cancelled_choice_silent]: once conflicts were cancelled (at a logout, say), the outcome
    of a choice submitted before has no effect: nothing is changed, acknowledged or
    signalled, however the worker and the windows interleave. *)
Theorem cancelled_choice_silent es1 es2 c token context answer choice r :
  run (es1 ++ Cancelled :: es2) c → cancels (es1 ++ Cancelled :: es2) < 2 ^ 64 →
  Submitted token context answer (Some choice) ∈ es1 →
  finish_choice choice r (lo_state c) = (lo_state c, false).
Proof.
  intros Hr Hlt Hin. destruct (run_epoch _ _ Hr) as [He _].
  apply trace_app_inv in Hr as (c1 & Hr1 & _).
  destruct (run_epoch _ _ Hr1) as [_ Hc]. destruct (Hc _ _ _ _ Hin) as (n & Hn & Hch).
  unfold finish_choice, is_current. rewrite He, Hch.
  rewrite cancels_app in *. change (cancels (Cancelled :: es2)) with (cancels ([Cancelled] ++ es2)) in *.
  rewrite cancels_app in *. change (cancels [Cancelled]) with 1 in *.
  assert (0 ≤ cancels es2) by (unfold cancels; lia).
  rewrite !Z.mod_small by lia. rewrite (proj2 (Z.eqb_neq _ _)) by lia. done.
Qed.

(** ** Passes of the user interface *)

(** A pass in this window would find something to show or to deliver. *)
Definition shows (context : ConflictUiContext) (s : State) : Prop :=
  ∃ k p, st_pending s !! k = Some p ∧ offered context (k, p) ∧ (k, context) ∉ st_presented s.
Definition awaits (context : ConflictUiContext) (a : PendingAck) : Prop :=
  pa_sent a = false ∧
  (pa_context a = context ∨
   cx_window_generation (pa_context a) = 0 ∧ same_runtime_context (pa_context a) context = true).
Definition has_work (context : ConflictUiContext) (s : State) : Prop :=
  shows context s ∨ ∃ a, a ∈ st_acks s ∧ awaits context a.

(** No more work than before: fewer offers, as many windows, fewer acknowledgements. *)
Lemma work_less context s s' :
  (∀ k p', st_pending s' !! k = Some p' → offered context (k, p') → (k, context) ∉ st_presented s' →
     ∃ p, st_pending s !! k = Some p ∧ offered context (k, p) ∧ (k, context) ∉ st_presented s) →
  (∀ a', a' ∈ st_acks s' → awaits context a' → ∃ a, a ∈ st_acks s ∧ awaits context a) →
  has_work context s' → has_work context s.
Proof.
  intros Hp Ha [(k & p & Hk & Ho & Hn)|(a & Hin & Hw)]; [left|right; eauto].
  exists k. by eapply Hp.
Qed.

Lemma work_pending context s m :
  (∀ k p', m !! k = Some p' → ∃ p, st_pending s !! k = Some p ∧ similar p p' ∧ pc_armed p = pc_armed p') →
  has_work context (with_pending m s) → has_work context s.
Proof.
  intros Hm. apply work_less; [|eauto]. cbn. intros k p' Hk (H1 & H2 & H3 & H4) Hn.
  destruct (Hm _ _ Hk) as (p & Hp & (_ & _ & _ & _ & Hr & _ & Hs) & Har). exists p. split; [done|].
  split; [|done]. repeat split; cbn in *; congruence.
Qed.

(** Taking a conflict off the file. *)
Lemma work_delete context s k :
  has_work context (discard_key_bindings k (with_pending (delete k (st_pending s)) s)) →
  has_work context s.
Proof.
  apply work_less; cbn; [|eauto]. intros k' p [Hne Hk]%lookup_delete_Some Ho Hn.
  exists p. split; [done|]. split; [done|]. contradict Hn. by apply elem_of_filter.
Qed.

Lemma deliver_awaits ctx context l :
  ∀ a', a' ∈ (deliver ctx l).2 → awaits context a' → ∃ a, a ∈ l ∧ awaits context a.
Proof.
  induction l as [|a l IH]; cbn [deliver]; [set_solver|].
  destruct (deliver ctx l) as [out l'] eqn:E. cbn in *. intros a' [->|Hin]%elem_of_cons Hw.
  - exists a. split; [by left|]. destruct Hw as [Hsent Hc]. cbn in *.
    apply orb_false_iff in Hsent as [Hsent Hnow]. split; [done|].
    rewrite Hsent in Hnow. case_match eqn:Eo; [|tauto].
    rewrite bool_decide_eq_true_2 in Hnow by done. done.
  - destruct (IH _ Hin Hw) as (a0 & ? & ?). exists a0. split; [by right|done].
Qed.

Lemma unsend_none ctx token l :
  (unsend ctx token l).1 = false → (unsend ctx token l).2 = l.
Proof.
  induction l as [|a l IH]; cbn [unsend]; [done|]. case_match; [done|].
  destruct (unsend ctx token l). cbn in *. intros Hf. by rewrite IH.
Qed.

(** [ui_work_signalled]: whenever a step of a caller or of the worker gives a window
    something new to show or to deliver, it asks for a pass of the user interface; the only
    exceptions are the steps by which the interface puts things back for itself. *)
Theorem ui_work_signalled context e c c' :
  step e c c' → e ≠ PutBack → ¬ has_work context (lo_state c) → has_work context (lo_state c') →
  (lo_work c < lo_work c')%nat.
Proof.
  intros Hs Hne Hno Hw.
  assert (Hif : ∀ b : bool, (b = false → has_work context (lo_state c)) →
    (lo_work c < signal_change b (lo_work c))%nat).
  { intros [] Hb; [cbn; lia|]. by destruct Hno; apply Hb. }
  destruct Hs as [Hs|Hs]; destruct Hs; cbn in Hw |- *; try done; try (by destruct Hno);
    try (apply Hif; intros Hb).
  - unfold register in H. destruct (nonzero _) as [id|]; [|by injection H as <- _].
    destruct required; cbn [negb] in H; [|injection H as <- _; by eapply work_delete].
    revert H. case_match; intros [= <- <-]; [|done].
    revert Hw. apply work_pending. intros k p'. rewrite alter_alt.
    destruct (st_pending (lo_state c) !! (id, app)) as [q|] eqn:Hq; [|intros Hp'; exists p'; by repeat split].
    intros [[<- <-]|[_ Hp']]%lookup_insert_Some; [exists q|exists p']; by repeat split.
  - unfold arm_present in H. simplify_option_eq. case_match; [|done].
    injection H as <- Hb. apply negb_false_iff in Hb.
    revert Hw. apply work_pending. intros k p' [[<- <-]|[_ Hp']]%lookup_insert_Some.
    + eexists. split; [done|]. split; [by repeat split|done].
    + exists p'. by repeat split.
  - unfold arm_registered in H. case_match; injection H as _ <- <-; done.
  - apply dialogs_keeps in H as (Ha & Hp & _ & Hpr). exfalso. apply Hno.
    revert Hw. apply work_less; [|rewrite Ha; eauto]. rewrite Hp. intros k p Hk Ho Hn.
    exists p. set_solver.
  - unfold submit in H. repeat case_match; injection H as <- _ <- <-; try done.
    revert Hw. apply work_less; cbn; [|eauto].
    intros k q [[<- <-]|[Hk Hq]]%lookup_insert_Some Ho Hn; [by destruct Ho as (_ & _ & _ & ?)|].
    exists q. split; [done|]. split; [done|]. contradict Hn. apply elem_of_filter. by cbn.
  - exfalso. apply Hno. revert Hw. pose proof (deliver_awaits context0 context (st_acks (lo_state c))) as Hd.
    unfold ack_deliveries in H. destruct (deliver _ _). injection H as _ <-.
    apply work_less; cbn; eauto.
  - unfold queue_ack in H. case_match; by injection H as <- <-.
  - exfalso. apply Hno. injection H as _ <-. revert Hw. apply work_less; cbn; [eauto|].
    intros a' [_ Hin]%list_elem_of_filter ?. eauto.
  - unfold retry_ack, defer_ack in H.
    pose proof (unsend_none context0 token (st_acks (lo_state c))) as Hu.
    destruct (unsend _ _ _) as [f l]. injection H as _ <- <-. cbn in Hu. rewrite Hu in Hw by done.
    by destruct (lo_state c).
  - unfold retry_dialog in H. repeat case_match; injection H as _ <- <-; try done.
    apply bool_decide_eq_false in Hb. revert Hw. apply work_less; cbn; [|eauto].
    intros k p Hk Ho Hn. exists p. split; [done|]. split; [done|]. set_solver.
  - unfold cancel_pending in H. injection H as _ <- _.
    destruct Hw as [(k & p & Hk & _)|(a & Hin & _)]; cbn in *; [by rewrite lookup_empty in Hk|set_solver].
  - unfold finish_choice in H0. repeat case_match; injection H0 as <- <-; done.
Qed.
End runs.
