(* ===== verification/ConflictResolve.v ===== *)
(** * ConflictResolve: what applying a choice does to the saves

    The worker of [ConflictUi] opens the account's store and publishes the chosen version
    over all heads; the guarantees of the file store carry over to the whole call. *)

From Stdlib Require Import ZArith Lia.
From S2P Require Import Prelude RustStd CloudCore FileSystem StoreFiles StoreFilesProofs.
From S2P Require Import FolderStore FolderStoreProofs StoreCommit StoreBegin StoreRead.
From S2P Require Import StoreSpec StoreTheorems StoreSessions StoreSessionProofs.
From S2P Require Import StoreOpen Syncthing CloudSettings ConflictUi.

Local Open Scope Z_scope.

Section resolving.
Context {H : Host} {C : StoreCodec} {L : StoreCodecLaws C}.

Lemma map_err_Err {E F A} (f : E → F) (m : ST E A) w e w' :
  map_err f m w = (Err e, w') → ∃ e0, e = f e0 ∧ m w = (Err e0, w').
Proof. unfold map_err. destruct (m w) as [[a|e0] w1]; [done|]. intros [= <- <-]. eauto. Qed.

(** The heads of a view are the heads of the app. *)
Lemma view_shows s app account ms v w w' :
  st_account s = Some account → repository account app (at_path (app_dir s app) w) ms →
  view s app w = (Ok v, w') → head_ids v = heads_of ms.
Proof.
  intros Ha Hrep Hv. unfold view, view_unlocked in Hv. st_inv.
  match goal with Hr : resolve_app _ _ _ = _ |- _ =>
    apply resolve_Ok in Hr as (account' & ms' & Ha' & _ & -> & Hrep') end.
  rewrite Ha in Ha'. injection Ha' as <-.
  unfold lift in *. simplify_eq.
  rewrite <-(repository_unique _ _ _ _ _ Hrep Hrep') in *.
  match goal with Hc : candidates _ _ = Ok _ |- _ => apply candidates_ids in Hc end.
  done.
Qed.

Lemma fresh_keeps s app w r w' : fresh s w → view s app w = (r, w') → fresh s w'.
Proof.
  intros Hf Hv. pose proof (keeps_view _ _ _ _ _ Hv) as [Hs _].
  pose proof (nonce_view _ _ _ _ _ Hv) as Hn. intros time.
  unfold at_path in *. rewrite Hs. unfold same_nonce in Hn. rewrite Hn. apply Hf.
Qed.

(** Releasing a store leaves the saves alone. *)
Lemma drop_store_keeps s app reg w reg' w' :
  separate s → st_work_root s = work_root_of (st_root s) →
  drop_store s reg w = (reg', w') → same_at (app_dir s app) w w'.
Proof.
  intros Hsep Hw. unfold drop_store, drop_coordination. case_bool_decide; [|by intros [= _ <-]].
  case_match; [by intros [= _ <-]|].
  destruct (ignore _ w) as [? w1] eqn:E1. destruct (ignore _ w1) as [? w2] eqn:E2. intros [= _ <-].
  pose proof (app_dir_apart s app Hsep) as Hap. rewrite Hw in Hap. trans w1.
  - revert E1. apply keeps_ignore. by apply keeps_remove_dir_all.
  - revert E2. apply keeps_ignore. by eauto with keeps.
Qed.

Lemma open_text_store {FC : FormatCodec} device cwd text id r w s r' w' :
  join_text cwd text ≠ [] →
  last (join_text cwd text) ≠ Some (work_name (join_text cwd text)) →
  open_account_text device cwd text id r w = (Ok s, r', w') →
  separate s ∧ st_account s = Some (bytes_str (dec_text id)) ∧
  st_work_root s = work_root_of (st_root s).
Proof.
  intros Hne Hl Hm. unfold open_account_text, open_account in Hm.
  case_match; [done|]. case_bool_decide; [done|].
  pose proof (open_separate _ _ _ _ _ _ _ _ Hne Hl Hm) as [Hs Ha]. split; [done|]. split; [done|].
  unfold open_inner in Hm. repeat case_match; try done. by injection Hm as <- _ _.
Qed.

(** The chosen version's files, on top of all the versions there were. *)
Definition published (s : FolderStore) (account : string) (app : Z) (choice : Choice)
    (ms : gmap string SaveManifest) (w' : World) : Prop :=
  ∃ id m m', ms !! ch_head choice = Some m ∧ sm_files m' = sm_files m ∧
    pc_minimum_revision (ch_pending choice) < sm_revision m' ∧
    max_revision_of ms < sm_revision m' ∧
    repository account app (at_path (app_dir s app) w') (<[id := m']> ms) ∧
    heads_of (<[id := m']> ms) = [id].

Lemma apply_with_outcome s account app choice ms w x w' :
  separate s → st_account s = Some account → app = (ch_key choice).2 → fresh s w →
  repository account app (at_path (app_dir s app) w) ms →
  Z.of_nat (size ms) < MAX_MANIFEST_OBJECTS → acyclic ms →
  apply_with choice s w = (x, w') →
  (x = Ok tt ∧ heads_of ms = pc_heads (ch_pending choice) ∧ published s account app choice ms w') ∨
  ((∃ e, x = Err e) ∧
   (repository account app (at_path (app_dir s app) w') ms ∨ published s account app choice ms w')).
Proof.
  intros Hsep Ha -> Hf Hrep Hsz Hac Hm. set (app := (ch_key choice).2) in *.
  unfold apply_with in Hm. fold app in Hm.
  apply ST_bind_inv in Hm as [(v & w1 & Hv & Hm)|(e & Hv & ->)].
  2: { right. split; [eauto|]. left. apply map_err_Err in Hv as (? & _ & Hv).
       by rewrite (same_world_at _ _ _ (keeps_view _ _ _ _ _ Hv)). }
  apply map_err_Ok in Hv. pose proof (keeps_view _ _ _ _ _ Hv) as Hs.
  pose proof (view_shows _ _ _ _ _ _ _ Ha Hrep Hv) as Hh.
  assert (Hrep1 : repository account app (at_path (app_dir s app) w1) ms)
    by (by rewrite (same_world_at _ _ _ Hs)).
  case_match eqn:Eh; [injection Hm as <- <-; right; eauto|].
  apply negb_false_iff, bool_decide_eq_true in Eh.
  destruct (list_find _ _) as [[i c]|] eqn:Ef; [|injection Hm as <- <-; right; eauto].
  apply list_find_Some in Ef as (_ & Ec & _).
  pose proof (fresh_keeps _ _ _ _ _ Hf Hv) as Hf1.
  assert (Hout : ∀ y w2, resolve_to_manifest s app (pc_heads (ch_pending choice)) (mc_id c)
      (pc_identity (ch_pending choice)) (pc_minimum_revision (ch_pending choice)) w1 = (y, w2) →
    (repository account app (at_path (app_dir s app) w2) ms ∧ ∃ e, y = Err e) ∨
    published s account app choice ms w2).
  { intros y w2 Hr. apply (resolve_outcome s account Hsep Ha _ _ _ _ _ ms) in Hr
      as [?|(id & m & m' & Hm1 & ? & ? & ? & _ & ? & ?)]; try done; [by left|right].
    exists id, m, m'. rewrite Ec in Hm1. auto 10. }
  apply ST_bind_inv in Hm as [(rev & w2 & Hr & [= <- <-])|(e & Hr & ->)].
  - apply map_err_Ok, Hout in Hr as [[_ [e ?]]|?]; [done|]. left. split; [done|]. split; congruence.
  - apply map_err_Err in Hr as (e0 & _ & Hr). right. split; [eauto|].
    apply Hout in Hr as [[? _]|?]; auto.
Qed.
End resolving.

(** ** The whole call *)

Section choice.
Context {H : Host} {C : StoreCodec} {L : StoreCodecLaws C} {FC : FormatCodec}.
Context (device : Path → Z) (cwd : Path).

(** [choice_publishes]: when the worker says that a choice was applied, the versions the
    user saw were still the heads of the app, and one manifest with exactly the chosen
    version's files is now on top of them all, with a larger revision than any device or
    Steam has seen; the collector is asked to inspect the app. When it says that the
    choice failed, the saves are as they were or the choice was published all the same,
    and the collector is not asked. *)
Theorem choice_publishes choice r w x gc r' w' s r1 w1 account ms :
  let root := join_text cwd (cs_local_path (pc_settings (ch_pending choice))) in
  let app := (ch_key choice).2 in
  root ≠ [] → last root ≠ Some (work_name root) →
  open_account_text device cwd (cs_local_path (pc_settings (ch_pending choice)))
    (ch_key choice).1 r w = (Ok s, r1, w1) →
  account = bytes_str (dec_text (ch_key choice).1) →
  fresh s w1 → repository account app (at_path (app_dir s app) w1) ms →
  Z.of_nat (size ms) < MAX_MANIFEST_OBJECTS → acyclic ms →
  apply_choice device cwd choice r w = (x, gc, r', w') →
  (x = Ok tt ∧ gc = Some (s, app, cs_syncthing (pc_settings (ch_pending choice))) ∧
   heads_of ms = pc_heads (ch_pending choice) ∧ published s account app choice ms w') ∨
  ((∃ e, x = Err e) ∧ gc = None ∧
   (repository account app (at_path (app_dir s app) w') ms ∨ published s account app choice ms w')).
Proof.
  intros root app Hne Hl Ho -> Hf Hrep Hsz Hac Hm.
  destruct (open_text_store _ _ _ _ _ _ _ _ _ Hne Hl Ho) as (Hsep & Ha & Hw).
  unfold apply_choice in Hm. rewrite Ho in Hm.
  destruct (apply_with choice s w1) as [y w2] eqn:Ey.
  eapply (apply_with_outcome s _ app choice ms) in Ey; [|eassumption..|done|done|done|done|done].
  destruct Ey as [(-> & Hh & Hp)|([e ->] & Hp)].
  - injection Hm as <- <- _ <-. left. auto.
  - destruct (drop_store s r1 w2) as [r2 w3] eqn:Ed. injection Hm as <- <- _ <-.
    apply (drop_store_keeps s app) in Ed; [|done..]. right. split; [eauto|]. split; [done|].
    unfold published. by rewrite Ed.
Qed.
End choice.
