(* ===== verification/Transfers.v ===== *)
(** * Transfers: local transfers of save files ([cloud-local/src/transfer.rs])

    Steam moves file contents itself, against an HTTP target it is given. For the folder
    backend the target is a token of this registry on a host name that is never resolved;
    a request to it is intercepted and served from the store.

    The registry is behind a lock; the result of an upload is a cell of its own, shared by
    the registry and the request that is being served. *)

From Stdlib Require Import ZArith Lia.
From S2P Require Import Prelude RustStd CloudCore FileSystem StoreFiles FolderStore Syncthing.
From S2P Require Import CloudSettings.

Local Open Scope Z_scope.

Definition LOCAL_TRANSFER_AUTHORITY : string := "vapor-forge.local".
(** In nanoseconds. *)
Definition TRANSFER_TTL : Z := 15 * 60 * 1000000000.
Definition TRANSFER_CAPACITY : Z := 4096.

Record HttpHeader := { hr_name : string; hr_value : string }.
Record HttpTarget := {
  ht_host : string; ht_path : string; ht_https : bool; ht_headers : list HttpHeader;
}.

Inductive LocalTransferOutcome :=
| UploadOutcome (r : BR unit)
| DownloadOutcome (r : BR (list Z)).

Inductive LocalTransferContract := UploadContract (transfer_size : Z) | DownloadContract.

Record UploadTransfer := {
  ut_store : FolderStore; ut_operation : SaveOperation; ut_path : string;
  ut_transfer_size : Z; ut_metadata : FileMetadata;
  (** the cell of [result] *)
  ut_result : nat;
}.

Inductive TransferOperation :=
| Upload (upload : UploadTransfer)
| Download (download : BoundDownload).

Record IssuedTransfer := {
  is_token : string; is_expires_at : Z; is_operation : TransferOperation;
}.

(** The registry, the counter of tokens and the cells. *)
Record TransferRegistry := {
  tr_by_token : gmap string IssuedTransfer;
  tr_order : list string;
  tr_next : Z;
  tr_cells : gmap nat (option (BR StagedFile));
  tr_fresh : nat;
}.

Definition empty_transfers : TransferRegistry :=
  {| tr_by_token := ∅; tr_order := []; tr_next := 1; tr_cells := ∅; tr_fresh := 0 |}.

Definition with_issued (m : gmap string IssuedTransfer) (order : list string)
    (r : TransferRegistry) : TransferRegistry :=
  {| tr_by_token := m; tr_order := order; tr_next := tr_next r; tr_cells := tr_cells r;
     tr_fresh := tr_fresh r |}.
Definition set_cell (id : nat) (v : option (BR StagedFile)) (r : TransferRegistry)
    : TransferRegistry :=
  {| tr_by_token := tr_by_token r; tr_order := tr_order r; tr_next := tr_next r;
     tr_cells := <[id := v]> (tr_cells r); tr_fresh := tr_fresh r |}.
(** [Mutex::new(None)] *)
Definition new_cell (r : TransferRegistry) : nat * TransferRegistry :=
  (tr_fresh r,
   {| tr_by_token := tr_by_token r; tr_order := tr_order r; tr_next := tr_next r;
      tr_cells := <[tr_fresh r := None]> (tr_cells r); tr_fresh := S (tr_fresh r) |}).
Definition cell (id : nat) (r : TransferRegistry) : option (BR StagedFile) :=
  default None (tr_cells r !! id).

(** ** Tokens and targets *)

(** [format!("{:016x}", n)] *)
Definition token_text (n : Z) : string := bytes_str (hex_bytes (be_bytes 8 n)).

Definition next_token (r : TransferRegistry) : string * TransferRegistry :=
  (token_text (tr_next r),
   {| tr_by_token := tr_by_token r; tr_order := tr_order r;
      tr_next := u64_wrapping_add (tr_next r) 1; tr_cells := tr_cells r; tr_fresh := tr_fresh r |}).

Definition target (kind token : string) : HttpTarget :=
  {| ht_host := LOCAL_TRANSFER_AUTHORITY; ht_path := "/v1/" ++ kind ++ "/" ++ token;
     ht_https := false; ht_headers := [] |}.

(** [str::trim_start_matches('/')] *)
Fixpoint trim_start_slash (l : list Z) : list Z :=
  match l with c :: rest => if c =? 47 then trim_start_slash rest else l | [] => [] end.

Definition parse_target (path : string) : option (string * string) :=
  let path := before_query (str_bytes path) in
  match split_slash (trim_start_slash path) with
  | [v; kind; token] =>
      if bool_decide (v = str_bytes "v1")
         && (bool_decide (kind = str_bytes "upload") || bool_decide (kind = str_bytes "download"))
         && negb (bool_decide (token = []))
      then Some (bytes_str kind, bytes_str token) else None
  | _ => None
  end.

(** ** The registry under its lock *)

Fixpoint remove_expired_from (order : list string) (m : gmap string IssuedTransfer) (now : Z)
    : list string * gmap string IssuedTransfer :=
  match order with
  | token :: rest =>
      match m !! token with
      | Some issued =>
          if is_expires_at issued <=? now then remove_expired_from rest (delete token m) now
          else (order, m)
      | None => (order, m)
      end
  | [] => ([], m)
  end.

Definition remove_expired (now : Z) (r : TransferRegistry) : TransferRegistry :=
  let '(order, m) := remove_expired_from (tr_order r) (tr_by_token r) now in with_issued m order r.

Definition insert_transfer (issued : IssuedTransfer) (now : Z) (r : TransferRegistry)
    : BR unit * TransferRegistry :=
  let r := remove_expired now r in
  if TRANSFER_CAPACITY <=? Z.of_nat (size (tr_by_token r)) then
    (Err {| be_message := "local transfer registry capacity is exhausted"; be_retryable := true |}, r)
  else
    (Ok tt, with_issued (<[is_token issued := issued]> (tr_by_token r))
              (tr_order r ++ [is_token issued]) r).

Definition remove_token (token : string) (r : TransferRegistry) : TransferRegistry :=
  with_issued (delete token (tr_by_token r)) (filter (λ t, t ≠ token) (tr_order r)) r.

Definition kind_of (o : TransferOperation) : string :=
  match o with Upload _ => "upload" | Download _ => "download" end.

(** The part of [intercept_transfer] under the lock: a download is taken out, an upload
    stays. *)
Definition claim_transfer (authority path : string) (now : Z) (r : TransferRegistry)
    : option TransferOperation * TransferRegistry :=
  if negb (eq_ignore_ascii_case authority LOCAL_TRANSFER_AUTHORITY) then (None, r)
  else
    match parse_target path with
    | None => (None, r)
    | Some (kind, token) =>
        let r := remove_expired now r in
        match tr_by_token r !! token with
        | None => (None, r)
        | Some issued =>
            if negb (bool_decide (kind = kind_of (is_operation issued))) then (None, r)
            else
              match is_operation issued with
              | Upload _ => (Some (is_operation issued), r)
              | Download _ => (Some (is_operation issued), remove_token token r)
              end
        end
    end.

Definition transfer_contract (authority path : string) (now : Z) (r : TransferRegistry)
    : option LocalTransferContract * TransferRegistry :=
  if negb (eq_ignore_ascii_case authority LOCAL_TRANSFER_AUTHORITY) then (None, r)
  else
    match parse_target path with
    | None => (None, r)
    | Some (kind, token) =>
        let r := remove_expired now r in
        match tr_by_token r !! token with
        | None => (None, r)
        | Some issued =>
            if negb (bool_decide (kind = kind_of (is_operation issued))) then (None, r)
            else
              (Some match is_operation issued with
                    | Upload upload => UploadContract (ut_transfer_size upload)
                    | Download _ => DownloadContract
                    end, r)
        end
    end.

(** [commit_upload]: the upload is taken out, and what its transfer came to is returned. *)
Definition commit_upload (token : string) (now : Z) (r : TransferRegistry)
    : BR StagedFile * TransferRegistry :=
  let r := remove_expired now r in
  match tr_by_token r !! token with
  | None => (Err (permanent "local upload target is unknown"), r)
  | Some issued =>
      let r := remove_token token r in
      match is_operation issued with
      | Download _ => (Err (permanent "local transfer target is not an upload"), r)
      | Upload upload =>
          match cell (ut_result upload) r with
          | None => (Err (permanent "local upload transfer has not completed"), r)
          | Some result => (result, r)
          end
      end
  end.

(** ** Serving a request *)

(** The zip library: the entries of an archive, each readable up to a limit, and whether a
    buffer of a size can be reserved. *)
Record ZipEntry := {
  ze_name : string; ze_is_file : bool; ze_size : Z; ze_read : Z → result string (list Z);
}.
Class Zip := {
  zip_open : list Z → result string (list (result string ZipEntry));
  can_reserve : Z → bool;
}.

Section serving.
Context {H : Host} {C : StoreCodec} {Zp : Zip}.

Definition entry_matches (entry : ZipEntry) (raw_size : Z) : bool :=
  bool_decide (ze_name entry = "z") && ze_is_file entry && (ze_size entry =? raw_size).

Definition decode_steam_zip (body : list Z) (raw_size : Z) : BR (list Z) :=
  match zip_open body with
  | Err e => Err (permanent ("invalid Steam upload ZIP: " ++ e))
  | Ok [Err e] => Err (permanent ("invalid Steam upload ZIP entry: " ++ e))
  | Ok [Ok entry] =>
      if negb (entry_matches entry raw_size)
      then Err (permanent "Steam upload ZIP entry does not match its declaration")
      else if negb (can_reserve raw_size)
      then Err (permanent "local cloud file is too large for this process")
      else
        match ze_read entry (Z.min (raw_size + 1) u64_max) with
        | Err e => Err (permanent ("failed to read Steam upload ZIP: " ++ e))
        | Ok raw =>
            if negb (Z.of_nat (length raw) =? raw_size)
            then Err (permanent "Steam upload ZIP expanded to the wrong size")
            else Ok raw
        end
  | Ok _ => Err (permanent "Steam upload ZIP must contain one entry")
  end.

Definition complete_upload_body (upload : UploadTransfer) (body : list Z) : Op StagedFile :=
  let md := ut_metadata upload in
  _ ← lift (reject_if (negb (Z.of_nat (length body) =? ut_transfer_size upload))
              (permanent "local upload transfer size does not match declaration"));
  _ ← lift (reject_if (MAX_SAVE_FILE_BYTES <? fm_raw_size md)
              (permanent "local cloud file exceeds the supported size"));
  if ut_transfer_size upload =? fm_raw_size md
  then stage_file (ut_store upload) (ut_operation upload) (ut_path upload) body md
  else
    raw ← lift (decode_steam_zip body (fm_raw_size md));
    stage_file (ut_store upload) (ut_operation upload) (ut_path upload) raw md.

(** After the lock: an upload is staged once, and its result kept. *)
Definition serve (o : TransferOperation) (body : list Z) (r : TransferRegistry)
    : World → LocalTransferOutcome * TransferRegistry * World := λ w,
  match o with
  | Upload upload =>
      let '(result, w) :=
        match cell (ut_result upload) r with
        | Some result => (result, w)
        | None => complete_upload_body upload body w
        end in
      (UploadOutcome (match result with Ok _ => Ok tt | Err e => Err e end),
       set_cell (ut_result upload) (Some result) r, w)
  | Download download =>
      let '(result, w) := download_read download w in (DownloadOutcome result, r, w)
  end.

Definition intercept_transfer (authority path : string) (body : list Z) (now : Z)
    (r : TransferRegistry) : World → option LocalTransferOutcome * TransferRegistry * World := λ w,
  match claim_transfer authority path now r with
  | (None, r) => (None, r, w)
  | (Some o, r) => let '(out, r, w) := serve o body r w in (Some out, r, w)
  end.

(** ** Issuing targets *)

Definition issue_upload (store : FolderStore) (operation : SaveOperation) (path : string)
    (transfer_size : Z) (metadata : FileMetadata) (now : Z) (r : TransferRegistry)
    : BR (string * HttpTarget) * TransferRegistry :=
  let '(token, r) := next_token r in
  let '(id, r) := new_cell r in
  let upload := {| ut_store := store; ut_operation := operation; ut_path := path;
                   ut_transfer_size := transfer_size; ut_metadata := metadata; ut_result := id |} in
  let issued := {| is_token := token; is_expires_at := now + TRANSFER_TTL;
                   is_operation := Upload upload |} in
  match insert_transfer issued now r with
  | (Err e, r) => (Err e, r)
  | (Ok _, r) => (Ok (token, target "upload" token), r)
  end.

Definition issue_download (store : FolderStore) (app_id : Z) (path : string) (now : Z)
    (r : TransferRegistry) : World → BR (FileMetadata * HttpTarget) * TransferRegistry * World := λ w,
  match bind_download store app_id path w with
  | (Err e, w) => (Err e, r, w)
  | (Ok (entry, download), w) =>
      let '(token, r) := next_token r in
      let issued := {| is_token := token; is_expires_at := now + TRANSFER_TTL;
                       is_operation := Download download |} in
      match insert_transfer issued now r with
      | (Err e, r) => (Err e, r, w)
      | (Ok _, r) => (Ok (fe_metadata entry, target "download" token), r, w)
      end
  end.
End serving.

(** ** The registry stays consistent *)

(** The order lists the issued tokens once each, every token was counted, and the cell of
    an upload is its own. *)
Record transfers_inv (r : TransferRegistry) : Prop := {
  ti_order t : t ∈ tr_order r ↔ is_Some (tr_by_token r !! t);
  ti_nodup : NoDup (tr_order r);
  ti_token t i : tr_by_token r !! t = Some i →
    is_token i = t ∧ ∃ n, 1 ≤ n < tr_next r ∧ t = token_text n;
  ti_capacity : Z.of_nat (size (tr_by_token r)) ≤ TRANSFER_CAPACITY;
  ti_cell t i u : tr_by_token r !! t = Some i → is_operation i = Upload u →
    (ut_result u < tr_fresh r)%nat;
  ti_own t t' i i' u u' : tr_by_token r !! t = Some i → tr_by_token r !! t' = Some i' →
    is_operation i = Upload u → is_operation i' = Upload u' → ut_result u = ut_result u' → t = t';
  ti_next : 1 ≤ tr_next r ≤ u64_max;
}.

Lemma be_bytes_in_u8 n z : Forall in_u8 (be_bytes n z).
Proof. unfold be_bytes. apply Forall_reverse, le_bytes_in_u8. Qed.

Lemma hex_bytes_inj_u8 l l' :
  Forall in_u8 l → Forall in_u8 l' → hex_bytes l = hex_bytes l' → l = l'.
Proof.
  intros Hl Hl' Heq. apply (f_equal hex_pairs) in Heq. rewrite !hex_pairs_bytes in Heq by done.
  by injection Heq.
Qed.

Lemma str_bytes_token n : str_bytes (token_text n) = hex_bytes (be_bytes 8 n).
Proof. apply str_bytes_bytes_str, hex_bytes_in_u8, be_bytes_in_u8. Qed.

Lemma token_text_inj a b : in_u64 a → in_u64 b → token_text a = token_text b → a = b.
Proof.
  intros Ha Hb Heq. apply (f_equal str_bytes) in Heq. rewrite !str_bytes_token in Heq.
  apply hex_bytes_inj_u8 in Heq; [|apply be_bytes_in_u8..].
  apply be_bytes_inj in Heq; [done|unfold in_u64, u64_max in *; lia..].
Qed.

Lemma inv_empty : transfers_inv empty_transfers.
Proof.
  split; cbn; try done; try (intros *; by rewrite lookup_empty).
  - intros t. rewrite lookup_empty. split; [set_solver|]. by intros [].
  - constructor.
Qed.

(** Taking a token out. *)
Lemma inv_delete_token t r :
  transfers_inv r → transfers_inv (remove_token t r).
Proof.
  intros [Ho Hn Ht Hc Hce Hown Hnx]. split; cbn; try done.
  - intros t'. rewrite list_elem_of_filter, Ho. destruct (decide (t' = t)) as [->|Hne].
    + rewrite lookup_delete_eq. split; [tauto|]. by intros [].
    + rewrite lookup_delete_ne by done. tauto.
  - by apply NoDup_filter.
  - intros t' i [_ ?]%lookup_delete_Some. auto.
  - unfold TRANSFER_CAPACITY in *. rewrite map_size_delete. case_match; cbn; lia.
  - intros t' i u [_ ?]%lookup_delete_Some. eauto.
  - intros t1 t2 i i' u u' [_ ?]%lookup_delete_Some [_ ?]%lookup_delete_Some. eauto.
Qed.

Lemma remove_head t rest m r :
  NoDup (t :: rest) →
  with_issued (delete t m) rest r = remove_token t (with_issued m (t :: rest) r).
Proof.
  intros [Ht _]%NoDup_cons. unfold remove_token, with_issued. cbn [tr_by_token tr_order tr_next tr_cells tr_fresh]. f_equal.
  rewrite filter_cons_False by (by intros []). symmetry.
  apply TransferTargetsSpec.filter_all, Forall_forall. set_solver.
Qed.

(** Only expired transfers are dropped. *)
Lemma remove_expired_spec now r :
  transfers_inv r →
  transfers_inv (remove_expired now r) ∧ tr_next (remove_expired now r) = tr_next r ∧
  tr_cells (remove_expired now r) = tr_cells r ∧ tr_fresh (remove_expired now r) = tr_fresh r ∧
  tr_by_token (remove_expired now r) ⊆ tr_by_token r ∧
  ∀ t i, tr_by_token r !! t = Some i → now < is_expires_at i →
    tr_by_token (remove_expired now r) !! t = Some i.
Proof.
  unfold remove_expired. destruct r as [m order nx cells fr]. cbn.
  revert m. induction order as [|t order IH]; intros m Hi; cbn; [by split_and!|].
  destruct (m !! t) as [i|] eqn:Ht; [|by split_and!].
  destruct (Z.leb_spec (is_expires_at i) now); [|by split_and!].
  pose proof (ti_nodup _ Hi) as Hnd. apply (inv_delete_token t) in Hi.
  change (remove_token t _) with (remove_token t (with_issued m (t :: order)
    (Build_TransferRegistry m (t :: order) nx cells fr))) in Hi.
  rewrite <-remove_head in Hi by done. specialize (IH (delete t m) Hi).
  destruct (remove_expired_from _ _ _) as [order' m'].
  destruct IH as (Hi' & Hn & Hc & Hf & Hsub & Hkeep). cbn in *. split; [done|].
  split_and!; try done; [by etrans; [|apply delete_subseteq]|].
  intros t' i' Ht' Hlt. apply Hkeep; [|done]. rewrite lookup_delete_ne; [done|].
  intros ->. rewrite Ht in Ht'. injection Ht' as <-. lia.
Qed.

Lemma transfers_inv_insert issued now r x r' :
  transfers_inv r → tr_by_token r !! is_token issued = None →
  (∃ n, 1 ≤ n < tr_next r ∧ is_token issued = token_text n) →
  (∀ u, is_operation issued = Upload u → (ut_result u < tr_fresh r)%nat ∧
     ∀ t i u', tr_by_token r !! t = Some i → is_operation i = Upload u' → ut_result u' ≠ ut_result u) →
  insert_transfer issued now r = (x, r') →
  transfers_inv r' ∧ tr_cells r' = tr_cells r ∧ tr_next r' = tr_next r ∧ tr_fresh r' = tr_fresh r ∧
  (x = Ok tt → tr_by_token r' !! is_token issued = Some issued) ∧
  (∀ t i, tr_by_token r !! t = Some i → now < is_expires_at i → tr_by_token r' !! t = Some i) ∧
  ∀ t i, tr_by_token r' !! t = Some i → tr_by_token r !! t = Some i ∨ (t, i) = (is_token issued, issued).
Proof.
  intros Hi Hnew Hcount Hcell Hm.
  destruct (remove_expired_spec now r Hi) as (Hi1 & Hn & Hce & Hf & Hsub & Hkeep).
  unfold insert_transfer in Hm. case_match eqn:Ecap; injection Hm as <- <-; cbn.
  { split_and!; try done. intros t i Ht. left. by eapply lookup_weaken. }
  assert (Hnew1 : tr_by_token (remove_expired now r) !! is_token issued = None)
    by (by eapply lookup_weaken_None).
  destruct Hi1 as [Ho Hnd Ht Hcap Hcl Hown Hnx]. split; [split; cbn|].
  - intros t. rewrite elem_of_app, list_elem_of_singleton, Ho.
    destruct (decide (t = is_token issued)) as [->|Hne].
    + rewrite lookup_insert_eq. split; [by eauto|tauto].
    + rewrite lookup_insert_ne by done. tauto.
  - apply NoDup_app. split; [done|]. split; [|apply NoDup_singleton].
    intros t Hin ->%list_elem_of_singleton. apply Ho in Hin as [? ?]. congruence.
  - intros t i [[<- <-]|[_ Hl]]%lookup_insert_Some; [|auto]. by rewrite Hn.
  - rewrite map_size_insert_None by done. apply Z.leb_gt in Ecap. lia.
  - intros t i u [[<- <-]|[_ Hl]]%lookup_insert_Some Hu; [|eauto]. rewrite Hf. by apply Hcell.
  - intros t1 t2 i i' u u' [[<- <-]|[Hne Hl]]%lookup_insert_Some [[<- <-]|[Hne' Hl']]%lookup_insert_Some Hu Hu' Heq;
      [done|..|eauto].
    + exfalso. eapply (proj2 (Hcell _ Hu)); [by eapply lookup_weaken|done|done].
    + exfalso. eapply (proj2 (Hcell _ Hu')); [by eapply lookup_weaken|done|done].
  - done.
  - split; [done|]. split; [done|]. split; [done|]. split; [intros _; by rewrite lookup_insert_eq|].
    split.
    + intros t i Hl Hlt. rewrite lookup_insert_ne; [by apply Hkeep|]. congruence.
    + intros t i [[<- <-]|[_ Hl]]%lookup_insert_Some; [by right|left]. by eapply lookup_weaken.
Qed.

(** ** Targets lead back to their tokens *)

Lemma str_bytes_app a b : str_bytes (a ++ b) = str_bytes a ++ str_bytes b.
Proof. unfold str_bytes. induction a as [|c a IH]; [done|]. csimpl. by rewrite IH. Qed.

Definition plain (c : Z) : Prop := c ≠ 47 ∧ c ≠ 63.

Lemma hex_bytes_plain l : Forall in_u8 l → Forall plain (hex_bytes l).
Proof.
  induction 1 as [|b l Hb _ IH]; [done|].
  change (hex_bytes (b :: l)) with (hex_digit (b / 16) :: hex_digit (b mod 16) :: hex_bytes l).
  unfold in_u8, u8_max in Hb. pose proof (Z.mod_pos_bound b 16).
  assert (0 ≤ b / 16 < 16) by (split; [apply Z.div_pos|apply Z.div_lt_upper_bound]; lia).
  repeat constructor; [..|done]; unfold hex_digit; case_match; lia.
Qed.

Lemma split_once_absent c l : c ∉ l → split_once c l = None.
Proof.
  induction l as [|b l IH]; [done|]. rewrite not_elem_of_cons. intros [Hb Hl]. cbn.
  rewrite (proj2 (Z.eqb_neq _ _)) by done. by rewrite IH.
Qed.

Lemma split_slash_plain l : Forall plain l → split_slash l = [l].
Proof.
  induction 1 as [|c l [Hc _] _ IH]; [done|]. cbn.
  rewrite (proj2 (Z.eqb_neq _ _)) by done. by rewrite IH.
Qed.

Lemma split_slash_app l rest :
  Forall plain l → split_slash (l ++ 47 :: rest) = l :: split_slash rest.
Proof.
  induction 1 as [|c l [Hc _] _ IH]; [done|]. cbn.
  rewrite (proj2 (Z.eqb_neq _ _)) by done. by rewrite IH.
Qed.

Lemma parse_target_target kind n :
  kind = "upload" ∨ kind = "download" →
  parse_target (ht_path (target kind (token_text n))) = Some (kind, token_text n).
Proof.
  intros Hk. pose proof (hex_bytes_plain _ (be_bytes_in_u8 8 n)) as Hp.
  assert (Hkp : Forall plain (str_bytes kind))
    by (destruct Hk as [-> | ->]; vm_compute; repeat (constructor; [lia|]); constructor).
  assert (Hb : str_bytes (ht_path (target kind (token_text n))) =
    47 :: str_bytes "v1" ++ 47 :: str_bytes kind ++ 47 :: hex_bytes (be_bytes 8 n)).
  { cbn [ht_path target]. rewrite (str_bytes_app "/v1/"), str_bytes_app, (str_bytes_app "/"), str_bytes_token. done. }
  unfold parse_target. rewrite Hb.
  assert (Hq : 63 ∉ 47 :: str_bytes "v1" ++ 47 :: str_bytes kind ++ 47 :: hex_bytes (be_bytes 8 n)).
  { rewrite not_elem_of_cons, !not_elem_of_app, !not_elem_of_cons, !not_elem_of_app, not_elem_of_cons.
    split; [done|]. split; [vm_compute; set_solver|]. split; [done|].
    split; [|split; [done|]]; intros Hin; [eapply Forall_forall in Hkp as [_ ?]|eapply Forall_forall in Hp as [_ ?]]; done. }
  unfold before_query. rewrite split_once_absent by done.
  change (trim_start_slash (47 :: str_bytes "v1" ++ ?l)) with (str_bytes "v1" ++ l).
  rewrite split_slash_app by (vm_compute; repeat constructor; lia).
  rewrite split_slash_app, split_slash_plain by done.
  rewrite bool_decide_eq_true_2 by done.
  rewrite (bool_decide_eq_false_2 (hex_bytes _ = [])).
  2: { intros Hn. apply (f_equal length) in Hn. by rewrite length_hex_bytes, length_be_bytes in Hn. }
  assert (Hor : bool_decide (str_bytes kind = str_bytes "upload") ||
    bool_decide (str_bytes kind = str_bytes "download") = true) by (by destruct Hk as [-> | ->]).
  rewrite Hor. cbn [andb negb]. by rewrite bytes_str_str_bytes.
Qed.
