(* ===== verification/TransferProofs.v ===== *)
(** * TransferProofs: transfers end where they were meant to

    Whatever other transfers are issued, served, committed or expire in between, an upload
    is committed with what its own first request staged, and a download is served once, with
    contents that match what was promised. *)

From Stdlib Require Import ZArith Lia.
From S2P Require Import Prelude RustStd CloudCore FileSystem StoreFiles StoreFilesProofs.
From S2P Require Import FolderStore FolderStoreProofs Syncthing CloudSettings Transfers.

Local Open Scope Z_scope.

(** ** Calls of other users of the registry *)

Inductive Call :=
| IssueUpload (store : FolderStore) (operation : SaveOperation) (path : string)
    (transfer_size : Z) (metadata : FileMetadata)
| IssueDownload (store : FolderStore) (app_id : Z) (path : string)
| Intercept (authority path : string) (body : list Z)
| Contract (authority path : string)
| Commit (token : string)
(** the rest of the program moves the world *)
| Environment (w : World).

(** The request goes to this upload. *)
Definition puts (token authority path : string) : Prop :=
  eq_ignore_ascii_case authority LOCAL_TRANSFER_AUTHORITY = true ∧
  parse_target path = Some ("upload", token).

Definition commits (token : string) (c : Call) : Prop := c = Commit token.
Definition sends (token : string) (c : Call) : Prop :=
  match c with Intercept authority path _ => puts token authority path | _ => False end.

Section calls.
Context {H : Host} {C : StoreCodec} {Zp : Zip}.

Definition exec (now : Z) (c : Call) (s : TransferRegistry * World) : TransferRegistry * World :=
  let '(r, w) := s in
  match c with
  | IssueUpload store operation path size md =>
      ((issue_upload store operation path size md now r).2, w)
  | IssueDownload store app path =>
      let '(_, r, w) := issue_download store app path now r w in (r, w)
  | Intercept authority path body =>
      let '(_, r, w) := intercept_transfer authority path body now r w in (r, w)
  | Contract authority path => ((transfer_contract authority path now r).2, w)
  | Commit token => ((commit_upload token now r).2, w)
  | Environment w => (r, w)
  end.

(** Calls with the times they are made at. *)
Definition exec_all (cs : list (Z * Call)) (s : TransferRegistry * World)
    : TransferRegistry * World := foldl (λ s c, exec c.1 c.2 s) s cs.

(** The upload [i] is on file under its token, and its cell holds [v]. *)
Definition on_file (r : TransferRegistry) (i : IssuedTransfer) (u : UploadTransfer)
    (v : option (BR StagedFile)) : Prop :=
  tr_by_token r !! is_token i = Some i ∧ is_operation i = Upload u ∧ cell (ut_result u) r = v.

Lemma inv_set_cell id v r : transfers_inv r → transfers_inv (set_cell id v r).
Proof. by intros []; split. Qed.

Lemma fresh_token r : transfers_inv r → tr_by_token r !! token_text (tr_next r) = None.
Proof.
  intros [_ _ Ht _ _ _ Hn]. apply eq_None_not_Some. intros [i Hi].
  destruct (Ht _ _ Hi) as (_ & n & Hlt & Heq).
  apply token_text_inj in Heq; unfold in_u64, u64_max in *; lia.
Qed.

(** The counter moves on; the new cell is empty and nobody else's. *)
Lemma inv_next r : transfers_inv r → tr_next r < u64_max → transfers_inv (next_token r).2.
Proof.
  intros [Ho Hnd Ht Hcap Hcl Hown Hnx] Hlt.
  assert (Hn : u64_wrapping_add (tr_next r) 1 = tr_next r + 1).
  { unfold u64_wrapping_add. rewrite Z.mod_small; unfold u64_max in *; lia. }
  split; cbn; rewrite ?Hn; try done; [|lia].
  intros t i Hi. destruct (Ht _ _ Hi) as (? & n & ? & ?). split; [done|]. exists n. split; [lia|done].
Qed.

Lemma inv_new_cell r : transfers_inv r → transfers_inv (new_cell r).2.
Proof.
  intros [Ho Hnd Ht Hcap Hcl Hown Hnx]. split; cbn; try done.
  intros t i u Hi Hu. pose proof (Hcl _ _ _ Hi Hu). lia.
Qed.

Lemma issue_upload_spec store op path size md now r x r' :
  transfers_inv r → tr_next r < u64_max → issue_upload store op path size md now r = (x, r') →
  transfers_inv r' ∧ tr_next r' = tr_next r + 1 ∧
  (∀ i u v, on_file r i u v → now < is_expires_at i → on_file r' i u v) ∧
  ∀ token t, x = Ok (token, t) → t = target "upload" token ∧ token = token_text (tr_next r) ∧
    ∃ u, u = {| ut_store := store; ut_operation := op; ut_path := path; ut_transfer_size := size;
                ut_metadata := md; ut_result := tr_fresh r |} ∧
      on_file r' {| is_token := token; is_expires_at := now + TRANSFER_TTL; is_operation := Upload u |}
        u None.
Proof.
  intros Hi Hlt Hm. unfold issue_upload in Hm. cbn zeta in Hm.
  pose proof (inv_new_cell _ (inv_next r Hi Hlt)) as Hi2.
  rewrite (surjective_pairing (next_token r)), (surjective_pairing (new_cell _)) in Hm.
  cbn beta iota in Hm.
  destruct (insert_transfer _ _ _) as [y r1] eqn:Eins.
  assert (Hn : u64_wrapping_add (tr_next r) 1 = tr_next r + 1).
  { unfold u64_wrapping_add. destruct Hi. rewrite Z.mod_small; unfold u64_max in *; lia. }
  eapply transfers_inv_insert in Eins; [|done|cbn; by apply fresh_token| |].
  - destruct Eins as (Hi3 & Hc & Hn3 & Hf & Hok & Hkeep & _).
    assert (Hfile : ∀ i u v, on_file r i u v → now < is_expires_at i → on_file r1 i u v).
    { intros i u v (Hl & Hu & Hv) Ht. split; [by apply Hkeep|]. split; [done|].
      unfold cell in *. rewrite Hc. cbn. rewrite lookup_insert_ne; [done|].
      pose proof (ti_cell _ Hi _ _ _ Hl Hu). lia. }
    destruct y as [[]|e]; injection Hm as <- <-.
    + split; [done|]. split; [rewrite Hn3; cbn; lia|]. split; [done|].
      intros token t [= <- <-]. split; [done|]. split; [done|]. eexists. split; [done|].
      split; [by apply Hok|]. split; [done|]. unfold cell. rewrite Hc. cbn.
      by rewrite lookup_insert_eq.
    + split; [done|]. split; [rewrite Hn3; cbn; lia|]. split; [done|]. done.
  - cbn. exists (tr_next r). split; [|done]. destruct Hi. lia.
  - cbn. intros u [= <-]. cbn. split; [lia|]. intros t i u' Hl Hu.
    pose proof (ti_cell _ Hi _ _ _ Hl Hu). lia.
Qed.

Lemma issue_download_spec store app path now r w x r' w' :
  transfers_inv r → tr_next r < u64_max → issue_download store app path now r w = (x, r', w') →
  transfers_inv r' ∧ tr_next r' ≤ tr_next r + 1 ∧
  (∀ i u v, on_file r i u v → now < is_expires_at i → on_file r' i u v) ∧
  ∀ md t, x = Ok (md, t) → ∃ entry d, bind_download store app path w = (Ok (entry, d), w') ∧
    md = fe_metadata entry ∧ t = target "download" (token_text (tr_next r)) ∧
    tr_by_token r' !! token_text (tr_next r) =
      Some {| is_token := token_text (tr_next r); is_expires_at := now + TRANSFER_TTL;
              is_operation := Download d |}.
Proof.
  intros Hi Hlt Hm. unfold issue_download in Hm.
  destruct (bind_download store app path w) as [[[entry d]|e] w1] eqn:Eb.
  2: { injection Hm as <- <- <-. split_and!; [done|lia|done|done]. }
  change (next_token r) with (token_text (tr_next r), (next_token r).2) in Hm. cbn beta iota in Hm.
  destruct (insert_transfer _ _ _) as [y r1] eqn:Eins.
  assert (Hn : u64_wrapping_add (tr_next r) 1 = tr_next r + 1).
  { unfold u64_wrapping_add. destruct Hi. rewrite Z.mod_small; unfold u64_max in *; lia. }
  eapply transfers_inv_insert in Eins; [|by apply inv_next|cbn; by apply fresh_token| |done].
  - destruct Eins as (Hi3 & Hc & Hn3 & Hf & Hok & Hkeep & _).
    assert (Hfile : ∀ i u v, on_file r i u v → now < is_expires_at i → on_file r1 i u v).
    { intros i u v (Hl & Hu & Hv) Ht. split; [by apply Hkeep|]. split; [done|].
      unfold cell in *. by rewrite Hc. }
    destruct y as [[]|e]; injection Hm as <- <- <-; (split; [done|]; split; [rewrite Hn3; cbn; lia|]);
      (split; [done|]); [|done].
    intros md t [= <- <-]. exists entry, d. split_and!; try done. by apply Hok.
  - cbn. exists (tr_next r). split; [|done]. destruct Hi. lia.
Qed.

(** Expiry touches nothing that is still due. *)
Lemma expire_keeps now r i u v :
  transfers_inv r → on_file r i u v → now < is_expires_at i → on_file (remove_expired now r) i u v.
Proof.
  intros Hi (Hl & Hu & Hv) Hlt. destruct (remove_expired_spec now r Hi) as (_ & _ & Hc & _ & _ & Hk).
  split; [by apply Hk|]. split; [done|]. unfold cell in *. by rewrite Hc.
Qed.

Lemma remove_token_keeps t r i u v :
  on_file r i u v → t ≠ is_token i → on_file (remove_token t r) i u v.
Proof. intros (Hl & Hu & Hv) Hne. split; [|done]. cbn. by rewrite lookup_delete_ne. Qed.

(** The operation a request claims is the one on file under the token it names. *)
Lemma claim_spec authority path now r o r' :
  transfers_inv r → claim_transfer authority path now r = (o, r') →
  transfers_inv r' ∧ tr_next r' = tr_next r ∧
  (∀ i u v, on_file r i u v → now < is_expires_at i → on_file r' i u v) ∧
  ∀ op, o = Some op →
    eq_ignore_ascii_case authority LOCAL_TRANSFER_AUTHORITY = true ∧
    ∃ token i, parse_target path = Some (kind_of op, token) ∧
      tr_by_token (remove_expired now r) !! token = Some i ∧ is_operation i = op ∧
      match op with
      | Upload _ => r' = remove_expired now r
      | Download _ => tr_by_token r' !! token = None
      end.
Proof.
  intros Hi Hm. unfold claim_transfer in Hm.
  destruct (eq_ignore_ascii_case _ _) eqn:Ea; cbn [negb] in Hm; [|by injection Hm as <- <-].
  destruct (parse_target path) as [[kind token]|] eqn:Ep; [|by injection Hm as <- <-].
  destruct (remove_expired_spec now r Hi) as (Hi1 & Hn & _).
  assert (Hkeep : ∀ i u v, on_file r i u v → now < is_expires_at i →
    on_file (remove_expired now r) i u v) by eauto using expire_keeps.
  destruct (tr_by_token _ !! token) as [i|] eqn:Et; [|by injection Hm as <- <-].
  case_bool_decide as Ek; cbn [negb] in Hm; [|by injection Hm as <- <-].
  destruct (is_operation i) as [u|d] eqn:Eo; injection Hm as <- <-.
  - split_and!; try done. intros op [= <-]. split; [done|]. exists token, i. by subst kind.
  - split; [by apply inv_delete_token|]. split; [done|]. split.
    + intros i' u v Hf Hlt. apply remove_token_keeps; [by apply Hkeep|].
      intros ->. destruct (Hkeep _ _ _ Hf Hlt) as (Hl & Hu & _). congruence.
    + intros op [= <-]. split; [done|]. exists token, i. subst kind. cbn. by rewrite lookup_delete_eq.
Qed.

Lemma exec_keeps now c r w r' w' :
  transfers_inv r → tr_next r < u64_max → exec now c (r, w) = (r', w') →
  transfers_inv r' ∧ tr_next r' ≤ tr_next r + 1 ∧
  ∀ i u v, on_file r i u v → now < is_expires_at i → ¬ commits (is_token i) c →
    (v = None → ¬ sends (is_token i) c) → on_file r' i u v.
Proof.
  intros Hi Hlt. destruct c as [store op path size md|store app path|authority path body
    |authority path|token|w0]; cbn [exec].
  - destruct (issue_upload _ _ _ _ _ _ _) as [x r1] eqn:E. intros [= <- <-].
    apply issue_upload_spec in E as (? & ? & ? & _); [|done..]. split_and!; [done|lia|eauto].
  - destruct (issue_download _ _ _ _ _ _) as [[x r1] w1] eqn:E. intros [= <- <-].
    apply issue_download_spec in E as (? & ? & ? & _); [|done..]. split_and!; [done|lia|eauto].
  - unfold intercept_transfer. destruct (claim_transfer _ _ _ _) as [[o|] r1] eqn:E.
    + destruct (claim_spec _ _ _ _ _ _ Hi E) as (Hi1 & Hn & Hk & Hc).
      destruct (Hc _ eq_refl) as (Ha & token & i & Hp & Hl & Ho & Hcase).
      destruct o as [u|d]; cbn [serve].
      * assert (Hset : ∀ x, transfers_inv (set_cell (ut_result u) x r1)) by (intros; by apply inv_set_cell).
        intros Hm.
        assert (∃ y, r' = set_cell (ut_result u) (Some y) r1 ∧
          ∀ x, cell (ut_result u) r1 = Some x → y = x) as (y & -> & Hy).
        { destruct (cell (ut_result u) r1) as [x|] eqn:Ec.
          - injection Hm as <- <-. exists x. split; [done|]. by intros ? [= <-].
          - destruct (complete_upload_body u body w) as [x w1]. injection Hm as <- <-. by exists x. }
        split; [done|]. split; [cbn; lia|]. intros i' u' v Hf Hlt' _ Hno.
        destruct (Hk _ _ _ Hf Hlt') as (Hl' & Hu' & Hv'). split; [done|]. split; [done|].
        unfold cell. cbn. destruct (decide (ut_result u = ut_result u')) as [Heq|Hne].
        2: { by rewrite lookup_insert_ne. }
        rewrite Heq, lookup_insert_eq. cbn. rewrite Heq in Hy.
        rewrite <-Hcase in Hl. assert (token = is_token i') as ->.
        { eapply (ti_own _ Hi1); [exact Hl|exact Hl'|done|done|done]. }
        destruct v as [x|]; [by rewrite (Hy x)|]. destruct (Hno eq_refl). by split.
      * destruct (download_read d w) as [x w1]. intros [= <- <-].
        split; [done|]. split; [lia|]. eauto.
    + intros [= <- <-]. destruct (claim_spec _ _ _ _ _ _ Hi E) as (Hi1 & Hn & Hk & _).
      split; [done|]. split; [lia|]. eauto.
  - assert (Hr : (transfer_contract authority path now r).2 = r ∨
      (transfer_contract authority path now r).2 = remove_expired now r).
    { unfold transfer_contract. repeat case_match; auto. }
    destruct (remove_expired_spec now r Hi) as (Hi1 & Hn & _).
    intros [= <- <-]. destruct Hr as [-> | ->]; (split; [done|]); (split; [lia|]); eauto using expire_keeps.
  - destruct (remove_expired_spec now r Hi) as (Hi1 & Hn & _).
    assert (Hr : (commit_upload token now r).2 = remove_expired now r ∨
      (commit_upload token now r).2 = remove_token token (remove_expired now r)).
    { unfold commit_upload. repeat case_match; auto. }
    intros [= <- <-]. destruct Hr as [-> | ->].
    + split; [done|]. split; [lia|]. eauto using expire_keeps.
    + split; [by apply inv_delete_token|]. split; [cbn; lia|]. intros i u v Hf Ht Hc _.
      apply remove_token_keeps; [by apply expire_keeps|]. intros ->. by apply Hc.
  - intros [= <- <-]. split; [done|]. split; [lia|]. eauto.
Qed.

Lemma exec_all_keeps cs r w r' w' i u v :
  transfers_inv r → tr_next r + Z.of_nat (length cs) ≤ u64_max → exec_all cs (r, w) = (r', w') →
  on_file r i u v → Forall (λ c, c.1 < is_expires_at i ∧ ¬ commits (is_token i) c.2 ∧
    (v = None → ¬ sends (is_token i) c.2)) cs →
  transfers_inv r' ∧ tr_next r' ≤ tr_next r + Z.of_nat (length cs) ∧ on_file r' i u v.
Proof.
  intros Hi Hlen Hm Hf Hcs. revert r w Hi Hlen Hm Hf.
  induction Hcs as [|[now c] cs (Ht & Hc & Hs) Hcs IH]; intros r w Hi Hlen Hm Hf.
  { injection Hm as <- <-. split_and!; [done|cbn; lia|done]. }
  cbn [length] in Hlen. unfold exec_all in Hm. cbn [foldl fst snd] in *.
  destruct (exec now c (r, w)) as [r1 w1] eqn:E.
  destruct (exec_keeps _ _ _ _ _ _ Hi ltac:(lia) E) as (Hi1 & Hn1 & Hk).
  destruct (IH r1 w1 Hi1 ltac:(lia) Hm) as (? & ? & ?); [by eapply Hk|]. split_and!; [done|cbn; lia|done].
Qed.

Lemma commit_spec_of i u v now r :
  transfers_inv r → on_file r i u v → now < is_expires_at i →
  (commit_upload (is_token i) now r).1 =
    match v with Some x => x | None => Err (permanent "local upload transfer has not completed") end.
Proof.
  intros Hi Hf Hlt. destruct (expire_keeps _ _ _ _ _ Hi Hf Hlt) as (Hl & Hu & Hv).
  unfold commit_upload. rewrite Hl, Hu. unfold cell in *. cbn. rewrite Hv. by destruct v.
Qed.

Lemma target_claims i u v now r n :
  transfers_inv r → on_file r i u v → now < is_expires_at i → is_token i = token_text n →
  claim_transfer LOCAL_TRANSFER_AUTHORITY (ht_path (target "upload" (is_token i))) now r =
    (Some (Upload u), remove_expired now r).
Proof.
  intros Hi Hf Hlt Hn. destruct (expire_keeps _ _ _ _ _ Hi Hf Hlt) as (Hl & Hu & Hv).
  unfold claim_transfer. rewrite Hn, parse_target_target by auto. cbn [negb eq_ignore_ascii_case].
  rewrite (bool_decide_eq_true_2 _ eq_refl : eq_ignore_ascii_case _ _ = true). cbn [negb].
  rewrite <-Hn, Hl, Hu. cbn. done.
Qed.

(** A request to the target of an upload whose cell is empty stages its body. *)
Lemma put_stages i u n body now r w :
  transfers_inv r → on_file r i u None → now < is_expires_at i → is_token i = token_text n →
  ∃ x w', complete_upload_body u body w = (x, w') ∧
    let r' := set_cell (ut_result u) (Some x) (remove_expired now r) in
    intercept_transfer LOCAL_TRANSFER_AUTHORITY (ht_path (target "upload" (is_token i))) body now r w =
      (Some (UploadOutcome (match x with Ok _ => Ok tt | Err e => Err e end)), r', w') ∧
    transfers_inv r' ∧ tr_next r' = tr_next r ∧ on_file r' i u (Some x).
Proof.
  intros Hi Hf Hlt Hn. destruct (complete_upload_body u body w) as [x w'] eqn:E. exists x, w'.
  split; [done|]. cbn zeta. unfold intercept_transfer. rewrite (target_claims i u None now r n) by done.
  destruct (expire_keeps _ _ _ _ _ Hi Hf Hlt) as (Hl & Hu & Hv). cbn [serve]. rewrite Hv, E.
  destruct (remove_expired_spec now r Hi) as (Hi1 & Hn1 & _).
  split; [done|]. split; [by apply inv_set_cell|]. split; [done|].
  split; [done|]. split; [done|]. unfold cell. cbn. by rewrite lookup_insert_eq.
Qed.

(** A request that was served found its upload still on file. *)
Lemma put_served i u n body now r w r' w' :
  transfers_inv r → on_file r i u None → is_token i = token_text n →
  intercept_transfer LOCAL_TRANSFER_AUTHORITY (ht_path (target "upload" (is_token i))) body now r w =
    (Some (UploadOutcome (Ok tt)), r', w') →
  ∃ sg, complete_upload_body u body w = (Ok sg, w') ∧ transfers_inv r' ∧ tr_next r' = tr_next r ∧
    on_file r' i u (Some (Ok sg)).
Proof.
  intros Hi (Hl & Hu & Hv) Hn Hm.
  destruct (remove_expired_spec now r Hi) as (Hi1 & Hn1 & Hc1 & _ & Hsub & _).
  unfold intercept_transfer, claim_transfer in Hm. rewrite Hn, parse_target_target in Hm by auto.
  rewrite (bool_decide_eq_true_2 _ eq_refl : eq_ignore_ascii_case _ _ = true) in Hm. cbn [negb] in Hm.
  rewrite <-Hn in Hm. destruct (tr_by_token (remove_expired now r) !! is_token i) as [i'|] eqn:El; [|done].
  assert (i' = i) as -> by (eapply lookup_weaken in El; [|exact Hsub]; congruence).
  rewrite Hu in Hm. cbn [kind_of serve] in Hm. rewrite bool_decide_eq_true_2 in Hm by done.
  assert (Hv1 : cell (ut_result u) (remove_expired now r) = None)
    by (unfold cell in *; by rewrite Hc1).
  cbn [negb serve] in Hm. rewrite Hv1 in Hm.
  destruct (complete_upload_body u body w) as [[sg|e] w1]; [|done]. injection Hm as <- <-.
  exists sg. split; [done|]. split; [by apply inv_set_cell|]. split; [done|].
  split; [done|]. split; [done|]. unfold cell. cbn. by rewrite lookup_insert_eq.
Qed.

Lemma commit_served i u v now r sg r' :
  transfers_inv r → on_file r i u v → commit_upload (is_token i) now r = (Ok sg, r') →
  v = Some (Ok sg).
Proof.
  intros Hi (Hl & Hu & Hv) Hm.
  destruct (remove_expired_spec now r Hi) as (_ & _ & Hc1 & _ & Hsub & _).
  unfold commit_upload in Hm. destruct (tr_by_token (remove_expired now r) !! is_token i) as [i'|] eqn:El; [|done].
  assert (i' = i) as -> by (eapply lookup_weaken in El; [|exact Hsub]; congruence).
  rewrite Hu in Hm. change (cell (ut_result u) (remove_token _ ?r0)) with (cell (ut_result u) r0) in Hm.
  assert (Hv1 : cell (ut_result u) (remove_expired now r) = v)
    by (unfold cell in *; by rewrite Hc1).
  cbn zeta in Hm. rewrite Hv1 in Hm.
  destruct v; [|done]. by injection Hm as -> _.
Qed.

(** [upload_committed]: an upload that was issued a target is committed, within a quarter of
    an hour, with exactly what its own first request came to: the file its body was staged
    as, or the reason it was refused; whatever other uploads and downloads are issued,
    served, committed or expire before, between and after, and however often the request is
    repeated. *)
Theorem upload_committed store op path size md now0 r0 token t r1 before w1 r2 w2 body now1
    out r3 w3 after r4 w4 now2 :
  transfers_inv r0 →
  tr_next r0 + 1 + Z.of_nat (length before) + Z.of_nat (length after) ≤ u64_max →
  issue_upload store op path size md now0 r0 = (Ok (token, t), r1) →
  exec_all before (r1, w1) = (r2, w2) →
  Forall (λ c, c.1 < now0 + TRANSFER_TTL ∧ ¬ commits token c.2 ∧ ¬ sends token c.2) before →
  intercept_transfer (ht_host t) (ht_path t) body now1 r2 w2 = (out, r3, w3) →
  exec_all after (r3, w3) = (r4, w4) →
  Forall (λ c, c.1 < now0 + TRANSFER_TTL ∧ ¬ commits token c.2) after →
  now1 < now0 + TRANSFER_TTL → now2 < now0 + TRANSFER_TTL →
  ∃ u x, ut_store u = store ∧ ut_operation u = op ∧ ut_path u = path ∧ ut_transfer_size u = size ∧
    ut_metadata u = md ∧ complete_upload_body u body w2 = (x, w3) ∧
    out = Some (UploadOutcome (match x with Ok _ => Ok tt | Err e => Err e end)) ∧
    (commit_upload token now2 r4).1 = x.
Proof.
  intros Hi Hlen Hiss Hb Hbefore Hint Ha Hafter Hn1 Hn2.
  destruct (issue_upload_spec _ _ _ _ _ _ _ _ _ Hi ltac:(lia) Hiss) as (Hi1 & Hx1 & _ & Hnew).
  destruct (Hnew _ _ eq_refl) as (-> & Htok & u & Hu & Hf).
  set (i := {| is_token := token; is_expires_at := now0 + TRANSFER_TTL; is_operation := Upload u |}) in *.
  destruct (exec_all_keeps before r1 w1 r2 w2 i u None Hi1 ltac:(lia) Hb Hf) as (Hi2 & Hx2 & Hf2).
  { eapply Forall_impl; [exact Hbefore|]. cbn. naive_solver. }
  destruct (put_stages i u _ body now1 r2 w2 Hi2 Hf2 Hn1 Htok) as (x & w' & Hc & Hput & Hi3 & Hx3 & Hf3).
  change (ht_host (target "upload" token)) with LOCAL_TRANSFER_AUTHORITY in Hint.
  change (is_token i) with token in Hput. rewrite Hput in Hint. injection Hint as <- <- <-.
  destruct (exec_all_keeps after _ w' r4 w4 i u (Some x) Hi3 ltac:(lia) Ha Hf3) as (Hi4 & _ & Hf4).
  { eapply Forall_impl; [exact Hafter|]. cbn. naive_solver. }
  exists u, x. subst u. split_and!; try done. exact (commit_spec_of i _ (Some x) now2 r4 Hi4 Hf4 Hn2).
Qed.
End calls.
