(* ===== verification/CloudMessages.v ===== *)
(** * CloudMessages: the [Cloud.*#1] messages of Steam's client

    The messages of [steam-protocol/src/lib.rs] that [cloud-rpc] answers, field by field,
    with the names of the methods. Their protobuf coding is a parameter. *)

From Stdlib Require Import ZArith.
From S2P Require Import Prelude RustStd CloudSettings.

Local Open Scope Z_scope.

(** ** Methods *)

Definition GET_CHANGELIST : string := "Cloud.GetAppFileChangelist#1".
Definition BEGIN_HTTP_UPLOAD : string := "Cloud.BeginHTTPUpload#1".
Definition COMMIT_HTTP_UPLOAD : string := "Cloud.CommitHTTPUpload#1".
Definition BEGIN_UGC_UPLOAD : string := "Cloud.BeginUGCUpload#1".
Definition COMMIT_UGC_UPLOAD : string := "Cloud.CommitUGCUpload#1".
Definition GET_FILE_DETAILS : string := "Cloud.GetFileDetails#1".
Definition GET_SINGLE_FILE_INFO : string := "Cloud.GetSingleFileInfo#1".
Definition SHARE_FILE : string := "Cloud.ShareFile#1".
Definition ENUMERATE_USER_FILES : string := "Cloud.EnumerateUserFiles#1".
Definition LEGACY_DELETE : string := "Cloud.Delete#1".
Definition BEGIN_BATCH : string := "Cloud.BeginAppUploadBatch#1".
Definition BEGIN_FILE_UPLOAD : string := "Cloud.ClientBeginFileUpload#1".
Definition COMMIT_FILE_UPLOAD : string := "Cloud.ClientCommitFileUpload#1".
Definition COMPLETE_BATCH : string := "Cloud.CompleteAppUploadBatch#1".
Definition COMPLETE_BATCH_BLOCKING : string := "Cloud.CompleteAppUploadBatchBlocking#1".
Definition FILE_DOWNLOAD : string := "Cloud.ClientFileDownload#1".
Definition DELETE_FILE : string := "Cloud.ClientDeleteFile#1".
Definition QUOTA_USAGE : string := "Cloud.ClientGetAppQuotaUsage#1".
Definition LAUNCH_INTENT : string := "Cloud.SignalAppLaunchIntent#1".
Definition SUSPEND_SESSION : string := "Cloud.SuspendAppSession#1".
Definition RESUME_SESSION : string := "Cloud.ResumeAppSession#1".
Definition EXIT_SYNC_DONE : string := "Cloud.SignalAppExitSyncDone#1".
Definition CONFLICT_RESOLUTION : string := "Cloud.ClientConflictResolution#1".
Definition CDN_REPORT : string := "Cloud.CDNReport#1".
Definition EXTERNAL_TRANSFER_REPORT : string := "Cloud.ExternalStorageTransferReport#1".

Definition ERESULT_OK : Z := 1.
Definition ERESULT_FAIL : Z := 2.
Definition ERESULT_TOO_MANY_PENDING : Z := 108.
Definition HTTP_METHOD_PUT : Z := 4.
Definition RPC_QUEUE_CAPACITY : Z := 64.
Definition RPC_CHANNEL_CAPACITY : Z := RPC_QUEUE_CAPACITY * 2.

(** ** Messages *)

Record CloudCdnReportNotification := {
  cr_steam_id : option Z; cr_url : option string; cr_success : option bool;
  cr_http_status_code : option Z; cr_expected_bytes : option Z; cr_received_bytes : option Z;
  cr_duration : option Z;
}.
Record CloudExternalStorageTransferReportNotification := {
  er_host : option string; er_path : option string; er_is_upload : option bool;
  er_success : option bool; er_http_status_code : option Z; er_bytes_expected : option Z;
  er_bytes_actual : option Z; er_duration_ms : option Z; er_cell_id : option Z;
  er_proxied : option bool; er_ipv6_local : option bool; er_ipv6_remote : option bool;
  er_time_to_connect_ms : option Z; er_time_to_send_request_ms : option Z;
  er_time_to_first_byte_ms : option Z; er_time_to_last_byte_ms : option Z;
}.
Record CloudBeginAppUploadBatchRequest := {
  bb_app_id : option Z; bb_machine_name : option string; bb_files_to_upload : list string;
  bb_files_to_delete : list string; bb_client_id : option Z; bb_app_build_id : option Z;
}.
Record CloudBeginAppUploadBatchResponse := {
  bs_batch_id : option Z; bs_app_change_number : option Z;
}.
Record CloudCompleteAppUploadBatchRequest := {
  cb_app_id : option Z; cb_batch_id : option Z; cb_batch_eresult : option Z;
}.
Record CloudClientBeginFileUploadRequest := {
  bf_app_id : option Z; bf_file_size : option Z; bf_raw_file_size : option Z;
  bf_file_sha : option (list Z); bf_timestamp : option Z; bf_filename : option string;
  bf_platforms_to_sync : option Z; bf_cell_id : option Z; bf_can_encrypt : option bool;
  bf_is_shared_file : option bool; bf_deprecated_realm : option Z; bf_upload_batch_id : option Z;
}.
Record CloudFileUploadBlockDetails := {
  ub_url_host : option string; ub_url_path : option string; ub_use_https : option bool;
  ub_http_method : option Z; ub_request_headers : list CloudHttpHeader;
  ub_block_offset : option Z; ub_block_length : option Z; ub_explicit_body_data : option (list Z);
  ub_may_parallelize : option bool;
}.
Record CloudClientBeginFileUploadResponse := {
  bu_encrypt_file : option bool; bu_block_requests : list CloudFileUploadBlockDetails;
}.
Record CloudClientCommitFileUploadRequest := {
  cf_transfer_succeeded : option bool; cf_app_id : option Z; cf_file_sha : option (list Z);
  cf_filename : option string;
}.
Record CloudClientCommitFileUploadResponse := { cs_file_committed : option bool }.
Record CloudClientFileDownloadRequest := {
  fd_app_id : option Z; fd_filename : option string; fd_realm : option Z;
  fd_force_proxy : option bool;
}.
Record CloudClientFileDownloadResponse := {
  dr_app_id : option Z; dr_file_size : option Z; dr_raw_file_size : option Z;
  dr_sha_file : option (list Z); dr_timestamp : option Z; dr_is_explicit_delete : option bool;
  dr_url_host : option string; dr_url_path : option string; dr_use_https : option bool;
  dr_request_headers : list CloudHttpHeader; dr_encrypted : option bool;
}.
Record CloudClientDeleteFileRequest := {
  df_app_id : option Z; df_filename : option string; df_is_explicit_delete : option bool;
  df_upload_batch_id : option Z;
}.
Record CloudClientConflictResolutionNotification := {
  cn_app_id : option Z; cn_chose_local_files : option bool;
}.
Record CloudGetAppFileChangelistRequest := {
  gc_app_id : option Z; gc_synced_change_number : option Z;
}.
Record CloudAppFileInfo := {
  fi_file_name : option string; fi_sha_file : option (list Z); fi_timestamp : option Z;
  fi_raw_file_size : option Z; fi_persist_state : option Z; fi_platforms_to_sync : option Z;
  fi_path_prefix_index : option Z; fi_machine_name_index : option Z;
  fi_reupload_requested : option bool;
}.
Record CloudGetAppFileChangelistResponse := {
  gr_current_change_number : option Z; gr_files : list CloudAppFileInfo;
  gr_is_only_delta : option bool; gr_path_prefixes : list string; gr_machine_names : list string;
  gr_app_build_id_hwm : option Z;
}.
Record CloudAppSessionSuspendRequest := {
  sr_app_id : option Z; sr_client_id : option Z; sr_machine_name : option string;
  sr_cloud_sync_completed : option bool;
}.
Record CloudAppSessionResumeRequest := { rr_app_id : option Z; rr_client_id : option Z }.
Record CloudAppLaunchIntentRequest := {
  li_app_id : option Z; li_client_id : option Z; li_machine_name : option string;
  li_ignore_pending_operations : option bool; li_os_type : option Z; li_device_type : option Z;
}.
Record CloudPendingRemoteOperation := {
  po_operation : option Z; po_machine_name : option string; po_client_id : option Z;
  po_time_last_updated : option Z; po_os_type : option Z; po_device_type : option Z;
}.
Record CloudAppLaunchIntentResponse := { lr_pending : list CloudPendingRemoteOperation }.
Record CloudAppExitSyncDoneNotification := {
  ex_app_id : option Z; ex_client_id : option Z; ex_uploads_completed : option bool;
  ex_uploads_required : option bool;
}.
Record CloudClientGetAppQuotaUsageRequest := { qu_app_id : option Z }.
Record CloudClientGetAppQuotaUsageResponse := {
  qr_existing_files : option Z; qr_existing_bytes : option Z; qr_max_num_files : option Z;
  qr_max_num_bytes : option Z;
}.

(** ** Coding *)

(** [Message::decode] and [encode_to_vec] for a message. *)
Class Message (M : Type) := {
  decode : list Z → result string M;
  encode_to_vec : M → list Z;
}.

(** prost: decoding inverts encoding. *)
Class MessageLaws (M : Type) `{Message M} := {
  decode_encode : ∀ m : M, decode (encode_to_vec m) = Ok m;
}.

Class CloudMessages := {
  #[global] msg_cdn :: Message CloudCdnReportNotification;
  #[global] msg_external :: Message CloudExternalStorageTransferReportNotification;
  #[global] msg_begin_batch :: Message CloudBeginAppUploadBatchRequest;
  #[global] msg_begin_batch_response :: Message CloudBeginAppUploadBatchResponse;
  #[global] msg_complete :: Message CloudCompleteAppUploadBatchRequest;
  #[global] msg_begin_file :: Message CloudClientBeginFileUploadRequest;
  #[global] msg_begin_file_response :: Message CloudClientBeginFileUploadResponse;
  #[global] msg_commit_file :: Message CloudClientCommitFileUploadRequest;
  #[global] msg_commit_file_response :: Message CloudClientCommitFileUploadResponse;
  #[global] msg_download :: Message CloudClientFileDownloadRequest;
  #[global] msg_download_response :: Message CloudClientFileDownloadResponse;
  #[global] msg_delete :: Message CloudClientDeleteFileRequest;
  #[global] msg_conflict :: Message CloudClientConflictResolutionNotification;
  #[global] msg_changelist :: Message CloudGetAppFileChangelistRequest;
  #[global] msg_changelist_response :: Message CloudGetAppFileChangelistResponse;
  #[global] msg_suspend :: Message CloudAppSessionSuspendRequest;
  #[global] msg_resume :: Message CloudAppSessionResumeRequest;
  #[global] msg_launch :: Message CloudAppLaunchIntentRequest;
  #[global] msg_launch_response :: Message CloudAppLaunchIntentResponse;
  #[global] msg_exit :: Message CloudAppExitSyncDoneNotification;
  #[global] msg_quota :: Message CloudClientGetAppQuotaUsageRequest;
  #[global] msg_quota_response :: Message CloudClientGetAppQuotaUsageResponse;
}.

(** [M::decode(body)?] *)
Definition decode_body {M} `{Message M} (body : list Z) : AR M :=
  match decode body with Ok m => Ok m | Err e => Err (Protobuf e) end.

(** ** Replies *)

Record RpcReply := { re_body : list Z; re_eresult : Z }.
Definition reply_ok (body : list Z) : RpcReply := {| re_body := body; re_eresult := ERESULT_OK |}.

(** The messages without fields encode to nothing. *)
Definition empty_message : list Z := [].
