(* ===== verification/LocalRpc.v ===== *)
(** * LocalRpc: cloud requests answered from the folder ([cloud-rpc/src/local.rs])

    Steam's client asks for the files of an app, opens a batch, uploads and deletes files in
    it, completes it, and signals launches and exits; [execute_local_rpc] answers from the
    account's store. Between requests the adapter keeps which versions it has shown
    ([LocalAppState]) and the open batches ([BatchState], [adapter.rs]).

    A request is a computation over [Sys]: the tree, the issued transfers, the conflict
    coordinator, the inspections asked of the collector and the adapter's own state. An
    error leaves what was changed before it. References to a store are not counted here
    ([StoreOpen] has their life). *)

From Stdlib Require Import ZArith Lia.
From S2P Require Import Prelude RustStd CloudCore FileSystem StoreFiles FolderStore StoreSessions.
From S2P Require Import StoreOpen Syncthing CloudSettings Transfers CloudMessages.
From S2P Require ConflictUi JournalRecord SyncJournal.

Local Open Scope Z_scope.

(** ** The adapter's state ([adapter.rs]) *)

Record CumulusFile := {
  cm_file_id : option Z; cm_path : string; cm_size : Z; cm_sha1 : string; cm_mtime : Z;
  cm_platforms_to_sync : Z;
}.

Record BatchState := {
  ba_app_id : Z;
  ba_upload_paths : gset string;
  ba_delete_paths : gset string;
  ba_files : gmap string string;
  ba_local_files : gmap string StagedFile;
  ba_local_operation : option SaveOperation;
  ba_local_identity : option CommitIdentity;
  ba_conflict_resolution : option (SyncJournal.Queued JournalRecord.ConflictResolutionEvent);
}.

Record LocalConflictState := {
  ls_heads : list string; ls_local_head : option string; ls_remote_head : option string;
}.
Record LocalKeepLocal := { kl_heads : list string; kl_selected_head : string }.

Record LocalAppState := {
  la_identity : CommitIdentity;
  la_verified_heads : list string;
  la_conflict : option LocalConflictState;
  la_pending_keep_local : option LocalKeepLocal;
}.

Record AdapterState := {
  ad_scope : option CloudStateScope;
  ad_current_change_numbers : gmap Z Z;
  ad_client_change_numbers : gmap Z Z;
  ad_active_batches : gmap Z Z;
  ad_batches : gmap Z BatchState;
  ad_local_apps : gmap Z LocalAppState;
  ad_files : gmap (Z * string) CumulusFile;
  ad_principal_scope : option (list Z);
  ad_local_store : option FolderStore;
}.

Definition new_adapter : AdapterState :=
  {| ad_scope := None; ad_current_change_numbers := ∅; ad_client_change_numbers := ∅;
     ad_active_batches := ∅; ad_batches := ∅; ad_local_apps := ∅; ad_files := ∅;
     ad_principal_scope := None; ad_local_store := None |}.

Definition set_change_number (app n : Z) (a : AdapterState) : AdapterState :=
  {| ad_scope := ad_scope a;
     ad_current_change_numbers := <[app := n]> (ad_current_change_numbers a);
     ad_client_change_numbers := ad_client_change_numbers a;
     ad_active_batches := ad_active_batches a; ad_batches := ad_batches a;
     ad_local_apps := ad_local_apps a; ad_files := ad_files a;
     ad_principal_scope := ad_principal_scope a; ad_local_store := ad_local_store a |}.
Definition set_client_number (app n : Z) (a : AdapterState) : AdapterState :=
  {| ad_scope := ad_scope a; ad_current_change_numbers := ad_current_change_numbers a;
     ad_client_change_numbers := <[app := n]> (ad_client_change_numbers a);
     ad_active_batches := ad_active_batches a; ad_batches := ad_batches a;
     ad_local_apps := ad_local_apps a; ad_files := ad_files a;
     ad_principal_scope := ad_principal_scope a; ad_local_store := ad_local_store a |}.
Definition with_batches (active : gmap Z Z) (batches : gmap Z BatchState) (a : AdapterState)
    : AdapterState :=
  {| ad_scope := ad_scope a; ad_current_change_numbers := ad_current_change_numbers a;
     ad_client_change_numbers := ad_client_change_numbers a;
     ad_active_batches := active; ad_batches := batches; ad_local_apps := ad_local_apps a;
     ad_files := ad_files a; ad_principal_scope := ad_principal_scope a;
     ad_local_store := ad_local_store a |}.
Definition with_apps (apps : gmap Z LocalAppState) (a : AdapterState) : AdapterState :=
  {| ad_scope := ad_scope a; ad_current_change_numbers := ad_current_change_numbers a;
     ad_client_change_numbers := ad_client_change_numbers a;
     ad_active_batches := ad_active_batches a; ad_batches := ad_batches a;
     ad_local_apps := apps; ad_files := ad_files a; ad_principal_scope := ad_principal_scope a;
     ad_local_store := ad_local_store a |}.
Definition with_store (s : FolderStore) (a : AdapterState) : AdapterState :=
  {| ad_scope := ad_scope a; ad_current_change_numbers := ad_current_change_numbers a;
     ad_client_change_numbers := ad_client_change_numbers a;
     ad_active_batches := ad_active_batches a; ad_batches := ad_batches a;
     ad_local_apps := ad_local_apps a; ad_files := ad_files a;
     ad_principal_scope := ad_principal_scope a; ad_local_store := Some s |}.

(** Everything transient is forgotten. *)
Definition with_scope (scope : CloudStateScope) : AdapterState :=
  {| ad_scope := Some scope; ad_current_change_numbers := ∅; ad_client_change_numbers := ∅;
     ad_active_batches := ∅; ad_batches := ∅; ad_local_apps := ∅; ad_files := ∅;
     ad_principal_scope := None; ad_local_store := None |}.

Definition find_batch_id (a : AdapterState) (app_id : Z) (requested : option Z) : AR Z :=
  match (match requested with Some id => Some id | None => ad_active_batches a !! app_id end) with
  | None => Err (Protocol "no active upload batch")
  | Some batch_id =>
      match ad_batches a !! batch_id with
      | None => Err (Protocol "unknown upload batch")
      | Some batch =>
          if negb (ba_app_id batch =? app_id)
          then Err (Protocol "upload batch belongs to another app") else Ok batch_id
      end
  end.

(** The part up to the last slash, and the rest. *)
Fixpoint rsplit_slash (l : list Z) : option (list Z * list Z) :=
  match l with
  | [] => None
  | c :: l =>
      match rsplit_slash l with
      | Some (prefix, leaf) => Some (c :: prefix, leaf)
      | None => if c =? 47 then Some ([], l) else None
      end
  end.
Definition split_cloud_path (path : string) : string * string :=
  match rsplit_slash (str_bytes path) with
  | Some (prefix, leaf) => (bytes_str (prefix ++ [47]), bytes_str leaf)
  | None => ("", path)
  end.

(** ** The state of a request *)

Record Sys := {
  sys_world : World;
  sys_registry : Registry;
  sys_transfers : TransferRegistry;
  sys_conflicts : ConflictUi.LocalConflictCoordinator;
  sys_inspections : list (FolderStore * Z * option SyncthingGcConfig);
  sys_next_batch : Z;
  sys_adapter : AdapterState;
}.

Definition with_world (w : World) (y : Sys) : Sys :=
  {| sys_world := w; sys_registry := sys_registry y; sys_transfers := sys_transfers y;
     sys_conflicts := sys_conflicts y; sys_inspections := sys_inspections y;
     sys_next_batch := sys_next_batch y; sys_adapter := sys_adapter y |}.
Definition with_registry (r : Registry) (y : Sys) : Sys :=
  {| sys_world := sys_world y; sys_registry := r; sys_transfers := sys_transfers y;
     sys_conflicts := sys_conflicts y; sys_inspections := sys_inspections y;
     sys_next_batch := sys_next_batch y; sys_adapter := sys_adapter y |}.
Definition with_transfers (t : TransferRegistry) (y : Sys) : Sys :=
  {| sys_world := sys_world y; sys_registry := sys_registry y; sys_transfers := t;
     sys_conflicts := sys_conflicts y; sys_inspections := sys_inspections y;
     sys_next_batch := sys_next_batch y; sys_adapter := sys_adapter y |}.
Definition with_conflicts (c : ConflictUi.LocalConflictCoordinator) (y : Sys) : Sys :=
  {| sys_world := sys_world y; sys_registry := sys_registry y; sys_transfers := sys_transfers y;
     sys_conflicts := c; sys_inspections := sys_inspections y;
     sys_next_batch := sys_next_batch y; sys_adapter := sys_adapter y |}.
Definition with_adapter (a : AdapterState) (y : Sys) : Sys :=
  {| sys_world := sys_world y; sys_registry := sys_registry y; sys_transfers := sys_transfers y;
     sys_conflicts := sys_conflicts y; sys_inspections := sys_inspections y;
     sys_next_batch := sys_next_batch y; sys_adapter := a |}.

Definition RPC (A : Type) : Type := Sys → AR A * Sys.

#[export] Instance RPC_ret : MRet RPC := λ A a y, (Ok a, y).
#[export] Instance RPC_bind : MBind RPC := λ A B k m y,
  match m y with (Ok a, y') => k a y' | (Err e, y') => (Err e, y') end.

Definition fail {A} (e : AdapterError) : RPC A := λ y, (Err e, y).
Definition protocol_error {A} (message : string) : RPC A := fail (Protocol message).
Definition check {A} (r : AR A) : RPC A := λ y, (r, y).
Definition adapter : RPC AdapterState := λ y, (Ok (sys_adapter y), y).
Definition update (f : AdapterState → AdapterState) : RPC unit := λ y,
  (Ok tt, with_adapter (f (sys_adapter y)) y).
(** A call of the store, [?] *)
Definition on_store {A} (m : Op A) : RPC A := λ y,
  let '(r, w) := m (sys_world y) in
  (match r with Ok a => Ok a | Err e => Err (Backend e) end, with_world w y).
(** A call of the store whose failure is only logged. *)
Definition try_store {A} (m : Op A) : RPC (BR A) := λ y,
  let '(r, w) := m (sys_world y) in (Ok r, with_world w y).

(** [next_batch_id] *)
Definition next_batch_id : RPC Z := λ y,
  (Ok (sys_next_batch y),
   {| sys_world := sys_world y; sys_registry := sys_registry y; sys_transfers := sys_transfers y;
      sys_conflicts := sys_conflicts y; sys_inspections := sys_inspections y;
      sys_next_batch := u64_wrapping_add (sys_next_batch y) 1; sys_adapter := sys_adapter y |}).

(** [LocalGcCoordinator::queue_inspection] is asked to inspect an app. *)
Definition queue_inspection (s : FolderStore) (app_id : Z) (c : option SyncthingGcConfig)
    : RPC unit := λ y,
  (Ok tt,
   {| sys_world := sys_world y; sys_registry := sys_registry y; sys_transfers := sys_transfers y;
      sys_conflicts := sys_conflicts y; sys_inspections := sys_inspections y ++ [(s, app_id, c)];
      sys_next_batch := sys_next_batch y; sys_adapter := sys_adapter y |}).

(** ** Helpers *)

Definition local_app_id (app_id : option Z) : AR Z :=
  app_id ← required app_id "appid";
  if app_id =? 0 then Err (Protocol "local cloud does not support account-scope AppID 0")
  else Ok app_id.

Definition blank (name : string) : bool := bool_decide (trimmed name = "").

Definition client_mismatch (expected actual : Z) : string :=
  "local cloud request ClientID does not match the active Steam device: expected "
  ++ bytes_str (dec_text expected) ++ ", received " ++ bytes_str (dec_text actual).

Definition identity_for (settings : CloudSettings) (request_client_id : option Z)
    (machine_name : option string) : AR CommitIdentity :=
  let settings_client_id := nonzero (cs_steam_client_id settings) in
  let request_client_id := nonzero request_client_id in
  _ ← match settings_client_id, request_client_id with
      | Some expected, Some actual =>
          if negb (expected =? actual) then Err (Protocol (client_mismatch expected actual))
          else Ok tt
      | _, _ => Ok tt
      end;
  client_id ← match request_client_id, settings_client_id with
              | Some id, _ | None, Some id => Ok id
              | None, None => Err (Protocol "local cloud Steam ClientID is unavailable")
              end;
  let given := name ← machine_name; if blank name then None else Some name in
  let own := if bool_decide (cs_steam_client_id settings = Some client_id)
             then cs_steam_machine_name settings else None in
  match given, own with
  | Some name, _ | None, Some name => Ok {| ci_client_id := client_id; ci_machine_name := name |}
  | None, None => Err (Protocol "local cloud machine name is unavailable")
  end.

Definition conflict_from_view (v : StoreView) (client_id : Z) : option LocalConflictState :=
  if negb (is_conflicted v) then None
  else
    let local := filter (λ h, mc_client_id h = client_id) (sv_heads v) in
    let '(local_head, remote_head) :=
      match sv_heads v, local with
      | [_; _], [l] =>
          (Some (mc_id l), snd <$> list_find (λ id, id ≠ mc_id l) (mc_id <$> sv_heads v))
      | _, _ => (None, None)
      end in
    Some {| ls_heads := head_ids v; ls_local_head := local_head; ls_remote_head := remote_head |}.

Definition update_local_identity (app_id : Z) (identity : CommitIdentity) : RPC unit :=
  update (λ a, with_apps
    (alter (λ app, {| la_identity := identity; la_verified_heads := la_verified_heads app;
                      la_conflict := la_conflict app;
                      la_pending_keep_local := la_pending_keep_local app |})
       app_id (ad_local_apps a)) a).

(** The index of a prefix in the table built so far. *)
Definition prefix_index (prefix : string) (prefixes : list string) (indexes : gmap string Z)
    : Z * list string * gmap string Z :=
  match indexes !! prefix with
  | Some index => (index, prefixes, indexes)
  | None =>
      let index := as_u32 (Z.of_nat (length prefixes)) in
      (index, prefixes ++ [prefix], <[prefix := index]> indexes)
  end.

Definition file_info (path : string) (file : option FileEntry) (persist_state : Z)
    (prefixes : list string) (indexes : gmap string Z)
    : AR (CloudAppFileInfo * list string * gmap string Z) :=
  let '(prefix, leaf) := split_cloud_path path in
  let '(index, prefixes, indexes) := prefix_index prefix prefixes indexes in
  sha ← match file with
        | None => Ok None
        | Some e => Some <$> hex_to_bytes (fm_sha1 (fe_metadata e))
        end;
  timestamp ← match file with
              | None => Ok None
              | Some e => if fm_mtime (fe_metadata e) <? 0
                          then Err (Protocol "local cloud timestamp is negative")
                          else Ok (Some (fm_mtime (fe_metadata e)))
              end;
  size ← match file with
         | None => Ok None
         | Some e => if u32_max <? fm_raw_size (fe_metadata e)
                     then Err (Protocol "local cloud file exceeds Steam size range")
                     else Ok (Some (fm_raw_size (fe_metadata e)))
         end;
  Ok ({| fi_file_name := Some leaf; fi_sha_file := sha; fi_timestamp := timestamp;
         fi_raw_file_size := size; fi_persist_state := Some persist_state;
         fi_platforms_to_sync :=
           Some (match file with
                 | None => u32_max
                 | Some e => fm_platforms_to_sync (fe_metadata e)
                 end);
         fi_path_prefix_index := Some index; fi_machine_name_index := Some 0;
         fi_reupload_requested := None |}, prefixes, indexes).

(** The loop over the changed files, then the deleted paths. *)
Fixpoint file_infos (l : list (string * option FileEntry)) (prefixes : list string)
    (indexes : gmap string Z) : AR (list CloudAppFileInfo * list string) :=
  match l with
  | [] => Ok ([], prefixes)
  | (path, file) :: l =>
      '(info, prefixes, indexes) ←
        file_info path file (match file with Some _ => 0 | None => 2 end) prefixes indexes;
      '(rest, prefixes) ← file_infos l prefixes indexes;
      Ok (info :: rest, prefixes)
  end.

(** The first path of a batch that has no staged file, in the order of [BTreeSet]. *)
Definition missing_upload (b : BatchState) : option string :=
  snd <$> list_find (λ path, ba_local_files b !! path = None)
            (sort_by_key id (elements (ba_upload_paths b))).

(** ** The requests *)

Section requests.
Context {H : Host} {C : StoreCodec} {FC : FormatCodec} {SeC : SessionCodec} {SC : SyncthingCodec}.
Context {M : CloudMessages}.
(** The HTTP library, the working directory and the device of a path. *)
Context (http : nat → HttpRequest → Node → HttpAnswer * Node) (cwd : Path) (device : Path → Z).
(** The monotonic clock, and the order of a hash map. *)
Context (instant : nat → Z) (file_order : gmap string StagedFile → list StagedFile).

Definition now : RPC Z := λ y, (Ok (instant (w_calls (sys_world y))), y).

(** ** [AdapterState::prepare] *)

Fixpoint abort_operations (l : list BatchState) : RPC unit :=
  match l with
  | [] => mret tt
  | b :: l =>
      _ ← match ba_local_operation b with
          | Some operation => _ ← try_store (abort operation); mret tt
          | None => mret tt
          end;
      abort_operations l
  end.

Definition prepare (batch_order : gmap Z BatchState → list BatchState) (settings : CloudSettings)
    : RPC unit :=
  a ← adapter;
  let scope := from_settings sha256 settings in
  if bool_decide (ad_scope a = Some scope) then mret tt
  else
    _ ← abort_operations (batch_order (ad_batches a));
    update (λ _, with_scope scope).

(** ** Reading *)

Definition ensure_syncthing_ready (settings : CloudSettings) (s : FolderStore) (app_id : Z)
    : RPC unit :=
  match cs_syncthing settings with
  | Some c => on_store (ensure_ready_for_app http cwd c (st_root s) (manifest_scope s app_id))
  | None => mret tt
  end.

Definition changelist_barrier (change_number : Z) : RpcReply :=
  reply_ok (encode_to_vec {|
    gr_current_change_number := Some change_number; gr_files := []; gr_is_only_delta := Some false;
    gr_path_prefixes := []; gr_machine_names := []; gr_app_build_id_hwm := Some 0 |}).

(** The remote version Steam's own dialog can offer: at least as new as what it has. *)
Definition stock_remote (v : StoreView) (conflict : option LocalConflictState) (synced : Z)
    : option string :=
  head ← conflict ≫= ls_remote_head;
  '(_, _) ← list_find (λ c, mc_id c = head ∧ synced ≤ mc_revision c) (sv_heads v);
  Some head.

Definition register_conflict (settings : CloudSettings) (app_id : Z) (identity : CommitIdentity)
    (v : StoreView) (required : bool) (minimum : Z) : RPC unit := λ y,
  let c := sys_conflicts y in
  let '(s, signal) :=
    ConflictUi.register settings app_id identity v required minimum (ConflictUi.lo_state c) in
  (Ok tt, with_conflicts (ConflictUi.under_lock s signal c) y).

Definition arm_conflict (settings : CloudSettings) (app_id : Z) (identity : CommitIdentity)
    (v : StoreView) (required : bool) (minimum : Z) : RPC bool := λ y,
  let c := sys_conflicts y in
  let '(armed, s, signal) :=
    ConflictUi.arm settings app_id identity v required minimum (ConflictUi.lo_state c) in
  (Ok armed, with_conflicts (ConflictUi.under_lock s signal c) y).

Definition changelist (settings : CloudSettings) (s : FolderStore) (body : list Z) : RPC RpcReply :=
  request ← check (decode_body (M := CloudGetAppFileChangelistRequest) body);
  app_id ← check (local_app_id (gc_app_id request));
  let synced := default 0 (gc_synced_change_number request) in
  identity ← check (identity_for settings None None);
  v ← on_store (view s app_id);
  v ← (if is_conflicted v then
         resolved ← on_store (resolve_identical_heads s app_id identity);
         match resolved with
         | Some _ =>
             _ ← queue_inspection s app_id (cs_syncthing settings);
             on_store (view s app_id)
         | None => mret v
         end
       else mret v);
  let conflict := conflict_from_view v (ci_client_id identity) in
  let stock := stock_remote v conflict synced in
  let custom_resolution :=
    is_conflicted v && ((2 <? length (sv_heads v))%nat || bool_decide (stock = None)) in
  _ ← register_conflict settings app_id identity v custom_resolution synced;
  _ ← update (λ a, with_apps (<[app_id := {|
        la_identity := identity; la_verified_heads := head_ids v; la_conflict := conflict;
        la_pending_keep_local := None |}]> (ad_local_apps a)) a);
  if custom_resolution then
    _ ← update (set_change_number app_id synced);
    _ ← update (set_client_number app_id synced);
    mret (changelist_barrier synced)
  else
    changes ← on_store (match stock with
                        | Some head => changes_from_head s app_id head synced
                        | None => changes_since s app_id synced
                        end);
    _ ← update (set_change_number app_id (cl_current_change_number changes));
    _ ← update (set_client_number app_id synced);
    '(files, prefixes) ← check (file_infos
        (((λ f, (fe_path f, Some f)) <$> cl_files changes)
         ++ ((λ p, (p, None)) <$> cl_deleted_paths changes)) [] ∅);
    mret (reply_ok (encode_to_vec {|
      gr_current_change_number := Some (cl_current_change_number changes); gr_files := files;
      gr_is_only_delta := Some (cl_is_delta changes); gr_path_prefixes := prefixes;
      gr_machine_names := if bool_decide (length files = 0%nat) then [] else ["Local folder"];
      gr_app_build_id_hwm := Some 0 |})).

Definition quota_usage (s : FolderStore) (body : list Z) : RPC RpcReply :=
  request ← check (decode_body (M := CloudClientGetAppQuotaUsageRequest) body);
  app_id ← check (required (qu_app_id request) "appid");
  q ← on_store (quota s app_id);
  mret (reply_ok (encode_to_vec {|
    qr_existing_files := Some (qt_used_files q); qr_existing_bytes := Some (qt_used_bytes q);
    qr_max_num_files := Some (qt_total_files q); qr_max_num_bytes := Some (qt_total_bytes q) |})).

Definition file_download (s : FolderStore) (body : list Z) : RPC RpcReply :=
  request ← check (decode_body (M := CloudClientFileDownloadRequest) body);
  app_id ← check (required (fd_app_id request) "appid");
  path ← check (required (fd_filename request) "filename");
  time ← now;
  '(md, t) ← (λ y, match issue_download s app_id path time (sys_transfers y) (sys_world y) with
                   | (Ok x, r, w) => (Ok x, with_transfers r (with_world w y))
                   | (Err e, r, w) => (Err (Backend e), with_transfers r (with_world w y))
                   end : AR (FileMetadata * HttpTarget) * Sys);
  _ ← check (if u32_max <? fm_raw_size md
             then Err (Protocol "local cloud file exceeds Steam size range") else Ok tt);
  sha ← check (hex_to_bytes (fm_sha1 md));
  _ ← check (if fm_mtime md <? 0 then Err (Protocol "local cloud timestamp is negative") else Ok tt);
  mret (reply_ok (encode_to_vec {|
    dr_app_id := Some app_id; dr_file_size := Some (fm_raw_size md);
    dr_raw_file_size := Some (fm_raw_size md); dr_sha_file := Some sha;
    dr_timestamp := Some (fm_mtime md); dr_is_explicit_delete := Some false;
    dr_url_host := Some (ht_host t); dr_url_path := Some (ht_path t); dr_use_https := Some false;
    dr_request_headers := []; dr_encrypted := Some false |})).

(** ** Batches *)

(** The heads a batch starts from, and the ones it resolves. *)
Definition batch_base (v : StoreView) (app : LocalAppState)
    : AR (list string * option (list string)) :=
  match la_pending_keep_local app with
  | Some resolution =>
      if negb (bool_decide (head_ids v = kl_heads resolution))
      then Err (Protocol "local conflict heads changed before the upload batch")
      else Ok ([kl_selected_head resolution], Some (kl_heads resolution))
  | None =>
      if is_conflicted v then Err (Protocol "ordinary upload cannot cover unresolved manifest heads")
      else if negb (bool_decide (head_ids v = la_verified_heads app))
      then Err (Protocol "local cloud changed after the verified view")
      else Ok (head_ids v, None)
  end.

(** The batch still open for the app is given up. *)
Definition abandon_batch (app_id : Z) : RPC unit :=
  a ← adapter;
  match ad_active_batches a !! app_id with
  | None => mret tt
  | Some previous =>
      _ ← update (λ a, with_batches (delete app_id (ad_active_batches a)) (ad_batches a) a);
      _ ← match ad_batches a !! previous ≫= ba_local_operation with
          | Some operation => on_store (abort operation)
          | None => mret tt
          end;
      update (λ a, with_batches (ad_active_batches a) (delete previous (ad_batches a)) a)
  end.

Definition begin_batch (settings : CloudSettings) (s : FolderStore) (body : list Z) : RPC RpcReply :=
  request ← check (decode_body (M := CloudBeginAppUploadBatchRequest) body);
  app_id ← check (local_app_id (bb_app_id request));
  identity ← check (identity_for settings (bb_client_id request) (bb_machine_name request));
  a ← adapter;
  app ← check (match ad_local_apps a !! app_id with
               | Some app => Ok app
               | None => Err (Protocol "upload started before a verified local cloud view")
               end);
  _ ← check (if negb (ci_client_id (la_identity app) =? ci_client_id identity)
             then Err (Protocol "upload ClientID does not match the verified local cloud view")
             else Ok tt);
  v ← on_store (view s app_id);
  '(base_heads, resolution_heads) ← check (batch_base v app);
  _ ← abandon_batch app_id;
  operation ← on_store (begin_operation s app_id base_heads resolution_heads);
  batch_id ← next_batch_id;
  _ ← update (λ a, with_batches (<[app_id := batch_id]> (ad_active_batches a))
                     (<[batch_id := {|
                        ba_app_id := app_id;
                        ba_upload_paths := list_to_set (bb_files_to_upload request);
                        ba_delete_paths := list_to_set (bb_files_to_delete request);
                        ba_files := ∅; ba_local_files := ∅; ba_local_operation := Some operation;
                        ba_local_identity := Some identity;
                        ba_conflict_resolution := None |}]> (ad_batches a)) a);
  mret (reply_ok (encode_to_vec {|
    bs_batch_id := Some batch_id;
    bs_app_change_number := Some (default (sv_max_revision v) (sv_current_change_number v)) |})).

Definition upload_metadata (request : CloudClientBeginFileUploadRequest) (sha1 : string)
    : AR FileMetadata :=
  let timestamp := default 0 (bf_timestamp request) in
  if i64_max <? timestamp then Err (Protocol "timestamp exceeds local range")
  else
    Ok {| fm_sha1 := sha1;
          fm_raw_size :=
            match bf_raw_file_size request with
            | Some size => size
            | None => default 0 (bf_file_size request)
            end;
          fm_mtime := timestamp;
          fm_platforms_to_sync := default u32_max (bf_platforms_to_sync request) |}.

Definition set_batch_file (batch_id : Z) (path token : string) : RPC unit :=
  update (λ a, with_batches (ad_active_batches a)
    (alter (λ b, {| ba_app_id := ba_app_id b; ba_upload_paths := ba_upload_paths b;
                    ba_delete_paths := ba_delete_paths b;
                    ba_files := <[path := token]> (ba_files b); ba_local_files := ba_local_files b;
                    ba_local_operation := ba_local_operation b;
                    ba_local_identity := ba_local_identity b;
                    ba_conflict_resolution := ba_conflict_resolution b |}) batch_id (ad_batches a)) a).

Definition begin_file_upload (s : FolderStore) (body : list Z) : RPC RpcReply :=
  request ← check (decode_body (M := CloudClientBeginFileUploadRequest) body);
  app_id ← check (required (bf_app_id request) "appid");
  path ← check (required (bf_filename request) "filename");
  a ← adapter;
  batch_id ← check (find_batch_id a app_id (bf_upload_batch_id request));
  batch ← check (match ad_batches a !! batch_id with
                 | Some b => Ok b
                 | None => Err (Protocol "unknown upload batch")
                 end);
  _ ← check (if negb (bool_decide (path ∈ ba_upload_paths batch))
             then Err (Protocol ("file was not listed in BeginAppUploadBatch: " ++ path))
             else Ok tt);
  let transfer_size := default 0 (bf_file_size request) in
  file_sha ← check (required (bf_file_sha request) "file_sha");
  let sha1 := bytes_to_hex file_sha in
  _ ← check (if negb (str_len sha1 =? 40) then Err (Protocol "file_sha is not a SHA-1") else Ok tt);
  md ← check (upload_metadata request sha1);
  operation ← check (match ba_local_operation batch with
                     | Some operation => Ok operation
                     | None => Err (Protocol "local upload batch has no storage operation")
                     end);
  time ← now;
  '(token, t) ← (λ y, match issue_upload s operation path transfer_size md time (sys_transfers y) with
                      | (Ok x, r) => (Ok x, with_transfers r y)
                      | (Err e, r) => (Err (Backend e), with_transfers r y)
                      end : AR (string * HttpTarget) * Sys);
  _ ← set_batch_file batch_id path token;
  _ ← check (if u32_max <? transfer_size
             then Err (Protocol "local upload exceeds Steam block range") else Ok tt);
  mret (reply_ok (encode_to_vec {|
    bu_encrypt_file := Some false;
    bu_block_requests := [{|
      ub_url_host := Some (ht_host t); ub_url_path := Some (ht_path t); ub_use_https := Some false;
      ub_http_method := Some HTTP_METHOD_PUT; ub_request_headers := [];
      ub_block_offset := Some 0; ub_block_length := Some transfer_size;
      ub_explicit_body_data := None; ub_may_parallelize := Some false |}] |})).

Definition set_staged (batch_id : Z) (path : string) (staged : StagedFile) : RPC unit :=
  update (λ a, with_batches (ad_active_batches a)
    (alter (λ b, {| ba_app_id := ba_app_id b; ba_upload_paths := ba_upload_paths b;
                    ba_delete_paths := ba_delete_paths b; ba_files := ba_files b;
                    ba_local_files := <[path := staged]> (ba_local_files b);
                    ba_local_operation := ba_local_operation b;
                    ba_local_identity := ba_local_identity b;
                    ba_conflict_resolution := ba_conflict_resolution b |}) batch_id (ad_batches a)) a).

Definition commit_file_upload (body : list Z) : RPC RpcReply :=
  request ← check (decode_body (M := CloudClientCommitFileUploadRequest) body);
  app_id ← check (required (cf_app_id request) "appid");
  path ← check (required (cf_filename request) "filename");
  a ← adapter;
  batch_id ← check (find_batch_id a app_id None);
  token ← check (match ad_batches a !! batch_id ≫= (λ b, ba_files b !! path) with
                 | Some token => Ok token
                 | None => Err (Protocol "upload was not begun for this file")
                 end);
  committed ←
    (if default false (cf_transfer_succeeded request) then
       time ← now;
       staged ← (λ y, let '(x, r) := commit_upload token time (sys_transfers y) in
                      (Ok x, with_transfers r y) : AR (BR StagedFile) * Sys);
       match staged with
       | Ok staged => _ ← set_staged batch_id path staged; mret true
       | Err _ => mret false
       end
     else mret false);
  mret (reply_ok (encode_to_vec {| cs_file_committed := Some committed |})).

(** After a commit the adapter has seen the new heads. *)
Definition see_commit (app_id : Z) (identity : CommitIdentity) (v : StoreView) : RPC unit :=
  update (λ a, with_apps
    (alter (λ _, {| la_identity := identity; la_verified_heads := head_ids v;
                    la_conflict := conflict_from_view v (ci_client_id identity);
                    la_pending_keep_local := None |}) app_id (ad_local_apps a)) a).

(** What a complete batch commits. *)
Definition batch_parts (b : BatchState)
    : AR (list StagedFile * gset string * CommitIdentity * SaveOperation) :=
  match missing_upload b with
  | Some path =>
      Err (Protocol ("upload batch completed before file was committed: " ++ path))
  | None =>
      identity ← match ba_local_identity b with
                 | Some identity => Ok identity
                 | None => Err (Protocol "local upload batch has no bound identity")
                 end;
      operation ← match ba_local_operation b with
                  | Some operation => Ok operation
                  | None => Err (Protocol "local upload batch has no storage operation")
                  end;
      Ok (file_order (ba_local_files b), ba_delete_paths b, identity, operation)
  end.

Definition complete_batch (settings : CloudSettings) (s : FolderStore) (body : list Z)
    : RPC RpcReply :=
  request ← check (decode_body (M := CloudCompleteAppUploadBatchRequest) body);
  app_id ← check (required (cb_app_id request) "appid");
  a ← adapter;
  batch_id ← check (find_batch_id a app_id (cb_batch_id request));
  _ ← (if default 0 (cb_batch_eresult request) =? ERESULT_OK then
         batch ← check (match ad_batches a !! batch_id with
                        | Some b => Ok b
                        | None => Err (Protocol "unknown upload batch")
                        end);
         '(staged, deleted, identity, operation) ← check (batch_parts batch);
         change_number ← on_store (commit_operation s operation staged deleted identity);
         _ ← update (set_change_number app_id change_number);
         _ ← update (λ a, with_batches (delete app_id (ad_active_batches a))
                            (delete batch_id (ad_batches a)) a);
         v ← try_store (view s app_id);
         _ ← match v with Ok v => see_commit app_id identity v | Err _ => mret tt end;
         queue_inspection s app_id (cs_syncthing settings)
       else
         _ ← update (λ a, with_batches (delete app_id (ad_active_batches a))
                            (delete batch_id (ad_batches a)) a);
         match ad_batches a !! batch_id ≫= ba_local_operation with
         | Some operation => on_store (abort operation)
         | None => mret tt
         end);
  mret (reply_ok empty_message).

Definition delete_file (body : list Z) : RPC RpcReply :=
  request ← check (decode_body (M := CloudClientDeleteFileRequest) body);
  app_id ← check (required (df_app_id request) "appid");
  path ← check (required (df_filename request) "filename");
  a ← adapter;
  batch_id ← check (find_batch_id a app_id (df_upload_batch_id request));
  _ ← check (match ad_batches a !! batch_id with
             | Some b => if bool_decide (path ∈ ba_delete_paths b) then Ok tt
                         else Err (Protocol ("file was not listed for deletion: " ++ path))
             | None => Err (Protocol ("file was not listed for deletion: " ++ path))
             end);
  mret (reply_ok empty_message).

(** ** Conflicts Steam settles itself *)

Definition conflict_resolution (settings : CloudSettings) (s : FolderStore) (body : list Z)
    : RPC RpcReply :=
  request ← check (decode_body (M := CloudClientConflictResolutionNotification) body);
  app_id ← check (local_app_id (cn_app_id request));
  a ← adapter;
  app ← check (match ad_local_apps a !! app_id with
               | Some app => Ok app
               | None => Err (Protocol "local conflict choice has no bound launch context")
               end);
  conflict ← check (match la_conflict app with
                    | Some conflict => Ok conflict
                    | None => Err (Protocol "local conflict choice has no active manifest conflict")
                    end);
  v ← on_store (view s app_id);
  _ ← check (if negb (bool_decide (ls_heads conflict = head_ids v))
             then Err (Protocol "local conflict heads changed before the Steam choice") else Ok tt);
  _ ← (if default false (cn_chose_local_files request) then
         selected ← check (match ls_local_head conflict with
                           | Some head => Ok head
                           | None => Err (Protocol "Steam local side does not identify one manifest")
                           end);
         update (λ a, with_apps (<[app_id := {|
           la_identity := la_identity app; la_verified_heads := la_verified_heads app;
           la_conflict := la_conflict app;
           la_pending_keep_local :=
             Some {| kl_heads := ls_heads conflict; kl_selected_head := selected |} |}]>
           (ad_local_apps a)) a)
       else
         selected ← check (match ls_remote_head conflict with
                           | Some head => Ok head
                           | None => Err (Protocol "Steam cloud side does not identify one manifest")
                           end);
         identity ← check (identity_for settings (Some (ci_client_id (la_identity app)))
                             (Some (ci_machine_name (la_identity app))));
         change_number ← on_store (resolve_to_manifest s app_id (ls_heads conflict) selected identity 0);
         _ ← update (set_change_number app_id change_number);
         (* [app.identity] is set before the view is taken *)
         _ ← update_local_identity app_id identity;
         v ← on_store (view s app_id);
         _ ← update (λ a, with_apps (<[app_id := {|
               la_identity := identity; la_verified_heads := head_ids v; la_conflict := None;
               la_pending_keep_local := None |}]> (ad_local_apps a)) a);
         queue_inspection s app_id (cs_syncthing settings));
  mret (reply_ok []).

(** ** Launches and sessions *)

Definition pending_peer (peer : SessionPeer) : CloudPendingRemoteOperation :=
  {| po_operation := Some 1; po_machine_name := Some (sx_machine_name peer);
     po_client_id := Some (sx_client_id peer);
     po_time_last_updated := Some (sx_time_last_updated peer);
     po_os_type := sx_os_type peer; po_device_type := sx_device_type peer |}.

(** The latest of the versions, in seconds. *)
Definition versions_time (v : StoreView) : Z :=
  default 0 (max_id ((λ h, Z.min (mc_created_at_ms h / 1000) u32_max) <$> sv_heads v)).

Definition see_launch (app_id : Z) (identity : CommitIdentity) (v : StoreView)
    (conflict : option LocalConflictState) (a : AdapterState) : AdapterState :=
  let keep := match ad_local_apps a !! app_id with
              | Some app => if bool_decide (la_verified_heads app = head_ids v)
                            then la_pending_keep_local app else None
              | None => None
              end in
  with_apps (<[app_id := {| la_identity := identity; la_verified_heads := head_ids v;
                            la_conflict := conflict; la_pending_keep_local := keep |}]>
               (ad_local_apps a)) a.

Definition launch (settings : CloudSettings) (s : FolderStore) (body : list Z) : RPC RpcReply :=
  request ← check (decode_body (M := CloudAppLaunchIntentRequest) body);
  app_id ← check (local_app_id (li_app_id request));
  identity ← check (identity_for settings (li_client_id request) (li_machine_name request));
  v ← on_store (view s app_id);
  _ ← queue_inspection s app_id (cs_syncthing settings);
  let conflict := conflict_from_view v (ci_client_id identity) in
  let custom_resolution :=
    is_conflicted v && ((2 <? length (sv_heads v))%nat
                        || bool_decide (conflict ≫= ls_remote_head = None)) in
  _ ← (λ y, if custom_resolution && negb (ConflictUi.lo_ui_ready (sys_conflicts y))
            then (Err (Protocol "local cloud conflict UI is unavailable"), y) else (Ok tt, y)
       : AR unit * Sys);
  a ← adapter;
  let minimum_revision := default 0 (ad_client_change_numbers a !! app_id) in
  custom_pending ← arm_conflict settings app_id identity v custom_resolution minimum_revision;
  peers ← (if custom_pending : bool then mret []
           else on_store (launch_session s app_id identity (li_os_type request)
                            (li_device_type request)
                            (default false (li_ignore_pending_operations request))));
  let pending :=
    (pending_peer <$> peers)
    ++ (if custom_pending : bool then
          [{| po_operation := Some 1; po_machine_name := Some "Multiple saved versions";
              po_client_id := Some 0; po_time_last_updated := Some (versions_time v);
              po_os_type := li_os_type request; po_device_type := li_device_type request |}]
        else []) in
  _ ← update (see_launch app_id identity v conflict);
  mret {| re_body := encode_to_vec {| lr_pending := pending |};
          re_eresult := if bool_decide (length pending = 0%nat) then ERESULT_OK
                        else ERESULT_TOO_MANY_PENDING |}.

Definition known_machine (a : AdapterState) (app_id : Z) : option string :=
  (λ app, ci_machine_name (la_identity app)) <$> ad_local_apps a !! app_id.

Definition suspend (settings : CloudSettings) (s : FolderStore) (body : list Z) : RPC RpcReply :=
  request ← check (decode_body (M := CloudAppSessionSuspendRequest) body);
  app_id ← check (local_app_id (sr_app_id request));
  a ← adapter;
  let machine_name := match sr_machine_name request with
                      | Some name => Some name
                      | None => known_machine a app_id
                      end in
  identity ← check (identity_for settings (sr_client_id request) machine_name);
  _ ← on_store (suspend_session s app_id identity);
  _ ← update_local_identity app_id identity;
  mret (reply_ok empty_message).

Definition resume (settings : CloudSettings) (s : FolderStore) (body : list Z) : RPC RpcReply :=
  request ← check (decode_body (M := CloudAppSessionResumeRequest) body);
  app_id ← check (local_app_id (rr_app_id request));
  a ← adapter;
  identity ← check (identity_for settings (rr_client_id request) (known_machine a app_id));
  _ ← on_store (resume_session s app_id identity);
  _ ← update_local_identity app_id identity;
  mret (reply_ok empty_message).

Definition exit (settings : CloudSettings) (s : FolderStore) (body : list Z) : RPC RpcReply :=
  request ← check (decode_body (M := CloudAppExitSyncDoneNotification) body);
  app_id ← check (local_app_id (ex_app_id request));
  a ← adapter;
  identity ← check (identity_for settings (ex_client_id request) (known_machine a app_id));
  _ ← on_store (exit_session s app_id identity);
  _ ← update_local_identity app_id identity;
  mret (reply_ok []).

(** ** Dispatch *)

Definition open_store (settings : CloudSettings) : RPC FolderStore :=
  steam_id64 ← check (match nonzero (cs_steam_id64 settings) with
                      | Some id => Ok id
                      | None => Err (Protocol "local cloud account is unavailable")
                      end);
  a ← adapter;
  match ad_local_store a with
  | Some s => mret s
  | None =>
      s ← (λ y, let '(r, reg, w) :=
                  ConflictUi.open_account_text device cwd (cs_local_path settings) steam_id64
                    (sys_registry y) (sys_world y) in
                (match r with Ok s => Ok s | Err e => Err (Backend e) end,
                 with_registry reg (with_world w y)) : AR FolderStore * Sys);
      _ ← update (with_store s);
      mret s
  end.

Definition execute_local_rpc (settings : CloudSettings) (method : string) (body : list Z)
    : RPC RpcReply :=
  s ← open_store settings;
  let called m := bool_decide (method = m) in
  if called GET_CHANGELIST then
    request ← check (decode_body (M := CloudGetAppFileChangelistRequest) body);
    app_id ← check (local_app_id (gc_app_id request));
    _ ← ensure_syncthing_ready settings s app_id;
    changelist settings s body
  else if called BEGIN_BATCH then begin_batch settings s body
  else if called BEGIN_FILE_UPLOAD then begin_file_upload s body
  else if called COMMIT_FILE_UPLOAD then commit_file_upload body
  else if called COMPLETE_BATCH || called COMPLETE_BATCH_BLOCKING then complete_batch settings s body
  else if called FILE_DOWNLOAD then file_download s body
  else if called DELETE_FILE then delete_file body
  else if called QUOTA_USAGE then quota_usage s body
  else if called LAUNCH_INTENT then
    request ← check (decode_body (M := CloudAppLaunchIntentRequest) body);
    app_id ← check (local_app_id (li_app_id request));
    _ ← ensure_syncthing_ready settings s app_id;
    launch settings s body
  else if called SUSPEND_SESSION then suspend settings s body
  else if called RESUME_SESSION then resume settings s body
  else if called CONFLICT_RESOLUTION then conflict_resolution settings s body
  else if called EXIT_SYNC_DONE then exit settings s body
  else if called CDN_REPORT || called EXTERNAL_TRANSFER_REPORT then mret (reply_ok [])
  else protocol_error "unsupported local cloud method".
End requests.
