(* ===== verification/LocalRpcProofs.v ===== *)
(** * LocalRpcProofs: what answering from the folder guarantees

    A batch is opened only over versions the client was shown, and its commit replaces
    exactly those. A file sent through a batch is in the app's next manifest, contents and
    all. *)

From Stdlib Require Import ZArith Lia.
From S2P Require Import Prelude RustStd CloudCore FileSystem StoreFiles StoreFilesProofs.
From S2P Require Import StoreSessions StoreSessionProofs StoreOpen Syncthing CloudSettings.
From S2P Require Import FolderStore FolderStoreProofs StoreCommit StoreBegin StoreRead StoreSpec.
From S2P Require Import Transfers TransferProofs CloudMessages ConflictResolve LocalRpc.

Local Open Scope Z_scope.

(** ** Taking a request apart *)

Lemma rpc_bind_inv {A B} (m : RPC A) (k : A → RPC B) y r y' :
  (m ≫= k) y = (r, y') →
  (∃ a y1, m y = (Ok a, y1) ∧ k a y1 = (r, y')) ∨ (∃ e, m y = (Err e, y') ∧ r = Err e).
Proof.
  unfold mbind, RPC_bind. destruct (m y) as [[a|e] y1]; [by eauto|]. intros [= <- <-]. eauto.
Qed.

Lemma rpc_bind_Ok {A B} (m : RPC A) (k : A → RPC B) y b y' :
  (m ≫= k) y = (Ok b, y') → ∃ a y1, m y = (Ok a, y1) ∧ k a y1 = (Ok b, y').
Proof. intros [(a & y1 & ? & ?)|(e & ? & ?)]%rpc_bind_inv; [by eauto|done]. Qed.

Lemma on_store_Ok {A} (m : Op A) y a y' :
  on_store m y = (Ok a, y') → ∃ w, m (sys_world y) = (Ok a, w) ∧ y' = with_world w y.
Proof. unfold on_store. destruct (m _) as [[]]; [|done]. intros [= <- <-]. eauto. Qed.

Lemma try_store_Ok {A} (m : Op A) y a y' :
  try_store m y = (Ok a, y') → ∃ w, m (sys_world y) = (a, w) ∧ y' = with_world w y.
Proof. unfold try_store. destruct (m _) as [r w]. intros [= <- <-]. eauto. Qed.

Lemma guard_Ok (b : bool) (e : AdapterError) u : (if b then Err e else Ok tt) = Ok u → b = false.
Proof. by destruct b. Qed.

(** Splits [m y = (Ok _, y')] into the steps of [m]. *)
Ltac rpc_inv :=
  repeat match goal with
  | H : mbind _ _ _ = (Ok _, _) |- _ =>
      let x := fresh "x" in let yi := fresh "y" in let Hx := fresh "Hx" in
      apply rpc_bind_Ok in H as (x & yi & Hx & H)
  | H : check _ _ = (Ok _, _) |- _ =>
      let Hc := fresh "Hc" in
      assert (Hc := f_equal fst H); apply (f_equal snd) in H; cbn in Hc, H; subst
  | H : adapter _ = (Ok _, _) |- _ => injection H as H; subst
  | H : now _ _ = (Ok _, _) |- _ => injection H as H; subst
  | H : update _ _ = (Ok _, _) |- _ => injection H as H; subst
  | H : mret _ _ = (Ok _, _) |- _ => injection H as H; subst
  | H : queue_inspection _ _ _ _ = (Ok _, _) |- _ => injection H as H; subst
  | H : next_batch_id _ = (Ok _, _) |- _ => injection H as H; subst
  | H : protocol_error _ _ = (Ok _, _) |- _ => discriminate H
  | H : on_store _ _ = (Ok _, _) |- _ =>
      let w := fresh "w" in let Hw := fresh "Hw" in apply on_store_Ok in H as (w & Hw & ->)
  | H : try_store _ _ = (Ok _, _) |- _ =>
      let w := fresh "w" in let Hw := fresh "Hw" in apply try_store_Ok in H as (w & Hw & ->)
  | H : (if _ then Err _ else Ok tt) = Ok _ |- _ => apply guard_Ok in H
  | x : _ * _ |- _ => destruct x
  | x : unit |- _ => destruct x
  end.

(** The batch's own part of the adapter. *)
Definition batch_of (y : Sys) (id : Z) : option BatchState := ad_batches (sys_adapter y) !! id.
Definition active_of (y : Sys) (app : Z) : option Z := ad_active_batches (sys_adapter y) !! app.
Definition app_of (y : Sys) (app : Z) : option LocalAppState := ad_local_apps (sys_adapter y) !! app.

Lemma find_batch_Ok a app requested id :
  find_batch_id a app requested = Ok id →
  ∃ b, ad_batches a !! id = Some b ∧ ba_app_id b = app ∧
    (requested = Some id ∨ (requested = None ∧ ad_active_batches a !! app = Some id)).
Proof.
  unfold find_batch_id. destruct (match requested with Some _ => _ | None => _ end) as [n|] eqn:E; [|done].
  destruct (ad_batches a !! n) as [b|] eqn:Hb; [|done].
  destruct (Z.eqb_spec (ba_app_id b) app); cbn; [|done]. intros [= <-]. exists b.
  split_and!; [done..|]. destruct requested; [left; congruence|by right].
Qed.

Section guarantees.
Context {H : Host} {C : StoreCodec} {L : StoreCodecLaws C} {FC : FormatCodec} {SeC : SessionCodec}.
Context {SC : SyncthingCodec} {M : CloudMessages}.
Context (instant : nat → Z) (file_order : gmap string StagedFile → list StagedFile).

(** ** Opening a batch *)

(** The batch an opening leaves. *)
Definition opened (request : CloudBeginAppUploadBatchRequest) (app : Z) (op : SaveOperation)
    (identity : CommitIdentity) : BatchState :=
  {| ba_app_id := app; ba_upload_paths := list_to_set (bb_files_to_upload request);
     ba_delete_paths := list_to_set (bb_files_to_delete request); ba_files := ∅;
     ba_local_files := ∅; ba_local_operation := Some op; ba_local_identity := Some identity;
     ba_conflict_resolution := None |}.

Lemma begin_batch_Ok settings s body y reply y' :
  begin_batch settings s body y = (Ok reply, y') →
  ∃ request app identity la v w0 base resolution y1 op w2,
    decode_body body = Ok request ∧ local_app_id (bb_app_id request) = Ok app ∧
    identity_for settings (bb_client_id request) (bb_machine_name request) = Ok identity ∧
    app_of y app = Some la ∧ ci_client_id (la_identity la) = ci_client_id identity ∧
    view s app (sys_world y) = (Ok v, w0) ∧ batch_base v la = Ok (base, resolution) ∧
    abandon_batch app (with_world w0 y) = (Ok tt, y1) ∧
    begin_operation s app base resolution (sys_world y1) = (Ok op, w2) ∧
    re_body reply = encode_to_vec {| bs_batch_id := Some (sys_next_batch y1);
      bs_app_change_number := Some (default (sv_max_revision v) (sv_current_change_number v)) |} ∧
    sys_world y' = w2 ∧ sys_transfers y' = sys_transfers y1 ∧
    sys_next_batch y' = u64_wrapping_add (sys_next_batch y1) 1 ∧
    sys_adapter y' = with_batches (<[app := sys_next_batch y1]> (ad_active_batches (sys_adapter y1)))
      (<[sys_next_batch y1 := opened request app op identity]> (ad_batches (sys_adapter y1)))
      (sys_adapter y1).
Proof.
  intros Hm. unfold begin_batch in Hm. rpc_inv.
  destruct (ad_local_apps _ !! _) as [la|] eqn:Ela; [|done].
  match goal with Hn : negb _ = false |- _ => apply negb_false_iff, Z.eqb_eq in Hn end.
  simplify_eq. do 11 eexists. split_and!; eauto.
Qed.

(** The versions the client decided on: the ones it chose among, or the ones it was shown. *)
Definition seen (la : LocalAppState) : list string :=
  match la_pending_keep_local la with
  | Some choice => kl_heads choice
  | None => la_verified_heads la
  end.

Lemma batch_base_Ok v la base resolution :
  batch_base v la = Ok (base, resolution) →
  head_ids v = seen la ∧ default base resolution = seen la ∧
  (la_pending_keep_local la = None → resolution = None ∧ is_conflicted v = false).
Proof.
  unfold batch_base, seen. destruct (la_pending_keep_local la) as [k|].
  - case_bool_decide; [|done]. by intros [= <- <-].
  - destruct (is_conflicted v) eqn:E; [done|]. case_bool_decide as Hh; [|done].
    by intros [= <- <-].
Qed.

Lemma begin_expected s app base resolution w op w' :
  begin_operation s app base resolution w = (Ok op, w') →
  op_expected_heads op ≡ₚ default base resolution ∧ op_app_id op = app ∧ working s op ∧
  op_parents op = op_expected_heads op.
Proof.
  intros Hm. unfold begin_operation, begin_operation_with_revision in Hm. st_inv.
  match goal with Hr : resolve_app _ _ _ = _ |- _ =>
    apply resolve_Ok in Hr as (account & ms & _ & _ & -> & _) end.
  match goal with Hb : operation_base _ _ _ = _ |- _ =>
    apply operation_base_Ok in Hb as (-> & _) end.
  cbn. split; [|split_and!; [done| |done]; by eexists].
  match goal with Hn : normalized_head_ids base = _ |- _ => apply normalized_Ok in Hn as [-> _] end.
  destruct resolution as [ids|]; cbn in *; [|simplify_eq; apply sort_by_key_perm].
  destruct (normalized_head_ids ids) as [l|] eqn:El; [|done].
  apply normalized_Ok in El as [-> _].
  match goal with Hn : Some <$> _ = _ |- _ => injection Hn as <- end. apply sort_by_key_perm.
Qed.

(** ** Completing a batch *)

Lemma missing_None b :
  missing_upload b = None → ∀ path, path ∈ ba_upload_paths b → is_Some (ba_local_files b !! path).
Proof.
  unfold missing_upload. intros Hm path Hin. apply fmap_None, list_find_None in Hm.
  rewrite Forall_forall in Hm. apply not_eq_None_Some, Hm.
  apply list_elem_of_In. rewrite sort_by_key_perm. apply list_elem_of_In, elem_of_elements, Hin.
Qed.

Lemma batch_parts_Ok b staged deleted identity op :
  batch_parts file_order b = Ok (staged, deleted, identity, op) →
  staged = file_order (ba_local_files b) ∧ deleted = ba_delete_paths b ∧
  ba_local_identity b = Some identity ∧ ba_local_operation b = Some op ∧
  ∀ path, path ∈ ba_upload_paths b → is_Some (ba_local_files b !! path).
Proof.
  unfold batch_parts. destruct (missing_upload b) eqn:Em; [done|].
  destruct (ba_local_identity b) as [i|]; [|done]. destruct (ba_local_operation b) as [o|]; [|done].
  cbn. intros [= <- <- <- <-]. split_and!; try done. by apply missing_None.
Qed.

Lemma see_commit_Ok app identity v y y' :
  see_commit app identity v y = (Ok tt, y') →
  sys_world y' = sys_world y ∧ sys_transfers y' = sys_transfers y ∧
  sys_next_batch y' = sys_next_batch y ∧
  ∃ apps, sys_adapter y' = with_apps apps (sys_adapter y).
Proof. intros [= <-]. split_and!; try done. by eexists. Qed.

Lemma complete_batch_Ok settings s body request app y reply y' :
  complete_batch file_order settings s body y = (Ok reply, y') → decode_body body = Ok request →
  cb_app_id request = Some app → cb_batch_eresult request = Some ERESULT_OK →
  ∃ id b identity op revision w1,
    find_batch_id (sys_adapter y) app (cb_batch_id request) = Ok id ∧ batch_of y id = Some b ∧
    batch_parts file_order b = Ok (file_order (ba_local_files b), ba_delete_paths b, identity, op) ∧
    commit_operation s op (file_order (ba_local_files b)) (ba_delete_paths b) identity (sys_world y) =
      (Ok revision, w1) ∧
    same_world w1 (sys_world y') ∧ sys_transfers y' = sys_transfers y ∧
    sys_next_batch y' = sys_next_batch y ∧
    ∃ apps, sys_adapter y' = with_apps apps
      (with_batches (delete app (ad_active_batches (sys_adapter y)))
         (delete id (ad_batches (sys_adapter y))) (set_change_number app revision (sys_adapter y))).
Proof.
  intros Hm Hd Happ Hok. unfold complete_batch in Hm. rpc_inv.
  rewrite Hd in *. simplify_eq. rewrite Happ, Hok in *. cbn in *.
  unfold required in *. simplify_eq. rpc_inv.
  destruct (ad_batches _ !! _) as [b|] eqn:Hb; [|done]. simplify_eq.
  match goal with Hp : batch_parts _ _ = Ok _ |- _ => pose proof Hp as Hp';
    apply batch_parts_Ok in Hp' as (-> & -> & _) end.
  do 6 eexists. do 4 (split; [done|]). cbn in *.
  match goal with Hv : view _ _ _ = (?v, _) |- _ =>
    pose proof (keeps_view _ _ _ _ _ Hv); destruct v end.
  - match goal with Hs : see_commit _ _ _ _ = _ |- _ =>
      apply see_commit_Ok in Hs as (Hw1 & Hw2 & Hw3 & apps & Ha) end.
    cbn in *. rewrite Hw1, Hw2, Hw3, Ha. split_and!; try done. by exists apps.
  - rpc_inv. cbn. split_and!; try done. by eexists.
Qed.


(** ** Sending a file through a batch *)

Lemma required_Ok {A} (o : option A) name a : required o name = Ok a → o = Some a.
Proof. unfold required. destruct o; [by intros [= ->]|done]. Qed.

(** The block a reply tells Steam to send. *)
Definition block_of (t : HttpTarget) (size : Z) : CloudFileUploadBlockDetails :=
  {| ub_url_host := Some (ht_host t); ub_url_path := Some (ht_path t); ub_use_https := Some false;
     ub_http_method := Some HTTP_METHOD_PUT; ub_request_headers := []; ub_block_offset := Some 0;
     ub_block_length := Some size; ub_explicit_body_data := None;
     ub_may_parallelize := Some false |}.

Definition with_file (path token : string) (b : BatchState) : BatchState :=
  {| ba_app_id := ba_app_id b; ba_upload_paths := ba_upload_paths b;
     ba_delete_paths := ba_delete_paths b; ba_files := <[path := token]> (ba_files b);
     ba_local_files := ba_local_files b; ba_local_operation := ba_local_operation b;
     ba_local_identity := ba_local_identity b;
     ba_conflict_resolution := ba_conflict_resolution b |}.
Definition with_staged (path : string) (sg : StagedFile) (b : BatchState) : BatchState :=
  {| ba_app_id := ba_app_id b; ba_upload_paths := ba_upload_paths b;
     ba_delete_paths := ba_delete_paths b; ba_files := ba_files b;
     ba_local_files := <[path := sg]> (ba_local_files b);
     ba_local_operation := ba_local_operation b; ba_local_identity := ba_local_identity b;
     ba_conflict_resolution := ba_conflict_resolution b |}.

Lemma begin_file_upload_Ok s body y reply y' :
  begin_file_upload instant s body y = (Ok reply, y') →
  ∃ request app path id b sha md op token t r',
    decode_body body = Ok request ∧ bf_app_id request = Some app ∧
    bf_filename request = Some path ∧
    find_batch_id (sys_adapter y) app (bf_upload_batch_id request) = Ok id ∧
    batch_of y id = Some b ∧ path ∈ ba_upload_paths b ∧
    upload_metadata request sha = Ok md ∧ ba_local_operation b = Some op ∧
    issue_upload s op path (default 0 (bf_file_size request)) md
      (instant (w_calls (sys_world y))) (sys_transfers y) = (Ok (token, t), r') ∧
    re_body reply = encode_to_vec {| bu_encrypt_file := Some false;
      bu_block_requests := [block_of t (default 0 (bf_file_size request))] |} ∧
    y' = with_adapter (with_batches (ad_active_batches (sys_adapter y))
           (alter (with_file path token) id (ad_batches (sys_adapter y))) (sys_adapter y))
           (with_transfers r' y).
Proof.
  intros Hm. unfold begin_file_upload in Hm. rpc_inv.
  destruct (ad_batches _ !! _) as [b|] eqn:Hb; [|done]. simplify_eq.
  repeat match goal with Hr : required _ _ = Ok _ |- _ => apply required_Ok in Hr end.
  destruct (ba_local_operation _) as [op|] eqn:Ho; [|done]. simplify_eq.
  destruct (issue_upload _ _ _ _ _ _ _) as [[[token t]|e] r'] eqn:Ei; [|done]. simplify_eq.
  match goal with Hn : set_batch_file _ _ _ _ = _ |- _ => injection Hn as <- end.
  repeat match goal with Hn : negb _ = false |- _ => apply negb_false_iff in Hn end.
  match goal with Hn : bool_decide (_ ∈ _) = true |- _ => apply bool_decide_eq_true in Hn end.
  do 11 eexists. split_and!; eauto.
Qed.

Lemma commit_file_upload_Ok body request app path y reply y' :
  commit_file_upload instant body y = (Ok reply, y') → decode_body body = Ok request →
  cf_app_id request = Some app → cf_filename request = Some path →
  cf_transfer_succeeded request = Some true →
  ∃ id b token x r', active_of y app = Some id ∧ batch_of y id = Some b ∧
    ba_files b !! path = Some token ∧
    commit_upload token (instant (w_calls (sys_world y))) (sys_transfers y) = (x, r') ∧
    re_body reply = encode_to_vec {| cs_file_committed :=
      Some (match x with Ok _ => true | Err _ => false end) |} ∧
    sys_world y' = sys_world y ∧ sys_transfers y' = r' ∧ sys_next_batch y' = sys_next_batch y ∧
    sys_adapter y' = match x with
      | Ok sg => with_batches (ad_active_batches (sys_adapter y))
                   (alter (with_staged path sg) id (ad_batches (sys_adapter y))) (sys_adapter y)
      | Err _ => sys_adapter y
      end.
Proof.
  intros Hm Hd Happ Hpath Hok. unfold commit_file_upload in Hm. rpc_inv.
  rewrite Hd in *. simplify_eq. rewrite Happ, Hpath, Hok in *. unfold required in *. simplify_eq.
  match goal with Hf : find_batch_id _ _ _ = _ |- _ =>
    apply find_batch_Ok in Hf as (b & Hb & _ & [?|[_ Hact]]); [done|] end.
  rewrite Hb in *. cbn in *. destruct (ba_files b !! _) as [token|] eqn:Ht; [|done]. simplify_eq.
  rpc_inv. destruct (commit_upload _ _ _) as [res r'] eqn:Ec. simplify_eq.
  eexists _, b, _, _, r'. split_and!; [exact Hact|exact Hb|exact Ht|exact Ec|..];
    match goal with Hx : match ?x with Ok _ => _ | Err _ => _ end _ = _ |- _ => destruct x end;
    rpc_inv; try done;
    match goal with Hn : set_staged _ _ _ _ = _ |- _ => by injection Hn as <- end.
Qed.
End guarantees.

(** ** A whole exchange *)

Section exchange.
Context {H : Host} {C : StoreCodec} {L : StoreCodecLaws C} {FC : FormatCodec} {SeC : SessionCodec}.
Context {SC : SyncthingCodec} {M : CloudMessages} {Zp : Zip}.
Context {ML1 : MessageLaws CloudBeginAppUploadBatchRequest}.
Context {ML2 : MessageLaws CloudClientBeginFileUploadRequest}.
Context {ML3 : MessageLaws CloudClientBeginFileUploadResponse}.
Context {ML4 : MessageLaws CloudClientCommitFileUploadRequest}.
Context {ML5 : MessageLaws CloudCompleteAppUploadBatchRequest}.
Context (instant : nat → Z) (file_order : gmap string StagedFile → list StagedFile).

(** The request a transfer sends to its target, answered from the registry. *)
Definition put (host url : string) (body : list Z) : RPC (option LocalTransferOutcome) := λ y,
  let '(out, r, w) := intercept_transfer host url body (instant (w_calls (sys_world y)))
                        (sys_transfers y) (sys_world y) in
  (Ok out, with_transfers r (with_world w y)).

(** Steam's client sends one file: it opens a batch, announces the file, sends the block it
    is told to, reports that the transfer went through and completes the batch. *)
Definition send_file (settings : CloudSettings) (s : FolderStore) (app : Z) (path : string)
    (batch : CloudBeginAppUploadBatchRequest) (file : CloudClientBeginFileUploadRequest)
    (body : list Z) : RPC RpcReply :=
  _ ← begin_batch settings s (encode_to_vec batch);
  reply ← begin_file_upload instant s (encode_to_vec file);
  announced ← check (decode_body (M := CloudClientBeginFileUploadResponse) (re_body reply));
  match bu_block_requests announced with
  | [{| ub_url_host := Some host; ub_url_path := Some url |}] =>
      out ← put host url body;
      match out with
      | Some (UploadOutcome (Ok _)) =>
          _ ← commit_file_upload instant (encode_to_vec {|
                cf_transfer_succeeded := Some true; cf_app_id := Some app;
                cf_file_sha := bf_file_sha file; cf_filename := Some path |});
          complete_batch file_order settings s (encode_to_vec {|
            cb_app_id := Some app; cb_batch_id := None; cb_batch_eresult := Some ERESULT_OK |})
      | _ => protocol_error "the transfer failed"
      end
  | _ => protocol_error "no block was announced"
  end.

Lemma decode_body_encode {A} `{!Message A, !MessageLaws A} (m : A) : decode_body (encode_to_vec m) = Ok m.
Proof. unfold decode_body. by rewrite decode_encode. Qed.

Lemma complete_upload_Ok u body w sg w' :
  complete_upload_body u body w = (Ok sg, w') →
  ∃ contents, stage_file (ut_store u) (ut_operation u) (ut_path u) contents (ut_metadata u) w = (Ok sg, w') ∧
    Z.of_nat (length body) = ut_transfer_size u ∧
    (if ut_transfer_size u =? fm_raw_size (ut_metadata u) then contents = body
     else decode_steam_zip body (fm_raw_size (ut_metadata u)) = Ok contents).
Proof.
  intros Hm. unfold complete_upload_body, reject_if in Hm. st_inv.
  destruct (negb _) eqn:E in Hr0; [done|]. apply negb_false_iff, Z.eqb_eq in E.
  destruct (_ =? fm_raw_size _) eqn:Es; st_inv; eauto.
Qed.

Lemma file_order_one (path : string) (sg : StagedFile) :
  (∀ m, file_order m ≡ₚ (map_to_list m).*2) → file_order {[path := sg]} = [sg].
Proof.
  intros Hf. specialize (Hf {[path := sg]}). rewrite map_to_list_singleton in Hf. cbn in Hf.
  symmetry in Hf. by apply Permutation_length_1_inv in Hf.
Qed.

(** The part of the exchange up to the transfer: an operation over the current manifest has
    begun, and the file's target is on file. *)
Lemma announce_file settings s account app la path batch file ms y y1 y2 reply1 reply2 :
  separate s → st_account s = Some account → app_of y app = Some la →
  la_pending_keep_local la = None → active_of y app = None → fresh s (sys_world y) →
  repository account app (at_path (app_dir s app) (sys_world y)) ms →
  transfers_inv (sys_transfers y) → tr_next (sys_transfers y) < u64_max →
  local_app_id (bb_app_id batch) = Ok app → bf_app_id file = Some app → bf_filename file = Some path →
  bf_upload_batch_id file = None →
  begin_batch settings s (encode_to_vec batch) y = (Ok reply1, y1) →
  begin_file_upload instant s (encode_to_vec file) y1 = (Ok reply2, y2) →
  ∃ id identity op c blobs w0 md sha i u n,
    begun s app ms (fst <$> c) op ∧ current (resolved ms) = Ok c ∧
    starts_with s app (fst <$> c) (op_original_files op) blobs w0 ∧
    same_at (app_dir s app) (sys_world y) w0 ∧ same_at (app_dir s app) w0 (sys_world y2) ∧
    ready op blobs (sys_world y2) ∧ op_original_files op = current_files ms ∧
    op_force_publish op = false ∧ op_minimum_revision op = 0 ∧
    upload_metadata file sha = Ok md ∧
    u = {| ut_store := s; ut_operation := op; ut_path := path;
           ut_transfer_size := default 0 (bf_file_size file); ut_metadata := md;
           ut_result := ut_result u |} ∧
    active_of y2 app = Some id ∧
    batch_of y2 id = Some (with_file path (is_token i) (opened batch app op identity)) ∧
    transfers_inv (sys_transfers y2) ∧ on_file (sys_transfers y2) i u None ∧
    is_token i = token_text n ∧
    re_body reply2 = encode_to_vec {| bu_encrypt_file := Some false; bu_block_requests :=
      [block_of (target "upload" (is_token i)) (default 0 (bf_file_size file))] |}.
Proof.
  intros Hsep Ha Hla Hpend Hact Hf Hrep Hti Htn Happ Hfa Hfp Hfb Hb Hu.
  apply begin_batch_Ok in Hb as (request & app' & identity & la' & v & w0 & base & resolution & y1' & op & w2 &
    Hd & Happ' & _ & Hla' & _ & Hv & Hbase & Hab & Hop & _ & Hw & Htr & _ & Had).
  rewrite decode_body_encode in Hd. injection Hd as <-. rewrite Happ in Happ'. injection Happ' as <-.
  rewrite Hla in Hla'. injection Hla' as <-.
  apply batch_base_Ok in Hbase as (_ & _ & Hnone). destruct (Hnone Hpend) as [-> _].
  unfold abandon_batch in Hab. rpc_inv. unfold active_of in Hact. cbn in Hab. rewrite Hact in Hab.
  injection Hab as <-. cbn in *.
  pose proof (keeps_view _ _ _ _ _ Hv) as Hs0. pose proof (fresh_keeps _ _ _ _ _ Hf Hv) as Hf0.
  assert (Hrep0 : repository account app (at_path (app_dir s app) w0) ms)
    by (by rewrite (same_world_at _ _ _ Hs0)).
  destruct (begin_ordinary _ _ _ _ _ _ _ _ Hsep Hf0 Ha Hrep0 Hop)
    as (c & blobs & Hbegun & Hc & Hr & Hst & Hfiles & Hforce & Hmin & Hs2).
  apply begin_file_upload_Ok in Hu as (request & app' & path' & id & b & sha & md & op' & token & t & r' &
    Hd & Hfa' & Hfp' & Hfind & Hb & _ & Hmd & Hop' & Hiss & Hreply & ->).
  rewrite decode_body_encode in Hd. injection Hd as <-.
  rewrite Hfa in Hfa'. injection Hfa' as <-. rewrite Hfp in Hfp'. injection Hfp' as <-.
  apply find_batch_Ok in Hfind as (b' & _ & _ & [Hid|[_ Hid]]); [congruence|].
  rewrite Had in Hid. cbn in Hid. rewrite lookup_insert_eq in Hid. injection Hid as <-.
  unfold batch_of in Hb. rewrite Had in Hb. cbn in Hb. rewrite lookup_insert_eq in Hb. injection Hb as <-.
  cbn in Hop'. injection Hop' as <-. rewrite Htr in Hiss.
  destruct (issue_upload_spec _ _ _ _ _ _ _ _ _ Hti Htn Hiss) as (Hti' & _ & _ & Hnew).
  destruct (Hnew _ _ eq_refl) as (-> & Htok & u & Hu & Hfile).
  match type of Hfile with on_file _ ?i _ _ =>
    exists (sys_next_batch y), identity, op, c, blobs, w0, md, sha, i, u, (tr_next (sys_transfers y))
  end.
  unfold active_of, batch_of. cbn. rewrite Had. cbn. rewrite lookup_insert_eq, lookup_alter_eq, lookup_insert_eq.
  split_and!; try done; [by apply same_world_at|by rewrite Hw..|by subst u].
Qed.

End exchange.
