(* ===== verification/LocalRpcInvariant.v ===== *)
(** * LocalRpcInvariant: open batches stay consistent

    Whatever requests, transfers and changes of the tree arrive, in any order and with any
    failures, an app's open batch is its own, batch ids are never reused, and a file counts
    as staged only for the path it was announced and sent for. *)

From Stdlib Require Import ZArith Lia.
From S2P Require Import Prelude RustStd CloudCore FileSystem StoreFiles StoreFilesProofs.
From S2P Require Import StoreSessions StoreOpen Syncthing CloudSettings.
From S2P Require Import FolderStore FolderStoreProofs StoreCommit StoreBegin StoreRead.
From S2P Require Import Transfers TransferProofs CloudMessages LocalRpc LocalRpcProofs.

Local Open Scope Z_scope.

(** ** Transfers *)

(** What an upload's cell holds was staged for the upload's path. *)
Definition cells_inv (r : TransferRegistry) : Prop :=
  ∀ t i u sg, tr_by_token r !! t = Some i → is_operation i = Upload u →
    cell (ut_result u) r = Some (Ok sg) → sg_path sg = ut_path u.

(** The registry only gains transfers under new tokens. *)
Definition grows (r r' : TransferRegistry) : Prop :=
  tr_next r ≤ tr_next r' ∧
  ∀ t i, tr_by_token r' !! t = Some i →
    tr_by_token r !! t = Some i ∨ ∃ n, tr_next r ≤ n < tr_next r' ∧ t = token_text n.

(** The token was given out for this path of this operation. *)
Definition issued_for (r : TransferRegistry) (op : SaveOperation) (path token : string) : Prop :=
  (∃ n, 1 ≤ n < tr_next r ∧ token = token_text n) ∧
  ∀ i u, tr_by_token r !! token = Some i → is_operation i = Upload u →
    ut_path u = path ∧ ut_operation u = op.

Lemma issued_grows r r' op path token :
  grows r r' → tr_next r' ≤ u64_max → issued_for r op path token → issued_for r' op path token.
Proof.
  intros [Hn Hg] Hle [(n & Hlt & ->) Hi]. split; [exists n; split; [lia|done]|].
  intros i u Hl Hu. destruct (Hg _ _ Hl) as [?|(m & Hm & Heq)]; [by eapply Hi|].
  apply token_text_inj in Heq; unfold in_u64, u64_max in *; lia.
Qed.

Section transfers.
Context {H : Host} {C : StoreCodec} {Zp : Zip}.

Lemma stage_path s op path contents md w sg w' :
  stage_file s op path contents md w = (Ok sg, w') → sg_path sg = path.
Proof. intros Hm. unfold stage_file, is_closed in Hm. st_inv. case_bool_decide; by st_inv. Qed.

Lemma complete_path u body w sg w' :
  complete_upload_body u body w = (Ok sg, w') → sg_path sg = ut_path u.
Proof. intros (contents & Hs & _)%complete_upload_Ok. by eapply stage_path. Qed.

Lemma expired_sub now r : transfers_inv r →
  grows r (remove_expired now r) ∧ (cells_inv r → cells_inv (remove_expired now r)).
Proof.
  intros Hi. destruct (remove_expired_spec now r Hi) as (_ & Hn & Hc & _ & Hsub & _). split.
  - split; [lia|]. intros t i Ht. left. by eapply lookup_weaken.
  - intros Hce t i u sg Ht Hu Hv. eapply Hce; [by eapply lookup_weaken|done|].
    unfold cell in *. by rewrite <-Hc.
Qed.

Lemma remove_sub token r : grows r (remove_token token r) ∧ (cells_inv r → cells_inv (remove_token token r)).
Proof.
  split.
  - split; [cbn; lia|]. cbn. intros t i [_ Ht]%lookup_delete_Some. by left.
  - intros Hce t i u sg. cbn. intros [_ Ht]%lookup_delete_Some. by eapply Hce.
Qed.

Lemma grows_trans r1 r2 r3 : grows r1 r2 → grows r2 r3 → grows r1 r3.
Proof.
  intros [Hn1 H1] [Hn2 H2]. split; [lia|]. intros t i Ht.
  destruct (H2 _ _ Ht) as [Ht1|(n & ? & ->)]; [|right; exists n; split; [lia|done]].
  destruct (H1 _ _ Ht1) as [?|(n & ? & ->)]; [by left|right; exists n; split; [lia|done]].
Qed.

Lemma issue_upload_grows store op path size md now r x r' :
  transfers_inv r → tr_next r < u64_max → issue_upload store op path size md now r = (x, r') →
  grows r r' ∧ (cells_inv r → cells_inv r').
Proof.
  intros Hi Hlt Hm. pose proof (issue_upload_spec _ _ _ _ _ _ _ _ _ Hi Hlt Hm) as (_ & Hnx & _).
  unfold issue_upload in Hm. cbn zeta in Hm.
  pose proof (inv_new_cell _ (inv_next r Hi Hlt)) as Hi2.
  rewrite (surjective_pairing (next_token r)), (surjective_pairing (new_cell _)) in Hm.
  cbn beta iota in Hm.
  destruct (insert_transfer _ _ _) as [y r1] eqn:Eins.
  assert (r1 = r') as -> by (by destruct y; injection Hm as _ <-). clear Hm.
  apply transfers_inv_insert in Eins as (Hi3 & Hc & _ & _ & _ & _ & Hall).
  - split.
    + split; [lia|]. intros t i Ht. destruct (Hall _ _ Ht) as [?|[= -> ->]]; [by left|right].
      exists (tr_next r). split; [lia|done].
    + intros Hce t i u sg Ht Hu Hv. unfold cell in Hv. rewrite Hc in Hv. cbn in Hv.
      destruct (Hall _ _ Ht) as [Ht'|[= -> ->]].
      * rewrite lookup_insert_ne in Hv; [by eapply Hce|]. pose proof (ti_cell _ Hi _ _ _ Ht' Hu). lia.
      * cbn in Hu. injection Hu as <-. cbn in Hv. by rewrite lookup_insert_eq in Hv.
  - done.
  - cbn. by apply fresh_token.
  - cbn. exists (tr_next r). split; [|done]. destruct Hi.
    unfold u64_wrapping_add. rewrite Z.mod_small; unfold u64_max in *; lia.
  - cbn. intros u [= <-]. cbn. split; [lia|]. intros t i u' Hl Hu.
    pose proof (ti_cell _ Hi _ _ _ Hl Hu). lia.
Qed.

Lemma issue_download_grows store app path now r w x r' w' :
  transfers_inv r → tr_next r < u64_max → issue_download store app path now r w = (x, r', w') →
  grows r r' ∧ (cells_inv r → cells_inv r').
Proof.
  intros Hi Hlt Hm. unfold issue_download in Hm.
  destruct (bind_download store app path w) as [[[entry d]|e] w1] eqn:Eb.
  2: { injection Hm as <- <- <-. split; [|done]. split; [lia|]. auto. }
  change (next_token r) with (token_text (tr_next r), (next_token r).2) in Hm. cbn beta iota in Hm.
  destruct (insert_transfer _ _ _) as [y r1] eqn:Eins.
  assert (r1 = r') as -> by (by destruct y; injection Hm as _ <- _). clear Hm.
  assert (Hn : u64_wrapping_add (tr_next r) 1 = tr_next r + 1).
  { unfold u64_wrapping_add. destruct Hi. rewrite Z.mod_small; unfold u64_max in *; lia. }
  apply transfers_inv_insert in Eins as (Hi3 & Hc & Hnx & _ & _ & _ & Hall).
  - cbn in Hnx. split.
    + split; [lia|]. intros t i Ht. destruct (Hall _ _ Ht) as [?|[= -> ->]]; [by left|right].
      exists (tr_next r). split; [lia|done].
    + intros Hce t i u sg Ht Hu Hv. unfold cell in Hv. rewrite Hc in Hv.
      destruct (Hall _ _ Ht) as [Ht'|[= -> ->]]; [by eapply Hce|done].
  - by apply inv_next.
  - cbn. by apply fresh_token.
  - cbn. exists (tr_next r). split; [|done]. destruct Hi. lia.
  - done.
Qed.

Lemma intercept_grows authority path body now r w out r' w' :
  transfers_inv r → intercept_transfer authority path body now r w = (out, r', w') →
  grows r r' ∧ (cells_inv r → cells_inv r').
Proof.
  intros Hi Hm. unfold intercept_transfer in Hm.
  destruct (claim_transfer authority path now r) as [o r1] eqn:Ec.
  assert (Hclaim : r1 = r ∨ r1 = remove_expired now r ∨ ∃ t, r1 = remove_token t (remove_expired now r)).
  { unfold claim_transfer in Ec. repeat case_match; simplify_eq; eauto. }
  destruct (expired_sub now r Hi) as [Hg0 Hc0].
  assert (Hg1 : grows r r1 ∧ (cells_inv r → cells_inv r1)).
  { destruct Hclaim as [-> |[-> |[t ->]]]; [by split; [split; [lia|auto]|]|done|].
    destruct (remove_sub t (remove_expired now r)). split; [by eapply grows_trans|auto]. }
  destruct (claim_spec _ _ _ _ _ _ Hi Ec) as (Hi1 & _ & _ & Hop).
  destruct o as [[u|d]|]; cbn [serve] in Hm.
  - destruct (Hop _ eq_refl) as (_ & token & i & _ & Hl & Ho & ->).
    destruct (match cell _ _ with Some _ => _ | None => _ end) as [x w1] eqn:Ex.
    injection Hm as <- <- <-. destruct Hg1 as [Hg1 Hc1]. split; [done|]. intros Hce.
    specialize (Hc1 Hce). intros t i' u' sg Hl' Hu' Hv. cbn in Hl'. unfold cell in Hv. cbn in Hv.
    destruct (decide (ut_result u = ut_result u')) as [Heq|Hne].
    2: { rewrite lookup_insert_ne in Hv by done. by eapply Hc1. }
    assert (token = t) as <-. { by eapply (ti_own _ Hi1); [exact Hl|exact Hl'|..]. }
    rewrite Hl in Hl'. injection Hl' as <-. rewrite Ho in Hu'. injection Hu' as <-.
    rewrite lookup_insert_eq in Hv. injection Hv as ->.
    destruct (cell (ut_result u) (remove_expired now r)) eqn:Ecell.
    + injection Ex as -> <-. by eapply Hc1.
    + by eapply complete_path.
  - destruct (download_read d w) as [x w1]. by injection Hm as <- <- <-.
  - by injection Hm as <- <- <-.
Qed.

Lemma commit_upload_grows token now r x r' :
  transfers_inv r → commit_upload token now r = (x, r') →
  grows r r' ∧ (cells_inv r → cells_inv r') ∧ transfers_inv r' ∧ tr_next r' = tr_next r ∧
  ∀ sg op path, x = Ok sg → cells_inv r → issued_for r op path token → sg_path sg = path.
Proof.
  intros Hi Hm. destruct (expired_sub now r Hi) as [Hg0 Hc0].
  destruct (remove_expired_spec now r Hi) as (Hi1 & Hn & Hc & _ & Hsub & _).
  unfold commit_upload in Hm. destruct (tr_by_token _ !! token) as [i|] eqn:El.
  2: { injection Hm as <- <-. by split_and!. }
  destruct (remove_sub token (remove_expired now r)) as [Hg1 Hc1].
  pose proof (inv_delete_token token _ Hi1) as Hi2.
  assert (r' = remove_token token (remove_expired now r)) as -> by (repeat case_match; congruence).
  split; [by eapply grows_trans|]. split; [auto|]. split; [done|]. split; [done|].
  intros sg op path -> Hce [_ Hiss]. destruct (is_operation i) as [u|] eqn:Eo; [|done].
  assert (Hl : tr_by_token r !! token = Some i) by (by eapply lookup_weaken).
  destruct (cell _ _) as [x|] eqn:Ev in Hm; [|done]. injection Hm as ->.
  destruct (Hiss _ _ Hl Eo) as [<- _]. eapply Hce; [done|done|]. unfold cell in *. cbn in Ev. by rewrite <-Hc.
Qed.
End transfers.

(** ** The adapter's batches *)

Record batch_inv (r : TransferRegistry) (b : BatchState) : Prop := {
  bi_operation : ∃ op, ba_local_operation b = Some op ∧ op_app_id op = ba_app_id b ∧
    ∀ path token, ba_files b !! path = Some token →
      path ∈ ba_upload_paths b ∧ issued_for r op path token;
  bi_identity : is_Some (ba_local_identity b);
  bi_staged path sg : ba_local_files b !! path = Some sg →
    is_Some (ba_files b !! path) ∧ sg_path sg = path;
}.

Record rpc_inv (y : Sys) : Prop := {
  ri_transfers : transfers_inv (sys_transfers y);
  ri_cells : cells_inv (sys_transfers y);
  ri_active app id : active_of y app = Some id → ∃ b, batch_of y id = Some b ∧ ba_app_id b = app;
  ri_ids id b : batch_of y id = Some b → 1 ≤ id < sys_next_batch y;
  ri_batch id b : batch_of y id = Some b → batch_inv (sys_transfers y) b;
  ri_next : 1 ≤ sys_next_batch y ≤ u64_max;
}.

(** A part of a request that leaves batches and transfers alone. *)
Definition steady (y y' : Sys) : Prop :=
  sys_transfers y' = sys_transfers y ∧ sys_next_batch y' = sys_next_batch y ∧
  ad_active_batches (sys_adapter y') = ad_active_batches (sys_adapter y) ∧
  ad_batches (sys_adapter y') = ad_batches (sys_adapter y).

#[export] Instance steady_preorder : PreOrder steady.
Proof.
  split; [by intros y|]. intros y1 y2 y3 (? & ? & ? & ?) (? & ? & ? & ?). split_and!; congruence.
Qed.

(** A request keeps the invariant and uses up at most one token and one id. *)
Definition moves (y y' : Sys) : Prop :=
  rpc_inv y → tr_next (sys_transfers y) < u64_max → sys_next_batch y < u64_max →
  rpc_inv y' ∧ tr_next (sys_transfers y') ≤ tr_next (sys_transfers y) + 1 ∧
  sys_next_batch y' ≤ sys_next_batch y + 1.

Lemma steady_inv y y' : steady y y' → rpc_inv y → rpc_inv y'.
Proof.
  intros (Ht & Hn & Ha & Hb) [H1 H2 H3 H4 H5 H6].
  split; unfold active_of, batch_of in *; rewrite ?Ht, ?Hn, ?Ha, ?Hb; done.
Qed.

Lemma steady_moves y y' : steady y y' → moves y y'.
Proof.
  intros Hs Hi _ _. split; [by eapply steady_inv|]. destruct Hs as (-> & -> & _). lia.
Qed.

Lemma steady_then y1 y2 y3 : steady y1 y2 → moves y2 y3 → moves y1 y3.
Proof.
  intros Hs Hm Hi Ht Hn. pose proof (steady_inv _ _ Hs Hi) as Hi2.
  destruct Hs as (Htr & Hnx & _). rewrite <-Htr, <-Hnx in *. by apply Hm.
Qed.

Definition rkeeps (R : relation Sys) {A} (m : RPC A) : Prop := ∀ y r y', m y = (r, y') → R y y'.

Lemma rkeeps_bind {A B} (m : RPC A) (k : A → RPC B) :
  rkeeps steady m → (∀ a, rkeeps steady (k a)) → rkeeps steady (m ≫= k).
Proof.
  intros Hm Hk y r y' [(a & y1 & H1 & H2)|(e & H1 & _)]%rpc_bind_inv; [|by eapply Hm].
  etrans; [by eapply Hm|by eapply Hk].
Qed.

Lemma rkeeps_mono {A} (m : RPC A) : rkeeps steady m → rkeeps moves m.
Proof. intros Hm y r y' Heq. by eapply steady_moves, Hm. Qed.

Lemma rkeeps_first {A B} (m : RPC A) (k : A → RPC B) :
  rkeeps steady m → (∀ a, rkeeps moves (k a)) → rkeeps moves (m ≫= k).
Proof.
  intros Hm Hk y r y' [(a & y1 & H1 & H2)|(e & H1 & _)]%rpc_bind_inv.
  - eapply steady_then; [by eapply Hm|by eapply Hk].
  - by eapply steady_moves, Hm.
Qed.

Lemma rkeeps_ret {A} (a : A) : rkeeps steady (mret a).
Proof. by intros y r y' [= _ <-]. Qed.
Lemma rkeeps_check {A} (x : AR A) : rkeeps steady (check x).
Proof. by intros y r y' [= _ <-]. Qed.
Lemma rkeeps_error {A} m : rkeeps steady (protocol_error (A := A) m).
Proof. by intros y r y' [= _ <-]. Qed.
Lemma rkeeps_adapter : rkeeps steady adapter.
Proof. by intros y r y' [= _ <-]. Qed.
Lemma rkeeps_now instant : rkeeps steady (now instant).
Proof. by intros y r y' [= _ <-]. Qed.
Lemma rkeeps_store {A} (m : Op A) : rkeeps steady (on_store m).
Proof. intros y r y'. unfold on_store. destruct (m _). by intros [= _ <-]. Qed.
Lemma rkeeps_try {A} (m : Op A) : rkeeps steady (try_store m).
Proof. intros y r y'. unfold try_store. destruct (m _). by intros [= _ <-]. Qed.
Lemma rkeeps_queue s app c : rkeeps steady (queue_inspection s app c).
Proof. by intros y r y' [= _ <-]. Qed.
Lemma rkeeps_update f :
  (∀ a, ad_active_batches (f a) = ad_active_batches a ∧ ad_batches (f a) = ad_batches a) →
  rkeeps steady (update f).
Proof. intros Hf y r y' [= _ <-]. destruct (Hf (sys_adapter y)). by split_and!. Qed.
Lemma rkeeps_register {C : StoreCodec} settings app i v b n : rkeeps steady (register_conflict settings app i v b n).
Proof. intros y r y'. unfold register_conflict. case_match. by intros [= _ <-]. Qed.
Lemma rkeeps_arm {C : StoreCodec} settings app i v b n : rkeeps steady (arm_conflict settings app i v b n).
Proof. intros y r y'. unfold arm_conflict. repeat case_match. by intros [= _ <-]. Qed.

Create HintDb rkeeps.
#[export] Hint Resolve rkeeps_ret rkeeps_check rkeeps_error rkeeps_adapter rkeeps_now
  rkeeps_store rkeeps_try rkeeps_queue rkeeps_register rkeeps_arm : rkeeps.

Ltac rkeeps_tac :=
  repeat first
    [ progress (eauto with rkeeps)
    | apply rkeeps_bind; [|intros ?]
    | apply rkeeps_update; done
    | match goal with |- rkeeps _ (match ?x with _ => _ end) => destruct x end
    | match goal with |- rkeeps _ (let '_ := ?x in _) => destruct x end ].

(** The steps [H : m y = (r, y')] took kept things steady. *)
Ltac rkeeps_at H :=
  match type of H with
  | ?m ?y = (?r, ?y') =>
      let K := fresh in assert (K : rkeeps steady m) by rkeeps_tac; exact (K y r y' H)
  end.

Section steady_requests.
Context {H : Host} {C : StoreCodec} {FC : FormatCodec} {SeC : SessionCodec} {SC : SyncthingCodec}.
Context {M : CloudMessages}.
Context (http : nat → HttpRequest → Node → HttpAnswer * Node) (cwd : Path) (device : Path → Z).
Context (instant : nat → Z) (file_order : gmap string StagedFile → list StagedFile).

Lemma rkeeps_identity app i : rkeeps steady (update_local_identity app i).
Proof. unfold update_local_identity. rkeeps_tac. Qed.
Hint Resolve rkeeps_identity : rkeeps.

Lemma rkeeps_changelist settings s body : rkeeps steady (changelist settings s body).
Proof. unfold changelist. rkeeps_tac. Qed.
Lemma rkeeps_quota s body : rkeeps steady (quota_usage s body).
Proof. unfold quota_usage. rkeeps_tac. Qed.
Lemma rkeeps_delete body : rkeeps steady (delete_file body).
Proof. unfold delete_file. rkeeps_tac. Qed.
Lemma rkeeps_resolution settings s body : rkeeps steady (conflict_resolution settings s body).
Proof. unfold conflict_resolution. rkeeps_tac. Qed.
Lemma rkeeps_suspend settings s body : rkeeps steady (suspend settings s body).
Proof. unfold suspend. rkeeps_tac. Qed.
Lemma rkeeps_resume settings s body : rkeeps steady (resume settings s body).
Proof. unfold resume. rkeeps_tac. Qed.
Lemma rkeeps_exit settings s body : rkeeps steady (exit settings s body).
Proof. unfold exit. rkeeps_tac. Qed.
Lemma rkeeps_ready settings s app : rkeeps steady (ensure_syncthing_ready http cwd settings s app).
Proof. unfold ensure_syncthing_ready. rkeeps_tac. Qed.
Lemma rkeeps_launch settings s body : rkeeps steady (launch settings s body).
Proof.
  unfold launch. rkeeps_tac. intros y r y'. by case_match; intros [= _ <-].
Qed.
Lemma rkeeps_open settings : rkeeps steady (open_store cwd device settings).
Proof.
  unfold open_store. rkeeps_tac. intros y r y'. repeat case_match; by intros [= _ <-].
Qed.
End steady_requests.

(** ** Requests that move them *)

Lemma batch_grows r r' b : grows r r' → tr_next r' ≤ u64_max → batch_inv r b → batch_inv r' b.
Proof.
  intros Hg Hle [(op & Ho & Happ & Hf) Hid Hst]. split; [|done|done].
  exists op. split_and!; [done..|]. intros path token Ht. destruct (Hf _ _ Ht).
  split; [done|]. by eapply issued_grows.
Qed.

(** The registry moved, the batches did not. *)
Lemma inv_transfers y y' r :
  rpc_inv y → grows (sys_transfers y) r → (cells_inv (sys_transfers y) → cells_inv r) →
  transfers_inv r → steady (with_transfers r y) y' → rpc_inv y'.
Proof.
  intros Hi Hg Hc Ht Hs. eapply steady_inv; [exact Hs|]. destruct Hi as [H1 H2 H3 H4 H5 H6].
  split; cbn; auto. intros id b Hb. eapply batch_grows; [done| |by eapply H5]. apply (ti_next _ Ht).
Qed.

(** One batch changed in place. *)
Lemma inv_alter y y' id b f :
  rpc_inv y → batch_of y id = Some b → ba_app_id (f b) = ba_app_id b →
  batch_inv (sys_transfers y) (f b) →
  steady (with_adapter (with_batches (ad_active_batches (sys_adapter y))
            (alter f id (ad_batches (sys_adapter y))) (sys_adapter y)) y) y' →
  rpc_inv y'.
Proof.
  intros [H1 H2 H3 H4 H5 H6] Hb Happ Hf Hs. eapply steady_inv; [exact Hs|].
  assert (Hl : ∀ id' b', batch_of (with_adapter (with_batches (ad_active_batches (sys_adapter y))
    (alter f id (ad_batches (sys_adapter y))) (sys_adapter y)) y) id' = Some b' →
    (id' = id ∧ b' = f b) ∨ batch_of y id' = Some b').
  { unfold batch_of in *. cbn. intros id' b'. destruct (decide (id = id')) as [->|Hne].
    - rewrite lookup_alter_eq, Hb. intros [= <-]. by left.
    - rewrite lookup_alter_ne by done. by right. }
  split; try done; unfold active_of, batch_of in *; cbn in *.
  - intros app id' Ha. destruct (H3 _ _ Ha) as (b' & Hb' & <-).
    destruct (decide (id = id')) as [->|Hne].
    + rewrite lookup_alter_eq, Hb'. cbn. exists (f b'). split; [done|]. congruence.
    + rewrite lookup_alter_ne by done. eauto.
  - intros id' b' Hb'. destruct (Hl _ _ Hb') as [[-> ->]|?]; eauto.
  - intros id' b' Hb'. destruct (Hl _ _ Hb') as [[-> ->]|?]; eauto.
Qed.

(** The app's batch is given up. *)
Lemma inv_forget y y' app id b :
  rpc_inv y → batch_of y id = Some b → ba_app_id b = app →
  sys_transfers y' = sys_transfers y → sys_next_batch y' = sys_next_batch y →
  ad_active_batches (sys_adapter y') = delete app (ad_active_batches (sys_adapter y)) →
  ad_batches (sys_adapter y') = delete id (ad_batches (sys_adapter y)) ∨
  ad_batches (sys_adapter y') = ad_batches (sys_adapter y) →
  rpc_inv y'.
Proof.
  intros [H1 H2 H3 H4 H5 H6] Hb Happ Ht Hn Ha Hbs.
  assert (Hold : ∀ id' b', batch_of y' id' = Some b' → batch_of y id' = Some b').
  { unfold batch_of. destruct Hbs as [-> | ->]; [|done]. by intros id' b' [_ ?]%lookup_delete_Some. }
  split; rewrite ?Ht, ?Hn; eauto.
  unfold active_of, batch_of in *. rewrite Ha. intros app' id' [Hne Ha']%lookup_delete_Some.
  destruct (H3 _ _ Ha') as (b' & Hb' & Happ'). exists b'. split; [|done].
  destruct Hbs as [-> | ->]; [|done]. rewrite lookup_delete_ne; [done|]. intros ->. congruence.
Qed.

(** A file's target is noted; a file's staging is noted. *)
Lemma batch_with_file r op path token b :
  batch_inv r b → ba_local_operation b = Some op → path ∈ ba_upload_paths b →
  issued_for r op path token → batch_inv r (with_file path token b).
Proof.
  intros [(op1 & Ho1 & Happ1 & Hfiles) Hident Hstaged] Ho Hpath Hiss. simplify_eq.
  split; cbn; [|done|].
  - eexists. split_and!; [done..|]. intros path' token' [[<- <-]|[_ Hf]]%lookup_insert_Some; auto.
  - intros path' sg Hsg. destruct (Hstaged _ _ Hsg) as [[tk Htk] ?]. split; [|done].
    destruct (decide (path = path')) as [->|]; [rewrite lookup_insert_eq|rewrite lookup_insert_ne by done]; eauto.
Qed.

Lemma batch_with_staged r path sg b :
  batch_inv r b → is_Some (ba_files b !! path) → sg_path sg = path →
  batch_inv r (with_staged path sg b).
Proof.
  intros [Hop Hident Hstaged] Hf Hp. split; cbn; [done..|].
  intros path' sg' [[<- <-]|[_ Hs]]%lookup_insert_Some; auto.
Qed.

Section moving_requests.
Context {H : Host} {C : StoreCodec} {FC : FormatCodec} {SeC : SessionCodec} {SC : SyncthingCodec}.
Context {M : CloudMessages} {Zp : Zip}.
Context (instant : nat → Z) (file_order : gmap string StagedFile → list StagedFile).

Lemma rkeeps_download s body : rkeeps moves (file_download instant s body).
Proof.
  unfold file_download. do 4 (apply rkeeps_first; [by eauto with rkeeps|intros ?]).
  intros y r y' Hm.
  assert (∃ r1 w1, (∃ x, issue_download s a0 a1 a2 (sys_transfers y) (sys_world y) = (x, r1, w1)) ∧
    steady (with_transfers r1 y) y') as (r1 & w1 & (x & Hiss) & Hs).
  { destruct (issue_download _ _ _ _ _ _) as [[x r1] w1] eqn:E. exists r1, w1. split; [by eauto|].
    apply rpc_bind_inv in Hm as [([md t] & y1 & Hx & Hm)|(e & Hx & _)].
    - rewrite E in Hx. destruct x; [|done]. injection Hx as _ <-.
      trans (with_transfers r1 (with_world w1 y)); [done|]. revert Hm. apply rkeeps_bind; [by eauto with rkeeps|].
      intros _. rkeeps_tac.
    - rewrite E in Hx. destruct x; [done|]. by injection Hx as _ <-. }
  intros Hi Ht Hn.
  destruct (issue_download_spec _ _ _ _ _ _ _ _ _ (ri_transfers _ Hi) Ht Hiss) as (Hi1 & Hle & _).
  destruct (issue_download_grows _ _ _ _ _ _ _ _ _ (ri_transfers _ Hi) Ht Hiss) as [Hg Hc].
  split; [by eapply inv_transfers|]. destruct Hs as (-> & -> & _). cbn. lia.
Qed.

Lemma abandon_moves app y r y' :
  abandon_batch app y = (r, y') → rpc_inv y →
  rpc_inv y' ∧ sys_transfers y' = sys_transfers y ∧ sys_next_batch y' = sys_next_batch y.
Proof.
  intros Hm Hi. unfold abandon_batch in Hm.
  apply rpc_bind_inv in Hm as [(a & y1 & [= <- <-] & Hm)|(e & [=] & _)].
  destruct (ad_active_batches (sys_adapter y) !! app) as [id|] eqn:Ha.
  2: { by injection Hm as _ <-. }
  destruct (ri_active _ Hi _ _ Ha) as (b & Hb & Happ).
  apply rpc_bind_inv in Hm as [(u & y1 & [= _ <-] & Hm)|(e & [=] & _)].
  apply rpc_bind_inv in Hm as [(u' & y2 & Hab & [= _ <-])|(e & Hab & _)];
    (assert (Hs : steady (with_adapter (with_batches (delete app (ad_active_batches (sys_adapter y)))
       (ad_batches (sys_adapter y)) (sys_adapter y)) y) ltac:(first [exact y2|exact y']));
     [by revert Hab; case_match; [apply rkeeps_store|apply rkeeps_ret]|]);
    destruct Hs as (Ht & Hn & Hac & Hba); cbn in Ht, Hn, Hac, Hba;
    (split; [|done]); eapply inv_forget; eauto; cbn; rewrite Hba; auto.
Qed.

(** A new batch under a new id. *)
Lemma sys_inv_open y request app op identity :
  rpc_inv y → sys_next_batch y < u64_max → op_app_id op = app →
  let y1 := (next_batch_id y).2 in
  rpc_inv (with_adapter (with_batches (<[app := sys_next_batch y]> (ad_active_batches (sys_adapter y)))
    (<[sys_next_batch y := opened request app op identity]> (ad_batches (sys_adapter y)))
    (sys_adapter y)) y1).
Proof.
  intros [H1 H2 H3 H4 H5 H6] Hlt Happ.
  assert (Hn : u64_wrapping_add (sys_next_batch y) 1 = sys_next_batch y + 1).
  { unfold u64_wrapping_add. rewrite Z.mod_small; unfold u64_max in *; lia. }
  assert (Hno : batch_of y (sys_next_batch y) = None).
  { apply eq_None_not_Some. intros [b Hb]. apply H4 in Hb. lia. }
  split; unfold active_of, batch_of in *; cbn; rewrite ?Hn; try done; [..|lia].
  - intros app' id [[<- <-]|[Hne Ha]]%lookup_insert_Some.
    + rewrite lookup_insert_eq. by eexists.
    + destruct (H3 _ _ Ha) as (b & Hb & <-). exists b. split; [|done].
      rewrite lookup_insert_ne; [done|]. congruence.
  - intros id b [[<- <-]|[Hne Hb]]%lookup_insert_Some; [lia|]. apply H4 in Hb. lia.
  - intros id b [[<- <-]|[Hne Hb]]%lookup_insert_Some; [|by eapply H5].
    split; cbn; [|done|by intros ? ?; rewrite lookup_empty]. by exists op.
Qed.

Lemma rkeeps_begin_batch settings s body : rkeeps moves (begin_batch settings s body).
Proof.
  unfold begin_batch. do 3 (apply rkeeps_first; [by eauto with rkeeps|intros ?]).
  do 5 (apply rkeeps_first; [by eauto with rkeeps|intros ?]). destruct a6 as [base resolution].
  intros y r y' Hm Hi Ht Hn.
  apply rpc_bind_inv in Hm as [(u & y1 & Hab & Hm)|(e & Hab & _)];
    destruct (abandon_moves _ _ _ _ Hab Hi) as (Hi1 & Ht1 & Hn1).
  2: { rewrite Ht1, Hn1. split; [done|lia]. }
  apply rpc_bind_inv in Hm as [(op & y2 & Hop & Hm)|(e & Hop & _)];
    pose proof (rkeeps_store _ _ _ _ Hop) as Hs.
  2: { split; [by eapply steady_inv|]. destruct Hs as (-> & -> & _). rewrite Ht1, Hn1. lia. }
  apply on_store_Ok in Hop as (w & Hop & ->). apply begin_expected in Hop as (_ & Happ & _).
  apply (steady_inv _ _ Hs) in Hi1. rpc_inv.
  apply rpc_bind_inv in Hm as [(id & y3 & [= <- <-] & Hm)|(e & [=] & _)].
  apply rpc_bind_inv in Hm as [(u' & y4 & [= _ <-] & [= _ <-])|(e & [=] & _)].
  split; [apply (sys_inv_open (with_world w y1)); try done; cbn; lia|]. cbn. rewrite Ht1.
  unfold u64_wrapping_add. split; [lia|]. rewrite Hn1, Z.mod_small; [lia|].
  destruct Hi. unfold u64_max in *. lia.
Qed.

Lemma rkeeps_begin_file s body : rkeeps moves (begin_file_upload instant s body).
Proof.
  unfold begin_file_upload. do 3 (apply rkeeps_first; [by eauto with rkeeps|intros ?]).
  intros y r y' Hm Hi Ht Hn. rename a0 into app, a1 into path.
  assert (Hstay : ∀ y1, steady y y1 → rpc_inv y1 ∧ tr_next (sys_transfers y1) ≤ tr_next (sys_transfers y) + 1 ∧
    sys_next_batch y1 ≤ sys_next_batch y + 1) by (intros y1 Hs; by apply steady_moves).
  apply rpc_bind_inv in Hm as [(ad & y1 & [= <- <-] & Hm)|(e & [=] & _)].
  apply rpc_bind_inv in Hm as [(id & y1 & [= Hid <-] & Hm)|(e & [= _ <-] & _)]; [|by apply Hstay].
  apply find_batch_Ok in Hid as (b & Hb & Happ & _).
  apply rpc_bind_inv in Hm as [(b' & y1 & [= Hb' <-] & Hm)|(e & [= _ <-] & _)]; [|by apply Hstay].
  rewrite Hb in Hb'. injection Hb' as <-.
  apply rpc_bind_inv in Hm as [(u & y1 & [= Hpath%guard_Ok <-] & Hm)|(e & [= _ <-] & _)]; [|by apply Hstay].
  apply negb_false_iff, bool_decide_eq_true in Hpath.
  apply rpc_bind_inv in Hm as [(sha & y1 & [= _ <-] & Hm)|(e & [= _ <-] & _)]; [|by apply Hstay].
  apply rpc_bind_inv in Hm as [(u' & y1 & [= _ <-] & Hm)|(e & [= _ <-] & _)]; [|by apply Hstay].
  apply rpc_bind_inv in Hm as [(md & y1 & [= _ <-] & Hm)|(e & [= _ <-] & _)]; [|by apply Hstay].
  apply rpc_bind_inv in Hm as [(op & y1 & [= Hop <-] & Hm)|(e & [= _ <-] & _)]; [|by apply Hstay].
  destruct (ba_local_operation b) as [op'|] eqn:Ho; [|done]. injection Hop as ->.
  apply rpc_bind_inv in Hm as [(time & y1 & [= <- <-] & Hm)|(e & [=] & _)].
  destruct (issue_upload s op path (default 0 (bf_file_size a)) md (instant (w_calls (sys_world y)))
    (sys_transfers y)) as [x r1] eqn:Hiss.
  destruct (issue_upload_spec _ _ _ _ _ _ _ _ _ (ri_transfers _ Hi) Ht Hiss) as (Hi1 & Hnx & _ & Hnew).
  destruct (issue_upload_grows _ _ _ _ _ _ _ _ _ (ri_transfers _ Hi) Ht Hiss) as [Hg Hc].
  assert (Hi2 : rpc_inv (with_transfers r1 y)) by (by eapply (inv_transfers y _ r1)).
  apply rpc_bind_inv in Hm as [([token t] & y1 & Hx & Hm)|(e & Hx & _)]; rewrite Hiss in Hx; cbn beta iota in Hx;
    destruct x as [[token' t']|]; try done; simplify_eq.
  2: { split; [done|]. cbn. lia. }
  apply rpc_bind_inv in Hm as [(u2 & y1 & [= _ <-] & Hm)|(e & [=] & _)].
  match type of Hm with _ ?y2 = _ => assert (Hs : steady y2 y') by (by revert Hm; rkeeps_tac) end.
  split; [|destruct Hs as (-> & -> & _); cbn; lia].
  eapply (inv_alter (with_transfers r1 y) y' id b (with_file path token)); try done. cbn.
  destruct (Hnew _ _ eq_refl) as (_ & Htok & u3 & Hu3 & Hl & Ho3 & _).
  eapply batch_with_file; [by apply (ri_batch _ Hi2 id)|done|done|]. split.
  { exists (tr_next (sys_transfers y)). split; [destruct (ri_transfers _ Hi); cbn; lia|done]. }
  intros i u4 Hl' Hu4. cbn in Hl, Hl'. rewrite Hl in Hl'. injection Hl' as <-. cbn in Hu4.
  injection Hu4 as <-. by rewrite Hu3.
Qed.

Lemma rkeeps_commit_file body : rkeeps moves (commit_file_upload instant body).
Proof.
  unfold commit_file_upload. do 3 (apply rkeeps_first; [by eauto with rkeeps|intros ?]).
  intros y r y' Hm Hi Ht Hn. rename a0 into app, a1 into path.
  assert (Hstay : ∀ y1, steady y y1 → rpc_inv y1 ∧ tr_next (sys_transfers y1) ≤ tr_next (sys_transfers y) + 1 ∧
    sys_next_batch y1 ≤ sys_next_batch y + 1) by (intros y1 Hs; by apply steady_moves).
  apply rpc_bind_inv in Hm as [(ad & y1 & [= <- <-] & Hm)|(e & [=] & _)].
  apply rpc_bind_inv in Hm as [(id & y1 & [= Hid <-] & Hm)|(e & [= _ <-] & _)]; [|by apply Hstay].
  apply find_batch_Ok in Hid as (b & Hb & Happ & _). rewrite Hb in Hm. cbn in Hm.
  apply rpc_bind_inv in Hm as [(token & y1 & [= Htok <-] & Hm)|(e & [= _ <-] & _)]; [|by apply Hstay].
  destruct (ba_files b !! path) as [token'|] eqn:Hf; [|done]. injection Htok as ->.
  destruct (default false _); [|apply Hstay; by revert Hm; rkeeps_tac].
  destruct (commit_upload token (instant (w_calls (sys_world y))) (sys_transfers y)) as [x r1] eqn:Hc.
  destruct (commit_upload_grows _ _ _ _ _ (ri_transfers _ Hi) Hc) as (Hg & Hce & Hi1 & Hnx & Hpath).
  assert (Hi2 : rpc_inv (with_transfers r1 y)) by (by eapply (inv_transfers y _ r1)).
  destruct (ri_batch _ Hi _ _ Hb) as [(op & _ & _ & Hfiles) _ _].
  destruct (Hfiles _ _ Hf) as [_ Hiss].
  apply rpc_bind_inv in Hm as [(ok & y1 & Hx & [= _ <-])|(e & Hx & _)];
    (apply rpc_bind_inv in Hx as [(time & y0 & [= <- <-] & Hx)|(e1 & [=] & _)];
     apply rpc_bind_inv in Hx as [(x' & y0 & Hx0 & Hx)|(e1 & Hx0 & _)]; rewrite Hc in Hx0;
     [injection Hx0 as <- <-|discriminate Hx0]).
  all: destruct x as [sg|e2]; [|by injection Hx as _ <-; split; [|cbn; lia]].
  all: apply rpc_bind_inv in Hx as [(u & y0 & [= _ <-] & [= _ <-])|(e3 & [=] & _)].
  split; [|cbn; lia]. eapply (inv_alter (with_transfers r1 y) _ id b (with_staged path sg)); try done.
  apply batch_with_staged; [by apply (ri_batch _ Hi2 id)|by rewrite Hf|].
  eapply Hpath; [done|apply Hi|done].
Qed.

Lemma rkeeps_complete settings s body : rkeeps moves (complete_batch file_order settings s body).
Proof.
  unfold complete_batch. do 2 (apply rkeeps_first; [by eauto with rkeeps|intros ?]).
  intros y r y' Hm Hi Ht Hn. rename a0 into app.
  assert (Hstay : ∀ y1, steady y y1 → rpc_inv y1 ∧ tr_next (sys_transfers y1) ≤ tr_next (sys_transfers y) + 1 ∧
    sys_next_batch y1 ≤ sys_next_batch y + 1) by (intros y1 Hs; by apply steady_moves).
  apply rpc_bind_inv in Hm as [(ad & y1 & [= <- <-] & Hm)|(e & [=] & _)].
  apply rpc_bind_inv in Hm as [(id & y1 & [= Hid <-] & Hm)|(e & [= _ <-] & _)]; [|by apply Hstay].
  apply find_batch_Ok in Hid as (b & Hb & Happ & _).
  (* once the batch is taken out, nothing else moves *)
  assert (Hout : ∀ y1 y2, steady y y1 →
    steady (with_adapter (with_batches (delete app (ad_active_batches (sys_adapter y1)))
      (delete id (ad_batches (sys_adapter y1))) (sys_adapter y1)) y1) y2 →
    rpc_inv y2 ∧ tr_next (sys_transfers y2) ≤ tr_next (sys_transfers y) + 1 ∧
    sys_next_batch y2 ≤ sys_next_batch y + 1).
  { intros y1 y2 (Ht1 & Hn1 & Ha1 & Hb1) (Ht2 & Hn2 & Ha2 & Hb2). cbn in *.
    split; [|rewrite Ht2, Hn2, Ht1, Hn1; lia].
    eapply (inv_forget y y2 app id b); try done; try congruence. left. congruence. }
  apply rpc_bind_inv in Hm as [(u & y1 & Hx & [= _ <-])|(e & Hx & _)];
    (destruct (_ =? ERESULT_OK);
     [|apply rpc_bind_inv in Hx as [(u0 & y0 & [= _ <-] & Hx)|(e0 & [=] & _)];
       eapply Hout; [reflexivity|rkeeps_at Hx]]);
    (apply rpc_bind_inv in Hx as [(b' & y0 & [= _ <-] & Hx)|(e0 & [= _ <-] & _)]; [|by apply Hstay]);
    (apply rpc_bind_inv in Hx as [([[[staged deleted] identity] op] & y0 & [= _ <-] & Hx)|(e0 & [= _ <-] & _)];
     [|by apply Hstay]);
    (apply rpc_bind_inv in Hx as [(n & y0 & Hcm & Hx)|(e0 & Hcm & _)];
     [|by apply Hstay; eapply rkeeps_store]);
    apply rkeeps_store in Hcm as Hs;
    (apply rpc_bind_inv in Hx as [(u1 & y2 & Hset & Hx)|(e0 & [=] & _)]);
    (apply rpc_bind_inv in Hx as [(u2 & y3 & [= _ <-] & Hx)|(e0 & [=] & _)]);
    (eapply Hout; [etrans; [exact Hs|]; rkeeps_at Hset|];
     unfold see_commit in Hx; rkeeps_at Hx).
Qed.
End moving_requests.

(** ** Every history *)

Inductive RpcEvent :=
| Request (settings : CloudSettings) (method : string) (body : list Z)
| Prepare (settings : CloudSettings)
(** a transfer's request, at a time of its own *)
| Transfer (host url : string) (body : list Z) (time : Z)
(** the rest of the world, other devices included *)
| Outside (w : World).

Section histories.
Context {H : Host} {C : StoreCodec} {FC : FormatCodec} {SeC : SessionCodec} {SC : SyncthingCodec}.
Context {M : CloudMessages} {Zp : Zip}.
Context (http : nat → HttpRequest → Node → HttpAnswer * Node) (cwd : Path) (device : Path → Z).
Context (instant : nat → Z) (file_order : gmap string StagedFile → list StagedFile).
Context (batch_order : gmap Z BatchState → list BatchState).

Definition rpc_exec (e : RpcEvent) (y : Sys) : Sys :=
  match e with
  | Request settings method body =>
      (execute_local_rpc http cwd device instant file_order settings method body y).2
  | Prepare settings => (prepare batch_order settings y).2
  | Transfer host url body time =>
      let '(_, r, w) := intercept_transfer host url body time (sys_transfers y) (sys_world y) in
      with_transfers r (with_world w y)
  | Outside w => with_world w y
  end.

Definition rpc_run (es : list RpcEvent) (y : Sys) : Sys := foldl (λ y e, rpc_exec e y) y es.

Lemma rkeeps_execute settings method body :
  rkeeps moves (execute_local_rpc http cwd device instant file_order settings method body).
Proof.
  unfold execute_local_rpc. apply rkeeps_first; [apply rkeeps_open|intros s].
  repeat case_match;
    try solve [apply rkeeps_mono; eauto using rkeeps_quota, rkeeps_delete, rkeeps_suspend, rkeeps_resume,
      rkeeps_resolution, rkeeps_exit, rkeeps_ret, rkeeps_error];
    try solve [eauto using rkeeps_begin_batch, rkeeps_begin_file, rkeeps_commit_file, rkeeps_complete,
      rkeeps_download];
    apply rkeeps_mono; do 2 (apply rkeeps_bind; [apply rkeeps_check|intros ?]);
    (apply rkeeps_bind; [apply rkeeps_ready|intros ?]); eauto using rkeeps_changelist, rkeeps_launch.
Qed.

Lemma rkeeps_abort l : rkeeps steady (abort_operations l).
Proof. induction l as [|b l IH]; cbn; rkeeps_tac. Qed.

Lemma prepare_moves settings : rkeeps moves (prepare batch_order settings).
Proof.
  unfold prepare. apply rkeeps_first; [apply rkeeps_adapter|intros a]. cbn zeta.
  case_bool_decide; [apply rkeeps_mono, rkeeps_ret|].
  apply rkeeps_first; [apply rkeeps_abort|intros _].
  intros y r y' [= _ <-] [H1 H2 H3 H4 H5 H6] Ht Hn. split; [|cbn; lia].
  split; unfold active_of, batch_of; cbn; try done; intros ? ?; by rewrite lookup_empty.
Qed.

Lemma exec_moves e y : moves y (rpc_exec e y).
Proof.
  destruct e as [settings method body|settings|host url body time|w]; cbn [rpc_exec].
  - destruct (execute_local_rpc _ _ _ _ _ _ _ _ _) as [r y'] eqn:E. by eapply rkeeps_execute.
  - destruct (prepare _ _ _) as [r y'] eqn:E. by eapply prepare_moves.
  - intros Hi Ht Hn. destruct (intercept_transfer _ _ _ _ _ _) as [[out r] w] eqn:E.
    destruct (intercept_grows _ _ _ _ _ _ _ _ _ (ri_transfers _ Hi) E) as [Hg Hc].
    destruct (exec_keeps time (Intercept host url body) (sys_transfers y) (sys_world y) r w)
      as (Hi' & Hle & _); [apply Hi|done|cbn; by rewrite E|].
    split; [by eapply (inv_transfers y _ r)|cbn; lia].
  - by apply steady_moves.
Qed.

(** C21 [rpc_batches_invariant]: whatever requests, transfers, changes of settings and changes
    made by other devices arrive, with whatever failures, in every state the adapter can
    reach the open batch of an app exists and is the app's own, no id is used twice, and
    every batch has its operation and identity; a token a batch keeps for a path was issued
    for that path of that operation, and the path was announced; and every file it counts
    as staged was begun and was staged for exactly its path. *)
Theorem rpc_batches_invariant es y :
  sys_transfers y = empty_transfers → sys_next_batch y = 1 → sys_adapter y = new_adapter →
  Z.of_nat (length es) < u64_max → rpc_inv (rpc_run es y).
Proof.
  intros Ht Hn Ha Hlen.
  assert (Hi : rpc_inv y).
  { split; unfold active_of, batch_of; rewrite ?Ht, ?Hn, ?Ha; cbn; try (intros ? ?; by rewrite lookup_empty).
    - apply inv_empty.
    - intros t i u sg. cbn. by rewrite lookup_empty.
    - done. }
  assert (Htb : tr_next (sys_transfers y) + Z.of_nat (length es) ≤ u64_max) by (rewrite Ht; cbn; lia).
  assert (Hnb : sys_next_batch y + Z.of_nat (length es) ≤ u64_max) by (rewrite Hn; lia).
  clear Ht Hn Ha Hlen. revert y Hi Htb Hnb. induction es as [|e es IH]; intros y Hi Htb Hnb; [done|].
  cbn [length] in *. destruct (exec_moves e y Hi) as (Hi' & ? & ?); [lia..|].
  apply (IH (rpc_exec e y)); [done|lia..].
Qed.
End histories.
