(* ===== verification/CumulusRpc.v ===== *)
(** * CumulusRpc: cloud requests answered from the remote service ([cloud-rpc/src/adapter.rs])

    The counterpart of [LocalRpc] for the remote backend: every handler of the adapter, the
    reports of conflicts that wait in the journal, and [execute_rpc], which prepares the
    adapter's state and dispatches to the backend that is configured.

    A request is a computation over [Rpc]: what [LocalRpc] works on, the journal, the issued
    transfer targets, the devices bound so far and everything asked of the service. An error
    leaves what was changed before it. *)

From Stdlib Require Import ZArith Lia.
From S2P Require Import Prelude RustStd CloudCore Storage JournalRecord SyncJournal.
From S2P Require Import FileSystem StoreFiles FolderStore StoreSessions.
From S2P Require Import StoreOpen Syncthing CumulusClient CloudSettings Transfers CloudMessages.
From S2P Require Import LocalRpc.
From S2P Require ConflictUi.

Local Open Scope Z_scope.

(** ** What the service answers ([http.rs]) *)

Record CumulusChangelist := {
  ch_current_change_number : Z; ch_app_buildid_hwm : Z; ch_basis : string;
  ch_changed : list CumulusFile; ch_deleted : list string;
}.
Record CumulusBeginBatch := { cbb_batch_id : string; cbb_app_change_number : Z }.
Record CumulusUploadBlock := {
  cub_target : CumulusTransferTarget; cub_http_method : Z; cub_block_offset : Z;
  cub_block_length : Z; cub_may_parallelize : bool;
}.
Record CumulusDeclaredFile := {
  cdf_file_id : string; cdf_transfer_size : Z; cdf_block_requests : list CumulusUploadBlock;
}.
Record CumulusQuota := {
  cuq_quota_bytes : Z; cuq_used_bytes : Z; cuq_max_files : Z; cuq_used_files : Z;
}.
Record CumulusPendingOperation := {
  cpo_operation : Z; cpo_machine_name : string; cpo_client_id : string;
  cpo_time_last_updated : Z; cpo_os_type : option Z; cpo_device_type : option Z;
}.

(** [serde_json]'s decoders; [CumulusManifest], [CumulusCommit] and [CumulusLaunch] have one
    field each. *)
Class AdapterCodec := {
  decode_changelist : string → result string CumulusChangelist;
  decode_manifest_files : string → result string (list CumulusFile);
  decode_begin_batch : string → result string CumulusBeginBatch;
  decode_declared_file : string → result string CumulusDeclaredFile;
  decode_transfer_target : string → result string CumulusTransferTarget;
  decode_commit : string → result string Z;
  decode_quota : string → result string CumulusQuota;
  decode_launch : string → result string (list CumulusPendingOperation);
}.

(** ** The adapter's state *)

Definition with_files (files : gmap (Z * string) CumulusFile) (a : AdapterState) : AdapterState :=
  {| ad_scope := ad_scope a; ad_current_change_numbers := ad_current_change_numbers a;
     ad_client_change_numbers := ad_client_change_numbers a;
     ad_active_batches := ad_active_batches a; ad_batches := ad_batches a;
     ad_local_apps := ad_local_apps a; ad_files := files;
     ad_principal_scope := ad_principal_scope a; ad_local_store := ad_local_store a |}.
Definition with_principal (scope : list Z) (a : AdapterState) : AdapterState :=
  {| ad_scope := ad_scope a; ad_current_change_numbers := ad_current_change_numbers a;
     ad_client_change_numbers := ad_client_change_numbers a;
     ad_active_batches := ad_active_batches a; ad_batches := ad_batches a;
     ad_local_apps := ad_local_apps a; ad_files := ad_files a;
     ad_principal_scope := Some scope; ad_local_store := ad_local_store a |}.

(** [files.retain(|(cached_app, _), _| *cached_app != app_id)] *)
Definition forget_files (app_id : Z) (files : gmap (Z * string) CumulusFile)
    : gmap (Z * string) CumulusFile := filter (λ x, x.1.1 ≠ app_id) files.
Definition insert_files (app_id : Z) (l : list CumulusFile) (files : gmap (Z * string) CumulusFile)
    : gmap (Z * string) CumulusFile :=
  foldl (λ files f, <[(app_id, cm_path f) := f]> files) files l.
Definition remove_files (app_id : Z) (l : list string) (files : gmap (Z * string) CumulusFile)
    : gmap (Z * string) CumulusFile :=
  foldl (λ files path, delete (app_id, path) files) files l.

(** [as i32] *)
Definition as_i32 (n : Z) : Z := (n + 2 ^ 31) mod 2 ^ 32 - 2 ^ 31.

Definition decimal (n : Z) : string := bytes_str (dec_text n).

(** ** [steam_file_info] *)

Definition steam_file_info (path : string) (file : option CumulusFile) (persist_state : Z)
    (prefixes : list string) (indexes : gmap string Z)
    : AR (CloudAppFileInfo * list string * gmap string Z) :=
  let '(prefix, leaf) := split_cloud_path path in
  let '(index, prefixes, indexes) := prefix_index prefix prefixes indexes in
  sha ← match file with None => Ok None | Some f => Some <$> hex_to_bytes (cm_sha1 f) end;
  timestamp ← match file with
              | None => Ok None
              | Some f => Some <$> nonnegative_u64 (cm_mtime f) "mtime"
              end;
  Ok ({| fi_file_name := Some leaf; fi_sha_file := sha; fi_timestamp := timestamp;
         fi_raw_file_size := (λ f, clamp_u32 (cm_size f)) <$> file;
         fi_persist_state := Some persist_state;
         fi_platforms_to_sync :=
           Some (match file with None => u32_max | Some f => clamp_u32 (cm_platforms_to_sync f) end);
         fi_path_prefix_index := Some index; fi_machine_name_index := Some 0;
         fi_reupload_requested := None |}, prefixes, indexes).

(** The loop over the changed files, then the deleted paths. *)
Fixpoint steam_file_infos (l : list (string * option CumulusFile)) (prefixes : list string)
    (indexes : gmap string Z) : AR (list CloudAppFileInfo * list string) :=
  match l with
  | [] => Ok ([], prefixes)
  | (path, file) :: l =>
      '(info, prefixes, indexes) ←
        steam_file_info path file (match file with Some _ => 0 | None => 2 end) prefixes indexes;
      '(rest, prefixes) ← steam_file_infos l prefixes indexes;
      Ok (info :: rest, prefixes)
  end.

(** ** The blocks of an upload *)

Section blocks.
Context {U : UriParser}.

Definition upload_block (b : CumulusUploadBlock) (t : ResolvedTransferTarget)
    : CloudFileUploadBlockDetails :=
  {| ub_url_host := Some (rt_authority t); ub_url_path := Some (rt_path t);
     ub_use_https := Some (rt_https t); ub_http_method := Some (cub_http_method b);
     ub_request_headers := rt_headers t; ub_block_offset := Some (cub_block_offset b);
     ub_block_length := Some (cub_block_length b); ub_explicit_body_data := None;
     ub_may_parallelize := Some (cub_may_parallelize b) |}.

(** The loop over the announced blocks; the result has where the last one ends. *)
Fixpoint upload_blocks (client : CumulusClient) (transfer_size : Z) (block_count : nat)
    (l : list CumulusUploadBlock) (expected_offset : Z)
    : AR (list CloudFileUploadBlockDetails * Z) :=
  match l with
  | [] => Ok ([], expected_offset)
  | b :: l =>
      if negb (cub_http_method b =? HTTP_METHOD_PUT)
      then Err (Protocol "Cumulus returned a non-PUT upload block")
      else if negb (cub_block_offset b =? expected_offset)
      then Err (Protocol "Cumulus upload blocks are not contiguous")
      else
        let block_end := expected_offset + cub_block_length b in
        if u64_max <? block_end then Err (Protocol "Cumulus upload block overflow")
        else if (transfer_size <? block_end)
                || (0 <? transfer_size) && (cub_block_length b =? 0)
                || (transfer_size =? 0) && negb (block_count =? 1)%nat
        then Err (Protocol "Cumulus returned an invalid upload block length")
        else
          target ← resolve_transfer_target client (cub_target b);
          '(rest, last) ← upload_blocks client transfer_size block_count l block_end;
          Ok (upload_block b target :: rest, last)
  end.

(** Everything checked of a declared file, up to the blocks Steam is given. *)
Definition declared_blocks (client : CumulusClient) (transfer_size : Z)
    (declared : CumulusDeclaredFile) : AR (list CloudFileUploadBlockDetails) :=
  if negb (cdf_transfer_size declared =? transfer_size)
  then Err (Protocol "Cumulus changed the declared transfer size")
  else if bool_decide (cdf_file_id declared = "")
  then Err (Protocol "Cumulus returned an empty file id")
  else if bool_decide (length (cdf_block_requests declared) = 0%nat)
  then Err (Protocol "Cumulus returned no upload blocks")
  else
    '(blocks, last) ← upload_blocks client transfer_size (length (cdf_block_requests declared))
                        (cdf_block_requests declared) 0;
    if negb (last =? transfer_size)
    then Err (Protocol "Cumulus upload blocks do not cover the transfer")
    else Ok blocks.
End blocks.

(** ** Requests *)

Section adapter.
Context {M : CloudMessages} {U : UriParser} {CC : CumulusCodec} {AC : AdapterCodec}.
Context {St : Structsy} (sha256 : list Z → list Z).
(** The HTTP library and the service; the device of the process; its id; the clocks at the
    [n]-th reading, in seconds since 1970 and in nanoseconds of the two clocks. *)
Context (service : ServiceLog → ServiceRequest → ServiceAnswer).
Context (device_descriptor : option DeviceDescriptor) (process_id : Z).
Context (unix instant nanos : nat → Z).

Record Rpc := {
  rp_sys : Sys;
  rp_journal : option Database;
  rp_targets : list TransferTargets.IssuedTransferTarget;
  rp_bound : list (list Z * DeviceDescriptor);
  rp_log : ServiceLog;
  rp_sequence : Z;
  rp_ticks : nat;
}.

Definition with_sys (y : Sys) (p : Rpc) : Rpc :=
  {| rp_sys := y; rp_journal := rp_journal p; rp_targets := rp_targets p; rp_bound := rp_bound p;
     rp_log := rp_log p; rp_sequence := rp_sequence p; rp_ticks := rp_ticks p |}.
Definition with_journal (j : Database) (p : Rpc) : Rpc :=
  {| rp_sys := rp_sys p; rp_journal := Some j; rp_targets := rp_targets p; rp_bound := rp_bound p;
     rp_log := rp_log p; rp_sequence := rp_sequence p; rp_ticks := rp_ticks p |}.
Definition with_issued_targets (t : list TransferTargets.IssuedTransferTarget) (p : Rpc) : Rpc :=
  {| rp_sys := rp_sys p; rp_journal := rp_journal p; rp_targets := t; rp_bound := rp_bound p;
     rp_log := rp_log p; rp_sequence := rp_sequence p; rp_ticks := rp_ticks p |}.
Definition with_log (bound : list (list Z * DeviceDescriptor)) (l : ServiceLog) (p : Rpc) : Rpc :=
  {| rp_sys := rp_sys p; rp_journal := rp_journal p; rp_targets := rp_targets p; rp_bound := bound;
     rp_log := l; rp_sequence := rp_sequence p; rp_ticks := rp_ticks p |}.

Definition CR (A : Type) : Type := Rpc → AR A * Rpc.
#[export] Instance CR_ret : MRet CR := λ A a p, (Ok a, p).
#[export] Instance CR_bind : MBind CR := λ A B k m p,
  match m p with (Ok a, p) => k a p | (Err e, p) => (Err e, p) end.

(** A value computed without the state, [?] *)
Definition pure {A} (r : AR A) : CR A := λ p, (r, p).
(** A call of what the local adapter works on. *)
Definition on_sys {A} (m : RPC A) : CR A := λ p,
  let '(r, y) := m (rp_sys p) in (r, with_sys y p).
Definition state : CR AdapterState := λ p, (Ok (sys_adapter (rp_sys p)), p).
Definition modify (f : AdapterState → AdapterState) : CR unit := on_sys (update f).
(** [impl From<CumulusError> for AdapterError] *)
Definition on_service {A} (m : Net A) : CR A := λ p,
  let '(r, l) := m (rp_log p) in
  (match r with Ok a => Ok a | Err e => Err (Client e) end, with_log (rp_bound p) l p).
(** A call whose failure is handled. *)
Definition attempt {A} (m : CR A) : CR (AR A) := λ p, let '(r, p) := m p in (Ok r, p).
(** An operation on the journal, when there is one. *)
Definition on_journal {A} (f : Database → JR A * Database) : CR (option A) := λ p,
  match rp_journal p with
  | None => (Ok None, p)
  | Some j =>
      let '(r, j) := f j in
      (match r with Ok a => Ok (Some a) | Err e => Err (Store e) end, with_journal j p)
  end.

Definition tick (p : Rpc) : Rpc :=
  {| rp_sys := rp_sys p; rp_journal := rp_journal p; rp_targets := rp_targets p;
     rp_bound := rp_bound p; rp_log := rp_log p; rp_sequence := rp_sequence p;
     rp_ticks := S (rp_ticks p) |}.
Definition unix_now : CR Z := λ p, (Ok (unix (rp_ticks p)), tick p).
(** [new_conflict_event_id] *)
Definition new_conflict_event_id : CR string := λ p,
  let material := dec_text (nanos (rp_ticks p)) ++ str_bytes ":" ++ dec_text process_id
                  ++ str_bytes ":" ++ dec_text (rp_sequence p) in
  (Ok (bytes_str (uuid_from_digest (sha256 material) 4)),
   {| rp_sys := rp_sys p; rp_journal := rp_journal p; rp_targets := rp_targets p;
      rp_bound := rp_bound p; rp_log := rp_log p;
      rp_sequence := u64_wrapping_add (rp_sequence p) 1; rp_ticks := S (rp_ticks p) |}).

(** [AdapterState::scope]; [prepare] has set it, anything else is a panic. *)
Definition scope : CR CloudStateScope :=
  a ← state; pure (match ad_scope a with
                   | Some s => Ok s
                   | None => Err (Protocol "adapter scope prepared before RPC dispatch")
                   end).

Definition register_target (scope : CloudStateScope) (authority path : string) : CR unit := λ p,
  (Ok tt, tick (with_issued_targets
     (TransferTargets.register (rp_targets p) scope authority path (instant (rp_ticks p))) p)).

Fixpoint register_blocks (scope : CloudStateScope) (l : list CloudFileUploadBlockDetails) : CR unit :=
  match l with
  | [] => mret tt
  | b :: l =>
      _ ← register_target scope (default "" (ub_url_host b)) (default "" (ub_url_path b));
      register_blocks scope l
  end.

(** *** Reading *)

Definition handle_changelist (client : CumulusClient) (body : list Z) : CR RpcReply :=
  request ← pure (decode_body (M := CloudGetAppFileChangelistRequest) body);
  app_id ← pure (required (gc_app_id request) "appid");
  let synced := default 0 (gc_synced_change_number request) in
  response ← on_service (get_json service decode_changelist (cu_inner client)
    ("/api/v1/apps/" ++ decimal app_id ++ "/changelist?synced_change_number=" ++ decimal synced));
  current ← pure (nonnegative_u64 (ch_current_change_number response) "current_change_number");
  _ ← modify (λ a, set_client_number app_id synced (set_change_number app_id current a));
  _ ← modify (λ a, with_files
        (remove_files app_id (ch_deleted response)
           (insert_files app_id (ch_changed response)
              (if bool_decide (ch_basis response = "full") then forget_files app_id (ad_files a)
               else ad_files a))) a);
  '(files, prefixes) ← pure (steam_file_infos
      (((λ f, (cm_path f, Some f)) <$> ch_changed response)
       ++ ((λ path, (path, None)) <$> ch_deleted response)) [] ∅);
  hwm ← pure (nonnegative_u64 (ch_app_buildid_hwm response) "app_buildid_hwm");
  mret (reply_ok (encode_to_vec {|
    gr_current_change_number := Some current; gr_files := files;
    gr_is_only_delta := Some (bool_decide (ch_basis response = "delta"));
    gr_path_prefixes := prefixes;
    gr_machine_names := if bool_decide (length files = 0%nat) then [] else ["Cumulus"];
    gr_app_build_id_hwm := Some hwm |})).

Definition handle_file_download (client : CumulusClient) (body : list Z) : CR RpcReply :=
  request ← pure (decode_body (M := CloudClientFileDownloadRequest) body);
  app_id ← pure (required (fd_app_id request) "appid");
  path ← pure (required (fd_filename request) "filename");
  a ← state;
  _ ← match ad_files a !! (app_id, path) with
      | Some _ => mret tt
      | None =>
          files ← on_service (get_json service decode_manifest_files (cu_inner client)
                                ("/api/v1/apps/" ++ decimal app_id ++ "/manifest"));
          modify (λ a, with_files (insert_files app_id files (ad_files a)) a)
      end;
  a ← state;
  file ← pure (match ad_files a !! (app_id, path) with
               | Some file => Ok file
               | None => Err (Protocol "download file is not in the manifest")
               end);
  file_id ← pure (required (cm_file_id file) "file_id");
  target ← on_service (get_json service decode_transfer_target (cu_inner client)
                         ("/api/v1/files/" ++ decimal file_id ++ "/download-target"));
  target ← pure (resolve_transfer_target client target);
  scope ← scope;
  _ ← register_target scope (rt_authority target) (rt_path target);
  let size := clamp_u32 (cm_size file) in
  sha ← pure (hex_to_bytes (cm_sha1 file));
  timestamp ← pure (nonnegative_u64 (cm_mtime file) "mtime");
  mret (reply_ok (encode_to_vec {|
    dr_app_id := Some app_id; dr_file_size := Some size; dr_raw_file_size := Some size;
    dr_sha_file := Some sha; dr_timestamp := Some timestamp; dr_is_explicit_delete := Some false;
    dr_url_host := Some (rt_authority target); dr_url_path := Some (rt_path target);
    dr_use_https := Some (rt_https target); dr_request_headers := rt_headers target;
    dr_encrypted := Some false |})).

Definition handle_quota (client : CumulusClient) (body : list Z) : CR RpcReply :=
  request ← pure (decode_body (M := CloudClientGetAppQuotaUsageRequest) body);
  app_id ← pure (required (qu_app_id request) "appid");
  quota ← on_service (get_json service decode_quota (cu_inner client)
                        ("/api/v1/apps/" ++ decimal app_id ++ "/quota"));
  used ← pure (nonnegative_u64 (cuq_used_bytes quota) "used_bytes");
  total ← pure (nonnegative_u64 (cuq_quota_bytes quota) "quota_bytes");
  mret (reply_ok (encode_to_vec {|
    qr_existing_files := Some (clamp_u32 (cuq_used_files quota)); qr_existing_bytes := Some used;
    qr_max_num_files := Some (clamp_u32 (cuq_max_files quota)); qr_max_num_bytes := Some total |})).

(** *** Batches *)

Definition handle_begin_batch (client : CumulusClient) (conflict_scope : list Z) (body : list Z)
    : CR RpcReply :=
  request ← pure (decode_body (M := CloudBeginAppUploadBatchRequest) body);
  app_id ← pure (required (bb_app_id request) "appid");
  a ← state;
  base ← pure (match ad_current_change_numbers a !! app_id with
               | Some base => Ok base
               | None => Err (Protocol "upload started before a verified changelist")
               end);
  _ ← match ad_active_batches a !! app_id with
      | None => mret tt
      | Some previous =>
          _ ← on_service (delete_allow_not_found service (cu_inner client)
                            ("/api/v1/upload-batches/" ++ decimal previous));
          modify (λ a, with_batches (delete app_id (ad_active_batches a))
                         (delete previous (ad_batches a)) a)
      end;
  response ← on_service (post_json_response service decode_begin_batch (cu_inner client)
    ("/api/v1/steam/apps/" ++ decimal app_id ++ "/upload-batches")
    (VObject [("base_change_number", VNumber (signed_bits base));
              ("machine_name", v_option VString (bb_machine_name request));
              ("app_build_id", v_option (λ id, VNumber (signed_bits id)) (bb_app_build_id request));
              ("files_to_upload", v_list VString (bb_files_to_upload request));
              ("files_to_delete", v_list VString (bb_files_to_delete request))]));
  batch_id ← pure (parse_batch_id (cbb_batch_id response));
  conflict_resolution ←
    on_journal (λ j, (Ok (pending_local_conflict (bytes_str conflict_scope) app_id base j), j));
  _ ← modify (λ a, with_batches (<[app_id := batch_id]> (ad_active_batches a))
        (<[batch_id := {|
           ba_app_id := app_id; ba_upload_paths := list_to_set (bb_files_to_upload request);
           ba_delete_paths := list_to_set (bb_files_to_delete request);
           ba_files := ∅; ba_local_files := ∅; ba_local_operation := None;
           ba_local_identity := None;
           ba_conflict_resolution := mjoin conflict_resolution |}]> (ad_batches a)) a);
  app_change_number ← pure (nonnegative_u64 (cbb_app_change_number response) "app_change_number");
  mret (reply_ok (encode_to_vec {|
    bs_batch_id := Some batch_id; bs_app_change_number := Some app_change_number |})).

(** What is transferred: the size Steam reports, or the size of the file. *)
Definition upload_raw_size (request : CloudClientBeginFileUploadRequest) : Z :=
  match bf_raw_file_size request with Some size => size | None => default 0 (bf_file_size request) end.
Definition upload_transfer_size (request : CloudClientBeginFileUploadRequest) : Z :=
  let reported := default 0 (bf_file_size request) in
  if reported =? 0 then upload_raw_size request else reported.

Definition handle_begin_file_upload (client : CumulusClient) (body : list Z) : CR RpcReply :=
  request ← pure (decode_body (M := CloudClientBeginFileUploadRequest) body);
  app_id ← pure (required (bf_app_id request) "appid");
  path ← pure (required (bf_filename request) "filename");
  a ← state;
  batch_id ← pure (find_batch_id a app_id (bf_upload_batch_id request));
  batch ← pure (match ad_batches a !! batch_id with
                | Some b => Ok b
                | None => Err (Protocol "unknown upload batch")
                end);
  _ ← pure (if negb (bool_decide (path ∈ ba_upload_paths batch))
            then Err (Protocol ("file was not listed in BeginAppUploadBatch: " ++ path))
            else Ok tt);
  let raw_size := upload_raw_size request in
  let transfer_size := upload_transfer_size request in
  file_sha ← pure (required (bf_file_sha request) "file_sha");
  let sha1 := bytes_to_hex file_sha in
  _ ← pure (if negb (str_len sha1 =? 40) then Err (Protocol "file_sha is not a SHA-1") else Ok tt);
  declared ← on_service (post_json_response service decode_declared_file (cu_inner client)
    ("/api/v1/steam/upload-batches/" ++ decimal batch_id ++ "/files")
    (VObject [("path", VString path); ("transfer_size", VNumber transfer_size);
              ("raw_size", VNumber raw_size); ("sha1", VString sha1);
              ("mtime", VNumber (default 0 (bf_timestamp request)));
              ("platforms_to_sync", VNumber (default u32_max (bf_platforms_to_sync request)))]));
  blocks ← pure (declared_blocks client transfer_size declared);
  scope ← scope;
  _ ← register_blocks scope blocks;
  _ ← on_sys (set_batch_file batch_id path (cdf_file_id declared));
  mret (reply_ok (encode_to_vec {|
    bu_encrypt_file := Some false; bu_block_requests := blocks |})).

Definition handle_commit_file_upload (client : CumulusClient) (body : list Z) : CR RpcReply :=
  request ← pure (decode_body (M := CloudClientCommitFileUploadRequest) body);
  app_id ← pure (required (cf_app_id request) "appid");
  path ← pure (required (cf_filename request) "filename");
  if negb (default false (cf_transfer_succeeded request)) then
    mret (reply_ok (encode_to_vec {| cs_file_committed := Some false |}))
  else
    a ← state;
    batch_id ← pure (find_batch_id a app_id None);
    batch ← pure (match ad_batches a !! batch_id with
                  | Some b => Ok b
                  | None => Err (Protocol "unknown upload batch")
                  end);
    file_id ← pure (match ba_files batch !! path with
                    | Some id => Ok id
                    | None => Err (Protocol "upload was not begun for this file")
                    end);
    _ ← on_service (post_unit service (cu_inner client)
          ("/api/v1/upload-batches/" ++ decimal batch_id ++ "/files/" ++ file_id ++ "/finalize"));
    mret (reply_ok (encode_to_vec {| cs_file_committed := Some true |})).

(** What a commit says about the conflict it settles. *)
Definition resolution_value (e : ConflictResolutionEvent) : Value := VObject [
  ("event_id", VString (ce_event_id e));
  ("base_change_number", VNumber (signed_bits (ce_base_change_number e)));
  ("resolution", VString (ce_resolution e))].

Definition handle_complete_batch (client : CumulusClient) (body : list Z) : CR RpcReply :=
  request ← pure (decode_body (M := CloudCompleteAppUploadBatchRequest) body);
  app_id ← pure (required (cb_app_id request) "appid");
  a ← state;
  batch_id ← pure (find_batch_id a app_id (cb_batch_id request));
  _ ← (if negb (default 0 (cb_batch_eresult request) =? ERESULT_OK) then
         on_service (delete_path service (cu_inner client)
                       ("/api/v1/upload-batches/" ++ decimal batch_id))
       else
         let resolution := ad_batches a !! batch_id ≫= ba_conflict_resolution in
         change_number ← on_service (post_json_response service decode_commit (cu_inner client)
           ("/api/v1/upload-batches/" ++ decimal batch_id ++ "/commit")
           (VObject [("conflict_resolution",
                      v_option (λ q, resolution_value (q_value q)) resolution)]));
         change_number ← pure (nonnegative_u64 change_number "change_number");
         _ ← modify (set_change_number app_id change_number);
         _ ← modify (λ a, with_files (forget_files app_id (ad_files a)) a);
         match resolution with
         | Some queued => _ ← on_journal (acknowledge queued); mret tt
         | None => mret tt
         end);
  _ ← modify (λ a, with_batches (delete app_id (ad_active_batches a))
                     (delete batch_id (ad_batches a)) a);
  mret (reply_ok empty_message).

Definition handle_delete_file (body : list Z) : CR RpcReply :=
  request ← pure (decode_body (M := CloudClientDeleteFileRequest) body);
  app_id ← pure (required (df_app_id request) "appid");
  path ← pure (required (df_filename request) "filename");
  a ← state;
  batch_id ← pure (find_batch_id a app_id (df_upload_batch_id request));
  batch ← pure (match ad_batches a !! batch_id with
                | Some b => Ok b
                | None => Err (Protocol "unknown upload batch")
                end);
  _ ← pure (if negb (bool_decide (path ∈ ba_delete_paths batch))
            then Err (Protocol ("file was not listed for deletion: " ++ path)) else Ok tt);
  mret (reply_ok empty_message).

(** *** Sessions *)

(** [client_id.to_string()] of a required id *)
Definition client_value (client_id : option Z) : AR Value :=
  id ← required client_id "client_id"; Ok (VString (decimal id)).

Fixpoint pending_operations (l : list CumulusPendingOperation)
    : AR (list CloudPendingRemoteOperation) :=
  match l with
  | [] => Ok []
  | o :: l =>
      client_id ← match parse_unsigned u64_max (str_bytes (cpo_client_id o)) with
                  | Some id => Ok id
                  | None => Err (Protocol "Cumulus returned an invalid Steam ClientID")
                  end;
      rest ← pending_operations l;
      Ok ({| po_operation := Some (as_i32 (cpo_operation o));
             po_machine_name := Some (cpo_machine_name o); po_client_id := Some client_id;
             po_time_last_updated := Some (clamp_u32 (cpo_time_last_updated o));
             po_os_type := as_i32 <$> cpo_os_type o;
             po_device_type := as_i32 <$> cpo_device_type o |} :: rest)
  end.

Definition handle_launch (client : CumulusClient) (body : list Z) : CR RpcReply :=
  request ← pure (decode_body (M := CloudAppLaunchIntentRequest) body);
  app_id ← pure (required (li_app_id request) "appid");
  client_id ← pure (client_value (li_client_id request));
  response ← on_service (post_json_response service decode_launch (cu_inner client)
    ("/api/v1/apps/" ++ decimal app_id ++ "/session/launch")
    (VObject [("client_id", client_id);
              ("machine_name", VString (default "unknown" (li_machine_name request)));
              ("ignore_pending", VBool (default false (li_ignore_pending_operations request)));
              ("os_type", v_option VNumber (li_os_type request));
              ("device_type", v_option VNumber (li_device_type request))]));
  pending ← pure (pending_operations response);
  mret {| re_body := encode_to_vec {| lr_pending := pending |};
          re_eresult := if bool_decide (length pending = 0%nat) then ERESULT_OK
                        else ERESULT_TOO_MANY_PENDING |}.

Definition handle_suspend (client : CumulusClient) (body : list Z) : CR RpcReply :=
  request ← pure (decode_body (M := CloudAppSessionSuspendRequest) body);
  app_id ← pure (required (sr_app_id request) "appid");
  client_id ← pure (client_value (sr_client_id request));
  _ ← on_service (post_json_unit service (cu_inner client)
        ("/api/v1/apps/" ++ decimal app_id ++ "/session/suspend")
        (VObject [("client_id", client_id);
                  ("cloud_sync_completed", v_option VBool (sr_cloud_sync_completed request))]));
  mret (reply_ok empty_message).

Definition handle_resume (client : CumulusClient) (body : list Z) : CR RpcReply :=
  request ← pure (decode_body (M := CloudAppSessionResumeRequest) body);
  app_id ← pure (required (rr_app_id request) "appid");
  client_id ← pure (client_value (rr_client_id request));
  _ ← on_service (post_json_unit service (cu_inner client)
        ("/api/v1/apps/" ++ decimal app_id ++ "/session/resume")
        (VObject [("client_id", client_id)]));
  mret (reply_ok empty_message).

Definition handle_exit (client : CumulusClient) (body : list Z) : CR RpcReply :=
  request ← pure (decode_body (M := CloudAppExitSyncDoneNotification) body);
  app_id ← pure (required (ex_app_id request) "appid");
  client_id ← pure (client_value (ex_client_id request));
  _ ← on_service (post_json_unit service (cu_inner client)
        ("/api/v1/apps/" ++ decimal app_id ++ "/session/exit")
        (VObject [("client_id", client_id);
                  ("uploads_completed", v_option VBool (ex_uploads_completed request));
                  ("uploads_required", v_option VBool (ex_uploads_required request))]));
  mret (reply_ok []).

(** *** Conflicts *)

Definition kept_cloud_value (e : ConflictResolutionEvent) : Value := VObject [
  ("event_id", VString (ce_event_id e));
  ("base_change_number", VNumber (signed_bits (ce_base_change_number e)));
  ("machine_name", v_option VString (ce_machine_name e))].

(** One after the other; the first that fails is put off and ends the loop. *)
Fixpoint deliver_conflicts (client : CumulusClient) (now : Z)
    (l : list (Queued ConflictResolutionEvent)) : CR unit :=
  match l with
  | [] => mret tt
  | queued :: l =>
      let e := q_value queued in
      result ← attempt (on_service (post_json_unit service (cu_inner client)
        ("/api/v1/apps/" ++ decimal (ce_app_id e) ++ "/conflicts/kept-cloud") (kept_cloud_value e)));
      match result with
      | Ok _ => _ ← on_journal (acknowledge queued); deliver_conflicts client now l
      | Err error => _ ← on_journal (defer queued now); pure (Err error)
      end
  end.

Definition deliver_ready_conflicts (client : CumulusClient) (conflict_scope : list Z) : CR unit :=
  λ p, match rp_journal p with
       | None => (Ok tt, p)
       | Some _ =>
           (now ← unix_now;
            pending ← on_journal (λ j,
              (Ok (pending_cloud_conflicts now (bytes_str conflict_scope) j), j));
            deliver_conflicts client now (default [] pending)) p
       end.

(** [CumulusBackend::principal_scope] *)
Definition backend_principal_scope (settings : CumulusSettings) : CR (list Z) := λ p,
  let '(r, l) := device_principal_scope service sha256 settings (rp_log p) in
  (match r with Ok s => Ok s | Err e => Err (Backend (backend_error e)) end,
   with_log (rp_bound p) l p).

Definition change_number_of (numbers : gmap Z Z) (app_id : Z) : AR Z :=
  match numbers !! app_id with
  | Some n => Ok n
  | None => Err (Protocol "conflict reported before a verified changelist")
  end.

Definition handle_conflict_resolution (settings : CumulusSettings) (client : CumulusClient)
    (body : list Z) : CR RpcReply :=
  request ← pure (decode_body (M := CloudClientConflictResolutionNotification) body);
  app_id ← pure (required (cn_app_id request) "appid");
  a ← state;
  base_change_number ← pure (change_number_of (ad_client_change_numbers a) app_id);
  remote_change_number ← pure (change_number_of (ad_current_change_numbers a) app_id);
  scope ← scope;
  let credential := bytes_str (sc_fingerprint scope) in
  event_id ← new_conflict_event_id;
  let resolution := {|
    ce_owner_scope := credential; ce_event_id := event_id; ce_app_id := app_id;
    ce_base_change_number := base_change_number; ce_remote_change_number := remote_change_number;
    ce_resolution := if default false (cn_chose_local_files request)
                     then "kept_local" else "kept_cloud";
    ce_machine_name := dd_machine_name <$> device_descriptor |} in
  now ← unix_now;
  enqueued ← on_journal (enqueue_conflict resolution now);
  _ ← pure (match enqueued with
            | Some _ => Ok tt
            | None => Err (Protocol "conflict journal is unavailable")
            end);
  principal ← attempt (backend_principal_scope settings);
  match principal with
  | Err _ => mret (reply_ok [])
  | Ok conflict_scope =>
      _ ← modify (with_principal conflict_scope);
      attributed ←
        attempt (on_journal (attribute_pending_conflicts credential (bytes_str conflict_scope)));
      match attributed with
      | Err _ => mret (reply_ok [])
      | Ok _ =>
          _ ← (if bool_decide (ce_resolution resolution = "kept_cloud") then
                 _ ← attempt (deliver_ready_conflicts client conflict_scope); mret tt
               else mret tt);
          mret (reply_ok [])
      end
  end.

(** *** Reports of transfers *)

Definition handle_cdn_report (client : CumulusClient) (body : list Z) : CR RpcReply :=
  report ← pure (decode_body (M := CloudCdnReportNotification) body);
  url ← pure (required (cr_url report) "url");
  _ ← on_service (post_json_unit service (cu_inner client) "/api/v1/steam/transfer-reports"
        (VObject [("kind", VString "cdn"); ("target", VString url); ("is_upload", VBool false);
                  ("success", VBool (default false (cr_success report)));
                  ("http_status_code", v_option VNumber (cr_http_status_code report));
                  ("bytes_expected", v_option VNumber (cr_expected_bytes report));
                  ("bytes_actual", v_option VNumber (cr_received_bytes report));
                  ("duration_ms", v_option VNumber (cr_duration report))]));
  mret (reply_ok []).

Definition handle_external_transfer_report (client : CumulusClient) (body : list Z) : CR RpcReply :=
  report ← pure (decode_body (M := CloudExternalStorageTransferReportNotification) body);
  host ← pure (required (er_host report) "host");
  path ← pure (required (er_path report) "path");
  _ ← on_service (post_json_unit service (cu_inner client) "/api/v1/steam/transfer-reports"
        (VObject [("kind", VString "external"); ("target", VString ("//" ++ host ++ path));
                  ("is_upload", v_option VBool (er_is_upload report));
                  ("success", VBool (default false (er_success report)));
                  ("http_status_code", v_option VNumber (er_http_status_code report));
                  ("bytes_expected", v_option VNumber (er_bytes_expected report));
                  ("bytes_actual", v_option VNumber (er_bytes_actual report));
                  ("duration_ms", v_option VNumber (er_duration_ms report));
                  ("cell_id", v_option VNumber (er_cell_id report));
                  ("proxied", v_option VBool (er_proxied report));
                  ("ipv6_local", v_option VBool (er_ipv6_local report));
                  ("ipv6_remote", v_option VBool (er_ipv6_remote report));
                  ("time_to_connect_ms", v_option VNumber (er_time_to_connect_ms report));
                  ("time_to_send_request_ms", v_option VNumber (er_time_to_send_request_ms report));
                  ("time_to_first_byte_ms", v_option VNumber (er_time_to_first_byte_ms report));
                  ("time_to_last_byte_ms", v_option VNumber (er_time_to_last_byte_ms report))]));
  mret (reply_ok []).

(** *** Dispatch *)

Definition cumulus_settings (settings : CloudSettings) : CumulusSettings :=
  {| cus_server_url := cs_server_url settings; cus_token := cs_token settings;
     cus_timeout_connect_ms := cs_timeout_connect_ms settings;
     cus_timeout_ms := cs_timeout_ms settings |}.

Definition bind_device (settings : CloudSettings) : CR unit :=
  if cs_bind_device settings then
    match device_descriptor with
    | None => pure (Err (Protocol "Steam ClientID is not available for device binding"))
    | Some d => λ p,
        let '(r, bound, l) :=
          ensure_device_bound service sha256 (cumulus_settings settings) d (rp_bound p) (rp_log p) in
        (match r with Ok _ => Ok tt | Err e => Err (Backend (backend_error e)) end,
         with_log bound l p)
    end
  else mret tt.

Definition begin_batch_attributed (settings : CloudSettings) (client : CumulusClient)
    (body : list Z) : CR RpcReply :=
  conflict_scope ← backend_principal_scope (cumulus_settings settings);
  _ ← modify (with_principal conflict_scope);
  scope ← scope;
  _ ← on_journal (attribute_pending_conflicts (bytes_str (sc_fingerprint scope))
                    (bytes_str conflict_scope));
  _ ← attempt (deliver_ready_conflicts client conflict_scope);
  handle_begin_batch client conflict_scope body.

Definition dispatch (settings : CloudSettings) (client : CumulusClient) (method : string)
    (body : list Z) : CR RpcReply :=
  let called m := bool_decide (method = m) in
  if called GET_CHANGELIST then handle_changelist client body
  else if called BEGIN_BATCH then begin_batch_attributed settings client body
  else if called BEGIN_FILE_UPLOAD then handle_begin_file_upload client body
  else if called COMMIT_FILE_UPLOAD then handle_commit_file_upload client body
  else if called COMPLETE_BATCH || called COMPLETE_BATCH_BLOCKING
  then handle_complete_batch client body
  else if called FILE_DOWNLOAD then handle_file_download client body
  else if called DELETE_FILE then handle_delete_file body
  else if called QUOTA_USAGE then handle_quota client body
  else if called LAUNCH_INTENT then handle_launch client body
  else if called SUSPEND_SESSION then handle_suspend client body
  else if called RESUME_SESSION then handle_resume client body
  else if called EXIT_SYNC_DONE then handle_exit client body
  else if called CONFLICT_RESOLUTION
  then handle_conflict_resolution (cumulus_settings settings) client body
  else if called CDN_REPORT then handle_cdn_report client body
  else if called EXTERNAL_TRANSFER_REPORT then handle_external_transfer_report client body
  else pure (Err (Protocol "unsupported cloud method")).

(** The part of [execute_rpc] for the remote backend. *)
Definition execute_cumulus_rpc (settings : CloudSettings) (method : string) (body : list Z)
    : CR RpcReply :=
  _ ← bind_device settings;
  client ← pure (CumulusClient_new settings);
  dispatch settings client method body.

(** [execute_rpc], over the local adapter's [prepare] and [execute_local_rpc]. *)
Definition execute_rpc (prepare : CloudSettings → RPC unit)
    (execute_local : CloudSettings → string → list Z → RPC RpcReply)
    (settings : CloudSettings) (method : string) (body : list Z) : CR RpcReply :=
  _ ← on_sys (prepare settings);
  match cs_backend settings with
  | LocalBackend => on_sys (execute_local settings method body)
  | Cumulus => execute_cumulus_rpc settings method body
  | Disabled => pure (Err (Protocol "cloud backend is disabled"))
  end.
End adapter.
