(* ===== verification/CumulusRpcProofs.v ===== *)
(** * CumulusRpcProofs: what answering from the remote service guarantees

    Change lists name the files they were made from; the blocks Steam is told to upload are
    the whole file; requests go to the configured service only, from a device it has bound;
    a choice between two versions is in the journal or was accepted by the service. *)

From Stdlib Require Import ZArith Lia.
From S2P Require Import Prelude RustStd CloudCore Storage JournalRecord SyncJournal JournalProofs.
From S2P Require Import JournalInvariant FileSystem StoreFiles FolderStore StoreSessions.
From S2P Require Import StoreOpen Syncthing CumulusClient CloudSettings Transfers CloudMessages.
From S2P Require Import LocalRpc LocalRpcProofs CumulusRpc.

Local Open Scope Z_scope.

(** ** Paths of a change list *)

(** The path Steam reads from an entry: its prefix in the table, then its name. *)
Definition listed_path (prefixes : list string) (info : CloudAppFileInfo) : option string :=
  index ← fi_path_prefix_index info;
  prefix ← prefixes !! Z.to_nat index;
  leaf ← fi_file_name info;
  Some (prefix ++ leaf)%string.

Lemma rsplit_slash_app l prefix leaf :
  rsplit_slash l = Some (prefix, leaf) → prefix ++ [47] ++ leaf = l.
Proof.
  revert prefix leaf. induction l as [|c l IH]; intros prefix leaf; [done|]. cbn.
  destruct (rsplit_slash l) as [[q f]|] eqn:E.
  - intros [= <- <-]. cbn. f_equal. by apply (IH q f).
  - destruct (Z.eqb_spec c 47); [|done]. by intros [= <- <-]; subst.
Qed.

Lemma split_cloud_path_app path prefix leaf :
  split_cloud_path path = (prefix, leaf) → (prefix ++ leaf)%string = path.
Proof.
  unfold split_cloud_path. destruct (rsplit_slash (str_bytes path)) as [[q f]|] eqn:E.
  - intros [= <- <-]. apply rsplit_slash_app in E.
    rewrite <-bytes_str_app, <-(app_assoc q), E. apply bytes_str_str_bytes.
  - by intros [= <- <-].
Qed.

(** A table whose indexes lead to their prefixes. *)
Definition table_ok (prefixes : list string) (indexes : gmap string Z) : Prop :=
  ∀ prefix index, indexes !! prefix = Some index → prefixes !! Z.to_nat index = Some prefix.

Lemma prefix_index_ok prefix prefixes indexes index prefixes' indexes' :
  prefix_index prefix prefixes indexes = (index, prefixes', indexes') →
  table_ok prefixes indexes → Z.of_nat (length prefixes) ≤ u32_max →
  table_ok prefixes' indexes' ∧ prefixes' !! Z.to_nat index = Some prefix ∧
  prefixes `prefix_of` prefixes' ∧ (length prefixes' ≤ S (length prefixes))%nat.
Proof.
  unfold prefix_index. destruct (indexes !! prefix) as [i|] eqn:E; intros [= <- <- <-] Hok Hlen.
  { split; [done|]. split; [by apply Hok|]. split; [done|lia]. }
  assert (Hi : as_u32 (Z.of_nat (length prefixes)) = Z.of_nat (length prefixes)).
  { unfold as_u32. apply Z.mod_small. int_lia. }
  rewrite Hi, Nat2Z.id, length_app. cbn.
  assert (Hlast : (prefixes ++ [prefix]) !! length prefixes = Some prefix).
  { by rewrite lookup_app_r, Nat.sub_diag by lia. }
  split; [|split; [done|split; [by eexists|lia]]].
  intros q j. rewrite lookup_insert. case_decide as Hq.
  - subst. intros [= <-]. by rewrite Nat2Z.id.
  - intros Hj. apply lookup_app_l_Some. by apply Hok.
Qed.

(** The loops of both adapters, over any way to make an entry. *)
Section listing.
Context {F : Type} (info : string → option F → Z → list string → gmap string Z →
                           AR (CloudAppFileInfo * list string * gmap string Z)).
Context (infos : list (string * option F) → list string → gmap string Z →
                 AR (list CloudAppFileInfo * list string)).
Hypothesis infos_eq : ∀ l prefixes indexes,
  infos l prefixes indexes =
  match l with
  | [] => Ok ([], prefixes)
  | (path, file) :: l =>
      '(i, prefixes, indexes) ←
        info path file (match file with Some _ => 0 | None => 2 end) prefixes indexes;
      '(rest, prefixes) ← infos l prefixes indexes;
      Ok (i :: rest, prefixes)
  end.
Hypothesis info_ok : ∀ path file n prefixes indexes i prefixes' indexes',
  info path file n prefixes indexes = Ok (i, prefixes', indexes') →
  ∃ prefix leaf index, split_cloud_path path = (prefix, leaf) ∧
    prefix_index prefix prefixes indexes = (index, prefixes', indexes') ∧
    fi_file_name i = Some leaf ∧ fi_path_prefix_index i = Some index ∧
    fi_persist_state i = Some n.

Lemma infos_list l prefixes indexes out prefixes' :
  infos l prefixes indexes = Ok (out, prefixes') → table_ok prefixes indexes →
  Z.of_nat (length prefixes + length l) ≤ u32_max →
  (listed_path prefixes' <$> out) = Some <$> l.*1 ∧
  (fi_persist_state <$> out) = (λ f, Some (match f with Some _ => 0 | None => 2 end)) <$> l.*2 ∧
  prefixes `prefix_of` prefixes'.
Proof.
  revert prefixes indexes out. induction l as [|[path file] l IH]; intros prefixes indexes out;
    rewrite infos_eq; [by intros [= <- <-]|]. cbn [length]. intros Hm Hok Hlen.
  apply bind_Ok_inv in Hm as ([[i q] ix] & Hi & Hm).
  apply bind_Ok_inv in Hm as ([rest q'] & Hr & [= <- <-]).
  apply info_ok in Hi as (prefix & leaf & index & Hs & Hp & Hf & Hx & Hn).
  apply prefix_index_ok in Hp as (Hok' & Hin & Hq & Hle); [|done|lia].
  destruct (IH q ix rest Hr Hok') as (Hpaths & Hst & Hq'); [lia|].
  cbn. rewrite Hpaths, Hst, Hn. split; [|split; [done|by etrans]]. f_equal.
  unfold listed_path. rewrite Hx, Hf. cbn. rewrite (prefix_lookup_Some _ _ _ _ Hin Hq'). cbn.
  by rewrite (split_cloud_path_app _ _ _ Hs).
Qed.
End listing.

Lemma file_info_ok path file n prefixes indexes i prefixes' indexes' :
  file_info path file n prefixes indexes = Ok (i, prefixes', indexes') →
  ∃ prefix leaf index, split_cloud_path path = (prefix, leaf) ∧
    prefix_index prefix prefixes indexes = (index, prefixes', indexes') ∧
    fi_file_name i = Some leaf ∧ fi_path_prefix_index i = Some index ∧
    fi_persist_state i = Some n.
Proof.
  unfold file_info. destruct (split_cloud_path path) as [prefix leaf].
  destruct (prefix_index prefix prefixes indexes) as [[index q] ix] eqn:E. intros Hm. res_inv. simplify_eq.
  by exists prefix, leaf, index.
Qed.

Lemma steam_file_info_ok path file n prefixes indexes i prefixes' indexes' :
  steam_file_info path file n prefixes indexes = Ok (i, prefixes', indexes') →
  ∃ prefix leaf index, split_cloud_path path = (prefix, leaf) ∧
    prefix_index prefix prefixes indexes = (index, prefixes', indexes') ∧
    fi_file_name i = Some leaf ∧ fi_path_prefix_index i = Some index ∧
    fi_persist_state i = Some n.
Proof.
  unfold steam_file_info. destruct (split_cloud_path path) as [prefix leaf].
  destruct (prefix_index prefix prefixes indexes) as [[index q] ix] eqn:E. intros Hm. res_inv. simplify_eq.
  by exists prefix, leaf, index.
Qed.

(** [changelist_names_files]: in the change lists of both adapters, Steam reads back exactly
    the paths of the changed files, each as present, followed by the deleted paths, each as
    deleted, in their order: splitting the paths into a shared table of directories and
    names loses nothing, as long as there are at most 2^32 - 1 entries. *)
Theorem changelist_names_files (changed : list FileEntry) (remote : list CumulusFile)
    (deleted : list string) (out js : list CloudAppFileInfo) (ps qs : list string) :
  file_infos (((λ f, (fe_path f, Some f)) <$> changed) ++ ((λ p, (p, None)) <$> deleted)) [] ∅
    = Ok (out, ps) →
  steam_file_infos (((λ f, (cm_path f, Some f)) <$> remote) ++ ((λ p, (p, None)) <$> deleted)) [] ∅
    = Ok (js, qs) →
  Z.of_nat (length changed + length deleted) ≤ u32_max →
  Z.of_nat (length remote + length deleted) ≤ u32_max →
  (listed_path ps <$> out) = Some <$> ((fe_path <$> changed) ++ deleted) ∧
  (fi_persist_state <$> out) =
    replicate (length changed) (Some 0) ++ replicate (length deleted) (Some 2) ∧
  (listed_path qs <$> js) = Some <$> ((cm_path <$> remote) ++ deleted) ∧
  (fi_persist_state <$> js) =
    replicate (length remote) (Some 0) ++ replicate (length deleted) (Some 2).
Proof.
  intros Hi Hj Hl Hr.
  assert (Hfst : ∀ {A} (f : A → string) l,
    (((λ x, (f x, Some x)) <$> l) ++ ((λ p, (p, None)) <$> deleted)).*1 = (f <$> l) ++ deleted).
  { intros A f l. rewrite fmap_app, <-!list_fmap_compose. f_equal. apply list_fmap_id. }
  assert (Hsnd : ∀ {A} (f : A → string) l,
    (λ o : option A, Some (match o with Some _ => 0 | None => 2 end)) <$>
      (((λ x, (f x, Some x)) <$> l) ++ ((λ p, (p, None)) <$> deleted)).*2 =
    replicate (length l) (Some 0) ++ replicate (length deleted) (Some 2)).
  { intros A f l. rewrite !fmap_app, <-!list_fmap_compose. f_equal; apply const_fmap; done. }
  destruct (infos_list file_info file_infos ltac:(by intros [|[]]) file_info_ok _ _ _ _ _ Hi)
    as (Hp & Hs & _); [done|rewrite length_app, !length_fmap; exact Hl|].
  destruct (infos_list steam_file_info steam_file_infos ltac:(by intros [|[]])
    steam_file_info_ok _ _ _ _ _ Hj) as (Hp' & Hs' & _);
    [done|rewrite length_app, !length_fmap; exact Hr|].
  rewrite Hp, Hp', Hs, Hs', !Hfst. by rewrite !Hsnd.
Qed.

(** ** Taking a request apart *)

Section inversion.
Context {St : Structsy}.

Lemma cr_bind_inv {A B} (m : CR A) (k : A → CR B) p r p' :
  (m ≫= k) p = (r, p') →
  (∃ a p1, m p = (Ok a, p1) ∧ k a p1 = (r, p')) ∨ (∃ e, m p = (Err e, p') ∧ r = Err e).
Proof.
  unfold mbind, CR_bind. destruct (m p) as [[a|e] p1]; [by eauto|]. intros [= <- <-]. eauto.
Qed.

Lemma cr_bind_Ok {A B} (m : CR A) (k : A → CR B) p b p' :
  (m ≫= k) p = (Ok b, p') → ∃ a p1, m p = (Ok a, p1) ∧ k a p1 = (Ok b, p').
Proof. intros [(a & p1 & ? & ?)|(e & ? & ?)]%cr_bind_inv; [by eauto|done]. Qed.

Lemma pure_Ok {A} (r : AR A) (p : Rpc) a p' : pure r p = (Ok a, p') → r = Ok a ∧ p' = p.
Proof. unfold pure. by intros [= -> <-]. Qed.

Lemma on_sys_Ok {A} (m : RPC A) (p : Rpc) a p' :
  on_sys m p = (Ok a, p') → ∃ y, m (rp_sys p) = (Ok a, y) ∧ p' = with_sys y p.
Proof. unfold on_sys. destruct (m _) as [r y]. intros [= -> <-]. eauto. Qed.

Lemma on_service_Ok {A} (m : Net A) (p : Rpc) a p' :
  on_service m p = (Ok a, p') → ∃ l, m (rp_log p) = (Ok a, l) ∧ p' = with_log (rp_bound p) l p.
Proof. unfold on_service. destruct (m _) as [[x|] l]; [|done]. intros [= -> <-]. eauto. Qed.

Lemma scope_Ok (p : Rpc) s p' :
  scope p = (Ok s, p') → p' = p ∧ ad_scope (sys_adapter (rp_sys p)) = Some s.
Proof.
  unfold scope, mbind, CR_bind, state, pure. destruct (ad_scope _) as [s'|]; [|done].
  by intros [= -> <-].
Qed.
End inversion.

(** Splits [m p = (Ok _, p')] into the steps of [m]. *)
Ltac cr_inv :=
  repeat match goal with
  | H : mbind _ _ _ = (Ok _, _) |- _ =>
      let x := fresh "x" in let pi := fresh "p" in let Hx := fresh "Hx" in
      apply cr_bind_Ok in H as (x & pi & Hx & H)
  | H : pure _ _ = (Ok _, _) |- _ => apply pure_Ok in H as [H ->]
  | H : state _ = (Ok _, _) |- _ => injection H as <- <-
  | H : mret _ _ = (Ok _, _) |- _ => injection H as <- <-
  | H : scope _ = (Ok _, _) |- _ => let Hs := fresh "Hs" in apply scope_Ok in H as [-> Hs]
  | H : on_service _ _ = (Ok _, _) |- _ =>
      let l := fresh "l" in let Hl := fresh "Hl" in apply on_service_Ok in H as (l & Hl & ->)
  | H : on_sys _ _ = (Ok _, _) |- _ =>
      let y := fresh "y" in let Hy := fresh "Hy" in apply on_sys_Ok in H as (y & Hy & ->)
  | H : (if _ then Err _ else Ok tt) = Ok _ |- _ => apply guard_Ok in H
  | x : unit |- _ => destruct x
  end.

(** ** The blocks of an upload *)

(** The blocks go from [start] to [stop] without a gap or an overlap. *)
Fixpoint covers (start : Z) (blocks : list CloudFileUploadBlockDetails) (stop : Z) : Prop :=
  match blocks with
  | [] => start = stop
  | b :: blocks =>
      ub_block_offset b = Some start ∧
      ∃ n, ub_block_length b = Some n ∧ 0 ≤ n ∧ covers (start + n) blocks stop
  end.

(** A block Steam is told to send: where it goes is a target of the service, resolved. *)
Definition sent_block {U : UriParser} (client : CumulusClient) (transfer_size : Z)
    (b : CumulusUploadBlock) (d : CloudFileUploadBlockDetails) : Prop :=
  (∃ t, resolve_transfer_target client (cub_target b) = Ok t ∧ d = upload_block b t) ∧
  cub_http_method b = HTTP_METHOD_PUT ∧ (0 < transfer_size → cub_block_length b ≠ 0).

Lemma upload_blocks_Ok {U : UriParser} client size count l offset blocks last :
  Forall (λ b, 0 ≤ cub_block_length b) l →
  upload_blocks client size count l offset = Ok (blocks, last) →
  covers offset blocks last ∧ Forall2 (sent_block client size) l blocks ∧
  (size = 0 → l ≠ [] → count = 1%nat).
Proof.
  intros Hl. revert offset blocks. induction Hl as [|b l Hb Hl IH]; intros offset blocks.
  { by intros [= <- <-]. }
  cbn [upload_blocks]. case_match eqn:E1; [done|]. case_match eqn:E2; [done|].
  case_match; [done|]. case_match eqn:E3; [done|]. intros Hm.
  apply bind_Ok_inv in Hm as (t & Ht & Hm). apply bind_Ok_inv in Hm as ([rest q] & Hr & [= <- <-]).
  destruct (IH _ _ Hr) as (Hc & Hf & _).
  apply negb_false_iff, Z.eqb_eq in E1, E2.
  apply orb_false_iff in E3 as [[_ E3]%orb_false_iff E4].
  apply andb_false_iff in E3; apply andb_false_iff in E4. rewrite Z.ltb_ge, Z.eqb_neq in E3.
  rewrite Z.eqb_neq, negb_false_iff, Nat.eqb_eq in E4.
  split; [|split].
  - cbn. split; [congruence|]. eexists. split; [done|]. split; [done|]. exact Hc.
  - constructor; [|done]. split; [by exists t|]. split; [done|]. lia.
  - intros -> _. by destruct E4.
Qed.

Lemma declared_blocks_Ok {U : UriParser} client size declared blocks :
  Forall (λ b, 0 ≤ cub_block_length b) (cdf_block_requests declared) →
  declared_blocks client size declared = Ok blocks →
  cdf_file_id declared ≠ "" ∧ blocks ≠ [] ∧ covers 0 blocks size ∧
  Forall2 (sent_block client size) (cdf_block_requests declared) blocks ∧
  (size = 0 → length blocks = 1%nat).
Proof.
  intros Hb. unfold declared_blocks. case_match; [done|]. case_bool_decide as Hid; [done|].
  case_bool_decide as Hn; [done|]. intros Hm. apply bind_Ok_inv in Hm as ([bs last] & Hu & Hm).
  destruct (last =? size) eqn:El; cbn in Hm; [|done]. injection Hm as <-. apply Z.eqb_eq in El as ->.
  destruct (upload_blocks_Ok _ _ _ _ _ _ _ Hb Hu) as (Hc & Hf & Hz).
  pose proof (Forall2_length _ _ _ Hf) as Hlen. split; [done|]. split; [by intros ->|].
  split; [done|]. split; [done|]. intros Hs. rewrite <-Hlen. apply Hz; [done|].
  intros E. by rewrite E in Hn.
Qed.

Lemma register_blocks_log {St : Structsy} instant s l p u p' :
  register_blocks instant s l p = (Ok u, p') → rp_log p' = rp_log p ∧ rp_sys p' = rp_sys p.
Proof.
  revert p. induction l as [|b l IH]; intros p; cbn [register_blocks]; intros Hm; cr_inv; [done|].
  destruct (IH _ Hm) as [-> ->]. injection Hx as <-. done.
Qed.


(** ** Where requests go *)

(** Below the configured URL, with its token. *)
Definition to_service (settings : CloudSettings) (rq : ServiceRequest) : Prop :=
  ∃ path, sv_url rq = (bytes_str (trim_end_matches 47 (str_bytes (cs_server_url settings)))
                       ++ "/api/v1/" ++ path)%string ∧
    head (sv_headers rq) = Some ("Authorization", ("Bearer " ++ cs_token settings)%string).

(** The calls of a computation, and what else it may change. *)
Definition talks {St : Structsy} {A} (P : ServiceRequest → Prop) (m : CR A) : Prop :=
  ∀ p r p', m p = (r, p') →
    rp_bound p' = rp_bound p ∧
    ∃ new, rp_log p' = rp_log p ++ new ∧ Forall (λ x, P x.1) new.

Section talking.
Context {St : Structsy} (P : ServiceRequest → Prop).

Lemma talks_silent {A} (m : CR A) :
  (∀ p, rp_log (m p).2 = rp_log p ∧ rp_bound (m p).2 = rp_bound p) → talks P m.
Proof.
  intros Hm p r p' E. specialize (Hm p). rewrite E in Hm. destruct Hm as [Hl Hb].
  split; [done|]. exists []. by rewrite app_nil_r.
Qed.

Lemma talks_pure {A} (r : AR A) : talks P (pure r).
Proof. by apply talks_silent. Qed.
Lemma talks_ret {A} (a : A) : talks P (mret a : CR A).
Proof. by apply talks_silent. Qed.
Lemma talks_state : talks P state.
Proof. by apply talks_silent. Qed.
Lemma talks_unix_now unix : talks P (unix_now unix).
Proof. by apply talks_silent. Qed.
Lemma talks_event_id sha256 pid nanos : talks P (new_conflict_event_id sha256 pid nanos).
Proof. by apply talks_silent. Qed.
Lemma talks_register instant s a path : talks P (register_target instant s a path).
Proof. by apply talks_silent. Qed.
Lemma talks_on_sys {A} (m : RPC A) : talks P (on_sys m).
Proof. apply talks_silent. intros p. unfold on_sys. by destruct (m _). Qed.
Lemma talks_on_journal {A} (f : Database → JR A * Database) : talks P (on_journal f).
Proof.
  apply talks_silent. intros p. unfold on_journal. destruct (rp_journal p) as [j|]; [|done].
  by destruct (f j).
Qed.

Lemma talks_bind {A B} (m : CR A) (k : A → CR B) :
  talks P m → (∀ a, talks P (k a)) → talks P (m ≫= k).
Proof.
  intros Hm Hk p r p' [(a & p1 & E1 & E2)|(e & E & ->)]%cr_bind_inv; [|by eapply Hm].
  destruct (Hm _ _ _ E1) as (Hb1 & n1 & Hl1 & Hf1). destruct (Hk _ _ _ _ E2) as (Hb2 & n2 & Hl2 & Hf2).
  split; [congruence|]. exists (n1 ++ n2). rewrite Hl2, Hl1, app_assoc. split; [done|].
  by apply Forall_app.
Qed.

Lemma talks_attempt {A} (m : CR A) : talks P m → talks P (attempt m).
Proof.
  intros Hm p r p'. unfold attempt. destruct (m p) as [x p1] eqn:E. intros [= _ <-]. by eapply Hm.
Qed.

Lemma talks_scope : talks P scope.
Proof. apply talks_bind; [apply talks_state|intros; apply talks_pure]. Qed.

Lemma talks_log {A} rq (m : Net A) (service : ServiceLog → ServiceRequest → ServiceAnswer) :
  (∀ l r l', m l = (r, l') → l' = l ++ [(rq, service l rq)]) → P rq → talks P (on_service m).
Proof.
  intros Ha HP p r p'. unfold on_service. destruct (m (rp_log p)) as [x l] eqn:E.
  intros [= _ <-]. apply Ha in E as ->. split; [done|]. by exists [(rq, service (rp_log p) rq)]; auto.
Qed.

Lemma talks_asks {A} service rq (m : Net A) : asks service rq m → P rq → talks P (on_service m).
Proof. intros Ha. apply (talks_log _ _ service). intros l r l' E. by apply (Ha _ _ _ E). Qed.

Lemma talks_register_blocks instant s l : talks P (register_blocks instant s l).
Proof.
  induction l as [|b l IH]; [apply talks_ret|]. apply talks_bind; [apply talks_register|done].
Qed.
End talking.

Create HintDb talks.
#[export] Hint Resolve talks_pure talks_ret talks_state talks_unix_now talks_event_id : talks.
#[export] Hint Resolve talks_register talks_on_sys talks_on_journal talks_scope : talks.
#[export] Hint Resolve talks_register_blocks : talks.
#[export] Hint Resolve get_json_asks post_json_unit_asks post_json_response_asks : talks.
#[export] Hint Resolve post_unit_asks delete_path_asks : talks.

(** Follows the steps of a handler down to its calls. *)
Ltac talk :=
  repeat first
    [ progress intros
    | solve [eauto with talks]
    | apply talks_bind
    | apply talks_attempt
    | match goal with
      | |- talks _ (match ?x with _ => _ end) => destruct x
      | |- talks _ (let _ := _ in _) => cbv zeta
      end ].

(** [CloudSettings::from_config] trims the URL it is given. *)
Definition trimmed_url (settings : CloudSettings) : Prop :=
  trim (str_bytes (cs_server_url settings)) = str_bytes (cs_server_url settings).

Lemma endpoint_origin raw e :
  endpoint_parse raw = Ok e → en_origin e = bytes_str (trim_end_matches 47 (trim (str_bytes raw))).
Proof.
  unfold endpoint_parse. intros Hm. apply bind_Ok_inv in Hm as ([https rest] & _ & Hm).
  case_match; [done|]. destruct (match split_once 47 rest with Some _ => _ | None => _ end) as [a b].
  case_match; [done|]. by injection Hm as <-.
Qed.

Lemma client_to_service settings client method path rest content body :
  trimmed_url settings → CumulusClient_new settings = Ok client → path = ("/api/v1/" ++ rest)%string →
  to_service settings (request (cu_inner client) method path content body).
Proof.
  intros Ht Hc ->. unfold CumulusClient_new in Hc. apply bind_Ok_inv in Hc as (e & He & [= <-]).
  apply endpoint_origin in He. rewrite Ht in He. exists rest. split; [|done].
  cbn [request sv_url]. unfold client_url. cbn [cu_inner sh_settings SharedCumulusClient_new cus_server_url].
  rewrite He, str_bytes_bytes_str, trim_end_matches_idemp; [done|].
  pose proof (str_bytes_in_u8 (cs_server_url settings)) as Hu.
  destruct (trim_end_matches_prefix 47 (str_bytes (cs_server_url settings))) as [q Hq].
  rewrite Hq in Hu. by apply Forall_app in Hu as [Hu _].
Qed.

Lemma backend_to_service settings id method path rest content body :
  path = ("/api/v1/" ++ rest)%string →
  to_service settings (request (SharedCumulusClient_new (cumulus_settings settings) id)
                         method path content body).
Proof. intros ->. exists rest. by split. Qed.

#[export] Hint Extern 1 (to_service _ (request (cu_inner _) _ _ _ _)) =>
  eapply client_to_service; [eassumption|eassumption|reflexivity] : talks.
#[export] Hint Extern 1 (to_service _ (request (SharedCumulusClient_new _ _) _ _ _ _)) =>
  eapply backend_to_service; reflexivity : talks.
#[export] Hint Resolve talks_asks : talks.

Section confined.
Context {M : CloudMessages} {U : UriParser} {CC : CumulusCodec} {AC : AdapterCodec}.
Context {St : Structsy} (sha256 : list Z → list Z).
Context (service : ServiceLog → ServiceRequest → ServiceAnswer).
Context (device_descriptor : option DeviceDescriptor) (process_id : Z).
Context (unix instant nanos : nat → Z).
Context (settings : CloudSettings) (client : CumulusClient).
Context (Ht : trimmed_url settings) (Hc : CumulusClient_new settings = Ok client).

Lemma talks_principal :
  talks (to_service settings) (backend_principal_scope sha256 service (cumulus_settings settings)).
Proof.
  intros p r p'. unfold backend_principal_scope.
  destruct (device_principal_scope _ _ _ _) as [x l] eqn:E. intros [= _ <-]. split; [done|].
  unfold device_principal_scope in E.
  apply (asks_map service _ _ (λ s, Ok _) (get_json_asks _ _ _ _)) in E as [-> _].
  eexists [_]. split; [done|]. constructor; [|done]. by eapply backend_to_service.
Qed.
#[local] Hint Resolve talks_principal : talks.

Lemma talks_deliver_list now l : talks (to_service settings) (deliver_conflicts service client now l).
Proof. induction l as [|q l IH]; cbn [deliver_conflicts]; talk. Qed.
#[local] Hint Resolve talks_deliver_list : talks.

Lemma talks_deliver s :
  talks (to_service settings) (deliver_ready_conflicts service unix client s).
Proof.
  intros p r p'. unfold deliver_ready_conflicts. destruct (rp_journal p); [|].
  - revert p r p'. change (talks (to_service settings)
      (now ← unix_now unix;
       pending ← on_journal (λ j, (Ok (pending_cloud_conflicts now (bytes_str s) j), j));
       deliver_conflicts service client now (default [] pending))). talk.
  - apply (talks_ret _ tt).
Qed.
#[local] Hint Resolve talks_deliver : talks.

Lemma talks_begin_batch s body :
  talks (to_service settings) (handle_begin_batch service client s body).
Proof.
  unfold handle_begin_batch. talk.
  eapply talks_log; [intros l r l'; apply delete_allow_not_found_log|]. eauto with talks.
Qed.
#[local] Hint Resolve talks_begin_batch : talks.

Lemma talks_dispatch method body :
  talks (to_service settings)
    (dispatch sha256 service device_descriptor process_id unix instant nanos settings client
       method body).
Proof.
  unfold dispatch. cbv zeta. repeat case_match; unfold handle_changelist, begin_batch_attributed,
    handle_begin_file_upload, handle_commit_file_upload, handle_complete_batch,
    handle_file_download, handle_delete_file, handle_quota, handle_launch, handle_suspend,
    handle_resume, handle_exit, handle_conflict_resolution, handle_cdn_report,
    handle_external_transfer_report; talk.
Qed.
End confined.

(** The request that binds a device to the credentials of the settings. *)
Definition bind_request (settings : CloudSettings) (d : DeviceDescriptor) : ServiceRequest :=
  request (SharedCumulusClient_new (cumulus_settings settings) (Some (dd_client_id d))) POST
    "/api/v1/device/bind" [("Content-Type", "application/json")] (Some (binding_body d)).
Definition bind_key (sha256 : list Z → list Z) (settings : CloudSettings) (d : DeviceDescriptor)
    : list Z * DeviceDescriptor :=
  (credential_fingerprint sha256 (cs_server_url settings) (cs_token settings), d).

Lemma bind_device_inv {St : Structsy} sha256 service device settings p r p' :
  cs_bind_device settings = true →
  bind_device sha256 service device settings p = (r, p') →
  (p' = p ∧ ∃ e, r = Err e) ∨
  ∃ d, device = Some d ∧
    ((p' = p ∧ bind_key sha256 settings d ∈ rp_bound p) ∨
     ∃ a, rp_log p' = rp_log p ++ [(bind_request settings d, a)] ∧
       ((r = Ok tt ∧ accepted a ∧ rp_bound p' = bind_key sha256 settings d :: rp_bound p) ∨
        ((∃ e, r = Err e) ∧ rp_bound p' = rp_bound p))).
Proof.
  intros Hb. unfold bind_device. rewrite Hb. destruct device as [d|]; [|intros [= <- <-]; left; eauto].
  unfold ensure_device_bound. case_bool_decide as Hk.
  { intros [= <- <-]. right. exists d. split; [done|]. left. split; [by destruct p|done]. }
  destruct (post_json_unit _ _ _ _ _) as [x l] eqn:E.
  apply post_json_unit_asks in E as [-> Ha]. right. exists d. split; [done|]. right.
  eexists. destruct x as [[]|e].
  - injection H as <- <-. split; [done|]. left. split; [done|]. split; [by apply Ha|done].
  - injection H as <- <-. split; [done|]. right. split; [by eexists|done].
Qed.

(** C10 [requests_from_bound_device]: whatever Steam asks for and whatever the service answers,
    every request a call makes goes below the configured URL and carries the configured
    token, and the service hears of nothing before it has accepted the device: unless the
    device was bound with these credentials before, the first request binds it, and any
    other follows only after the service accepted that one. A device counts as bound
    exactly when it was. *)
Theorem requests_from_bound_device {M : CloudMessages} {U : UriParser} {CC : CumulusCodec}
    {AC : AdapterCodec} {St : Structsy} sha256 service device pid unix instant nanos settings
    method body p r p' :
  cs_bind_device settings = true → trimmed_url settings →
  execute_cumulus_rpc sha256 service device pid unix instant nanos settings method body p = (r, p') →
  ∃ new, rp_log p' = rp_log p ++ new ∧ Forall (λ x, to_service settings x.1) new ∧
    (new = [] ∧ rp_bound p' = rp_bound p ∨
     ∃ d, device = Some d ∧
       ((bind_key sha256 settings d ∈ rp_bound p ∧ rp_bound p' = rp_bound p) ∨
        ∃ a rest, new = (bind_request settings d, a) :: rest ∧
          ((accepted a ∧ rp_bound p' = bind_key sha256 settings d :: rp_bound p) ∨
           (rest = [] ∧ rp_bound p' = rp_bound p)))).
Proof.
  intros Hb Ht Hm. unfold execute_cumulus_rpc in Hm.
  assert (Hrest : ∀ p1, (client ← pure (CumulusClient_new settings);
      dispatch sha256 service device pid unix instant nanos settings client method body) p1 = (r, p') →
    rp_bound p' = rp_bound p1 ∧
    ∃ new, rp_log p' = rp_log p1 ++ new ∧ Forall (λ x, to_service settings x.1) new).
  { intros p1 E. destruct (CumulusClient_new settings) as [client|e] eqn:Hc.
    - exact (talks_dispatch sha256 service device pid unix instant nanos settings client Ht Hc
               method body p1 r p' E).
    - injection E as <- <-. split; [done|]. exists []. by rewrite app_nil_r. }
  apply cr_bind_inv in Hm as [([] & p1 & E & Hm)|(e & E & ->)].
  - apply Hrest in Hm as (Hbd & new & Hl & Hf).
    apply bind_device_inv in E as [(_ & e & ?)|(d & -> & [[-> Hk]|(a & Hl1 & E)])]; [done|..|done].
    + exists new. split; [done|]. split; [done|]. right. exists d. auto.
    + destruct E as [(_ & Ha & Hbd')|[[e ?] _]]; [|done].
      exists ((bind_request settings d, a) :: new). rewrite Hl, Hl1, <-app_assoc. split; [done|].
      split; [constructor; [by eapply backend_to_service|done]|]. right. exists d. split; [done|].
      right. exists a, new. split; [done|]. left. by rewrite Hbd.
  - apply bind_device_inv in E as [(-> & _)|(d & -> & [[-> Hk]|(a & Hl1 & E)])]; [..|done].
    + exists []. rewrite app_nil_r. auto.
    + exists []. rewrite app_nil_r. auto.
    + exists [(bind_request settings d, a)]. split; [done|].
      split; [constructor; [by eapply backend_to_service|done]|]. right. exists d. split; [done|].
      right. exists a, []. split; [done|]. destruct E as [(? & _)|[_ Hbd]]; [done|]. auto.
Qed.

(** ** Reports of conflicts *)

(** The report of a choice for the cloud's version. *)
Definition report_request (client : CumulusClient) (e : ConflictResolutionEvent) : ServiceRequest :=
  request (cu_inner client) POST
    ("/api/v1/apps/" ++ decimal (ce_app_id e) ++ "/conflicts/kept-cloud")
    [("Content-Type", "application/json")] (Some (kept_cloud_value e)).
Definition reported (client : CumulusClient) (l : ServiceLog) (e : ConflictResolutionEvent) : Prop :=
  ∃ a, (report_request client e, a) ∈ l ∧ accepted a.

Section reports.
Context {St : Structsy} {L : StructsyLaws St}.
Implicit Types (j : @Database St).

(** The item is what its row says, as long as there is such a row. *)
Definition describes (m : gmap Ref ConflictRecord) (q : Queued ConflictResolutionEvent) : Prop :=
  ∀ id row, reference q = Ok id → m !! id = Some row → ConflictRecord_value row = q_value q.

(** Rows are only taken away or scheduled anew. *)
Definition thinner (m' m : gmap Ref ConflictRecord) : Prop :=
  ∀ id row', m' !! id = Some row' →
    ∃ row, m !! id = Some row ∧ ConflictRecord_value row' = ConflictRecord_value row.

Lemma thinner_refl m : thinner m m.
Proof. intros id row. eauto. Qed.

Lemma describes_thinner m m' q : thinner m' m → describes m q → describes m' q.
Proof. intros Ht Hd id row' Hr (row & Hrow & ->)%Ht. by eapply Hd. Qed.

Lemma acknowledge_rows q j r j' :
  acknowledge q j = (r, j') → describes (conflict_rows j) q →
  thinner (conflict_rows j') (conflict_rows j) ∧
  ∀ id row, conflict_rows j !! id = Some row →
    conflict_rows j' !! id = Some row ∨ ConflictRecord_value row = q_value q.
Proof.
  intros H Hd. destruct r as [[]|e].
  - apply settle_Ok in H as (ids & t & Hids & -> & Ht).
    apply Forall2_cons_inv_l in Hids as (i & ids' & Hi & Hids & ->).
    apply Forall2_nil_inv_l in Hids as ->. unfold settle_spec in Ht. cbn [zip zip_with foldl fst snd] in Ht.
    change (conflict_rows (jr_set_table j t)) with (contents t).
    change (contents (jr_table j)) with (conflict_rows j) in Ht. rewrite Ht.
    case_match eqn:E; [|by split; [apply thinner_refl|auto]]. split.
    + intros id row' [_ Hr]%lookup_delete_Some. eauto.
    + intros id row Hr. destruct (decide (i = id)) as [->|Hn].
      * right. by eapply Hd.
      * left. by rewrite lookup_delete_ne.
  - unfold acknowledge, settle in H. apply write_Err in H as ->. split; [apply thinner_refl|auto].
Qed.

Lemma defer_rows q now j r j' :
  defer q now j = (r, j') →
  thinner (conflict_rows j') (conflict_rows j) ∧
  ∀ id row, conflict_rows j !! id = Some row →
    ∃ row', conflict_rows j' !! id = Some row' ∧ ConflictRecord_value row' = ConflictRecord_value row.
Proof.
  intros H. destruct r as [[]|e].
  - apply postpone_Ok in H as (ids & t & Hids & -> & Ht).
    apply Forall2_cons_inv_l in Hids as (i & ids' & Hi & Hids & ->).
    apply Forall2_nil_inv_l in Hids as ->. unfold postpone_spec in Ht. cbn [zip zip_with foldl fst snd] in Ht.
    change (conflict_rows (jr_set_table j t)) with (contents t).
    change (contents (jr_table j)) with (conflict_rows j) in Ht. rewrite Ht.
    case_match eqn:E; [|by split; [apply thinner_refl|eauto]]. split.
    + intros id row'. rewrite lookup_alter. case_decide as Hn; [|eauto]. subst.
      destruct (conflict_rows j !! id) as [row|] eqn:Hr; [|done]. intros [= <-].
      by exists row.
    + intros id row Hr. rewrite lookup_alter. case_decide as Hn; [|eauto]. subst. rewrite Hr.
      by eexists.
  - unfold defer, postpone in H. apply write_Err in H as ->. split; [apply thinner_refl|eauto].
Qed.

Context (service : ServiceLog → ServiceRequest → ServiceAnswer) (client : CumulusClient).

(** A row that is gone was reported and the report accepted. *)
Lemma deliver_conflicts_rows now l p r p' j :
  rp_journal p = Some j → (∀ q, q ∈ l → describes (conflict_rows j) q) →
  deliver_conflicts service client now l p = (r, p') →
  ∃ j' new, rp_journal p' = Some j' ∧ rp_log p' = rp_log p ++ new ∧
    ∀ id row, conflict_rows j !! id = Some row →
      (∃ row', conflict_rows j' !! id = Some row' ∧
         ConflictRecord_value row' = ConflictRecord_value row) ∨
      reported client new (ConflictRecord_value row).
Proof.
  revert p j. induction l as [|q l IH]; intros p j Hj Hd; cbn [deliver_conflicts].
  { intros [= <- <-]. exists j, []. rewrite app_nil_r. eauto 10. }
  unfold mbind at 1, CR_bind at 1, attempt, on_service.
  destruct (post_json_unit _ _ _ _ _) as [x lg] eqn:E. apply post_json_unit_asks in E as [-> Ha].
  fold (report_request client (q_value q)). set (rq := report_request client (q_value q)) in *.
  set (a := service (rp_log p) rq) in *. destruct x as [[]|e].
  - unfold mbind, CR_bind, on_journal. cbn [rp_journal with_log]. rewrite Hj.
    destruct (acknowledge q j) as [x j1] eqn:Eack.
    destruct (acknowledge_rows _ _ _ _ Eack) as [Hthin Hrows]; [apply Hd; left|].
    assert (Hone : ∀ id row, conflict_rows j !! id = Some row →
      conflict_rows j1 !! id = Some row ∨ reported client [(rq, a)] (ConflictRecord_value row)).
    { intros id row [?| ->]%Hrows; [by left|]. right. exists a. split; [by left|by apply Ha]. }
    destruct x as [u|e].
    + intros Hm. destruct (IH (with_journal j1 (with_log (rp_bound p) (rp_log p ++ [(rq, a)]) p)) j1)
        as (j' & new & Hj' & Hl & Hk); [done|..|exact Hm|].
      { intros q' Hq. eapply describes_thinner; [done|]. apply Hd. by right. }
      exists j', ((rq, a) :: new). split; [done|]. rewrite Hl. cbn. rewrite <-app_assoc.
      split; [done|]. intros id row [Hr|(b & Hb & ?)]%Hone.
      * destruct (Hk _ _ Hr) as [?|(b & Hb & ?)]; [by left|]. right. exists b. split; [by right|done].
      * right. exists b. split; [|done]. apply list_elem_of_singleton in Hb as ->. left.
    + intros [= <- <-]. exists j1, [(rq, a)]. split; [done|]. split; [done|].
      intros id row [?|?]%Hone; eauto.
  - unfold mbind, CR_bind, on_journal. cbn [rp_journal with_log]. rewrite Hj.
    destruct (defer q now j) as [x j1] eqn:Edef. destruct (defer_rows _ _ _ _ _ Edef) as [_ Hrows].
    destruct x as [u|e']; intros [= <- <-]; exists j1, [(rq, a)]; (split; [done|]); (split; [done|]);
      intros id row Hr; left; by apply Hrows.
Qed.
End reports.

(** The same choice, whoever it is attributed to. *)
Definition same_choice (e e' : ConflictResolutionEvent) : Prop :=
  ce_event_id e = ce_event_id e' ∧ ce_app_id e = ce_app_id e' ∧
  ce_base_change_number e = ce_base_change_number e' ∧
  ce_remote_change_number e = ce_remote_change_number e' ∧
  ce_resolution e = ce_resolution e' ∧ ce_machine_name e = ce_machine_name e'.

Lemma report_same client e e' : same_choice e e' → report_request client e = report_request client e'.
Proof.
  intros (Hid & Ha & Hb & _ & _ & Hm). unfold report_request, kept_cloud_value.
  by rewrite Hid, Ha, Hb, Hm.
Qed.

Section choices.
Context {M : CloudMessages} {CC : CumulusCodec} {St : Structsy} {L : StructsyLaws St}.
Context (sha256 : list Z → list Z) (service : ServiceLog → ServiceRequest → ServiceAnswer).
Context (device : option DeviceDescriptor) (pid : Z) (unix nanos : nat → Z).
Implicit Types (j : @Database St).

Lemma elem_of_pending_cloud now s j q :
  q ∈ pending_cloud_conflicts now s j →
  ∃ id row, conflict_rows j !! id = Some row ∧
    q = Queued_new id (cr_revision row) (ConflictRecord_value row).
Proof.
  unfold pending_cloud_conflicts. intros ([k q'] & -> & Hq)%list_elem_of_fmap.
  apply elem_of_take in Hq as (n & Hn & _). apply list_elem_of_lookup_2 in Hn.
  rewrite elem_of_sort_by_key in Hn. apply list_elem_of_fmap in Hn as ([id row] & [= -> ->] & Hp).
  apply list_elem_of_filter in Hp as [_ [Hrow _]%elem_of_fetch]. eauto.
Qed.

Lemma deliver_ready_rows client s p r p' j :
  rp_journal p = Some j → deliver_ready_conflicts service unix client s p = (r, p') →
  ∃ j' new, rp_journal p' = Some j' ∧ rp_log p' = rp_log p ++ new ∧
    ∀ id row, conflict_rows j !! id = Some row →
      (∃ row', conflict_rows j' !! id = Some row' ∧
         ConflictRecord_value row' = ConflictRecord_value row) ∨
      reported client new (ConflictRecord_value row).
Proof.
  intros Hj. unfold deliver_ready_conflicts. rewrite Hj.
  unfold mbind, CR_bind, unix_now, on_journal. cbn [rp_journal tick]. rewrite Hj. cbn [default].
  intros Hm. eapply (deliver_conflicts_rows service client) in Hm; [exact Hm|done|].
  intros q Hq id row Hr Hrow. apply elem_of_pending_cloud in Hq as (i & row0 & Hrow0 & ->).
  rewrite reference_new in Hr. by simplify_eq/=.
Qed.

Lemma attribute_keeps credential principal j r j' id row :
  conflict_unique (conflict_rows j) →
  attribute_pending_conflicts credential principal j = (r, j') →
  conflict_rows j !! id = Some row → cr_owner_scope row = credential →
  ∃ row', conflict_rows j' !! id = Some row' ∧
    (row' = row ∨ row' = conflict_attributed principal row).
Proof.
  intros Hu H Hr Hs. destruct r as [[]|e].
  - apply attribute_pending_conflicts_Ok in H as (_ & _ & Hsame & Hmove); [|done].
    destruct (decide (credential = "" ∨ principal = "" ∨ credential = principal)) as [Hd|Hd].
    { apply Hsame in Hd as ->. eauto. }
    specialize (Hmove ltac:(tauto) ltac:(tauto) ltac:(tauto) id). rewrite Hr in Hmove.
    rewrite decide_True in Hmove by done. eauto.
  - unfold attribute_pending_conflicts in H. case_match; [done|]. apply write_Err in H as ->. eauto.
Qed.

(** After the event is in the journal: what follows answers Ok, and the event stays there
    or is reported. *)
Lemma after_enqueue settings client credential e p r p' j id row :
  rp_journal p = Some j → conflict_unique (conflict_rows j) →
  conflict_rows j !! id = Some row → ConflictRecord_value row = e → ce_owner_scope e = credential →
  (principal ← attempt (backend_principal_scope sha256 service settings);
   match principal with
   | Err _ => mret (reply_ok [])
   | Ok conflict_scope =>
       _ ← modify (with_principal conflict_scope);
       attributed ←
         attempt (on_journal (attribute_pending_conflicts credential (bytes_str conflict_scope)));
       match attributed with
       | Err _ => mret (reply_ok [])
       | Ok _ =>
           _ ← (if bool_decide (ce_resolution e = "kept_cloud") then
                  _ ← attempt (deliver_ready_conflicts service unix client conflict_scope); mret tt
                else mret tt);
           mret (reply_ok [])
       end
   end : CR RpcReply) p = (r, p') →
  r = Ok (reply_ok []) ∧
  ∃ j' new, rp_journal p' = Some j' ∧ rp_log p' = rp_log p ++ new ∧
    ((∃ k row', conflict_rows j' !! k = Some row' ∧ same_choice (ConflictRecord_value row') e) ∨
     (ce_resolution e = "kept_cloud" ∧ reported client new e)).
Proof.
  intros Hj Hu Hr He Hsc. assert (Hsame : same_choice (ConflictRecord_value row) e) by by subst e.
  unfold mbind at 1, CR_bind at 1, attempt at 1, backend_principal_scope.
  destruct (device_principal_scope _ _ _ _) as [x lg] eqn:E.
  apply (asks_map service _ _ (λ s, Ok _) (get_json_asks _ _ _ _)) in E as [-> _].
  set (x0 := (_, service (rp_log p) _)). destruct x as [cs|er].
  2: { intros [= <- <-]. split; [done|]. exists j, [x0]. split; [done|]. split; [done|]. left. eauto. }
  unfold mbind, CR_bind, attempt, modify, on_sys, on_journal, update. cbn [rp_journal with_log with_sys].
  rewrite Hj. destruct (attribute_pending_conflicts _ _ j) as [y j1] eqn:Ea.
  destruct (attribute_keeps _ _ _ _ _ id row Hu Ea Hr) as (row1 & Hr1 & Hor); [by subst e|].
  assert (Hs1 : same_choice (ConflictRecord_value row1) e) by by destruct Hor as [-> | ->].
  destruct y as [u|er].
  2: { intros [= <- <-]. split; [done|]. exists j1, [x0]. split; [done|]. split; [done|]. left. eauto. }
  case_bool_decide as Hk.
  2: { intros [= <- <-]. split; [done|]. exists j1, [x0]. split; [done|]. split; [done|]. left. eauto. }
  destruct (deliver_ready_conflicts _ _ _ _ _) as [z p2] eqn:Ed. intros [= <- <-]. split; [done|].
  apply deliver_ready_rows with (j := j1) in Ed as (j2 & new & Hj2 & Hl & Hrows); [|done].
  exists j2, (x0 :: new). split; [done|]. rewrite Hl. cbn. rewrite <-app_assoc. split; [done|].
  destruct (Hrows _ _ Hr1) as [(row2 & Hr2 & Hv)|(a & Ha & Hacc)].
  - left. exists id, row2. by rewrite Hv.
  - right. split; [done|]. exists a. split; [|done]. right. by rewrite <-(report_same _ _ _ Hs1).
Qed.
End choices.

(** C16 [conflict_choice_survives]: when Steam is told that the user's choice between two versions
    was taken, the choice is in the journal, or it was for the cloud's version and the
    service accepted its report; that the service or the journal fail in between changes
    nothing about it. When Steam is told that it was not taken, the service has heard
    nothing and the journal is as before. *)
Theorem conflict_choice_survives {M : CloudMessages} {CC : CumulusCodec} {St : Structsy}
    {L : StructsyLaws St} sha256 service device pid unix nanos settings client body
    (p : Rpc) r p' j event_id p1 :
  rp_journal p = Some j → conflict_unique (conflict_rows j) →
  new_conflict_event_id sha256 pid nanos p = (Ok event_id, p1) →
  (∀ id row, conflict_rows j !! id = Some row → cr_event_id row ≠ event_id) →
  handle_conflict_resolution sha256 service device pid unix nanos settings client body p = (r, p') →
  match r with
  | Err _ => rp_log p' = rp_log p ∧ rp_journal p' = Some j
  | Ok _ =>
      ∃ request e j' new,
        decode_body (M := CloudClientConflictResolutionNotification) body = Ok request ∧
        cn_app_id request = Some (ce_app_id e) ∧ ce_event_id e = event_id ∧
        ce_resolution e = (if default false (cn_chose_local_files request)
                           then "kept_local" else "kept_cloud") ∧
        rp_journal p' = Some j' ∧ rp_log p' = rp_log p ++ new ∧
        ((∃ k row', conflict_rows j' !! k = Some row' ∧ same_choice (ConflictRecord_value row') e) ∨
         (ce_resolution e = "kept_cloud" ∧ reported client new e))
  end.
Proof.
  intros Hj Hu Hev Hfresh. unfold handle_conflict_resolution.
  intros [(request & q & [Hreq ->]%pure_Ok & Hm)|(e & He & ->)]%cr_bind_inv; [|by injection He as _ <-].
  apply cr_bind_inv in Hm as [(app_id & q & [Happ ->]%pure_Ok & Hm)|(e & He & ->)];
    [|by injection He as _ <-].
  apply cr_bind_inv in Hm as [(a & q & [= <- <-] & Hm)|(e & He & ->)]; [|by injection He as _ <-].
  apply cr_bind_inv in Hm as [(base & q & [Hbase ->]%pure_Ok & Hm)|(e & He & ->)];
    [|by injection He as _ <-].
  apply cr_bind_inv in Hm as [(remote & q & [Hremote ->]%pure_Ok & Hm)|(e & He & ->)];
    [|by injection He as _ <-].
  apply cr_bind_inv in Hm as [(s & q & [-> Hs]%scope_Ok & Hm)|(e & He & ->)].
  2: { unfold scope, mbind, CR_bind, state, pure in He. case_match; by injection He as _ <-. }
  apply cr_bind_inv in Hm as [(ev & q & Hev' & Hm)|(e & He & ->)]; [|done].
  rewrite Hev in Hev'. injection Hev' as <- <-. injection Hev as Hid Hp1.
  apply cr_bind_inv in Hm as [(now & q & [= <- <-] & Hm)|(e & He & ->)]; [|done].
  apply required_Ok in Happ.
  assert (Hjt : rp_journal (tick p1) = Some j) by (by subst p1).
  assert (Hlt : rp_log (tick p1) = rp_log p) by (by subst p1).
  set (ev := {| ce_owner_scope := _ |}) in Hm.
  unfold mbind at 1, CR_bind at 1, on_journal in Hm. rewrite Hjt in Hm.
  destruct (enqueue_conflict ev _ j) as [x j1] eqn:Een. destruct x as [[]|er].
  2: { injection Hm as <- <-. cbn. apply write_Err in Een as ->. done. }
  apply enqueue_conflict_Ok in Een as (_ & Hu1 & (id & row & Hrow & Hval & _) & _); [|done|].
  2: { intros k row Hk He. by destruct (Hfresh k row Hk). }
  eapply (after_enqueue sha256 service unix settings client _ ev) in Hm as (-> & j' & new & Hj' & Hl & Hor);
    [|done|done|done|done|done].
  exists request, ev, j', new. change (rp_log (tick p1)) with (rp_log (with_journal j1 (tick p1))) in Hlt.
  rewrite Hlt in Hl. auto 10.
Qed.
