(* ===== verification/RpcProtocol.v ===== *)
(** * RpcProtocol: which cloud requests are answered here, and how answers are framed

    The method tables and login projections of [steam-protocol/src/lib.rs], the routing
    decisions and the framing of responses of [cloud-rpc/src/protocol.rs]. The protobuf
    coding of each message is a parameter ([CloudMessages], [WireViews], [HeaderCodec]). *)

From Stdlib Require Import ZArith Lia.
From S2P Require Import Prelude RustStd CloudCore SteamProtocol Apps StoreFiles Syncthing CloudSettings Transfers.
From S2P Require Import CloudMessages.

Local Open Scope Z_scope.

(** ** Projections of Steam's messages *)

Record CloudBeginHttpUploadWireView := { wv1_app_id : option Z }.
Record CloudBeginUgcUploadWireView := { wv2_app_id : option Z }.
Record CloudGetSingleFileInfoWireView := { wv3_app_id : option Z }.
Record CloudShareFileWireView := { wv4_app_id : option Z }.
Record CloudEnumerateUserFilesWireView := { wv5_app_id : option Z }.
Record CloudCommitHttpUploadWireView := { wv6_app_id : option Z }.
Record CloudCommitUgcUploadWireView := { wv7_app_id : option Z }.
Record CloudGetFileDetailsWireView := { wv8_app_id : option Z }.
Record CloudDeleteWireView := { wv9_app_id : option Z }.
Record ClientMetricsAppInterfaceStatsWireView := { ai_game_id : option Z }.
Record ClientMetricsCloudAppSyncStatsWireView := { as_app_id : option Z }.
Record PlayerGetGameBadgeLevelsWireView := { bl_app_id : option Z }.
Record PublishedFileGetUserFilesWireView := { uf_app_id : option Z }.
Record SteamDeckCompatibilityShouldPromptWireView := { dc_app_id : option Z }.
Record UserNewsGetUserNewsWireView := { un_filter_app_id : option Z }.
Record LegacyStoreUserStatsRequestWireView := { ls_game_id : option Z }.
Record ClientLogOnResponseWireView := {
  lo_eresult : option Z; lo_client_supplied_steam_id : option Z;
}.
Record ClientLogOnWireView := {
  lw_client_os_type : option Z; lw_machine_name : option string;
  lw_machine_name_userchosen : option string; lw_gaming_device_type : option Z;
}.
Record ClientLogOnDevice := {
  ld_machine_name : string; ld_os_type : option Z; ld_device_type : option Z;
}.

Class WireViews := {
  #[global] wire_begin_http :: Message CloudBeginHttpUploadWireView;
  #[global] wire_begin_ugc :: Message CloudBeginUgcUploadWireView;
  #[global] wire_single_file :: Message CloudGetSingleFileInfoWireView;
  #[global] wire_share :: Message CloudShareFileWireView;
  #[global] wire_enumerate :: Message CloudEnumerateUserFilesWireView;
  #[global] wire_commit_http :: Message CloudCommitHttpUploadWireView;
  #[global] wire_commit_ugc :: Message CloudCommitUgcUploadWireView;
  #[global] wire_details :: Message CloudGetFileDetailsWireView;
  #[global] wire_delete :: Message CloudDeleteWireView;
  #[global] wire_interface :: Message ClientMetricsAppInterfaceStatsWireView;
  #[global] wire_sync_stats :: Message ClientMetricsCloudAppSyncStatsWireView;
  #[global] wire_badges :: Message PlayerGetGameBadgeLevelsWireView;
  #[global] wire_user_files :: Message PublishedFileGetUserFilesWireView;
  #[global] wire_deck :: Message SteamDeckCompatibilityShouldPromptWireView;
  #[global] wire_news :: Message UserNewsGetUserNewsWireView;
  #[global] wire_legacy :: Message LegacyStoreUserStatsRequestWireView;
  #[global] wire_logon_response :: Message ClientLogOnResponseWireView;
  #[global] wire_logon :: Message ClientLogOnWireView;
}.

(** ** Headers *)

Record CMsgGcRoutingProtoBufHeader := {
  gcr_dst_gc_id_queue : option Z; gcr_dst_gc_dir_index : option Z;
}.
Inductive MsgProtoBufHeaderIpAddress := V4 (a : Z) | V6 (a : list Z).

Record CMsgProtoBufHeader := {
  hd_steamid : option Z; hd_client_session_id : option Z; hd_routing_app_id : option Z;
  hd_jobid_source : option Z; hd_jobid_target : option Z; hd_target_job_name : option string;
  hd_eresult : option Z; hd_error_message : option string; hd_auth_account_flags : option Z;
  hd_transport_error : option Z; hd_message_id : option Z; hd_publisher_group_id : option Z;
  hd_system_id : option Z; hd_token_source : option Z; hd_admin_spoofing_user : option bool;
  hd_seq_num : option Z; hd_webapi_key_id : option Z; hd_is_from_external_source : option bool;
  hd_forward_to_system_id : list Z; hd_cm_system_id : option Z; hd_launcher_type : option Z;
  hd_realm : option Z; hd_timeout_ms : option Z; hd_debug_source : option string;
  hd_debug_source_string_index : option Z; hd_token_id : option Z;
  hd_routing_gc : option CMsgGcRoutingProtoBufHeader; hd_session_disposition : option Z;
  hd_wg_token : option string; hd_webui_auth_key : option string;
  hd_exclude_client_session_ids : list Z; hd_admin_request_spoofing_steamid : option Z;
  hd_is_valve_dedicated_server : option bool; hd_trace_tag : option Z;
  hd_ip_addr : option MsgProtoBufHeaderIpAddress;
}.

Class HeaderCodec := { #[global] header_message :: Message CMsgProtoBufHeader }.

(** ** AppIDs of requests *)

Section requests.
Context {M : CloudMessages} {W : WireViews} {HC : HeaderCodec}.

(** [M::decode(body).ok()?.field] *)
Definition field {A B} `{Message A} (f : A → option B) (body : list Z) : option B :=
  match decode (M := A) body with Ok m => f m | Err _ => None end.

Definition nonzero_id (app_id : option Z) : option Z :=
  id ← app_id; if id =? 0 then None else Some id.

Definition cloud_request_app_id (method : string) (body : list Z) : option Z :=
  let called m := bool_decide (method = m) in
  nonzero_id
    (if called BEGIN_HTTP_UPLOAD then field wv1_app_id body
     else if called BEGIN_UGC_UPLOAD then field wv2_app_id body
     else if called GET_SINGLE_FILE_INFO then field wv3_app_id body
     else if called SHARE_FILE then field wv4_app_id body
     else if called ENUMERATE_USER_FILES then field wv5_app_id body
     else if called COMMIT_HTTP_UPLOAD then field wv6_app_id body
     else if called COMMIT_UGC_UPLOAD then field wv7_app_id body
     else if called GET_FILE_DETAILS then field wv8_app_id body
     else if called LEGACY_DELETE then field wv9_app_id body
     else if called GET_CHANGELIST then field gc_app_id body
     else if called BEGIN_BATCH then field bb_app_id body
     else if called BEGIN_FILE_UPLOAD then field bf_app_id body
     else if called COMMIT_FILE_UPLOAD then field cf_app_id body
     else if called COMPLETE_BATCH || called COMPLETE_BATCH_BLOCKING then field cb_app_id body
     else if called FILE_DOWNLOAD then field fd_app_id body
     else if called DELETE_FILE then field df_app_id body
     else if called QUOTA_USAGE then field qu_app_id body
     else if called LAUNCH_INTENT then field li_app_id body
     else if called SUSPEND_SESSION then field sr_app_id body
     else if called RESUME_SESSION then field rr_app_id body
     else if called EXIT_SYNC_DONE then field ex_app_id body
     else if called CONFLICT_RESOLUTION then field cn_app_id body
     else None).

(** [str::starts_with] *)
Definition starts_with (prefix s : string) : bool :=
  bool_decide (str_bytes prefix = take (length (str_bytes prefix)) (str_bytes s)).

Definition service_method_app_id (method : string) (body : list Z) : option Z :=
  let called m := bool_decide (method = m) in
  if called "ClientMetrics.ClientAppInterfaceStatsReport#1" then
    game_id ← field ai_game_id body; app_id_from_game_id game_id
  else if called "ClientMetrics.ClientCloudAppSyncStats#1" then nonzero_id (field as_app_id body)
  else if called "Player.GetGameBadgeLevels#1" then nonzero_id (field bl_app_id body)
  else if called "PublishedFile.GetUserFiles#1" then nonzero_id (field uf_app_id body)
  else if called "Store.ShouldPromptForCompatibilityFeedback#1" then
    nonzero_id (field dc_app_id body)
  else if called "UserNews.GetUserNews#1" then nonzero_id (field un_filter_app_id body)
  else if starts_with "Cloud." method then cloud_request_app_id method body
  else None.

Definition legacy_store_user_stats_game_id (body : list Z) : option Z := field ls_game_id body.

(** ** Logins *)

Definition successful_logon_steam_id (header body : list Z) : option Z :=
  match decode (M := ClientLogOnResponseWireView) body with
  | Err _ => None
  | Ok response =>
      if negb (default 2 (lo_eresult response) =? ERESULT_OK) then None
      else
        steam_id ← match field hd_steamid header with
                   | Some id => Some id
                   | None => lo_client_supplied_steam_id response
                   end;
        if steam_id =? 0 then None else Some steam_id
  end.

Definition client_logon_device (body : list Z) : option ClientLogOnDevice :=
  match decode (M := ClientLogOnWireView) body with
  | Err _ => None
  | Ok request =>
      let chosen := name ← lw_machine_name_userchosen request;
                    if bool_decide (trimmed name = "") then None else Some name in
      Some {| ld_machine_name :=
                default "" (match chosen with Some n => Some n | None => lw_machine_name request end);
              ld_os_type := as_i32 <$> lw_client_os_type request;
              ld_device_type := lw_gaming_device_type request |}
  end.
End requests.

(** ** Routing ([protocol.rs]) *)

Section routing.
Context {M : CloudMessages} {W : WireViews} {U : UriParser} (sha256 : list Z → list Z).
(** The configuration and what is known of the account. *)
Context (apps : AppsSection) (account : AccountState) (cloud : CloudSection).

Definition intercepted_request_app_id (method : string) (body : list Z) : option Z :=
  if negb (local_cloud_configured cloud) && negb (cumulus_configured cloud) then None
  else
    app_id ← cloud_request_app_id method body;
    if is_confirmed_unowned (classify_app apps account app_id) then Some app_id else None.

Definition method_expects_response (method : string) : bool :=
  bool_decide (method ∈ [BEGIN_HTTP_UPLOAD; COMMIT_HTTP_UPLOAD; BEGIN_UGC_UPLOAD; COMMIT_UGC_UPLOAD;
    GET_FILE_DETAILS; GET_SINGLE_FILE_INFO; SHARE_FILE; ENUMERATE_USER_FILES; LEGACY_DELETE;
    GET_CHANGELIST; BEGIN_BATCH; BEGIN_FILE_UPLOAD; COMMIT_FILE_UPLOAD; COMPLETE_BATCH_BLOCKING;
    FILE_DOWNLOAD; DELETE_FILE; QUOTA_USAGE; LAUNCH_INTENT; SUSPEND_SESSION; RESUME_SESSION]).

Definition privacy_fallback_with_ownership (method : string) (body : list Z)
    (ownership : Z → OwnershipState) : option (Z * bool) :=
  app_id ← cloud_request_app_id method body;
  if requires_injected_ownership (classify_app_with_ownership apps app_id ownership)
  then Some (app_id, method_expects_response method) else None.

Definition privacy_fallback (method : string) (body : list Z) : option (Z * bool) :=
  privacy_fallback_with_ownership method body (actual_ownership account).

Definition is_local_location (authority path : string) : bool :=
  eq_ignore_ascii_case authority LOCAL_TRANSFER_AUTHORITY && starts_with "/v1/" path.

Definition is_local_transfer_report (method : string) (body : list Z) : bool :=
  if bool_decide (method = CDN_REPORT) then
    match field cr_url body ≫= parse_absolute_target with
    | Some (_, authority, path) => is_local_location authority path
    | None => false
    end
  else if bool_decide (method = EXTERNAL_TRANSFER_REPORT) then
    match field er_host body, field er_path body with
    | Some authority, Some path => is_local_location authority path
    | _, _ => false
    end
  else false.

(** The registry of issued targets is asked only when the endpoint does not match, and
    forgets what expired then. *)
Definition known_target (targets : option (list TransferTargets.IssuedTransferTarget))
    (scope : CloudStateScope) (authority path : string) (now : Z)
    : bool * option (list TransferTargets.IssuedTransferTarget) :=
  match targets with
  | None => (false, None)
  | Some targets =>
      let '(known, targets) := TransferTargets.contains targets scope authority path now in
      (known, Some targets)
  end.

Definition is_backend_transfer_report_impl (settings : CloudSettings) (method : string)
    (body : list Z) (targets : option (list TransferTargets.IssuedTransferTarget)) (now : Z)
    : bool * option (list TransferTargets.IssuedTransferTarget) :=
  if negb (bool_decide (method = CDN_REPORT) || bool_decide (method = EXTERNAL_TRANSFER_REPORT))
  then (false, targets)
  else if local_cloud_configured cloud then (is_local_transfer_report method body, targets)
  else if negb (cumulus_configured cloud) then (false, targets)
  else
    match endpoint_parse (cc_server_url (cl_cumulus cloud)) with
    | Err _ => (false, targets)
    | Ok endpoint =>
        let scope := from_settings sha256 settings in
        if bool_decide (method = CDN_REPORT) then
          match field cr_url body ≫= parse_absolute_target with
          | None => (false, targets)
          | Some (https, authority, path) =>
              if bool_decide (https = en_https endpoint)
                 && matches_transfer_location endpoint authority path
              then (true, targets) else known_target targets scope authority path now
          end
        else
          match field er_host body, field er_path body with
          | Some host, Some path =>
              if matches_transfer_location endpoint host path then (true, targets)
              else known_target targets scope host path now
          | _, _ => (false, targets)
          end
    end.

Definition is_backend_transfer_report (settings : CloudSettings) (method : string) (body : list Z)
    (targets : list TransferTargets.IssuedTransferTarget) (now : Z)
    : bool * list TransferTargets.IssuedTransferTarget :=
  let '(known, targets') := is_backend_transfer_report_impl settings method body (Some targets) now in
  (known, default targets targets').

Definition requires_queue (settings : CloudSettings) (method : string) (body : list Z) (now : Z)
    : bool :=
  (is_backend_transfer_report_impl settings method body None now).1
  || bool_decide (is_Some (intercepted_request_app_id method body)).
End routing.

(** ** Framing responses *)

Definition EMSG_SERVICE_METHOD_RESPONSE : Z := 147.

Section framing.
Context {HC : HeaderCodec}.

Definition response_header (request : CMsgProtoBufHeader) (eresult : Z) : CMsgProtoBufHeader :=
  {| hd_steamid := hd_steamid request; hd_client_session_id := None; hd_routing_app_id := None;
     hd_jobid_source := None; hd_jobid_target := hd_jobid_source request;
     hd_target_job_name := hd_target_job_name request; hd_eresult := Some eresult;
     hd_error_message := None; hd_auth_account_flags := None; hd_transport_error := None;
     hd_message_id := None; hd_publisher_group_id := None; hd_system_id := None;
     hd_token_source := None; hd_admin_spoofing_user := None; hd_seq_num := None;
     hd_webapi_key_id := None; hd_is_from_external_source := None; hd_forward_to_system_id := [];
     hd_cm_system_id := None; hd_launcher_type := None; hd_realm := None; hd_timeout_ms := None;
     hd_debug_source := None; hd_debug_source_string_index := None; hd_token_id := None;
     hd_routing_gc := None; hd_session_disposition := None; hd_wg_token := None;
     hd_webui_auth_key := None; hd_exclude_client_session_ids := [];
     hd_admin_request_spoofing_steamid := None; hd_is_valve_dedicated_server := None;
     hd_trace_tag := None; hd_ip_addr := None |}.

Definition assemble_response_packet (request : CMsgProtoBufHeader) (body : list Z) (eresult : Z)
    : list Z :=
  assemble_raw (Z.lor EMSG_SERVICE_METHOD_RESPONSE K_MSG_HDR_PROTO_FLAG)
    (encode_to_vec (response_header request eresult)) body.

Definition build_response_packet (request : CMsgProtoBufHeader) (r : AR RpcReply) : list Z :=
  match r with
  | Ok reply => assemble_response_packet request (re_body reply) (re_eresult reply)
  | Err _ => assemble_response_packet request [] ERESULT_FAIL
  end.

Definition build_failure_response_packet (request : CMsgProtoBufHeader) : list Z :=
  assemble_response_packet request [] ERESULT_FAIL.
End framing.
