(* ===== verification/RpcQueue.v ===== *)
(** * RpcQueue: requests between Steam's network thread and the worker ([cloud-rpc/src/queue.rs])

    [intercept] runs on the network thread and must not wait: it reserves a permit, notes
    where the response will arrive and hands the request to the worker over a bounded
    channel. The worker answers in its own time, and the injection path drains what has
    arrived. The response channels are modelled with their packets and the number of live
    senders, so that a request that is dropped anywhere disconnects its receiver. *)

From Stdlib Require Import ZArith Lia.
From S2P Require Import Prelude RustStd CloudCore SteamProtocol Apps CloudSettings CloudMessages RpcProtocol.

Local Open Scope Z_scope.

(** ** Data *)

(** One [mpsc::channel]: what was sent and not yet received, and the live senders. *)
Record Channel := { cn_packets : list (list Z); cn_senders : nat }.

Record PendingResponse := {
  pr_receiver : nat; pr_fallback : list Z; pr_response_generation : Z;
}.
Record CompletedResponse := { co_packet : list Z; co_response_generation : Z }.
Record QueuedResponse := { qp_sender : nat; qp_request_header : CMsgProtoBufHeader }.
Record QueuedRequest := {
  qd_app_id : Z; qd_method : string; qd_body : list Z; qd_settings : CloudSettings;
  qd_response : option QueuedResponse; qd_context_epoch : Z;
}.

Record CloudRpcQueue := {
  q_pending : list PendingResponse;
  (** the bounded channel to the worker, the request it works on, and whether it lives *)
  q_requests : list QueuedRequest; q_running : option QueuedRequest; q_worker : bool;
  (** requests between being noted as pending and being sent *)
  q_sending : list QueuedRequest;
  q_reports : list QueuedRequest; q_reporter : bool;
  q_outstanding : Z;
  (** permits of responses that were drained and not yet dropped *)
  q_held : nat;
  q_epoch : Z;
  q_channels : gmap nat Channel; q_fresh : nat;
  q_targets : list TransferTargets.IssuedTransferTarget;
}.

Definition REPORT_CAPACITY : nat := 128.

Definition try_new : CloudRpcQueue :=
  {| q_pending := []; q_requests := []; q_running := None; q_worker := true; q_sending := [];
     q_reports := []; q_reporter := true; q_outstanding := 0; q_held := 0; q_epoch := 1;
     q_channels := ∅; q_fresh := 0; q_targets := [] |}.

(** ** Parts of the state *)

Definition with_pending (p : list PendingResponse) (q : CloudRpcQueue) : CloudRpcQueue :=
  {| q_pending := p; q_requests := q_requests q; q_running := q_running q; q_worker := q_worker q;
     q_sending := q_sending q; q_reports := q_reports q; q_reporter := q_reporter q;
     q_outstanding := q_outstanding q; q_held := q_held q; q_epoch := q_epoch q;
     q_channels := q_channels q; q_fresh := q_fresh q; q_targets := q_targets q |}.
Definition with_worker (requests : list QueuedRequest) (running : option QueuedRequest)
    (alive : bool) (q : CloudRpcQueue) : CloudRpcQueue :=
  {| q_pending := q_pending q; q_requests := requests; q_running := running; q_worker := alive;
     q_sending := q_sending q; q_reports := q_reports q; q_reporter := q_reporter q;
     q_outstanding := q_outstanding q; q_held := q_held q; q_epoch := q_epoch q;
     q_channels := q_channels q; q_fresh := q_fresh q; q_targets := q_targets q |}.
Definition with_sending (s : list QueuedRequest) (q : CloudRpcQueue) : CloudRpcQueue :=
  {| q_pending := q_pending q; q_requests := q_requests q; q_running := q_running q;
     q_worker := q_worker q; q_sending := s; q_reports := q_reports q; q_reporter := q_reporter q;
     q_outstanding := q_outstanding q; q_held := q_held q; q_epoch := q_epoch q;
     q_channels := q_channels q; q_fresh := q_fresh q; q_targets := q_targets q |}.
Definition with_reports (r : list QueuedRequest) (alive : bool) (q : CloudRpcQueue) : CloudRpcQueue :=
  {| q_pending := q_pending q; q_requests := q_requests q; q_running := q_running q;
     q_worker := q_worker q; q_sending := q_sending q; q_reports := r; q_reporter := alive;
     q_outstanding := q_outstanding q; q_held := q_held q; q_epoch := q_epoch q;
     q_channels := q_channels q; q_fresh := q_fresh q; q_targets := q_targets q |}.
Definition with_permits (outstanding : Z) (held : nat) (q : CloudRpcQueue) : CloudRpcQueue :=
  {| q_pending := q_pending q; q_requests := q_requests q; q_running := q_running q;
     q_worker := q_worker q; q_sending := q_sending q; q_reports := q_reports q;
     q_reporter := q_reporter q; q_outstanding := outstanding; q_held := held; q_epoch := q_epoch q;
     q_channels := q_channels q; q_fresh := q_fresh q; q_targets := q_targets q |}.
Definition with_epoch (e : Z) (q : CloudRpcQueue) : CloudRpcQueue :=
  {| q_pending := q_pending q; q_requests := q_requests q; q_running := q_running q;
     q_worker := q_worker q; q_sending := q_sending q; q_reports := q_reports q;
     q_reporter := q_reporter q; q_outstanding := q_outstanding q; q_held := q_held q; q_epoch := e;
     q_channels := q_channels q; q_fresh := q_fresh q; q_targets := q_targets q |}.
Definition with_channels (c : gmap nat Channel) (fresh : nat) (q : CloudRpcQueue) : CloudRpcQueue :=
  {| q_pending := q_pending q; q_requests := q_requests q; q_running := q_running q;
     q_worker := q_worker q; q_sending := q_sending q; q_reports := q_reports q;
     q_reporter := q_reporter q; q_outstanding := q_outstanding q; q_held := q_held q;
     q_epoch := q_epoch q; q_channels := c; q_fresh := fresh; q_targets := q_targets q |}.
Definition with_targets (t : list TransferTargets.IssuedTransferTarget) (q : CloudRpcQueue)
    : CloudRpcQueue :=
  {| q_pending := q_pending q; q_requests := q_requests q; q_running := q_running q;
     q_worker := q_worker q; q_sending := q_sending q; q_reports := q_reports q;
     q_reporter := q_reporter q; q_outstanding := q_outstanding q; q_held := q_held q;
     q_epoch := q_epoch q; q_channels := q_channels q; q_fresh := q_fresh q; q_targets := t |}.

(** ** Response channels *)

(** A new channel with its first sender. *)
Definition new_channel (q : CloudRpcQueue) : nat * CloudRpcQueue :=
  (q_fresh q,
   with_channels (<[q_fresh q := {| cn_packets := []; cn_senders := 1 |}]> (q_channels q))
     (S (q_fresh q)) q).
Definition clone_sender (id : nat) (q : CloudRpcQueue) : CloudRpcQueue :=
  with_channels (alter (λ c, {| cn_packets := cn_packets c; cn_senders := S (cn_senders c) |}) id
                   (q_channels q)) (q_fresh q) q.
Definition drop_sender (id : nat) (q : CloudRpcQueue) : CloudRpcQueue :=
  with_channels (alter (λ c, {| cn_packets := cn_packets c; cn_senders := pred (cn_senders c) |}) id
                   (q_channels q)) (q_fresh q) q.
(** [sender.send]: lost when the receiver is gone. *)
Definition send (id : nat) (packet : list Z) (q : CloudRpcQueue) : CloudRpcQueue :=
  with_channels (alter (λ c, {| cn_packets := cn_packets c ++ [packet]; cn_senders := cn_senders c |})
                   id (q_channels q)) (q_fresh q) q.

Inductive TryRecv := Received (packet : list Z) | Disconnected | Empty.
Definition try_recv (c : gmap nat Channel) (id : nat) : TryRecv :=
  match c !! id with
  | None => Disconnected
  | Some c =>
      match cn_packets c with
      | packet :: _ => Received packet
      | [] => if (cn_senders c =? 0)%nat then Disconnected else Empty
      end
  end.

(** A request goes away with the sender it holds. *)
Definition drop_request (r : QueuedRequest) (q : CloudRpcQueue) : CloudRpcQueue :=
  match qd_response r with Some response => drop_sender (qp_sender response) q | None => q end.

(** ** Operations *)

(** [RpcWorker::try_reserve_response] *)
Definition try_reserve_response (q : CloudRpcQueue) : option CloudRpcQueue :=
  if q_outstanding q <? RPC_QUEUE_CAPACITY
  then Some (with_permits (q_outstanding q + 1) (q_held q) q) else None.

(** [Drop for ResponsePermit]: [fetch_sub], which wraps around *)
Definition drop_permit (q : CloudRpcQueue) : CloudRpcQueue :=
  with_permits ((q_outstanding q - 1) mod (u64_max + 1)) (pred (q_held q)) q.

Definition track_response (receiver : nat) (fallback : list Z) (generation : Z) (q : CloudRpcQueue)
    : CloudRpcQueue :=
  with_pending (q_pending q ++ [{| pr_receiver := receiver; pr_fallback := fallback;
                                   pr_response_generation := generation |}]) q.

(** [SyncSender::try_send] to the worker: refused when the channel is full or closed. *)
Definition try_send (r : QueuedRequest) (q : CloudRpcQueue) : bool * CloudRpcQueue :=
  if negb (q_worker q) || (RPC_CHANNEL_CAPACITY <=? Z.of_nat (length (q_requests q)))
  then (false, drop_request r q)
  else (true, with_worker (q_requests q ++ [r]) (q_running q) (q_worker q) q).

Definition try_report (r : QueuedRequest) (q : CloudRpcQueue) : CloudRpcQueue :=
  if negb (q_reporter q) || (REPORT_CAPACITY <=? length (q_reports q))%nat
  then q else with_reports (q_reports q ++ [r]) (q_reporter q) q.

Section queue.
Context {M : CloudMessages} {W : WireViews} {HC : HeaderCodec} {U : UriParser}.
Context (sha256 : list Z → list Z).

Definition complete_request (r : QueuedRequest) (result : AR RpcReply) (q : CloudRpcQueue)
    : CloudRpcQueue :=
  match qd_response r with
  | Some response =>
      drop_sender (qp_sender response)
        (send (qp_sender response) (build_response_packet (qp_request_header response) result) q)
  | None => q
  end.

(** What [intercept] does with a request that expects a response, up to handing it over:
    the permit, the channel and the note of where the response will arrive. *)
Definition reserve (app_id : Z) (method : string) (header : CMsgProtoBufHeader) (body : list Z)
    (settings : CloudSettings) (generation : Z) (q : CloudRpcQueue)
    : option (QueuedRequest * CloudRpcQueue) :=
  q ← try_reserve_response q;
  let '(id, q) := new_channel q in
  let q := track_response id (build_failure_response_packet header) generation q in
  Some ({| qd_app_id := app_id; qd_method := method; qd_body := body; qd_settings := settings;
           qd_response := Some {| qp_sender := id; qp_request_header := header |};
           qd_context_epoch := q_epoch q |}, q).

(** The rest: the request, with a sender of its own, goes to the worker; if it cannot, the
    failure is sent from here. The first sender goes away. *)
Definition hand_over (r : QueuedRequest) (q : CloudRpcQueue) : CloudRpcQueue :=
  match qd_response r with
  | None => q
  | Some response =>
      let id := qp_sender response in
      let '(sent, q) := try_send r (clone_sender id q) in
      let q := if sent : bool then q
               else send id (build_failure_response_packet (qp_request_header response)) q in
      drop_sender id q
  end.

(** Whether the packet is a matter of this queue, and for which app. *)
Inductive Route := Report | Respond (app_id : Z) | Notify (app_id : Z) | Decline.

Definition route (apps : AppsSection) (account : AccountState) (cloud : CloudSection)
    (settings : CloudSettings) (method : string) (header : CMsgProtoBufHeader) (body : list Z)
    (now : Z) (q : CloudRpcQueue) : Route * CloudRpcQueue :=
  let '(report, targets) :=
    is_backend_transfer_report sha256 cloud settings method body (q_targets q) now in
  let q := with_targets targets q in
  if report : bool then (Report, q)
  else
    match intercepted_request_app_id apps account cloud method body with
    | None => (Decline, q)
    | Some app_id =>
        if method_expects_response method then
          match hd_jobid_source header with
          | Some job => if job =? 0 then (Decline, q) else (Respond app_id, q)
          | None => (Decline, q)
          end
        else (Notify app_id, q)
    end.

Definition notification (app_id : Z) (method : string) (body : list Z) (settings : CloudSettings)
    (epoch : Z) : QueuedRequest :=
  {| qd_app_id := app_id; qd_method := method; qd_body := body; qd_settings := settings;
     qd_response := None; qd_context_epoch := epoch |}.

(** [CloudRpcQueue::intercept], undisturbed. *)
Definition intercept (apps : AppsSection) (account : AccountState) (cloud : CloudSection)
    (settings : CloudSettings) (method : string) (header : CMsgProtoBufHeader) (body : list Z)
    (generation now : Z) (q : CloudRpcQueue) : bool * CloudRpcQueue :=
  match route apps account cloud settings method header body now q with
  | (Report, q) => (true, try_report (notification 0 method body settings 0) q)
  | (Decline, q) => (false, q)
  | (Respond app_id, q) =>
      match reserve app_id method header body settings generation q with
      | None => (false, q)
      | Some (r, q) => (true, hand_over r q)
      end
  | (Notify app_id, q) => try_send (notification app_id method body settings (q_epoch q)) q
  end.

(** [Vec::swap_remove]: the last element takes the place of the removed one. *)
Definition swap_remove {A} (i : nat) (l : list A) : list A :=
  match l !! pred (length l) with
  | Some x => take (pred (length l)) (<[i := x]> l)
  | None => []
  end.

(** The loop of [drain_completed]. *)
Fixpoint drain_loop (fuel index : nat) (c : gmap nat Channel) (pending : list PendingResponse)
    : list (PendingResponse * list Z) * list PendingResponse :=
  match fuel with
  | O => ([], pending)
  | S fuel =>
      match pending !! index with
      | None => ([], pending)
      | Some p =>
          match try_recv c (pr_receiver p) with
          | Received packet =>
              let '(done, rest) := drain_loop fuel index c (swap_remove index pending) in
              ((p, packet) :: done, rest)
          | Disconnected =>
              let '(done, rest) := drain_loop fuel index c (swap_remove index pending) in
              ((p, pr_fallback p) :: done, rest)
          | Empty => drain_loop fuel (S index) c pending
          end
      end
  end.

Definition completed (d : PendingResponse * list Z) : CompletedResponse :=
  {| co_packet := d.2; co_response_generation := pr_response_generation d.1 |}.

(** A removed entry takes its receiver along, and its permit goes to the response. *)
Definition drain (q : CloudRpcQueue) : list (PendingResponse * list Z) * CloudRpcQueue :=
  let '(done, rest) := drain_loop (length (q_pending q)) 0 (q_channels q) (q_pending q) in
  (done,
   with_permits (q_outstanding q) (q_held q + length done)
     (with_channels (foldr (λ d, delete (pr_receiver d.1)) (q_channels q) done) (q_fresh q)
        (with_pending rest q))).
Definition drain_completed (q : CloudRpcQueue) : list CompletedResponse * CloudRpcQueue :=
  let '(done, q) := drain q in (completed <$> done, q).

(** [cancel_pending_conflicts]: the part that concerns requests. *)
Definition cancel_pending (q : CloudRpcQueue) : CloudRpcQueue :=
  with_epoch (u64_wrapping_add (q_epoch q) 1) q.

(** ** The worker thread *)

(** The next request is taken; one of an older context fails without being executed. *)
Definition worker_recv (q : CloudRpcQueue) : CloudRpcQueue :=
  match q_worker q, q_running q, q_requests q with
  | true, None, r :: rest =>
      if negb (qd_context_epoch r =? q_epoch q)
      then complete_request r (Err (Protocol "cloud request context changed before completion"))
             (with_worker rest None true q)
      else with_worker rest (Some r) true q
  | _, _, _ => q
  end.
(** [execute_rpc] returned. *)
Definition worker_done (result : AR RpcReply) (q : CloudRpcQueue) : CloudRpcQueue :=
  match q_running q with
  | Some r => complete_request r result (with_worker (q_requests q) None (q_worker q) q)
  | None => q
  end.
(** The thread ends: what it works on and what waits for it is dropped. *)
Definition worker_dies (q : CloudRpcQueue) : CloudRpcQueue :=
  let dropped := option_list (q_running q) ++ q_requests q in
  foldr drop_request (with_worker [] None false q) dropped.
End queue.

(** The other worker only consumes. *)
Definition report_recv (q : CloudRpcQueue) : CloudRpcQueue :=
  with_reports (tail (q_reports q)) (q_reporter q) q.
Definition reporter_dies (q : CloudRpcQueue) : CloudRpcQueue := with_reports [] false q.
