(* ===== verification/RpcQueueProofs.v ===== *)
(** * RpcQueueProofs: every accepted request is answered once

    Steps of the network thread, the two workers and the injection path interleave freely;
    a worker may also die. A request that was accepted is then either still pending or was
    answered exactly once, with a packet that goes back to the job that asked. *)

From Stdlib Require Import ZArith Lia.
From S2P Require Import Prelude RustStd CloudCore SteamProtocol Apps CloudSettings CloudMessages RpcProtocol.
From S2P Require Import RpcQueue.

Local Open Scope Z_scope.

(** ** Steps *)

Inductive Event :=
(** the network thread sees a packet; a request that expects a response is noted *)
| Intercept (apps : AppsSection) (account : AccountState) (cloud : CloudSection)
    (settings : CloudSettings) (method : string) (header : CMsgProtoBufHeader) (body : list Z)
    (generation now : Z)
(** and handed over *)
| HandOver (i : nat)
| WorkerRecv
| WorkerDone (result : AR RpcReply)
| WorkerDies
| ReportRecv
| ReporterDies
| Drain
| DropPermit
| Cancel.

Inductive Output :=
| Accepted (id : nat) (header : CMsgProtoBufHeader) (generation : Z)
| Answered (id : nat) (packet : list Z) (generation : Z).

Section steps.
Context {M : CloudMessages} {W : WireViews} {HC : HeaderCodec} {U : UriParser}.
Context (sha256 : list Z → list Z).

Definition step (e : Event) (q : CloudRpcQueue) : CloudRpcQueue * list Output :=
  match e with
  | Intercept apps account cloud settings method header body generation now =>
      match route sha256 apps account cloud settings method header body now q with
      | (Report, q) => (try_report (notification 0 method body settings 0) q, [])
      | (Decline, q) => (q, [])
      | (Respond app_id, q) =>
          match reserve app_id method header body settings generation q with
          | None => (q, [])
          | Some (r, q) => (with_sending (q_sending q ++ [r]) q, [Accepted (pred (q_fresh q)) header generation])
          end
      | (Notify app_id, q) => ((try_send (notification app_id method body settings (q_epoch q)) q).2, [])
      end
  | HandOver i =>
      match q_sending q !! i with
      | Some r => (hand_over r (with_sending (delete i (q_sending q)) q), [])
      | None => (q, [])
      end
  | WorkerRecv => (worker_recv q, [])
  | WorkerDone result => (worker_done result q, [])
  | WorkerDies => (worker_dies q, [])
  | ReportRecv => (report_recv q, [])
  | ReporterDies => (reporter_dies q, [])
  | Drain =>
      let '(done, q) := drain q in
      (q, (λ d, Answered (pr_receiver d.1) d.2 (pr_response_generation d.1)) <$> done)
  | DropPermit => (match q_held q with O => q | S _ => drop_permit q end, [])
  | Cancel => (cancel_pending q, [])
  end.

Fixpoint run (es : list Event) (q : CloudRpcQueue) : CloudRpcQueue * list Output :=
  match es with
  | [] => (q, [])
  | e :: es => let '(q, out) := step e q in let '(q, rest) := run es q in (q, out ++ rest)
  end.
End steps.

Definition accepted_id (o : Output) : option nat :=
  match o with Accepted id _ _ => Some id | _ => None end.
Definition answered_id (o : Output) : option nat :=
  match o with Answered id _ _ => Some id | _ => None end.

(** ** [swap_remove] and the drain *)

Lemma swap_remove_perm {A} (i : nat) (l : list A) x : l !! i = Some x → x :: swap_remove i l ≡ₚ l.
Proof.
  intros Hi. unfold swap_remove. pose proof (lookup_lt_Some _ _ _ Hi) as Hlt.
  destruct (l !! pred (length l)) as [y|] eqn:Hy.
  2: { apply lookup_ge_None in Hy. lia. }
  set (n := pred (length l)) in *.
  assert (Hl : take n l ++ [y] = l).
  { rewrite <-(take_drop n l) at 2. f_equal. apply drop_S in Hy as ->. f_equal.
    rewrite drop_ge; [done|lia]. }
  trans (take n l ++ [y]); [|by rewrite Hl]. destruct (decide (i = n)) as [->|Hne].
  - assert (x = y) as -> by congruence. rewrite take_insert_ge by lia.
    apply Permutation_cons_append.
  - rewrite take_insert_lt by lia.
    assert (Hi' : take n l !! i = Some x) by (rewrite lookup_take_lt by lia; done).
    clear Hl. revert Hi'. generalize (take n l). intros l' Hi'.
    rewrite <-(take_drop_middle _ _ _ Hi') at 2.
    rewrite (insert_take_drop l' i y) by (by eapply lookup_lt_Some).
    rewrite <-!app_assoc. cbn. rewrite <-!Permutation_middle.
    by rewrite app_nil_r.
Qed.

Lemma swap_remove_take {A} (i : nat) (l : list A) : (i < length l)%nat → take i (swap_remove i l) = take i l.
Proof.
  intros Hlt. unfold swap_remove. destruct (l !! pred (length l)) as [y|] eqn:Hy.
  2: { apply lookup_ge_None in Hy. lia. }
  rewrite take_take, Nat.min_l by lia. by apply take_insert_ge.
Qed.

(** What a receiver gives to an entry that is taken out. *)
Definition gives (c : gmap nat Channel) (d : PendingResponse * list Z) : Prop :=
  match try_recv c (pr_receiver d.1) with
  | Received packet => d.2 = packet
  | Disconnected => d.2 = pr_fallback d.1
  | Empty => False
  end.

(** The drain takes out every entry that has its response or has lost its sender, each
    once, and leaves the others. *)
Lemma drain_loop_spec fuel index c pending done rest :
  drain_loop fuel index c pending = (done, rest) → (length pending ≤ fuel + index)%nat →
  Forall (λ p, try_recv c (pr_receiver p) = Empty) (take index pending) →
  done.*1 ++ rest ≡ₚ pending ∧ Forall (gives c) done ∧
  Forall (λ p, try_recv c (pr_receiver p) = Empty) rest.
Proof.
  revert index pending done rest. induction fuel as [|fuel IH]; intros index pending done rest Hm Hle Hemp.
  { injection Hm as <- <-. split; [done|]. split; [constructor|]. by rewrite take_ge in Hemp by lia. }
  cbn in Hm. destruct (pending !! index) as [p|] eqn:Hp.
  2: { injection Hm as <- <-. apply lookup_ge_None in Hp. split; [done|]. split; [constructor|].
       by rewrite take_ge in Hemp by lia. }
  pose proof (swap_remove_perm _ _ _ Hp) as Hperm. pose proof (lookup_lt_Some _ _ _ Hp) as Hlt.
  assert (Hstep : ∀ x, gives c (p, x) →
    (let '(done, rest) := drain_loop fuel index c (swap_remove index pending) in ((p, x) :: done, rest)) =
      (done, rest) →
    done.*1 ++ rest ≡ₚ pending ∧ Forall (gives c) done ∧
    Forall (λ p, try_recv c (pr_receiver p) = Empty) rest).
  { intros x Hx Heq. destruct (drain_loop fuel index c (swap_remove index pending)) as [done' rest'] eqn:Ed.
    injection Heq as <- <-. apply IH in Ed as (H1 & H2 & H3).
    - cbn. rewrite H1, Hperm. split; [done|]. split; [by constructor|done].
    - apply Permutation_length in Hperm. cbn in Hperm. lia.
    - by rewrite swap_remove_take. }
  destruct (try_recv c (pr_receiver p)) as [x| |] eqn:Er.
  - apply (Hstep x); [|done]. unfold gives. cbn. by rewrite Er.
  - apply (Hstep (pr_fallback p)); [|done]. unfold gives. cbn. by rewrite Er.
  - apply IH in Hm; [done|lia|]. rewrite (take_S_r _ _ _ Hp). apply Forall_app. by repeat constructor.
Qed.

(** ** The invariant *)

(** The requests that hold a sender: not yet handed over, waiting, and worked on. *)
Definition alive (q : CloudRpcQueue) : list QueuedRequest :=
  q_sending q ++ option_list (q_running q) ++ q_requests q.
Definition sender_of (r : QueuedRequest) : option nat := qp_sender <$> qd_response r.
Definition ids (q : CloudRpcQueue) : list nat := pr_receiver <$> q_pending q.

Section invariant.
Context {HC : HeaderCodec}.

(** A packet that goes back to the job of the request. *)
Definition answers (header : CMsgProtoBufHeader) (packet : list Z) : Prop :=
  ∃ body eresult, packet = assemble_response_packet header body eresult.

(** The channel of a pending response: its request still holds the sender, or is gone and
    left at most one packet. *)
Definition channel_ok (holders : list nat) (id : nat) (header : CMsgProtoBufHeader) (c : Channel) : Prop :=
  (id ∈ holders ∧ c = {| cn_packets := []; cn_senders := 1 |}) ∨
  (id ∉ holders ∧ cn_senders c = 0%nat ∧
   (cn_packets c = [] ∨ ∃ x, cn_packets c = [x] ∧ answers header x)).

(** [queue_inv rs q log]: the requests [rs] hold a sender, and [log] is what was accepted
    and answered so far. *)
Record queue_inv (rs : list QueuedRequest) (q : CloudRpcQueue) (log : list Output) : Prop := {
  qi_holders : NoDup (omap sender_of rs);
  qi_waiting : ∀ id, id ∈ omap sender_of rs → id ∈ ids q;
  qi_headers : ∀ r response, r ∈ rs → qd_response r = Some response →
    ∃ generation, Accepted (qp_sender response) (qp_request_header response) generation ∈ log;
  qi_pending : ∀ p, p ∈ q_pending q → ∃ header c,
    Accepted (pr_receiver p) header (pr_response_generation p) ∈ log ∧
    pr_fallback p = build_failure_response_packet header ∧
    q_channels q !! pr_receiver p = Some c ∧
    channel_ok (omap sender_of rs) (pr_receiver p) header c;
  qi_log : omap answered_id log ++ ids q ≡ₚ omap accepted_id log;
  qi_fresh : omap accepted_id log = seq 0 (q_fresh q);
  qi_answers : ∀ id x generation, Answered id x generation ∈ log →
    ∃ header, Accepted id header generation ∈ log ∧ answers header x;
  qi_permits : q_outstanding q = Z.of_nat (length (q_pending q) + q_held q);
  qi_bound : q_outstanding q ≤ RPC_QUEUE_CAPACITY;
}.

Lemma ids_NoDup rs q log : queue_inv rs q log → NoDup (omap accepted_id log) ∧ NoDup (ids q).
Proof.
  intros Hi. assert (Hn : NoDup (omap accepted_id log)) by (rewrite (qi_fresh _ _ _ Hi); apply NoDup_seq).
  split; [done|]. rewrite <-(qi_log _ _ _ Hi) in Hn. by apply NoDup_app in Hn as (_ & _ & ?).
Qed.

Lemma accepted_unique rs q log id h g h' g' :
  queue_inv rs q log → Accepted id h g ∈ log → Accepted id h' g' ∈ log → h = h' ∧ g = g'.
Proof.
  intros Hi H1 H2. destruct (ids_NoDup _ _ _ Hi) as [Hn _]. clear Hi.
  induction log as [|o log IH]; [by apply not_elem_of_nil in H1|].
  assert (Hin : ∀ h g, Accepted id h g ∈ log → id ∈ omap accepted_id log).
  { intros h0 g0 ?. apply list_elem_of_omap. by exists (Accepted id h0 g0). }
  apply elem_of_cons in H1 as [<-|H1], H2 as [Heq|H2].
  - by injection Heq as -> ->.
  - cbn in Hn. apply NoDup_cons in Hn as [Hno _]. by destruct (Hno (Hin _ _ H2)).
  - rewrite <-Heq in Hn. cbn in Hn. apply NoDup_cons in Hn as [Hno _]. by destruct (Hno (Hin _ _ H1)).
  - apply IH; [done..|]. cbn in Hn. destruct (accepted_id o); [by apply NoDup_cons in Hn as [_ ?]|done].
Qed.

(** Only who holds the senders matters, in any order. *)
Lemma inv_perm rs rs' q log : rs ≡ₚ rs' → queue_inv rs q log → queue_inv rs' q log.
Proof.
  intros Hp [H1 H2 H3 H4 H5 H6 H7 H8 H9].
  assert (Ho : omap sender_of rs ≡ₚ omap sender_of rs') by (by rewrite Hp).
  split; try done.
  - by rewrite <-Ho.
  - intros id. rewrite <-Ho. apply H2.
  - intros r response Hr. rewrite <-Hp in Hr. by apply H3.
  - intros p Hin. destruct (H4 p Hin) as (h & c & ? & ? & ? & Hc). exists h, c. do 3 (split; [done|]).
    unfold channel_ok in *. by rewrite <-Ho.
Qed.

(** Fields no request depends on. *)
Lemma inv_same rs q q' log :
  queue_inv rs q log → q_pending q' = q_pending q → q_channels q' = q_channels q →
  q_fresh q' = q_fresh q → q_outstanding q' = q_outstanding q → q_held q' = q_held q →
  queue_inv rs q' log.
Proof.
  intros [H1 H2 H3 H4 H5 H6 H7 H8 H9] Hp Hc Hf Ho Hh.
  split; unfold ids in *; rewrite ?Hp, ?Hc, ?Hf, ?Ho, ?Hh; done.
Qed.

(** A request without a response. *)
Lemma inv_silent r rs q log :
  qd_response r = None → (queue_inv (r :: rs) q log ↔ queue_inv rs q log).
Proof.
  intros Hr. assert (Ho : omap sender_of (r :: rs) = omap sender_of rs) by (cbn; unfold sender_of; by rewrite Hr).
  split; intros [H1 H2 H3 H4 H5 H6 H7 H8 H9]; rewrite ?Ho in *; split; rewrite ?Ho; try done.
  - intros r' response Hin. apply H3. by apply elem_of_cons; right.
  - intros r' response [->|Hin]%elem_of_cons ?; [congruence|by eapply H3].
Qed.

(** A request gives up its sender, having sent one answer or nothing. *)
Lemma queue_inv_release r response rs q q' log packets :
  queue_inv (r :: rs) q log → qd_response r = Some response →
  (packets = [] ∨ ∃ x, packets = [x] ∧ answers (qp_request_header response) x) →
  q_channels q' = <[qp_sender response := {| cn_packets := packets; cn_senders := 0 |}]> (q_channels q) →
  q_pending q' = q_pending q → q_fresh q' = q_fresh q → q_outstanding q' = q_outstanding q →
  q_held q' = q_held q → queue_inv rs q' log.
Proof.
  intros Hi Hr Hpk Hc Hp Hf Ho Hh. pose proof Hi as [H1 H2 H3 H4 H5 H6 H7 H8 H9].
  assert (Hs : sender_of r = Some (qp_sender response)) by (unfold sender_of; by rewrite Hr).
  cbn in H1, H2, H4. rewrite Hs in H1, H2, H4. apply NoDup_cons in H1 as [Hno H1].
  split; try done; unfold ids in *; rewrite ?Hp, ?Hf, ?Ho, ?Hh; try done.
  - intros id Hid. apply H2. by apply elem_of_cons; right.
  - intros r' response' Hin. apply H3. by apply elem_of_cons; right.
  - intros p Hin. destruct (H4 p Hin) as (h & c & Ha & Hfb & Hl & Hok). rewrite Hc.
    destruct (decide (pr_receiver p = qp_sender response)) as [Heq|Hne].
    + exists h, {| cn_packets := packets; cn_senders := 0 |}. split; [done|]. split; [done|].
      rewrite Heq, lookup_insert_eq. split; [done|]. right. split; [done|]. split; [done|]. cbn.
      destruct (H3 r response) as (g & Ha'); [by left|done|]. rewrite Heq in Ha.
      destruct (accepted_unique _ _ _ _ _ _ _ _ Hi Ha Ha') as [-> _]. done.
    + exists h, c. split; [done|]. split; [done|]. rewrite lookup_insert_ne by done. split; [done|].
      destruct Hok as [[Hin' ->]|[Hnin Hok]].
      * left. split; [|done]. by apply elem_of_cons in Hin' as [?|?].
      * right. split; [|done]. intros ?. apply Hnin. by apply elem_of_cons; right.
Qed.

(** The channel of a request that holds its sender. *)
Lemma inv_channel r response rs q log :
  queue_inv (r :: rs) q log → qd_response r = Some response →
  q_channels q !! qp_sender response = Some {| cn_packets := []; cn_senders := 1 |}.
Proof.
  intros [H1 H2 H3 H4 _ _ _ _ _] Hr.
  assert (Hin : qp_sender response ∈ omap sender_of (r :: rs)).
  { apply list_elem_of_omap. exists r. split; [by left|]. unfold sender_of. by rewrite Hr. }
  destruct (list_elem_of_fmap_1 _ _ _ (H2 _ Hin)) as (p & Heq & Hp).
  destruct (H4 p Hp) as (h & c & _ & _ & Hl & [[_ ->]|[Hno _]]); rewrite <-Heq in *; [done|].
  by destruct Hno.
Qed.
End invariant.

(** ** Every step keeps it *)

Lemma alter_at {A} (f : A → A) (i : nat) (m : gmap nat A) x : m !! i = Some x → alter f i m = <[i := f x]> m.
Proof.
  intros Hi. apply map_eq. intros j. destruct (decide (i = j)) as [<-|Hne].
  - by rewrite lookup_alter_eq, lookup_insert_eq, Hi.
  - by rewrite lookup_alter_ne, lookup_insert_ne by done.
Qed.

Section keeping.
Context {M : CloudMessages} {W : WireViews} {HC : HeaderCodec} {U : UriParser}.
Context (sha256 : list Z → list Z).

Lemma complete_inv r rs result q log :
  queue_inv (r :: rs) q log → queue_inv rs (complete_request r result q) log.
Proof.
  intros Hi. unfold complete_request. destruct (qd_response r) as [response|] eqn:Hr.
  2: { by apply inv_silent in Hi. }
  pose proof (inv_channel _ _ _ _ _ Hi Hr) as Hc.
  eapply (queue_inv_release _ _ _ _ _ _ [build_response_packet (qp_request_header response) result]); try done.
  - right. eexists. split; [done|]. unfold answers, build_response_packet. destruct result; eauto.
  - cbn. rewrite (alter_at _ _ _ _ Hc), alter_insert_eq. done.
Qed.

Lemma drop_inv r rs q log : queue_inv (r :: rs) q log → queue_inv rs (drop_request r q) log.
Proof.
  intros Hi. unfold drop_request. destruct (qd_response r) as [response|] eqn:Hr.
  2: { by apply inv_silent in Hi. }
  pose proof (inv_channel _ _ _ _ _ Hi Hr) as Hc.
  eapply (queue_inv_release _ _ _ _ _ _ []); try done; [by left|]. cbn. by rewrite (alter_at _ _ _ _ Hc).
Qed.

Lemma drop_all_inv l rs q log : queue_inv (l ++ rs) q log → queue_inv rs (foldr drop_request q l) log.
Proof.
  revert rs. induction l as [|r l IH]; intros rs Hi; [done|]. cbn. apply (drop_inv r).
  apply IH. eapply inv_perm; [|exact Hi]. cbn. apply Permutation_middle.
Qed.

(** Dropping requests changes channels only. *)
Lemma drop_all_fields l q :
  q_sending (foldr drop_request q l) = q_sending q ∧ q_running (foldr drop_request q l) = q_running q ∧
  q_requests (foldr drop_request q l) = q_requests q ∧ q_reports (foldr drop_request q l) = q_reports q.
Proof.
  induction l as [|r l (H1 & H2 & H3 & H4)]; [done|]. cbn. unfold drop_request at 1 3 5 7.
  by destruct (qd_response r).
Qed.

Lemma hand_over_inv r rs q log :
  queue_inv (r :: rs) q log →
  queue_inv (match try_send r q with (true, _) => r :: rs | (false, _) => rs end) (hand_over r q) log.
Proof.
  intros Hi. unfold hand_over, try_send. destruct (qd_response r) as [response|] eqn:Hr.
  2: { destruct (negb _ || _); [by apply inv_silent in Hi|done]. }
  pose proof (inv_channel _ _ _ _ _ Hi Hr) as Hc. cbn [q_worker q_requests clone_sender with_channels].
  destruct (negb _ || _) eqn:Efull.
  - eapply (queue_inv_release _ _ _ _ _ _ [build_failure_response_packet (qp_request_header response)]); try done.
    + right. eexists. split; [done|]. by eexists _, _.
    + unfold drop_request. rewrite Hr. cbn. rewrite (alter_at _ _ _ _ Hc), !alter_insert_eq. done.
    + unfold drop_request. by rewrite Hr.
    + unfold drop_request. by rewrite Hr.
    + unfold drop_request. by rewrite Hr.
    + unfold drop_request. by rewrite Hr.
  - eapply inv_same; [exact Hi|done| |done..]. cbn.
    rewrite (alter_at _ _ _ _ Hc), alter_insert_eq. cbn. by apply insert_id.
Qed.

Lemma reserve_inv app method header body settings generation rs q log r q' :
  queue_inv rs q log → reserve app method header body settings generation q = Some (r, q') →
  queue_inv (r :: rs) q' (log ++ [Accepted (q_fresh q) header generation]) ∧ q_fresh q' = S (q_fresh q) ∧
  q_sending q' = q_sending q ∧ q_running q' = q_running q ∧ q_requests q' = q_requests q ∧
  q_reports q' = q_reports q.
Proof.
  intros Hi Hm. unfold reserve, try_reserve_response in Hm.
  destruct (Z.ltb_spec (q_outstanding q) RPC_QUEUE_CAPACITY) as [Hlt|]; [|done].
  injection Hm as <- <-. split; [|done]. set (id := q_fresh q).
  pose proof Hi as [H1 H2 H3 H4 H5 H6 H7 H8 H9].
  assert (Hnew : ∀ i, i ∈ omap accepted_id log → (i < id)%nat).
  { intros i. rewrite H6. unfold id. intros Hin%elem_of_seq. lia. }
  assert (Hnp : ∀ i, i ∈ ids q → i ≠ id).
  { intros i Hin ->. assert (id ∈ omap accepted_id log) as Hlt'%Hnew; [|lia].
    rewrite <-H5. apply elem_of_app. by right. }
  assert (Hlog : ∀ o, o ∈ log → o ∈ log ++ [Accepted id header generation]) by (intros; apply elem_of_app; by left).
  split; cbn.
  - constructor; [|done]. intros Hin%H2. by apply (Hnp _ Hin).
  - unfold ids. cbn. rewrite fmap_app. intros i [->|Hin]%elem_of_cons; apply elem_of_app; [right; by left|left; auto].
  - intros r response [->|Hin]%elem_of_cons Hr.
    + cbn in Hr. injection Hr as <-. exists generation. apply elem_of_app. right. by left.
    + destruct (H3 _ _ Hin Hr) as [g Hg]. eauto.
  - intros p [Hin|Hin]%elem_of_app.
    + destruct (H4 p Hin) as (h & c & ? & ? & Hl & Hok). exists h, c. split; [auto|]. split; [done|].
      assert (pr_receiver p ≠ id) by (apply Hnp; by apply list_elem_of_fmap_2).
      rewrite lookup_insert_ne by done. split; [done|].
      destruct Hok as [[? ->]|[Hno ?]]; [left; split; [by right|done]|right; split; [|done]].
      by intros [?|?]%elem_of_cons.
    + apply list_elem_of_singleton in Hin as ->. cbn. exists header, {| cn_packets := []; cn_senders := 1 |}.
      split; [apply elem_of_app; right; by left|]. split; [done|]. split; [apply lookup_insert_eq|].
      left. split; [by left|done].
  - unfold ids in *. cbn. rewrite !omap_app, fmap_app. cbn. rewrite app_nil_r, app_assoc, H5. done.
  - rewrite omap_app, H6. exact (eq_sym (seq_S (q_fresh q) 0)).
  - intros i x g [Hin|Hin]%elem_of_app; [|by apply list_elem_of_singleton in Hin].
    destruct (H7 _ _ _ Hin) as (h & ? & ?). eauto.
  - rewrite H8, length_app. cbn. lia.
  - lia.
Qed.

Lemma delete_all_lookup (done : list (PendingResponse * list Z)) (c : gmap nat Channel) id :
  id ∉ pr_receiver <$> done.*1 → foldr (λ d, delete (pr_receiver d.1)) c done !! id = c !! id.
Proof.
  induction done as [|d done IH]; [done|]. cbn. intros [Hne Hno]%not_elem_of_cons.
  rewrite lookup_delete_ne by done. by apply IH.
Qed.

(** A holder's receiver is empty; whoever is taken out has its own answer. *)
Lemma gives_answer rs q log d :
  queue_inv rs q log → d.1 ∈ q_pending q → gives (q_channels q) d →
  pr_receiver d.1 ∉ omap sender_of rs ∧
  ∃ header, Accepted (pr_receiver d.1) header (pr_response_generation d.1) ∈ log ∧ answers header d.2.
Proof.
  intros Hi Hp Hg. destruct (qi_pending _ _ _ Hi _ Hp) as (h & c & Ha & Hfb & Hl & Hok).
  unfold gives, try_recv in Hg. rewrite Hl in Hg.
  destruct Hok as [[_ ->]|(Hno & Hs & Hpk)]; [done|]. split; [done|]. exists h. split; [done|].
  destruct Hpk as [Hpk|(x & Hpk & Hx)]; rewrite Hpk in Hg.
  - rewrite Hs in Hg. cbn in Hg. rewrite Hg, Hfb. by eexists _, _.
  - by rewrite Hg.
Qed.

Definition answered (d : PendingResponse * list Z) : Output :=
  Answered (pr_receiver d.1) d.2 (pr_response_generation d.1).

Lemma omap_answered done : omap answered_id (answered <$> done) = pr_receiver <$> done.*1.
Proof. induction done as [|d done IH]; [done|]. cbn. by rewrite IH. Qed.
Lemma omap_answered_accepted done : omap accepted_id (answered <$> done) = [].
Proof. by induction done. Qed.

Lemma drain_inv rs q log done q' :
  queue_inv rs q log → drain q = (done, q') →
  queue_inv rs q' (log ++ (answered <$> done)) ∧ done.*1 ++ q_pending q' ≡ₚ q_pending q ∧
  Forall (λ p, try_recv (q_channels q) (pr_receiver p) = Empty) (q_pending q') ∧
  q_sending q' = q_sending q ∧ q_running q' = q_running q ∧ q_requests q' = q_requests q ∧
  q_reports q' = q_reports q.
Proof.
  intros Hi Hm. unfold drain in Hm.
  destruct (drain_loop _ _ _ _) as [done' rest] eqn:Ed. injection Hm as -> <-.
  apply drain_loop_spec in Ed as (Hperm & Hgive & Hemp); [|lia|constructor].
  cbn. split; [|done]. pose proof Hi as [H1 H2 H3 H4 H5 H6 H7 H8 H9].
  destruct (ids_NoDup _ _ _ Hi) as [_ Hnd]. unfold ids in Hnd. rewrite <-Hperm, fmap_app in Hnd.
  apply NoDup_app in Hnd as (_ & Hdis & _).
  assert (Hans : ∀ d, d ∈ done → pr_receiver d.1 ∉ omap sender_of rs ∧
    ∃ header, Accepted (pr_receiver d.1) header (pr_response_generation d.1) ∈ log ∧ answers header d.2).
  { intros d Hd. rewrite Forall_forall in Hgive. eapply gives_answer; [done| |by apply Hgive].
    rewrite <-Hperm. apply elem_of_app. left. by apply list_elem_of_fmap_2. }
  assert (Hlog : ∀ o, o ∈ log → o ∈ log ++ (answered <$> done)) by (intros; apply elem_of_app; by left).
  split; cbn; try done.
  - intros id Hid. pose proof (H2 _ Hid) as Hin. unfold ids in *. cbn. rewrite <-Hperm, fmap_app in Hin.
    apply elem_of_app in Hin as [Hin|?]; [|done]. exfalso.
    apply list_elem_of_fmap_1 in Hin as (p & -> & Hp). apply list_elem_of_fmap_1 in Hp as (d & -> & Hd).
    by destruct (Hans _ Hd).
  - intros r response Hr Hre. destruct (H3 _ _ Hr Hre) as [g ?]. eauto.
  - intros p Hp. destruct (H4 p) as (h & c & ? & ? & Hl & ?); [rewrite <-Hperm; apply elem_of_app; by right|].
    exists h, c. split; [auto|]. split; [done|]. split; [|done]. rewrite delete_all_lookup; [done|].
    intros Hin. apply (Hdis _ Hin). by apply list_elem_of_fmap_2.
  - unfold ids in *. cbn. rewrite !omap_app, omap_answered, omap_answered_accepted, app_nil_r.
    rewrite <-app_assoc, <-fmap_app, Hperm. done.
  - by rewrite omap_app, omap_answered_accepted, app_nil_r.
  - intros id x g [Hin|Hin]%elem_of_app.
    + destruct (H7 _ _ _ Hin) as (h & ? & ?). eauto.
    + apply list_elem_of_fmap_1 in Hin as (d & [= -> -> ->] & Hd). destruct (Hans _ Hd) as (_ & h & ? & ?). eauto.
  - rewrite H8. apply Permutation_length in Hperm. rewrite length_app, length_fmap in Hperm. lia.
Qed.
End keeping.

(** ** Every history *)

Record full_inv {HC : HeaderCodec} (q : CloudRpcQueue) (log : list Output) : Prop := {
  fi_queue : queue_inv (alive q) q log;
  fi_requests : Z.of_nat (length (q_requests q)) ≤ RPC_CHANNEL_CAPACITY;
  fi_reports : (length (q_reports q) ≤ REPORT_CAPACITY)%nat;
}.

Section histories.
Context {M : CloudMessages} {W : WireViews} {HC : HeaderCodec} {U : UriParser}.
Context (sha256 : list Z → list Z).

Lemma route_fields apps account cloud settings method header body now q r q' :
  route sha256 apps account cloud settings method header body now q = (r, q') →
  ∃ t, q' = with_targets t q.
Proof. unfold route. repeat case_match; intros [= <- <-]; eauto. Qed.

Lemma complete_fields r result q :
  q_sending (complete_request r result q) = q_sending q ∧
  q_running (complete_request r result q) = q_running q ∧
  q_requests (complete_request r result q) = q_requests q ∧
  q_reports (complete_request r result q) = q_reports q.
Proof. unfold complete_request. by destruct (qd_response r). Qed.

(** The worker answers the request it took. *)
Lemma complete_full r result q q0 log :
  full_inv q log → alive q ≡ₚ r :: alive q0 → q_pending q0 = q_pending q → q_channels q0 = q_channels q →
  q_fresh q0 = q_fresh q → q_outstanding q0 = q_outstanding q → q_held q0 = q_held q →
  q_reports q0 = q_reports q → (length (q_requests q0) ≤ length (q_requests q))%nat →
  full_inv (complete_request r result q0) log.
Proof.
  intros [Hi Hrq Hre] Ha Hp Hc Hf Ho Hh Hr Hlen.
  destruct (complete_fields r result q0) as (H1 & H2 & H3 & H4).
  split; [|rewrite H3; lia|by rewrite H4, Hr]. unfold alive. rewrite H1, H2, H3.
  apply complete_inv. eapply inv_perm; [exact Ha|]. by eapply inv_same.
Qed.

Lemma full_same q q' log :
  full_inv q log → alive q' ≡ₚ alive q → q_pending q' = q_pending q → q_channels q' = q_channels q →
  q_fresh q' = q_fresh q → q_outstanding q' = q_outstanding q → q_held q' = q_held q →
  Z.of_nat (length (q_requests q')) ≤ RPC_CHANNEL_CAPACITY → (length (q_reports q') ≤ REPORT_CAPACITY)%nat →
  full_inv q' log.
Proof.
  intros [Hi _ _] Ha Hp Hc Hf Ho Hh Hr Hre. split; [|done..].
  eapply inv_perm; [symmetry; exact Ha|]. by eapply inv_same.
Qed.

Lemma notify_inv r q log :
  qd_response r = None → full_inv q log → full_inv (try_send r q).2 log.
Proof.
  intros Hr [Hi Hrq Hre]. unfold try_send. destruct (negb _ || _) eqn:E.
  - unfold drop_request. by rewrite Hr.
  - apply orb_false_iff in E as [_ E%Z.leb_gt]. split; cbn; [|rewrite length_app; cbn; lia|done].
    eapply (inv_perm (r :: alive q)).
    { unfold alive. cbn. rewrite !app_assoc. apply Permutation_cons_append. }
    apply inv_silent; [done|]. by eapply inv_same.
Qed.

Lemma hand_over_full i r q log :
  full_inv q log → q_sending q !! i = Some r →
  full_inv (hand_over r (with_sending (delete i (q_sending q)) q)) log.
Proof.
  intros [Hi Hrq Hre] Hl. set (q0 := with_sending (delete i (q_sending q)) q).
  assert (Hp : alive q ≡ₚ r :: alive q0).
  { unfold alive, q0. cbn. by rewrite (delete_Permutation _ _ _ Hl) at 1. }
  assert (Hi0 : queue_inv (r :: alive q0) q0 log).
  { eapply inv_perm; [exact Hp|]. by eapply inv_same. }
  destruct (qd_response r) as [response|] eqn:Hr.
  2: { unfold hand_over. rewrite Hr. split; [by apply inv_silent in Hi0|done..]. }
  pose proof (hand_over_inv _ _ _ _ Hi0) as Hh. unfold try_send in Hh.
  assert (Hf : hand_over r q0 = let id := qp_sender response in
      drop_sender id (if (try_send r (clone_sender id q0)).1 then (try_send r (clone_sender id q0)).2
        else send id (build_failure_response_packet (qp_request_header response)) (try_send r (clone_sender id q0)).2)).
  { unfold hand_over. rewrite Hr. cbn zeta. by destruct (try_send _ _). }
  destruct (negb (q_worker q0) || _) eqn:E.
  - rewrite Hf in Hh |- *. unfold try_send in *. cbn [q_worker q_requests clone_sender with_channels] in *.
    rewrite E in Hh |- *. unfold drop_request in *. rewrite Hr in Hh |- *. by split.
  - rewrite Hf in Hh |- *. unfold try_send in *. cbn [q_worker q_requests clone_sender with_channels] in *.
    rewrite E in Hh |- *. apply orb_false_iff in E as [_ E%Z.leb_gt].
    split; cbn; [|rewrite length_app; cbn in *; lia|done].
    eapply (inv_perm (r :: alive q0)); [|exact Hh]. unfold alive. cbn. rewrite !app_assoc.
    apply Permutation_cons_append.
Qed.

Lemma step_inv e q log q' out :
  full_inv q log → step sha256 e q = (q', out) → full_inv q' (log ++ out).
Proof.
  intros Hi Hm. pose proof Hi as [Hq Hrq Hre].
  assert (Hsilent : ∀ q1, full_inv q1 log → (q1, []) = (q', out) → full_inv q' (log ++ out)).
  { intros q1 H1 [= <- <-]. by rewrite app_nil_r. }
  destruct e as [apps account cloud settings method header body generation now|i| |result| | | | | |]; cbn [step] in Hm.
  - destruct (route _ _ _ _ _ _ _ _ _ _) as [r q1] eqn:Er. apply route_fields in Er as [t ->].
    set (q1 := with_targets t q) in *.
    assert (Hi1 : full_inv q1 log) by (by eapply full_same).
    destruct r as [|app|app|].
    + eapply Hsilent; [|exact Hm]. unfold try_report. case_match eqn:E; [done|].
      apply orb_false_iff in E as [_ E%Nat.leb_gt]. eapply full_same; [exact Hi1|done..|].
      cbn. rewrite length_app. cbn in *. lia.
    + destruct (reserve _ _ _ _ _ _ _) as [[r q2]|] eqn:Ers; [|by apply (Hsilent q1)].
      injection Hm as <- <-. destruct Hi1 as [Hq1 Hrq1 Hre1].
      destruct (reserve_inv _ _ _ _ _ _ _ _ _ _ _ Hq1 Ers) as (Hq2 & Hf & Hs & Hru & Hr & Hrp).
      rewrite Hf. cbn [pred]. split; cbn; [|by rewrite Hr|by rewrite Hrp].
      eapply inv_perm; [|eapply inv_same; [exact Hq2|done..]].
      unfold alive. cbn. rewrite Hs, Hru, Hr, <-!app_assoc. apply Permutation_middle.
    + eapply Hsilent; [|exact Hm]. by apply notify_inv.
    + by apply (Hsilent q1).
  - destruct (q_sending q !! i) as [r|] eqn:Hl; [|by apply (Hsilent q)].
    eapply Hsilent; [|exact Hm]. by apply hand_over_full.
  - eapply Hsilent; [|exact Hm]. unfold worker_recv.
    destruct (q_worker q), (q_running q) as [r0|] eqn:Hru; try done. destruct (q_requests q) as [|r rest] eqn:Hr; [done|].
    assert (Hp : alive q ≡ₚ r :: q_sending q ++ rest).
    { unfold alive. rewrite Hru, Hr. cbn. symmetry. apply Permutation_middle. }
    case_match.
    + eapply complete_full; [exact Hi|done..|]. cbn. rewrite Hr. cbn. lia.
    + eapply full_same; [exact Hi| |done..|cbn in *; lia|done].
      rewrite Hp. unfold alive. cbn. symmetry. apply Permutation_middle.
  - eapply Hsilent; [|exact Hm]. unfold worker_done. destruct (q_running q) as [r|] eqn:Hru; [|done].
    eapply complete_full; [exact Hi| |done..]. unfold alive. rewrite Hru. cbn. symmetry. apply Permutation_middle.
  - eapply Hsilent; [|exact Hm]. unfold worker_dies. cbn zeta.
    destruct (drop_all_fields (option_list (q_running q) ++ q_requests q) (with_worker [] None false q))
      as (H1 & H2 & H3 & H4).
    split; [|rewrite H3; cbn; unfold RPC_CHANNEL_CAPACITY, RPC_QUEUE_CAPACITY; lia|by rewrite H4].
    unfold alive. rewrite H1, H2, H3. apply drop_all_inv. cbn. rewrite app_nil_r.
    eapply inv_perm; [|eapply inv_same; [exact Hq|done..]]. unfold alive. apply Permutation_app_comm.
  - eapply Hsilent; [|exact Hm]. eapply full_same; [exact Hi|done..|]. cbn. destruct (q_reports q); cbn in *; lia.
  - eapply Hsilent; [|exact Hm]. eapply full_same; [exact Hi|done..|]. cbn. unfold REPORT_CAPACITY. lia.
  - destruct (drain q) as [done q1] eqn:Ed. injection Hm as <- <-.
    destruct (drain_inv _ _ _ _ _ Hq Ed) as (Hq1 & _ & _ & H1 & H2 & H3 & H4).
    split; [|by rewrite H3|by rewrite H4]. unfold alive. rewrite H1, H2, H3. exact Hq1.
  - eapply Hsilent; [|exact Hm]. destruct (q_held q) as [|n] eqn:Hh; [done|].
    destruct Hq as [Q1 Q2 Q3 Q4 Q5 Q6 Q7 Q8 Q9]. unfold RPC_QUEUE_CAPACITY in Q9.
    split; [|done..]. split; try done; cbn; rewrite Hh in *; cbn;
      rewrite Z.mod_small by (unfold u64_max; lia); unfold RPC_QUEUE_CAPACITY; lia.
  - eapply Hsilent; [|exact Hm]. by eapply full_same.
Qed.

Lemma init_inv : full_inv try_new [].
Proof.
  split; [|done|cbn; unfold REPORT_CAPACITY; lia].
  split; cbn; try done; try (intros *; by intros ?%not_elem_of_nil). constructor.
Qed.

Lemma queue_run_inv es q log q' out :
  full_inv q log → run sha256 es q = (q', out) → full_inv q' (log ++ out).
Proof.
  revert q log out. induction es as [|e es IH]; intros q log out Hi Hm; cbn in Hm.
  { injection Hm as <- <-. by rewrite app_nil_r. }
  destruct (step sha256 e q) as [q1 out1] eqn:Es. destruct (run sha256 es q1) as [q2 out2] eqn:Er.
  injection Hm as <- <-. rewrite app_assoc. eapply IH; [by eapply step_inv|done].
Qed.

(** C5 [answered_once]: whatever packets arrive, however the threads interleave and whether or
    not a worker dies, a request that was accepted is at any time either pending or has been
    answered, never both and never twice; and its answer carries its own connection
    generation and a header addressed to the job that asked. *)
Theorem answered_once es q log :
  run sha256 es try_new = (q, log) →
  omap answered_id log ++ ids q ≡ₚ omap accepted_id log ∧ NoDup (omap accepted_id log) ∧
  ∀ id x generation, Answered id x generation ∈ log → ∃ header body eresult,
    Accepted id header generation ∈ log ∧ x = assemble_response_packet header body eresult ∧
    hd_jobid_target (response_header header eresult) = hd_jobid_source header.
Proof.
  intros Hr. apply (queue_run_inv _ _ _ _ _ init_inv) in Hr as [Hi _ _].
  split; [apply (qi_log _ _ _ Hi)|]. split; [apply (ids_NoDup _ _ _ Hi)|].
  intros id x g Hin. destruct (qi_answers _ _ _ Hi _ _ _ Hin) as (h & Ha & body & e & ->).
  by exists h, body, e.
Qed.

(** C34 [queue_bounded]: no more than 64 responses are outstanding, pending ones and ones not yet
    injected together, and the counter never wraps; no more than 128 requests and 128
    reports wait. *)
Theorem queue_bounded es q log :
  run sha256 es try_new = (q, log) →
  q_outstanding q = Z.of_nat (length (q_pending q) + q_held q) ∧ q_outstanding q ≤ 64 ∧
  (length (q_requests q) ≤ 128)%nat ∧ (length (q_reports q) ≤ 128)%nat.
Proof.
  intros Hr. apply (queue_run_inv _ _ _ _ _ init_inv) in Hr as [Hi Hrq Hre].
  split; [apply (qi_permits _ _ _ Hi)|]. split; [apply (qi_bound _ _ _ Hi)|].
  unfold RPC_CHANNEL_CAPACITY, RPC_QUEUE_CAPACITY, REPORT_CAPACITY in *. split; lia.
Qed.

(** ** Nothing waits forever *)

(** The worker finishes what it works on and then everything that waits for it. *)
Definition work (result : AR RpcReply) (n : nat) : list Event :=
  WorkerDone result :: mjoin (replicate n [WorkerRecv; WorkerDone result]).

Lemma drain_idle q log done q' :
  full_inv q log → alive q = [] → drain q = (done, q') → q_pending q' = [] ∧ done.*1 ≡ₚ q_pending q.
Proof.
  intros [Hi _ _] Hidle Hd. destruct (drain_inv _ _ _ _ _ Hi Hd) as (_ & Hperm & Hemp & _).
  assert (Hnil : q_pending q' = []).
  { destruct (q_pending q') as [|p rest] eqn:E; [done|]. exfalso.
    apply Forall_cons in Hemp as [Hp _].
    destruct (qi_pending _ _ _ Hi p) as (h & c & _ & _ & Hl & Hok).
    { rewrite <-Hperm. apply elem_of_app. right. by left. }
    rewrite Hidle in Hok. unfold try_recv in Hp. rewrite Hl in Hp.
    destruct Hok as [[Hno _]|(_ & Hs & [Hpk|(x & Hpk & _)])]; [by apply not_elem_of_nil in Hno|..];
      rewrite Hpk in Hp; [|done]. by rewrite Hs in Hp. }
  split; [done|]. by rewrite Hnil, app_nil_r in Hperm.
Qed.

Lemma queue_run_app es es' q :
  run sha256 (es ++ es') q =
    let '(q1, out1) := run sha256 es q in let '(q2, out2) := run sha256 es' q1 in (q2, out1 ++ out2).
Proof.
  revert q. induction es as [|e es IH]; intros q; cbn; [by destruct (run sha256 es' q)|].
  destruct (step sha256 e q) as [q1 out1]. rewrite IH. destruct (run sha256 es q1) as [q2 out2].
  destruct (run sha256 es' q2) as [q3 out3]. by rewrite app_assoc.
Qed.

(** What the worker's steps leave alone. *)
Definition same_clients (q q' : CloudRpcQueue) : Prop :=
  q_pending q' = q_pending q ∧ q_sending q' = q_sending q ∧ q_worker q' = q_worker q.

Lemma complete_clients r result q : same_clients q (complete_request r result q).
Proof. unfold complete_request. by destruct (qd_response r). Qed.

Lemma work_one result q :
  q_worker q = true → q_running q = None →
  ∃ q', run sha256 [WorkerRecv; WorkerDone result] q = (q', []) ∧ same_clients q q' ∧
    q_running q' = None ∧ q_requests q' = tail (q_requests q).
Proof.
  intros Hw Hr. cbn [run step app]. eexists. split; [done|]. unfold worker_recv. rewrite Hw, Hr.
  destruct (q_requests q) as [|r rest] eqn:Hq.
  { unfold worker_done. rewrite Hr. by rewrite Hq. }
  case_match.
  - destruct (complete_fields r (Err (Protocol "cloud request context changed before completion"))
      (with_worker rest None true q)) as (_ & H2 & H3 & _).
    pose proof (complete_clients r (Err (Protocol "cloud request context changed before completion"))
      (with_worker rest None true q)) as (C1 & C2 & C3).
    unfold worker_done. rewrite H2. cbn in *. rewrite H3. split_and!; try done. split_and!; congruence.
  - unfold worker_done. cbn [q_running with_worker].
    match goal with |- context [complete_request r result ?q0] =>
      destruct (complete_fields r result q0) as (_ & H2 & H3 & _);
      pose proof (complete_clients r result q0) as (C1 & C2 & C3) end.
    cbn in *. rewrite H2, H3. split_and!; try done. split_and!; congruence.
Qed.

Lemma work_all result n q :
  q_worker q = true → q_running q = None → (length (q_requests q) ≤ n)%nat →
  ∃ q', run sha256 (mjoin (replicate n [WorkerRecv; WorkerDone result])) q = (q', []) ∧
    same_clients q q' ∧ q_running q' = None ∧ q_requests q' = [].
Proof.
  revert q. induction n as [|n IH]; intros q Hw Hr Hn.
  { exists q. destruct (q_requests q); [done|cbn in Hn; lia]. }
  change (mjoin (replicate (S n) [WorkerRecv; WorkerDone result]))
    with ([WorkerRecv; WorkerDone result] ++ mjoin (replicate n [WorkerRecv; WorkerDone result])).
  rewrite queue_run_app. destruct (work_one result q Hw Hr) as (q1 & -> & (C1 & C2 & C3) & Hr1 & Hq1).
  destruct (IH q1) as (q2 & -> & (D1 & D2 & D3) & Hr2 & Hq2); [congruence|done| |].
  { rewrite Hq1. destruct (q_requests q); cbn in *; lia. }
  exists q2. split; [done|]. split; [split_and!; congruence|done].
Qed.

(** C35 [all_answered]: once no packet is in the middle of being intercepted, letting the worker
    finish what it has, or letting it die, and draining once answers every pending request:
    none waits forever. *)
Theorem all_answered es q log result :
  run sha256 es try_new = (q, log) → q_sending q = [] →
  (q_worker q = true → ∃ q' out,
     run sha256 (work result (length (q_requests q)) ++ [Drain]) q = (q', out) ∧
     q_pending q' = [] ∧ omap answered_id out ≡ₚ ids q) ∧
  ∃ q' out, run sha256 [WorkerDies; Drain] q = (q', out) ∧
     q_pending q' = [] ∧ omap answered_id out ≡ₚ ids q.
Proof.
  intros Hr Hs. pose proof (queue_run_inv _ _ _ _ _ init_inv Hr) as Hi.
  assert (Hend : ∀ es q1, run sha256 es q = (q1, []) → alive q1 = [] → q_pending q1 = q_pending q →
    ∃ q' out, run sha256 (es ++ [Drain]) q = (q', out) ∧ q_pending q' = [] ∧ omap answered_id out ≡ₚ ids q).
  { intros es1 q1 H1 Hidle Hp. rewrite queue_run_app, H1. cbn [run step].
    pose proof (queue_run_inv _ _ _ _ _ Hi H1) as Hi1. destruct (drain q1) as [done q2] eqn:Ed.
    destruct (drain_idle _ _ _ _ Hi1 Hidle Ed) as [Hnil Hperm].
    eexists _, _. split; [done|]. split; [done|]. rewrite app_nil_l, app_nil_r.
    change (omap answered_id (answered <$> done) ≡ₚ ids q). rewrite omap_answered, Hperm.
    unfold ids. by rewrite Hp. }
  split.
  - intros Hw. unfold work. set (q0 := worker_done result q).
    assert (H0 : same_clients q q0 ∧ q_running q0 = None ∧ q_requests q0 = q_requests q).
    { unfold q0, worker_done. destruct (q_running q) as [r|] eqn:Hru; [|done].
      match goal with |- context [complete_request r result ?q1] =>
        destruct (complete_fields r result q1) as (_ & H2 & H3 & _);
        pose proof (complete_clients r result q1) as (C1 & C2 & C3) end.
      cbn in *. rewrite H2, H3. done. }
    destruct H0 as ((C1 & C2 & C3) & Hru & Hq0).
    destruct (work_all result (length (q_requests q)) q0) as (q1 & H1 & (D1 & D2 & D3) & Hr1 & Hq1);
      [congruence|done|by rewrite Hq0|].
    apply (Hend (WorkerDone result :: _) q1).
    + cbn [run step]. fold q0. by rewrite H1.
    + unfold alive. rewrite D2, C2, Hs, Hr1, Hq1. done.
    + congruence.
  - apply (Hend [WorkerDies] (worker_dies q)); [done|..].
    + destruct (drop_all_fields (option_list (q_running q) ++ q_requests q) (with_worker [] None false q))
        as (H1 & H2 & H3 & _). unfold alive, worker_dies. cbn zeta. rewrite H1, H2, H3. cbn. by rewrite Hs.
    + unfold worker_dies. cbn zeta. generalize (option_list (q_running q) ++ q_requests q). intros l.
      induction l as [|r l IH]; [done|]. cbn. rewrite <-IH. unfold drop_request. by destruct (qd_response r).
Qed.
End histories.
