(* ===== verification/RpcExamples.v ===== *)
(** * RpcExamples: cloud requests at concrete inputs

    A conflict that is shown, chosen and published; a file sent through a batch; transfer
    targets; packets through the queue; and the theorems of [cloud-rpc] at these inputs. *)

From Stdlib Require Import ZArith Lia.
From S2P Require Import Prelude RustStd CloudCore FileSystem StoreFiles StoreFilesProofs.
From S2P Require Import StoreOpen StoreSessions Syncthing CumulusClient CloudSettings.
From S2P Require Import FolderStore FolderStoreProofs StoreCommit StoreBegin StoreRead StoreSpec.
From S2P Require Import StoreTheorems FolderStoreExamples.
From S2P Require ConflictUi ConflictUiProofs ConflictResolve GcExamples.
From S2P Require Import Transfers TransferProofs CloudMessages LocalRpc LocalRpcProofs LocalRpcInvariant.
From S2P Require Import SteamProtocol Apps RpcProtocol.
From S2P Require RpcQueue RpcQueueProofs.

Local Open Scope Z_scope.

#[local] Existing Instance plain_host.
#[local] Existing Instance toy_codec.
#[local] Existing Instance toy_codec_laws.
#[local] Existing Instance toy_sessions.
#[local] Existing Instance GcExamples.toy_syncthing.

Lemma pair_fst {A B} (p : A * B) a : p.1 = a → p = (a, p.2).
Proof. destruct p. by intros <-. Qed.

(** ** Settings and transfer targets *)

Definition desk_settings : CloudSettings := {|
  cs_backend := LocalBackend; cs_local_path := "/repo"; cs_syncthing := None;
  cs_server_url := "https://cloud.example/api"; cs_token := "secret";
  cs_steam_client_id := Some 11; cs_steam_machine_name := Some "desk";
  cs_steam_id64 := Some 76561198000000001; cs_bind_device := true;
  cs_timeout_connect_ms := 1000; cs_timeout_ms := 5000 |}.

#[local] Instance plain_uris : UriParser := {| uri_parse := λ _, None |}.

Definition desk_client : CumulusClient := {|
  cu_inner := SharedCumulusClient_new
    {| cus_server_url := "https://cloud.example/api"; cus_token := "secret";
       cus_timeout_connect_ms := 1000; cus_timeout_ms := 5000 |} (Some 11);
  cu_endpoint := {| en_origin := "https://cloud.example/api"; en_authority := "cloud.example";
                    en_base_path := "/api"; en_https := true |} |}.

Definition issued_target : CumulusTransferTarget := {|
  tt_url_path := "/v1/transfers/upload/abc"; tt_request_headers := [];
  tt_url_host := None; tt_use_https := None |}.


Definition desk_scope : CloudStateScope := from_settings sha256 desk_settings.
Definition registered_calls : list TransferTargetsSpec.Call :=
  [TransferTargetsSpec.Register desk_scope "CDN.example" "/a" 10;
   TransferTargetsSpec.Contains desk_scope "other.example" "/a" 20].

Lemma registry_answers_witness :
  (TransferTargets.contains (foldl TransferTargetsSpec.call [] registered_calls)
     desk_scope "cdn.example" "/a" 30).1 =
  existsb (TransferTargets.is_target desk_scope "cdn.example" "/a")
    (filter (TransferTargetsSpec.live 30)
       (TransferTargetsSpec.newest TransferTargets.CAPACITY (TransferTargetsSpec.issues registered_calls))).
Proof.
  apply (registry_answers registered_calls desk_scope "cdn.example" "/a" 30).
  unfold TransferTargetsSpec.in_time. cbn. repeat constructor; lia.
Defined.

(** ** A conflict, from the changelist to the launch *)

Module Conflict.
Import ConflictUi ConflictUiProofs.

Definition tick (n : Z) : Z := n.
Definition in_order (m : gmap ConflictKey PendingConflict) : list ConflictKey := (map_to_list m).*1.

Definition torn_view : StoreView :=
  match (view shop game torn_world).1 with Ok v => v | Err _ =>
    {| sv_current_change_number := None; sv_max_revision := 0; sv_heads := [] |} end.

Definition window : ConflictUiContext := {|
  cx_steam_id64 := 76561198000000001; cx_identity_generation := 1; cx_connection_generation := 1;
  cx_window_generation := 4; cx_cloud_scope := conflict_scope sha256 desk_settings |}.

(** The states of a run, one per step. *)
Definition c1 : LocalConflictCoordinator :=
  let '(s, b) := register desk_settings game desk_identity torn_view true 0 (lo_state try_new) in
  under_lock s b try_new.
Definition c2 : LocalConflictCoordinator :=
  let '(_, s, b) := arm_registered (76561198000000001, game) (lo_state c1) in under_lock s b c1.
Definition shown : list ConflictDialog := (dialogs tick in_order window (lo_tokens c2) (lo_state c2)).1.1.
Definition c3 : LocalConflictCoordinator :=
  let '(_, n, s) := dialogs tick in_order window (lo_tokens c2) (lo_state c2) in
  with_tokens n (under_lock s false c2).
Definition chosen_token : string := default "" (d ← head shown; c ← head (cd_candidates d); Some (dc_token c)).
Definition choice : option Choice := (submit chosen_token window (lo_state c3)).1.1.2.
Definition c4 : LocalConflictCoordinator :=
  let '(_, o, s, b) := submit chosen_token window (lo_state c3) in
  with_flight (lo_sending c3 ++ option_list o) (lo_choices c3) (lo_worker c3) (under_lock s b c3).

Definition the_choice : Choice := default
  {| ch_key := (0, 0); ch_head := ""; ch_token := ""; ch_context := window; ch_epoch := 0;
     ch_pending := conflict_of desk_settings desk_identity torn_view true 0 |} choice.

Definition c5 : LocalConflictCoordinator := with_flight [] [the_choice] (lo_worker c4) c4.
Definition c6 : LocalConflictCoordinator := with_flight [] [] (Applying the_choice) c5.
Definition c7 : LocalConflictCoordinator := with_flight [] [] (Reporting the_choice (Ok tt)) c6.
Definition c8 : LocalConflictCoordinator :=
  let '(s, b) := finish_choice the_choice (Ok tt) (lo_state c7) in
  with_flight [] [] Waiting (under_lock s b c7).

Example dialog_shown : length shown = 1%nat ∧ length (cd_candidates (default
  {| cd_app_id := 0; cd_cancel_token := ""; cd_candidates := [] |} (head shown))) = 2%nat ∧
  choice = Some the_choice ∧ ch_head the_choice = manifest_name 0.
Proof. vm_compute. done. Qed.

Definition shown_events : list Event := [Other; Other; Presented window shown].
Definition chosen_events : list Event :=
  shown_events ++ [Submitted chosen_token window Accepted (Some the_choice)].
Definition done_events : list Event :=
  chosen_events ++ [Other; Other; Applied the_choice (Ok tt); Finished the_choice (Ok tt)].

Lemma c3_runs : run tick in_order shown_events c3.
Proof.
  eapply (trace_cons _ _ _ _ c1); [left|eapply (trace_cons _ _ _ _ c2); [left|eapply (trace_cons _ _ _ _ c3); [left|constructor]]].
  - unfold c1. destruct (register _ _ _ _ _ _ _) as [s b] eqn:E. by eapply step_register.
  - unfold c2. destruct (arm_registered _ _) as [[a s] b] eqn:E. by eapply step_arm_registered.
  - unfold c3, shown. destruct (dialogs _ _ _ _ _) as [[d n] s] eqn:E. by apply step_dialogs.
Qed.

Lemma c4_runs : run tick in_order chosen_events c4.
Proof.
  eapply trace_snoc; [apply c3_runs|]. left. unfold c4.
  assert (Hs : (submit chosen_token window (lo_state c3)).1.1 = (Accepted, Some the_choice)) by (vm_compute; reflexivity).
  destruct (submit _ _ _) as [[[answer o] s] b] eqn:E. injection Hs as -> ->. by apply step_submit.
Qed.

Lemma c8_runs : run tick in_order done_events c8.
Proof.
  change done_events with ((((chosen_events ++ [Other]) ++ [Other]) ++ [Applied the_choice (Ok tt)])
    ++ [Finished the_choice (Ok tt)]).
  apply (trace_snoc _ _ _ _ c7); [apply (trace_snoc _ _ _ _ c6); [apply (trace_snoc _ _ _ _ c5);
    [apply (trace_snoc _ _ _ _ c4); [apply c4_runs|]|]|]|].
  - left. apply (step_send _ _ [] the_choice [] c4). vm_compute. reflexivity.
  - right. by apply step_receive.
  - right. by apply step_apply.
  - right. unfold c8. destruct (finish_choice _ _ _) as [s b] eqn:E. by apply (step_finish the_choice (Ok tt)).
Qed.

Lemma conflict_ui_invariant_witness : conflicts_inv (lo_state c4) (flight c4).
Proof. exact (conflict_ui_invariant tick in_order chosen_events c4 c4_runs). Defined.

Definition resumed : ConflictUiAck := pa_ack (new_ack window chosen_token game true "" true false).


(** The choice is cancelled while the worker applies it. *)
Definition c7' : LocalConflictCoordinator :=
  let '(_, s, b) := cancel_pending (lo_state c4) in under_lock s b c4.

Lemma cancelled_choice_silent_witness :
  finish_choice the_choice (Ok tt) (lo_state c7') = (lo_state c7', false).
Proof.
  refine (cancelled_choice_silent tick in_order chosen_events [] c7' chosen_token window Accepted
    the_choice (Ok tt) _ _ _).
  - eapply trace_snoc; [apply c4_runs|]. left. unfold c7'.
    destruct (cancel_pending _) as [[r s] b] eqn:E. by eapply step_cancel.
  - by vm_compute.
  - apply elem_of_app. right. by left.
Defined.

Lemma ui_work_signalled_witness : (lo_work c1 < lo_work c2)%nat.
Proof.
  refine (ui_work_signalled tick in_order window Other c1 c2 _ _ _ _); [|done|..].
  - left. unfold c2. destruct (arm_registered _ _) as [[a s] b] eqn:E. by eapply step_arm_registered.
  - assert (Hno : map_Forall (λ _ p, pc_armed p = false) (st_pending (lo_state c1)))
      by (apply (bool_decide_eq_true_1 _); vm_compute; reflexivity).
    intros [(k & p & Hk & (_ & _ & Harmed & _) & _)|(a & Hin & _)].
    + apply Hno in Hk. cbn in Harmed. congruence.
    + by apply not_elem_of_nil in Hin.
  - left. exists (76561198000000001, game), (set_armed (conflict_of desk_settings desk_identity torn_view false 0)).
    split; [vm_compute; reflexivity|].
    split; apply (bool_decide_eq_true_1 _); vm_compute; reflexivity.
Defined.

(** The worker opens the account's store and publishes the chosen version. *)
#[local] Instance toy_format : FormatCodec := {|
  format_to_vec := λ v, Ok [v];
  format_from_slice := λ b, match b with [v] => Ok v | _ => Err "format" end |}.

Definition open_shop : BR FolderStore * Registry * World :=
  open_account_text open_device [] "/repo" 76561198000000001 empty_registry torn_world.
Definition opened_store : FolderStore := match open_shop.1.1 with Ok s => s | Err _ => shop end.
Definition applied := apply_choice open_device [] the_choice empty_registry torn_world.

Lemma opened_runs : open_account_text open_device [] "/repo" 76561198000000001 empty_registry torn_world =
  (Ok opened_store, open_shop.1.2, open_shop.2).
Proof.
  change (open_account_text _ _ _ _ _ _) with open_shop.
  apply pair_fst, pair_fst. by_vm.
Qed.

Lemma opened_fresh : fresh opened_store open_shop.2.
Proof.
  intros time. unfold at_path. rewrite get_snoc.
  assert (Hw : get (st_work_root opened_store) (w_root open_shop.2) = Some (Dir ∅)) by by_vm.
  by rewrite Hw.
Qed.

Lemma opened_repository :
  repository account game (at_path (app_dir opened_store game) open_shop.2) torn_manifests.
Proof.
  assert (Hd : app_dir opened_store game = app_dir shop game) by by_vm. rewrite Hd.
  apply repository_run. by_vm.
Qed.

Lemma choice_publishes_witness :
  (applied.1.1.1 = Ok tt ∧ applied.1.1.2 = Some (opened_store, game, None) ∧
   heads_of torn_manifests = pc_heads (ch_pending the_choice) ∧
   ConflictResolve.published opened_store account game the_choice torn_manifests applied.2) ∨
  ((∃ e, applied.1.1.1 = Err e) ∧ applied.1.1.2 = None ∧
   (repository account game (at_path (app_dir opened_store game) applied.2) torn_manifests ∨
    ConflictResolve.published opened_store account game the_choice torn_manifests applied.2)).
Proof.
  refine (ConflictResolve.choice_publishes open_device [] the_choice empty_registry torn_world
    applied.1.1.1 applied.1.1.2 applied.1.2 applied.2 opened_store open_shop.1.2 open_shop.2 account
    torn_manifests _ _ opened_runs _ opened_fresh opened_repository _ torn_acyclic _).
  - vm_compute. discriminate.
  - vm_compute. discriminate.
  - by_vm.
  - vm_compute. reflexivity.
  - change (apply_choice _ _ _ _ _) with applied. by destruct applied as [[[x gc] r] w].
Defined.
End Conflict.

(** ** Messages coded by their place in an enumeration of all of them *)

Section coding.
Context {A : Type} `{Countable A}.
Definition code (a : A) : list Z := [Z.pos (countable.encode a)].
Definition decode_code (b : list Z) : result string A :=
  match b with
  | [Z.pos p] => match countable.decode p with Some a => Ok a | None => Err "malformed" end
  | _ => Err "malformed"
  end.
Lemma code_roundtrip a : decode_code (code a) = Ok a.
Proof. unfold decode_code, code. by rewrite countable.decode_encode. Qed.
End coding.

(** A coding for messages no example sends. *)
Definition uncoded {A : Type} : Message A :=
  {| CloudMessages.decode := λ _, Err "malformed"; encode_to_vec := λ _, [] |}.
Definition coded {A : Type} `{Countable A} : Message A :=
  {| CloudMessages.decode := decode_code; encode_to_vec := code |}.

#[local] Instance batch_request_eq : EqDecision CloudBeginAppUploadBatchRequest.
Proof. solve_decision. Defined.
#[local] Program Instance batch_request_countable : Countable CloudBeginAppUploadBatchRequest :=
  inj_countable' (λ r, (bb_app_id r, bb_machine_name r, bb_files_to_upload r, bb_files_to_delete r,
                        bb_client_id r, bb_app_build_id r))
    (λ '(a, b, c, d, e, f), Build_CloudBeginAppUploadBatchRequest a b c d e f) _.
Next Obligation. by intros []. Qed.

#[local] Instance file_request_eq : EqDecision CloudClientBeginFileUploadRequest.
Proof. solve_decision. Defined.
#[local] Program Instance file_request_countable : Countable CloudClientBeginFileUploadRequest :=
  inj_countable' (λ r, (bf_app_id r, bf_file_size r, bf_raw_file_size r, bf_file_sha r, bf_timestamp r,
                        bf_filename r, bf_platforms_to_sync r, bf_cell_id r, bf_can_encrypt r,
                        bf_is_shared_file r, bf_deprecated_realm r, bf_upload_batch_id r))
    (λ '(a, b, c, d, e, f, g, h, i, j, k, l),
       Build_CloudClientBeginFileUploadRequest a b c d e f g h i j k l) _.
Next Obligation. by intros []. Qed.

#[local] Instance header_eq : EqDecision CloudHttpHeader.
Proof. solve_decision. Defined.
#[local] Program Instance header_countable : Countable CloudHttpHeader :=
  inj_countable' (λ h, (hh_name h, hh_value h)) (λ '(a, b), Build_CloudHttpHeader a b) _.
Next Obligation. by intros []. Qed.
#[local] Instance block_eq : EqDecision CloudFileUploadBlockDetails.
Proof. solve_decision. Defined.
#[local] Program Instance block_countable : Countable CloudFileUploadBlockDetails :=
  inj_countable' (λ b, (ub_url_host b, ub_url_path b, ub_use_https b, ub_http_method b,
                        ub_request_headers b, ub_block_offset b, ub_block_length b,
                        ub_explicit_body_data b, ub_may_parallelize b))
    (λ '(a, b, c, d, e, f, g, h, i), Build_CloudFileUploadBlockDetails a b c d e f g h i) _.
Next Obligation. by intros []. Qed.
#[local] Instance file_response_eq : EqDecision CloudClientBeginFileUploadResponse.
Proof. solve_decision. Defined.
#[local] Program Instance file_response_countable : Countable CloudClientBeginFileUploadResponse :=
  inj_countable' (λ r, (bu_encrypt_file r, bu_block_requests r))
    (λ '(a, b), Build_CloudClientBeginFileUploadResponse a b) _.
Next Obligation. by intros []. Qed.

#[local] Instance commit_request_eq : EqDecision CloudClientCommitFileUploadRequest.
Proof. solve_decision. Defined.
#[local] Program Instance commit_request_countable : Countable CloudClientCommitFileUploadRequest :=
  inj_countable' (λ r, (cf_transfer_succeeded r, cf_app_id r, cf_file_sha r, cf_filename r))
    (λ '(a, b, c, d), Build_CloudClientCommitFileUploadRequest a b c d) _.
Next Obligation. by intros []. Qed.
#[local] Instance complete_request_eq : EqDecision CloudCompleteAppUploadBatchRequest.
Proof. solve_decision. Defined.
#[local] Program Instance complete_request_countable : Countable CloudCompleteAppUploadBatchRequest :=
  inj_countable' (λ r, (cb_app_id r, cb_batch_id r, cb_batch_eresult r))
    (λ '(a, b, c), Build_CloudCompleteAppUploadBatchRequest a b c) _.
Next Obligation. by intros []. Qed.

#[local] Instance toy_messages : CloudMessages := {|
  msg_cdn := uncoded; msg_external := uncoded; msg_begin_batch := coded;
  msg_begin_batch_response := uncoded; msg_complete := coded; msg_begin_file := coded;
  msg_begin_file_response := coded; msg_commit_file := coded; msg_commit_file_response := uncoded;
  msg_download := uncoded; msg_download_response := uncoded; msg_delete := uncoded;
  msg_conflict := uncoded; msg_changelist := uncoded; msg_changelist_response := uncoded;
  msg_suspend := uncoded; msg_resume := uncoded; msg_launch := uncoded;
  msg_launch_response := uncoded; msg_exit := uncoded; msg_quota := uncoded;
  msg_quota_response := uncoded |}.

#[local] Instance law1 : MessageLaws CloudBeginAppUploadBatchRequest.
Proof. split. apply code_roundtrip. Qed.
#[local] Instance law2 : MessageLaws CloudClientBeginFileUploadRequest.
Proof. split. apply code_roundtrip. Qed.
#[local] Instance law3 : MessageLaws CloudClientBeginFileUploadResponse.
Proof. split. apply code_roundtrip. Qed.
#[local] Instance law4 : MessageLaws CloudClientCommitFileUploadRequest.
Proof. split. apply code_roundtrip. Qed.
#[local] Instance law5 : MessageLaws CloudCompleteAppUploadBatchRequest.
Proof. split. apply code_roundtrip. Qed.

#[local] Instance no_zip : Zip := {| zip_open := λ _, Err "not an archive"; can_reserve := λ _, true |}.

(** ** One file, from the batch to the manifest *)

Definition saw_nothing : LocalAppState := {|
  la_identity := desk_identity; la_verified_heads := []; la_conflict := None;
  la_pending_keep_local := None |}.

Definition fresh_sys (a : AdapterState) : Sys := {|
  sys_world := empty_world; sys_registry := empty_registry; sys_transfers := empty_transfers;
  sys_conflicts := ConflictUi.try_new; sys_inspections := []; sys_next_batch := 1;
  sys_adapter := a |}.
Definition sys0 : Sys := fresh_sys (with_apps {[game := saw_nothing]} new_adapter).

Definition at_once (n : nat) : Z := Z.of_nat n.
Definition by_map (m : gmap string StagedFile) : list StagedFile := (map_to_list m).*2.

Definition batch_request : CloudBeginAppUploadBatchRequest := {|
  bb_app_id := Some game; bb_machine_name := Some "desk"; bb_files_to_upload := ["save.dat"];
  bb_files_to_delete := []; bb_client_id := Some 11; bb_app_build_id := None |}.
Definition file_request : CloudClientBeginFileUploadRequest := {|
  bf_app_id := Some game; bf_file_size := Some 3; bf_raw_file_size := Some 3;
  bf_file_sha := Some (digest1 [1; 2; 3]); bf_timestamp := Some 5; bf_filename := Some "save.dat";
  bf_platforms_to_sync := Some 1; bf_cell_id := None; bf_can_encrypt := None;
  bf_is_shared_file := None; bf_deprecated_realm := None; bf_upload_batch_id := None |}.

Definition sent : AR RpcReply * Sys :=
  send_file at_once by_map desk_settings shop game "save.dat" batch_request file_request [1; 2; 3] sys0.

Lemma sent_Ok : sent = (Ok (reply_ok []), sent.2).
Proof. apply pair_fst. by_vm. Qed.


Definition begun_sys : AR RpcReply * Sys :=
  begin_batch desk_settings shop (encode_to_vec batch_request) sys0.
Definition begun_reply : RpcReply := match begun_sys.1 with Ok r => r | Err _ => reply_ok [] end.


(** ** Transfers *)

Definition upload_issued := issue_upload shop (op_at 0) "save.dat" 3 (described [1; 2; 3]) 0 empty_transfers.
Definition upload_sent := intercept_transfer LOCAL_TRANSFER_AUTHORITY "/v1/upload/0000000000000001" [1; 2; 3] 5
  upload_issued.2 begun_world.
Definition upload_path : string := "save.dat".

Lemma upload_committed_witness :
  ∃ u x, ut_store u = shop ∧ ut_operation u = op_at 0 ∧ ut_path u = upload_path ∧
    ut_transfer_size u = 3 ∧ ut_metadata u = described [1; 2; 3] ∧
    complete_upload_body u [1; 2; 3] begun_world = (x, upload_sent.2) ∧
    upload_sent.1.1 = Some (UploadOutcome (match x with Ok _ => Ok tt | Err e => Err e end)) ∧
    (commit_upload "0000000000000001" 20 upload_sent.1.2).1 = x.
Proof.
  refine (upload_committed shop (op_at 0) upload_path 3 (described [1; 2; 3]) 0 empty_transfers
    "0000000000000001" (target "upload" "0000000000000001") upload_issued.2 [] begun_world
    upload_issued.2 begun_world [1; 2; 3] 5 upload_sent.1.1 upload_sent.1.2 upload_sent.2 []
    upload_sent.1.2 upload_sent.2 20 inv_empty _ _ eq_refl _ _ eq_refl _ _ _).
  - vm_compute. discriminate.
  - vm_compute. reflexivity.
  - constructor.
  - change (intercept_transfer _ _ _ _ _ _) with upload_sent. by destruct upload_sent as [[? ?] ?].
  - constructor.
  - by vm_compute.
  - by vm_compute.
Defined.

(** ** Histories of the adapter *)

Definition by_id (m : gmap Z BatchState) : list BatchState := (map_to_list m).*2.
Definition some_events : list RpcEvent :=
  [Prepare desk_settings; Request desk_settings BEGIN_BATCH (encode_to_vec batch_request);
   Transfer LOCAL_TRANSFER_AUTHORITY "/v1/upload/0000000000000001" [1; 2; 3] 5; Outside torn_world].

Lemma rpc_batches_invariant_witness :
  rpc_inv (rpc_run (FC := Conflict.toy_format) GcExamples.settled [] open_device at_once by_map by_id
             some_events (fresh_sys new_adapter)).
Proof.
  exact (rpc_batches_invariant GcExamples.settled [] open_device at_once by_map by_id some_events
    (fresh_sys new_adapter) eq_refl eq_refl eq_refl eq_refl).
Defined.

(** ** Packets *)

Module Packets.
Import RpcQueue RpcQueueProofs.

#[local] Instance wire_views : WireViews := {|
  wire_begin_http := uncoded; wire_begin_ugc := uncoded; wire_single_file := uncoded;
  wire_share := uncoded; wire_enumerate := uncoded; wire_commit_http := uncoded;
  wire_commit_ugc := uncoded; wire_details := uncoded; wire_delete := uncoded;
  wire_interface := uncoded; wire_sync_stats := uncoded; wire_badges := uncoded;
  wire_user_files := uncoded; wire_deck := uncoded; wire_news := uncoded; wire_legacy := uncoded;
  wire_logon_response := uncoded; wire_logon := uncoded |}.
#[local] Instance plain_headers : HeaderCodec := {| header_message := uncoded |}.

Definition asked_header : CMsgProtoBufHeader :=
  {| hd_steamid := Some 76561198000000001; hd_client_session_id := None;
     hd_routing_app_id := None; hd_jobid_source := Some 7; hd_jobid_target := None;
     hd_target_job_name := Some BEGIN_BATCH; hd_eresult := None; hd_error_message := None;
     hd_auth_account_flags := None; hd_transport_error := None; hd_message_id := None;
     hd_publisher_group_id := None; hd_system_id := None; hd_token_source := None;
     hd_admin_spoofing_user := None; hd_seq_num := None; hd_webapi_key_id := None;
     hd_is_from_external_source := None; hd_forward_to_system_id := []; hd_cm_system_id := None;
     hd_launcher_type := None; hd_realm := None; hd_timeout_ms := None; hd_debug_source := None;
     hd_debug_source_string_index := None; hd_token_id := None; hd_routing_gc := None;
     hd_session_disposition := None; hd_wg_token := None; hd_webui_auth_key := None;
     hd_exclude_client_session_ids := []; hd_admin_request_spoofing_steamid := None;
     hd_is_valve_dedicated_server := None; hd_trace_tag := None; hd_ip_addr := None |}.

Definition injected : AppsSection :=
  with_inject [{| ia_id := game; ia_dlc := []; ia_ticket := Forge; ia_purchase_time := 0 |}].
Definition unowned : AccountState := record_actual_ownership account_new game false.
Definition local_cloud : CloudSection := {|
  cl_backend := LocalBackend;
  cl_local := {| lc_path := "/repo"; lc_syncthing := {| ss_enabled := false; ss_url := "";
                 ss_api_key := ""; ss_folder_id := ""; ss_timeout_ms := 1000 |} |};
  cl_cumulus := {| cc_server_url := ""; cc_token := ""; cc_timeout_connect_ms := 1; cc_timeout_ms := 1 |} |}.

(** A packet for the app, seen twice; the first is answered, the second waits. *)
Definition packet : Event :=
  Intercept injected unowned local_cloud desk_settings BEGIN_BATCH asked_header
    (encode_to_vec batch_request) 3 0.
Definition packets : list Event :=
  [packet; HandOver 0; WorkerRecv; packet; WorkerDone (Ok (reply_ok [9])); Drain; DropPermit; HandOver 0].
Definition after_packets : CloudRpcQueue * list Output := run digest256 packets try_new.

Example packets_seen :
  (λ o, match o with RpcQueueProofs.Accepted id _ _ => (true, id) | Answered id _ _ => (false, id) end) <$>
    after_packets.2 = [(true, 0%nat); (true, 1%nat); (false, 0%nat)].
Proof. by_vm. Qed.

Lemma answered_once_witness :
  omap answered_id after_packets.2 ++ ids after_packets.1 ≡ₚ omap accepted_id after_packets.2 ∧
  NoDup (omap accepted_id after_packets.2) ∧
  ∀ id x generation, Answered id x generation ∈ after_packets.2 → ∃ header body eresult,
    RpcQueueProofs.Accepted id header generation ∈ after_packets.2 ∧
    x = assemble_response_packet header body eresult ∧
    hd_jobid_target (response_header header eresult) = hd_jobid_source header.
Proof.
  exact (answered_once digest256 packets after_packets.1 after_packets.2 (surjective_pairing after_packets)).
Defined.

Lemma queue_bounded_witness :
  q_outstanding after_packets.1 =
    Z.of_nat (length (q_pending after_packets.1) + q_held after_packets.1) ∧
  q_outstanding after_packets.1 ≤ 64 ∧ (length (q_requests after_packets.1) ≤ 128)%nat ∧
  (length (q_reports after_packets.1) ≤ 128)%nat.
Proof.
  exact (queue_bounded digest256 packets after_packets.1 after_packets.2 (surjective_pairing after_packets)).
Defined.

Lemma all_answered_witness :
  (q_worker after_packets.1 = true → ∃ q' out,
     run digest256 (work (Ok (reply_ok [])) (length (q_requests after_packets.1)) ++ [Drain]) after_packets.1 = (q', out) ∧
     q_pending q' = [] ∧ omap answered_id out ≡ₚ ids after_packets.1) ∧
  ∃ q' out, run digest256 [WorkerDies; Drain] after_packets.1 = (q', out) ∧
     q_pending q' = [] ∧ omap answered_id out ≡ₚ ids after_packets.1.
Proof.
  refine (all_answered digest256 packets after_packets.1 after_packets.2 (Ok (reply_ok []))
    (surjective_pairing after_packets) _). by_vm.
Defined.
End Packets.
