(* ===== verification/CumulusExamples.v ===== *)
(** * CumulusExamples: the remote backend at concrete inputs

    A service that accepts everything, a device that is bound on its first request, a file
    uploaded in two blocks, a conflict reported, and the theorems of [CumulusRpcProofs] at
    these inputs. *)

From Stdlib Require Import ZArith Lia.
From S2P Require Import Prelude RustStd CloudCore Storage JournalRecord SyncJournal.
From S2P Require Import JournalProofs JournalInvariant JournalExamples.
From S2P Require Import FileSystem StoreFiles FolderStore StoreSessions FolderStoreExamples.
From S2P Require Import StoreOpen Syncthing CumulusClient CloudSettings Transfers CloudMessages.
From S2P Require Import LocalRpc CumulusRpc CumulusRpcProofs RpcExamples.
From S2P Require ConflictUi.

Local Open Scope Z_scope.

#[local] Existing Instance MemStructsy.
#[local] Existing Instance toy_codec.
#[local] Existing Instance plain_uris.
#[local] Existing Instance file_request_countable.
#[local] Existing Instance file_response_countable.

(** ** Messages, the service and its codecs *)

#[local] Instance conflict_eq : EqDecision CloudClientConflictResolutionNotification.
Proof. solve_decision. Defined.
#[local] Program Instance conflict_countable : Countable CloudClientConflictResolutionNotification :=
  inj_countable' (λ r, (cn_app_id r, cn_chose_local_files r))
    (λ '(a, b), Build_CloudClientConflictResolutionNotification a b) _.
Next Obligation. by intros []. Qed.

#[local] Instance remote_messages : CloudMessages := {|
  msg_cdn := uncoded; msg_external := uncoded; msg_begin_batch := uncoded;
  msg_begin_batch_response := uncoded; msg_complete := uncoded; msg_begin_file := coded;
  msg_begin_file_response := coded; msg_commit_file := uncoded; msg_commit_file_response := uncoded;
  msg_download := uncoded; msg_download_response := uncoded; msg_delete := uncoded;
  msg_conflict := coded; msg_changelist := uncoded; msg_changelist_response := uncoded;
  msg_suspend := uncoded; msg_resume := uncoded; msg_launch := uncoded;
  msg_launch_response := uncoded; msg_exit := uncoded; msg_quota := uncoded;
  msg_quota_response := uncoded |}.

#[local] Instance remote_codec : CumulusCodec := {|
  decode_principal := λ s, Ok s; decode_schema_accepted := λ _, Err "schema";
  decode_upload_result := λ _, Err "upload"; decode_app_stats := λ _, Err "stats";
  decode_account_state := λ _, Err "account"; base64_standard := λ _, "" |}.

Definition two_blocks : CumulusDeclaredFile := {|
  cdf_file_id := "f1"; cdf_transfer_size := 3; cdf_block_requests :=
    [{| cub_target := issued_target; cub_http_method := HTTP_METHOD_PUT; cub_block_offset := 0;
        cub_block_length := 2; cub_may_parallelize := true |};
     {| cub_target := issued_target; cub_http_method := HTTP_METHOD_PUT; cub_block_offset := 2;
        cub_block_length := 1; cub_may_parallelize := true |}] |}.

#[local] Instance adapter_codec : AdapterCodec := {|
  decode_changelist := λ _, Err ""; decode_manifest_files := λ _, Err "";
  decode_begin_batch := λ _, Err ""; decode_declared_file := λ _, Ok two_blocks;
  decode_transfer_target := λ _, Err ""; decode_commit := λ _, Err "";
  decode_quota := λ _, Err ""; decode_launch := λ _, Err "" |}.

Definition accepting (_ : ServiceLog) (_ : ServiceRequest) : ServiceAnswer :=
  Ok {| so_status := 200; so_body := Ok "principal" |}.

Definition desk_device : DeviceDescriptor := {|
  dd_client_id := 11; dd_machine_name := "desk"; dd_os_type := None; dd_device_type := None |}.

(** ** The state: a batch that lists one file, change numbers, an empty journal *)

Definition open_batch : BatchState := {|
  ba_app_id := game; ba_upload_paths := {["save.dat"]}; ba_delete_paths := ∅; ba_files := ∅;
  ba_local_files := ∅; ba_local_operation := None; ba_local_identity := None;
  ba_conflict_resolution := None |}.

Definition remote_adapter : AdapterState := {|
  ad_scope := Some desk_scope; ad_current_change_numbers := {[game := 8]};
  ad_client_change_numbers := {[game := 7]}; ad_active_batches := {[game := 5]};
  ad_batches := {[5 := open_batch]}; ad_local_apps := ∅; ad_files := ∅;
  ad_principal_scope := None; ad_local_store := None |}.

Definition remote_rpc : Rpc := {|
  rp_sys := fresh_sys remote_adapter; rp_journal := Some empty_journal; rp_targets := [];
  rp_bound := []; rp_log := []; rp_sequence := 0; rp_ticks := 0 |}.

(** ** A change list *)

Definition remote_file (path : string) : CumulusFile := {|
  cm_file_id := Some 1; cm_path := path; cm_size := 3; cm_sha1 := ""; cm_mtime := 5;
  cm_platforms_to_sync := 1 |}.

Lemma changelist_names_files_witness :
  ∃ js qs, steam_file_infos
      (((λ f, (cm_path f, Some f)) <$> [remote_file "a/x"; remote_file "b/y"])
       ++ ((λ p, (p, None)) <$> ["a/z"])) [] ∅ = Ok (js, qs) ∧
    (listed_path qs <$> js) = [Some "a/x"; Some "b/y"; Some "a/z"].
Proof.
  eexists _, _. split; [vm_compute; reflexivity|].
  refine (proj1 (proj2 (proj2 (changelist_names_files [] [remote_file "a/x"; remote_file "b/y"]
    ["a/z"] _ _ _ _ _ _ _ _)))); [vm_compute; reflexivity|vm_compute; reflexivity|done|done].
Defined.

(** ** An upload *)

Definition uploaded : AR RpcReply * Rpc :=
  handle_begin_file_upload accepting at_once desk_client (encode_to_vec file_request) remote_rpc.
Definition upload_reply : RpcReply := match uploaded.1 with Ok r => r | Err _ => reply_ok [] end.

Lemma uploaded_Ok : uploaded = (Ok upload_reply, uploaded.2).
Proof. apply pair_fst. by_vm. Qed.


(** ** A device, and a conflict settled for the cloud's version *)

Definition conflict_body : list Z :=
  encode_to_vec {| cn_app_id := Some game; cn_chose_local_files := Some false |}.

Definition called : AR RpcReply * Rpc :=
  execute_cumulus_rpc sha256 accepting (Some desk_device) 42 at_once at_once at_once desk_settings
    CONFLICT_RESOLUTION conflict_body remote_rpc.

Example called_asks : sv_url ∘ fst <$> rp_log called.2 =
  ["https://cloud.example/api/api/v1/device/bind";
   "https://cloud.example/api/api/v1/device/principal";
   "https://cloud.example/api/api/v1/apps/480/conflicts/kept-cloud"].
Proof. by_vm. Qed.

Lemma requests_from_bound_device_witness :
  ∃ new, rp_log called.2 = [] ++ new ∧ Forall (λ x, to_service desk_settings x.1) new ∧
    (new = [] ∧ rp_bound called.2 = [] ∨
     ∃ d, Some desk_device = Some d ∧
       ((bind_key sha256 desk_settings d ∈ [] ∧ rp_bound called.2 = []) ∨
        ∃ a rest, new = (bind_request desk_settings d, a) :: rest ∧
          ((accepted a ∧ rp_bound called.2 = [bind_key sha256 desk_settings d]) ∨
           (rest = [] ∧ rp_bound called.2 = [])))).
Proof.
  exact (requests_from_bound_device sha256 accepting (Some desk_device) 42 at_once at_once at_once
    desk_settings CONFLICT_RESOLUTION conflict_body remote_rpc called.1 called.2 eq_refl
    ltac:(vm_compute; reflexivity) (surjective_pairing called)).
Defined.

(** The service is out of reach: the choice waits in the journal. *)
Definition unreachable (_ : ServiceLog) (_ : ServiceRequest) : ServiceAnswer := Err "timed out".

Definition settled (service : ServiceLog → ServiceRequest → ServiceAnswer) : AR RpcReply * Rpc :=
  handle_conflict_resolution sha256 service (Some desk_device) 42 at_once at_once
    (cumulus_settings desk_settings) desk_client conflict_body remote_rpc.
Definition named : AR string * Rpc := new_conflict_event_id sha256 42 at_once remote_rpc.
Definition named_event : string := match named.1 with Ok id => id | Err _ => "" end.

Example settled_waits : (λ service, length <$>
    (map_to_list ∘ contents (S := MemStructsy) ∘ db_conflict <$> rp_journal (settled service).2))
  <$> [accepting; unreachable] = [Some 0%nat; Some 1%nat].
Proof. by_vm. Qed.

Lemma settled_Ok : settled unreachable = (Ok (reply_ok []), (settled unreachable).2).
Proof. apply pair_fst. by_vm. Qed.
Lemma named_Ok : named = (Ok named_event, named.2).
Proof. apply pair_fst. by_vm. Qed.

Lemma conflict_choice_survives_witness :
  ∃ request e j' new,
    decode_body (M := CloudClientConflictResolutionNotification) conflict_body = Ok request ∧
    cn_app_id request = Some (ce_app_id e) ∧ ce_event_id e = named_event ∧
    ce_resolution e = (if default false (cn_chose_local_files request)
                       then "kept_local" else "kept_cloud")%string ∧
    rp_journal (settled unreachable).2 = Some j' ∧ rp_log (settled unreachable).2 = [] ++ new ∧
    ((∃ k row', conflict_rows j' !! k = Some row' ∧ same_choice (ConflictRecord_value row') e) ∨
     (ce_resolution e = "kept_cloud"%string ∧ reported desk_client new e)).
Proof.
  refine (conflict_choice_survives sha256 unreachable (Some desk_device) 42 at_once at_once
    (cumulus_settings desk_settings) desk_client conflict_body remote_rpc (Ok (reply_ok []))
    (settled unreachable).2 empty_journal named_event named.2 eq_refl _ named_Ok _ settled_Ok).
  - apply empty_journal_inv.
  - intros id row Hrow. exfalso. change ((∅ : gmap string ConflictRecord) !! id = Some row) in Hrow.
    by rewrite lookup_empty in Hrow.
Defined.
