(* ===== verification/DeviceStream.v ===== *)
(** * DeviceStream: the event streams of an account ([cloud-cumulus/src/device_stream.rs])

    The pieces of the transport that run on one thread: the connector and the closer of its
    sockets, the reader of one server-sent event stream, and the loop that reconnects. The two
    readers and the thread that merges them are in [DevicePair].

    What a socket delivers is a list of reads; the end of the list is the end of the stream.
    The conditions that other threads change are functions of how often they were asked. *)

From Stdlib Require Import ZArith Lia.
From S2P Require Import Prelude RustStd CloudCore CumulusClient.

Local Open Scope Z_scope.

(** Durations in nanoseconds *)
Definition SECOND : Z := 1000000000.
Definition STREAM_IDLE_TIMEOUT : Z := 35 * SECOND.
Definition STREAM_RESPONSE_TIMEOUT : Z := 300 * SECOND.
Definition BACKOFF_INITIAL : Z := 1 * SECOND.
Definition BACKOFF_MAX : Z := 30 * SECOND.
Definition MAX_EVENT_BYTES : Z := 4 * 1024 * 1024.
Definition ACCOUNT_MESSAGE_CAPACITY : nat := 16.

Definition usize_saturating_add (a b : Z) : Z := Z.min u64_max (a + b).

(** ** The sockets of a connection ([ConnectionCloser]) *)

Record ConnectionState := { cn_stopped : bool; cn_streams : list nat }.
Definition connection_new : ConnectionState := {| cn_stopped := false; cn_streams := [] |}.

(** Each result has the sockets that are shut down. *)
Definition track (stream : nat) (cloned : bool) (s : ConnectionState) : bool * ConnectionState * list nat :=
  if negb cloned then (false, s, [])
  else if cn_stopped s then (true, s, [stream])
  else (true, {| cn_stopped := cn_stopped s; cn_streams := cn_streams s ++ [stream] |}, []).

Definition connection_stop (s : ConnectionState) : ConnectionState * list nat :=
  ({| cn_stopped := true; cn_streams := [] |}, cn_streams s).

(** ** Connecting ([CancellableTcpConnector::connect]) *)

Inductive IoErrorKind := TimedOut | WouldBlock | OtherIo.
#[export] Instance IoErrorKind_eq_dec : EqDecision IoErrorKind.
Proof. solve_decision. Defined.
Inductive ConnectError := TimeoutError | SocketError (kind : IoErrorKind) | ConnectionFailed.

(** [remaining / attempts_left], or everything when that is nothing *)
Definition connect_attempt_budget (remaining : Z) (attempts_left : nat) : Z :=
  let budget := remaining / Z.min u32_max (Z.of_nat attempts_left) in
  if budget =? 0 then remaining else budget.

Section connector.
(** The outcome of connecting to the [n]-th address within a budget, and how long it took;
    a connected socket's setup ([set_nodelay], [track]) can fail too. *)
Context (tcp : nat → option Z → result IoErrorKind (result IoErrorKind unit) * Z).

Definition connect_error (last_error : option IoErrorKind) : ConnectError :=
  match last_error with
  | Some kind =>
      if bool_decide (kind = TimedOut) || bool_decide (kind = WouldBlock) then TimeoutError
      else SocketError kind
  | None => ConnectionFailed
  end.

(** The result, when it came, and the addresses tried. *)
Fixpoint connect_addresses (timeout : option Z) (attempts_left : nat) (index : nat) (elapsed : Z)
    (last_error : option IoErrorKind) : result ConnectError nat * Z * list nat :=
  match attempts_left with
  | O => (Err (connect_error last_error), elapsed, [])
  | S after =>
      let remaining := (λ t, Z.max 0 (t - elapsed)) <$> timeout in
      if bool_decide (remaining = Some 0) then (Err TimeoutError, elapsed, [])
      else
        let budget := (λ r, connect_attempt_budget r attempts_left) <$> remaining in
        let '(r, took) := tcp index budget in
        match r with
        | Ok (Ok _) => (Ok index, elapsed + took, [index])
        | Ok (Err kind) => (Err (SocketError kind), elapsed + took, [index])
        | Err kind =>
            let '(r, elapsed, tried) :=
              connect_addresses timeout after (S index) (elapsed + took) (Some kind) in
            (r, elapsed, index :: tried)
        end
  end.

Definition tcp_connect (timeout : option Z) (address_count : nat) : result ConnectError nat * Z * list nat :=
  connect_addresses timeout address_count 0 0 None.
End connector.

(** ** Requests *)

Record StreamSpec := { st_route : string; st_event_name : string; st_stream_name : string }.

Definition playtime_spec : StreamSpec := {|
  st_route := "/api/v1/device/playtime-events"; st_event_name := "playtime_snapshot";
  st_stream_name := "playtime" |}.
Definition stats_spec : StreamSpec := {|
  st_route := "/api/v1/device/stats-events"; st_event_name := "stats_wakeup";
  st_stream_name := "stats" |}.

Record ConnectionRequest := {
  rq_url : string; rq_authorization : string; rq_client_id : string; rq_spec : StreamSpec;
}.

Definition request_for (settings : CumulusSettings) (client_id : Z) (steam_id64 : string)
    (spec : StreamSpec) : ConnectionRequest := {|
  rq_url := bytes_str (trim_end_matches 47 (str_bytes (cus_server_url settings)))
            ++ st_route spec ++ "?steam_id64=" ++ steam_id64;
  rq_authorization := "Bearer " ++ cus_token settings;
  rq_client_id := bytes_str (dec_text client_id); rq_spec := spec |}.

Definition request_headers (r : ConnectionRequest) : list (string * string) :=
  [("Authorization", rq_authorization r); ("Accept", "text/event-stream");
   (STEAM_CLIENT_ID_HEADER, rq_client_id r)].

(** ** How a connection ends *)

Inductive Connection :=
| Stopped
| Disconnected (incremental : bool)
| ConnectionError (error : BackendError) (incremental : bool).

Definition with_prior_incremental (prior : bool) (c : Connection) : Connection :=
  match c with
  | Disconnected incremental => Disconnected (prior || incremental)
  | ConnectionError error incremental => ConnectionError error (prior || incremental)
  | Stopped => Stopped
  end.

(** ** Lines of a stream ([read_line_bounded]) *)

Inductive ReadLineError := LineIo | InvalidUtf8 | TooLarge.

Inductive Read := Bytes (b : list Z) | Failed.
Record BufReader := { br_buffer : list Z; br_reads : list Read }.

Definition fill_buf (r : BufReader) : result unit (list Z) * BufReader :=
  match br_buffer r, br_reads r with
  | _ :: _, _ => (Ok (br_buffer r), r)
  | [], [] => (Ok [], r)
  | [], Bytes b :: reads => (Ok b, {| br_buffer := b; br_reads := reads |})
  | [], Failed :: reads => (Err tt, {| br_buffer := []; br_reads := reads |})
  end.

(** [position(|b| b == '\n').map_or(len, |i| i + 1)], and whether there is one *)
Fixpoint line_end (l : list Z) : nat * bool :=
  match l with
  | [] => (0%nat, false)
  | b :: l => if b =? 10 then (1%nat, true) else let '(n, found) := line_end l in (S n, found)
  end.

Definition line_text (bytes : list Z) (read : Z) : result ReadLineError (Z * list Z) :=
  if utf8_valid bytes then Ok (read, bytes) else Err InvalidUtf8.

(** The loop; [available] is what [fill_buf] returned. *)
Fixpoint read_line_loop (limit : Z) (reads : list Read) (available : list Z) (read : Z)
    (bytes : list Z) {struct reads} : result ReadLineError (Z * list Z) * BufReader :=
  match available with
  | [] => (line_text bytes read, {| br_buffer := []; br_reads := reads |})
  | _ =>
      let '(n, has_newline) := line_end available in
      if limit <? usize_saturating_add read (Z.of_nat n)
      then (Err TooLarge, {| br_buffer := available; br_reads := reads |})
      else
        let bytes := bytes ++ take n available in
        let read := read + Z.of_nat n in
        if has_newline
        then (line_text bytes read, {| br_buffer := drop n available; br_reads := reads |})
        else match reads with
             | [] => (line_text bytes read, {| br_buffer := []; br_reads := [] |})
             | Bytes b :: reads => read_line_loop limit reads b read bytes
             | Failed :: reads => (Err LineIo, {| br_buffer := []; br_reads := reads |})
             end
  end.

Definition read_line_bounded (r : BufReader) (limit : Z)
    : result ReadLineError (Z * list Z) * BufReader :=
  match fill_buf r with
  | (Err _, r) => (Err LineIo, r)
  | (Ok available, r) => read_line_loop limit (br_reads r) available 0 []
  end.

(** ** One stream ([connect_once_blocking]) *)

(** [trim_end_matches(['\r', '\n'])] *)
Definition trim_line_end (l : list Z) : list Z :=
  reverse (strip_while [[13]; [10]] (length l) (reverse l)).

Definition stream_status_retryable (status : Z) : bool :=
  bool_decide (status ∈ [404; 408; 409; 429]) || (500 <=? status).

Definition snapshot_too_large : BackendError :=
  {| be_message := "Cumulus device stream event exceeds 4 MiB"; be_retryable := false |}.

Section reader.
Context {T : Type} (from_str : list Z → result string T).
(** The answers of [should_continue] *)
Context (should_continue : nat → bool).

Definition decode_frame (event data : list Z) (expected_event stream_name : string)
    : result BackendError (option T) :=
  if negb (bool_decide (event = str_bytes expected_event)) || bool_decide (data = [])
  then Ok None
  else match from_str data with
       | Ok message => Ok (Some message)
       | Err error =>
           Err {| be_message := "invalid Cumulus " ++ stream_name ++ " event: " ++ error;
                  be_retryable := false |}
       end.

(** The variables of the loop, how often [should_continue] was asked and the messages
    passed on. *)
Record Frame := {
  fr_event : list Z; fr_data : list Z; fr_bytes : Z; fr_incremental : bool;
  fr_asked : nat; fr_messages : list T;
}.
Definition frame_new : Frame := {|
  fr_event := []; fr_data := []; fr_bytes := 0; fr_incremental := false; fr_asked := 0;
  fr_messages := [] |}.
Definition ask (f : Frame) : Frame := {|
  fr_event := fr_event f; fr_data := fr_data f; fr_bytes := fr_bytes f;
  fr_incremental := fr_incremental f; fr_asked := S (fr_asked f); fr_messages := fr_messages f |}.
Definition count_bytes (n : Z) (f : Frame) : Frame := {|
  fr_event := fr_event f; fr_data := fr_data f; fr_bytes := n;
  fr_incremental := fr_incremental f; fr_asked := fr_asked f; fr_messages := fr_messages f |}.
Definition set_event (event : list Z) (f : Frame) : Frame := {|
  fr_event := event; fr_data := fr_data f; fr_bytes := fr_bytes f;
  fr_incremental := fr_incremental f; fr_asked := fr_asked f; fr_messages := fr_messages f |}.
Definition set_data (data : list Z) (f : Frame) : Frame := {|
  fr_event := fr_event f; fr_data := data; fr_bytes := fr_bytes f;
  fr_incremental := fr_incremental f; fr_asked := fr_asked f; fr_messages := fr_messages f |}.
(** A frame is over; its message, if it has one, is passed on. *)
Definition next_frame (message : option T) (f : Frame) : Frame := {|
  fr_event := []; fr_data := []; fr_bytes := 0;
  fr_incremental := match message with Some _ => true | None => fr_incremental f end;
  fr_asked := fr_asked f; fr_messages := fr_messages f ++ option_list message |}.

Notation Step := (sum Connection Frame).

(** The fields of one line *)
Definition on_field (spec : StreamSpec) (field : list Z) (f : Frame) : Step :=
  if bool_decide (field = []) then
    match decode_frame (fr_event f) (fr_data f) (st_event_name spec) (st_stream_name spec) with
    | Ok message => inr (next_frame message f)
    | Err error => inl (ConnectionError error (fr_incremental f))
    end
  else match strip_prefix (str_bytes "event:") field with
  | Some value => inr (set_event (trim value) f)
  | None =>
      match strip_prefix (str_bytes "data:") field with
      | Some value =>
          if MAX_EVENT_BYTES <?
             usize_saturating_add (Z.of_nat (length (fr_data f))) (Z.of_nat (length value))
          then inl (ConnectionError snapshot_too_large (fr_incremental f))
          else
            let data := if bool_decide (fr_data f = []) then [] else fr_data f ++ [10] in
            inr (set_data (data ++ default value (strip_prefix [32] value)) f)
      | None => inr f
      end
  end.

(** What is done with what [read_line_bounded] returned *)
Definition on_line (spec : StreamSpec) (r : result ReadLineError (Z * list Z)) (f : Frame) : Step :=
  match r with
  | Ok (bytes, line) =>
      if bytes =? 0 then inl (Disconnected (fr_incremental f))
      else
        let f := count_bytes (usize_saturating_add (fr_bytes f) bytes) f in
        if MAX_EVENT_BYTES <? fr_bytes f
        then inl (ConnectionError snapshot_too_large (fr_incremental f))
        else if negb (should_continue (fr_asked f)) then inl Stopped
        else on_field spec (trim_line_end line) (ask f)
  | Err LineIo => inl (Disconnected (fr_incremental f))
  | Err InvalidUtf8 =>
      inl (ConnectionError {| be_message := "Cumulus " ++ st_stream_name spec ++ " stream is not UTF-8";
                              be_retryable := true |} (fr_incremental f))
  | Err TooLarge => inl (ConnectionError snapshot_too_large (fr_incremental f))
  end.

(** The loop; a line takes at least a byte, so the bytes that are left are enough fuel. *)
Fixpoint read_loop (fuel : nat) (spec : StreamSpec) (r : BufReader) (f : Frame)
    : option (list T * Connection) :=
  match fuel with
  | O => None
  | S fuel =>
      if negb (should_continue (fr_asked f)) then Some (fr_messages f, Stopped)
      else
        let '(line, r) := read_line_bounded r MAX_EVENT_BYTES in
        match on_line spec line (ask f) with
        | inl c => Some (fr_messages f, c)
        | inr f => read_loop fuel spec r f
        end
  end.

Definition reads_size (reads : list Read) : nat :=
  sum_list ((λ x, match x with Bytes b => length b | Failed => 0%nat end) <$> reads).
Definition reader_size (r : BufReader) : nat := length (br_buffer r) + reads_size (br_reads r).

(** The answer of the service: its status and body. The result has whether [on_connected]
    was called. *)
Definition connect_once_blocking (spec : StreamSpec) (response : result string (Z * list Read))
    : option (bool * list T * Connection) :=
  match response with
  | Err error => Some (false, [], ConnectionError (backend_error (Transport error)) false)
  | Ok (status, body) =>
      if negb ((200 <=? status) && (status <? 300)) then
        Some (false, [], ConnectionError
          {| be_message := "Cumulus " ++ st_stream_name spec ++ " stream returned HTTP "
                           ++ bytes_str (dec_text status);
             be_retryable := stream_status_retryable status |} false)
      else
        let r := {| br_buffer := []; br_reads := body |} in
        '(messages, c) ← read_loop (S (reader_size r)) spec r frame_new;
        Some (true, messages, c)
  end.
End reader.

(** ** Reconnecting ([run_account]) *)

Inductive StreamOutcome := OutcomeStopped | OutcomeUnsupported.

(** The delay, and the next back-off *)
Definition reconnect_delay (backoff : Z) (incremental : bool) : Z * Z :=
  let backoff := if incremental then BACKOFF_INITIAL else backoff in
  (backoff, Z.min (backoff * 2) BACKOFF_MAX).

(** One turn of the loop: whether it was cancelled before it, how [connect_pair_once] ended
    and whether it was cancelled during the delay. *)
Record Attempt := { at_cancelled : bool; at_connection : Connection; at_cancelled_waiting : bool }.

(** The delays, and the result when the loop ends within these turns *)
Fixpoint run_account (backoff : Z) (attempts : list Attempt)
    : list Z * option (result BackendError StreamOutcome) :=
  match attempts with
  | [] => ([], None)
  | a :: attempts =>
      if at_cancelled a then ([], Some (Ok OutcomeStopped))
      else
        let retry incremental :=
          let '(delay, backoff) := reconnect_delay backoff incremental in
          if at_cancelled_waiting a then ([delay], Some (Ok OutcomeStopped))
          else let '(delays, r) := run_account backoff attempts in (delay :: delays, r) in
        match at_connection a with
        | Stopped => ([], Some (Ok OutcomeStopped))
        | Disconnected incremental => retry incremental
        | ConnectionError error incremental =>
            if is_retryable error then retry incremental else ([], Some (Err error))
        end
  end.
