(* ===== verification/DeviceStreamProofs.v ===== *)
(** * DeviceStreamProofs: what the transport of the event streams guarantees

    Stopping closes every socket; connecting keeps its deadline; reconnecting backs off within
    bounds; and reading a stream does not depend on how its bytes arrive, loses no event and
    makes none up. *)

From Stdlib Require Import ZArith Lia.
From S2P Require Import Prelude RustStd CloudCore CumulusClient DeviceStream.

Local Open Scope Z_scope.

(** ** Sockets *)

Inductive CloserCall := Track (stream : nat) (cloned : bool) | Stop.

(** The state, and the sockets that were shut down *)
Definition closer_call (x : ConnectionState * list nat) (c : CloserCall) : ConnectionState * list nat :=
  match c with
  | Track stream cloned => let '(_, s, shut) := track stream cloned x.1 in (s, x.2 ++ shut)
  | Stop => let '(s, shut) := connection_stop x.1 in (s, x.2 ++ shut)
  end.
Definition closer_run (calls : list CloserCall) : ConnectionState * list nat :=
  foldl closer_call (connection_new, []) calls.

(** The sockets a connector was given back as tracked *)
Definition tracked (calls : list CloserCall) : list nat :=
  omap (λ c, match c with Track stream true => Some stream | _ => None end) calls.

#[export] Instance CloserCall_eq_dec : EqDecision CloserCall.
Proof. solve_decision. Defined.

(** [stop_closes_sockets]: in whatever order connections are made and stopped, every socket
    that was handed out is open and remembered, or was shut down, once; after a stop none
    is left open, also none that connects later, and before a stop none is shut down. *)
Theorem stop_closes_sockets (calls : list CloserCall) :
  (closer_run calls).2 ++ cn_streams (closer_run calls).1 ≡ₚ tracked calls ∧
  (Stop ∈ calls → cn_streams (closer_run calls).1 = []) ∧
  (Stop ∉ calls → (closer_run calls).2 = []).
Proof.
  assert (Hst : cn_stopped (closer_run calls).1 = bool_decide (Stop ∈ calls) ∧
    (closer_run calls).2 ++ cn_streams (closer_run calls).1 ≡ₚ tracked calls ∧
    (Stop ∈ calls → cn_streams (closer_run calls).1 = []) ∧
    (Stop ∉ calls → (closer_run calls).2 = [])); [|tauto].
  unfold closer_run, tracked. induction calls as [|c calls (Hs & Hp & Hin & Hout)] using rev_ind.
  { split; [by rewrite bool_decide_false by set_solver|]. split; [done|]. split; [set_solver|done]. }
  rewrite foldl_snoc, omap_app. destruct (foldl _ _ calls) as [[stopped streams] shut]. cbn in *.
  assert (Hc : Stop ∈ calls ++ [c] ↔ Stop ∈ calls ∨ c = Stop) by set_solver.
  rewrite (bool_decide_ext _ _ Hc). rewrite Hc.
  destruct c as [stream []|]; cbn.
  - destruct stopped; symmetry in Hs; cbn.
    + apply bool_decide_eq_true in Hs. rewrite (Hin Hs) in *. rewrite bool_decide_true by auto.
      rewrite !app_nil_r in *. split; [done|]. split; [by rewrite Hp|]. split; [done|]. tauto.
    + apply bool_decide_eq_false in Hs. rewrite bool_decide_false by naive_solver.
      rewrite app_nil_r. split; [done|]. split; [by rewrite (assoc_L (++)), Hp|]. naive_solver.
  - rewrite !app_nil_r. split; [|split; [done|naive_solver]]. rewrite Hs. apply bool_decide_ext.
    naive_solver.
  - rewrite !app_nil_r. rewrite bool_decide_true by auto. split; [done|]. split; [by rewrite Hp|].
    naive_solver.
Qed.

(** ** The deadline of a connection *)

Lemma budget_bounds remaining n :
  0 < remaining → (0 < n)%nat →
  0 < connect_attempt_budget remaining n ≤ remaining ∧
  (Z.of_nat n ≤ u32_max → Z.of_nat n ≤ remaining →
   Z.of_nat n * connect_attempt_budget remaining n ≤ remaining).
Proof.
  intros Hr Hn. unfold connect_attempt_budget. set (d := Z.min u32_max (Z.of_nat n)).
  assert (0 < d) by (subst d; unfold u32_max; lia).
  assert (Hd : d * (remaining / d) ≤ remaining) by (apply Z.mul_div_le; lia).
  assert (0 ≤ remaining / d) by (apply Z.div_pos; lia).
  destruct (Z.eqb_spec (remaining / d) 0) as [E|E].
  - split; [lia|]. intros H1 H2. apply Z.div_small_iff in E; [|lia]. subst d. lia.
  - split; [nia|]. intros H1 H2. replace (Z.of_nat n) with d by (subst d; lia). lia.
Qed.

Section deadline.
Context (tcp : nat → option Z → result IoErrorKind (result IoErrorKind unit) * Z).
(** [TcpStream::connect_timeout] returns within its budget. *)
Context (Htcp : ∀ n budget, 0 ≤ budget → 0 ≤ (tcp n (Some budget)).2 ≤ budget).

Lemma connect_addresses_deadline t left index elapsed last :
  0 ≤ elapsed ≤ t →
  let '(_, finished, tried) := connect_addresses tcp (Some t) left index elapsed last in
  elapsed ≤ finished ≤ t ∧ tried `prefix_of` seq index left ∧
  ((∀ n b, ∃ kind, (tcp n b).1 = Err kind) → Z.of_nat left ≤ u32_max →
   Z.of_nat left ≤ t - elapsed → tried = seq index left).
Proof.
  revert index elapsed last. induction left as [|left IH]; intros index elapsed last He; cbn.
  { split; [lia|]. split; [apply prefix_nil|done]. }
  case_bool_decide as Hz.
  { injection Hz as Hz. split; [lia|]. split; [apply prefix_nil|]. intros _ _ ?. lia. }
  assert (Hm : Z.max 0 (t - elapsed) = t - elapsed ∧ 0 < t - elapsed).
  { assert (Z.max 0 (t - elapsed) ≠ 0) by congruence. lia. }
  destruct Hm as [Hm Hpos]. rewrite Hm.
  destruct (budget_bounds (t - elapsed) (S left)) as [Hb Hall]; [lia|lia|].
  pose proof (Htcp index (connect_attempt_budget (t - elapsed) (S left)) ltac:(lia)) as Ht.
  destruct (tcp index _) as [r took] eqn:E. cbn in Ht.
  assert (Hone : [index] `prefix_of` index :: seq (S index) left) by (eexists; reflexivity).
  destruct r as [[u|kind]|kind].
  - split; [lia|]. split; [done|]. intros Herr. destruct (Herr index (Some (connect_attempt_budget (t - elapsed) (S left)))) as [k Hk].
    by rewrite E in Hk.
  - split; [lia|]. split; [done|]. intros Herr. destruct (Herr index (Some (connect_attempt_budget (t - elapsed) (S left)))) as [k Hk].
    by rewrite E in Hk.
  - specialize (IH (S index) (elapsed + took) (Some kind) ltac:(lia)).
    destruct (connect_addresses _ _ _ _ _ _) as [[r' finished] tried]. destruct IH as (H1 & H2 & H3).
    split; [lia|]. split; [by apply prefix_cons|]. intros Herr Hu Hl. f_equal. apply H3; [done|lia|].
    specialize (Hall Hu Hl). rewrite Nat2Z.inj_succ in *. nia.
Qed.

(** [connect_keeps_deadline]: connecting takes no longer than its time-out however many
    addresses the name has; and when no address answers, each of them was tried, as long as
    the time-out has a nanosecond for each. *)
Theorem connect_keeps_deadline t address_count r finished tried :
  0 ≤ t → tcp_connect tcp (Some t) address_count = (r, finished, tried) →
  0 ≤ finished ≤ t ∧ tried `prefix_of` seq 0 address_count ∧
  ((∀ n b, ∃ kind, (tcp n b).1 = Err kind) → Z.of_nat address_count ≤ Z.min u32_max t →
   tried = seq 0 address_count).
Proof.
  intros Ht Hc. pose proof (connect_addresses_deadline t address_count 0 0 None ltac:(lia)) as H.
  unfold tcp_connect in Hc. rewrite Hc in H. destruct H as (H1 & H2 & H3).
  split; [lia|]. split; [done|]. intros Herr Hl. apply H3; [done|lia|lia].
Qed.
End deadline.

(** ** Back-off *)

(** The turn delivered an event. *)
Definition was_incremental (a : Attempt) : bool :=
  match at_connection a with
  | Stopped => false | Disconnected i => i | ConnectionError _ i => i
  end.
(** [backoff] after [n] quiet turns *)
Definition backoff_after (n : nat) : Z := Z.min BACKOFF_MAX (BACKOFF_INITIAL * 2 ^ Z.of_nat n).

Lemma backoff_double n : Z.min (backoff_after n * 2) BACKOFF_MAX = backoff_after (S n).
Proof.
  unfold backoff_after. rewrite Nat2Z.inj_succ, Z.pow_succ_r by lia.
  unfold BACKOFF_MAX, BACKOFF_INITIAL, SECOND. lia.
Qed.

(** The delay after a turn: doubled with each quiet turn *)
Definition delay_after (n : nat) (a : Attempt) : Z :=
  backoff_after (if was_incremental a then 0 else n).

Fixpoint expected_delays (n : nat) (attempts : list Attempt) : list Z :=
  match attempts with
  | [] => []
  | a :: attempts =>
      delay_after n a :: expected_delays (S (if was_incremental a then 0 else n)) attempts
  end.

(** Why the loop ended, if it did *)
Definition account_ended (attempts : list Attempt) (delays : list Z)
    (r : option (result BackendError StreamOutcome)) : Prop :=
  match r with
  | None => length delays = length attempts ∧
      Forall (λ a, at_cancelled a = false ∧ at_cancelled_waiting a = false) attempts
  | Some (Ok outcome) => outcome = OutcomeStopped ∧
      Exists (λ a, at_cancelled a = true ∨ at_connection a = Stopped ∨ at_cancelled_waiting a = true) attempts
  | Some (Err e) => be_retryable e = false ∧
      ∃ a i, attempts !! length delays = Some a ∧ at_connection a = ConnectionError e i
  end.

Lemma account_ended_cons a attempts d delays r :
  at_cancelled a = false → at_cancelled_waiting a = false →
  account_ended attempts delays r → account_ended (a :: attempts) (d :: delays) r.
Proof.
  intros Hc Hw. destruct r as [[o|e]|]; cbn; [|done|].
  - intros [-> He]. split; [done|]. by right.
  - intros [-> He]. split; [done|]. by constructor.
Qed.

Lemma backoff_bounds k : 1 * SECOND ≤ backoff_after k ≤ 30 * SECOND.
Proof.
  unfold backoff_after, BACKOFF_MAX, BACKOFF_INITIAL, SECOND.
  pose proof (Z.pow_pos_nonneg 2 (Z.of_nat k)). lia.
Qed.

(** [reconnects_back_off]: the delays before reconnecting start at a second, double with each
    turn that brought no event up to thirty seconds and start again after one that did; the
    loop goes on until it is cancelled or an error says that trying again is no use. *)
Theorem reconnects_back_off attempts delays r :
  run_account BACKOFF_INITIAL attempts = (delays, r) →
  delays `prefix_of` expected_delays 0 attempts ∧
  Forall (λ d, 1 * SECOND ≤ d ≤ 30 * SECOND) delays ∧ account_ended attempts delays r.
Proof.
  change BACKOFF_INITIAL with (backoff_after 0). generalize 0%nat.
  revert delays r. induction attempts as [|a attempts IH]; intros delays r n; cbn [run_account expected_delays].
  { intros [= <- <-]. split; [done|]. split; [constructor|]. by split. }
  assert (Hend : ∀ r, account_ended (a :: attempts) [] r →
    [] `prefix_of` delay_after n a :: expected_delays (S (if was_incremental a then 0 else n)) attempts ∧
    Forall (λ d, 1 * SECOND ≤ d ≤ 30 * SECOND) [] ∧ account_ended (a :: attempts) [] r).
  { intros r' Hr. split; [apply prefix_nil|]. by split; [constructor|]. }
  destruct (at_cancelled a) eqn:Ec.
  { intros [= <- <-]. apply Hend. split; [done|]. left. auto. }
  assert (Hretry : (let '(delay, backoff) := reconnect_delay (backoff_after n) (was_incremental a) in
     if at_cancelled_waiting a then ([delay], Some (Ok OutcomeStopped))
     else let '(delays, r) := run_account backoff attempts in (delay :: delays, r)) = (delays, r) →
    delays `prefix_of` delay_after n a :: expected_delays (S (if was_incremental a then 0 else n)) attempts ∧
    Forall (λ d, 1 * SECOND ≤ d ≤ 30 * SECOND) delays ∧ account_ended (a :: attempts) delays r).
  { unfold reconnect_delay. change BACKOFF_INITIAL with (backoff_after 0).
    replace (if was_incremental a then backoff_after 0 else backoff_after n)
      with (delay_after n a) by (unfold delay_after; by destruct (was_incremental a)).
    unfold delay_after. rewrite backoff_double. destruct (at_cancelled_waiting a) eqn:Ew.
    - intros [= <- <-]. split; [eexists; reflexivity|].
      split; [constructor; [apply backoff_bounds|constructor]|]. split; [done|]. left. auto.
    - destruct (run_account _ attempts) as [ds r'] eqn:E. intros [= <- <-].
      apply IH in E as (Hp & Hf & Hr). split; [by apply prefix_cons|].
      split; [constructor; [apply backoff_bounds|done]|]. by apply account_ended_cons. }
  unfold was_incremental in Hretry at 1. destruct (at_connection a) as [|inc|e inc] eqn:Ea.
  - intros [= <- <-]. apply Hend. split; [done|]. left. auto.
  - by apply Hretry.
  - unfold is_retryable. destruct (be_retryable e) eqn:Ee; [by apply Hretry|]. intros [= <- <-].
    apply Hend. split; [done|]. exists a, inc. done.
Qed.

(** ** Reading a stream, byte by byte *)

(** What the body of a response delivers, and whether it ends with an error *)
Fixpoint joined (reads : list Read) : list Z * bool :=
  match reads with
  | [] => ([], false)
  | Failed :: _ => ([], true)
  | Bytes b :: reads => let '(bytes, failed) := joined reads in (b ++ bytes, failed)
  end.

Section reference.
Context {T : Type} (from_str : list Z → result string T) (should_continue : nat → bool).
Context (spec : StreamSpec).

(** The result, or the line so far and the state of the frame *)
Notation Scan := (sum (list T * Connection) (list Z * Frame (T := T))).

Definition next_line (f : Frame) : Scan :=
  if should_continue (fr_asked f) then inr ([], ask f) else inl (fr_messages f, Stopped).
Definition end_line (line : list Z) (f : Frame) : Scan :=
  match on_line from_str should_continue spec (line_text line (Z.of_nat (length line))) f with
  | inl c => inl (fr_messages f, c)
  | inr f => next_line f
  end.
Definition on_byte (s : Scan) (b : Z) : Scan :=
  match s with
  | inl _ => s
  | inr (line, f) =>
      let line := line ++ [b] in
      if MAX_EVENT_BYTES <? Z.of_nat (length line)
      then inl (fr_messages f, ConnectionError snapshot_too_large (fr_incremental f))
      else if b =? 10 then end_line line f else inr (line, f)
  end.
(** The end of the body; a last line without its line feed counts unless reading failed. *)
Definition at_end (failed : bool) (s : Scan) : list T * Connection :=
  let over s := match s with
                | inl r => r
                | inr (_, f) => (fr_messages f, Disconnected (fr_incremental f))
                end in
  match s with
  | inr ((_ :: _) as line, f) => if failed then over s else over (end_line line f)
  | _ => over s
  end.
Definition read_bytes (f : Frame) (bytes : list Z) (failed : bool) : list T * Connection :=
  at_end failed (foldl on_byte (next_line f) bytes).

Lemma scan_done r bytes : foldl on_byte (inl r) bytes = inl r.
Proof. by induction bytes. Qed.

(** Bytes without a line feed gather in the line; a line beyond the limit ends the reading. *)
Lemma scan_gather line f u :
  Forall (λ b, b ≠ 10) u → Z.of_nat (length (line ++ u)) ≤ MAX_EVENT_BYTES →
  foldl on_byte (inr (line, f)) u = inr (line ++ u, f).
Proof.
  revert line. induction u as [|b u IH]; intros line Hu Hl; cbn [foldl].
  { by rewrite app_nil_r. }
  apply Forall_cons in Hu as [Hb%Z.eqb_neq Hu]. unfold on_byte at 2.
  destruct (Z.ltb_spec MAX_EVENT_BYTES (Z.of_nat (length (line ++ [b])))) as [Hlt|Hge].
  { rewrite length_app in *. cbn in *. lia. }
  rewrite Hb, IH by (done || by rewrite <-(assoc_L (++))). by rewrite <-(assoc_L (++)).
Qed.

Lemma scan_too_long line f u v :
  Forall (λ b, b ≠ 10) u → Z.of_nat (length line) ≤ MAX_EVENT_BYTES →
  MAX_EVENT_BYTES < Z.of_nat (length (line ++ u)) →
  foldl on_byte (inr (line, f)) (u ++ v) =
    inl (fr_messages f, ConnectionError snapshot_too_large (fr_incremental f)).
Proof.
  revert line. induction u as [|b u IH]; intros line Hu Hle Hl.
  { rewrite app_nil_r in Hl. lia. }
  apply Forall_cons in Hu as [Hb%Z.eqb_neq Hu]. cbn [app foldl]. unfold on_byte at 2.
  destruct (Z.ltb_spec MAX_EVENT_BYTES (Z.of_nat (length (line ++ [b])))) as [Hlt|Hge].
  { apply scan_done. }
  rewrite Hb. apply IH; [done|done|]. by rewrite <-(assoc_L (++)).
Qed.

Lemma scan_line line f u :
  Forall (λ b, b ≠ 10) u → Z.of_nat (length line) ≤ MAX_EVENT_BYTES →
  foldl on_byte (inr (line, f)) (u ++ [10]) =
    if MAX_EVENT_BYTES <? Z.of_nat (length (line ++ u ++ [10]))
    then inl (fr_messages f, ConnectionError snapshot_too_large (fr_incremental f))
    else end_line (line ++ u ++ [10]) f.
Proof.
  intros Hu Hl. destruct (Z.ltb_spec MAX_EVENT_BYTES (Z.of_nat (length (line ++ u ++ [10])))) as [Hlt|Hge].
  - destruct (decide (MAX_EVENT_BYTES < Z.of_nat (length (line ++ u)))).
    { by apply scan_too_long. }
    rewrite foldl_app, scan_gather by (done || lia). cbn [foldl on_byte].
    rewrite <-(assoc_L (++)). apply Z.ltb_lt in Hlt. by rewrite Hlt.
  - rewrite foldl_app, scan_gather; [|done|rewrite !length_app in *; cbn in *; lia].
    cbn [foldl on_byte]. rewrite <-(assoc_L (++)). apply Z.ltb_ge in Hge. by rewrite Hge.
Qed.

(** ** A line of the buffered reader *)

Definition well_read (reads : list Read) : Prop := Forall (λ x, x ≠ Bytes []) reads.

(** What is left of a reader *)
Definition rest_of (r : BufReader) : list Z * bool :=
  let '(bytes, failed) := joined (br_reads r) in (br_buffer r ++ bytes, failed).

Definition after_line (res : result ReadLineError (Z * list Z)) (f : Frame) (rest : list Z * bool)
    : list T * Connection :=
  match on_line from_str should_continue spec res f with
  | inl c => (fr_messages f, c)
  | inr f => read_bytes f rest.1 rest.2
  end.

Lemma line_end_spec l :
  (Forall (λ b, b ≠ 10) l ∧ line_end l = (length l, false)) ∨
  ∃ u v, l = u ++ 10 :: v ∧ Forall (λ b, b ≠ 10) u ∧ line_end l = (S (length u), true).
Proof.
  induction l as [|b l [[Hf IH]|(u & v & -> & Hf & IH)]]; cbn; [by left|..].
  - destruct (Z.eqb_spec b 10) as [->|Hb]; [right; exists [], l; auto|]. left. rewrite IH. auto.
  - destruct (Z.eqb_spec b 10) as [->|Hb]; [right; exists [], (u ++ 10 :: v); auto|].
    right. exists (b :: u), v. rewrite IH. auto.
Qed.

Lemma usize_add_small a b : 0 ≤ a → 0 ≤ b →
  (MAX_EVENT_BYTES <? usize_saturating_add a b) = (MAX_EVENT_BYTES <? a + b).
Proof. intros. unfold usize_saturating_add, MAX_EVENT_BYTES, u64_max. lia. Qed.

Lemma at_end_line failed line f rest :
  at_end failed (foldl on_byte (end_line line f) rest) =
    after_line (line_text line (Z.of_nat (length line))) f (rest, failed).
Proof.
  unfold end_line, after_line. destruct (on_line _ _ _ _ _) as [c|f']; [by rewrite scan_done|done].
Qed.

Lemma line_text_Ok bytes read n line : line_text bytes read = Ok (n, line) → n = read.
Proof. unfold line_text. destruct (utf8_valid _); by intros [=]. Qed.

Lemma read_line_loop_eq limit reads available read bytes :
  available ≠ [] →
  read_line_loop limit reads available read bytes =
    let '(n, has_newline) := line_end available in
    if limit <? usize_saturating_add read (Z.of_nat n)
    then (Err TooLarge, {| br_buffer := available; br_reads := reads |})
    else if has_newline
    then (line_text (bytes ++ take n available) (read + Z.of_nat n),
          {| br_buffer := drop n available; br_reads := reads |})
    else match reads with
         | [] => (line_text (bytes ++ take n available) (read + Z.of_nat n),
                  {| br_buffer := []; br_reads := [] |})
         | Bytes b :: reads =>
             read_line_loop limit reads b (read + Z.of_nat n) (bytes ++ take n available)
         | Failed :: reads => (Err LineIo, {| br_buffer := []; br_reads := reads |})
         end.
Proof. by destruct reads, available. Qed.

Lemma read_line_loop_spec reads available bytes f :
  available ≠ [] → well_read reads → Z.of_nat (length bytes) ≤ MAX_EVENT_BYTES →
  let '(res, r) := read_line_loop MAX_EVENT_BYTES reads available (Z.of_nat (length bytes)) bytes in
  at_end (joined reads).2 (foldl on_byte (inr (bytes, f)) (available ++ (joined reads).1)) =
    after_line res f (rest_of r) ∧
  well_read (br_reads r) ∧
  (∀ n line, res = Ok (n, line) → n ≠ 0 ∧
    (reader_size r < length available + reads_size reads)%nat).
Proof.
  revert available bytes. induction reads as [reads IH] using (well_founded_ind (well_founded_ltof _ length)).
  intros available bytes Ha Hw Hb. rewrite read_line_loop_eq by done.
  destruct (line_end_spec available) as [[Hf He]|(u & v & -> & Hf & He)]; rewrite He.
  - rewrite usize_add_small, <-Nat2Z.inj_add, <-length_app, firstn_all by lia.
    destruct (Z.ltb_spec MAX_EVENT_BYTES (Z.of_nat (length (bytes ++ available)))) as [Hlt|Hge].
    { by rewrite scan_too_long by done. }
    rewrite foldl_app, scan_gather by done. set (line := bytes ++ available) in *.
    assert (Hl : line ≠ []) by (subst line; by destruct bytes, available).
    assert (Hav : (0 < length available)%nat) by (by destruct available; [|simpl; lia]).
    destruct reads as [|[b|] reads].
    + split; [|split; [done|]].
      { cbn [joined fst snd foldl]. change (rest_of _) with (@nil Z, false). rewrite <-at_end_line.
        destruct line as [|c line']; [done|]. unfold at_end at 1, end_line, next_line. cbn [foldl].
        destruct (on_line _ _ _ _ _); [done|]. by destruct (should_continue _). }
      intros n text Hn%line_text_Ok. subst n. split; [|cbn; lia]. by destruct line.
    + apply Forall_cons in Hw as [Hx Hw].
      specialize (IH reads (Nat.lt_succ_diag_r _) b line ltac:(congruence) Hw Hge).
      destruct (read_line_loop _ _ _ _ _) as [res r]. cbn [joined].
      destruct (joined reads) as [bs failed]. destruct IH as (H1 & H2 & H3).
      split; [done|]. split; [done|]. intros n text [Hn Hs]%H3.
      split; [done|]. change (reads_size (Bytes b :: reads)) with (length b + reads_size reads)%nat. lia.
    + split; [|split; [by apply Forall_cons in Hw as []|done]]. cbn. by destruct line.
  - rewrite usize_add_small by lia.
    replace (take (S (length u)) (u ++ 10 :: v)) with (u ++ [10])
      by (rewrite (cons_middle 10 u v), (assoc_L (++)), take_app_length'; [done|]; rewrite length_app; cbn; lia).
    replace (drop (S (length u)) (u ++ 10 :: v)) with v
      by (rewrite (cons_middle 10 u v), (assoc_L (++)), drop_app_length'; [done|]; rewrite length_app; cbn; lia).
    replace (Z.of_nat (length bytes) + Z.of_nat (S (length u))) with
      (Z.of_nat (length (bytes ++ u ++ [10]))) by (rewrite !length_app; cbn; lia).
    replace ((u ++ 10 :: v) ++ (joined reads).1) with ((u ++ [10]) ++ (v ++ (joined reads).1))
      by (by rewrite <-!(assoc_L (++))).
    rewrite foldl_app, scan_line by done.
    destruct (Z.ltb_spec MAX_EVENT_BYTES (Z.of_nat (length (bytes ++ u ++ [10])))) as [Hlt|Hge].
    { by rewrite scan_done. }
    split; [|split; [done|]].
    { rewrite at_end_line. unfold rest_of. cbn. by destruct (joined reads). }
    intros n text Hn%line_text_Ok. subst n. unfold reader_size. cbn [br_buffer br_reads].
    rewrite !length_app. cbn [length]. lia.
Qed.

Lemma read_loop_spec fuel r f :
  well_read (br_reads r) → (reader_size r < fuel)%nat →
  read_loop from_str should_continue fuel spec r f =
    Some (read_bytes f (rest_of r).1 (rest_of r).2).
Proof.
  revert r f. induction fuel as [|fuel IH]; intros r f Hw Hfuel; [lia|]. cbn [read_loop].
  unfold read_bytes, next_line. destruct (should_continue (fr_asked f)); cbn [negb].
  2: { by rewrite scan_done. }
  assert (Hline : ∀ available reads, available ≠ [] → well_read reads →
    (length available + reads_size reads ≤ reader_size r)%nat →
    (let '(line, r) := read_line_loop MAX_EVENT_BYTES reads available 0 [] in
     match on_line from_str should_continue spec line (ask f) with
     | inl c => Some (fr_messages f, c)
     | inr f => read_loop from_str should_continue fuel spec r f
     end) =
    Some (at_end (joined reads).2 (foldl on_byte (inr ([], ask f)) (available ++ (joined reads).1)))).
  { intros available reads Ha Hw' Hs.
    pose proof (read_line_loop_spec reads available [] (ask f) Ha Hw' ltac:(done)) as H.
    change (Z.of_nat (length [])) with 0 in H. destruct (read_line_loop _ _ _ _ _) as [res r'].
    destruct H as (-> & Hw2 & Hok). unfold after_line.
    destruct (on_line _ _ _ _ _) as [c|f'] eqn:E; [done|]. apply IH; [done|].
    destruct res as [[n text]|[]]; [|done..]. destruct (Hok n text eq_refl). lia. }
  unfold read_line_bounded, fill_buf, rest_of. destruct r as [buffer reads]. cbn [br_buffer br_reads] in *.
  destruct buffer as [|b buffer].
  - destruct reads as [|[b|] reads].
    + done.
    + apply Forall_cons in Hw as [Hx Hw]. rewrite Hline; [|congruence|done|].
      * cbn [joined br_reads]. by destruct (joined reads).
      * unfold reader_size. cbn [br_buffer br_reads length].
        change (reads_size (Bytes b :: reads)) with (length b + reads_size reads)%nat. lia.
    + done.
  - rewrite Hline; [cbn [br_reads]; by destruct (joined reads)|done|done|]. unfold reader_size. cbn [br_buffer br_reads]. lia.
Qed.
End reference.

(** [stream_read_whole]: reading a stream always comes to an end with it, and neither the
    messages passed on nor how the connection is said to have ended depend on how the bytes
    were cut into reads: they are what reading byte by byte gives. *)
Theorem stream_read_whole {T} (from_str : list Z → result string T) should_continue spec status body :
  well_read body → 200 ≤ status < 300 →
  connect_once_blocking from_str should_continue spec (Ok (status, body)) =
    Some (true, (read_bytes from_str should_continue spec frame_new (joined body).1 (joined body).2).1,
          (read_bytes from_str should_continue spec frame_new (joined body).1 (joined body).2).2).
Proof.
  intros Hw Hs. unfold connect_once_blocking.
  replace ((200 <=? status) && (status <? 300)) with true by lia. cbn [negb].
  rewrite read_loop_spec by (done || cbn; lia). cbn. unfold rest_of. cbn.
  destruct (joined body) as [bytes failed]. cbn. by destruct (read_bytes _ _ _ _ _ _).
Qed.

(** ** Events in, events out *)

Lemma utf8_valid_app l k : utf8_valid l = true → utf8_valid (l ++ k) = utf8_valid k.
Proof.
  induction l as [l IH] using bytes_ind. intros H.
  apply utf8_valid_inv in H as [->|(c & r & -> & Hc & Hr)]; [done|].
  rewrite <-(assoc_L (++)), utf8_char_valid, IH; [done| |done|done].
  rewrite length_app. by destruct c; [|simpl; lia].
Qed.

Lemma trim_line_end_feed u :
  Forall (λ b, b ≠ 10) u → last u ≠ Some 13 → trim_line_end (u ++ [10]) = u.
Proof.
  intros Hf Hl. unfold trim_line_end. rewrite reverse_snoc, length_app, Nat.add_comm. cbn [Nat.add length strip_while].
  change (strip_any [[13]; [10]] (10 :: reverse u)) with (Some (reverse u)). cbn match.
  rewrite strip_while_stop; [apply reverse_involutive|]. apply strip_any_None.
  intros p l' Hp Heq. apply (f_equal reverse) in Heq. rewrite reverse_involutive, reverse_app in Heq.
  subst u. apply list_elem_of_In in Hp as [<-|[<-|[]]].
  - apply Hl. apply last_snoc.
  - apply Forall_app in Hf as [_ [? _]%Forall_cons]. done.
Qed.

(** What the service sends: an event with its data on one line, or a comment *)
Inductive SentItem := SentEvent (payload : list Z) | SentComment (text : list Z).

Definition sent_bytes (spec : StreamSpec) (x : SentItem) : list Z :=
  match x with
  | SentEvent payload =>
      (str_bytes "event: " ++ str_bytes (st_event_name spec)) ++ [10]
      ++ (str_bytes "data: " ++ payload) ++ [10] ++ [] ++ [10]
  | SentComment text => (str_bytes ":" ++ text) ++ [10] ++ [] ++ [10]
  end.

(** A line's text: UTF-8 without line ends, well below the limit *)
Definition plain (l : list Z) : Prop :=
  utf8_valid l = true ∧ Forall (λ b, b ≠ 10) l ∧ last l ≠ Some 13 ∧
  Z.of_nat (length l) ≤ MAX_EVENT_BYTES - 64.

Section roundtrip.
Context {T : Type} (from_str : list Z → result string T) (should_continue : nat → bool).
Context (Hgo : ∀ n, should_continue n = true).
Context (spec : StreamSpec).

(** The message of an item, as [from_str] reads it *)
Definition sent_message (x : SentItem) (m : option T) : Prop :=
  match x with
  | SentEvent payload => plain payload ∧ payload ≠ [] ∧ ∃ message, m = Some message ∧ from_str payload = Ok message
  | SentComment text => plain text ∧ m = None
  end.

(** Between two items *)
Definition idle (ms : list T) (f : Frame) : Prop :=
  fr_event f = [] ∧ fr_data f = [] ∧ fr_bytes f = 0 ∧
  fr_incremental f = bool_decide (length ms ≠ 0%nat) ∧ fr_messages f = ms.

Lemma scan_text u f :
  Forall (λ b, b ≠ 10) u → utf8_valid u = true → last u ≠ Some 13 → 0 ≤ fr_bytes f →
  fr_bytes f + Z.of_nat (length u) + 1 ≤ MAX_EVENT_BYTES →
  foldl (on_byte from_str should_continue spec) (inr ([], f)) (u ++ [10]) =
  match on_field from_str spec u
          (ask (count_bytes (fr_bytes f + (Z.of_nat (length u) + 1)) f)) with
  | inl c => inl (fr_messages f, c)
  | inr f => inr ([], ask f)
  end.
Proof.
  intros Hf Hu Hl Hb Hm. rewrite scan_line by (done || unfold MAX_EVENT_BYTES; lia). cbn [app].
  assert (Hlen : Z.of_nat (length (u ++ [10])) = Z.of_nat (length u) + 1)
    by (rewrite length_app; cbn [length]; lia).
  rewrite Hlen. replace (MAX_EVENT_BYTES <? _) with false by lia.
  unfold end_line, line_text. rewrite utf8_valid_app, Hlen by done. cbn [utf8_valid].
  change (between 0 127 10) with true. cbn [on_line].
  replace (Z.of_nat (length u) + 1 =? 0) with false by lia. cbn match. cbn [fr_bytes count_bytes].
  rewrite usize_add_small by lia. unfold usize_saturating_add. rewrite Z.min_r by (unfold u64_max, MAX_EVENT_BYTES in *; lia).
  replace (MAX_EVENT_BYTES <? _) with false by lia. rewrite Hgo. cbn [negb].
  rewrite trim_line_end_feed by done. destruct (on_field _ _ _ _) as [c|f']; [done|].
  unfold next_line. by rewrite Hgo.
Qed.

Lemma scan_text_app u f rest :
  Forall (λ b, b ≠ 10) u → utf8_valid u = true → last u ≠ Some 13 → 0 ≤ fr_bytes f →
  fr_bytes f + Z.of_nat (length u) + 1 ≤ MAX_EVENT_BYTES →
  foldl (on_byte from_str should_continue spec) (inr ([], f)) (u ++ [10] ++ rest) =
  match on_field from_str spec u
          (ask (count_bytes (fr_bytes f + (Z.of_nat (length u) + 1)) f)) with
  | inl c => inl (fr_messages f, c)
  | inr f => foldl (on_byte from_str should_continue spec) (inr ([], ask f)) rest
  end.
Proof.
  intros. rewrite (assoc_L (++) u), foldl_app, scan_text by done.
  destruct (on_field _ _ _ _); [apply scan_done|done].
Qed.

(** An empty line ends the frame. *)
Lemma scan_blank f :
  0 ≤ fr_bytes f < MAX_EVENT_BYTES →
  foldl (on_byte from_str should_continue spec) (inr ([], f)) ([] ++ [10]) =
  match decode_frame from_str (fr_event f) (fr_data f) (st_event_name spec) (st_stream_name spec) with
  | Ok message => inr ([], ask (next_frame message (ask f)))
  | Err error => inl (fr_messages f, ConnectionError error (fr_incremental f))
  end.
Proof.
  intros Hb. rewrite scan_text; [|by constructor|done|done|lia|cbn [length]; lia].
  unfold on_field. rewrite bool_decide_true by done. cbn [fr_event fr_data fr_incremental ask count_bytes].
  by destruct (decode_frame _ _ _ _ _).
Qed.

Context (Hspec : spec = playtime_spec ∨ spec = stats_spec).

Lemma event_line_text :
  let u := str_bytes "event: " ++ str_bytes (st_event_name spec) in
  Forall (λ b, b ≠ 10) u ∧ utf8_valid u = true ∧ last u ≠ Some 13 ∧ Z.of_nat (length u) ≤ 24 ∧
  ∀ f, on_field from_str spec u f = inr (set_event (str_bytes (st_event_name spec)) f).
Proof.
  destruct Hspec as [-> | ->];
    (split; [apply (bool_decide_eq_true_1 _); vm_compute; reflexivity|]);
    (split; [vm_compute; reflexivity|]); (split; [vm_compute; discriminate|]);
    (split; [vm_compute; discriminate|]);
    intros f; unfold on_field; rewrite bool_decide_false by (vm_compute; discriminate);
    change (str_bytes "event: " ++ ?x) with (str_bytes "event:" ++ 32 :: x);
    rewrite (proj2 (strip_prefix_Some _ _ _) eq_refl);
    do 2 f_equal; vm_compute; reflexivity.
Qed.

Lemma plain_prefixed p l :
  utf8_valid p = true → Forall (λ b, b ≠ 10) p → last p ≠ Some 13 → plain l →
  Forall (λ b, b ≠ 10) (p ++ l) ∧ utf8_valid (p ++ l) = true ∧ last (p ++ l) ≠ Some 13.
Proof.
  intros Hp Hf Hl (Hu & Hn & Hr & _). split; [by apply Forall_app|].
  split; [by rewrite utf8_valid_app|]. rewrite last_app. by destruct (last l).
Qed.

Lemma data_field payload f :
  fr_data f = [] → plain payload →
  on_field from_str spec (str_bytes "data: " ++ payload) f = inr (set_data payload f).
Proof.
  intros Hd (_ & _ & _ & Hlen). unfold on_field. rewrite bool_decide_false by done.
  change (strip_prefix (str_bytes "event:") (str_bytes "data: " ++ payload)) with (@None (list Z)).
  change (str_bytes "data: " ++ payload) with (str_bytes "data:" ++ 32 :: payload).
  rewrite (proj2 (strip_prefix_Some _ _ _) eq_refl), Hd.
  rewrite usize_add_small by lia. cbn [length]. replace (MAX_EVENT_BYTES <? _) with false by lia.
  by rewrite bool_decide_true.
Qed.

Ltac frame_lia :=
  cbn [fr_bytes ask set_event set_data count_bytes length];
  repeat match goal with H : fr_bytes _ = 0 |- _ => rewrite H in * end; lia.

Ltac at_blank :=
  match goal with |- context [foldl _ (inr ([], ask ?g)) _] =>
    let f := fresh "f" in set (f := ask g); rewrite (scan_blank f) by (subst f; frame_lia); subst f
  end.

Lemma scan_item x m ms f :
  sent_message x m → idle ms f → ∃ f',
    foldl (on_byte from_str should_continue spec) (inr ([], f)) (sent_bytes spec x) = inr ([], f') ∧
    idle (ms ++ option_list m) f'.
Proof.
  intros Hx (He & Hd & Hb & Hi & Hm). destruct x as [payload|text]; cbn [sent_message sent_bytes] in *.
  - destruct Hx as (Hp & Hne & message & -> & Hdec).
    destruct event_line_text as (Hf1 & Hu1 & Hl1 & Hlen1 & Hon).
    destruct (plain_prefixed (str_bytes "data: ") payload) as (Hf2 & Hu2 & Hl2);
      [done|by apply (bool_decide_eq_true_1 _)|done|done|].
    assert (Hlen2 : Z.of_nat (length (str_bytes "data: " ++ payload)) ≤ MAX_EVENT_BYTES - 58)
      by (rewrite length_app; destruct Hp as (_ & _ & _ & ?);
          change (length (str_bytes "data: ")) with 6%nat; lia).
    rewrite scan_text_app by (done || rewrite ?Hb; unfold MAX_EVENT_BYTES; lia).
    rewrite Hon, scan_text_app; [|done..|frame_lia|frame_lia].
    rewrite data_field by done. at_blank.
    cbn [fr_event fr_data ask count_bytes set_data set_event].
    unfold decode_frame. rewrite bool_decide_true, bool_decide_false, Hdec by done. cbn [negb orb].
    eexists. split; [done|]. unfold idle. cbn. rewrite Hm. split_and!; [done..| |done].
    symmetry. apply bool_decide_true. rewrite length_app. cbn. lia.
  - destruct Hx as (Hp & ->).
    destruct (plain_prefixed (str_bytes ":") text) as (Hf2 & Hu2 & Hl2);
      [done|by apply (bool_decide_eq_true_1 _)|done|done|].
    assert (Hlen2 : Z.of_nat (length (str_bytes ":" ++ text)) ≤ MAX_EVENT_BYTES - 58)
      by (rewrite length_app; destruct Hp as (_ & _ & _ & ?);
          change (length (str_bytes ":")) with 1%nat; lia).
    rewrite scan_text_app by (done || rewrite ?Hb; lia).
    unfold on_field at 1. rewrite bool_decide_false by done.
    change (strip_prefix (str_bytes "event:") (str_bytes ":" ++ text)) with (@None (list Z)).
    change (strip_prefix (str_bytes "data:") (str_bytes ":" ++ text)) with (@None (list Z)). cbn match.
    at_blank. unfold decode_frame. cbn [fr_event fr_data ask count_bytes].
    rewrite He, bool_decide_false by (destruct Hspec as [-> | ->]; vm_compute; discriminate).
    eexists. split; [done|]. unfold idle. cbn. rewrite Hm, app_nil_r. done.
Qed.

Lemma scan_items xs ms done f :
  Forall2 sent_message xs ms → idle done f → ∃ f',
    foldl (on_byte from_str should_continue spec) (inr ([], f)) (concat (sent_bytes spec <$> xs)) =
      inr ([], f') ∧ idle (done ++ omap id ms) f'.
Proof.
  intros Hx. revert done f. induction Hx as [|x m xs ms Hxm _ IH]; intros done f Hi.
  { exists f. by rewrite app_nil_r. }
  destruct (scan_item x m done f Hxm Hi) as (f1 & H1 & Hi1).
  destruct (IH _ _ Hi1) as (f2 & H2 & Hi2). exists f2. cbn [fmap list_fmap concat].
  rewrite foldl_app, H1, H2. split; [reflexivity|]. rewrite <-(assoc_L (++)) in Hi2. by destruct m.
Qed.

End roundtrip.
