(* ===== verification/DevicePair.v ===== *)
(** * DevicePair: two streams merged behind a baseline ([device_stream.rs], [connect_pair_once])

    Two reader threads and the caller's thread share a bounded channel, the flag
    [baseline_ready], a stop flag and a closer per reader and the [StreamCancellation]. A step is one access to
    what is shared; [exec] is the step a choice of the scheduler makes, with what the network
    or a callback answers to it. Flags that are read one after the other only ever go up, so
    they are read in one step. *)

From Stdlib Require Import ZArith Lia.
From S2P Require Import Prelude RustStd CloudCore PlaytimeDownlink DeviceStream.

Local Open Scope Z_scope.

Record AccountStatsWakeup := {
  aw_steam_id64 : string; aw_origin_client_id : option string; aw_app_ids : list Z;
}.
Inductive AccountStreamEvent :=
| Baseline (baseline : AccountSyncState)
| PlaytimeEvent (snapshot : AccountPlaytimeSnapshot)
| StatsWakeup (wakeup : AccountStatsWakeup).

Inductive StreamKind := Playtime | Stats.
#[export] Instance StreamKind_eq_dec : EqDecision StreamKind.
Proof. solve_decision. Defined.
Definition other (k : StreamKind) : StreamKind :=
  match k with Playtime => Stats | Stats => Playtime end.

Inductive AccountConnectionMessage :=
| Connected (kind : StreamKind)
| Event (event : AccountStreamEvent)
| Finished (kind : StreamKind) (outcome : Connection).

(** What a reader's [wrap] makes *)
Definition wrapped (k : StreamKind) (e : AccountStreamEvent) : bool :=
  match e with
  | Baseline _ => false
  | PlaytimeEvent _ => bool_decide (k = Playtime)
  | StatsWakeup _ => bool_decide (k = Stats)
  end.

(** ** Where the threads are *)

(** A reader: connecting, [signal_connected], [wait_for_baseline], the loop of
    [connect_once_blocking], [send_message], and the end. *)
Inductive Reader :=
| RConnect
| RAnnounce | RAnnounced
| RTest | RObserve | RRetest (observed : Z) | RSleep (observed : Z)
| RContinue | RReading | RGot (e : AccountStreamEvent)
| RSend (e : AccountStreamEvent) | RSent | RGiveUp
| RFinish (c : Connection) | RDrop | RDone.

(** The caller: [forward_pair], then [stop_readers] and [join_readers] *)
Inductive Forwarder :=
| FCheck | FObserve | FReceive (observed : Z) | FSleep (observed : Z)
| FAsk | FAsked (b : AccountSyncState) | FBaseline (b : AccountSyncState) | FReady | FSignal
| FEvent (e : AccountStreamEvent) | FTell (e : AccountStreamEvent)
| FReturn (c : Connection)
| FStop (k : StreamKind) (c : Connection) | FClose (k : StreamKind) (c : Connection)
| FWake (k : StreamKind) (c : Connection) | FJoin (c : Connection) | FEnd (c : Connection).

Record Pair := {
  pr_cancellation : StreamCancellationState;
  pr_ready : bool;
  pr_channel : list AccountConnectionMessage;
  pr_receiver : bool;
  pr_stop : StreamKind → bool;
  pr_closed : StreamKind → bool;
  pr_reader : StreamKind → Reader;
  pr_forwarder : Forwarder;
  pr_connected : StreamKind → bool;
  pr_delivered : bool;
  pr_incremental : bool;
}.

Definition upd {A} (k : StreamKind) (a : A) (f : StreamKind → A) : StreamKind → A :=
  λ k', if decide (k' = k) then a else f k'.

Definition pair_new (c : StreamCancellationState) : Pair := {|
  pr_cancellation := c; pr_ready := false; pr_channel := []; pr_receiver := true;
  pr_stop := λ _, false; pr_closed := λ _, false; pr_reader := λ _, RConnect;
  pr_forwarder := FCheck; pr_connected := λ _, false; pr_delivered := false;
  pr_incremental := false |}.

(** ** Updates *)

Definition with_cancellation (c : StreamCancellationState) (p : Pair) : Pair := {|
  pr_cancellation := c; pr_ready := pr_ready p; pr_channel := pr_channel p;
  pr_receiver := pr_receiver p; pr_stop := pr_stop p; pr_closed := pr_closed p;
  pr_reader := pr_reader p; pr_forwarder := pr_forwarder p; pr_connected := pr_connected p;
  pr_delivered := pr_delivered p; pr_incremental := pr_incremental p |}.
Definition with_channel (receiver : bool) (l : list AccountConnectionMessage) (p : Pair) : Pair := {|
  pr_cancellation := pr_cancellation p; pr_ready := pr_ready p; pr_channel := l;
  pr_receiver := receiver; pr_stop := pr_stop p; pr_closed := pr_closed p;
  pr_reader := pr_reader p; pr_forwarder := pr_forwarder p; pr_connected := pr_connected p;
  pr_delivered := pr_delivered p; pr_incremental := pr_incremental p |}.
Definition with_stop (k : StreamKind) (p : Pair) : Pair := {|
  pr_cancellation := pr_cancellation p; pr_ready := pr_ready p; pr_channel := pr_channel p;
  pr_receiver := pr_receiver p; pr_stop := upd k true (pr_stop p); pr_closed := pr_closed p;
  pr_reader := pr_reader p; pr_forwarder := pr_forwarder p; pr_connected := pr_connected p;
  pr_delivered := pr_delivered p; pr_incremental := pr_incremental p |}.
Definition with_closed (k : StreamKind) (p : Pair) : Pair := {|
  pr_cancellation := pr_cancellation p; pr_ready := pr_ready p; pr_channel := pr_channel p;
  pr_receiver := pr_receiver p; pr_stop := pr_stop p; pr_closed := upd k true (pr_closed p);
  pr_reader := pr_reader p; pr_forwarder := pr_forwarder p; pr_connected := pr_connected p;
  pr_delivered := pr_delivered p; pr_incremental := pr_incremental p |}.
Definition reader_at (k : StreamKind) (r : Reader) (p : Pair) : Pair := {|
  pr_cancellation := pr_cancellation p; pr_ready := pr_ready p; pr_channel := pr_channel p;
  pr_receiver := pr_receiver p; pr_stop := pr_stop p; pr_closed := pr_closed p;
  pr_reader := upd k r (pr_reader p); pr_forwarder := pr_forwarder p;
  pr_connected := pr_connected p; pr_delivered := pr_delivered p;
  pr_incremental := pr_incremental p |}.
Definition forwarder_at (f : Forwarder) (p : Pair) : Pair := {|
  pr_cancellation := pr_cancellation p; pr_ready := pr_ready p; pr_channel := pr_channel p;
  pr_receiver := pr_receiver p; pr_stop := pr_stop p; pr_closed := pr_closed p;
  pr_reader := pr_reader p; pr_forwarder := f; pr_connected := pr_connected p;
  pr_delivered := pr_delivered p; pr_incremental := pr_incremental p |}.
Definition with_connected (k : StreamKind) (p : Pair) : Pair := {|
  pr_cancellation := pr_cancellation p; pr_ready := pr_ready p; pr_channel := pr_channel p;
  pr_receiver := pr_receiver p; pr_stop := pr_stop p; pr_closed := pr_closed p;
  pr_reader := pr_reader p; pr_forwarder := pr_forwarder p;
  pr_connected := upd k true (pr_connected p); pr_delivered := pr_delivered p;
  pr_incremental := pr_incremental p |}.
Definition with_progress (ready delivered incremental : bool) (p : Pair) : Pair := {|
  pr_cancellation := pr_cancellation p; pr_ready := ready; pr_channel := pr_channel p;
  pr_receiver := pr_receiver p; pr_stop := pr_stop p; pr_closed := pr_closed p;
  pr_reader := pr_reader p; pr_forwarder := pr_forwarder p; pr_connected := pr_connected p;
  pr_delivered := delivered; pr_incremental := incremental |}.

(** ** What a step shows *)

Inductive Observation :=
| Accepted (k : StreamKind)
| Decoded (k : StreamKind) (e : AccountStreamEvent)
| Asked (r : result BackendError AccountSyncState)
| Told (e : AccountStreamEvent)
| Signalled.

(** What the network, or a callback, answers *)
Inductive Answer :=
| Nothing
| Accept
| Line
| Message (e : AccountStreamEvent)
| Ends (c : Connection)
| Snapshot (r : result BackendError AccountSyncState).

Definition signal (p : Pair) : Pair := with_cancellation (signal_activity (pr_cancellation p)) p.
Definition is_cancelled (p : Pair) : bool := cancelled (pr_cancellation p).

(** ** The readers *)

(** [SyncSender::send]: it blocks while the channel is full, and fails without a receiver. *)
Definition send (m : AccountConnectionMessage) (p : Pair) : option (bool * Pair) :=
  if negb (pr_receiver p) then Some (false, p)
  else if (length (pr_channel p) <? ACCOUNT_MESSAGE_CAPACITY)%nat
  then Some (true, with_channel true (pr_channel p ++ [m]) p)
  else None.

(** [continue_reading] *)
Definition continue_reading (k : StreamKind) (p : Pair) : bool :=
  negb (is_cancelled p) && negb (pr_stop p k).
(** The condition of [wait_for_baseline] *)
Definition awaits_baseline (k : StreamKind) (p : Pair) : bool :=
  negb (pr_ready p) && negb (is_cancelled p) && negb (pr_stop p k).

Definition reader_step (k : StreamKind) (answer : Answer) (p : Pair)
    : option (Pair * list Observation) :=
  match pr_reader p k, answer with
  | RConnect, Accept => Some (reader_at k RAnnounce p, [Accepted k])
  | RConnect, Ends c => Some (reader_at k (RFinish c) p, [])
  | RAnnounce, Nothing =>
      match send (Connected k) p with
      | Some (sent, p) => Some (reader_at k (if sent then RAnnounced else RGiveUp) p, [])
      | None => None
      end
  | RAnnounced, Nothing => Some (reader_at k RTest (signal p), [Signalled])
  | RTest, Nothing =>
      Some (reader_at k (if awaits_baseline k p then RObserve else RContinue) p, [])
  | RObserve, Nothing => Some (reader_at k (RRetest (revision (pr_cancellation p))) p, [])
  | RRetest observed, Nothing =>
      Some (reader_at k (if awaits_baseline k p then RSleep observed else RContinue) p, [])
  | RSleep observed, Nothing =>
      if waits (pr_cancellation p) observed then None else Some (reader_at k RTest p, [])
  | RContinue, Nothing =>
      Some (reader_at k (if continue_reading k p then RReading else RFinish Stopped) p, [])
  | RReading, Line => Some (reader_at k RContinue p, [])
  | RReading, Message e => if wrapped k e then Some (reader_at k (RGot e) p, []) else None
  | RReading, Ends c => Some (reader_at k (RFinish c) p, [])
  | RGot e, Nothing =>
      if continue_reading k p then Some (reader_at k (RSend e) p, [Decoded k e])
      else Some (reader_at k (RFinish Stopped) p, [])
  | RSend e, Nothing =>
      match send (Event e) p with
      | Some (sent, p) => Some (reader_at k (if sent then RSent else RGiveUp) p, [])
      | None => None
      end
  | RSent, Nothing => Some (reader_at k RContinue (signal p), [Signalled])
  | RGiveUp, Nothing => Some (reader_at k RContinue (with_stop k p), [])
  | RFinish c, Nothing =>
      match send (Finished k c) p with
      | Some (_, p) => Some (reader_at k RDrop p, [])
      | None => None
      end
  | RDrop, Nothing => Some (reader_at k RDone (signal p), [Signalled])
  | _, _ => None
  end.

(** ** The caller *)

Definition crossed_barrier : BackendError := {|
  be_message := "Cumulus account stream event crossed the baseline barrier"; be_retryable := false |}.

(** No reader is left that could send. *)
Definition disconnected (p : Pair) : bool :=
  match pr_reader p Playtime, pr_reader p Stats with RDone, RDone => true | _, _ => false end.

Definition receive (observed : Z) (p : Pair) : Pair :=
  match pr_channel p with
  | [] => if disconnected p then forwarder_at (FReturn (Disconnected (pr_incremental p))) p
          else forwarder_at (FSleep observed) p
  | m :: rest =>
      let p := with_channel (pr_receiver p) rest p in
      match m with
      | Connected k =>
          let p := with_connected k p in
          forwarder_at (if pr_connected p Playtime && pr_connected p Stats && negb (pr_delivered p)
                        then FAsk else FCheck) p
      | Event e => forwarder_at (FEvent e) p
      | Finished k c => forwarder_at (FReturn (with_prior_incremental (pr_incremental p) c)) p
      end
  end.

Definition forwarder_step (answer : Answer) (p : Pair) : option (Pair * list Observation) :=
  match pr_forwarder p, answer with
  | FCheck, Nothing =>
      Some (forwarder_at (if is_cancelled p then FReturn Stopped else FObserve) p, [])
  | FObserve, Nothing => Some (forwarder_at (FReceive (revision (pr_cancellation p))) p, [])
  | FReceive observed, Nothing => Some (receive observed p, [])
  | FSleep observed, Nothing =>
      if waits (pr_cancellation p) observed then None else Some (forwarder_at FCheck p, [])
  | FAsk, Snapshot r =>
      Some (forwarder_at (match r with
                          | Ok b => FAsked b
                          | Err error => FReturn (ConnectionError error (pr_incremental p))
                          end) p, [Asked r])
  | FAsked b, Nothing =>
      Some (forwarder_at (if is_cancelled p then FReturn Stopped else FBaseline b) p, [])
  | FBaseline b, Nothing =>
      Some (forwarder_at FReady (with_progress (pr_ready p) true (pr_incremental p) p),
            [Told (Baseline b)])
  | FReady, Nothing =>
      Some (forwarder_at FSignal (with_progress true (pr_delivered p) (pr_incremental p) p), [])
  | FSignal, Nothing => Some (forwarder_at FCheck (signal p), [Signalled])
  | FEvent e, Nothing =>
      Some (forwarder_at
              (if is_cancelled p then FReturn Stopped
               else if negb (pr_delivered p)
               then FReturn (ConnectionError crossed_barrier (pr_incremental p))
               else FTell e) p, [])
  | FTell e, Nothing =>
      Some (forwarder_at FCheck (with_progress (pr_ready p) (pr_delivered p) true p), [Told e])
  | FReturn c, Nothing => Some (forwarder_at (FStop Playtime c) (with_channel false [] p), [])
  | FStop k c, Nothing => Some (forwarder_at (FClose k c) (with_stop k p), [])
  | FClose k c, Nothing => Some (forwarder_at (FWake k c) (with_closed k p), [])
  | FWake k c, Nothing =>
      Some (forwarder_at (match k with Playtime => FStop Stats c | Stats => FJoin c end) (signal p),
            [Signalled])
  | FJoin c, Nothing => if disconnected p then Some (forwarder_at (FEnd c) p, []) else None
  | _, _ => None
  end.

(** ** Runs *)

Inductive Choice :=
| Reads (k : StreamKind) (answer : Answer)
| Forwards (answer : Answer)
| Cancels
| Signals.

Definition exec (c : Choice) (p : Pair) : option (Pair * list Observation) :=
  match c with
  | Reads k answer => reader_step k answer p
  | Forwards answer => forwarder_step answer p
  | Cancels => Some (with_cancellation (cancel (pr_cancellation p)) p,
                     if is_cancelled p then [] else [Signalled])
  | Signals => Some (signal p, [Signalled])
  end.

Fixpoint run (cs : list Choice) (p : Pair) : option (Pair * list Observation) :=
  match cs with
  | [] => Some (p, [])
  | c :: cs => '(p, o) ← exec c p; '(p, os) ← run cs p; Some (p, o ++ os)
  end.
