(* ===== verification/DevicePairProofs.v ===== *)
(** * DevicePairProofs: the baseline barrier and its wake-ups

    Every interleaving of the two readers, the caller and a cancellation: the caller is told
    a baseline first, taken after both streams were open, then the events of each stream in
    their order; and no thread sleeps while there is something for it. *)

From Stdlib Require Import ZArith Lia.
From S2P Require Import Prelude RustStd CloudCore PlaytimeDownlink DeviceStream DevicePair.

Local Open Scope Z_scope.

(** ** Induction on runs *)

Lemma run_invariant (P : list Observation → Pair → Prop) cs p p' t :
  P [] p →
  (∀ t p c p' o, P t p → exec c p = Some (p', o) → P (t ++ o) p') →
  run cs p = Some (p', t) → P t p'.
Proof.
  intros Hi Hstep. enough (∀ t0, P t0 p → run cs p = Some (p', t) → P (t0 ++ t) p')
    by (intros Hr; by apply (H [])).
  clear Hi. revert p t. induction cs as [|c cs IH]; intros p t t0 Hi Hr; cbn in Hr.
  { simplify_eq. by rewrite app_nil_r. }
  destruct (exec c p) as [[p1 o]|] eqn:E; cbn in Hr; [|done].
  destruct (run cs p1) as [[p2 os]|] eqn:E2; cbn in Hr; [|done]. simplify_eq.
  rewrite (assoc_L (++)). eauto.
Qed.

Lemma upd_eq {A} k (a : A) f : upd k a f k = a.
Proof. unfold upd. by rewrite decide_True. Qed.
Lemma upd_ne {A} k k' (a : A) f : k' ≠ k → upd k a f k' = f k'.
Proof. intros. unfold upd. by rewrite decide_False. Qed.

(** The fields of an updated state *)
Ltac pair_cbn :=
  cbn [with_cancellation with_channel with_stop with_closed reader_at forwarder_at with_connected
       with_progress signal is_cancelled cancelled revision signal_activity pr_cancellation pr_ready
       pr_channel pr_receiver pr_stop pr_closed pr_reader pr_forwarder pr_connected pr_delivered
       pr_incremental negb] in *.

(** The steps, one goal for each *)
Ltac exec_cases H :=
  unfold exec, reader_step, forwarder_step, receive, send in H;
  repeat case_match; simplify_eq; unfold is_cancelled, awaits_baseline, continue_reading in *; pair_cbn;
  repeat match goal with
  | H : _ && _ = true |- _ => apply andb_true_iff in H as [? ?]
  | H : negb _ = true |- _ => apply negb_true_iff in H
  | H : negb _ = false |- _ => apply negb_false_iff in H
  end.

Lemma released (a b c : bool) :
  negb a && negb b && negb c = false → a = true ∨ b = true ∨ c = true.
Proof. destruct a, b, c; auto. Qed.

Lemma cancelled_cancel c : cancelled (cancel c) = true.
Proof. unfold cancel. by destruct (cancelled c) eqn:E. Qed.

(** A field of a state in which one thread has moved *)
Ltac updated := unfold upd in *; repeat case_decide; simplify_eq/=.

Lemma elem_of_snoc {A} (x y : A) l : x ∈ l ++ [y] ↔ x ∈ l ∨ x = y.
Proof. set_solver. Qed.

(** ** The barrier *)

(** [forward_pair] has returned and dropped its receiver. *)
Definition returned (f : Forwarder) : bool :=
  match f with FStop _ _ | FClose _ _ | FWake _ _ | FJoin _ | FEnd _ => true | _ => false end.
(** The reader has left [wait_for_baseline]. *)
Definition past_barrier (r : Reader) : bool :=
  match r with RContinue | RReading | RGot _ | RSend _ | RSent => true | _ => false end.
(** The caller has told the baseline, or is about to tell an event. *)
Definition after_baseline (f : Forwarder) : bool :=
  match f with FReady | FSignal | FTell _ => true | _ => false end.

(** What is known of the place of a thread or of the channel, used in the other facts *)
Ltac places :=
  repeat match goal with
  | Hf : pr_forwarder ?p = _, I : context [pr_forwarder ?p] |- _ =>
      lazymatch I with Hf => fail | _ => rewrite Hf in I end
  | Hc : pr_channel ?p = _, I : context [pr_channel ?p] |- _ =>
      lazymatch I with Hc => fail | _ => rewrite Hc in I end
  | Hf : pr_forwarder ?p = _ |- context [pr_forwarder ?p] => rewrite Hf
  | Hc : pr_channel ?p = _ |- context [pr_channel ?p] => rewrite Hc
  end; cbn [returned past_barrier after_baseline] in *.

Record barrier_inv (p : Pair) : Prop := {
  bi_receiver : pr_receiver p = negb (returned (pr_forwarder p));
  bi_channel : pr_receiver p = false → pr_channel p = [];
  bi_stop k : pr_stop p k = true → pr_receiver p = false;
  bi_give_up k : pr_reader p k = RGiveUp → pr_receiver p = false;
  bi_ready : pr_ready p = true → pr_delivered p = true;
  bi_past k : past_barrier (pr_reader p k) = true →
    pr_ready p = true ∨ is_cancelled p = true ∨ pr_stop p k = true;
  bi_event e : Event e ∈ pr_channel p → pr_delivered p = true ∨ is_cancelled p = true;
  bi_received e : pr_forwarder p = FEvent e → pr_delivered p = true ∨ is_cancelled p = true;
  bi_tell : after_baseline (pr_forwarder p) = true → pr_delivered p = true;
}.

Lemma barrier_step c p p' o : barrier_inv p → exec c p = Some (p', o) → barrier_inv p'.
Proof.
  intros Hi H. revert Hi. exec_cases H; intros [I1 I2 I3 I4 I5 I6 I7 I8 I9].
  all: split; unfold is_cancelled in *; pair_cbn; rewrite ?cancelled_cancel; try assumption; places.
  all: try (intros; updated; eauto 3; fail).
  all: try (intros; updated; congruence).
  all: try (intros ? [?| [=]]%elem_of_snoc; by eauto 2).
  all: try (intros k' Hk; updated; first [specialize (I3 k' Hk); congruence | apply I4 in Hk; congruence]).
  all: try (intros k' Hk; updated; [|by eauto 2]; match goal with Hr : pr_reader _ ?k = _ |- _ =>
         destruct (I6 k) as [|[|]]; [by rewrite Hr|by auto..] end).
  all: try (intros Hr; specialize (I2 Hr); done).
  all: try (intros e' He; apply (I7 e'); by apply list_elem_of_further).
  1,2: intros k' Hk; updated; [by apply released|by eauto 2].
  - intros e' [He|_]%elem_of_snoc; [by eauto 2|]. destruct (I6 k) as [Hr|[Hc|Hs]]; [|by auto..|].
    + by match goal with Hr : pr_reader _ k = _ |- _ => rewrite Hr end.
    + apply I3 in Hs. congruence.
  - intros e' [= ->]. apply (I7 e'). by left.
  - by intros e' ?%not_elem_of_nil.
Qed.

Lemma barrier_new c : barrier_inv (pair_new c).
Proof. split; cbn; try done. by intros e ?%not_elem_of_nil. Qed.

(** ** What the caller is told *)

Definition told (t : list Observation) : list AccountStreamEvent :=
  omap (λ o, match o with Told e => Some e | _ => None end) t.
Definition decoded (k : StreamKind) (t : list Observation) : list AccountStreamEvent :=
  omap (λ o, match o with Decoded k' e => if decide (k' = k) then Some e else None | _ => None end) t.

Definition is_baseline (e : AccountStreamEvent) : bool :=
  match e with Baseline _ => true | _ => false end.

Lemma wrapped_event k e : wrapped k e = true → is_baseline e = false.
Proof. by destruct e. Qed.

Lemma wrapped_other k k' e : k ≠ k' → wrapped k e = true → wrapped k' e = false.
Proof. destruct e; cbn; [done|..]; destruct k, k'; vm_compute; congruence. Qed.

(** Events on their way are of the reader that decoded them. *)
Definition reader_event (r : Reader) : option AccountStreamEvent :=
  match r with RGot e | RSend e => Some e | _ => None end.
Definition forwarder_event (f : Forwarder) : option AccountStreamEvent :=
  match f with FEvent e | FTell e => Some e | _ => None end.

Record event_inv (p : Pair) : Prop := {
  ev_reader k e : reader_event (pr_reader p k) = Some e → wrapped k e = true;
  ev_channel e : Event e ∈ pr_channel p → is_baseline e = false;
  ev_forwarder e : forwarder_event (pr_forwarder p) = Some e → is_baseline e = false;
}.

Lemma event_new c : event_inv (pair_new c).
Proof. split; cbn; try done. by intros e ?%not_elem_of_nil. Qed.

Lemma event_step c p p' o : event_inv p → exec c p = Some (p', o) → event_inv p'.
Proof.
  intros Hi H. revert Hi. exec_cases H; intros [I1 I2 I3].
  all: split; pair_cbn; try assumption; places; cbn [forwarder_event] in *.
  all: try (intros; updated; eauto 2; fail).
  all: try (intros ? [?| [=]]%elem_of_snoc; by eauto 2).
  all: try (intros e' He; apply (I2 e'); by apply list_elem_of_further).
  all: try (intros e' [= <-]; apply (I2 event); by left).
  all: try (by intros e' ?%not_elem_of_nil).
  - intros k' e' He. updated; [|by eauto 2]. apply I1.
    by match goal with Hr : pr_reader _ _ = _ |- _ => rewrite Hr end.
  - intros e' [He| [= ->]]%elem_of_snoc; [by eauto 2|]. apply (wrapped_event k), I1.
    by match goal with Hr : pr_reader _ _ = _ |- _ => rewrite Hr end.
Qed.

(** The baseline was asked for when both streams had been accepted. *)
Definition both_open (t : list Observation) : Prop := ∀ k, Accepted k ∈ t.
Definition asked_open (t : list Observation) (b : AccountSyncState) : Prop :=
  ∃ t1 t2, t = t1 ++ Asked (Ok b) :: t2 ∧ both_open t1.

Definition baseline_of (f : Forwarder) : option AccountSyncState :=
  match f with FAsked b | FBaseline b => Some b | _ => None end.
Definition before_baseline (f : Forwarder) : bool :=
  match f with FAsk | FAsked _ | FBaseline _ => true | _ => false end.

(** Nothing, or one baseline, asked for when both streams were open, and then events *)
Definition baseline_first (t : list Observation) : Prop :=
  ∃ t1 b t2, t = t1 ++ Told (Baseline b) :: t2 ∧ told t1 = [] ∧ asked_open t1 b ∧
    Forall (λ e, is_baseline e = false) (told t2).

Record told_inv (t : list Observation) (p : Pair) : Prop := {
  ti_none : pr_delivered p = false → told t = [];
  ti_first : pr_delivered p = true → baseline_first t;
  ti_reader k : pr_reader p k = RAnnounce → Accepted k ∈ t;
  ti_channel k : Connected k ∈ pr_channel p → Accepted k ∈ t;
  ti_connected k : pr_connected p k = true → Accepted k ∈ t;
  ti_before : before_baseline (pr_forwarder p) = true → pr_delivered p = false ∧ both_open t;
  ti_asked b : baseline_of (pr_forwarder p) = Some b → asked_open t b;
}.

Lemma told_app t o : told (t ++ o) = told t ++ told o.
Proof. apply omap_app. Qed.

Lemma asked_open_app t o b : asked_open t b → asked_open (t ++ o) b.
Proof. intros (t1 & t2 & -> & H). exists t1, (t2 ++ o). by rewrite <-(assoc_L (++)). Qed.

Lemma baseline_first_app t o :
  Forall (λ e, is_baseline e = false) (told o) → baseline_first t → baseline_first (t ++ o).
Proof.
  intros Ho (t1 & b & t2 & -> & H1 & H2 & H3). exists t1, b, (t2 ++ o).
  rewrite <-(assoc_L (++)), told_app. split; [done|]. split; [done|]. split; [done|]. by apply Forall_app.
Qed.

Lemma told_new c : told_inv [] (pair_new c).
Proof. split; cbn; try done. by intros e ?%not_elem_of_nil. Qed.

(** A step that neither tells nor delivers *)
Lemma told_quiet t o p p' :
  told o = [] → pr_delivered p' = pr_delivered p →
  (∀ k, pr_reader p' k = RAnnounce → pr_reader p k = RAnnounce ∨ o = [Accepted k]) →
  (∀ k, Connected k ∈ pr_channel p' → Connected k ∈ pr_channel p ∨ pr_reader p k = RAnnounce) →
  (∀ k, pr_connected p' k = true → pr_connected p k = true ∨ Connected k ∈ pr_channel p) →
  (before_baseline (pr_forwarder p') = true →
   before_baseline (pr_forwarder p) = true ∨ (pr_delivered p = false ∧ ∀ k, pr_connected p' k = true)) →
  (∀ b, baseline_of (pr_forwarder p') = Some b → baseline_of (pr_forwarder p) = Some b ∨
     (before_baseline (pr_forwarder p) = true ∧ o = [Asked (Ok b)])) →
  told_inv t p → told_inv (t ++ o) p'.
Proof.
  intros Ho Hd H3 H4 H5 H6 H7 [I1 I2 I3 I4 I5 I6 I7].
  assert (Hl : ∀ k, Accepted k ∈ t → Accepted k ∈ t ++ o) by set_solver.
  assert (Hc : ∀ k, pr_connected p' k = true → Accepted k ∈ t ++ o).
  { intros k [?%I5|?%I4]%H5; by apply Hl. }
  split.
  - rewrite Hd, told_app, Ho, app_nil_r. done.
  - rewrite Hd. intros ?%I2. apply baseline_first_app; [|done]. by rewrite Ho.
  - intros k [?%I3| ->]%H3; [by apply Hl|]. set_solver.
  - intros k [?%I4|?%I3]%H4; by apply Hl.
  - done.
  - rewrite Hd. intros [[? Hb]%I6|[? Hk]]%H6; (split; [done|]); intros k; [apply Hl, Hb|apply Hc, Hk].
  - intros b [?%I7|[[_ Hb]%I6 ->]]%H7; [by apply asked_open_app|]. by exists t, [].
Qed.

Lemma told_step c t p p' o :
  event_inv p → barrier_inv p → told_inv t p → exec c p = Some (p', o) → told_inv (t ++ o) p'.
Proof.
  intros He Hb Hi H. revert He Hb Hi. exec_cases H; intros He Hb Hi.
  all: try (refine (told_quiet t _ _ _ _ _ _ _ _ _ _ Hi); [done|done|..]; clear Hi; pair_cbn; places;
            cbn [before_baseline baseline_of] in *).
  all: try (intros; updated; eauto 2; fail).
  all: try (intros ? [?| [=]]%elem_of_snoc; simplify_eq; by eauto 2).
  all: try (intros k' Hk; left; by apply list_elem_of_further).
  all: try (by intros e' ?%not_elem_of_nil).
  1,3: intros k' Hk; unfold upd in Hk; case_decide; [subst; right; by left|by left].
  - intros _. right. split; [done|]. by intros [].
  - intros b [= <-]. by right.
  - destruct Hi as [I1 I2 I3 I4 I5 I6 I7]. places. destruct (I6 eq_refl) as [Hd Hop].
    assert (Hl : ∀ k, Accepted k ∈ t ++ [Told (Baseline b)]) by (intros k; apply elem_of_app; auto).
    split; pair_cbn; try done. intros _. exists t, b, []. split_and!; auto.
  - destruct Hi as [I1 I2 I3 I4 I5 I6 I7]. places.
    assert (Hl : ∀ k, Accepted k ∈ t → Accepted k ∈ t ++ [Told e]) by set_solver.
    assert (Hd : pr_delivered p = true) by (apply (bi_tell _ Hb); by rewrite H1).
    split; pair_cbn; try (by eauto); [congruence|]. intros _. apply baseline_first_app; [|by auto].
    constructor; [|constructor]. apply (ev_forwarder _ He). by rewrite H1.
Qed.

(** ** Events of one stream stay in order *)

Definition chosen (k : StreamKind) (e : AccountStreamEvent) : list AccountStreamEvent :=
  if wrapped k e then [e] else [].
Definition queued (k : StreamKind) (l : list AccountConnectionMessage) : list AccountStreamEvent :=
  l ≫= λ m, match m with Event e => chosen k e | _ => [] end.
Definition in_hand (k : StreamKind) (f : Forwarder) : list AccountStreamEvent :=
  match f with FEvent e | FTell e => chosen k e | _ => [] end.
Definition unsent (r : Reader) : list AccountStreamEvent :=
  match r with RSend e => [e] | _ => [] end.
Definition told_of (k : StreamKind) (t : list Observation) : list AccountStreamEvent :=
  told t ≫= chosen k.

(** From here on what was not told is dropped. *)
Definition lossy (f : Forwarder) : bool :=
  match f with FReturn _ => true | _ => returned f end.

(** What was decoded and is still on its way *)
Definition on_way (k : StreamKind) (p : Pair) : list AccountStreamEvent :=
  in_hand k (pr_forwarder p) ++ queued k (pr_channel p) ++ unsent (pr_reader p k).

Record in_order (t : list Observation) (p : Pair) (k : StreamKind) : Prop := {
  io_told : told_of k t `prefix_of` decoded k t;
  io_way : lossy (pr_forwarder p) = false → decoded k t = told_of k t ++ on_way k p;
}.

Lemma told_of_app k t o : told_of k (t ++ o) = told_of k t ++ told_of k o.
Proof. unfold told_of. by rewrite told_app, bind_app. Qed.
Lemma decoded_app k t o : decoded k (t ++ o) = decoded k t ++ decoded k o.
Proof. apply omap_app. Qed.
Lemma queued_app k l m : queued k (l ++ [m]) = queued k l ++ queued k [m].
Proof. apply bind_app. Qed.

Lemma lossy_step c p p' o :
  exec c p = Some (p', o) →
  (lossy (pr_forwarder p') = false → lossy (pr_forwarder p) = false) ∧
  (lossy (pr_forwarder p) = true → told o = []).
Proof. intros H. exec_cases H; places; by cbn [lossy returned] in *. Qed.

Lemma not_lossy p : barrier_inv p → lossy (pr_forwarder p) = false → pr_receiver p = true.
Proof. intros Hb Hl. rewrite (bi_receiver _ Hb). by destruct (pr_forwarder p). Qed.

Lemma way_step c p p' o k :
  event_inv p → barrier_inv p → exec c p = Some (p', o) → lossy (pr_forwarder p) = false →
  (told_of k o ≠ [] → lossy (pr_forwarder p') = false) ∧
  (lossy (pr_forwarder p') = false → on_way k p ++ decoded k o = told_of k o ++ on_way k p').
Proof.
  intros He Hb H. unfold on_way.
  exec_cases H; places; cbn [lossy returned]; intros Hl; (split; [done|]); intros Hl'; try done.
  all: cbn [in_hand app]; rewrite ?queued_app, ?app_nil_r;
    unfold told_of; cbn [queued mbind list_bind app decoded told omap list_omap]; rewrite ?app_nil_r; try done.
  all: try (unfold upd; case_decide; [subst|done]; match goal with Hr : pr_reader _ _ = _ |- _ => by rewrite Hr end).
  - unfold upd. repeat case_decide; subst; try congruence; rewrite <-!(assoc_L (++)).
    + match goal with Hr : pr_reader _ _ = _ |- _ => by rewrite Hr end.
    + by rewrite app_nil_r.
  - assert (Hw : wrapped k0 e = true).
    { apply (ev_reader _ He). match goal with Hr : pr_reader _ _ = _ |- _ => by rewrite Hr end. }
    unfold upd, chosen. case_decide; subst; rewrite <-!(assoc_L (++)).
    + rewrite Hw. match goal with Hr : pr_reader _ _ = _ |- _ => by rewrite Hr end.
    + by rewrite (wrapped_other k0 k e).
  - apply (not_lossy _ Hb) in Hl. congruence.
  - by rewrite <-(assoc_L (++)).
Qed.

Lemma order_step c t p p' o k :
  event_inv p → barrier_inv p → in_order t p k → exec c p = Some (p', o) → in_order (t ++ o) p' k.
Proof.
  intros He Hb [I1 I2] H. destruct (lossy_step _ _ _ _ H) as [Hl Ht].
  assert (Hdone : told_of k o = [] → told_of k (t ++ o) `prefix_of` decoded k (t ++ o)).
  { intros Ho. rewrite told_of_app, decoded_app, Ho, app_nil_r. by apply prefix_app_r. }
  destruct (lossy (pr_forwarder p)) eqn:El.
  { split; [apply Hdone; unfold told_of; by rewrite Ht|]. intros ?%Hl. done. }
  destruct (way_step _ _ _ _ k He Hb H El) as [Ho Hw].
  assert (Hfull : lossy (pr_forwarder p') = false →
    decoded k (t ++ o) = told_of k (t ++ o) ++ on_way k p').
  { intros Hn. rewrite told_of_app, decoded_app, I2, <-!(assoc_L (++)) by done. by rewrite Hw. }
  split; [|done]. destruct (decide (told_of k o = [])) as [E|E]; [by apply Hdone|].
  rewrite Hfull by auto. by apply prefix_app_r.
Qed.

Lemma order_new c k : in_order [] (pair_new c) k.
Proof. split; [apply prefix_nil|done]. Qed.

Lemma run_invs c cs p t :
  run cs (pair_new c) = Some (p, t) →
  barrier_inv p ∧ event_inv p ∧ told_inv t p ∧ ∀ k, in_order t p k.
Proof.
  apply (run_invariant (λ t p, barrier_inv p ∧ event_inv p ∧ told_inv t p ∧ ∀ k, in_order t p k)).
  - split_and!; [apply barrier_new|apply event_new|apply told_new|intros; apply order_new].
  - intros t' p1 ch p2 o (H1 & H2 & H3 & H4) H. split_and!;
      [by eapply barrier_step|by eapply event_step|by eapply told_step|intros; by eapply order_step].
Qed.

(** C11 [baseline_barrier]: whatever the threads' timing and whatever the network and the
    callbacks answer, the caller is told nothing, or first one baseline, which was asked for
    when both streams had been accepted, and then events only; the events it is told of
    each stream are a prefix of what the stream's reader decoded, in the same order; and the
    error that an event crossed the barrier is never returned. *)
Theorem baseline_barrier c cs p t :
  run cs (pair_new c) = Some (p, t) →
  (told t = [] ∨ baseline_first t) ∧
  (∀ k, told_of k t `prefix_of` decoded k t) ∧
  (∀ e answer p' o i, pr_forwarder p = FEvent e → exec (Forwards answer) p = Some (p', o) →
     pr_forwarder p' ≠ FReturn (ConnectionError crossed_barrier i)).
Proof.
  intros (Hb & He & Ht & Ho)%run_invs. split; [|split].
  - destruct (pr_delivered p) eqn:E; [right; by apply (ti_first _ _ Ht)|left; by apply (ti_none _ _ Ht)].
  - intros k. apply (io_told _ _ _ (Ho k)).
  - intros e answer p' o i Hf. cbn. unfold forwarder_step. rewrite Hf. destruct answer; try done.
    intros [= <- <-]. cbn. destruct (bi_received _ Hb e Hf) as [-> | ->]; by destruct (is_cancelled p).
Qed.

(** ** Wake-ups *)

Definition signals (t : list Observation) : nat :=
  length (omap (λ o, match o with Signalled => Some tt | _ => None end) t).

Lemma signals_app t o : signals (t ++ o) = (signals t + signals o)%nat.
Proof. unfold signals. by rewrite omap_app, length_app. Qed.

(** The revision after [m] signals *)
Definition revision_after (r0 : Z) (m : nat) : Z := (r0 + Z.of_nat m) mod 2 ^ 64.

Lemma revision_after_S r0 m : u64_wrapping_add (revision_after r0 m) 1 = revision_after r0 (m + 1).
Proof.
  unfold u64_wrapping_add, revision_after. rewrite Zplus_mod_idemp_l. f_equal. lia.
Qed.

Lemma revision_after_inj r0 m n :
  (m ≤ n)%nat → Z.of_nat n < 2 ^ 64 → revision_after r0 m = revision_after r0 n → m = n.
Proof.
  unfold revision_after. intros Hle Hn He.
  assert (Hm : (Z.of_nat n - Z.of_nat m) mod 2 ^ 64 = 0).
  { replace (Z.of_nat n - Z.of_nat m) with ((r0 + Z.of_nat n) - (r0 + Z.of_nat m)) by lia.
    by rewrite Zminus_mod, He, Z.sub_diag. }
  rewrite Z.mod_small in Hm by lia. lia.
Qed.

(** The reader has sent a message and is about to signal it. *)
Definition signalling (r : Reader) : bool :=
  match r with RAnnounced | RSent | RDrop => true | _ => false end.
(** The caller has stopped the reader and is about to signal it. *)
Definition waking (k : StreamKind) (f : Forwarder) : bool :=
  match f with FClose k' _ | FWake k' _ => bool_decide (k' = k) | _ => false end.

(** Nothing to do for a waiting reader, or a signal on its way *)
Definition calm (k : StreamKind) (p : Pair) : Prop :=
  (pr_ready p = false ∨ pr_forwarder p = FSignal) ∧
  (pr_stop p k = false ∨ waking k (pr_forwarder p) = true).

Record wake_inv (r0 : Z) (n : nat) (p : Pair) : Prop := {
  wk_revision : revision (pr_cancellation p) = revision_after r0 n;
  wk_receive o : pr_forwarder p = FReceive o → ∃ m, (m ≤ n)%nat ∧ o = revision_after r0 m;
  wk_forwarder o : pr_forwarder p = FSleep o → ∃ m, (m ≤ n)%nat ∧ o = revision_after r0 m ∧
    ((m < n)%nat ∨ pr_channel p = [] ∨ ∃ k, signalling (pr_reader p k) = true);
  wk_retest k o : pr_reader p k = RRetest o → ∃ m, (m ≤ n)%nat ∧ o = revision_after r0 m;
  wk_reader k o : pr_reader p k = RSleep o → ∃ m, (m ≤ n)%nat ∧ o = revision_after r0 m ∧
    ((m < n)%nat ∨ calm k p);
}.

Lemma wake_signal r0 n p p' :
  revision (pr_cancellation p') = u64_wrapping_add (revision (pr_cancellation p)) 1 →
  (∀ o, pr_forwarder p' = FReceive o ∨ pr_forwarder p' = FSleep o → pr_forwarder p' = pr_forwarder p) →
  (∀ k o, pr_reader p' k = RRetest o ∨ pr_reader p' k = RSleep o → pr_reader p' k = pr_reader p k) →
  wake_inv r0 n p → wake_inv r0 (n + 1) p'.
Proof.
  intros Hrev Hf Hr [I1 I2 I3 I4 I5]. split.
  - by rewrite Hrev, I1, revision_after_S.
  - intros o Ho. destruct (I2 o) as (m & ? & ->); [rewrite <-(Hf o); auto|]. exists m. split; [lia|done].
  - intros o Ho. destruct (I3 o) as (m & ? & -> & _); [rewrite <-(Hf o); auto|].
    exists m. split; [lia|]. split; [done|]. left. lia.
  - intros k o Ho. destruct (I4 k o) as (m & ? & ->); [rewrite <-(Hr k o); auto|]. exists m. split; [lia|done].
  - intros k o Ho. destruct (I5 k o) as (m & ? & -> & _); [rewrite <-(Hr k o); auto|].
    exists m. split; [lia|]. split; [done|]. left. lia.
Qed.

Lemma wake_quiet r0 n p p' :
  revision (pr_cancellation p') = revision (pr_cancellation p) →
  (∀ o, pr_forwarder p' = FReceive o → pr_forwarder p = FReceive o ∨ o = revision (pr_cancellation p)) →
  (∀ o, pr_forwarder p' = FSleep o → (pr_forwarder p = FReceive o ∧ pr_channel p' = []) ∨
     (pr_forwarder p = FSleep o ∧ (pr_channel p' = pr_channel p ∨ ∃ k, signalling (pr_reader p' k) = true))) →
  (∀ k, signalling (pr_reader p k) = true → signalling (pr_reader p' k) = true) →
  (∀ k o, pr_reader p' k = RRetest o → pr_reader p k = RRetest o ∨ o = revision (pr_cancellation p)) →
  (∀ k o, pr_reader p' k = RSleep o → (pr_reader p k = RRetest o ∧ calm k p') ∨
     (pr_reader p k = RSleep o ∧ (calm k p → calm k p'))) →
  wake_inv r0 n p → wake_inv r0 n p'.
Proof.
  intros Hrev H2 H3 Hs H4 H5 [I1 I2 I3 I4 I5]. split.
  - by rewrite Hrev.
  - intros o [Ho| ->]%H2; [by apply I2|]. exists n. by rewrite I1.
  - intros o [[Ho Hc]|[Ho Hc]]%H3.
    + destruct (I2 o Ho) as (m & ? & ->). exists m. auto.
    + destruct (I3 o Ho) as (m & ? & -> & Hm). exists m. split; [done|]. split; [done|].
      destruct Hm as [?|[?|[k Hk]]]; [by left|..].
      * right. destruct Hc as [Hc|?]; [left; congruence|by right].
      * right. right. eauto.
  - intros k o [Ho| ->]%H4; [by apply (I4 k)|]. exists n. by rewrite I1.
  - intros k o [[Ho Hc]|[Ho Hc]]%H5.
    + destruct (I4 k o Ho) as (m & ? & ->). exists m. auto.
    + destruct (I5 k o Ho) as (m & ? & -> & [?|?]); exists m; auto.
Qed.

Lemma wake_step c r0 n p p' o :
  wake_inv r0 n p → exec c p = Some (p', o) → wake_inv r0 (n + signals o) p'.
Proof.
  intros Hi H. revert Hi. exec_cases H; intros Hi.
  all: try (change (signals [Signalled]) with 1%nat; refine (wake_signal _ _ _ _ _ _ _ Hi);
            pair_cbn; [done|by intros; updated; naive_solver|intros; updated; naive_solver]).
  all: try (match goal with |- wake_inv _ (_ + signals ?o) _ => change (signals o) with 0%nat end;
            rewrite Nat.add_0_r; refine (wake_quiet _ _ _ _ _ _ _ _ _ _ Hi); clear Hi; unfold calm; pair_cbn;
            places; cbn [waking signalling]; try done).
  all: try (intros; updated; eauto 3; fail).
  all: try (intros k' Hk; unfold upd; case_decide; [subst|done];
            match goal with Hr : pr_reader _ _ = _ |- _ => by rewrite Hr in Hk end).
  all: try (intros o Ho; right; split; [done|]; first [by left | right; exists k; by rewrite upd_eq]).
  all: try (intros k' o Ho; right; split; [done|]; intros [[?|[=]] [?|[=]]]; by auto).
  - intros k' o Ho. unfold upd in Ho. case_decide; [simplify_eq; left; by auto|right; by auto].
  - intros k' o Ho. right. split; [done|]. intros [[?|[=]] [?|[=]]]. split; [by left|].
    unfold upd. case_decide; subst; [right; by rewrite bool_decide_true|by left].
  - unfold cancel. by destruct (cancelled (pr_cancellation p)).
  - change (signals [Signalled]) with 1%nat. refine (wake_signal _ _ _ _ _ _ _ Hi); [|done..]. cbn.
    unfold cancel. by destruct (cancelled (pr_cancellation p)).
Qed.

(** ** The end of a stream is announced *)

Definition over (r : Reader) : bool := match r with RDrop | RDone => true | _ => false end.

Definition end_inv (p : Pair) : Prop :=
  lossy (pr_forwarder p) = false → ∀ k, over (pr_reader p k) = true → ∃ c, Finished k c ∈ pr_channel p.

Lemma end_step c p p' o : barrier_inv p → end_inv p → exec c p = Some (p', o) → end_inv p'.
Proof.
  intros Hb Hi H. unfold end_inv in *. revert Hb Hi.
  exec_cases H; intros Hb Hi; places; cbn [lossy returned over] in *; try done.
  all: try (intros Hl k' Hk; specialize (Hi Hl k'); updated; by auto).
  1,2: intros Hl k' Hk; unfold upd in Hk; case_decide; [done|];
       destruct (Hi Hl k' Hk) as [c0 Hc]; exists c0; apply elem_of_snoc; by left.
  4-6: intros Hl k' Hk; destruct (Hi Hl k' Hk) as [c1 [[=]|Hc]%elem_of_cons]; by exists c1.
  - intros Hl. apply (not_lossy _ Hb) in Hl. congruence.
  - intros Hl k' Hk. unfold upd in Hk. case_decide.
    + subst. exists c0. apply elem_of_snoc. by right.
    + destruct (Hi Hl k' Hk) as [c1 Hc]. exists c1. apply elem_of_snoc. by left.
  - intros Hl k' Hk. apply (Hi Hl). unfold upd in Hk. case_decide; [subst|done].
    by match goal with Hr : pr_reader _ _ = _ |- _ => rewrite Hr end.
Qed.

Lemma run_wakes c cs p t :
  in_u64 (revision c) → run cs (pair_new c) = Some (p, t) →
  barrier_inv p ∧ end_inv p ∧ wake_inv (revision c) (signals t) p.
Proof.
  intros Hc.
  apply (run_invariant (λ t p, barrier_inv p ∧ end_inv p ∧ wake_inv (revision c) (signals t) p)).
  - split; [apply barrier_new|]. split; [done|]. split; cbn; try done.
    unfold revision_after. cbn. rewrite Z.add_0_r, Z.mod_small; [done|]. unfold in_u64, u64_max in Hc. lia.
  - intros t' p1 ch p2 o (H1 & H2 & H3) H. split; [by eapply barrier_step|].
    split; [by eapply end_step|]. rewrite signals_app. by eapply wake_step.
Qed.

(** C25 [no_missed_wakeup]: as long as there were fewer than 2^64 signals, a thread that sleeps
    has nothing to do or a signal is on its way: when the caller sleeps, a reader is about
    to signal, or the channel is empty and a stream is still going; when a reader sleeps
    before the barrier, the baseline is not out or its signal is next, and the reader is not
    stopped or its signal is next. *)
Theorem no_missed_wakeup c cs p t :
  in_u64 (revision c) → run cs (pair_new c) = Some (p, t) → Z.of_nat (signals t) < 2 ^ 64 →
  (∀ o, pr_forwarder p = FSleep o → waits (pr_cancellation p) o = true →
     (∃ k, signalling (pr_reader p k) = true) ∨
     (pr_channel p = [] ∧ ∀ k, over (pr_reader p k) = false)) ∧
  (∀ k o, pr_reader p k = RSleep o → waits (pr_cancellation p) o = true →
     is_cancelled p = false ∧ (pr_ready p = false ∨ pr_forwarder p = FSignal) ∧
     (pr_stop p k = false ∨ waking k (pr_forwarder p) = true)).
Proof.
  intros Hc Hr Hn. apply run_wakes in Hr as (Hb & He & [W1 _ W3 _ W5]); [|done].
  assert (Hm : ∀ o m, waits (pr_cancellation p) o = true → (m ≤ signals t)%nat →
    o = revision_after (revision c) m → is_cancelled p = false ∧ ¬ (m < signals t)%nat).
  { unfold waits, is_cancelled. intros o m [Hw%negb_true_iff Ho%bool_decide_eq_true]%andb_true_iff Hle ->.
    split; [done|]. rewrite W1 in Ho. symmetry in Ho. apply revision_after_inj in Ho; lia. }
  split.
  - intros o Ho Hw. destruct (W3 o Ho) as (m & Hle & Heq & Hor).
    destruct (Hm o m Hw Hle Heq) as [_ Hlt]. destruct Hor as [?|[Hch|?]]; [done| |by left].
    right. split; [done|]. intros k. destruct (over (pr_reader p k)) eqn:E; [|done].
    unfold end_inv in He. rewrite Ho in He. destruct (He eq_refl k E) as [c' Hin].
    rewrite Hch in Hin. by apply not_elem_of_nil in Hin.
  - intros k o Ho Hw. destruct (W5 k o Ho) as (m & Hle & Heq & Hor).
    destruct (Hm o m Hw Hle Heq) as [Hnc Hlt]. by destruct Hor.
Qed.
