(* ===== verification/DeviceExamples.v ===== *)
(** * DeviceExamples: the event streams at concrete inputs

    A name with three addresses, turns of the reconnecting loop, a body cut in the middle of a
    line, and two runs of the reader threads, with the theorems at these inputs. *)

From Stdlib Require Import ZArith Lia.
From S2P Require Import Prelude RustStd CloudCore PlaytimeDownlink CumulusClient DeviceStream.
From S2P Require Import DeviceStreamProofs DevicePair DevicePairProofs.

Local Open Scope Z_scope.

(** ** Connecting and reconnecting *)

Definition unanswered (_ : nat) (budget : option Z) : result IoErrorKind (result IoErrorKind unit) * Z :=
  (Err TimedOut, default 0 budget).

Example three_addresses :
  tcp_connect unanswered (Some 9000) 3 = (Err TimeoutError, 9000, [0; 1; 2]%nat).
Proof. reflexivity. Qed.

Lemma connect_keeps_deadline_witness :
  0 ≤ 9000 ≤ 9000 ∧ [0; 1; 2]%nat `prefix_of` seq 0 3 ∧
  ((∀ n b, ∃ kind, (unanswered n b).1 = Err kind) → Z.of_nat 3 ≤ Z.min u32_max 9000 →
   [0; 1; 2]%nat = seq 0 3).
Proof.
  refine (connect_keeps_deadline unanswered _ 9000 3 (Err TimeoutError) 9000 [0; 1; 2]%nat _ eq_refl).
  - intros n budget Hb. cbn. lia.
  - lia.
Defined.

Definition turn (c : Connection) : Attempt :=
  {| at_cancelled := false; at_connection := c; at_cancelled_waiting := false |}.
Definition turns : list Attempt :=
  [turn (Disconnected false); turn (Disconnected false); turn (Disconnected true);
   turn (Disconnected false); turn (ConnectionError snapshot_too_large false)].

Lemma reconnects_back_off_witness :
  [1; 2; 1; 2] = (λ d, d / SECOND) <$> (run_account BACKOFF_INITIAL turns).1 ∧
  (run_account BACKOFF_INITIAL turns).1 `prefix_of` expected_delays 0 turns ∧
  Forall (λ d, 1 * SECOND ≤ d ≤ 30 * SECOND) (run_account BACKOFF_INITIAL turns).1 ∧
  account_ended turns (run_account BACKOFF_INITIAL turns).1 (run_account BACKOFF_INITIAL turns).2.
Proof.
  split; [vm_compute; reflexivity|].
  exact (reconnects_back_off turns _ _ (surjective_pairing _)).
Defined.

(** ** A body in three reads *)

Definition echo (l : list Z) : result string (list Z) := Ok l.
Definition always (_ : nat) : bool := true.

Definition sent : list SentItem :=
  [SentComment (str_bytes " hello"); SentEvent (str_bytes "{1}"); SentEvent (str_bytes "{2}")].
Definition sent_all : list Z := concat (sent_bytes playtime_spec <$> sent).
Definition body : list Read :=
  [Bytes (take 17 sent_all); Bytes (take 31 (drop 17 sent_all)); Bytes (drop 48 sent_all)].

Lemma body_well_read : well_read body.
Proof. repeat constructor; vm_compute; discriminate. Qed.

Lemma stream_read_whole_witness :
  connect_once_blocking echo always playtime_spec (Ok (200, body)) =
    Some (true, (read_bytes echo always playtime_spec frame_new (joined body).1 (joined body).2).1,
          (read_bytes echo always playtime_spec frame_new (joined body).1 (joined body).2).2).
Proof. exact (stream_read_whole echo always playtime_spec 200 body body_well_read ltac:(lia)). Defined.


(** ** The threads *)

Definition the_baseline : AccountSyncState := {|
  acc_stats_crcs := []; acc_playtime_revision := 3; acc_achievements := []; acc_stats := [];
  acc_playtime := [] |}.
Definition the_wakeup : AccountStreamEvent :=
  StatsWakeup {| aw_steam_id64 := "76561198000000001"; aw_origin_client_id := None; aw_app_ids := [480] |}.

Definition steps (n : nat) (c : Choice) : list Choice := replicate n c.
Definition reader_goes (k : StreamKind) (n : nat) : list Choice := steps n (Reads k Nothing).
Definition caller_goes (n : nat) : list Choice := steps n (Forwards Nothing).

(** Both streams are accepted; the readers wait at the barrier. *)
Definition opening : list Choice :=
  caller_goes 3 ++ [Reads Stats Accept; Reads Playtime Accept] ++ reader_goes Stats 5
  ++ reader_goes Playtime 2 ++ caller_goes 1.
(** The caller takes the baseline and lets them go on; one event arrives. *)
Definition delivering : list Choice :=
  caller_goes 6 ++ [Forwards (Snapshot (Ok the_baseline))] ++ caller_goes 4
  ++ reader_goes Stats 3 ++ [Reads Stats (Message the_wakeup)] ++ reader_goes Stats 3
  ++ caller_goes 5.

Definition start : Pair := pair_new stream_cancellation_new.
Definition after (cs : list Choice) : Pair * list Observation :=
  default (start, []) (run cs start).

Example opened : pr_reader (after opening).1 Stats = RSleep 1 ∧ pr_channel (after opening).1 ≠ [].
Proof. vm_compute. split; [reflexivity|discriminate]. Qed.
Example delivered : told (after (opening ++ delivering)).2 = [Baseline the_baseline; the_wakeup].
Proof. vm_compute. reflexivity. Qed.

Lemma baseline_barrier_witness :
  let '(p, t) := after (opening ++ delivering) in
  (told t = [] ∨ baseline_first t) ∧
  (∀ k, told_of k t `prefix_of` decoded k t) ∧
  (∀ e answer p' o i, pr_forwarder p = FEvent e → exec (Forwards answer) p = Some (p', o) →
     pr_forwarder p' ≠ FReturn (ConnectionError crossed_barrier i)).
Proof.
  destruct (after (opening ++ delivering)) as [p t] eqn:E.
  refine (baseline_barrier stream_cancellation_new (opening ++ delivering) p t _).
  rewrite <-E. vm_compute. reflexivity.
Defined.

Lemma no_missed_wakeup_witness :
  let '(p, t) := after opening in
  (∀ o, pr_forwarder p = FSleep o → waits (pr_cancellation p) o = true →
     (∃ k, signalling (pr_reader p k) = true) ∨
     (pr_channel p = [] ∧ ∀ k, over (pr_reader p k) = false)) ∧
  (∀ k o, pr_reader p k = RSleep o → waits (pr_cancellation p) o = true →
     is_cancelled p = false ∧ (pr_ready p = false ∨ pr_forwarder p = FSignal) ∧
     (pr_stop p k = false ∨ waking k (pr_forwarder p) = true)).
Proof.
  destruct (after opening) as [p t] eqn:E.
  refine (no_missed_wakeup stream_cancellation_new opening p t _ _ _).
  - vm_compute. split; discriminate.
  - rewrite <-E. vm_compute. reflexivity.
  - change t with (p, t).2. rewrite <-E. vm_compute. reflexivity.
Defined.
