(* ===== verification/WorkerContext.v ===== *)
(** * WorkerContext: what the synchronisation workers share

    The interface [CloudBackend] of [cloud-core/src/backend.rs], the choice of the backend
    ([hooks/src/cloud_backend.rs]), the cache of principals ([hooks/src/sync_journal.rs]) and
    the values that identify the runtime ([playtime_downlink.rs], [features/src/identity.rs]).

    A [Context] is what the process-wide variables hold at one moment. The workers read it
    piece by piece while other threads change it; [PlaytimeWorker] says how. One function
    below reads it at one moment. *)

From Stdlib Require Import ZArith Lia.
From S2P Require Import Prelude RustStd CloudCore Apps PlaytimeDownlink Storage JournalRecord SyncJournal.
From S2P Require CumulusClient CloudSettings.
Import CumulusClient(BackendSchemaOutcome).
Import CloudSettings(CloudSection, cl_local, cl_cumulus, lc_path, cc_server_url, cc_token,
  cc_timeout_connect_ms, cc_timeout_ms).

Local Open Scope Z_scope.

(** ** [trait CloudBackend]

    A backend is a record of its operations. [Srv] is what lies behind it, a folder or a
    service; an operation may change it whether it succeeds or not. *)
Record CloudBackend (Srv : Type) := {
  cb_endpoint_scope : string;
  cb_principal_scope : Srv → result BackendError string * Srv;
  cb_credential_fingerprint : string;
  cb_ensure_device_bound : DeviceDescriptor → Srv → result BackendError unit * Srv;
  cb_accepts_achievement_schemas : bool;
  cb_upload_achievement_schema :
    AchievementSchema → Srv → result BackendError BackendSchemaOutcome * Srv;
  cb_upload_playtime :
    Z → string → list PlaytimeEntry → Srv → result BackendError unit * Srv;
  cb_upload_steam_app_snapshot :
    UploadIdentity → SteamAppSnapshot → Srv → result BackendError SteamStateUploadResult * Srv;
  cb_pull_account_state : Z → string → Srv → result BackendError AccountSyncState * Srv;
  cb_pull_app_stats :
    Z → string → AppStatsQuery → Srv → result BackendError AppStatsResult * Srv;
}.
Arguments cb_endpoint_scope {Srv} _.
Arguments cb_principal_scope {Srv} _.
Arguments cb_credential_fingerprint {Srv} _.
Arguments cb_ensure_device_bound {Srv} _.
Arguments cb_accepts_achievement_schemas {Srv} _.
Arguments cb_upload_achievement_schema {Srv} _.
Arguments cb_upload_playtime {Srv} _.
Arguments cb_upload_steam_app_snapshot {Srv} _.
Arguments cb_pull_account_state {Srv} _.
Arguments cb_pull_app_stats {Srv} _.

(** ** The configured backend ([cloud_backend.rs]) *)

Inductive BackendKey :=
| KeyLocal (path : string)
| KeyCumulus (credential_fingerprint : list Z) (timeout_connect_ms timeout_ms : Z).
#[export] Instance BackendKey_eq_dec : EqDecision BackendKey.
Proof. solve_decision. Defined.

Record CachedBackend (Srv : Type) := { cb_key : BackendKey; cb_backend : CloudBackend Srv }.
Arguments cb_key {Srv} _.
Arguments cb_backend {Srv} _.

Section context.
Context {Srv : Type} (sha256 : list Z → list Z).

Definition backend_key (c : CloudSection) : option BackendKey :=
  if CloudSettings.local_cloud_configured c then Some (KeyLocal (lc_path (cl_local c)))
  else if CloudSettings.cumulus_configured c then
    Some (KeyCumulus
      (credential_fingerprint sha256 (cc_server_url (cl_cumulus c)) (cc_token (cl_cumulus c)))
      (cc_timeout_connect_ms (cl_cumulus c)) (cc_timeout_ms (cl_cumulus c)))
  else None.

(** [refresh]: the new contents of the static cell. The constructors of the two backends
    are arguments; opening a folder can fail. *)
Definition refresh (local_open : string → result BackendError (CloudBackend Srv))
    (cumulus_new : string → string → Z → Z → CloudBackend Srv) (c : CloudSection)
    : option (CachedBackend Srv) :=
  let key := backend_key c in
  let backend :=
    match key with
    | Some (KeyLocal _) => ok (local_open (lc_path (cl_local c)))
    | Some (KeyCumulus _ _ _) =>
        Some (cumulus_new (cc_server_url (cl_cumulus c)) (cc_token (cl_cumulus c))
                (cc_timeout_connect_ms (cl_cumulus c)) (cc_timeout_ms (cl_cumulus c)))
    | None => None
    end in
  key ← key; backend ← backend; Some {| cb_key := key; cb_backend := backend |}.

(** ** One moment of the process *)

Record Context := {
  cx_config : CloudSection;
  cx_apps : AppsSection;
  cx_backend : option (CachedBackend Srv);    (* [BACKEND] *)
  cx_descriptor : option DeviceDescriptor;
  cx_steam_id : Z;                            (* [identity::steam_id], 0 before a login *)
  cx_identity_generation : Z;
  cx_runtime_generation : Z;
  cx_principals : gmap string string;         (* [PRINCIPAL_CACHE] *)
  cx_unix_now : Z;
}.

Definition backend_context (c : Context) : option (CloudBackend Srv) :=
  key ← backend_key (cx_config c);
  cached ← cx_backend c;
  if bool_decide (cb_key cached = key) then Some (cb_backend cached) else None.

Definition cached_principal_for_credential (c : Context) (credential_fingerprint : string)
    : option string := cx_principals c !! credential_fingerprint.

Definition cached_principal_scope (c : Context) (backend : CloudBackend Srv) : option string :=
  cached_principal_for_credential c (cb_credential_fingerprint backend).

(** [playtime_downlink::current_runtime_key] *)
Definition current_runtime_key (c : Context) : option RuntimeKey :=
  backend ← backend_context c;
  descriptor ← cx_descriptor c;
  if cx_steam_id c =? 0 then None
  else Some {| rk_credential_fingerprint := cb_credential_fingerprint backend;
               rk_steam_id64 := cx_steam_id c;
               rk_identity_generation := cx_identity_generation c;
               rk_client_id := dd_client_id descriptor;
               rk_runtime_generation := cx_runtime_generation c |}.

Definition runtime_key_is_current (c : Context) (key : RuntimeKey) : bool :=
  bool_decide (current_runtime_key c = Some key).

Definition cache_principal (c : Context) (credential_fingerprint scope : string) : Context := {|
  cx_config := cx_config c; cx_apps := cx_apps c; cx_backend := cx_backend c;
  cx_descriptor := cx_descriptor c; cx_steam_id := cx_steam_id c;
  cx_identity_generation := cx_identity_generation c;
  cx_runtime_generation := cx_runtime_generation c;
  cx_principals := <[credential_fingerprint := scope]> (cx_principals c);
  cx_unix_now := cx_unix_now c |}.

(** ** Resolving a principal ([sync_journal.rs])

    Under the resolution lock: the cache, the journal, then the backend. What the backend
    says is stored before it is cached. *)
Context {St : Structsy}.

(** The outcome with the journal, the backend's world and the context afterwards, and
    whether the workers are told that a principal is available. *)
Record Resolution := {
  rs_scope : result BackendError string;
  rs_journal : Database;
  rs_server : Srv;
  rs_context : Context;
  rs_notified : bool;
}.

(** [Display for SyncJournalError] *)
Definition SyncJournalError_text (error : SyncJournalError) : string :=
  match error with
  | Io e => "sync journal filesystem error: " +:+ e
  | StorageError e => "sync journal storage error: " +:+ e
  end.

Definition resolve_principal_scope (shared : bool) (backend : CloudBackend Srv) (c : Context)
    (j : Database) (srv : Srv) : Resolution :=
  let fp := cb_credential_fingerprint backend in
  match cached_principal_for_credential c fp with
  | Some scope => {| rs_scope := Ok scope; rs_journal := j; rs_server := srv; rs_context := c;
                     rs_notified := false |}
  | None =>
      if negb shared then
        {| rs_scope := Err {| be_message := "sync journal unavailable"; be_retryable := true |};
           rs_journal := j; rs_server := srv; rs_context := c; rs_notified := false |}
      else
        match load_backend_principal_scope fp j with
        | Some scope =>
            {| rs_scope := Ok scope; rs_journal := j; rs_server := srv;
               rs_context := cache_principal c fp scope; rs_notified := true |}
        | None =>
            match cb_principal_scope backend srv with
            | (Err e, srv) => {| rs_scope := Err e; rs_journal := j; rs_server := srv;
                                 rs_context := c; rs_notified := false |}
            | (Ok scope, srv) =>
                match store_backend_principal_scope fp scope (cx_unix_now c) j with
                | (Err error, j) =>
                    {| rs_scope := Err {| be_message := "failed to persist backend principal: "
                                            +:+ SyncJournalError_text error;
                                          be_retryable := true |};
                       rs_journal := j; rs_server := srv; rs_context := c;
                       rs_notified := false |}
                | (Ok _, j) =>
                    {| rs_scope := Ok scope; rs_journal := j; rs_server := srv;
                       rs_context := cache_principal c fp scope; rs_notified := true |}
                end
            end
        end
  end.
End context.
Arguments Context : clear implicits.
