(* ===== verification/Backends.v ===== *)
(** * Backends: the two backends behind the workers' interface

    [impl CloudBackend for LocalBackend] ([cloud-local/src/sync.rs]) and [impl CloudBackend for
    CumulusBackend] ([cloud-cumulus/src/port.rs]) as values of [CloudBackend]. *)

From Stdlib Require Import ZArith Lia.
From S2P Require Import Prelude RustStd CloudCore WorkerContext.
From S2P Require LocalSync CumulusClient.
#[local] Existing Instances CumulusClient.Net_ret CumulusClient.Net_bind.

Local Open Scope Z_scope.

(** ** The folder

    The state is the folder and, for every upload to come, which of its atomic replaces fail.
    The numbers of an upload have the width Rust's types give them; an upload of others does
    not exist there and is refused here. *)

Record LocalWorld := {
  lw_folder : LocalSync.Folder;
  lw_faults : list (list (option string));
}.

Section local.
Context (playtime_to_vec : LocalSync.PlaytimeRecord → result string (list Z))
  (playtime_from_slice : list Z → result string LocalSync.PlaytimeRecord)
  (stats_to_vec : LocalSync.SteamAppStateRecord → result string (list Z))
  (stats_from_slice : list Z → result string LocalSync.SteamAppStateRecord)
  (digest : list Z → string)
  (scope : string).

Definition faults_now (s : LocalWorld) : list (option string) := default [] (head (lw_faults s)).
Definition with_folder (s : LocalWorld) (folder : LocalSync.Folder) : LocalWorld :=
  {| lw_folder := folder; lw_faults := tail (lw_faults s) |}.

Definition well_sized (client_id : Z) (entries : list PlaytimeEntry) : bool :=
  bool_decide (0 ≤ client_id ≤ u64_max) &&
  forallb (λ e, bool_decide (0 ≤ pe_app_id e ≤ u32_max)) entries.

Definition local_upload_playtime (client_id : Z) (steam_id64 : string)
    (entries : list PlaytimeEntry) (s : LocalWorld) : result BackendError unit * LocalWorld :=
  if negb (well_sized client_id entries)
  then (Err {| be_message := "number out of range"; be_retryable := false |}, s)
  else
    let '(answer, folder) :=
      LocalSync.upload_playtime playtime_to_vec playtime_from_slice digest (faults_now s)
        (lw_folder s) client_id steam_id64 entries in
    (answer, with_folder s folder).

Definition local_upload_steam_app_snapshot (identity : UploadIdentity)
    (snapshot : SteamAppSnapshot) (s : LocalWorld)
    : result BackendError SteamStateUploadResult * LocalWorld :=
  match LocalSync.upload_steam_app_snapshot stats_to_vec stats_from_slice
          (mjoin (head (faults_now s))) (lw_folder s) identity snapshot with
  | Ok (answer, folder) => (Ok answer, with_folder s folder)
  | Err e => (Err e, with_folder s (lw_folder s))
  end.

Definition local_backend : CloudBackend LocalWorld := {|
  cb_endpoint_scope := scope;
  cb_principal_scope := λ s, (Ok scope, s);
  cb_credential_fingerprint := scope;
  cb_ensure_device_bound := λ d s, (LocalSync.ensure_device_bound d, s);
  cb_accepts_achievement_schemas := false;
  cb_upload_achievement_schema := λ _ s, (Ok CumulusClient.SchemaDeclined, s);
  cb_upload_playtime := local_upload_playtime;
  cb_upload_steam_app_snapshot := local_upload_steam_app_snapshot;
  cb_pull_account_state := λ _ steam_id64 s,
    (LocalSync.pull_account_state playtime_to_vec playtime_from_slice stats_from_slice
       digest scope (lw_folder s) steam_id64, s);
  cb_pull_app_stats := λ _ steam_id64 query s,
    (LocalSync.pull_app_stats stats_from_slice (lw_folder s) steam_id64 query, s);
|}.
End local.

(** ** The remote service

    The state is the log of what was asked and answered, and the devices bound so far. *)

Record CumulusWorld := {
  cw_log : CumulusClient.ServiceLog;
  cw_bound : list (list Z * DeviceDescriptor);
}.

Section cumulus.
Context (service : CumulusClient.ServiceLog → CumulusClient.ServiceRequest →
                   CumulusClient.ServiceAnswer).
Context {CC : CumulusClient.CumulusCodec} (sha256 : list Z → list Z).
Context (settings : CumulusClient.CumulusSettings).

(** An operation that only talks to the service. *)
Definition asking {A} (m : CumulusClient.ServiceLog → result BackendError A * CumulusClient.ServiceLog)
    (s : CumulusWorld) : result BackendError A * CumulusWorld :=
  let '(answer, l) := m (cw_log s) in (answer, {| cw_log := l; cw_bound := cw_bound s |}).

Definition cumulus_ensure_device_bound (d : DeviceDescriptor) (s : CumulusWorld)
    : result BackendError unit * CumulusWorld :=
  let '(answer, bound, l) :=
    CumulusClient.ensure_device_bound service sha256 settings d (cw_bound s) (cw_log s) in
  (match answer with Ok u => Ok u | Err e => Err (CumulusClient.backend_error e) end,
   {| cw_log := l; cw_bound := bound |}).

Definition cumulus_backend : CloudBackend CumulusWorld := {|
  cb_endpoint_scope := bytes_str (endpoint_scope sha256 (CumulusClient.cus_server_url settings));
  cb_principal_scope := asking (CumulusClient.on_backend
    (scope ← CumulusClient.device_principal_scope service sha256 settings;
     mret (bytes_str scope)));
  cb_credential_fingerprint :=
    bytes_str (credential_fingerprint sha256 (CumulusClient.cus_server_url settings)
                 (CumulusClient.cus_token settings));
  cb_ensure_device_bound := cumulus_ensure_device_bound;
  cb_accepts_achievement_schemas := true;
  cb_upload_achievement_schema := λ schema,
    asking (CumulusClient.upload_achievement_schema service settings schema);
  cb_upload_playtime := λ client_id steam_id64 entries,
    asking (CumulusClient.on_backend
      (CumulusClient.upload_playtime service settings client_id steam_id64 entries));
  cb_upload_steam_app_snapshot := λ identity snapshot,
    asking (CumulusClient.on_backend
      (CumulusClient.upload_snapshot service settings identity snapshot));
  cb_pull_account_state := λ client_id steam_id64,
    asking (CumulusClient.pull_account_state service settings client_id steam_id64);
  cb_pull_app_stats := λ client_id steam_id64 query,
    asking (CumulusClient.on_backend
      (CumulusClient.pull_app_stats service settings client_id steam_id64 query));
|}.
End cumulus.
