(* ===== verification/PlaytimeWorker.v ===== *)
(** * PlaytimeWorker: from observed playtime to the backend

    [hooks/src/playtime_worker.rs]: the thread that moves playtime observed in Steam's
    messages into the journal and from the journal to the backend, with the entry point
    [queue] other threads call.

    The worker is a program over a [World]: the context, the journal, the backend, the map of
    pending games with its mutex and the wake-up channel. Other threads act between its steps:
    the world carries a script of their [Event]s, a batch for every point where the worker
    touches something shared, so a run is determined by its script and every interleaving is
    some script. [w_trace] lists what has been observable so far: games merged, calls
    answered, runtimes found replaced. *)

From Stdlib Require Import ZArith Lia.
From S2P Require Import Prelude RustStd CloudCore Apps PlaytimeDownlink Storage JournalRecord SyncJournal.
From S2P Require Import WorkerContext.

Local Open Scope Z_scope.

(** ** Data *)

(** [features::playtime] *)
Record PlaytimeGame := {
  gm_app_id : Z;
  gm_playtime_minutes : Z;
  gm_playtime_2weeks_minutes : Z;
  gm_last_played_at : option Z;
}.
Record PlaytimeSnapshot := { sn_steam_id64 : Z; sn_games : list PlaytimeGame }.

Record PendingPlaytimeOwner := {
  po_runtime : RuntimeKey;
  po_principal_scope : option string;
}.
Record PendingPlaytimeKey := { pk_owner : PendingPlaytimeOwner; pk_app_id : Z }.

#[export] Instance PlaytimeGame_eq_dec : EqDecision PlaytimeGame.
Proof. solve_decision. Defined.
#[export] Instance PendingPlaytimeOwner_eq_dec : EqDecision PendingPlaytimeOwner.
Proof. solve_decision. Defined.
#[export] Instance PendingPlaytimeKey_eq_dec : EqDecision PendingPlaytimeKey.
Proof. solve_decision. Defined.

#[export] Instance RuntimeKey_countable : Countable RuntimeKey :=
  inj_countable'
    (λ k, (rk_credential_fingerprint k, rk_steam_id64 k, rk_identity_generation k,
           rk_client_id k, rk_runtime_generation k))
    (λ '(f, s, i, c, r), {| rk_credential_fingerprint := f; rk_steam_id64 := s;
       rk_identity_generation := i; rk_client_id := c; rk_runtime_generation := r |})
    ltac:(by intros []).
#[export] Instance PendingPlaytimeKey_countable : Countable PendingPlaytimeKey :=
  inj_countable'
    (λ k, (po_runtime (pk_owner k), po_principal_scope (pk_owner k), pk_app_id k))
    (λ '(r, p, a), {| pk_owner := {| po_runtime := r; po_principal_scope := p |};
                      pk_app_id := a |})
    ltac:(by intros [[]]).

Inductive PendingPersistence := Complete | Retry | AwaitingPrincipal.
#[export] Instance PendingPersistence_eq_dec : EqDecision PendingPersistence.
Proof. solve_decision. Defined.

Notation Pending := (gmap PendingPlaytimeKey PlaytimeGame).
Notation PendingGames := (list (PendingPlaytimeKey * PlaytimeGame)).

(** Durations in milliseconds. *)
Definition SNAPSHOT_DEBOUNCE : Z := 300.
Definition SNAPSHOT_HARD_DEADLINE : Z := 2000.
Definition READY_RETRY_DELAY : Z := 2000.

(** *** [DeviceBindingGate] *)

Record DeviceBindingGate := { permanently_blocked_generation : option Z }.

Definition gate_default : DeviceBindingGate := {| permanently_blocked_generation := None |}.

Definition allows (g : DeviceBindingGate) (generation : Z) : bool :=
  negb (bool_decide (permanently_blocked_generation g = Some generation)).

Definition record_failure (generation : Z) (retryable : bool) : DeviceBindingGate :=
  {| permanently_blocked_generation := if retryable then None else Some generation |}.

Definition record_success : DeviceBindingGate := {| permanently_blocked_generation := None |}.

Definition deadline (g : DeviceBindingGate) (generation : Z) (deadline : option Z) : option Z :=
  if allows g generation then deadline else None.

(** *** Merging games *)

Definition max_played (a b : option Z) : option Z :=
  match a, b with
  | Some a, Some b => Some (Z.max a b)
  | some, None | None, some => some
  end.

Definition merged_game (current game : PlaytimeGame) : PlaytimeGame := {|
  gm_app_id := gm_app_id current;
  gm_playtime_minutes := Z.max (gm_playtime_minutes current) (gm_playtime_minutes game);
  gm_playtime_2weeks_minutes := gm_playtime_2weeks_minutes game;
  gm_last_played_at := max_played (gm_last_played_at current) (gm_last_played_at game) |}.

Definition merge_pending_game (pending : Pending) (owner : PendingPlaytimeOwner)
    (game : PlaytimeGame) : Pending :=
  let key := {| pk_owner := owner; pk_app_id := gm_app_id game |} in
  match pending !! key with
  | Some current => <[key := merged_game current game]> pending
  | None => <[key := game]> pending
  end.

(** The loop of [queue] under the lock. *)
Definition merge_pending_games (owner : PendingPlaytimeOwner) (games : list PlaytimeGame)
    (pending : Pending) : Pending :=
  foldl (λ p g, merge_pending_game p owner g) pending games.

Fixpoint partition_pending_games (games : PendingGames) : PendingGames * PendingGames :=
  match games with
  | [] => ([], [])
  | entry :: rest =>
      let '(bound, unbound) := partition_pending_games rest in
      if po_principal_scope (pk_owner entry.1) then (entry :: bound, unbound)
      else (bound, entry :: unbound)
  end.

(** [steam_id64.to_string()] *)
Definition steam_text (steam_id64 : Z) : string := bytes_str (dec_text steam_id64).

Definition pending_entry (observed_at : Z) (entry : PendingPlaytimeKey * PlaytimeGame)
    : option PlaytimeEntry :=
  let '(key, game) := entry in
  owner_scope ← po_principal_scope (pk_owner key);
  Some {| pe_owner_scope := owner_scope;
          pe_owner_steam_id64 := steam_text (rk_steam_id64 (po_runtime (pk_owner key)));
          pe_app_id := gm_app_id game;
          pe_playtime_minutes := gm_playtime_minutes game;
          pe_playtime_2weeks_minutes := gm_playtime_2weeks_minutes game;
          pe_last_played_at := gm_last_played_at game;
          pe_observed_at := observed_at |}.

Definition pending_entries (games : PendingGames) (observed_at : Z)
    : option (list PlaytimeEntry) :=
  mapM (pending_entry observed_at) games.

Definition coalesce (games : PendingGames) : Pending :=
  foldl (λ p entry, merge_pending_game p (pk_owner entry.1) entry.2) ∅ games.

Definition is_ours (apps : AppsSection) (app_id : Z) : bool :=
  negb (app_id =? 0) && (is_controlled_app apps app_id).1.

Definition pending_can_survive_with (owner : PendingPlaytimeOwner) (is_current : bool) : bool :=
  match po_principal_scope owner with Some _ => true | None => is_current end.

(** ** The world *)

Section worker.
Context {St : Structsy} {Srv : Type} (sha256 : list Z → list Z).
Context (hash_order : Pending → PendingGames).

Notation Ctx := (Context Srv).

(** What is observable. *)
Inductive Observed :=
| Merged (owner : PendingPlaytimeOwner) (game : PlaytimeGame)
| NotCurrent (key : RuntimeKey)
| Bound (descriptor : DeviceDescriptor) (answer : result BackendError unit)
| Uploaded (client_id : Z) (steam_id64 : string) (entries : list PlaytimeEntry)
    (answer : result BackendError unit).

(** What other threads do: change the context, merge the games of a [queue] under the owner
    it has captured, raise the generation ([notify_context_changed]), wake the worker (then,
    in [notify_principal_available] and at the end of [queue]), drop the sender, write the other tables of the journal, act on
    the backend; and time passes. *)
Inductive Event :=
| EContext (c : Ctx)
| EMerge (owner : PendingPlaytimeOwner) (games : list PlaytimeGame)
| EGeneration
| EWake
| EDisconnect
| EJournal (j : Database)
| EServer (act : Srv → Srv)
| ETick (ms : Z).

Record World := {
  w_context : Ctx;
  w_journal : Database;
  w_server : Srv;
  w_pending : Pending;
  (** the mutex of [pending]: while it is held, the merges that wait for it *)
  w_held : option (list (PendingPlaytimeOwner * list PlaytimeGame));
  w_wake : bool;          (* the token of the channel of capacity one *)
  w_connected : bool;
  w_generation : Z;       (* [CONTEXT_GENERATION] *)
  w_instant : Z;
  w_trace : list Observed;
  w_script : list (list Event);
}.

Definition upd (w : World) context journal server pending held wake connected generation instant
    trace : World :=
  {| w_context := context; w_journal := journal; w_server := server; w_pending := pending;
     w_held := held; w_wake := wake; w_connected := connected; w_generation := generation;
     w_instant := instant; w_trace := trace; w_script := w_script w |}.

Definition set_context (w : World) c := upd w c (w_journal w) (w_server w) (w_pending w)
  (w_held w) (w_wake w) (w_connected w) (w_generation w) (w_instant w) (w_trace w).
Definition set_journal (w : World) j := upd w (w_context w) j (w_server w) (w_pending w)
  (w_held w) (w_wake w) (w_connected w) (w_generation w) (w_instant w) (w_trace w).
Definition set_server (w : World) s := upd w (w_context w) (w_journal w) s (w_pending w)
  (w_held w) (w_wake w) (w_connected w) (w_generation w) (w_instant w) (w_trace w).
Definition set_pending (w : World) p := upd w (w_context w) (w_journal w) (w_server w) p
  (w_held w) (w_wake w) (w_connected w) (w_generation w) (w_instant w) (w_trace w).
Definition set_held (w : World) h := upd w (w_context w) (w_journal w) (w_server w) (w_pending w)
  h (w_wake w) (w_connected w) (w_generation w) (w_instant w) (w_trace w).
Definition set_wake (w : World) b := upd w (w_context w) (w_journal w) (w_server w) (w_pending w)
  (w_held w) b (w_connected w) (w_generation w) (w_instant w) (w_trace w).
Definition set_connected (w : World) b := upd w (w_context w) (w_journal w) (w_server w)
  (w_pending w) (w_held w) (w_wake w) b (w_generation w) (w_instant w) (w_trace w).
Definition set_generation (w : World) g := upd w (w_context w) (w_journal w) (w_server w)
  (w_pending w) (w_held w) (w_wake w) (w_connected w) g (w_instant w) (w_trace w).
Definition set_instant (w : World) t := upd w (w_context w) (w_journal w) (w_server w)
  (w_pending w) (w_held w) (w_wake w) (w_connected w) (w_generation w) t (w_trace w).
Definition observe (w : World) (o : list Observed) := upd w (w_context w) (w_journal w)
  (w_server w) (w_pending w) (w_held w) (w_wake w) (w_connected w) (w_generation w)
  (w_instant w) (w_trace w ++ o).
Definition set_script (w : World) s : World :=
  {| w_context := w_context w; w_journal := w_journal w; w_server := w_server w;
     w_pending := w_pending w; w_held := w_held w; w_wake := w_wake w;
     w_connected := w_connected w; w_generation := w_generation w; w_instant := w_instant w;
     w_trace := w_trace w; w_script := s |}.

(** The critical section of [queue]: the games are merged under the lock. *)
Definition merge_games (w : World) (owner : PendingPlaytimeOwner) (games : list PlaytimeGame)
    : World :=
  observe (set_pending w (merge_pending_games owner games (w_pending w)))
    (Merged owner <$> games).

Definition apply_event (w : World) (e : Event) : World :=
  match e with
  | EContext c => set_context w c
  | EMerge owner games =>
      match w_held w with
      | None => merge_games w owner games
      | Some waiting => set_held w (Some (waiting ++ [(owner, games)]))
      end
  | EGeneration => set_generation w (u64_wrapping_add (w_generation w) 1)
  | EWake => set_wake w true
  | EDisconnect => set_connected w false
  | EJournal j => set_journal w (set_playtime j (db_playtime (w_journal w)))
  | EServer act => set_server w (act (w_server w))
  | ETick ms => set_instant w (w_instant w + Z.max 0 ms)
  end.

(** *** The worker's steps *)

Definition M (A : Type) : Type := World → A * World.
#[export] Instance M_ret : MRet M := λ A a w, (a, w).
#[export] Instance M_bind : MBind M := λ A B k m w, let '(a, w) := m w in k a w.

(** Other threads run before a step that touches something shared. *)
Definition sync (w : World) : World :=
  match w_script w with
  | [] => w
  | batch :: rest => foldl apply_event (set_script w rest) batch
  end.

Definition step {A} (f : World → A * World) : M A := λ w, f (sync w).

Definition read_context {A} (f : Ctx → A) : M A := step (λ w, (f (w_context w), w)).
Definition unix_now : M Z := read_context cx_unix_now.
Definition Instant_now : M Z := step (λ w, (w_instant w, w)).
Definition load_generation : M Z := step (λ w, (w_generation w, w)).
Definition with_journal {A} (f : Database → A * Database) : M A :=
  step (λ w, let '(a, j) := f (w_journal w) in (a, set_journal w j)).
Definition read_journal {A} (f : Database → A) : M A := step (λ w, (f (w_journal w), w)).

(** [pending.lock()] and the end of its guard; merges that waited run then. *)
Definition lock : M unit := step (λ w, (tt, set_held w (Some []))).
Definition unlock : M unit := λ w,
  let waiting := default [] (w_held w) in
  (tt, foldl (λ w '(owner, games), merge_games w owner games) (set_held w None) waiting).
Definition with_pending {A} (f : Pending → A * Pending) : M A := λ w,
  let '(a, p) := f (w_pending w) in (a, set_pending w p).

(** The runtime a key names is still the current one. *)
Definition is_current (key : RuntimeKey) : M bool := step (λ w,
  if runtime_key_is_current sha256 (w_context w) key then (true, w)
  else (false, observe w [NotCurrent key])).

Definition bind_device (backend : CloudBackend Srv) (d : DeviceDescriptor)
    : M (result BackendError unit) := step (λ w,
  let '(answer, srv) := cb_ensure_device_bound backend d (w_server w) in
  (answer, observe (set_server w srv) [Bound d answer])).

Definition upload (backend : CloudBackend Srv) (client_id : Z) (steam_id64 : string)
    (entries : list PlaytimeEntry) : M (result BackendError unit) := step (λ w,
  let '(answer, srv) := cb_upload_playtime backend client_id steam_id64 entries (w_server w) in
  (answer, observe (set_server w srv) [Uploaded client_id steam_id64 entries answer])).

(** ** [queue] *)

Definition current_playtime_owner : M (option PendingPlaytimeOwner) :=
  runtime ← read_context (current_runtime_key sha256);
  match runtime with
  | None => mret None
  | Some runtime =>
      backend ← read_context (backend_context sha256);
      match backend with
      | None => mret None
      | Some backend =>
          if negb (bool_decide (cb_credential_fingerprint backend
                                = rk_credential_fingerprint runtime))
          then mret None
          else
            principal ← read_context (λ c, cached_principal_scope c backend);
            again ← read_context (current_runtime_key sha256);
            if bool_decide (again = Some runtime)
            then mret (Some {| po_runtime := runtime; po_principal_scope := principal |})
            else mret None
      end
  end.

(** [started] is whether the worker could be started, which opens the journal. *)
Definition queue (started : bool) (snapshot : PlaytimeSnapshot) : M bool :=
  match sn_games snapshot with
  | [] => mret true
  | _ =>
      if negb started then mret false
      else
        owner ← current_playtime_owner;
        match owner with
        | None => mret false
        | Some owner =>
            if negb (sn_steam_id64 snapshot =? rk_steam_id64 (po_runtime owner))
            then mret false
            else
              apps ← read_context cx_apps;
              step (λ w, (tt, merge_games w owner
                (filter (λ g, is_ours apps (gm_app_id g)) (sn_games snapshot)))) ≫= λ _,
              step (λ w, (true, set_wake w true))
        end
  end.

(** ** Persisting *)

Definition restore_game (restored : bool) (entry : PendingPlaytimeKey * PlaytimeGame) : M bool :=
  let owner := pk_owner entry.1 in
  survives ← (match po_principal_scope owner with
              | Some _ => mret true
              | None => is_current (po_runtime owner)
              end : M bool);
  if pending_can_survive_with owner survives
  then with_pending (λ p, (true, merge_pending_game p owner entry.2))
  else mret restored.

Fixpoint restore_games (restored : bool) (games : PendingGames) : M bool :=
  match games with
  | [] => mret restored
  | entry :: rest => restored ← restore_game restored entry; restore_games restored rest
  end.

Definition restore_pending (games : PendingGames) : M bool :=
  lock ≫= λ _, restored ← restore_games false games; unlock ≫= λ _, mret restored.

(** The games whose principal has become known join [games]; the others are returned. *)
Fixpoint resolve_unbound (unbound games unresolved : PendingGames)
    : M (PendingGames * PendingGames) :=
  match unbound with
  | [] => mret (games, unresolved)
  | (key, game) :: rest =>
      let runtime := po_runtime (pk_owner key) in
      scope ← read_context (λ c,
        cached_principal_for_credential c (rk_credential_fingerprint runtime));
      match scope with
      | Some scope =>
          let key := {| pk_owner := {| po_runtime := runtime; po_principal_scope := Some scope |};
                        pk_app_id := pk_app_id key |} in
          resolve_unbound rest (games ++ [(key, game)]) unresolved
      | None => resolve_unbound rest games (unresolved ++ [(key, game)])
      end
  end.

Definition awaiting (b : bool) : PendingPersistence := if b then AwaitingPrincipal else Complete.

Definition persist_games (games : PendingGames) (observed_at : Z) (awaiting_principal : bool)
    : M PendingPersistence :=
  match games with
  | [] => mret (awaiting awaiting_principal)
  | _ =>
      let games := hash_order (coalesce games) in
      match pending_entries games observed_at with
      | None => mret Complete
      | Some entries =>
          stored ← with_journal (enqueue_playtime entries);
          match stored with
          | Err _ =>
              restored ← restore_pending games;
              mret (if restored : bool then Retry else Complete)
          | Ok _ => mret (awaiting awaiting_principal)
          end
      end
  end.

Definition persist_pending : M PendingPersistence :=
  observed_at ← unix_now;
  games ← (lock ≫= λ _, games ← with_pending (λ p, (hash_order p, ∅));
           unlock ≫= λ _, mret games);
  match games with
  | [] => mret Complete
  | _ =>
      let '(games, unbound) := partition_pending_games games in
      match unbound with
      | [] => persist_games games observed_at false
      | _ =>
          '(games, unresolved) ← resolve_unbound unbound games [];
          awaiting_principal ← restore_pending unresolved;
          persist_games games observed_at awaiting_principal
      end
  end.

(** ** Waiting *)

Inductive Recv := Received | Timeout | Disconnected.

(** [recv] and [recv_timeout]: the script runs until the token is there, the sender is gone
    or the time is up. [None]: the thread waits for ever. *)
Fixpoint wait_events (until : option Z) (script : list (list Event)) (w : World)
    : option Recv * World :=
  (fix wait_batch (batch : list Event) (w : World) : option Recv * World :=
     if w_wake w then (Some Received, set_script (set_wake w false) (batch :: tail script))
     else if negb (w_connected w) then (Some Disconnected, set_script w (batch :: tail script))
     else if match until with Some t => t <=? w_instant w | None => false end
     then (Some Timeout, set_script w (batch :: tail script))
     else
       match batch with
       | e :: batch => wait_batch batch (apply_event w e)
       | [] =>
           match script with
           | [] | [_] =>
               match until with
               | Some t => (Some Timeout, set_script (set_instant w t) [])
               | None => (None, set_script w [])
               end
           | _ :: rest => wait_events until rest w
           end
       end) (default [] (head script)) w.

Definition recv : M (option Recv) := λ w, wait_events None (w_script w) w.
Definition recv_timeout (delay : Z) : M (option Recv) := λ w,
  wait_events (Some (w_instant w + delay)) (w_script w) w.

Inductive UploadWake := WakeEvent | WakeDeadline | WakeDisconnected.

Definition upload_wake (r : Recv) : UploadWake :=
  match r with
  | Received => WakeEvent | Timeout => WakeDeadline | Disconnected => WakeDisconnected
  end.

Definition min_delay (a b : option Z) : option Z :=
  match a, b with
  | Some a, Some b => Some (Z.min a b)
  | some, None | None, some => some
  end.

Definition wait_for_upload_work (next_attempt_at pending_retry_at : option Z)
    : M (option UploadWake) :=
  journal_delay ← (match next_attempt_at with
    | None => mret None
    | Some next_attempt_at =>
        now ← unix_now;
        mret (Some (if next_attempt_at <=? now then READY_RETRY_DELAY
                    else 1000 * Z.max i64_min (Z.min i64_max (next_attempt_at - now))))
    end : M (option Z));
  pending_delay ← (match pending_retry_at with
    | None => mret None
    | Some deadline =>
        now ← Instant_now;
        mret (Some (Z.max 0 (deadline - now)))
    end : M (option Z));
  received ← (match min_delay journal_delay pending_delay with
    | None => recv
    | Some delay => recv_timeout delay
    end : M (option Recv));
  mret (upload_wake <$> received).

(** [collect_snapshot_burst]; every round receives a token or is the last, so as many rounds
    as the script has events, and one more, are enough. A wait with a time-out never lasts for
    ever. *)
Fixpoint collect_loop (fuel : nat) (debounce hard_deadline quiet_deadline : Z) (trailing : bool)
    : M bool :=
  match fuel with
  | O => mret trailing
  | S fuel =>
      let deadline := Z.min quiet_deadline hard_deadline in
      now ← Instant_now;
      if deadline <? now then mret trailing
      else
        received ← recv_timeout (deadline - now);
        match received with
        | Some Received =>
            now ← Instant_now;
            collect_loop fuel debounce hard_deadline (Z.min (now + debounce) hard_deadline) true
        | _ => mret trailing
        end
  end.

Definition script_size (script : list (list Event)) : nat := length (concat script).

Definition collect_rounds {A} (loop : nat → M A) : M A :=
  λ w, loop (2 + script_size (w_script w))%nat w.

Definition collect_snapshot_burst (debounce hard_limit : Z) : M bool :=
  start ← Instant_now;
  quiet ← Instant_now;
  collect_rounds (λ rounds, collect_loop rounds debounce (start + hard_limit)
                              (quiet + debounce) false).

Definition debounce_and_persist : M PendingPersistence :=
  persistence ← persist_pending;
  trailing ← collect_snapshot_burst SNAPSHOT_DEBOUNCE SNAPSHOT_HARD_DEADLINE;
  if trailing : bool then persist_pending else mret persistence.

(** ** Uploading *)

Inductive FlushOutcome := FlushComplete | DeviceBindingFailed (retryable : bool).

(** One round over the accounts: whether it attempted anything, or [None] when the flush
    returns. *)
Fixpoint flush_accounts (backend : CloudBackend Srv) (scope : string) (client_id : Z)
    (accounts : list string) (attempted : bool) : M (option bool) :=
  match accounts with
  | [] => mret (Some attempted)
  | steam_id64 :: rest =>
      now ← unix_now;
      entries ← read_journal (pending_playtime scope steam_id64 now);
      match entries with
      | [] => flush_accounts backend scope client_id rest attempted
      | _ =>
          answer ← upload backend client_id steam_id64 (values entries);
          match answer with
          | Ok _ =>
              settled ← with_journal (acknowledge_all entries);
              match settled with
              | Err _ => mret None
              | Ok _ => flush_accounts backend scope client_id rest true
              end
          | Err error =>
              if is_retryable error then
                now ← unix_now;
                _ ← with_journal (defer_all entries now);
                mret None
              else
                settled ← with_journal (acknowledge_all entries);
                match settled with
                | Err _ => mret None
                | Ok _ => flush_accounts backend scope client_id rest true
                end
          end
      end
  end.

(** The device is bound once, before the first upload of a flush. *)
Definition bound_descriptor (backend : CloudBackend Srv) (descriptor : option DeviceDescriptor)
    : M (DeviceDescriptor + FlushOutcome) :=
  match descriptor with
  | Some d => mret (inl d)
  | None =>
      current ← read_context cx_descriptor;
      match current with
      | None => mret (inr FlushComplete)
      | Some current =>
          answer ← bind_device backend current;
          mret (match answer with
                | Err error => inr (DeviceBindingFailed (is_retryable error))
                | Ok _ => inl current
                end)
      end
  end.

Fixpoint flush_rounds (rounds : nat) (backend : CloudBackend Srv) (scope : string)
    (descriptor : option DeviceDescriptor) : M FlushOutcome :=
  match rounds with
  | O => mret FlushComplete
  | S rounds =>
      now ← unix_now;
      accounts ← read_journal (ready_playtime_accounts scope now);
      match accounts with
      | [] => mret FlushComplete
      | _ =>
          bound ← bound_descriptor backend descriptor;
          match bound with
          | inr outcome => mret outcome
          | inl d =>
              attempted ← flush_accounts backend scope (dd_client_id d) accounts false;
              match attempted with
              | Some true => flush_rounds rounds backend scope (Some d)
              | _ => mret FlushComplete
              end
          end
      end
  end.

Definition flush : M FlushOutcome :=
  backend ← read_context (backend_context sha256);
  match backend with
  | None => mret FlushComplete
  | Some backend =>
      scope ← read_context (λ c, cached_principal_scope c backend);
      match scope with
      | None => mret FlushComplete
      | Some scope => flush_rounds 20 backend scope None
      end
  end.

(** ** The loop *)

(** [next_playtime_attempt_at] of the worker *)
Definition worker_next_attempt_at : M (option Z) :=
  backend ← read_context (backend_context sha256);
  match backend with
  | None => mret None
  | Some backend =>
      descriptor ← read_context cx_descriptor;
      match descriptor with
      | None => mret None
      | Some _ =>
          scope ← read_context (λ c, cached_principal_scope c backend);
          match scope with
          | None => mret None
          | Some scope => read_journal (next_playtime_attempt_at scope)
          end
      end
  end.

Record LoopState := {
  ls_first_pass : bool;
  ls_next_attempt_at : option Z;
  ls_pending_retry_at : option Z;
  ls_device_binding : DeviceBindingGate;
}.

Definition loop_start : LoopState :=
  {| ls_first_pass := true; ls_next_attempt_at := None; ls_pending_retry_at := None;
     ls_device_binding := gate_default |}.

(** What follows a wake-up: persist, upload when the device may be bound, schedule. *)
Definition upload_pass (s : LoopState) (event : UploadWake) : M LoopState :=
  persistence ← (match event with
                 | WakeEvent => debounce_and_persist
                 | _ => persist_pending
                 end : M PendingPersistence);
  pending_retry_at ← (if bool_decide (persistence = Retry)
                      then now ← Instant_now; mret (Some (now + READY_RETRY_DELAY))
                      else mret None : M (option Z));
  binding_generation ← load_generation;
  gate ← (if allows (ls_device_binding s) binding_generation then
            outcome ← flush;
            mret (match outcome with
                  | FlushComplete => record_success
                  | DeviceBindingFailed retryable => record_failure binding_generation retryable
                  end)
          else mret (ls_device_binding s) : M DeviceBindingGate);
  generation ← load_generation;
  next ← worker_next_attempt_at;
  mret {| ls_first_pass := false; ls_next_attempt_at := deadline gate generation next;
          ls_pending_retry_at := pending_retry_at; ls_device_binding := gate |}.

(** One turn of the loop; [None] when it has ended or waits for ever. *)
Definition upload_turn (s : LoopState) : M (option LoopState) :=
  event ← (if ls_first_pass s then mret (Some WakeDeadline)
           else wait_for_upload_work (ls_next_attempt_at s) (ls_pending_retry_at s)
           : M (option UploadWake));
  match event with
  | None | Some WakeDisconnected => mret None
  | Some event => s ← upload_pass s event; mret (Some s)
  end.

Fixpoint upload_loop (turns : nat) (s : LoopState) : M (option LoopState) :=
  match turns with
  | O => mret (Some s)
  | S turns =>
      next ← upload_turn s;
      match next with None => mret None | Some s => upload_loop turns s end
  end.
End worker.
