(* ===== verification/PlaytimeWorkerProofs.v ===== *)
(** * PlaytimeWorkerProofs: no observed playtime is lost

    The worker of [PlaytimeWorker] against every script of the other threads and every
    failure of the journal and the backend: an observation that was merged is pending, stored
    in the journal, or was answered for by the backend. The proofs are triples over the
    worker's steps with the accounting invariant [Inv]. *)

From Stdlib Require Import ZArith Lia.
From S2P Require Import Prelude RustStd CloudCore Apps PlaytimeDownlink Storage JournalRecord SyncJournal.
From S2P Require Import JournalProofs WorkerContext PlaytimeWorker.

Local Open Scope Z_scope.

(** ** Merging *)

(** A pending game sits under its own app. *)
Definition keyed (m : Pending) : Prop := ∀ k g, m !! k = Some g → gm_app_id g = pk_app_id k.

(** No pending game is dropped or lowered. *)
Definition le_pending (m m' : Pending) : Prop :=
  ∀ k g, m !! k = Some g →
    ∃ g', m' !! k = Some g' ∧ gm_playtime_minutes g ≤ gm_playtime_minutes g'.

#[export] Instance le_pending_preorder : PreOrder le_pending.
Proof.
  split.
  - intros m k g Hg. exists g. split; [done|lia].
  - intros m1 m2 m3 H12 H23 k g Hg. destruct (H12 k g Hg) as (g2 & Hg2 & ?).
    destruct (H23 k g2 Hg2) as (g3 & ? & ?). exists g3. split; [done|lia].
Qed.

Lemma merge_pending_game_spec m owner game :
  keyed m →
  let m' := merge_pending_game m owner game in
  keyed m' ∧ le_pending m m' ∧
  ∃ g', m' !! {| pk_owner := owner; pk_app_id := gm_app_id game |} = Some g' ∧
        gm_playtime_minutes game ≤ gm_playtime_minutes g'.
Proof.
  intros Hk. unfold merge_pending_game. set (key := {| pk_owner := owner; pk_app_id := _ |}).
  cbn zeta. destruct (m !! key) as [current|] eqn:E; (split; [|split]).
  - intros k g. rewrite lookup_insert. case_decide; [|by auto].
    subst k. intros [= <-]. simpl. by apply Hk in E.
  - intros k g Hg. rewrite lookup_insert. case_decide; [|by exists g].
    subst k. simplify_eq. eexists; split; [done|]. simpl. lia.
  - rewrite lookup_insert_eq. eexists; split; [done|]. simpl. lia.
  - intros k g. rewrite lookup_insert. case_decide; [|by auto]. subst k. by intros [= <-].
  - intros k g Hg. rewrite lookup_insert. case_decide; [congruence|]. by exists g.
  - rewrite lookup_insert_eq. by eexists.
Qed.

Lemma merge_pending_games_spec owner games m :
  keyed m →
  let m' := merge_pending_games owner games m in
  keyed m' ∧ le_pending m m' ∧
  ∀ game, game ∈ games →
    ∃ g', m' !! {| pk_owner := owner; pk_app_id := gm_app_id game |} = Some g' ∧
          gm_playtime_minutes game ≤ gm_playtime_minutes g'.
Proof.
  cbn zeta. unfold merge_pending_games. revert m.
  induction games as [|g games IH]; intros m Hk; simpl.
  { split; [done|split; [done|]]. intros game H. by apply not_elem_of_nil in H. }
  destruct (merge_pending_game_spec m owner g Hk) as (Hk1 & Hle & g1 & Hg1 & Hm1).
  destruct (IH _ Hk1) as (Hk2 & Hle2 & Hin). split; [done|].
  split; [by etrans|]. intros game [->|Hg]%elem_of_cons; [|by auto].
  destruct (Hle2 _ _ Hg1) as (g2 & ? & ?). exists g2. split; [done|lia].
Qed.

(** ** Accounting for an observation *)

(** The game [g'] under [k] stands for the observation of [g] by [o]. *)
Definition holds (o : PendingPlaytimeOwner) (g : PlaytimeGame) (k : PendingPlaytimeKey)
    (g' : PlaytimeGame) : Prop :=
  po_runtime (pk_owner k) = po_runtime o ∧
  (∀ s, po_principal_scope o = Some s → po_principal_scope (pk_owner k) = Some s) ∧
  pk_app_id k = gm_app_id g ∧
  gm_playtime_minutes g ≤ gm_playtime_minutes g'.

(** The journal's identity of an observation, under the scope [o] had if it had one. *)
Definition names (o : PendingPlaytimeOwner) (g : PlaytimeGame)
    (key : string * string * Z) : Prop :=
  ∃ scope, key = (scope, steam_text (rk_steam_id64 (po_runtime o)), gm_app_id g) ∧
           (∀ s, po_principal_scope o = Some s → scope = s).

(** The backend took the upload or refused it for good. *)
Definition settled (answer : result BackendError unit) : Prop :=
  match answer with Ok _ => True | Err e => is_retryable e = false end.

Section worker.
Context {St : Structsy} {L : StructsyLaws St} {Srv : Type} (sha256 : list Z → list Z).
Context (hash_order : Pending → PendingGames).
Hypothesis Hhash : ∀ m, hash_order m ≡ₚ map_to_list m.

Notation World := (@World St Srv).
Notation Event := (@Event St Srv).
Implicit Types (w : World) (hand : PendingGames) (m : gmap Ref PlaytimeRecord).

Definition rows w : gmap Ref PlaytimeRecord := playtime_rows (w_journal w).

Definition pending_holds w o g : Prop := ∃ k g', w_pending w !! k = Some g' ∧ holds o g k g'.
Definition hand_holds hand o g : Prop := ∃ k g', (k, g') ∈ hand ∧ holds o g k g'.
Definition journal_holds (m : gmap Ref PlaytimeRecord) o g : Prop :=
  ∃ id r, m !! id = Some r ∧ names o g (playtime_key r) ∧
          gm_playtime_minutes g ≤ pr_playtime_minutes r.
Definition answered (t : list Observed) o g : Prop :=
  ∃ client sid entries answer entry,
    Uploaded client sid entries answer ∈ t ∧ settled answer ∧ entry ∈ entries ∧
    names o g (entry_key entry) ∧ gm_playtime_minutes g ≤ pe_playtime_minutes entry.
(** The one thing the worker may drop: a game without a principal, once its runtime is gone. *)
Definition stale (t : list Observed) o : Prop :=
  po_principal_scope o = None ∧ NotCurrent (po_runtime o) ∈ t.

(** Where the observation of [g] by [o] is, [t] having happened since: in the hands of the
    worker, pending, in one of the journal's rows [m], at the backend. *)
Definition accounted hand m w t o g : Prop :=
  hand_holds hand o g ∨ pending_holds w o g ∨ journal_holds m o g ∨ answered t o g ∨ stale t o.

Record Inv hand m w : Prop := {
  inv_rows : m ⊆ rows w;
  inv_unique : unique_by playtime_key (rows w);
  inv_keyed : keyed (w_pending w);
  inv_hand : Forall (λ p, gm_app_id p.2 = pk_app_id p.1) hand;
  inv_accounts : ∀ t1 o g t2, w_trace w = t1 ++ Merged o g :: t2 → accounted hand m w t2 o g;
}.

(** *** How accounts move *)

Lemma answered_app t new o g : answered t o g → answered (t ++ new) o g.
Proof.
  intros (c & s & es & a & x & Hin & ?). exists c, s, es, a, x. rewrite elem_of_app. by auto.
Qed.
Lemma stale_app t new o : stale t o → stale (t ++ new) o.
Proof. intros [? ?]. split; [done|]. apply elem_of_app. by left. Qed.
Lemma pending_holds_le w w' o g :
  le_pending (w_pending w) (w_pending w') → pending_holds w o g → pending_holds w' o g.
Proof.
  intros Hle (k & g1 & Hk & H1 & H2 & H3 & H4). destruct (Hle _ _ Hk) as (g2 & ? & ?).
  exists k, g2. repeat split; [done..|lia].
Qed.

(** The invariant after a step that appends [new] to the trace. *)
Lemma Inv_step hand hand' m m' w w' new :
  Inv hand m w → w_trace w' = w_trace w ++ new → m' ⊆ rows w' →
  unique_by playtime_key (rows w') → keyed (w_pending w') →
  Forall (λ p, gm_app_id p.2 = pk_app_id p.1) hand' →
  (∀ o g t, accounted hand m w t o g → accounted hand' m' w' (t ++ new) o g) →
  (∀ o g, Merged o g ∈ new → pending_holds w' o g) →
  Inv hand' m' w'.
Proof.
  intros HI Ht Hm Hu Hk Hh Hold Hnew. split; [done..|]. intros t1 o g t2 E. rewrite Ht in E.
  destruct (app_eq_inv _ _ _ _ E) as [(l & E1 & E2)|(l & E1 & E2)].
  - destruct l as [|x l]; simplify_eq/=.
    + right; left. apply Hnew. by left.
    + apply Hold. by eapply inv_accounts.
  - right; left. apply Hnew. rewrite E2. apply elem_of_app. right. by left.
Qed.

(** A step that touches neither the playtime table nor lowers a pending game. *)
Lemma Inv_frame hand m w w' new :
  Inv hand m w → w_trace w' = w_trace w ++ new → rows w' = rows w →
  keyed (w_pending w') → le_pending (w_pending w) (w_pending w') →
  (∀ o g, Merged o g ∈ new → pending_holds w' o g) →
  Inv hand m w'.
Proof.
  intros HI Ht Hr Hk Hle Hnew. eapply Inv_step; [done|done| | |done| | |done].
  - rewrite Hr. apply HI.
  - rewrite Hr. apply HI.
  - apply HI.
  - intros o g t [?|[?|[?|[?|?]]]].
    + by left.
    + right; left. by eapply pending_holds_le.
    + by right; right; left.
    + do 3 right; left. by apply answered_app.
    + do 4 right. by apply stale_app.
Qed.

(** *** Events *)

Definition InvT hand m (t : table PlaytimeRecord) w : Prop :=
  Inv hand m w ∧ db_playtime (w_journal w) = t.

Lemma InvT_frame hand m t w w' new :
  InvT hand m t w → w_trace w' = w_trace w ++ new →
  db_playtime (w_journal w') = db_playtime (w_journal w) →
  keyed (w_pending w') → le_pending (w_pending w) (w_pending w') →
  (∀ o g, Merged o g ∈ new → pending_holds w' o g) →
  InvT hand m t w'.
Proof.
  intros [HI Ht] Htr Hdb ???. split; [|congruence].
  eapply Inv_frame; [done|done| |done|done|done]. unfold rows, playtime_rows. by rewrite Hdb.
Qed.

(** A step that leaves table, pending games and trace alone. *)
Lemma InvT_same hand m t w w' :
  InvT hand m t w → w_trace w' = w_trace w →
  db_playtime (w_journal w') = db_playtime (w_journal w) →
  w_pending w' = w_pending w → InvT hand m t w'.
Proof.
  intros HI Ht Hdb Hp. eapply (InvT_frame _ _ _ w w' []); rewrite ?Hp, ?app_nil_r; try done.
  - apply HI.
  - intros o g H. by apply not_elem_of_nil in H.
Qed.

Lemma InvT_observe hand m t w o :
  (∀ p g, o ≠ Merged p g) → InvT hand m t w → InvT hand m t (observe w [o]).
Proof.
  intros Ho HI. eapply (InvT_frame _ _ _ w _ [o]); [done..|apply HI|done|].
  intros p g H%list_elem_of_singleton. by destruct (Ho p g).
Qed.

Lemma InvT_merge hand m t w owner games :
  InvT hand m t w → InvT hand m t (merge_games w owner games).
Proof.
  intros HI. destruct (merge_pending_games_spec owner games (w_pending w)) as (Hk & Hle & Hin).
  { apply HI. }
  eapply (InvT_frame _ _ _ w _ (Merged owner <$> games)); [done..|].
  intros o g (g0 & [= -> ->] & Hg)%list_elem_of_fmap.
  destruct (Hin _ Hg) as (g' & Hg' & Hm). eexists _, g'. split; [exact Hg'|]. by repeat split.
Qed.

Lemma InvT_event hand m t w e : InvT hand m t w → InvT hand m t (apply_event w e).
Proof.
  intros HI. destruct e; simpl; try (by eapply InvT_same).
  destruct (w_held w); [by eapply InvT_same|by apply InvT_merge].
Qed.

Lemma InvT_events hand m t batch w : InvT hand m t w → InvT hand m t (foldl apply_event w batch).
Proof. revert w. induction batch as [|e batch IH]; intros w; simpl; auto using InvT_event. Qed.

Lemma InvT_sync hand m t w : InvT hand m t w → InvT hand m t (sync w).
Proof.
  intros HI. unfold sync. destruct (w_script w) as [|batch rest]; [done|].
  apply InvT_events. by eapply InvT_same.
Qed.

(** ** Triples *)

Definition triple {A} (P : World → Prop) (m : M A) (Q : A → World → Prop) : Prop :=
  ∀ w, P w → Q (m w).1 (m w).2.

Lemma triple_ret {A} (P : World → Prop) (a : A) (Q : A → World → Prop) :
  (∀ w, P w → Q a w) → triple P (mret a) Q.
Proof. intros H w HP. by apply H. Qed.

Lemma triple_bind {A B} P (m : M A) (k : A → M B) R Q :
  triple P m R → (∀ a, triple (R a) (k a) Q) → triple P (m ≫= k) Q.
Proof.
  intros Hm Hk w HP. specialize (Hm w HP). unfold mbind, M_bind.
  destruct (m w) as [a w']. by apply Hk.
Qed.

Lemma triple_pre {A} (P P' : World → Prop) (m : M A) Q :
  (∀ w, P w → P' w) → triple P' m Q → triple P m Q.
Proof. intros HP Hm w Hw. by apply Hm, HP. Qed.

Lemma triple_post {A} P (m : M A) (Q Q' : A → World → Prop) :
  triple P m Q → (∀ a w, Q a w → Q' a w) → triple P m Q'.
Proof. intros Hm HQ w Hw. by apply HQ, Hm. Qed.

Lemma triple_pure {A} (φ : Prop) (P : World → Prop) (m : M A) Q :
  (φ → triple P m Q) → triple (λ w, φ ∧ P w) m Q.
Proof. intros H w [Hφ HP]. by apply H. Qed.

Lemma triple_step {A} hand m t (f : World → A * World) Q :
  (∀ w, InvT hand m t w → Q (f w).1 (f w).2) → triple (InvT hand m t) (step f) Q.
Proof. intros Hf w Hw. by apply Hf, InvT_sync. Qed.

(** The steps that only read. *)
Lemma triple_read_context {A} hand m t (f : Context Srv → A) :
  triple (InvT hand m t) (read_context f) (λ _, InvT hand m t).
Proof. by apply triple_step. Qed.
Lemma triple_instant hand m t : triple (InvT hand m t) Instant_now (λ _, InvT hand m t).
Proof. by apply triple_step. Qed.
Lemma triple_generation hand m t : triple (InvT hand m t) load_generation (λ _, InvT hand m t).
Proof. by apply triple_step. Qed.
Lemma triple_read_journal {A} hand m t (f : Database → A) :
  triple (InvT hand m t) (read_journal f)
    (λ a w, InvT hand m t w ∧ ∃ j, db_playtime j = t ∧ a = f j).
Proof. apply triple_step. intros w HI. split; [done|]. exists (w_journal w). by split; [apply HI|]. Qed.

Lemma InvT_hand hand hand' m t w :
  InvT hand m t w → (∀ o g, hand_holds hand o g → hand_holds hand' o g) →
  Forall (λ p, gm_app_id p.2 = pk_app_id p.1) hand' → InvT hand' m t w.
Proof.
  intros [HI Ht] Hh Hf. split; [|done].
  eapply (Inv_step hand hand' m m w w []); rewrite ?app_nil_r; try done; try apply HI.
  - intros o g t'. rewrite app_nil_r. intros [?|?]; [left; by apply Hh|by right].
  - intros o g H. by apply not_elem_of_nil in H.
Qed.

Lemma InvT_rows hand m m' t w :
  InvT hand m t w → m ⊆ m' → m' ⊆ contents t → InvT hand m' t w.
Proof.
  intros [HI Ht] Hm Hm'. split; [|done].
  eapply (Inv_step hand hand m m' w w []); rewrite ?app_nil_r; try done; try apply HI.
  - unfold rows, playtime_rows. by rewrite Ht.
  - intros o g t'. rewrite app_nil_r. intros [?|[?|[(id & r & Hr & ?)|?]]]; [by left|by right; left| |].
    + right; right; left. exists id, r. split; [by eapply lookup_weaken|done].
    + by do 3 right.
  - intros o g H. by apply not_elem_of_nil in H.
Qed.

(** ** Persisting *)

Lemma triple_lock hand m t : triple (InvT hand m t) lock (λ _, InvT hand m t).
Proof. apply triple_step. intros w HI. by eapply InvT_same. Qed.

Lemma triple_unlock hand m t : triple (InvT hand m t) unlock (λ _, InvT hand m t).
Proof.
  intros w HI. unfold unlock. simpl. generalize (default [] (w_held w)). intros waiting.
  assert (H : InvT hand m t (set_held w None)) by by eapply InvT_same.
  revert H. generalize (set_held w None). clear w HI.
  induction waiting as [|[owner games] waiting IH]; intros w HI; simpl; [done|].
  by apply IH, InvT_merge.
Qed.

(** [std::mem::take]: all pending games are now in the worker's hands. *)
Lemma triple_take m t :
  triple (InvT [] m t) (with_pending (λ p, (hash_order p, ∅))) (λ games, InvT games m t).
Proof.
  intros w [HI Ht]. simpl. split; [|done].
  eapply (Inv_step [] _ m m w _ []); simpl; rewrite ?app_nil_r; try done; try apply HI.
  - apply Forall_forall. intros [k g] Hin. rewrite Hhash, elem_of_map_to_list in Hin.
    by eapply inv_keyed.
  - intros o g t' [(? & ? & H & _)|[(k & g' & Hk & Hh)|?]]; [by apply not_elem_of_nil in H| |].
    + left. exists k, g'. split; [|done]. by rewrite Hhash, elem_of_map_to_list.
    + rewrite app_nil_r. by do 2 right.
  - intros o g H. by apply not_elem_of_nil in H.
Qed.

Lemma hand_holds_cons entry hand o g :
  hand_holds (entry :: hand) o g ↔ holds o g entry.1 entry.2 ∨ hand_holds hand o g.
Proof.
  unfold hand_holds. split.
  - intros (k & g' & [<-|Hin]%elem_of_cons & H); [by left|right; by eauto].
  - destruct entry as [k g']. intros [H|(k0 & g0 & ? & ?)]; [exists k, g'|exists k0, g0];
      (split; [by constructor|done]).
Qed.

Lemma triple_restore_game restored entry hand m t :
  triple (InvT (entry :: hand) m t) (restore_game sha256 restored entry) (λ _, InvT hand m t).
Proof.
  unfold restore_game.
  assert (Hmerge : triple (InvT (entry :: hand) m t)
    (with_pending (λ p, (true, merge_pending_game p (pk_owner entry.1) entry.2)))
    (λ _, InvT hand m t)).
  { intros w [HI Ht]. simpl. split; [|done].
    pose proof (inv_hand _ _ _ HI) as Hh. apply Forall_cons in Hh as [He Hh].
    destruct (merge_pending_game_spec (w_pending w) (pk_owner entry.1) entry.2)
      as (Hk & Hle & g1 & Hg1 & Hm1); [apply HI|].
    eapply (Inv_step _ _ m m w _ []); simpl; rewrite ?app_nil_r; try done; try apply HI.
    - intros o g t'. rewrite app_nil_r. unfold accounted. rewrite hand_holds_cons.
      intros [[(H1 & H2 & H3 & H4)|?]|[?|?]]; [|by left| |by do 2 right].
      + right; left. exists entry.1, g1. rewrite He in Hg1. split.
        * simpl. rewrite <-Hg1. by destruct entry as [[] ?].
        * repeat split; [done..|lia].
      + right; left. by eapply (pending_holds_le w).
    - intros o g H. by apply not_elem_of_nil in H. }
  destruct (po_principal_scope (pk_owner entry.1)) as [s|] eqn:Es.
  { apply (triple_bind _ _ _ (λ _, InvT (entry :: hand) m t)).
    - by apply triple_ret.
    - intros b. unfold pending_can_survive_with. by rewrite Es. }
  apply (triple_bind _ _ _ (λ b : bool, if b then InvT (entry :: hand) m t else InvT hand m t)).
  - apply triple_step. intros w HI. destruct (runtime_key_is_current _ _ _); [done|].
    destruct HI as [HI Ht]. split; [|done]. pose proof (inv_hand _ _ _ HI) as Hh.
    apply Forall_cons in Hh as [_ Hh].
    eapply (Inv_step _ _ m m w _ [NotCurrent _]); simpl; try done; try apply HI.
    + intros o g t'. unfold accounted. rewrite hand_holds_cons.
      intros [[(H1 & H2 & _)|?]|[?|[?|[?|?]]]].
      * do 4 right. split.
        -- destruct (po_principal_scope o) eqn:E; [|done]. specialize (H2 _ eq_refl). congruence.
        -- rewrite H1. apply elem_of_app. right. by left.
      * by left.
      * by right; left.
      * by right; right; left.
      * do 3 right; left. by apply answered_app.
      * do 4 right. by apply stale_app.
    + intros o g H%list_elem_of_singleton. done.
  - intros b. unfold pending_can_survive_with. rewrite Es. destruct b; [done|].
    by apply triple_ret.
Qed.

Lemma triple_restore_games restored games hand m t :
  triple (InvT (games ++ hand) m t) (restore_games sha256 restored games) (λ _, InvT hand m t).
Proof.
  revert restored. induction games as [|entry games IH]; intros restored; simpl.
  { by apply triple_ret. }
  eapply triple_bind; [apply triple_restore_game|]. intros b. apply IH.
Qed.

Lemma triple_restore games hand m t :
  triple (InvT (games ++ hand) m t) (restore_pending sha256 games) (λ _, InvT hand m t).
Proof.
  eapply triple_bind; [apply triple_lock|]. intros [].  
  eapply triple_bind; [apply triple_restore_games|]. intros restored.
  eapply triple_bind; [apply triple_unlock|]. intros []. by apply triple_ret.
Qed.

Definition bound (p : PendingPlaytimeKey * PlaytimeGame) : Prop :=
  is_Some (po_principal_scope (pk_owner p.1)).

Lemma hand_holds_app hand hand' o g :
  hand_holds (hand ++ hand') o g ↔ hand_holds hand o g ∨ hand_holds hand' o g.
Proof.
  induction hand as [|p hand IH]; simpl.
  - split; [by right|]. intros [(? & ? & H & _)|?]; [by apply not_elem_of_nil in H|done].
  - rewrite !hand_holds_cons, IH. tauto.
Qed.

Lemma triple_Inv {A} hand (prog : M A) (Q : A → World → Prop) :
  (∀ t, triple (InvT hand (contents t) t) prog Q) →
  triple (λ w, Inv hand (rows w) w) prog Q.
Proof. intros H w HI. apply (H (db_playtime (w_journal w))). by split. Qed.

Lemma InvT_rows_all hand m t w : InvT hand m t w → InvT hand (contents t) t w.
Proof.
  intros HI. eapply InvT_rows; [done| |done]. destruct HI as [HI <-]. apply HI.
Qed.
Lemma Inv_of_InvT hand m t w : InvT hand m t w → Inv hand (rows w) w.
Proof. intros HI. apply InvT_rows_all in HI as [HI Ht]. unfold rows, playtime_rows. by rewrite Ht. Qed.

Definition unbound (p : PendingPlaytimeKey * PlaytimeGame) : Prop :=
  po_principal_scope (pk_owner p.1) = None.

Lemma triple_resolve todo games unresolved m t :
  Forall unbound todo → Forall bound games →
  triple (InvT (todo ++ games ++ unresolved) m t) (resolve_unbound todo games unresolved)
    (λ r w, Forall bound r.1 ∧ InvT (r.1 ++ r.2) m t w).
Proof.
  intros Hn. revert games unresolved.
  induction Hn as [|[key game] rest Hk _ IH]; intros games unresolved Hb;
    simpl; [by apply triple_ret|].
  apply (triple_bind _ _ _ (λ scope, InvT ((key, game) :: rest ++ games ++ unresolved) m t));
    [apply triple_read_context|].
  assert (Hf : ∀ w, InvT ((key, game) :: rest ++ games ++ unresolved) m t w →
    gm_app_id game = pk_app_id key ∧
    Forall (λ p, gm_app_id p.2 = pk_app_id p.1) (rest ++ games ++ unresolved)).
  { intros w HI. pose proof (inv_hand _ _ _ (proj1 HI)) as Hh. by apply Forall_cons in Hh. }
  intros [scope|].
  - eapply triple_pre; [|apply IH, Forall_app_2; [done|]].
    2: { apply Forall_singleton. by eexists. }
    intros w HI. destruct (Hf w HI) as [Hg Hh]. rewrite !Forall_app in Hh.
    destruct Hh as (H1 & H2 & H3). eapply InvT_hand; [done| |].
    + intros o g. rewrite !hand_holds_app, hand_holds_cons, !hand_holds_app.
      intros [(E1 & E2 & E3 & E4)|[?|[?|?]]]; [|tauto..].
      right. left. right. eexists _, game. split; [by left|].
      repeat split; simpl; [done| |done|done]. intros s Hs. specialize (E2 s Hs). by rewrite Hk in E2.
    + rewrite !Forall_app. repeat split; [done..| |done]. by apply Forall_singleton.
  - eapply triple_pre; [|by apply IH]. intros w HI. destruct (Hf w HI) as [Hg Hh].
    eapply InvT_hand; [done| |].
    + intros o g. rewrite hand_holds_cons, !hand_holds_app, hand_holds_cons.
      unfold hand_holds at 6. naive_solver.
    + rewrite !Forall_app in *. destruct Hh as (? & ? & ?). repeat split; [done..|].
      by apply Forall_singleton.
Qed.

Lemma partition_pending games :
  Forall bound (partition_pending_games games).1 ∧
  Forall unbound (partition_pending_games games).2 ∧
  games ≡ₚ (partition_pending_games games).2 ++ (partition_pending_games games).1.
Proof.
  induction games as [|p games (IH1 & IH2 & IH3)]; simpl; [done|].
  destruct (partition_pending_games games) as [b u]. simpl in *.
  destruct (po_principal_scope (pk_owner p.1)) eqn:E; simpl.
  - repeat split; [constructor; [by eexists|done]|done|].
    by rewrite <-Permutation_middle, IH3.
  - repeat split; [done|by constructor|]. by rewrite IH3.
Qed.

Lemma coalesce_spec games :
  Forall (λ p, gm_app_id p.2 = pk_app_id p.1) games →
  keyed (coalesce games) ∧
  (∀ k g, (k, g) ∈ games →
     ∃ g', coalesce games !! k = Some g' ∧ gm_playtime_minutes g ≤ gm_playtime_minutes g') ∧
  (∀ k, is_Some (coalesce games !! k) → ∃ p, p ∈ games ∧ pk_owner k = pk_owner p.1).
Proof.
  intros Hf. unfold coalesce.
  enough (∀ m : Pending, keyed m →
    let m' := foldl (λ p entry, merge_pending_game p (pk_owner entry.1) entry.2) m games in
    keyed m' ∧ le_pending m m' ∧
    (∀ k g, (k, g) ∈ games → ∃ g', m' !! k = Some g' ∧
       gm_playtime_minutes g ≤ gm_playtime_minutes g') ∧
    (∀ k, is_Some (m' !! k) → is_Some (m !! k) ∨ ∃ p, p ∈ games ∧ pk_owner k = pk_owner p.1)) as H.
  { destruct (H ∅) as (H1 & _ & H2 & H3); [done|]. split; [done|]. split; [done|].
    intros k Hk. destruct (H3 k Hk) as [[? Hx]|?]; [|done]. by rewrite lookup_empty in Hx. }
  induction Hf as [|[k0 g0] games Hg _ IH]; intros m Hm; cbn zeta; simpl.
  { repeat split; [done|done| |by left]. intros ?? H. by apply not_elem_of_nil in H. }
  destruct (merge_pending_game_spec m (pk_owner k0) g0 Hm) as (Hk1 & Hle1 & g1 & Hg1 & Hm1).
  destruct (IH _ Hk1) as (H1 & H2 & H3 & H4). split; [done|]. split; [by etrans|]. split.
  - intros k g [[= -> ->]|Hin]%elem_of_cons; [|by eauto].
    simpl in Hg. rewrite Hg in Hg1. destruct (H2 _ _ Hg1) as (g2 & Hg2 & ?).
    exists g2. split; [|lia]. rewrite <-Hg2. by destruct k0.
  - intros k Hk. destruct (H4 k Hk) as [[x Hx]|(p & ? & ?)].
    + assert (Hin : (k0, g0) ∈ (k0, g0) :: games) by by left.
      unfold merge_pending_game in Hx. destruct (m !! _) eqn:E;
        rewrite lookup_insert in Hx; case_decide; subst; eauto.
    + right. exists p. split; [by right|done].
Qed.

(** ** Storing *)

Lemma merge_all_minutes r es : pr_playtime_minutes r ≤ pr_playtime_minutes (merge_all r es).
Proof.
  destruct (merge_all_totals r es) as [-> _]. induction es; csimpl; lia.
Qed.

Lemma pending_entry_key at_ k g s :
  po_principal_scope (pk_owner k) = Some s →
  ∃ e, pending_entry at_ (k, g) = Some e ∧
    entry_key e = (s, steam_text (rk_steam_id64 (po_runtime (pk_owner k))), gm_app_id g) ∧
    pe_playtime_minutes e = gm_playtime_minutes g.
Proof. intros Hs. unfold pending_entry. rewrite Hs. by eexists. Qed.

Lemma pending_entries_bound games at_ :
  Forall bound games → is_Some (pending_entries games at_).
Proof.
  intros Hb. apply mapM_is_Some. eapply Forall_impl; [done|].
  intros [k g] [s Hs]. destruct (pending_entry_key at_ k g s Hs) as (e & He & _). by eexists.
Qed.

(** The journal has taken everything in hand. *)
Lemma Inv_enqueued games at_ entries n w j' t :
  InvT games (contents t) t w → Forall bound games →
  pending_entries games at_ = Some entries →
  enqueue_playtime entries (w_journal w) = (Ok n, j') →
  Inv [] (playtime_rows j') (set_journal w j').
Proof.
  intros [HI Ht] Hb He Hq. apply enqueue_playtime_Ok in Hq as (_ & _ & Hrun).
  pose proof (inv_unique _ _ _ HI) as Hu. unfold rows in Hu.
  eapply (Inv_step games [] _ _ w _ []); simpl; rewrite ?app_nil_r; try done; try apply HI.
  - by eapply enqueue_run_unique.
  - intros o g t'. rewrite app_nil_r. unfold accounted.
    intros [(k & g' & Hin & E1 & E2 & E3 & E4)|[?|[(id & r & Hr & Hn & Hm)|?]]].
    + right; right; left. pose proof (inv_hand _ _ _ HI) as Hh.
      rewrite Forall_forall in Hh, Hb. destruct (Hb _ Hin) as [s Hs]. simpl in Hs.
      destruct (pending_entry_key at_ k g' s Hs) as (e & Hpe & Hkey & Hmin).
      apply mapM_Some_1 in He. destruct (list_elem_of_lookup_1 _ _ Hin) as [i Hi].
      destruct (Forall2_lookup_l _ _ _ _ _ He Hi) as (e' & He' & Hpe').
      rewrite Hpe in Hpe'. injection Hpe' as <-.
      destruct (enqueue_run_covers _ _ _ e Hrun Hu) as (id & r & Hr & Hrk & Hrm & _).
      { by eapply list_elem_of_lookup_2. }
      exists id, r. split; [done|]. split; [|lia]. rewrite Hrk, Hkey. exists s. split.
      * specialize (Hh _ Hin). simpl in Hh. by rewrite E1, Hh, E3.
      * intros s' Hs'. specialize (E2 _ Hs'). congruence.
    + by right; left.
    + right; right; left. exists id. eexists. rewrite <-Ht in Hr.
      split; [by eapply enqueue_run_row|]. rewrite merge_all_key. split; [done|].
      etrans; [exact Hm|]. apply merge_all_minutes.
    + by do 3 right.
  - intros o g H. by apply not_elem_of_nil in H.
Qed.

(** Between its turns the worker holds nothing. *)
Definition Good w : Prop := Inv [] (rows w) w.

Lemma triple_Good {A} (prog : M A) (Q : A → World → Prop) :
  (∀ t, triple (InvT [] (contents t) t) prog Q) → triple Good prog Q.
Proof. apply triple_Inv. Qed.

Lemma Good_InvT m t w : InvT [] m t w → Good w.
Proof. apply Inv_of_InvT. Qed.

(** A write that fails leaves the journal alone. *)
Lemma InvT_unchanged hand m t w j : InvT hand m t w → j = w_journal w → InvT hand m t (set_journal w j).
Proof. intros HI ->. by eapply InvT_same. Qed.

Lemma triple_enqueue games at_ entries t :
  Forall bound games → pending_entries games at_ = Some entries →
  triple (InvT games (contents t) t) (with_journal (enqueue_playtime entries))
    (λ r w, match r with Ok _ => Good w | Err _ => InvT games (contents t) t w end).
Proof.
  intros Hb He. apply triple_step. intros w HI.
  destruct (enqueue_playtime entries (w_journal w)) as [[n|err] j'] eqn:Hq; simpl.
  - by eapply Inv_enqueued.
  - apply write_Err in Hq. by apply InvT_unchanged.
Qed.

Lemma triple_persist_games games at_ awaits t :
  Forall bound games →
  triple (InvT games (contents t) t) (persist_games sha256 hash_order games at_ awaits)
    (λ _, Good).
Proof.
  intros Hb. unfold persist_games. destruct games as [|p games0] eqn:Eg.
  { apply triple_ret. intros w HI. by eapply Good_InvT. }
  rewrite <-Eg in *. clear Eg games0.
  assert (Hb' : Forall bound (hash_order (coalesce games)) ∨
                ¬ Forall (λ p, gm_app_id p.2 = pk_app_id p.1) games).
  { destruct (decide (Forall (λ p, gm_app_id p.2 = pk_app_id p.1) games)) as [Hf|]; [|by right].
    left. apply Forall_forall. intros [k g] Hin. rewrite Hhash, elem_of_map_to_list in Hin.
    destruct (coalesce_spec games Hf) as (_ & _ & Ho).
    destruct (Ho k) as (q & Hq & Hown); [by eexists|]. unfold bound. simpl. rewrite Hown.
    rewrite Forall_forall in Hb. by apply Hb. }
  eapply (triple_pre _ (λ w, Forall bound (hash_order (coalesce games)) ∧
    InvT (hash_order (coalesce games)) (contents t) t w)).
  { intros w HI. pose proof (inv_hand _ _ _ (proj1 HI)) as Hf.
    destruct Hb' as [Hb'|Hnf]; [|by destruct (Hnf Hf)]. split; [done|].
    destruct (coalesce_spec games Hf) as (Hk & Hc & _). eapply InvT_hand; [done| |].
    - intros o g (k & g1 & Hin & E1 & E2 & E3 & E4). destruct (Hc k g1 Hin) as (g2 & Hg2 & ?).
      exists k, g2. rewrite Hhash, elem_of_map_to_list. repeat split; [done..|lia].
    - apply Forall_forall. intros [k g] Hin. rewrite Hhash, elem_of_map_to_list in Hin. by apply Hk. }
  apply triple_pure. intros Hc. cbn zeta.
  destruct (pending_entries_bound _ at_ Hc) as [entries He]. rewrite He.
  eapply triple_bind; [by eapply triple_enqueue|]. intros [n|err]; cbv beta iota.
  { by apply triple_ret. }
  apply (triple_bind _ _ _ (λ _, InvT [] (contents t) t)).
  - eapply triple_pre; [|apply triple_restore]. intros w HI. by rewrite app_nil_r.
  - intros restored. apply triple_ret. intros w HI. by eapply Good_InvT.
Qed.

Lemma triple_persist_pending : triple Good (persist_pending sha256 hash_order) (λ _, Good).
Proof.
  apply triple_Good. intros t. unfold persist_pending.
  eapply triple_bind; [apply triple_read_context|]. intros at_.
  apply (triple_bind _ _ _ (λ games, InvT games (contents t) t)).
  { eapply triple_bind; [apply triple_lock|]. intros [].
    eapply triple_bind; [apply triple_take|]. intros games.
    eapply triple_bind; [apply triple_unlock|]. intros []. by apply triple_ret. }
  intros games. destruct games as [|p games0] eqn:Eg.
  { apply triple_ret. intros w HI. by eapply Good_InvT. }
  rewrite <-Eg. clear Eg games0 p. destruct (partition_pending games) as (Hb & Hu & Hp).
  destruct (partition_pending_games games) as [gs un]. simpl in *.
  assert (Hpre : ∀ w, InvT games (contents t) t w → InvT (un ++ gs ++ []) (contents t) t w).
  { intros w HI. rewrite app_nil_r. eapply InvT_hand; [done| |].
    - intros o g (k & g' & Hin & Hh). exists k, g'. split; [by rewrite <-Hp|done].
    - rewrite <-Hp. apply HI. }
  eapply triple_pre; [exact Hpre|]. destruct un as [|p un0] eqn:Eu.
  { eapply triple_pre; [|by apply triple_persist_games].
    intros w HI. simpl in HI. by rewrite app_nil_r in HI. }
  rewrite <-Eu in *. clear Eu un0 p. eapply triple_bind; [by apply triple_resolve|].
  intros [gs' unresolved]. simpl. apply triple_pure. intros Hb'.
  apply (triple_bind _ _ _ (λ _, InvT gs' (contents t) t)).
  - eapply triple_pre; [|apply triple_restore]. intros w HI. eapply InvT_hand; [done| |].
    + intros o g. rewrite !hand_holds_app. tauto.
    + rewrite Permutation_app_comm. apply HI.
  - intros awaits. by apply triple_persist_games.
Qed.

(** ** Waiting *)

(** The two things a wait does to the world besides running events. *)
Lemma InvT_script hand m t w s : InvT hand m t w → InvT hand m t (set_script w s).
Proof. intros HI. by eapply InvT_same. Qed.
Lemma InvT_wake hand m t w b : InvT hand m t w → InvT hand m t (set_wake w b).
Proof. intros HI. by eapply InvT_same. Qed.
Lemma InvT_instant hand m t w i : InvT hand m t w → InvT hand m t (set_instant w i).
Proof. intros HI. by eapply InvT_same. Qed.

Lemma InvT_wait hand m t until script w :
  InvT hand m t w → InvT hand m t (wait_events until script w).2.
Proof.
  revert w. induction script as [|batch0 script IH]; intros w HI; simpl.
  - destruct (w_wake w); [by apply InvT_script, InvT_wake|].
    destruct (negb _); [by apply InvT_script|].
    destruct until as [until|]; [|by apply InvT_script].
    destruct (until <=? _); [by apply InvT_script|by apply InvT_script, InvT_instant].
  - revert w HI. induction batch0 as [|ev batch0 IHb]; intros w HI;
      (destruct (w_wake w); [by apply InvT_script, InvT_wake|]);
      (destruct (negb _); [by apply InvT_script|]);
      (destruct (match until with Some _ => _ | None => _ end); [by apply InvT_script|]).
    + destruct script; [|by apply IH].
      destruct until; [by apply InvT_script, InvT_instant|by apply InvT_script].
    + by apply IHb, InvT_event.
Qed.

Lemma triple_wait hand m t (delay : option Z) :
  triple (InvT hand m t) (λ w, wait_events ((λ d, w_instant w + d) <$> delay) (w_script w) w)
    (λ _, InvT hand m t).
Proof. intros w HI. by apply InvT_wait. Qed.

Lemma triple_recv hand m t : triple (InvT hand m t) recv (λ _, InvT hand m t).
Proof. apply (triple_wait _ _ _ None). Qed.
Lemma triple_recv_timeout hand m t delay :
  triple (InvT hand m t) (recv_timeout delay) (λ _, InvT hand m t).
Proof. apply (triple_wait _ _ _ (Some delay)). Qed.

Lemma triple_wait_for_upload_work hand m t a b :
  triple (InvT hand m t) (wait_for_upload_work a b) (λ _, InvT hand m t).
Proof.
  unfold wait_for_upload_work. apply (triple_bind _ _ _ (λ _, InvT hand m t)).
  { destruct a; [|by apply triple_ret]. eapply triple_bind; [apply triple_read_context|].
    intros now. by apply triple_ret. }
  intros d1. apply (triple_bind _ _ _ (λ _, InvT hand m t)).
  { destruct b; [|by apply triple_ret]. eapply triple_bind; [apply triple_instant|].
    intros now. by apply triple_ret. }
  intros d2. apply (triple_bind _ _ _ (λ _, InvT hand m t)).
  { destruct (min_delay d1 d2); [apply triple_recv_timeout|apply triple_recv]. }
  intros r. by apply triple_ret.
Qed.

Lemma triple_collect_loop hand m t fuel debounce hard quiet trailing :
  triple (InvT hand m t) (collect_loop fuel debounce hard quiet trailing) (λ _, InvT hand m t).
Proof.
  revert quiet trailing. induction fuel as [|fuel IH]; intros quiet trailing; simpl.
  { by apply triple_ret. }
  eapply triple_bind; [apply triple_instant|]. intros now.
  case_match; [by apply triple_ret|].
  eapply triple_bind; [apply triple_recv_timeout|]. intros [[]|]; [|by apply triple_ret..].
  eapply triple_bind; [apply triple_instant|]. intros now'. apply IH.
Qed.

Lemma triple_collect hand m t debounce hard :
  triple (InvT hand m t) (collect_snapshot_burst debounce hard) (λ _, InvT hand m t).
Proof.
  eapply triple_bind; [apply triple_instant|]. intros start.
  eapply triple_bind; [apply triple_instant|]. intros quiet w HI.
  by apply (triple_collect_loop hand m t _ _ _ _ _ w).
Qed.

(** A step that keeps [InvT] keeps the worker's invariant. *)
Lemma triple_keeps {A} (prog : M A) :
  (∀ t, triple (InvT [] (contents t) t) prog (λ _, InvT [] (contents t) t)) →
  triple Good prog (λ _, Good).
Proof.
  intros H. apply triple_Good. intros t. eapply triple_post; [apply H|].
  intros a w HI. exact (Good_InvT _ _ _ HI).
Qed.

Lemma triple_debounce : triple Good (debounce_and_persist sha256 hash_order) (λ _, Good).
Proof.
  eapply triple_bind; [apply triple_persist_pending|]. intros p.
  eapply triple_bind; [apply triple_keeps; intros t; apply triple_collect|]. intros [].
  - apply triple_persist_pending.
  - by apply triple_ret.
Qed.

(** ** Uploading *)

(** The rows that are not part of the batch [items]. *)
Definition others (items : list (Queued PlaytimeEntry)) (m : gmap Ref PlaytimeRecord)
    : gmap Ref PlaytimeRecord :=
  filter (λ p, ref_to_string p.1 ∉ q_id <$> items) m.

Lemma settle_spec_others (m : gmap Ref PlaytimeRecord) (items : list (Queued PlaytimeEntry)) ids :
  Forall2 (λ item id, reference item = Ok id) items ids →
  (∀ item, item ∈ items → ∃ id r, item = queue_row id r) →
  others items m ⊆ settle_spec m (zip ids items).
Proof.
  intros Hids Hq. apply map_subseteq_spec. intros id r [Hr Hn]%map_lookup_filter_Some.
  simpl in Hn. revert m Hr. induction Hids as [|item i items ids Hi _ IH]; intros m Hr; [done|].
  unfold settle_spec. simpl. apply IH.
  - intros x Hx. apply Hq. by right.
  - intros Hx. apply Hn. csimpl. by right.
  - destruct (Hq item) as (i0 & r0 & ->); [by left|].
    unfold queue_row in Hi. rewrite reference_new in Hi. injection Hi as <-.
    case_match; [|done]. rewrite lookup_delete_ne; [done|]. intros ->. apply Hn. by left.
Qed.

(** A settled answer answers for every row of the batch. *)
Lemma triple_upload backend client sid scope now j t :
  db_playtime j = t →
  let items := pending_playtime scope sid now j in
  triple (InvT [] (contents t) t) (upload backend client sid (values items))
    (λ answer w, InvT [] (contents t) t w ∧
       (settled answer → InvT [] (others items (contents t)) t w)).
Proof.
  intros Hj items. apply triple_step. intros w HI.
  destruct (cb_upload_playtime _ _ _ _ _) as [answer srv]. simpl.
  assert (H0 : InvT [] (contents t) t (set_server w srv)) by by eapply InvT_same.
  split; [by apply InvT_observe|]. intros Hs. destruct H0 as [H0 Ht]. split; [|done].
  eapply (Inv_step _ _ _ _ _ _ [_] H0); simpl; try done; try apply H0.
  - etrans; [|apply H0]. unfold others. apply map_filter_subseteq.
  - intros o g t' [?|[?|[(id & r & Hr & Hn & Hm)|[?|?]]]].
    + by left.
    + by right; left.
    + destruct (decide (ref_to_string id ∈ q_id <$> items)) as [Hin|Hout].
      * do 3 right; left. apply list_elem_of_fmap in Hin as (item & Hid & Hin).
        destruct (elem_of_pending_playtime _ _ _ _ _ Hin) as (id0 & r0 & -> & Hr0 & _).
        assert (id = id0) as <-.
        { apply (inj Some). by rewrite <-!parse_to_string, Hid. }
        unfold playtime_rows in Hr0. rewrite Hj, Hr in Hr0. injection Hr0 as <-.
        eexists client, sid, (values items), answer, (PlaytimeRecord_value r).
        split; [apply elem_of_app; right; by left|]. split; [done|]. split; [|by split].
        apply list_elem_of_fmap. by exists (queue_row id r).
      * right; right; left. exists id, r. split; [|done]. by apply map_lookup_filter_Some.
    + do 3 right; left. by apply answered_app.
    + do 4 right. by apply stale_app.
  - intros o g H%list_elem_of_singleton. done.
Qed.

Lemma triple_acknowledge scope sid now j t :
  let items := pending_playtime scope sid now j in
  triple (InvT [] (others items (contents t)) t) (with_journal (acknowledge_all items))
    (λ _, Good).
Proof.
  intros items. apply triple_step. intros w HI.
  destruct (acknowledge_all items (w_journal w)) as [[[]|err] j'] eqn:Hq; simpl.
  2: { apply write_Err in Hq. eapply Good_InvT, InvT_unchanged; done. }
  apply settle_Ok in Hq as (ids & t' & Hids & -> & Hc). destruct HI as [HI Ht].
  simpl in Hc. rewrite Ht in Hc.
  assert (Hsub : others items (contents t) ⊆ contents t').
  { rewrite Hc. apply settle_spec_others; [done|]. intros item Hin.
    destruct (elem_of_pending_playtime _ _ _ _ _ Hin) as (id & r & -> & _). by eexists _, _. }
  eapply (Good_InvT (others items (contents t)) t'). split; [|done].
  eapply (Inv_step _ _ _ _ w _ [] HI); simpl; rewrite ?app_nil_r; try done; try apply HI.
  - unfold rows, playtime_rows. simpl. rewrite Hc. apply unique_by_settle.
    pose proof (inv_unique _ _ _ HI) as Hu. unfold rows, playtime_rows in Hu. by rewrite Ht in Hu.
  - intros o g t0. by rewrite app_nil_r.
  - intros o g H. by apply not_elem_of_nil in H.
Qed.

(** Putting a batch off keeps its rows. *)
Lemma postpone_spec_keeps now (m : gmap Ref PlaytimeRecord)
    (items : list (Ref * Queued PlaytimeEntry)) id r :
  m !! id = Some r →
  ∃ r', postpone_spec now m items !! id = Some r' ∧ playtime_key r' = playtime_key r ∧
        pr_playtime_minutes r' = pr_playtime_minutes r.
Proof.
  revert m r. induction items as [|[i item] items IH]; intros m r Hr; [by exists r|].
  unfold postpone_spec. simpl. case_match; [|by apply IH].
  destruct (decide (i = id)) as [->|Hne].
  - destruct (IH (alter (postponed now) id m) (postponed now r)) as (r' & Hr' & Hk & Hm);
      [by rewrite lookup_alter_eq, Hr|]. exists r'. by rewrite Hk, Hm.
  - apply IH. by rewrite lookup_alter_ne.
Qed.

Lemma triple_defer (items : list (Queued PlaytimeEntry)) now t :
  triple (InvT [] (contents t) t) (with_journal (defer_all items now)) (λ _, Good).
Proof.
  apply triple_step. intros w HI.
  destruct (defer_all items now (w_journal w)) as [[[]|err] j'] eqn:Hq; simpl.
  2: { apply write_Err in Hq. eapply Good_InvT, InvT_unchanged; done. }
  apply postpone_Ok in Hq as (ids & t' & _ & -> & Hc). destruct HI as [HI Ht].
  simpl in Hc. rewrite Ht in Hc.
  eapply (Inv_step _ _ _ _ w _ [] HI); simpl; rewrite ?app_nil_r; try done; try apply HI.
  - unfold rows, playtime_rows. simpl. rewrite Hc. apply unique_by_postpone; [done|].
    pose proof (inv_unique _ _ _ HI) as Hu. unfold rows, playtime_rows in Hu. by rewrite Ht in Hu.
  - intros o g t0. rewrite app_nil_r.
    intros [?|[?|[(id & r & Hr & Hn & Hm)|?]]]; [by left|by right; left| |by do 3 right].
    right; right; left. unfold rows, playtime_rows. simpl. rewrite Hc.
    destruct (postpone_spec_keeps now _ (zip ids items) _ _ Hr) as (r' & Hr' & Hk & Hm').
    exists id, r'. rewrite Hk, Hm'. done.
  - intros o g H. by apply not_elem_of_nil in H.
Qed.

Lemma triple_flush_accounts backend scope client accounts attempted :
  triple Good (flush_accounts backend scope client accounts attempted) (λ _, Good).
Proof.
  revert attempted. induction accounts as [|sid accounts IH]; intros attempted; simpl.
  { by apply triple_ret. }
  apply triple_Good. intros t. eapply triple_bind; [apply triple_read_context|]. intros now.
  eapply triple_bind; [apply triple_read_journal|]. intros items w [HI (j & Hj & ->)].
  set (items := pending_playtime scope sid now j). revert w HI.
  assert (Hsettle : triple (InvT [] (others items (contents t)) t)
    (settled ← with_journal (acknowledge_all items);
     match settled with
     | Err _ => mret None
     | Ok _ => flush_accounts backend scope client accounts true
     end) (λ _, Good)).
  { eapply triple_bind; [apply triple_acknowledge|]. intros [[]|e]; [apply IH|].
    by apply triple_ret. }
  assert (Hupload : triple (InvT [] (contents t) t)
    (answer ← upload backend client sid (values items);
     match answer with
     | Ok _ =>
         settled ← with_journal (acknowledge_all items);
         match settled with
         | Err _ => mret None
         | Ok _ => flush_accounts backend scope client accounts true
         end
     | Err error =>
         if is_retryable error then
           now ← unix_now; _ ← with_journal (defer_all items now); mret None
         else
           settled ← with_journal (acknowledge_all items);
           match settled with
           | Err _ => mret None
           | Ok _ => flush_accounts backend scope client accounts true
           end
     end) (λ _, Good)).
  { eapply triple_bind; [by apply triple_upload|]. intros [[]|error].
    - eapply triple_pre; [|exact Hsettle]. intros w [_ H]. by apply H.
    - destruct (is_retryable error) eqn:Er.
      + eapply triple_pre; [intros w [H _]; exact H|].
        eapply triple_bind; [apply triple_read_context|]. intros now'.
        eapply triple_bind; [apply triple_defer|]. intros r. by apply triple_ret.
      + eapply triple_pre; [|exact Hsettle]. intros w [_ H]. by apply H. }
  intros w HI. destruct items eqn:Ei.
  - exact (IH attempted w (Good_InvT _ _ _ HI)).
  - rewrite <-Ei in *. exact (Hupload w HI).
Qed.

Lemma triple_bound_descriptor backend d :
  triple Good (bound_descriptor backend d) (λ _, Good).
Proof.
  apply triple_keeps. intros t. destruct d; simpl; [by apply triple_ret|].
  eapply triple_bind; [apply triple_read_context|]. intros [d|]; [|by apply triple_ret].
  apply (triple_bind _ _ _ (λ _, InvT [] (contents t) t)).
  - apply triple_step. intros w HI. destruct (cb_ensure_device_bound _ _ _) as [a srv]. simpl.
    apply InvT_observe; [done|]. by eapply InvT_same.
  - intros a. by apply triple_ret.
Qed.

Lemma triple_flush_rounds rounds backend scope d :
  triple Good (flush_rounds rounds backend scope d) (λ _, Good).
Proof.
  revert d. induction rounds as [|rounds IH]; intros d; simpl; [by apply triple_ret|].
  eapply triple_bind; [apply triple_keeps; intros t; apply triple_read_context|]. intros now.
  apply (triple_bind _ _ _ (λ _, Good)).
  { apply triple_keeps. intros t. eapply triple_post; [apply triple_read_journal|].
    intros a w [? _]. done. }
  intros [|a accounts]; [by apply triple_ret|].
  eapply triple_bind; [apply triple_bound_descriptor|]. intros [d'|o]; [|by apply triple_ret].
  eapply triple_bind; [apply triple_flush_accounts|].
  intros [[]|]; [apply IH|by apply triple_ret..].
Qed.

Lemma triple_context {A} (f : Context Srv → A) : triple Good (read_context f) (λ _, Good).
Proof. apply triple_keeps. intros t. apply triple_read_context. Qed.

Lemma triple_flush : triple Good (flush sha256) (λ _, Good).
Proof.
  eapply triple_bind; [apply triple_context|]. intros [b|]; [|by apply triple_ret].
  eapply triple_bind; [apply triple_context|]. intros [s|]; [|by apply triple_ret].
  apply triple_flush_rounds.
Qed.

(** ** The loop *)

Lemma triple_next : triple Good (worker_next_attempt_at sha256) (λ _, Good).
Proof.
  eapply triple_bind; [apply triple_context|]. intros [b|]; [|by apply triple_ret].
  eapply triple_bind; [apply triple_context|]. intros [d|]; [|by apply triple_ret].
  eapply triple_bind; [apply triple_context|]. intros [s|]; [|by apply triple_ret].
  apply triple_keeps. intros t. eapply triple_post; [apply triple_read_journal|].
  intros a w [? _]. done.
Qed.

Lemma triple_pass s event : triple Good (upload_pass sha256 hash_order s event) (λ _, Good).
Proof.
  unfold upload_pass. apply (triple_bind _ _ _ (λ _, Good)).
  { destruct event; [apply triple_debounce|apply triple_persist_pending..]. }
  intros p. apply (triple_bind _ _ _ (λ _, Good)).
  { case_match; [|by apply triple_ret].
    eapply triple_bind; [apply triple_keeps; intros t; apply triple_instant|].
    intros now. by apply triple_ret. }
  intros retry. eapply triple_bind; [apply triple_keeps; intros t; apply triple_generation|].
  intros gen. apply (triple_bind _ _ _ (λ _, Good)).
  { case_match; [|by apply triple_ret]. eapply triple_bind; [apply triple_flush|].
    intros o. by apply triple_ret. }
  intros gate. eapply triple_bind; [apply triple_keeps; intros t; apply triple_generation|].
  intros gen'. eapply triple_bind; [apply triple_next|]. intros next. by apply triple_ret.
Qed.

Lemma triple_turn s : triple Good (upload_turn sha256 hash_order s) (λ _, Good).
Proof.
  apply (triple_bind _ _ _ (λ _, Good)).
  { case_match; [by apply triple_ret|].
    apply triple_keeps. intros t. apply triple_wait_for_upload_work. }
  intros [[]|]; [..|by apply triple_ret].
  1,2: eapply triple_bind; [apply triple_pass|]; intros s'; by apply triple_ret.
  by apply triple_ret.
Qed.

Lemma triple_loop turns s : triple Good (upload_loop sha256 hash_order turns s) (λ _, Good).
Proof.
  revert s. induction turns as [|turns IH]; intros s; simpl; [by apply triple_ret|].
  eapply triple_bind; [apply triple_turn|]. intros [s'|]; [apply IH|by apply triple_ret].
Qed.

(** The run of a fresh worker. *)
Lemma good_loop turns s w :
  unique_by playtime_key (playtime_rows (w_journal w)) → w_pending w = ∅ → w_trace w = [] →
  Good (upload_loop sha256 hash_order turns s w).2.
Proof.
  intros Hunique Hpending Htrace. apply (triple_loop turns s w).
  split; [done|done|by rewrite Hpending|done|].
  intros t1 o g t2 H. rewrite Htrace in H. by destruct t1.
Qed.
End worker.

(** C7 [playtime_never_lost]: start the worker on a journal with one row per account and app,
    nothing pending and nothing observed yet, and let it run any number of turns against any
    script of the other threads, with a journal whose writes and a backend whose calls may fail. Every
    game that was merged on the way is then still pending under its owner, or in the journal,
    or in an upload the backend has taken or refused for good since; with at least the minutes
    that were observed, and under the principal it was observed for. The one exception is a
    game seen before any principal was known whose runtime the worker has since found
    replaced. *)
Theorem playtime_never_lost {St : Structsy} {L : StructsyLaws St} {Srv : Type} sha256 hash_order
    (w : @World St Srv) turns s
    (Hhash : ∀ m, hash_order m ≡ₚ map_to_list m)
    (Hunique : unique_by playtime_key (playtime_rows (w_journal w)))
    (Hpending : w_pending w = ∅) (Htrace : w_trace w = []) :
  let w' := (upload_loop sha256 hash_order turns s w).2 in
  ∀ before owner game since, w_trace w' = before ++ Merged owner game :: since →
    pending_holds w' owner game ∨
    journal_holds (playtime_rows (w_journal w')) owner game ∨
    answered since owner game ∨
    stale since owner.
Proof.
  intros w' before owner game since Htr.
  pose proof (good_loop sha256 hash_order Hhash turns s w Hunique Hpending Htrace) as HI.
  destruct (inv_accounts _ _ _ HI _ _ _ _ Htr) as [(k & g & Hin & _)|H]; [|exact H].
  by apply not_elem_of_nil in Hin.
Qed.
