(* ===== verification/PlaytimeDelivery.v ===== *)
(** * PlaytimeDelivery: the worker against a backend that keeps what it takes

    What the playtime worker may expect of a backend is the interface [PlaytimeSink]: a
    successful upload covers its entries and nothing covered is lost again. The theorems about
    the worker are proved against it; [local_sink] shows that the folder of [cloud-local] is
    one. Also: a device the backend refuses for good is left in peace until the context
    changes.

    Both use [Stable]: a predicate on worlds is stable when the events of other threads keep it
    (those that satisfy [fine]) and so does every step of the worker that calls no backend.
    Then the whole of [PlaytimeWorker] short of [flush] keeps it. *)

From Stdlib Require Import ZArith Lia.
From S2P Require Import Prelude RustStd CloudCore Apps PlaytimeDownlink Storage JournalRecord SyncJournal.
From S2P Require Import JournalProofs WorkerContext Backends PlaytimeWorker PlaytimeWorkerProofs.
From S2P Require LocalSync LocalSyncProofs.

Local Open Scope Z_scope.

(** ** Predicates that survive the worker's own steps *)

(** What the worker does on its own: nothing that asks a backend. *)
Definition is_call (o : Observed) : bool :=
  match o with Bound _ _ | Uploaded _ _ _ _ => true | _ => false end.
Definition calls (t : list Observed) : list Observed := filter is_call t.

Lemma calls_app t new : calls (t ++ new) = calls t ++ calls new.
Proof. apply filter_app. Qed.
Lemma calls_merged owner games : calls (Merged owner <$> games) = [].
Proof. by induction games. Qed.

Record Stable {St : Structsy} {Srv} (fine : @Event St Srv → Prop) (P : @World St Srv → Prop)
    : Prop := {
  st_event w e : fine e → P w → P (apply_event w e);
  st_script w s : P w → Forall (Forall fine) s → P (set_script w s);
  st_fine w : P w → Forall (Forall fine) (w_script w);
  st_own w w' new :
    P w → w_context w' = w_context w → w_server w' = w_server w →
    w_generation w' = w_generation w → w_script w' = w_script w →
    w_trace w' = w_trace w ++ new → calls new = [] → P w';
}.

Section stable.
Context {St : Structsy} {Srv : Type} (sha256 : list Z → list Z).
Context (hash_order : Pending → PendingGames).
Context (fine : @Event St Srv → Prop) (P : @World St Srv → Prop) (HP : Stable fine P).
Implicit Types (w : @World St Srv).

Lemma stable_same w w' :
  P w → w_context w' = w_context w → w_server w' = w_server w →
  w_generation w' = w_generation w → w_script w' = w_script w → w_trace w' = w_trace w → P w'.
Proof. intros Hw ???? Ht. eapply (st_own _ _ HP w w' []); [done..|by rewrite app_nil_r|done]. Qed.

Lemma stable_merge w owner games : P w → P (merge_games w owner games).
Proof. intros Hw. eapply (st_own _ _ HP w _ (Merged owner <$> games)); try done. apply calls_merged. Qed.

Lemma stable_events w batch : Forall fine batch → P w → P (foldl apply_event w batch).
Proof.
  intros H. revert w. induction H; intros w Hw; simpl; [done|].
  by apply IHForall, (st_event _ _ HP).
Qed.

Lemma stable_sync w : P w → P (sync w).
Proof.
  intros Hw. pose proof (st_fine _ _ HP _ Hw) as Hs. unfold sync.
  destruct (w_script w) as [|batch rest]; [done|]. apply Forall_cons in Hs as [Hb Hr].
  apply stable_events; [done|]. by apply (st_script _ _ HP).
Qed.

Notation keeps prog := (triple P prog (λ _, P)).

Lemma keeps_step {A} (f : World → A * World) : (∀ w, P w → P (f w).2) → keeps (step f).
Proof. intros Hf w Hw. by apply Hf, stable_sync. Qed.
Lemma stable_ret {A} (a : A) : keeps (mret a).
Proof. by apply triple_ret. Qed.
Lemma stable_bind {A B} (m : M A) (k : A → M B) :
  keeps m → (∀ a, keeps (k a)) → keeps (m ≫= k).
Proof. intros Hm Hk. by eapply triple_bind. Qed.

Lemma keeps_read_context {A} (f : Context Srv → A) : keeps (read_context f).
Proof. by apply keeps_step. Qed.
Lemma keeps_read_journal {A} (f : Database → A) : keeps (read_journal f).
Proof. by apply keeps_step. Qed.
Lemma keeps_with_journal {A} (f : Database → A * Database) : keeps (with_journal f).
Proof.
  apply keeps_step. intros w Hw. destruct (f (w_journal w)). by eapply (stable_same w).
Qed.
Lemma keeps_instant : keeps Instant_now.
Proof. by apply keeps_step. Qed.
Lemma keeps_generation : keeps load_generation.
Proof. by apply keeps_step. Qed.
Lemma keeps_lock : keeps lock.
Proof. apply keeps_step. intros w Hw. by eapply (stable_same w). Qed.
Lemma keeps_with_pending {A} (f : Pending → A * Pending) : keeps (with_pending f).
Proof.
  intros w Hw. unfold with_pending. destruct (f (w_pending w)). by eapply (stable_same w).
Qed.
Lemma keeps_unlock : keeps unlock.
Proof.
  intros w Hw. unfold unlock. simpl. generalize (default [] (w_held w)). intros waiting.
  assert (H : P (set_held w None)) by by eapply (stable_same w).
  revert H. generalize (set_held w None). clear w Hw.
  induction waiting as [|[owner games] waiting IH]; intros w Hw; simpl; [done|].
  by apply IH, stable_merge.
Qed.
Lemma keeps_is_current key : keeps (is_current sha256 key).
Proof.
  apply keeps_step. intros w Hw. case_match; [done|].
  by eapply (st_own _ _ HP w _ [NotCurrent key]).
Qed.

Create HintDb keeps.
#[local] Hint Resolve stable_ret keeps_read_context keeps_read_journal keeps_with_journal
  keeps_instant keeps_generation keeps_lock keeps_with_pending keeps_unlock keeps_is_current
  : keeps.

(** Programs made of such steps. *)
Ltac keep :=
  repeat first [ progress auto 1 with keeps | apply stable_bind; [|intros] | case_match ].

Lemma keeps_restore_games restored games : keeps (restore_games sha256 restored games).
Proof.
  revert restored. induction games as [|entry games IH]; intros restored; simpl; [keep|].
  unfold restore_game. keep.
Qed.
Lemma stable_restore games : keeps (restore_pending sha256 games).
Proof. unfold restore_pending. keep. apply keeps_restore_games. Qed.
Lemma stable_resolve todo games unresolved : keeps (resolve_unbound todo games unresolved).
Proof.
  revert games unresolved. induction todo as [|[key game] todo IH]; intros; simpl; keep.
Qed.
#[local] Hint Resolve stable_restore stable_resolve : keeps.

Lemma keeps_persist : keeps (persist_pending sha256 hash_order).
Proof. unfold persist_pending, unix_now, persist_games. keep. Qed.
#[local] Hint Resolve keeps_persist : keeps.

(** *** Waiting *)

Lemma stable_wake w b : P w → P (set_wake w b).
Proof. intros Hw. by eapply (stable_same w). Qed.
Lemma stable_instant w i : P w → P (set_instant w i).
Proof. intros Hw. by eapply (stable_same w). Qed.

Lemma stable_wait until script w :
  Forall (Forall fine) script → P w → P (wait_events until script w).2.
Proof.
  intros Hs. revert w. induction Hs as [|batch0 script Hb Hs IH]; intros w Hw; simpl.
  - destruct (w_wake w); [apply (st_script _ _ HP); [by apply stable_wake|by repeat constructor]|].
    destruct (negb _); [apply (st_script _ _ HP); [done|by repeat constructor]|].
    destruct until as [until|]; [|by apply (st_script _ _ HP)].
    destruct (until <=? _); [apply (st_script _ _ HP); [done|by repeat constructor]|].
    apply (st_script _ _ HP); [by apply stable_instant|done].
  - revert w Hw. induction Hb as [|ev batch0 He Hb IHb]; intros w Hw;
      (destruct (w_wake w);
         [apply (st_script _ _ HP); [by apply stable_wake|by repeat constructor]|]);
      (destruct (negb _); [apply (st_script _ _ HP); [done|by repeat constructor]|]);
      (destruct (match until with Some _ => _ | None => _ end);
         [apply (st_script _ _ HP); [done|by repeat constructor]|]).
    + destruct script; [|by apply IH].
      destruct until; apply (st_script _ _ HP); [by apply stable_instant|done|done|done].
    + by apply IHb, (st_event _ _ HP).
Qed.

Lemma keeps_recv : keeps recv.
Proof. intros w Hw. apply stable_wait; [by apply (st_fine _ _ HP)|done]. Qed.
Lemma keeps_recv_timeout delay : keeps (recv_timeout delay).
Proof. intros w Hw. apply stable_wait; [by apply (st_fine _ _ HP)|done]. Qed.
#[local] Hint Resolve keeps_recv keeps_recv_timeout : keeps.

Lemma keeps_wait_for_upload_work a b : keeps (wait_for_upload_work a b).
Proof. unfold wait_for_upload_work, unix_now. keep. Qed.
Lemma keeps_collect_loop fuel debounce hard quiet trailing :
  keeps (collect_loop fuel debounce hard quiet trailing).
Proof. revert quiet trailing. induction fuel as [|fuel IH]; intros; simpl; keep. Qed.
Lemma stable_collect debounce hard : keeps (collect_snapshot_burst debounce hard).
Proof.
  unfold collect_snapshot_burst. keep. intros w Hw. by apply (keeps_collect_loop _ _ _ _ _ w).
Qed.
#[local] Hint Resolve keeps_wait_for_upload_work stable_collect : keeps.

Lemma keeps_debounce : keeps (debounce_and_persist sha256 hash_order).
Proof. unfold debounce_and_persist. keep. Qed.
Lemma keeps_next : keeps (worker_next_attempt_at sha256).
Proof. unfold worker_next_attempt_at. keep. Qed.
#[local] Hint Resolve keeps_debounce keeps_next : keeps.

(** A turn keeps [P] when its [flush] does. *)
Lemma keeps_turn s : keeps (flush sha256) → keeps (upload_turn sha256 hash_order s).
Proof. intros Hf. unfold upload_turn, upload_pass. keep. Qed.

Lemma keeps_loop turns s : keeps (flush sha256) → keeps (upload_loop sha256 hash_order turns s).
Proof.
  intros Hf. revert s. induction turns as [|turns IH]; intros s; simpl; [keep|].
  apply stable_bind; [by apply keeps_turn|]. intros [s'|]; [apply IH|keep].
Qed.

(** A flush keeps [P] when the calls of its backend do. *)
Section flush.
Context (b : CloudBackend Srv).
Hypothesis keeps_bind_device : ∀ d, keeps (bind_device b d).
Hypothesis keeps_upload : ∀ client sid es, keeps (upload b client sid es).
#[local] Hint Resolve keeps_bind_device keeps_upload : keeps.

Lemma keeps_flush_accounts scope client accounts attempted :
  keeps (flush_accounts b scope client accounts attempted).
Proof.
  revert attempted. induction accounts as [|sid accounts IH]; intros; simpl; unfold unix_now; keep.
Qed.
Lemma keeps_flush_rounds rounds scope d : keeps (flush_rounds rounds b scope d).
Proof.
  revert d. induction rounds as [|rounds IH]; intros d; simpl; [keep|].
  unfold unix_now, bound_descriptor. keep; apply keeps_flush_accounts.
Qed.
End flush.
End stable.

(** ** The interface *)

(** [grows s s']: nothing the backend holds in [s] is missing in [s']. *)
Class PlaytimeSink {Srv} (grows : Srv → Srv → Prop)
    (covers : Srv → Z → string → PlaytimeEntry → Prop) (b : CloudBackend Srv) : Prop := {
  sink_order :: PreOrder grows;
  sink_keeps s s' client sid e : grows s s' → covers s client sid e → covers s' client sid e;
  sink_bind d s : grows s (cb_ensure_device_bound b d s).2;
  sink_upload client sid es s :
    grows s (cb_upload_playtime b client sid es s).2 ∧
    ((cb_upload_playtime b client sid es s).1 = Ok tt →
     ∀ e, e ∈ es → covers (cb_upload_playtime b client sid es s).2 client sid e);
}.

Section delivery.
Context {St : Structsy} {Srv : Type} (sha256 : list Z → list Z).
Context (hash_order : Pending → PendingGames).
Context (grows : Srv → Srv → Prop) (covers : Srv → Z → string → PlaytimeEntry → Prop).
Context {Hgrows : PreOrder grows}
  (Hcovers : ∀ s s' client sid e, grows s s' → covers s client sid e → covers s' client sid e).

Notation World := (@World St Srv).
Notation Event := (@Event St Srv).
Implicit Types (w : World).

(** Every backend the process configures is a sink, and other users of the service do not
    take away what it holds. *)
Definition safe_context (c : Context Srv) : Prop :=
  ∀ cached, cx_backend c = Some cached → PlaytimeSink grows covers (cb_backend cached).
Definition safe_event (e : Event) : Prop :=
  match e with
  | EContext c => safe_context c
  | EServer act => ∀ s, grows s (act s)
  | _ => True
  end.

(** What was uploaded with success is still at the backend. *)
Definition durable (t : list Observed) (srv : Srv) : Prop :=
  ∀ client sid es e, Uploaded client sid es (Ok tt) ∈ t → e ∈ es → covers srv client sid e.

Record Safe w : Prop := {
  safe_current : safe_context (w_context w);
  safe_script : Forall (Forall safe_event) (w_script w);
  safe_durable : durable (w_trace w) (w_server w);
}.

Lemma durable_grows t srv srv' : grows srv srv' → durable t srv → durable t srv'.
Proof. intros Hg Hd client sid es e H1 H2. eapply Hcovers; eauto. Qed.

Lemma durable_app t new srv :
  durable t srv → durable new srv → durable (t ++ new) srv.
Proof. intros H1 H2 client sid es e [?|?]%elem_of_app ?; eauto. Qed.

Lemma durable_quiet new srv : calls new = [] → durable new srv.
Proof.
  intros H c s es e Hin. exfalso. apply (not_elem_of_nil (Uploaded c s es (Ok tt))).
  rewrite <-H. by apply list_elem_of_filter.
Qed.

Lemma safe_stable : Stable safe_event Safe.
Proof.
  split.
  - intros w e He HS. destruct e; simpl in *; try (by destruct HS as [H1 H2 H3]; split).
    + destruct (w_held w); [by destruct HS as [H1 H2 H3]; split|].
      split; [apply HS|apply HS|]. apply durable_app; [apply HS|].
      apply durable_quiet, calls_merged.
    + split; [apply HS|apply HS|]. simpl. eapply durable_grows; [apply He|apply HS].
  - intros w s [H1 H2 H3] Hs. by split.
  - intros w HS. apply HS.
  - intros w w' new [H1 H2 H3] Hc Hs _ Hscript Ht Hn.
    split; [by rewrite Hc|by rewrite Hscript|]. rewrite Ht, Hs.
    apply durable_app; [done|by apply durable_quiet].
Qed.

(** *** Uploads *)

Section backend.
Context (b : CloudBackend Srv) {Hb : PlaytimeSink grows covers b}.

Lemma safe_bind_device d : triple Safe (bind_device b d) (λ _, Safe).
Proof.
  apply (keeps_step _ _ safe_stable). intros w [H1 H2 H3].
  pose proof (sink_bind d (w_server w)) as Hg.
  destruct (cb_ensure_device_bound b d (w_server w)) as [a srv]. simpl in *.
  split; [done..|]. simpl. apply durable_app; [by eapply durable_grows|].
  intros c s es x Hin%list_elem_of_singleton. done.
Qed.

Lemma safe_upload client sid es : triple Safe (upload b client sid es) (λ _, Safe).
Proof.
  apply (keeps_step _ _ safe_stable). intros w [H1 H2 H3].
  destruct (sink_upload client sid es (w_server w)) as [Hg Hc].
  destruct (cb_upload_playtime b client sid es (w_server w)) as [a srv]. simpl in *.
  split; [done..|]. simpl. apply durable_app; [by eapply durable_grows|].
  intros c s l e Hin%list_elem_of_singleton. injection Hin as -> -> -> <-. by apply Hc.
Qed.
End backend.

Lemma sink_of_context c b :
  safe_context c → backend_context sha256 c = Some b → PlaytimeSink grows covers b.
Proof.
  unfold backend_context. intros Hc H. destruct (backend_key _ _); simplify_eq/=.
  destruct (cx_backend c) as [cached|] eqn:E; simplify_eq/=. case_match; simplify_eq. by apply Hc.
Qed.

Lemma safe_flush : triple Safe (flush sha256) (λ _, Safe).
Proof.
  apply (triple_bind _ _ _ (λ o w, (∀ b, o = Some b → PlaytimeSink grows covers b) ∧ Safe w)).
  { intros w HS. apply (stable_sync _ _ safe_stable) in HS. split; [|done]. intros b.
    apply sink_of_context, HS. }
  intros [b|]; apply triple_pure; intros Hb; [|by apply triple_ret].
  specialize (Hb b eq_refl).
  eapply triple_bind; [apply (keeps_read_context _ _ safe_stable)|].
  intros [scope|]; [|by apply triple_ret].
  apply (keeps_flush_rounds _ _ safe_stable); intros; [by apply safe_bind_device|by apply safe_upload].
Qed.

Lemma safe_loop turns s : triple Safe (upload_loop sha256 hash_order turns s) (λ _, Safe).
Proof. apply (keeps_loop _ _ _ _ safe_stable), safe_flush. Qed.
End delivery.

(** ** The folder is a sink *)

Section local_sink.
Context (to_vec : LocalSync.PlaytimeRecord → result string (list Z))
  (from_slice : list Z → result string LocalSync.PlaytimeRecord)
  (stats_to_vec : LocalSync.SteamAppStateRecord → result string (list Z))
  (stats_from_slice : list Z → result string LocalSync.SteamAppStateRecord)
  (digest : list Z → string) (scope : string).
Hypothesis Hserde : LocalSyncProofs.serde_roundtrip to_vec from_slice.

Definition folder_grows (s s' : LocalWorld) : Prop :=
  LocalSyncProofs.totals_le from_slice (lw_folder s) (lw_folder s').

(** The device has published at least the entry's minutes for its account. *)
Definition folder_covers (s : LocalWorld) (client : Z) (sid : string) (e : PlaytimeEntry) : Prop :=
  in_u64 (pe_app_id e) ∧ in_u64 client ∧
  (pe_owner_steam_id64 e = "" ∨ pe_owner_steam_id64 e = sid) ∧
  ∃ m, LocalSyncProofs.published_total from_slice (lw_folder s) sid (pe_app_id e) client = Some m ∧
       pe_playtime_minutes e ≤ m.

#[global] Instance folder_grows_preorder : PreOrder folder_grows.
Proof.
  unfold folder_grows. split.
  - intros s. reflexivity.
  - intros s1 s2 s3 H12 H23. by trans (lw_folder s2).
Qed.

Lemma folder_keeps s s' client sid e :
  folder_grows s s' → folder_covers s client sid e → folder_covers s' client sid e.
Proof.
  intros Hg (Ha & Hc & Ho & m & Hm & Hle). destruct (Hg _ _ _ _ Ha Hc Hm) as (m' & ? & ?).
  split; [done|]. split; [done|]. split; [done|]. exists m'. split; [done|lia].
Qed.

Lemma local_upload client sid es s :
  let r := local_upload_playtime to_vec from_slice digest client sid es s in
  folder_grows s r.2 ∧ (r.1 = Ok tt → ∀ e, e ∈ es → folder_covers r.2 client sid e).
Proof.
  intros r. subst r. unfold local_upload_playtime. destruct (well_sized client es) eqn:Hw; simpl.
  2: { split; [reflexivity|]. discriminate. }
  apply andb_true_iff in Hw as [Hc Ha]. apply bool_decide_eq_true in Hc.
  assert (Happs : Forall (λ e, in_u64 (pe_app_id e)) es).
  { apply Forall_forall. intros e He. rewrite forallb_forall in Ha.
    specialize (Ha e (proj1 (list_elem_of_In _ _) He)). apply bool_decide_eq_true in Ha. int_lia. }
  destruct (LocalSync.upload_playtime _ _ _ _ _ _ _ _) as [answer folder] eqn:H. simpl.
  unfold LocalSync.upload_playtime in H. destruct es as [|e0 es0] eqn:Ees.
  { injection H as <- <-. split; [by unfold folder_grows|]. intros _ e He. by apply not_elem_of_nil in He. }
  rewrite <-Ees in *. clear Ees.
  destruct (client =? 0); [injection H as <- <-; split; [by unfold folder_grows|discriminate]|].
  destruct (existsb _ _) eqn:Hex; [injection H as <- <-; split; [by unfold folder_grows|discriminate]|].
  destruct (LocalSyncProofs.publish_entries_monotone to_vec from_slice digest Hserde
              _ _ _ _ _ _ _ Happs Hc H) as [Hg Hcov].
  split; [exact Hg|]. intros -> e He. rewrite Forall_forall in Happs.
  split; [by apply Happs|]. split; [done|]. split; [|by apply Hcov].
  destruct (decide (pe_owner_steam_id64 e = "")) as [|Hn1]; [by left|right].
  destruct (decide (pe_owner_steam_id64 e = sid)) as [|Hn2]; [done|].
  assert (Hv : existsb (LocalSync.invalid_observation sid) es = true); [|congruence].
  apply existsb_exists. exists e. split; [by apply list_elem_of_In|].
  unfold LocalSync.invalid_observation.
  rewrite (bool_decide_eq_false_2 _ Hn1), (bool_decide_eq_false_2 _ Hn2). by rewrite orb_true_r.
Qed.

#[global] Instance local_sink :
  PlaytimeSink folder_grows folder_covers
    (local_backend to_vec from_slice stats_to_vec stats_from_slice digest scope).
Proof.
  split; [apply _|apply folder_keeps|done|]. intros client sid es s. apply local_upload.
Qed.
End local_sink.

(** *** The theorem *)

Lemma dec_text_not_nil n : dec_text n ≠ [].
Proof.
  unfold dec_text. cbn [dec_digits]. destruct (n <? 10); [done|]. intros H.
  by apply app_nil in H as [_ ?].
Qed.
Lemma steam_text_not_empty n : steam_text n ≠ "".
Proof.
  unfold steam_text, bytes_str. pose proof (dec_text_not_nil n) as Hn.
  by destruct (dec_text n).
Qed.

(** The backend refused an upload of the observation for good. *)
Definition refused (t : list Observed) (o : PendingPlaytimeOwner) (g : PlaytimeGame) : Prop :=
  ∃ client sid entries error entry,
    Uploaded client sid entries (Err error) ∈ t ∧ is_retryable error = false ∧
    entry ∈ entries ∧ names o g (entry_key entry).

(** The folder holds a total of the account and app that covers the observation. *)
Definition published (from_slice : list Z → result string LocalSync.PlaytimeRecord)
    (s : LocalWorld) (o : PendingPlaytimeOwner) (g : PlaytimeGame) : Prop :=
  ∃ client m,
    LocalSyncProofs.published_total from_slice (lw_folder s)
      (steam_text (rk_steam_id64 (po_runtime o))) (gm_app_id g) client = Some m ∧
    gm_playtime_minutes g ≤ m.

(** Only the folder is configured. *)
Definition only_backend {Srv} (b : CloudBackend Srv) (c : Context Srv) : Prop :=
  ∀ cached, cx_backend c = Some cached → cb_backend cached = b.
(** What other threads and devices do to a shared folder: they never lower a published total. *)
Definition folder_event {St : Structsy} (from_slice : list Z → result string LocalSync.PlaytimeRecord)
    (b : CloudBackend LocalWorld) (e : @Event St LocalWorld) : Prop :=
  match e with
  | EContext c => only_backend b c
  | EServer act => ∀ s, folder_grows from_slice s (act s)
  | _ => True
  end.

(** C8 [playtime_reaches_folder]: the worker, the journal and the folder backend together. With
    the folder as the only backend, shared with devices that do not lower each other's
    totals, whatever fails and however the threads interleave: every game merged during a run
    is pending, in the journal, refused for good or stale, or the folder holds a total of its
    account and app of at least the observed minutes. *)
Theorem playtime_reaches_folder {St : Structsy} {L : StructsyLaws St} sha256 hash_order
    to_vec from_slice stats_to_vec stats_from_slice digest scope
    (w : @World St LocalWorld) turns s
    (b := local_backend to_vec from_slice stats_to_vec stats_from_slice digest scope)
    (Hserde : LocalSyncProofs.serde_roundtrip to_vec from_slice)
    (Hhash : ∀ m, hash_order m ≡ₚ map_to_list m)
    (Hunique : unique_by playtime_key (playtime_rows (w_journal w)))
    (Hpending : w_pending w = ∅) (Htrace : w_trace w = [])
    (Hcontext : only_backend b (w_context w))
    (Hscript : Forall (Forall (folder_event from_slice b)) (w_script w)) :
  let w' := (upload_loop sha256 hash_order turns s w).2 in
  ∀ before owner game since, w_trace w' = before ++ Merged owner game :: since →
    pending_holds w' owner game ∨
    journal_holds (playtime_rows (w_journal w')) owner game ∨
    published from_slice (w_server w') owner game ∨
    refused since owner game ∨
    stale since owner.
Proof.
  intros w' before owner game since Htr.
  assert (Hsink : PlaytimeSink (folder_grows from_slice) (folder_covers from_slice) b)
    by by apply local_sink.
  assert (HS : Safe (folder_grows from_slice) (folder_covers from_slice) w).
  { split.
    - intros cached Hc. by rewrite (Hcontext _ Hc).
    - eapply Forall_impl; [exact Hscript|]. intros batch Hb. eapply Forall_impl; [exact Hb|].
      intros [] He; simpl in *; try done. intros cached Hc. by rewrite (He _ Hc).
    - rewrite Htrace. intros ? ? ? ? H. by apply not_elem_of_nil in H. }
  pose proof (safe_loop sha256 hash_order (folder_grows from_slice) (folder_covers from_slice)
    (folder_keeps from_slice) turns s w HS) as HS'. fold w' in HS'.
  pose proof (good_loop sha256 hash_order Hhash turns s w Hunique Hpending Htrace) as HI.
  destruct (inv_accounts _ _ _ HI _ _ _ _ Htr)
    as [(k & g & Hin & _)|[?|[?|[(c & sid & es & a & e & Hup & Hset & He & Hn & Hm)|?]]]].
  { by apply not_elem_of_nil in Hin. }
  1,2,4: by eauto.
  destruct a as [[]|error]; [|do 3 right; left; by exists c, sid, es, error, e].
  right; right; left. destruct (safe_durable _ _ _ HS' c sid es e) as (_ & _ & Ho & m & Hpub & Hle);
    [|done|].
  { fold w' in Htr. rewrite Htr. apply elem_of_app. right. by right. }
  destruct Hn as (sc & Hkey & _). unfold entry_key in Hkey. injection Hkey as _ Hsid Happ.
  destruct Ho as [Ho|Ho]; rewrite Hsid in Ho; [by destruct (steam_text_not_empty _ Ho)|].
  exists c, m. rewrite Ho, <-Happ. split; [done|lia].
Qed.

(** ** A refused device *)

Section refused.
Context {St : Structsy} {Srv : Type} (sha256 : list Z → list Z).
Context (hash_order : Pending → PendingGames).
Implicit Types (w : @World St Srv).

Definition keeps_context (e : @Event St Srv) : Prop := e ≠ EGeneration.

Record Quiet (generation : Z) (asked : list Observed) w : Prop := {
  quiet_generation : w_generation w = generation;
  quiet_script : Forall (Forall keeps_context) (w_script w);
  quiet_calls : calls (w_trace w) = asked;
}.

Lemma quiet_stable generation asked : Stable keeps_context (Quiet generation asked).
Proof.
  split.
  - intros w e He [H1 H2 H3]. destruct e; simpl; try by split.
    destruct (w_held w); split; try done. simpl. by rewrite calls_app, calls_merged, app_nil_r.
  - intros w s [H1 H2 H3] Hs. by split.
  - intros w HS. apply HS.
  - intros w w' new [H1 H2 H3] _ _ Hg Hs Ht Hn.
    split; [by rewrite Hg|by rewrite Hs|]. by rewrite Ht, calls_app, Hn, app_nil_r.
Qed.

Definition blocked (generation : Z) (s : LoopState) : Prop :=
  permanently_blocked_generation (ls_device_binding s) = Some generation.

Lemma quiet_generation_read generation asked :
  triple (Quiet generation asked) load_generation
    (λ read w, read = generation ∧ Quiet generation asked w).
Proof.
  intros w HQ. apply (stable_sync _ _ (quiet_stable _ _)) in HQ. by split; [apply HQ|].
Qed.

Lemma blocked_not_allowed generation s :
  blocked generation s → allows (ls_device_binding s) generation = false.
Proof. intros H. unfold allows. rewrite H. by rewrite bool_decide_eq_true_2. Qed.

Lemma quiet_pass generation asked s event :
  blocked generation s →
  triple (Quiet generation asked) (upload_pass sha256 hash_order s event)
    (λ s' w, (blocked generation s' ∧ ls_next_attempt_at s' = None) ∧ Quiet generation asked w).
Proof.
  intros Hs. pose proof (quiet_stable generation asked) as HQ. unfold upload_pass.
  apply (triple_bind _ _ _ (λ _, Quiet generation asked)).
  { destruct event; [by eapply keeps_debounce|by eapply keeps_persist..]. }
  intros p. apply (triple_bind _ _ _ (λ _, Quiet generation asked)).
  { case_match; [|by apply triple_ret].
    eapply triple_bind; [by eapply keeps_instant|]. intros now. by apply triple_ret. }
  intros retry. eapply triple_bind; [apply quiet_generation_read|].
  intros gen. apply triple_pure. intros ->. rewrite (blocked_not_allowed _ _ Hs).
  apply (triple_bind _ _ _ (λ gate w, gate = ls_device_binding s ∧ Quiet generation asked w)).
  { by apply triple_ret. }
  intros gate. apply triple_pure. intros ->.
  eapply triple_bind; [apply quiet_generation_read|]. intros gen. apply triple_pure. intros ->.
  eapply triple_bind; [by eapply keeps_next|]. intros next. apply triple_ret. intros w Hw.
  split; [split|done]; [done|]. simpl. unfold deadline. by rewrite blocked_not_allowed.
Qed.

Lemma quiet_loop generation asked turns s :
  blocked generation s →
  triple (Quiet generation asked) (upload_loop sha256 hash_order turns s)
    (λ r w, (∀ s', r = Some s' → blocked generation s') ∧ Quiet generation asked w).
Proof.
  revert s. induction turns as [|turns IH]; intros s Hs; simpl.
  { apply triple_ret. intros w Hw. by split; [intros s' [= <-]|]. }
  pose proof (quiet_stable generation asked) as HQ.
  apply (triple_bind _ _ _ (λ r w, (∀ s', r = Some s' → blocked generation s') ∧
                                    Quiet generation asked w)).
  { unfold upload_turn. apply (triple_bind _ _ _ (λ _, Quiet generation asked)).
    - case_match; [by apply triple_ret|by eapply keeps_wait_for_upload_work].
    - intros [[]|]; [..|by apply triple_ret].
      1,2: eapply triple_bind; [by apply quiet_pass|]; intros s'; apply triple_pure;
           intros [Hb _]; apply triple_ret; intros w Hw; by split; [intros ? [= <-]|].
      by apply triple_ret. }
  intros [s'|]; apply triple_pure; intros Hb; [by apply IH, Hb|]. by apply triple_ret.
Qed.
End refused.

