(* ===== verification/UserStats.v ===== *)
(** * UserStats: the worker that refreshes and reads Steam's stats

    [hooks/src/client/user_stats.rs]: the queues of snapshot reads, refreshes and playtime
    signals shared by the packet threads and the one worker thread that talks to Steam, and
    the steps of that thread. The native session is outside: what it answers is part of an
    [Action]. Diagnostic queries exist in debug builds only and are left out, as are the
    counters. *)

From Stdlib Require Import ZArith Lia.
From S2P Require Import Prelude RustStd CloudCore SteamProtocol Apps.

Local Open Scope Z_scope.

(** ** Data *)

Record StatsRefreshGuard := {
  rg_credential_fingerprint : string;
  rg_steam_id64 : Z;
  rg_identity_generation : Z;
  rg_client_id : Z;
  rg_runtime_generation : Z;
}.
Record StatsSnapshotOwner := { so_guard : StatsRefreshGuard; so_principal_scope : string }.
Record StatsSnapshotIntent := { in_marker : StatsCommit; in_guard : StatsRefreshGuard }.

#[export] Instance StatsRefreshGuard_eq_dec : EqDecision StatsRefreshGuard.
Proof. solve_decision. Defined.
#[export] Instance StatsRefreshGuard_countable : Countable StatsRefreshGuard :=
  inj_countable'
    (λ g, (rg_credential_fingerprint g, rg_steam_id64 g, rg_identity_generation g,
           rg_client_id g, rg_runtime_generation g))
    (λ '(f, s, i, c, r), {| rg_credential_fingerprint := f; rg_steam_id64 := s;
       rg_identity_generation := i; rg_client_id := c; rg_runtime_generation := r |})
    ltac:(by intros []).

(** [StatsSnapshotIntent::new] *)
Definition StatsSnapshotIntent_new (marker : StatsCommit) (owner : StatsSnapshotOwner)
    : option StatsSnapshotIntent :=
  if bool_decide (sc_owner_scope marker = so_principal_scope owner) &&
     bool_decide (sc_owner_steam_id64 marker
                  = bytes_str (dec_text (rg_steam_id64 (so_guard owner))))
  then Some {| in_marker := marker; in_guard := so_guard owner |} else None.

Definition intent_app_id (i : StatsSnapshotIntent) : Z := sc_app_id (in_marker i).

(** [PartialEq] and [Hash] of an intent look at these fields: a marker written again with
    another time is the same intent. *)
Definition IntentKey : Type :=
  StatsRefreshGuard * string * string * Z * string * option Z * list Z.
Definition intent_key (i : StatsSnapshotIntent) : IntentKey :=
  (in_guard i, sc_owner_scope (in_marker i), sc_owner_steam_id64 (in_marker i),
   sc_app_id (in_marker i), sc_commit_id (in_marker i), sc_base_crc_stats (in_marker i),
   sc_dirty_stat_ids (in_marker i)).

(** [HashSet<StatsSnapshotIntent>]: [insert] keeps the element that is there. *)
Notation ReadSet := (gmap IntentKey StatsSnapshotIntent).
Definition set_has (s : ReadSet) (i : StatsSnapshotIntent) : bool :=
  bool_decide (is_Some (s !! intent_key i)).
Definition set_insert (s : ReadSet) (i : StatsSnapshotIntent) : ReadSet :=
  if set_has s i then s else <[intent_key i := i]> s.
Definition set_remove (s : ReadSet) (i : StatsSnapshotIntent) : ReadSet :=
  delete (intent_key i) s.

Record RefreshRequest := { rr_app_id : Z; rr_guard : option StatsRefreshGuard }.
Record PendingPlaytime := { pp_identity_generation : Z; pp_revision : Z; pp_ready : bool }.
Record PendingClientId := { pc_steam_id64 : Z; pc_identity_generation : Z }.
Record InFlight := { if_app_id : Z; if_api_call : Z; if_guard : option StatsRefreshGuard }.
Inductive SnapshotRequest := Read | RefreshThenRead.
Inductive PlaytimeSignal := SignalQueued | SignalMerged.
Inductive PlaytimeCompletion := Removed | Superseded.

#[export] Instance PendingPlaytime_eq_dec : EqDecision PendingPlaytime.
Proof. solve_decision. Defined.

Definition MAX_IN_FLIGHT : nat := 8.
Definition MAX_PLAYTIME_PER_PASS : nat := 8.

Record WorkerState := {
  pending_reads : list StatsSnapshotIntent;
  queued_reads : ReadSet;
  active_reads : ReadSet;
  reads_after_refresh : ReadSet;
  pending_refresh_order : list Z;
  pending_refreshes : gmap Z RefreshRequest;
  active_refreshes : gset Z;
  pending_playtime : gmap Z PendingPlaytime;
  pending_client_id : option PendingClientId;
  next_playtime_revision : Z;
}.

Definition worker_default : WorkerState := {|
  pending_reads := []; queued_reads := ∅; active_reads := ∅; reads_after_refresh := ∅;
  pending_refresh_order := []; pending_refreshes := ∅; active_refreshes := ∅;
  pending_playtime := ∅; pending_client_id := None; next_playtime_revision := 0 |}.

(** The reads, the refreshes and the rest of a state, replaced. *)
Definition with_reads (s : WorkerState) pending queued active after : WorkerState := {|
  pending_reads := pending; queued_reads := queued; active_reads := active;
  reads_after_refresh := after; pending_refresh_order := pending_refresh_order s;
  pending_refreshes := pending_refreshes s; active_refreshes := active_refreshes s;
  pending_playtime := pending_playtime s; pending_client_id := pending_client_id s;
  next_playtime_revision := next_playtime_revision s |}.
Definition with_refreshes (s : WorkerState) order pending active : WorkerState := {|
  pending_reads := pending_reads s; queued_reads := queued_reads s;
  active_reads := active_reads s; reads_after_refresh := reads_after_refresh s;
  pending_refresh_order := order; pending_refreshes := pending; active_refreshes := active;
  pending_playtime := pending_playtime s; pending_client_id := pending_client_id s;
  next_playtime_revision := next_playtime_revision s |}.
Definition with_playtime (s : WorkerState) playtime revision : WorkerState := {|
  pending_reads := pending_reads s; queued_reads := queued_reads s;
  active_reads := active_reads s; reads_after_refresh := reads_after_refresh s;
  pending_refresh_order := pending_refresh_order s; pending_refreshes := pending_refreshes s;
  active_refreshes := active_refreshes s; pending_playtime := playtime;
  pending_client_id := pending_client_id s; next_playtime_revision := revision |}.
Definition with_client_id (s : WorkerState) client_id : WorkerState := {|
  pending_reads := pending_reads s; queued_reads := queued_reads s;
  active_reads := active_reads s; reads_after_refresh := reads_after_refresh s;
  pending_refresh_order := pending_refresh_order s; pending_refreshes := pending_refreshes s;
  active_refreshes := active_refreshes s; pending_playtime := pending_playtime s;
  pending_client_id := client_id; next_playtime_revision := next_playtime_revision s |}.

(** ** The queues *)

Section worker.
(** The iteration order of a hash set, and of the map of playtime signals. *)
Context (set_order : ReadSet → list StatsSnapshotIntent).
Context (map_order : gmap Z PendingPlaytime → list (Z * PendingPlaytime)).

Definition of_app (app_id : Z) (s : ReadSet) : list StatsSnapshotIntent :=
  filter (λ i, intent_app_id i = app_id) (set_order s).

Definition refreshing (s : WorkerState) (app_id : Z) : bool :=
  bool_decide (app_id ∈ active_refreshes s) ||
  bool_decide (is_Some (pending_refreshes s !! app_id)).

Definition queue_read_locked (s : WorkerState) (intent : StatsSnapshotIntent) : WorkerState :=
  if refreshing s (intent_app_id intent) then
    with_reads s (pending_reads s) (queued_reads s) (active_reads s)
      (set_insert (reads_after_refresh s) intent)
  else if set_has (queued_reads s) intent then s
  else
    with_reads s (pending_reads s ++ [intent]) (set_insert (queued_reads s) intent)
      (active_reads s) (reads_after_refresh s).

Definition queue_refresh_locked (s : WorkerState) (app_id : Z)
    (refresh_guard : option StatsRefreshGuard) : WorkerState :=
  match pending_refreshes s !! app_id with
  | Some pending =>
      match refresh_guard with
      | Some _ =>
          with_refreshes s (pending_refresh_order s)
            (<[app_id := {| rr_app_id := rr_app_id pending; rr_guard := refresh_guard |}]>
               (pending_refreshes s))
            (active_refreshes s)
      | None => s
      end
  | None =>
      let queued_for_app := of_app app_id (queued_reads s) in
      let active_for_app := of_app app_id (active_reads s) in
      let s := with_reads s
        (filter (λ i, intent_app_id i ≠ app_id) (pending_reads s))
        (foldl set_remove (queued_reads s) queued_for_app)
        (active_reads s)
        (foldl set_insert (foldl set_insert (reads_after_refresh s) queued_for_app)
           active_for_app) in
      with_refreshes s (pending_refresh_order s ++ [app_id])
        (<[app_id := {| rr_app_id := app_id; rr_guard := refresh_guard |}]> (pending_refreshes s))
        (active_refreshes s)
  end.

Definition queue_snapshot_locked (s : WorkerState) (intent : StatsSnapshotIntent)
    (request : SnapshotRequest) : WorkerState :=
  match request with
  | Read => queue_read_locked s intent
  | RefreshThenRead =>
      if set_has (queued_reads s) intent || set_has (active_reads s) intent
         || set_has (reads_after_refresh s) intent then s
      else
        queue_refresh_locked
          (with_reads s (pending_reads s) (queued_reads s) (active_reads s)
             (set_insert (reads_after_refresh s) intent))
          (intent_app_id intent) (Some (in_guard intent))
  end.

(** [StatsWorker::queue_snapshot] and [queue_refresh] *)
Definition queue_snapshot (s : WorkerState) (intent : StatsSnapshotIntent)
    (request : SnapshotRequest) : bool * WorkerState :=
  if intent_app_id intent =? 0 then (false, s)
  else (true, queue_snapshot_locked s intent request).

Definition queue_refresh (s : WorkerState) (app_id : Z) (guard : option StatsRefreshGuard)
    : bool * WorkerState :=
  if app_id =? 0 then (false, s) else (true, queue_refresh_locked s app_id guard).

Definition signal_pending_playtime (s : WorkerState) (app_id identity_generation : Z)
    : PlaytimeSignal * WorkerState :=
  let revision := u64_wrapping_add (next_playtime_revision s) 1 in
  let outcome :=
    match pending_playtime s !! app_id with
    | Some pending =>
        if pp_identity_generation pending =? identity_generation then SignalMerged
        else SignalQueued
    | None => SignalQueued
    end in
  (outcome, with_playtime s
     (<[app_id := {| pp_identity_generation := identity_generation; pp_revision := revision;
                     pp_ready := true |}]> (pending_playtime s)) revision).

(** The state part of [notify_context_changed] *)
Definition clear_context (s : WorkerState) : WorkerState := {|
  pending_reads := []; queued_reads := ∅; active_reads := ∅; reads_after_refresh := ∅;
  pending_refresh_order := []; pending_refreshes := ∅; active_refreshes := ∅;
  pending_playtime := ∅; pending_client_id := None;
  next_playtime_revision := next_playtime_revision s |}.

(** [queue_durable_stats_recovery], with the intents the journal has for the owner *)
Definition queue_durable_stats_recovery (s : WorkerState) (controlled : Z → bool)
    (intents : list StatsSnapshotIntent) : WorkerState :=
  foldl (λ s intent, queue_snapshot_locked s intent RefreshThenRead) s
    (filter (λ intent, controlled (intent_app_id intent) = true) intents).

(** *** What the worker takes and finishes *)

Definition take_read (s : WorkerState) : option StatsSnapshotIntent * WorkerState :=
  match pending_reads s with
  | [] => (None, s)
  | intent :: rest =>
      (Some intent, with_reads s rest (set_remove (queued_reads s) intent)
                      (set_insert (active_reads s) intent) (reads_after_refresh s))
  end.

Definition finish_read (s : WorkerState) (intent : StatsSnapshotIntent) : WorkerState :=
  with_reads s (pending_reads s) (queued_reads s) (set_remove (active_reads s) intent)
    (reads_after_refresh s).

(** [take_refresh]; the loop runs once for every app that was waiting. *)
Fixpoint take_refresh_loop (count : nat) (s : WorkerState)
    : option RefreshRequest * WorkerState :=
  match count with
  | O => (None, s)
  | S count =>
      match pending_refresh_order s with
      | [] => (None, s)
      | app_id :: rest =>
          if bool_decide (app_id ∈ active_refreshes s) then
            take_refresh_loop count
              (with_refreshes s (rest ++ [app_id]) (pending_refreshes s) (active_refreshes s))
          else
            match pending_refreshes s !! app_id with
            | None =>
                take_refresh_loop count
                  (with_refreshes s rest (pending_refreshes s) (active_refreshes s))
            | Some request =>
                (Some request,
                 with_refreshes s rest (delete app_id (pending_refreshes s))
                   ({[app_id]} ∪ active_refreshes s))
            end
      end
  end.

Definition take_refresh (s : WorkerState) : option RefreshRequest * WorkerState :=
  take_refresh_loop (length (pending_refresh_order s)) s.

Definition finish_refresh (s : WorkerState) (app_id : Z) (succeeded : bool) : WorkerState :=
  let s := with_refreshes s (pending_refresh_order s) (pending_refreshes s)
             (active_refreshes s ∖ {[app_id]}) in
  if bool_decide (is_Some (pending_refreshes s !! app_id)) then s
  else
    let reads := of_app app_id (reads_after_refresh s) in
    let s := with_reads s (pending_reads s) (queued_reads s) (active_reads s)
               (foldl set_remove (reads_after_refresh s) reads) in
    if succeeded then foldl queue_read_locked s reads else s.

Definition take_matching_api_call_result (in_flight : list InFlight) (api_call : Z)
    : option (InFlight * list InFlight) :=
  '(index, entry) ← list_find (λ e, if_api_call e = api_call) in_flight;
  Some (entry, delete index in_flight).

(** *** Playtime *)

Definition ready_key (p : Z * PendingPlaytime) : Z * Z := (pp_revision p.2, p.1).

Definition take_ready_playtime (s : WorkerState) (identity_generation : Z) (limit : nat)
    : list (Z * PendingPlaytime) * WorkerState :=
  let kept := filter (λ p, pp_identity_generation p.2 = identity_generation)
                (pending_playtime s) in
  let ready := filter (λ p, pp_ready p.2 = true) (map_order kept) in
  (take limit (sort_by_key ready_key ready),
   with_playtime s kept (next_playtime_revision s)).

Definition has_ready_playtime (s : WorkerState) (identity_generation : Z) : bool :=
  existsb (λ p, (pp_identity_generation p.2 =? identity_generation) && pp_ready p.2)
    (map_order (pending_playtime s)).

Definition finish_pending_playtime (s : WorkerState) (app_id : Z) (expected : PendingPlaytime)
    : PlaytimeCompletion * WorkerState :=
  match pending_playtime s !! app_id with
  | None => (Superseded, s)
  | Some current =>
      if bool_decide (current = expected)
      then (Removed, with_playtime s (delete app_id (pending_playtime s))
                       (next_playtime_revision s))
      else (Superseded, s)
  end.

(** ** Callbacks *)

Definition APP_MINUTES_PLAYED_DATA_NOTICE : Z := 1020046.

Record CallbackHeader := { ch_steam_user : Z; ch_callback : Z; ch_payload_size : Z }.
Record CallbackEvent := {
  ce_header : CallbackHeader; ce_identity_generation : Z; ce_steam_id64 : Z;
  ce_payload : list Z;
}.
(** [AppMinutesPlayedDataNotice::decode] *)
Definition notice_app_id (payload : list Z) : option Z :=
  if bool_decide (length payload = 4%nat) then Some (le_value payload) else None.

(** [CallbackEvent::decode] of a notice *)
Definition decode_notice (event : CallbackEvent) : option Z :=
  let size := ch_payload_size (ce_header event) in
  if size <? 0 then None
  else if (ch_callback (ce_header event) =? APP_MINUTES_PLAYED_DATA_NOTICE) &&
          (size <=? Z.of_nat (length (ce_payload event)))
  then notice_app_id (take (Z.to_nat size) (ce_payload event)) else None.

Inductive CallbackDecision := Other | Rejected | Filtered | Signal (app_id : Z).

Definition classify_callback (event : CallbackEvent) (expected_user steam_id64
    identity_generation : Z) (controlled : Z → bool) : CallbackDecision :=
  if negb (ch_callback (ce_header event) =? APP_MINUTES_PLAYED_DATA_NOTICE) then Other
  else if negb (ch_steam_user (ce_header event) =? expected_user) || negb (ce_steam_id64 event =? steam_id64)
          || negb (ce_identity_generation event =? identity_generation) then Rejected
  else
    match decode_notice event with
    | None => Rejected
    | Some app_id =>
        if app_id =? 0 then Rejected
        else if negb (controlled app_id) then Filtered
        else Signal app_id
    end.

Definition handle_playtime_callback (s : WorkerState) (event : CallbackEvent)
    (expected_user steam_id64 identity_generation : Z) (controlled : Z → bool) : WorkerState :=
  match classify_callback event expected_user steam_id64 identity_generation controlled with
  | Signal app_id => (signal_pending_playtime s app_id identity_generation).2
  | _ => s
  end.

(** ** Reading under a guard *)

Inductive GuardedSnapshotRead (T E : Type) :=
| Ready (value : T) | StaleBeforeRead | StaleAfterRead | ReadFailed (error : E).
Arguments Ready {T E} _.
Arguments StaleBeforeRead {T E}.
Arguments StaleAfterRead {T E}.
Arguments ReadFailed {T E} _.

(** The guard is looked at before and after the native read. *)
Definition guarded_snapshot_read {T E} (current_before : bool) (read : result E T)
    (current_after : bool) : GuardedSnapshotRead T E :=
  if negb current_before then StaleBeforeRead
  else
    match read with
    | Err error => ReadFailed error
    | Ok value => if negb current_after then StaleAfterRead else Ready value
    end.

(** ** Results of Steam's calls ([callback_dispatch.rs]) *)

Definition USER_STATS_RECEIVED : Z := 1101.
Definition ERESULT_OK : Z := 1.

Record ApiCallResultEvent := {
  ac_api_call : Z; ac_callback : Z; ac_payload_size : Z; ac_payload : list Z;
}.
Record UserStatsReceived := { ur_game_id : Z; ur_result : Z; ur_steam_id : Z }.

Definition decode_received (payload : list Z) : option UserStatsReceived :=
  if bool_decide (length payload = 20%nat) then
    Some {| ur_game_id := le_value (take 8 payload);
            ur_result := as_i32 (le_value (take 4 (drop 8 payload)));
            ur_steam_id := le_value (drop 12 payload) |}
  else None.

Definition decode_user_stats_result (completed : ApiCallResultEvent)
    : option UserStatsReceived :=
  if ac_payload_size completed =? 20 then
    if ac_callback completed =? USER_STATS_RECEIVED then decode_received (ac_payload completed)
    else None
  else None.

Definition user_stats_result_matches (received : UserStatsReceived) (app_id steam_id64 : Z)
    : bool := (ur_game_id received =? app_id) && (ur_steam_id received =? steam_id64).

(** What a completed call means for the refresh that made it; [guard_current] is what
    [stats_refresh_guard_is_current] says of its guard. *)
Definition refresh_succeeded (guard_current : bool) (entry : InFlight) (steam_id64 : Z)
    (completed : ApiCallResultEvent) : bool :=
  match if_guard entry with Some _ => guard_current | None => true end &&
  match decode_user_stats_result completed with
  | None => false
  | Some received =>
      user_stats_result_matches received (if_app_id entry) steam_id64 &&
      (ur_result received =? ERESULT_OK)
  end.

(** ** The worker thread among the others

    The service loop of [run_worker] goes through phases: at the top it compares the epoch of
    the context with the one its session was opened in; then [service_until_quiescent] takes
    the client id and the completed calls, samples playtime, carries out the reads and admits
    refreshes. When the session is over, the calls still in flight are finished as failures
    and a new session is opened. *)

Inductive Phase := Top | Draining | Consuming | Sampling | Reading | Admitting.
#[export] Instance Phase_eq_dec : EqDecision Phase.
Proof. solve_decision. Defined.

Record Worker := {
  wk_state : WorkerState;
  wk_epoch : Z;                                  (* [context_epoch] *)
  wk_session : Z;                                (* the epoch the session was opened in *)
  wk_phase : Phase;
  wk_in_flight : list InFlight;
  wk_reading : option StatsSnapshotIntent;       (* the read being carried out *)
  wk_issuing : option RefreshRequest;            (* the refresh taken and not yet issued *)
  wk_samples : list (Z * PendingPlaytime);       (* the rest of the playtime batch *)
  wk_sampled : bool;                             (* whether its first app has been read *)
}.

Definition worker_start : Worker := {|
  wk_state := worker_default; wk_epoch := 0; wk_session := 0; wk_phase := Top;
  wk_in_flight := []; wk_reading := None; wk_issuing := None; wk_samples := [];
  wk_sampled := false |}.

Definition with_state (w : Worker) (s : WorkerState) : Worker := {|
  wk_state := s; wk_epoch := wk_epoch w; wk_session := wk_session w; wk_phase := wk_phase w;
  wk_in_flight := wk_in_flight w; wk_reading := wk_reading w;
  wk_issuing := wk_issuing w; wk_samples := wk_samples w;
  wk_sampled := wk_sampled w |}.
Definition with_phase (w : Worker) (phase : Phase) : Worker := {|
  wk_state := wk_state w; wk_epoch := wk_epoch w; wk_session := wk_session w;
  wk_phase := phase; wk_in_flight := wk_in_flight w; wk_reading := wk_reading w;
  wk_issuing := wk_issuing w; wk_samples := wk_samples w;
  wk_sampled := wk_sampled w |}.
Definition with_epoch (w : Worker) (epoch session : Z) : Worker := {|
  wk_state := wk_state w; wk_epoch := epoch; wk_session := session;
  wk_phase := wk_phase w; wk_in_flight := wk_in_flight w; wk_reading := wk_reading w;
  wk_issuing := wk_issuing w; wk_samples := wk_samples w;
  wk_sampled := wk_sampled w |}.
Definition with_calls (w : Worker) (s : WorkerState) (in_flight : list InFlight)
    (issuing : option RefreshRequest) : Worker := {|
  wk_state := s; wk_epoch := wk_epoch w; wk_session := wk_session w; wk_phase := wk_phase w;
  wk_in_flight := in_flight; wk_reading := wk_reading w; wk_issuing := issuing;
  wk_samples := wk_samples w;
  wk_sampled := wk_sampled w |}.
Definition with_reading (w : Worker) (s : WorkerState) (reading : option StatsSnapshotIntent)
    : Worker := {|
  wk_state := s; wk_epoch := wk_epoch w; wk_session := wk_session w; wk_phase := wk_phase w;
  wk_in_flight := wk_in_flight w; wk_reading := reading; wk_issuing := wk_issuing w;
  wk_samples := wk_samples w;
  wk_sampled := wk_sampled w |}.
Definition with_samples (w : Worker) (s : WorkerState) (samples : list (Z * PendingPlaytime))
    (sampled : bool) : Worker := {|
  wk_state := s; wk_epoch := wk_epoch w; wk_session := wk_session w; wk_phase := wk_phase w;
  wk_in_flight := wk_in_flight w; wk_reading := wk_reading w; wk_issuing := wk_issuing w;
  wk_samples := samples; wk_sampled := sampled |}.

(** The critical sections of the other threads, then the worker's, each in its phase. An
    action outside its phase does nothing. [notify_context_changed] is two of them: it raises
    the epoch, and then takes the lock and clears the state. [ARecover] is also done by the
    worker, when it has opened a session. A loop of the worker may end earlier here than in
    the code, so there are more runs, not fewer. *)
Inductive Action :=
| AQueueSnapshot (intent : StatsSnapshotIntent) (request : SnapshotRequest)
| AQueueRefresh (app_id : Z) (guard : option StatsRefreshGuard)
| ASignalPlaytime (app_id identity_generation : Z)
| AQueueClientId (c : PendingClientId)
| AEpochBumped
| AContextCleared
| ARecover (controlled : Z → bool) (intents : list StatsSnapshotIntent)
| AAdvance (session_lost : bool)
| ADrain
| ATakeClientId
| AResult (guard_current : bool) (steam_id64 : Z) (completed : ApiCallResultEvent)
| ATakePlaytime (identity_generation : Z)
| AReadPlaytime (same_account : bool)
| AFinishPlaytime
| ATakeRead
| AFinishRead
| ATakeRefresh
| AIssue (guard_current : bool) (answer : result string Z).

(** What the worker does to the outside. *)
Inductive Output :=
| OIssued (app_id api_call : Z)
| OFinished (app_id : Z) (api_call : option Z) (succeeded : bool)
| ORead (intent : StatsSnapshotIntent)
| OSampled (app_id : Z).

Definition finishes (w : Worker) (in_flight : list InFlight) (issuing : option RefreshRequest)
    (app_id : Z) (api_call : option Z) (succeeded : bool) : Worker * list Output :=
  (with_calls w (finish_refresh (wk_state w) app_id succeeded) in_flight issuing,
   [OFinished app_id api_call succeeded]).

(** The ends of the loops in [run_worker] and [service_until_quiescent]. *)
Definition advance (w : Worker) (session_lost : bool) : Worker :=
  match wk_phase w with
  | Top =>
      if session_lost || negb (wk_epoch w =? wk_session w) then with_phase w Draining
      else with_phase w Consuming
  | Draining =>
      match wk_in_flight w with
      | [] => with_phase (with_epoch w (wk_epoch w) (wk_epoch w)) Top
      | _ => w
      end
  | Consuming => with_phase w Sampling
  | Sampling => match wk_samples w with [] => with_phase w Reading | _ => w end
  | Reading | Admitting => w
  end.

(** The worker's own steps in a phase. *)
Definition own_step (w : Worker) (a : Action) : Worker * list Output :=
  let s := wk_state w in
  match wk_phase w, a with
  | Draining, ADrain =>
      match wk_in_flight w with
      | [] => (w, [])
      | entry :: in_flight => finishes w in_flight (wk_issuing w) (if_app_id entry) (Some (if_api_call entry)) false
      end
  | Consuming, ATakeClientId => (with_state w (with_client_id s None), [])
  | Consuming, AResult guard_current steam_id64 completed =>
      match take_matching_api_call_result (wk_in_flight w) (ac_api_call completed) with
      | None => (w, [])
      | Some (entry, in_flight) =>
          finishes w in_flight (wk_issuing w) (if_app_id entry) (Some (if_api_call entry))
            (refresh_succeeded guard_current entry steam_id64 completed)
      end
  | Sampling, ATakePlaytime generation =>
      match wk_samples w with
      | _ :: _ => (w, [])
      | [] =>
          let '(ready, s) := take_ready_playtime s generation MAX_PLAYTIME_PER_PASS in
          (with_samples w s ready false, [])
      end
  | Sampling, AReadPlaytime same_account =>
      match wk_samples w, wk_sampled w with
      | (app_id, expected) :: _, false =>
          if same_account : bool then (with_samples w s (wk_samples w) true, [OSampled app_id])
          else (with_samples w (finish_pending_playtime s app_id expected).2 [] false, [])
      | _, _ => (w, [])
      end
  | Sampling, AFinishPlaytime =>
      match wk_samples w, wk_sampled w with
      | (app_id, expected) :: rest, true =>
          (with_samples w (finish_pending_playtime s app_id expected).2 rest false, [])
      | _, _ => (w, [])
      end
  | Reading, ATakeRead =>
      match wk_reading w, take_read s with
      | Some _, _ => (w, [])
      | None, (None, _) => (with_phase w Admitting, [])
      | None, (Some intent, s) => (with_reading w s (Some intent), [ORead intent])
      end
  | Reading, AFinishRead =>
      match wk_reading w with
      | None => (w, [])
      | Some intent => (with_reading w (finish_read s intent) None, [])
      end
  | Admitting, ATakeRefresh =>
      match wk_issuing w with
      | Some _ => (w, [])
      | None =>
          if bool_decide (MAX_IN_FLIGHT ≤ length (wk_in_flight w))%nat then (with_phase w Top, [])
          else
            match take_refresh s with
            | (None, s) => (with_phase (with_state w s) Top, [])
            | (Some request, s) => (with_calls w s (wk_in_flight w) (Some request), [])
            end
      end
  | Admitting, AIssue guard_current answer =>
      match wk_issuing w with
      | None => (w, [])
      | Some request =>
          if match rr_guard request with Some _ => negb guard_current | None => false end
          then finishes w (wk_in_flight w) None (rr_app_id request) None false
          else
            match answer with
            | Ok api_call =>
                (with_calls w s
                   (wk_in_flight w ++
                      [{| if_app_id := rr_app_id request; if_api_call := api_call;
                          if_guard := rr_guard request |}]) None,
                 [OIssued (rr_app_id request) api_call])
            | Err _ => finishes w (wk_in_flight w) None (rr_app_id request) None false
            end
      end
  | _, _ => (w, [])
  end.

Definition act (w : Worker) (a : Action) : Worker * list Output :=
  let s := wk_state w in
  match a with
  | AQueueSnapshot intent request => (with_state w (queue_snapshot s intent request).2, [])
  | AQueueRefresh app_id guard => (with_state w (queue_refresh s app_id guard).2, [])
  | ASignalPlaytime app_id generation =>
      (with_state w (signal_pending_playtime s app_id generation).2, [])
  | AQueueClientId c => (with_state w (with_client_id s (Some c)), [])
  | AEpochBumped => (with_epoch w (u64_wrapping_add (wk_epoch w) 1) (wk_session w), [])
  | AContextCleared => (with_state w (clear_context s), [])
  | ARecover controlled intents =>
      (with_state w (queue_durable_stats_recovery s controlled intents), [])
  | AAdvance lost => (advance w lost, [])
  | _ => own_step w a
  end.

Fixpoint run (w : Worker) (actions : list Action) : Worker * list Output :=
  match actions with
  | [] => (w, [])
  | a :: actions =>
      let '(w, out) := act w a in
      let '(w, outs) := run w actions in (w, out ++ outs)
  end.
End worker.

(** ** Layouts of snapshots *)

Inductive SnapshotStatKind := KInt | KFloat | KAverageRate | KDynamic.

Record SnapshotLayout := {
  sl_achievements : list string;
  sl_stats : list (string * SnapshotStatKind);
}.

(** [CString::new] fails on an interior NUL. *)
Definition snapshot_key (key : string) : option string :=
  if bool_decide (0 ∈ str_bytes key) then None else Some key.

Definition stat_kind (value_type : option Z) : SnapshotStatKind :=
  match value_type with
  | Some 1 => KInt | Some 2 => KFloat | Some 3 => KAverageRate | _ => KDynamic
  end.

(** The first mapping of every key, if the key is a C string. *)
Fixpoint first_mappings {A B} (key : A → string) (f : A → string → B) (seen : gset string)
    (mappings : list A) : list B :=
  match mappings with
  | [] => []
  | m :: rest =>
      if bool_decide (key m ∈ seen) then first_mappings key f seen rest
      else
        let tail := first_mappings key f ({[key m]} ∪ seen) rest in
        match snapshot_key (key m) with Some k => f m k :: tail | None => tail end
  end.

Section layouts.
Context (iter : gmap string AchievementSchemaValue → list (string * AchievementSchemaValue)).

(** [register_snapshot_schema] on the cache of layouts *)
Definition register_snapshot_schema (layouts : gmap Z SnapshotLayout) (app_id : Z)
    (content : list Z) : bool * gmap Z SnapshotLayout :=
  if (app_id =? 0) || bool_decide (content = []) then (false, layouts)
  else
    match parse_achievement_bit_mappings iter content with
    | Err _ => (false, delete app_id layouts)
    | Ok achievements =>
        match parse_stat_mappings iter content with
        | Err _ => (false, delete app_id layouts)
        | Ok stats =>
            (true, <[app_id := {|
               sl_achievements := first_mappings bm_key (λ _ k, k) ∅ achievements;
               sl_stats := first_mappings sm_key (λ m k, (k, stat_kind (sm_value_type m))) ∅ stats
             |}]> layouts)
        end
    end.
End layouts.
