(* ===== verification/UserStatsProofs.v ===== *)
(** * UserStatsProofs: reads, refreshes and samples of the user-stats worker

    The worker of [UserStats] under every interleaving of its critical sections with those of
    the other threads: the queues stay consistent and nothing waits for a refresh that is not
    on its way; a read that was to follow a refresh follows one; a playtime signal is answered
    by a sample taken after it. *)

From Stdlib Require Import ZArith Lia.
From S2P Require Import Prelude RustStd CloudCore SteamProtocol Apps UserStats.

Local Open Scope Z_scope.

(** ** Sets of intents *)

Lemma intent_key_app i j : intent_key i = intent_key j → intent_app_id i = intent_app_id j.
Proof. unfold intent_key, intent_app_id. congruence. Qed.

Definition well_keyed (s : ReadSet) : Prop := ∀ k i, s !! k = Some i → intent_key i = k.

Lemma set_has_true s i : set_has s i = true ↔ is_Some (s !! intent_key i).
Proof. apply bool_decide_eq_true. Qed.

Lemma set_insert_lookup s i k x :
  set_insert s i !! k = Some x → s !! k = Some x ∨ (k = intent_key i ∧ x = i).
Proof.
  unfold set_insert. destruct (set_has s i); [by left|]. rewrite lookup_insert.
  case_decide as E; [|by left]. intros [= <-]. by right.
Qed.
Lemma set_insert_old s i k x : s !! k = Some x → set_insert s i !! k = Some x.
Proof.
  unfold set_insert. intros Hx. destruct (set_has s i) eqn:E; [done|].
  rewrite lookup_insert. case_decide as Ek; [|done]. subst k.
  rewrite <-not_true_iff_false, set_has_true in E. by destruct E; eexists.
Qed.
Lemma set_insert_new s i : is_Some (set_insert s i !! intent_key i).
Proof.
  unfold set_insert. destruct (set_has s i) eqn:E; [by apply set_has_true|].
  by rewrite lookup_insert_eq; eexists.
Qed.
Lemma well_keyed_insert s i : well_keyed s → well_keyed (set_insert s i).
Proof. intros Hs k x [?|[-> ->]]%set_insert_lookup; [by apply Hs|done]. Qed.

Lemma inserts_lookup l s k x :
  foldl set_insert s l !! k = Some x → s !! k = Some x ∨ (x ∈ l ∧ intent_key x = k).
Proof.
  revert s. induction l as [|i l IH]; intros s; simpl; [by left|].
  intros [H|[H ?]]%IH; [|right; split; [by right|done]].
  apply set_insert_lookup in H as [?|[-> ->]]; [by left|]. right. split; [by left|done].
Qed.
Lemma inserts_old l s k x : s !! k = Some x → foldl set_insert s l !! k = Some x.
Proof. revert s. induction l; intros s H; simpl; auto using set_insert_old. Qed.
Lemma inserts_new l s i : i ∈ l → is_Some (foldl set_insert s l !! intent_key i).
Proof.
  revert s. induction l as [|j l IH]; intros s; simpl; [by intros ?%not_elem_of_nil|].
  intros [->|H]%elem_of_cons; [|by apply IH].
  destruct (set_insert_new s j) as [x Hx]. exists x. by apply inserts_old.
Qed.
Lemma well_keyed_inserts l s : well_keyed s → well_keyed (foldl set_insert s l).
Proof. intros Hs k x [?|[_ ?]]%inserts_lookup; [by apply Hs|done]. Qed.

Lemma removes_lookup l s k x :
  foldl set_remove s l !! k = Some x ↔ s !! k = Some x ∧ k ∉ intent_key <$> l.
Proof.
  revert s. induction l as [|i l IH]; intros s; csimpl.
  { split; [|tauto]. intros H. split; [done|]. apply not_elem_of_nil. }
  rewrite IH. unfold set_remove. rewrite lookup_delete_Some, not_elem_of_cons.
  naive_solver.
Qed.
Lemma well_keyed_removes l s : well_keyed s → well_keyed (foldl set_remove s l).
Proof. intros Hs k x [? _]%removes_lookup. by apply Hs. Qed.
Lemma well_keyed_remove s i : well_keyed s → well_keyed (set_remove s i).
Proof. apply (well_keyed_removes [i]). Qed.

(** ** The state's invariant *)

Section worker.
Context (set_order : ReadSet → list StatsSnapshotIntent).
Context (map_order : gmap Z PendingPlaytime → list (Z * PendingPlaytime)).
Hypothesis Hset : ∀ s, set_order s ≡ₚ (map_to_list s).*2.
Implicit Types (s : WorkerState) (w : Worker) (i : StatsSnapshotIntent).

Lemma elem_of_of_app (a : Z) (r : ReadSet) i :
  well_keyed r → i ∈ of_app set_order a r ↔ intent_app_id i = a ∧ r !! intent_key i = Some i.
Proof.
  intros Hr. unfold of_app. rewrite list_elem_of_filter, Hset, list_elem_of_fmap.
  split; intros [Ha H]; (split; [done|]).
  - destruct H as ([k x] & -> & Hin). apply elem_of_map_to_list in Hin. simpl.
    by rewrite (Hr _ _ Hin).
  - exists (intent_key i, i). split; [done|]. by apply elem_of_map_to_list.
Qed.

Lemma refreshing_true s a :
  refreshing s a = true ↔ a ∈ active_refreshes s ∨ is_Some (pending_refreshes s !! a).
Proof. unfold refreshing. by rewrite orb_true_iff, !bool_decide_eq_true. Qed.

(** [waived]: an app whose waiting reads have no refresh yet. *)
Record StateOk (waived : option Z) s : Prop := {
  ok_queued : well_keyed (queued_reads s);
  ok_active : well_keyed (active_reads s);
  ok_after : well_keyed (reads_after_refresh s);
  (** the queue of reads and the set that guards it hold the same, once *)
  ok_reads : NoDup (intent_key <$> pending_reads s);
  ok_reads_set k : is_Some (queued_reads s !! k) ↔ k ∈ intent_key <$> pending_reads s;
  (** so do the queue and the map of refreshes *)
  ok_order : NoDup (pending_refresh_order s);
  ok_order_set a : is_Some (pending_refreshes s !! a) ↔ a ∈ pending_refresh_order s;
  ok_requests a r : pending_refreshes s !! a = Some r → rr_app_id r = a;
  (** a read that may start has no refresh ahead of it *)
  ok_may_read i : i ∈ pending_reads s → refreshing s (intent_app_id i) = false;
  (** a read that waits has one *)
  ok_waiting k i : reads_after_refresh s !! k = Some i →
    refreshing s (intent_app_id i) = true ∨ waived = Some (intent_app_id i);
}.

Lemma ok_default : StateOk None worker_default.
Proof.
  split; simpl; try done; try constructor; try (by intros ?%not_elem_of_nil);
    try (intros [? H]; by rewrite lookup_empty in H).
Qed.

Lemma ok_clear s : StateOk None (clear_context s).
Proof. destruct ok_default. by split. Qed.

Lemma refreshing_reads s p q a r x :
  refreshing (with_reads s p q a r) x = refreshing s x.
Proof. done. Qed.

Lemma ok_queue_read v s i : StateOk v s → StateOk v (queue_read_locked s i).
Proof.
  intros Hs. unfold queue_read_locked. destruct (refreshing s (intent_app_id i)) eqn:Er.
  { destruct Hs. split; simpl; auto using well_keyed_insert.
    intros k x [?|[-> ->]]%set_insert_lookup; [by eauto|left; exact Er]. }
  destruct (set_has (queued_reads s) i) eqn:Eq; [done|].
  assert (Hn : intent_key i ∉ intent_key <$> pending_reads s).
  { rewrite <-(ok_reads_set _ _ Hs), <-set_has_true. by rewrite Eq. }
  destruct Hs. split; simpl; auto using well_keyed_insert.
  - rewrite fmap_app. apply NoDup_app. split; [done|]. split; [|apply NoDup_singleton].
    intros k Hk ->%list_elem_of_singleton. by apply Hn.
  - intros k. rewrite fmap_app, elem_of_app, <-ok_reads_set0. simpl. rewrite list_elem_of_singleton.
    split.
    + intros [x [?|[-> ->]]%set_insert_lookup]; [left; by eexists|by right].
    + intros [[x Hx]| ->]; [exists x; by apply set_insert_old|apply set_insert_new].
  - intros x [?| ->%list_elem_of_singleton]%elem_of_app; [by apply ok_may_read0|exact Er].
Qed.

Lemma ok_queue_reads v l s : StateOk v s → StateOk v (foldl queue_read_locked s l).
Proof. revert s. induction l; intros s H; simpl; auto using ok_queue_read. Qed.

Lemma ok_queue_refresh s a g :
  StateOk (Some a) s → StateOk None (queue_refresh_locked set_order s a g).
Proof.
  intros Hs. unfold queue_refresh_locked. destruct (pending_refreshes s !! a) as [r|] eqn:Ep.
  - assert (Hw : ∀ k i, reads_after_refresh s !! k = Some i →
      refreshing s (intent_app_id i) = true).
    { intros k i Hi. destruct (ok_waiting _ _ Hs k i Hi) as [|[= ->]]; [done|].
      apply refreshing_true. right. by eexists. }
    destruct g as [g|]; [|destruct Hs; split; eauto].
    assert (Hr : ∀ x, refreshing (with_refreshes s (pending_refresh_order s)
      (<[a:={| rr_app_id := rr_app_id r; rr_guard := Some g |}]> (pending_refreshes s))
      (active_refreshes s)) x = refreshing s x).
    { intros x. unfold refreshing. simpl. f_equal. apply bool_decide_ext.
      rewrite lookup_insert. case_decide; [subst; rewrite Ep; by split; eexists|done]. }
    destruct Hs. split; try done.
    + intros x. simpl. rewrite <-ok_order_set0, lookup_insert.
      case_decide; [subst; rewrite Ep; by split; eexists|done].
    + intros x r'. simpl. rewrite lookup_insert. case_decide; [|by apply ok_requests0].
      intros [= <-]. simpl. subst. by apply ok_requests0.
    + intros i Hi. rewrite Hr. by apply ok_may_read0.
    + intros k i Hi. left. rewrite Hr. by eapply Hw.
  - set (s' := with_refreshes _ _ _ _).
    assert (Hr : ∀ x, refreshing s' x = true ↔ refreshing s x = true ∨ x = a).
    { intros x. rewrite !refreshing_true. simpl. rewrite lookup_insert.
      case_decide; [subst|].
      - split; [by right|]. intros _. right. by eexists.
      - naive_solver. }
    assert (Hno : a ∉ pending_refresh_order s).
    { rewrite <-(ok_order_set _ _ Hs), Ep. by intros []. }
    destruct Hs. split; simpl; auto using well_keyed_inserts, well_keyed_removes.
    + eapply sublist_NoDup; [exact ok_reads0|]. apply fmap_sublist, sublist_filter.
    + intros k. rewrite list_elem_of_fmap. split.
      * intros [x [Hx Hk]%removes_lookup]. pose proof (ok_queued0 _ _ Hx) as Hkey. subst k.
        assert (Hin : intent_key x ∈ intent_key <$> pending_reads s)
          by (apply ok_reads_set0; by eexists).
        apply list_elem_of_fmap in Hin as (y & Hy & Hin). exists y. split; [done|].
        apply list_elem_of_filter. split; [|done]. intros Ha. apply Hk, list_elem_of_fmap.
        exists x. split; [done|]. apply elem_of_of_app; [done|].
        by rewrite (intent_key_app x y).
      * intros (y & -> & [Hne Hin]%list_elem_of_filter).
        destruct (proj2 (ok_reads_set0 (intent_key y))) as [x Hx].
        { apply list_elem_of_fmap. by exists y. }
        exists x. apply removes_lookup. split; [done|].
        intros (z & Hz & [Ha Hq]%elem_of_of_app)%list_elem_of_fmap; [|done].
        apply Hne. rewrite <-Ha. by apply intent_key_app.
    + apply NoDup_app. split; [done|]. split; [|apply NoDup_singleton].
      intros x Hx ->%list_elem_of_singleton. done.
    + intros x. rewrite elem_of_app, list_elem_of_singleton, lookup_insert, <-ok_order_set0.
      case_decide; [subst; split; [by right|by eexists]|]. naive_solver.
    + intros x r. rewrite lookup_insert. case_decide; [by intros [= <-]|by apply ok_requests0].
    + intros i [Hne Hin]%list_elem_of_filter. apply not_true_iff_false. rewrite Hr.
      rewrite (ok_may_read0 _ Hin). naive_solver.
    + intros k i [[H|[H _]]%inserts_lookup|[H _]]%inserts_lookup; left; apply Hr.
      * destruct (ok_waiting0 _ _ H) as [|[= ->]]; auto.
      * right. by apply elem_of_of_app in H as [? _].
      * right. by apply elem_of_of_app in H as [? _].
Qed.

Lemma ok_take_read v s :
  StateOk v s → StateOk v (take_read s).2.
Proof.
  intros Hs. unfold take_read. destruct (pending_reads s) as [|i rest] eqn:E; [done|].
  destruct Hs. rewrite E in *. simpl.
  split; simpl; auto using well_keyed_remove, well_keyed_insert.
  - by apply NoDup_cons in ok_reads0 as [_ ?].
  - intros k. apply NoDup_cons in ok_reads0 as [Hn Hd]. unfold set_remove.
    rewrite lookup_delete. specialize (ok_reads_set0 k). csimpl in ok_reads_set0.
    rewrite elem_of_cons in ok_reads_set0. case_decide as Ek.
    + subst k. split; [by intros []|done].
    + rewrite ok_reads_set0. naive_solver.
  - intros x Hx. apply ok_may_read0. by right.
Qed.

Lemma ok_finish_read v s i : StateOk v s → StateOk v (finish_read s i).
Proof. intros []. split; simpl; auto using well_keyed_remove. Qed.

(** [take_refresh] moves an app from the pending to the active ones, if there is one that is
    not active already. *)
Lemma take_refresh_loop_spec v count s o s' :
  StateOk v s → take_refresh_loop count s = (o, s') →
  StateOk v s' ∧ (∀ x, refreshing s' x = refreshing s x) ∧
  reads_after_refresh s' = reads_after_refresh s ∧ queued_reads s' = queued_reads s ∧
  match o with
  | None => active_refreshes s' = active_refreshes s ∧ pending_refreshes s' = pending_refreshes s
  | Some r => active_refreshes s' = {[rr_app_id r]} ∪ active_refreshes s ∧
              pending_refreshes s' = delete (rr_app_id r) (pending_refreshes s) ∧
              pending_refreshes s !! rr_app_id r = Some r ∧ rr_app_id r ∉ active_refreshes s
  end.
Proof.
  revert s. induction count as [|count IH]; intros s Hs H; simpl in H.
  { by injection H as <- <-. }
  destruct (pending_refresh_order s) as [|a rest] eqn:Eo; [by injection H as <- <-|].
  pose proof (ok_order_set _ _ Hs a) as Ha. rewrite Eo in Ha.
  pose proof (ok_order _ _ Hs) as Hd. rewrite Eo in Hd.
  case_bool_decide as Hact.
  - apply IH in H; [exact H|]. destruct Hs. split; simpl; try done.
    + by rewrite <-Permutation_cons_append.
    + intros x. by rewrite <-Permutation_cons_append, ok_order_set0, Eo.
  - destruct (pending_refreshes s !! a) as [r|] eqn:Ep.
    2: { exfalso. destruct (proj2 Ha) as [? ?]; [by left|done]. }
    injection H as <- <-. pose proof (ok_requests _ _ Hs _ _ Ep) as Happ. rewrite Happ.
    assert (Hr : ∀ x, refreshing (with_refreshes s rest (delete a (pending_refreshes s))
                         ({[a]} ∪ active_refreshes s)) x = refreshing s x).
    { intros x. apply eq_true_iff_eq. rewrite !refreshing_true. simpl.
      rewrite elem_of_union, elem_of_singleton, lookup_delete.
      case_decide; [subst|naive_solver].
      split; [intros _; right; by eexists|]. intros _. left. by left. }
    apply NoDup_cons in Hd as [Hn Hd]. split; [|done].
    destruct Hs. split; try done; simpl.
    + intros x. rewrite lookup_delete. case_decide as Ex.
      * subst x. split; [by intros []|done].
      * rewrite ok_order_set0, Eo, elem_of_cons. naive_solver.
    + intros x r' [_ ?]%lookup_delete_Some. by apply ok_requests0.
    + intros i Hi. rewrite Hr. by apply ok_may_read0.
    + intros k i Hi. rewrite Hr. by eapply ok_waiting0.
Qed.

Lemma queue_read_refreshes s i :
  active_refreshes (queue_read_locked s i) = active_refreshes s ∧
  pending_refreshes (queue_read_locked s i) = pending_refreshes s.
Proof. unfold queue_read_locked. repeat case_match; done. Qed.
Lemma queue_reads_refreshes l s :
  active_refreshes (foldl queue_read_locked s l) = active_refreshes s ∧
  pending_refreshes (foldl queue_read_locked s l) = pending_refreshes s.
Proof.
  revert s. induction l as [|i l IH]; intros s; simpl; [done|].
  destruct (IH (queue_read_locked s i)) as [-> ->]. apply queue_read_refreshes.
Qed.

(** The active refreshes after [queue_refresh_locked], and the pending ones. *)
Lemma queue_refresh_refreshes s a g :
  active_refreshes (queue_refresh_locked set_order s a g) = active_refreshes s ∧
  is_Some (pending_refreshes (queue_refresh_locked set_order s a g) !! a) ∧
  (∀ x, x ≠ a → pending_refreshes (queue_refresh_locked set_order s a g) !! x =
                pending_refreshes s !! x).
Proof.
  unfold queue_refresh_locked. destruct (pending_refreshes s !! a) as [r|] eqn:Ep; [destruct g|];
    simpl; (split; [done|split]).
  - by rewrite lookup_insert_eq; eexists.
  - intros x Hx. by rewrite lookup_insert_ne.
  - rewrite Ep. by eexists.
  - done.
  - by rewrite lookup_insert_eq; eexists.
  - intros x Hx. by rewrite lookup_insert_ne.
Qed.

(** The finished refresh is not active any more; the reads that waited for it are gone from
    there unless another is pending, and queued if it succeeded. *)
Lemma ok_finish_refresh s a b :
  StateOk None s → StateOk None (finish_refresh set_order s a b).
Proof.
  intros Hs. unfold finish_refresh. set (s1 := with_refreshes _ _ _ _).
  assert (Hr : ∀ x, refreshing s1 x = true → refreshing s x = true).
  { intros x. rewrite !refreshing_true. simpl. set_solver. }
  assert (H1 : StateOk (Some a) s1).
  { destruct Hs. split; try done.
    - intros i Hi. apply not_true_iff_false. intros H%Hr. by rewrite ok_may_read0 in H.
    - intros k i Hi. destruct (decide (intent_app_id i = a)) as [->|Hne]; [by right|left].
      destruct (ok_waiting0 _ _ Hi) as [H|?]; [|done]. apply refreshing_true in H.
      apply refreshing_true. simpl. set_solver. }
  case_bool_decide as Hp.
  - destruct H1. split; try done. intros k i Hi. left.
    destruct (ok_waiting0 _ _ Hi) as [|[= ->]]; [done|]. apply refreshing_true. by right.
  - assert (H2 : StateOk None (with_reads s1 (pending_reads s1) (queued_reads s1) (active_reads s1)
      (foldl set_remove (reads_after_refresh s1) (of_app set_order a (reads_after_refresh s1))))).
    { destruct H1. split; try done; simpl.
      - by apply well_keyed_removes.
      - intros k i [Hi Hn]%removes_lookup. left.
        destruct (ok_waiting0 _ _ Hi) as [|[= ->]]; [done|]. exfalso.
        apply Hn, list_elem_of_fmap. exists i. pose proof (ok_after0 _ _ Hi) as Hk. split; [done|].
        apply elem_of_of_app; [done|]. simpl in Hi. by rewrite <-Hk in Hi. }
    destruct b; [by apply ok_queue_reads|done].
Qed.

Lemma finish_refresh_active s a b :
  active_refreshes (finish_refresh set_order s a b) = active_refreshes s ∖ {[a]}.
Proof.
  unfold finish_refresh. case_bool_decide; [done|]. destruct b; [|done].
  by rewrite (proj1 (queue_reads_refreshes _ _)).
Qed.

(** ** The worker's invariant *)

Definition issuing_app w : list Z :=
  match wk_issuing w with Some r => [rr_app_id r] | None => [] end.

Record WorkerOk w : Prop := {
  wo_state : StateOk None (wk_state w);
  (** an active refresh is with Steam or about to be *)
  wo_active a : a ∈ active_refreshes (wk_state w) →
    a ∈ if_app_id <$> wk_in_flight w ∨ a ∈ issuing_app w;
  (** the calls to Steam are bounded *)
  wo_bound : (length (wk_in_flight w) + length (issuing_app w) ≤ MAX_IN_FLIGHT)%nat;
}.

Lemma wo_with_state w s :
  WorkerOk w → StateOk None s → active_refreshes s = active_refreshes (wk_state w) →
  WorkerOk (with_state w s).
Proof. intros [H1 H2 H3] Hs Ha. split; [done| |done]. simpl. by rewrite Ha. Qed.

Lemma wo_finishes w l (q : option RefreshRequest) a c b :
  WorkerOk w →
  (∀ x, x ≠ a → x ∈ if_app_id <$> wk_in_flight w ∨ x ∈ issuing_app w →
     x ∈ if_app_id <$> l ∨ x ∈ (match q with Some r => [rr_app_id r] | None => [] end : list Z)) →
  (length l + (match q with Some _ => 1 | None => 0 end) ≤
   length (wk_in_flight w) + length (issuing_app w))%nat →
  WorkerOk (finishes set_order w l q a c b).1.
Proof.
  intros [H1 H2 H3] Hx Hlen. split; simpl.
  - by apply ok_finish_refresh.
  - intros x. rewrite finish_refresh_active. intros [Hin Hne%not_elem_of_singleton]%elem_of_difference.
    unfold issuing_app. simpl. by apply Hx, H2.
  - unfold issuing_app. simpl. destruct q; simpl in *; lia.
Qed.

Lemma ok_signal s a g : StateOk None s → StateOk None (signal_pending_playtime s a g).2.
Proof. intros []. by split. Qed.
Lemma ok_playtime s p r : StateOk None s → StateOk None (with_playtime s p r).
Proof. intros []. by split. Qed.
Lemma ok_client_id s c : StateOk None s → StateOk None (with_client_id s c).
Proof. intros []. by split. Qed.

Lemma ok_queue_snapshot s i r :
  StateOk None s → StateOk None (queue_snapshot_locked set_order s i r).
Proof.
  intros Hs. destruct r; simpl; [by apply ok_queue_read|]. case_match; [done|].
  apply ok_queue_refresh. destruct Hs. split; try done; simpl.
  - by apply well_keyed_insert.
  - intros k x [H'|[-> ->]]%set_insert_lookup; [|by right].
    left. by destruct (ok_waiting0 _ _ H') as [|?].
Qed.

Lemma queue_snapshot_active s i r :
  active_refreshes (queue_snapshot_locked set_order s i r) = active_refreshes s.
Proof.
  destruct r; simpl; [apply queue_read_refreshes|]. case_match; [done|].
  apply (queue_refresh_refreshes (with_reads s _ _ _ _)).
Qed.

(** Recovery, for whatever a snapshot request keeps. *)
Lemma recovery_ind (P : WorkerState → Prop) s con l :
  (∀ s i, P s → P (queue_snapshot_locked set_order s i RefreshThenRead)) →
  P s → P (queue_durable_stats_recovery set_order s con l).
Proof.
  intros Hstep. unfold queue_durable_stats_recovery.
  generalize (filter (λ i, con (intent_app_id i) = true) l). clear l. intros l. revert s.
  induction l as [|i l IH]; intros s Hs; simpl; [done|]. by apply IH, Hstep.
Qed.
Lemma ok_recovery s con l :
  StateOk None s → StateOk None (queue_durable_stats_recovery set_order s con l).
Proof. apply recovery_ind. intros s' i. apply ok_queue_snapshot. Qed.
Lemma recovery_active s con l :
  active_refreshes (queue_durable_stats_recovery set_order s con l) = active_refreshes s.
Proof. apply recovery_ind; [|done]. intros s' i <-. apply queue_snapshot_active. Qed.

Lemma ok_weaken s a : StateOk None s → StateOk (Some a) s.
Proof. intros []. split; try done. intros k i Hi. by destruct (ok_waiting0 _ _ Hi); left. Qed.

Lemma take_matching_spec l c e l' :
  take_matching_api_call_result l c = Some (e, l') →
  length l = S (length l') ∧
  ∀ x, x ≠ if_app_id e → x ∈ if_app_id <$> l → x ∈ if_app_id <$> l'.
Proof.
  unfold take_matching_api_call_result. intros H.
  destruct (list_find _ l) as [[n e']|] eqn:E; simplify_eq/=.
  apply list_find_Some in E as (Hn & _ & _). apply delete_Permutation in Hn as Hp.
  split; [apply (Permutation_length Hp)|].
  intros x Hx (y & -> & Hy)%list_elem_of_fmap. apply list_elem_of_fmap. exists y. split; [done|].
  apply (elem_of_Permutation_proper y _ _ Hp) in Hy. by apply elem_of_cons in Hy as [->|?].
Qed.

(** A step that touches neither the refreshes nor the calls. *)
Lemma wo_same w w' :
  WorkerOk w → StateOk None (wk_state w') →
  active_refreshes (wk_state w') = active_refreshes (wk_state w) →
  wk_in_flight w' = wk_in_flight w → wk_issuing w' = wk_issuing w → WorkerOk w'.
Proof.
  intros [H1 H2 H3] Hs Ha Hf Hi. unfold issuing_app in *.
  split; [done|..]; unfold issuing_app; by rewrite ?Ha, Hf, Hi.
Qed.

Lemma wo_advance w b : WorkerOk w → WorkerOk (advance w b).
Proof. intros Hw. unfold advance. repeat case_match; apply (wo_same w); try done; apply Hw. Qed.

Lemma finish_playtime_state s a e :
  StateOk None s → StateOk None (finish_pending_playtime s a e).2 ∧
  active_refreshes (finish_pending_playtime s a e).2 = active_refreshes s.
Proof.
  intros Hs. unfold finish_pending_playtime. repeat case_match; simpl; try done.
  by split; [apply ok_playtime|].
Qed.

Lemma wo_take_refresh w :
  WorkerOk w → wk_phase w = Admitting →
  WorkerOk (own_step set_order map_order w ATakeRefresh).1.
Proof.
  intros Hw Hph. pose proof (wo_state _ Hw) as Hs. unfold own_step. rewrite Hph.
  destruct (wk_issuing w) eqn:Ei; [done|]. case_bool_decide as Hlen; [by apply (wo_same w)|].
  destruct (take_refresh (wk_state w)) as [o s'] eqn:Et.
  destruct (take_refresh_loop_spec _ _ _ _ _ Hs Et) as (Hs' & _ & _ & _ & Ho).
  destruct o as [r|]; [|by apply (wo_same w); simpl; try done; apply Ho].
  destruct Hw as [H1 H2 H3]. unfold issuing_app in *. rewrite Ei in *. simpl in *.
  split; [done| |]; unfold issuing_app; simpl; [|lia].
  destruct Ho as (-> & _ & _). intros x [->%elem_of_singleton|Hx]%elem_of_union;
    [right; by left|left; by destruct (H2 _ Hx) as [|?%not_elem_of_nil]].
Qed.

Lemma wo_issue w cur ans :
  WorkerOk w → wk_phase w = Admitting →
  WorkerOk (own_step set_order map_order w (AIssue cur ans)).1.
Proof.
  intros Hw Hph. unfold own_step. rewrite Hph. destruct (wk_issuing w) as [r|] eqn:Ei; [|done].
  assert (Hf : WorkerOk (finishes set_order w (wk_in_flight w) None (rr_app_id r) None false).1).
  { apply wo_finishes; [done| |].
    - unfold issuing_app. rewrite Ei. intros x Hx [?|?%list_elem_of_singleton]; [by left|done].
    - unfold issuing_app. rewrite Ei. simpl. lia. }
  destruct (match rr_guard r with Some _ => _ | None => _ end); [exact Hf|].
  destruct ans as [call|]; [|exact Hf]. destruct Hw as [H1 H2 H3]. unfold issuing_app in *.
  rewrite Ei in *. split; [done| |]; unfold issuing_app; simpl in *.
  - intros x Hx. left. rewrite fmap_app, elem_of_app. csimpl. by apply H2.
  - rewrite length_app. simpl. lia.
Qed.

Lemma wo_own_step w a : WorkerOk w → WorkerOk (own_step set_order map_order w a).1.
Proof.
  intros Hw. pose proof (wo_state _ Hw) as Hs.
  destruct (wk_phase w) eqn:Hph; [by unfold own_step; rewrite Hph|..].
  - unfold own_step. rewrite Hph. destruct a; try done.
    destruct (wk_in_flight w) as [|e l] eqn:El; [done|]. apply wo_finishes; [done| |].
    + rewrite El. csimpl. intros x Hx [[?|?]%elem_of_cons|?]; [done|by left|by right].
    + rewrite El. unfold issuing_app. destruct (wk_issuing w); simpl; lia.
  - unfold own_step. rewrite Hph. destruct a; try done.
    + apply wo_with_state; [done|by apply ok_client_id|done].
    + destruct (take_matching_api_call_result _ _) as [[e l]|] eqn:Et; [|done].
      apply take_matching_spec in Et as [Hlen Hin]. apply wo_finishes; [done| |].
      * intros x Hx [?|?]; [left; by apply Hin|by right].
      * unfold issuing_app. destruct (wk_issuing w); simpl; lia.
  - unfold own_step. rewrite Hph. destruct a as [| | | | | | | | | | |g|same| | | | |]; try done.
    + destruct (wk_samples w); [|done]. by apply (wo_same w); [|apply ok_playtime|..].
    + destruct (wk_samples w) as [|[app e] rest], (wk_sampled w); try done.
      destruct (finish_playtime_state (wk_state w) app e Hs). destruct same; by apply (wo_same w).
    + destruct (wk_samples w) as [|[app e] rest], (wk_sampled w); try done.
      destruct (finish_playtime_state (wk_state w) app e Hs). by apply (wo_same w).
  - unfold own_step. rewrite Hph. destruct a; try done.
    + pose proof (ok_take_read _ _ Hs) as Ht. unfold take_read in *.
      destruct (wk_reading w), (pending_reads (wk_state w)); simpl in *; try done;
        by apply (wo_same w).
    + destruct (wk_reading w); [|done]. by apply (wo_same w); [|apply ok_finish_read|..].
  - destruct a; try (by unfold own_step; rewrite Hph);
      [by apply wo_take_refresh|by apply wo_issue].
Qed.

Lemma wo_act w a : WorkerOk w → WorkerOk (act set_order map_order w a).1.
Proof.
  intros Hw. pose proof (wo_state _ Hw) as Hs.
  destruct a as [i r|app g|app g|c| | |con l|lost| | | | | | | | | |]; simpl;
    try (by apply (wo_own_step w)).
  - apply wo_with_state; [done|..]; unfold queue_snapshot; case_match; simpl; try done.
    + by apply ok_queue_snapshot.
    + apply queue_snapshot_active.
  - apply wo_with_state; [done|..]; unfold queue_refresh; case_match; simpl; try done.
    + by apply ok_queue_refresh, ok_weaken.
    + apply queue_refresh_refreshes.
  - apply wo_with_state; [done|by apply ok_signal|done].
  - apply wo_with_state; [done|by apply ok_client_id|done].
  - by apply (wo_same w).
  - split; simpl; [apply ok_clear| |apply Hw]. intros x. by rewrite elem_of_empty.
  - apply wo_with_state; [done|by apply ok_recovery|apply recovery_active].
  - by apply wo_advance.
Qed.

Lemma wo_run w actions : WorkerOk w → WorkerOk (run set_order map_order w actions).1.
Proof.
  revert w. induction actions as [|a actions IH]; intros w Hw; simpl; [done|].
  pose proof (wo_act w a Hw) as H1. destruct (act set_order map_order w a) as [w1 out].
  pose proof (IH w1 H1) as H2. by destruct (run set_order map_order w1 actions).
Qed.

Lemma wo_start : WorkerOk worker_start.
Proof. split; simpl; [apply ok_default|intros a; by rewrite elem_of_empty|unfold MAX_IN_FLIGHT; lia]. Qed.
End worker.

(** C15 [user_stats_invariant]: after any sequence of critical sections of the other threads and
    steps of the worker, the queue of reads and its set agree and hold every intent once, and
    so do those of the refreshes; a read that may start has no refresh of its app ahead of
    it; a read that waits has one that is pending or, if it is active, in one of the calls to
    Steam or being issued, so it is not left waiting for nothing; and at most eight calls are
    with Steam. *)
Theorem user_stats_invariant set_order map_order actions
    (Hset : ∀ s, set_order s ≡ₚ (map_to_list s).*2) :
  let w := (run set_order map_order worker_start actions).1 in
  let s := wk_state w in
  NoDup (intent_key <$> pending_reads s) ∧
  (∀ k, is_Some (queued_reads s !! k) ↔ k ∈ intent_key <$> pending_reads s) ∧
  NoDup (pending_refresh_order s) ∧
  (∀ a, is_Some (pending_refreshes s !! a) ↔ a ∈ pending_refresh_order s) ∧
  (∀ i, i ∈ pending_reads s → refreshing s (intent_app_id i) = false) ∧
  (∀ k i, reads_after_refresh s !! k = Some i →
     intent_app_id i ∈ pending_refresh_order s ∨
     intent_app_id i ∈ if_app_id <$> wk_in_flight w ∨ intent_app_id i ∈ issuing_app w) ∧
  (length (wk_in_flight w) ≤ 8)%nat.
Proof.
  intros w s. destruct (wo_run set_order map_order Hset worker_start actions wo_start)
    as [[] Ha Hb]. subst s w.
  repeat (split; [done|]). split.
  - intros k i Hi. destruct (ok_waiting0 _ _ Hi) as [H|?]; [|done].
    apply refreshing_true in H as [H|H]; [|left; by apply ok_order_set0].
    destruct (Ha _ H); auto.
  - unfold MAX_IN_FLIGHT in Hb. lia.
Qed.

(** ** Calls and epochs *)

Section calls.
Context (set_order : ReadSet → list StatsSnapshotIntent).
Context (map_order : gmap Z PendingPlaytime → list (Z * PendingPlaytime)).
Hypothesis Hset : ∀ s, set_order s ≡ₚ (map_to_list s).*2.
Implicit Types (s : WorkerState) (w : Worker) (i : StatsSnapshotIntent).

Definition call_apps w : list Z := (if_app_id <$> wk_in_flight w) ++ issuing_app w.

(** The phases between the check at the top and the admission of refreshes. *)
Definition in_pass (p : Phase) : bool :=
  match p with Consuming | Sampling | Reading => true | _ => false end.

(** [changes]: how often the context has changed so far. *)
Record CallsOk (changes : nat) w : Prop := {
  ca_epoch : wk_epoch w = Z.of_nat changes;
  ca_session : 0 ≤ wk_session w ≤ wk_epoch w;
  ca_issuing : wk_phase w ≠ Admitting → wk_issuing w = None;
  (** in the session's own context the calls are exactly for active refreshes, one each *)
  ca_fresh : wk_epoch w = wk_session w →
    NoDup (call_apps w) ∧ ∀ x, x ∈ call_apps w → x ∈ active_refreshes (wk_state w);
  (** the context changed during this pass: no refresh is active until the next admission *)
  ca_stale : wk_epoch w ≠ wk_session w → in_pass (wk_phase w) = true →
    active_refreshes (wk_state w) = ∅;
}.

(** Half of a change of context. *)
Definition is_change (a : Action) : bool :=
  match a with AEpochBumped | AContextCleared => true | _ => false end.

(** A step that leaves epochs, calls and active refreshes alone. *)
Lemma ca_same n w w' :
  CallsOk n w → wk_epoch w' = wk_epoch w → wk_session w' = wk_session w →
  wk_in_flight w' = wk_in_flight w → wk_issuing w' = wk_issuing w →
  active_refreshes (wk_state w') = active_refreshes (wk_state w) →
  (wk_phase w' = wk_phase w ∨
   wk_issuing w = None ∧ (in_pass (wk_phase w') = true → in_pass (wk_phase w) = true)) →
  CallsOk n w'.
Proof.
  intros [H1 H2 H3 H4 H5] He Hs Hf Hi Ha Hp. unfold call_apps, issuing_app in *.
  split; unfold call_apps, issuing_app; rewrite ?He, ?Hs, ?Hf, ?Hi, ?Ha; try done.
  - destruct Hp as [->|[? _]]; [done|by intros _].
  - destruct Hp as [->|[_ Hp]]; [done|]. intros Hne Hin. by apply H5, Hp.
Qed.

Lemma ca_finishes n w l (q : option RefreshRequest) a c b :
  CallsOk n w → (wk_phase w ≠ Admitting → q = None) →
  (∃ x, call_apps w ≡ₚ x :: call_apps (with_calls w (wk_state w) l q) ∧ x = a) →
  CallsOk n (finishes set_order w l q a c b).1.
Proof.
  intros [H1 H2 H3 H4 H5] Hq (x & Hp & ->). split; simpl; try done.
  - intros He. destruct (H4 He) as [Hd Hin]. rewrite Hp in Hd. apply NoDup_cons in Hd as [Hn Hd].
    split; [exact Hd|]. intros x Hx. rewrite finish_refresh_active.
    change (x ∈ call_apps (with_calls w (wk_state w) l q)) in Hx. apply elem_of_difference. split.
    + apply Hin. rewrite Hp. by right.
    + rewrite elem_of_singleton. intros ->. done.
  - intros He Hin. rewrite finish_refresh_active, (H5 He Hin). set_solver.
Qed.

Lemma take_matching_perm l c e l' :
  take_matching_api_call_result l c = Some (e, l') → l ≡ₚ e :: l' ∧ if_api_call e = c.
Proof.
  unfold take_matching_api_call_result. intros H.
  destruct (list_find _ l) as [[n e']|] eqn:E; simplify_eq/=.
  apply list_find_Some in E as (Hn & ? & _). split; [by apply delete_Permutation|done].
Qed.

Lemma ca_own_step n w a :
  WorkerOk w → CallsOk n w → CallsOk n (own_step set_order map_order w a).1.
Proof.
  intros Hw Hc. pose proof (wo_state _ Hw) as Hs.
  destruct (wk_phase w) eqn:Hph; unfold own_step; rewrite Hph; [done|..].
  - destruct a; try done. destruct (wk_in_flight w) as [|e l] eqn:El; [done|].
    apply ca_finishes; [done|intros _; by apply (ca_issuing _ _ Hc); rewrite Hph|].
    exists (if_app_id e). split; [|done]. unfold call_apps. rewrite El. done.
  - destruct a; try done; [by apply (ca_same n w); auto|].
    destruct (take_matching_api_call_result _ _) as [[e l]|] eqn:Et; [|done].
    apply take_matching_perm in Et as [Hp _].
    apply ca_finishes; [done|intros _; by apply (ca_issuing _ _ Hc); rewrite Hph|].
    exists (if_app_id e). split; [|done]. unfold call_apps. by rewrite Hp.
  - destruct a as [| | | | | | | | | | |g|same| | | | |]; try done.
    + destruct (wk_samples w); [|done]. by apply (ca_same n w); auto.
    + destruct (wk_samples w) as [|[app e] rest], (wk_sampled w); try done.
      destruct (finish_playtime_state (wk_state w) app e Hs).
      destruct same; apply (ca_same n w); auto.
    + destruct (wk_samples w) as [|[app e] rest], (wk_sampled w); try done.
      destruct (finish_playtime_state (wk_state w) app e Hs). apply (ca_same n w); auto.
  - destruct a; try done.
    + unfold take_read. destruct (wk_reading w), (pending_reads (wk_state w)) eqn:E; simpl; try done;
        apply (ca_same n w); try done; simpl; [|by left]. right. rewrite Hph.
      split; [by apply (ca_issuing _ _ Hc); rewrite Hph|done].
    + destruct (wk_reading w); [|done]. apply (ca_same n w); auto.
  - destruct a as [| | | | | | | | | | | | | | | | |cur ans]; try done.
    + destruct (wk_issuing w) eqn:Ei; [done|].
      case_bool_decide; [by apply (ca_same n w); auto; right|].
      destruct (take_refresh (wk_state w)) as [o s'] eqn:Et.
      destruct (take_refresh_loop_spec _ _ _ _ _ Hs Et) as (Hs' & _ & _ & _ & Ho).
      destruct o as [r|]; [|by apply (ca_same n w); [done..|apply Ho|right]].
      destruct Ho as (Ha & _ & _ & Hna). destruct Hc as [H1 H2 H3 H4 H5].
      split; simpl; try done.
      * intros He. destruct (H4 He) as [Hd Hin]. unfold call_apps, issuing_app in *.
        rewrite Ei in *. simpl in *. rewrite app_nil_r in *. rewrite Ha. split.
        -- apply NoDup_app. split; [done|]. split; [|apply NoDup_singleton].
           intros x Hx ->%list_elem_of_singleton. by apply Hna, Hin.
        -- intros x [?| ->%list_elem_of_singleton]%elem_of_app; set_solver.
      * intros ?. rewrite Hph. done.
    + destruct (wk_issuing w) as [r|] eqn:Ei; [|done].
      assert (Hf : CallsOk n (finishes set_order w (wk_in_flight w) None (rr_app_id r) None false).1).
      { apply ca_finishes; [done|done|]. exists (rr_app_id r). split; [|done].
        unfold call_apps, issuing_app. simpl. rewrite Ei, app_nil_r.
        symmetry. apply Permutation_cons_append. }
      destruct (match rr_guard r with Some _ => _ | None => _ end); [exact Hf|].
      destruct ans as [call|]; [|exact Hf]. destruct Hc as [H1 H2 H3 H4 H5].
      split; simpl; try done. intros He. unfold call_apps, issuing_app in *. simpl.
      rewrite Ei in H4. rewrite fmap_app, app_nil_r. by apply H4.
Qed.

Lemma ca_act n w a :
  WorkerOk w → CallsOk n w → is_change a = false → CallsOk n (act set_order map_order w a).1.
Proof.
  intros Hw Hc Hno. destruct a as [i r|app g|app g|c| | |con l|lost| | | | | | | | | |]; simpl in *;
    try done; try (by apply ca_own_step).
  - apply (ca_same n w); auto. simpl. unfold queue_snapshot. case_match; [done|].
    apply queue_snapshot_active.
  - apply (ca_same n w); auto. simpl. unfold queue_refresh. case_match; [done|].
    apply queue_refresh_refreshes.
  - apply (ca_same n w); auto.
  - apply (ca_same n w); auto.
  - apply (ca_same n w); auto. simpl. apply recovery_active.
  - unfold advance. destruct (wk_phase w) eqn:Hph; try done.
    + destruct (lost || negb (wk_epoch w =? wk_session w)) eqn:E;
        [apply (ca_same n w); simpl; auto; right; (split; [apply Hc; by rewrite Hph|done])|].
      apply orb_false_iff in E as [_ E]. apply negb_false_iff, Z.eqb_eq in E.
      destruct Hc as [H1 H2 H3 H4 H5]. split; try done; simpl.
      intros _. apply H3. by rewrite Hph.
    + destruct (wk_in_flight w) eqn:El; [|done].
      assert (Hi : wk_issuing w = None) by (apply Hc; by rewrite Hph).
      destruct Hc as [H1 H2 H3 H4 H5]. split; simpl; try done; try lia.
      intros _. unfold call_apps, issuing_app. simpl. rewrite El, Hi. simpl.
      split; [constructor|]. by intros x ?%not_elem_of_nil.
    + apply (ca_same n w); simpl; auto. right. rewrite Hph. split; [apply Hc; by rewrite Hph|done].
    + destruct (wk_samples w); [|done]. apply (ca_same n w); simpl; auto. right. rewrite Hph.
      split; [apply Hc; by rewrite Hph|done].
Qed.

(** A whole change of context. *)
Lemma ca_change n w :
  CallsOk n w → Z.of_nat (S n) < 2 ^ 64 →
  CallsOk (S n) (run set_order map_order w [AEpochBumped; AContextCleared]).1.
Proof.
  intros [H1 H2 H3 H4 H5] Hlt.
  assert (He : u64_wrapping_add (wk_epoch w) 1 = Z.of_nat (S n))
    by (unfold u64_wrapping_add; rewrite H1, Z.mod_small; lia).
  split; simpl; try done; lia.
Qed.

(** ** A read that follows a refresh *)

Context (target : StatsSnapshotIntent).
Notation k := (intent_key target).
Notation a := (intent_app_id target).

(** A refresh of the app was issued and that very call succeeded. *)
Definition served (h : list Output) : Prop :=
  ∃ x c y z, h = x ++ OIssued a c :: y ++ OFinished a (Some c) true :: z.

(** Where the intent stands before that. *)
Inductive stage (h : list Output) w : Prop :=
| stage_gone : reads_after_refresh (wk_state w) !! k = None → stage h w
| stage_pending :
    is_Some (reads_after_refresh (wk_state w) !! k) →
    is_Some (pending_refreshes (wk_state w) !! a) → stage h w
| stage_taken r :
    is_Some (reads_after_refresh (wk_state w) !! k) →
    wk_issuing w = Some r → rr_app_id r = a → a ∈ active_refreshes (wk_state w) → stage h w
| stage_flying e :
    is_Some (reads_after_refresh (wk_state w) !! k) →
    pending_refreshes (wk_state w) !! a = None →
    e ∈ wk_in_flight w → if_app_id e = a → OIssued a (if_api_call e) ∈ h →
    a ∈ active_refreshes (wk_state w) → stage h w.

Record Waits (h : list Output) w : Prop := {
  wa_queued : queued_reads (wk_state w) !! k = None;
  wa_active : active_reads (wk_state w) !! k = None;
  wa_stage : stage h w;
}.

Definition Mon (h : list Output) w : Prop := served h ∨ Waits h w.

Lemma served_app h out : served h → served (h ++ out).
Proof. intros (x & c & y & z & ->). exists x, c, y, (z ++ out). by simplify_list_eq. Qed.

Lemma set_insert_other (s : ReadSet) i q : intent_key i ≠ q → set_insert s i !! q = s !! q.
Proof.
  intros Hne. unfold set_insert. destruct (set_has s i); [done|]. by rewrite lookup_insert_ne.
Qed.
Lemma inserts_other (l : list StatsSnapshotIntent) (s : ReadSet) q : q ∉ intent_key <$> l → foldl set_insert s l !! q = s !! q.
Proof.
  revert s. induction l as [|i l IH]; intros s; csimpl; [done|].
  intros [H1 H2]%not_elem_of_cons. rewrite IH by done. by apply set_insert_other.
Qed.
Lemma removes_other (l : list StatsSnapshotIntent) (s : ReadSet) q : q ∉ intent_key <$> l → foldl set_remove s l !! q = s !! q.
Proof.
  intros Hn. destruct (s !! q) eqn:E.
  - apply removes_lookup. by split.
  - destruct (foldl set_remove s l !! q) eqn:F; [|done]. apply removes_lookup in F as [F _].
    congruence.
Qed.
Lemma removes_none (l : list StatsSnapshotIntent) (s : ReadSet) q : s !! q = None → foldl set_remove s l !! q = None.
Proof.
  intros H. destruct (foldl set_remove s l !! q) eqn:F; [|done].
  apply removes_lookup in F as [F _]. congruence.
Qed.

(** An app's reads in a set that does not hold the intent, or of another app. *)
Lemma of_app_not (b : Z) (s : ReadSet) :
  well_keyed s → s !! k = None ∨ b ≠ a → k ∉ intent_key <$> of_app set_order b s.
Proof.
  intros Hs Hor (i & Hi & [Ha Hl]%elem_of_of_app)%list_elem_of_fmap; [|done|done].
  destruct Hor as [Hn|Hb]; [congruence|]. apply Hb. rewrite <-Ha. symmetry.
  by apply intent_key_app.
Qed.

(** Queueing another read. *)
Lemma queue_read_other s i :
  intent_key i ≠ k →
  queued_reads (queue_read_locked s i) !! k = queued_reads s !! k ∧
  active_reads (queue_read_locked s i) = active_reads s ∧
  reads_after_refresh (queue_read_locked s i) !! k = reads_after_refresh s !! k.
Proof.
  intros Hne. unfold queue_read_locked. repeat case_match; simpl; try done;
    by rewrite ?set_insert_other.
Qed.
Lemma queue_reads_other (l : list StatsSnapshotIntent) s :
  k ∉ intent_key <$> l →
  queued_reads (foldl queue_read_locked s l) !! k = queued_reads s !! k ∧
  active_reads (foldl queue_read_locked s l) = active_reads s ∧
  reads_after_refresh (foldl queue_read_locked s l) !! k = reads_after_refresh s !! k.
Proof.
  revert s. induction l as [|i l IH]; intros s; csimpl; [done|].
  intros [H1 H2]%not_elem_of_cons. destruct (IH (queue_read_locked s i) H2) as (-> & -> & ->).
  by apply queue_read_other.
Qed.

(** Asking for a refresh: the intent stays where it is. *)
Lemma queue_refresh_intent s (b : Z) g :
  well_keyed (queued_reads s) → well_keyed (active_reads s) →
  queued_reads s !! k = None → active_reads s !! k = None →
  queued_reads (queue_refresh_locked set_order s b g) !! k = None ∧
  active_reads (queue_refresh_locked set_order s b g) !! k = None ∧
  reads_after_refresh (queue_refresh_locked set_order s b g) !! k = reads_after_refresh s !! k.
Proof.
  intros H1 H2 Hq Ha. unfold queue_refresh_locked. destruct (pending_refreshes s !! b).
  { by destruct g. }
  simpl. split; [by apply removes_none|]. split; [done|].
  rewrite !inserts_other; [done|..]; apply of_app_not; auto.
Qed.

Lemma stage_move h out w w' :
  stage h w →
  reads_after_refresh (wk_state w') !! k = reads_after_refresh (wk_state w) !! k →
  wk_issuing w' = wk_issuing w →
  (∀ e, e ∈ wk_in_flight w → if_app_id e = a → e ∈ wk_in_flight w') →
  (a ∈ active_refreshes (wk_state w) → a ∈ active_refreshes (wk_state w')) →
  (pending_refreshes (wk_state w') !! a = pending_refreshes (wk_state w) !! a ∨
   is_Some (pending_refreshes (wk_state w') !! a)) →
  stage (h ++ out) w'.
Proof.
  intros Hst Ha Hi Hf Hact Hp.
  destruct Hst as [H|H1 H2|r H1 H2 H3 H7|e H1 H2 H3 H4 H5 H6].
  - apply stage_gone. by rewrite Ha.
  - apply stage_pending; [by rewrite Ha|]. destruct Hp as [->|?]; done.
  - apply (stage_taken _ _ r); [by rewrite Ha|by rewrite Hi|done|by auto].
  - destruct Hp as [Hp|Hp]; [|apply stage_pending; [by rewrite Ha|done]].
    apply (stage_flying _ _ e); [by rewrite Ha|by rewrite Hp|by auto|done| |by auto].
    apply elem_of_app. by left.
Qed.

(** The other threads. *)
Lemma waits_refresh h w s b g :
  WorkerOk w → Waits h w → queued_reads s = queued_reads (wk_state w) →
  active_reads s = active_reads (wk_state w) →
  pending_refreshes s = pending_refreshes (wk_state w) →
  active_refreshes s = active_refreshes (wk_state w) →
  (reads_after_refresh s !! k = reads_after_refresh (wk_state w) !! k ∨ b = a) →
  Waits (h ++ []) (with_state w (queue_refresh_locked set_order s b g)).
Proof.
  intros Hw [Hq Ha Hst] E1 E2 E3 E4 Hb.
  destruct (queue_refresh_intent s b g) as (H1 & H2 & H3).
  { rewrite E1. apply Hw. } { rewrite E2. apply Hw. } { by rewrite E1. } { by rewrite E2. }
  destruct (queue_refresh_refreshes set_order s b g) as (R1 & R2 & R3).
  split; [done..|]. destruct (decide (b = a)) as [->|Hne].
  - destruct (reads_after_refresh (queue_refresh_locked set_order s a g) !! k) eqn:E.
    + apply stage_pending; simpl; [rewrite E; by eexists|done].
    + by apply stage_gone.
  - destruct Hb as [Hb|?]; [|done]. apply (stage_move _ _ w); simpl; try done.
    + by rewrite H3.
    + by rewrite R1, E4.
    + left. by rewrite R3, E3.
Qed.

Lemma waits_keep h w : Waits h w → Waits (h ++ []) (with_state w (wk_state w)).
Proof. intros [Hq Ha Hst]. split; [done..|]. apply (stage_move _ _ w); auto. Qed.

Lemma waits_locked h w i r :
  WorkerOk w → Waits h w → (r = Read → intent_key i ≠ k) →
  Waits (h ++ []) (with_state w (queue_snapshot_locked set_order (wk_state w) i r)).
Proof.
  intros Hw HW Hr. pose proof (waits_keep h w HW) as Hsame. destruct r; simpl.
  - destruct HW as [Hq Ha Hst]. specialize (Hr eq_refl).
    destruct (queue_read_other (wk_state w) i Hr) as (Q1 & Q2 & Q3).
    destruct (queue_read_refreshes (wk_state w) i) as [R1 R2].
    split; [by simpl; rewrite Q1|by simpl; rewrite Q2|].
    apply (stage_move _ _ w); simpl; rewrite ?R1, ?R2; auto.
  - case_match; [done|]. apply waits_refresh; try done. simpl.
    destruct (decide (intent_key i = k)) as [E|Hne]; [right; by apply intent_key_app|left].
    by apply set_insert_other.
Qed.

Lemma waits_snapshot h w i r :
  WorkerOk w → Waits h w → (r = Read → intent_key i ≠ k) →
  Waits (h ++ []) (with_state w (queue_snapshot set_order (wk_state w) i r).2).
Proof.
  intros Hw HW Hr. unfold queue_snapshot. case_match; [by apply waits_keep|by apply waits_locked].
Qed.

Lemma waits_recovery h w con l :
  WorkerOk w → Waits h w →
  Waits (h ++ []) (with_state w (queue_durable_stats_recovery set_order (wk_state w) con l)).
Proof.
  intros Hw HW. enough (H : let w' := with_state w (queue_durable_stats_recovery set_order
    (wk_state w) con l) in WorkerOk w' ∧ Waits (h ++ []) w') by apply H. cbn zeta.
  apply (recovery_ind set_order (λ s, WorkerOk (with_state w s) ∧ Waits (h ++ []) (with_state w s))).
  - intros s i [H1 H2]. pose proof (wo_state _ H1) as Hs. split.
    + apply (wo_with_state (with_state w s)); [done|by apply ok_queue_snapshot|].
      apply queue_snapshot_active.
    + rewrite app_nil_r in *.
      pose proof (waits_locked h (with_state w s) i RefreshThenRead H1 H2 ltac:(done)) as H.
      by rewrite app_nil_r in H.
  - split; [apply (wo_with_state w); [done|apply Hw|done]|by apply waits_keep].
Qed.

(** A refresh finishes. *)
Lemma finish_refresh_pending s x b :
  pending_refreshes (finish_refresh set_order s x b) = pending_refreshes s.
Proof.
  unfold finish_refresh. case_bool_decide; [done|]. destruct b; [|done].
  by rewrite (proj2 (queue_reads_refreshes _ _)).
Qed.

Lemma finish_refresh_intent s x b :
  StateOk None s → queued_reads s !! k = None → active_reads s !! k = None →
  (x = a → pending_refreshes s !! a = None → b = true → reads_after_refresh s !! k = None) →
  let s' := finish_refresh set_order s x b in
  queued_reads s' !! k = None ∧ active_reads s' !! k = None ∧
  (x ≠ a ∨ is_Some (pending_refreshes s !! a) →
     reads_after_refresh s' !! k = reads_after_refresh s !! k) ∧
  (x = a → pending_refreshes s !! a = None → reads_after_refresh s' !! k = None).
Proof.
  intros Hs Hq Ha Hb. unfold finish_refresh. case_bool_decide as Hp; simpl in Hp.
  { repeat split; try done. intros -> Hn. rewrite Hn in Hp. by destruct Hp. }
  assert (Hpn : pending_refreshes s !! x = None) by (by apply eq_None_not_Some).
  set (reads := of_app _ _ _).
  assert (Hafter : foldl set_remove (reads_after_refresh s) reads !! k =
                   if decide (x = a) then None else reads_after_refresh s !! k).
  { case_decide as Hx; [subst x|apply removes_other, of_app_not; [apply Hs|by right]].
    destruct (foldl set_remove (reads_after_refresh s) reads !! k) as [i|] eqn:E; [|done].
    apply removes_lookup in E as [Hi []]. apply list_elem_of_fmap.
    exists i. pose proof (ok_after _ _ Hs _ _ Hi) as Hk. split; [done|].
    apply elem_of_of_app; [done|apply Hs|]. split; [by apply intent_key_app|].
    simpl. by rewrite Hk. }
  assert (Hgoal : (x ≠ a ∨ is_Some (pending_refreshes s !! a) →
      foldl set_remove (reads_after_refresh s) reads !! k = reads_after_refresh s !! k) ∧
    (x = a → pending_refreshes s !! a = None →
      foldl set_remove (reads_after_refresh s) reads !! k = None)).
  { rewrite Hafter. case_decide as Hx; [|done]. subst x. split; [|done].
    intros [?|[? ?]]; [done|congruence]. }
  destruct b; [|by simpl].
  assert (Hn : k ∉ intent_key <$> reads).
  { apply of_app_not; [apply Hs|]. destruct (decide (x = a)) as [->|?]; [|by right].
    left. by apply Hb. }
  destruct (queue_reads_other reads (with_reads (with_refreshes s (pending_refresh_order s)
    (pending_refreshes s) (active_refreshes s ∖ {[x]})) (pending_reads s) (queued_reads s)
    (active_reads s) (foldl set_remove (reads_after_refresh s) reads)) Hn) as (Q1 & Q2 & Q3).
  unfold with_reads, with_refreshes in *. simpl in *. rewrite Q1, Q2, Q3. done.
Qed.

Lemma waits_finishes h w l (q : option RefreshRequest) x c b :
  WorkerOk w → Waits h w →
  (∀ e, e ∈ wk_in_flight w → if_app_id e ≠ x → e ∈ l) →
  (∀ r, wk_issuing w = Some r → rr_app_id r ≠ x → q = Some r) →
  (x = a → b = true → reads_after_refresh (wk_state w) !! k = None ∨
                       is_Some (pending_refreshes (wk_state w) !! a)) →
  Waits (h ++ (finishes set_order w l q x c b).2) (finishes set_order w l q x c b).1.
Proof.
  intros Hw [Hq Ha Hst] Hl Hi Hb.
  destruct (finish_refresh_intent (wk_state w) x b) as (F1 & F2 & F3 & F4); [apply Hw|done|done| |].
  { intros -> Hp ->. destruct (Hb eq_refl eq_refl) as [?|[? ?]]; [done|congruence]. }
  split; [exact F1|exact F2|]. destruct (decide (x = a)) as [->|Hne].
  - destruct (pending_refreshes (wk_state w) !! a) as [r|] eqn:Ep; [|apply stage_gone; by apply F4].
    specialize (F3 (or_intror (mk_is_Some _ _ eq_refl))).
    destruct (reads_after_refresh (wk_state w) !! k) as [i|] eqn:E.
    + apply stage_pending; simpl; [rewrite F3; by eexists|].
      rewrite finish_refresh_pending, Ep. by eexists.
    + apply stage_gone. by simpl; rewrite F3.
  - specialize (F3 (or_introl Hne)). destruct Hst as [H|H1 H2|r H1 H2 H3 H7|e H1 H2 H3 H4 H5 H6].
    + apply stage_gone. simpl. by rewrite F3.
    + apply stage_pending; simpl; [by rewrite F3|by rewrite finish_refresh_pending].
    + apply (stage_taken _ _ r); simpl; [by rewrite F3| |done|].
      * apply Hi; [done|]. by rewrite H3.
      * rewrite finish_refresh_active. set_solver.
    + apply (stage_flying _ _ e); simpl; [by rewrite F3|by rewrite finish_refresh_pending| |done| |].
      * apply Hl; [done|]. by rewrite H4.
      * apply elem_of_app. by left.
      * rewrite finish_refresh_active. set_solver.
Qed.

(** *** The worker's own steps *)

Definition Next h w (x : Action) : Prop :=
  let r := act set_order map_order w x in
  Mon (h ++ r.2) r.1 ∧ ∀ i, ORead i ∈ r.2 → intent_key i ≠ k.

Lemma next_waits h w x :
  let r := act set_order map_order w x in
  Waits (h ++ r.2) r.1 → (∀ i, ORead i ∉ r.2) → Next h w x.
Proof. intros r HW Hn. split; [by right|]. intros i Hi. by destruct (Hn i). Qed.

(** A step that leaves reads and refreshes alone. *)
Lemma waits_same h w w' :
  Waits h w →
  queued_reads (wk_state w') = queued_reads (wk_state w) →
  active_reads (wk_state w') = active_reads (wk_state w) →
  reads_after_refresh (wk_state w') = reads_after_refresh (wk_state w) →
  pending_refreshes (wk_state w') = pending_refreshes (wk_state w) →
  active_refreshes (wk_state w') = active_refreshes (wk_state w) →
  wk_in_flight w' = wk_in_flight w → wk_issuing w' = wk_issuing w →
  ∀ out, Waits (h ++ out) w'.
Proof.
  intros [Hq Ha Hst] E1 E2 E3 E4 E5 E6 E7 out.
  split; [by rewrite E1|by rewrite E2|].
  apply (stage_move _ _ w); rewrite ?E3, ?E4, ?E5, ?E6; auto.
Qed.

Lemma no_reads_nil i : ORead i ∉ ([] : list Output).
Proof. apply not_elem_of_nil. Qed.
Lemma no_reads_finishes w l q x c b i : ORead i ∉ (finishes set_order w l q x c b).2.
Proof. intros H%list_elem_of_singleton. done. Qed.

Lemma next_drain h w :
  WorkerOk w → Waits h w → wk_phase w = Draining → Next h w ADrain.
Proof.
  intros Hw HW Hph. apply next_waits; simpl; unfold own_step; rewrite Hph;
    destruct (wk_in_flight w) as [|e l] eqn:El; simpl.
  - by apply (waits_same h w).
  - apply waits_finishes; try done.
    rewrite El. intros e' [->|?]%elem_of_cons ?; done.
  - intros i. apply no_reads_nil.
  - intros i Hi%list_elem_of_singleton. done.
Qed.

Lemma next_result n h w cur sid res :
  WorkerOk w → CallsOk n w → Waits h w → wk_phase w = Consuming →
  Next h w (AResult cur sid res).
Proof.
  intros Hw Hc HW Hph. unfold Next. simpl. unfold own_step. rewrite Hph.
  destruct (take_matching_api_call_result _ _) as [[e l]|] eqn:Et.
  2: { split; [right; by apply (waits_same h w)|]. intros i Hi. by destruct (no_reads_nil i). }
  apply take_matching_perm in Et as [Hp _]. set (b := refresh_succeeded _ _ _ _).
  split; [|intros i Hi; by destruct (no_reads_finishes w l (wk_issuing w) (if_app_id e)
             (Some (if_api_call e)) b i)].
  assert (Hother : (if_app_id e = a → b = true →
    reads_after_refresh (wk_state w) !! k = None ∨ is_Some (pending_refreshes (wk_state w) !! a)) →
    Mon (h ++ (finishes set_order w l (wk_issuing w) (if_app_id e) (Some (if_api_call e)) b).2)
      (finishes set_order w l (wk_issuing w) (if_app_id e) (Some (if_api_call e)) b).1).
  { intros Hb. right. apply waits_finishes; try done.
    intros e' He Hne. rewrite Hp in He. by apply elem_of_cons in He as [->|?]. }
  destruct (wa_stage _ _ HW) as [H|H1 H2|r H1 H2 H3 H7|f H1 H2 H3 H4 H5 H6].
  - apply Hother. by left.
  - apply Hother. by right.
  - rewrite (ca_issuing _ _ Hc) in H2; [done|by rewrite Hph].
  - destruct (decide (if_app_id e = a ∧ b = true)) as [[Hea Hb]|Hno].
    2: { apply Hother. intros ? ?. by destruct Hno. }
    left. assert (Hfresh : wk_epoch w = wk_session w).
    { destruct (decide (wk_epoch w = wk_session w)) as [|Hne]; [done|].
      rewrite (ca_stale _ _ Hc Hne) in H6 by by rewrite Hph. set_solver. }
    destruct (ca_fresh _ _ Hc Hfresh) as [Hd _]. unfold call_apps in Hd.
    apply NoDup_app in Hd as [Hd _]. rewrite Hp in Hd. csimpl in Hd. apply NoDup_cons in Hd as [Hn _].
    rewrite Hp in H3. apply elem_of_cons in H3 as [->|H3].
    + apply list_elem_of_split in H5 as (x & y & ->).
      exists x, (if_api_call e), y, []. simpl. rewrite Hea, Hb. by simplify_list_eq.
    + destruct Hn. rewrite Hea, <-H4. apply list_elem_of_fmap. by exists f.
Qed.

Lemma next_take_read h w :
  WorkerOk w → Waits h w → wk_phase w = Reading → Next h w ATakeRead.
Proof.
  intros Hw HW Hph. unfold Next. simpl. unfold own_step, take_read. rewrite Hph.
  assert (Hnil : ∀ w' : Worker, Waits (h ++ []) w' →
    Mon (h ++ []) w' ∧ ∀ i, ORead i ∈ ([] : list Output) → intent_key i ≠ k).
  { intros w' H. split; [by right|]. intros i Hi. by destruct (no_reads_nil i). }
  destruct (wk_reading w).
  { destruct (pending_reads (wk_state w)); apply Hnil; by apply (waits_same h w). }
  destruct (pending_reads (wk_state w)) as [|i rest] eqn:E;
    [apply Hnil; by apply (waits_same h w)|].
  assert (Hi : intent_key i ≠ k).
  { intros Hk. destruct (proj2 (ok_reads_set _ _ (wo_state _ Hw) k)) as [x Hx].
    - rewrite E. csimpl. rewrite Hk. by left.
    - by rewrite (wa_queued _ _ HW) in Hx. }
  split; [right|intros j Hj%list_elem_of_singleton; by injection Hj as ->].
  destruct HW as [Hq Ha Hst]. split; simpl.
  - unfold set_remove. by rewrite lookup_delete_ne.
  - by rewrite set_insert_other.
  - apply (stage_move _ _ w); auto.
Qed.

Lemma next_take_refresh h w :
  WorkerOk w → Waits h w → wk_phase w = Admitting → Next h w ATakeRefresh.
Proof.
  intros Hw HW Hph. apply next_waits; simpl; unfold own_step; rewrite Hph.
  2: { intros i. repeat case_match; simpl; apply no_reads_nil. }
  destruct (wk_issuing w) eqn:Ei; [by apply (waits_same h w)|].
  case_bool_decide; [by apply (waits_same h w)|].
  destruct (take_refresh (wk_state w)) as [o s'] eqn:Et.
  assert (Hkeep : active_reads s' = active_reads (wk_state w)).
  { clear -Et. unfold take_refresh in Et. revert Et. generalize (length (pending_refresh_order (wk_state w))).
    generalize (wk_state w). intros s count. revert s. induction count as [|count IH]; intros s H; simpl in H.
    - by injection H as <- <-.
    - repeat case_match; simplify_eq/=; try done; by apply IH in H. }
  destruct (take_refresh_loop_spec _ _ _ _ _ (wo_state _ Hw) Et) as (_ & _ & R1 & R2 & Ho).
  destruct o as [r|]; simpl.
  2: { destruct Ho as [O1 O2]. by apply (waits_same h w). }
  destruct Ho as (O1 & O2 & O3 & _). destruct HW as [Hq Ha Hst].
  split; simpl; [by rewrite R2|by rewrite Hkeep|].
  destruct (decide (rr_app_id r = a)) as [Hra|Hra].
  - destruct (reads_after_refresh s' !! k) eqn:E; [|by apply stage_gone].
    apply (stage_taken _ _ r); simpl; [rewrite E; by eexists|done|done|]. rewrite O1. set_solver.
  - destruct Hst as [H'|H1 H2|r' H1 H2 H3 H7|e H1 H2 H3 H4 H5 H6].
    + apply stage_gone. simpl. by rewrite R1.
    + apply stage_pending; simpl; [by rewrite R1|]. by rewrite O2, lookup_delete_ne.
    + congruence.
    + apply (stage_flying _ _ e); simpl; [by rewrite R1| |done|done| |rewrite O1; set_solver].
      * by rewrite O2, lookup_delete_ne.
      * apply elem_of_app. by left.
Qed.

Lemma next_issue h w cur ans :
  WorkerOk w → Waits h w → wk_phase w = Admitting → Next h w (AIssue cur ans).
Proof.
  intros Hw HW Hph. apply next_waits; simpl; unfold own_step; rewrite Hph;
    destruct (wk_issuing w) as [r|] eqn:Ei; simpl.
  2: by apply (waits_same h w).
  3: by intros i; apply no_reads_nil.
  - assert (Hf : Waits
      (h ++ (finishes set_order w (wk_in_flight w) None (rr_app_id r) None false).2)
      (finishes set_order w (wk_in_flight w) None (rr_app_id r) None false).1).
    { apply waits_finishes; try done. intros r'. rewrite Ei. intros [= <-] ?. done. }
    destruct (match rr_guard r with Some _ => _ | None => _ end); [exact Hf|].
    destruct ans as [call|]; [|exact Hf]. simpl. destruct HW as [Hq Ha Hst].
    split; [done..|]. destruct Hst as [H|H1 H2|r' H1 H2 H3 H7|e H1 H2 H3 H4 H5 H6].
    + by apply stage_gone.
    + by apply stage_pending.
    + assert (r' = r) as -> by congruence.
      destruct (pending_refreshes (wk_state w) !! a) eqn:Ep.
      { apply stage_pending; simpl; [done|]. rewrite Ep. by eexists. }
      eapply stage_flying; simpl; [done|done|apply elem_of_app; right; by left|done| |done].
      apply elem_of_app. right. rewrite <-H3. by left.
    + apply (stage_flying _ _ e); simpl; try done; apply elem_of_app; by left.
  - intros i. destruct (match rr_guard r with Some _ => _ | None => _ end);
      [apply no_reads_finishes|].
    destruct ans; [|apply no_reads_finishes]. simpl. by intros H%list_elem_of_singleton.
Qed.

(** The intent is asked for again only behind a refresh. *)
Definition allowed (x : Action) : Prop :=
  is_change x = false ∧ ∀ i, x = AQueueSnapshot i Read → intent_key i ≠ k.

Lemma next_own h w x n :
  WorkerOk w → CallsOk n w → Waits h w →
  act set_order map_order w x = own_step set_order map_order w x → Next h w x.
Proof.
  intros Hw Hc HW Hx.
  assert (Hidle : own_step set_order map_order w x = (w, []) → Next h w x).
  { intros E. apply next_waits; rewrite Hx, E; simpl; [by apply (waits_same h w)|].
    intros i. apply no_reads_nil. }
  destruct (wk_phase w) eqn:Hph, x; try (by apply Hidle; unfold own_step; rewrite Hph); clear Hidle.
  - by apply next_drain.
  - apply next_waits; rewrite Hx; unfold own_step; rewrite Hph; simpl; [by apply (waits_same h w)|].
    intros i. apply no_reads_nil.
  - by eapply next_result.
  - apply next_waits; rewrite Hx; unfold own_step; rewrite Hph.
    + destruct (wk_samples w); by apply (waits_same h w).
    + intros i. destruct (wk_samples w); apply no_reads_nil.
  - apply next_waits; rewrite Hx; unfold own_step, finish_pending_playtime; rewrite Hph.
    + repeat case_match; simpl; by apply (waits_same h w).
    + intros i. repeat case_match; simpl; try apply no_reads_nil;
        by intros ?%list_elem_of_singleton.
  - apply next_waits; rewrite Hx; unfold own_step, finish_pending_playtime; rewrite Hph.
    + repeat case_match; simpl; by apply (waits_same h w).
    + intros i. repeat case_match; simpl; try apply no_reads_nil;
        by intros ?%list_elem_of_singleton.
  - by apply next_take_read.
  - apply next_waits; rewrite Hx; unfold own_step; rewrite Hph;
      destruct (wk_reading w) as [j|]; simpl.
    + destruct HW as [Hq Ha Hst]. split; simpl; [done| |apply (stage_move _ _ w); auto].
      unfold set_remove. by apply lookup_delete_None; right.
    + by apply (waits_same h w).
    + intros i. apply no_reads_nil.
    + intros i. apply no_reads_nil.
  - by apply next_take_refresh.
  - by apply next_issue.
Qed.

Lemma next_act n h w x :
  WorkerOk w → CallsOk n w → Waits h w → allowed x → Next h w x.
Proof.
  intros Hw Hc HW [Hx1 Hx2].
  destruct x as [i r|b g|b g|c| | |con l|lost| | | | | | | | | |];
    try done; try (by eapply next_own).
  - apply next_waits; simpl; [|intros j; apply no_reads_nil]. apply waits_snapshot; [done|done|].
    intros ->. by apply Hx2.
  - apply next_waits; simpl; [|intros j; apply no_reads_nil]. unfold queue_refresh.
    case_match; simpl; [by apply (waits_same h w)|]. apply waits_refresh; auto.
  - apply next_waits; simpl; [by apply (waits_same h w)|intros j; apply no_reads_nil].
  - apply next_waits; simpl; [by apply (waits_same h w)|intros j; apply no_reads_nil].
  - apply next_waits; simpl; [by apply waits_recovery|intros j; apply no_reads_nil].
  - apply next_waits; simpl; [|intros j; apply no_reads_nil].
    apply (waits_same h w); try done; unfold advance; by repeat case_match.
Qed.

(** Along a run: the outputs before a read of the intent are [served]. *)
Lemma run_reads n h w actions :
  WorkerOk w → CallsOk n w → Mon h w → Forall allowed actions →
  ∀ o1 i o2, (run set_order map_order w actions).2 = o1 ++ ORead i :: o2 → intent_key i = k →
    served (h ++ o1).
Proof.
  intros Hw Hc HM Hall. revert h w Hw Hc HM.
  induction Hall as [|x actions Hx _ IH]; intros h w Hw Hc HM o1 i o2 Hout Hi; simpl in Hout.
  { by destruct o1. }
  pose proof (wo_act set_order map_order Hset w x Hw) as Hw1.
  pose proof (ca_act n w x Hw Hc (proj1 Hx)) as Hc1.
  destruct HM as [Hs|HW].
  { by apply served_app. }
  destruct (next_act n h w x Hw Hc HW Hx) as [HM1 Hr].
  destruct (act set_order map_order w x) as [w1 out] eqn:Ea. simpl in *.
  destruct (run set_order map_order w1 actions) as [w2 outs] eqn:Er. simpl in Hout.
  destruct (app_eq_inv _ _ _ _ Hout) as [(l & E1 & E2)|(l & E1 & E2)].
  - destruct l as [|y l].
    + rewrite app_nil_r in E1. subst out. simpl in E2.
      rewrite <-(app_nil_r (h ++ o1)). eapply (IH (h ++ o1) w1); [done..| |done].
      rewrite Er. simpl. by rewrite <-E2.
    + injection E2 as <- _. destruct (Hr i); [|done]. rewrite E1. apply elem_of_app. right. by left.
  - rewrite E1, app_assoc. eapply (IH (h ++ out) w1); [done..| |done]. rewrite Er. simpl. exact E2.
Qed.
End calls.

(** No step of another thread comes between the two halves of a change of context. *)
Fixpoint changes_whole (actions : list Action) : bool :=
  match actions with
  | [] => true
  | AEpochBumped :: rest =>
      match rest with AContextCleared :: rest => changes_whole rest | _ => false end
  | AContextCleared :: _ => false
  | _ :: rest => changes_whole rest
  end.

Section states.
Context (set_order : ReadSet → list StatsSnapshotIntent).
Context (map_order : gmap Z PendingPlaytime → list (Z * PendingPlaytime)).
Hypothesis Hset : ∀ s, set_order s ≡ₚ (map_to_list s).*2.

Lemma run_in_turn w l1 l2 :
  (run set_order map_order w (l1 ++ l2)).1 =
  (run set_order map_order (run set_order map_order w l1).1 l2).1.
Proof.
  revert w. induction l1 as [|x l1 IH]; intros w; simpl; [done|].
  destruct (act set_order map_order w x) as [w1 out]. specialize (IH w1).
  destruct (run set_order map_order w1 (l1 ++ l2)), (run set_order map_order w1 l1). exact IH.
Qed.

(** A list of whole changes is empty, or begins with a change or another action. *)
Lemma changes_whole_cases actions :
  changes_whole actions = true → actions = [] ∨
  ∃ first rest, actions = first ++ rest ∧ changes_whole rest = true ∧
    (first = [AEpochBumped; AContextCleared] ∨ ∃ x, first = [x] ∧ is_change x = false).
Proof.
  destruct actions as [|x rest]; [by left|]. intros H. right.
  destruct (is_change x) eqn:E.
  - destruct x; try done. destruct rest as [|[] rest]; try done.
    exists [AEpochBumped; AContextCleared], rest. auto.
  - exists [x], rest. split; [done|]. split; [by destruct x|]. right. by exists x.
Qed.

Lemma calls_run len : ∀ actions w m,
  (length actions ≤ len)%nat → changes_whole actions = true → WorkerOk w → CallsOk m w →
  Z.of_nat (m + len) < 2 ^ 64 →
  ∃ n, CallsOk n (run set_order map_order w actions).1.
Proof.
  induction len as [|len IH]; intros actions w m Hlen Hall Hw Hc Hlt.
  { destruct actions; [by exists m|simpl in Hlen; lia]. }
  destruct (changes_whole_cases actions Hall) as [->|(first & rest & -> & Hrest & Hfirst)];
    [by exists m|]. rewrite run_in_turn. rewrite length_app in Hlen.
  pose proof (wo_run set_order map_order Hset w first Hw) as Hw1.
  destruct Hfirst as [->|(x & -> & Hx)].
  - apply (IH _ _ (S m)); [simpl in Hlen; lia|done|done| |lia]. apply ca_change; [done|lia].
  - apply (IH _ _ m); [simpl in Hlen; lia|done|done| |lia].
    pose proof (ca_act set_order map_order Hset m w x Hw Hc Hx) as H. simpl.
    by destruct (act set_order map_order w x).
Qed.

Lemma worker_states actions :
  changes_whole actions = true → Z.of_nat (length actions) < 2 ^ 64 →
  WorkerOk (run set_order map_order worker_start actions).1 ∧
  ∃ n, CallsOk n (run set_order map_order worker_start actions).1.
Proof.
  intros Hall Hlen. split; [apply wo_run; [done|apply wo_start]|].
  apply (calls_run (length actions) _ _ 0%nat); [done|done|apply wo_start| |lia].
  split; simpl; try done; try lia. intros _. split; [constructor|].
  by intros x ?%not_elem_of_nil.
Qed.
End states.

(** C14 [read_follows_refresh]: a snapshot that is to be read after a refresh, and was not queued,
    waiting or being read when it was asked for, is read only once Steam has been asked to
    refresh its app after that moment and this very call has succeeded; in every interleaving
    in which the context stays and nobody asks for the same snapshot without a refresh, and in
    which no step came between the two halves of an earlier change of context. Refreshes
    already under way when it was asked for do not count. *)
Theorem read_follows_refresh set_order map_order before after target
    (w := (run set_order map_order worker_start before).1)
    (asked := act set_order map_order w (AQueueSnapshot target RefreshThenRead))
    (Hset : ∀ s, set_order s ≡ₚ (map_to_list s).*2)
    (Happ : intent_app_id target ≠ 0)
    (Hnew : set_has (queued_reads (wk_state w)) target = false ∧
            set_has (active_reads (wk_state w)) target = false ∧
            set_has (reads_after_refresh (wk_state w)) target = false)
    (Hafter : Forall (allowed target) after)
    (Hwhole : changes_whole before = true) (Hlen : Z.of_nat (length before) < 2 ^ 64) :
  ∀ o1 intent o2, (run set_order map_order asked.1 after).2 = o1 ++ ORead intent :: o2 →
    intent_key intent = intent_key target →
    ∃ x call y z, o1 = x ++ OIssued (intent_app_id target) call ::
                       y ++ OFinished (intent_app_id target) (Some call) true :: z.
Proof.
  destruct (worker_states set_order map_order Hset before Hwhole Hlen) as (Hw & n & Hc).
  fold w in Hw, Hc. destruct Hnew as (N1 & N2 & N3).
  assert (HW : Waits target [] w).
  { unfold set_has in *. rewrite !bool_decide_eq_false, <-!eq_None_not_Some in *.
    split; [done|done|by apply stage_gone]. }
  assert (Hreq : allowed target (AQueueSnapshot target RefreshThenRead)) by by split.
  destruct (next_act set_order map_order Hset target n [] w _ Hw Hc HW Hreq) as [HM _].
  pose proof (wo_act set_order map_order Hset w (AQueueSnapshot target RefreshThenRead) Hw) as Hw1.
  pose proof (ca_act set_order map_order Hset n w (AQueueSnapshot target RefreshThenRead) Hw Hc
                eq_refl) as Hc1.
  intros o1 intent o2 Hout Hk.
  eapply (run_reads set_order map_order Hset target n [] asked.1 after); [done|done|exact HM|done..].
Qed.
