(* ===== verification/UserStatsPlaytime.v ===== *)
(** * UserStatsPlaytime: playtime signals of the user-stats worker

    A signal is answered by a reading of the native value taken after it, and a registered
    schema gives every key once. *)

From Stdlib Require Import ZArith Lia.
From S2P Require Import Prelude RustStd CloudCore SteamProtocol Apps UserStats UserStatsProofs.

Local Open Scope Z_scope.

Section signals.
Context (set_order : ReadSet → list StatsSnapshotIntent).
Context (map_order : gmap Z PendingPlaytime → list (Z * PendingPlaytime)).
Hypothesis Hmap : ∀ m, map_order m ≡ₚ map_to_list m.
Implicit Types (s : WorkerState) (w : Worker).

(** The steps that do not touch the signals. *)
Definition same_signals s s' : Prop :=
  pending_playtime s' = pending_playtime s ∧ next_playtime_revision s' = next_playtime_revision s.
Lemma same_signals_trans s1 s2 s3 : same_signals s1 s2 → same_signals s2 s3 → same_signals s1 s3.
Proof. intros [] []. split; congruence. Qed.

Lemma queue_read_signals s i : same_signals s (queue_read_locked s i).
Proof. unfold queue_read_locked. by repeat case_match. Qed.
Lemma queue_reads_signals l s : same_signals s (foldl queue_read_locked s l).
Proof.
  revert s. induction l as [|i l IH]; intros s; simpl; [done|].
  eapply same_signals_trans; [apply queue_read_signals|apply IH].
Qed.
Lemma queue_refresh_signals s a g : same_signals s (queue_refresh_locked set_order s a g).
Proof. unfold queue_refresh_locked. by repeat case_match. Qed.
Lemma queue_locked_signals s i r : same_signals s (queue_snapshot_locked set_order s i r).
Proof.
  unfold queue_snapshot_locked. repeat case_match; try done.
  - apply queue_read_signals.
  - by eapply same_signals_trans; [|apply queue_refresh_signals].
Qed.
Lemma queue_snapshot_signals s i r : same_signals s (queue_snapshot set_order s i r).2.
Proof. unfold queue_snapshot. case_match; [done|apply queue_locked_signals]. Qed.
Lemma recovery_signals s con l : same_signals s (queue_durable_stats_recovery set_order s con l).
Proof.
  apply (recovery_ind set_order (same_signals s)); [|done].
  intros s' i Hs. eapply same_signals_trans; [exact Hs|apply queue_locked_signals].
Qed.
Lemma finish_refresh_signals s a b : same_signals s (finish_refresh set_order s a b).
Proof.
  unfold finish_refresh. repeat case_match; try done. 
  by eapply same_signals_trans; [|apply queue_reads_signals].
Qed.
Lemma take_refresh_signals s : same_signals s (take_refresh s).2.
Proof.
  unfold take_refresh. generalize (length (pending_refresh_order s)). intros n. revert s.
  induction n as [|n IH]; intros s; simpl; [done|].
  destruct (pending_refresh_order s); [done|]. case_bool_decide.
  - by eapply same_signals_trans; [|apply IH].
  - destruct (pending_refreshes s !! _); [done|]. by eapply same_signals_trans; [|apply IH].
Qed.

(** ** Revisions *)

(** Every revision given out is at most the counter. *)
Record Revisions w : Prop := {
  rev_counter : 0 ≤ next_playtime_revision (wk_state w);
  rev_pending x p : pending_playtime (wk_state w) !! x = Some p →
    pp_revision p ≤ next_playtime_revision (wk_state w);
  rev_samples x p : (x, p) ∈ wk_samples w → pp_revision p ≤ next_playtime_revision (wk_state w);
}.

(** What one action does to the signals and the batch. *)
Inductive signal_step w : Action → Worker → list Output → Prop :=
| ss_same x w' out :
    same_signals (wk_state w) (wk_state w') → wk_samples w' = wk_samples w →
    wk_sampled w' = wk_sampled w → (∀ app, OSampled app ∉ out) → signal_step w x w' out
| ss_signal app g w' :
    w' = with_state w (signal_pending_playtime (wk_state w) app g).2 →
    signal_step w (ASignalPlaytime app g) w' []
| ss_change w' :
    pending_playtime (wk_state w') = ∅ → wk_samples w' = wk_samples w →
    next_playtime_revision (wk_state w') = next_playtime_revision (wk_state w) →
    signal_step w AContextCleared w' []
| ss_take g ready s :
    take_ready_playtime map_order (wk_state w) g MAX_PLAYTIME_PER_PASS = (ready, s) →
    signal_step w (ATakePlaytime g) (with_samples w s ready false) []
| ss_read app e rest :
    wk_samples w = (app, e) :: rest → wk_sampled w = false →
    signal_step w (AReadPlaytime true) (with_samples w (wk_state w) (wk_samples w) true)
      [OSampled app]
| ss_abandon app e rest :
    wk_samples w = (app, e) :: rest →
    signal_step w (AReadPlaytime false)
      (with_samples w (finish_pending_playtime (wk_state w) app e).2 [] false) []
| ss_finish app e rest :
    wk_samples w = (app, e) :: rest → wk_sampled w = true →
    signal_step w AFinishPlaytime
      (with_samples w (finish_pending_playtime (wk_state w) app e).2 rest false) [].

Lemma not_sampled_nil app : OSampled app ∉ ([] : list Output).
Proof. apply not_elem_of_nil. Qed.

Lemma finishes_step w x l q a c b :
  signal_step w x (finishes set_order w l q a c b).1 (finishes set_order w l q a c b).2.
Proof.
  apply ss_same; try done; [apply finish_refresh_signals|].
  intros app H%list_elem_of_singleton. done.
Qed.

Lemma idle_step w x : signal_step w x w [].
Proof. apply ss_same; try done. apply not_sampled_nil. Qed.

Lemma own_signal_step w x :
  let r := own_step set_order map_order w x in signal_step w x r.1 r.2.
Proof.
  cbn zeta. unfold own_step. destruct (wk_phase w), x as [| | | | | | | | | | |g|same| | | | |cur ans];
    try apply idle_step.
  - destruct (wk_in_flight w); [apply idle_step|apply finishes_step].
  - by apply ss_same; [..|apply not_sampled_nil].
  - destruct (take_matching_api_call_result _ _) as [[e l]|]; [apply finishes_step|apply idle_step].
  - destruct (wk_samples w) eqn:E; [|apply idle_step].
    destruct (take_ready_playtime _ _ _ _) as [ready s] eqn:Et. by apply ss_take.
  - destruct (wk_samples w) as [|[app e] rest] eqn:E; [apply idle_step|].
    destruct (wk_sampled w) eqn:Es; [apply idle_step|]. rewrite <-E. destruct same.
    + by eapply ss_read.
    + by eapply ss_abandon.
  - destruct (wk_samples w) as [|[app e] rest] eqn:E; [apply idle_step|].
    destruct (wk_sampled w) eqn:Es; [|apply idle_step]. by apply ss_finish.
  - unfold take_read. destruct (wk_reading w), (pending_reads (wk_state w)); try apply idle_step.
    + by apply ss_same; [..|apply not_sampled_nil].
    + apply ss_same; try done. by intros app ?%list_elem_of_singleton.
  - destruct (wk_reading w); [|apply idle_step]. by apply ss_same; [..|apply not_sampled_nil].
  - destruct (wk_issuing w); [apply idle_step|].
    case_bool_decide; [by apply ss_same; [..|apply not_sampled_nil]|].
    pose proof (take_refresh_signals (wk_state w)) as Hs.
    destruct (take_refresh (wk_state w)) as [[r|] s];
      by apply ss_same; [..|apply not_sampled_nil].
  - destruct (wk_issuing w) as [r|]; [|apply idle_step].
    destruct (match rr_guard r with Some _ => _ | None => _ end); [apply finishes_step|].
    destruct ans; [|apply finishes_step].
    apply ss_same; try done. by intros app ?%list_elem_of_singleton.
Qed.

Lemma act_signal_step w x :
  let r := act set_order map_order w x in signal_step w x r.1 r.2.
Proof.
  cbn zeta. destruct x as [i r|b g|b g|c| | |con l|lost| | | | | | | | | |]; try apply (own_signal_step w);
    simpl.
  - apply ss_same; try done; [apply queue_snapshot_signals|apply not_sampled_nil].
  - apply ss_same; try done; [|apply not_sampled_nil]. unfold queue_refresh.
    case_match; [done|]. apply queue_refresh_signals.
  - by apply ss_signal.
  - by apply ss_same; [..|apply not_sampled_nil].
  - by apply ss_same; [..|apply not_sampled_nil].
  - by apply ss_change.
  - apply ss_same; try done; [apply recovery_signals|apply not_sampled_nil].
  - apply ss_same; try apply not_sampled_nil; unfold advance; by repeat case_match.
Qed.

(** What [finish_pending_playtime] leaves. *)
Lemma finish_pending s app e :
  next_playtime_revision (finish_pending_playtime s app e).2 = next_playtime_revision s ∧
  ∀ x p, pending_playtime s !! x = Some p → x ≠ app ∨ p ≠ e →
    pending_playtime (finish_pending_playtime s app e).2 !! x = Some p.
Proof.
  unfold finish_pending_playtime. destruct (pending_playtime s !! app) as [cur|] eqn:E; [|done].
  case_bool_decide as Hc; [|done]. split; [done|]. intros x p Hp Hne. simpl.
  destruct (decide (x = app)) as [->|Hx]; [|by rewrite lookup_delete_ne].
  destruct Hne; [done|congruence].
Qed.
Lemma finish_pending_sub s app e x p :
  pending_playtime (finish_pending_playtime s app e).2 !! x = Some p →
  pending_playtime s !! x = Some p.
Proof.
  unfold finish_pending_playtime. repeat case_match; try done. simpl.
  by intros [_ ?]%lookup_delete_Some.
Qed.

Lemma take_ready_spec s g limit ready s' :
  take_ready_playtime map_order s g limit = (ready, s') →
  next_playtime_revision s' = next_playtime_revision s ∧
  (∀ x p, pending_playtime s' !! x = Some p ↔
     pending_playtime s !! x = Some p ∧ pp_identity_generation p = g) ∧
  ∀ x p, (x, p) ∈ ready → pending_playtime s' !! x = Some p.
Proof.
  intros [= <- <-]. simpl. split; [done|]. split.
  - intros x p. by rewrite map_lookup_filter_Some.
  - intros x p Hin.
    assert (Hin' : (x, p) ∈ sort_by_key ready_key (filter (λ p, pp_ready p.2 = true)
      (map_order (filter (λ p, pp_identity_generation p.2 = g) (pending_playtime s))))).
    { rewrite <-(take_drop limit). apply elem_of_app. by left. }
    rewrite elem_of_sort_by_key in Hin'. apply list_elem_of_filter in Hin' as [_ Hin'].
    by rewrite Hmap, elem_of_map_to_list in Hin'.
Qed.

Lemma revisions_step w x w' out :
  signal_step w x w' out → next_playtime_revision (wk_state w) + 1 < 2 ^ 64 → Revisions w →
  Revisions w' ∧ next_playtime_revision (wk_state w) ≤ next_playtime_revision (wk_state w')
    ≤ next_playtime_revision (wk_state w) + 1.
Proof.
  intros Hstep Hlt [H0 H1 H2]. destruct Hstep as [x w' out [S1 S2] S3 _ _|app g w' ->|w' C1 C2 C3
    |g ready s Ht|app e rest Hs _|app e rest Hs|app e rest Hs _].
  - rewrite S2. split; [|lia]. split; rewrite ?S2, ?S1, ?S3; auto.
  - assert (Hr : u64_wrapping_add (next_playtime_revision (wk_state w)) 1 =
      next_playtime_revision (wk_state w) + 1) by (unfold u64_wrapping_add; rewrite Z.mod_small; lia).
    simpl. rewrite Hr. split; [|lia]. split; simpl; rewrite ?Hr; [lia| |].
    + intros x p. rewrite lookup_insert. case_decide; [intros [= <-]; simpl; lia|].
      intros Hp. specialize (H1 _ _ Hp). lia.
    + intros x p Hp. specialize (H2 _ _ Hp). lia.
  - rewrite C3. split; [|lia]. split; rewrite ?C3, ?C1, ?C2; auto. intros x p. by rewrite lookup_empty.
  - apply take_ready_spec in Ht as (T1 & T2 & T3). simpl. rewrite T1. split; [|lia].
    split; simpl; rewrite ?T1; [done| |].
    + intros x p [Hp _]%T2. eauto.
    + intros x p Hp. apply T3 in Hp as [Hp _]%T2. eauto.
  - split; [|simpl; lia]. by split.
  - simpl. destruct (finish_pending (wk_state w) app e) as [-> _]. split; [|lia].
    split; simpl; rewrite ?(proj1 (finish_pending (wk_state w) app e)); [done| |].
    + intros x p Hp%finish_pending_sub. eauto.
    + intros x p Hp%not_elem_of_nil. done.
  - simpl. destruct (finish_pending (wk_state w) app e) as [-> _]. split; [|lia].
    split; simpl; rewrite ?(proj1 (finish_pending (wk_state w) app e)); [done| |].
    + intros x p Hp%finish_pending_sub. eauto.
    + intros x p Hp. apply (H2 x p). rewrite Hs. by right.
Qed.

(** ** A signal and what follows it *)

Context (app generation : Z).

(** The account stays: no change of context, samples for this generation only. *)
Definition same_account (x : Action) : Prop :=
  match x with
  | AContextCleared => False
  | ASignalPlaytime b g => b = app → g = generation
  | ATakePlaytime g => g = generation
  | AReadPlaytime same => same = true
  | _ => True
  end.

(** The signal of revision [r], or a later one, still waits, and what is being finished was
    read before it. *)
Record Signalled (r : Z) w : Prop := {
  sig_counter : r ≤ next_playtime_revision (wk_state w);
  sig_waits : ∃ p, pending_playtime (wk_state w) !! app = Some p ∧
    pp_identity_generation p = generation ∧ pp_ready p = true ∧ r ≤ pp_revision p;
  sig_read b e rest : wk_samples w = (b, e) :: rest → wk_sampled w = true →
    b ≠ app ∨ pp_revision e < r;
}.

Lemma signalled_step r w x w' out :
  signal_step w x w' out → same_account x → Signalled r w →
  next_playtime_revision (wk_state w) + 1 < 2 ^ 64 → 0 ≤ r →
  Signalled r w' ∨ OSampled app ∈ out.
Proof.
  intros Hstep Hx [H0 (p & Hp & Hg & Hready & Hr) H2] Hlt H0r.
  destruct Hstep as [x w' out [S1 S2] S3 S4 _|b g w' ->|w' C1 C2 C3
    |g ready s Ht|b e rest Hs Hf|b e rest Hs|b e rest Hs Hf].
  - left. split; rewrite ?S1, ?S2, ?S3, ?S4; eauto.
  - left. assert (Hv : u64_wrapping_add (next_playtime_revision (wk_state w)) 1 =
      next_playtime_revision (wk_state w) + 1) by (unfold u64_wrapping_add; rewrite Z.mod_small; lia).
    split; simpl; rewrite ?Hv; [lia| |done]. destruct (decide (b = app)) as [->|Hne].
    + rewrite lookup_insert_eq. eexists. split; [done|]. simpl. repeat split; [by apply Hx|lia].
    + rewrite lookup_insert_ne by done. by exists p.
  - done.
  - left. simpl in Hx. subst g. apply take_ready_spec in Ht as (T1 & T2 & _).
    split; simpl; [by rewrite T1| |done]. exists p. by rewrite T2.
  - destruct (decide (b = app)) as [->|Hne]; [right; by left|]. left. split; simpl; [done|eauto|].
    intros b' e' rest' Hs' _. rewrite Hs in Hs'. injection Hs' as <- <- <-. by left.
  - done.
  - left. destruct (finish_pending (wk_state w) b e) as [F1 F2].
    split; simpl; rewrite ?F1; [done| |done]. exists p. split; [|done]. apply F2; [done|].
    destruct (H2 _ _ _ Hs Hf) as [?|?]; [left; congruence|right]. intros ->. lia.
Qed.

Lemma signalled_run r w actions :
  Forall same_account actions → Signalled r w → 0 ≤ r → Revisions w →
  next_playtime_revision (wk_state w) + Z.of_nat (length actions) < 2 ^ 64 →
  let res := run set_order map_order w actions in
  Signalled r res.1 ∨ OSampled app ∈ res.2.
Proof.
  intros Hall HS Hr. revert w HS. induction Hall as [|x actions Hx _ IH]; intros w HS HR Hlt; simpl in *.
  { by left. }
  pose proof (act_signal_step w x) as Hstep. cbn zeta in Hstep.
  destruct (act set_order map_order w x) as [w1 out]. simpl in Hstep.
  destruct (revisions_step _ _ _ _ Hstep) as [HR1 Hn]; [lia|done|].
  destruct (signalled_step r _ _ _ _ Hstep Hx HS) as [HS1|Hout]; [lia|done| |].
  - destruct (IH w1 HS1 HR1) as [H|H]; [lia|..];
      destruct (run set_order map_order w1 actions) as [w2 outs]; simpl in *; [by left|right].
    apply elem_of_app. by right.
  - right. destruct (run set_order map_order w1 actions) as [w2 outs]. simpl. apply elem_of_app. by left.
Qed.

Lemma revisions_run w actions :
  Revisions w → next_playtime_revision (wk_state w) + Z.of_nat (length actions) < 2 ^ 64 →
  let w' := (run set_order map_order w actions).1 in
  Revisions w' ∧ next_playtime_revision (wk_state w') ≤
    next_playtime_revision (wk_state w) + Z.of_nat (length actions).
Proof.
  revert w. induction actions as [|x actions IH]; intros w HR Hlt; simpl in *; [split; [done|lia]|].
  pose proof (act_signal_step w x) as Hstep. cbn zeta in Hstep.
  destruct (act set_order map_order w x) as [w1 out]. simpl in Hstep.
  destruct (revisions_step _ _ _ _ Hstep) as [HR1 Hn]; [lia|done|].
  destruct (IH w1 HR1) as [HR2 Hn2]; [lia|].
  destruct (run set_order map_order w1 actions) as [w2 outs]. simpl in *. split; [done|lia].
Qed.
End signals.

(** [playtime_signal_answered]: after a playtime signal for an app, whatever the other threads
    and the worker do while the account stays, the signal is still waiting and ready, or the
    app's native value has been read since. In particular the end of a reading that was under
    way when the signal came does not take it away. *)
Theorem playtime_signal_answered set_order map_order before after app generation
    (w := (run set_order map_order worker_start before).1)
    (Hmap : ∀ m, map_order m ≡ₚ map_to_list m)
    (Hafter : Forall (same_account app generation) after)
    (Hlen : Z.of_nat (length before + length after) + 1 < 2 ^ 64) :
  let signalled := act set_order map_order w (ASignalPlaytime app generation) in
  let res := run set_order map_order signalled.1 after in
  OSampled app ∈ res.2 ∨
  ∃ p, pending_playtime (wk_state res.1) !! app = Some p ∧
       pp_identity_generation p = generation ∧ pp_ready p = true.
Proof.
  intros signalled res.
  destruct (revisions_run set_order map_order Hmap worker_start before) as [HR Hn];
    [by split; [..|intros ?? ?%not_elem_of_nil]|simpl; lia|]. fold w in HR, Hn. simpl in Hn.
  pose proof (act_signal_step set_order map_order w (ASignalPlaytime app generation)) as Hstep.
  fold signalled in Hstep. cbn zeta in Hstep.
  destruct (revisions_step map_order Hmap _ _ _ _ Hstep) as [HR1 Hn1]; [lia|done|].
  assert (Hv : u64_wrapping_add (next_playtime_revision (wk_state w)) 1 =
    next_playtime_revision (wk_state w) + 1).
  { unfold u64_wrapping_add. destruct HR. rewrite Z.mod_small; lia. }
  assert (HS : Signalled app generation (next_playtime_revision (wk_state w) + 1) signalled.1).
  { split; simpl.
    - by rewrite Hv.
    - rewrite lookup_insert_eq. eexists. split; [done|]. simpl. rewrite Hv. repeat split. lia.
    - intros b e rest Hs _. right. pose proof (rev_samples _ HR b e) as Hb.
      specialize (Hb ltac:(rewrite Hs; by left)). lia. }
  destruct (signalled_run set_order map_order Hmap app generation
    (next_playtime_revision (wk_state w) + 1) signalled.1 after Hafter HS) as [[_ (p & ? & ? & ? & _) _]|H];
    [destruct HR; lia|done|lia|right; by exists p|by left].
Qed.

(** ** Layouts *)

Lemma first_mappings_fresh {A} (key : A → string) {B} (f : A → string → B) (name : B → string)
    (Hname : ∀ m k, name (f m k) = k) seen mappings x :
  x ∈ first_mappings key f seen mappings → name x ∉ seen ∧ 0 ∉ str_bytes (name x).
Proof.
  revert seen. induction mappings as [|m rest IH]; intros seen; simpl;
    [by intros ?%not_elem_of_nil|].
  case_bool_decide as Hs; [apply IH|].
  assert (Hrest : x ∈ first_mappings key f ({[key m]} ∪ seen) rest →
    name x ∉ seen ∧ 0 ∉ str_bytes (name x)) by (intros [? ?]%IH; set_solver).
  unfold snapshot_key. case_bool_decide as Hz; [done|].
  intros [->|?]%elem_of_cons; [by rewrite Hname|by apply Hrest].
Qed.

Lemma first_mappings_NoDup {A} (key : A → string) {B} (f : A → string → B) (name : B → string)
    (Hname : ∀ m k, name (f m k) = k) seen mappings :
  NoDup (name <$> first_mappings key f seen mappings).
Proof.
  revert seen. induction mappings as [|m rest IH]; intros seen; simpl; [constructor|].
  case_bool_decide; [apply IH|]. unfold snapshot_key. case_bool_decide; [apply IH|]. csimpl.
  constructor; [|apply IH]. rewrite Hname. intros (x & Hx & Hin)%list_elem_of_fmap.
  apply (first_mappings_fresh key f name Hname) in Hin as [Hn _]. rewrite <-Hx in Hn. set_solver.
Qed.

(** A registered schema lists every achievement and every stat once, and only under names
    Steam's C interface can take. *)
Lemma registered_layout_keys_once iter layouts app content layouts' :
  register_snapshot_schema iter layouts app content = (true, layouts') →
  ∃ l, layouts' !! app = Some l ∧ NoDup (sl_achievements l) ∧ NoDup (sl_stats l).*1 ∧
    Forall (λ k, 0 ∉ str_bytes k) (sl_achievements l ++ (sl_stats l).*1).
Proof.
  unfold register_snapshot_schema. case_match; [done|].
  destruct (parse_achievement_bit_mappings iter content) as [ach|]; [|done].
  destruct (parse_stat_mappings iter content) as [stats|]; [|done]. intros [= <-].
  eexists. rewrite lookup_insert_eq. split; [done|]. simpl. repeat split.
  - rewrite <-(list_fmap_id (first_mappings _ _ _ _)). by apply first_mappings_NoDup.
  - by apply first_mappings_NoDup.
  - apply Forall_app. split; apply Forall_forall.
    + intros k Hk. by apply (first_mappings_fresh bm_key (λ _ k, k) id) in Hk as [_ ?].
    + intros k (x & -> & Hx)%list_elem_of_fmap.
      by apply (first_mappings_fresh sm_key _ fst) in Hx as [_ ?].
Qed.
