(* ===== verification/AchievementWorker.v ===== *)
(** * AchievementWorker: stats commits, snapshots and schemas on their way to the backend

    [hooks/src/achievement_worker.rs]: the entry points other threads call when Steam stores
    stats or a schema arrives, and the thread that uploads what the journal holds. The guards
    of [hooks/src/client/user_stats.rs] say whether an owner is still the current one.

    As in [PlaytimeWorker], a program runs in a [World] with a script: before every access to
    something shared, the next batch of the other threads' [Event]s happens. How a wait ends
    is given by [aw_waits]; the worker stops when nothing is left there. A guard reads the
    values it compares at one moment. *)

From Stdlib Require Import ZArith Lia.
From S2P Require Import Prelude RustStd CloudCore Apps PlaytimeDownlink Storage JournalRecord SyncJournal.
From S2P Require Import SteamProtocol WorkerContext UserStats.
From S2P Require CumulusClient PlaytimeWorker FolderStore.
Import CumulusClient(BackendSchemaOutcome).
Import PlaytimeWorker(DeviceBindingGate, gate_default, allows, record_failure, record_success,
  deadline, steam_text, READY_RETRY_DELAY, min_delay).

Local Open Scope Z_scope.

(** ** Data *)

Record AchievementState := { st_key : string; st_unlocked : bool; st_unlock_time : Z }.
Record StatState := { tt_key : string; tt_value_type : string; tt_value : string }.
Record AchievementSnapshot := {
  an_app_id : Z; an_achievements : list AchievementState; an_stats : list StatState;
}.

Record StoreUserStatsEntry := { se_stat_id : option Z; se_stat_value : option Z }.
Record ClientStoreUserStats2Request := {
  cs_game_id : option Z; cs_settor_steam_id : option Z; cs_settee_steam_id : option Z;
  cs_crc_stats : option Z; cs_explicit_reset : option bool;
  cs_stats : list StoreUserStatsEntry;
}.
Definition EMSG_STORE_USERSTATS2 : Z := 5466.

Inductive StoreCommitPersistence :=
| Persisted (intent : StatsSnapshotIntent) | Stale | InvalidRequest | Failed.

(** [Vec::dedup] *)
Fixpoint dedup_ids (l : list Z) : list Z :=
  match l with
  | x :: (y :: _) as rest => if x =? y then dedup_ids rest else x :: dedup_ids rest
  | _ => l
  end.

(** The authoritative unlock time of an achievement. *)
Definition unlocked_at (unlocked : bool) (unlock_time : Z) : option Z :=
  if negb unlocked || (unlock_time =? 0) || (unlock_time =? ACHIEVEMENT_UNLOCK_TIME_UNKNOWN)
  then None else Some unlock_time.

Definition refuses (app : AppStatsUploadResult) (app_id : Z) : bool :=
  (au_app_id app =? app_id) &&
  match au_status app with StatsOutOfDate => true | _ => false end.
Definition refused_app_result (snapshot : SteamAppSnapshot) (result : SteamStateUploadResult)
    : option AppStatsUploadResult :=
  head (filter (λ app, refuses app (ss_app_id snapshot) = true) (stats_apps result)).

(** The snapshot that completes a commit. *)
Definition official_snapshot (commit : StatsCommit) (snapshot : AchievementSnapshot) (now : Z)
    : SteamAppSnapshot := {|
  ss_owner_scope := sc_owner_scope commit; ss_owner_steam_id64 := sc_owner_steam_id64 commit;
  ss_commit_id := sc_commit_id commit; ss_app_id := an_app_id snapshot;
  ss_base_crc_stats := sc_base_crc_stats commit; ss_dirty_stat_ids := sc_dirty_stat_ids commit;
  ss_achievements :=
    (λ a, {| oa_key := st_key a; oa_unlocked := st_unlocked a;
             oa_unlocked_at := unlocked_at (st_unlocked a) (st_unlock_time a) |})
      <$> an_achievements snapshot;
  ss_stats :=
    (λ s, {| os_key := tt_key s; os_value_type := tt_value_type s; os_value := tt_value s |})
      <$> an_stats snapshot;
  ss_observed_at := now |}.

Section worker.
Context {St : Structsy} {Srv : Type} (sha256 : list Z → list Z).
Context (decode_request : list Z → option ClientStoreUserStats2Request).

Notation Ctx := (Context Srv).

Definition decode_store_commit (emsg : Z) (request : list Z) (owner_steam_id64 : Z)
    : option (option Z * list Z) :=
  if negb (emsg =? EMSG_STORE_USERSTATS2) then Some (None, [])
  else
    request ← decode_request request;
    if match cs_settee_steam_id request with
       | Some steam_id => negb (steam_id =? owner_steam_id64)
       | None => false
       end
    then None
    else Some (cs_crc_stats request, omap se_stat_id (cs_stats request)).

(** ** Guards ([user_stats.rs]) *)

Definition stats_refresh_guard_is_current (c : Ctx) (guard : StatsRefreshGuard) : bool :=
  (cx_steam_id c =? rg_steam_id64 guard) &&
  (cx_identity_generation c =? rg_identity_generation guard) &&
  match cx_descriptor c with
  | Some descriptor => dd_client_id descriptor =? rg_client_id guard
  | None => false
  end &&
  (cx_runtime_generation c =? rg_runtime_generation guard) &&
  match backend_context sha256 c with
  | Some backend =>
      bool_decide (cb_credential_fingerprint backend = rg_credential_fingerprint guard)
  | None => false
  end.

Definition stats_snapshot_owner_is_current (c : Ctx) (owner : StatsSnapshotOwner) : bool :=
  stats_refresh_guard_is_current c (so_guard owner) &&
  bool_decide (cached_principal_for_credential c (rg_credential_fingerprint (so_guard owner))
               = Some (so_principal_scope owner)).

Definition capture_stats_snapshot_owner_for (c : Ctx)
    (runtime_generation steam_id64 identity_generation : Z) : option StatsSnapshotOwner :=
  backend ← backend_context sha256 c;
  let credential_fingerprint := cb_credential_fingerprint backend in
  principal_scope ← cached_principal_for_credential c credential_fingerprint;
  if steam_id64 =? 0 then None
  else
    descriptor ← cx_descriptor c;
    let owner := {|
      so_guard := {| rg_credential_fingerprint := credential_fingerprint;
                     rg_steam_id64 := steam_id64;
                     rg_identity_generation := identity_generation;
                     rg_client_id := dd_client_id descriptor;
                     rg_runtime_generation := runtime_generation |};
      so_principal_scope := principal_scope |} in
    if stats_snapshot_owner_is_current c owner then Some owner else None.

Definition capture_stats_snapshot_owner (c : Ctx) (runtime_generation : Z)
    : option StatsSnapshotOwner :=
  capture_stats_snapshot_owner_for c runtime_generation (cx_steam_id c) (cx_identity_generation c).

Definition upload_identity (c : Ctx) : option UploadIdentity :=
  if cx_steam_id c =? 0 then None
  else
    descriptor ← cx_descriptor c;
    Some {| ui_client_id := dd_client_id descriptor;
            ui_machine_name := dd_machine_name descriptor;
            ui_os_type := dd_os_type descriptor; ui_device_type := dd_device_type descriptor;
            ui_steam_id64 := steam_text (cx_steam_id c); ui_persona_name := None |}.

(** ** The world *)

Inductive Observed :=
| Committed (commit : StatsCommit)
| Bound (descriptor : DeviceDescriptor) (answer : result BackendError unit)
| SchemaSent (schema : AchievementSchema) (answer : result BackendError BackendSchemaOutcome)
| SnapshotSent (snapshot : SteamAppSnapshot)
    (answer : result BackendError SteamStateUploadResult)
| RefreshAsked (intent : StatsSnapshotIntent).

(** What other threads do: change the context, journal a commit, complete one with a
    snapshot, write the journal's other tables, raise the generation, act on the backend. *)
Inductive Event :=
| EContext (c : Ctx)
| ECommit (commit : StatsCommit)
| EComplete (snapshot : SteamAppSnapshot)
| EJournal (j : Database)
| EGeneration
| EServer (act : Srv → Srv).

(** How a wait ends. *)
Inductive Waited := Woken | TimedOut | Hung.

Record World := {
  aw_context : Ctx;
  aw_journal : Database;
  aw_server : Srv;
  aw_generation : Z;
  aw_trace : list Observed;
  aw_waits : list Waited;
  aw_script : list (list Event);
}.

Definition upd (w : World) context journal server generation trace : World :=
  {| aw_context := context; aw_journal := journal; aw_server := server;
     aw_generation := generation; aw_trace := trace; aw_waits := aw_waits w;
     aw_script := aw_script w |}.
Definition set_context (w : World) c :=
  upd w c (aw_journal w) (aw_server w) (aw_generation w) (aw_trace w).
Definition set_journal (w : World) j :=
  upd w (aw_context w) j (aw_server w) (aw_generation w) (aw_trace w).
Definition set_server (w : World) s :=
  upd w (aw_context w) (aw_journal w) s (aw_generation w) (aw_trace w).
Definition set_generation (w : World) g :=
  upd w (aw_context w) (aw_journal w) (aw_server w) g (aw_trace w).
Definition observe (w : World) (o : list Observed) :=
  upd w (aw_context w) (aw_journal w) (aw_server w) (aw_generation w) (aw_trace w ++ o).
Definition set_script (w : World) s : World :=
  {| aw_context := aw_context w; aw_journal := aw_journal w; aw_server := aw_server w;
     aw_generation := aw_generation w; aw_trace := aw_trace w; aw_waits := aw_waits w;
     aw_script := s |}.
Definition set_waits (w : World) l : World :=
  {| aw_context := aw_context w; aw_journal := aw_journal w; aw_server := aw_server w;
     aw_generation := aw_generation w; aw_trace := aw_trace w; aw_waits := l;
     aw_script := aw_script w |}.

(** [journal.enqueue_stats_commit] and [journal.complete_stats_snapshot] *)
Definition commit_journal (commit : StatsCommit) (w : World) : JR unit * World :=
  let '(answer, j) := enqueue_stats_commit commit (aw_journal w) in
  (answer, observe (set_journal w j)
             (match answer with Ok _ => [Committed commit] | Err _ => [] end)).
Definition complete_journal (snapshot : SteamAppSnapshot) (w : World) : JR bool * World :=
  let '(answer, j) := complete_stats_snapshot snapshot (aw_journal w) in
  (answer, set_journal w j).

Definition apply_event (w : World) (e : Event) : World :=
  match e with
  | EContext c => set_context w c
  | ECommit commit => (commit_journal commit w).2
  | EComplete snapshot => (complete_journal snapshot w).2
  | EJournal j => set_journal w (set_stats j (db_stats (aw_journal w)))
  | EGeneration => set_generation w (u64_wrapping_add (aw_generation w) 1)
  | EServer act => set_server w (act (aw_server w))
  end.

Definition M (A : Type) : Type := World → A * World.
#[export] Instance M_ret : MRet M := λ A a w, (a, w).
#[export] Instance M_bind : MBind M := λ A B k m w, let '(a, w) := m w in k a w.

Definition sync (w : World) : World :=
  match aw_script w with
  | [] => w
  | batch :: rest => foldl apply_event (set_script w rest) batch
  end.

Definition step {A} (f : World → A * World) : M A := λ w, f (sync w).
Definition read_context {A} (f : Ctx → A) : M A := step (λ w, (f (aw_context w), w)).
Definition unix_now : M Z := read_context cx_unix_now.
Definition load_generation : M Z := step (λ w, (aw_generation w, w)).
Definition read_journal {A} (f : Database → A) : M A := step (λ w, (f (aw_journal w), w)).
Definition with_journal {A} (f : Database → A * Database) : M A :=
  step (λ w, let '(a, j) := f (aw_journal w) in (a, set_journal w j)).

Definition bind_device (backend : CloudBackend Srv) (d : DeviceDescriptor)
    : M (result BackendError unit) := step (λ w,
  let '(answer, srv) := cb_ensure_device_bound backend d (aw_server w) in
  (answer, observe (set_server w srv) [Bound d answer])).
Definition send_schema (backend : CloudBackend Srv) (schema : AchievementSchema)
    : M (result BackendError BackendSchemaOutcome) := step (λ w,
  let '(answer, srv) := cb_upload_achievement_schema backend schema (aw_server w) in
  (answer, observe (set_server w srv) [SchemaSent schema answer])).
Definition send_snapshot (backend : CloudBackend Srv) (identity : UploadIdentity)
    (snapshot : SteamAppSnapshot) : M (result BackendError SteamStateUploadResult) := step (λ w,
  let '(answer, srv) := cb_upload_steam_app_snapshot backend identity snapshot (aw_server w) in
  (answer, observe (set_server w srv) [SnapshotSent snapshot answer])).
(** [user_stats::queue_snapshot_refresh_then_read] *)
Definition ask_refresh (intent : StatsSnapshotIntent) : M unit :=
  step (λ w, (tt, observe w [RefreshAsked intent])).

(** ** What other threads call

    [started] is whether the worker could be started, which opens the journal. Waking the
    worker leaves nothing to see here. *)

Definition owner_is_current (owner : StatsSnapshotOwner) : M bool :=
  read_context (λ c, stats_snapshot_owner_is_current c owner).
Definition guard_is_current (guard : StatsRefreshGuard) : M bool :=
  read_context (λ c, stats_refresh_guard_is_current c guard).

Definition stats_commit (owner : StatsSnapshotOwner) (app_id : Z) (request : list Z)
    (base_crc_stats : option Z) (dirty_stat_ids : list Z) (now : Z) : StatsCommit :=
  let owner_steam_id64 := steam_text (rg_steam_id64 (so_guard owner)) in
  {| sc_owner_scope := so_principal_scope owner;
     sc_owner_steam_id64 := owner_steam_id64;
     sc_commit_id := bytes_str (stats_commit_id sha256 owner_steam_id64 app_id request);
     sc_app_id := app_id; sc_base_crc_stats := base_crc_stats;
     sc_dirty_stat_ids := dedup_ids (sort_by_key id dirty_stat_ids);
     sc_observed_at := now |}.

Definition persist_store_commit (started : bool) (app_id emsg : Z) (request : list Z)
    (owner : StatsSnapshotOwner) : M StoreCommitPersistence :=
  current ← owner_is_current owner;
  if negb current then mret Stale
  else
    match decode_store_commit emsg request (rg_steam_id64 (so_guard owner)) with
    | None => mret InvalidRequest
    | Some (base_crc_stats, dirty_stat_ids) =>
        if negb started then mret Failed
        else
          now ← unix_now;
          let commit := stats_commit owner app_id request base_crc_stats dirty_stat_ids now in
          current ← owner_is_current owner;
          if negb current then mret Stale
          else
            match StatsSnapshotIntent_new commit owner with
            | None => mret Failed
            | Some intent =>
                stored ← step (commit_journal commit);
                mret match stored with Err _ => Failed | Ok _ => Persisted intent end
            end
    end.

Fixpoint awaiting_intents (owner : StatsSnapshotOwner) (steam_id64 : string) (app_ids : list Z)
    : M (list StatsSnapshotIntent) :=
  match app_ids with
  | [] => mret []
  | app_id :: rest =>
      marker ← read_journal (pending_stats_commit (so_principal_scope owner) steam_id64 app_id);
      intents ← awaiting_intents owner steam_id64 rest;
      mret match marker ≫= λ marker, StatsSnapshotIntent_new marker owner with
           | Some intent => intent :: intents
           | None => intents
           end
  end.

(** [stats_awaiting_snapshot] of the worker, the intents a recovery starts from *)
Definition recovery_intents (started : bool) (owner : StatsSnapshotOwner)
    : M (list StatsSnapshotIntent) :=
  current ← owner_is_current owner;
  if negb current then mret []
  else if negb started then mret []
  else
    let steam_id64 := steam_text (rg_steam_id64 (so_guard owner)) in
    app_ids ← read_journal (stats_awaiting_snapshot (so_principal_scope owner) steam_id64);
    current ← owner_is_current owner;
    if negb current then mret []
    else
      intents ← awaiting_intents owner steam_id64 app_ids;
      current ← owner_is_current owner;
      mret (if current : bool then intents else []).

Definition queue_official_snapshot (started : bool) (snapshot : AchievementSnapshot)
    (intent : StatsSnapshotIntent) : M bool :=
  if negb (sc_app_id (in_marker intent) =? an_app_id snapshot) then mret true
  else
    current ← guard_is_current (in_guard intent);
    if negb current then mret true
    else
      apps ← read_context cx_apps;
      if negb (is_controlled_app apps (an_app_id snapshot)).1 then mret true
      else if negb started then mret false
      else
        now ← unix_now;
        current ← guard_is_current (in_guard intent);
        if negb current then mret true
        else
          answer ← step (complete_journal (official_snapshot (in_marker intent) snapshot now));
          mret match answer with Ok _ => true | Err _ => false end.

Definition has_pending_stats (started : bool) (owner_scope steam_id64 : string) (app_id : Z)
    : M bool :=
  if started then read_journal (stats_sync_pending owner_scope steam_id64 app_id)
  else mret false.

Definition queue_schema (started : bool) (app_id : Z) (schema_version : option string)
    (content : list Z) : M unit :=
  match content with
  | [] => mret tt
  | _ =>
      backend ← read_context (backend_context sha256);
      if match backend with
         | Some backend => negb (cb_accepts_achievement_schemas backend)
         | None => false
         end
      then mret tt
      else if negb started then mret tt
      else
        now ← unix_now;
        _ ← with_journal (enqueue_schema
              {| as_owner_scope :=
                   match backend with Some backend => cb_endpoint_scope backend | None => "" end;
                 as_app_id := app_id; as_language := "english";
                 as_schema_version := schema_version; as_content := content |} now);
        mret tt
  end.

(** ** Uploading *)

Definition persist_current_device_descriptor : M unit :=
  descriptor ← read_context cx_descriptor;
  match descriptor with
  | None => mret tt
  | Some descriptor =>
      now ← unix_now;
      _ ← with_journal (store_device_descriptor descriptor now);
      mret tt
  end.

Definition next_achievement_attempt_at : M (option Z) :=
  backend ← read_context (backend_context sha256);
  match backend with
  | None => mret None
  | Some backend =>
      descriptor ← read_context cx_descriptor;
      match descriptor with
      | None => mret None
      | Some _ =>
          scoped ← read_journal (next_schema_attempt_at (cb_endpoint_scope backend));
          orphaned ← read_journal (next_schema_attempt_at "");
          let schema := min_delay scoped orphaned in
          identity ← read_context upload_identity;
          match identity with
          | None => mret schema
          | Some identity =>
              scope ← read_context (λ c, cached_principal_scope c backend);
              stats ← (match scope with
                       | Some scope =>
                           read_journal
                             (next_stats_snapshot_attempt_at scope (ui_steam_id64 identity))
                       | None => mret None
                       end : M (option Z));
              mret (min_delay schema stats)
          end
      end
  end.

Definition upload_schema (backend : CloudBackend Srv) (queued : Queued AchievementSchema)
    : M unit :=
  answer ← send_schema backend (q_value queued);
  match answer with
  | Ok _ => _ ← with_journal (acknowledge queued); mret tt
  | Err error =>
      if is_retryable error then
        now ← unix_now; _ ← with_journal (defer queued now); mret tt
      else _ ← with_journal (acknowledge queued); mret tt
  end.

Fixpoint upload_schemas (backend : CloudBackend Srv) (schemas : list (Queued AchievementSchema))
    : M unit :=
  match schemas with
  | [] => mret tt
  | queued :: rest => upload_schema backend queued ≫= λ _, upload_schemas backend rest
  end.

Definition queue_native_refresh_after_upload (started : bool) (snapshot : SteamAppSnapshot)
    : M unit :=
  runtime_generation ← read_context cx_runtime_generation;
  owner ← read_context (λ c, capture_stats_snapshot_owner c runtime_generation);
  match owner with
  | None => mret tt
  | Some owner =>
      if negb (bool_decide (so_principal_scope owner = ss_owner_scope snapshot)) ||
         negb (bool_decide (steam_text (rg_steam_id64 (so_guard owner))
                            = ss_owner_steam_id64 snapshot))
      then mret tt
      else if negb started then mret tt
      else
        marker ← read_journal (pending_stats_commit (ss_owner_scope snapshot)
                   (ss_owner_steam_id64 snapshot) (ss_app_id snapshot));
        match marker with
        | Some marker =>
            if bool_decide (sc_commit_id marker = ss_commit_id snapshot) then
              match StatsSnapshotIntent_new marker owner with
              | Some intent => ask_refresh intent
              | None => mret tt
              end
            else mret tt
        | None => mret tt
        end
  end.

(** One snapshot; whether the loop over them goes on. The thread that runs this was started
    by [worker], which set its cell before or just after. *)
Definition upload_snapshot (started : bool) (backend : CloudBackend Srv)
    (identity : UploadIdentity) (queued : Queued SteamAppSnapshot) : M bool :=
  let snapshot := q_value queued in
  answer ← send_snapshot backend identity snapshot;
  match answer with
  | Ok result =>
      match refused_app_result snapshot result with
      | Some refused =>
          now ← unix_now;
          reopened ← with_journal (reopen_stats_commit queued (au_crc_stats refused) now);
          match reopened with
          | Ok true => queue_native_refresh_after_upload started snapshot ≫= λ _, mret true
          | _ => mret true
          end
      | None => _ ← with_journal (acknowledge queued); mret true
      end
  | Err error =>
      if is_retryable error then
        now ← unix_now; _ ← with_journal (defer queued now); mret false
      else _ ← with_journal (acknowledge queued); mret true
  end.

Fixpoint upload_snapshots (started : bool) (backend : CloudBackend Srv)
    (identity : UploadIdentity) (snapshots : list (Queued SteamAppSnapshot)) : M unit :=
  match snapshots with
  | [] => mret tt
  | queued :: rest =>
      go_on ← upload_snapshot started backend identity queued;
      if go_on : bool then upload_snapshots started backend identity rest else mret tt
  end.

(** What follows a bound device in a round: whether there may be another one. *)
Definition upload_bound (started : bool) (backend : CloudBackend Srv) : M bool :=
  let scope := cb_endpoint_scope backend in
  attributed ← with_journal (attribute_pending_schemas scope);
  match attributed with
  | Err _ => mret false
  | Ok _ =>
      now ← unix_now;
      schemas ← read_journal (pending_schemas now scope);
      upload_schemas backend schemas ≫= λ _,
      let attempted := negb (bool_decide (length schemas = 0%nat)) in
      identity ← read_context upload_identity;
      match identity with
      | None => mret attempted
      | Some identity =>
          stats_scope ← read_context (λ c, cached_principal_scope c backend);
          match stats_scope with
          | None => mret false
          | Some stats_scope =>
              now ← unix_now;
              snapshots ← read_journal
                (pending_stats_snapshots stats_scope (ui_steam_id64 identity) now);
              upload_snapshots started backend identity snapshots ≫= λ _,
              mret (attempted || negb (bool_decide (length snapshots = 0%nat)))
          end
      end
  end.

(** One of the ten rounds of a pass. *)
Definition upload_round (started : bool) (gate : DeviceBindingGate)
    : M (DeviceBindingGate * bool) :=
  binding_generation ← load_generation;
  next ← next_achievement_attempt_at;
  match deadline gate binding_generation next with
  | None => mret (gate, false)
  | Some next =>
      now ← unix_now;
      if now <? next then mret (gate, false)
      else
        backend ← read_context (backend_context sha256);
        match backend with
        | None => mret (gate, false)
        | Some backend =>
            descriptor ← read_context cx_descriptor;
            match descriptor with
            | None => mret (gate, false)
            | Some descriptor =>
                answer ← bind_device backend descriptor;
                match answer with
                | Err error =>
                    mret (record_failure binding_generation (is_retryable error), false)
                | Ok _ =>
                    go_on ← upload_bound started backend;
                    mret (record_success, go_on)
                end
            end
        end
  end.

Fixpoint upload_rounds (rounds : nat) (started : bool) (gate : DeviceBindingGate)
    : M DeviceBindingGate :=
  match rounds with
  | O => mret gate
  | S rounds =>
      '(gate, go_on) ← upload_round started gate;
      if go_on : bool then upload_rounds rounds started gate else mret gate
  end.

(** ** The loop *)

Record LoopState := {
  al_first_pass : bool; al_next_attempt_at : option Z; al_device_binding : DeviceBindingGate;
}.
Definition loop_start : LoopState :=
  {| al_first_pass := true; al_next_attempt_at := None; al_device_binding := gate_default |}.

(** How long [wait_for_upload_work] waits, [None] when only a wake-up ends it. *)
Definition wait_delay (next_attempt_at : option Z) (now : Z) : option Z :=
  (λ next_attempt_at,
     if next_attempt_at <=? now then READY_RETRY_DELAY
     else 1000 * Z.max i64_min (Z.min i64_max (next_attempt_at - now))) <$> next_attempt_at.

(** The next end of a wait; a wait without a delay does not time out. *)
Fixpoint wait_end (delay : option Z) (waits : list Waited) : option (Waited * list Waited) :=
  match waits with
  | [] => None
  | TimedOut :: rest => if delay then Some (TimedOut, rest) else wait_end delay rest
  | waited :: rest => Some (waited, rest)
  end.

(** [false]: the sender is gone; [None]: the thread waits for ever. *)
Definition wait_for_upload_work (next_attempt_at : option Z) : M (option bool) :=
  now ← (match next_attempt_at with
         | Some _ => unix_now
         | None => mret 0
         end : M Z);
  step (λ w,
    match wait_end (wait_delay next_attempt_at now) (aw_waits w) with
    | None => (None, w)
    | Some (Hung, rest) => (Some false, set_waits w rest)
    | Some (_, rest) => (Some true, set_waits w rest)
    end).

Definition upload_turn (started : bool) (s : LoopState) : M (option LoopState) :=
  ready ← (if al_first_pass s then mret (Some true)
           else wait_for_upload_work (al_next_attempt_at s) : M (option bool));
  match ready with
  | Some true =>
      persist_current_device_descriptor ≫= λ _,
      gate ← upload_rounds 10 started (al_device_binding s);
      generation ← load_generation;
      next ← next_achievement_attempt_at;
      mret (Some {| al_first_pass := false;
                    al_next_attempt_at := deadline gate generation next;
                    al_device_binding := gate |})
  | _ => mret None
  end.

Fixpoint upload_loop (turns : nat) (started : bool) (s : LoopState) : M (option LoopState) :=
  match turns with
  | O => mret (Some s)
  | S turns =>
      next ← upload_turn started s;
      match next with None => mret None | Some s => upload_loop turns started s end
  end.
End worker.
