(* ===== verification/AchievementProofs.v ===== *)
(** * AchievementProofs: a stats commit is not lost

    The journal is seen through the slots of [JournalStats], one per owner and app, and its
    abstract protocol. Other threads journal commits and complete them while the worker has a
    batch of snapshots in its hands; the revision of a slot tells whether it moved on. *)

From Stdlib Require Import ZArith Lia.
From S2P Require Import Prelude RustStd CloudCore Apps PlaytimeDownlink Storage JournalRecord SyncJournal.
From S2P Require Import JournalProofs SteamProtocol WorkerContext UserStats AchievementWorker JournalStats.

Local Open Scope Z_scope.

(** ** Accounting for a commit *)

(** The commit a slot is about. *)
Definition phase_id (p : StatsPhase) : string :=
  match p with Awaiting c => sc_commit_id c | Completed s => ss_commit_id s end.

(** The backend took the snapshot or refused it for good. *)
Definition snapshot_settled (s : SteamAppSnapshot)
    (answer : result BackendError SteamStateUploadResult) : Prop :=
  match answer with
  | Ok result => refused_app_result s result = None
  | Err e => is_retryable e = false
  end.

Definition superseded (t : list Observed) (c : StatsCommit) : Prop :=
  ∃ c', Committed c' ∈ t ∧ commit_key c' = commit_key c.
Definition delivered (t : list Observed) (c : StatsCommit) : Prop :=
  ∃ s answer, SnapshotSent s answer ∈ t ∧ snap_key s = commit_key c ∧
    ss_commit_id s = sc_commit_id c ∧ snapshot_settled s answer.

Lemma superseded_app t new c : superseded t c → superseded (t ++ new) c.
Proof. intros (c' & ? & ?). exists c'. split; [apply elem_of_app; by left|done]. Qed.
Lemma delivered_app t new c : delivered t c → delivered (t ++ new) c.
Proof. intros (s & a & ? & ?). exists s, a. split; [apply elem_of_app; by left|done]. Qed.
Lemma delivered_app_r t new c : delivered new c → delivered (t ++ new) c.
Proof. intros (s & a & ? & ?). exists s, a. split; [apply elem_of_app; by right|done]. Qed.

Definition no_commit (k : StatsKey) (t : list Observed) : Prop :=
  ∀ c, Committed c ∈ t → commit_key c ≠ k.

Section accounting.
Context {St : Structsy} {L : StructsyLaws St}.
Implicit Types (j : @Database St) (t new : list Observed) (c : StatsCommit).
Implicit Types (item : Queued SteamAppSnapshot).

Definition commit_held j c : Prop :=
  ∃ sl, slots j (commit_key c) = Some sl ∧ phase_id (sl_phase sl) = sc_commit_id c.

Definition Accounted j t : Prop :=
  ∀ before c since, t = before ++ Committed c :: since →
    superseded since c ∨ commit_held j c ∨ delivered since c.

(** A step that adds [new] to the trace. *)
Lemma accounted_step j j' t new :
  Accounted j t →
  (∀ c, commit_held j c → commit_held j' c ∨ superseded new c ∨
     ∀ before since, t = before ++ Committed c :: since → delivered (since ++ new) c) →
  (∀ before c since, new = before ++ Committed c :: since → since = [] ∧ commit_held j' c) →
  Accounted j' (t ++ new).
Proof.
  intros Ha Hold Hnew before c since E.
  destruct (app_eq_inv _ _ _ _ E) as [(l & E1 & E2)|(l & E1 & E2)].
  - destruct l as [|o l]; simpl in E2.
    + destruct (Hnew [] c since) as [-> ?]; [done|]. by right; left.
    + injection E2 as <- ->. destruct (Ha before c l E1) as [H|[H|H]].
      * left. by apply superseded_app.
      * destruct (Hold c H) as [?|[(c' & ? & ?)|Hd]]; [by right; left| |by right; right; eauto].
        left. exists c'. split; [apply elem_of_app; by right|done].
      * right; right. by apply delivered_app.
  - destruct (Hnew l c since) as [-> ?]; [done|]. by right; left.
Qed.

(** Nothing is added, and the slots keep their commits. *)
Lemma accounted_keep j j' t new :
  Accounted j t → (∀ k sl, slots j k = Some sl →
    ∃ sl', slots j' k = Some sl' ∧ phase_id (sl_phase sl') = phase_id (sl_phase sl)) →
  (∀ c, Committed c ∉ new) → Accounted j' (t ++ new).
Proof.
  intros Ha Hs Hn. eapply accounted_step; [exact Ha| |].
  - intros c (sl & Hsl & Hid). left. destruct (Hs _ _ Hsl) as (sl' & Hsl' & Hid').
    exists sl'. split; [done|congruence].
  - intros before c since ->. destruct (Hn c). apply elem_of_app. right. by left.
Qed.

Lemma slots_ref_inj j k k' sl sl' :
  slots j k = Some sl → slots j k' = Some sl' → sl_ref sl = sl_ref sl' → k = k' ∧ sl = sl'.
Proof.
  intros (id & r & Hr & <- & ->)%slots_Some (id' & r' & Hr' & <- & ->)%slots_Some Href.
  simpl in Href. subst id'. assert (r' = r) as -> by congruence. done.
Qed.

(** ** A snapshot in the worker's hands *)

(** [r] is [q] after [n] moves of the slot. *)
Definition moved (q : Z) (n : nat) (r : Z) : Prop :=
  r = if decide (n = 0%nat) then q else (q + Z.of_nat n) mod 2 ^ 64.

Lemma moved_next q n r : moved q n r → moved q (S n) (u64_wrapping_add r 1).
Proof.
  unfold moved, u64_wrapping_add. intros ->. destruct (decide (S n = 0%nat)); [done|].
  case_decide; subst; rewrite ?Zplus_mod_idemp_l; f_equal; lia.
Qed.
Lemma moved_back q n r : moved q n r → r = q → Z.of_nat n < 2 ^ 64 → n = 0%nat.
Proof.
  unfold moved. case_decide as Hn; [done|]. intros -> Hq Hlt. exfalso.
  assert (H : (q + Z.of_nat n - q) mod 2 ^ 64 = 0).
  { rewrite <-Hq at 2. rewrite Zminus_mod_idemp_r, Z.sub_diag. done. }
  replace (q + Z.of_nat n - q) with (Z.of_nat n) in H by lia.
  rewrite Z.mod_small in H; lia.
Qed.

Context (B : nat) (HB : Z.of_nat B < 2 ^ 64).

(** The item was read when the trace was [t0]; [left] events of the script are to come. *)
Definition InHand (left : nat) t0 j t item : Prop :=
  ∃ since sl n, t = t0 ++ since ∧
    slots j (snap_key (q_value item)) = Some sl ∧ reference item = Ok (sl_ref sl) ∧
    moved (q_revision item) n (sl_revision sl) ∧ (n + left ≤ B)%nat ∧
    (n = 0%nat → phase_id (sl_phase sl) = ss_commit_id (q_value item) ∧
                 no_commit (snap_key (q_value item)) since).

(** A step that leaves the item's slot alone. *)
Lemma hand_keep left t0 item j j' t new :
  InHand left t0 j t item →
  slots j' (snap_key (q_value item)) = slots j (snap_key (q_value item)) →
  no_commit (snap_key (q_value item)) new → InHand left t0 j' (t ++ new) item.
Proof.
  intros (since & sl & n & -> & Hs & Hr & Hm & Hb & H0) Hk Hn.
  exists (since ++ new), sl, n. rewrite Hk, app_assoc. repeat split; try done; [by apply H0|].
  intros c [Hc|Hc]%elem_of_app; [by apply H0|by apply Hn].
Qed.

(** An event that moves it. *)
Lemma hand_move left t0 item j j' t new sl p :
  InHand (S left) t0 j t item →
  slots j (snap_key (q_value item)) = Some sl →
  slots j' (snap_key (q_value item)) = Some (advance sl p) →
  InHand left t0 j' (t ++ new) item.
Proof.
  intros (since & sl0 & n & -> & Hs & Hr & Hm & Hb & H0) Hsl Hsl'.
  assert (sl0 = sl) as -> by congruence. exists (since ++ new), (advance sl p), (S n).
  rewrite app_assoc. split; [done|]. split; [done|]. split; [done|].
  split; [by apply moved_next|]. split; [lia|done].
Qed.

Lemma hand_less left left' t0 item j t :
  InHand left t0 j t item → (left' ≤ left)%nat → InHand left' t0 j t item.
Proof.
  intros (since & sl & n & H1 & H2 & H3 & H4 & H5 & H6) Hl.
  exists since, sl, n. repeat split; try done; [lia|by apply H6..].
Qed.

(** ** The operations of the journal *)

Lemma unchanged_updates (σ σ' : Slots) k : updates σ σ' k (σ k) → ∀ k', σ' k' = σ k'.
Proof. intros H k'. rewrite H. case_decide; congruence. Qed.

(** A commit. *)
Lemma commit_slots c j j' :
  stats_spec (EvCommit c) (slots j) (slots j') →
  (∃ sl, slots j' (commit_key c) = Some sl ∧ sl_phase sl = Awaiting c ∧
     ∀ old, slots j (commit_key c) = Some old → sl = advance old (Awaiting c)) ∧
  ∀ k, k ≠ commit_key c → slots j' k = slots j k.
Proof.
  intros H. inversion H as [? ? ? id Hn _ Hup|? ? ? sl Hold Hup| | | | | | |]; subst.
  - split; [|intros k Hk; by rewrite (Hup k), decide_False].
    eexists. rewrite (Hup (commit_key c)), decide_True by done. split; [done|].
    split; [done|]. congruence.
  - split; [|intros k Hk; by rewrite (Hup k), decide_False].
    eexists. rewrite (Hup (commit_key c)), decide_True by done. split; [done|].
    split; [done|]. intros old Ho. congruence.
Qed.

(** The other operations of other threads and of the worker move a slot and keep its commit,
    or leave it alone; an acknowledgement empties it. *)
Lemma complete_slots s b j j' :
  stats_spec (EvComplete s b) (slots j) (slots j') →
  ∀ k, slots j' k = slots j k ∨
    ∃ sl p, slots j k = Some sl ∧ slots j' k = Some (advance sl p) ∧
      phase_id p = phase_id (sl_phase sl).
Proof.
  intros H k. inversion H as [| |? ? ? sl c (Hsl & Hc & Hid) Hup|? ? ? _ Hsame| | | | |]; subst;
    [|by left]. rewrite (Hup k). case_decide as Hk; [|by left]. subst k. right.
  exists sl, (Completed (complete_with c s)). split; [done|]. split; [done|].
  by rewrite Hc.
Qed.

Lemma reopen_slots item base now b j j' :
  stats_spec (EvReopen item base now b) (slots j) (slots j') →
  ∀ k, slots j' k = slots j k ∨
    ∃ sl p, slots j k = Some sl ∧ reference item = Ok (sl_ref sl) ∧
      slots j' k = Some (advance sl p) ∧ phase_id p = phase_id (sl_phase sl).
Proof.
  intros H k. inversion H as [| | | |? ? ? ? ? k0 sl Hsl [Hr _] Hup|? ? ? ? ? _ Hsame| | |]; subst;
    [|by left]. rewrite (Hup k). case_decide as Hk; [|by left]. subst k. right.
  eexists sl, _. split; [done|]. split; [done|]. split; [done|]. by destruct (sl_phase sl).
Qed.

Lemma ack_slots item j j' :
  stats_spec (EvAck item) (slots j) (slots j') →
  (∀ k, slots j' k = slots j k) ∨
  ∃ k sl, slots j k = Some sl ∧ reference item = Ok (sl_ref sl) ∧
    sl_revision sl = q_revision item ∧ updates (slots j) (slots j') k None.
Proof.
  intros H. inversion H as [| | | | | |? ? ? k sl Hsl [Hr Hrev] Hup|? ? ? _ Hsame|]; subst;
    [right|by left]. by exists k, sl.
Qed.
End accounting.

(** ** The worker *)

Create HintDb achieves.

Section worker.
Context {St : Structsy} {L : StructsyLaws St} {Srv : Type} (sha256 : list Z → list Z).
Context (B : nat) (HB : Z.of_nat B < 2 ^ 64).
Notation World := (@World St Srv).
Implicit Types (w : World) (items : list (Queued SteamAppSnapshot)).

Definition events_left w : nat := length (concat (aw_script w)).

(** With [left] events to come: the journal has one row per owner and app, every commit is
    accounted for, and the worker holds [items], read when the trace was [t0]. *)
Record State (left : nat) (t0 : list Observed) items w : Prop := {
  st_unique : unique_by stats_key (stats_rows (aw_journal w));
  st_accounted : Accounted (aw_journal w) (aw_trace w);
  st_left : (left ≤ B)%nat;
  st_items : NoDup (reference <$> items);
  st_hand : Forall (InHand B left t0 (aw_journal w) (aw_trace w)) items;
}.
Definition Good (t0 : list Observed) items w : Prop := State (events_left w) t0 items w.

Lemma state_same left t0 items w w' :
  State left t0 items w → aw_journal w' = aw_journal w → aw_trace w' = aw_trace w →
  State left t0 items w'.
Proof. intros [] Hj Ht. split; rewrite ?Hj, ?Ht; done. Qed.

Lemma state_less left left' t0 items w :
  State left t0 items w → (left' ≤ left)%nat → State left' t0 items w.
Proof.
  intros [] Hl. split; try done; [lia|]. eapply Forall_impl; [done|].
  intros item Hi. by eapply hand_less.
Qed.

(** A step of the worker that moves no slot and commits nothing. *)
Lemma state_silent left t0 items w w' new :
  State left t0 items w →
  unique_by stats_key (stats_rows (aw_journal w')) →
  (∀ k, slots (aw_journal w') k = slots (aw_journal w) k) →
  aw_trace w' = aw_trace w ++ new → (∀ c, Committed c ∉ new) → State left t0 items w'.
Proof.
  intros [H1 H2 H3 H4 H5] Hu Hs Ht Hn. split; try done; rewrite Ht.
  - eapply accounted_keep; [exact H2| |done]. intros k sl Hsl. exists sl. by rewrite Hs.
  - eapply Forall_impl; [exact H5|]. intros item Hi. eapply hand_keep; [exact Hi|done|].
    intros c Hc. by destruct (Hn c).
Qed.

Lemma not_committed_nil c : Committed c ∉ ([] : list Observed).
Proof. apply not_elem_of_nil. Qed.

(** *** Other threads *)

Lemma state_commit left t0 items w c :
  State (S left) t0 items w → State left t0 items (commit_journal c w).2.
Proof.
  intros HS. unfold commit_journal.
  destruct (enqueue_stats_commit c (aw_journal w)) as [[[]|e] j] eqn:E; simpl.
  2: { apply write_Err in E as ->. apply (state_less (S left)); [|lia].
       apply (state_same _ _ _ w); [done|done|]. simpl. by rewrite app_nil_r. }
  destruct HS as [H1 H2 H3 H4 H5]. apply enqueue_stats_commit_Ok in E as [Hu Hc]; [|done].
  destruct (commit_slots _ _ _ Hc) as [(sl & Hsl & Hp & Hold) Hother].
  split; simpl; try done; [|lia|].
  - eapply accounted_step; [exact H2| |].
    + intros c' (sl' & Hsl' & Hid). destruct (decide (commit_key c' = commit_key c)) as [Hk|Hk].
      * right; left. exists c. split; [by left|done].
      * left. exists sl'. by rewrite Hother.
    + intros before c' since E. destruct before as [|o before].
      * injection E as <- <-. split; [done|]. exists sl. by rewrite Hp.
      * by destruct before.
  - eapply Forall_impl; [exact H5|]. intros item Hi.
    destruct (decide (snap_key (q_value item) = commit_key c)) as [Hk|Hk].
    + pose proof Hi as (since & old & n & _ & Hs & _).
      eapply hand_move; [exact Hi|exact Hs|]. rewrite Hk in Hs |- *.
      by rewrite Hsl, (Hold _ Hs).
    + eapply hand_keep; [by eapply hand_less; [exact Hi|lia]|by apply Hother|].
      intros c' [= ->]%list_elem_of_singleton. done.
Qed.

Lemma state_complete left t0 items w s :
  State (S left) t0 items w → State left t0 items (complete_journal s w).2.
Proof.
  intros HS. unfold complete_journal.
  destruct (complete_stats_snapshot s (aw_journal w)) as [[b|e] j] eqn:E; simpl.
  2: { apply write_Err in E as ->. apply (state_less (S left)); [|lia]. by apply (state_same _ _ _ w). }
  destruct HS as [H1 H2 H3 H4 H5]. apply complete_stats_snapshot_Ok in E as [Hu Hc]; [|done].
  pose proof (complete_slots _ _ _ _ Hc) as Hs.
  split; simpl; try done; [|lia|]; rewrite <-(app_nil_r (aw_trace w)).
  - eapply accounted_keep; [exact H2| |apply not_committed_nil]. intros k sl Hsl.
    destruct (Hs k) as [->|(sl' & p & Hk & Hk' & Hid)]; [by exists sl|].
    exists (advance sl' p). split; [done|]. assert (sl' = sl) as -> by congruence. done.
  - eapply Forall_impl; [exact H5|]. intros item Hi.
    destruct (Hs (snap_key (q_value item))) as [Hk|(sl' & p & Hk & Hk' & _)].
    + eapply hand_keep; [by eapply hand_less; [exact Hi|lia]|done|].
      intros c Hc'. by destruct (not_committed_nil c).
    + by eapply hand_move.
Qed.

Lemma state_event left t0 items w e :
  State (S left) t0 items w → State left t0 items (apply_event w e).
Proof.
  intros HS. destruct e as [c|c|s|j| |act]; simpl.
  1,5,6: apply (state_less (S left)); [by apply (state_same _ _ _ w)|lia].
  - by apply state_commit.
  - by apply state_complete.
  - apply (state_less (S left)); [|lia].
    eapply (state_silent _ _ _ w _ []); [done|apply HS|by intros [[]]|by rewrite app_nil_r|].
    apply not_committed_nil.
Qed.

Lemma good_sync t0 items w : Good t0 items w → Good t0 items (sync w).
Proof.
  unfold Good, sync, events_left. destruct (aw_script w) as [|batch rest] eqn:E; [by rewrite E|].
  simpl. rewrite length_app. intros HS.
  assert (Hb : ∀ w, aw_script w = rest → State (length batch + length (concat rest)) t0 items w →
    aw_script (foldl apply_event w batch) = rest ∧
    State (length (concat rest)) t0 items (foldl apply_event w batch)).
  { clear E HS w. induction batch as [|e batch IH]; intros w Hr HS; simpl in *; [done|].
    apply IH; [|by apply state_event]. destruct e; simpl; try done;
      unfold commit_journal, complete_journal; by case_match. }
  destruct (Hb (set_script w rest)) as [-> H]; [done|by apply (state_same _ _ _ w)|done].
Qed.

(** *** Steps *)

Definition achieves {A} (P : World → Prop) (m : M A) (Q : A → World → Prop) : Prop :=
  ∀ w, P w → Q (m w).1 (m w).2.

Lemma ach_ret {A} (a : A) (P : World → Prop) : achieves P (mret a) (λ _, P).
Proof. by intros w. Qed.
Lemma ach_bind {A C} (m : M A) (k : A → M C) P Q R :
  achieves P m Q → (∀ a, achieves (Q a) (k a) R) → achieves P (m ≫= k) R.
Proof.
  intros Hm Hk w Hw. specialize (Hm w Hw). unfold mbind, M_bind. destruct (m w) as [a w1].
  by apply Hk.
Qed.
Lemma ach_exists {X A} (P : X → World → Prop) (m : M A) Q :
  (∀ x, achieves (P x) m Q) → achieves (λ w, ∃ x, P x w) m Q.
Proof. intros Hm w [x Hw]. by apply (Hm x). Qed.
Lemma ach_step {A} (f : World → A * World) t0 items Q :
  achieves (Good t0 items) f Q → achieves (Good t0 items) (step f) Q.
Proof. intros Hf w Hw. by apply Hf, good_sync. Qed.

(** Steps that only look. *)
Lemma ach_read {A} t0 items (f : Context Srv → A) :
  achieves (Good t0 items) (read_context f) (λ _, Good t0 items).
Proof. apply ach_step. by intros w. Qed.
Lemma ach_now t0 items : achieves (Good t0 items) unix_now (λ _, Good t0 items).
Proof. apply ach_read. Qed.
Lemma ach_generation t0 items : achieves (Good t0 items) load_generation (λ _, Good t0 items).
Proof. apply ach_step. by intros w. Qed.
Lemma ach_look {A} t0 items (f : Database → A) :
  achieves (Good t0 items) (read_journal f) (λ _, Good t0 items).
Proof. apply ach_step. by intros w. Qed.

(** Writes of the other tables. *)
Lemma ach_elsewhere {A} t0 items (f : Database → A * Database) :
  (∀ j, db_stats (f j).2 = db_stats j) →
  achieves (Good t0 items) (with_journal f) (λ _, Good t0 items).
Proof.
  intros Hf. apply ach_step. intros w Hw. specialize (Hf (aw_journal w)).
  destruct (f (aw_journal w)) as [a j]. simpl in *.
  assert (Hr : stats_rows j = stats_rows (aw_journal w)) by (unfold stats_rows; by rewrite Hf).
  eapply (state_silent _ _ _ w _ []); [exact Hw| | |by simpl; rewrite app_nil_r|apply not_committed_nil].
  - simpl. rewrite Hr. apply Hw.
  - simpl. intros [[scope sid] app]. unfold slots. by rewrite Hf.
Qed.

(** Calls of the backend; a snapshot that was sent is in the trace. *)
Lemma ach_call {A} t0 items (f : World → A * World) :
  (∀ w, ∃ o, aw_trace (f w).2 = aw_trace w ++ [o] ∧ aw_journal (f w).2 = aw_journal w ∧
             aw_script (f w).2 = aw_script w ∧ ∀ c, o ≠ Committed c) →
  achieves (Good t0 items) (step f) (λ _, Good t0 items).
Proof.
  intros Hf. apply ach_step. intros w Hw. destruct (Hf w) as (o & Ht & Hj & Hs & Ho).
  unfold Good, events_left. rewrite Hs.
  eapply (state_silent _ _ _ w _ [o]); [exact Hw| | |done|]; rewrite ?Hj; [apply Hw|done|].
  intros c ?%list_elem_of_singleton. by destruct (Ho c).
Qed.
Lemma ach_bind_device t0 items b d :
  achieves (Good t0 items) (bind_device b d) (λ _, Good t0 items).
Proof. apply ach_call. intros w. destruct (cb_ensure_device_bound _ _ _). by eexists. Qed.
Lemma ach_send_schema t0 items b s :
  achieves (Good t0 items) (send_schema b s) (λ _, Good t0 items).
Proof. apply ach_call. intros w. destruct (cb_upload_achievement_schema _ _ _). by eexists. Qed.
Lemma ach_ask_refresh t0 items i :
  achieves (Good t0 items) (ask_refresh i) (λ _, Good t0 items).
Proof. apply ach_call. intros w. by eexists. Qed.

(** The worker's snapshot has been sent and [answer] came back. *)
Definition Sent t0 items item (answer : result BackendError SteamStateUploadResult) w : Prop :=
  Good t0 items w ∧ ∃ since, aw_trace w = t0 ++ since ∧ SnapshotSent (q_value item) answer ∈ since.

Lemma event_grows w e : ∃ new, aw_trace (apply_event w e) = aw_trace w ++ new.
Proof.
  destruct e; simpl; try (exists []; by rewrite app_nil_r);
    unfold commit_journal, complete_journal; case_match; simpl;
    [by eexists|exists []; by rewrite app_nil_r].
Qed.
Lemma sync_grows w : ∃ new, aw_trace (sync w) = aw_trace w ++ new.
Proof.
  unfold sync. destruct (aw_script w) as [|batch rest]; [exists []; by rewrite app_nil_r|].
  change (aw_trace w) with (aw_trace (set_script w rest)). generalize (set_script w rest).
  clear w. induction batch as [|e batch IH]; intros w; simpl; [exists []; by rewrite app_nil_r|].
  destruct (IH (apply_event w e)) as [new2 ->], (event_grows w e) as [new1 ->].
  exists (new1 ++ new2). by rewrite app_assoc.
Qed.

Lemma sent_sync t0 items item answer w :
  Sent t0 items item answer w → Sent t0 items item answer (sync w).
Proof.
  intros (HG & since & Ht & Hin). split; [by apply good_sync|].
  destruct (sync_grows w) as [new Hn]. exists (since ++ new). rewrite Hn, Ht, app_assoc.
  split; [done|]. apply elem_of_app. by left.
Qed.

Lemma ach_send_snapshot t0 item rest b identity :
  achieves (Good t0 (item :: rest)) (send_snapshot b identity (q_value item))
    (Sent t0 (item :: rest) item).
Proof.
  intros w Hw. split.
  - revert w Hw. apply (ach_call t0 (item :: rest)). intros w.
    destruct (cb_upload_steam_app_snapshot b identity (q_value item) (aw_server w)). by eexists.
  - unfold send_snapshot, step. apply good_sync in Hw.
    destruct (cb_upload_steam_app_snapshot b identity (q_value item) (aw_server (sync w)))
      as [answer srv]. simpl.
    pose proof (Forall_inv (st_hand _ _ _ _ Hw)) as (since & _ & _ & Ht & _).
    exists (since ++ [SnapshotSent (q_value item) answer]). rewrite Ht, app_assoc. split; [done|].
    apply elem_of_app. right. by left.
Qed.

(** *** Settling an item *)

Lemma state_drop left t0 item rest w : State left t0 (item :: rest) w → State left t0 rest w.
Proof. intros [? ? ? [? ?]%NoDup_cons [? ?]%Forall_cons]. by split. Qed.

(** The other items of the batch are in other slots. *)
Lemma other_slot left t0 item rest w k sl other :
  State left t0 (item :: rest) w → reference item = Ok (sl_ref sl) →
  slots (aw_journal w) k = Some sl → other ∈ rest → snap_key (q_value other) ≠ k.
Proof.
  intros [_ _ _ [Hn _]%NoDup_cons [_ Hr]%Forall_cons] Hi Hk Ho <-.
  rewrite Forall_forall in Hr. destruct (Hr _ Ho) as (_ & sl' & _ & _ & Hsl' & Hr' & _).
  apply Hn, list_elem_of_fmap. exists other. split; [|done]. congruence.
Qed.

(** A write that touches the slot of the item only. *)
Lemma state_own left t0 item rest w w' :
  State left t0 (item :: rest) w → unique_by stats_key (stats_rows (aw_journal w')) →
  Accounted (aw_journal w') (aw_trace w') → aw_trace w' = aw_trace w →
  (∀ k, slots (aw_journal w') k = slots (aw_journal w) k ∨
        ∃ sl, slots (aw_journal w) k = Some sl ∧ reference item = Ok (sl_ref sl)) →
  State left t0 rest w'.
Proof.
  intros HS Hu Ha Ht Hs. pose proof (state_drop _ _ _ _ _ HS) as [_ _ H3 H4 H5].
  split; try done. rewrite Ht, <-(app_nil_r (aw_trace w)). apply Forall_forall. intros other Ho.
  rewrite Forall_forall in H5. eapply hand_keep; [by apply H5| |].
  - destruct (Hs (snap_key (q_value other))) as [?|(sl & Hsl & Hr)]; [done|].
    by destruct (other_slot _ _ _ _ _ _ _ _ HS Hr Hsl Ho).
  - intros c Hc. by destruct (not_committed_nil c).
Qed.

Lemma ach_reopen t0 item rest base now :
  achieves (Good t0 (item :: rest)) (with_journal (reopen_stats_commit item base now))
    (λ _, Good t0 rest).
Proof.
  apply ach_step. intros w Hw.
  destruct (reopen_stats_commit item base now (aw_journal w)) as [[b|e] j] eqn:E; simpl.
  2: { apply write_Err in E as ->. by apply (state_drop _ _ item), (state_same _ _ _ w). }
  apply reopen_stats_commit_Ok in E as [Hu Hc]; [|apply Hw].
  pose proof (reopen_slots _ _ _ _ _ _ Hc) as Hs.
  apply (state_own _ _ item _ w); [exact Hw|done| |done|]; simpl.
  - rewrite <-(app_nil_r (aw_trace w)).
    eapply accounted_keep; [apply Hw| |apply not_committed_nil]. intros k sl Hsl.
    destruct (Hs k) as [->|(sl' & p & Hk & _ & Hk' & Hid)]; [by exists sl|].
    exists (advance sl' p). split; [done|]. assert (sl' = sl) as -> by congruence. done.
  - intros k. destruct (Hs k) as [?|(sl & p & ? & ? & _)]; [by left|right; by exists sl].
Qed.

Lemma ach_defer t0 item rest now :
  achieves (Good t0 (item :: rest)) (with_journal (defer item now)) (λ _, Good t0 rest).
Proof.
  apply ach_step. intros w Hw. destruct (defer item now (aw_journal w)) as [[[]|e] j] eqn:E; simpl.
  2: { apply write_Err in E as ->. by apply (state_drop _ _ item), (state_same _ _ _ w). }
  apply defer_stats_Ok in E as [Hu Hc]; [|apply Hw]. inversion Hc as [| | | | | | | |? ? ? ? Hs]; subst.
  apply (state_drop _ _ item).
  eapply (state_silent _ _ _ w _ []); [exact Hw|done|done|by simpl; rewrite app_nil_r|apply not_committed_nil].
Qed.

Lemma ach_acknowledge t0 item rest answer :
  snapshot_settled (q_value item) answer →
  achieves (Sent t0 (item :: rest) item answer) (with_journal (acknowledge item)) (λ _, Good t0 rest).
Proof.
  intros Hset w Hw. apply sent_sync in Hw. unfold with_journal, step. revert Hw.
  generalize (sync w). clear w. intros w (Hw & since & Ht & Hin).
  destruct (acknowledge item (aw_journal w)) as [[[]|e] j] eqn:E; simpl.
  2: { apply write_Err in E as ->. by apply (state_drop _ _ item), (state_same _ _ _ w). }
  apply acknowledge_stats_Ok in E as [Hu Hc]; [|apply Hw].
  destruct (ack_slots _ _ _ Hc) as [Hs|(k & sl & Hk & Hr & Hrev & Hup)].
  { apply (state_drop _ _ item). eapply (state_silent _ _ _ w _ []);
      [exact Hw|done|done|by simpl; rewrite app_nil_r|apply not_committed_nil]. }
  destruct (Forall_inv (st_hand _ _ _ _ Hw)) as (since' & sl' & n & Ht' & Hsl' & Hr' & Hm & Hb & H0).
  assert (since' = since) as -> by (rewrite Ht in Ht'; by apply app_inv_head in Ht').
  assert (sl_ref sl' = sl_ref sl) as Href by congruence.
  destruct (slots_ref_inj _ _ _ _ _ Hsl' Hk Href) as [<- ->].
  destruct H0 as [Hid Hno]; [eapply moved_back; [exact Hm|done|lia]|].
  apply (state_own _ _ item _ w); [exact Hw|done| |done|]; simpl.
  - rewrite <-(app_nil_r (aw_trace w)). eapply accounted_step; [apply Hw| |].
    + intros c (slc & Hslc & Hidc).
      destruct (decide (commit_key c = snap_key (q_value item))) as [Hck|Hck].
      2: { left. exists slc. split; [|done]. etrans; [apply (Hup (commit_key c))|].
           by rewrite decide_False. }
      right; right. intros before since2 Hsplit. rewrite app_nil_r.
      assert (∃ x, since2 = x ++ since) as [x ->].
      { rewrite Ht in Hsplit. destruct (app_eq_inv _ _ _ _ Hsplit) as [(l & E1 & E2)|(l & E1 & E2)].
        - destruct l as [|o l]; simpl in E2; [|injection E2 as <- ->; by exists l].
          destruct (Hno c); [rewrite <-E2; by left|done].
        - destruct (Hno c); [rewrite E2; apply elem_of_app; right; by left|done]. }
      apply delivered_app_r. exists (q_value item), answer. split; [done|]. split; [done|].
      split; [|done]. rewrite Hck in Hslc. congruence.
    + intros before c since2 E. by destruct before.
  - intros k'. rewrite (Hup k'). case_decide as Hk'; [|by left]. subst k'. right. by exists sl.
Qed.

(** *** The other tables *)

Lemma write_elsewhere {T} (f : Database → JR (T * Database)) (j : @Database St) :
  (∀ tx x tx', f tx = Ok (x, tx') → db_stats tx' = db_stats tx) →
  db_stats (write f j).2 = db_stats j.
Proof.
  intros Hf. destruct (write f j) as [[x|e] j'] eqn:E; simpl.
  - apply write_Ok in E. by eapply Hf.
  - by apply write_Err in E as ->.
Qed.

Lemma ach_settle_schema t0 items (q : Queued AchievementSchema) :
  achieves (Good t0 items) (with_journal (acknowledge q)) (λ _, Good t0 items).
Proof.
  apply ach_elsewhere. intros j. apply write_elsewhere. intros tx x tx' Htx.
  apply bind_Ok_inv in Htx as (t & _ & [= _ <-]). done.
Qed.
Lemma ach_defer_schema t0 items (q : Queued AchievementSchema) now :
  achieves (Good t0 items) (with_journal (defer q now)) (λ _, Good t0 items).
Proof.
  apply ach_elsewhere. intros j. apply write_elsewhere. intros tx x tx' Htx.
  apply bind_Ok_inv in Htx as (t & _ & [= _ <-]). done.
Qed.
Lemma ach_attribute t0 items scope :
  achieves (Good t0 items) (with_journal (attribute_pending_schemas scope)) (λ _, Good t0 items).
Proof.
  apply ach_elsewhere. intros j. unfold attribute_pending_schemas. case_decide; [done|].
  apply write_elsewhere. intros tx x tx' Htx. apply bind_Ok_inv in Htx as (t & _ & [= _ <-]). done.
Qed.
Lemma ach_descriptor t0 items d now :
  achieves (Good t0 items) (with_journal (store_device_descriptor d now)) (λ _, Good t0 items).
Proof.
  apply ach_elsewhere. intros j. unfold store_device_descriptor.
  destruct (storage _) as [rows|e]; [|done]. case_bool_decide; [done|].
  apply write_elsewhere. intros tx x tx' Htx. destruct (head rows) as [[id r]|].
  - apply bind_Ok_inv in Htx as (t & _ & [= _ <-]). done.
  - apply bind_Ok_inv in Htx as ([i t] & _ & [= _ <-]). done.
Qed.

(** *** Reading a batch *)

Lemma elem_of_batch scope sid now (j : @Database St) item :
  item ∈ pending_stats_snapshots scope sid now j →
  ∃ id r s, stats_rows j !! id = Some r ∧ StatsRecord_snapshot r = Some s ∧
    item = Queued_new id (tr_revision r) s.
Proof.
  intros [a Ha]%elem_of_take_fst. apply batch_subset in Ha.
  apply list_elem_of_omap in Ha as ([id r] & [Hr _]%elem_of_fetch & Hs). simpl in Hs.
  destruct (StatsRecord_snapshot r) as [s|] eqn:E; [|done]. cbn in Hs. injection Hs as _ <-.
  by exists id, r, s.
Qed.

Lemma batch_references scope sid now (j : @Database St) :
  NoDup (reference <$> pending_stats_snapshots scope sid now j).
Proof.
  unfold pending_stats_snapshots. rewrite <-list_fmap_compose.
  eapply sublist_NoDup; [|apply fmap_sublist, sublist_take].
  rewrite sort_by_key_perm. generalize (fetch_NoDup
    (λ r, stats_owned_by scope sid r && stats_ready now r) (db_stats j)).
  generalize (fetch (λ r, stats_owned_by scope sid r && stats_ready now r) (db_stats j)).
  intros l. induction l as [|[id r] l IH]; [constructor|]. intros [Hid Hl]%NoDup_cons.
  simpl. destruct (StatsRecord_snapshot r) as [s|]; cbn; [|by apply IH].
  apply NoDup_cons. split; [|by apply IH]. rewrite reference_new.
  intros ([k item] & Hi & ([id' r'] & Hin & Hs)%list_elem_of_omap)%list_elem_of_fmap.
  simpl in *. destruct (StatsRecord_snapshot r'); [|done]. cbn in Hs. injection Hs as _ <-.
  rewrite reference_new in Hi. injection Hi as ->. apply Hid, list_elem_of_fmap.
  by exists (id', r').
Qed.

Lemma ach_batch t0 scope sid now :
  achieves (Good t0 []) (read_journal (pending_stats_snapshots scope sid now))
    (λ items w, ∃ t1, Good t1 items w).
Proof.
  apply ach_step. intros w Hw. exists (aw_trace w). simpl.
  destruct Hw as [H1 H2 H3 H4 H5]. split; try done; [apply batch_references|].
  apply Forall_forall. intros item (id & r & s & Hr & Hs & ->)%elem_of_batch.
  assert (Hk : snap_key s = stats_key r).
  { unfold StatsRecord_snapshot in Hs. case_match; [|done]. by injection Hs as <-. }
  exists [], (slot_of id r), 0%nat. rewrite app_nil_r, reference_new.
  change (q_value (Queued_new id (tr_revision r) s)) with s. rewrite Hk.
  split; [done|]. split; [by apply slots_row|]. split; [done|]. split; [done|].
  split; [lia|]. intros _. split; [|intros c ?%not_elem_of_nil; done].
  simpl. unfold phase_of_record. by rewrite Hs.
Qed.

(** *** The programs *)

Hint Resolve ach_ret ach_read ach_now ach_generation ach_look ach_bind_device ach_send_schema
  ach_ask_refresh ach_settle_schema ach_defer_schema ach_attribute ach_descriptor : achieves.

Ltac walk := repeat first
  [ apply ach_ret | solve [eauto 2 with achieves]
  | eapply ach_bind; [solve [eauto 2 with achieves]|intros ?]
  | progress case_match | progress cbn beta iota ].

(** The worker holds nothing. *)
Definition Idle : World → Prop := Good [] [].

Lemma good_idle t0 items w : Good t0 items w → Idle w.
Proof. intros [H1 H2 H3 H4 H5]. split; try done; constructor. Qed.
Lemma idle_good t0 w : Idle w → Good t0 [] w.
Proof. intros [H1 H2 H3 H4 H5]. split; try done; constructor. Qed.

Lemma ach_refresh t0 items started s :
  achieves (Good t0 items) (queue_native_refresh_after_upload sha256 started s)
    (λ _, Good t0 items).
Proof. unfold queue_native_refresh_after_upload. walk. Qed.
Hint Resolve ach_refresh : achieves.

Lemma ach_upload_snapshot t0 started b identity item rest :
  achieves (Good t0 (item :: rest)) (upload_snapshot sha256 started b identity item)
    (λ _, Good t0 rest).
Proof.
  unfold upload_snapshot. eapply ach_bind; [apply ach_send_snapshot|]. intros answer.
  assert (Hgood : ∀ {A} (m : M A) Q, achieves (Good t0 (item :: rest)) m Q →
            achieves (Sent t0 (item :: rest) item answer) m Q) by (intros A m Q Hm w [Hw _]; by apply Hm).
  destruct answer as [result|e].
  - destruct (refused_app_result (q_value item) result) as [refused|] eqn:Er.
    + apply Hgood. eapply ach_bind; [apply ach_now|]. intros now.
      eapply ach_bind; [apply ach_reopen|]. intros reopened. walk.
    + eapply ach_bind; [by apply ach_acknowledge|intros ?]. walk.
  - destruct (is_retryable e) eqn:He.
    + apply Hgood. eapply ach_bind; [apply ach_now|]. intros now.
      eapply ach_bind; [apply ach_defer|intros ?]. walk.
    + eapply ach_bind; [by apply ach_acknowledge|intros ?]. walk.
Qed.

Lemma ach_upload_snapshots t0 started b identity items :
  achieves (Good t0 items) (upload_snapshots sha256 started b identity items) (λ _, Idle).
Proof.
  induction items as [|item rest IH]; simpl.
  - intros w. apply good_idle.
  - eapply ach_bind; [apply ach_upload_snapshot|]. intros [|]; [exact IH|].
    intros w. apply good_idle.
Qed.

Lemma ach_upload_schemas t0 items b schemas :
  achieves (Good t0 items) (upload_schemas b schemas) (λ _, Good t0 items).
Proof.
  induction schemas as [|q rest IH]; simpl; [apply ach_ret|].
  eapply ach_bind; [|intros ?; exact IH]. unfold upload_schema. walk.
Qed.
Hint Resolve ach_upload_schemas : achieves.

Lemma ach_upload_bound started b : achieves Idle (upload_bound sha256 started b) (λ _, Idle).
Proof.
  unfold upload_bound, Idle. eapply ach_bind; [apply ach_attribute|].
  intros [[]|]; [|apply ach_ret]. eapply ach_bind; [apply ach_now|]. intros now.
  eapply ach_bind; [apply ach_look|]. intros schemas.
  eapply ach_bind; [apply ach_upload_schemas|]. intros ?.
  eapply ach_bind; [apply ach_read|]. intros [identity|]; [|apply ach_ret].
  eapply ach_bind; [apply ach_read|]. intros [scope|]; [|apply ach_ret].
  eapply ach_bind; [apply ach_now|]. intros now'.
  eapply ach_bind; [apply ach_batch|]. intros items. apply ach_exists. intros t1.
  apply (ach_bind _ _ _ (λ _, Idle)); [apply ach_upload_snapshots|]. intros _. apply ach_ret.
Qed.

Lemma ach_next_attempt t0 items :
  achieves (Good t0 items) (next_achievement_attempt_at sha256) (λ _, Good t0 items).
Proof.
  unfold next_achievement_attempt_at. walk.
Qed.
Hint Resolve ach_next_attempt ach_upload_bound : achieves.

Lemma ach_upload_round started gate :
  achieves Idle (upload_round sha256 started gate) (λ _, Idle).
Proof. unfold upload_round. walk. Qed.
Hint Resolve ach_upload_round : achieves.

Lemma ach_upload_rounds n started gate :
  achieves Idle (upload_rounds sha256 n started gate) (λ _, Idle).
Proof. revert gate. induction n as [|n IH]; intros gate; simpl; walk. Qed.
Hint Resolve ach_upload_rounds : achieves.

Lemma ach_wait t0 items next :
  achieves (Good t0 items) (wait_for_upload_work next) (λ _, Good t0 items).
Proof.
  unfold wait_for_upload_work. eapply ach_bind with (Q := λ _, Good t0 items); [walk|].
  intros now. apply ach_step. intros w Hw. simpl.
  destruct (wait_end _ _) as [[[] rest]|]; [| | |done]; by apply (state_same _ _ _ w).
Qed.
Hint Resolve ach_wait : achieves.

Lemma ach_persist t0 items :
  achieves (Good t0 items) persist_current_device_descriptor (λ _, Good t0 items).
Proof. unfold persist_current_device_descriptor. walk. Qed.
Hint Resolve ach_persist : achieves.

Lemma ach_upload_loop n started s : achieves Idle (upload_loop sha256 n started s) (λ _, Idle).
Proof.
  revert s. induction n as [|n IH]; intros s; simpl; [apply ach_ret|].
  eapply ach_bind with (Q := λ _, Idle); [|intros ?; case_match; [apply IH|apply ach_ret]].
  unfold upload_turn. walk.
Qed.
End worker.

(** C9 [stats_commit_never_lost]: while the worker runs for any number of turns, and other
    threads journal commits, complete them, change the context and act on the backend at any
    point, a commit that was journaled is still held by the journal under its owner and app,
    or a later commit of the same owner and app took its place, or the worker sent a snapshot
    that carries its id and the backend took it or refused it for good. *)
Theorem stats_commit_never_lost {St : Structsy} {L : StructsyLaws St} {Srv : Type}
    (sha256 : list Z → list Z) (turns : nat) (started : bool) (s : LoopState)
    (w : @World St Srv) (answer : option LoopState) (w' : @World St Srv)
    (Hunique : unique_by stats_key (stats_rows (aw_journal w)))
    (Hstart : aw_trace w = [])
    (Hevents : Z.of_nat (length (concat (aw_script w))) < 2 ^ 64)
    (Hrun : upload_loop sha256 turns started s w = (answer, w'))
    before c since (Hc : aw_trace w' = before ++ Committed c :: since) :
  superseded since c ∨ commit_held (aw_journal w') c ∨ delivered since c.
Proof.
  assert (Hw : Idle (events_left w) w).
  { split; try done; [|constructor..]. rewrite Hstart. intros []; by intros. }
  apply (ach_upload_loop sha256 _ Hevents turns started s) in Hw. rewrite Hrun in Hw.
  by apply (st_accounted _ _ _ _ _ Hw before).
Qed.

(** ** Steam stores stats *)

Section store.
Context {St : Structsy} {L : StructsyLaws St} {Srv : Type}.
Implicit Types w : @World St Srv.

Definition keyed w : Prop := unique_by stats_key (stats_rows (aw_journal w)).

Lemma event_keyed w e : keyed w → keyed (apply_event w e).
Proof.
  intros Hw. destruct e; simpl; try done; unfold commit_journal, complete_journal, keyed.
  - destruct (enqueue_stats_commit _ _) as [[[]|] j] eqn:E; simpl;
      [by eapply enqueue_stats_commit_Ok|by apply write_Err in E as ->].
  - destruct (complete_stats_snapshot _ _) as [[b|] j] eqn:E; simpl;
      [by eapply complete_stats_snapshot_Ok|by apply write_Err in E as ->].
Qed.
Lemma sync_keyed w : keyed w → keyed (sync w).
Proof.
  unfold sync. destruct (aw_script w) as [|batch rest]; [done|]. intros Hw.
  assert (keyed (set_script w rest)) as H by done. revert H. generalize (set_script w rest).
  clear w Hw. induction batch as [|e batch IH]; intros w Hw; [done|]. by apply IH, event_keyed.
Qed.
End store.

(** [store_commit_persisted]: when the entry point for a store request of Steam answers
    that the commit is persisted, it was journaled as the last thing that happened, the
    journal holds it as awaiting a snapshot, and it belongs to the owner and app asked for. *)
Theorem store_commit_persisted {St : Structsy} {L : StructsyLaws St} {Srv : Type}
    (sha256 : list Z → list Z) decode_request started app_id emsg request owner intent
    (w w' : @World St Srv) (Hunique : unique_by stats_key (stats_rows (aw_journal w)))
    (Hrun : persist_store_commit sha256 decode_request started app_id emsg request owner w
            = (Persisted intent, w')) :
  let c := in_marker intent in
  (∃ before, aw_trace w' = before ++ [Committed c]) ∧
  phase (aw_journal w') (commit_key c) = Some (Awaiting c) ∧
  sc_owner_scope c = so_principal_scope owner ∧ sc_app_id c = app_id ∧
  sc_commit_id c = bytes_str (stats_commit_id sha256 (sc_owner_steam_id64 c) app_id request).
Proof.
  revert Hrun. unfold persist_store_commit, owner_is_current, unix_now, read_context, step,
    mbind, M_bind, mret, M_ret. change (keyed w) in Hunique.
  destruct (negb _); [done|]. destruct (decode_store_commit _ _ _ _) as [[crc ids]|]; [|done].
  destruct (negb started); [done|]. destruct (negb _); [done|].
  generalize (cx_unix_now (aw_context (sync (sync w)))). intros now.
  set (c := stats_commit _ _ _ _ _ _ now). destruct (StatsSnapshotIntent_new c owner) as [i|] eqn:Hi; [|done].
  do 4 apply sync_keyed in Hunique. revert Hunique. generalize (sync (sync (sync (sync w)))).
  clear w. intros w Hw. unfold commit_journal.
  destruct (enqueue_stats_commit c (aw_journal w)) as [[[]|] j] eqn:E; [|done].
  intros [= <- <-]. assert (in_marker i = c) as ->.
  { unfold StatsSnapshotIntent_new in Hi. repeat case_match; by simplify_eq/=. }
  apply enqueue_stats_commit_Ok in E as [_ Hc]; [|done].
  apply commit_slots in Hc as [(sl & Hsl & Hp & _) _]. simpl. split; [by eexists|].
  split; [|done]. unfold phase. rewrite Hsl. simpl. by rewrite Hp.
Qed.
