(* ===== verification/WorkerExamples.v ===== *)
(** * WorkerExamples: the workers on concrete runs *)

From Stdlib Require Import ZArith Lia.
From S2P Require Import Prelude RustStd CloudCore Apps PlaytimeDownlink Storage JournalRecord SyncJournal.
From S2P Require Import JournalProofs WorkerContext Backends PlaytimeWorker PlaytimeWorkerProofs.
From S2P Require Import PlaytimeDelivery UserStats UserStatsProofs UserStatsPlaytime.
From S2P Require LocalSync LocalSyncProofs JournalExamples CloudSettings.
From S2P Require JournalStats AchievementWorker AchievementProofs CumulusClient.

Local Open Scope Z_scope.

(** ** A device with a shared folder *)

(** A codec of playtime records. *)
Definition record_fields (r : LocalSync.PlaytimeRecord) :=
  let e := LocalSync.lp_entry r in
  (LocalSync.lp_steam_id64 r, LocalSync.lp_client_id r,
   (pe_owner_scope e, pe_owner_steam_id64 e, pe_app_id e, pe_playtime_minutes e,
    pe_playtime_2weeks_minutes e, pe_last_played_at e, pe_observed_at e)).
Definition record_of (p : string * Z * (string * string * Z * Z * Z * option Z * Z))
    : LocalSync.PlaytimeRecord :=
  let '(steam, client, (scope, owner, app, minutes, weeks, played, observed)) := p in
  {| LocalSync.lp_steam_id64 := steam; LocalSync.lp_client_id := client;
     LocalSync.lp_entry := {| pe_owner_scope := scope; pe_owner_steam_id64 := owner;
       pe_app_id := app; pe_playtime_minutes := minutes; pe_playtime_2weeks_minutes := weeks;
       pe_last_played_at := played; pe_observed_at := observed |} |}.
Definition record_to_vec (r : LocalSync.PlaytimeRecord) : result string (list Z) :=
  Ok [Z.pos (encode (record_fields r))].
Definition record_from_slice (bytes : list Z) : result string LocalSync.PlaytimeRecord :=
  match bytes with
  | [Z.pos p] => match decode p with Some x => Ok (record_of x) | None => Err "malformed" end
  | _ => Err "malformed"
  end.

Lemma record_roundtrip : LocalSyncProofs.serde_roundtrip record_to_vec record_from_slice.
Proof.
  intros [steam client []] bytes [= <-]. unfold record_from_slice. by rewrite decode_encode.
Qed.

Definition folder_backend : CloudBackend LocalWorld :=
  local_backend record_to_vec record_from_slice (λ _, Err "unused") (λ _, Err "unused")
    (λ _, "digest") "local".

Definition folder_config : CloudSettings.CloudSection := {|
  CloudSettings.cl_backend := CloudSettings.LocalBackend;
  CloudSettings.cl_local := {| CloudSettings.lc_path := "/sync";
    CloudSettings.lc_syncthing := {| CloudSettings.ss_enabled := false;
      CloudSettings.ss_url := ""; CloudSettings.ss_api_key := "";
      CloudSettings.ss_folder_id := ""; CloudSettings.ss_timeout_ms := 1000 |} |};
  CloudSettings.cl_cumulus := {| CloudSettings.cc_server_url := ""; CloudSettings.cc_token := "";
    CloudSettings.cc_timeout_connect_ms := 1; CloudSettings.cc_timeout_ms := 1 |} |}.

Definition deck : DeviceDescriptor :=
  {| dd_client_id := 7; dd_machine_name := "deck"; dd_os_type := None; dd_device_type := None |}.

Definition signed_in (principals : gmap string string) (now : Z) : Context LocalWorld := {|
  cx_config := folder_config; cx_apps := with_inject [];
  cx_backend := Some {| cb_key := KeyLocal "/sync"; cb_backend := folder_backend |};
  cx_descriptor := Some deck; cx_steam_id := 765; cx_identity_generation := 1;
  cx_runtime_generation := 1; cx_principals := principals; cx_unix_now := now |}.

Definition empty_folder : LocalWorld := {| lw_folder := ∅; lw_faults := [[Some "disk full"]] |}.

Definition idle_world (principals : gmap string string)
    (script : list (list (@Event MemStructsy LocalWorld))) : @World MemStructsy LocalWorld := {|
  w_context := signed_in principals 100; w_journal := JournalExamples.empty_journal;
  w_server := empty_folder; w_pending := ∅; w_held := None; w_wake := false;
  w_connected := true; w_generation := 0; w_instant := 0; w_trace := []; w_script := script |}.

Definition runtime : RuntimeKey :=
  {| rk_credential_fingerprint := "local"; rk_steam_id64 := 765; rk_identity_generation := 1;
     rk_client_id := 7; rk_runtime_generation := 1 |}.
Definition unbound_owner : PendingPlaytimeOwner :=
  {| po_runtime := runtime; po_principal_scope := None |}.
Definition observed_game (minutes : Z) : PlaytimeGame :=
  {| gm_app_id := 10; gm_playtime_minutes := minutes; gm_playtime_2weeks_minutes := 1;
     gm_last_played_at := Some 90 |}.

(** A game is observed before the principal is known. The worker keeps it pending, is woken
    once the principal is cached, journals it and uploads it, first into a full disk and a
    second later with success. *)
Definition principal_arrives : list (list (@Event MemStructsy LocalWorld)) :=
  [[EMerge unbound_owner [observed_game 42]]] ++ replicate 20 [] ++
  [[EContext (signed_in {["local" := "local"]} 100); EWake]] ++ replicate 20 [] ++
  [[ETick 300]] ++ replicate 30 [] ++
  [[EContext (signed_in {["local" := "local"]} 102); ETick 1000]].

Definition playtime_run (turns : nat) : option LoopState * @World MemStructsy LocalWorld :=
  upload_loop (λ bytes, bytes) map_to_list turns loop_start (idle_world ∅ principal_arrives).

(** Where the game is after every turn. *)
Example playtime_run_turns :
  size (w_pending (playtime_run 1).2) = 1%nat ∧
  size (playtime_rows (w_journal (playtime_run 2).2)) = 1%nat ∧
  playtime_rows (w_journal (playtime_run 3).2) = ∅ ∧
  LocalSyncProofs.published_total record_from_slice
    (lw_folder (w_server (playtime_run 3).2)) "765" 10 7 = Some 42.
Proof. vm_compute. repeat split. Qed.

Lemma empty_rows_unique :
  unique_by playtime_key (playtime_rows JournalExamples.empty_journal).
Proof. unfold playtime_rows. simpl. rewrite mem_contents. apply unique_by_empty. Qed.

Lemma playtime_never_lost_witness : ∃ since,
  w_trace (playtime_run 2).2 = Merged unbound_owner (observed_game 42) :: since ∧
  (pending_holds (playtime_run 2).2 unbound_owner (observed_game 42) ∨
   journal_holds (playtime_rows (w_journal (playtime_run 2).2)) unbound_owner (observed_game 42) ∨
   answered since unbound_owner (observed_game 42) ∨ stale since unbound_owner).
Proof.
  exists (tail (w_trace (playtime_run 2).2)). split; [by vm_compute|].
  apply (playtime_never_lost (λ bytes, bytes) map_to_list (idle_world ∅ principal_arrives) 2
    loop_start (λ m, reflexivity _) empty_rows_unique eq_refl eq_refl []).
  by vm_compute.
Defined.

Lemma only_folder : only_backend folder_backend (signed_in ∅ 100).
Proof. by intros cached [= <-]. Qed.

Lemma folder_events_ok :
  Forall (Forall (folder_event record_from_slice folder_backend)) principal_arrives.
Proof. repeat constructor; by intros cached [= <-]. Qed.

Lemma playtime_reaches_folder_witness : ∃ since,
  w_trace (playtime_run 3).2 = Merged unbound_owner (observed_game 42) :: since ∧
  (pending_holds (playtime_run 3).2 unbound_owner (observed_game 42) ∨
   journal_holds (playtime_rows (w_journal (playtime_run 3).2)) unbound_owner (observed_game 42) ∨
   published record_from_slice (w_server (playtime_run 3).2) unbound_owner (observed_game 42) ∨
   refused since unbound_owner (observed_game 42) ∨ stale since unbound_owner).
Proof.
  exists (tail (w_trace (playtime_run 3).2)). split; [by vm_compute|].
  apply (playtime_reaches_folder (λ bytes, bytes) map_to_list record_to_vec record_from_slice
    (λ _, Err "unused") (λ _, Err "unused") (λ _, "digest") "local"
    (idle_world ∅ principal_arrives) 3 loop_start record_roundtrip (λ m, reflexivity _)
    empty_rows_unique eq_refl eq_refl only_folder folder_events_ok []).
  by vm_compute.
Defined.

(** A refused device is woken with a game. *)
Definition refused_state : LoopState :=
  {| ls_first_pass := false; ls_next_attempt_at := None; ls_pending_retry_at := None;
     ls_device_binding := record_failure 0 false |}.
Definition woken : @World MemStructsy LocalWorld :=
  idle_world {["local" := "local"]} [[EMerge unbound_owner [observed_game 42]; EWake]].


(** ** Stats *)

Definition stats_guard : StatsRefreshGuard :=
  {| rg_credential_fingerprint := "local"; rg_steam_id64 := 765; rg_identity_generation := 1;
     rg_client_id := 7; rg_runtime_generation := 1 |}.
Definition stats_intent : StatsSnapshotIntent :=
  {| in_marker := {| sc_owner_scope := "local"; sc_owner_steam_id64 := "765";
       sc_commit_id := "c1"; sc_app_id := 10; sc_base_crc_stats := None;
       sc_dirty_stat_ids := [1]; sc_observed_at := 100 |};
     in_guard := stats_guard |}.
Definition order_of (s : ReadSet) : list StatsSnapshotIntent := (map_to_list s).*2.

(** [UserStatsReceived_t] of app 10 with result OK, for the account 765. *)
Definition received_ok : ApiCallResultEvent :=
  {| ac_api_call := 99; ac_callback := 1101; ac_payload_size := 20;
     ac_payload := [10; 0; 0; 0; 0; 0; 0; 0] ++ [1; 0; 0; 0] ++ [253; 2; 0; 0; 0; 0; 0; 0] |}.

(** Without work: from the top of the loop to admitting refreshes. *)
Definition to_admitting : list Action := [AAdvance false; AAdvance false; AAdvance false; ATakeRead].
Definition refresh_actions : list Action :=
  to_admitting ++ [ATakeRefresh; AIssue true (Ok 99); ATakeRefresh] ++
  [AAdvance false; AResult true 765 received_ok; AAdvance false; AAdvance false; ATakeRead].

Definition asked : Worker :=
  (act order_of map_to_list worker_start (AQueueSnapshot stats_intent RefreshThenRead)).1.

Lemma read_follows_refresh_witness :
  (run order_of map_to_list asked refresh_actions).2 =
    [OIssued 10 99; OFinished 10 (Some 99) true; ORead stats_intent] ∧
  ∃ x call y z, [OIssued 10 99; OFinished 10 (Some 99) true] =
    x ++ OIssued 10 call :: y ++ OFinished 10 (Some call) true :: z.
Proof.
  split; [by vm_compute|].
  apply (read_follows_refresh order_of map_to_list [] refresh_actions stats_intent
    (λ s, reflexivity _) ltac:(done) ltac:(by vm_compute)
    ltac:(repeat constructor; done) eq_refl ltac:(simpl; lia) _ stats_intent []); by vm_compute.
Defined.

(** Why the two halves of a change of context must not be separated there: the worker opens a
    session between them, recovers a commit of the app and issues its refresh as call 98; the
    state is cleared; a new commit asks for a refresh, which is issued as call 99. The answer
    to 98 then releases the read. *)
Definition recovered_intent : StatsSnapshotIntent :=
  {| in_marker := {| sc_owner_scope := "local"; sc_owner_steam_id64 := "765";
       sc_commit_id := "c0"; sc_app_id := 10; sc_base_crc_stats := None;
       sc_dirty_stat_ids := [1]; sc_observed_at := 90 |};
     in_guard := stats_guard |}.
Definition received_early : ApiCallResultEvent :=
  {| ac_api_call := 98; ac_callback := 1101; ac_payload_size := 20;
     ac_payload := ac_payload received_ok |}.
Definition split_change : list Action :=
  [AEpochBumped; AAdvance false; AAdvance false; ARecover (λ _, true) [recovered_intent]] ++
  to_admitting ++ [ATakeRefresh; AIssue true (Ok 98); ATakeRefresh; AContextCleared].

Example split_change_reads_early :
  let w := (run order_of map_to_list worker_start split_change).1 in
  changes_whole split_change = false ∧
  (run order_of map_to_list w (AQueueSnapshot stats_intent RefreshThenRead ::
     to_admitting ++ [ATakeRefresh; AIssue true (Ok 99); ATakeRefresh] ++
     [AAdvance false; AResult true 765 received_early; AAdvance false; AAdvance false; ATakeRead])).2
  = [OIssued 10 99; OFinished 10 (Some 98) true; ORead stats_intent].
Proof. split; by vm_compute. Qed.

Lemma user_stats_invariant_witness :
  let w := (run order_of map_to_list worker_start
    (AQueueSnapshot stats_intent RefreshThenRead :: to_admitting ++ [ATakeRefresh])).1 in
  10 ∈ issuing_app w ∧
  (intent_app_id stats_intent ∈ pending_refresh_order (wk_state w) ∨
   intent_app_id stats_intent ∈ if_app_id <$> wk_in_flight w ∨
   intent_app_id stats_intent ∈ issuing_app w).
Proof.
  intros w. split; [by left|].
  destruct (user_stats_invariant order_of map_to_list
    (AQueueSnapshot stats_intent RefreshThenRead :: to_admitting ++ [ATakeRefresh])
    (λ s, reflexivity _)) as (_ & _ & _ & _ & _ & H & _).
  apply (H (intent_key stats_intent)). by vm_compute.
Defined.

(** A second signal for an app whose value has just been read: the end of that reading leaves
    the second signal. *)
Definition sampling : list Action :=
  [ASignalPlaytime 10 1; AAdvance false; AAdvance false; ATakePlaytime 1; AReadPlaytime true].

Lemma playtime_signal_answered_witness :
  let signalled := act order_of map_to_list (run order_of map_to_list worker_start sampling).1
    (ASignalPlaytime 10 1) in
  let res := run order_of map_to_list signalled.1 [AFinishPlaytime] in
  res.2 = [] ∧
  (OSampled 10 ∈ res.2 ∨ ∃ p, pending_playtime (wk_state res.1) !! 10 = Some p ∧
     pp_identity_generation p = 1 ∧ pp_ready p = true).
Proof.
  split; [by vm_compute|].
  apply (playtime_signal_answered order_of map_to_list sampling [AFinishPlaytime] 10 1);
    [done|by repeat constructor|simpl; lia].
Defined.

(** ** The achievement worker *)

Module Achievements.
Import JournalStats AchievementWorker AchievementProofs.

(** A service that calls the first snapshot out of date and takes the others. *)
Definition service : CloudBackend nat := {|
  cb_endpoint_scope := "service"; cb_principal_scope := λ n, (Ok "principal", n);
  cb_credential_fingerprint := "service"; cb_ensure_device_bound := λ _ n, (Ok tt, n);
  cb_accepts_achievement_schemas := true;
  cb_upload_achievement_schema := λ _ n, (Ok CumulusClient.SchemaAccepted, n);
  cb_upload_playtime := λ _ _ _ n, (Ok tt, n);
  cb_upload_steam_app_snapshot := λ _ s n,
    (Ok {| stats_apps := [{| au_app_id := ss_app_id s;
             au_status := if decide (n = 0%nat) then StatsOutOfDate else Applied;
             au_crc_stats := Some 99 |}] |}, S n);
  cb_pull_account_state := λ _ _ n,
    (Ok {| acc_stats_crcs := []; acc_playtime_revision := 0; acc_achievements := [];
           acc_stats := []; acc_playtime := [] |}, n);
  cb_pull_app_stats := λ _ _ _ n, (Ok Uninitialized, n) |}.

Definition online (now : Z) : Context nat := {|
  cx_config := folder_config; cx_apps := with_inject [];
  cx_backend := Some {| cb_key := KeyLocal "/sync"; cb_backend := service |};
  cx_descriptor := Some deck; cx_steam_id := 765; cx_identity_generation := 1;
  cx_runtime_generation := 1; cx_principals := {["service" := "principal"]};
  cx_unix_now := now |}.

Definition stored (id : string) : StatsCommit := {|
  sc_owner_scope := "principal"; sc_owner_steam_id64 := "765"; sc_commit_id := id;
  sc_app_id := 10; sc_base_crc_stats := Some 5; sc_dirty_stat_ids := [1; 3];
  sc_observed_at := 90 |}.
Definition unlocked (id : string) : SteamAppSnapshot :=
  official_snapshot (stored id) {| an_app_id := 10;
    an_achievements := [{| st_key := "WIN"; st_unlocked := true; st_unlock_time := 80 |}];
    an_stats := [] |} 95.

Definition stats_world (script : list (list (@Event MemStructsy nat))) : @World MemStructsy nat := {|
  aw_context := online 100; aw_journal := JournalExamples.empty_journal; aw_server := 0%nat;
  aw_generation := 0; aw_trace := []; aw_waits := [Woken; Woken; Woken]; aw_script := script |}.

(** A commit is stored and completed before the first turn, which sends the snapshot and
    is refused. It is completed again before the second turn; before the third a newer
    commit of the same app is stored. *)
Definition stats_events : list (list (@Event MemStructsy nat)) :=
  [[ECommit (stored "a"); EComplete (unlocked "a")]] ++ replicate 50 [] ++
  [[EComplete (unlocked "a")]] ++ replicate 50 [] ++ [[ECommit (stored "b")]].

Definition stats_run (turns : nat) : option LoopState * @World MemStructsy nat :=
  upload_loop (λ bytes, bytes) turns true loop_start (stats_world stats_events).

(** The slot of the app after every turn. *)
Definition app_phase (turns : nat) : option StatsPhase :=
  phase (aw_journal (stats_run turns).2) ("principal", "765", 10).
Example stats_run_turns :
  (phase_id <$> app_phase 1) = Some "a" ∧ app_phase 2 = None ∧
  app_phase 3 = Some (Awaiting (stored "b")) ∧ aw_server (stats_run 3).2 = 2%nat.
Proof. vm_compute. repeat split. Qed.

Lemma empty_stats_unique :
  unique_by stats_key (stats_rows JournalExamples.empty_journal).
Proof. unfold stats_rows. simpl. rewrite mem_contents. apply unique_by_empty. Qed.

Lemma stats_commit_never_lost_witness : ∃ since,
  aw_trace (stats_run 2).2 = Committed (stored "a") :: since ∧
  (superseded since (stored "a") ∨ commit_held (aw_journal (stats_run 2).2) (stored "a") ∨
   delivered since (stored "a")).
Proof.
  exists (tail (aw_trace (stats_run 2).2)). split; [by vm_compute|].
  apply (stats_commit_never_lost (λ bytes, bytes) 2 true loop_start (stats_world stats_events)
    (stats_run 2).1 (stats_run 2).2 empty_stats_unique eq_refl eq_refl
    (surjective_pairing _) []).
  by vm_compute.
Defined.

(** Steam stores the stats of app 10. *)
Definition stats_owner : StatsSnapshotOwner := {|
  so_guard := {| rg_credential_fingerprint := "service"; rg_steam_id64 := 765;
                 rg_identity_generation := 1; rg_client_id := 7; rg_runtime_generation := 1 |};
  so_principal_scope := "principal" |}.
Definition store_request : ClientStoreUserStats2Request := {|
  cs_game_id := Some 10; cs_settor_steam_id := None; cs_settee_steam_id := Some 765;
  cs_crc_stats := Some 5; cs_explicit_reset := None;
  cs_stats := [{| se_stat_id := Some 3; se_stat_value := Some 1 |};
               {| se_stat_id := Some 1; se_stat_value := Some 2 |};
               {| se_stat_id := Some 3; se_stat_value := Some 1 |}] |}.
Definition store_run : StoreCommitPersistence * @World MemStructsy nat :=
  persist_store_commit (λ bytes, bytes) (λ _, Some store_request) true 10
    EMSG_STORE_USERSTATS2 [1; 2] stats_owner (stats_world []).

Definition store_intent : StatsSnapshotIntent := {|
  in_marker := stats_commit (λ bytes, bytes) stats_owner 10 [1; 2] (Some 5) [3; 1; 3] 100;
  in_guard := so_guard stats_owner |}.

Lemma store_answer : store_run.1 = Persisted store_intent.
Proof. vm_compute. reflexivity. Qed.

Lemma store_commit_persisted_witness :
  sc_dirty_stat_ids (in_marker store_intent) = [1; 3] ∧
  phase (aw_journal store_run.2) (commit_key (in_marker store_intent))
    = Some (Awaiting (in_marker store_intent)).
Proof.
  split; [reflexivity|].
  apply (store_commit_persisted (λ bytes, bytes) (λ _, Some store_request) true 10
    EMSG_STORE_USERSTATS2 [1; 2] stats_owner store_intent (stats_world []) store_run.2
    empty_stats_unique).
  etrans; [apply (surjective_pairing store_run)|]. by rewrite store_answer.
Defined.
End Achievements.
